(* ===== verification/_CoqProject ===== *)
-Q . S2P
Prelude.v
Status.v
Endian.v
Crc32c.v
Buffer.v
Types.v
Text.v
OrdMap.v
Codec.v
MessageCodec.v
MessagesData.v
MessagesControl.v
MessagesGroup.v
MessageSize.v
Messages.v
Frame.v
Record.v
FileUtil.v
Search.v
OffsetIndex.v
Quiet.v
Segment.v
SegmentSpec.v
Recovery.v
SegmentOps.v
SegmentRead.v
SegmentTheorems.v
PartitionLog.v
PartitionLogSpec.v
PartitionLogRoll.v
PartitionLogBatch.v
PartitionLogAppend.v
PartitionLogRead.v
PartitionLogTruncate.v
PartitionLogOpen.v
PartitionLogTheorems.v
PartitionLogCrash.v
ClusterMetadata.v
ClusterMetadataTheorems.v
Replica.v
ReplicaTheorems.v
Replication.v
ReplicationTheorems.v
Assignor.v
OffsetStore.v
OffsetStoreTheorems.v
GroupCoordinator.v
GroupCoordinatorTheorems.v
RequestHandler.v
RequestTheorems.v
MpmcQueue.v
MpmcTheorems.v
Mailbox.v
SpscRing.v
Config.v
BrokerConfig.v
ConfigTheorems.v
PartitionManager.v
PartitionManagerTheorems.v
Broker.v
BrokerTheorems.v
Socket.v
Connection.v
ConnectionTheorems.v
Histogram.v
SyncClient.v
ClientContext.v
Producer.v
Consumer.v
ConsumerTheorems.v
LoopTasks.v
EventLoop.v
TcpServer.v
Worker.v
Sender.v
SenderTheorems.v
Registry.v
RegistryTheorems.v
Exporter.v
BrokerLoops.v
