(* ===== verification/Prelude.v ===== *)
(** * PulseLog: a verification development

    PulseLog is an event-streaming broker: producers append records to the partitions of
    topics, consumers read them back by offset, partitions are replicated over a fixed set
    of brokers, and consumer groups share the partitions of the topics they subscribe to.
    This library models the broker of src/src and src/include/pulselog, from the bytes of a
    frame to the files of a log, and the client library of src/clients/cpp, and proves what
    their parts promise to each other and to applications.

    ** How the parts fit together

    A connection ([Connection]) decodes frames ([Frame]) from its socket ([Socket]) and hands
    each to the broker ([Broker.OnFrame]), which answers group and metadata requests on the
    io thread and puts partition requests on the queue ([MpmcQueue]) of the worker that owns
    the partition ([Broker.WorkerForRequest]).  The worker resolves the partition
    ([PartitionManager], [ClusterMetadata]) and runs the handler ([RequestHandler]) on its
    replica ([Replica]), whose records are in a log ([PartitionLog]) of segments
    ([Segment]) with sparse indexes ([OffsetIndex]) over files ([FileUtil]).  Senders and
    followers ([Replication]) copy leader logs; acknowledgements wait in the replica until
    enough replicas have a record.  Consumer groups ([GroupCoordinator], [Assignor]) keep
    their positions in a journal ([OffsetStore]) that is itself a partition log.  On the
    other side an application's [Producer] or [Consumer] routes through a [ClientContext],
    whose connections are [SyncClient]s.

    ** Files

    - Prelude: machine integers as [Z] with explicit wrap-around ([u64], [i32], ...), byte
      strings as lists of [Z], list lemmas with [Z] sizes and the tactic [zlist].
    - Status, Types, Text, OrdMap, Search: error codes and the state-and-error monad [SR],
      identifiers and names, decimal text, std::map as a sorted association list, binary
      search.
    - Endian, Crc32c, Buffer: src/base; three CRC implementations and their dispatch,
      ByteBuffer and BufferPool.
    - Codec, MessageCodec, MessagesData, MessagesControl, MessagesGroup, MessageSize, Messages:
      the payload codec and all protocol messages; [ByteSink] is the interface between an
      encoder and where it writes, [MessageCodec] what a message type promises, [compact]
      that a decoded message is no larger than what it was decoded from.
    - Frame, Record: framing and the record format of src/protocol.
    - FileUtil, Quiet: files over an operating system that may interrupt, fall short or fail
      at any call ([Outcome]); which failures are the system's.  A file has its contents and
      what its syncs have [Secured]: in the device (kData) and on stable media (kFull); after
      a sync that failed nothing more counts as secured.
    - OffsetIndex, Segment, SegmentSpec, Recovery, SegmentOps, SegmentRead, SegmentTheorems:
      src/storage/offset_index.cc and segment.cc; [seg_inv] says which records a segment holds.
    - PartitionLog and PartitionLogSpec, -Roll, -Batch, -Append, -Read, -Truncate, -Open,
      -Theorems, -Crash: src/storage/partition_log.cc; [log_inv] relates it to the runs of records it holds.
    - ClusterMetadata, ClusterMetadataTheorems: src/metadata; [md_reachable] covers every method
      that changes it, with the topics that came in unchecked (upserted or loaded) named apart.
    - Replica, ReplicaTheorems, Replication, ReplicationTheorems: partition_replica.cc and
      replicator.cc; a cluster of logs as a step relation ([cluster_step]): the three parts of
      a replication round are separate steps over a network that loses and delays messages,
      followers restart on what recovery finds, the leader when it loses nothing.
    - Assignor, OffsetStore, OffsetStoreTheorems, GroupCoordinator, GroupCoordinatorTheorems:
      src/consumer.
    - RequestHandler, RequestTheorems, PartitionManager, PartitionManagerTheorems, Broker,
      BrokerTheorems: src/broker; [Broker] is the state the handlers share.
    - MpmcQueue, MpmcTheorems, SpscRing: the lock-free queues, one step per atomic access,
      under every interleaving of sequentially consistent steps.  Mailbox: such a queue with
      many producers and one consumer, as the event loop and the workers use it.
    - Config, BrokerConfig, ConfigTheorems: src/base/config.cc and broker_config.cc.
    - Socket, Connection, ConnectionTheorems: the transfers of src/net/socket.cc and
      src/net/connection.cc.
    - Histogram: src/metrics/histogram.cc.
    - SyncClient: src/net/sync_client.cc, a blocking request/response connection over [Socket].
    - ClientContext, Producer, Consumer, ConsumerTheorems: the client library of clients/cpp;
      a connection is reached by its key in the pool, and what connecting, waiting and the
      clock will yield is part of the context.  [ResponseMessage] is what a response promises
      to the client that decodes it.
    - LoopTasks: src/net/event_loop.cc where other threads take part (posting tasks, waking the
      loop, stopping it), one step per access to shared memory, in any interleaving, over the steps of [Mailbox].
    - EventLoop: the rest of src/net/event_loop.cc, on the loop's own thread: handlers,
      dispatch, deferred closing, timers; what a handler does is a parameter that sees the
      whole history of the loop.
    - TcpServer: src/net/tcp_server.cc, placing and counting connections.
    - Worker: src/broker/worker.cc, the thread of a partition and its submitters, in any
      interleaving, over the steps of [Mailbox].
    - Sender, SenderTheorems: the thread of src/replication/replicator.cc that replicates to one
      peer, over [Replication] and [SyncClient].
    - Registry, RegistryTheorems, Exporter: src/metrics/registry.cc and exporter.cc.
    - BrokerLoops: the flusher, maintenance and sampling loops of src/broker/broker.cc and its
      shutdown.

    A definition has the name of the function it translates where that is free, otherwise the
    class name in front ([Log_Append] is PartitionLog::Append).  Error messages are dropped:
    an error is its [ErrorCode].

    ** What is shown

    - Storage: an append adds exactly the batch or nothing, a read returns exactly the records
      asked for, truncation and retention cut exactly; recovery keeps the valid prefix of a
      segment; in every reachable state of a log what is below the flushed offset was secured
      by a sync, and after a crash every record there is back, at its offset (for files that
      recovery can read: [disk_chain], [records_fit_window], [tail_decided]).
    - Replication: follower logs are copies of the leader's as long as the leader loses nothing;
      an OK quorum acknowledgement means that a majority has the record on disk; every waiting
      request is answered once; a flush sweep answers exactly those that can be.
    - Clients: what a fetch may return, what a produce response means, at which broker and
      worker a request runs and what it leaves alone, that a new topic gets the controller's
      layout on the brokers that take or fetch it.
    - Groups: a partition has one owner per generation, stale commits are refused, committed
      offsets survive a crash.
    - Formats: encoders and decoders agree on every message, frame and record, and decoding
      hostile bytes stays inside them and yields nothing larger than they are; the metadata
      file, if all of it was written, restores the metadata.
    - Concurrency and networking: both queues are FIFO queues under every interleaving; a
      connection neither loses nor reorders bytes and never stops with output pending.
    - Client library: a call returns the answer to its own request and keeps the stream in
      step, or reports; a producer batches what it accepts in order, each record once, and
      reports as delivered what its broker answered with OK to that very request; a consumer's
      poll takes the partitions in turn and moves another position only after its own fetch
      came out as out of range; a broker's error always reaches the caller.
    - Metrics: a reported percentile is not below the sample of its rank and within the
      promised relative error above it.
    - Threads: with every step of the real queue, no task handed to an event loop is stranded by
      coalesced wake-ups once its posters have finished, a worker executes what has a ticket
      in order and once; a handler is closed exactly
      once and hears nothing after; the counters of a server are exact and within its limit.
    - Failure detection: a follower that cannot be reached is evicted within two iterations of
      its sender, the first with its liveness probe due, and nothing waits for it any more; a hung one never is.
    - Metrics text: one block per family of metrics; a GET is answered by its path however its
      bytes arrive.
    - Background work: a maintenance pass fails exactly the overdue requests and keeps to its
      schedule; a stopped broker has failed what was waiting, saved its metadata and flushed
      every log.
    - Defects: a record whose lengths wrap is accepted, recovery of a large record does not end,
      a negative queue capacity hangs the start, a leader that restarts without its unflushed
      tail diverges from its followers, a sync retried after a failure overclaims, a request
      accepted before the stop of a worker can be lost behind an unpublished ticket.

    ** Fuel and bounds

    Loops whose bound is not structural take fuel, and where it runs out the model says
    [Err kInternal] (or stops, for the flush loop of a connection); the theorems give the
    fuel that is enough: a system call loop needs one unit per answer the system still has
    ([write_loop], [again], [flush_loop], [send_loop], [response_loop]), a scan one per record it can meet, the doubling
    loops one per bit ([grow], [round_up_loop]).  [Recover_diverges] and [config_hangs] are
    about loops of the source that do not end, for every amount of fuel.  Integers are kept
    at their width where the source can reach it; theorems state the bounds they need
    ([unsigned], [signed], sizes below 2^62), which the callers establish.

    ** Not modelled

    Threads and their start and stop, system-call set-up of sockets, pollers and directories,
    memory-mapped reads, process statistics, log output, floating-point values, and the command
    line tools: they carry no state the properties depend on.  Memory orderings weaker than
    sequential consistency are not modelled.  Calls between brokers are a parameter
    ([re_controller]) or messages of a network that may lose them. *)
From Stdlib Require Export ZArith Lia.
From stdpp Require Export base tactics list numbers option gmap strings sorting.

#[global] Open Scope Z_scope.

(** ** Machine integers

    A w-bit unsigned integer is a [Z] in [0, 2^w); [uwrap w] is the conversion
    every unsigned C++ expression of that width goes through, [swrap w] the
    two's-complement reinterpretation mandated since C++20. *)
Definition uwrap (w : Z) (z : Z) : Z := z mod 2 ^ w.
Definition swrap (w : Z) (z : Z) : Z := (z + 2 ^ (w - 1)) mod 2 ^ w - 2 ^ (w - 1).

Abbreviation u8 := (uwrap 8).
Abbreviation u16 := (uwrap 16).
Abbreviation u32 := (uwrap 32).
Abbreviation u64 := (uwrap 64).
Abbreviation i16 := (swrap 16).
Abbreviation i32 := (swrap 32).
Abbreviation i64 := (swrap 64).

Definition unsigned (w z : Z) : Prop := 0 ≤ z < 2 ^ w.
Definition signed (w z : Z) : Prop := - 2 ^ (w - 1) ≤ z < 2 ^ (w - 1).

Lemma uwrap_small w z : unsigned w z → uwrap w z = z.
Proof. apply Z.mod_small. Qed.

Lemma uwrap_range w z : 0 ≤ w → unsigned w (uwrap w z).
Proof. intros; apply Z.mod_pos_bound; lia. Qed.

Lemma pow2_split w : 0 < w → 2 ^ w = 2 * 2 ^ (w - 1).
Proof. intros. rewrite <- Z.pow_succ_r by lia. f_equal; lia. Qed.

Lemma swrap_small w z : 0 < w → signed w z → swrap w z = z.
Proof.
  unfold swrap, signed. intros Hw Hz. pose proof (pow2_split w Hw).
  rewrite Z.mod_small; lia.
Qed.

Lemma swrap_range w z : 0 < w → signed w (swrap w z).
Proof.
  unfold swrap, signed. intros Hw. pose proof (pow2_split w Hw).
  pose proof (Z.mod_pos_bound (z + 2 ^ (w - 1)) (2 ^ w) ltac:(lia)). lia.
Qed.

(** Writing a signed value through its unsigned image and reading it back. *)
Lemma swrap_uwrap w z : 0 < w → signed w z → swrap w (uwrap w z) = z.
Proof.
  intros Hw Hz. rewrite <- (swrap_small w z Hw Hz) at 2.
  unfold swrap, uwrap. f_equal. by rewrite Zplus_mod_idemp_l.
Qed.

(** ** Lists of bytes with [Z] sizes

    Sizes and positions are [Z] (they are std::size_t in the source, and the
    constants reach 2^26); [zlen], [ztake], [zdrop] and [slice] are the
    [Z]-indexed views of the list operations. *)
Definition zlen {A} (l : list A) : Z := Z.of_nat (length l).
Definition ztake {A} (n : Z) (l : list A) : list A := take (Z.to_nat n) l.
Definition zdrop {A} (n : Z) (l : list A) : list A := drop (Z.to_nat n) l.
Definition slice {A} (pos len : Z) (l : list A) : list A := ztake len (zdrop pos l).
(** [l[i]] for an index already known to be in range. *)
Definition znth (l : list Z) (i : Z) : Z := nth (Z.to_nat i) l 0.
(** [memcpy] of [bs] over [l] at [pos]; bytes past the end of [l] are dropped by
    the caller's own sizing, never by this definition. *)
Definition zsplice {A} (pos : Z) (bs l : list A) : list A :=
  ztake pos l ++ bs ++ zdrop (pos + zlen bs) l.

Abbreviation bytes := (list Z).
Definition is_byte (b : Z) : Prop := 0 ≤ b < 256.

Create Rewrite HintDb zlist.

Lemma zlen_nonneg {A} (l : list A) : 0 ≤ zlen l.
Proof. unfold zlen; lia. Qed.

Lemma zlen_nil {A} : zlen (@nil A) = 0.
Proof. done. Qed.

Lemma zlen_cons {A} (x : A) l : zlen (x :: l) = 1 + zlen l.
Proof. unfold zlen; simpl length; lia. Qed.

Lemma zlen_app {A} (l k : list A) : zlen (l ++ k) = zlen l + zlen k.
Proof. unfold zlen; rewrite length_app; lia. Qed.

Lemma zlen_ztake {A} n (l : list A) : zlen (ztake n l) = Z.min (Z.max n 0) (zlen l).
Proof. unfold zlen, ztake; rewrite length_take; lia. Qed.

Lemma zlen_zdrop {A} n (l : list A) : zlen (zdrop n l) = Z.max (zlen l - Z.max n 0) 0.
Proof. unfold zlen, zdrop; rewrite length_drop; lia. Qed.

Lemma zlen_0_nil {A} (l : list A) : zlen l = 0 → l = [].
Proof. destruct l; [done|]. rewrite zlen_cons. pose proof (zlen_nonneg l). lia. Qed.

Lemma ztake_app_le {A} n (l k : list A) : n ≤ zlen l → ztake n (l ++ k) = ztake n l.
Proof. unfold zlen, ztake. intros. rewrite take_app_le; [done|lia]. Qed.

Lemma ztake_all {A} n (l : list A) : zlen l ≤ n → ztake n l = l.
Proof. unfold zlen, ztake. intros. apply take_ge; lia. Qed.

Lemma ztake_app {A} n (l k : list A) : n = zlen l → ztake n (l ++ k) = l.
Proof. intros ->. rewrite ztake_app_le by lia. by apply ztake_all. Qed.

Lemma ztake_0 {A} n (l : list A) : n ≤ 0 → ztake n l = [].
Proof. unfold ztake. intros. by replace (Z.to_nat n) with 0%nat by lia. Qed.

Lemma zdrop_0 {A} n (l : list A) : n ≤ 0 → zdrop n l = l.
Proof. unfold zdrop. intros. by replace (Z.to_nat n) with 0%nat by lia. Qed.

Lemma zdrop_all {A} n (l : list A) : zlen l ≤ n → zdrop n l = [].
Proof. unfold zlen, zdrop. intros. apply drop_ge; lia. Qed.

Lemma zdrop_app_ge {A} n (l k : list A) :
  zlen l ≤ n → zdrop n (l ++ k) = zdrop (n - zlen l) k.
Proof. unfold zlen, zdrop. intros. rewrite drop_app_ge by lia. f_equal; lia. Qed.

Lemma zdrop_app_le {A} n (l k : list A) : n ≤ zlen l → zdrop n (l ++ k) = zdrop n l ++ k.
Proof. unfold zlen, zdrop. intros. apply drop_app_le; lia. Qed.

Lemma zdrop_app {A} n (l k : list A) : n = zlen l → zdrop n (l ++ k) = k.
Proof. intros ->. rewrite zdrop_app_ge by lia. apply zdrop_0; lia. Qed.

Lemma zdrop_zdrop {A} n m (l : list A) :
  0 ≤ n → 0 ≤ m → zdrop n (zdrop m l) = zdrop (m + n) l.
Proof. unfold zdrop. intros. rewrite drop_drop. f_equal; lia. Qed.

Lemma ztake_zdrop {A} n (l : list A) : ztake n l ++ zdrop n l = l.
Proof. apply take_drop. Qed.

Lemma ztake_ztake {A} n m (l : list A) : ztake n (ztake m l) = ztake (Z.min n m) l.
Proof. unfold ztake. rewrite take_take. f_equal; lia. Qed.

Lemma zdrop_ztake {A} n m (l : list A) : 0 ≤ n → zdrop n (ztake m l) = ztake (m - n) (zdrop n l).
Proof.
  unfold ztake, zdrop. intros. rewrite skipn_firstn_comm. f_equal; lia.
Qed.

Lemma slice_app_l {A} pos len (l k : list A) :
  0 ≤ pos → pos + len ≤ zlen l → slice pos len (l ++ k) = slice pos len l.
Proof.
  intros. unfold slice. destruct (Z.le_gt_cases 0 len).
  - rewrite zdrop_app_le by lia. rewrite ztake_app_le; [done|]. rewrite zlen_zdrop. lia.
  - by rewrite !ztake_0 by lia.
Qed.

Lemma slice_app_r {A} pos len (l k : list A) :
  zlen l ≤ pos → slice pos len (l ++ k) = slice (pos - zlen l) len k.
Proof. intros. unfold slice. by rewrite zdrop_app_ge. Qed.

Lemma zlen_slice {A} pos len (l : list A) :
  0 ≤ pos → 0 ≤ len → pos + len ≤ zlen l → zlen (slice pos len l) = len.
Proof. intros. unfold slice. rewrite zlen_ztake, zlen_zdrop. lia. Qed.

Lemma slice_split {A} pos len pos' len' (l : list A) :
  0 ≤ pos → 0 ≤ len → 0 ≤ len' → pos' = pos + len →
  slice pos len l ++ slice pos' len' l = slice pos (len + len') l.
Proof.
  intros. subst. unfold slice, ztake, zdrop.
  replace (Z.to_nat (len + len')) with (Z.to_nat len + Z.to_nat len')%nat by lia.
  replace (Z.to_nat (pos + len)) with (Z.to_nat pos + Z.to_nat len)%nat by lia.
  by rewrite <- drop_drop, take_take_drop.
Qed.

Lemma slice_0 {A} len (l : list A) : slice 0 len l = ztake len l.
Proof. unfold slice. by rewrite zdrop_0. Qed.

Lemma ztake_zlen {A} n (l : list A) : ztake (zlen (ztake n l)) l = ztake n l.
Proof.
  rewrite zlen_ztake. destruct (Z.le_gt_cases n (zlen l)).
  - destruct (Z.le_gt_cases n 0); [by rewrite !ztake_0 by lia|]. f_equal. lia.
  - pose proof (Zle_0_nat (length l)). unfold zlen in *. rewrite !ztake_all; unfold zlen; try lia. done.
Qed.

Lemma slice_nil {A} pos (l : list A) : slice pos 0 l = [].
Proof. done. Qed.

Lemma Forall_slice {A} (P : A → Prop) pos len (l : list A) : Forall P l → Forall P (slice pos len l).
Proof. intros. unfold slice, ztake, zdrop. by apply Forall_take, Forall_drop. Qed.

Lemma zlen_zsplice {A} pos (bs l : list A) :
  0 ≤ pos → pos + zlen bs ≤ zlen l → zlen (zsplice pos bs l) = zlen l.
Proof.
  intros. pose proof (zlen_nonneg bs). unfold zsplice.
  rewrite !zlen_app, zlen_ztake, zlen_zdrop. lia.
Qed.

#[export] Hint Rewrite @zlen_nil @zlen_cons @zlen_app @zlen_ztake @zlen_zdrop : zlist.

(** [zlist] turns every size in sight into linear arithmetic and closes it. *)
Ltac zlen_pos :=
  repeat match goal with
  | |- context [zlen ?l] =>
      lazymatch goal with H : 0 ≤ zlen l |- _ => fail | _ => pose proof (zlen_nonneg l) end
  | _ : context [zlen ?l] |- _ =>
      lazymatch goal with H : 0 ≤ zlen l |- _ => fail | _ => pose proof (zlen_nonneg l) end
  end.
Ltac zlist := autorewrite with zlist in *; zlen_pos; lia.
