(* ===== verification/Status.v ===== *)
(** * Status: error codes, [Status] and [Result]

    Models include/pulselog/base/status.h and src/base/status.cc.  [Status]
    carries a code and a message; [operator==] compares codes only, and that
    equivalence is [status_eq] here.  The rest of the development propagates
    errors by code through [Result], the fallible-value type of the source, and
    through [SR], the same thing for code that also mutates an object: the
    mutations made before an early return stay, exactly as in the source. *)
From S2P Require Import Prelude.

Inductive ErrorCode : Set :=
  | kOk | kUnknown | kInvalidArgument | kNotFound | kAlreadyExists | kOutOfRange
  | kCorruption | kIoError | kUnavailable | kTimeout | kBackpressure | kNotLeader
  | kNotEnoughReplicas | kProtocolError | kUnsupportedVersion | kPermissionDenied
  | kResourceExhausted | kRebalanceInProgress | kUnknownMember | kIllegalGeneration
  | kClosed | kWouldBlock | kInternal.

#[global] Instance ErrorCode_eq_dec : EqDecision ErrorCode.
Proof. solve_decision. Defined.

(** The declaration order is the numbering of the enum. *)
Definition all_error_codes : list ErrorCode :=
  [kOk; kUnknown; kInvalidArgument; kNotFound; kAlreadyExists; kOutOfRange;
   kCorruption; kIoError; kUnavailable; kTimeout; kBackpressure; kNotLeader;
   kNotEnoughReplicas; kProtocolError; kUnsupportedVersion; kPermissionDenied;
   kResourceExhausted; kRebalanceInProgress; kUnknownMember; kIllegalGeneration;
   kClosed; kWouldBlock; kInternal].

(** [static_cast<std::uint16_t>(code)]. *)
Definition error_code_raw (c : ErrorCode) : Z :=
  match c with
  | kOk => 0 | kUnknown => 1 | kInvalidArgument => 2 | kNotFound => 3
  | kAlreadyExists => 4 | kOutOfRange => 5 | kCorruption => 6 | kIoError => 7
  | kUnavailable => 8 | kTimeout => 9 | kBackpressure => 10 | kNotLeader => 11
  | kNotEnoughReplicas => 12 | kProtocolError => 13 | kUnsupportedVersion => 14
  | kPermissionDenied => 15 | kResourceExhausted => 16 | kRebalanceInProgress => 17
  | kUnknownMember => 18 | kIllegalGeneration => 19 | kClosed => 20
  | kWouldBlock => 21 | kInternal => 22
  end.

(** [static_cast<ErrorCode>(raw)] for a raw value inside the enumeration. *)
Definition error_code_of_raw (raw : Z) : option ErrorCode :=
  if bool_decide (0 ≤ raw) then all_error_codes !! Z.to_nat raw else None.

Lemma error_code_of_raw_raw c : error_code_of_raw (error_code_raw c) = Some c.
Proof. by destruct c. Qed.

Lemma error_code_raw_range c : 0 ≤ error_code_raw c ≤ 22.
Proof. destruct c; simpl; lia. Qed.

Definition ErrorCodeName (code : ErrorCode) : string :=
  match code with
  | kOk => "OK" | kUnknown => "UNKNOWN" | kInvalidArgument => "INVALID_ARGUMENT"
  | kNotFound => "NOT_FOUND" | kAlreadyExists => "ALREADY_EXISTS"
  | kOutOfRange => "OUT_OF_RANGE" | kCorruption => "CORRUPTION"
  | kIoError => "IO_ERROR" | kUnavailable => "UNAVAILABLE" | kTimeout => "TIMEOUT"
  | kBackpressure => "BACKPRESSURE" | kNotLeader => "NOT_LEADER"
  | kNotEnoughReplicas => "NOT_ENOUGH_REPLICAS" | kProtocolError => "PROTOCOL_ERROR"
  | kUnsupportedVersion => "UNSUPPORTED_VERSION"
  | kPermissionDenied => "PERMISSION_DENIED"
  | kResourceExhausted => "RESOURCE_EXHAUSTED"
  | kRebalanceInProgress => "REBALANCE_IN_PROGRESS"
  | kUnknownMember => "UNKNOWN_MEMBER" | kIllegalGeneration => "ILLEGAL_GENERATION"
  | kClosed => "CLOSED" | kWouldBlock => "WOULD_BLOCK" | kInternal => "INTERNAL"
  end%string.

Definition IsRetryable (code : ErrorCode) : bool :=
  match code with
  | kUnavailable | kTimeout | kBackpressure | kNotLeader | kNotEnoughReplicas
  | kRebalanceInProgress | kWouldBlock => true
  | _ => false
  end.

Record Status : Set := mkStatus { code : ErrorCode; message : string }.

Definition OkStatus : Status := mkStatus kOk "".
Definition status_ok (s : Status) : bool := bool_decide (code s = kOk).

(** [Status::operator==]: codes only. *)
Definition status_eq (a b : Status) : Prop := code a = code b.

Definition ToString (s : Status) : string :=
  if status_ok s then "OK"
  else (ErrorCodeName (code s) +:+
        (if bool_decide (message s = "") then "" else ": " +:+ message s))%string.

Definition WithContext (context : string) (s : Status) : Status :=
  if status_ok s then s else mkStatus (code s) (context +:+ ": " +:+ message s)%string.

(** The errno values [ErrnoToStatus] distinguishes; every other one is [EOther]. *)
Inductive Errno : Set :=
  | EINTR | ENOENT | EEXIST | EACCES | EPERM | ENOSPC | EDQUOT | EMFILE | ENFILE
  | EAGAIN | ETIMEDOUT | EINVAL | ECONNRESET | EPIPE | ENOTCONN | EOther (n : Z).

#[global] Instance Errno_eq_dec : EqDecision Errno.
Proof. solve_decision. Defined.

(** The code [ErrnoToStatus] gives to an errno (its message is text only). *)
Definition ErrnoToStatus (err : Errno) : ErrorCode :=
  match err with
  | ENOENT => kNotFound
  | EEXIST => kAlreadyExists
  | EACCES | EPERM => kPermissionDenied
  | ENOSPC | EDQUOT | EMFILE | ENFILE => kResourceExhausted
  | EAGAIN => kWouldBlock
  | ETIMEDOUT => kTimeout
  | EINVAL => kInvalidArgument
  | ECONNRESET | EPIPE | ENOTCONN => kClosed
  | EINTR | EOther _ => kIoError
  end.

Lemma ErrnoToStatus_not_ok err : ErrnoToStatus err ≠ kOk.
Proof. destruct err; discriminate. Qed.

#[global] Instance status_eq_equivalence : Equivalence status_eq.
Proof. unfold status_eq; split; repeat intro; congruence. Qed.

#[global] Instance WithContext_proper ctx : Proper (status_eq ==> status_eq) (WithContext ctx).
Proof.
  intros [c1 m1] [c2 m2]; unfold status_eq, WithContext, status_ok; simpl.
  intros ->. by case_bool_decide.
Qed.

Lemma WithContext_status_eq ctx s : status_eq (WithContext ctx s) s.
Proof. unfold WithContext, status_eq. by destruct (status_ok s). Qed.

(** ** [Result<T>] *)

Inductive Result (A : Type) : Type :=
  | Ok (a : A)
  | Err (e : ErrorCode).
Arguments Ok {A} a.
Arguments Err {A} e.

#[global] Instance Result_eq_dec {A} `{!EqDecision A} : EqDecision (Result A).
Proof. solve_decision. Defined.

(** [Result(Status)]: an OK status without a value becomes [kInternal]. *)
Definition result_of_status {A} (s : Status) : Result A :=
  if status_ok s then Err kInternal else Err (code s).

Definition result_code {A} (r : Result A) : ErrorCode :=
  match r with Ok _ => kOk | Err e => e end.

Definition is_ok {A} (r : Result A) : bool := match r with Ok _ => true | Err _ => false end.

Definition rbind {A B} (r : Result A) (k : A → Result B) : Result B :=
  match r with Ok a => k a | Err e => Err e end.

(** ** Fallible operations on a mutable object

    [SR S A] is a method of an object of type [S]: it returns a [Result] and
    the object as the method left it, whether or not it succeeded. *)
Definition SR (S A : Type) : Type := S → Result A * S.

Definition sret {S A} (a : A) : SR S A := λ s, (Ok a, s).
Definition sfail {S A} (e : ErrorCode) : SR S A := λ s, (Err e, s).
Definition sbind {S A B} (m : SR S A) (k : A → SR S B) : SR S B := λ s,
  match m s with
  | (Ok a, s') => k a s'
  | (Err e, s') => (Err e, s')
  end.
Definition sget {S} : SR S S := λ s, (Ok s, s).
Definition smod {S} (f : S → S) : SR S unit := λ s, (Ok tt, f s).
Definition slift {S A} (r : Result A) : SR S A := λ s, (r, s).
(** Run a method of a sub-object reached by a getter and a setter. *)
Definition szoom {S T A} (get : S → T) (set : T → S → S) (m : SR T A) : SR S A := λ s,
  let '(r, t) := m (get s) in (r, set t s).
(** A status that the caller inspects instead of propagating. *)
Definition stry {S A} (m : SR S A) : SR S (Result A) := λ s,
  let '(r, s') := m s in (Ok r, s').

Declare Scope pulse_scope.
Delimit Scope pulse_scope with pulse.
Notation "'let?' x := r 'in' k" := (rbind r (λ x, k))
  (at level 10, x name, r at level 100, k at level 200) : pulse_scope.
Notation "'let?' ' p := r 'in' k" := (rbind r (λ p, k))
  (at level 10, p strict pattern, r at level 100, k at level 200) : pulse_scope.
Notation "'let!' x := m 'in' k" := (sbind m (λ x, k))
  (at level 10, x name, m at level 100, k at level 200) : pulse_scope.
Notation "'let!' ' p := m 'in' k" := (sbind m (λ p, k))
  (at level 10, p strict pattern, m at level 100, k at level 200) : pulse_scope.
Notation "m ;;; k" := (sbind m (λ _, k))
  (at level 100, right associativity) : pulse_scope.
#[global] Open Scope pulse_scope.

Lemma sbind_ok {S A B} (m : SR S A) (k : A → SR S B) s a s' :
  m s = (Ok a, s') → sbind m k s = k a s'.
Proof. unfold sbind. by intros ->. Qed.

Lemma sbind_err {S A B} (m : SR S A) (k : A → SR S B) s e s' :
  m s = (Err e, s') → sbind m k s = (Err e, s').
Proof. unfold sbind. by intros ->. Qed.

Lemma sbind_inv_ok {S A B} (m : SR S A) (k : A → SR S B) s b s'' :
  sbind m k s = (Ok b, s'') → ∃ a s', m s = (Ok a, s') ∧ k a s' = (Ok b, s'').
Proof. unfold sbind. destruct (m s) as [[a|e] s'] eqn:E; naive_solver. Qed.

Lemma sbind_assoc {S A B C} (m : SR S A) (f : A → SR S B) (g : B → SR S C) s :
  sbind (sbind m f) g s = sbind m (λ a, sbind (f a) g) s.
Proof. unfold sbind. by destruct (m s) as [[]]. Qed.

(** A property of the object that every step of a method keeps. *)
Definition preserves {S A} (I : S → Prop) (m : SR S A) : Prop := ∀ s, I s → I (m s).2.

Lemma preserves_bind {S A B} (I : S → Prop) (m : SR S A) (k : A → SR S B) :
  preserves I m → (∀ a, preserves I (k a)) → preserves I (sbind m k).
Proof.
  intros Hm Hk s Hs. specialize (Hm s Hs). unfold sbind.
  destruct (m s) as [[a|e] s'] eqn:E; simpl in *; [by apply Hk | done].
Qed.

Lemma preserves_ret {S A} (I : S → Prop) (a : A) : preserves I (sret a).
Proof. by intros s. Qed.
Lemma preserves_fail {S A} (I : S → Prop) e : preserves I (@sfail S A e).
Proof. by intros s. Qed.
Lemma preserves_get {S} (I : S → Prop) : preserves I (@sget S).
Proof. by intros s. Qed.
Lemma preserves_lift {S A} (I : S → Prop) (r : Result A) : preserves I (slift r).
Proof. by intros s. Qed.

Create HintDb pulse.
#[export] Hint Resolve preserves_ret preserves_fail preserves_get preserves_lift : pulse.
