(* ===== verification/Endian.v ===== *)
(** * Endian: little-endian stores and loads, and the zig-zag transform

    Models include/pulselog/base/endian.h.  Every multi-byte integer on the
    wire and on disk goes through [StoreLe]/[LoadLe]; [memcpy] of a native
    integer is written out for both byte orders, so that the big-endian branch
    of the source is covered too. *)
From S2P Require Import Prelude.

(** ** Host byte order and [memcpy] of a native integer *)

Inductive HostEndian : Set := little | big.

(** The [n] bytes of [v], least significant first. *)
Fixpoint le_bytes (n : nat) (v : Z) : bytes :=
  match n with
  | O => []
  | S n => v mod 256 :: le_bytes n (v / 256)
  end.

Fixpoint le_value (bs : bytes) : Z :=
  match bs with
  | [] => 0
  | b :: bs => b + 256 * le_value bs
  end.

Definition memcpy_out (host : HostEndian) (n : nat) (v : Z) : bytes :=
  match host with little => le_bytes n v | big => reverse (le_bytes n v) end.

Definition memcpy_in (host : HostEndian) (bs : bytes) : Z :=
  match host with little => le_value bs | big => le_value (reverse bs) end.

(** [__builtin_bswap]: the value whose bytes are those of [v] reversed. *)
Definition ByteSwap (n : nat) (v : Z) : Z := le_value (reverse (le_bytes n v)).

Definition StoreLe_on (host : HostEndian) (n : nat) (v : Z) : bytes :=
  let value := match host with big => ByteSwap n v | little => v end in
  memcpy_out host n value.

Definition LoadLe_on (host : HostEndian) (n : nat) (bs : bytes) : Z :=
  let value := memcpy_in host (take n bs) in
  match host with big => ByteSwap n value | little => value end.

(** The two supported architectures are little-endian. *)
Definition StoreLe : nat → Z → bytes := StoreLe_on little.
Definition LoadLe : nat → bytes → Z := LoadLe_on little.

Definition StoreLeI64 (v : Z) : bytes := StoreLe 8 (u64 v).
Definition LoadLeI64 (bs : bytes) : Z := i64 (LoadLe 8 bs).

(** ** Zig-zag *)

Definition ZigZagEncode (v : Z) : Z :=
  Z.lxor (u64 (Z.shiftl (u64 v) 1)) (u64 (Z.shiftr v 63)).

Definition ZigZagDecode (v : Z) : Z :=
  i64 (Z.lxor (Z.shiftr v 1) (u64 (u64 (Z.lnot (Z.land v 1)) + 1))).

(** ** Lemmas *)

Lemma length_le_bytes n v : length (le_bytes n v) = n.
Proof. revert v. induction n; intros; simpl; auto. Qed.

Lemma zlen_le_bytes n v : zlen (le_bytes n v) = Z.of_nat n.
Proof. unfold zlen. by rewrite length_le_bytes. Qed.

Lemma le_bytes_is_byte n v : Forall is_byte (le_bytes n v).
Proof.
  revert v. induction n; intros; simpl; constructor; [|done].
  apply Z.mod_pos_bound; lia.
Qed.

Lemma le_value_le_bytes n v : le_value (le_bytes n v) = v mod 2 ^ (8 * Z.of_nat n).
Proof.
  revert v. induction n as [|n IH]; intros v.
  { simpl. by rewrite Z.mod_1_r. }
  cbn [le_bytes le_value]. rewrite IH.
  replace (8 * Z.of_nat (S n)) with (8 + 8 * Z.of_nat n) by lia.
  rewrite Z.pow_add_r by lia. change (2 ^ 8) with 256.
  rewrite Z.rem_mul_r by lia. lia.
Qed.

Lemma le_bytes_le_value bs : Forall is_byte bs → le_bytes (length bs) (le_value bs) = bs.
Proof.
  induction 1 as [|b bs Hb _ IH]; [done|]. unfold is_byte in Hb.
  cbn [length le_bytes le_value].
  replace ((b + 256 * le_value bs) mod 256) with b.
  2:{ rewrite Z.mul_comm, Z_mod_plus_full, Z.mod_small; lia. }
  replace ((b + 256 * le_value bs) / 256) with (le_value bs); [by f_equal|].
  rewrite Z.mul_comm, Z_div_plus_full, Z.div_small by lia. lia.
Qed.

Lemma le_value_range bs : Forall is_byte bs → 0 ≤ le_value bs < 2 ^ (8 * zlen bs).
Proof.
  intros H. rewrite <- (le_bytes_le_value bs H) at 1 2.
  rewrite le_value_le_bytes. apply Z.mod_pos_bound. apply Z.pow_pos_nonneg; zlist.
Qed.

(** Whatever the host, the bytes stored are the little-endian ones. *)
Lemma StoreLe_on_le_bytes host n v :
  unsigned (8 * Z.of_nat n) v → StoreLe_on host n v = le_bytes n v.
Proof.
  intros Hv. destruct host; [done|]. unfold StoreLe_on, memcpy_out, ByteSwap.
  set (r := reverse (le_bytes n v)).
  assert (Hr : le_bytes n (le_value r) = r).
  { assert (n = length r) as Hn by (unfold r; by rewrite length_reverse, length_le_bytes).
    rewrite Hn at 1. apply le_bytes_le_value. unfold r.
    apply Forall_reverse, le_bytes_is_byte. }
  rewrite Hr. unfold r. apply reverse_involutive.
Qed.

Lemma LoadLe_on_le_bytes host n v rest :
  unsigned (8 * Z.of_nat n) v → LoadLe_on host n (le_bytes n v ++ rest) = v.
Proof.
  intros Hv. unfold LoadLe_on.
  rewrite take_app_length' by by rewrite length_le_bytes.
  assert (Hle : le_value (le_bytes n v) = v).
  { rewrite le_value_le_bytes. by apply Z.mod_small. }
  destruct host; [exact Hle|]. unfold memcpy_in, ByteSwap.
  assert (le_bytes n (le_value (reverse (le_bytes n v))) = reverse (le_bytes n v)) as ->.
  { assert (n = length (reverse (le_bytes n v))) as Hn
      by by rewrite length_reverse, length_le_bytes.
    rewrite Hn at 1. apply le_bytes_le_value, Forall_reverse, le_bytes_is_byte. }
  by rewrite reverse_involutive.
Qed.

Lemma zlen_StoreLe n v : zlen (StoreLe n v) = Z.of_nat n.
Proof. apply zlen_le_bytes. Qed.

Lemma length_StoreLe n v : length (StoreLe n v) = n.
Proof. apply length_le_bytes. Qed.

Lemma zlen_StoreLeI64 v : zlen (StoreLeI64 v) = 8.
Proof. apply zlen_le_bytes. Qed.

#[export] Hint Rewrite zlen_le_bytes zlen_StoreLe zlen_StoreLeI64 : zlist.

Lemma LoadLe_StoreLe n v rest :
  unsigned (8 * Z.of_nat n) v → LoadLe n (StoreLe n v ++ rest) = v.
Proof. apply (LoadLe_on_le_bytes little). Qed.

Lemma LoadLe_app n bs rest : (n ≤ length bs)%nat → LoadLe n (bs ++ rest) = LoadLe n bs.
Proof. intros. unfold LoadLe, LoadLe_on. by rewrite take_app_le. Qed.

Lemma StoreLe_uwrap n v : StoreLe n (uwrap (8 * Z.of_nat n) v) = StoreLe n v.
Proof.
  unfold StoreLe, StoreLe_on, memcpy_out, uwrap.
  rewrite <- le_value_le_bytes. rewrite <- (length_le_bytes n v) at 1.
  apply le_bytes_le_value, le_bytes_is_byte.
Qed.

Lemma LoadLeI64_StoreLeI64 v rest : signed 64 v → LoadLeI64 (StoreLeI64 v ++ rest) = v.
Proof.
  intros. unfold LoadLeI64, StoreLeI64.
  rewrite LoadLe_StoreLe by (apply uwrap_range; lia). by apply swrap_uwrap.
Qed.

Lemma LoadLeI64_app bs rest : (8 ≤ length bs)%nat → LoadLeI64 (bs ++ rest) = LoadLeI64 bs.
Proof. intros. unfold LoadLeI64. by rewrite LoadLe_app. Qed.

(** Flipping the low [w] bits of a [w]-bit value is subtraction from the mask. *)
Lemma lxor_ones w x : 0 ≤ w → unsigned w x → Z.lxor x (Z.ones w) = Z.ones w - x.
Proof.
  intros Hw Hx. rewrite Z.sub_nocarry_ldiff.
  - apply Z.bits_inj'. intros i Hi. rewrite Z.lxor_spec, Z.ldiff_spec.
    rewrite Z.testbit_ones_nonneg by lia. destruct (Z.ltb_spec i w).
    + by destruct (Z.testbit x i).
    + assert (Z.testbit x i = false) as ->; [|done].
      rewrite <- (Z.mod_small x (2 ^ w)) by done. apply Z.mod_pow2_bits_high; lia.
  - apply Z.bits_inj'. intros i Hi. rewrite Z.ldiff_spec, Z.bits_0.
    rewrite Z.testbit_ones_nonneg by lia. destruct (Z.ltb_spec i w).
    + by rewrite andb_false_r.
    + rewrite <- (Z.mod_small x (2 ^ w)) by done. by rewrite Z.mod_pow2_bits_high by lia.
Qed.

Lemma ZigZagEncode_nonneg v : 0 ≤ v < 2 ^ 63 → ZigZagEncode v = 2 * v.
Proof.
  intros Hv. unfold ZigZagEncode.
  rewrite (Z.shiftr_div_pow2 v 63), Z.div_small by lia.
  rewrite (uwrap_small 64 v), Z.shiftl_mul_pow2, uwrap_small by (unfold unsigned; lia).
  change (u64 0) with 0. rewrite Z.lxor_0_r. lia.
Qed.

Lemma ZigZagEncode_neg v : - 2 ^ 63 ≤ v < 0 → ZigZagEncode v = - 2 * v - 1.
Proof.
  intros Hv. unfold ZigZagEncode.
  assert (Z.shiftr v 63 = -1) as ->.
  { rewrite Z.shiftr_div_pow2 by lia. symmetry.
    apply (Z.div_unique v (2 ^ 63) (-1) (v + 2 ^ 63)); lia. }
  assert (Hu : u64 v = v + 2 ^ 64).
  { unfold uwrap. symmetry. apply (Z.mod_unique v (2 ^ 64) (-1)); lia. }
  rewrite Hu, Z.shiftl_mul_pow2 by lia.
  assert (u64 ((v + 2 ^ 64) * 2 ^ 1) = 2 * v + 2 ^ 64) as ->.
  { unfold uwrap. symmetry. apply (Z.mod_unique _ (2 ^ 64) 1); lia. }
  change (u64 (-1)) with (Z.ones 64).
  rewrite lxor_ones by (unfold unsigned; lia). change (Z.ones 64) with (2 ^ 64 - 1). lia.
Qed.

Lemma ZigZagEncode_range v : signed 64 v → unsigned 64 (ZigZagEncode v).
Proof.
  unfold signed, unsigned. intros. destruct (Z.lt_ge_cases v 0).
  - rewrite ZigZagEncode_neg; lia.
  - rewrite ZigZagEncode_nonneg; lia.
Qed.

(** C?: decoding inverts encoding on every 64-bit value. *)
Lemma ZigZag_roundtrip v : signed 64 v → ZigZagDecode (ZigZagEncode v) = v.
Proof.
  intros Hs. unfold signed in Hs. unfold ZigZagDecode. destruct (Z.lt_ge_cases v 0).
  - rewrite ZigZagEncode_neg by lia.
    assert (Z.land (-2 * v - 1) 1 = 1) as ->.
    { change 1 with (Z.ones 1) at 2. rewrite Z.land_ones by lia. symmetry.
      apply (Z.mod_unique _ (2 ^ 1) (- v - 1)); lia. }
    change (u64 (u64 (Z.lnot 1) + 1)) with (Z.ones 64).
    assert (Z.shiftr (-2 * v - 1) 1 = - v - 1) as ->.
    { rewrite Z.shiftr_div_pow2 by lia. symmetry. apply (Z.div_unique _ (2 ^ 1) _ 1); lia. }
    rewrite lxor_ones by (unfold unsigned; lia). change (Z.ones 64) with (2 ^ 64 - 1).
    replace (2 ^ 64 - 1 - (- v - 1)) with (v + 2 ^ 64) by lia.
    rewrite <- (swrap_uwrap 64 v) at 2 by (unfold signed; lia). f_equal.
    unfold uwrap. apply (Z.mod_unique v (2 ^ 64) (-1)); lia.
  - rewrite ZigZagEncode_nonneg by lia.
    assert (Z.land (2 * v) 1 = 0) as ->.
    { change 1 with (Z.ones 1). rewrite Z.land_ones by lia. symmetry.
      apply (Z.mod_unique _ (2 ^ 1) v); lia. }
    change (u64 (u64 (Z.lnot 0) + 1)) with 0. rewrite Z.lxor_0_r.
    assert (Z.shiftr (2 * v) 1 = v) as ->.
    { rewrite Z.shiftr_div_pow2 by lia. symmetry. apply (Z.div_unique _ (2 ^ 1) _ 0); lia. }
    apply swrap_small; [lia|]. unfold signed; lia.
Qed.
