(* ===== verification/Crc32c.v ===== *)
(** * Crc32c: the checksum of every frame and every record

    Models src/base/crc32c.cc: the compile-time tables, the slicing-by-8
    software routine and the SSE4.2 routine (over the two CRC intrinsics, which
    are parameters).  The reference is the bit-at-a-time definition of the
    reflected CRC-32C polynomial; both optimised routines are proved equal to
    it on every byte string, from every seed. *)
From S2P Require Import Prelude Endian.

Definition kPoly : Z := 0x82F63B78.

(** One bit of the table construction: [(crc >> 1) ^ (kPoly & (~(crc & 1) + 1))]. *)
Definition crc_bit (crc : Z) : Z :=
  Z.lxor (Z.shiftr crc 1) (Z.land kPoly (u32 (u32 (Z.lnot (Z.land crc 1)) + 1))).

Definition bit_steps (n : nat) (crc : Z) : Z := Nat.iter n crc_bit crc.

Definition table_get (t : list Z) (i : Z) : Z := nth (Z.to_nat i) t 0.

(** One byte of zeros pushed through table 0. *)
Definition next_slice (t0 : list Z) (crc : Z) : Z :=
  Z.lxor (table_get t0 (Z.land crc 0xFF)) (Z.shiftr crc 8).

Definition MakeTables : list (list Z) :=
  let t0 := map (λ i, bit_steps 8 (Z.of_nat i)) (seq 0 256) in
  map (λ slice, map (λ crc, Nat.iter slice (next_slice t0) crc) t0) (seq 0 8).

(** [constexpr Tables kTables = MakeTables();] *)
Definition kTables : list (list Z) := Eval vm_compute in MakeTables.

Definition tab (k : nat) (i : Z) : Z := table_get (nth k kTables []) i.

(** The body of the eight-byte loop. *)
Definition slice8_step (crc : Z) (p : bytes) : Z :=
  let crc := Z.lxor crc (LoadLe 4 p) in
  let next := LoadLe 4 (drop 4 p) in
  Z.lxor (tab 7 (Z.land crc 0xFF))
  (Z.lxor (tab 6 (Z.land (Z.shiftr crc 8) 0xFF))
  (Z.lxor (tab 5 (Z.land (Z.shiftr crc 16) 0xFF))
  (Z.lxor (tab 4 (Z.land (Z.shiftr crc 24) 0xFF))
  (Z.lxor (tab 3 (Z.land next 0xFF))
  (Z.lxor (tab 2 (Z.land (Z.shiftr next 8) 0xFF))
  (Z.lxor (tab 1 (Z.land (Z.shiftr next 16) 0xFF))
          (tab 0 (Z.land (Z.shiftr next 24) 0xFF)))))))).

(** [while (n >= 8) { ... p += 8; n -= 8; }], then the remaining tail. *)
Fixpoint block8_loop (step : Z → bytes → Z) (crc : Z) (p : bytes) : Z * bytes :=
  match p with
  | _ :: _ :: _ :: _ :: _ :: _ :: _ :: _ :: rest => block8_loop step (step crc p) rest
  | _ => (crc, p)
  end.

(** [while (n-- > 0) crc = kTables[0][(crc ^ *p++) & 0xFF] ^ (crc >> 8);] *)
Definition byte_step (crc b : Z) : Z :=
  Z.lxor (tab 0 (Z.land (Z.lxor crc b) 0xFF)) (Z.shiftr crc 8).

Definition Crc32cSoftware (data : bytes) (seed : Z) : Z :=
  let '(crc, tail) := block8_loop slice8_step (u32 (Z.lnot seed)) data in
  u32 (Z.lnot (fold_left byte_step tail crc)).

(** The reference: eight bit steps per byte, no table. *)
Definition ref_step (crc b : Z) : Z := bit_steps 8 (Z.lxor crc b).
Definition crc32c_ref (data : bytes) (seed : Z) : Z :=
  u32 (Z.lnot (fold_left ref_step data (u32 (Z.lnot seed)))).

(** The checksum the rest of the development uses ([seed = 0]). *)
Definition Crc32c (data : bytes) : Z := Crc32cSoftware data 0.

Lemma fold_left_cons {A B} (f : A → B → A) b bs a :
  fold_left f (b :: bs) a = fold_left f bs (f a b).
Proof. done. Qed.

Lemma fold_left_nil {A B} (f : A → B → A) a : fold_left f [] a = a.
Proof. done. Qed.

Lemma fold_left_8 {A B} (f : A → B → A) b0 b1 b2 b3 b4 b5 b6 b7 bs a :
  fold_left f (b0 :: b1 :: b2 :: b3 :: b4 :: b5 :: b6 :: b7 :: bs) a
  = fold_left f bs (fold_left f [b0; b1; b2; b3; b4; b5; b6; b7] a).
Proof. done. Qed.

Lemma block8_loop_8 step c b0 b1 b2 b3 b4 b5 b6 b7 rest :
  block8_loop step c (b0 :: b1 :: b2 :: b3 :: b4 :: b5 :: b6 :: b7 :: rest)
  = block8_loop step (step c (b0 :: b1 :: b2 :: b3 :: b4 :: b5 :: b6 :: b7 :: rest)) rest.
Proof. done. Qed.

(** ** The bit step is linear *)

Lemma crc_bit_alt c : crc_bit c = Z.lxor (Z.shiftr c 1) (if Z.odd c then kPoly else 0).
Proof.
  unfold crc_bit. f_equal.
  change 1 with (Z.ones 1) at 1. rewrite Z.land_ones, Zmod_odd by lia.
  by destruct (Z.odd c).
Qed.

Lemma crc_bit_lxor a b : crc_bit (Z.lxor a b) = Z.lxor (crc_bit a) (crc_bit b).
Proof.
  rewrite !crc_bit_alt, Z.shiftr_lxor, <- !Z.bit0_odd, Z.lxor_spec.
  assert (Hx : ∀ x y p q, Z.lxor (Z.lxor x y) (Z.lxor p q) = Z.lxor (Z.lxor x p) (Z.lxor y q)).
  { intros. rewrite !Z.lxor_assoc. f_equal. rewrite <- !Z.lxor_assoc. f_equal.
    apply Z.lxor_comm. }
  rewrite <- Hx. f_equal.
  destruct (Z.testbit a 0), (Z.testbit b 0); simpl;
    rewrite ?Z.lxor_nilpotent, ?Z.lxor_0_r, ?Z.lxor_0_l; done.
Qed.

Lemma bit_steps_lxor n a b : bit_steps n (Z.lxor a b) = Z.lxor (bit_steps n a) (bit_steps n b).
Proof.
  unfold bit_steps. induction n as [|n IH]; [done|].
  rewrite !Nat.iter_succ, IH. apply crc_bit_lxor.
Qed.

Lemma bit_steps_add n m c : bit_steps (n + m) c = bit_steps n (bit_steps m c).
Proof. unfold bit_steps. apply Nat.iter_add. Qed.

Lemma crc_bit_double v : crc_bit (2 * v) = v.
Proof.
  rewrite crc_bit_alt, Z.odd_mul. simpl. rewrite Z.lxor_0_r.
  rewrite Z.shiftr_div_pow2 by lia. symmetry. apply (Z.div_unique _ _ _ 0); lia.
Qed.

Lemma bit_steps_shift n v : bit_steps n (v * 2 ^ Z.of_nat n) = v.
Proof.
  revert v. induction n as [|n IH]; intros v.
  { simpl. lia. }
  replace (S n) with (1 + n)%nat by lia. rewrite bit_steps_add.
  replace (v * 2 ^ Z.of_nat (1 + n)) with ((2 * v) * 2 ^ Z.of_nat n).
  2:{ rewrite Nat2Z.inj_add, Z.pow_add_r by lia. lia. }
  rewrite IH. apply crc_bit_double.
Qed.

(** ** The tables hold what they should *)

Lemma MakeTables_kTables : kTables = MakeTables.
Proof. vm_cast_no_check (eq_refl kTables). Qed.

Lemma tab_spec k i :
  (k < 8)%nat → 0 ≤ i < 256 → tab k i = bit_steps (8 * (k + 1)) i.
Proof.
  intros Hk Hi.
  assert (Hall : forallb (λ k, forallb (λ i,
      tab k (Z.of_nat i) =? bit_steps (8 * (k + 1)) (Z.of_nat i)) (seq 0 256)) (seq 0 8) = true)
    by (vm_compute; reflexivity).
  rewrite forallb_forall in Hall.
  specialize (Hall k ltac:(apply in_seq; lia)). rewrite forallb_forall in Hall.
  specialize (Hall (Z.to_nat i) ltac:(apply in_seq; lia)).
  rewrite Z2Nat.id in Hall by lia. by apply Z.eqb_eq in Hall.
Qed.

(** A table entry as a slice of the 64-bit-step map. *)
Lemma tab_64 k i m :
  (k < 8)%nat → 0 ≤ i < 256 → m = Z.of_nat (56 - 8 * k) →
  tab k i = bit_steps 64 (i * 2 ^ m).
Proof.
  intros Hk Hi ->. rewrite tab_spec by done.
  replace 64%nat with (8 * (k + 1) + (56 - 8 * k))%nat by lia.
  by rewrite bit_steps_add, bit_steps_shift.
Qed.

Lemma land_255 z : Z.land z 0xFF = z mod 256.
Proof. change 0xFF with (Z.ones 8). by rewrite Z.land_ones by lia. Qed.

Lemma land_255_range z : 0 ≤ Z.land z 0xFF < 256.
Proof. rewrite land_255. apply Z.mod_pos_bound; lia. Qed.

(** Low bits and high part of a value, recombined without carries. *)
Lemma lxor_low_high b v k :
  0 ≤ k → 0 ≤ b < 2 ^ k → Z.lxor b (v * 2 ^ k) = b + v * 2 ^ k.
Proof.
  intros Hk Hb. symmetry. apply Z.add_nocarry_lxor.
  apply Z.bits_inj'. intros i Hi. rewrite Z.land_spec, Z.bits_0.
  destruct (Z.lt_ge_cases i k).
  - rewrite Z.mul_pow2_bits_low by lia. apply andb_false_r.
  - rewrite <- (Z.mod_small b (2 ^ k)) by done. by rewrite Z.mod_pow2_bits_high by lia.
Qed.

Lemma low_byte_split c : c = Z.lxor (Z.land c 0xFF) (Z.shiftr c 8 * 2 ^ 8).
Proof.
  rewrite lxor_low_high by (pose proof (land_255_range c); lia).
  rewrite land_255, Z.shiftr_div_pow2 by lia. change (2 ^ 8) with 256.
  pose proof (Z.div_mod c 256 ltac:(lia)). lia.
Qed.

Lemma byte_step_ref c b : is_byte b → byte_step c b = ref_step c b.
Proof.
  intros Hb. unfold byte_step, ref_step.
  rewrite (low_byte_split (Z.lxor c b)) at 2. rewrite bit_steps_lxor.
  change (2 ^ 8) with (2 ^ Z.of_nat 8). rewrite bit_steps_shift.
  rewrite (tab_spec 0) by (try lia; apply land_255_range). f_equal.
  rewrite Z.shiftr_lxor, (Z.shiftr_div_pow2 b) by lia.
  rewrite Z.div_small by (unfold is_byte in Hb; lia). by rewrite Z.lxor_0_r.
Qed.

(** Folding the reference over a block is one linear map of the block's value. *)
Lemma fold_ref_block bs c :
  Forall is_byte bs →
  fold_left ref_step bs c = bit_steps (8 * length bs) (Z.lxor c (le_value bs)).
Proof.
  intros H. revert c. induction H as [|b bs Hb Hbs IH]; intros c.
  { simpl. by rewrite Z.lxor_0_r. }
  rewrite fold_left_cons, IH. cbn [le_value length].
  replace (8 * S (length bs))%nat with (8 * length bs + 8)%nat by lia.
  rewrite bit_steps_add. f_equal.
  replace (b + 256 * le_value bs) with (b + le_value bs * 2 ^ 8) by lia.
  rewrite <- lxor_low_high by (unfold is_byte in Hb; lia).
  rewrite <- Z.lxor_assoc, bit_steps_lxor. f_equal. symmetry. apply (bit_steps_shift 8).
Qed.

(** A 32-bit word is the carry-free sum of its four bytes. *)
Lemma word_bytes x :
  unsigned 32 x →
  x = Z.lxor (Z.land x 0xFF) (Z.lxor (Z.land (Z.shiftr x 8) 0xFF * 2 ^ 8)
      (Z.lxor (Z.land (Z.shiftr x 16) 0xFF * 2 ^ 16) (Z.land (Z.shiftr x 24) 0xFF * 2 ^ 24))).
Proof.
  intros Hx. unfold unsigned in Hx.
  rewrite (low_byte_split x) at 1. f_equal.
  rewrite (low_byte_split (Z.shiftr x 8)) at 1.
  rewrite (low_byte_split (Z.shiftr (Z.shiftr x 8) 8)) at 1.
  rewrite !Z.shiftr_shiftr by lia. simpl (8 + 8). simpl (8 + 8 + 8).
  assert (Z.land (Z.shiftr x 24) 0xFF = Z.shiftr x 24) as Htop.
  { rewrite land_255, Z.mod_small; [done|]. rewrite Z.shiftr_div_pow2 by lia.
    split; [apply Z.div_pos; lia | apply Z.div_lt_upper_bound; lia]. }
  rewrite Htop.
  rewrite <- !Z.shiftl_mul_pow2, !Z.shiftl_lxor, !Z.shiftl_shiftl by lia. done.
Qed.

Lemma bit_steps_word n x :
  unsigned 32 x →
  bit_steps n x = Z.lxor (bit_steps n (Z.land x 0xFF))
    (Z.lxor (bit_steps n (Z.land (Z.shiftr x 8) 0xFF * 2 ^ 8))
    (Z.lxor (bit_steps n (Z.land (Z.shiftr x 16) 0xFF * 2 ^ 16))
            (bit_steps n (Z.land (Z.shiftr x 24) 0xFF * 2 ^ 24)))).
Proof. intros Hx. rewrite (word_bytes x Hx) at 1. by rewrite !bit_steps_lxor. Qed.

Lemma le_value_4 b0 b1 b2 b3 rest : LoadLe 4 (b0 :: b1 :: b2 :: b3 :: rest) = le_value [b0; b1; b2; b3].
Proof. done. Qed.

Lemma lxor_unsigned w a b : 0 ≤ w → unsigned w a → unsigned w b → unsigned w (Z.lxor a b).
Proof.
  intros Hw Ha Hb. replace (Z.lxor a b) with (uwrap w (Z.lxor a b)); [by apply uwrap_range|].
  unfold uwrap. rewrite <- Z.land_ones by done. apply Z.bits_inj'. intros i Hi.
  rewrite Z.land_spec, Z.lxor_spec, Z.testbit_ones_nonneg by lia.
  destruct (Z.ltb_spec i w); [by rewrite andb_true_r|].
  rewrite <- (Z.mod_small a (2 ^ w)), <- (Z.mod_small b (2 ^ w)) by done.
  by rewrite !Z.mod_pow2_bits_high by lia.
Qed.

(** The eight-byte body computes what eight reference steps compute. *)
Lemma slice8_step_ref c b0 b1 b2 b3 b4 b5 b6 b7 rest :
  unsigned 32 c → Forall is_byte [b0; b1; b2; b3; b4; b5; b6; b7] →
  slice8_step c (b0 :: b1 :: b2 :: b3 :: b4 :: b5 :: b6 :: b7 :: rest)
  = fold_left ref_step [b0; b1; b2; b3; b4; b5; b6; b7] c.
Proof.
  intros Hc Hb. rewrite fold_ref_block by done. unfold slice8_step.
  cbn [drop]. rewrite !le_value_4.
  set (lo := le_value [b0; b1; b2; b3]). set (hi := le_value [b4; b5; b6; b7]).
  assert (Hlo : unsigned 32 lo) by exact (le_value_range _ (Forall_take _ 4 _ Hb)).
  assert (Hhi : unsigned 32 hi) by exact (le_value_range _ (Forall_drop _ 4 _ Hb)).
  assert (Hv : le_value [b0; b1; b2; b3; b4; b5; b6; b7] = Z.lxor lo (hi * 2 ^ 32)).
  { rewrite lxor_low_high by (unfold unsigned in *; lia). unfold lo, hi. simpl. lia. }
  rewrite Hv, <- (Z.lxor_assoc c lo), bit_steps_lxor. simpl (8 * length _)%nat.
  pose proof (lxor_unsigned 32 c lo ltac:(lia) Hc Hlo) as Hx.
  set (x := Z.lxor c lo) in *.
  assert (H32 : bit_steps 64 (hi * 2 ^ 32) = bit_steps 32 hi).
  { change 64%nat with (32 + 32)%nat. rewrite bit_steps_add. f_equal. apply (bit_steps_shift 32). }
  rewrite H32, (bit_steps_word 64 x Hx), (bit_steps_word 32 hi Hhi).
  rewrite (tab_64 7 _ 0), (tab_64 6 _ 8), (tab_64 5 _ 16), (tab_64 4 _ 24) by
    (try lia; try apply land_255_range; done).
  rewrite !tab_spec by (try lia; apply land_255_range).
  rewrite Z.pow_0_r, Z.mul_1_r.
  assert (Hs : ∀ y k m, (m + k = 32)%nat → bit_steps 32 (y * 2 ^ Z.of_nat k) = bit_steps m y).
  { intros y k m <-. by rewrite bit_steps_add, bit_steps_shift. }
  rewrite (Hs _ 8%nat 24%nat eq_refl), (Hs _ 16%nat 16%nat eq_refl), (Hs _ 24%nat 8%nat eq_refl).
  by rewrite !Z.lxor_assoc.
Qed.

Lemma ref_step_unsigned c b : is_byte b → unsigned 32 c → unsigned 32 (ref_step c b).
Proof.
  intros Hb Hc. unfold ref_step.
  assert (Hx : unsigned 32 (Z.lxor c b)).
  { apply lxor_unsigned; [lia|done|]. unfold is_byte in Hb. unfold unsigned. lia. }
  revert Hx. generalize (Z.lxor c b). intros x Hx. unfold bit_steps.
  generalize 8%nat; intros k. induction k as [|n IH]; [done|]. rewrite Nat.iter_succ, crc_bit_alt.
  apply lxor_unsigned; [lia| |].
  - unfold unsigned in *. rewrite Z.shiftr_div_pow2 by lia.
    split; [apply Z.div_pos; lia | apply Z.div_lt_upper_bound; lia].
  - destruct (Z.odd _); unfold unsigned, kPoly; lia.
Qed.

Lemma fold_ref_unsigned bs c :
  Forall is_byte bs → unsigned 32 c → unsigned 32 (fold_left ref_step bs c).
Proof.
  intros H. revert c. induction H as [|b bs Hb _ IH]; intros c Hc; [done|].
  rewrite fold_left_cons. by apply IH, ref_step_unsigned.
Qed.

Lemma fold_step1_ref (step1 : Z → Z → Z) bs c :
  (∀ c b, unsigned 32 c → is_byte b → step1 c b = ref_step c b) →
  Forall is_byte bs → unsigned 32 c → fold_left step1 bs c = fold_left ref_step bs c.
Proof.
  intros Hs H. revert c. induction H as [|b bs Hb _ IH]; intros c Hc; [done|].
  rewrite !fold_left_cons, Hs by done. by apply IH, ref_step_unsigned.
Qed.

(** Any eight-byte body that agrees with eight reference steps leaves a tail and an
    accumulator from which the reference finishes the job: no byte is skipped or
    taken twice, and fewer than eight are left. *)
Lemma block8_loop_ref step8 n bs c crc tail :
  (∀ c b0 b1 b2 b3 b4 b5 b6 b7 rest,
    unsigned 32 c → Forall is_byte [b0; b1; b2; b3; b4; b5; b6; b7] →
    step8 c (b0 :: b1 :: b2 :: b3 :: b4 :: b5 :: b6 :: b7 :: rest)
    = fold_left ref_step [b0; b1; b2; b3; b4; b5; b6; b7] c) →
  (length bs ≤ n)%nat → Forall is_byte bs → unsigned 32 c →
  block8_loop step8 c bs = (crc, tail) →
  unsigned 32 crc ∧ Forall is_byte tail ∧ zlen tail < 8 ∧
  fold_left ref_step tail crc = fold_left ref_step bs c.
Proof.
  intros Hs. revert bs c. induction n as [|n IH]; intros bs c Hn Hb Hc Hl.
  { destruct bs; [|cbn [length] in Hn; lia]. by injection Hl as <- <-. }
  destruct bs as [|b0 [|b1 [|b2 [|b3 [|b4 [|b5 [|b6 [|b7 rest]]]]]]]];
    try (injection Hl as <- <-; split_and!; [assumption | assumption | |reflexivity];
         unfold zlen; cbn [length]; lia).
  rewrite block8_loop_8 in Hl.
  pose proof (Forall_take _ 8 _ Hb) as H8. pose proof (Forall_drop _ 8 _ Hb) as Hr.
  cbn [take drop] in H8, Hr.
  rewrite Hs in Hl by done. rewrite fold_left_8.
  apply IH in Hl; [exact Hl | cbn [length] in Hn; lia | done | by apply fold_ref_unsigned].
Qed.

Lemma Crc32cSoftware_agrees (data : bytes) (seed : Z) :
  Forall is_byte data → Crc32cSoftware data seed = crc32c_ref data seed.
Proof.
  intros Hb. unfold Crc32cSoftware, crc32c_ref.
  destruct (block8_loop slice8_step _ data) as [crc tail] eqn:E.
  apply (block8_loop_ref _ _ _ _ _ _ slice8_step_ref (reflexivity _)) in E as (Hc & Ht & _ & <-);
    [|done|apply uwrap_range; lia].
  rewrite (fold_step1_ref byte_step); [done | intros; by apply byte_step_ref | done | done].
Qed.

(** ** The hardware routines

    The CRC instructions are compiler intrinsics; they are parameters here, with
    the architecture manuals' description of them as hypotheses: each one folds
    the bytes of its operand, least significant first, into the accumulator. *)
Inductive Impl : Set := kSoftware | kArm | kSse42.

Section Hardware.
Context (mm_crc32_u8 mm_crc32_u64 : Z → Z → Z).
Context (crc32cb crc32ch crc32cw crc32cd : Z → Z → Z).

(** [while (n > 0 && (reinterpret_cast<std::uintptr_t>(p) & 7U) != 0)] *)
Fixpoint align_loop (addr crc : Z) (p : bytes) : Z * bytes :=
  match p with
  | [] => (crc, [])
  | b :: rest =>
      if Z.land addr 7 =? 0 then (crc, p) else align_loop (addr + 1) (mm_crc32_u8 crc b) rest
  end.

Definition Crc32cSse42 (addr : Z) (data : bytes) (seed : Z) : Z :=
  let crc := u32 (Z.lnot seed) in
  let '(crc, p) := align_loop addr crc data in
  let '(crc, p) := block8_loop (λ crc p, u32 (mm_crc32_u64 crc (LoadLe 8 p))) crc p in
  u32 (Z.lnot (fold_left mm_crc32_u8 p crc)).

Definition Crc32cArm (data : bytes) (seed : Z) : Z :=
  let crc := u32 (Z.lnot seed) in
  let '(crc, p) := block8_loop (λ crc p, crc32cd crc (LoadLe 8 p)) crc data in
  let '(crc, p) := if 4 <=? zlen p then (crc32cw crc (LoadLe 4 p), drop 4 p) else (crc, p) in
  let '(crc, p) := if 2 <=? zlen p then (crc32ch crc (LoadLe 2 p), drop 2 p) else (crc, p) in
  u32 (Z.lnot (match p with [b] => crc32cb crc b | _ => crc end)).

(** [Crc32c(data, seed)]: dispatch on the implementation chosen at start-up. *)
Definition Crc32c_dispatch (kImpl : Impl) (addr : Z) (data : bytes) (seed : Z) : Z :=
  match kImpl with
  | kArm => Crc32cArm data seed
  | kSse42 => Crc32cSse42 addr data seed
  | kSoftware => Crc32cSoftware data seed
  end.

Definition folds (n : nat) (f : Z → Z → Z) : Prop := ∀ c bs,
  unsigned 32 c → Forall is_byte bs → length bs = n →
  f c (le_value bs) = fold_left ref_step bs c.

Hypothesis mm_crc32_u8_spec : folds 1 mm_crc32_u8.
Hypothesis mm_crc32_u64_spec : folds 8 mm_crc32_u64.
Hypothesis crc32cb_spec : folds 1 crc32cb.
Hypothesis crc32ch_spec : folds 2 crc32ch.
Hypothesis crc32cw_spec : folds 4 crc32cw.
Hypothesis crc32cd_spec : folds 8 crc32cd.

Lemma folds_byte f c b : folds 1 f → unsigned 32 c → is_byte b → f c b = ref_step c b.
Proof.
  intros Hf Hc Hb. specialize (Hf c [b] Hc (Forall_cons_2 _ _ _ Hb (Forall_nil_2 _)) eq_refl).
  rewrite fold_left_cons, fold_left_nil in Hf. cbn [le_value] in Hf.
  by rewrite Z.mul_0_r, Z.add_0_r in Hf.
Qed.

Lemma folds_prefix n f c p :
  folds n f → unsigned 32 c → Forall is_byte p → (n ≤ length p)%nat →
  f c (LoadLe n p) = fold_left ref_step (take n p) c.
Proof.
  intros Hf Hc Hp Hn. apply (Hf c (take n p)); [done | by apply Forall_take |].
  rewrite length_take. lia.
Qed.

Lemma LoadLe_8 b0 b1 b2 b3 b4 b5 b6 b7 rest :
  LoadLe 8 (b0 :: b1 :: b2 :: b3 :: b4 :: b5 :: b6 :: b7 :: rest)
  = le_value [b0; b1; b2; b3; b4; b5; b6; b7].
Proof. done. Qed.

Lemma align_loop_ref addr c p crc rest :
  unsigned 32 c → Forall is_byte p → align_loop addr c p = (crc, rest) →
  unsigned 32 crc ∧ Forall is_byte rest ∧
  fold_left ref_step rest crc = fold_left ref_step p c.
Proof.
  intros Hc Hp. revert addr c Hc. induction Hp as [|b p Hb Hp IH]; intros addr c Hc Hl.
  { injection Hl as <- <-. split_and!; [done | constructor | done]. }
  cbn [align_loop] in Hl. destruct (Z.land addr 7 =? 0).
  { injection Hl as <- <-. split; [done|]. split; [by constructor|done]. }
  rewrite (folds_byte mm_crc32_u8) in Hl by done.
  rewrite fold_left_cons. eapply IH; [by apply ref_step_unsigned | exact Hl].
Qed.

Lemma Crc32cSse42_ref addr data seed :
  Forall is_byte data → Crc32cSse42 addr data seed = crc32c_ref data seed.
Proof.
  intros Hb. unfold Crc32cSse42, crc32c_ref.
  destruct (align_loop addr _ data) as [crc p] eqn:Ea.
  apply align_loop_ref in Ea as (Hcrc & Hp & <-); [|apply uwrap_range; lia|done].
  destruct (block8_loop _ crc p) as [crc' tail] eqn:E.
  eapply block8_loop_ref in E as (Hc & Ht & _ & <-); [| |reflexivity|done|done].
  - rewrite (fold_step1_ref mm_crc32_u8); [done | intros; by apply folds_byte | done | done].
  - intros c b0 b1 b2 b3 b4 b5 b6 b7 rest Hc H8.
    rewrite LoadLe_8, mm_crc32_u64_spec by done.
    apply uwrap_small. by apply fold_ref_unsigned.
Qed.

(** The half-word and word steps that finish the ARM routine's tail. *)
Lemma tail_step_ref n f c p (lim : Z) :
  folds n f → lim = Z.of_nat n → unsigned 32 c → Forall is_byte p →
  let '(c', p') := if lim <=? zlen p then (f c (LoadLe n p), drop n p) else (c, p) in
  unsigned 32 c' ∧ Forall is_byte p' ∧
  fold_left ref_step p' c' = fold_left ref_step p c ∧
  (zlen p < 2 * lim → zlen p' < lim).
Proof.
  intros Hf -> Hc Hp. destruct (Z.leb_spec (Z.of_nat n) (zlen p)) as [Hle|Hlt].
  - rewrite folds_prefix by (try done; unfold zlen in Hle; lia).
    split; [by apply fold_ref_unsigned, Hc; apply Forall_take|].
    split; [by apply Forall_drop|]. split.
    + by rewrite <- fold_left_app, take_drop.
    + unfold zlen. rewrite length_drop. lia.
  - done.
Qed.

Lemma Crc32cArm_ref data seed :
  Forall is_byte data → Crc32cArm data seed = crc32c_ref data seed.
Proof.
  intros Hb. unfold Crc32cArm, crc32c_ref.
  destruct (block8_loop _ _ data) as [c8 p8] eqn:E.
  eapply block8_loop_ref in E as (Hc8 & Hp8 & Hl8 & <-);
    [| |reflexivity|done|apply uwrap_range; lia].
  2:{ intros. by rewrite LoadLe_8, crc32cd_spec. }
  pose proof (tail_step_ref 4 crc32cw c8 p8 4 crc32cw_spec eq_refl Hc8 Hp8) as H4.
  destruct (if 4 <=? zlen p8 then _ else _) as [c4 p4]. destruct H4 as (Hc4 & Hp4 & <- & Hl4).
  pose proof (tail_step_ref 2 crc32ch c4 p4 2 crc32ch_spec eq_refl Hc4 Hp4) as H2.
  destruct (if 2 <=? zlen p4 then _ else _) as [c2 p2]. destruct H2 as (Hc2 & Hp2 & <- & Hl2).
  specialize (Hl4 ltac:(lia)). specialize (Hl2 ltac:(lia)).
  destruct p2 as [|b [|b' p2]]; [done | |rewrite !zlen_cons in Hl2; zlist].
  rewrite fold_left_cons, fold_left_nil. inversion Hp2; subst. by rewrite (folds_byte crc32cb).
Qed.

(** C28. Whichever implementation the process selects at start-up, and whatever the
    buffer's alignment, [Crc32c] returns the same 32-bit value, the reference CRC. *)
Theorem Crc32c_dispatch_ref (kImpl : Impl) (addr : Z) (data : bytes) (seed : Z) :
  Forall is_byte data → Crc32c_dispatch kImpl addr data seed = crc32c_ref data seed.
Proof.
  intros Hb. destruct kImpl; simpl.
  - by apply Crc32cSoftware_agrees.
  - by apply Crc32cArm_ref.
  - by apply Crc32cSse42_ref.
Qed.

End Hardware.

Lemma folds_le n : folds n (λ c w, fold_left ref_step (le_bytes n w) c).
Proof. intros c bs Hc Hb <-. by rewrite le_bytes_le_value. Qed.

Lemma Crc32c_dispatch_ref_witness :
  let f n := λ c w, fold_left ref_step (le_bytes n w) c in
  Crc32c_dispatch (f 1%nat) (f 8%nat) (f 1%nat) (f 2%nat) (f 4%nat) (f 8%nat)
    kSse42 3 [1; 2; 3; 4; 5; 6; 7; 8; 9; 10; 11; 12; 13; 14] 7
  = crc32c_ref [1; 2; 3; 4; 5; 6; 7; 8; 9; 10; 11; 12; 13; 14] 7.
Proof.
  intros f. apply Crc32c_dispatch_ref; try apply folds_le.
  repeat constructor; discriminate.
Defined.

(** The published check value of CRC-32C. *)
Example crc32c_check_value : Crc32c [49; 50; 51; 52; 53; 54; 55; 56; 57] = 0xE3069283.
Proof. vm_compute. reflexivity. Qed.

Lemma Crc32c_range data : unsigned 32 (Crc32c data).
Proof.
  unfold Crc32c, Crc32cSoftware. destruct (block8_loop _ _ _). apply uwrap_range; lia.
Qed.

#[global] Opaque Crc32c.
