(* ===== verification/Buffer.v ===== *)
(** * Buffer: growable byte buffers and the buffer pool

    Models include/pulselog/base/buffer.h and src/base/buffer.cc.  A
    [ByteBuffer] is a byte array with a read and a write cursor; what it means
    to its users is the byte string between them, [Readable].  The refinement
    lemmas say that every operation acts on that string as a queue of bytes
    would.  [ByteSink] is the interface the payload writer is written against;
    [ByteBuffer] implements it. *)
From S2P Require Import Prelude.

Record ByteBuffer := mkBuffer { storage : bytes; read_pos : Z; write_pos : Z }.

Definition emptyBuffer : ByteBuffer := mkBuffer [] 0 0.

Definition ReadableBytes (b : ByteBuffer) : Z := write_pos b - read_pos b.
Definition Readable (b : ByteBuffer) : bytes := slice (read_pos b) (ReadableBytes b) (storage b).
Definition Empty (b : ByteBuffer) : bool := read_pos b =? write_pos b.
Definition Capacity (b : ByteBuffer) : Z := zlen (storage b).
Definition WritableBytes (b : ByteBuffer) : Z := zlen (storage b) - write_pos b.

Definition Consume (n : Z) (b : ByteBuffer) : ByteBuffer :=
  let r := read_pos b + n in
  if r =? write_pos b then mkBuffer (storage b) 0 0 else mkBuffer (storage b) r (write_pos b).

Definition Commit (n : Z) (b : ByteBuffer) : ByteBuffer :=
  mkBuffer (storage b) (read_pos b) (write_pos b + n).

(** [std::memcpy(WritePtr(), bs, size)] *)
Definition PokeWritable (bs : bytes) (b : ByteBuffer) : ByteBuffer :=
  mkBuffer (zsplice (write_pos b) bs (storage b)) (read_pos b) (write_pos b).

(** [std::vector::resize]: truncate, or extend with zero bytes. *)
Definition vector_resize (n : Z) (l : bytes) : bytes :=
  ztake n l ++ replicate (Z.to_nat (n - zlen l)) 0.

Definition Compact (b : ByteBuffer) : ByteBuffer :=
  if read_pos b =? 0 then b
  else
    let readable := ReadableBytes b in
    let st := if 0 <? readable
              then zsplice 0 (slice (read_pos b) readable (storage b)) (storage b)
              else storage b in
    mkBuffer st 0 readable.

(** [while (new_size < required) new_size *= 2;] *)
Fixpoint grow_loop (fuel : nat) (new_size required : Z) : Z :=
  match fuel with
  | O => new_size
  | S fuel => if new_size <? required then grow_loop fuel (2 * new_size) required else new_size
  end.
Definition grow (new_size required : Z) : Z :=
  grow_loop (Z.to_nat (Z.log2_up required) + 1) new_size required.

Definition EnsureWritable (n : Z) (b : ByteBuffer) : ByteBuffer :=
  if n <=? WritableBytes b then b
  else if (0 <? read_pos b) && (n <=? zlen (storage b) - ReadableBytes b) then Compact b
  else
    let required := ReadableBytes b + n in
    let new_size := if zlen (storage b) =? 0 then 1024 else zlen (storage b) in
    let new_size := grow new_size required in
    let b := Compact b in
    mkBuffer (vector_resize new_size (storage b)) (read_pos b) (write_pos b).

Definition Reserve (capacity : Z) (b : ByteBuffer) : ByteBuffer :=
  if zlen (storage b) <? capacity
  then mkBuffer (vector_resize capacity (storage b)) (read_pos b) (write_pos b) else b.

Definition newBuffer (initial_capacity : Z) : ByteBuffer := Reserve initial_capacity emptyBuffer.

Definition Append (data : bytes) (b : ByteBuffer) : ByteBuffer :=
  if zlen data =? 0 then b
  else Commit (zlen data) (PokeWritable data (EnsureWritable (zlen data) b)).

Definition AppendByte (x : Z) (b : ByteBuffer) : ByteBuffer :=
  Commit 1 (PokeWritable [x] (EnsureWritable 1 b)).

Definition Clear (b : ByteBuffer) : ByteBuffer := mkBuffer (storage b) 0 0.

Definition Shrink (target_capacity : Z) (b : ByteBuffer) : ByteBuffer :=
  let b := Compact b in
  if target_capacity <? zlen (storage b)
  then mkBuffer (vector_resize target_capacity (storage b)) (read_pos b) (write_pos b) else b.

(** The payload writer's pattern: reserve, store at [WritePtr()], commit. *)
Definition ReserveWrite (reserve : Z) (bs : bytes) (b : ByteBuffer) : ByteBuffer :=
  Commit (zlen bs) (PokeWritable bs (EnsureWritable reserve b)).

(** ** Invariant and refinement to a byte queue *)

Definition buffer_wf (b : ByteBuffer) : Prop :=
  0 ≤ read_pos b ∧ read_pos b ≤ write_pos b ∧ write_pos b ≤ zlen (storage b).

Lemma emptyBuffer_wf : buffer_wf emptyBuffer.
Proof. by unfold buffer_wf. Qed.

Lemma zlen_Readable b : buffer_wf b → zlen (Readable b) = ReadableBytes b.
Proof.
  intros (?&?&?). unfold Readable, ReadableBytes. apply zlen_slice; lia.
Qed.

Lemma zlen_vector_resize n l : 0 ≤ n → zlen (vector_resize n l) = n.
Proof.
  intros. unfold vector_resize. rewrite zlen_app, zlen_ztake.
  unfold zlen. rewrite length_replicate. lia.
Qed.

Lemma slice_resize pos len n (l : bytes) :
  0 ≤ pos → pos + len ≤ zlen l → zlen l ≤ n → slice pos len (vector_resize n l) = slice pos len l.
Proof.
  intros. unfold vector_resize. rewrite ztake_all by lia. by apply slice_app_l.
Qed.

Lemma Compact_wf b : buffer_wf b → buffer_wf (Compact b).
Proof.
  intros (?&?&?). unfold Compact. destruct (Z.eqb_spec (read_pos b) 0); [by split_and!|].
  unfold buffer_wf, ReadableBytes; simpl. destruct (Z.ltb_spec 0 (write_pos b - read_pos b)).
  - rewrite zlen_zsplice; rewrite ?zlen_slice; lia.
  - lia.
Qed.

Lemma Compact_readable b : buffer_wf b → Readable (Compact b) = Readable b.
Proof.
  intros (?&?&?). unfold Compact. destruct (Z.eqb_spec (read_pos b) 0); [done|].
  unfold Readable, ReadableBytes; simpl. rewrite Z.sub_0_r.
  destruct (Z.ltb_spec 0 (write_pos b - read_pos b)) as [Hlt|Hge].
  - unfold zsplice. rewrite (ztake_0 0) by lia. simpl.
    unfold slice at 1. rewrite zdrop_0 by lia.
    rewrite ztake_app; [done|]. rewrite zlen_slice; lia.
  - unfold slice. rewrite !(ztake_0 (write_pos b - read_pos b)) by lia. done.
Qed.

Lemma Compact_capacity b : buffer_wf b → Capacity (Compact b) = Capacity b.
Proof.
  intros (?&?&?). unfold Compact, Capacity, ReadableBytes.
  destruct (Z.eqb_spec (read_pos b) 0); [done|]. simpl.
  destruct (Z.ltb_spec 0 (write_pos b - read_pos b)); [|done].
  rewrite zlen_zsplice; rewrite ?zlen_slice; lia.
Qed.

Lemma Compact_read_pos b : read_pos (Compact b) = 0.
Proof. unfold Compact. destruct (Z.eqb_spec (read_pos b) 0); done. Qed.

(** The doubling loop reaches the required size within its fuel. *)
Lemma grow_loop_ge fuel s r :
  1 ≤ s → r ≤ s * 2 ^ Z.of_nat fuel → r ≤ grow_loop (fuel + 1) s r.
Proof.
  revert s. induction fuel as [|f IH]; intros s Hs Hr; simpl.
  - destruct (Z.ltb_spec s r); lia.
  - destruct (Z.ltb_spec s r); [|lia]. apply IH; [lia|].
    rewrite Nat2Z.inj_succ, Z.pow_succ_r in Hr by lia. lia.
Qed.

Lemma grow_loop_mono fuel s r : 0 ≤ s → s ≤ grow_loop fuel s r.
Proof.
  revert s. induction fuel as [|f IH]; intros s Hs; simpl; [lia|].
  destruct (Z.ltb_spec s r); [|lia]. specialize (IH (2 * s)). lia.
Qed.

Lemma grow_ge s r : 1 ≤ s → r ≤ grow s r ∧ s ≤ grow s r.
Proof.
  intros Hs. unfold grow. split; [|apply grow_loop_mono; lia].
  apply grow_loop_ge; [done|]. destruct (Z.le_gt_cases r 1).
  - nia.
  - pose proof (Z.log2_up_spec r ltac:(lia)). pose proof (Z.log2_up_nonneg r).
    rewrite Z2Nat.id by done. nia.
Qed.

(** [EnsureWritable(n)] keeps the content and leaves room for [n] bytes. *)
Lemma EnsureWritable_spec n b :
  buffer_wf b → 0 ≤ n →
  let b' := EnsureWritable n b in
  buffer_wf b' ∧ Readable b' = Readable b ∧ n ≤ WritableBytes b'.
Proof.
  intros Hwf Hn. unfold EnsureWritable.
  destruct (Z.leb_spec n (WritableBytes b)) as [Hle|Hgt]; [done|].
  pose proof (Compact_wf b Hwf) as Hc. pose proof (Compact_readable b Hwf) as Hr.
  pose proof (Compact_capacity b Hwf) as Hcap. pose proof (Compact_read_pos b) as H0.
  assert (Hw : write_pos (Compact b) = ReadableBytes b).
  { pose proof (zlen_Readable _ Hc) as HL. rewrite Hr, zlen_Readable in HL by done.
    unfold ReadableBytes at 2 in HL. lia. }
  unfold Capacity in Hcap.
  destruct (_ && _) eqn:Hb.
  - apply andb_true_iff in Hb as [_ Hb]. apply Z.leb_le in Hb.
    split_and!; [done|done|]. unfold WritableBytes. lia.
  - set (s0 := if zlen (storage b) =? 0 then 1024 else zlen (storage b)).
    assert (Hs0 : 1 ≤ s0 ∧ zlen (storage b) ≤ s0).
    { unfold s0. destruct (Z.eqb_spec (zlen (storage b)) 0); zlist. }
    destruct (grow_ge s0 (ReadableBytes b + n)) as [Hg1 Hg2]; [lia|].
    set (g := grow s0 (ReadableBytes b + n)) in *.
    destruct Hc as (Hc1 & Hc2 & Hc3). split_and!.
    + unfold buffer_wf; simpl. rewrite zlen_vector_resize; lia.
    + rewrite <- Hr. unfold Readable, ReadableBytes; simpl.
      apply slice_resize; lia.
    + unfold WritableBytes; simpl. rewrite zlen_vector_resize; lia.
Qed.

(** Storing [bs] behind the content and committing it appends it. *)
Lemma PokeCommit_spec bs b :
  buffer_wf b → zlen bs ≤ WritableBytes b →
  let b' := Commit (zlen bs) (PokeWritable bs b) in
  buffer_wf b' ∧ Readable b' = Readable b ++ bs.
Proof.
  intros (H1&H2&H3) Hw. unfold WritableBytes in Hw.
  assert (Hs : zlen (zsplice (write_pos b) bs (storage b)) = zlen (storage b))
    by (apply zlen_zsplice; lia).
  split.
  - unfold buffer_wf; simpl. rewrite Hs. zlist.
  - unfold Readable, ReadableBytes; simpl. unfold zsplice.
    set (r := read_pos b) in *. set (w := write_pos b) in *. set (st := storage b) in *.
    assert (Hz : zlen (ztake w st) = w) by (rewrite zlen_ztake; lia).
    unfold slice at 1. rewrite zdrop_app_le by lia. rewrite zdrop_ztake by lia.
    rewrite app_assoc. rewrite ztake_app; [done|].
    rewrite zlen_app, zlen_ztake, zlen_zdrop. zlist.
Qed.

Lemma ReserveWrite_spec n bs b :
  buffer_wf b → zlen bs ≤ n →
  buffer_wf (ReserveWrite n bs b) ∧ Readable (ReserveWrite n bs b) = Readable b ++ bs.
Proof.
  intros Hwf Hn. pose proof (zlen_nonneg bs). unfold ReserveWrite.
  destruct (EnsureWritable_spec n b Hwf ltac:(lia)) as (Hwf' & <- & Hroom).
  apply PokeCommit_spec; [done|lia].
Qed.

Lemma Append_spec bs b :
  buffer_wf b → buffer_wf (Append bs b) ∧ Readable (Append bs b) = Readable b ++ bs.
Proof.
  intros Hwf. unfold Append. destruct (Z.eqb_spec (zlen bs) 0) as [H0|].
  - apply zlen_0_nil in H0 as ->. by rewrite app_nil_r.
  - by apply (ReserveWrite_spec (zlen bs)).
Qed.

Lemma Consume_spec n b :
  buffer_wf b → 0 ≤ n ≤ ReadableBytes b →
  buffer_wf (Consume n b) ∧ Readable (Consume n b) = zdrop n (Readable b).
Proof.
  intros (H1&H2&H3) Hn. unfold ReadableBytes in Hn. unfold Consume.
  destruct (Z.eqb_spec (read_pos b + n) (write_pos b)) as [He|He].
  - split; [unfold buffer_wf; simpl; zlist|].
    unfold Readable, ReadableBytes, slice; simpl. rewrite ztake_0 by lia. symmetry.
    apply zdrop_all. rewrite zlen_ztake. lia.
  - split; [unfold buffer_wf; simpl; lia|].
    unfold Readable, ReadableBytes, slice; simpl.
    rewrite zdrop_ztake by lia. rewrite zdrop_zdrop by lia. f_equal. lia.
Qed.

(** What the payload writer needs from its output: a place where [ReserveWrite]
    appends, stated without cursors or capacities. *)
Class ByteSink (W : Type) := {
  sink_wf : W → Prop;
  sink_bytes : W → bytes;
  sink_write : Z → bytes → W → W;
  sink_write_wf reserve bs w :
    sink_wf w → zlen bs ≤ reserve → sink_wf (sink_write reserve bs w);
  sink_write_bytes reserve bs w :
    sink_wf w → zlen bs ≤ reserve → sink_bytes (sink_write reserve bs w) = sink_bytes w ++ bs;
}.

#[global] Instance ByteBuffer_sink : ByteSink ByteBuffer := {|
  sink_wf := buffer_wf;
  sink_bytes := Readable;
  sink_write := ReserveWrite;
  sink_write_wf n bs w Hw Hn := proj1 (ReserveWrite_spec n bs w Hw Hn);
  sink_write_bytes n bs w Hw Hn := proj2 (ReserveWrite_spec n bs w Hw Hn);
|}.

(** The abstract sink: a byte string. *)
#[global] Instance bytes_sink : ByteSink bytes := {|
  sink_wf _ := True;
  sink_bytes w := w;
  sink_write _ bs w := w ++ bs;
  sink_write_wf _ _ _ _ _ := I;
  sink_write_bytes _ _ _ _ _ := eq_refl;
|}.

(** ** A connection's buffer as a byte queue *)

Inductive BufferOp : Type :=
  | OpAppend (data : bytes) | OpConsume (n : Z) | OpCompact | OpEnsure (n : Z)
  | OpReserve (n : Z) | OpClear.

Definition run_op (op : BufferOp) (b : ByteBuffer) : ByteBuffer :=
  match op with
  | OpAppend data => Append data b
  | OpConsume n => Consume n b
  | OpCompact => Compact b
  | OpEnsure n => EnsureWritable n b
  | OpReserve n => Reserve n b
  | OpClear => Clear b
  end.

(** The byte queue each operation is meant to act on. *)
Definition queue_op (op : BufferOp) (q : bytes) : bytes :=
  match op with
  | OpAppend data => q ++ data
  | OpConsume n => zdrop n q
  | OpCompact | OpEnsure _ | OpReserve _ => q
  | OpClear => []
  end.

(** The callers' obligation: never consume more than is readable. *)
Definition op_allowed (op : BufferOp) (q : bytes) : Prop :=
  match op with
  | OpConsume n => 0 ≤ n ≤ zlen q
  | OpEnsure n => 0 ≤ n
  | _ => True
  end.

Fixpoint ops_allowed (ops : list BufferOp) (q : bytes) : Prop :=
  match ops with
  | [] => True
  | op :: ops => op_allowed op q ∧ ops_allowed ops (queue_op op q)
  end.

Lemma Reserve_spec n b :
  buffer_wf b → buffer_wf (Reserve n b) ∧ Readable (Reserve n b) = Readable b.
Proof.
  intros (H1&H2&H3). unfold Reserve. destruct (Z.ltb_spec (zlen (storage b)) n); [|done].
  split.
  - unfold buffer_wf; simpl. rewrite zlen_vector_resize; zlist.
  - unfold Readable, ReadableBytes; simpl. apply slice_resize; lia.
Qed.

Lemma Clear_spec b : buffer_wf (Clear b) ∧ Readable (Clear b) = [].
Proof. split; [unfold buffer_wf; simpl; zlist|]. by apply ztake_0. Qed.

Lemma run_op_spec op b :
  buffer_wf b → op_allowed op (Readable b) →
  buffer_wf (run_op op b) ∧ Readable (run_op op b) = queue_op op (Readable b).
Proof.
  intros Hwf. destruct op; simpl; intros Hop.
  - by apply Append_spec.
  - apply Consume_spec; [done|]. by rewrite zlen_Readable in Hop.
  - split; [by apply Compact_wf | by apply Compact_readable].
  - destruct (EnsureWritable_spec n b Hwf Hop) as (?&?&?); done.
  - by apply Reserve_spec.
  - by apply Clear_spec.
Qed.

Definition run_ops (ops : list BufferOp) (b : ByteBuffer) : ByteBuffer :=
  fold_left (λ b op, run_op op b) ops b.

(** A connection buffer refines a byte queue: from any well-formed buffer, any
    sequence of appends, consumes, compactions, growths and clears leaves the
    cursors within the storage and exposes exactly the bytes a FIFO byte queue
    would, so no interleaving of compaction and growth loses or reorders a byte. *)
Theorem ByteBuffer_refines_queue (ops : list BufferOp) (b : ByteBuffer) :
  buffer_wf b → ops_allowed ops (Readable b) →
  buffer_wf (run_ops ops b) ∧
  Readable (run_ops ops b) = fold_left (λ q op, queue_op op q) ops (Readable b).
Proof.
  unfold run_ops. revert b. induction ops as [|op ops IH]; intros b Hwf; [done|].
  intros [Hop Hops]. destruct (run_op_spec op b Hwf Hop) as [Hwf' Hr]. simpl.
  rewrite <- Hr in Hops |- *. by apply IH.
Qed.

Lemma ByteBuffer_refines_queue_witness :
  let ops := [OpAppend [1; 2; 3; 4]; OpConsume 2; OpEnsure 2000; OpCompact; OpAppend [5]] in
  buffer_wf (run_ops ops (newBuffer 4)) ∧
  Readable (run_ops ops (newBuffer 4))
  = fold_left (λ q op, queue_op op q) ops (Readable (newBuffer 4)).
Proof.
  apply ByteBuffer_refines_queue.
  - unfold buffer_wf; simpl. split_and!; discriminate.
  - simpl. split_and!; try done; discriminate.
Defined.

(** ** The buffer pool *)

Record BufferPoolOptions := mkPoolOptions {
  max_pooled : Z; default_capacity : Z; max_retained_capacity : Z }.

Record PoolStats := mkPoolStats {
  acquires : Z; hits : Z; releases : Z; discards : Z; pooled : Z }.

Record BufferPool := mkPool {
  options : BufferPoolOptions; free_list : list ByteBuffer; stats : PoolStats }.

Definition newPool (o : BufferPoolOptions) : BufferPool := mkPool o [] (mkPoolStats 0 0 0 0 0).

(** [free_list_] is a vector used as a stack: [back()] is the head here. *)
Definition Acquire (min_capacity : Z) (p : BufferPool) : ByteBuffer * BufferPool :=
  let capacity := Z.max min_capacity (default_capacity (options p)) in
  let st := stats p in
  match free_list p with
  | buffer :: rest =>
      (Reserve capacity (Clear buffer),
       mkPool (options p) rest
         (mkPoolStats (acquires st + 1) (hits st + 1) (releases st) (discards st) (zlen rest)))
  | [] =>
      (newBuffer capacity,
       mkPool (options p) []
         (mkPoolStats (acquires st + 1) (hits st) (releases st) (discards st) (pooled st)))
  end.

Definition Release (buffer : ByteBuffer) (p : BufferPool) : BufferPool :=
  let buffer := Clear buffer in
  let st := stats p in
  if max_pooled (options p) <=? zlen (free_list p) then
    mkPool (options p) (free_list p)
      (mkPoolStats (acquires st) (hits st) (releases st + 1) (discards st + 1) (pooled st))
  else
    let buffer := if max_retained_capacity (options p) <? Capacity buffer
                  then Shrink (default_capacity (options p)) buffer else buffer in
    let free := buffer :: free_list p in
    mkPool (options p) free
      (mkPoolStats (acquires st) (hits st) (releases st + 1) (discards st) (zlen free)).

Definition GetStats (p : BufferPool) : PoolStats :=
  let st := stats p in
  mkPoolStats (acquires st) (hits st) (releases st) (discards st) (zlen (free_list p)).

(** Idle memory is bounded: at most [max_pooled] buffers, each empty and no larger
    than the retention threshold (or the default size it is shrunk to). *)
Definition pool_inv (p : BufferPool) : Prop :=
  zlen (free_list p) ≤ Z.max 0 (max_pooled (options p)) ∧
  Forall (λ b, buffer_wf b ∧ Readable b = [] ∧
    Capacity b ≤ Z.max (max_retained_capacity (options p)) (default_capacity (options p)))
    (free_list p).

Lemma Reserve_capacity n b : buffer_wf b → n ≤ Capacity (Reserve n b).
Proof.
  intros _. unfold Reserve, Capacity. destruct (Z.ltb_spec (zlen (storage b)) n); simpl; [|lia].
  rewrite zlen_vector_resize; zlist.
Qed.

Lemma Shrink_clear_spec n b :
  0 ≤ n → buffer_wf (Shrink n (Clear b)) ∧ Readable (Shrink n (Clear b)) = [] ∧
  Capacity (Shrink n (Clear b)) ≤ n.
Proof.
  intros Hn. unfold Shrink. change (Compact (Clear b)) with (Clear b).
  destruct (Clear_spec b) as [Hwf Hr]. unfold Capacity.
  destruct (Z.ltb_spec n (zlen (storage (Clear b)))); [|done].
  split_and!.
  - unfold buffer_wf; simpl. rewrite zlen_vector_resize; lia.
  - by apply ztake_0.
  - simpl. rewrite zlen_vector_resize; lia.
Qed.

Lemma Release_inv b p : 0 ≤ default_capacity (options p) → pool_inv p → pool_inv (Release b p).
Proof.
  intros Hd [Hlen Hall]. unfold Release.
  destruct (Z.leb_spec (max_pooled (options p)) (zlen (free_list p))); [done|].
  split; simpl; [rewrite zlen_cons; zlist|]. constructor; [|done].
  destruct (Z.ltb_spec (max_retained_capacity (options p)) (Capacity (Clear b))).
  - destruct (Shrink_clear_spec (default_capacity (options p)) b Hd) as (?&?&?).
    split_and!; [done|done|lia].
  - destruct (Clear_spec b). split_and!; [done|done|lia].
Qed.

Lemma Acquire_inv n p : pool_inv p → pool_inv (Acquire n p).2.
Proof.
  intros [Hlen Hall]. unfold Acquire. destruct (free_list p) as [|b rest] eqn:E; simpl.
  - split; simpl; [zlist|constructor].
  - inversion Hall; subst. split; simpl; [zlist|done].
Qed.

Lemma Acquire_buffer n p :
  let b := (Acquire n p).1 in
  buffer_wf b ∧ Readable b = [] ∧ n ≤ Capacity b ∧ default_capacity (options p) ≤ Capacity b.
Proof.
  unfold Acquire. set (c := Z.max n (default_capacity (options p))).
  assert (H : ∀ b, buffer_wf b → Readable b = [] →
    buffer_wf (Reserve c b) ∧ Readable (Reserve c b) = [] ∧
    n ≤ Capacity (Reserve c b) ∧ default_capacity (options p) ≤ Capacity (Reserve c b)).
  { intros b Hwf Hr. destruct (Reserve_spec c b Hwf) as [? ->].
    pose proof (Reserve_capacity c b Hwf). split_and!; [done|done|lia|lia]. }
  destruct (free_list p) as [|b rest]; simpl; apply H; try done; apply Clear_spec.
Qed.

Inductive PoolOp : Type := PAcquire (n : Z) | PRelease (b : ByteBuffer).
Definition run_pool (op : PoolOp) (p : BufferPool) : BufferPool :=
  match op with PAcquire n => (Acquire n p).2 | PRelease b => Release b p end.

Lemma run_pool_options op p : options (run_pool op p) = options p.
Proof.
  destruct op; simpl; unfold Acquire, Release.
  - by destruct (free_list p).
  - by case_match.
Qed.

(** The pool's memory stays bounded whatever sequence of acquires and releases
    (of buffers of any size and content) is run on it, and every buffer it hands
    out is empty, well formed and at least as large as requested. *)
Theorem BufferPool_bounded (o : BufferPoolOptions) (ops : list PoolOp) (n : Z) :
  0 ≤ default_capacity o →
  let p := fold_left (λ p op, run_pool op p) ops (newPool o) in
  pool_inv p ∧
  let b := (Acquire n p).1 in
  buffer_wf b ∧ Readable b = [] ∧ n ≤ Capacity b ∧ default_capacity o ≤ Capacity b.
Proof.
  intros Hd p.
  assert (H : options p = o ∧ pool_inv p).
  { subst p. assert (Hinv : options (newPool o) = o ∧ pool_inv (newPool o)).
    { split; [done|]. split; simpl; [zlist|constructor]. }
    revert Hinv. generalize (newPool o). induction ops as [|op ops IH]; intros p [Ho Hp]; [done|].
    simpl. apply IH. rewrite run_pool_options. split; [done|]. destruct op; simpl.
    - by apply Acquire_inv.
    - apply Release_inv; [by rewrite Ho|done]. }
  destruct H as [Ho Hp]. split; [done|]. rewrite <- Ho. apply Acquire_buffer.
Qed.

Lemma BufferPool_bounded_witness :
  let o := mkPoolOptions 1 4 8 in
  let ops := [PAcquire 16; PRelease (newBuffer 16); PRelease (newBuffer 3)] in
  pool_inv (fold_left (λ p op, run_pool op p) ops (newPool o)).
Proof. intros o ops. apply (BufferPool_bounded o ops 0). discriminate. Defined.
