(* ===== verification/Types.v ===== *)
(** * Types: identifiers, topic-partitions, names and their orderings

    Models include/pulselog/base/types.h and src/base/types.cc.  A std::string
    is its byte sequence; std::string's [operator<] is the lexicographic order
    on unsigned bytes. *)
From S2P Require Import Prelude.

(** The bytes of a source string literal. *)
Fixpoint str (s : string) : bytes :=
  match s with
  | EmptyString => []
  | String a s => Z.of_N (Ascii.N_of_ascii a) :: str s
  end.

Definition kInvalidOffset : Z := -1.
Definition kEarliestOffset : Z := -2.
Definition kLatestOffset : Z := -1.

(** [std::string::operator<]. *)
Fixpoint bytes_ltb (a b : bytes) : bool :=
  match a, b with
  | _, [] => false
  | [], _ :: _ => true
  | x :: a, y :: b => if x <? y then true else if y <? x then false else bytes_ltb a b
  end.

Record TopicPartition := mkTP { topic : bytes; partition : Z }.

#[global] Instance TopicPartition_eq_dec : EqDecision TopicPartition.
Proof. solve_decision. Defined.

#[global] Instance TopicPartition_countable : Countable TopicPartition.
Proof.
  refine (inj_countable' (λ t, (topic t, partition t)) (λ p, mkTP p.1 p.2) _).
  by intros [].
Defined.

(** [operator<]: topic first, then partition. *)
Definition tp_ltb (a b : TopicPartition) : bool :=
  if bool_decide (topic a = topic b) then partition a <? partition b
  else bytes_ltb (topic a) (topic b).

(** [topic + "-" + std::to_string(partition)] needs decimal printing. *)
Fixpoint digits (fuel : nat) (n : Z) : bytes :=
  match fuel with
  | O => []
  | S fuel => (if n <? 10 then [] else digits fuel (n / 10)) ++ [48 + n mod 10]
  end.
Definition to_string (n : Z) : bytes :=
  if n <? 0 then 45 :: digits (Z.to_nat (Z.log2_up (- n)) + 1) (- n)
  else digits (Z.to_nat (Z.log2_up n) + 1) n.

Definition TopicPartition_ToString (t : TopicPartition) : bytes :=
  topic t ++ str "-" ++ to_string (partition t).

Inductive AckMode : Set := kNone | kLeader | kQuorum.
#[global] Instance AckMode_eq_dec : EqDecision AckMode.
Proof. solve_decision. Defined.

Definition AckMode_raw (m : AckMode) : Z := match m with kNone => 0 | kLeader => 1 | kQuorum => 2 end.
Definition AckMode_of_raw (raw : Z) : AckMode :=
  if raw =? 0 then kNone else if raw =? 1 then kLeader else kQuorum.

Definition AckModeName (m : AckMode) : bytes :=
  match m with kNone => str "none" | kLeader => str "leader" | kQuorum => str "quorum" end.

Definition ParseAckMode (text : bytes) : option AckMode :=
  if bool_decide (text = str "none") || bool_decide (text = str "0") then Some kNone
  else if bool_decide (text = str "leader") || bool_decide (text = str "1") then Some kLeader
  else if bool_decide (text = str "quorum") || bool_decide (text = str "all")
          || bool_decide (text = str "-1") then Some kQuorum
  else None.

Inductive Compression : Set := kCompNone | kLz4Like.
#[global] Instance Compression_eq_dec : EqDecision Compression.
Proof. solve_decision. Defined.

Definition Compression_raw (c : Compression) : Z := match c with kCompNone => 0 | kLz4Like => 1 end.
Definition Compression_of_raw (raw : Z) : Compression := if raw =? 0 then kCompNone else kLz4Like.

Definition CompressionName (c : Compression) : bytes :=
  match c with kCompNone => str "none" | kLz4Like => str "lz4like" end.

Definition ParseCompression (text : bytes) : option Compression :=
  if bool_decide (text = str "none") || bool_decide (text = str "0") then Some kCompNone
  else if bool_decide (text = str "lz4like") || bool_decide (text = str "lz4")
          || bool_decide (text = str "1") then Some kLz4Like
  else None.

Definition kMaxTopicNameLength : Z := 200.

Definition topic_char_ok (c : Z) : bool :=
  ((97 <=? c) && (c <=? 122)) || ((65 <=? c) && (c <=? 90)) || ((48 <=? c) && (c <=? 57))
  || (c =? 46) || (c =? 95) || (c =? 45).

Definition IsValidTopicName (name : bytes) : bool :=
  if (zlen name =? 0) || (kMaxTopicNameLength <? zlen name) then false
  else if bool_decide (name = str ".") || bool_decide (name = str "..") then false
  else forallb topic_char_ok name.

(** ** The byte order is a strict total order *)

Lemma bytes_ltb_irrefl a : bytes_ltb a a = false.
Proof. induction a as [|x a IH]; [done|]. simpl. by rewrite Z.ltb_irrefl. Qed.

Lemma bytes_ltb_trans a b c : bytes_ltb a b = true → bytes_ltb b c = true → bytes_ltb a c = true.
Proof.
  revert b c. induction a as [|x a IH]; intros [|y b] [|z c]; simpl; try done.
  destruct (Z.ltb_spec x y), (Z.ltb_spec y x), (Z.ltb_spec y z), (Z.ltb_spec z y),
    (Z.ltb_spec x z), (Z.ltb_spec z x); intros; try done; try lia. eauto.
Qed.

Lemma bytes_ltb_total a b : bytes_ltb a b = true ∨ a = b ∨ bytes_ltb b a = true.
Proof.
  revert b. induction a as [|x a IH]; intros [|y b]; simpl; auto.
  destruct (Z.ltb_spec x y), (Z.ltb_spec y x); auto.
  assert (x = y) as -> by lia. destruct (IH b) as [|[->|]]; auto.
Qed.

Lemma bytes_ltb_asym a b : bytes_ltb a b = true → bytes_ltb b a = false.
Proof.
  intros H. destruct (bytes_ltb b a) eqn:E; [|done].
  pose proof (bytes_ltb_trans _ _ _ H E) as Hc. by rewrite bytes_ltb_irrefl in Hc.
Qed.

Lemma tp_ltb_irrefl a : tp_ltb a a = false.
Proof. unfold tp_ltb. rewrite bool_decide_eq_true_2 by done. apply Z.ltb_irrefl. Qed.

Lemma tp_ltb_trans a b c : tp_ltb a b = true → tp_ltb b c = true → tp_ltb a c = true.
Proof.
  unfold tp_ltb. intros H1 H2. destruct (decide (topic a = topic b)) as [Eab|Nab].
  - rewrite <- Eab in H2. rewrite bool_decide_eq_true_2 in H1 by done.
    case_bool_decide; [|done]. apply Z.ltb_lt in H1, H2. apply Z.ltb_lt. lia.
  - rewrite bool_decide_eq_false_2 in H1 by done.
    destruct (decide (topic b = topic c)) as [Ebc|Nbc].
    + rewrite <- Ebc. by rewrite bool_decide_eq_false_2.
    + rewrite bool_decide_eq_false_2 in H2 by done.
      pose proof (bytes_ltb_trans _ _ _ H1 H2) as Hac.
      rewrite bool_decide_eq_false_2; [done|]. intros E.
      rewrite E, bytes_ltb_irrefl in Hac. done.
Qed.

Lemma tp_ltb_total a b : tp_ltb a b = true ∨ a = b ∨ tp_ltb b a = true.
Proof.
  unfold tp_ltb. destruct a as [ta pa], b as [tb pb]; simpl.
  repeat case_bool_decide; simplify_eq.
  - rewrite !Z.ltb_lt. assert (pa < pb ∨ pa = pb ∨ pb < pa) as [|[->|]] by lia; auto.
  - destruct (bytes_ltb_total ta tb) as [|[->|]]; auto.
Qed.

(** Non-strict versions, as the relations [std::sort] orders by. *)
Definition bytes_le (a b : bytes) : Prop := bytes_ltb b a = false.
Definition tp_le (a b : TopicPartition) : Prop := tp_ltb b a = false.

#[global] Instance bytes_le_dec : RelDecision bytes_le.
Proof. intros a b. unfold bytes_le. apply _. Defined.
#[global] Instance tp_le_dec : RelDecision tp_le.
Proof. intros a b. unfold tp_le. apply _. Defined.

Section StrictToTotal.
Context {A : Type} (ltb : A → A → bool).
Hypothesis ltb_irrefl : ∀ a, ltb a a = false.
Hypothesis ltb_trans : ∀ a b c, ltb a b = true → ltb b c = true → ltb a c = true.
Hypothesis ltb_total : ∀ a b, ltb a b = true ∨ a = b ∨ ltb b a = true.

Lemma strict_le_total : Total (λ a b, ltb b a = false).
Proof.
  intros a b. destruct (ltb b a) eqn:E; [right|by left].
  destruct (ltb a b) eqn:E'; [|done].
  pose proof (ltb_trans _ _ _ E E') as Hc. by rewrite ltb_irrefl in Hc.
Qed.

Lemma strict_le_trans : Transitive (λ a b, ltb b a = false).
Proof.
  intros a b c Hab Hbc. destruct (ltb c a) eqn:E; [|done].
  destruct (ltb_total a b) as [H|[->|H]]; [|congruence|congruence].
  pose proof (ltb_trans _ _ _ E H). congruence.
Qed.

Lemma strict_le_antisym : AntiSymm (=) (λ a b, ltb b a = false).
Proof. intros a b Hab Hba. destruct (ltb_total a b) as [|[|]]; congruence. Qed.
End StrictToTotal.

#[global] Instance bytes_le_total : Total bytes_le.
Proof. apply strict_le_total; eauto using bytes_ltb_irrefl, bytes_ltb_trans. Qed.
#[global] Instance bytes_le_trans : Transitive bytes_le.
Proof. apply strict_le_trans; eauto using bytes_ltb_total, bytes_ltb_trans. Qed.
#[global] Instance bytes_le_antisym : AntiSymm (=) bytes_le.
Proof. apply strict_le_antisym, bytes_ltb_total. Qed.
#[global] Instance tp_le_total : Total tp_le.
Proof. apply strict_le_total; eauto using tp_ltb_irrefl, tp_ltb_trans. Qed.
#[global] Instance tp_le_trans : Transitive tp_le.
Proof. apply strict_le_trans; eauto using tp_ltb_total, tp_ltb_trans. Qed.
#[global] Instance tp_le_antisym : AntiSymm (=) tp_le.
Proof. apply strict_le_antisym, tp_ltb_total. Qed.

(** A valid topic name is safe as a directory name: no separator, no NUL, no
    control or space byte, and not one of the two reserved names. *)
Lemma IsValidTopicName_safe name :
  IsValidTopicName name = true →
  name ≠ [] ∧ name ≠ str "." ∧ name ≠ str ".." ∧ zlen name ≤ 200 ∧
  Forall (λ c, 32 < c < 127 ∧ c ≠ 47) name.
Proof.
  unfold IsValidTopicName, kMaxTopicNameLength.
  destruct (_ || _) eqn:E1; [done|]. destruct (_ || bool_decide _) eqn:E2; [done|].
  apply orb_false_iff in E1 as [E1 E1']. apply orb_false_iff in E2 as [E2 E2'].
  apply bool_decide_eq_false in E2, E2'. apply Z.ltb_ge in E1'. apply Z.eqb_neq in E1.
  intros Hall. split_and!; try done; [by intros ->|].
  apply Forall_forall. intros c Hc. rewrite forallb_forall in Hall.
  specialize (Hall c). rewrite <- list_elem_of_In in Hall. specialize (Hall Hc).
  unfold topic_char_ok in Hall.
  repeat (apply orb_true_iff in Hall as [Hall|Hall]);
    try (apply andb_true_iff in Hall as [H1 H2]; apply Z.leb_le in H1, H2; lia);
    apply Z.eqb_eq in Hall; lia.
Qed.

Lemma ParseAckMode_name m : ParseAckMode (AckModeName m) = Some m.
Proof. by destruct m. Qed.

Lemma AckMode_of_raw_raw m : AckMode_of_raw (AckMode_raw m) = m.
Proof. by destruct m. Qed.
Lemma Compression_of_raw_raw m : Compression_of_raw (Compression_raw m) = m.
Proof. by destruct m. Qed.
