(* ===== verification/Text.v ===== *)
(** * Text: decimal numbers, fields and lines

    The text the program reads and writes: [std::to_string] and [std::from_chars],
    splitting at a delimiter, and [std::getline].  Strings are byte lists. *)
From S2P Require Import Prelude Types.

(** ** Definitions *)

(** [std::from_chars]: digits up to the first other byte; reports where it stopped. *)
Fixpoint from_chars_digits (s : bytes) (acc : Z) (seen : bool) : option (Z * bytes) :=
  match s with
  | c :: rest =>
      if (48 <=? c) && (c <=? 57) then from_chars_digits rest (10 * acc + (c - 48)) true
      else if seen then Some (acc, s) else None
  | [] => if seen then Some (acc, []) else None
  end.
(** For a w-bit signed type: an optional minus sign first; out of range is an error. *)
Definition from_chars_int (w : Z) (s : bytes) : option (Z * bytes) :=
  match s with
  | 45 :: rest =>
      match from_chars_digits rest 0 false with
      | Some (v, r) => if v <=? 2 ^ (w - 1) then Some (- v, r) else None
      | None => None
      end
  | _ =>
      match from_chars_digits s 0 false with
      | Some (v, r) => if v <? 2 ^ (w - 1) then Some (v, r) else None
      | None => None
      end
  end.
(** For a w-bit unsigned type a minus sign is not a number. *)
Definition from_chars_uint (w : Z) (s : bytes) : option (Z * bytes) :=
  match from_chars_digits s 0 false with
  | Some (v, r) => if v <? 2 ^ w then Some (v, r) else None
  | None => None
  end.

(** [ParseNumber]: the whole text must be the number. *)
Definition whole (r : option (Z * bytes)) : option Z :=
  match r with Some (v, []) => Some v | _ => None end.
Definition ParseNumber (w : Z) (text : bytes) : option Z := whole (from_chars_int w text).
Definition ParseNumber_unsigned (w : Z) (text : bytes) : option Z := whole (from_chars_uint w text).

(** [Split]: the fields between the delimiters, empty ones included. *)
Fixpoint Split (delimiter : Z) (text : bytes) : list bytes :=
  match text with
  | [] => [[]]
  | c :: text =>
      if c =? delimiter then [] :: Split delimiter text
      else match Split delimiter text with
           | f :: fs => (c :: f) :: fs
           | [] => [[c]]
           end
  end.

(** What repeated [std::getline] yields: a last line without a newline counts, an
    empty remainder does not. *)
Fixpoint getlines (text : bytes) : list bytes :=
  match text with
  | [] => []
  | c :: rest =>
      if c =? 10 then [] :: getlines rest
      else match rest with
           | [] => [[c]]
           | _ => match getlines rest with l :: ls => (c :: l) :: ls | [] => [[c]] end
           end
  end.

(** [text.find(c)] and [text.rfind(c)]: what is before and after the byte found. *)
Fixpoint cut_first (c : Z) (text : bytes) : option (bytes * bytes) :=
  match text with
  | [] => None
  | x :: text => if x =? c then Some ([], text)
                 else match cut_first c text with Some (a, b) => Some (x :: a, b) | None => None end
  end.
Fixpoint cut_last (c : Z) (text : bytes) : option (bytes * bytes) :=
  match text with
  | [] => None
  | x :: text => match cut_last c text with
                 | Some (a, b) => Some (x :: a, b)
                 | None => if x =? c then Some ([], text) else None
                 end
  end.

(** ** Decimal numbers *)

Definition is_digit (c : Z) : Prop := 48 ≤ c ≤ 57.
Definition decimal (acc : Z) (l : bytes) : Z := fold_left (λ a c, 10 * a + (c - 48)) l acc.

Lemma from_chars_digits_all l acc seen :
  Forall is_digit l → seen = true ∨ l ≠ [] → from_chars_digits l acc seen = Some (decimal acc l, []).
Proof.
  intros Hl. revert acc seen. induction Hl as [|c l Hc Hl IH]; intros acc seen Hs; cbn [from_chars_digits].
  - by destruct Hs as [->|].
  - destruct (Z.leb_spec 48 c), (Z.leb_spec c 57); try (unfold is_digit in Hc; lia). cbn [andb].
    rewrite IH by (by left). done.
Qed.

Lemma digits_spec fuel n :
  0 ≤ n < 10 ^ Z.of_nat fuel → (0 < fuel)%nat →
  Forall is_digit (digits fuel n) ∧ decimal 0 (digits fuel n) = n ∧ digits fuel n ≠ [].
Proof.
  revert n. induction fuel as [|fuel IH]; intros n Hn Hf; [lia|]. cbn [digits].
  pose proof (Z.mod_pos_bound n 10 ltac:(lia)) as Hm. pose proof (Z.div_mod n 10 ltac:(lia)) as Hd.
  assert (Hlast : is_digit (48 + n mod 10)) by (unfold is_digit; lia).
  split_and!; [| |by destruct (if _ <? _ then _ else _)].
  - apply Forall_app. split; [|by constructor]. destruct (Z.ltb_spec n 10); [constructor|].
    destruct fuel as [|fuel]; [change (10 ^ Z.of_nat 1) with 10 in Hn; lia|]. apply IH; [|lia].
    rewrite Nat2Z.inj_succ, Z.pow_succ_r in Hn by lia. split; [apply Z.div_pos; lia|apply Z.div_lt_upper_bound; lia].
  - unfold decimal. rewrite fold_left_app. cbn [fold_left]. fold (decimal 0 (if n <? 10 then [] else digits fuel (n / 10))).
    destruct (Z.ltb_spec n 10); [rewrite Z.mod_small by lia; cbn; lia|].
    destruct fuel as [|fuel]; [change (10 ^ Z.of_nat 1) with 10 in Hn; lia|].
    rewrite (proj1 (proj2 (IH (n / 10) ltac:(rewrite Nat2Z.inj_succ, Z.pow_succ_r in Hn by lia;
      split; [apply Z.div_pos; lia|apply Z.div_lt_upper_bound; lia]) ltac:(lia)))). lia.
Qed.

Lemma digits_short fuel k n : 0 ≤ n < 10 ^ k → 1 ≤ k → zlen (digits fuel n) ≤ k.
Proof.
  revert k n. induction fuel as [|fuel IH]; intros k n Hn Hk; cbn [digits]; [zlist|].
  rewrite zlen_app. change (zlen [48 + n mod 10]) with 1. destruct (Z.ltb_spec n 10); [zlist|].
  assert (Hk1 : 1 ≤ k - 1).
  { destruct (Z.eq_dec k 1) as [->|]; [change (10 ^ 1) with 10 in Hn; lia|lia]. }
  enough (zlen (digits fuel (n / 10)) ≤ k - 1) by lia. apply IH; [|done].
  replace k with (Z.succ (k - 1)) in Hn by lia. rewrite Z.pow_succ_r in Hn by lia.
  split; [apply Z.div_pos; lia|apply Z.div_lt_upper_bound; lia].
Qed.

Lemma decimal_zeros k l : decimal 0 (replicate k 48 ++ l) = decimal 0 l.
Proof. unfold decimal. rewrite fold_left_app. f_equal. induction k as [|k IH]; [done|]. exact IH. Qed.

Lemma log_fuel_enough n : 0 ≤ n → n < 10 ^ Z.of_nat (Z.to_nat (Z.log2_up n) + 1).
Proof.
  intros Hn. pose proof (Z.log2_up_nonneg n) as Hl. rewrite Nat2Z.inj_add, Z2Nat.id by done. cbn [Z.of_nat].
  assert (n ≤ 2 ^ Z.log2_up n).
  { destruct (Z.le_gt_cases n 1); [|by apply Z.log2_up_spec].
    pose proof (Z.pow_pos_nonneg 2 (Z.log2_up n)). lia. }
  assert (2 ^ Z.log2_up n ≤ 10 ^ Z.log2_up n) by (apply Z.pow_le_mono_l; lia).
  rewrite Z.pow_add_r by lia. lia.
Qed.

Lemma to_string_digits n :
  0 ≤ n → Forall is_digit (to_string n) ∧ decimal 0 (to_string n) = n ∧ to_string n ≠ [].
Proof.
  intros Hn. unfold to_string. destruct (Z.ltb_spec n 0); [lia|].
  apply digits_spec; [split; [done|by apply log_fuel_enough]|lia].
Qed.
Lemma to_string_neg n : n < 0 → to_string n = 45 :: to_string (- n).
Proof. intros Hn. unfold to_string. destruct (Z.ltb_spec n 0), (Z.ltb_spec (- n) 0); try lia. done. Qed.

Lemma from_chars_int_digits w l :
  Forall is_digit l → l ≠ [] → decimal 0 l < 2 ^ (w - 1) → from_chars_int w l = Some (decimal 0 l, []).
Proof.
  intros Hl Hne Hv. destruct l as [|c l]; [done|]. inversion Hl as [|? ? Hc Hl']; subst.
  unfold from_chars_int. pose proof (from_chars_digits_all (c :: l) 0 false Hl (or_intror Hne)) as HD.
  unfold is_digit in Hc. assert (Hnot : c ≠ 45) by lia.
  rewrite HD. destruct (Z.ltb_spec (decimal 0 (c :: l)) (2 ^ (w - 1))); [|lia].
  destruct c as [|p|p]; try done. repeat (destruct p as [p|p|]; try done).
Qed.

Lemma ParseNumber_to_string w n : signed w n → ParseNumber w (to_string n) = Some n.
Proof.
  unfold signed, ParseNumber. intros Hn. destruct (Z.le_gt_cases 0 n) as [H|H].
  - destruct (to_string_digits n H) as (Hd & Hv & Hne). rewrite from_chars_int_digits, Hv; [done|done|done|lia].
  - rewrite to_string_neg by lia. destruct (to_string_digits (- n) ltac:(lia)) as (Hd & Hv & Hne).
    cbn [from_chars_int]. rewrite from_chars_digits_all by (done || by right). rewrite Hv.
    destruct (Z.leb_spec (- n) (2 ^ (w - 1))); [|lia]. cbn [whole]. f_equal. lia.
Qed.
Lemma ParseNumber_unsigned_to_string w n : unsigned w n → ParseNumber_unsigned w (to_string n) = Some n.
Proof.
  unfold unsigned, ParseNumber_unsigned, from_chars_uint. intros Hn. destruct (to_string_digits n ltac:(lia)) as (Hd & Hv & Hne).
  rewrite from_chars_digits_all by (done || by right). rewrite Hv. destruct (Z.ltb_spec n (2 ^ w)); [done|lia].
Qed.

Lemma from_chars_digits_nonneg s acc seen v r : 0 ≤ acc → from_chars_digits s acc seen = Some (v, r) → 0 ≤ v.
Proof.
  revert acc seen. induction s as [|c s IH]; intros acc seen Ha; cbn; [destruct seen; naive_solver|].
  destruct (Z.leb_spec 48 c), (Z.leb_spec c 57); cbn [andb]; [apply IH; lia| | |]; destruct seen; naive_solver.
Qed.
Lemma ParseNumber_range w text n : 0 < w → ParseNumber w text = Some n → signed w n.
Proof.
  unfold ParseNumber, signed. intros Hw. destruct (from_chars_int w text) as [[v [|]]|] eqn:E; try done.
  cbn. intros [= ->]. pose proof (Z.pow_pos_nonneg 2 (w - 1)).
  assert (∀ s, match from_chars_digits s 0 false with
               | Some (v, r) => if v <? 2 ^ (w - 1) then Some (v, r) else None
               | None => None end = Some (n, []) → - 2 ^ (w - 1) ≤ n < 2 ^ (w - 1)) as Hpos.
  { intros s. destruct (from_chars_digits s 0 false) as [[v r]|] eqn:D; [|done].
    apply from_chars_digits_nonneg in D; [|done]. destruct (Z.ltb_spec v (2 ^ (w - 1))); [|done]. intros [= -> _]. lia. }
  unfold from_chars_int in E. destruct text as [|c text]; [done|].
  destruct (Z.eq_dec c 45) as [->|Hc].
  - destruct (from_chars_digits text 0 false) as [[v r]|] eqn:D; [|done].
    apply from_chars_digits_nonneg in D; [|done]. destruct (Z.leb_spec v (2 ^ (w - 1))); [|done]. injection E as <- _. lia.
  - apply (Hpos (c :: text)). destruct c as [|p|p]; try exact E. repeat (destruct p as [p|p|]; try exact E). done.
Qed.

(** The bytes a printed number is made of. *)
Lemma to_string_chars n : Forall (λ c, c = 45 ∨ is_digit c) (to_string n).
Proof.
  destruct (Z.le_gt_cases 0 n).
  - destruct (to_string_digits n) as [Hd _]; [done|]. eapply Forall_impl; [exact Hd|]. auto.
  - rewrite to_string_neg by lia. constructor; [by left|]. destruct (to_string_digits (- n)) as [Hd _]; [lia|].
    eapply Forall_impl; [exact Hd|]. auto.
Qed.
Lemma to_string_nonempty n : to_string n ≠ [].
Proof.
  destruct (Z.le_gt_cases 0 n); [by apply to_string_digits|]. by rewrite to_string_neg by lia.
Qed.
Definition free_of (d : Z) (l : bytes) : Prop := Forall (λ c, c ≠ d) l.
Lemma to_string_free d n : d < 45 ∨ 45 < d < 48 ∨ 57 < d → free_of d (to_string n).
Proof. intros Hd. eapply Forall_impl; [apply to_string_chars|]. unfold is_digit. intros c ?. lia. Qed.

(** ** Fields and lines *)

(** [intercalate d [f1; f2; ...]] is f1 d f2 d ... *)
Fixpoint intercalate (d : Z) (fs : list bytes) : bytes :=
  match fs with
  | [] => []
  | [f] => f
  | f :: fs => f ++ d :: intercalate d fs
  end.
Lemma intercalate_cons d f fs : fs ≠ [] → intercalate d (f :: fs) = f ++ d :: intercalate d fs.
Proof. by destruct fs. Qed.

Lemma Split_free d f : free_of d f → Split d f = [f].
Proof. induction 1 as [|c f Hc Hf IH]; [done|]. cbn. destruct (Z.eqb_spec c d); [done|]. by rewrite IH. Qed.
Lemma Split_app d f rest : free_of d f → Split d (f ++ d :: rest) = f :: Split d rest.
Proof.
  induction 1 as [|c f Hc Hf IH]; cbn; [by rewrite Z.eqb_refl|]. destruct (Z.eqb_spec c d); [done|]. by rewrite IH.
Qed.
(** Splitting undoes joining. *)
Lemma Split_intercalate d fs : fs ≠ [] → Forall (free_of d) fs → Split d (intercalate d fs) = fs.
Proof.
  intros Hne Hfs. induction Hfs as [|f fs Hf Hfs IH]; [done|]. destruct fs as [|g fs]; [by apply Split_free|].
  rewrite intercalate_cons by done. rewrite Split_app by done. f_equal. by apply IH.
Qed.
Lemma Split_nonempty d text : Split d text ≠ [].
Proof. destruct text as [|c text]; cbn; [done|]. destruct (c =? d); [done|]. by destruct (Split d text). Qed.

Lemma free_of_intercalate x d fs : x ≠ d → Forall (free_of x) fs → free_of x (intercalate d fs).
Proof.
  intros Hx. induction 1 as [|f fs Hf Hfs IH]; [constructor|]. destruct fs as [|g fs]; [done|].
  rewrite intercalate_cons by done. apply Forall_app. split; [done|]. constructor; [congruence|done].
Qed.

(** Reading lines undoes writing each with a newline. *)
Lemma getlines_line l rest : free_of 10 l → getlines (l ++ 10 :: rest) = l :: getlines rest.
Proof.
  induction 1 as [|c l Hc Hl IH]; cbn; [done|]. destruct (Z.eqb_spec c 10); [done|].
  cbn in IH. rewrite IH. by destruct (l ++ 10 :: rest) eqn:E; [destruct l|].
Qed.
Lemma getlines_concat ls : Forall (free_of 10) ls → getlines (concat (map (λ l, l ++ [10]) ls)) = ls.
Proof.
  induction 1 as [|l ls Hl Hls IH]; [done|]. cbn [map concat]. rewrite <- app_assoc. cbn [app].
  rewrite getlines_line by done. by rewrite IH.
Qed.

Lemma cut_first_app c a b : free_of c a → cut_first c (a ++ c :: b) = Some (a, b).
Proof.
  induction 1 as [|x a Hx Ha IH]; cbn; [by rewrite Z.eqb_refl|]. destruct (Z.eqb_spec x c); [done|]. by rewrite IH.
Qed.
Lemma cut_last_none c l : free_of c l → cut_last c l = None.
Proof. induction 1 as [|x l Hx Hl IH]; [done|]. cbn. rewrite IH. by destruct (Z.eqb_spec x c). Qed.
Lemma cut_last_app c a b : free_of c b → cut_last c (a ++ c :: b) = Some (a, b).
Proof.
  intros Hb. induction a as [|x a IH]; cbn; [by rewrite cut_last_none, Z.eqb_refl|]. by rewrite IH.
Qed.
