(* ===== verification/OrdMap.v ===== *)
(** * OrdMap: std::map as an association list in key order

    Iterating a std::map visits its entries in the order of their keys, and several
    components rely on it.  The model keeps the entries as a list sorted by key; the
    laws below are the ones of a finite map. *)
From S2P Require Import Prelude Types.

(** What [std::less] is on a key type. *)
Class KeyOrder (K : Type) := {
  klt : K → K → bool;
  klt_irrefl : ∀ x, klt x x = false;
  klt_trans : ∀ x y z, klt x y = true → klt y z = true → klt x z = true;
  klt_total : ∀ x y, klt x y = true ∨ x = y ∨ klt y x = true }.

#[global] Program Instance Z_order : KeyOrder Z := {| klt := Z.ltb |}.
Next Obligation. intros x. apply Z.ltb_irrefl. Qed.
Next Obligation. intros x y z. rewrite !Z.ltb_lt. lia. Qed.
Next Obligation. intros x y. rewrite !Z.ltb_lt. lia. Qed.
#[global] Instance bytes_order : KeyOrder bytes :=
  {| klt := bytes_ltb; klt_irrefl := bytes_ltb_irrefl; klt_trans := bytes_ltb_trans; klt_total := bytes_ltb_total |}.
#[global] Instance tp_order : KeyOrder TopicPartition :=
  {| klt := tp_ltb; klt_irrefl := tp_ltb_irrefl; klt_trans := tp_ltb_trans; klt_total := tp_ltb_total |}.

Section OrdMap.
Context {K V : Type} `{!EqDecision K, !KeyOrder K}.
Implicit Types m : list (K * V).

Fixpoint om_find (k : K) (m : list (K * V)) : option V :=
  match m with
  | [] => None
  | (k', v) :: m => if decide (k = k') then Some v else om_find k m
  end.
(** [m[k] = v]. *)
Fixpoint om_insert (k : K) (v : V) (m : list (K * V)) : list (K * V) :=
  match m with
  | [] => [(k, v)]
  | (k', v') :: m =>
      if klt k k' then (k, v) :: (k', v') :: m
      else if decide (k = k') then (k, v) :: m
      else (k', v') :: om_insert k v m
  end.
(** [m.emplace(k, v)]: does nothing when the key is there. *)
Definition om_emplace (k : K) (v : V) (m : list (K * V)) : list (K * V) :=
  match om_find k m with Some _ => m | None => om_insert k v m end.
Fixpoint om_erase (k : K) (m : list (K * V)) : list (K * V) :=
  match m with
  | [] => []
  | (k', v) :: m => if decide (k = k') then m else (k', v) :: om_erase k m
  end.

Definition om_below (k : K) (m : list (K * V)) : Prop := Forall (λ p, klt k p.1 = true) m.
Fixpoint om_wf (m : list (K * V)) : Prop :=
  match m with [] => True | (k, _) :: m => om_below k m ∧ om_wf m end.

Lemma klt_neq (x y : K) : klt x y = true → x ≠ y.
Proof. intros H ->. by rewrite klt_irrefl in H. Qed.

Lemma om_below_trans k k' m : klt k k' = true → om_below k' m → om_below k m.
Proof. intros Hk Hm. eapply Forall_impl; [exact Hm|]. intros p. by apply klt_trans. Qed.
Lemma om_below_find k m : om_below k m → om_find k m = None.
Proof.
  induction 1 as [|[k' v] m Hk Hm IH]; [done|]. cbn in *. rewrite decide_False by (by apply klt_neq). done.
Qed.

Lemma om_find_insert k k' v m :
  om_find k' (om_insert k v m) = if decide (k' = k) then Some v else om_find k' m.
Proof.
  induction m as [|[k0 v0] m IH]; cbn; [done|]. destruct (klt k k0) eqn:Hk; cbn; [done|].
  destruct (decide (k = k0)) as [->|Hne]; cbn; [by destruct (decide (k' = k0))|].
  rewrite IH. destruct (decide (k' = k0)), (decide (k' = k)); congruence.
Qed.
Lemma om_find_erase k k' m : om_wf m → om_find k' (om_erase k m) = if decide (k' = k) then None else om_find k' m.
Proof.
  induction m as [|[k0 v0] m IH]; cbn; [by destruct (decide _)|]. intros [Hb Hwf]. specialize (IH Hwf).
  destruct (decide (k = k0)) as [->|Hne]; cbn.
  - destruct (decide (k' = k0)) as [->|]; [by apply om_below_find|done].
  - rewrite IH. destruct (decide (k' = k0)), (decide (k' = k)); congruence.
Qed.

Lemma om_below_insert k0 k v m : klt k0 k = true → om_below k0 m → om_below k0 (om_insert k v m).
Proof.
  intros Hk. induction 1 as [|[k' v'] m Hk' Hm IH]; cbn; [by repeat constructor|].
  destruct (klt k k'); [by repeat constructor|]. destruct (decide (k = k')); by constructor.
Qed.
Lemma om_insert_wf k v m : om_wf m → om_wf (om_insert k v m).
Proof.
  induction m as [|[k' v'] m IH]; cbn; [by repeat constructor|]. intros [Hb Hwf].
  destruct (klt k k') eqn:Hk; cbn.
  - split; [|done]. constructor; [done|by apply (om_below_trans k k')].
  - destruct (decide (k = k')) as [->|Hne]; cbn; [done|]. split; [|by apply IH].
    apply om_below_insert; [|done]. destruct (klt_total k k') as [H|[H|H]]; congruence.
Qed.
Lemma om_below_erase k0 k m : om_below k0 m → om_below k0 (om_erase k m).
Proof. induction 1 as [|[k' v'] m Hk' Hm IH]; cbn; [constructor|]. destruct (decide _); [done|by constructor]. Qed.
Lemma om_erase_wf k m : om_wf m → om_wf (om_erase k m).
Proof.
  induction m as [|[k' v'] m IH]; cbn; [done|]. intros [Hb Hwf]. destruct (decide _); [done|]. cbn.
  split; [by apply om_below_erase|by apply IH].
Qed.
Lemma om_emplace_wf k v m : om_wf m → om_wf (om_emplace k v m).
Proof. intros H. unfold om_emplace. destruct (om_find k m); [done|by apply om_insert_wf]. Qed.
Lemma om_find_emplace k k' v m :
  om_find k' (om_emplace k v m) = if decide (k' = k) then Some (default v (om_find k m)) else om_find k' m.
Proof.
  unfold om_emplace. destruct (om_find k m) eqn:E; [destruct (decide (k' = k)) as [->|]; done|]. apply om_find_insert.
Qed.

Lemma om_find_In k v m : om_find k m = Some v → (k, v) ∈ m.
Proof.
  induction m as [|[k' v'] m IH]; cbn; [done|]. case_decide as Hd; [intros [= ->]; subst; left|]. intros H. right. by apply IH.
Qed.
Lemma om_find_elem k v m : om_wf m → om_find k m = Some v ↔ (k, v) ∈ m.
Proof.
  induction m as [|[k' v'] m IH]; cbn; [by rewrite elem_of_nil|]. intros [Hb Hwf]. rewrite elem_of_cons, <- (IH Hwf).
  destruct (decide (k = k')) as [->|Hne].
  - rewrite (om_below_find _ _ Hb). split; [intros [= ->]; by left|]. intros [[= ->]|H]; done.
  - split; [by right|]. intros [[= -> _]|H]; done.
Qed.

Lemma om_keys_NoDup m : om_wf m → NoDup (map fst m).
Proof.
  induction m as [|[k v] m IH]; [constructor|]. cbn. intros [Hb Hwf]. constructor; [|by apply IH].
  intros (e & -> & He)%list_elem_of_fmap. pose proof (proj1 (Forall_forall _ _) Hb e He) as H. cbn in H.
  by rewrite klt_irrefl in H.
Qed.
Lemma om_filter_wf (p : K * V → bool) m : om_wf m → om_wf (List.filter p m).
Proof.
  induction m as [|[k v] m IH]; [done|]. cbn. intros [Hb Hwf]. destruct (p (k, v)); [|by apply IH]. cbn. split; [|by apply IH].
  apply Forall_forall. intros e He. apply list_elem_of_In, List.filter_In in He as [He _].
  by apply (proj1 (Forall_forall _ _) Hb), list_elem_of_In.
Qed.
Lemma om_find_filter (p : K * V → bool) k v m : om_wf m → om_find k (List.filter p m) = Some v → om_find k m = Some v ∧ p (k, v) = true.
Proof.
  intros Hwf. rewrite !om_find_elem by auto using om_filter_wf. intros H%list_elem_of_In. apply List.filter_In in H as [H ?].
  split; [by apply list_elem_of_In|done].
Qed.

Lemma om_insert_insert k v v' m : om_insert k v (om_insert k v' m) = om_insert k v m.
Proof.
  induction m as [|[k0 v0] m IH]; cbn.
  - by rewrite klt_irrefl, decide_True.
  - destruct (klt k k0) eqn:Hk; cbn; [by rewrite klt_irrefl, decide_True|].
    destruct (decide (k = k0)) as [->|Hne]; cbn; [by rewrite klt_irrefl, decide_True|].
    by rewrite Hk, decide_False, IH.
Qed.

(** Two maps with the same contents are the same list. *)
Lemma om_ext m1 m2 : om_wf m1 → om_wf m2 → (∀ k, om_find k m1 = om_find k m2) → m1 = m2.
Proof.
  revert m2. induction m1 as [|[k1 v1] m1 IH]; intros [|[k2 v2] m2] H1 H2 HE; [done| | |].
  - specialize (HE k2). cbn in HE. by rewrite decide_True in HE.
  - specialize (HE k1). cbn in HE. by rewrite decide_True in HE.
  - cbn in H1, H2. destruct H1 as [B1 W1], H2 as [B2 W2].
    assert (k1 = k2) as ->.
    { destruct (klt_total k1 k2) as [H|[H|H]]; [|done|].
      - specialize (HE k1). cbn in HE. rewrite decide_True in HE by done. rewrite decide_False in HE by (by apply klt_neq).
        by rewrite (om_below_find k1 m2) in HE by (by apply (om_below_trans k1 k2)).
      - specialize (HE k2). cbn in HE. rewrite (decide_True (P := k2 = k2)) in HE by done.
        rewrite decide_False in HE by (by apply klt_neq). by rewrite (om_below_find k2 m1) in HE by (by apply (om_below_trans k2 k1)). }
    pose proof (HE k2) as HV. cbn in HV. rewrite !decide_True in HV by done. injection HV as ->. f_equal.
    apply IH; [done|done|]. intros k. specialize (HE k). cbn in HE. destruct (decide (k = k2)) as [->|]; [|done].
    by rewrite !om_below_find.
Qed.
End OrdMap.
#[export] Hint Resolve om_insert_wf om_erase_wf om_emplace_wf : pulse.
