(* ===== verification/Codec.v ===== *)
(** * Codec: payload encoding primitives

    Models include/pulselog/protocol/codec.h.  The writer appends to any
    [ByteSink]; the reader is a cursor over a byte string with a sticky failure
    flag.  [reads g bs x] says that the getter [g] consumes exactly [bs] and
    yields [x], wherever [bs] stands in the input; [bounded g P] says that
    [g] never moves the cursor backwards or past the end, whatever the input is,
    and that what it yields satisfies [P]. *)
From S2P Require Import Prelude Endian Buffer.

Definition kMaxStringLength : Z := 65535.

(** ** PayloadWriter *)
Section Writer.
Context {W : Type} `{!ByteSink W}.

(** [ByteBuffer::Append]: nothing happens for an empty span. *)
Definition sink_append (bs : bytes) (w : W) : W :=
  if zlen bs =? 0 then w else sink_write (zlen bs) bs w.

Definition PutU8 (v : Z) (w : W) : W := sink_write 1 [v] w.
Definition PutU16 (v : Z) (w : W) : W := sink_write 2 (StoreLe 2 v) w.
Definition PutU32 (v : Z) (w : W) : W := sink_write 4 (StoreLe 4 v) w.
Definition PutU64 (v : Z) (w : W) : W := sink_write 8 (StoreLe 8 v) w.
Definition PutI16 (v : Z) : W → W := PutU16 (u16 v).
Definition PutI32 (v : Z) : W → W := PutU32 (u32 v).
Definition PutI64 (v : Z) : W → W := PutU64 (u64 v).
Definition PutBool (v : bool) : W → W := PutU8 (if v then 1 else 0).
End Writer.

(** The LEB128 bytes of [v]: [while (v >= 0x80) { emit (u8(v) | 0x80); v >>= 7; }].
    Ten bytes hold any 64-bit value, so the fuel is never exhausted. *)
Fixpoint varuint_loop (fuel : nat) (v : Z) : bytes :=
  match fuel with
  | O => []
  | S fuel =>
      if 0x80 <=? v then Z.lor (u8 v) 0x80 :: varuint_loop fuel (Z.shiftr v 7) else [u8 v]
  end.
Definition varuint_bytes (v : Z) : bytes := varuint_loop 10 v.

Section Writer2.
Context {W : Type} `{!ByteSink W}.
Definition PutVarUInt (v : Z) (w : W) : W := sink_write 10 (varuint_bytes v) w.
Definition PutVarInt (v : Z) : W → W := PutVarUInt (ZigZagEncode v).
Definition PutString (s : bytes) (w : W) : W := sink_append s (PutU16 (u16 (zlen s)) w).
Definition PutBytes (b : bytes) (w : W) : W := sink_append b (PutU32 (u32 (zlen b)) w).
Definition PutNullableBytes (b : option bytes) (w : W) : W :=
  match b with
  | None => PutU32 0xFFFFFFFF w
  | Some b => sink_append b (PutU32 (u32 (zlen b)) w)
  end.
Definition PutRaw (b : bytes) : W → W := sink_append b.
Definition PutArrayLen (n : Z) : W → W := PutU32 (u32 n).
End Writer2.

(** ** PayloadReader *)

Record PayloadReader := mkReader { rdata : bytes; rpos : Z; rfailed : bool }.
Definition newReader (input : bytes) : PayloadReader := mkReader input 0 false.

Definition Remaining (r : PayloadReader) : Z := zlen (rdata r) - rpos r.
Definition Complete (r : PayloadReader) : bool := negb (rfailed r) && (Remaining r =? 0).

(** A getter: [None] is the [false] return; the reader keeps its side effects. *)
Definition Getter (A : Type) : Type := PayloadReader → option A * PayloadReader.

Definition Fail {A} : Getter A := λ r, (None, mkReader (rdata r) (rpos r) true).
Definition gret {A} (a : A) : Getter A := λ r, (Some a, r).
(** [return false] in a message decoder: no flag is set. *)
Definition greject {A} : Getter A := λ r, (None, r).
Definition gbind {A B} (g : Getter A) (k : A → Getter B) : Getter B := λ r,
  match g r with
  | (Some a, r') => k a r'
  | (None, r') => (None, r')
  end.
Definition gremaining : Getter Z := λ r, (Some (Remaining r), r).
Definition gguard (b : bool) : Getter unit := if b then gret tt else greject.

Notation "'let^' x := g 'in' k" := (gbind g (λ x, k))
  (at level 10, x name, g at level 100, k at level 200).
Notation "g ;;^ k" := (gbind g (λ _, k)) (at level 100, right associativity).

(** [n] bytes at the cursor, or failure with the cursor unmoved. *)
Definition take_bytes (n : Z) : Getter bytes := λ r,
  if Remaining r <? n then Fail r
  else (Some (slice (rpos r) n (rdata r)), mkReader (rdata r) (rpos r + n) (rfailed r)).

Definition GetU8 : Getter Z := let^ b := take_bytes 1 in gret (znth b 0).
Definition GetU16 : Getter Z := let^ b := take_bytes 2 in gret (LoadLe 2 b).
Definition GetU32 : Getter Z := let^ b := take_bytes 4 in gret (LoadLe 4 b).
Definition GetU64 : Getter Z := let^ b := take_bytes 8 in gret (LoadLe 8 b).
Definition GetI16 : Getter Z := let^ raw := GetU16 in gret (i16 raw).
Definition GetI32 : Getter Z := let^ raw := GetU32 in gret (i32 raw).
Definition GetI64 : Getter Z := let^ raw := GetU64 in gret (i64 raw).
Definition GetBool : Getter bool := let^ raw := GetU8 in gret (negb (raw =? 0)).

(** [while (shift <= 63)]: at most ten bytes, whatever the input. *)
Fixpoint get_varuint_loop (fuel : nat) (value shift : Z) : Getter Z :=
  match fuel with
  | O => Fail
  | S fuel =>
      if shift <=? 63 then
        let^ byte := GetU8 in
        let value := Z.lor value (u64 (Z.shiftl (Z.land byte 0x7F) shift)) in
        if Z.land byte 0x80 =? 0 then gret value
        else get_varuint_loop fuel value (shift + 7)
      else Fail
  end.
Definition GetVarUInt : Getter Z := get_varuint_loop 11 0 0.
Definition GetVarInt : Getter Z := let^ raw := GetVarUInt in gret (ZigZagDecode raw).

Definition GetString : Getter bytes := let^ len := GetU16 in take_bytes len.
Definition GetBytesView : Getter bytes :=
  let^ len := GetU32 in
  if len =? 0xFFFFFFFF then gret [] else take_bytes len.
Definition GetArrayLen (max_elements : Z) : Getter Z :=
  let^ n := GetU32 in
  if max_elements <? n then Fail else gret n.
Definition GetRemaining : Getter bytes := λ r,
  (Some (zdrop (rpos r) (rdata r)), mkReader (rdata r) (zlen (rdata r)) (rfailed r)).
Definition Skip (n : Z) : Getter unit := let^ _b := take_bytes n in gret tt.

(** [for (i = 0; i < n; ++i) { ... push_back }] over a getter. *)
Fixpoint get_many {A} (g : Getter A) (n : nat) : Getter (list A) :=
  match n with
  | O => gret []
  | S n => let^ x := g in let^ xs := get_many g n in gret (x :: xs)
  end.

(** ** Writer lemmas: every put appends *)

(** [appends f bs]: the writer operation [f] appends [bs]. *)
Definition appends {W} `{!ByteSink W} (f : W → W) (bs : bytes) : Prop :=
  ∀ w, sink_wf w → sink_wf (f w) ∧ sink_bytes (f w) = sink_bytes w ++ bs.

Create HintDb codec.

Section WriterLemmas.
Context {W : Type} `{!ByteSink W}.

Lemma appends_write n bs : zlen bs ≤ n → appends (sink_write (W:=W) n bs) bs.
Proof. intros Hn w Hw. split; [by apply sink_write_wf | by apply sink_write_bytes]. Qed.

Lemma appends_id : appends (λ w : W, w) [].
Proof. intros w Hw. by rewrite app_nil_r. Qed.

Lemma appends_append bs : appends (sink_append (W:=W) bs) bs.
Proof.
  unfold sink_append. destruct (Z.eqb_spec (zlen bs) 0) as [H0|].
  - apply zlen_0_nil in H0 as ->. apply appends_id.
  - by apply appends_write.
Qed.

Lemma appends_seq (f g : W → W) bs cs :
  appends f bs → appends g cs → appends (λ w, g (f w)) (bs ++ cs).
Proof.
  intros Hf Hg w Hw. destruct (Hf w Hw) as [Hw1 E1]. destruct (Hg _ Hw1) as [Hw2 E2].
  split; [done|]. by rewrite E2, E1, app_assoc.
Qed.

Lemma appends_U8 v : appends (PutU8 (W:=W) v) [v].
Proof. by apply appends_write. Qed.
Lemma appends_U16 v : appends (PutU16 (W:=W) v) (StoreLe 2 v).
Proof. by apply appends_write. Qed.
Lemma appends_U32 v : appends (PutU32 (W:=W) v) (StoreLe 4 v).
Proof. by apply appends_write. Qed.
Lemma appends_U64 v : appends (PutU64 (W:=W) v) (StoreLe 8 v).
Proof. by apply appends_write. Qed.
Lemma appends_string s : appends (PutString (W:=W) s) (StoreLe 2 (u16 (zlen s)) ++ s).
Proof. apply (appends_seq (PutU16 _) (sink_append s)); [apply appends_U16 | apply appends_append]. Qed.
Lemma appends_bytes s : appends (PutBytes (W:=W) s) (StoreLe 4 (u32 (zlen s)) ++ s).
Proof. apply (appends_seq (PutU32 _) (sink_append s)); [apply appends_U32 | apply appends_append]. Qed.
End WriterLemmas.

(** [for (const auto& x : xs) put(x)] *)
Definition put_all {W A} (put : A → W → W) (xs : list A) (w : W) : W :=
  fold_left (λ w x, put x w) xs w.

Lemma appends_all {W A} `{!ByteSink W} (put : A → W → W) (enc : A → bytes) (xs : list A) :
  (∀ x, appends (put x) (enc x)) → appends (put_all put xs) (concat (map enc xs)).
Proof.
  intros Hp. induction xs as [|x xs IH]; [apply appends_id|].
  exact (appends_seq (put x) (put_all put xs) _ _ (Hp x) IH).
Qed.

(** ** Reader lemmas *)

Definition reader_wf (r : PayloadReader) : Prop :=
  0 ≤ rpos r ≤ zlen (rdata r) ∧ Forall is_byte (rdata r).

Definition reads {A} (g : Getter A) (bs : bytes) (x : A) : Prop := ∀ d pos f rest,
  0 ≤ pos ≤ zlen d → zdrop pos d = bs ++ rest →
  g (mkReader d pos f) = (Some x, mkReader d (pos + zlen bs) f).

Definition bounded {A} (g : Getter A) (P : A → Prop) : Prop := ∀ r, reader_wf r →
  rdata (g r).2 = rdata r ∧ rpos r ≤ rpos (g r).2 ≤ zlen (rdata r) ∧
  ∀ x, (g r).1 = Some x → P x.
Abbreviation any := (λ _, True) (only parsing).

Lemma reads_ret {A} (x : A) : reads (gret x) [] x.
Proof. intros d pos f rest _ _. unfold gret. rewrite zlen_nil, Z.add_0_r. done. Qed.

Lemma zdrop_prefix d pos (bs rest : bytes) :
  0 ≤ pos ≤ zlen d → zdrop pos d = bs ++ rest →
  pos + zlen bs ≤ zlen d ∧ zdrop (pos + zlen bs) d = rest.
Proof.
  intros Hpos H. split.
  - apply (f_equal zlen) in H. rewrite zlen_zdrop, zlen_app in H. zlist.
  - rewrite <- zdrop_zdrop by zlist. rewrite H. by apply zdrop_app.
Qed.

Lemma reads_bind {A B} (g : Getter A) (k : A → Getter B) bs cs x y :
  reads g bs x → reads (k x) cs y → reads (gbind g k) (bs ++ cs) y.
Proof.
  intros Hg Hk d pos f rest Hpos Hd. unfold gbind.
  rewrite <- app_assoc in Hd. rewrite (Hg d pos f (cs ++ rest)) by done.
  destruct (zdrop_prefix d pos bs (cs ++ rest) Hpos Hd) as [Hle Hd'].
  rewrite (Hk d (pos + zlen bs) f rest) by (try done; zlist).
  rewrite zlen_app, Z.add_assoc. done.
Qed.

(** A bind whose first half consumes nothing. *)
Lemma reads_bind_nil {A B} (g : Getter A) (k : A → Getter B) cs x y :
  reads g [] x → reads (k x) cs y → reads (gbind g k) cs y.
Proof. apply (reads_bind g k [] cs). Qed.

Lemma reads_guard (b : bool) : b = true → reads (gguard b) [] tt.
Proof. intros ->. apply reads_ret. Qed.

Lemma reads_take bs n : n = zlen bs → reads (take_bytes n) bs bs.
Proof.
  intros -> d pos f rest Hpos Hd.
  destruct (zdrop_prefix d pos bs rest Hpos Hd) as [Hle _].
  unfold take_bytes, Remaining; simpl. destruct (Z.ltb_spec (zlen d - pos) (zlen bs)); [lia|].
  unfold slice. rewrite Hd, ztake_app by done. done.
Qed.

Lemma reads_take_ret {A} bs n (h : bytes → A) x :
  n = zlen bs → h bs = x → reads (let^ b := take_bytes n in gret (h b)) bs x.
Proof.
  intros Hn <-. rewrite <- (app_nil_r bs) at 1.
  eapply reads_bind; [by apply reads_take | apply reads_ret].
Qed.

Lemma reads_bind_ret {A B} (g : Getter A) (h : A → B) bs x y :
  reads g bs x → h x = y → reads (let^ a := g in gret (h a)) bs y.
Proof.
  intros Hg <-. rewrite <- (app_nil_r bs). eapply reads_bind; [done | apply reads_ret].
Qed.

Lemma reads_U8 v : reads GetU8 [v] v.
Proof. by apply (reads_take_ret [v] 1). Qed.
Lemma reads_U16 v : unsigned 16 v → reads GetU16 (StoreLe 2 v) v.
Proof.
  intros Hv. apply (reads_take_ret _ 2); [done|].
  rewrite <- (app_nil_r (StoreLe 2 v)). by apply LoadLe_StoreLe.
Qed.
Lemma reads_U32 v : unsigned 32 v → reads GetU32 (StoreLe 4 v) v.
Proof.
  intros Hv. apply (reads_take_ret _ 4); [done|].
  rewrite <- (app_nil_r (StoreLe 4 v)). by apply LoadLe_StoreLe.
Qed.
Lemma reads_U64 v : unsigned 64 v → reads GetU64 (StoreLe 8 v) v.
Proof.
  intros Hv. apply (reads_take_ret _ 8); [done|].
  rewrite <- (app_nil_r (StoreLe 8 v)). by apply LoadLe_StoreLe.
Qed.
Lemma reads_I16 v : signed 16 v → reads GetI16 (StoreLe 2 (u16 v)) v.
Proof.
  intros Hv. eapply reads_bind_ret; [apply reads_U16, uwrap_range; lia|].
  by apply (swrap_uwrap 16).
Qed.
Lemma reads_I32 v : signed 32 v → reads GetI32 (StoreLe 4 (u32 v)) v.
Proof.
  intros Hv. eapply reads_bind_ret; [apply reads_U32, uwrap_range; lia|].
  by apply (swrap_uwrap 32).
Qed.
Lemma reads_I64 v : signed 64 v → reads GetI64 (StoreLe 8 (u64 v)) v.
Proof.
  intros Hv. eapply reads_bind_ret; [apply reads_U64, uwrap_range; lia|].
  by apply (swrap_uwrap 64).
Qed.
Lemma reads_bool (b : bool) : reads GetBool [if b then 1 else 0] b.
Proof. eapply reads_bind_ret; [apply reads_U8|]. by destruct b. Qed.

(** Strings survive as long as their length fits the u16 prefix. *)
Definition string_fits (s : bytes) : Prop := zlen s ≤ kMaxStringLength.

Lemma reads_string s : string_fits s → reads GetString (StoreLe 2 (u16 (zlen s)) ++ s) s.
Proof.
  unfold string_fits, kMaxStringLength. intros Hs.
  assert (unsigned 16 (zlen s)) by (unfold unsigned; zlist).
  eapply reads_bind; [apply reads_U16, uwrap_range; lia|].
  apply reads_take. by apply uwrap_small.
Qed.

Lemma reads_many {A} (g : Getter A) (enc : A → bytes) (xs : list A) :
  (∀ x, x ∈ xs → reads g (enc x) x) →
  reads (get_many g (length xs)) (concat (map enc xs)) xs.
Proof.
  induction xs as [|x xs IH]; intros Hg; [apply reads_ret|].
  cbn [length get_many map concat]. eapply reads_bind; [apply Hg; left|].
  eapply reads_bind_ret; [|done]. apply IH. intros y Hy. apply Hg. by right.
Qed.

(** ** Variable-length integers *)

Lemma lor_low_high b v k : 0 ≤ k → 0 ≤ b < 2 ^ k → Z.lor b (v * 2 ^ k) = b + v * 2 ^ k.
Proof.
  intros Hk Hb. pose proof (Z.add_lor_land b (v * 2 ^ k)) as E.
  enough (Z.land b (v * 2 ^ k) = 0) by lia.
  apply Z.bits_inj'. intros i Hi. rewrite Z.land_spec, Z.bits_0.
  destruct (Z.lt_ge_cases i k).
  - rewrite Z.mul_pow2_bits_low by lia. apply andb_false_r.
  - rewrite <- (Z.mod_small b (2 ^ k)) by done. by rewrite Z.mod_pow2_bits_high by lia.
Qed.

Lemma varuint_byte v :
  0 ≤ v → let b := Z.lor (u8 v) 0x80 in Z.land b 0x7F = v mod 128 ∧ Z.land b 0x80 ≠ 0.
Proof.
  intros Hv b. change 0x7F with (Z.ones 7). rewrite Z.land_ones by lia. split.
  - unfold b. rewrite <- (Z.land_ones _ 7), Z.land_lor_distr_l by lia.
    change (Z.land 0x80 (Z.ones 7)) with 0. rewrite Z.lor_0_r, Z.land_ones by lia.
    unfold uwrap. change (2 ^ 7) with 128. change (2 ^ 8) with (128 * 2).
    rewrite Z.rem_mul_r by lia. rewrite Z.mul_comm, Z_mod_plus_full, Z.mod_mod; lia.
  - unfold b. intros H. apply (f_equal (λ z, Z.testbit z 7)) in H.
    rewrite Z.land_spec, Z.lor_spec in H. change (Z.testbit 0x80 7) with true in H.
    by rewrite orb_true_r in H.
Qed.

Lemma varuint_last_byte v : 0 ≤ v < 128 → Z.land (u8 v) 0x7F = v ∧ Z.land (u8 v) 0x80 = 0.
Proof.
  intros Hv. rewrite uwrap_small by (unfold unsigned; lia). split.
  - change 0x7F with (Z.ones 7). rewrite Z.land_ones, Z.mod_small; lia.
  - apply Z.bits_inj'. intros i Hi. rewrite Z.land_spec, Z.bits_0.
    change 0x80 with (2 ^ 7). rewrite Z.pow2_bits_eqb by lia.
    destruct (Z.eqb_spec 7 i) as [<-|]; [|apply andb_false_r].
    rewrite <- (Z.mod_small v (2 ^ 7)) by lia. by rewrite Z.mod_pow2_bits_high by lia.
Qed.

(** One loop of the writer against one loop of the reader: [value] holds the low
    [shift] bits already read, [v] the bits still to come. *)
Lemma reads_varuint_loop n m value shift v :
  0 ≤ shift → 0 ≤ value < 2 ^ shift → 0 ≤ v → shift + Z.log2 v ≤ 63 →
  v < 2 ^ (7 * Z.of_nat n) → (n ≤ m)%nat → (0 < n)%nat →
  reads (get_varuint_loop m value shift) (varuint_loop n v) (value + v * 2 ^ shift).
Proof.
  revert m value shift v. induction n as [|n IH]; intros m value shift v Hs Hval Hv Hlog Hn Hm H0;
    [lia|].
  destruct m as [|m]; [lia|]. cbn [get_varuint_loop varuint_loop].
  pose proof (Z.log2_nonneg v).
  destruct (Z.leb_spec shift 63); [|lia].
  assert (H64 : v * 2 ^ shift < 2 ^ 64).
  { destruct (Z.eq_dec v 0) as [->|]; [lia|].
    pose proof (Z.log2_spec v ltac:(lia)) as [_ Hl].
    apply Z.lt_le_trans with (2 ^ Z.succ (Z.log2 v) * 2 ^ shift).
    - apply Z.mul_lt_mono_pos_r; [|done]. apply Z.pow_pos_nonneg; lia.
    - rewrite <- Z.pow_add_r by lia. apply Z.pow_le_mono_r; lia. }
  assert (Hp : 0 < 2 ^ shift) by (apply Z.pow_pos_nonneg; lia).
  destruct (Z.leb_spec 0x80 v) as [Hge|Hlt].
  - destruct (varuint_byte v Hv) as [H7 H8].
    eapply (reads_bind _ _ [_]); [apply reads_U8|]. cbv zeta.
    rewrite H7. destruct (Z.eqb_spec (Z.land (Z.lor (u8 v) 128) 128) 0); [done|].
    assert (Hlow : 0 ≤ v mod 128 < 128) by (apply Z.mod_pos_bound; lia).
    assert (Hdiv : v = 128 * (v / 128) + v mod 128) by (apply Z.div_mod; lia).
    rewrite Z.shiftl_mul_pow2, uwrap_small, lor_low_high by (unfold unsigned; nia).
    rewrite Z.shiftr_div_pow2 by lia. change (2 ^ 7) with 128.
    replace (value + v * 2 ^ shift)
      with ((value + v mod 128 * 2 ^ shift) + (v / 128) * 2 ^ (shift + 7)).
    2:{ rewrite Z.pow_add_r by lia. change (2 ^ 7) with 128.
        rewrite Hdiv at 3. ring. }
    assert (Hn1 : (1 ≤ n)%nat).
    { destruct n; [|lia]. change (2 ^ (7 * Z.of_nat 1)) with 128 in Hn. lia. }
    apply IH; try lia.
    + rewrite Z.pow_add_r by lia. change (2 ^ 7) with 128. nia.
    + assert (Z.log2 (v / 128) = Z.log2 v - 7) as ->; [|lia].
      change 128 with (2 ^ 7). rewrite <- Z.shiftr_div_pow2 by lia.
      rewrite Z.log2_shiftr by lia. pose proof (Z.log2_le_mono 128 v Hge) as Hl.
      change (Z.log2 128) with 7 in Hl. lia.
    + apply Z.div_lt_upper_bound; [lia|]. rewrite Nat2Z.inj_succ in Hn.
      replace (7 * Z.succ (Z.of_nat n)) with (7 + 7 * Z.of_nat n) in Hn by lia.
      rewrite Z.pow_add_r in Hn by lia. lia.
  - destruct (varuint_last_byte v ltac:(lia)) as [H7 H8].
    rewrite <- (app_nil_r [u8 v]). eapply reads_bind; [apply reads_U8|]. cbv zeta.
    rewrite H7, H8. simpl (0 =? 0). cbv iota.
    rewrite Z.shiftl_mul_pow2, uwrap_small, lor_low_high by (unfold unsigned; nia).
    apply reads_ret.
Qed.

Lemma reads_VarUInt v : unsigned 64 v → reads GetVarUInt (varuint_bytes v) v.
Proof.
  unfold unsigned. intros Hv. unfold GetVarUInt, varuint_bytes.
  pose proof (reads_varuint_loop 10 11 0 0 v) as H. rewrite Z.pow_0_r, Z.mul_1_r in H.
  apply H; try lia.
  destruct (Z.eq_dec v 0) as [->|]; [done|].
  assert (Z.log2 v < 64) by (apply Z.log2_lt_pow2; lia). lia.
Qed.

Lemma reads_VarInt v : signed 64 v → reads GetVarInt (varuint_bytes (ZigZagEncode v)) v.
Proof.
  intros Hv. eapply reads_bind_ret; [apply reads_VarUInt; by apply ZigZagEncode_range|].
  by apply ZigZag_roundtrip.
Qed.

Lemma varuint_loop_length n v : zlen (varuint_loop n v) ≤ Z.of_nat n.
Proof.
  revert v. induction n as [|n IH]; intros v; cbn [varuint_loop]; [done|].
  destruct (0x80 <=? v); rewrite zlen_cons; [specialize (IH (Z.shiftr v 7)); lia|].
  rewrite zlen_nil. lia.
Qed.

Section WriterVarUInt.
Context {W : Type} `{!ByteSink W}.
Lemma appends_VarUInt v : appends (PutVarUInt (W:=W) v) (varuint_bytes v).
Proof. apply appends_write. apply (varuint_loop_length 10). Qed.
End WriterVarUInt.

(** ** No getter leaves the payload *)

Lemma bounded_ret {A} (x : A) (P : A → Prop) : P x → bounded (gret x) P.
Proof. intros Hx r [Hr _]. simpl. split_and!; [done|lia|lia|]. by intros y [= <-]. Qed.

Lemma bounded_none {A} f (P : A → Prop) :
  bounded (λ r, (None, mkReader (rdata r) (rpos r) (f r))) P.
Proof. intros r [Hr _]. simpl. split_and!; [done|lia|lia|done]. Qed.

Lemma bounded_Fail {A} (P : A → Prop) : bounded Fail P.
Proof. apply (bounded_none (λ _, true)). Qed.

Lemma bounded_reject {A} (P : A → Prop) : bounded greject P.
Proof. intros r [Hr _]. simpl. split_and!; [done|lia|lia|done]. Qed.

Lemma bounded_remaining : bounded gremaining (λ n, 0 ≤ n).
Proof.
  intros r [Hr _]. simpl. split_and!; [done|lia|lia|]. intros x [= <-].
  unfold Remaining. lia.
Qed.

Lemma bounded_guard b : bounded (gguard b) (λ _, b = true).
Proof. destruct b; [by apply bounded_ret | apply bounded_reject]. Qed.

Lemma bounded_bind {A B} (g : Getter A) (k : A → Getter B) (P : A → Prop) (Q : B → Prop) :
  bounded g P → (∀ x, P x → bounded (k x) Q) → bounded (gbind g k) Q.
Proof.
  intros Hg Hk r Hr. unfold gbind. specialize (Hg r Hr).
  destruct (g r) as [[x|] r'] eqn:E; simpl in *.
  - destruct Hg as (Hd & Hp & HP).
    assert (Hw : reader_wf r') by (unfold reader_wf in *; rewrite Hd; intuition lia).
    destruct (Hk x (HP x eq_refl) r' Hw) as (Hd' & Hp' & HQ). rewrite Hd in Hp'.
    split_and!; [congruence|lia|lia|done].
  - destruct Hg as (Hd & Hp & HP). split_and!; [done|lia|lia|done].
Qed.

Lemma bounded_weaken {A} (g : Getter A) (P Q : A → Prop) :
  bounded g P → (∀ x, P x → Q x) → bounded g Q.
Proof. intros Hg HPQ r Hr. destruct (Hg r Hr) as (?&?&?). split_and!; naive_solver lia. Qed.

Lemma bounded_take n :
  0 ≤ n → bounded (take_bytes n) (λ b, zlen b = n ∧ Forall is_byte b).
Proof.
  intros Hn r [Hr Hb]. unfold take_bytes, Remaining.
  destruct (Z.ltb_spec (zlen (rdata r) - rpos r) n); [by apply bounded_Fail|].
  simpl. split_and!; [done|lia|lia|]. intros x [= <-]. split.
  - apply zlen_slice; lia.
  - unfold slice, ztake, zdrop. by apply Forall_take, Forall_drop.
Qed.

Lemma bounded_load w (n : nat) :
  w = Z.of_nat n →
  bounded (let^ b := take_bytes w in gret (LoadLe n b)) (unsigned (8 * w)).
Proof.
  intros ->. eapply bounded_bind; [apply bounded_take; lia|].
  intros b [Hl Hb]. apply bounded_ret. unfold LoadLe, LoadLe_on, memcpy_in.
  rewrite take_ge by (unfold zlen in Hl; lia). rewrite <- Hl. by apply le_value_range.
Qed.

Lemma bounded_GetU8 : bounded GetU8 is_byte.
Proof.
  eapply bounded_bind; [by apply (bounded_take 1)|]. intros b [Hl Hb]. apply bounded_ret.
  destruct Hb as [|x b Hx _]; [by rewrite zlen_nil in Hl|done].
Qed.
Lemma bounded_GetU16 : bounded GetU16 (unsigned 16).
Proof. by apply (bounded_load 2 2). Qed.
Lemma bounded_GetU32 : bounded GetU32 (unsigned 32).
Proof. by apply (bounded_load 4 4). Qed.
Lemma bounded_GetU64 : bounded GetU64 (unsigned 64).
Proof. by apply (bounded_load 8 8). Qed.
Lemma bounded_GetI16 : bounded GetI16 (signed 16).
Proof. eapply bounded_bind; [apply bounded_GetU16|]. intros; by apply bounded_ret, swrap_range. Qed.
Lemma bounded_GetI32 : bounded GetI32 (signed 32).
Proof. eapply bounded_bind; [apply bounded_GetU32|]. intros; by apply bounded_ret, swrap_range. Qed.
Lemma bounded_GetI64 : bounded GetI64 (signed 64).
Proof. eapply bounded_bind; [apply bounded_GetU64|]. intros; by apply bounded_ret, swrap_range. Qed.
Lemma bounded_GetBool : bounded GetBool any.
Proof. eapply bounded_bind; [apply bounded_GetU8|]. intros; by apply bounded_ret. Qed.
Lemma bounded_GetString : bounded GetString string_fits.
Proof.
  eapply bounded_bind; [apply bounded_GetU16|]. intros n [Hn Hn'].
  eapply bounded_weaken; [by apply bounded_take|].
  unfold string_fits, kMaxStringLength. intros x [Hx _]. lia.
Qed.
Lemma bounded_GetBytesView : bounded GetBytesView any.
Proof.
  eapply bounded_bind; [apply bounded_GetU32|]. intros n [Hn _].
  destruct (n =? 0xFFFFFFFF); [by apply bounded_ret|].
  eapply bounded_weaken; [by apply bounded_take|done].
Qed.
Lemma bounded_GetArrayLen m : bounded (GetArrayLen m) (λ n, 0 ≤ n ≤ m).
Proof.
  eapply bounded_bind; [apply bounded_GetU32|]. intros n [Hn _].
  destruct (Z.ltb_spec m n); [apply bounded_Fail|]. apply bounded_ret. lia.
Qed.
Lemma bounded_GetRemaining : bounded GetRemaining any.
Proof. intros r [Hr _]. simpl. split_and!; [done|lia|lia|done]. Qed.

Lemma bounded_varuint_loop n value shift : bounded (get_varuint_loop n value shift) any.
Proof.
  revert value shift. induction n as [|n IH]; intros; cbn [get_varuint_loop]; [apply bounded_Fail|].
  destruct (shift <=? 63); [|apply bounded_Fail].
  eapply bounded_bind; [apply bounded_GetU8|].
  intros b _. destruct (Z.land b 128 =? 0); [by apply bounded_ret | apply IH].
Qed.

Lemma bounded_many {A} (g : Getter A) n (P : A → Prop) :
  bounded g P → bounded (get_many g n) (λ xs, Forall P xs ∧ length xs = n).
Proof.
  intros Hg. induction n as [|n IH]; [by apply bounded_ret|].
  eapply bounded_bind; [exact Hg|]. intros x Hx.
  eapply bounded_bind; [exact IH|]. intros xs [Hxs <-]. apply bounded_ret.
  split; [by constructor|done].
Qed.

(** [codec_bounded] walks a decoder down its binds. *)
#[export] Hint Resolve bounded_GetU8 bounded_GetU16 bounded_GetU32 bounded_GetU64 bounded_GetI16
  bounded_GetI32 bounded_GetI64 bounded_GetBool bounded_GetString bounded_GetBytesView
  bounded_GetArrayLen bounded_GetRemaining bounded_guard bounded_reject bounded_Fail
  bounded_remaining : codec.
Ltac codec_bounded :=
  repeat match goal with
  | |- bounded (gbind _ _) _ => eapply bounded_bind; [solve [eauto with codec] | intros]
  | |- bounded (if ?b then _ else _) _ => destruct b
  | |- bounded (gret _) _ => apply bounded_ret; try done
  | |- bounded _ (λ _, True) => solve [eapply bounded_weaken; [eauto with codec | done]]
  | |- bounded _ _ => solve [eauto with codec]
  end.

(** [codec_appends] walks an encoder, [codec_reads] the matching decoder. *)
#[export] Hint Resolve appends_U8 appends_U16 appends_U32 appends_U64 appends_string
  appends_bytes appends_append appends_VarUInt : codec.
#[export] Hint Resolve reads_U8 reads_U16 reads_U32 reads_U64 reads_I16 reads_I32 reads_I64
  reads_bool reads_string reads_guard reads_ret : codec.

Lemma reads_from {A} (g : Getter A) bs x rest :
  reads g bs x → g (newReader (bs ++ rest)) = (Some x, mkReader (bs ++ rest) (zlen bs) false).
Proof.
  intros Hg. unfold newReader. rewrite (Hg _ _ _ rest); [done | zlist | by apply zdrop_0].
Qed.
