(* ===== verification/MessageCodec.v ===== *)
(** * MessageCodec: encoders and decoders in step

    The combinators the message files (messages_data.cc, messages_control.cc,
    messages_group.cc) are written and verified with.  An encoder is a sequence
    of puts; a decoder is a sequence of getters in the same order.  [codec f g x k]
    says that they agree: [f] appends some bytes, at least [k] of them, from which
    [g] reads [x] back.  [MessageCodec] is the interface a message offers to the
    transport; every message of messages.h implements it. *)
From S2P Require Import Prelude Endian Buffer Codec.

(** [w.PutA(..); w.PutB(..);] *)
Definition wseq {W : Type} (f g : W → W) : W → W := λ w, g (f w).
Notation "f ;;> g" := (wseq f g) (at level 100, right associativity).
Definition wskip {W : Type} : W → W := λ w, w.

Definition kMaxArrayElements : Z := Z.shiftl 1 20.

(** [ElementBudget(r, min)]: how many elements the unread bytes can hold, the
    count prefix included since it is still unread when the budget is taken. *)
Definition ElementBudget (min_element_bytes : Z) (r : PayloadReader) : Z :=
  let budget := Remaining r / (if min_element_bytes =? 0 then 1 else min_element_bytes) in
  u32 (if budget <? kMaxArrayElements then budget else kMaxArrayElements).

(** [GetArrayLen(count, ElementBudget(r, min))], then [count] elements. *)
Definition get_array {A} (min_element_bytes : Z) (g : Getter A) : Getter (list A) := λ r,
  (let^ count := GetArrayLen (ElementBudget min_element_bytes r) in
   get_many g (Z.to_nat count)) r.

(** [w.PutArrayLen(xs.size()); for (const auto& x : xs) put(x);] *)
Definition put_array {W A} `{!ByteSink W} (put : A → W → W) (xs : list A) : W → W :=
  PutArrayLen (zlen xs) ;;> put_all put xs.

(** [r.GetRemaining().subspan(0, len)] *)
Definition get_tail (len : Z) : Getter bytes := let^ all := GetRemaining in gret (ztake len all).

(** [if (r.Remaining() < len) return false;] *)
Definition check_remaining (len : Z) : Getter unit :=
  let^ remaining := gremaining in gguard (negb (remaining <? len)).

(** ** Agreement of an encoder and a decoder *)

(** As [reads], for a getter that takes whatever is left of the payload. *)
Definition reads_end {A} (g : Getter A) (bs : bytes) (x : A) : Prop := ∀ d pos f,
  0 ≤ pos ≤ zlen d → zdrop pos d = bs →
  g (mkReader d pos f) = (Some x, mkReader d (pos + zlen bs) f).

Lemma reads_reads_end {A} (g : Getter A) bs x : reads g bs x → reads_end g bs x.
Proof. intros Hg d pos f Hp Hd. apply (Hg d pos f []); [done|]. by rewrite app_nil_r. Qed.

Lemma reads_end_bind {A B} (g : Getter A) (h : A → Getter B) bs cs x y :
  reads g bs x → reads_end (h x) cs y → reads_end (gbind g h) (bs ++ cs) y.
Proof.
  intros Hg Hh d pos f Hpos Hd. unfold gbind. rewrite (Hg d pos f cs) by done.
  destruct (zdrop_prefix d pos bs cs Hpos Hd) as [Hle Hd'].
  rewrite (Hh d (pos + zlen bs) f) by (try done; zlist).
  by rewrite zlen_app, Z.add_assoc.
Qed.

Lemma reads_end_bind_nil {A B} (g : Getter A) (h : A → Getter B) cs x y :
  reads g [] x → reads_end (h x) cs y → reads_end (gbind g h) cs y.
Proof. apply (reads_end_bind g h []). Qed.

Lemma reads_end_check {B} (len : Z) (h : unit → Getter B) bs y :
  len ≤ zlen bs → reads_end (h tt) bs y → reads_end (gbind (check_remaining len) h) bs y.
Proof.
  intros Hlen Hh d pos f Hpos Hd.
  assert (Hr : zlen d - pos = zlen bs) by (rewrite <- Hd, zlen_zdrop; lia).
  unfold check_remaining, gbind, gremaining, Remaining, gguard; simpl.
  destruct (Z.ltb_spec (zlen d - pos) len); [lia|]. by apply Hh.
Qed.

Lemma reads_end_tail len bs : len = zlen bs → reads_end (get_tail len) bs bs.
Proof.
  intros -> d pos f Hpos Hd. unfold get_tail, gbind, GetRemaining, gret; simpl.
  assert (Hl : pos + zlen bs = zlen d) by (rewrite <- Hd, zlen_zdrop; lia).
  by rewrite Hl, Hd, ztake_all.
Qed.

Section Agreement.
Context {W : Type} `{!ByteSink W}.

Definition codec {A} (f : W → W) (g : Getter A) (x : A) (k : Z) : Prop :=
  ∃ bs, appends f bs ∧ reads g bs x ∧ k ≤ zlen bs.
Definition codec_end {A} (f : W → W) (g : Getter A) (x : A) : Prop :=
  ∃ bs, appends f bs ∧ reads_end g bs x.

Lemma codec_weaken {A} f (g : Getter A) x k k' : k' ≤ k → codec f g x k → codec f g x k'.
Proof. intros ? (bs & ? & ? & ?). exists bs. split_and!; [done..|lia]. Qed.

Lemma codec_codec_end {A} f (g : Getter A) x k : codec f g x k → codec_end f g x.
Proof. intros (bs & ? & ? & ?). exists bs. split; [done|]. by apply reads_reads_end. Qed.

Lemma codec_seq {A B} f f' (g : Getter A) (h : A → Getter B) x y k k' :
  codec f g x k → codec f' (h x) y k' → codec (f ;;> f') (gbind g h) y (k + k').
Proof.
  intros (bs & Hf & Hg & ?) (cs & Hf' & Hg' & ?). exists (bs ++ cs). split_and!.
  - by apply (appends_seq f f').
  - by eapply reads_bind.
  - zlist.
Qed.

Lemma codec_end_seq {A B} f f' (g : Getter A) (h : A → Getter B) x y k :
  codec f g x k → codec_end f' (h x) y → codec_end (f ;;> f') (gbind g h) y.
Proof.
  intros (bs & Hf & Hg & ?) (cs & Hf' & Hg'). exists (bs ++ cs). split.
  - by apply (appends_seq f f').
  - by eapply reads_end_bind.
Qed.

(** A check between two reads. *)
Lemma codec_guard {B} f b (h : unit → Getter B) y k :
  b = true → codec f (h tt) y k → codec f (gbind (gguard b) h) y k.
Proof.
  intros Hb (bs & Hf & Hg & ?). exists bs. split_and!; [done| |done].
  eapply reads_bind_nil; [by apply reads_guard|done].
Qed.
Lemma codec_end_guard {B} f b (h : unit → Getter B) y :
  b = true → codec_end f (h tt) y → codec_end f (gbind (gguard b) h) y.
Proof.
  intros Hb (bs & Hf & Hg). exists bs. split; [done|].
  eapply reads_end_bind_nil; [by apply reads_guard|done].
Qed.

Lemma codec_skip {A} (x : A) : codec wskip (gret x) x 0.
Proof. exists []. split_and!; [apply appends_id | apply reads_ret | done]. Qed.

(** The last put of an encoder: what remains of the decoder consumes nothing. *)
Lemma codec_last {A B} f (g : Getter A) (h : A → Getter B) x y k :
  codec f g x k → reads (h x) [] y → codec f (gbind g h) y k.
Proof.
  intros (bs & Hf & Hg & ?) Hh. exists bs. split_and!; [done| |done].
  rewrite <- (app_nil_r bs). by eapply reads_bind.
Qed.

Lemma codec_primitive {A} f (g : Getter A) bs x k :
  appends f bs → reads g bs x → zlen bs = k → codec f g x k.
Proof. intros. exists bs. split_and!; [done|done|lia]. Qed.

Lemma codec_U8 v : codec (PutU8 v) GetU8 v 1.
Proof. by eapply codec_primitive; [apply appends_U8 | apply reads_U8|]. Qed.
Lemma codec_U16 v : unsigned 16 v → codec (PutU16 v) GetU16 v 2.
Proof. intros. by eapply codec_primitive; [apply appends_U16 | apply reads_U16|]. Qed.
Lemma codec_U32 v : unsigned 32 v → codec (PutU32 v) GetU32 v 4.
Proof. intros. by eapply codec_primitive; [apply appends_U32 | apply reads_U32|]. Qed.
Lemma codec_I16 v : signed 16 v → codec (PutI16 v) GetI16 v 2.
Proof. intros. by eapply codec_primitive; [apply appends_U16 | apply reads_I16|]. Qed.
Lemma codec_I32 v : signed 32 v → codec (PutI32 v) GetI32 v 4.
Proof. intros. by eapply codec_primitive; [apply appends_U32 | apply reads_I32|]. Qed.
Lemma codec_I64 v : signed 64 v → codec (PutI64 v) GetI64 v 8.
Proof. intros. by eapply codec_primitive; [apply appends_U64 | apply reads_I64|]. Qed.
Lemma codec_Bool v : codec (PutBool v) GetBool v 1.
Proof. by eapply codec_primitive; [apply appends_U8 | apply reads_bool|]. Qed.
Lemma codec_String s : string_fits s → codec (PutString s) GetString s 2.
Proof.
  intros Hs. eexists. split_and!; [apply appends_string | by apply reads_string|].
  rewrite zlen_app. change (zlen (StoreLe 2 (u16 (zlen s)))) with 2. zlist.
Qed.

(** The raw tail of a message carrying records. *)
Lemma codec_end_raw {A} (g : Getter A) bs x : reads_end g bs x → codec_end (PutRaw bs) g x.
Proof. intros Hg. exists bs. split; [apply appends_append|done]. Qed.

Lemma codec_all {A} (put : A → W → W) (g : Getter A) k (xs : list A) :
  0 ≤ k → (∀ x, x ∈ xs → codec (put x) g x k) →
  codec (put_all put xs) (get_many g (length xs)) xs (k * zlen xs).
Proof.
  intros Hk. induction xs as [|x xs IH]; intros Hx.
  - eapply codec_weaken; [|apply codec_skip]. zlist.
  - destruct (IH (λ y Hy, Hx y (list_elem_of_further _ _ _ Hy))) as (cs & Hcs & Hr & Hl).
    destruct (Hx x (list_elem_of_here _ _)) as (bs & Hbs & Hr' & Hl').
    exists (bs ++ cs). split_and!.
    + exact (appends_seq (put x) (put_all put xs) _ _ Hbs Hcs).
    + eapply reads_bind; [done|]. by eapply reads_bind_ret.
    + rewrite zlen_cons. zlist.
Qed.

(** The element budget never refuses an array the encoder wrote: every element
    occupies at least the [min] bytes the decoder assumes. *)
Lemma codec_array {A} (put : A → W → W) (g : Getter A) k (xs : list A) :
  0 < k → zlen xs ≤ kMaxArrayElements → (∀ x, x ∈ xs → codec (put x) g x k) →
  codec (put_array put xs) (get_array k g) xs 4.
Proof.
  intros Hk Hmax Hx. change kMaxArrayElements with 1048576 in Hmax.
  assert (Hn : unsigned 32 (zlen xs)) by (unfold unsigned; zlist).
  destruct (codec_all put g k xs ltac:(lia) Hx) as (bs & Ha & Hr & Hl).
  exists (StoreLe 4 (u32 (zlen xs)) ++ bs). split_and!.
  - apply (appends_seq (PutArrayLen (zlen xs)) (put_all put xs)); [apply appends_U32|done].
  - intros d pos f rest Hpos Hd. unfold get_array.
    set (r := mkReader d pos f). set (budget := ElementBudget k r).
    assert (Hb : zlen xs ≤ budget).
    { unfold budget, ElementBudget, Remaining; simpl.
      destruct (Z.eqb_spec k 0); [lia|].
      assert (Hq : zlen xs ≤ (zlen d - pos) / k).
      { apply Z.div_le_lower_bound; [lia|]. apply (f_equal zlen) in Hd.
        rewrite zlen_zdrop, !zlen_app in Hd. zlist. }
      change kMaxArrayElements with 1048576.
      destruct (Z.ltb_spec ((zlen d - pos) / k) 1048576); rewrite uwrap_small;
        unfold unsigned; zlist. }
    rewrite uwrap_small in Hd |- * by done.
    assert (Hg : reads (let^ count := GetArrayLen budget in get_many g (Z.to_nat count))
                   (StoreLe 4 (zlen xs) ++ bs) xs); [|by apply (Hg d pos f rest)].
    eapply reads_bind; [|unfold zlen; rewrite Nat2Z.id; exact Hr].
    rewrite <- (app_nil_r (StoreLe 4 _)). eapply reads_bind; [by apply reads_U32|].
    cbv beta. destruct (Z.ltb_spec budget (zlen xs)); [lia|]. apply reads_ret.
  - rewrite zlen_app. change (zlen (StoreLe 4 _)) with 4. zlist.
Qed.

Lemma codec_array_Forall {A} (put : A → W → W) (g : Getter A) k (P : A → Prop) (xs : list A) :
  Forall P xs → 0 < k → zlen xs ≤ kMaxArrayElements →
  (∀ x, P x → codec (put x) g x k) → codec (put_array put xs) (get_array k g) xs 4.
Proof.
  intros HP Hk Hmax Hx. apply codec_array; [done..|]. intros x Hin. apply Hx.
  rewrite Forall_forall in HP. by apply HP.
Qed.
End Agreement.

Lemma reads_end_tail_ret {B} len bs (h : bytes → B) y :
  len = zlen bs → h bs = y → reads_end (let^ b := get_tail len in gret (h b)) bs y.
Proof.
  intros Hlen <- d pos f Hpos Hd. unfold gbind.
  by rewrite (reads_end_tail len bs Hlen d pos f Hpos Hd).
Qed.

Lemma bounded_array {A} (g : Getter A) k (P : A → Prop) :
  0 ≤ k → bounded g P → bounded (get_array k g) (λ xs, Forall P xs ∧ zlen xs ≤ kMaxArrayElements).
Proof.
  intros Hk Hg r Hr.
  assert (H : bounded (let^ count := GetArrayLen (ElementBudget k r) in
      get_many g (Z.to_nat count)) (λ xs, Forall P xs ∧ zlen xs ≤ kMaxArrayElements));
    [|exact (H r Hr)].
  eapply bounded_bind; [apply bounded_GetArrayLen|]. intros n [Hn0 Hn].
  eapply bounded_weaken; [by apply bounded_many|]. intros xs [Hxs Hlen]. split; [done|].
  unfold zlen. rewrite Hlen. unfold ElementBudget in Hn.
  change kMaxArrayElements with 1048576 in *. destruct Hr as [Hr _].
  assert (Hq : 0 ≤ Remaining r / (if k =? 0 then 1 else k)).
  { apply Z.div_pos; [unfold Remaining; lia|]. destruct (Z.eqb_spec k 0); lia. }
  destruct (Z.ltb_spec (Remaining r / (if k =? 0 then 1 else k)) 1048576);
    rewrite uwrap_small in Hn by (unfold unsigned; lia); lia.
Qed.

Lemma bounded_tail len : bounded (get_tail len) (λ b, zlen b ≤ Z.max len 0).
Proof.
  eapply bounded_bind; [apply bounded_GetRemaining|]. intros b _.
  apply bounded_ret. rewrite zlen_ztake. lia.
Qed.
Lemma bounded_check len : bounded (check_remaining len) any.
Proof.
  eapply bounded_bind; [apply bounded_remaining|]. intros n _.
  eapply bounded_weaken; [apply bounded_guard|done].
Qed.
#[export] Hint Resolve bounded_tail bounded_check : codec.

(** What a message promises to the transport: its encoder (onto any sink), its
    decoder, the values that fit the wire, and that the two agree.  [msg_bounded]
    is the decoder's half on arbitrary input: it stays inside the payload and
    accepts only values that fit. *)
Class MessageCodec (M : Type) := {
  msg_encode : ∀ {W} `{!ByteSink W}, M → W → W;
  msg_decode : Getter M;
  msg_wf : M → Prop;
  msg_agree : ∀ {W} `{!ByteSink W} m, msg_wf m → codec_end (msg_encode m) msg_decode m;
  msg_bounded : bounded msg_decode msg_wf;
}.

(** ** Automation: walk an encoder and its decoder in lockstep *)

Ltac codec_side := first [assumption | lia | done | unfold unsigned, signed in *; zlist].
Ltac codec_enum :=
  repeat match goal with |- context [match ?e with _ => _ end] => destruct e end; reflexivity.
Ltac guard_side :=
  first [ reflexivity
        | apply negb_true_iff, Z.ltb_ge; first [lia | codec_side]
        | match goal with |- context [negb (_ <? ?f ?e)] => destruct e; reflexivity end ].
Ltac reads_nil :=
  lazymatch goal with
  | |- reads (gbind (gguard _) _) [] _ =>
      eapply reads_bind_nil; [apply reads_guard; guard_side | cbv beta; reads_nil]
  | |- reads (gret ?a) [] ?b => replace b with a; [apply reads_ret | try reflexivity]
  end.
Create HintDb message.
#[export] Hint Resolve codec_U8 codec_Bool : message.
#[export] Hint Extern 1 (codec (PutU16 _) _ _ _) => apply codec_U16; codec_side : message.
#[export] Hint Extern 1 (codec (PutU32 _) _ _ _) => apply codec_U32; codec_side : message.
#[export] Hint Extern 1 (codec (PutI16 _) _ _ _) => apply codec_I16; codec_side : message.
#[export] Hint Extern 1 (codec (PutI32 _) _ _ _) => apply codec_I32; codec_side : message.
#[export] Hint Extern 1 (codec (PutI64 _) _ _ _) => apply codec_I64; codec_side : message.
#[export] Hint Extern 1 (codec (PutString _) _ _ _) => apply codec_String; codec_side : message.
#[export] Hint Extern 1 (codec (put_array _ _) _ _ _) =>
  eapply codec_array_Forall; [eassumption | lia | assumption | ] : message.
#[export] Hint Extern 1 (bounded (get_array _ _) _) =>
  eapply bounded_array; [lia | solve [eauto with codec]] : codec.
(** A length-prefixed tail: the u32 length written is the one read. *)
Ltac codec_tail :=
  lazymatch goal with
  | |- reads_end (gbind (check_remaining _) _) _ _ =>
      apply reads_end_check; [codec_side | cbv beta; codec_tail]
  | |- reads_end (gbind (gguard _) _) _ _ =>
      eapply reads_end_bind_nil; [apply reads_guard; guard_side | cbv beta; codec_tail]
  | |- reads_end (gbind (get_tail _) _) _ _ => apply reads_end_tail_ret; [codec_side | try reflexivity]
  end.
Ltac codec_step :=
  lazymatch goal with
  | |- codec _ (gbind (gguard _) _) _ _ => apply codec_guard; [guard_side | cbv beta]
  | |- codec_end _ (gbind (gguard _) _) _ => apply codec_end_guard; [guard_side | cbv beta]
  | |- codec (_ ;;> _) _ _ _ => eapply codec_seq; [solve [eauto with message] | cbv beta]
  | |- codec_end (PutU32 (u32 (zlen _)) ;;> _) _ _ =>
      eapply codec_end_seq;
      [apply codec_U32; apply uwrap_range; lia | cbv beta; rewrite uwrap_small by codec_side]
  | |- codec_end (_ ;;> _) _ _ => eapply codec_end_seq; [solve [eauto with message] | cbv beta]
  | |- codec_end (PutRaw _) _ _ => apply codec_end_raw; codec_tail
  | |- codec wskip (gret _) _ _ => apply codec_skip
  | |- codec_end _ _ _ => eapply codec_codec_end
  | |- codec _ (gbind _ _) _ _ => eapply codec_last; [solve [eauto with message] | cbv beta; reads_nil]
  | |- codec _ _ _ _ => solve [eauto with message]
  end.
Ltac codec_agree := repeat codec_step.

Ltac bounded_side :=
  repeat match goal with
  | H : negb _ = true |- _ => apply negb_true_iff in H
  | H : (_ <? _) = false |- _ => apply Z.ltb_ge in H
  | H : _ ∧ _ |- _ => destruct H
  end;
  repeat split; try assumption; unfold unsigned, signed in *; zlist.
Ltac bounded_walk :=
  repeat lazymatch goal with
  | |- bounded (gbind _ _) _ => eapply bounded_bind; [solve [eauto with codec] | cbv beta; intros]
  | |- bounded (gret _) _ => apply bounded_ret
  end.
