(* ===== verification/MessagesData.v ===== *)
(** * MessagesData: produce, fetch and list-offsets messages

    Models src/protocol/messages_data.cc and the corresponding structs of
    include/pulselog/protocol/messages.h.  Strong identifier types are their
    underlying integers; a ByteSpan is the bytes it views. *)
From S2P Require Import Prelude Status Endian Buffer Codec MessageCodec Types.

(** ** Response header *)

Record ResponseHeader := mkResponseHeader { error : ErrorCode; error_message : bytes }.

Definition ResponseHeader_wf (h : ResponseHeader) : Prop := string_fits (error_message h).

Definition ResponseHeader_Encode {W} `{!ByteSink W} (h : ResponseHeader) : W → W :=
  PutU16 (error_code_raw (error h)) ;;>
  PutString (error_message h).

(** A code outside the enumeration degrades to [kUnknown]. *)
Definition ResponseHeader_Decode : Getter ResponseHeader :=
  let^ raw := GetU16 in
  let error := if raw <=? error_code_raw kInternal
               then default kUnknown (error_code_of_raw raw) else kUnknown in
  let^ error_message := GetString in
  gret (mkResponseHeader error error_message).

(** [ResponseHeader::ToStatus], the code it carries. *)
Definition ResponseHeader_ToStatus (h : ResponseHeader) : ErrorCode := error h.

Lemma codec_ResponseHeader {W} `{!ByteSink W} h :
  ResponseHeader_wf h → codec (ResponseHeader_Encode h) ResponseHeader_Decode h 4.
Proof.
  destruct h as [e msg]. intros Hm. unfold ResponseHeader_Encode; cbn [error error_message].
  eapply (codec_weaken _ _ _ (2 + 2)); [done|].
  eapply codec_seq; [apply codec_U16; pose proof (error_code_raw_range e); codec_side|].
  cbv zeta. eapply codec_last; [by apply codec_String|].
  destruct (Z.leb_spec (error_code_raw e) (error_code_raw kInternal)) as [|Hbad].
  - rewrite error_code_of_raw_raw. apply reads_ret.
  - pose proof (error_code_raw_range e). change (error_code_raw kInternal) with 22 in Hbad. lia.
Qed.

Lemma bounded_ResponseHeader : bounded ResponseHeader_Decode ResponseHeader_wf.
Proof. unfold ResponseHeader_Decode. bounded_walk. done. Qed.
#[export] Hint Resolve codec_ResponseHeader : message.
#[export] Hint Resolve bounded_ResponseHeader : codec.

Inductive IsolationLevel : Set := kReadUncommitted | kReadReplicated.
Definition IsolationLevel_raw (i : IsolationLevel) : Z :=
  match i with kReadUncommitted => 0 | kReadReplicated => 1 end.
Definition IsolationLevel_of_raw (raw : Z) : IsolationLevel :=
  if raw =? 0 then kReadUncommitted else kReadReplicated.

(** Special timestamps understood by ListOffsets. *)
Definition kListOffsetsEarliest : Z := -2.
Definition kListOffsetsLatest : Z := -1.

(** ** Produce *)

Record ProduceRequest := mkProduceRequest {
  preq_topic : bytes; preq_partition : Z; preq_acks : AckMode; preq_timeout_ms : Z;
  preq_record_count : Z; preq_records : bytes }.

Definition ProduceRequest_wf (m : ProduceRequest) : Prop :=
  let 'mkProduceRequest topic partition acks timeout_ms record_count records := m in
  string_fits topic ∧ signed 32 partition ∧ 0 ≤ partition ∧ signed 32 timeout_ms ∧
  unsigned 32 record_count ∧ unsigned 32 (zlen records).

Definition ProduceRequest_Encode {W} `{!ByteSink W} (m : ProduceRequest) : W → W :=
  let 'mkProduceRequest topic partition acks timeout_ms record_count records := m in
  PutString topic ;;>
  PutI32 partition ;;>
  PutU8 (AckMode_raw acks) ;;>
  PutI32 timeout_ms ;;>
  PutU32 record_count ;;>
  PutU32 (u32 (zlen records)) ;;>
  PutRaw records.

Definition ProduceRequest_Decode : Getter ProduceRequest :=
  let^ topic := GetString in
  let^ partition := GetI32 in
  let^ acks_raw := GetU8 in
  let^ timeout_ms := GetI32 in
  let^ record_count := GetU32 in
  let^ records_len := GetU32 in
  check_remaining records_len ;;^
  gguard (negb (AckMode_raw kQuorum <? acks_raw)) ;;^
  gguard (negb (partition <? 0)) ;;^
  let^ records := get_tail records_len in
  gret (mkProduceRequest topic partition (AckMode_of_raw acks_raw) timeout_ms record_count records).

Record ProduceResponse := mkProduceResponse {
  presp_header : ResponseHeader; presp_base_offset : Z; presp_last_offset : Z;
  presp_append_time : Z; presp_high_water_mark : Z }.

Definition ProduceResponse_wf (m : ProduceResponse) : Prop :=
  let 'mkProduceResponse header base_offset last_offset append_time high_water_mark := m in
  ResponseHeader_wf header ∧ signed 64 base_offset ∧ signed 64 last_offset ∧
  signed 64 append_time ∧ signed 64 high_water_mark.

Definition ProduceResponse_Encode {W} `{!ByteSink W} (m : ProduceResponse) : W → W :=
  let 'mkProduceResponse header base_offset last_offset append_time high_water_mark := m in
  ResponseHeader_Encode header ;;>
  PutI64 base_offset ;;>
  PutI64 last_offset ;;>
  PutI64 append_time ;;>
  PutI64 high_water_mark.

Definition ProduceResponse_Decode : Getter ProduceResponse :=
  let^ header := ResponseHeader_Decode in
  let^ base_offset := GetI64 in
  let^ last_offset := GetI64 in
  let^ append_time := GetI64 in
  let^ high_water_mark := GetI64 in
  gret (mkProduceResponse header base_offset last_offset append_time high_water_mark).

(** ** Fetch *)

Record FetchRequest := mkFetchRequest {
  freq_topic : bytes; freq_partition : Z; freq_fetch_offset : Z; freq_max_bytes : Z;
  freq_min_bytes : Z; freq_max_wait_ms : Z; freq_isolation : IsolationLevel }.

Definition FetchRequest_wf (m : FetchRequest) : Prop :=
  let 'mkFetchRequest topic partition fetch_offset max_bytes min_bytes max_wait_ms isolation := m in
  string_fits topic ∧ signed 32 partition ∧ 0 ≤ partition ∧ signed 64 fetch_offset ∧
  unsigned 32 max_bytes ∧ unsigned 32 min_bytes ∧ signed 32 max_wait_ms.

Definition FetchRequest_Encode {W} `{!ByteSink W} (m : FetchRequest) : W → W :=
  let 'mkFetchRequest topic partition fetch_offset max_bytes min_bytes max_wait_ms isolation := m in
  PutString topic ;;>
  PutI32 partition ;;>
  PutI64 fetch_offset ;;>
  PutU32 max_bytes ;;>
  PutU32 min_bytes ;;>
  PutI32 max_wait_ms ;;>
  PutU8 (IsolationLevel_raw isolation).

Definition FetchRequest_Decode : Getter FetchRequest :=
  let^ topic := GetString in
  let^ partition := GetI32 in
  let^ fetch_offset := GetI64 in
  let^ max_bytes := GetU32 in
  let^ min_bytes := GetU32 in
  let^ max_wait_ms := GetI32 in
  let^ isolation_raw := GetU8 in
  gguard (negb (partition <? 0)) ;;^
  gguard (negb (IsolationLevel_raw kReadReplicated <? isolation_raw)) ;;^
  gret (mkFetchRequest topic partition fetch_offset max_bytes min_bytes max_wait_ms (IsolationLevel_of_raw isolation_raw)).

Record FetchResponse := mkFetchResponse {
  fresp_header : ResponseHeader; fresp_high_water_mark : Z; fresp_log_start_offset : Z;
  fresp_base_offset : Z; fresp_record_count : Z; fresp_records : bytes }.

Definition FetchResponse_wf (m : FetchResponse) : Prop :=
  let 'mkFetchResponse header high_water_mark log_start_offset base_offset record_count records := m in
  ResponseHeader_wf header ∧ signed 64 high_water_mark ∧ signed 64 log_start_offset ∧
  signed 64 base_offset ∧ unsigned 32 record_count ∧ unsigned 32 (zlen records).

Definition FetchResponse_Encode {W} `{!ByteSink W} (m : FetchResponse) : W → W :=
  let 'mkFetchResponse header high_water_mark log_start_offset base_offset record_count records := m in
  ResponseHeader_Encode header ;;>
  PutI64 high_water_mark ;;>
  PutI64 log_start_offset ;;>
  PutI64 base_offset ;;>
  PutU32 record_count ;;>
  PutU32 (u32 (zlen records)) ;;>
  PutRaw records.

Definition FetchResponse_Decode : Getter FetchResponse :=
  let^ header := ResponseHeader_Decode in
  let^ high_water_mark := GetI64 in
  let^ log_start_offset := GetI64 in
  let^ base_offset := GetI64 in
  let^ record_count := GetU32 in
  let^ records_len := GetU32 in
  check_remaining records_len ;;^
  let^ records := get_tail records_len in
  gret (mkFetchResponse header high_water_mark log_start_offset base_offset record_count records).

(** ** ListOffsets *)

Record ListOffsetsRequest := mkListOffsetsRequest {
  loreq_topic : bytes; loreq_partition : Z; loreq_timestamp : Z }.

Definition ListOffsetsRequest_wf (m : ListOffsetsRequest) : Prop :=
  let 'mkListOffsetsRequest topic partition timestamp := m in
  string_fits topic ∧ signed 32 partition ∧ 0 ≤ partition ∧ signed 64 timestamp.

Definition ListOffsetsRequest_Encode {W} `{!ByteSink W} (m : ListOffsetsRequest) : W → W :=
  let 'mkListOffsetsRequest topic partition timestamp := m in
  PutString topic ;;>
  PutI32 partition ;;>
  PutI64 timestamp.

Definition ListOffsetsRequest_Decode : Getter ListOffsetsRequest :=
  let^ topic := GetString in
  let^ partition := GetI32 in
  gguard (negb (partition <? 0)) ;;^
  let^ timestamp := GetI64 in
  gret (mkListOffsetsRequest topic partition timestamp).

Record ListOffsetsResponse := mkListOffsetsResponse {
  loresp_header : ResponseHeader; loresp_offset : Z; loresp_timestamp : Z }.

Definition ListOffsetsResponse_wf (m : ListOffsetsResponse) : Prop :=
  let 'mkListOffsetsResponse header offset timestamp := m in
  ResponseHeader_wf header ∧ signed 64 offset ∧ signed 64 timestamp.

Definition ListOffsetsResponse_Encode {W} `{!ByteSink W} (m : ListOffsetsResponse) : W → W :=
  let 'mkListOffsetsResponse header offset timestamp := m in
  ResponseHeader_Encode header ;;>
  PutI64 offset ;;>
  PutI64 timestamp.

Definition ListOffsetsResponse_Decode : Getter ListOffsetsResponse :=
  let^ header := ResponseHeader_Decode in
  let^ offset := GetI64 in
  let^ timestamp := GetI64 in
  gret (mkListOffsetsResponse header offset timestamp).

Definition EncodeErrorResponse (code : ErrorCode) (message : bytes) (out : ByteBuffer) : ByteBuffer :=
  ResponseHeader_Encode (mkResponseHeader code message) out.

(** ** Every message keeps the codec contract *)

#[global] Instance ProduceRequest_codec : MessageCodec ProduceRequest.
Proof.
  refine {| msg_encode W _ := ProduceRequest_Encode; msg_decode := ProduceRequest_Decode;
    msg_wf := ProduceRequest_wf |}.
  - intros W ? [topic partition acks timeout_ms record_count records] (? & ? & ? & ? & ? & ?). unfold ProduceRequest_Encode, ProduceRequest_Decode.
    codec_agree. by destruct acks.
  - unfold ProduceRequest_Decode, ProduceRequest_wf. bounded_walk. bounded_side.
Defined.

#[global] Instance ProduceResponse_codec : MessageCodec ProduceResponse.
Proof.
  refine {| msg_encode W _ := ProduceResponse_Encode; msg_decode := ProduceResponse_Decode;
    msg_wf := ProduceResponse_wf |}.
  - intros W ? [header base_offset last_offset append_time high_water_mark] (? & ? & ? & ? & ?). unfold ProduceResponse_Encode, ProduceResponse_Decode.
    codec_agree.
  - unfold ProduceResponse_Decode, ProduceResponse_wf. bounded_walk. bounded_side.
Defined.

#[global] Instance FetchRequest_codec : MessageCodec FetchRequest.
Proof.
  refine {| msg_encode W _ := FetchRequest_Encode; msg_decode := FetchRequest_Decode;
    msg_wf := FetchRequest_wf |}.
  - intros W ? [topic partition fetch_offset max_bytes min_bytes max_wait_ms isolation] (? & ? & ? & ? & ? & ? & ?). unfold FetchRequest_Encode, FetchRequest_Decode.
    codec_agree. by destruct isolation.
  - unfold FetchRequest_Decode, FetchRequest_wf. bounded_walk. bounded_side.
Defined.

#[global] Instance FetchResponse_codec : MessageCodec FetchResponse.
Proof.
  refine {| msg_encode W _ := FetchResponse_Encode; msg_decode := FetchResponse_Decode;
    msg_wf := FetchResponse_wf |}.
  - intros W ? [header high_water_mark log_start_offset base_offset record_count records] (? & ? & ? & ? & ? & ?). unfold FetchResponse_Encode, FetchResponse_Decode.
    codec_agree.
  - unfold FetchResponse_Decode, FetchResponse_wf. bounded_walk. bounded_side.
Defined.

#[global] Instance ListOffsetsRequest_codec : MessageCodec ListOffsetsRequest.
Proof.
  refine {| msg_encode W _ := ListOffsetsRequest_Encode; msg_decode := ListOffsetsRequest_Decode;
    msg_wf := ListOffsetsRequest_wf |}.
  - intros W ? [topic partition timestamp] (? & ? & ? & ?). unfold ListOffsetsRequest_Encode, ListOffsetsRequest_Decode.
    codec_agree.
  - unfold ListOffsetsRequest_Decode, ListOffsetsRequest_wf. bounded_walk. bounded_side.
Defined.

#[global] Instance ListOffsetsResponse_codec : MessageCodec ListOffsetsResponse.
Proof.
  refine {| msg_encode W _ := ListOffsetsResponse_Encode; msg_decode := ListOffsetsResponse_Decode;
    msg_wf := ListOffsetsResponse_wf |}.
  - intros W ? [header offset timestamp] (? & ? & ?). unfold ListOffsetsResponse_Encode, ListOffsetsResponse_Decode.
    codec_agree.
  - unfold ListOffsetsResponse_Decode, ListOffsetsResponse_wf. bounded_walk. bounded_side.
Defined.
