(* ===== verification/MessagesControl.v ===== *)
(** * MessagesControl: topic, metadata and health messages

    Models src/protocol/messages_control.cc and the corresponding structs of
    include/pulselog/protocol/messages.h. *)
From S2P Require Import Prelude Status Endian Buffer Codec MessageCodec Types MessagesData.

Definition EncodeBrokerIds {W} `{!ByteSink W} (ids : list Z) : W → W := put_array PutI32 ids.
Definition DecodeBrokerIds : Getter (list Z) := get_array 4 GetI32.

Lemma codec_BrokerIds {W} `{!ByteSink W} ids :
  Forall (signed 32) ids → zlen ids ≤ kMaxArrayElements →
  codec (EncodeBrokerIds ids) DecodeBrokerIds ids 4.
Proof. intros. unfold EncodeBrokerIds, DecodeBrokerIds. eauto with message. Qed.
Lemma bounded_BrokerIds : bounded DecodeBrokerIds
  (λ ids, Forall (signed 32) ids ∧ zlen ids ≤ kMaxArrayElements).
Proof. unfold DecodeBrokerIds. eauto with codec. Qed.
#[export] Hint Resolve codec_BrokerIds : message.
#[export] Hint Resolve bounded_BrokerIds : codec.

Inductive AssignmentStrategy : Set := kRange | kRoundRobin.
#[global] Instance AssignmentStrategy_eq_dec : EqDecision AssignmentStrategy.
Proof. solve_decision. Defined.
Definition AssignmentStrategy_raw (s : AssignmentStrategy) : Z :=
  match s with kRange => 0 | kRoundRobin => 1 end.
Definition AssignmentStrategy_of_raw (raw : Z) : AssignmentStrategy :=
  if raw =? 0 then kRange else kRoundRobin.

Definition AssignmentStrategyName (s : AssignmentStrategy) : bytes :=
  match s with kRange => str "range" | kRoundRobin => str "roundrobin" end.

Definition ParseAssignmentStrategy (text : bytes) : option AssignmentStrategy :=
  if bool_decide (text = str "range") then Some kRange
  else if bool_decide (text = str "roundrobin") || bool_decide (text = str "round-robin")
  then Some kRoundRobin
  else None.

(** ** CreateTopic and DeleteTopic *)

Record CreateTopicRequest := mkCreateTopicRequest {
  ctreq_topic : bytes; ctreq_partitions : Z; ctreq_replication_factor : Z;
  ctreq_retention_ms : Z; ctreq_segment_bytes : Z; ctreq_compression : Compression;
  ctreq_from_controller : bool }.

Definition CreateTopicRequest_wf (m : CreateTopicRequest) : Prop :=
  let 'mkCreateTopicRequest topic partitions replication_factor retention_ms segment_bytes compression from_controller := m in
  string_fits topic ∧ signed 32 partitions ∧ signed 16 replication_factor ∧
  signed 64 retention_ms ∧ signed 64 segment_bytes.

Definition CreateTopicRequest_Encode {W} `{!ByteSink W} (m : CreateTopicRequest) : W → W :=
  let 'mkCreateTopicRequest topic partitions replication_factor retention_ms segment_bytes compression from_controller := m in
  PutString topic ;;>
  PutI32 partitions ;;>
  PutI16 replication_factor ;;>
  PutI64 retention_ms ;;>
  PutI64 segment_bytes ;;>
  PutU8 (Compression_raw compression) ;;>
  PutBool from_controller.

Definition CreateTopicRequest_Decode : Getter CreateTopicRequest :=
  let^ topic := GetString in
  let^ partitions := GetI32 in
  let^ replication_factor := GetI16 in
  let^ retention_ms := GetI64 in
  let^ segment_bytes := GetI64 in
  let^ compression_raw := GetU8 in
  gguard (negb (Compression_raw kLz4Like <? compression_raw)) ;;^
  let^ from_controller := GetBool in
  gret (mkCreateTopicRequest topic partitions replication_factor retention_ms segment_bytes (Compression_of_raw compression_raw) from_controller).

Record CreateTopicResponse := mkCreateTopicResponse {
  ctresp_header : ResponseHeader; ctresp_partitions : Z }.

Definition CreateTopicResponse_wf (m : CreateTopicResponse) : Prop :=
  let 'mkCreateTopicResponse header partitions := m in
  ResponseHeader_wf header ∧ signed 32 partitions.

Definition CreateTopicResponse_Encode {W} `{!ByteSink W} (m : CreateTopicResponse) : W → W :=
  let 'mkCreateTopicResponse header partitions := m in
  ResponseHeader_Encode header ;;>
  PutI32 partitions.

Definition CreateTopicResponse_Decode : Getter CreateTopicResponse :=
  let^ header := ResponseHeader_Decode in
  let^ partitions := GetI32 in
  gret (mkCreateTopicResponse header partitions).

Record DeleteTopicRequest := mkDeleteTopicRequest {
  dtreq_topic : bytes }.

Definition DeleteTopicRequest_wf (m : DeleteTopicRequest) : Prop :=
  let 'mkDeleteTopicRequest topic := m in
  string_fits topic.

Definition DeleteTopicRequest_Encode {W} `{!ByteSink W} (m : DeleteTopicRequest) : W → W :=
  let 'mkDeleteTopicRequest topic := m in
  PutString topic.

Definition DeleteTopicRequest_Decode : Getter DeleteTopicRequest :=
  let^ topic := GetString in
  gret (mkDeleteTopicRequest topic).

Record DeleteTopicResponse := mkDeleteTopicResponse {
  dtresp_header : ResponseHeader }.

Definition DeleteTopicResponse_wf (m : DeleteTopicResponse) : Prop :=
  let 'mkDeleteTopicResponse header := m in
  ResponseHeader_wf header.

Definition DeleteTopicResponse_Encode {W} `{!ByteSink W} (m : DeleteTopicResponse) : W → W :=
  let 'mkDeleteTopicResponse header := m in
  ResponseHeader_Encode header.

Definition DeleteTopicResponse_Decode : Getter DeleteTopicResponse :=
  let^ header := ResponseHeader_Decode in
  gret (mkDeleteTopicResponse header).

(** ** Metadata *)

Record BrokerEndpoint := mkBrokerEndpoint {
  be_id : Z; be_host : bytes; be_port : Z }.

Definition BrokerEndpoint_wf (m : BrokerEndpoint) : Prop :=
  let 'mkBrokerEndpoint id host port := m in
  signed 32 id ∧ string_fits host ∧ unsigned 16 port.

Definition BrokerEndpoint_Encode {W} `{!ByteSink W} (m : BrokerEndpoint) : W → W :=
  let 'mkBrokerEndpoint id host port := m in
  PutI32 id ;;>
  PutString host ;;>
  PutU16 port.

Definition BrokerEndpoint_Decode : Getter BrokerEndpoint :=
  let^ id := GetI32 in
  let^ host := GetString in
  let^ port := GetU16 in
  gret (mkBrokerEndpoint id host port).

Record PartitionMetadata := mkPartitionMetadata {
  pm_index : Z; pm_leader : Z; pm_leader_epoch : Z; pm_replicas : list Z;
  pm_in_sync_replicas : list Z }.

Definition PartitionMetadata_wf (m : PartitionMetadata) : Prop :=
  let 'mkPartitionMetadata index leader leader_epoch replicas in_sync_replicas := m in
  signed 32 index ∧ signed 32 leader ∧ signed 64 leader_epoch ∧ Forall (signed 32) replicas ∧
  zlen replicas ≤ kMaxArrayElements ∧ Forall (signed 32) in_sync_replicas ∧
  zlen in_sync_replicas ≤ kMaxArrayElements.

Definition PartitionMetadata_Encode {W} `{!ByteSink W} (m : PartitionMetadata) : W → W :=
  let 'mkPartitionMetadata index leader leader_epoch replicas in_sync_replicas := m in
  PutI32 index ;;>
  PutI32 leader ;;>
  PutI64 leader_epoch ;;>
  EncodeBrokerIds replicas ;;>
  EncodeBrokerIds in_sync_replicas.

Definition PartitionMetadata_Decode : Getter PartitionMetadata :=
  let^ index := GetI32 in
  let^ leader := GetI32 in
  let^ leader_epoch := GetI64 in
  let^ replicas := DecodeBrokerIds in
  let^ in_sync_replicas := DecodeBrokerIds in
  gret (mkPartitionMetadata index leader leader_epoch replicas in_sync_replicas).

Record TopicMetadata := mkTopicMetadata {
  tm_name : bytes; tm_partitions : list PartitionMetadata }.

Definition TopicMetadata_wf (m : TopicMetadata) : Prop :=
  let 'mkTopicMetadata name partitions := m in
  string_fits name ∧ Forall PartitionMetadata_wf partitions ∧
  zlen partitions ≤ kMaxArrayElements.

Definition TopicMetadata_Encode {W} `{!ByteSink W} (m : TopicMetadata) : W → W :=
  let 'mkTopicMetadata name partitions := m in
  PutString name ;;>
  put_array PartitionMetadata_Encode partitions.

Definition TopicMetadata_Decode : Getter TopicMetadata :=
  let^ name := GetString in
  let^ partitions := get_array 24 PartitionMetadata_Decode in
  gret (mkTopicMetadata name partitions).

Record MetadataRequest := mkMetadataRequest {
  mreq_topics : list bytes }.

Definition MetadataRequest_wf (m : MetadataRequest) : Prop :=
  let 'mkMetadataRequest topics := m in
  Forall string_fits topics ∧ zlen topics ≤ kMaxArrayElements.

Definition MetadataRequest_Encode {W} `{!ByteSink W} (m : MetadataRequest) : W → W :=
  let 'mkMetadataRequest topics := m in
  put_array PutString topics.

Definition MetadataRequest_Decode : Getter MetadataRequest :=
  let^ topics := get_array 2 GetString in
  gret (mkMetadataRequest topics).

Record MetadataResponse := mkMetadataResponse {
  mresp_header : ResponseHeader; mresp_controller_id : Z; mresp_brokers : list BrokerEndpoint;
  mresp_topics : list TopicMetadata }.

Definition MetadataResponse_wf (m : MetadataResponse) : Prop :=
  let 'mkMetadataResponse header controller_id brokers topics := m in
  ResponseHeader_wf header ∧ signed 32 controller_id ∧ Forall BrokerEndpoint_wf brokers ∧
  zlen brokers ≤ kMaxArrayElements ∧ Forall TopicMetadata_wf topics ∧
  zlen topics ≤ kMaxArrayElements.

Definition MetadataResponse_Encode {W} `{!ByteSink W} (m : MetadataResponse) : W → W :=
  let 'mkMetadataResponse header controller_id brokers topics := m in
  ResponseHeader_Encode header ;;>
  PutI32 controller_id ;;>
  put_array BrokerEndpoint_Encode brokers ;;>
  put_array TopicMetadata_Encode topics.

Definition MetadataResponse_Decode : Getter MetadataResponse :=
  let^ header := ResponseHeader_Decode in
  let^ controller_id := GetI32 in
  let^ brokers := get_array 8 BrokerEndpoint_Decode in
  let^ topics := get_array 6 TopicMetadata_Decode in
  gret (mkMetadataResponse header controller_id brokers topics).

(** ** ListTopics *)

Record ListTopicsRequest := mkListTopicsRequest { }.

Definition ListTopicsRequest_wf (m : ListTopicsRequest) : Prop := True.

Definition ListTopicsRequest_Encode {W} `{!ByteSink W} (m : ListTopicsRequest) : W → W := wskip.

Definition ListTopicsRequest_Decode : Getter ListTopicsRequest :=
  gret (mkListTopicsRequest).

Record TopicSummary := mkTopicSummary {
  ts_name : bytes; ts_partitions : Z; ts_total_bytes : Z; ts_total_records : Z }.

Definition TopicSummary_wf (m : TopicSummary) : Prop :=
  let 'mkTopicSummary name partitions total_bytes total_records := m in
  string_fits name ∧ signed 32 partitions ∧ signed 64 total_bytes ∧ signed 64 total_records.

Definition TopicSummary_Encode {W} `{!ByteSink W} (m : TopicSummary) : W → W :=
  let 'mkTopicSummary name partitions total_bytes total_records := m in
  PutString name ;;>
  PutI32 partitions ;;>
  PutI64 total_bytes ;;>
  PutI64 total_records.

Definition TopicSummary_Decode : Getter TopicSummary :=
  let^ name := GetString in
  let^ partitions := GetI32 in
  let^ total_bytes := GetI64 in
  let^ total_records := GetI64 in
  gret (mkTopicSummary name partitions total_bytes total_records).

Record ListTopicsResponse := mkListTopicsResponse {
  ltresp_header : ResponseHeader; ltresp_topics : list TopicSummary }.

Definition ListTopicsResponse_wf (m : ListTopicsResponse) : Prop :=
  let 'mkListTopicsResponse header topics := m in
  ResponseHeader_wf header ∧ Forall TopicSummary_wf topics ∧ zlen topics ≤ kMaxArrayElements.

Definition ListTopicsResponse_Encode {W} `{!ByteSink W} (m : ListTopicsResponse) : W → W :=
  let 'mkListTopicsResponse header topics := m in
  ResponseHeader_Encode header ;;>
  put_array TopicSummary_Encode topics.

Definition ListTopicsResponse_Decode : Getter ListTopicsResponse :=
  let^ header := ResponseHeader_Decode in
  let^ topics := get_array 22 TopicSummary_Decode in
  gret (mkListTopicsResponse header topics).

(** ** Health and DescribeCluster *)

Record HealthRequest := mkHealthRequest { }.

Definition HealthRequest_wf (m : HealthRequest) : Prop := True.

Definition HealthRequest_Encode {W} `{!ByteSink W} (m : HealthRequest) : W → W := wskip.

Definition HealthRequest_Decode : Getter HealthRequest :=
  gret (mkHealthRequest).

Record HealthResponse := mkHealthResponse {
  hresp_header : ResponseHeader; hresp_broker_id : Z; hresp_uptime_ms : Z;
  hresp_hosted_partitions : Z; hresp_leader_partitions : Z; hresp_ready : bool;
  hresp_version : bytes }.

Definition HealthResponse_wf (m : HealthResponse) : Prop :=
  let 'mkHealthResponse header broker_id uptime_ms hosted_partitions leader_partitions ready version := m in
  ResponseHeader_wf header ∧ signed 32 broker_id ∧ signed 64 uptime_ms ∧
  signed 32 hosted_partitions ∧ signed 32 leader_partitions ∧ string_fits version.

Definition HealthResponse_Encode {W} `{!ByteSink W} (m : HealthResponse) : W → W :=
  let 'mkHealthResponse header broker_id uptime_ms hosted_partitions leader_partitions ready version := m in
  ResponseHeader_Encode header ;;>
  PutI32 broker_id ;;>
  PutI64 uptime_ms ;;>
  PutI32 hosted_partitions ;;>
  PutI32 leader_partitions ;;>
  PutBool ready ;;>
  PutString version.

Definition HealthResponse_Decode : Getter HealthResponse :=
  let^ header := ResponseHeader_Decode in
  let^ broker_id := GetI32 in
  let^ uptime_ms := GetI64 in
  let^ hosted_partitions := GetI32 in
  let^ leader_partitions := GetI32 in
  let^ ready := GetBool in
  let^ version := GetString in
  gret (mkHealthResponse header broker_id uptime_ms hosted_partitions leader_partitions ready version).

Record DescribeClusterRequest := mkDescribeClusterRequest { }.

Definition DescribeClusterRequest_wf (m : DescribeClusterRequest) : Prop := True.

Definition DescribeClusterRequest_Encode {W} `{!ByteSink W} (m : DescribeClusterRequest) : W → W := wskip.

Definition DescribeClusterRequest_Decode : Getter DescribeClusterRequest :=
  gret (mkDescribeClusterRequest).

Record DescribeClusterResponse := mkDescribeClusterResponse {
  dcresp_header : ResponseHeader; dcresp_controller_id : Z;
  dcresp_brokers : list BrokerEndpoint; dcresp_live_brokers : list Z }.

Definition DescribeClusterResponse_wf (m : DescribeClusterResponse) : Prop :=
  let 'mkDescribeClusterResponse header controller_id brokers live_brokers := m in
  ResponseHeader_wf header ∧ signed 32 controller_id ∧ Forall BrokerEndpoint_wf brokers ∧
  zlen brokers ≤ kMaxArrayElements ∧ Forall (signed 32) live_brokers ∧
  zlen live_brokers ≤ kMaxArrayElements.

Definition DescribeClusterResponse_Encode {W} `{!ByteSink W} (m : DescribeClusterResponse) : W → W :=
  let 'mkDescribeClusterResponse header controller_id brokers live_brokers := m in
  ResponseHeader_Encode header ;;>
  PutI32 controller_id ;;>
  put_array BrokerEndpoint_Encode brokers ;;>
  EncodeBrokerIds live_brokers.

Definition DescribeClusterResponse_Decode : Getter DescribeClusterResponse :=
  let^ header := ResponseHeader_Decode in
  let^ controller_id := GetI32 in
  let^ brokers := get_array 8 BrokerEndpoint_Decode in
  let^ live_brokers := DecodeBrokerIds in
  gret (mkDescribeClusterResponse header controller_id brokers live_brokers).

(** ** Every message keeps the codec contract *)

#[global] Instance CreateTopicRequest_codec : MessageCodec CreateTopicRequest.
Proof.
  refine {| msg_encode W _ := CreateTopicRequest_Encode; msg_decode := CreateTopicRequest_Decode;
    msg_wf := CreateTopicRequest_wf |}.
  - intros W ? [topic partitions replication_factor retention_ms segment_bytes compression from_controller] (? & ? & ? & ? & ?). unfold CreateTopicRequest_Encode, CreateTopicRequest_Decode.
    codec_agree. by destruct compression.
  - unfold CreateTopicRequest_Decode, CreateTopicRequest_wf. bounded_walk. bounded_side.
Defined.

#[global] Instance CreateTopicResponse_codec : MessageCodec CreateTopicResponse.
Proof.
  refine {| msg_encode W _ := CreateTopicResponse_Encode; msg_decode := CreateTopicResponse_Decode;
    msg_wf := CreateTopicResponse_wf |}.
  - intros W ? [header partitions] (? & ?). unfold CreateTopicResponse_Encode, CreateTopicResponse_Decode.
    codec_agree.
  - unfold CreateTopicResponse_Decode, CreateTopicResponse_wf. bounded_walk. bounded_side.
Defined.

#[global] Instance DeleteTopicRequest_codec : MessageCodec DeleteTopicRequest.
Proof.
  refine {| msg_encode W _ := DeleteTopicRequest_Encode; msg_decode := DeleteTopicRequest_Decode;
    msg_wf := DeleteTopicRequest_wf |}.
  - intros W ? [topic] ?. unfold DeleteTopicRequest_Encode, DeleteTopicRequest_Decode.
    codec_agree.
  - unfold DeleteTopicRequest_Decode, DeleteTopicRequest_wf. bounded_walk. bounded_side.
Defined.

#[global] Instance DeleteTopicResponse_codec : MessageCodec DeleteTopicResponse.
Proof.
  refine {| msg_encode W _ := DeleteTopicResponse_Encode; msg_decode := DeleteTopicResponse_Decode;
    msg_wf := DeleteTopicResponse_wf |}.
  - intros W ? [header] ?. unfold DeleteTopicResponse_Encode, DeleteTopicResponse_Decode.
    codec_agree.
  - unfold DeleteTopicResponse_Decode, DeleteTopicResponse_wf. bounded_walk. bounded_side.
Defined.

Lemma codec_BrokerEndpoint {W} `{!ByteSink W} m :
  BrokerEndpoint_wf m → codec (BrokerEndpoint_Encode m) BrokerEndpoint_Decode m 8.
Proof.
  destruct m as [id host port]. intros (? & ? & ?). unfold BrokerEndpoint_Encode, BrokerEndpoint_Decode.
  eapply codec_weaken; cycle 1; [codec_agree|lia].
Qed.
Lemma bounded_BrokerEndpoint : bounded BrokerEndpoint_Decode BrokerEndpoint_wf.
Proof. unfold BrokerEndpoint_Decode, BrokerEndpoint_wf. bounded_walk. bounded_side. Qed.
#[export] Hint Resolve codec_BrokerEndpoint : message.
#[export] Hint Resolve bounded_BrokerEndpoint : codec.


Lemma codec_PartitionMetadata {W} `{!ByteSink W} m :
  PartitionMetadata_wf m → codec (PartitionMetadata_Encode m) PartitionMetadata_Decode m 24.
Proof.
  destruct m as [index leader leader_epoch replicas in_sync_replicas]. intros (? & ? & ? & ? & ? & ? & ?). unfold PartitionMetadata_Encode, PartitionMetadata_Decode.
  eapply codec_weaken; cycle 1; [codec_agree|lia].
Qed.
Lemma bounded_PartitionMetadata : bounded PartitionMetadata_Decode PartitionMetadata_wf.
Proof. unfold PartitionMetadata_Decode, PartitionMetadata_wf. bounded_walk. bounded_side. Qed.
#[export] Hint Resolve codec_PartitionMetadata : message.
#[export] Hint Resolve bounded_PartitionMetadata : codec.


Lemma codec_TopicMetadata {W} `{!ByteSink W} m :
  TopicMetadata_wf m → codec (TopicMetadata_Encode m) TopicMetadata_Decode m 6.
Proof.
  destruct m as [name partitions]. intros (? & ? & ?). unfold TopicMetadata_Encode, TopicMetadata_Decode.
  eapply codec_weaken; cycle 1; [codec_agree|lia].
Qed.
Lemma bounded_TopicMetadata : bounded TopicMetadata_Decode TopicMetadata_wf.
Proof. unfold TopicMetadata_Decode, TopicMetadata_wf. bounded_walk. bounded_side. Qed.
#[export] Hint Resolve codec_TopicMetadata : message.
#[export] Hint Resolve bounded_TopicMetadata : codec.


#[global] Instance MetadataRequest_codec : MessageCodec MetadataRequest.
Proof.
  refine {| msg_encode W _ := MetadataRequest_Encode; msg_decode := MetadataRequest_Decode;
    msg_wf := MetadataRequest_wf |}.
  - intros W ? [topics] (? & ?). unfold MetadataRequest_Encode, MetadataRequest_Decode.
    codec_agree.
  - unfold MetadataRequest_Decode, MetadataRequest_wf. bounded_walk. bounded_side.
Defined.

#[global] Instance MetadataResponse_codec : MessageCodec MetadataResponse.
Proof.
  refine {| msg_encode W _ := MetadataResponse_Encode; msg_decode := MetadataResponse_Decode;
    msg_wf := MetadataResponse_wf |}.
  - intros W ? [header controller_id brokers topics] (? & ? & ? & ? & ? & ?). unfold MetadataResponse_Encode, MetadataResponse_Decode.
    codec_agree.
  - unfold MetadataResponse_Decode, MetadataResponse_wf. bounded_walk. bounded_side.
Defined.

#[global] Instance ListTopicsRequest_codec : MessageCodec ListTopicsRequest.
Proof.
  refine {| msg_encode W _ := ListTopicsRequest_Encode; msg_decode := ListTopicsRequest_Decode;
    msg_wf := ListTopicsRequest_wf |}.
  - intros W ? [] _. unfold ListTopicsRequest_Encode, ListTopicsRequest_Decode.
    codec_agree.
  - unfold ListTopicsRequest_Decode, ListTopicsRequest_wf. bounded_walk. bounded_side.
Defined.

Lemma codec_TopicSummary {W} `{!ByteSink W} m :
  TopicSummary_wf m → codec (TopicSummary_Encode m) TopicSummary_Decode m 22.
Proof.
  destruct m as [name partitions total_bytes total_records]. intros (? & ? & ? & ?). unfold TopicSummary_Encode, TopicSummary_Decode.
  eapply codec_weaken; cycle 1; [codec_agree|lia].
Qed.
Lemma bounded_TopicSummary : bounded TopicSummary_Decode TopicSummary_wf.
Proof. unfold TopicSummary_Decode, TopicSummary_wf. bounded_walk. bounded_side. Qed.
#[export] Hint Resolve codec_TopicSummary : message.
#[export] Hint Resolve bounded_TopicSummary : codec.


#[global] Instance ListTopicsResponse_codec : MessageCodec ListTopicsResponse.
Proof.
  refine {| msg_encode W _ := ListTopicsResponse_Encode; msg_decode := ListTopicsResponse_Decode;
    msg_wf := ListTopicsResponse_wf |}.
  - intros W ? [header topics] (? & ? & ?). unfold ListTopicsResponse_Encode, ListTopicsResponse_Decode.
    codec_agree.
  - unfold ListTopicsResponse_Decode, ListTopicsResponse_wf. bounded_walk. bounded_side.
Defined.

#[global] Instance HealthRequest_codec : MessageCodec HealthRequest.
Proof.
  refine {| msg_encode W _ := HealthRequest_Encode; msg_decode := HealthRequest_Decode;
    msg_wf := HealthRequest_wf |}.
  - intros W ? [] _. unfold HealthRequest_Encode, HealthRequest_Decode.
    codec_agree.
  - unfold HealthRequest_Decode, HealthRequest_wf. bounded_walk. bounded_side.
Defined.

#[global] Instance HealthResponse_codec : MessageCodec HealthResponse.
Proof.
  refine {| msg_encode W _ := HealthResponse_Encode; msg_decode := HealthResponse_Decode;
    msg_wf := HealthResponse_wf |}.
  - intros W ? [header broker_id uptime_ms hosted_partitions leader_partitions ready version] (? & ? & ? & ? & ? & ?). unfold HealthResponse_Encode, HealthResponse_Decode.
    codec_agree.
  - unfold HealthResponse_Decode, HealthResponse_wf. bounded_walk. bounded_side.
Defined.

#[global] Instance DescribeClusterRequest_codec : MessageCodec DescribeClusterRequest.
Proof.
  refine {| msg_encode W _ := DescribeClusterRequest_Encode; msg_decode := DescribeClusterRequest_Decode;
    msg_wf := DescribeClusterRequest_wf |}.
  - intros W ? [] _. unfold DescribeClusterRequest_Encode, DescribeClusterRequest_Decode.
    codec_agree.
  - unfold DescribeClusterRequest_Decode, DescribeClusterRequest_wf. bounded_walk. bounded_side.
Defined.

#[global] Instance DescribeClusterResponse_codec : MessageCodec DescribeClusterResponse.
Proof.
  refine {| msg_encode W _ := DescribeClusterResponse_Encode; msg_decode := DescribeClusterResponse_Decode;
    msg_wf := DescribeClusterResponse_wf |}.
  - intros W ? [header controller_id brokers live_brokers] (? & ? & ? & ? & ? & ?). unfold DescribeClusterResponse_Encode, DescribeClusterResponse_Decode.
    codec_agree.
  - unfold DescribeClusterResponse_Decode, DescribeClusterResponse_wf. bounded_walk. bounded_side.
Defined.
