(* ===== verification/MessagesGroup.v ===== *)
(** * MessagesGroup: consumer-group and replication messages

    Models src/protocol/messages_group.cc and the corresponding structs of
    include/pulselog/protocol/messages.h. *)
From S2P Require Import Prelude Status Endian Buffer Codec MessageCodec Types MessagesData MessagesControl.

(** An element of [JoinGroupResponse::assignment]. *)
Definition TopicPartition_wf (tp : TopicPartition) : Prop :=
  string_fits (topic tp) ∧ signed 32 (partition tp) ∧ 0 ≤ partition tp.
Definition TopicPartition_Encode {W} `{!ByteSink W} (tp : TopicPartition) : W → W :=
  PutString (topic tp) ;;>
  PutI32 (partition tp).
Definition TopicPartition_Decode : Getter TopicPartition :=
  let^ topic := GetString in
  let^ partition := GetI32 in
  gguard (negb (partition <? 0)) ;;^
  gret (mkTP topic partition).

Lemma codec_TopicPartition {W} `{!ByteSink W} tp :
  TopicPartition_wf tp → codec (TopicPartition_Encode tp) TopicPartition_Decode tp 6.
Proof.
  destruct tp as [t p]. intros (Ht & Hp & Hp0). cbn [topic partition] in *.
  unfold TopicPartition_Encode, TopicPartition_Decode; cbn [topic partition].
  eapply codec_weaken; cycle 1; [codec_agree|lia].
Qed.
Lemma bounded_TopicPartition : bounded TopicPartition_Decode TopicPartition_wf.
Proof. unfold TopicPartition_Decode, TopicPartition_wf. bounded_walk. cbn [topic partition]. bounded_side. Qed.
#[export] Hint Resolve codec_TopicPartition : message.
#[export] Hint Resolve bounded_TopicPartition : codec.

(** ** JoinGroup *)

Record JoinGroupRequest := mkJoinGroupRequest {
  jgreq_group_id : bytes; jgreq_member_id : bytes; jgreq_topics : list bytes;
  jgreq_session_timeout_ms : Z; jgreq_strategy : AssignmentStrategy }.

Definition JoinGroupRequest_wf (m : JoinGroupRequest) : Prop :=
  let 'mkJoinGroupRequest group_id member_id topics session_timeout_ms strategy := m in
  string_fits group_id ∧ string_fits member_id ∧ Forall string_fits topics ∧
  zlen topics ≤ kMaxArrayElements ∧ signed 32 session_timeout_ms.

Definition JoinGroupRequest_Encode {W} `{!ByteSink W} (m : JoinGroupRequest) : W → W :=
  let 'mkJoinGroupRequest group_id member_id topics session_timeout_ms strategy := m in
  PutString group_id ;;>
  PutString member_id ;;>
  put_array PutString topics ;;>
  PutI32 session_timeout_ms ;;>
  PutU8 (AssignmentStrategy_raw strategy).

Definition JoinGroupRequest_Decode : Getter JoinGroupRequest :=
  let^ group_id := GetString in
  let^ member_id := GetString in
  let^ topics := get_array 2 GetString in
  let^ session_timeout_ms := GetI32 in
  let^ strategy_raw := GetU8 in
  gguard (negb (AssignmentStrategy_raw kRoundRobin <? strategy_raw)) ;;^
  gret (mkJoinGroupRequest group_id member_id topics session_timeout_ms (AssignmentStrategy_of_raw strategy_raw)).

Record JoinGroupResponse := mkJoinGroupResponse {
  jgresp_header : ResponseHeader; jgresp_generation : Z; jgresp_member_id : bytes;
  jgresp_leader_id : bytes; jgresp_assignment : list TopicPartition }.

Definition JoinGroupResponse_wf (m : JoinGroupResponse) : Prop :=
  let 'mkJoinGroupResponse header generation member_id leader_id assignment := m in
  ResponseHeader_wf header ∧ signed 32 generation ∧ string_fits member_id ∧
  string_fits leader_id ∧ Forall TopicPartition_wf assignment ∧
  zlen assignment ≤ kMaxArrayElements.

Definition JoinGroupResponse_Encode {W} `{!ByteSink W} (m : JoinGroupResponse) : W → W :=
  let 'mkJoinGroupResponse header generation member_id leader_id assignment := m in
  ResponseHeader_Encode header ;;>
  PutI32 generation ;;>
  PutString member_id ;;>
  PutString leader_id ;;>
  put_array TopicPartition_Encode assignment.

Definition JoinGroupResponse_Decode : Getter JoinGroupResponse :=
  let^ header := ResponseHeader_Decode in
  let^ generation := GetI32 in
  let^ member_id := GetString in
  let^ leader_id := GetString in
  let^ assignment := get_array 6 TopicPartition_Decode in
  gret (mkJoinGroupResponse header generation member_id leader_id assignment).

(** ** Heartbeat and LeaveGroup *)

Record HeartbeatRequest := mkHeartbeatRequest {
  hbreq_group_id : bytes; hbreq_member_id : bytes; hbreq_generation : Z }.

Definition HeartbeatRequest_wf (m : HeartbeatRequest) : Prop :=
  let 'mkHeartbeatRequest group_id member_id generation := m in
  string_fits group_id ∧ string_fits member_id ∧ signed 32 generation.

Definition HeartbeatRequest_Encode {W} `{!ByteSink W} (m : HeartbeatRequest) : W → W :=
  let 'mkHeartbeatRequest group_id member_id generation := m in
  PutString group_id ;;>
  PutString member_id ;;>
  PutI32 generation.

Definition HeartbeatRequest_Decode : Getter HeartbeatRequest :=
  let^ group_id := GetString in
  let^ member_id := GetString in
  let^ generation := GetI32 in
  gret (mkHeartbeatRequest group_id member_id generation).

Record HeartbeatResponse := mkHeartbeatResponse {
  hbresp_header : ResponseHeader; hbresp_generation : Z; hbresp_rejoin_required : bool }.

Definition HeartbeatResponse_wf (m : HeartbeatResponse) : Prop :=
  let 'mkHeartbeatResponse header generation rejoin_required := m in
  ResponseHeader_wf header ∧ signed 32 generation.

Definition HeartbeatResponse_Encode {W} `{!ByteSink W} (m : HeartbeatResponse) : W → W :=
  let 'mkHeartbeatResponse header generation rejoin_required := m in
  ResponseHeader_Encode header ;;>
  PutI32 generation ;;>
  PutBool rejoin_required.

Definition HeartbeatResponse_Decode : Getter HeartbeatResponse :=
  let^ header := ResponseHeader_Decode in
  let^ generation := GetI32 in
  let^ rejoin_required := GetBool in
  gret (mkHeartbeatResponse header generation rejoin_required).

Record LeaveGroupRequest := mkLeaveGroupRequest {
  lgreq_group_id : bytes; lgreq_member_id : bytes }.

Definition LeaveGroupRequest_wf (m : LeaveGroupRequest) : Prop :=
  let 'mkLeaveGroupRequest group_id member_id := m in
  string_fits group_id ∧ string_fits member_id.

Definition LeaveGroupRequest_Encode {W} `{!ByteSink W} (m : LeaveGroupRequest) : W → W :=
  let 'mkLeaveGroupRequest group_id member_id := m in
  PutString group_id ;;>
  PutString member_id.

Definition LeaveGroupRequest_Decode : Getter LeaveGroupRequest :=
  let^ group_id := GetString in
  let^ member_id := GetString in
  gret (mkLeaveGroupRequest group_id member_id).

Record LeaveGroupResponse := mkLeaveGroupResponse {
  lgresp_header : ResponseHeader }.

Definition LeaveGroupResponse_wf (m : LeaveGroupResponse) : Prop :=
  let 'mkLeaveGroupResponse header := m in
  ResponseHeader_wf header.

Definition LeaveGroupResponse_Encode {W} `{!ByteSink W} (m : LeaveGroupResponse) : W → W :=
  let 'mkLeaveGroupResponse header := m in
  ResponseHeader_Encode header.

Definition LeaveGroupResponse_Decode : Getter LeaveGroupResponse :=
  let^ header := ResponseHeader_Decode in
  gret (mkLeaveGroupResponse header).

(** ** Offset commit and fetch *)

Record CommitOffsetRequest := mkCommitOffsetRequest {
  coreq_group_id : bytes; coreq_member_id : bytes; coreq_generation : Z; coreq_topic : bytes;
  coreq_partition : Z; coreq_offset : Z; coreq_metadata : bytes }.

Definition CommitOffsetRequest_wf (m : CommitOffsetRequest) : Prop :=
  let 'mkCommitOffsetRequest group_id member_id generation topic partition offset metadata := m in
  string_fits group_id ∧ string_fits member_id ∧ signed 32 generation ∧ string_fits topic ∧
  signed 32 partition ∧ 0 ≤ partition ∧ signed 64 offset ∧ string_fits metadata.

Definition CommitOffsetRequest_Encode {W} `{!ByteSink W} (m : CommitOffsetRequest) : W → W :=
  let 'mkCommitOffsetRequest group_id member_id generation topic partition offset metadata := m in
  PutString group_id ;;>
  PutString member_id ;;>
  PutI32 generation ;;>
  PutString topic ;;>
  PutI32 partition ;;>
  PutI64 offset ;;>
  PutString metadata.

Definition CommitOffsetRequest_Decode : Getter CommitOffsetRequest :=
  let^ group_id := GetString in
  let^ member_id := GetString in
  let^ generation := GetI32 in
  let^ topic := GetString in
  let^ partition := GetI32 in
  gguard (negb (partition <? 0)) ;;^
  let^ offset := GetI64 in
  let^ metadata := GetString in
  gret (mkCommitOffsetRequest group_id member_id generation topic partition offset metadata).

Record CommitOffsetResponse := mkCommitOffsetResponse {
  coresp_header : ResponseHeader }.

Definition CommitOffsetResponse_wf (m : CommitOffsetResponse) : Prop :=
  let 'mkCommitOffsetResponse header := m in
  ResponseHeader_wf header.

Definition CommitOffsetResponse_Encode {W} `{!ByteSink W} (m : CommitOffsetResponse) : W → W :=
  let 'mkCommitOffsetResponse header := m in
  ResponseHeader_Encode header.

Definition CommitOffsetResponse_Decode : Getter CommitOffsetResponse :=
  let^ header := ResponseHeader_Decode in
  gret (mkCommitOffsetResponse header).

Record FetchOffsetRequest := mkFetchOffsetRequest {
  foreq_group_id : bytes; foreq_topic : bytes; foreq_partition : Z }.

Definition FetchOffsetRequest_wf (m : FetchOffsetRequest) : Prop :=
  let 'mkFetchOffsetRequest group_id topic partition := m in
  string_fits group_id ∧ string_fits topic ∧ signed 32 partition ∧ 0 ≤ partition.

Definition FetchOffsetRequest_Encode {W} `{!ByteSink W} (m : FetchOffsetRequest) : W → W :=
  let 'mkFetchOffsetRequest group_id topic partition := m in
  PutString group_id ;;>
  PutString topic ;;>
  PutI32 partition.

Definition FetchOffsetRequest_Decode : Getter FetchOffsetRequest :=
  let^ group_id := GetString in
  let^ topic := GetString in
  let^ partition := GetI32 in
  gguard (negb (partition <? 0)) ;;^
  gret (mkFetchOffsetRequest group_id topic partition).

Record FetchOffsetResponse := mkFetchOffsetResponse {
  foresp_header : ResponseHeader; foresp_offset : Z; foresp_metadata : bytes }.

Definition FetchOffsetResponse_wf (m : FetchOffsetResponse) : Prop :=
  let 'mkFetchOffsetResponse header offset metadata := m in
  ResponseHeader_wf header ∧ signed 64 offset ∧ string_fits metadata.

Definition FetchOffsetResponse_Encode {W} `{!ByteSink W} (m : FetchOffsetResponse) : W → W :=
  let 'mkFetchOffsetResponse header offset metadata := m in
  ResponseHeader_Encode header ;;>
  PutI64 offset ;;>
  PutString metadata.

Definition FetchOffsetResponse_Decode : Getter FetchOffsetResponse :=
  let^ header := ResponseHeader_Decode in
  let^ offset := GetI64 in
  let^ metadata := GetString in
  gret (mkFetchOffsetResponse header offset metadata).

(** ** Replication *)

Record ReplicateRequest := mkReplicateRequest {
  rreq_topic : bytes; rreq_partition : Z; rreq_leader_id : Z; rreq_leader_epoch : Z;
  rreq_base_offset : Z; rreq_prev_offset : Z; rreq_leader_high_water_mark : Z;
  rreq_leader_log_start_offset : Z; rreq_record_count : Z; rreq_records : bytes }.

Definition ReplicateRequest_wf (m : ReplicateRequest) : Prop :=
  let 'mkReplicateRequest topic partition leader_id leader_epoch base_offset prev_offset leader_high_water_mark leader_log_start_offset record_count records := m in
  string_fits topic ∧ signed 32 partition ∧ 0 ≤ partition ∧ signed 32 leader_id ∧
  signed 64 leader_epoch ∧ signed 64 base_offset ∧ signed 64 prev_offset ∧
  signed 64 leader_high_water_mark ∧ signed 64 leader_log_start_offset ∧
  unsigned 32 record_count ∧ unsigned 32 (zlen records).

Definition ReplicateRequest_Encode {W} `{!ByteSink W} (m : ReplicateRequest) : W → W :=
  let 'mkReplicateRequest topic partition leader_id leader_epoch base_offset prev_offset leader_high_water_mark leader_log_start_offset record_count records := m in
  PutString topic ;;>
  PutI32 partition ;;>
  PutI32 leader_id ;;>
  PutI64 leader_epoch ;;>
  PutI64 base_offset ;;>
  PutI64 prev_offset ;;>
  PutI64 leader_high_water_mark ;;>
  PutI64 leader_log_start_offset ;;>
  PutU32 record_count ;;>
  PutU32 (u32 (zlen records)) ;;>
  PutRaw records.

Definition ReplicateRequest_Decode : Getter ReplicateRequest :=
  let^ topic := GetString in
  let^ partition := GetI32 in
  let^ leader_id := GetI32 in
  gguard (negb (partition <? 0)) ;;^
  let^ leader_epoch := GetI64 in
  let^ base_offset := GetI64 in
  let^ prev_offset := GetI64 in
  let^ leader_high_water_mark := GetI64 in
  let^ leader_log_start_offset := GetI64 in
  let^ record_count := GetU32 in
  let^ records_len := GetU32 in
  check_remaining records_len ;;^
  let^ records := get_tail records_len in
  gret (mkReplicateRequest topic partition leader_id leader_epoch base_offset prev_offset leader_high_water_mark leader_log_start_offset record_count records).

Record ReplicateResponse := mkReplicateResponse {
  rresp_header : ResponseHeader; rresp_follower_id : Z; rresp_log_end_offset : Z;
  rresp_flushed_offset : Z; rresp_leader_epoch : Z }.

Definition ReplicateResponse_wf (m : ReplicateResponse) : Prop :=
  let 'mkReplicateResponse header follower_id log_end_offset flushed_offset leader_epoch := m in
  ResponseHeader_wf header ∧ signed 32 follower_id ∧ signed 64 log_end_offset ∧
  signed 64 flushed_offset ∧ signed 64 leader_epoch.

Definition ReplicateResponse_Encode {W} `{!ByteSink W} (m : ReplicateResponse) : W → W :=
  let 'mkReplicateResponse header follower_id log_end_offset flushed_offset leader_epoch := m in
  ResponseHeader_Encode header ;;>
  PutI32 follower_id ;;>
  PutI64 log_end_offset ;;>
  PutI64 flushed_offset ;;>
  PutI64 leader_epoch.

Definition ReplicateResponse_Decode : Getter ReplicateResponse :=
  let^ header := ResponseHeader_Decode in
  let^ follower_id := GetI32 in
  let^ log_end_offset := GetI64 in
  let^ flushed_offset := GetI64 in
  let^ leader_epoch := GetI64 in
  gret (mkReplicateResponse header follower_id log_end_offset flushed_offset leader_epoch).

Record ReplicaFetchRequest := mkReplicaFetchRequest {
  rfreq_topic : bytes; rfreq_partition : Z; rfreq_follower_id : Z; rfreq_leader_epoch : Z;
  rfreq_fetch_offset : Z; rfreq_max_bytes : Z }.

Definition ReplicaFetchRequest_wf (m : ReplicaFetchRequest) : Prop :=
  let 'mkReplicaFetchRequest topic partition follower_id leader_epoch fetch_offset max_bytes := m in
  string_fits topic ∧ signed 32 partition ∧ 0 ≤ partition ∧ signed 32 follower_id ∧
  signed 64 leader_epoch ∧ signed 64 fetch_offset ∧ unsigned 32 max_bytes.

Definition ReplicaFetchRequest_Encode {W} `{!ByteSink W} (m : ReplicaFetchRequest) : W → W :=
  let 'mkReplicaFetchRequest topic partition follower_id leader_epoch fetch_offset max_bytes := m in
  PutString topic ;;>
  PutI32 partition ;;>
  PutI32 follower_id ;;>
  PutI64 leader_epoch ;;>
  PutI64 fetch_offset ;;>
  PutU32 max_bytes.

Definition ReplicaFetchRequest_Decode : Getter ReplicaFetchRequest :=
  let^ topic := GetString in
  let^ partition := GetI32 in
  let^ follower_id := GetI32 in
  gguard (negb (partition <? 0)) ;;^
  let^ leader_epoch := GetI64 in
  let^ fetch_offset := GetI64 in
  let^ max_bytes := GetU32 in
  gret (mkReplicaFetchRequest topic partition follower_id leader_epoch fetch_offset max_bytes).

Record ReplicaFetchResponse := mkReplicaFetchResponse {
  rfresp_header : ResponseHeader; rfresp_leader_epoch : Z; rfresp_high_water_mark : Z;
  rfresp_log_start_offset : Z; rfresp_base_offset : Z; rfresp_record_count : Z;
  rfresp_records : bytes }.

Definition ReplicaFetchResponse_wf (m : ReplicaFetchResponse) : Prop :=
  let 'mkReplicaFetchResponse header leader_epoch high_water_mark log_start_offset base_offset record_count records := m in
  ResponseHeader_wf header ∧ signed 64 leader_epoch ∧ signed 64 high_water_mark ∧
  signed 64 log_start_offset ∧ signed 64 base_offset ∧ unsigned 32 record_count ∧
  unsigned 32 (zlen records).

Definition ReplicaFetchResponse_Encode {W} `{!ByteSink W} (m : ReplicaFetchResponse) : W → W :=
  let 'mkReplicaFetchResponse header leader_epoch high_water_mark log_start_offset base_offset record_count records := m in
  ResponseHeader_Encode header ;;>
  PutI64 leader_epoch ;;>
  PutI64 high_water_mark ;;>
  PutI64 log_start_offset ;;>
  PutI64 base_offset ;;>
  PutU32 record_count ;;>
  PutU32 (u32 (zlen records)) ;;>
  PutRaw records.

Definition ReplicaFetchResponse_Decode : Getter ReplicaFetchResponse :=
  let^ header := ResponseHeader_Decode in
  let^ leader_epoch := GetI64 in
  let^ high_water_mark := GetI64 in
  let^ log_start_offset := GetI64 in
  let^ base_offset := GetI64 in
  let^ record_count := GetU32 in
  let^ records_len := GetU32 in
  check_remaining records_len ;;^
  let^ records := get_tail records_len in
  gret (mkReplicaFetchResponse header leader_epoch high_water_mark log_start_offset base_offset record_count records).

Record ReplicaAckRequest := mkReplicaAckRequest {
  rareq_topic : bytes; rareq_partition : Z; rareq_follower_id : Z; rareq_leader_epoch : Z;
  rareq_log_end_offset : Z; rareq_flushed_offset : Z }.

Definition ReplicaAckRequest_wf (m : ReplicaAckRequest) : Prop :=
  let 'mkReplicaAckRequest topic partition follower_id leader_epoch log_end_offset flushed_offset := m in
  string_fits topic ∧ signed 32 partition ∧ 0 ≤ partition ∧ signed 32 follower_id ∧
  signed 64 leader_epoch ∧ signed 64 log_end_offset ∧ signed 64 flushed_offset.

Definition ReplicaAckRequest_Encode {W} `{!ByteSink W} (m : ReplicaAckRequest) : W → W :=
  let 'mkReplicaAckRequest topic partition follower_id leader_epoch log_end_offset flushed_offset := m in
  PutString topic ;;>
  PutI32 partition ;;>
  PutI32 follower_id ;;>
  PutI64 leader_epoch ;;>
  PutI64 log_end_offset ;;>
  PutI64 flushed_offset.

Definition ReplicaAckRequest_Decode : Getter ReplicaAckRequest :=
  let^ topic := GetString in
  let^ partition := GetI32 in
  let^ follower_id := GetI32 in
  gguard (negb (partition <? 0)) ;;^
  let^ leader_epoch := GetI64 in
  let^ log_end_offset := GetI64 in
  let^ flushed_offset := GetI64 in
  gret (mkReplicaAckRequest topic partition follower_id leader_epoch log_end_offset flushed_offset).

Record ReplicaAckResponse := mkReplicaAckResponse {
  raresp_header : ResponseHeader; raresp_high_water_mark : Z }.

Definition ReplicaAckResponse_wf (m : ReplicaAckResponse) : Prop :=
  let 'mkReplicaAckResponse header high_water_mark := m in
  ResponseHeader_wf header ∧ signed 64 high_water_mark.

Definition ReplicaAckResponse_Encode {W} `{!ByteSink W} (m : ReplicaAckResponse) : W → W :=
  let 'mkReplicaAckResponse header high_water_mark := m in
  ResponseHeader_Encode header ;;>
  PutI64 high_water_mark.

Definition ReplicaAckResponse_Decode : Getter ReplicaAckResponse :=
  let^ header := ResponseHeader_Decode in
  let^ high_water_mark := GetI64 in
  gret (mkReplicaAckResponse header high_water_mark).

(** ** Every message keeps the codec contract *)

#[global] Instance JoinGroupRequest_codec : MessageCodec JoinGroupRequest.
Proof.
  refine {| msg_encode W _ := JoinGroupRequest_Encode; msg_decode := JoinGroupRequest_Decode;
    msg_wf := JoinGroupRequest_wf |}.
  - intros W ? [group_id member_id topics session_timeout_ms strategy] (? & ? & ? & ? & ?). unfold JoinGroupRequest_Encode, JoinGroupRequest_Decode.
    codec_agree. by destruct strategy.
  - unfold JoinGroupRequest_Decode, JoinGroupRequest_wf. bounded_walk. bounded_side.
Defined.

#[global] Instance JoinGroupResponse_codec : MessageCodec JoinGroupResponse.
Proof.
  refine {| msg_encode W _ := JoinGroupResponse_Encode; msg_decode := JoinGroupResponse_Decode;
    msg_wf := JoinGroupResponse_wf |}.
  - intros W ? [header generation member_id leader_id assignment] (? & ? & ? & ? & ? & ?). unfold JoinGroupResponse_Encode, JoinGroupResponse_Decode.
    codec_agree.
  - unfold JoinGroupResponse_Decode, JoinGroupResponse_wf. bounded_walk. bounded_side.
Defined.

#[global] Instance HeartbeatRequest_codec : MessageCodec HeartbeatRequest.
Proof.
  refine {| msg_encode W _ := HeartbeatRequest_Encode; msg_decode := HeartbeatRequest_Decode;
    msg_wf := HeartbeatRequest_wf |}.
  - intros W ? [group_id member_id generation] (? & ? & ?). unfold HeartbeatRequest_Encode, HeartbeatRequest_Decode.
    codec_agree.
  - unfold HeartbeatRequest_Decode, HeartbeatRequest_wf. bounded_walk. bounded_side.
Defined.

#[global] Instance HeartbeatResponse_codec : MessageCodec HeartbeatResponse.
Proof.
  refine {| msg_encode W _ := HeartbeatResponse_Encode; msg_decode := HeartbeatResponse_Decode;
    msg_wf := HeartbeatResponse_wf |}.
  - intros W ? [header generation rejoin_required] (? & ?). unfold HeartbeatResponse_Encode, HeartbeatResponse_Decode.
    codec_agree.
  - unfold HeartbeatResponse_Decode, HeartbeatResponse_wf. bounded_walk. bounded_side.
Defined.

#[global] Instance LeaveGroupRequest_codec : MessageCodec LeaveGroupRequest.
Proof.
  refine {| msg_encode W _ := LeaveGroupRequest_Encode; msg_decode := LeaveGroupRequest_Decode;
    msg_wf := LeaveGroupRequest_wf |}.
  - intros W ? [group_id member_id] (? & ?). unfold LeaveGroupRequest_Encode, LeaveGroupRequest_Decode.
    codec_agree.
  - unfold LeaveGroupRequest_Decode, LeaveGroupRequest_wf. bounded_walk. bounded_side.
Defined.

#[global] Instance LeaveGroupResponse_codec : MessageCodec LeaveGroupResponse.
Proof.
  refine {| msg_encode W _ := LeaveGroupResponse_Encode; msg_decode := LeaveGroupResponse_Decode;
    msg_wf := LeaveGroupResponse_wf |}.
  - intros W ? [header] ?. unfold LeaveGroupResponse_Encode, LeaveGroupResponse_Decode.
    codec_agree.
  - unfold LeaveGroupResponse_Decode, LeaveGroupResponse_wf. bounded_walk. bounded_side.
Defined.

#[global] Instance CommitOffsetRequest_codec : MessageCodec CommitOffsetRequest.
Proof.
  refine {| msg_encode W _ := CommitOffsetRequest_Encode; msg_decode := CommitOffsetRequest_Decode;
    msg_wf := CommitOffsetRequest_wf |}.
  - intros W ? [group_id member_id generation topic partition offset metadata] (? & ? & ? & ? & ? & ? & ? & ?). unfold CommitOffsetRequest_Encode, CommitOffsetRequest_Decode.
    codec_agree.
  - unfold CommitOffsetRequest_Decode, CommitOffsetRequest_wf. bounded_walk. bounded_side.
Defined.

#[global] Instance CommitOffsetResponse_codec : MessageCodec CommitOffsetResponse.
Proof.
  refine {| msg_encode W _ := CommitOffsetResponse_Encode; msg_decode := CommitOffsetResponse_Decode;
    msg_wf := CommitOffsetResponse_wf |}.
  - intros W ? [header] ?. unfold CommitOffsetResponse_Encode, CommitOffsetResponse_Decode.
    codec_agree.
  - unfold CommitOffsetResponse_Decode, CommitOffsetResponse_wf. bounded_walk. bounded_side.
Defined.

#[global] Instance FetchOffsetRequest_codec : MessageCodec FetchOffsetRequest.
Proof.
  refine {| msg_encode W _ := FetchOffsetRequest_Encode; msg_decode := FetchOffsetRequest_Decode;
    msg_wf := FetchOffsetRequest_wf |}.
  - intros W ? [group_id topic partition] (? & ? & ? & ?). unfold FetchOffsetRequest_Encode, FetchOffsetRequest_Decode.
    codec_agree.
  - unfold FetchOffsetRequest_Decode, FetchOffsetRequest_wf. bounded_walk. bounded_side.
Defined.

#[global] Instance FetchOffsetResponse_codec : MessageCodec FetchOffsetResponse.
Proof.
  refine {| msg_encode W _ := FetchOffsetResponse_Encode; msg_decode := FetchOffsetResponse_Decode;
    msg_wf := FetchOffsetResponse_wf |}.
  - intros W ? [header offset metadata] (? & ? & ?). unfold FetchOffsetResponse_Encode, FetchOffsetResponse_Decode.
    codec_agree.
  - unfold FetchOffsetResponse_Decode, FetchOffsetResponse_wf. bounded_walk. bounded_side.
Defined.

#[global] Instance ReplicateRequest_codec : MessageCodec ReplicateRequest.
Proof.
  refine {| msg_encode W _ := ReplicateRequest_Encode; msg_decode := ReplicateRequest_Decode;
    msg_wf := ReplicateRequest_wf |}.
  - intros W ? [topic partition leader_id leader_epoch base_offset prev_offset leader_high_water_mark leader_log_start_offset record_count records] (? & ? & ? & ? & ? & ? & ? & ? & ? & ? & ?). unfold ReplicateRequest_Encode, ReplicateRequest_Decode.
    codec_agree.
  - unfold ReplicateRequest_Decode, ReplicateRequest_wf. bounded_walk. bounded_side.
Defined.

#[global] Instance ReplicateResponse_codec : MessageCodec ReplicateResponse.
Proof.
  refine {| msg_encode W _ := ReplicateResponse_Encode; msg_decode := ReplicateResponse_Decode;
    msg_wf := ReplicateResponse_wf |}.
  - intros W ? [header follower_id log_end_offset flushed_offset leader_epoch] (? & ? & ? & ? & ?). unfold ReplicateResponse_Encode, ReplicateResponse_Decode.
    codec_agree.
  - unfold ReplicateResponse_Decode, ReplicateResponse_wf. bounded_walk. bounded_side.
Defined.

#[global] Instance ReplicaFetchRequest_codec : MessageCodec ReplicaFetchRequest.
Proof.
  refine {| msg_encode W _ := ReplicaFetchRequest_Encode; msg_decode := ReplicaFetchRequest_Decode;
    msg_wf := ReplicaFetchRequest_wf |}.
  - intros W ? [topic partition follower_id leader_epoch fetch_offset max_bytes] (? & ? & ? & ? & ? & ? & ?). unfold ReplicaFetchRequest_Encode, ReplicaFetchRequest_Decode.
    codec_agree.
  - unfold ReplicaFetchRequest_Decode, ReplicaFetchRequest_wf. bounded_walk. bounded_side.
Defined.

#[global] Instance ReplicaFetchResponse_codec : MessageCodec ReplicaFetchResponse.
Proof.
  refine {| msg_encode W _ := ReplicaFetchResponse_Encode; msg_decode := ReplicaFetchResponse_Decode;
    msg_wf := ReplicaFetchResponse_wf |}.
  - intros W ? [header leader_epoch high_water_mark log_start_offset base_offset record_count records] (? & ? & ? & ? & ? & ? & ?). unfold ReplicaFetchResponse_Encode, ReplicaFetchResponse_Decode.
    codec_agree.
  - unfold ReplicaFetchResponse_Decode, ReplicaFetchResponse_wf. bounded_walk. bounded_side.
Defined.

#[global] Instance ReplicaAckRequest_codec : MessageCodec ReplicaAckRequest.
Proof.
  refine {| msg_encode W _ := ReplicaAckRequest_Encode; msg_decode := ReplicaAckRequest_Decode;
    msg_wf := ReplicaAckRequest_wf |}.
  - intros W ? [topic partition follower_id leader_epoch log_end_offset flushed_offset] (? & ? & ? & ? & ? & ? & ?). unfold ReplicaAckRequest_Encode, ReplicaAckRequest_Decode.
    codec_agree.
  - unfold ReplicaAckRequest_Decode, ReplicaAckRequest_wf. bounded_walk. bounded_side.
Defined.

#[global] Instance ReplicaAckResponse_codec : MessageCodec ReplicaAckResponse.
Proof.
  refine {| msg_encode W _ := ReplicaAckResponse_Encode; msg_decode := ReplicaAckResponse_Decode;
    msg_wf := ReplicaAckResponse_wf |}.
  - intros W ? [header high_water_mark] (? & ?). unfold ReplicaAckResponse_Encode, ReplicaAckResponse_Decode.
    codec_agree.
  - unfold ReplicaAckResponse_Decode, ReplicaAckResponse_wf. bounded_walk. bounded_side.
Defined.
