(* ===== verification/MessageSize.v ===== *)
(** * MessageSize: a decoded message is no larger than what it was decoded from

    Two facts about the decoders of the message files on arbitrary input.  The number of
    elements an array announces, which the decoder reserves room for before it reads them,
    is one the unread bytes can hold ([announced_fits]).  And a message that decodes has an
    encoding no longer than the bytes its decoder consumed ([payload_compact] in [Messages]
    puts the messages together), so its strings, arrays and record areas all fit the input. *)
From S2P Require Import Prelude Endian Buffer Codec MessageCodec Types MessagesData MessagesControl MessagesGroup.

(** ** Taking a decoder apart *)

Lemma gbind_some {A B} (g : Getter A) (k : A → Getter B) r b r' : gbind g k r = (Some b, r') → ∃ a r1, g r = (Some a, r1) ∧ k a r1 = (Some b, r').
Proof. unfold gbind. destruct (g r) as [[a|] r1]; [|done]. intros H. by exists a, r1. Qed.
Lemma gguard_some {B} b (k : unit → Getter B) r x r' : gbind (gguard b) k r = (Some x, r') → b = true ∧ k tt r = (Some x, r').
Proof. destruct b; cbn; [done|]. unfold gbind, greject. done. Qed.
Lemma check_some {B} n (k : unit → Getter B) r x r' : gbind (check_remaining n) k r = (Some x, r') → n ≤ Remaining r ∧ k tt r = (Some x, r').
Proof.
  unfold check_remaining, gbind, gremaining, gguard. destruct (Z.ltb_spec (Remaining r) n); cbn; [done|]. by intros ->.
Qed.
Ltac peel :=
  repeat match goal with
  | H : gbind (gguard _) _ _ = (Some _, _) |- _ => apply gguard_some in H as [? H]
  | H : gbind (check_remaining _) _ _ = (Some _, _) |- _ => apply check_some in H as [? H]
  | H : gbind _ _ _ = (Some _, _) |- _ => let a := fresh "a" in let r := fresh "r" in let E := fresh "E" in apply gbind_some in H as (a & r & E & H); cbv beta zeta in H
  | H : gret _ _ = (Some _, _) |- _ => unfold gret in H; injection H as <- <-
  end.

(** ** Announced counts *)

(** [GetArrayLen(count, ElementBudget(r, min))], which [out.reserve(count)] follows. *)
Lemma announced_fits k r n r' : 0 < k → reader_wf r → GetArrayLen (ElementBudget k r) r = (Some n, r') →
  0 ≤ n ≤ kMaxArrayElements ∧ k * n ≤ Remaining r.
Proof.
  intros Hk Hr HE. pose proof (bounded_GetArrayLen (ElementBudget k r) r Hr) as (_ & _ & HB). rewrite HE in HB. destruct (HB n eq_refl) as [H0 Hn].
  unfold ElementBudget in Hn. change kMaxArrayElements with 1048576 in *. destruct (Z.eqb_spec k 0); [lia|]. destruct Hr as [Hr _].
  assert (HR : 0 ≤ Remaining r) by (unfold Remaining; lia). pose proof (Z.div_pos (Remaining r) k HR Hk). pose proof (Z.mul_div_le (Remaining r) k Hk).
  destruct (Z.ltb_spec (Remaining r / k) 1048576); rewrite uwrap_small in Hn by (unfold unsigned; lia); split; nia.
Qed.

(** ** What a getter consumes *)

(** [g] has consumed [n] bytes and stayed inside. *)
Definition consumed (n : Z) (r r' : PayloadReader) : Prop := reader_wf r' ∧ rpos r' = rpos r + n.
Lemma eats_take n r b r' : reader_wf r → 0 ≤ n → take_bytes n r = (Some b, r') → consumed n r r' ∧ zlen b = n.
Proof.
  intros [H1 H2] Hn. unfold take_bytes, Remaining. destruct (Z.ltb_spec (zlen (rdata r) - rpos r) n); [done|]. intros [= <- <-].
  split; [split; [split; cbn; [lia|done]|done]|]. unfold slice. rewrite zlen_ztake, zlen_zdrop; lia.
Qed.
Lemma eats_fixed {A} n (h : bytes → A) r x r' : reader_wf r → 0 ≤ n → (let^ b := take_bytes n in gret (h b)) r = (Some x, r') → consumed n r r'.
Proof. intros Hr Hn H. peel. by eapply eats_take. Qed.
Lemma eats_U8 r x r' : reader_wf r → GetU8 r = (Some x, r') → consumed 1 r r'.
Proof. intros Hr. by apply eats_fixed. Qed.
Lemma eats_U16 r x r' : reader_wf r → GetU16 r = (Some x, r') → consumed 2 r r'.
Proof. intros Hr. by apply eats_fixed. Qed.
Lemma eats_U32 r x r' : reader_wf r → GetU32 r = (Some x, r') → consumed 4 r r'.
Proof. intros Hr. by apply eats_fixed. Qed.
Lemma eats_U64 r x r' : reader_wf r → GetU64 r = (Some x, r') → consumed 8 r r'.
Proof. intros Hr. by apply eats_fixed. Qed.
Lemma eats_I16 r x r' : reader_wf r → GetI16 r = (Some x, r') → consumed 2 r r'.
Proof. intros Hr H. unfold GetI16 in H. peel. by eapply eats_U16. Qed.
Lemma eats_I32 r x r' : reader_wf r → GetI32 r = (Some x, r') → consumed 4 r r'.
Proof. intros Hr H. unfold GetI32 in H. peel. by eapply eats_U32. Qed.
Lemma eats_I64 r x r' : reader_wf r → GetI64 r = (Some x, r') → consumed 8 r r'.
Proof. intros Hr H. unfold GetI64 in H. peel. by eapply eats_U64. Qed.
Lemma eats_Bool r x r' : reader_wf r → GetBool r = (Some x, r') → consumed 1 r r'.
Proof. intros Hr H. unfold GetBool in H. peel. by eapply eats_U8. Qed.
Lemma eats_String r s r' : reader_wf r → GetString r = (Some s, r') → consumed (2 + zlen s) r r'.
Proof.
  intros Hr H. unfold GetString in H. peel. destruct (eats_U16 _ _ _ Hr E) as [Hw Hp].
  destruct (bounded_GetU16 r Hr) as (_ & _ & HB). rewrite E in HB. destruct (HB a eq_refl) as [H0 _].
  destruct (eats_take _ _ _ _ Hw H0 H) as [[Hw' Hp'] <-]. split; [done|lia].
Qed.
(** The record area: the announced length is there. *)
Lemma eats_tail n r b r' : reader_wf r → n ≤ Remaining r → get_tail n r = (Some b, r') → reader_wf r' ∧ zlen b ≤ rpos r' - rpos r.
Proof.
  intros [H1 H2] Hn H. unfold get_tail, GetRemaining, gbind, gret in H. injection H as <- <-. unfold Remaining in Hn.
  split; [split; cbn; [lia|done]|]. cbn. rewrite zlen_ztake, zlen_zdrop; lia.
Qed.

(** ** Encodings *)

Section Sized.
Context {W : Type} `{!ByteSink W}.

(** [f] appends at most [n] bytes. *)
Definition sized (f : W → W) (n : Z) : Prop := ∃ bs, appends f bs ∧ zlen bs ≤ n.
Lemma sized_weaken f n n' : sized f n → n ≤ n' → sized f n'.
Proof. intros (bs & H1 & H2) Hn. exists bs. split; [done|lia]. Qed.
Lemma sized_seq f g n m : sized f n → sized g m → sized (f ;;> g) (n + m).
Proof. intros (bs & H1 & H2) (cs & H3 & H4). exists (bs ++ cs). split; [by apply (appends_seq f g)|]. rewrite zlen_app. lia. Qed.
Lemma sized_skip : sized wskip 0.
Proof. exists []. split; [apply appends_id|done]. Qed.
Lemma sized_U8 v : sized (PutU8 v) 1.
Proof. eexists. split; [apply appends_U8|done]. Qed.
Lemma sized_U16 v : sized (PutU16 v) 2.
Proof. eexists. split; [apply appends_U16|done]. Qed.
Lemma sized_U32 v : sized (PutU32 v) 4.
Proof. eexists. split; [apply appends_U32|done]. Qed.
Lemma sized_U64 v : sized (PutU64 v) 8.
Proof. eexists. split; [apply appends_U64|done]. Qed.
Lemma sized_String s : sized (PutString s) (2 + zlen s).
Proof. eexists. split; [apply appends_string|]. rewrite zlen_app. change (zlen (StoreLe 2 _)) with 2. lia. Qed.
Lemma sized_Raw s : sized (PutRaw s) (zlen s).
Proof. eexists. split; [apply appends_append|done]. Qed.

(** What [g] yields is encoded in no more bytes than [g] has consumed. *)
Definition compact {A} (put : A → W → W) (g : Getter A) : Prop := ∀ r x r',
  reader_wf r → g r = (Some x, r') → reader_wf r' ∧ sized (put x) (rpos r' - rpos r).

Lemma compact_many {A} (put : A → W → W) (g : Getter A) n : compact put g → compact (put_all put) (get_many g n).
Proof.
  intros Hg. induction n as [|n IH]; intros r xs r' Hr H; cbn [get_many] in H; peel; [split; [done|]; eapply sized_weaken; [apply sized_skip|lia]|].
  destruct (Hg _ _ _ Hr E) as [Hr1 H1]. destruct (IH _ _ _ Hr1 E0) as [Hr2 H2]. split; [done|].
  eapply sized_weaken; [exact (sized_seq (put a) (put_all put a0) _ _ H1 H2)|lia].
Qed.
Lemma compact_array {A} (put : A → W → W) (g : Getter A) k : compact put g → compact (put_array put) (get_array k g).
Proof.
  intros Hg r xs r' Hr H. unfold get_array in H. peel. assert (HU : consumed 4 r r0).
  { unfold GetArrayLen in E. peel. destruct (_ <? _); [done|]. peel. by eapply eats_U32. }
  destruct HU as [Hr0 Hp]. destruct (compact_many put g _ Hg _ _ _ Hr0 H) as [Hr' Hs]. split; [done|].
  eapply sized_weaken; [apply sized_seq; [apply sized_U32|exact Hs]|lia].
Qed.
End Sized.

Create HintDb sized.
#[export] Hint Resolve sized_skip sized_U8 sized_U16 sized_U32 sized_U64 sized_String sized_Raw : sized.
#[export] Hint Extern 1 (sized (PutI16 _) _) => apply sized_U16 : sized.
#[export] Hint Extern 1 (sized (PutI32 _) _) => apply sized_U32 : sized.
#[export] Hint Extern 1 (sized (PutI64 _) _) => apply sized_U64 : sized.
#[export] Hint Extern 1 (sized (PutBool _) _) => apply sized_U8 : sized.
Create HintDb compact.
#[export] Hint Resolve compact_array : compact.

(** Turns what each getter returned into what it has consumed, from the first to the last. *)
Ltac consume :=
  repeat match goal with
  | Hr : reader_wf ?r, E : GetU8 ?r = (Some _, _) |- _ => apply (eats_U8 _ _ _ Hr) in E as [? E]
  | Hr : reader_wf ?r, E : GetU16 ?r = (Some _, _) |- _ => apply (eats_U16 _ _ _ Hr) in E as [? E]
  | Hr : reader_wf ?r, E : GetU32 ?r = (Some _, _) |- _ => apply (eats_U32 _ _ _ Hr) in E as [? E]
  | Hr : reader_wf ?r, E : GetI16 ?r = (Some _, _) |- _ => apply (eats_I16 _ _ _ Hr) in E as [? E]
  | Hr : reader_wf ?r, E : GetI32 ?r = (Some _, _) |- _ => apply (eats_I32 _ _ _ Hr) in E as [? E]
  | Hr : reader_wf ?r, E : GetI64 ?r = (Some _, _) |- _ => apply (eats_I64 _ _ _ Hr) in E as [? E]
  | Hr : reader_wf ?r, E : GetBool ?r = (Some _, _) |- _ => apply (eats_Bool _ _ _ Hr) in E as [? E]
  | Hr : reader_wf ?r, E : GetString ?r = (Some _, _) |- _ => apply (eats_String _ _ _ Hr) in E as [? E]
  | Hr : reader_wf ?r, Hn : ?n ≤ Remaining ?r, E : get_tail ?n ?r = (Some _, _) |- _ => apply (eats_tail _ _ _ _ Hr Hn) in E as [? E]
  | Hr : reader_wf ?r, E : ?g ?r = (Some ?x, _) |- _ ∧ sized (W := ?W) _ _ =>
      let H := fresh "H" in
      eassert (H : compact (W := W) _ g); [solve [eauto with compact]|];
      specialize (H r x _ Hr E); clear E; destruct H as [? H]
  end.
Ltac sized_walk :=
  lazymatch goal with
  | |- sized (_ ;;> _) _ => eapply sized_seq; [first [eassumption | solve [eauto with sized]] | sized_walk]
  | |- sized _ _ => first [eassumption | solve [eauto with sized]]
  end.
(** A decoder, unfolded, against its encoder. *)
Tactic Notation "compact_walk" reference(Enc) reference(Dec) :=
  let r := fresh "r" in let x := fresh "x" in let r' := fresh "r'" in let Hr := fresh "Hr" in let H := fresh "H" in
  intros r x r' Hr H; unfold Dec in H; peel; consume; (split; [assumption|]); unfold Enc; (eapply sized_weaken; [sized_walk|cbn [error_message topic]; lia]).

(** ** Every message *)

Section Messages.
Context {W : Type} `{!ByteSink W}.
Lemma compact_empty {A} (a : A) : compact (W := W) (λ _, wskip) (gret a).
Proof. intros r x r' Hr H. injection H as _ <-. split; [done|]. eapply sized_weaken; [apply sized_skip|lia]. Qed.
Lemma compact_I32 : compact (W := W) PutI32 GetI32.
Proof. intros r x r' Hr H. consume. split; [done|]. eapply sized_weaken; [apply sized_U32|lia]. Qed.
Lemma compact_String : compact (W := W) PutString GetString.
Proof. intros r x r' Hr H. consume. split; [done|]. eapply sized_weaken; [apply sized_String|lia]. Qed.
#[local] Hint Resolve compact_I32 compact_String : compact.
Lemma compact_ResponseHeader : compact (W := W) ResponseHeader_Encode ResponseHeader_Decode.
Proof. compact_walk ResponseHeader_Encode ResponseHeader_Decode. Qed.
#[local] Hint Resolve compact_ResponseHeader : compact.
Lemma compact_ProduceRequest : compact (W := W) ProduceRequest_Encode ProduceRequest_Decode.
Proof. compact_walk ProduceRequest_Encode ProduceRequest_Decode. Qed.
Lemma compact_ProduceResponse : compact (W := W) ProduceResponse_Encode ProduceResponse_Decode.
Proof. compact_walk ProduceResponse_Encode ProduceResponse_Decode. Qed.
Lemma compact_FetchRequest : compact (W := W) FetchRequest_Encode FetchRequest_Decode.
Proof. compact_walk FetchRequest_Encode FetchRequest_Decode. Qed.
Lemma compact_FetchResponse : compact (W := W) FetchResponse_Encode FetchResponse_Decode.
Proof. compact_walk FetchResponse_Encode FetchResponse_Decode. Qed.
Lemma compact_ListOffsetsRequest : compact (W := W) ListOffsetsRequest_Encode ListOffsetsRequest_Decode.
Proof. compact_walk ListOffsetsRequest_Encode ListOffsetsRequest_Decode. Qed.
Lemma compact_ListOffsetsResponse : compact (W := W) ListOffsetsResponse_Encode ListOffsetsResponse_Decode.
Proof. compact_walk ListOffsetsResponse_Encode ListOffsetsResponse_Decode. Qed.
Lemma compact_CreateTopicRequest : compact (W := W) CreateTopicRequest_Encode CreateTopicRequest_Decode.
Proof. compact_walk CreateTopicRequest_Encode CreateTopicRequest_Decode. Qed.
Lemma compact_CreateTopicResponse : compact (W := W) CreateTopicResponse_Encode CreateTopicResponse_Decode.
Proof. compact_walk CreateTopicResponse_Encode CreateTopicResponse_Decode. Qed.
Lemma compact_DeleteTopicRequest : compact (W := W) DeleteTopicRequest_Encode DeleteTopicRequest_Decode.
Proof. compact_walk DeleteTopicRequest_Encode DeleteTopicRequest_Decode. Qed.
Lemma compact_DeleteTopicResponse : compact (W := W) DeleteTopicResponse_Encode DeleteTopicResponse_Decode.
Proof. compact_walk DeleteTopicResponse_Encode DeleteTopicResponse_Decode. Qed.
Lemma compact_BrokerEndpoint : compact (W := W) BrokerEndpoint_Encode BrokerEndpoint_Decode.
Proof. compact_walk BrokerEndpoint_Encode BrokerEndpoint_Decode. Qed.
#[local] Hint Resolve compact_BrokerEndpoint : compact.
Lemma compact_BrokerIds : compact (W := W) EncodeBrokerIds DecodeBrokerIds.
Proof. unfold EncodeBrokerIds, DecodeBrokerIds. eauto with compact. Qed.
#[local] Hint Resolve compact_BrokerIds : compact.
Lemma compact_PartitionMetadata : compact (W := W) PartitionMetadata_Encode PartitionMetadata_Decode.
Proof. compact_walk PartitionMetadata_Encode PartitionMetadata_Decode. Qed.
#[local] Hint Resolve compact_PartitionMetadata : compact.
Lemma compact_TopicMetadata : compact (W := W) TopicMetadata_Encode TopicMetadata_Decode.
Proof. compact_walk TopicMetadata_Encode TopicMetadata_Decode. Qed.
#[local] Hint Resolve compact_TopicMetadata : compact.
Lemma compact_MetadataRequest : compact (W := W) MetadataRequest_Encode MetadataRequest_Decode.
Proof. compact_walk MetadataRequest_Encode MetadataRequest_Decode. Qed.
Lemma compact_MetadataResponse : compact (W := W) MetadataResponse_Encode MetadataResponse_Decode.
Proof. compact_walk MetadataResponse_Encode MetadataResponse_Decode. Qed.
Lemma compact_ListTopicsRequest : compact (W := W) ListTopicsRequest_Encode ListTopicsRequest_Decode.
Proof. apply compact_empty. Qed.
Lemma compact_TopicSummary : compact (W := W) TopicSummary_Encode TopicSummary_Decode.
Proof. compact_walk TopicSummary_Encode TopicSummary_Decode. Qed.
#[local] Hint Resolve compact_TopicSummary : compact.
Lemma compact_ListTopicsResponse : compact (W := W) ListTopicsResponse_Encode ListTopicsResponse_Decode.
Proof. compact_walk ListTopicsResponse_Encode ListTopicsResponse_Decode. Qed.
Lemma compact_HealthRequest : compact (W := W) HealthRequest_Encode HealthRequest_Decode.
Proof. apply compact_empty. Qed.
Lemma compact_HealthResponse : compact (W := W) HealthResponse_Encode HealthResponse_Decode.
Proof. compact_walk HealthResponse_Encode HealthResponse_Decode. Qed.
Lemma compact_DescribeClusterRequest : compact (W := W) DescribeClusterRequest_Encode DescribeClusterRequest_Decode.
Proof. apply compact_empty. Qed.
Lemma compact_DescribeClusterResponse : compact (W := W) DescribeClusterResponse_Encode DescribeClusterResponse_Decode.
Proof. compact_walk DescribeClusterResponse_Encode DescribeClusterResponse_Decode. Qed.
Lemma compact_TopicPartition : compact (W := W) TopicPartition_Encode TopicPartition_Decode.
Proof. compact_walk TopicPartition_Encode TopicPartition_Decode. Qed.
#[local] Hint Resolve compact_TopicPartition : compact.
Lemma compact_JoinGroupRequest : compact (W := W) JoinGroupRequest_Encode JoinGroupRequest_Decode.
Proof. compact_walk JoinGroupRequest_Encode JoinGroupRequest_Decode. Qed.
Lemma compact_JoinGroupResponse : compact (W := W) JoinGroupResponse_Encode JoinGroupResponse_Decode.
Proof. compact_walk JoinGroupResponse_Encode JoinGroupResponse_Decode. Qed.
Lemma compact_HeartbeatRequest : compact (W := W) HeartbeatRequest_Encode HeartbeatRequest_Decode.
Proof. compact_walk HeartbeatRequest_Encode HeartbeatRequest_Decode. Qed.
Lemma compact_HeartbeatResponse : compact (W := W) HeartbeatResponse_Encode HeartbeatResponse_Decode.
Proof. compact_walk HeartbeatResponse_Encode HeartbeatResponse_Decode. Qed.
Lemma compact_LeaveGroupRequest : compact (W := W) LeaveGroupRequest_Encode LeaveGroupRequest_Decode.
Proof. compact_walk LeaveGroupRequest_Encode LeaveGroupRequest_Decode. Qed.
Lemma compact_LeaveGroupResponse : compact (W := W) LeaveGroupResponse_Encode LeaveGroupResponse_Decode.
Proof. compact_walk LeaveGroupResponse_Encode LeaveGroupResponse_Decode. Qed.
Lemma compact_CommitOffsetRequest : compact (W := W) CommitOffsetRequest_Encode CommitOffsetRequest_Decode.
Proof. compact_walk CommitOffsetRequest_Encode CommitOffsetRequest_Decode. Qed.
Lemma compact_CommitOffsetResponse : compact (W := W) CommitOffsetResponse_Encode CommitOffsetResponse_Decode.
Proof. compact_walk CommitOffsetResponse_Encode CommitOffsetResponse_Decode. Qed.
Lemma compact_FetchOffsetRequest : compact (W := W) FetchOffsetRequest_Encode FetchOffsetRequest_Decode.
Proof. compact_walk FetchOffsetRequest_Encode FetchOffsetRequest_Decode. Qed.
Lemma compact_FetchOffsetResponse : compact (W := W) FetchOffsetResponse_Encode FetchOffsetResponse_Decode.
Proof. compact_walk FetchOffsetResponse_Encode FetchOffsetResponse_Decode. Qed.
Lemma compact_ReplicateRequest : compact (W := W) ReplicateRequest_Encode ReplicateRequest_Decode.
Proof. compact_walk ReplicateRequest_Encode ReplicateRequest_Decode. Qed.
Lemma compact_ReplicateResponse : compact (W := W) ReplicateResponse_Encode ReplicateResponse_Decode.
Proof. compact_walk ReplicateResponse_Encode ReplicateResponse_Decode. Qed.
Lemma compact_ReplicaFetchRequest : compact (W := W) ReplicaFetchRequest_Encode ReplicaFetchRequest_Decode.
Proof. compact_walk ReplicaFetchRequest_Encode ReplicaFetchRequest_Decode. Qed.
Lemma compact_ReplicaFetchResponse : compact (W := W) ReplicaFetchResponse_Encode ReplicaFetchResponse_Decode.
Proof. compact_walk ReplicaFetchResponse_Encode ReplicaFetchResponse_Decode. Qed.
Lemma compact_ReplicaAckRequest : compact (W := W) ReplicaAckRequest_Encode ReplicaAckRequest_Decode.
Proof. compact_walk ReplicaAckRequest_Encode ReplicaAckRequest_Decode. Qed.
Lemma compact_ReplicaAckResponse : compact (W := W) ReplicaAckResponse_Encode ReplicaAckResponse_Decode.
Proof. compact_walk ReplicaAckResponse_Encode ReplicaAckResponse_Decode. Qed.
End Messages.
