(* ===== verification/Messages.v ===== *)
(** * Messages: the payload of every operation

    The message structs of include/pulselog/protocol/messages.h as one family:
    [payload k] is the struct a message of kind [k] decodes into.  The theorems
    here hold for every message of the protocol at once; the work is in the
    [MessageCodec] instances of the three message files. *)
From S2P Require Import Prelude Status Endian Buffer Codec MessageCodec Types MessagesData MessagesControl MessagesGroup MessageSize.

Inductive MessageKind : Set :=
  | KProduceRequest | KProduceResponse | KFetchRequest | KFetchResponse | KListOffsetsRequest
  | KListOffsetsResponse | KCreateTopicRequest | KCreateTopicResponse | KDeleteTopicRequest
  | KDeleteTopicResponse | KMetadataRequest | KMetadataResponse | KListTopicsRequest
  | KListTopicsResponse | KHealthRequest | KHealthResponse | KDescribeClusterRequest
  | KDescribeClusterResponse | KJoinGroupRequest | KJoinGroupResponse | KHeartbeatRequest
  | KHeartbeatResponse | KLeaveGroupRequest | KLeaveGroupResponse | KCommitOffsetRequest
  | KCommitOffsetResponse | KFetchOffsetRequest | KFetchOffsetResponse | KReplicateRequest
  | KReplicateResponse | KReplicaFetchRequest | KReplicaFetchResponse | KReplicaAckRequest
  | KReplicaAckResponse.

Definition payload (k : MessageKind) : Type :=
  match k with
  | KProduceRequest => ProduceRequest | KProduceResponse => ProduceResponse
  | KFetchRequest => FetchRequest | KFetchResponse => FetchResponse
  | KListOffsetsRequest => ListOffsetsRequest | KListOffsetsResponse => ListOffsetsResponse
  | KCreateTopicRequest => CreateTopicRequest | KCreateTopicResponse => CreateTopicResponse
  | KDeleteTopicRequest => DeleteTopicRequest | KDeleteTopicResponse => DeleteTopicResponse
  | KMetadataRequest => MetadataRequest | KMetadataResponse => MetadataResponse
  | KListTopicsRequest => ListTopicsRequest | KListTopicsResponse => ListTopicsResponse
  | KHealthRequest => HealthRequest | KHealthResponse => HealthResponse
  | KDescribeClusterRequest => DescribeClusterRequest
  | KDescribeClusterResponse => DescribeClusterResponse | KJoinGroupRequest => JoinGroupRequest
  | KJoinGroupResponse => JoinGroupResponse | KHeartbeatRequest => HeartbeatRequest
  | KHeartbeatResponse => HeartbeatResponse | KLeaveGroupRequest => LeaveGroupRequest
  | KLeaveGroupResponse => LeaveGroupResponse | KCommitOffsetRequest => CommitOffsetRequest
  | KCommitOffsetResponse => CommitOffsetResponse | KFetchOffsetRequest => FetchOffsetRequest
  | KFetchOffsetResponse => FetchOffsetResponse | KReplicateRequest => ReplicateRequest
  | KReplicateResponse => ReplicateResponse | KReplicaFetchRequest => ReplicaFetchRequest
  | KReplicaFetchResponse => ReplicaFetchResponse | KReplicaAckRequest => ReplicaAckRequest
  | KReplicaAckResponse => ReplicaAckResponse
  end.

#[global] Instance payload_codec (k : MessageKind) : MessageCodec (payload k) :=
  match k with
  | KProduceRequest => ProduceRequest_codec | KProduceResponse => ProduceResponse_codec
  | KFetchRequest => FetchRequest_codec | KFetchResponse => FetchResponse_codec
  | KListOffsetsRequest => ListOffsetsRequest_codec
  | KListOffsetsResponse => ListOffsetsResponse_codec
  | KCreateTopicRequest => CreateTopicRequest_codec
  | KCreateTopicResponse => CreateTopicResponse_codec
  | KDeleteTopicRequest => DeleteTopicRequest_codec
  | KDeleteTopicResponse => DeleteTopicResponse_codec
  | KMetadataRequest => MetadataRequest_codec | KMetadataResponse => MetadataResponse_codec
  | KListTopicsRequest => ListTopicsRequest_codec
  | KListTopicsResponse => ListTopicsResponse_codec | KHealthRequest => HealthRequest_codec
  | KHealthResponse => HealthResponse_codec
  | KDescribeClusterRequest => DescribeClusterRequest_codec
  | KDescribeClusterResponse => DescribeClusterResponse_codec
  | KJoinGroupRequest => JoinGroupRequest_codec | KJoinGroupResponse => JoinGroupResponse_codec
  | KHeartbeatRequest => HeartbeatRequest_codec | KHeartbeatResponse => HeartbeatResponse_codec
  | KLeaveGroupRequest => LeaveGroupRequest_codec
  | KLeaveGroupResponse => LeaveGroupResponse_codec
  | KCommitOffsetRequest => CommitOffsetRequest_codec
  | KCommitOffsetResponse => CommitOffsetResponse_codec
  | KFetchOffsetRequest => FetchOffsetRequest_codec
  | KFetchOffsetResponse => FetchOffsetResponse_codec
  | KReplicateRequest => ReplicateRequest_codec | KReplicateResponse => ReplicateResponse_codec
  | KReplicaFetchRequest => ReplicaFetchRequest_codec
  | KReplicaFetchResponse => ReplicaFetchResponse_codec
  | KReplicaAckRequest => ReplicaAckRequest_codec
  | KReplicaAckResponse => ReplicaAckResponse_codec
  end.

(** [Message m; m.Encode(writer)] into a fresh scratch buffer. *)
Definition EncodePayload {k : MessageKind} (m : payload k) (b : ByteBuffer) : ByteBuffer :=
  msg_encode m b.

(** [if (!request.Decode(reader) || !reader.Complete())] reject, as every handler
    of request_handler.cc does. *)
Definition DecodePayload (k : MessageKind) (bs : bytes) : option (payload k) :=
  match msg_decode (newReader bs) with
  | (Some m, r) => if Complete r then Some m else None
  | (None, _) => None
  end.

Lemma decode_encoded {W} `{!ByteSink W} k (m : payload k) (w : W) :
  msg_wf m → sink_wf w → sink_bytes w = [] →
  sink_wf (msg_encode m w) ∧ DecodePayload k (sink_bytes (msg_encode m w)) = Some m.
Proof.
  intros Hm Hw Hb. destruct (msg_agree m Hm) as (bs & Ha & Hr).
  destruct (Ha w Hw) as [Hw' E]. split; [done|].
  rewrite E, Hb. simpl. unfold DecodePayload, newReader.
  rewrite (Hr bs 0 false); [|zlist|by apply zdrop_0].
  unfold Complete, Remaining; simpl. by rewrite Z.sub_diag.
Qed.

(** C26. Every one of the 34 messages of the protocol round-trips: encoding a message
    that fits the wire (string lengths below 2^16, integers of their width, array
    sizes below 2^20) into a drained, well-formed connection buffer leaves it
    well formed, and decoding what it then exposes gives the message back with the
    payload fully consumed.  In particular no array an encoder can write is
    refused by the decoder's element budget. *)
Theorem message_roundtrip (k : MessageKind) (m : payload k) (b : ByteBuffer) :
  msg_wf m → buffer_wf b → Readable b = [] →
  buffer_wf (EncodePayload m b) ∧ DecodePayload k (Readable (EncodePayload m b)) = Some m.
Proof. intros Hm Hb Hr. exact (decode_encoded (W := ByteBuffer) k m b Hm Hb Hr). Qed.

Lemma message_roundtrip_witness :
  let m := mkProduceRequest (str "orders") 3 kQuorum 5000 1 [7; 8; 9] in
  DecodePayload KProduceRequest
    (Readable (EncodePayload (k := KProduceRequest) m (newBuffer 8))) = Some m.
Proof.
  intros m. apply (message_roundtrip KProduceRequest m (newBuffer 8)).
  - unfold m, msg_wf; simpl. unfold string_fits, signed, unsigned, kMaxStringLength.
    vm_compute. repeat split; discriminate.
  - vm_compute. repeat split; discriminate.
  - reflexivity.
Defined.

(** A message that decodes is encoded in no more bytes than its decoder has consumed. *)
Lemma payload_compact k : compact (W := ByteBuffer) (msg_encode (M := payload k)) (msg_decode (M := payload k)).
Proof.
  destruct k; [apply compact_ProduceRequest|apply compact_ProduceResponse|apply compact_FetchRequest|apply compact_FetchResponse|apply compact_ListOffsetsRequest
    |apply compact_ListOffsetsResponse|apply compact_CreateTopicRequest|apply compact_CreateTopicResponse|apply compact_DeleteTopicRequest|apply compact_DeleteTopicResponse
    |apply compact_MetadataRequest|apply compact_MetadataResponse|apply compact_ListTopicsRequest|apply compact_ListTopicsResponse|apply compact_HealthRequest
    |apply compact_HealthResponse|apply compact_DescribeClusterRequest|apply compact_DescribeClusterResponse|apply compact_JoinGroupRequest|apply compact_JoinGroupResponse
    |apply compact_HeartbeatRequest|apply compact_HeartbeatResponse|apply compact_LeaveGroupRequest|apply compact_LeaveGroupResponse|apply compact_CommitOffsetRequest
    |apply compact_CommitOffsetResponse|apply compact_FetchOffsetRequest|apply compact_FetchOffsetResponse|apply compact_ReplicateRequest|apply compact_ReplicateResponse
    |apply compact_ReplicaFetchRequest|apply compact_ReplicaFetchResponse|apply compact_ReplicaAckRequest|apply compact_ReplicaAckResponse].
Qed.
Lemma encoding_fits k (m : payload k) bs r : Forall is_byte bs → msg_decode (newReader bs) = (Some m, r) → zlen (Readable (EncodePayload m emptyBuffer)) ≤ zlen bs.
Proof.
  intros Hbs HE. assert (Hw : reader_wf (newReader bs)) by (split; simpl; [zlist|done]).
  destruct (payload_compact k _ _ _ Hw HE) as [[Hr _] (cs & Ha & Hl)]. destruct (msg_bounded (M := payload k) _ Hw) as (Hd & _ & _). rewrite HE in Hd. cbn in Hd, Hl.
  rewrite Hd in Hr. destruct (Ha emptyBuffer emptyBuffer_wf) as [_ Hb]. cbn [sink_bytes ByteBuffer_sink] in Hb. unfold EncodePayload. rewrite Hb, zlen_app. change (zlen (Readable emptyBuffer)) with 0. lia.
Qed.

(** C27. Decoding is safe on every byte string a peer can send.  Whatever the kind and the
    payload, the cursor ends between its start and the end of the payload (no over-read).
    The element count of an array, for which the decoder reserves room before it reads the
    elements, is only let through when the unread bytes can hold that many elements of the
    smallest size, and never above 2^20.  A message is only accepted when its values fit the
    wire, so that negative partitions and unknown enum values never reach a handler, and
    when it is no larger than the payload: its own encoding, with all its strings, arrays
    and records, is at most as long; and that encoding decodes to the message again. *)
Theorem message_decode_safe (k : MessageKind) (bs : bytes) :
  Forall is_byte bs →
  let r := (msg_decode (M := payload k) (newReader bs)).2 in
  rdata r = bs ∧ 0 ≤ rpos r ≤ zlen bs ∧
  (∀ min_element_bytes r n r', 0 < min_element_bytes → reader_wf r →
     GetArrayLen (ElementBudget min_element_bytes r) r = (Some n, r') →
     0 ≤ n ≤ kMaxArrayElements ∧ min_element_bytes * n ≤ Remaining r) ∧
  ∀ m, DecodePayload k bs = Some m →
    msg_wf m ∧ zlen (Readable (EncodePayload m emptyBuffer)) ≤ zlen bs ∧
    DecodePayload k (Readable (EncodePayload m emptyBuffer)) = Some m.
Proof.
  intros Hbs. assert (Hw : reader_wf (newReader bs)) by (split; simpl; [zlist|done]).
  destruct (msg_bounded (M := payload k) _ Hw) as (Hd & Hp & Hm). simpl in Hd, Hp.
  split_and!; [done|lia|lia|exact announced_fits|]. intros m. unfold DecodePayload at 1.
  destruct (msg_decode (newReader bs)) as [[m'|] r'] eqn:E; [|done].
  destruct (Complete r'); [|done]. intros [= ->]. assert (Hwf : msg_wf m) by by apply Hm.
  split; [done|]. split; [by apply (encoding_fits k m bs r')|].
  exact (proj2 (decode_encoded (W := ByteBuffer) k m _ Hwf emptyBuffer_wf eq_refl)).
Qed.

(** Four bytes that announce 65536 topics: refused; and a request for one topic. *)
Definition one_topic : bytes := [1; 0; 0; 0; 1; 0; 116].
Lemma message_decode_safe_witness :
  (GetArrayLen (ElementBudget 2 (newReader [0; 0; 1; 0])) (newReader [0; 0; 1; 0])).1 = None ∧
  DecodePayload KMetadataRequest one_topic = Some (mkMetadataRequest [str "t"]) ∧
  zlen (Readable (EncodePayload (k := KMetadataRequest) (mkMetadataRequest [str "t"]) emptyBuffer)) ≤ 7.
Proof.
  split; [reflexivity|]. split; [reflexivity|].
  assert (Hb : Forall is_byte one_topic) by (unfold one_topic; repeat constructor; vm_compute; congruence).
  destruct (message_decode_safe KMetadataRequest one_topic Hb) as (_ & _ & _ & H).
  exact (proj1 (proj2 (H (mkMetadataRequest [str "t"]) eq_refl))).
Defined.

(** ** Trailing bytes

    Bytes after the announced records are consumed by [GetRemaining] and dropped by
    [subspan], so the completeness check cannot see them. *)
Definition swallows {A} (g : Getter A) (bs : bytes) (x : A) : Prop := ∀ d pos f rest,
  0 ≤ pos ≤ zlen d → zdrop pos d = bs ++ rest →
  g (mkReader d pos f) = (Some x, mkReader d (zlen d) f).

Lemma swallows_bind {A B} (g : Getter A) (h : A → Getter B) bs cs x y :
  reads g bs x → swallows (h x) cs y → swallows (gbind g h) (bs ++ cs) y.
Proof.
  intros Hg Hh d pos f rest Hpos Hd. unfold gbind. rewrite <- app_assoc in Hd.
  rewrite (Hg d pos f (cs ++ rest)) by done.
  destruct (zdrop_prefix d pos bs _ Hpos Hd) as [Hle Hd']. apply (Hh _ _ _ rest); [zlist|done].
Qed.

Lemma swallows_tail {B} len bs (h : bytes → B) y :
  len = zlen bs → h bs = y →
  swallows (check_remaining len ;;^ let^ b := get_tail len in gret (h b)) bs y.
Proof.
  intros -> <- d pos f rest Hpos Hd.
  assert (Hr : zlen d - pos = zlen bs + zlen rest)
    by (rewrite <- zlen_app, <- Hd, zlen_zdrop; lia).
  unfold check_remaining, get_tail, gbind, gremaining, Remaining, gguard, GetRemaining, gret; simpl.
  destruct (Z.ltb_spec (zlen d - pos) (zlen bs)); [zlist|]. simpl.
  by rewrite Hd, ztake_app.
Qed.

Section Swallow.
Context {W : Type} `{!ByteSink W}.
Definition codec_swallow {A} (f : W → W) (g : Getter A) (x : A) : Prop :=
  ∃ bs, appends f bs ∧ swallows g bs x.

Lemma codec_swallow_seq {A B} f f' (g : Getter A) (h : A → Getter B) x y k :
  codec f g x k → codec_swallow f' (h x) y → codec_swallow (f ;;> f') (gbind g h) y.
Proof.
  intros (cs & Ha & Hr & _) (bs & Ha' & Hs). exists (cs ++ bs). split.
  - by apply (appends_seq f f').
  - by eapply swallows_bind.
Qed.

Lemma codec_swallow_guard {B} f b (h : unit → Getter B) y :
  b = true → codec_swallow f (h tt) y → codec_swallow f (gbind (gguard b) h) y.
Proof.
  intros Hb (bs & Hf & Hg). exists bs. split; [done|].
  apply (swallows_bind _ h [] bs tt); [by apply reads_guard|done].
Qed.

Lemma codec_swallow_raw {A} (g : Getter A) bs x :
  swallows g bs x → codec_swallow (PutRaw bs) g x.
Proof. intros Hg. exists bs. split; [apply appends_append|done]. Qed.
End Swallow.

Lemma ReplicateRequest_swallows m :
  ReplicateRequest_wf m →
  codec_swallow (W := ByteBuffer) (ReplicateRequest_Encode m) ReplicateRequest_Decode m.
Proof.
  destruct m as [tp p l e b pr hw ls n rs]. intros (?&?&?&?&?&?&?&?&?&?&?).
  unfold ReplicateRequest_Encode, ReplicateRequest_Decode.
  do 3 (eapply codec_swallow_seq; [solve [eauto with message] | cbv beta]).
  apply codec_swallow_guard; [guard_side|].
  do 6 (eapply codec_swallow_seq; [solve [eauto with message] | cbv beta]).
  eapply codec_swallow_seq; [apply codec_U32, uwrap_range; lia|]. cbv beta.
  rewrite uwrap_small by codec_side. by apply codec_swallow_raw, swallows_tail.
Qed.

(** A replication request followed by arbitrary bytes is accepted as if they were
    not there, completeness check included, although messages.h says that
    decoding fails on trailing garbage and that requests must be fully consumed
    (the produce request, which ends the same way, behaves alike). *)
Theorem replicate_trailing_garbage (m : ReplicateRequest) (extra : bytes) :
  ReplicateRequest_wf m →
  DecodePayload KReplicateRequest
    (Readable (EncodePayload (k := KReplicateRequest) m emptyBuffer) ++ extra) = Some m.
Proof.
  intros Hm. destruct (ReplicateRequest_swallows m Hm) as (cs & Ha & Hs).
  destruct (Ha emptyBuffer emptyBuffer_wf) as [_ E].
  change (sink_bytes (ByteSink := ByteBuffer_sink)) with Readable in E.
  unfold EncodePayload, DecodePayload, newReader. simpl. rewrite E. simpl.
  rewrite (Hs (cs ++ extra) 0 false extra); [|zlist|by apply zdrop_0].
  unfold Complete, Remaining; simpl. by rewrite Z.sub_diag.
Qed.

Lemma replicate_trailing_garbage_witness :
  let m := mkReplicateRequest (str "t") 0 1 2 3 2 0 0 1 [7] in
  DecodePayload KReplicateRequest
    (Readable (EncodePayload (k := KReplicateRequest) m emptyBuffer) ++ [66; 66]) = Some m.
Proof.
  intros m. apply (replicate_trailing_garbage m [66; 66]).
  unfold m, ReplicateRequest_wf. vm_compute. repeat split; discriminate.
Defined.
