(* ===== verification/Frame.v ===== *)
(** * Frame: the wire frame and its incremental decoder

    Models include/pulselog/protocol/{opcode,frame}.h and
    src/protocol/{opcode,frame}.cc.  A frame is a 32-byte header, which carries
    its own checksum, and a payload with another.  [FrameDecoder] looks at the
    front of a connection's read buffer; its error is sticky. *)
From S2P Require Import Prelude Status Endian Crc32c Buffer.

(** ** Operation codes *)

Inductive OpCode : Set :=
  | opUnknown | kProduce | kFetch | kListOffsets
  | kCreateTopic | kMetadata | kCommitOffset | kFetchOffset | kJoinGroup | kHeartbeat
  | kLeaveGroup | kHealth | kListTopics
  | kReplicate | kReplicaAck | kReplicaFetch
  | kDeleteTopic | kDescribeCluster.

#[global] Instance OpCode_eq_dec : EqDecision OpCode.
Proof. solve_decision. Defined.

Definition OpCode_raw (op : OpCode) : Z :=
  match op with
  | opUnknown => 0 | kProduce => 1 | kFetch => 2 | kListOffsets => 3
  | kCreateTopic => 20 | kMetadata => 21 | kCommitOffset => 22 | kFetchOffset => 23
  | kJoinGroup => 24 | kHeartbeat => 25 | kLeaveGroup => 26 | kHealth => 27 | kListTopics => 28
  | kReplicate => 40 | kReplicaAck => 41 | kReplicaFetch => 42
  | kDeleteTopic => 60 | kDescribeCluster => 61
  end.

Definition OpCodeName (op : OpCode) : string :=
  match op with
  | opUnknown => "UNKNOWN" | kProduce => "PRODUCE" | kFetch => "FETCH"
  | kListOffsets => "LIST_OFFSETS" | kCreateTopic => "CREATE_TOPIC" | kMetadata => "METADATA"
  | kCommitOffset => "COMMIT_OFFSET" | kFetchOffset => "FETCH_OFFSET"
  | kJoinGroup => "JOIN_GROUP" | kHeartbeat => "HEARTBEAT" | kLeaveGroup => "LEAVE_GROUP"
  | kHealth => "HEALTH" | kListTopics => "LIST_TOPICS" | kReplicate => "REPLICATE"
  | kReplicaAck => "REPLICA_ACK" | kReplicaFetch => "REPLICA_FETCH"
  | kDeleteTopic => "DELETE_TOPIC" | kDescribeCluster => "DESCRIBE_CLUSTER"
  end%string.

(** The operations [IsKnownOpCode] lists: all but [kUnknown]. *)
Definition known_opcodes : list OpCode :=
  [kProduce; kFetch; kListOffsets; kCreateTopic; kMetadata; kCommitOffset; kFetchOffset;
   kJoinGroup; kHeartbeat; kLeaveGroup; kHealth; kListTopics; kReplicate; kReplicaAck;
   kReplicaFetch; kDeleteTopic; kDescribeCluster].

Definition opcode_of_raw (raw : Z) : option OpCode :=
  List.find (λ op, OpCode_raw op =? raw) known_opcodes.
Definition IsKnownOpCode (raw : Z) : bool :=
  match opcode_of_raw raw with Some _ => true | None => false end.

Definition IsInterBroker (op : OpCode) : bool := (40 <=? OpCode_raw op) && (OpCode_raw op <? 60).

(** ** Header *)

Definition kFrameHeaderSize : Z := 32.
Definition kFrameMagic : Z := 0x47534C50.
Definition kProtocolVersion : Z := 1.
Definition kMinSupportedVersion : Z := 1.
Definition kMaxPayloadBytesDefault : Z := 64 * 1024 * 1024.

Definition kFlagResponse : Z := Z.shiftl 1 0.
Definition kFlagCompressed : Z := Z.shiftl 1 1.
Definition kFlagMoreFollows : Z := Z.shiftl 1 2.
Definition HasFlag (flags f : Z) : bool := negb (Z.land flags f =? 0).

Record FrameHeader := mkFrameHeader {
  version : Z; opcode : OpCode; request_id : Z; payload_len : Z; flags : Z; payload_crc : Z }.
Definition is_response (h : FrameHeader) : bool := HasFlag (flags h) kFlagResponse.

Definition kOffMagic : Z := 0.
Definition kOffVersion : Z := 4.
Definition kOffOpcode : Z := 6.
Definition kOffRequestId : Z := 8.
Definition kOffPayloadLen : Z := 16.
Definition kOffFlags : Z := 20.
Definition kOffReserved : Z := 22.
Definition kOffPayloadCrc : Z := 24.
Definition kOffHeaderCrc : Z := 28.

(** The stores of [EncodeFrameHeader] into the memory at [dst]. *)
Definition EncodeFrameHeader (h : FrameHeader) (dst : bytes) : bytes :=
  let dst := zsplice kOffMagic (StoreLe 4 kFrameMagic) dst in
  let dst := zsplice kOffVersion (StoreLe 2 (version h)) dst in
  let dst := zsplice kOffOpcode (StoreLe 2 (OpCode_raw (opcode h))) dst in
  let dst := zsplice kOffRequestId (StoreLe 8 (request_id h)) dst in
  let dst := zsplice kOffPayloadLen (StoreLe 4 (payload_len h)) dst in
  let dst := zsplice kOffFlags (StoreLe 2 (flags h)) dst in
  let dst := zsplice kOffReserved (StoreLe 2 0) dst in
  let dst := zsplice kOffPayloadCrc (StoreLe 4 (payload_crc h)) dst in
  let header_crc := Crc32c (ztake kOffHeaderCrc dst) in
  zsplice kOffHeaderCrc (StoreLe 4 header_crc) dst.

(** [LoadLe<T>(src + off)] *)
Definition load_at (n : nat) (off : Z) (src : bytes) : Z := LoadLe n (zdrop off src).

Definition DecodeFrameHeader (src : bytes) (max_payload : Z) : Result FrameHeader :=
  let magic := load_at 4 kOffMagic src in
  if negb (magic =? kFrameMagic) then Err kProtocolError else
  let stored_crc := load_at 4 kOffHeaderCrc src in
  let computed_crc := Crc32c (ztake kOffHeaderCrc src) in
  if negb (stored_crc =? computed_crc) then Err kCorruption else
  let reserved := load_at 2 kOffReserved src in
  if negb (reserved =? 0) then Err kProtocolError else
  let version := load_at 2 kOffVersion src in
  if (version <? kMinSupportedVersion) || (kProtocolVersion <? version)
  then Err kUnsupportedVersion else
  match opcode_of_raw (load_at 2 kOffOpcode src) with
  | None => Err kProtocolError
  | Some op =>
      let request_id := load_at 8 kOffRequestId src in
      let payload_len := load_at 4 kOffPayloadLen src in
      if max_payload <? payload_len then Err kResourceExhausted else
      Ok (mkFrameHeader version op request_id payload_len
            (load_at 2 kOffFlags src) (load_at 4 kOffPayloadCrc src))
  end.

(** The checksum a frame carries for its payload: 0 when it is empty. *)
Definition payload_checksum (payload : bytes) : Z :=
  if zlen payload =? 0 then 0 else Crc32c payload.

Definition complete_header (h : FrameHeader) (payload : bytes) : FrameHeader :=
  mkFrameHeader (version h) (opcode h) (request_id h) (u32 (zlen payload)) (flags h)
    (payload_checksum payload).

(** [EncodeFrame(out, header, payload)] *)
Definition EncodeFrame (h : FrameHeader) (payload : bytes) (out : ByteBuffer) : ByteBuffer :=
  let complete := complete_header h payload in
  let out := EnsureWritable (kFrameHeaderSize + zlen payload) out in
  let dst := slice (write_pos out) kFrameHeaderSize (storage out) in
  let out := Commit kFrameHeaderSize (PokeWritable (EncodeFrameHeader complete dst) out) in
  if zlen payload =? 0 then out else Append payload out.

(** The convenience overload: a current-version header. *)
Definition EncodeFrame_op (op : OpCode) (request_id flags : Z) (payload : bytes) (out : ByteBuffer)
    : ByteBuffer :=
  EncodeFrame (mkFrameHeader kProtocolVersion op request_id 0 flags 0) payload out.

(** ** The incremental decoder *)

Record Frame := mkFrame { fheader : FrameHeader; fpayload : bytes; total_size : Z }.

Inductive DecodeState : Type := kNeedMore | kFrame (f : Frame) | kError.

(** [derror = None] is the OK status. *)
Record FrameDecoder := mkDecoder { max_payload : Z; derror : option ErrorCode }.
Definition newDecoder (max_payload : Z) : FrameDecoder := mkDecoder max_payload None.

Definition decoder_fail (d : FrameDecoder) (e : ErrorCode) : DecodeState * FrameDecoder :=
  (kError, mkDecoder (max_payload d) (Some e)).

Definition Next (d : FrameDecoder) (input : bytes) : DecodeState * FrameDecoder :=
  match derror d with
  | Some _ => (kError, d)
  | None =>
      if zlen input <? kFrameHeaderSize then (kNeedMore, d) else
      match DecodeFrameHeader input (max_payload d) with
      | Err e => decoder_fail d e
      | Ok header =>
          let total := kFrameHeaderSize + payload_len header in
          if zlen input <? total then (kNeedMore, d) else
          let payload := slice kFrameHeaderSize (payload_len header) input in
          if negb (zlen payload =? 0) then
            if negb (Crc32c payload =? payload_crc header) then decoder_fail d kCorruption
            else (kFrame (mkFrame header payload total), d)
          else if negb (payload_crc header =? 0) then decoder_fail d kProtocolError
          else (kFrame (mkFrame header payload total), d)
      end
  end.

Definition BytesNeeded (input : bytes) : Z :=
  if zlen input <? kFrameHeaderSize then kFrameHeaderSize - zlen input
  else
    let total := kFrameHeaderSize + load_at 4 kOffPayloadLen input in
    if total <=? zlen input then 0 else total - zlen input.

Definition ResetDecoder (d : FrameDecoder) : FrameDecoder := mkDecoder (max_payload d) None.

(** ** What the encoder writes *)

Definition header_prefix (h : FrameHeader) : bytes :=
  StoreLe 4 kFrameMagic ++ StoreLe 2 (version h) ++ StoreLe 2 (OpCode_raw (opcode h)) ++
  StoreLe 8 (request_id h) ++ StoreLe 4 (payload_len h) ++ StoreLe 2 (flags h) ++
  StoreLe 2 0 ++ StoreLe 4 (payload_crc h).
Definition header_bytes (h : FrameHeader) : bytes :=
  header_prefix h ++ StoreLe 4 (Crc32c (header_prefix h)).
Definition frame_bytes (h : FrameHeader) (payload : bytes) : bytes :=
  header_bytes (complete_header h payload) ++ payload.

Lemma zlen_header_prefix h : zlen (header_prefix h) = 28.
Proof. unfold header_prefix. autorewrite with zlist. done. Qed.
Lemma zlen_header_bytes h : zlen (header_bytes h) = 32.
Proof. unfold header_bytes. rewrite zlen_app, zlen_header_prefix. autorewrite with zlist. done. Qed.
Lemma zlen_frame_bytes h p : zlen (frame_bytes h p) = 32 + zlen p.
Proof. unfold frame_bytes. by rewrite zlen_app, zlen_header_bytes. Qed.

(** A store at the current end of what has been written. *)
Lemma zsplice_next pos (bs pre rest : bytes) :
  pos = zlen pre → zsplice pos bs (pre ++ rest) = (pre ++ bs) ++ zdrop (zlen bs) rest.
Proof.
  intros ->. unfold zsplice. rewrite ztake_app by done.
  rewrite zdrop_app_ge by zlist. rewrite <- app_assoc. do 3 f_equal. lia.
Qed.

Lemma EncodeFrameHeader_spec h dst : zlen dst = 32 → EncodeFrameHeader h dst = header_bytes h.
Proof.
  intros Hd. unfold EncodeFrameHeader. cbv zeta.
  rewrite (zsplice_next kOffMagic _ [] dst) by done.
  do 7 (rewrite zsplice_next by (autorewrite with zlist; done)).
  rewrite !zdrop_zdrop by (autorewrite with zlist; lia).
  autorewrite with zlist. simpl (0 + _)%Z.
  rewrite (ztake_app kOffHeaderCrc) by (autorewrite with zlist; done).
  rewrite zsplice_next by (autorewrite with zlist; done).
  rewrite zdrop_zdrop by (autorewrite with zlist; lia).
  rewrite (zdrop_all _ dst) by (autorewrite with zlist; lia).
  rewrite app_nil_r. unfold header_bytes, header_prefix. rewrite <- !app_assoc. done.
Qed.

Lemma EncodeFrame_spec h payload out :
  buffer_wf out →
  buffer_wf (EncodeFrame h payload out) ∧
  Readable (EncodeFrame h payload out) = Readable out ++ frame_bytes h payload.
Proof.
  intros Hwf. unfold EncodeFrame. change kFrameHeaderSize with 32.
  destruct (EnsureWritable_spec (32 + zlen payload) out Hwf) as (Hwf1 & HR1 & Hroom); [zlist|].
  set (b1 := EnsureWritable _ out) in *.
  assert (Hd : zlen (slice (write_pos b1) 32 (storage b1)) = 32).
  { destruct Hwf1 as (?&?&?). unfold WritableBytes in Hroom. apply zlen_slice; zlist. }
  rewrite EncodeFrameHeader_spec by done.
  destruct (PokeCommit_spec (header_bytes (complete_header h payload)) b1 Hwf1) as [Hwf2 HR2];
    [rewrite zlen_header_bytes; zlist|].
  rewrite zlen_header_bytes in Hwf2, HR2.
  destruct (Z.eqb_spec (zlen payload) 0) as [H0|H0].
  - split; [done|]. apply zlen_0_nil in H0 as ->. unfold frame_bytes.
    by rewrite app_nil_r, HR2, HR1.
  - destruct (Append_spec payload _ Hwf2) as [Hwf3 HR3]. split; [done|].
    unfold frame_bytes. by rewrite HR3, HR2, HR1, app_assoc.
Qed.

(** ** Decoding what was encoded *)

Definition header_fits (h : FrameHeader) : Prop :=
  version h = kProtocolVersion ∧ opcode h ≠ opUnknown ∧ unsigned 64 (request_id h) ∧
  unsigned 32 (payload_len h) ∧ unsigned 16 (flags h) ∧ unsigned 32 (payload_crc h).

Lemma load_at_store n off v (pre post : bytes) :
  off = zlen pre → unsigned (8 * Z.of_nat n) v → load_at n off (pre ++ StoreLe n v ++ post) = v.
Proof. intros -> Hv. unfold load_at. rewrite zdrop_app by done. by apply LoadLe_StoreLe. Qed.

Lemma opcode_of_raw_raw op : op ≠ opUnknown → opcode_of_raw (OpCode_raw op) = Some op.
Proof. by destruct op. Qed.
Lemma OpCode_raw_range op : unsigned 16 (OpCode_raw op).
Proof. by destruct op. Qed.

(** Any 32-byte layout of the fields; [DecodeFrameHeader] sees exactly the fields. *)
Lemma load_fields h c rest :
  header_fits h → unsigned 32 c →
  let src := header_prefix h ++ StoreLe 4 c ++ rest in
  load_at 4 kOffMagic src = kFrameMagic ∧ load_at 4 kOffHeaderCrc src = c ∧
  load_at 2 kOffReserved src = 0 ∧ load_at 2 kOffVersion src = version h ∧
  load_at 2 kOffOpcode src = OpCode_raw (opcode h) ∧ load_at 8 kOffRequestId src = request_id h ∧
  load_at 4 kOffPayloadLen src = payload_len h ∧ load_at 2 kOffFlags src = flags h ∧
  load_at 4 kOffPayloadCrc src = payload_crc h.
Proof.
  intros (Hv & Ho & Hr & Hl & Hf & Hc) Hcrc.
  pose proof (OpCode_raw_range (opcode h)) as Hop.
  assert (Hv' : unsigned 16 (version h)) by (by rewrite Hv).
  cbv zeta. split; [unfold header_prefix; rewrite <- app_assoc; by apply (load_at_store 4 _ _ [])|].
  split; [by apply load_at_store; rewrite ?zlen_header_prefix|].
  unfold header_prefix.
  set (a0 := StoreLe 4 kFrameMagic). set (a1 := StoreLe 2 (version h)).
  set (a2 := StoreLe 2 (OpCode_raw _)). set (a3 := StoreLe 8 _). set (a4 := StoreLe 4 (payload_len h)).
  set (a5 := StoreLe 2 (flags h)). set (a6 := StoreLe 2 0). set (a7 := StoreLe 4 (payload_crc h)).
  rewrite <- !app_assoc. split_and!.
  - rewrite !(app_assoc _ _ (a6 ++ _)). by apply load_at_store.
  - by apply load_at_store.
  - rewrite !(app_assoc _ _ (a2 ++ _)). by apply load_at_store.
  - rewrite !(app_assoc _ _ (a3 ++ _)). by apply load_at_store.
  - rewrite !(app_assoc _ _ (a4 ++ _)). by apply load_at_store.
  - rewrite !(app_assoc _ _ (a5 ++ _)). by apply load_at_store.
  - rewrite !(app_assoc _ _ (a7 ++ _)). by apply load_at_store.
Qed.

Lemma DecodeFrameHeader_encode h maxp rest :
  header_fits h → payload_len h ≤ maxp → DecodeFrameHeader (header_bytes h ++ rest) maxp = Ok h.
Proof.
  intros Hh Hmax. unfold header_bytes. rewrite <- app_assoc.
  destruct (load_fields h (Crc32c (header_prefix h)) rest Hh (Crc32c_range _))
    as (E0 & E1 & E2 & E3 & E4 & E5 & E6 & E7 & E8).
  unfold DecodeFrameHeader. rewrite E0, E1, E2, E3, E4, E5, E6, E7, E8.
  rewrite ztake_app by (by rewrite zlen_header_prefix).
  rewrite !Z.eqb_refl. simpl. destruct Hh as (Hv & Ho & _).
  rewrite Hv at 1 2. simpl. rewrite opcode_of_raw_raw by done.
  destruct (Z.ltb_spec maxp (payload_len h)); [lia|]. by destruct h.
Qed.

(** ** The decoder accepts exactly the encoder's image *)

(** A frame the decoder may hand out under the limit [maxp]. *)
Definition frame_valid (maxp : Z) (f : Frame) : Prop :=
  header_fits (fheader f) ∧ payload_len (fheader f) = zlen (fpayload f) ∧
  zlen (fpayload f) ≤ maxp ∧ payload_crc (fheader f) = payload_checksum (fpayload f) ∧
  total_size f = kFrameHeaderSize + zlen (fpayload f).

(** The bytes of such a frame on the wire. *)
Definition wire (f : Frame) : bytes := header_bytes (fheader f) ++ fpayload f.

Lemma payload_checksum_range p : unsigned 32 (payload_checksum p).
Proof. unfold payload_checksum. destruct (_ =? 0); [by split | apply Crc32c_range]. Qed.

Lemma wire_frame_bytes maxp f : frame_valid maxp f → wire f = frame_bytes (fheader f) (fpayload f).
Proof.
  destruct f as [[v o i l fl c] p t]. intros (Hh & Hl & _ & Hc & _).
  destruct Hh as (_&_&_&Hl'&_). unfold wire, frame_bytes, complete_header.
  cbn [fheader fpayload payload_len payload_crc version opcode request_id flags] in *.
  rewrite <- Hc, <- Hl. by rewrite uwrap_small.
Qed.

Lemma zlen_wire maxp f : frame_valid maxp f → zlen (wire f) = total_size f.
Proof.
  intros (_ & _ & _ & _ & ->). unfold wire. by rewrite zlen_app, zlen_header_bytes.
Qed.

Lemma Next_wire maxp f rest :
  frame_valid maxp f → Next (newDecoder maxp) (wire f ++ rest) = (kFrame f, newDecoder maxp).
Proof.
  destruct f as [h p t]. intros (Hh & Hl & Hmax & Hc & Ht).
  cbn [fheader fpayload total_size] in *. unfold Next, wire.
  cbn [derror newDecoder max_payload fheader fpayload]. change kFrameHeaderSize with 32 in *.
  pose proof (zlen_header_bytes h) as HL.
  destruct (Z.ltb_spec (zlen ((header_bytes h ++ p) ++ rest)) 32); [zlist|].
  rewrite <- app_assoc. rewrite DecodeFrameHeader_encode by (done || lia).
  destruct (Z.ltb_spec (zlen (header_bytes h ++ p ++ rest)) (32 + payload_len h)); [zlist|].
  rewrite slice_app_r by lia. rewrite HL, Z.sub_diag. unfold slice. rewrite zdrop_0 by lia.
  rewrite ztake_app by done. rewrite Hc. unfold payload_checksum.
  destruct (Z.eqb_spec (zlen p) 0); cbn [negb]; rewrite ?Z.eqb_refl; cbn [negb]; by rewrite Ht, Hl.
Qed.

(** A frame that has only partly arrived is waited for, never refused. *)
Lemma Next_partial maxp f n :
  frame_valid maxp f → 0 ≤ n < total_size f →
  Next (newDecoder maxp) (ztake n (wire f)) = (kNeedMore, newDecoder maxp).
Proof.
  intros Hf Hn. pose proof (zlen_wire _ _ Hf) as Hw. unfold Next.
  cbn [derror newDecoder max_payload]. rewrite zlen_ztake, Hw. destruct (Z.ltb_spec (Z.min (Z.max n 0) (total_size f)) kFrameHeaderSize);
    [done|].
  change kFrameHeaderSize with 32 in *. destruct Hf as (Hh & Hl & Hmax & Hc & Ht).
  assert (E : ztake n (wire f) = header_bytes (fheader f) ++ ztake (n - 32) (fpayload f)).
  { unfold wire. pose proof (zlen_header_bytes (fheader f)).
    unfold ztake. rewrite take_app. f_equal.
    - apply take_ge. unfold zlen in *. lia.
    - unfold zlen in *. f_equal. lia. }
  rewrite E, DecodeFrameHeader_encode by (done || lia).
  destruct (Z.ltb_spec (Z.min (Z.max n 0) (total_size f)) (32 + payload_len (fheader f)));
    [done|]. change kFrameHeaderSize with 32 in Ht. lia.
Qed.

Lemma StoreLe_load n off (src : bytes) :
  Forall is_byte src → 0 ≤ off → off + Z.of_nat n ≤ zlen src →
  StoreLe n (load_at n off src) = slice off (Z.of_nat n) src.
Proof.
  intros Hb Hoff Hlen. unfold load_at.
  rewrite <- (ztake_zdrop (Z.of_nat n) (zdrop off src)). fold (slice off (Z.of_nat n) src).
  assert (Hs : zlen (slice off (Z.of_nat n) src) = Z.of_nat n) by (apply zlen_slice; lia).
  assert (Hl : length (slice off (Z.of_nat n) src) = n) by (unfold zlen in Hs; lia).
  rewrite LoadLe_app by lia. unfold LoadLe, LoadLe_on, memcpy_in.
  rewrite take_ge by lia. unfold StoreLe, StoreLe_on, memcpy_out.
  rewrite <- Hl at 1. by apply le_bytes_le_value, Forall_slice.
Qed.

Lemma opcode_of_raw_inv raw op : opcode_of_raw raw = Some op → op ≠ opUnknown ∧ OpCode_raw op = raw.
Proof.
  unfold opcode_of_raw. intros H. apply List.find_some in H as [Hin Heq].
  apply Z.eqb_eq in Heq. split; [|done]. intros ->. revert Hin. unfold known_opcodes. simpl. intuition discriminate.
Qed.

Lemma load_at_range n off (src : bytes) :
  Forall is_byte src → 0 ≤ off → off + Z.of_nat n ≤ zlen src →
  unsigned (8 * Z.of_nat n) (load_at n off src).
Proof.
  intros Hb Hoff Hlen. unfold load_at, LoadLe, LoadLe_on, memcpy_in.
  assert (Hl : zlen (take n (zdrop off src)) = Z.of_nat n).
  { replace (take n (zdrop off src)) with (slice off (Z.of_nat n) src)
      by (unfold slice, ztake; by rewrite Nat2Z.id). apply zlen_slice; lia. }
  rewrite <- Hl. apply le_value_range. unfold zdrop. by apply Forall_take, Forall_drop.
Qed.

Lemma DecodeFrameHeader_inv src maxp h :
  Forall is_byte src → 32 ≤ zlen src → DecodeFrameHeader src maxp = Ok h →
  header_fits h ∧ payload_len h ≤ maxp ∧ ztake 32 src = header_bytes h.
Proof.
  intros Hb Hlen. unfold DecodeFrameHeader.
  destruct (Z.eqb_spec (load_at 4 kOffMagic src) kFrameMagic) as [E0|]; [|done].
  destruct (Z.eqb_spec (load_at 4 kOffHeaderCrc src) (Crc32c (ztake kOffHeaderCrc src))) as [E1|]; [|done].
  destruct (Z.eqb_spec (load_at 2 kOffReserved src) 0) as [E2|]; [|done].
  destruct (_ || _) eqn:E3; [done|].
  destruct (opcode_of_raw _) as [op|] eqn:E4; [|done].
  destruct (Z.ltb_spec maxp (load_at 4 kOffPayloadLen src)); [done|]. cbn [negb].
  intros [= <-]. apply opcode_of_raw_inv in E4 as [Hop E4].
  apply orb_false_iff in E3 as [?%Z.ltb_ge ?%Z.ltb_ge].
  unfold kMinSupportedVersion, kProtocolVersion in *.
  pose proof (λ n off, load_at_range n off src Hb) as HR.
  pose proof (λ n off, StoreLe_load n off src Hb) as HS.
  unfold kOffMagic, kOffVersion, kOffOpcode, kOffRequestId, kOffPayloadLen, kOffFlags,
    kOffReserved, kOffPayloadCrc, kOffHeaderCrc in *.
  set (h := mkFrameHeader _ _ _ _ _ _).
  assert (P : header_prefix h = ztake 28 src).
  { unfold header_prefix, h; cbn [version opcode request_id payload_len flags payload_crc].
    assert (E2' : StoreLe 2 0 = slice 22 2 src) by (rewrite <- E2; apply HS; lia).
    rewrite <- E0, E4, E2', !HS by lia. rewrite !slice_split by lia. apply slice_0. }
  split_and!; [|done|].
  - unfold header_fits, h; cbn [version opcode request_id payload_len flags payload_crc].
    split; [unfold kProtocolVersion; lia|]. split; [done|].
    split; [apply (HR 8%nat); lia|]. split; [apply (HR 4%nat); lia|].
    split; [apply (HR 2%nat); lia | apply (HR 4%nat); lia].
  - unfold header_bytes. rewrite P, <- E1, HS by lia. rewrite <- !slice_0, slice_split by lia. done.
Qed.

Lemma Next_inv maxp input f d' :
  Forall is_byte input → Next (newDecoder maxp) input = (kFrame f, d') →
  d' = newDecoder maxp ∧ frame_valid maxp f ∧ ∃ rest, input = wire f ++ rest.
Proof.
  intros Hb. unfold Next. cbn [derror newDecoder max_payload]. change kFrameHeaderSize with 32.
  destruct (Z.ltb_spec (zlen input) 32); [done|].
  destruct (DecodeFrameHeader input maxp) as [h|e] eqn:E; [|done].
  apply DecodeFrameHeader_inv in E as (Hh & Hmax & Hbytes); [|done..].
  destruct (Z.ltb_spec (zlen input) (32 + payload_len h)); [done|].
  set (p := slice 32 (payload_len h) input).
  assert (Hl0 : 0 ≤ payload_len h) by apply Hh.
  assert (Hp : zlen p = payload_len h) by (apply zlen_slice; lia).
  intros Hres.
  assert (Hc : payload_crc h = payload_checksum p ∧ f = mkFrame h p (32 + payload_len h)
               ∧ d' = newDecoder maxp).
  { unfold payload_checksum. destruct (Z.eqb_spec (zlen p) 0); cbn [negb] in Hres.
    - destruct (Z.eqb_spec (payload_crc h) 0); [|done]. cbn [negb] in Hres. simplify_eq. by split_and!.
    - destruct (Z.eqb_spec (Crc32c p) (payload_crc h)); [|done]. cbn [negb] in Hres. simplify_eq. by split_and!. }
  destruct Hc as (Hc & -> & ->). split; [done|]. split.
  - unfold frame_valid; cbn [fheader fpayload total_size]. rewrite Hp. by split_and!.
  - exists (zdrop (32 + payload_len h) input). unfold wire; cbn [fheader fpayload].
    rewrite <- Hbytes. rewrite <- (ztake_zdrop (32 + payload_len h) input) at 1. f_equal.
    unfold p. rewrite <- !slice_0, slice_split by lia. done.
Qed.

(** The frame decoder accepts exactly what the encoder writes: on any input
    bytes, [Next] yields the frame [f] if and only if the input starts with the
    encoding of [f], whose opcode is known, whose version is supported, whose
    payload is within the limit and whose two checksums match.  So no frame is
    accepted with a corrupted header or payload, and none that was encoded
    intact is refused. *)
Theorem FrameDecoder_exact (maxp : Z) (input : bytes) (f : Frame) :
  Forall is_byte input →
  Next (newDecoder maxp) input = (kFrame f, newDecoder maxp) ↔
  frame_valid maxp f ∧ ∃ rest, input = frame_bytes (fheader f) (fpayload f) ++ rest.
Proof.
  intros Hb. split.
  - intros HN. destruct (Next_inv _ _ _ _ Hb HN) as (_ & Hf & rest & ->).
    split; [done|]. exists rest. by rewrite <- (wire_frame_bytes maxp).
  - intros [Hf [rest ->]]. rewrite <- (wire_frame_bytes maxp) by done. by apply Next_wire.
Qed.

Definition example_frame : Frame :=
  let h := mkFrameHeader kProtocolVersion kHealth 7 0 0 0 in
  mkFrame (complete_header h [1; 2; 3]) [1; 2; 3] 35.

Lemma example_frame_valid : frame_valid 64 example_frame.
Proof.
  unfold frame_valid, header_fits, example_frame, complete_header, unsigned, payload_checksum.
  cbn [fheader fpayload total_size version opcode request_id payload_len flags payload_crc].
  split_and!; done || apply Crc32c_range.
Qed.

Lemma FrameDecoder_exact_witness :
  Next (newDecoder 64) (frame_bytes (fheader example_frame) [1; 2; 3] ++ [9])
  = (kFrame example_frame, newDecoder 64).
Proof.
  apply FrameDecoder_exact.
  - unfold frame_bytes, header_bytes, header_prefix.
    rewrite !Forall_app. repeat split; try apply le_bytes_is_byte; by repeat constructor.
  - split; [apply example_frame_valid|]. by exists [9].
Defined.

(** Encoding a frame appends exactly its wire bytes to the output buffer, behind
    whatever is already queued there, and the decoder run on those bytes followed
    by anything returns the header with its length and checksum filled in, and
    the payload. *)
Theorem frame_roundtrip (op : OpCode) (rid fl : Z) (payload : bytes) (out : ByteBuffer) (maxp : Z)
    (rest : bytes) :
  op ≠ opUnknown → unsigned 64 rid → unsigned 16 fl → zlen payload ≤ maxp → maxp < 2 ^ 32 →
  buffer_wf out →
  let out' := EncodeFrame_op op rid fl payload out in
  buffer_wf out' ∧
  ∃ sent, Readable out' = Readable out ++ sent ∧
  Next (newDecoder maxp) (sent ++ rest)
  = (kFrame (mkFrame (mkFrameHeader kProtocolVersion op rid (zlen payload) fl (payload_checksum payload))
               payload (kFrameHeaderSize + zlen payload)), newDecoder maxp).
Proof.
  intros Hop Hr Hf Hl Hm Hwf out'. set (h := mkFrameHeader kProtocolVersion op rid 0 fl 0).
  destruct (EncodeFrame_spec h payload out Hwf) as [Hwf' HR]. split; [done|].
  eexists. split; [exact HR|]. unfold frame_bytes, complete_header, h.
  cbn [version opcode request_id flags].
  assert (Hu : unsigned 32 (zlen payload)) by (unfold unsigned; zlist).
  rewrite uwrap_small by done. set (h' := mkFrameHeader _ _ _ _ _ _).
  apply (Next_wire maxp (mkFrame h' payload _)).
  split; [|by repeat split]. split; [done|]. split; [done|]. split; [done|].
  split; [done|]. split; [done|]. apply payload_checksum_range.
Qed.

Lemma frame_roundtrip_witness :
  buffer_wf (EncodeFrame_op kProduce 1 0 [5; 6] emptyBuffer).
Proof.
  apply (frame_roundtrip kProduce 1 0 [5; 6] emptyBuffer 64 []);
    first [done | apply emptyBuffer_wf].
Defined.
