(* ===== verification/Record.v ===== *)
(** * Record: the record format, on the wire and on disk

    Models include/pulselog/protocol/record.h and src/protocol/record.cc.  A
    parsed record views its key and value in place, so a [RecordView] holds
    spans of the parsed data.  Lengths read from varints are arbitrary 64-bit
    values: sums that involve them wrap at 2^64 as in the source; sums of
    positions and sizes of buffers in memory do not reach that width. *)
From S2P Require Import Prelude Status Endian Crc32c Buffer Codec Frame.

Definition kRecordFixedPrefix : Z := 25.
Definition kMaxRecordBytes : Z := 16 * 1024 * 1024.

Definition kOffLength : Z := 0.
Definition kOffCrc : Z := 4.
Definition kOffOffset : Z := 8.
Definition kOffTimestamp : Z := 16.
Definition kOffAttributes : Z := 24.
Definition kVarintStart : Z := 25.

Definition kTombstone : Z := 0x04.

(** A ByteSpan into the parsed data. *)
Record Span := mkSpan { sp_pos : Z; sp_len : Z }.
Definition span_bytes (data : bytes) (s : Span) : bytes := slice (sp_pos s) (sp_len s) data.
Definition span_in (data : bytes) (s : Span) : Prop :=
  0 ≤ sp_pos s ∧ 0 ≤ sp_len s ∧ sp_pos s + sp_len s ≤ zlen data.

Record RecordView := mkRecordView {
  rv_offset : Z; rv_timestamp : Z; rv_attributes : Z; rv_key_is_null : bool;
  rv_key : Span; rv_value : Span }.
Definition tombstone (v : RecordView) : bool := negb (Z.land (rv_attributes v) kTombstone =? 0).

(** [while (v >= 0x80) { v >>= 7; ++n; }] *)
Fixpoint varuint_size_loop (fuel : nat) (v n : Z) : Z :=
  match fuel with
  | O => n
  | S fuel => if 0x80 <=? v then varuint_size_loop fuel (Z.shiftr v 7) (n + 1) else n
  end.
Definition VarUIntSize (v : Z) : Z := varuint_size_loop 10 v 1.

(** The bytes [WriteVarUInt] stores at [dst]. *)
Definition WriteVarUInt (v : Z) : bytes := varuint_bytes v.

Fixpoint read_varuint_loop (fuel : nat) (data : bytes) (pos value shift consumed : Z)
    : option (Z * Z) :=
  match fuel with
  | O => None
  | S fuel =>
      if (shift <=? 63) && (pos + consumed <? zlen data) then
        let byte := znth data (pos + consumed) in
        let consumed := consumed + 1 in
        let value := Z.lor value (u64 (Z.shiftl (Z.land byte 0x7F) shift)) in
        if Z.land byte 0x80 =? 0 then Some (value, consumed)
        else read_varuint_loop fuel data pos value (shift + 7) consumed
      else None
  end.
(** The value and the bytes consumed; [None] is the 0 return. *)
Definition ReadVarUInt (data : bytes) (pos : Z) : option (Z * Z) :=
  read_varuint_loop 11 data pos 0 0 0.

Definition record_key_field (key_is_null : bool) (key_len : Z) : Z :=
  if key_is_null then 0 else u64 (key_len + 1).

Definition EncodedRecordSize (key_is_null : bool) (key_len value_len : Z) : Z :=
  let key_field := record_key_field key_is_null key_len in
  kRecordFixedPrefix + VarUIntSize key_field + VarUIntSize value_len +
  (if key_is_null then 0 else key_len) + value_len.

(** The stores of [AppendRecord] into the [total] bytes at [dst]. *)
Definition store_record (offset timestamp attributes : Z) (key_is_null : bool) (key value : bytes)
    (total : Z) (dst : bytes) : bytes :=
  let dst := zsplice kOffLength (StoreLe 4 (u32 (total - 4))) dst in
  let dst := zsplice kOffOffset (StoreLeI64 offset) dst in
  let dst := zsplice kOffTimestamp (StoreLeI64 timestamp) dst in
  let dst := zsplice kOffAttributes [attributes] dst in
  let pos := kVarintStart in
  let kf := WriteVarUInt (record_key_field key_is_null (zlen key)) in
  let dst := zsplice pos kf dst in
  let pos := pos + zlen kf in
  let vl := WriteVarUInt (zlen value) in
  let dst := zsplice pos vl dst in
  let pos := pos + zlen vl in
  let '(dst, pos) := if negb key_is_null && negb (zlen key =? 0)
                     then (zsplice pos key dst, pos + zlen key) else (dst, pos) in
  let '(dst, pos) := if negb (zlen value =? 0)
                     then (zsplice pos value dst, pos + zlen value) else (dst, pos) in
  let crc := Crc32c (slice kOffOffset (total - kOffOffset) dst) in
  zsplice kOffCrc (StoreLe 4 crc) dst.

Definition AppendRecord (offset timestamp attributes : Z) (key_is_null : bool) (key value : bytes)
    (out : ByteBuffer) : Z * ByteBuffer :=
  let total := EncodedRecordSize key_is_null (zlen key) (zlen value) in
  let out := EnsureWritable total out in
  let dst := slice (write_pos out) total (storage out) in
  let dst := store_record offset timestamp attributes key_is_null key value total dst in
  (total, Commit total (PokeWritable dst out)).

(** [record] is the memory at [record_start], [record_size] its size. *)
Definition RewriteRecordOffset (record : bytes) (record_size offset : Z) : bytes :=
  let record := zsplice kOffOffset (StoreLeI64 offset) record in
  let crc := Crc32c (slice kOffOffset (record_size - kOffOffset) record) in
  zsplice kOffCrc (StoreLe 4 crc) record.

Definition RewriteRecordHeader (record : bytes) (record_size offset timestamp : Z) : bytes :=
  let record := zsplice kOffOffset (StoreLeI64 offset) record in
  let record := zsplice kOffTimestamp (StoreLeI64 timestamp) record in
  let crc := Crc32c (slice kOffOffset (record_size - kOffOffset) record) in
  zsplice kOffCrc (StoreLe 4 crc) record.

Definition load_i64_at (off : Z) (src : bytes) : Z := LoadLeI64 (zdrop off src).

Definition PeekRecordTimestamp (record : bytes) : Z := load_i64_at kOffTimestamp record.

Definition PeekRecordLength (data : bytes) (pos : Z) : option Z :=
  if zlen data <? pos + 4 then None else Some (load_at 4 pos data).

Definition ParseRecord (data : bytes) (pos : Z) (verify_crc : bool) : Result (RecordView * Z) :=
  if zlen data <? pos + kRecordFixedPrefix then Err kOutOfRange else
  let length := load_at 4 (pos + kOffLength) data in
  if length <? kRecordFixedPrefix - 4 then Err kCorruption else
  if kMaxRecordBytes <? length then Err kCorruption else
  let total := length + 4 in
  if zlen data <? pos + total then Err kOutOfRange else
  let stored := load_at 4 (pos + kOffCrc) data in
  let computed := Crc32c (slice (pos + kOffOffset) (total - kOffOffset) data) in
  if verify_crc && negb (stored =? computed) then Err kCorruption else
  let offset := load_i64_at (pos + kOffOffset) data in
  let timestamp := load_i64_at (pos + kOffTimestamp) data in
  let attributes := znth data (pos + kOffAttributes) in
  let cursor := pos + kVarintStart in
  match ReadVarUInt data cursor with
  | None => Err kCorruption
  | Some (key_field, consumed) =>
      let cursor := cursor + consumed in
      match ReadVarUInt data cursor with
      | None => Err kCorruption
      | Some (value_len, consumed) =>
          let cursor := cursor + consumed in
          let key_is_null := key_field =? 0 in
          let key_len := if key_is_null then 0 else key_field - 1 in
          let record_end := pos + total in
          if (record_end <? u64 (cursor + key_len))
             || (record_end <? u64 (cursor + key_len + value_len))
          then Err kCorruption
          else if negb (u64 (cursor + key_len + value_len) =? record_end) then Err kCorruption
          else
            let key := if key_is_null then mkSpan 0 0 else mkSpan cursor key_len in
            let value := mkSpan (u64 (cursor + key_len)) value_len in
            Ok (mkRecordView offset timestamp attributes key_is_null key value, record_end)
      end
  end.

(** ** RecordIterator *)

Record RecordIterator := mkIter {
  it_data : bytes; it_verify_crc : bool; it_pos : Z; records_read : Z; it_status : option ErrorCode }.
Definition newIterator (data : bytes) (verify_crc : bool) : RecordIterator :=
  mkIter data verify_crc 0 0 None.

Definition NextRecord (it : RecordIterator) : option RecordView * RecordIterator :=
  match it_status it with
  | Some _ => (None, it)
  | None =>
      if zlen (it_data it) <=? it_pos it then (None, it) else
      match ParseRecord (it_data it) (it_pos it) (it_verify_crc it) with
      | Err e => (None, mkIter (it_data it) (it_verify_crc it) (it_pos it) (records_read it) (Some e))
      | Ok (v, next) =>
          (Some v, mkIter (it_data it) (it_verify_crc it) next (records_read it + 1) None)
      end
  end.

(** ** Variable-length integers: the record parser reads what the codec reads *)

Lemma znth_slice (data : bytes) p : 0 ≤ p < zlen data → slice p 1 data = [znth data p].
Proof.
  intros Hp. unfold slice, ztake, zdrop, znth. change (Z.to_nat 1) with 1%nat.
  destruct (drop (Z.to_nat p) data) as [|x l] eqn:E.
  - apply (f_equal (@length _)) in E. rewrite length_drop in E. unfold zlen in Hp. simpl in E. lia.
  - simpl. f_equal. rewrite <- (take_drop (Z.to_nat p) data), E.
    rewrite app_nth2; rewrite length_take; unfold zlen in Hp; [|lia].
    replace (_ - _)%nat with 0%nat by lia. done.
Qed.

Lemma read_get_varuint fuel data pos value shift consumed f :
  0 ≤ pos + consumed →
  read_varuint_loop fuel data pos value shift consumed =
  match get_varuint_loop fuel value shift (mkReader data (pos + consumed) f) with
  | (Some v, r) => Some (v, rpos r - pos)
  | (None, _) => None
  end.
Proof.
  revert value shift consumed. induction fuel as [|fuel IH]; intros value shift consumed Hp; [done|].
  cbn [read_varuint_loop get_varuint_loop]. destruct (shift <=? 63); [|done]. cbn [andb].
  unfold gbind, GetU8, gbind, take_bytes, Remaining; cbn [rdata rpos rfailed].
  destruct (Z.ltb_spec (pos + consumed) (zlen data)), (Z.ltb_spec (zlen data - (pos + consumed)) 1);
    [lia| |done|lia].
  rewrite znth_slice by lia. cbv zeta. cbn [gret].
  change (znth [znth data (pos + consumed)] 0) with (znth data (pos + consumed)).
  destruct (Z.land (znth data (pos + consumed)) 128 =? 0).
  - cbn. do 2 f_equal. lia.
  - rewrite IH by lia. by rewrite Z.add_assoc.
Qed.

Lemma ReadVarUInt_reads data pos bs rest v :
  0 ≤ pos ≤ zlen data → zdrop pos data = bs ++ rest → reads GetVarUInt bs v →
  ReadVarUInt data pos = Some (v, zlen bs).
Proof.
  intros Hp Hd Hr. unfold ReadVarUInt. rewrite (read_get_varuint _ _ _ _ _ _ false) by lia.
  rewrite Z.add_0_r. fold GetVarUInt. rewrite (Hr data pos false rest) by done. cbn.
  do 2 f_equal. lia.
Qed.

Lemma slice_uncons (data : bytes) p n :
  0 ≤ p < zlen data → 1 ≤ n → slice p n data = znth data p :: slice (p + 1) (n - 1) data.
Proof.
  intros Hp Hn. replace n with (1 + (n - 1)) at 1 by lia.
  rewrite <- (slice_split p 1 (p + 1)) by lia. by rewrite znth_slice.
Qed.

(** What it consumed decodes to the same value anywhere. *)
Lemma read_varuint_inv fuel data pos value shift consumed v n :
  0 ≤ pos + consumed → read_varuint_loop fuel data pos value shift consumed = Some (v, n) →
  consumed < n ∧ pos + n ≤ zlen data ∧
  reads (get_varuint_loop fuel value shift) (slice (pos + consumed) (n - consumed) data) v.
Proof.
  revert value shift consumed. induction fuel as [|fuel IH]; intros value shift consumed Hp; [done|].
  cbn [read_varuint_loop get_varuint_loop]. destruct (shift <=? 63); [|done]. cbn [andb].
  destruct (Z.ltb_spec (pos + consumed) (zlen data)); [|done]. cbv zeta.
  destruct (Z.land (znth data (pos + consumed)) 128 =? 0) eqn:Hb.
  - intros [= <- <-]. split_and!; [lia|lia|].
    replace (consumed + 1 - consumed) with 1 by lia. rewrite znth_slice by lia.
    rewrite <- (app_nil_r [_]). eapply reads_bind; [apply reads_U8|]. cbv zeta. rewrite Hb.
    apply reads_ret.
  - intros Hrec. apply IH in Hrec as (Hc & Hn & Hr); [|lia]. split_and!; [lia|lia|].
    rewrite slice_uncons by lia. apply (reads_bind _ _ [_] _ (znth data (pos + consumed)));
      [apply reads_U8|]. cbv zeta. rewrite Hb.
    replace (pos + consumed + 1) with (pos + (consumed + 1)) by lia.
    replace (n - consumed - 1) with (n - (consumed + 1)) by lia. done.
Qed.

Lemma ReadVarUInt_inv data pos v n :
  0 ≤ pos → ReadVarUInt data pos = Some (v, n) →
  0 < n ∧ pos + n ≤ zlen data ∧ reads GetVarUInt (slice pos n data) v.
Proof.
  intros Hp H. apply read_varuint_inv in H as (H1 & H2 & H3); [|lia].
  rewrite Z.add_0_r, Z.sub_0_r in H3. done.
Qed.

Lemma varuint_size_loop_len n v k :
  (0 < n)%nat → v < 2 ^ (7 * Z.of_nat n) → varuint_size_loop n v k = k - 1 + zlen (varuint_loop n v).
Proof.
  revert v k. induction n as [|n IH]; intros v k Hn Hv; [lia|].
  cbn [varuint_size_loop varuint_loop]. destruct (Z.leb_spec 0x80 v).
  - destruct n as [|n]; [change (2 ^ (7 * Z.of_nat 1)) with 128 in Hv; lia|].
    rewrite IH, zlen_cons; [lia|lia|]. rewrite Z.shiftr_div_pow2 by lia.
    apply Z.div_lt_upper_bound; [lia|]. rewrite <- Z.pow_add_r by lia.
    replace (7 + 7 * Z.of_nat (S n)) with (7 * Z.of_nat (S (S n))) by lia. done.
  - rewrite zlen_cons, zlen_nil. lia.
Qed.

Lemma VarUIntSize_len v : v < 2 ^ 64 → VarUIntSize v = zlen (varuint_bytes v).
Proof.
  intros Hv. unfold VarUIntSize, varuint_bytes. rewrite varuint_size_loop_len; [lia|lia|].
  apply Z.lt_le_trans with (2 ^ 64); [done|]. by apply Z.pow_le_mono_r.
Qed.

(** ** What a record means, and the byte strings that mean it *)

Record LogRecord := mkLogRecord {
  lr_offset : Z; lr_timestamp : Z; lr_attributes : Z; lr_key : option bytes; lr_value : bytes }.

Definition key_bytes (x : LogRecord) : bytes := default [] (lr_key x).
Definition key_field (x : LogRecord) : Z :=
  match lr_key x with None => 0 | Some k => zlen k + 1 end.
Definition set_header (off ts : Z) (x : LogRecord) : LogRecord :=
  mkLogRecord off ts (lr_attributes x) (lr_key x) (lr_value x).

(** Everything after the checksum, given the two length encodings used. *)
Definition record_body (x : LogRecord) (kfb vlb : bytes) : bytes :=
  StoreLeI64 (lr_offset x) ++ StoreLeI64 (lr_timestamp x) ++
  [lr_attributes x] ++ kfb ++ vlb ++ key_bytes x ++ lr_value x.
Definition record_image (crc : Z) (body : bytes) : bytes :=
  StoreLe 4 (4 + zlen body) ++ StoreLe 4 crc ++ body.

(** [shape r x crc]: [r] lays out [x] with checksum field [crc].  Length varints may
    be encoded in any way that reads back, since the parser does not insist on the
    shortest one. *)
Definition shape (r : bytes) (x : LogRecord) (crc : Z) : Prop := ∃ kfb vlb,
  reads GetVarUInt kfb (key_field x) ∧ reads GetVarUInt vlb (zlen (lr_value x)) ∧
  r = record_image crc (record_body x kfb vlb) ∧
  4 + zlen (record_body x kfb vlb) ≤ kMaxRecordBytes ∧
  signed 64 (lr_offset x) ∧ signed 64 (lr_timestamp x) ∧ unsigned 32 crc.

(** A record with a valid checksum, as it stands in a log. *)
Definition encodes (r : bytes) (x : LogRecord) : Prop := shape r x (Crc32c (zdrop 8 r)).

Definition view_shows (data : bytes) (v : RecordView) (x : LogRecord) : Prop :=
  rv_offset v = lr_offset x ∧ rv_timestamp v = lr_timestamp x ∧
  rv_attributes v = lr_attributes x ∧
  rv_key_is_null v = bool_decide (lr_key x = None) ∧
  span_in data (rv_key v) ∧ span_bytes data (rv_key v) = key_bytes x ∧
  span_in data (rv_value v) ∧ span_bytes data (rv_value v) = lr_value x.

Lemma reads_varuint_nonempty bs v : reads GetVarUInt bs v → 1 ≤ zlen bs.
Proof.
  intros Hr. destruct bs; [|zlist]. specialize (Hr [] 0 false [] ltac:(zlist) eq_refl). done.
Qed.

Lemma zlen_record_body x kfb vlb :
  zlen (record_body x kfb vlb) =
  17 + zlen kfb + zlen vlb + zlen (key_bytes x) + zlen (lr_value x).
Proof. unfold record_body. autorewrite with zlist. lia. Qed.
Lemma zlen_record_image crc body : zlen (record_image crc body) = 8 + zlen body.
Proof. unfold record_image. autorewrite with zlist. lia. Qed.
Lemma drop_record_image crc body : zdrop 8 (record_image crc body) = body.
Proof. unfold record_image. rewrite app_assoc. by apply zdrop_app. Qed.

Lemma shape_bounds r x crc : shape r x crc → 27 ≤ zlen r ≤ kMaxRecordBytes + 4.
Proof.
  intros (kfb & vlb & Hk & Hv & -> & Hmax & _). rewrite zlen_record_image.
  apply reads_varuint_nonempty in Hk, Hv. rewrite zlen_record_body in *. zlist.
Qed.

Lemma load_at_shift n pos k data : 0 ≤ pos → 0 ≤ k → load_at n (pos + k) data = load_at n k (zdrop pos data).
Proof. intros. unfold load_at. by rewrite zdrop_zdrop. Qed.
Lemma load_i64_at_shift pos k data :
  0 ≤ pos → 0 ≤ k → load_i64_at (pos + k) data = load_i64_at k (zdrop pos data).
Proof. intros. unfold load_i64_at. by rewrite zdrop_zdrop. Qed.
Lemma slice_shift {A} pos k n (data : list A) :
  0 ≤ pos → 0 ≤ k → slice (pos + k) n data = slice k n (zdrop pos data).
Proof. intros. unfold slice. by rewrite zdrop_zdrop. Qed.
Lemma znth_shift pos k data : 0 ≤ pos → 0 ≤ k → znth data (pos + k) = znth (zdrop pos data) k.
Proof. intros. unfold znth, zdrop. rewrite nth_skipn. f_equal. lia. Qed.
Lemma load_i64_store off v (pre post : bytes) :
  off = zlen pre → signed 64 v → load_i64_at off (pre ++ StoreLeI64 v ++ post) = v.
Proof. intros -> Hv. unfold load_i64_at. rewrite zdrop_app by done. by apply LoadLeI64_StoreLeI64. Qed.

Lemma znth_app k a (pre post : bytes) : k = zlen pre → znth (pre ++ [a] ++ post) k = a.
Proof.
  intros ->. unfold znth, zlen. rewrite Nat2Z.id, app_nth2 by lia. by rewrite Nat.sub_diag.
Qed.

(** The fixed fields of a record image, read where [ParseRecord] reads them. *)
Lemma image_fields crc x kfb vlb post :
  let body := record_body x kfb vlb in
  let d := record_image crc body ++ post in
  4 + zlen body ≤ kMaxRecordBytes → signed 64 (lr_offset x) → signed 64 (lr_timestamp x) →
  unsigned 32 crc →
  load_at 4 0 d = 4 + zlen body ∧ load_at 4 4 d = crc ∧ slice 8 (zlen body) d = body ∧
  load_i64_at 8 d = lr_offset x ∧ load_i64_at 16 d = lr_timestamp x ∧
  znth d 24 = lr_attributes x ∧
  zdrop 25 d = kfb ++ vlb ++ key_bytes x ++ lr_value x ++ post.
Proof.
  intros body d Hmax Ho Ht Hc. unfold kMaxRecordBytes in Hmax.
  unfold d, record_image. rewrite <- !app_assoc.
  set (a0 := StoreLe 4 (4 + zlen body)). set (a1 := StoreLe 4 crc).
  split_and!.
  - apply (load_at_store 4 0 _ []); [done|]. unfold unsigned. zlist.
  - by apply load_at_store.
  - rewrite app_assoc. rewrite slice_app_r by done. change (8 - zlen (a0 ++ a1)) with 0.
    rewrite slice_0. by apply ztake_app.
  - unfold body, record_body. rewrite <- !app_assoc, app_assoc. by apply load_i64_store.
  - unfold body, record_body. rewrite <- !app_assoc. rewrite !(app_assoc _ _ (StoreLeI64 (lr_timestamp x) ++ _)).
    by apply load_i64_store.
  - unfold body, record_body. rewrite <- !app_assoc.
    rewrite !(app_assoc _ _ ([lr_attributes x] ++ _)). by apply znth_app.
  - unfold body, record_body. rewrite <- !app_assoc.
    rewrite !(app_assoc _ _ (kfb ++ _)). by apply zdrop_app.
Qed.

Lemma key_field_len x :
  (if key_field x =? 0 then 0 else key_field x - 1) = zlen (key_bytes x) ∧
  (key_field x =? 0) = bool_decide (lr_key x = None).
Proof.
  unfold key_field, key_bytes. destruct (lr_key x) as [k|]; simpl; [|done].
  destruct (Z.eqb_spec (zlen k + 1) 0); [zlist|]. split; [lia|done].
Qed.

(** Parsing a record where it stands, whatever precedes and follows it. *)
Lemma ParseRecord_shape data pos verify r x crc post :
  shape r x crc → (verify = true → crc = Crc32c (zdrop 8 r)) →
  0 ≤ pos ≤ zlen data → zlen data < 2 ^ 63 → zdrop pos data = r ++ post →
  ∃ v, ParseRecord data pos verify = Ok (v, pos + zlen r) ∧ view_shows data v x.
Proof.
  intros Hs Hcrc Hpos Hbig Hd. pose proof (shape_bounds _ _ _ Hs) as Hb.
  destruct Hs as (kfb & vlb & Hk & Hv & -> & Hmax & Ho & Ht & Hc).
  rewrite drop_record_image in Hcrc. rewrite zlen_record_image in *.
  set (body := record_body x kfb vlb) in *.
  destruct (image_fields crc x kfb vlb post Hmax Ho Ht Hc) as (F0 & F1 & F2 & F3 & F4 & F5 & F6).
  fold body in F0, F1, F2, F3, F4, F5, F6.
  set (d := record_image crc body ++ post) in *.
  assert (Hlen : zlen data = pos + (8 + zlen body) + zlen post).
  { apply (f_equal zlen) in Hd. rewrite zlen_zdrop in Hd. unfold d in Hd.
    rewrite zlen_app, zlen_record_image in Hd. lia. }
  assert (Hbody := zlen_record_body x kfb vlb). fold body in Hbody.
  pose proof (zlen_nonneg kfb). pose proof (zlen_nonneg vlb). pose proof (zlen_nonneg post).
  pose proof (zlen_nonneg (key_bytes x)). pose proof (zlen_nonneg (lr_value x)).
  assert (R1 : ReadVarUInt data (pos + 25) = Some (key_field x, zlen kfb)).
  { eapply ReadVarUInt_reads; [lia| |exact Hk]. rewrite <- zdrop_zdrop, Hd by lia. exact F6. }
  assert (R2 : ReadVarUInt data (pos + 25 + zlen kfb) = Some (zlen (lr_value x), zlen vlb)).
  { eapply ReadVarUInt_reads; [lia| |exact Hv].
    rewrite <- (zdrop_zdrop (zlen kfb)), <- (zdrop_zdrop 25), Hd, F6 by lia. by apply zdrop_app. }
  destruct (key_field_len x) as [KL KN].
  unfold ParseRecord, kRecordFixedPrefix, kOffLength, kOffCrc, kOffOffset, kOffTimestamp,
    kOffAttributes, kVarintStart.
  rewrite (load_at_shift 4 pos 0), (load_at_shift 4 pos 4), (slice_shift pos 8), (load_i64_at_shift pos 8),
    (load_i64_at_shift pos 16), (znth_shift pos 24), Hd, F0, F1, F3, F4, F5, R1, R2, KL, KN by lia.
  replace (4 + zlen body + 4 - 8) with (zlen body) by lia. rewrite F2.
  destruct (Z.ltb_spec (zlen data) (pos + 25)); [lia|].
  destruct (Z.ltb_spec (4 + zlen body) (25 - 4)); [lia|].
  destruct (Z.ltb_spec kMaxRecordBytes (4 + zlen body)); [lia|].
  destruct (Z.ltb_spec (zlen data) (pos + (4 + zlen body + 4))); [lia|].
  assert (Hver : verify && negb (crc =? Crc32c body) = false).
  { destruct verify; [|done]. rewrite (Hcrc eq_refl). by rewrite Z.eqb_refl. }
  rewrite Hver. rewrite !(uwrap_small 64) by (unfold unsigned; lia).
  destruct (Z.ltb_spec (pos + (4 + zlen body + 4))
    (pos + 25 + zlen kfb + zlen vlb + zlen (key_bytes x))); [lia|].
  destruct (Z.ltb_spec (pos + (4 + zlen body + 4))
    (pos + 25 + zlen kfb + zlen vlb + zlen (key_bytes x) + zlen (lr_value x))); [lia|].
  destruct (Z.eqb_spec (pos + 25 + zlen kfb + zlen vlb + zlen (key_bytes x) + zlen (lr_value x))
    (pos + (4 + zlen body + 4))); [|lia]. cbn [orb negb].
  eexists. split; [do 2 f_equal; lia|].
  assert (D : zdrop (pos + 25 + zlen kfb + zlen vlb) data = key_bytes x ++ lr_value x ++ post).
  { rewrite <- (zdrop_zdrop (zlen vlb)), <- (zdrop_zdrop (zlen kfb)), <- (zdrop_zdrop 25), Hd, F6 by lia.
    rewrite zdrop_app by done. by apply zdrop_app. }
  unfold view_shows; cbn [rv_offset rv_timestamp rv_attributes rv_key_is_null rv_key rv_value].
  split_and!; try done.
  - unfold span_in. case_bool_decide; cbn [sp_pos sp_len]; lia.
  - unfold span_bytes. case_bool_decide as Hn; simpl.
    + unfold key_bytes. rewrite Hn. by apply ztake_0.
    + unfold slice. rewrite D. by apply ztake_app.
  - unfold span_in; cbn [sp_pos sp_len]. lia.
  - unfold span_bytes; simpl. unfold slice.
    rewrite <- zdrop_zdrop, D, zdrop_app by lia. by apply ztake_app.
Qed.

(** ** Encoding *)

Definition record_of (offset timestamp attributes : Z) (key_is_null : bool) (key value : bytes)
    : LogRecord :=
  mkLogRecord offset timestamp attributes (if key_is_null then None else Some key) value.

(** The body [AppendRecord] writes: shortest varints. *)
Definition canonical_body (x : LogRecord) : bytes :=
  record_body x (varuint_bytes (key_field x)) (varuint_bytes (zlen (lr_value x))).
Definition record_bytes (x : LogRecord) : bytes :=
  record_image (Crc32c (canonical_body x)) (canonical_body x).

(** What a producer may send: the parser's size limit and 64-bit header fields. *)
Definition record_fits (x : LogRecord) : Prop :=
  4 + zlen (canonical_body x) ≤ kMaxRecordBytes ∧
  signed 64 (lr_offset x) ∧ signed 64 (lr_timestamp x).

Lemma key_field_range x : zlen (canonical_body x) < 2 ^ 63 → unsigned 64 (key_field x).
Proof.
  unfold canonical_body. rewrite zlen_record_body. unfold key_bytes, key_field, unsigned.
  destruct (lr_key x); simpl; zlist.
Qed.

Lemma record_bytes_encodes x : record_fits x → encodes (record_bytes x) x.
Proof.
  intros (Hmax & Ho & Ht). unfold encodes, record_bytes. rewrite drop_record_image.
  change kMaxRecordBytes with 16777216 in *.
  exists (varuint_bytes (key_field x)), (varuint_bytes (zlen (lr_value x))).
  fold (canonical_body x). split_and!; try done.
  - apply reads_VarUInt, key_field_range. lia.
  - apply reads_VarUInt. unfold canonical_body in Hmax. rewrite zlen_record_body in Hmax.
    unfold unsigned. zlist.
  - apply Crc32c_range.
Qed.

Lemma EncodedRecordSize_spec off ts attr kn key value :
  zlen key < 2 ^ 62 → zlen value < 2 ^ 62 →
  EncodedRecordSize kn (zlen key) (zlen value)
  = 8 + zlen (canonical_body (record_of off ts attr kn key value)).
Proof.
  intros Hk Hv. unfold EncodedRecordSize, canonical_body, kRecordFixedPrefix.
  rewrite zlen_record_body. unfold record_of, key_field, key_bytes, record_key_field; simpl.
  pose proof (zlen_nonneg key).
  destruct kn; simpl; rewrite ?(uwrap_small 64) by (unfold unsigned; lia);
    rewrite !VarUIntSize_len by lia; change (@zlen Z []) with 0; lia.
Qed.

Lemma zsplice_nil {A} pos (l : list A) : zsplice pos [] l = l.
Proof. unfold zsplice. rewrite zlen_nil, Z.add_0_r. apply ztake_zdrop. Qed.

(** [if (nonempty) { memcpy(dst + pos, bs); pos += size; }] *)
Lemma store_optional (b : bool) pos (bs cs dst : bytes) :
  (if b then bs else []) = cs →
  (if b && negb (zlen bs =? 0) then (zsplice pos bs dst, pos + zlen bs) else (dst, pos))
  = (zsplice pos cs dst, pos + zlen cs).
Proof.
  intros <-. destruct b; simpl; [|by rewrite zsplice_nil, Z.add_0_r].
  destruct (Z.eqb_spec (zlen bs) 0) as [H0|]; simpl; [|done].
  apply zlen_0_nil in H0 as ->. by rewrite zsplice_nil, Z.add_0_r.
Qed.

Lemma store_record_spec off ts attr kn key value total dst :
  let x := record_of off ts attr kn key value in
  zlen key < 2 ^ 62 → record_fits x → total = 8 + zlen (canonical_body x) → zlen dst = total →
  store_record off ts attr kn key value total dst = record_bytes x.
Proof.
  intros x Hk (Hmax & _) Htot Hdst. change kMaxRecordBytes with 16777216 in Hmax.
  pose proof (zlen_nonneg (canonical_body x)).
  assert (HB := zlen_record_body x (varuint_bytes (key_field x)) (varuint_bytes (zlen (lr_value x)))).
  fold (canonical_body x) in HB. change (lr_value x) with value in HB.
  assert (Hkf : record_key_field kn (zlen key) = key_field x).
  { unfold record_key_field, x, record_of, key_field; simpl. destruct kn; [done|].
    apply uwrap_small. pose proof (zlen_nonneg key). unfold unsigned. lia. }
  unfold store_record. cbv zeta. unfold WriteVarUInt, kVarintStart. rewrite Hkf.
  set (kfb := varuint_bytes (key_field x)) in *. set (vlb := varuint_bytes (zlen value)) in *.
  rewrite (store_optional (negb kn) _ key (key_bytes x)) by (unfold x, record_of, key_bytes; by destruct kn).
  pose proof (store_optional true) as HO. cbn [andb] in HO. rewrite (HO _ value value) by done. clear HO.
  set (L := StoreLe 4 (u32 (total - 4))).
  assert (HL : zlen L = 4) by done.
  assert (Z0 : zsplice kOffLength L dst = L ++ zdrop (zlen L) dst)
    by exact (zsplice_next kOffLength L [] dst eq_refl).
  rewrite Z0.
  set (g := slice 4 4 dst). assert (Hg : zlen g = 4) by (apply zlen_slice; zlist).
  assert (Hd : zdrop (zlen L) dst = g ++ zdrop 8 dst).
  { rewrite HL. unfold g, slice. rewrite <- (ztake_zdrop 4 (zdrop 4 dst)) at 1.
    by rewrite zdrop_zdrop by lia. }
  rewrite Hd, app_assoc.
  do 7 (rewrite zsplice_next by (autorewrite with zlist; unfold kOffOffset, kOffTimestamp, kOffAttributes; lia)).
  rewrite !zdrop_zdrop by (autorewrite with zlist; zlist).
  rewrite (zdrop_all _ dst) by (autorewrite with zlist; lia).
  rewrite app_nil_r. rewrite <- !app_assoc.
  change (StoreLeI64 off ++ _) with (canonical_body x).
  rewrite (app_assoc L g). rewrite (slice_app_r kOffOffset) by (autorewrite with zlist; unfold kOffOffset; lia).
  assert (Hz : kOffOffset - zlen (L ++ g) = 0) by (autorewrite with zlist; unfold kOffOffset; lia).
  rewrite Hz, slice_0, (ztake_all _ (canonical_body x)) by (unfold kOffOffset; lia).
  rewrite <- (app_assoc L g), zsplice_next by (unfold kOffCrc; lia).
  rewrite (zdrop_app _ g) by (autorewrite with zlist; lia).
  unfold record_bytes, record_image, L. rewrite <- app_assoc.
  rewrite uwrap_small by (unfold unsigned; lia). do 2 f_equal. lia.
Qed.

Lemma AppendRecord_spec off ts attr kn key value out :
  let x := record_of off ts attr kn key value in
  buffer_wf out → zlen key < 2 ^ 62 → record_fits x →
  let '(n, out') := AppendRecord off ts attr kn key value out in
  n = zlen (record_bytes x) ∧ buffer_wf out' ∧ Readable out' = Readable out ++ record_bytes x.
Proof.
  intros x Hwf Hk Hf. unfold AppendRecord.
  assert (Hv : zlen value < 2 ^ 62).
  { destruct Hf as [Hmax _]. change kMaxRecordBytes with 16777216 in Hmax.
    unfold canonical_body in Hmax. rewrite zlen_record_body in Hmax.
    change (lr_value x) with value in Hmax. zlist. }
  rewrite (EncodedRecordSize_spec off ts attr) by done. fold x.
  assert (HL : 8 + zlen (canonical_body x) = zlen (record_bytes x))
    by (unfold record_bytes; by rewrite zlen_record_image).
  rewrite HL. destruct (EnsureWritable_spec (zlen (record_bytes x)) out Hwf) as (Hwf1 & HR1 & Hroom);
    [zlist|].
  set (b1 := EnsureWritable _ out) in *. unfold WritableBytes in Hroom.
  rewrite store_record_spec; [|done|done|done|].
  2:{ destruct Hwf1 as (?&?&?). apply zlen_slice; zlist. }
  fold x. destruct (PokeCommit_spec (record_bytes x) b1 Hwf1) as [Hwf2 HR2]; [done|].
  split; [done|]. split; [done|]. by rewrite HR2, HR1.
Qed.

(** ** Offset and timestamp assignment *)

Lemma set_header_body off ts x kfb vlb :
  record_body (set_header off ts x) kfb vlb
  = StoreLeI64 off ++ StoreLeI64 ts ++ zdrop 16 (record_body x kfb vlb).
Proof.
  unfold record_body. rewrite !(app_assoc _ (StoreLeI64 (lr_timestamp x))).
  by rewrite zdrop_app by done.
Qed.

Lemma rewrite_image crc x kfb vlb off ts :
  let r := record_image crc (record_body x kfb vlb) in
  let body' := record_body (set_header off ts x) kfb vlb in
  RewriteRecordHeader r (zlen r) off ts = record_image (Crc32c body') body'.
Proof.
  intros r body'. set (body := record_body x kfb vlb) in *.
  pose proof (zlen_record_body x kfb vlb) as HB. fold body in HB.
  pose proof (zlen_record_body (set_header off ts x) kfb vlb) as HB'. fold body' in HB'.
  change (key_bytes (set_header off ts x)) with (key_bytes x) in HB'.
  change (lr_value (set_header off ts x)) with (lr_value x) in HB'.
  assert (HE : body' = StoreLeI64 off ++ StoreLeI64 ts ++ zdrop 16 body) by apply set_header_body.
  pose proof (zlen_nonneg kfb); pose proof (zlen_nonneg vlb); pose proof (zlen_nonneg (key_bytes x));
    pose proof (zlen_nonneg (lr_value x)).
  unfold RewriteRecordHeader, r. rewrite zlen_record_image.
  unfold record_image at 1 2. set (L := StoreLe 4 (4 + zlen body)). set (C := StoreLe 4 crc).
  rewrite (app_assoc L C).
  do 2 (rewrite zsplice_next by (autorewrite with zlist; done)).
  rewrite zdrop_zdrop by done. rewrite <- !app_assoc.
  change (zdrop (zlen (StoreLeI64 off) + zlen (StoreLeI64 ts)) body) with (zdrop 16 body).
  rewrite <- HE. rewrite (app_assoc L C body'), slice_app_r by done.
  change (kOffOffset - zlen (L ++ C)) with 0. rewrite slice_0, (ztake_all _ body') by (unfold kOffOffset; lia).
  rewrite <- (app_assoc L C), zsplice_next by done. rewrite zdrop_app by done.
  unfold record_image. rewrite <- app_assoc. unfold L. by replace (zlen body') with (zlen body) by lia.
Qed.

Lemma Rewrite_encodes r x crc off ts :
  shape r x crc → signed 64 off → signed 64 ts →
  encodes (RewriteRecordHeader r (zlen r) off ts) (set_header off ts x) ∧
  zlen (RewriteRecordHeader r (zlen r) off ts) = zlen r.
Proof.
  intros (kfb & vlb & Hk & Hv & -> & Hmax & Ho & Ht & Hc) Hoff Hts.
  rewrite rewrite_image. rewrite !zlen_record_image.
  assert (HL : zlen (record_body (set_header off ts x) kfb vlb) = zlen (record_body x kfb vlb))
    by (by rewrite !zlen_record_body).
  split; [|by rewrite HL]. unfold encodes. rewrite drop_record_image.
  exists kfb, vlb. rewrite HL. split; [done|]. split; [done|]. split; [done|]. split; [done|].
  split; [done|]. split; [done|]. apply Crc32c_range.
Qed.

(** ** What the parser accepts *)

(** The record at [pos] does not announce an absurd key or value length.
    [ParseRecord] means to check this through the record's end; see
    [ParseRecord_wraps] for why it does not. *)
Definition sane_at (data : bytes) (pos : Z) : Prop := ∀ kf n1 vl n2,
  ReadVarUInt data (pos + kVarintStart) = Some (kf, n1) →
  ReadVarUInt data (pos + kVarintStart + n1) = Some (vl, n2) → kf < 2 ^ 62 ∧ vl < 2 ^ 62.

Lemma read_varuint_nonneg fuel data pos value shift consumed v n :
  0 ≤ value → read_varuint_loop fuel data pos value shift consumed = Some (v, n) → 0 ≤ v.
Proof.
  revert value shift consumed. induction fuel as [|fuel IH]; intros value shift consumed Hv; [done|].
  cbn [read_varuint_loop]. destruct (_ && _); [|done]. cbv zeta.
  assert (Hl : 0 ≤ Z.lor value (u64 (Z.shiftl (Z.land (znth data (pos + consumed)) 127) shift))).
  { apply Z.lor_nonneg. split; [done|]. by apply uwrap_range. }
  destruct (_ =? 0); [by intros [= <- <-]|]. by apply IH.
Qed.

Lemma StoreLeI64_load off (src : bytes) :
  Forall is_byte src → 0 ≤ off → off + 8 ≤ zlen src → StoreLeI64 (load_i64_at off src) = slice off 8 src.
Proof.
  intros Hb Hoff Hlen. unfold StoreLeI64, load_i64_at, LoadLeI64. fold (load_at 8 off src).
  pose proof (load_at_range 8 off src Hb Hoff Hlen) as Hr.
  assert (Hu : u64 (i64 (load_at 8 off src)) = load_at 8 off src).
  { unfold uwrap, swrap. rewrite Zminus_mod_idemp_l.
    replace (load_at 8 off src + 2 ^ (64 - 1) - 2 ^ (64 - 1)) with (load_at 8 off src) by lia.
    by apply Z.mod_small. }
  rewrite Hu. by apply StoreLe_load.
Qed.

Lemma load_i64_range off (src : bytes) : signed 64 (load_i64_at off src).
Proof. by apply swrap_range. Qed.

(** The pieces of a parsed record tile the bytes between [pos] and its end. *)
Lemma record_pieces data pos n1 n2 kl vl x :
  Forall is_byte data → 0 ≤ pos → 0 ≤ n1 → 0 ≤ n2 → 0 ≤ kl → 0 ≤ vl →
  let total := 25 + n1 + n2 + kl + vl in
  pos + total ≤ zlen data → load_at 4 pos data + 4 = total →
  lr_offset x = load_i64_at (pos + 8) data → lr_timestamp x = load_i64_at (pos + 16) data →
  lr_attributes x = znth data (pos + 24) → key_bytes x = slice (pos + 25 + n1 + n2) kl data →
  lr_value x = slice (pos + 25 + n1 + n2 + kl) vl data →
  let body := record_body x (slice (pos + 25) n1 data) (slice (pos + 25 + n1) n2 data) in
  slice (pos + 8) (total - 8) data = body ∧
  slice pos total data = record_image (load_at 4 (pos + 4) data) body.
Proof.
  intros Hb Hpos Hn1 Hn2 Hkl Hvl total Hlen Hlength Ho Ht Ha Hk Hv body.
  assert (HB : slice (pos + 8) (total - 8) data = body).
  { unfold body, record_body. rewrite Ho, Ht, Ha, Hk, Hv.
    rewrite !StoreLeI64_load by (done || lia). rewrite <- znth_slice by lia.
    rewrite !slice_split by lia. f_equal. lia. }
  split; [done|]. unfold record_image. rewrite <- HB.
  rewrite zlen_slice by lia. replace (4 + (total - 8)) with (load_at 4 pos data) by lia.
  rewrite !StoreLe_load by (done || lia). rewrite !slice_split by lia. f_equal. lia.
Qed.

Lemma ParseRecord_inv data pos verify v next :
  Forall is_byte data → sane_at data pos → 0 ≤ pos → zlen data < 2 ^ 62 →
  ParseRecord data pos verify = Ok (v, next) →
  let r := slice pos (next - pos) data in
  pos < next ≤ zlen data ∧
  ∃ x crc, shape r x crc ∧ view_shows data v x ∧ (verify = true → crc = Crc32c (zdrop 8 r)).
Proof.
  intros Hb Hsane Hpos Hbig.
  unfold ParseRecord, kRecordFixedPrefix, kOffLength, kOffCrc, kOffOffset, kOffTimestamp,
    kOffAttributes, kVarintStart. rewrite !Z.add_0_r.
  destruct (Z.ltb_spec (zlen data) (pos + 25)) as [|Hp]; [done|].
  destruct (Z.ltb_spec (load_at 4 pos data) (25 - 4)) as [|Hlo]; [done|].
  destruct (Z.ltb_spec kMaxRecordBytes (load_at 4 pos data)) as [|Hhi]; [done|].
  destruct (Z.ltb_spec (zlen data) (pos + (load_at 4 pos data + 4))) as [|Hin]; [done|].
  destruct (verify && _) eqn:Hver; [done|].
  destruct (ReadVarUInt data (pos + 25)) as [[kf n1]|] eqn:R1; [|done].
  destruct (ReadVarUInt data (pos + 25 + n1)) as [[vl n2]|] eqn:R2; [|done].
  destruct (Hsane kf n1 vl n2 R1 R2) as [Hkf Hvl].
  pose proof (read_varuint_nonneg _ _ _ 0 _ _ _ _ (Z.le_refl 0) R1).
  apply ReadVarUInt_inv in R1 as (Hn1 & Hn1' & R1); [|lia].
  pose proof (read_varuint_nonneg _ _ _ 0 _ _ _ _ (Z.le_refl 0) R2).
  apply ReadVarUInt_inv in R2 as (Hn2 & Hn2' & R2); [|lia].
  set (kl := if kf =? 0 then 0 else kf - 1).
  assert (Hkl : 0 ≤ kl < 2 ^ 62) by (unfold kl; destruct (Z.eqb_spec kf 0); lia).
  rewrite !(uwrap_small 64) by (unfold unsigned; lia).
  destruct (_ || _); [done|].
  destruct (Z.eqb_spec (pos + 25 + n1 + n2 + kl + vl) (pos + (load_at 4 pos data + 4))) as [He|];
    [|done]. cbn [negb]. intros [= <- <-].
  replace (pos + (load_at 4 pos data + 4) - pos) with (25 + n1 + n2 + kl + vl) by lia.
  split; [lia|].
  set (x := mkLogRecord (load_i64_at (pos + 8) data) (load_i64_at (pos + 16) data)
    (znth data (pos + 24))
    (if kf =? 0 then None else Some (slice (pos + 25 + n1 + n2) kl data))
    (slice (pos + 25 + n1 + n2 + kl) vl data)).
  assert (Hkb : key_bytes x = slice (pos + 25 + n1 + n2) kl data).
  { unfold key_bytes, x; simpl. unfold kl. destruct (kf =? 0); [|done]. by rewrite slice_nil. }
  destruct (record_pieces data pos n1 n2 kl vl x Hb Hpos ltac:(lia) ltac:(lia) ltac:(lia) ltac:(lia)
    ltac:(lia) ltac:(lia) eq_refl eq_refl eq_refl Hkb eq_refl) as [HB HI].
  set (body := record_body x _ _) in *.
  exists x, (load_at 4 (pos + 4) data). split_and!.
  - exists (slice (pos + 25) n1 data), (slice (pos + 25 + n1) n2 data). fold body.
    assert (Hf : key_field x = kf).
    { unfold key_field, x; simpl. destruct (Z.eqb_spec kf 0); [done|].
      rewrite zlen_slice by lia. unfold kl. destruct (Z.eqb_spec kf 0); lia. }
    rewrite Hf. unfold x at 1; cbn [lr_value]. rewrite zlen_slice by lia.
    split; [done|]. split; [done|]. split; [done|]. split.
    { rewrite <- HB, zlen_slice by lia. lia. }
    split; [apply load_i64_range|]. split; [apply load_i64_range|].
    apply (load_at_range 4); [done|lia|lia].
  - unfold view_shows; cbn [rv_offset rv_timestamp rv_attributes rv_key_is_null rv_key rv_value].
    split; [done|]. split; [done|]. split; [done|].
    split. { unfold x; simpl. by destruct (kf =? 0). }
    unfold span_in, span_bytes. rewrite Hkb. unfold kl in *.
    destruct (Z.eqb_spec kf 0); cbn [sp_pos sp_len]; split_and!; try lia; try done.
  - intros ->. cbn [andb] in Hver. apply negb_false_iff, Z.eqb_eq in Hver. rewrite Hver.
    f_equal. rewrite HI, drop_record_image, <- HB. f_equal. lia.
Qed.

(** A record written by [AppendRecord] reads back wherever it lands: appending a
    record that fits the size limit to any well-formed buffer appends exactly the
    announced number of bytes, and parsing those bytes between arbitrary
    neighbours, with checksum verification, yields the offset, timestamp,
    attributes, key (null or not) and value that were written, with both spans
    inside the data. *)
Theorem record_roundtrip (off ts attr : Z) (kn : bool) (key value pre post : bytes) (out : ByteBuffer) :
  let x := record_of off ts attr kn key value in
  buffer_wf out → zlen key < 2 ^ 62 → record_fits x →
  let '(n, out') := AppendRecord off ts attr kn key value out in
  buffer_wf out' ∧ ∃ r, Readable out' = Readable out ++ r ∧ zlen r = n ∧
  (zlen (pre ++ r ++ post) < 2 ^ 63 →
   ∃ v, ParseRecord (pre ++ r ++ post) (zlen pre) true = Ok (v, zlen pre + n) ∧
   view_shows (pre ++ r ++ post) v x).
Proof.
  intros x Hwf Hk Hf. pose proof (AppendRecord_spec off ts attr kn key value out Hwf Hk Hf) as HA.
  destruct (AppendRecord off ts attr kn key value out) as [n out'].
  destruct HA as (-> & Hwf' & HR). split; [done|]. exists (record_bytes x).
  split; [done|]. split; [done|]. intros Hbig.
  apply (ParseRecord_shape _ _ _ _ _ _ post (record_bytes_encodes x Hf)); try done.
  - zlist.
  - by apply zdrop_app.
Qed.

Lemma record_roundtrip_witness :
  let '(n, out') := AppendRecord 41 1700000000000 0 false [107] [118; 119] (newBuffer 16) in
  buffer_wf out'.
Proof.
  pose proof (record_roundtrip 41 1700000000000 0 false [107] [118; 119] [1] [2] (newBuffer 16)) as H.
  cbv zeta in H.
  destruct (AppendRecord 41 1700000000000 0 false [107] [118; 119] (newBuffer 16)) as [n out'].
  apply H.
  - unfold buffer_wf; simpl. repeat split; discriminate.
  - done.
  - vm_compute. repeat split; discriminate.
Defined.

(** Assigning an offset and a timestamp to a parsed record yields a record of the
    same size that parses, checksum verified, at the new offset and timestamp with
    the same attributes, key and value; the old checksum plays no role. *)
Theorem rewrite_header_spec (r : bytes) (x : LogRecord) (crc off ts : Z) (pre post : bytes) :
  shape r x crc → signed 64 off → signed 64 ts →
  let r' := RewriteRecordHeader r (zlen r) off ts in
  zlen r' = zlen r ∧
  (zlen (pre ++ r' ++ post) < 2 ^ 63 →
   ∃ v, ParseRecord (pre ++ r' ++ post) (zlen pre) true = Ok (v, zlen pre + zlen r) ∧
   view_shows (pre ++ r' ++ post) v (set_header off ts x)).
Proof.
  intros Hs Ho Ht r'. destruct (Rewrite_encodes r x crc off ts Hs Ho Ht) as [He Hl].
  fold r' in He, Hl. split; [done|]. intros Hbig. rewrite <- Hl.
  apply (ParseRecord_shape _ _ _ _ _ _ post He); try done.
  - zlist.
  - by apply zdrop_app.
Qed.

Definition example_record : LogRecord := record_of 0 7 0 false [107] [118].
Lemma example_record_fits : record_fits example_record.
Proof. vm_compute. repeat split; discriminate. Qed.

Lemma rewrite_header_spec_witness :
  zlen (RewriteRecordHeader (record_bytes example_record) (zlen (record_bytes example_record)) 90 8)
  = zlen (record_bytes example_record).
Proof.
  apply (rewrite_header_spec _ example_record
    (Crc32c (zdrop 8 (record_bytes example_record))) 90 8 [] []).
  - apply record_bytes_encodes, example_record_fits.
  - by vm_compute.
  - by vm_compute.
Defined.

(** C25. The verifying parser accepts exactly the well-formed records: unless the bytes
    at [pos] announce a key or value of 2^62 bytes or more, it succeeds with end
    [next] if and only if the bytes between them are the layout of some record
    with a matching checksum, and the key and value it then returns lie inside
    the data and are that record's.  (Lengths of that size wrap around in the parser, which
    then accepts bytes that are no record.) *)
Theorem ParseRecord_exact (data : bytes) (pos next : Z) :
  Forall is_byte data → sane_at data pos → zlen data < 2 ^ 62 → 0 ≤ pos →
  (∃ v, ParseRecord data pos true = Ok (v, next)) ↔
  pos < next ≤ zlen data ∧
  ∃ x, encodes (slice pos (next - pos) data) x ∧
       ∀ v, ParseRecord data pos true = Ok (v, next) → view_shows data v x.
Proof.
  intros Hb Hsane Hbig Hpos. split.
  - intros [v Hv]. pose proof (ParseRecord_inv _ _ _ _ _ Hb Hsane Hpos Hbig Hv)
      as (Hn & x & crc & Hs & Hview & Hc).
    split; [done|]. exists x. unfold encodes. rewrite <- Hc by done. split; [done|].
    intros v' Hv'. rewrite Hv in Hv'. by simplify_eq.
  - intros (Hn & x & He & _). set (r := slice pos (next - pos) data) in *.
    assert (Hl : zlen r = next - pos) by (apply zlen_slice; lia).
    destruct (ParseRecord_shape data pos true r x _ (zdrop next data) He) as (v & Hv & _);
      [done|lia|lia| |].
    + unfold r, slice. rewrite <- (ztake_zdrop (next - pos) (zdrop pos data)) at 1.
      rewrite zdrop_zdrop by lia. do 2 f_equal. lia.
    + exists v. rewrite Hv. do 2 f_equal. lia.
Qed.

Lemma ParseRecord_exact_witness :
  let data := [9] ++ record_bytes example_record in
  ∃ x, encodes (slice 1 (zlen data - 1) data) x.
Proof.
  intros data.
  destruct (ParseRecord_exact data 1 (zlen data)) as [H _].
  - unfold data, record_bytes, record_image. apply Forall_app. split; [by repeat constructor|].
    rewrite !Forall_app. split_and!; try apply le_bytes_is_byte. by repeat constructor.
  - intros kf n1 vl n2.
    assert (R1 : ReadVarUInt data (1 + kVarintStart) = Some (2, 1)) by (vm_compute; reflexivity).
    assert (R2 : ReadVarUInt data (1 + kVarintStart + 1) = Some (1, 1)) by (vm_compute; reflexivity).
    rewrite R1. intros [= <- <-]. rewrite R2. intros [= <- <-]. done.
  - by vm_compute.
  - done.
  - destruct H as (_ & x & He & _).
    + eexists. vm_compute. reflexivity.
    + by exists x.
Defined.

(** ** The iterator visits exactly the records of a run *)

(** A run of records: consecutive byte strings with what they mean. *)
Definition run_bytes (rs : list (bytes * LogRecord)) : bytes := concat (map fst rs).
Definition run_ok (verify : bool) (rs : list (bytes * LogRecord)) : Prop :=
  Forall (λ p, ∃ crc, shape p.1 p.2 crc ∧ (verify = true → crc = Crc32c (zdrop 8 p.1))) rs.

Fixpoint iterate (fuel : nat) (it : RecordIterator) : list RecordView * RecordIterator :=
  match fuel with
  | O => ([], it)
  | S fuel =>
      match NextRecord it with
      | (None, it) => ([], it)
      | (Some v, it) => let '(vs, it) := iterate fuel it in (v :: vs, it)
      end
  end.

Lemma iterate_run verify rs pre post fuel n :
  run_ok verify rs → zlen (pre ++ run_bytes rs ++ post) < 2 ^ 63 → (length rs < fuel)%nat →
  (post = [] ∨ ∃ e, ParseRecord (pre ++ run_bytes rs ++ post) (zlen pre + zlen (run_bytes rs)) verify = Err e) →
  let data := pre ++ run_bytes rs ++ post in
  let '(vs, it) := iterate fuel (mkIter data verify (zlen pre) n None) in
  Forall2 (view_shows data) vs (map snd rs) ∧
  it_pos it = zlen pre + zlen (run_bytes rs) ∧ records_read it = n + zlen rs ∧
  (it_status it = None ↔ post = []).
Proof.
  revert pre fuel n. induction rs as [|[r x] rs IH]; intros pre fuel n Hok Hbig Hfuel Hpost data.
  - destruct fuel as [|fuel]; [simpl in Hfuel; lia|]. change (run_bytes []) with (@nil Z) in *.
    cbn [iterate]. unfold NextRecord; cbn [it_status it_data it_pos it_verify_crc].
    change (zlen (@nil (bytes * LogRecord))) with 0. rewrite !zlen_nil, Z.add_0_r in *.
    destruct Hpost as [-> | [e He]].
    + destruct (Z.leb_spec (zlen data) (zlen pre)) as [|Hlt]; [|unfold data in Hlt; zlist].
      cbn [it_pos records_read it_status map]. split_and!; [apply List.Forall2_nil|lia|lia|done].
    + destruct (Z.leb_spec (zlen data) (zlen pre)) as [Hle|Hlt].
      * unfold data in Hle. assert (post = []) as -> by (apply zlen_0_nil; zlist).
        cbn [it_pos records_read it_status map]. split_and!; [apply List.Forall2_nil|lia|lia|done].
      * fold data in He. rewrite He. cbn [it_pos records_read it_status map]. split_and!; [apply List.Forall2_nil|lia|lia|].
        split; [done|]. intros ->. unfold data in Hlt. zlist.
  - destruct fuel as [|fuel]; [simpl in Hfuel; lia|]. cbn [iterate].
    inversion Hok as [|? ? (crc & Hs & Hc) Hok']; subst. cbn [fst snd] in *.
    assert (HE : data = (pre ++ r) ++ run_bytes rs ++ post).
    { unfold data. change (run_bytes ((r, x) :: rs)) with (r ++ run_bytes rs).
      by rewrite <- !app_assoc. }
    pose proof (shape_bounds _ _ _ Hs) as Hr.
    assert (HL : zlen data = zlen pre + zlen r + zlen (run_bytes rs) + zlen post)
      by (rewrite HE; autorewrite with zlist; lia).
    destruct (ParseRecord_shape data (zlen pre) verify r x crc (run_bytes rs ++ post) Hs Hc)
      as (v & Hv & Hview); [zlist|done| |].
    { rewrite HE, <- app_assoc. by apply zdrop_app. }
    unfold NextRecord; cbn [it_status it_data it_pos it_verify_crc].
    destruct (Z.leb_spec (zlen data) (zlen pre)); [zlist|]. rewrite Hv.
    specialize (IH (pre ++ r) fuel (n + 1) Hok').
    change (run_bytes ((r, x) :: rs)) with (r ++ run_bytes rs) in *.
    rewrite <- HE, zlen_app in IH. cbn [records_read].
    assert (HS : zlen pre + zlen (r ++ run_bytes rs) = zlen pre + zlen r + zlen (run_bytes rs)) by zlist.
    fold data in Hpost. rewrite HS in Hpost |- *.
    specialize (IH Hbig ltac:(simpl in Hfuel; lia) Hpost). cbv zeta in IH.
    destruct (iterate fuel _) as [vs it]. destruct IH as (I1 & I2 & I3 & I4).
    split_and!; [by apply List.Forall2_cons|done|rewrite I3, zlen_cons; lia|done].
Qed.

(** Iterating over a run of records visits exactly them, in order and with their
    contents, then stops: cleanly when nothing follows the run, with an error
    status and the cursor at the end of the last good record when what follows
    does not parse.  Nothing is skipped, repeated or read past the run. *)
Theorem RecordIterator_visits (verify : bool) (rs : list (bytes * LogRecord)) (post : bytes) :
  let data := run_bytes rs ++ post in
  run_ok verify rs → zlen data < 2 ^ 63 →
  (post = [] ∨ ∃ e, ParseRecord data (zlen (run_bytes rs)) verify = Err e) →
  let '(vs, it) := iterate (S (length rs)) (newIterator data verify) in
  Forall2 (view_shows data) vs (map snd rs) ∧
  it_pos it = zlen (run_bytes rs) ∧ records_read it = zlen rs ∧
  (it_status it = None ↔ post = []).
Proof.
  intros data Hok Hbig Hpost.
  exact (iterate_run verify rs [] post (S (length rs)) 0 Hok Hbig ltac:(lia) Hpost).
Qed.

Lemma RecordIterator_visits_witness :
  let rs := [(record_bytes example_record, example_record)] in
  let '(vs, it) := iterate 2 (newIterator (run_bytes rs ++ [1; 2]) true) in
  records_read it = 1.
Proof.
  intros rs. pose proof (RecordIterator_visits true rs [1; 2]) as H. cbv zeta in H.
  change (S (length rs)) with 2%nat in H.
  destruct (iterate 2 (newIterator (run_bytes rs ++ [1; 2]) true)) as [vs it].
  apply H.
  - constructor; [|constructor]. eexists. split; [apply record_bytes_encodes, example_record_fits|done].
  - by vm_compute.
  - right. exists kOutOfRange. by vm_compute.
Defined.

(** A 36-byte record whose key length varint is 2^64 - 5 and value length 5: the
    sums in the bounds checks wrap around. *)
Definition wrap_record : bytes :=
  StoreLe 4 32 ++ StoreLe 4 0 ++ StoreLeI64 0 ++ StoreLeI64 7 ++ [0] ++
  varuint_bytes (2 ^ 64 - 4) ++ [5].

(** [ParseRecord] accepts a record whose key span lies outside the data (it claims
    2^64 - 5 bytes of a 36-byte input), because the additions in its bounds check
    wrap; the comment above the check says a corrupt varint cannot do this. *)
Theorem ParseRecord_wraps :
  ∃ v, ParseRecord wrap_record 0 false = Ok (v, 36) ∧ zlen wrap_record = 36 ∧
  ¬ span_in wrap_record (rv_key v).
Proof.
  eexists. split; [vm_compute; reflexivity|]. split; [reflexivity|].
  unfold span_in. vm_compute. intros (_ & _ & H). by apply H.
Qed.
