(* ===== verification/FileUtil.v ===== *)
(** * FileUtil: files over an unreliable operating system

    Models the FileHandle of include/pulselog/storage/file_util.h and
    src/storage/file_util.cc (Linux branches).  A file carries the outcomes its
    next system calls will have, so that every statement quantifies over short
    transfers, interruptions and errors in any order; when the list runs out,
    calls succeed in full.  As documented for the calls themselves, a read
    returns 0 only at the end of the file.  [durable] is what the syncs of the file have
    secured: a full sync puts the content on stable media, a data sync only into the device,
    whose cache a power cut may lose; and once a sync has failed nothing more is taken to be
    secured, because the kernel may have dropped the pages it could not write, after which
    the next sync succeeds without them. *)
From S2P Require Import Prelude Status Buffer Types.

Inductive Outcome : Type := OFull | OShort (n : Z) | OErr (e : Errno).

Record Secured := mkSecured { at_device : bytes; on_media : bytes; sync_failed : bool }.
Record FileHandle := mkFile {
  content : bytes; durable : Secured; faults : list Outcome; fvalid : bool }.

(** A file as it is found after the machine has come up: all of it is on stable media. *)
Definition on_disk_file (bs : bytes) : Secured := mkSecured bs bs false.
Definition file_with (bs : bytes) (script : list Outcome) : FileHandle := mkFile bs (on_disk_file bs) script true.

Definition next_outcome : FileHandle → Outcome * FileHandle := λ f,
  match faults f with
  | [] => (OFull, f)
  | o :: rest => (o, mkFile (content f) (durable f) rest (fvalid f))
  end.

Definition set_content (c : bytes) (f : FileHandle) : FileHandle :=
  mkFile c (durable f) (faults f) (fvalid f).

(** Bytes placed at [pos]; a gap beyond the end reads as zeros. *)
Definition overwrite (pos : Z) (bs c : bytes) : bytes :=
  ztake pos c ++ replicate (Z.to_nat (pos - zlen c)) 0 ++ bs ++ zdrop (pos + zlen bs) c.

Definition clamp (lo hi n : Z) : Z := Z.max lo (Z.min n hi).

(** [pwrite(2)] of [bs] at [pos]: the count written, or an errno. *)
Definition pwrite (bs : bytes) (pos : Z) (f : FileHandle) : (Z + Errno) * FileHandle :=
  let '(o, f) := next_outcome f in
  match o with
  | OErr e => (inr e, f)
  | OFull => (inl (zlen bs), set_content (overwrite pos bs (content f)) f)
  | OShort n =>
      let k := clamp 0 (zlen bs) n in
      (inl k, if k =? 0 then f else set_content (overwrite pos (ztake k bs) (content f)) f)
  end.

(** [pread(2)] of up to [size] bytes at [pos]. *)
Definition pread (size pos : Z) (f : FileHandle) : (bytes + Errno) * FileHandle :=
  let '(o, f) := next_outcome f in
  let avail := slice pos size (content f) in
  match o with
  | OErr e => (inr e, f)
  | OFull => (inl avail, f)
  | OShort n => (inl (ztake (clamp 1 (zlen avail) n) avail), f)
  end.

Definition kMaxTransfer : Z := Z.shiftl 1 30.
Definition kMaxIovecs : Z := 64.

(** The rounds a retry loop can need: one per scripted outcome, one per byte. *)
Definition io_fuel (bytes_left : Z) (f : FileHandle) : nat :=
  S (length (faults f) + Z.to_nat bytes_left).

Fixpoint write_loop (fuel : nat) (p : bytes) (pos : Z) : SR FileHandle unit := λ f,
  match fuel with
  | O => (Err kInternal, f)
  | S fuel =>
      if zlen p =? 0 then (Ok tt, f) else
      let chunk := ztake (Z.min (zlen p) kMaxTransfer) p in
      match pwrite chunk pos f with
      | (inr EINTR, f) => write_loop fuel p pos f
      | (inr e, f) => (Err (ErrnoToStatus e), f)
      | (inl written, f) =>
          if written =? 0 then (Err kIoError, f)
          else write_loop fuel (zdrop written p) (pos + written) f
      end
  end.
Definition WriteAllAt (data : bytes) (offset : Z) : SR FileHandle unit := λ f,
  write_loop (io_fuel (zlen data) f) data offset f.

(** Consume whole iovecs, then partially consume the one we stopped inside. *)
Fixpoint consume_iovecs (consumed : Z) (vecs : list bytes) : list bytes :=
  match vecs with
  | [] => []
  | v :: rest =>
      if zlen v <=? consumed then consume_iovecs (consumed - zlen v) rest
      else if 0 <? consumed then zdrop consumed v :: rest else v :: rest
  end.

Fixpoint writev_loop (fuel : nat) (vecs : list bytes) (pos : Z) : SR FileHandle unit := λ f,
  match fuel with
  | O => (Err kInternal, f)
  | S fuel =>
      if zlen vecs =? 0 then (Ok tt, f) else
      let count := Z.min (zlen vecs) kMaxIovecs in
      match pwrite (concat (ztake count vecs)) pos f with
      | (inr EINTR, f) => writev_loop fuel vecs pos f
      | (inr e, f) => (Err (ErrnoToStatus e), f)
      | (inl written, f) =>
          if written =? 0 then (Err kIoError, f)
          else writev_loop fuel (consume_iovecs written vecs) (pos + written) f
      end
  end.
Definition WriteVectoredAt (chunks : list bytes) (offset : Z) : SR FileHandle unit := λ f,
  let vecs := List.filter (λ c, negb (zlen c =? 0)) chunks in
  if zlen vecs =? 0 then (Ok tt, f)
  else writev_loop (io_fuel (zlen (concat vecs)) f) vecs offset f.

Fixpoint read_loop (fuel : nat) (size offset : Z) (acc : bytes) : SR FileHandle bytes := λ f,
  match fuel with
  | O => (Err kInternal, f)
  | S fuel =>
      if size <=? zlen acc then (Ok acc, f) else
      match pread (size - zlen acc) (offset + zlen acc) f with
      | (inr EINTR, f) => read_loop fuel size offset acc f
      | (inr e, f) => (Err (ErrnoToStatus e), f)
      | (inl got, f) =>
          if zlen got =? 0 then (Ok acc, f) else read_loop fuel size offset (acc ++ got) f
      end
  end.
(** The bytes read stand for both the destination buffer and the count. *)
Definition ReadAt (size offset : Z) : SR FileHandle bytes := λ f,
  read_loop (io_fuel size f) size offset [] f.

Definition ReadExactAt (size offset : Z) : SR FileHandle bytes :=
  let! got := ReadAt size offset in
  if negb (zlen got =? size) then sfail kOutOfRange else sret got.

(** [while (call() != 0) { if (errno == EINTR) continue; return error; }] and then
    the effect of the call. *)
Fixpoint retry_loop (fuel : nat) (effect : FileHandle → FileHandle) : SR FileHandle unit := λ f,
  match fuel with
  | O => (Err kInternal, f)
  | S fuel =>
      let '(o, f) := next_outcome f in
      match o with
      | OErr EINTR => retry_loop fuel effect f
      | OErr e => (Err (ErrnoToStatus e), f)
      | _ => (Ok tt, effect f)
      end
  end.
Definition retry (effect : FileHandle → FileHandle) : SR FileHandle unit := λ f,
  retry_loop (S (length (faults f))) effect f.

Inductive SyncMode : Set := kFull | kData.
Inductive WriteMode : Set := kWrite | kWritev | kMmap.

Definition SyncModeName (m : SyncMode) : bytes := match m with kFull => str "full" | kData => str "data" end.
Definition WriteModeName (m : WriteMode) : bytes :=
  match m with kWrite => str "write" | kWritev => str "writev" | kMmap => str "mmap" end.
Definition ParseSyncMode (text : bytes) : option SyncMode :=
  if bool_decide (text = str "full") || bool_decide (text = str "fullfsync") then Some kFull
  else if bool_decide (text = str "data") || bool_decide (text = str "fdatasync") then Some kData
  else None.
Definition ParseWriteMode (text : bytes) : option WriteMode :=
  if bool_decide (text = str "write") then Some kWrite
  else if bool_decide (text = str "writev") then Some kWritev
  else if bool_decide (text = str "mmap") then Some kMmap
  else None.

(** What the contents of a file are secured against in each mode: [kFull] against a power
    cut, [kData] against everything that spares the device's cache. *)
Definition covered (mode : SyncMode) (d : Secured) : bytes := match mode with kFull => on_media d | kData => at_device d end.
Definition set_durable (d : Secured) (f : FileHandle) : FileHandle := mkFile (content f) d (faults f) (fvalid f).
(** The effect of a sync that returned success, and of one that returned an error. *)
Definition make_durable (mode : SyncMode) (f : FileHandle) : FileHandle :=
  let d := durable f in
  if sync_failed d then f
  else set_durable (mkSecured (content f) (match mode with kFull => content f | kData => on_media d end) false) f.
Definition mark_failed (f : FileHandle) : FileHandle := set_durable (mkSecured (at_device (durable f)) (on_media (durable f)) true) f.
(** fsync(2) for [kFull], fdatasync(2) for [kData]. *)
Definition SyncFile (mode : SyncMode) : SR FileHandle unit := λ f,
  match retry (make_durable mode) f with
  | (Ok _, f) => (Ok tt, f)
  | (Err e, f) => (Err e, mark_failed f)
  end.
Definition SyncData : SR FileHandle unit := SyncFile kData.

Definition Truncate (size : Z) : SR FileHandle unit :=
  retry (λ f, set_content (vector_resize size (content f)) f).

Definition Size : SR FileHandle Z := λ f,
  let '(o, f) := next_outcome f in
  match o with
  | OErr e => (Err (ErrnoToStatus e), f)
  | _ => (Ok (zlen (content f)), f)
  end.

(** Linux values of the two errnos that mean the call is unavailable. *)
Definition EOPNOTSUPP : Errno := EOther 95.
Definition ENOSYS : Errno := EOther 38.

(** posix_fallocate extends the file with zeros and never shrinks it. *)
Definition Preallocate (size : Z) : SR FileHandle unit := λ f,
  let '(o, f) := next_outcome f in
  match o with
  | OErr e =>
      if bool_decide (e = EOPNOTSUPP) || bool_decide (e = ENOSYS) then Truncate size f
      else (Err (ErrnoToStatus e), f)
  | _ => (Ok tt, set_content (vector_resize (Z.max size (zlen (content f))) (content f)) f)
  end.

Definition CloseFile (f : FileHandle) : FileHandle :=
  if fvalid f then mkFile (content f) (durable f) (faults f) false else f.

(** ** Overwriting *)

Lemma overwrite_in pos bs c :
  0 ≤ pos ≤ zlen c → overwrite pos bs c = ztake pos c ++ bs ++ zdrop (pos + zlen bs) c.
Proof. intros. unfold overwrite. by replace (Z.to_nat (pos - zlen c)) with 0%nat by lia. Qed.

Lemma overwrite_nil pos c : 0 ≤ pos ≤ zlen c → overwrite pos [] c = c.
Proof. intros. rewrite overwrite_in by done. rewrite zlen_nil, Z.add_0_r. apply ztake_zdrop. Qed.

Lemma zlen_overwrite pos bs c :
  0 ≤ pos ≤ zlen c → zlen (overwrite pos bs c) = Z.max (zlen c) (pos + zlen bs).
Proof. intros. rewrite overwrite_in by done. zlist. Qed.

Lemma overwrite_app pos a b c :
  0 ≤ pos ≤ zlen c → overwrite (pos + zlen a) b (overwrite pos a c) = overwrite pos (a ++ b) c.
Proof.
  intros Hp. pose proof (zlen_nonneg a). pose proof (zlen_nonneg b).
  rewrite (overwrite_in (pos + zlen a)) by (rewrite zlen_overwrite by done; lia).
  rewrite !overwrite_in by done.
  rewrite (app_assoc (ztake pos c) a), (ztake_app (pos + zlen a)) by (autorewrite with zlist; lia).
  rewrite zdrop_app_ge by (autorewrite with zlist; lia).
  rewrite zdrop_zdrop by (autorewrite with zlist; lia).
  rewrite <- !app_assoc. do 3 f_equal. f_equal. autorewrite with zlist. lia.
Qed.

Lemma ztake_overwrite pos bs c :
  0 ≤ pos ≤ zlen c → ztake (pos + zlen bs) (overwrite pos bs c) = ztake pos c ++ bs.
Proof.
  intros. rewrite overwrite_in, app_assoc by done. apply ztake_app. autorewrite with zlist. lia.
Qed.

(** Bytes before the write are untouched, however much of it succeeds. *)
Lemma ztake_overwrite_before n pos bs c :
  0 ≤ pos ≤ zlen c → n ≤ pos → ztake n (overwrite pos bs c) = ztake n c.
Proof.
  intros. rewrite overwrite_in by done. rewrite ztake_app_le by (autorewrite with zlist; lia).
  rewrite ztake_ztake. f_equal. lia.
Qed.

(** ** The retry loops complete, whatever the system calls do *)

(** Everything about a file except its content and its future. *)
Definition same_file (f f' : FileHandle) : Prop := durable f' = durable f ∧ fvalid f' = fvalid f.

(** What a write of [data] at [pos] left behind: all of it on success; on error a
    prefix, and an error that is the system's. *)
Definition wrote (data : bytes) (pos : Z) (f f' : FileHandle) (r : Result unit) : Prop :=
  same_file f f' ∧
  match r with
  | Ok _ => content f' = overwrite pos data (content f)
  | Err e => e ≠ kInternal ∧ ∃ k, 0 ≤ k ≤ zlen data ∧ content f' = overwrite pos (ztake k data) (content f)
  end.

Lemma next_outcome_spec f o f' :
  next_outcome f = (o, f') →
  content f' = content f ∧ same_file f f' ∧
  ((length (faults f') < length (faults f))%nat ∨ (o = OFull ∧ f' = f)).
Proof.
  unfold next_outcome, same_file. destruct (faults f) eqn:E; intros [= <- <-]; simpl; auto 6 with lia.
Qed.

Lemma ErrnoToStatus_not_internal e : ErrnoToStatus e ≠ kInternal.
Proof. by destruct e. Qed.

Lemma pwrite_spec bs pos f r f' :
  0 ≤ pos ≤ zlen (content f) → pwrite bs pos f = (r, f') →
  same_file f f' ∧ (length (faults f') ≤ length (faults f))%nat ∧
  match r with
  | inr _ => content f' = content f ∧ (length (faults f') < length (faults f))%nat
  | inl k => 0 ≤ k ≤ zlen bs ∧ content f' = overwrite pos (ztake k bs) (content f)
  end.
Proof.
  intros Hpos. unfold pwrite. destruct (next_outcome f) as [o f1] eqn:E.
  apply next_outcome_spec in E as (Hc & Hs & Hl). destruct o; intros [= <- <-].
  - split; [done|]. split; [destruct Hl as [|[_ ->]]; simpl; lia|].
    split; [zlist|]. simpl. by rewrite Hc, ztake_all by lia.
  - destruct Hl as [Hl|[Hbad _]]; [|done].
    assert (Hk : 0 ≤ clamp 0 (zlen bs) n ≤ zlen bs) by (unfold clamp; zlist).
    destruct (Z.eqb_spec (clamp 0 (zlen bs) n) 0) as [->|].
    + split; [done|]. split; [lia|]. split; [zlist|]. by rewrite ztake_0, overwrite_nil.
    + split; [done|]. split; [simpl; lia|]. split; [done|]. simpl. by rewrite Hc.
  - destruct Hl as [Hl|[Hbad _]]; [|done]. split; [done|]. split; [lia|]. by split.
Qed.

Lemma wrote_step data pos k f f1 f' r :
  0 ≤ pos ≤ zlen (content f) → 0 ≤ k ≤ zlen data → same_file f f1 →
  content f1 = overwrite pos (ztake k data) (content f) →
  wrote (zdrop k data) (pos + k) f1 f' r → wrote data pos f f' r.
Proof.
  intros Hpos Hk [Hd Hv] Hc ([Hd' Hv'] & Hr).
  assert (Hz : zlen (ztake k data) = k) by (rewrite zlen_ztake; lia).
  assert (HE : ∀ b, overwrite (pos + k) b (content f1) = overwrite pos (ztake k data ++ b) (content f)).
  { intros b. rewrite Hc. rewrite <- Hz at 1. by apply overwrite_app. }
  split; [split; congruence|]. destruct r as [[]|e].
  - rewrite Hr, HE. by rewrite ztake_zdrop.
  - destruct Hr as (He & j & Hj & ->). split; [done|]. exists (k + j).
    rewrite zlen_zdrop in Hj. split; [lia|]. rewrite HE. f_equal.
    rewrite <- (slice_0 k), <- (slice_0 (k + j)). change (ztake j (zdrop k data)) with (slice k j data).
    apply slice_split; lia.
Qed.

Lemma write_loop_spec fuel p pos f :
  0 ≤ pos ≤ zlen (content f) → (length (faults f) + length p < fuel)%nat →
  wrote p pos f (write_loop fuel p pos f).2 (write_loop fuel p pos f).1.
Proof.
  revert p pos f. induction fuel as [|fuel IH]; intros p pos f Hpos Hfuel; [lia|].
  cbn [write_loop]. destruct (Z.eqb_spec (zlen p) 0) as [H0|H0].
  - apply zlen_0_nil in H0 as ->. split; [done|]. simpl. by rewrite overwrite_nil.
  - assert (HK : kMaxTransfer = 1073741824) by done.
    set (chunk := ztake (Z.min (zlen p) kMaxTransfer) p).
    destruct (pwrite chunk pos f) as [[k|e] f1] eqn:E;
      (apply pwrite_spec in E as (Hs & Hl & Hk); [|done]).
    + destruct Hk as [Hk Hc]. assert (Hck : ztake k chunk = ztake k p).
      { unfold chunk. rewrite ztake_ztake. f_equal. unfold chunk in Hk. rewrite zlen_ztake in Hk. lia. }
      assert (Hkp : k ≤ zlen p) by (unfold chunk in Hk; rewrite zlen_ztake in Hk; lia).
      rewrite Hck in Hc. destruct (Z.eqb_spec k 0) as [->|Hk0].
      * split; [done|]. simpl. split; [done|]. exists 0. split; [zlist|done].
      * eapply (wrote_step p pos k); [done|lia|done|done|]. apply IH.
        -- rewrite Hc, zlen_overwrite by done. rewrite zlen_ztake. lia.
        -- unfold zlen in *. unfold zdrop. rewrite length_drop. lia.
    + destruct Hk as [Hc Hl']. destruct (decide (e = EINTR)) as [->|Hne].
      * eapply (wrote_step p pos 0); [done|zlist|done| |].
        -- by rewrite Hc, ztake_0, overwrite_nil.
        -- rewrite zdrop_0, Z.add_0_r by done. apply IH; [by rewrite Hc|lia].
      * destruct e; try done; (split; [done|]; split; [done|]; exists 0; split; [zlist|];
          simpl; by rewrite Hc, ztake_0, overwrite_nil).
Qed.

Lemma WriteAllAt_spec data pos f :
  0 ≤ pos ≤ zlen (content f) →
  wrote data pos f (WriteAllAt data pos f).2 (WriteAllAt data pos f).1.
Proof.
  intros. apply write_loop_spec; [done|]. unfold io_fuel, zlen. lia.
Qed.

Lemma consume_iovecs_spec k vecs :
  Forall (λ v, v ≠ []) vecs → 0 ≤ k ≤ zlen (concat vecs) →
  concat (consume_iovecs k vecs) = zdrop k (concat vecs) ∧ Forall (λ v, v ≠ []) (consume_iovecs k vecs).
Proof.
  revert k. induction vecs as [|v vecs IH]; intros k Hne Hk; [split; [by rewrite zdrop_all by zlist|done]|].
  cbn [concat consume_iovecs]. cbn [concat] in Hk. rewrite zlen_app in Hk.
  inversion Hne as [|? ? Hv Hrest]; subst. destruct (Z.leb_spec (zlen v) k).
  - rewrite zdrop_app_ge by lia. apply IH; [done|lia].
  - destruct (Z.ltb_spec 0 k).
    + cbn [concat]. rewrite zdrop_app_le by lia. split; [done|]. constructor; [|done].
      intros E. apply (f_equal zlen) in E. rewrite zlen_zdrop in E. change (@zlen Z []) with 0 in E. lia.
    + cbn [concat]. split; [by rewrite zdrop_0 by lia | by constructor].
Qed.

Lemma ztake_concat n (vecs : list bytes) : ∃ rest, concat vecs = concat (ztake n vecs) ++ rest.
Proof. exists (concat (zdrop n vecs)). by rewrite <- concat_app, ztake_zdrop. Qed.

Lemma writev_loop_spec fuel vecs pos f :
  Forall (λ v, v ≠ []) vecs → 0 ≤ pos ≤ zlen (content f) →
  (length (faults f) + length (concat vecs) < fuel)%nat →
  wrote (concat vecs) pos f (writev_loop fuel vecs pos f).2 (writev_loop fuel vecs pos f).1.
Proof.
  revert vecs pos f. induction fuel as [|fuel IH]; intros vecs pos f Hne Hpos Hfuel; [lia|].
  cbn [writev_loop]. destruct (Z.eqb_spec (zlen vecs) 0) as [H0|H0].
  - apply zlen_0_nil in H0 as ->. split; [done|]. simpl. by rewrite overwrite_nil.
  - set (out := concat (ztake (Z.min (zlen vecs) kMaxIovecs) vecs)).
    destruct (ztake_concat (Z.min (zlen vecs) kMaxIovecs) vecs) as [rest HE]. fold out in HE.
    destruct (pwrite out pos f) as [[k|e] f1] eqn:E;
      (apply pwrite_spec in E as (Hs & Hl & Hk); [|done]).
    + destruct Hk as [Hk Hc].
      assert (Hkp : k ≤ zlen (concat vecs)) by (rewrite HE, zlen_app; zlist).
      assert (Hck : ztake k out = ztake k (concat vecs)) by (by rewrite HE, ztake_app_le by lia).
      rewrite Hck in Hc. destruct (Z.eqb_spec k 0) as [->|Hk0].
      * split; [done|]. simpl. split; [done|]. exists 0. split; [zlist|done].
      * destruct (consume_iovecs_spec k vecs Hne ltac:(lia)) as [Hcc Hne'].
        eapply (wrote_step (concat vecs) pos k); [done|lia|done|done|].
        rewrite <- Hcc. apply IH; [done| |].
        -- rewrite Hc, zlen_overwrite by done. rewrite zlen_ztake. lia.
        -- rewrite Hcc. unfold zlen in *. unfold zdrop. rewrite length_drop. lia.
    + destruct Hk as [Hc Hl']. destruct (decide (e = EINTR)) as [->|Hne'].
      * eapply (wrote_step (concat vecs) pos 0); [done|zlist|done| |].
        -- by rewrite Hc, ztake_0, overwrite_nil.
        -- rewrite zdrop_0, Z.add_0_r by done. apply IH; [done|by rewrite Hc|lia].
      * destruct e; try done; (split; [done|]; split; [done|]; exists 0; split; [zlist|];
          simpl; by rewrite Hc, ztake_0, overwrite_nil).
Qed.

Lemma filter_concat (chunks : list bytes) :
  concat (List.filter (λ c, negb (zlen c =? 0)) chunks) = concat chunks ∧
  Forall (λ v, v ≠ []) (List.filter (λ c, negb (zlen c =? 0)) chunks).
Proof.
  induction chunks as [|c chunks [IH1 IH2]]; [done|]. cbn [List.filter concat].
  destruct (Z.eqb_spec (zlen c) 0) as [H0|H0]; cbn [negb].
  - apply zlen_0_nil in H0 as ->. by split.
  - cbn [concat]. rewrite IH1. split; [done|]. constructor; [|done]. by intros ->.
Qed.

Lemma WriteVectoredAt_spec chunks pos f :
  0 ≤ pos ≤ zlen (content f) →
  wrote (concat chunks) pos f (WriteVectoredAt chunks pos f).2 (WriteVectoredAt chunks pos f).1.
Proof.
  intros Hpos. unfold WriteVectoredAt. destruct (filter_concat chunks) as [HE Hne].
  set (vecs := List.filter _ chunks) in *. destruct (Z.eqb_spec (zlen vecs) 0) as [H0|H0].
  - rewrite <- HE. apply zlen_0_nil in H0. rewrite H0. split; [done|]. simpl. by rewrite overwrite_nil.
  - rewrite <- HE. apply writev_loop_spec; [done|done|]. unfold io_fuel, zlen. lia.
Qed.

Lemma pread_spec size pos f r f' :
  pread size pos f = (r, f') →
  content f' = content f ∧ same_file f f' ∧
  match r with
  | inr _ => (length (faults f') < length (faults f))%nat
  | inl got => (length (faults f') ≤ length (faults f))%nat ∧
      let avail := slice pos size (content f) in
      got = ztake (zlen got) avail ∧ zlen got ≤ zlen avail ∧ (got = [] → avail = [])
  end.
Proof.
  unfold pread. destruct (next_outcome f) as [o f1] eqn:E.
  apply next_outcome_spec in E as (Hc & Hs & Hl). rewrite Hc. set (avail := slice pos size (content f)).
  destruct o; intros [= <- <-]; (split; [done|]; split; [done|]).
  - split; [destruct Hl as [|[_ ->]]; lia|]. by rewrite ztake_all by lia.
  - destruct Hl as [Hl|[Hbad _]]; [|done]. split; [lia|]. pose proof (zlen_nonneg avail).
    split; [symmetry; apply ztake_zlen|]. split; [rewrite zlen_ztake; lia|].
    intros HE. apply (f_equal zlen) in HE. rewrite zlen_ztake in HE. change (@zlen Z []) with 0 in HE.
    apply zlen_0_nil. unfold clamp in HE. lia.
  - by destruct Hl as [Hl|[Hbad _]].
Qed.

(** What a read of [size] bytes at [pos] returned: everything there is, up to [size]. *)
Lemma read_loop_spec fuel size pos acc f :
  0 ≤ pos → acc = slice pos (zlen acc) (content f) → zlen acc ≤ Z.max size 0 →
  (length (faults f) + Z.to_nat (size - zlen acc) < fuel)%nat →
  let r := read_loop fuel size pos acc f in
  content r.2 = content f ∧ same_file f r.2 ∧
  match r.1 with
  | Ok bs => bs = slice pos size (content f)
  | Err e => e ≠ kInternal
  end.
Proof.
  revert acc f. induction fuel as [|fuel IH]; intros acc f Hpos Hacc Hle Hfuel; [lia|].
  cbn [read_loop]. destruct (Z.leb_spec size (zlen acc)) as [Hs|Hs].
  - simpl. split; [done|]. split; [done|]. rewrite Hacc at 1.
    destruct (Z.le_gt_cases 0 size); [f_equal; lia|].
    assert (zlen acc = 0) as -> by zlist. unfold slice. by rewrite !ztake_0 by lia.
  - destruct (pread (size - zlen acc) (pos + zlen acc) f) as [[got|e] f1] eqn:E;
      apply pread_spec in E as (Hc & Hsf & Hg).
    + destruct Hg as (Hl & Hgot & Hgl & Hgn).
      assert (HA : slice (pos + zlen acc) (size - zlen acc) (content f) = zdrop (zlen acc) (slice pos size (content f))).
      { unfold slice. rewrite zdrop_ztake, zdrop_zdrop by zlist. done. }
      destruct (Z.eqb_spec (zlen got) 0) as [H0|H0].
      * simpl. split; [done|]. split; [done|]. apply zlen_0_nil in H0. specialize (Hgn H0).
        rewrite HA in Hgn. rewrite Hacc. rewrite <- (ztake_zdrop (zlen acc) (slice pos size (content f))).
        rewrite Hgn, app_nil_r. unfold slice. rewrite ztake_ztake. f_equal. lia.
      * specialize (IH (acc ++ got) f1 Hpos). rewrite Hc in IH.
        assert (HL : zlen (slice (pos + zlen acc) (size - zlen acc) (content f)) ≤ size - zlen acc)
          by (unfold slice; rewrite zlen_ztake; lia).
        destruct IH as (I1 & I2 & I3).
        -- rewrite zlen_app, <- (slice_split pos (zlen acc) (pos + zlen acc)) by zlist.
           rewrite <- Hacc. f_equal. rewrite Hgot at 1. unfold slice. rewrite ztake_ztake.
           f_equal. lia.
        -- rewrite zlen_app. lia.
        -- rewrite zlen_app. zlist.
        -- split; [done|]. split; [|done]. destruct Hsf, I2. split; congruence.
    + destruct (decide (e = EINTR)) as [->|Hne].
      * specialize (IH acc f1 Hpos). rewrite Hc in IH. destruct IH as (I1 & I2 & I3); [done|done|lia|].
        split; [done|]. split; [|done]. destruct Hsf, I2. split; congruence.
      * destruct e; done.
Qed.

Lemma ReadAt_spec size pos f :
  0 ≤ pos → 
  content (ReadAt size pos f).2 = content f ∧ same_file f (ReadAt size pos f).2 ∧
  match (ReadAt size pos f).1 with
  | Ok bs => bs = slice pos size (content f)
  | Err e => e ≠ kInternal
  end.
Proof.
  intros. apply read_loop_spec; [done|done|rewrite zlen_nil; lia|].
  unfold io_fuel. rewrite zlen_nil. lia.
Qed.

Lemma ReadExactAt_spec size pos f :
  0 ≤ pos → 0 < size →
  content (ReadExactAt size pos f).2 = content f ∧ same_file f (ReadExactAt size pos f).2 ∧
  match (ReadExactAt size pos f).1 with
  | Ok bs => bs = slice pos size (content f) ∧ pos + size ≤ zlen (content f)
  | Err e => e ≠ kInternal
  end.
Proof.
  intros Hpos Hsize. pose proof (ReadAt_spec size pos f Hpos) as (H1 & H2 & H3).
  unfold ReadExactAt, sbind. destruct (ReadAt size pos f) as [[bs|e] f']; simpl in *; [|done].
  destruct (Z.eqb_spec (zlen bs) size) as [He|]; simpl; [|done]. split; [done|]. split; [done|].
  split; [done|]. rewrite H3 in He. unfold slice in He. rewrite zlen_ztake, zlen_zdrop in He.
  zlist.
Qed.

(** Without faults, a read is one system call or two. *)
Lemma ReadAt_quiet size pos f :
  faults f = [] → 0 ≤ pos → ReadAt size pos f = (Ok (slice pos size (content f)), f).
Proof.
  intros Hf Hpos. pose proof (ReadAt_spec size pos f Hpos) as (H1 & H2 & H3).
  assert (HS : ∀ fuel acc, (read_loop fuel size pos acc f).2 = f ∧
            ∀ e, (read_loop fuel size pos acc f).1 = Err e → e = kInternal).
  { induction fuel as [|fuel IH]; intros acc; cbn [read_loop]; [split; [done|]; by intros e [= <-]|].
    destruct (size <=? zlen acc); [done|]. unfold pread, next_outcome. rewrite Hf.
    destruct (zlen _ =? 0); [done|]. apply IH. }
  unfold ReadAt in *. destruct (HS (io_fuel size f) []) as [HS1 HS2].
  destruct (read_loop (io_fuel size f) size pos [] f) as [[bs|e] f']; cbn [fst snd] in *.
  - by rewrite H3, HS1.
  - by specialize (HS2 e eq_refl).
Qed.

(** A retried call either has its effect, once, or leaves the file as it was. *)
Lemma retry_spec (effect : FileHandle → FileHandle) f :
  let r := retry effect f in
  ∃ f1, content f1 = content f ∧ same_file f f1 ∧
  match r.1 with
  | Ok _ => r.2 = effect f1
  | Err e => r.2 = f1 ∧ e ≠ kInternal
  end.
Proof.
  unfold retry. assert (HF : (length (faults f) < S (length (faults f)))%nat) by lia.
  revert HF. generalize (S (length (faults f))). intros fuel. revert f.
  induction fuel as [|fuel IH]; intros f HF; [lia|]. cbn [retry_loop].
  destruct (next_outcome f) as [o f1] eqn:E. apply next_outcome_spec in E as (Hc & Hs & Hl).
  destruct o as [|n|e]; [by exists f1|by exists f1|]. destruct Hl as [Hl|[Hbad _]]; [|done].
  destruct (decide (e = EINTR)) as [->|Hne].
  - destruct (IH f1 ltac:(lia)) as (f2 & H1 & H2 & H3). exists f2. split; [congruence|].
    split; [|done]. destruct Hs, H2. split; congruence.
  - exists f1. destruct e; try done; (split; [done|]; split; [done|]; by split).
Qed.

Lemma Truncate_spec size f :
  let r := Truncate size f in
  same_file f r.2 ∧
  match r.1 with
  | Ok _ => content r.2 = vector_resize size (content f)
  | Err e => content r.2 = content f ∧ e ≠ kInternal
  end.
Proof.
  destruct (retry_spec (λ f, set_content (vector_resize size (content f)) f) f) as (f1 & H1 & H2 & H3).
  unfold Truncate. destruct (retry _ f) as [[[]|e] f']; simpl in *.
  - subst f'. simpl. by rewrite H1.
  - destruct H3 as [-> He]. done.
Qed.

Lemma Sync_spec mode f :
  let r := SyncFile mode f in
  content r.2 = content f ∧ fvalid r.2 = fvalid f ∧
  match r.1 with
  | Ok _ => sync_failed (durable r.2) = sync_failed (durable f) ∧ (sync_failed (durable f) = false → covered mode (durable r.2) = content f)
  | Err e => sync_failed (durable r.2) = true ∧ e ≠ kInternal
  end.
Proof.
  destruct (retry_spec (make_durable mode) f) as (f1 & H1 & [H2 H2'] & H3).
  unfold SyncFile. destruct (retry _ f) as [[[]|e] f']; simpl in *.
  - subst f'. unfold make_durable. rewrite H2. destruct (sync_failed (durable f)) eqn:E; simpl; rewrite ?H1, ?H2; [done|]. by destruct mode.
  - by destruct H3 as [-> He].
Qed.
(** A data sync leaves what is on stable media as it was; after a failed sync no later one
    secures anything. *)
Lemma SyncFile_modes f : on_media (durable (SyncFile kData f).2) = on_media (durable f) ∧
  (sync_failed (durable f) = true → ∀ mode, on_media (durable (SyncFile mode f).2) = on_media (durable f) ∧ at_device (durable (SyncFile mode f).2) = at_device (durable f)).
Proof.
  assert (HS : ∀ mode, match retry (make_durable mode) f with (Ok _, f') => ∃ f1, durable f1 = durable f ∧ f' = make_durable mode f1 | (Err _, f') => durable f' = durable f end).
  { intros mode. destruct (retry_spec (make_durable mode) f) as (f1 & _ & [H2 _] & H3). destruct (retry _ f) as [[[]|e] f']; simpl in *; [by exists f1|]. by destruct H3 as [-> _]. }
  split.
  - specialize (HS kData). unfold SyncFile. destruct (retry _ f) as [[[]|e] f']; simpl; [|by rewrite HS]. destruct HS as (f1 & H1 & ->). unfold make_durable. rewrite H1. destruct (sync_failed (durable f)); simpl; by rewrite ?H1.
  - intros Hf mode. specialize (HS mode). unfold SyncFile. destruct (retry _ f) as [[[]|e] f']; simpl; [|by rewrite HS]. destruct HS as (f1 & H1 & ->). unfold make_durable. by rewrite H1, Hf, H1.
Qed.

Lemma Size_spec f :
  let r := Size f in
  content r.2 = content f ∧ same_file f r.2 ∧
  match r.1 with Ok n => n = zlen (content f) | Err e => e ≠ kInternal end.
Proof.
  unfold Size. destruct (next_outcome f) as [o f1] eqn:E. apply next_outcome_spec in E as (Hc & Hs & Hl).
  destruct o; simpl; rewrite ?Hc; split_and!; try done; try apply Hs. apply ErrnoToStatus_not_internal.
Qed.

(** Writes and reads are exact in the face of short transfers, interruptions and
    errors in any order: a vectored write that reports success has put the whole
    concatenation of its chunks at the requested position and changed nothing
    else; one that fails has put a prefix of it there; a read that succeeds
    returns precisely the bytes present, up to the requested size; and neither
    loop can run forever. *)
Theorem file_io_exact (chunks : list bytes) (pos size : Z) (f : FileHandle) :
  0 ≤ pos ≤ zlen (content f) →
  let w := WriteVectoredAt chunks pos f in
  let r := ReadAt size pos w.2 in
  match w.1 with
  | Ok _ => content w.2 = overwrite pos (concat chunks) (content f)
  | Err e => e ≠ kInternal ∧ ∃ k, 0 ≤ k ≤ zlen (concat chunks) ∧
      content w.2 = overwrite pos (ztake k (concat chunks)) (content f)
  end ∧
  match r.1 with Ok bs => bs = slice pos size (content w.2) | Err e => e ≠ kInternal end ∧
  content r.2 = content w.2 ∧ durable r.2 = durable f.
Proof.
  intros Hpos w r. destruct (WriteVectoredAt_spec chunks pos f Hpos) as [[Hd _] Hw].
  destruct (ReadAt_spec size pos w.2 ltac:(lia)) as (Hc & [Hd' _] & Hr).
  split; [done|]. split; [done|]. split; [done|]. unfold r. rewrite Hd'. exact Hd.
Qed.

Lemma file_io_exact_witness :
  let f := file_with [1; 2; 3] [OErr EINTR; OShort 2; OShort 1] in
  (WriteVectoredAt [[7]; []; [8; 9]] 2 f).1 = Ok tt ∧
  content (ReadAt 3 2 (WriteVectoredAt [[7]; []; [8; 9]] 2 f).2).2 = [1; 2; 7; 8; 9].
Proof.
  intros f. destruct (file_io_exact [[7]; []; [8; 9]] 2 3 f) as (H & _ & Hc & _);
    [vm_compute; split; discriminate|].
  split; [by vm_compute|]. by rewrite Hc.
Defined.
