(* ===== verification/Search.v ===== *)
(** * Search: binary search over vectors

    The standard library's [std::lower_bound] and [std::upper_bound] as the
    indexes and the log use them: one binary search for the first element that
    does not satisfy a predicate.  On a partitioned range it is the length of the
    satisfying prefix, the reference definition [prefix_length]. *)
From S2P Require Import Prelude.

Section Search.
Context {A : Type}.

(** [while (len > 0) { half = len / 2; if (p(first[half])) { first += half + 1;
    len -= half + 1; } else len = half; }] *)
Fixpoint partition_loop (fuel : nat) (p : A → bool) (l : list A) (first len : nat) : nat :=
  match fuel with
  | O => first
  | S fuel =>
      if (len =? 0)%nat then first else
      let half := (len / 2)%nat in
      match l !! (first + half)%nat with
      | Some x => if p x then partition_loop fuel p l (first + half + 1) (len - half - 1)
                  else partition_loop fuel p l first half
      | None => first
      end
  end.
Definition partition_point (p : A → bool) (l : list A) : nat :=
  partition_loop (S (length l)) p l 0 (length l).

(** The reference: how many leading elements satisfy [p]. *)
Fixpoint prefix_length (p : A → bool) (l : list A) : nat :=
  match l with
  | [] => O
  | x :: l => if p x then S (prefix_length p l) else O
  end.

(** Once false, [p] stays false. *)
Definition partitioned (p : A → bool) (l : list A) : Prop :=
  ∀ i j x y, l !! i = Some x → l !! j = Some y → (i ≤ j)%nat → p x = false → p y = false.

Lemma prefix_length_le p l : (prefix_length p l ≤ length l)%nat.
Proof. induction l as [|x l IH]; simpl; [lia|]. destruct (p x); lia. Qed.

Lemma prefix_length_before p l i x :
  (i < prefix_length p l)%nat → l !! i = Some x → p x = true.
Proof.
  revert i. induction l as [|y l IH]; intros i; [done|]. simpl. destruct (p y) eqn:E; [|lia].
  destruct i as [|i]; simpl; [by intros _ [= ->]|]. intros. apply (IH i); [lia|done].
Qed.

Lemma prefix_length_at p l x : l !! prefix_length p l = Some x → p x = false.
Proof.
  induction l as [|y l IH]; simpl; [done|]. destruct (p y) eqn:E; simpl; [done|]. by intros [= ->].
Qed.

Lemma prefix_length_unique p l n :
  (n ≤ length l)%nat → (∀ i x, (i < n)%nat → l !! i = Some x → p x = true) →
  (∀ x, l !! n = Some x → p x = false) → n = prefix_length p l.
Proof.
  revert n. induction l as [|y l IH]; intros n Hn Hb Ha; simpl in *; [lia|].
  destruct n as [|n].
  - by rewrite (Ha y eq_refl).
  - rewrite (Hb 0%nat y) by (done || lia). f_equal. apply IH; [lia| |].
    + intros i x Hi Hx. apply (Hb (S i)); [lia|done].
    + intros x Hx. by apply Ha.
Qed.

Lemma partition_loop_spec fuel p l first len :
  partitioned p l → (len < fuel)%nat → (first + len ≤ length l)%nat →
  (∀ i x, (i < first)%nat → l !! i = Some x → p x = true) →
  (∀ x, l !! (first + len)%nat = Some x → p x = false) →
  partition_loop fuel p l first len = prefix_length p l.
Proof.
  revert first len. induction fuel as [|fuel IH]; intros first len Hp Hf Hl Hb Ha; [lia|].
  cbn [partition_loop]. destruct (Nat.eqb_spec len 0) as [->|Hlen].
  - rewrite Nat.add_0_r in Ha. apply prefix_length_unique; [lia|done|done].
  - pose proof (Nat.div_lt len 2 ltac:(lia) ltac:(lia)) as Hh.
    destruct (lookup_lt_is_Some_2 l (first + len / 2)%nat ltac:(lia)) as [x Hx]. rewrite Hx.
    destruct (p x) eqn:E.
    + apply IH; [done|lia|lia| |].
      * intros i y Hi Hy. destruct (p y) eqn:Ey; [done|].
        rewrite (Hp i (first + len / 2)%nat y x) in E; [done|done|done|lia|done].
      * intros y Hy. apply Ha. rewrite <- Hy. f_equal. lia.
    + apply IH; [done|lia|lia|done|]. intros y Hy. by simplify_eq.
Qed.

(** Binary search agrees with the linear reference. *)
Lemma partition_point_spec p l : partitioned p l → partition_point p l = prefix_length p l.
Proof.
  intros Hp. apply partition_loop_spec; [done|lia|lia| |].
  - lia.
  - intros x Hx. apply lookup_lt_Some in Hx. lia.
Qed.
End Search.

(** Entries with increasing keys are partitioned by any upper bound on the key. *)
Lemma sorted_partitioned {A} (key : A → Z) (p : A → bool) (l : list A) :
  (∀ x y, key x ≤ key y → p x = false → p y = false) →
  (∀ i j x y, l !! i = Some x → l !! j = Some y → (i < j)%nat → key x ≤ key y) → partitioned p l.
Proof.
  intros Hmono Hs i j x y Hi Hj Hij Hp. destruct (decide (i = j)) as [->|].
  - by simplify_eq.
  - eapply Hmono; [|done]. apply (Hs i j); [done|done|lia].
Qed.
