(* ===== verification/OffsetIndex.v ===== *)
(** * OffsetIndex: the sparse offset and time indexes of a segment

    Models include/pulselog/storage/offset_index.h and
    src/storage/offset_index.cc.  Both indexes are an array of fixed-size
    entries in a file and its in-memory copy; what they share (loading, torn
    tails, appending at the next slot) is proved once in [Section SparseIndex]. *)
From S2P Require Import Prelude Status Endian Buffer Frame FileUtil Record Search.

Definition kIndexEntryBytes : Z := 8.
Definition kTimeIndexEntryBytes : Z := 12.

Record OffsetIndexEntry := mkOffsetEntry { relative_offset : Z; file_position : Z }.
Record TimeIndexEntry := mkTimeEntry { te_timestamp : Z; te_relative_offset : Z }.

Record SparseIndex (E : Type) := mkIndex { ix_file : FileHandle; entries : list E; ix_base : Z }.
Arguments mkIndex {E} ix_file entries ix_base.
Arguments ix_file {E} s.
Arguments entries {E} s.
Arguments ix_base {E} s.

Abbreviation OffsetIndex := (SparseIndex OffsetIndexEntry).
Abbreviation TimeIndex := (SparseIndex TimeIndexEntry).

Definition on_file {E A} (m : SR FileHandle A) : SR (SparseIndex E) A :=
  szoom ix_file (λ f ix, mkIndex f (entries ix) (ix_base ix)) m.
Definition set_entries {E} (es : list E) (ix : SparseIndex E) : SparseIndex E :=
  mkIndex (ix_file ix) es (ix_base ix).

Section SparseIndex.
Context {E : Type} (size : Z) (enc : E → bytes) (dec : bytes → E).
(** [stop prev e]: [e] may not follow an entry with key [prev]. *)
Context (key : E → Z) (stop : Z → E → bool).

(** [for (pos = 0; pos + size <= raw.size(); pos += size)]: the entries kept and,
    when one is out of order, the position to truncate at. *)
Fixpoint load_entries (fuel : nat) (raw : bytes) (pos prev : Z) : list E * option Z :=
  match fuel with
  | O => ([], None)
  | S fuel =>
      if pos + size <=? zlen raw then
        let e := dec (slice pos size raw) in
        if stop prev e then ([], Some pos)
        else let '(es, t) := load_entries fuel raw (pos + size) (key e) in (e :: es, t)
      else ([], None)
  end.

(** [Open] on an opened file; the previous entries of the object are dropped. *)
Definition index_open (base_offset : Z) : SR (SparseIndex E) unit :=
  smod (λ ix, mkIndex (ix_file ix) [] base_offset) ;;;
  let! fsize := on_file Size in
  let whole := fsize - fsize mod size in
  on_file (if negb (whole =? fsize) then Truncate whole else sret tt) ;;;
  if whole =? 0 then sret tt else
  let! raw := on_file (ReadExactAt whole 0) in
  let '(es, t) := load_entries (S (length raw)) raw 0 (-1) in
  smod (set_entries es) ;;;
  match t with
  | Some pos => on_file (Truncate pos)
  | None => sret tt
  end.

(** The write of a new entry behind the existing ones. *)
Definition index_push (e : E) : SR (SparseIndex E) unit :=
  let! ix := sget in
  on_file (WriteAllAt (enc e) (zlen (entries ix) * size)) ;;;
  smod (λ ix, set_entries (entries ix ++ [e]) ix).

(** [entries_.resize(keep); return file_.Truncate(keep * size);] *)
Definition index_keep (keep : nat) : SR (SparseIndex E) unit :=
  let! ix := sget in
  if (keep =? length (entries ix))%nat then sret tt else
  smod (λ ix, set_entries (take keep (entries ix)) ix) ;;;
  on_file (Truncate (Z.of_nat keep * size)).
End SparseIndex.

(** ** Offset index *)

Definition enc_offset_entry (e : OffsetIndexEntry) : bytes :=
  StoreLe 4 (relative_offset e) ++ StoreLe 4 (file_position e).
Definition dec_offset_entry (b : bytes) : OffsetIndexEntry :=
  mkOffsetEntry (load_at 4 0 b) (load_at 4 4 b).

Definition OffsetIndex_Open (base_offset : Z) : SR OffsetIndex unit :=
  index_open kIndexEntryBytes dec_offset_entry relative_offset
    (λ prev e, relative_offset e <=? prev) base_offset.

Definition UINT32_MAX : Z := 2 ^ 32 - 1.

Definition OffsetIndex_Append (offset position : Z) : SR OffsetIndex unit :=
  let! ix := sget in
  let relative := offset - ix_base ix in
  if (relative <? 0) || (UINT32_MAX <? relative) then sfail kInvalidArgument else
  if UINT32_MAX <? position then sfail kInvalidArgument else
  if match last (entries ix) with
     | Some b => u32 relative <=? relative_offset b
     | None => false
     end then sfail kInvalidArgument else
  index_push kIndexEntryBytes enc_offset_entry (mkOffsetEntry (u32 relative) (u32 position)).

Definition LookupFloor (target : Z) (ix : OffsetIndex) : option OffsetIndexEntry :=
  match entries ix with
  | [] => None
  | _ =>
      if target <? ix_base ix then None else
      let relative := target - ix_base ix in
      if UINT32_MAX <? relative then last (entries ix) else
      (** [std::upper_bound]: past the entries not greater than the value. *)
      let it := partition_point (λ e, negb (u32 relative <? relative_offset e)) (entries ix) in
      match it with
      | O => None
      | S i => entries ix !! i
      end
  end.

Definition OffsetIndex_TruncateFrom (offset : Z) : SR OffsetIndex unit :=
  let! ix := sget in
  let relative := offset - ix_base ix in
  let keep := partition_point (λ e, relative_offset e <? relative) (entries ix) in
  index_keep kIndexEntryBytes keep.

Definition index_sync {E} : SR (SparseIndex E) unit :=
  let! ix := sget in
  if negb (fvalid (ix_file ix)) then sret tt else on_file SyncData.
Definition index_close {E} (ix : SparseIndex E) : SparseIndex E :=
  mkIndex (CloseFile (ix_file ix)) [] (ix_base ix).

Definition EntryCount {E} (ix : SparseIndex E) : Z := zlen (entries ix).
Definition LastIndexedPosition (ix : OffsetIndex) : Z :=
  match last (entries ix) with Some e => file_position e | None => 0 end.
Definition LastIndexedOffset (ix : OffsetIndex) : Z :=
  match last (entries ix) with
  | Some e => ix_base ix + relative_offset e
  | None => ix_base ix
  end.

(** ** Time index *)

Definition enc_time_entry (e : TimeIndexEntry) : bytes :=
  StoreLeI64 (te_timestamp e) ++ StoreLe 4 (te_relative_offset e).
Definition dec_time_entry (b : bytes) : TimeIndexEntry :=
  mkTimeEntry (load_i64_at 0 b) (load_at 4 8 b).

Definition TimeIndex_Open (base_offset : Z) : SR TimeIndex unit :=
  index_open kTimeIndexEntryBytes dec_time_entry te_timestamp
    (λ prev e, te_timestamp e <? prev) base_offset.

Definition TimeIndex_Append (timestamp offset : Z) : SR TimeIndex unit :=
  let! ix := sget in
  if match last (entries ix) with Some b => timestamp <? te_timestamp b | None => false end
  then sret tt else
  let relative := offset - ix_base ix in
  if (relative <? 0) || (UINT32_MAX <? relative) then sfail kInvalidArgument else
  index_push kTimeIndexEntryBytes enc_time_entry (mkTimeEntry timestamp (u32 relative)).

Definition LookupCeiling (timestamp : Z) (ix : TimeIndex) : option Z :=
  match entries ix with
  | [] => None
  | _ =>
      let it := partition_point (λ e, te_timestamp e <? timestamp) (entries ix) in
      match entries ix !! it with
      | Some e => Some (ix_base ix + te_relative_offset e)
      | None => None
      end
  end.

Definition TimeIndex_TruncateFrom (offset : Z) : SR TimeIndex unit :=
  let! ix := sget in
  let relative := offset - ix_base ix in
  let keep := partition_point (λ e, te_relative_offset e <? relative) (entries ix) in
  index_keep kTimeIndexEntryBytes keep.

Definition MaxTimestamp (ix : TimeIndex) : Z :=
  match last (entries ix) with Some e => te_timestamp e | None => -1 end.

(** ** Entries on disk *)

Section IndexLemmas.
Context {E : Type} (size : Z) (enc : E → bytes) (dec : bytes → E).
Context (key : E → Z) (stop : Z → E → bool) (fits : E → Prop).
Hypothesis size_pos : 0 < size.
Hypothesis enc_size : ∀ e, zlen (enc e) = size.
Hypothesis dec_enc : ∀ e, fits e → dec (enc e) = e.

(** The file starts with the entries; anything after them is a torn append. *)
Definition on_disk (ix : SparseIndex E) : Prop :=
  ztake (zlen (entries ix) * size) (content (ix_file ix)) = concat (map enc (entries ix)) ∧
  zlen (entries ix) * size ≤ zlen (content (ix_file ix)).

Lemma zlen_enc_all es : zlen (concat (map enc es)) = zlen es * size.
Proof.
  induction es as [|e es IH]; [done|]. cbn [map concat]. rewrite zlen_app, IH, enc_size, zlen_cons. lia.
Qed.

Lemma index_push_spec e ix :
  on_disk ix →
  let r := index_push size enc e ix in
  on_disk r.2 ∧ ix_base r.2 = ix_base ix ∧
  match r.1 with
  | Ok _ => entries r.2 = entries ix ++ [e]
  | Err err => entries r.2 = entries ix ∧ err ≠ kInternal
  end.
Proof.
  intros [Hd Hl]. unfold index_push, sbind, sget, on_file, szoom, smod.
  set (n := zlen (entries ix) * size) in *. assert (0 ≤ n) by (unfold n; pose proof (zlen_nonneg (entries ix)); nia).
  destruct (WriteAllAt_spec (enc e) n (ix_file ix) ltac:(lia)) as [_ Hw].
  destruct (WriteAllAt (enc e) n (ix_file ix)) as [[[]|err] f']; cbn [fst snd] in *.
  - unfold on_disk, set_entries; cbn [entries ix_file ix_base]. rewrite zlen_app, Hw.
    change (zlen [e]) with 1. rewrite map_app, concat_app.
    replace ((zlen (entries ix) + 1) * size) with (n + zlen (enc e)) by (rewrite enc_size; lia).
    rewrite ztake_overwrite, Hd, zlen_overwrite by lia. cbn [map concat]. rewrite app_nil_r.
    split; [split; [done|lia]|done].
  - destruct Hw as (He & k & Hk & Hw). unfold on_disk; cbn [entries ix_file ix_base]. fold n.
    rewrite Hw, ztake_overwrite_before, zlen_overwrite by lia. split; [split; [done|lia]|done].
Qed.

Lemma on_disk_prefix keep ix :
  on_disk ix →
  let es := take keep (entries ix) in
  ztake (zlen es * size) (content (ix_file ix)) = concat (map enc es) ∧
  zlen es * size ≤ zlen (entries ix) * size.
Proof.
  intros [Hd Hl] es.
  assert (Hes : zlen es ≤ zlen (entries ix)) by (unfold es, zlen; rewrite length_take; lia).
  assert (HR : concat (map enc (entries ix)) = concat (map enc es) ++ concat (map enc (drop keep (entries ix)))).
  { unfold es. by rewrite <- concat_app, <- map_app, take_drop. }
  split; [|nia]. rewrite HR in Hd. apply (f_equal (ztake (zlen es * size))) in Hd.
  rewrite ztake_ztake, Z.min_l in Hd by nia.
  by rewrite (ztake_app (zlen es * size)) in Hd by (by rewrite zlen_enc_all).
Qed.

Lemma index_keep_spec keep ix :
  on_disk ix →
  let r := index_keep size keep ix in
  on_disk r.2 ∧ ix_base r.2 = ix_base ix ∧ entries r.2 = take keep (entries ix).
Proof.
  intros Hon. unfold index_keep, sbind, sget. destruct (Nat.eqb_spec keep (length (entries ix))) as [->|Hk].
  { cbn [sret fst snd]. rewrite take_ge by lia. split; [done|]. by split. }
  unfold smod, on_file, szoom. cbn [fst snd set_entries ix_file entries ix_base].
  destruct (on_disk_prefix keep ix Hon) as [HE Hle]. destruct Hon as [Hd Hl].
  set (es := take keep (entries ix)) in *.
  assert (Hes : zlen es ≤ Z.of_nat keep) by (unfold es, zlen; rewrite length_take; lia).
  pose proof (zlen_nonneg es).
  pose proof (Truncate_spec (Z.of_nat keep * size) (ix_file ix)) as [_ HT].
  destruct (Truncate _ (ix_file ix)) as [[[]|err] f']; cbn [fst snd] in *;
    unfold on_disk; cbn [entries ix_file ix_base]; (split; [|done]).
  - rewrite HT, zlen_vector_resize by nia. split; [|nia].
    unfold vector_resize. rewrite ztake_app_le by (rewrite zlen_ztake; nia).
    rewrite ztake_ztake, <- HE. f_equal. nia.
  - destruct HT as [HT _]. rewrite HT. split; [done|nia].
Qed.

(** Loading gives back every entry that was written in order. *)
Fixpoint in_order (prev : Z) (es : list E) : Prop :=
  match es with
  | [] => True
  | e :: es => fits e ∧ stop prev e = false ∧ in_order (key e) es
  end.

Lemma load_entries_spec es pre prev fuel :
  in_order prev es → (length es < fuel)%nat →
  load_entries size dec key stop fuel (pre ++ concat (map enc es)) (zlen pre) prev = (es, None).
Proof.
  revert pre prev fuel. induction es as [|e es IH]; intros pre prev fuel Ho Hf;
    (destruct fuel as [|fuel]; [simpl in Hf; lia|]); cbn [load_entries map concat].
  - destruct (Z.leb_spec (zlen pre + size) (zlen (pre ++ []))); [|done]. zlist.
  - destruct Ho as (Hfit & Hstop & Ho). pose proof (zlen_enc_all es) as Hz. pose proof (zlen_nonneg es).
    destruct (Z.leb_spec (zlen pre + size) (zlen (pre ++ enc e ++ concat (map enc es)))) as [|Hbad];
      [|rewrite !zlen_app, enc_size in Hbad; nia].
    assert (Hs : slice (zlen pre) size (pre ++ enc e ++ concat (map enc es)) = enc e).
    { rewrite slice_app_r, Z.sub_diag, slice_0 by lia. apply ztake_app. by rewrite enc_size. }
    rewrite Hs, dec_enc, Hstop by done.
    specialize (IH (pre ++ enc e) (key e) fuel Ho ltac:(simpl in Hf; lia)).
    rewrite <- app_assoc, zlen_app, enc_size in IH. by rewrite IH.
Qed.

Lemma discard_fragment es frag whole f :
  zlen frag < size → content f = concat (map enc es) ++ frag → whole = zlen es * size →
  let r := (if negb (whole =? zlen (content f)) then Truncate whole else sret tt) f in
  r.1 = Ok tt → content r.2 = concat (map enc es).
Proof.
  intros Hfrag Hc Hw. pose proof (zlen_enc_all es) as Hz. pose proof (zlen_nonneg es).
  destruct (Z.eqb_spec whole (zlen (content f))) as [He|Hne]; cbn [negb].
  - intros _. cbn [sret snd]. rewrite Hc, zlen_app in He.
    assert (frag = []) as -> by (apply zlen_0_nil; lia). by rewrite Hc, app_nil_r.
  - pose proof (Truncate_spec whole f) as [_ HT]. destruct (Truncate whole f) as [[[]|e] f']; [|done].
    cbn [fst snd] in *. intros _. rewrite HT, Hc. unfold vector_resize.
    rewrite (ztake_app whole) by lia.
    replace (Z.to_nat (whole - zlen (concat (map enc es) ++ frag))) with 0%nat
      by (rewrite zlen_app; zlist). by rewrite app_nil_r.
Qed.

(** Reopening after a crash: the torn entry at the end is discarded, nothing else. *)
Lemma index_open_spec es frag ix base :
  in_order (-1) es → zlen frag < size → content (ix_file ix) = concat (map enc es) ++ frag →
  let r := index_open size dec key stop base ix in
  r.1 = Ok tt → entries r.2 = es ∧ ix_base r.2 = base ∧ on_disk r.2.
Proof.
  intros Ho Hfrag Hc. pose proof (zlen_enc_all es) as Hz. pose proof (zlen_nonneg es).
  unfold index_open, sbind, smod, on_file, szoom. cbn [fst snd ix_file entries ix_base].
  pose proof (Size_spec (ix_file ix)) as (HS1 & _ & HS2).
  destruct (Size (ix_file ix)) as [[fs|e] f1]; cbn [fst snd] in *; [|done]. subst fs.
  assert (Hw : zlen (content (ix_file ix)) - zlen (content (ix_file ix)) mod size = zlen es * size).
  { rewrite Hc, zlen_app, Hz, Z.add_comm, Z_mod_plus_full, Z.mod_small by zlist. lia. }
  rewrite Hw. rewrite <- HS1 in Hc |- *.
  pose proof (discard_fragment es frag _ f1 Hfrag Hc eq_refl) as HD.
  cbv zeta in HD. cbv zeta. cbn [fst snd ix_file entries ix_base].
  destruct ((if negb (zlen es * size =? zlen (content f1)) then Truncate (zlen es * size) else sret tt) f1)
    as [r2 f2] eqn:HF. cbn [fst snd] in HD.
  destruct r2 as [[]|e]; [|done]. specialize (HD eq_refl).
  destruct (Z.eqb_spec (zlen es * size) 0) as [H0|H0].
  - intros _. assert (es = []) as -> by (apply zlen_0_nil; nia). cbn. split; [done|]. split; [done|].
    unfold on_disk; cbn. split; [done|apply zlen_nonneg].
  - cbn [ix_file entries ix_base].
    pose proof (ReadExactAt_spec (zlen es * size) 0 f2 ltac:(lia) ltac:(nia)) as (HR1 & _ & HR2).
    destruct (ReadExactAt (zlen es * size) 0 f2) as [[raw|e] f3]; cbn [fst snd] in *; [|done].
    destruct HR2 as [HR2 _]. rewrite HD, slice_0, ztake_all in HR2 by lia.
    assert (Hfuel : (length es < S (length raw))%nat).
    { rewrite HR2. unfold zlen in *. nia. }
    pose proof (load_entries_spec es [] (-1) (S (length raw)) Ho Hfuel) as HL.
    cbn [app] in HL. rewrite zlen_nil in HL. rewrite <- HR2 in HL. rewrite HL. cbn. intros _.
    split; [done|]. split; [done|]. unfold on_disk; cbn [entries ix_file ix_base set_entries].
    rewrite HR1, HD. split; [apply ztake_all; lia|lia].
Qed.
End IndexLemmas.

(** ** The offset index as a sorted map *)

Definition offset_entry_fits (e : OffsetIndexEntry) : Prop :=
  unsigned 32 (relative_offset e) ∧ unsigned 32 (file_position e).

Lemma enc_offset_size e : zlen (enc_offset_entry e) = kIndexEntryBytes.
Proof. done. Qed.
Lemma dec_enc_offset e : offset_entry_fits e → dec_offset_entry (enc_offset_entry e) = e.
Proof.
  destruct e as [r p]. intros [Hr Hp]. unfold dec_offset_entry, enc_offset_entry. f_equal.
  - by apply (load_at_store 4 0 _ []).
  - rewrite <- (app_nil_r (StoreLe 4 (file_position _))). by apply load_at_store.
Qed.

(** Strictly increasing offsets, entries of 32 bits, and the file agrees. *)
Definition increasing (es : list OffsetIndexEntry) : Prop :=
  ∀ i j x y, es !! i = Some x → es !! j = Some y → (i < j)%nat → relative_offset x < relative_offset y.
Definition oi_wf (ix : OffsetIndex) : Prop :=
  Forall offset_entry_fits (entries ix) ∧ increasing (entries ix) ∧
  on_disk kIndexEntryBytes enc_offset_entry ix.

Lemma increasing_take es n : increasing es → increasing (take n es).
Proof.
  intros H i j x y Hi Hj. rewrite lookup_take_Some in Hi, Hj. apply (H i j); tauto.
Qed.

Lemma increasing_snoc es e :
  increasing es → (∀ x, last es = Some x → relative_offset x < relative_offset e) → increasing (es ++ [e]).
Proof.
  intros H Hl i j x y Hi Hj Hij. rewrite lookup_app_Some in Hi, Hj.
  destruct Hj as [Hj|[Hj1 Hj]].
  - destruct Hi as [Hi|[Hi1 Hi]]; [by apply (H i j)|]. apply lookup_lt_Some in Hj. lia.
  - destruct (j - length es)%nat as [|k] eqn:Ek; [|done]. simpl in Hj. simplify_eq.
    destruct Hi as [Hi|[Hi1 Hi]]; [|lia].
    assert (Hne : (0 < length es)%nat) by (apply lookup_lt_Some in Hi; lia).
    destruct (last es) as [z|] eqn:El; [|apply last_None in El; subst; simpl in *; lia].
    specialize (Hl z eq_refl). rewrite last_lookup in El.
    destruct (decide (i = pred (length es))) as [->|]; [by simplify_eq|].
    assert (relative_offset x < relative_offset z); [|lia].
    apply (H i (pred (length es))); [done|done|]. apply lookup_lt_Some in Hi. lia.
Qed.

Lemma OffsetIndex_Append_spec offset position ix :
  oi_wf ix → 0 ≤ position →
  let r := OffsetIndex_Append offset position ix in
  oi_wf r.2 ∧ ix_base r.2 = ix_base ix ∧
  match r.1 with
  | Ok _ => entries r.2 = entries ix ++ [mkOffsetEntry (offset - ix_base ix) position]
  | Err e => entries r.2 = entries ix
  end.
Proof.
  intros Hwf Hp. pose proof Hwf as (Hf & Hi & Hd).
  unfold OffsetIndex_Append, sbind, sget.
  set (rel := offset - ix_base ix).
  destruct (_ || _) eqn:E1; [split; [exact Hwf | by split]|].
  apply orb_false_iff in E1 as [E1%Z.ltb_ge E2%Z.ltb_ge]. unfold UINT32_MAX in *.
  destruct (Z.ltb_spec (2 ^ 32 - 1) position); [split; [exact Hwf | by split]|].
  rewrite !uwrap_small by (unfold unsigned; lia).
  destruct (match last (entries ix) with Some b => rel <=? relative_offset b | None => false end) eqn:E3;
     [split; [exact Hwf | by split]|].
  pose proof (index_push_spec kIndexEntryBytes enc_offset_entry eq_refl (λ e, eq_refl) (mkOffsetEntry rel position) ix Hd)
    as (Hd' & Hb & Hr).
  destruct (index_push _ _ _ ix) as [[[]|e] ix']; cbn [fst snd] in *.
  - split; [|done]. split; [|split; [|done]]; rewrite Hr.
    + apply Forall_app. split; [done|]. constructor; [|done]. unfold offset_entry_fits, unsigned; simpl. lia.
    + apply increasing_snoc; [done|]. intros x Hx. rewrite Hx in E3. apply Z.leb_gt in E3. simpl. lia.
  - destruct Hr as [Hr _]. split; [|done]. unfold oi_wf. by rewrite Hr.
Qed.

Lemma increasing_partitioned es v :
  increasing es → partitioned (λ e, negb (v <? relative_offset e)) es.
Proof.
  intros H. apply (sorted_partitioned relative_offset).
  - intros x y Hxy. rewrite !negb_false_iff, !Z.ltb_lt. lia.
  - intros i j x y Hi Hj Hij. pose proof (H i j x y Hi Hj Hij). lia.
Qed.
Lemma increasing_partitioned_lt es v : increasing es → partitioned (λ e, relative_offset e <? v) es.
Proof.
  intros H. apply (sorted_partitioned relative_offset).
  - intros x y Hxy. rewrite !Z.ltb_ge. lia.
  - intros i j x y Hi Hj Hij. pose proof (H i j x y Hi Hj Hij). lia.
Qed.

(** The floor of [target] among the entries. *)
Definition is_floor (es : list OffsetIndexEntry) (rel : Z) (r : option OffsetIndexEntry) : Prop :=
  match r with
  | Some e => e ∈ es ∧ relative_offset e ≤ rel ∧
              ∀ e', e' ∈ es → relative_offset e' ≤ rel → relative_offset e' ≤ relative_offset e
  | None => ∀ e', e' ∈ es → rel < relative_offset e'
  end.

Lemma LookupFloor_spec ix target :
  oi_wf ix → is_floor (entries ix) (target - ix_base ix) (LookupFloor target ix).
Proof.
  intros (Hf & Hi & _). unfold LookupFloor. destruct (entries ix) as [|e0 es0] eqn:E.
  { simpl. by intros e' He'%elem_of_nil. }
  rewrite <- E in *. clear E. set (es := entries ix) in *.
  destruct (Z.ltb_spec target (ix_base ix)) as [Hlt|Hge].
  { simpl. intros e' He'. rewrite Forall_forall in Hf. destruct (Hf e' He') as [[? _] _]. lia. }
  set (rel := target - ix_base ix). unfold UINT32_MAX.
  assert (Hmax : ∀ i x z, es !! i = Some x → last es = Some z → relative_offset x ≤ relative_offset z).
  { intros i x z Hx Hz. rewrite last_lookup in Hz.
    destruct (decide (i = pred (length es))) as [->|]; [simplify_eq; lia|].
    assert (relative_offset x < relative_offset z); [|lia].
    apply (Hi i (pred (length es))); [done|done|]. apply lookup_lt_Some in Hx. lia. }
  destruct (Z.ltb_spec (2 ^ 32 - 1) rel) as [Hbig|Hsmall].
  - destruct (last es) as [z|] eqn:El; simpl.
    + assert (Hz : z ∈ es) by (by apply last_Some_elem_of). rewrite Forall_forall in Hf.
      split; [done|]. split; [destruct (Hf z Hz) as [[_ ?] _]; lia|].
      intros e' [i Hi']%list_elem_of_lookup _. by apply (Hmax i).
    + apply last_None in El. rewrite El. by intros e' He'%elem_of_nil.
  - rewrite uwrap_small by (unfold unsigned; lia).
    rewrite partition_point_spec by by apply increasing_partitioned.
    set (p := λ e, negb (rel <? relative_offset e)).
    pose proof (prefix_length_before p es) as HB. pose proof (prefix_length_at p es) as HA.
    pose proof (prefix_length_le p es) as HL.
    assert (Hafter : ∀ i x, (prefix_length p es ≤ i)%nat → es !! i = Some x → rel < relative_offset x).
    { intros i x Hi' Hx. assert (Hlt : (prefix_length p es < length es)%nat)
        by (apply lookup_lt_Some in Hx; lia).
      destruct (lookup_lt_is_Some_2 es _ Hlt) as [y Hy]. pose proof (HA y Hy) as Hp. unfold p in Hp.
      apply negb_false_iff, Z.ltb_lt in Hp. destruct (decide (i = prefix_length p es)) as [->|];
        [by simplify_eq|]. pose proof (Hi _ i y x Hy Hx ltac:(lia)). lia. }
    destruct (prefix_length p es) as [|n] eqn:En; simpl.
    + intros e' [i Hi']%list_elem_of_lookup. by apply (Hafter i); [lia|].
    + destruct (lookup_lt_is_Some_2 es n ltac:(lia)) as [e He]. rewrite He. simpl.
      pose proof (HB n e ltac:(lia) He) as Hp. unfold p in Hp. apply negb_true_iff, Z.ltb_ge in Hp.
      split; [by apply list_elem_of_lookup_2 in He|]. split; [done|].
      intros e' [i Hi']%list_elem_of_lookup Hle. destruct (decide (i ≤ n)%nat).
      * destruct (decide (i = n)) as [->|]; [simplify_eq; lia|].
        pose proof (Hi i n e' e Hi' He ltac:(lia)). lia.
      * pose proof (Hafter i e' ltac:(lia) Hi'). lia.
Qed.

Lemma take_prefix_filter {A} (p : A → bool) (es : list A) x :
  partitioned p es → x ∈ take (prefix_length p es) es ↔ x ∈ es ∧ p x = true.
Proof.
  intros Hp. split.
  - intros [i Hi]%list_elem_of_lookup. rewrite lookup_take_Some in Hi. destruct Hi as [Hi Hlt].
    split; [by apply list_elem_of_lookup_2 in Hi|]. by apply (prefix_length_before p es i).
  - intros [[i Hi]%list_elem_of_lookup Hx]. apply list_elem_of_lookup. exists i.
    rewrite lookup_take_Some. split; [done|].
    destruct (decide (i < prefix_length p es)%nat) as [|Hge]; [done|]. exfalso.
    assert (Hlt : (prefix_length p es < length es)%nat) by (apply lookup_lt_Some in Hi; lia).
    destruct (lookup_lt_is_Some_2 es _ Hlt) as [y Hy]. pose proof (prefix_length_at p es y Hy) as Hpy.
    rewrite (Hp _ i y x Hy Hi ltac:(lia) Hpy) in Hx. done.
Qed.

Lemma OffsetIndex_TruncateFrom_spec offset ix :
  oi_wf ix →
  let r := OffsetIndex_TruncateFrom offset ix in
  oi_wf r.2 ∧ ix_base r.2 = ix_base ix ∧
  ∀ e, e ∈ entries r.2 ↔ e ∈ entries ix ∧ relative_offset e < offset - ix_base ix.
Proof.
  intros (Hf & Hi & Hd). unfold OffsetIndex_TruncateFrom, sbind, sget.
  rewrite partition_point_spec by by apply increasing_partitioned_lt.
  set (p := λ e, relative_offset e <? offset - ix_base ix). set (n := prefix_length p (entries ix)).
  destruct (index_keep_spec kIndexEntryBytes enc_offset_entry eq_refl (λ e, eq_refl) n ix Hd)
    as (Hd' & Hb & He).
  split; [|split; [done|]].
  - unfold oi_wf. rewrite He. split; [by apply Forall_take|]. split; [by apply increasing_take|done].
  - intros e. rewrite He. unfold n. rewrite take_prefix_filter by by apply increasing_partitioned_lt.
    unfold p. by rewrite Z.ltb_lt.
Qed.

(** ** Sequences of operations, and restarts *)

Inductive IndexOp : Type := IxAppend (offset position : Z) | IxTruncate (offset : Z).
Definition run_index_op (ix : OffsetIndex) (op : IndexOp) : OffsetIndex :=
  match op with
  | IxAppend o p => (OffsetIndex_Append o p ix).2
  | IxTruncate o => (OffsetIndex_TruncateFrom o ix).2
  end.
Definition index_op_ok (op : IndexOp) : Prop :=
  match op with IxAppend _ p => 0 ≤ p | IxTruncate _ => True end.

Lemma run_index_ops_wf ops ix :
  oi_wf ix → Forall index_op_ok ops →
  oi_wf (fold_left run_index_op ops ix) ∧ ix_base (fold_left run_index_op ops ix) = ix_base ix.
Proof.
  revert ix. induction ops as [|op ops IH]; intros ix Hwf Hops; [done|].
  inversion Hops as [|? ? Hop Hops']; subst. cbn [fold_left].
  assert (H : oi_wf (run_index_op ix op) ∧ ix_base (run_index_op ix op) = ix_base ix).
  { destruct op as [o p|o]; cbn [run_index_op].
    - by destruct (OffsetIndex_Append_spec o p ix Hwf Hop) as (? & ? & _).
    - by destruct (OffsetIndex_TruncateFrom_spec o ix Hwf) as (? & ? & _). }
  destruct H as [H1 H2]. destruct (IH _ H1 Hops') as [? ->]. done.
Qed.

Definition empty_index {E} (base : Z) (script : list Outcome) : SparseIndex E :=
  mkIndex (file_with [] script) [] base.

Lemma empty_index_wf base script : oi_wf (empty_index base script).
Proof. split; [constructor|]. split; [by intros i j x y Hi|]. by split. Qed.

(** Offset lookups are exact after any history: whatever appends and truncations
    were attempted on an index, whatever the file system did to them, the binary
    search returns the entry with the largest indexed offset not above the target,
    and nothing exactly when every indexed offset is above it.  In particular
    rejected and failed appends leave the index usable. *)
Theorem OffsetIndex_floor (base : Z) (script : list Outcome) (ops : list IndexOp) (target : Z) :
  Forall index_op_ok ops →
  let ix := fold_left run_index_op ops (empty_index base script) in
  is_floor (entries ix) (target - base) (LookupFloor target ix).
Proof.
  intros Hops ix. destruct (run_index_ops_wf ops (empty_index base script)) as [Hwf Hb];
    [apply empty_index_wf|done|].
  pose proof (LookupFloor_spec ix target Hwf) as H. fold ix in Hb. rewrite Hb in H. exact H.
Qed.

Lemma OffsetIndex_floor_witness :
  let ops := [IxAppend 100 0; IxAppend 140 4096; IxAppend 90 9000; IxTruncate 141; IxAppend 160 8000] in
  let ix := fold_left run_index_op ops (empty_index 100 [OFull; OErr EINTR; OShort 3]) in
  is_floor (entries ix) (150 - 100) (LookupFloor 150 ix) ∧
  LookupFloor 150 ix = Some (mkOffsetEntry 40 4096).
Proof.
  intros ops ix. split.
  - apply OffsetIndex_floor. unfold ops. repeat constructor; discriminate.
  - by vm_compute.
Defined.

Lemma increasing_in_order es prev :
  Forall offset_entry_fits es → increasing es →
  (∀ e, es !! 0%nat = Some e → prev < relative_offset e) →
  in_order relative_offset (λ prev e, relative_offset e <=? prev) offset_entry_fits prev es.
Proof.
  revert prev. induction es as [|e es IH]; intros prev Hf Hi H0; [done|].
  inversion Hf; subst. cbn [in_order]. split; [done|]. split; [apply Z.leb_gt; by apply H0|].
  apply IH; [done| |].
  - intros i j x y Hx Hy Hij. apply (Hi (S i) (S j)); [done|done|lia].
  - intros x Hx. by apply (Hi 0%nat 1%nat); [| |lia].
Qed.

(** An index survives a restart: opening the file of a well-formed index, whose
    last append may have been torn after any number of bytes, restores exactly
    the entries it held and repairs the file, whenever opening succeeds. *)
Theorem OffsetIndex_reopen (ix : OffsetIndex) (frag : bytes) (script : list Outcome) (base : Z) :
  oi_wf ix → zlen frag < kIndexEntryBytes →
  let file := file_with (concat (map enc_offset_entry (entries ix)) ++ frag) script in
  let r := OffsetIndex_Open base (mkIndex file [] 0) in
  r.1 = Ok tt → entries r.2 = entries ix ∧ ix_base r.2 = base ∧ oi_wf r.2.
Proof.
  intros (Hf & Hi & Hd) Hfrag file r Hr.
  assert (Ho : in_order relative_offset (λ prev e, relative_offset e <=? prev) offset_entry_fits (-1) (entries ix)).
  { apply increasing_in_order; [done|done|]. intros e He.
    rewrite Forall_forall in Hf. apply list_elem_of_lookup_2 in He. destruct (Hf e He) as [[? _] _]. lia. }
  destruct (index_open_spec kIndexEntryBytes enc_offset_entry dec_offset_entry relative_offset
    (λ prev e, relative_offset e <=? prev) offset_entry_fits eq_refl (λ e, eq_refl) dec_enc_offset
    (entries ix) frag (mkIndex file [] 0) base Ho Hfrag eq_refl Hr) as (He & Hb & Hd').
  change (index_open _ _ _ _ _ _) with r in He, Hb, Hd'.
  split; [done|]. split; [done|]. split; [by rewrite He|]. split; [by rewrite He|done].
Qed.

Lemma OffsetIndex_reopen_witness :
  let ix := fold_left run_index_op [IxAppend 5 0; IxAppend 9 4096] (empty_index 5 []) in
  let file := file_with (concat (map enc_offset_entry (entries ix)) ++ [1; 2; 3]) [OFull; OErr EINTR] in
  entries (OffsetIndex_Open 5 (mkIndex file [] 0)).2 = [mkOffsetEntry 0 0; mkOffsetEntry 4 4096].
Proof.
  intros ix file. apply (OffsetIndex_reopen ix [1; 2; 3] [OFull; OErr EINTR] 5).
  - apply run_index_ops_wf; [apply empty_index_wf|]. repeat constructor; discriminate.
  - done.
  - by vm_compute.
Defined.

(** ** The time index *)

Definition time_entry_fits (e : TimeIndexEntry) : Prop :=
  signed 64 (te_timestamp e) ∧ unsigned 32 (te_relative_offset e).
Definition nondecreasing (es : list TimeIndexEntry) : Prop :=
  ∀ i j x y, es !! i = Some x → es !! j = Some y → (i < j)%nat → te_timestamp x ≤ te_timestamp y.

Lemma nondecreasing_snoc es e :
  nondecreasing es → (∀ x, last es = Some x → te_timestamp x ≤ te_timestamp e) → nondecreasing (es ++ [e]).
Proof.
  intros H Hl i j x y Hi Hj Hij. rewrite lookup_app_Some in Hi, Hj.
  destruct Hj as [Hj|[Hj1 Hj]].
  - destruct Hi as [Hi|[Hi1 Hi]]; [by apply (H i j)|]. apply lookup_lt_Some in Hj. lia.
  - destruct (j - length es)%nat as [|k] eqn:Ek; [|done]. simpl in Hj. simplify_eq.
    destruct Hi as [Hi|[Hi1 Hi]]; [|lia].
    destruct (last es) as [z|] eqn:El; [|apply last_None in El; by subst].
    specialize (Hl z eq_refl). rewrite last_lookup in El.
    destruct (decide (i = pred (length es))) as [->|]; [by simplify_eq|].
    assert (te_timestamp x ≤ te_timestamp z); [|lia].
    apply (H i (pred (length es))); [done|done|]. apply lookup_lt_Some in Hi. lia.
Qed.

(** [LookupCeiling] is the first entry whose timestamp reaches the target. *)
Lemma LookupCeiling_spec ix ts o :
  nondecreasing (entries ix) → LookupCeiling ts ix = Some o →
  ∃ i e, entries ix !! i = Some e ∧ ts ≤ te_timestamp e ∧ o = ix_base ix + te_relative_offset e ∧
  ∀ j e', (j < i)%nat → entries ix !! j = Some e' → te_timestamp e' < ts.
Proof.
  intros Hn. unfold LookupCeiling. destruct (entries ix) as [|e0 es0] eqn:E; [done|].
  rewrite <- E in *. clear E. set (es := entries ix) in *.
  assert (Hp : partitioned (λ e, te_timestamp e <? ts) es).
  { apply (sorted_partitioned te_timestamp); [|done]. intros x y Hxy. rewrite !Z.ltb_ge. lia. }
  rewrite partition_point_spec by done. set (p := λ e, te_timestamp e <? ts) in *.
  destruct (es !! prefix_length p es) as [e|] eqn:He; [|done]. intros [= <-].
  exists (prefix_length p es), e. split; [done|]. pose proof (prefix_length_at p es e He) as Ha.
  unfold p in Ha. apply Z.ltb_ge in Ha. split; [done|]. split; [done|].
  intros j e' Hj He'. pose proof (prefix_length_before p es j e' Hj He') as Hb. by apply Z.ltb_lt in Hb.
Qed.
