(* ===== verification/Quiet.v ===== *)
(** * Quiet: operations fail only when the operating system does

    A file whose list of faults is empty behaves like a reliable disk.  [calm Q m]
    says that a method started in a state with reliable files succeeds and leaves
    them reliable; it is what turns the "on success" statements about storage into
    statements that the operation does succeed. *)
From S2P Require Import Prelude Status Buffer FileUtil OffsetIndex.

Definition calm {S A} (Q : S → Prop) (m : SR S A) : Prop :=
  ∀ s, Q s → is_ok (m s).1 = true ∧ Q (m s).2.

Lemma calm_preserves {S A} (Q : S → Prop) (m : SR S A) : calm Q m → preserves Q m.
Proof. intros H s Hs. apply (H s Hs). Qed.

Lemma calm_bind {S A B} (Q : S → Prop) (m : SR S A) (k : A → SR S B) :
  calm Q m → (∀ a, calm Q (k a)) → calm Q (sbind m k).
Proof.
  intros Hm Hk s Hs. destruct (Hm s Hs) as [H1 H2]. unfold sbind.
  destruct (m s) as [[a|e] s']; [by apply Hk|done].
Qed.
Lemma calm_ret {S A} (Q : S → Prop) (a : A) : calm Q (sret a).
Proof. by intros s. Qed.
Lemma calm_get {S} (Q : S → Prop) : calm Q (@sget S).
Proof. by intros s. Qed.
Lemma calm_mod {S} (Q : S → Prop) (f : S → S) : (∀ s, Q s → Q (f s)) → calm Q (smod f).
Proof. intros H s Hs. split; [done|by apply H]. Qed.
Lemma calm_try {S A} (Q : S → Prop) (m : SR S A) : preserves Q m → calm Q (stry m).
Proof. intros H s Hs. specialize (H s Hs). unfold stry. by destruct (m s). Qed.

Section Zoom.
Context {S T : Type} (Q : S → Prop) (R : T → Prop) (get : S → T) (set : T → S → S).
Hypothesis get_quiet : ∀ s, Q s → R (get s).
Hypothesis set_quiet : ∀ t s, Q s → R t → Q (set t s).

Lemma calm_zoom {A} (m : SR T A) : calm R m → calm Q (szoom get set m).
Proof.
  intros Hm s Hs. destruct (Hm (get s) (get_quiet s Hs)) as [H1 H2]. unfold szoom.
  destruct (m (get s)) as [r t]. split; [done|by apply set_quiet].
Qed.
Lemma preserves_zoom {A} (m : SR T A) : preserves R m → preserves Q (szoom get set m).
Proof.
  intros Hm s Hs. specialize (Hm (get s) (get_quiet s Hs)). unfold szoom.
  destruct (m (get s)) as [r t]. by apply set_quiet.
Qed.
End Zoom.

#[export] Hint Resolve calm_ret calm_get calm_bind calm_mod calm_try calm_preserves preserves_bind : pulse.

(** ** Files *)

Definition quiet (f : FileHandle) : Prop := faults f = [].

Lemma next_outcome_quiet f : quiet f → next_outcome f = (OFull, f).
Proof. unfold quiet, next_outcome. by intros ->. Qed.

(** A quiet loop stops with an error only by running out of rounds. *)
Definition stalls_only {A} (r : Result A * FileHandle) : Prop :=
  (∀ e, r.1 = Err e → e = kInternal) ∧ quiet r.2.

Lemma write_loop_quiet fuel p pos f : quiet f → stalls_only (write_loop fuel p pos f).
Proof.
  revert p pos f. induction fuel as [|fuel IH]; intros p pos f Hq; cbn [write_loop].
  { split; [by intros e [= <-]|done]. }
  destruct (Z.eqb_spec (zlen p) 0) as [|Hne]; [by split|].
  unfold pwrite. rewrite next_outcome_quiet by done. rewrite zlen_ztake.
  assert (HK : kMaxTransfer = 1073741824) by done. pose proof (zlen_nonneg p).
  destruct (Z.eqb_spec (Z.min (Z.max (Z.min (zlen p) kMaxTransfer) 0) (zlen p)) 0); [lia|]. by apply IH.
Qed.

Lemma writev_loop_quiet fuel vecs pos f :
  quiet f → Forall (λ v, v ≠ []) vecs → stalls_only (writev_loop fuel vecs pos f).
Proof.
  revert vecs pos f. induction fuel as [|fuel IH]; intros vecs pos f Hq Hne; cbn [writev_loop].
  { split; [by intros e [= <-]|done]. }
  destruct (Z.eqb_spec (zlen vecs) 0) as [|Hz]; [by split|].
  unfold pwrite. rewrite next_outcome_quiet by done.
  destruct vecs as [|v vecs]; [done|]. inversion Hne as [|? ? Hv Hvs]; subst.
  destruct (Z.eqb_spec (zlen (concat (ztake (Z.min (zlen (v :: vecs)) kMaxIovecs) (v :: vecs)))) 0) as [H0|H0].
  - exfalso. apply zlen_0_nil in H0. rewrite zlen_cons in H0. unfold ztake in H0.
    assert (HK : kMaxIovecs = 64) by done. pose proof (zlen_nonneg vecs).
    destruct (Z.to_nat (Z.min (1 + zlen vecs) kMaxIovecs)) eqn:E; [lia|].
    cbn [take concat] in H0. by apply app_nil in H0 as [-> _].
  - apply IH; [done|]. destruct (ztake_concat (Z.min (zlen (v :: vecs)) kMaxIovecs) (v :: vecs)) as [rest HE].
    apply consume_iovecs_spec; [done|]. rewrite HE, zlen_app. pose proof (zlen_nonneg rest). zlist.
Qed.

Lemma WriteAllAt_quiet data pos f :
  quiet f → 0 ≤ pos ≤ zlen (content f) → is_ok (WriteAllAt data pos f).1 = true ∧ quiet (WriteAllAt data pos f).2.
Proof.
  intros Hq Hpos. destruct (WriteAllAt_spec data pos f Hpos) as [_ HW].
  destruct (write_loop_quiet (io_fuel (zlen data) f) data pos f Hq) as [H1 H2].
  unfold WriteAllAt in *. destruct (write_loop _ data pos f) as [[[]|e] f']; [done|].
  destruct HW as [HW _]. by specialize (H1 e eq_refl).
Qed.

Lemma WriteVectoredAt_quiet chunks pos f :
  quiet f → 0 ≤ pos ≤ zlen (content f) →
  is_ok (WriteVectoredAt chunks pos f).1 = true ∧ quiet (WriteVectoredAt chunks pos f).2.
Proof.
  intros Hq Hpos. destruct (WriteVectoredAt_spec chunks pos f Hpos) as [_ HW]. destruct (filter_concat chunks) as [_ Hne].
  unfold WriteVectoredAt in *. set (vecs := List.filter _ chunks) in *.
  destruct (Z.eqb_spec (zlen vecs) 0); [done|].
  destruct (writev_loop_quiet (io_fuel (zlen (concat vecs)) f) vecs pos f Hq Hne) as [H1 H2].
  destruct (writev_loop _ vecs pos f) as [[[]|e] f']; [done|].
  destruct HW as [HW _]. by specialize (H1 e eq_refl).
Qed.

Lemma ReadAt_calm size pos f : quiet f → 0 ≤ pos → is_ok (ReadAt size pos f).1 = true ∧ quiet (ReadAt size pos f).2.
Proof. intros Hq Hp. by rewrite (ReadAt_quiet size pos f Hq Hp). Qed.

Lemma retry_quiet effect f : quiet f → retry effect f = (Ok tt, effect f).
Proof. intros Hq. unfold retry. cbn [retry_loop]. by rewrite next_outcome_quiet. Qed.

Lemma Truncate_calm n : calm quiet (Truncate n).
Proof. intros f Hq. unfold Truncate. by rewrite retry_quiet. Qed.
Lemma SyncFile_calm mode : calm quiet (SyncFile mode).
Proof. intros f Hq. unfold SyncFile. rewrite retry_quiet by done. unfold make_durable. by destruct (sync_failed _). Qed.
Lemma SyncData_calm : calm quiet SyncData.
Proof. exact (SyncFile_calm kData). Qed.
Lemma Size_calm : calm quiet Size.
Proof. intros f Hq. unfold Size. by rewrite next_outcome_quiet. Qed.
Lemma Preallocate_calm n : calm quiet (Preallocate n).
Proof. intros f Hq. unfold Preallocate. by rewrite next_outcome_quiet. Qed.

Lemma write_loop_stays fuel p pos f : quiet f → quiet (write_loop fuel p pos f).2.
Proof. intros Hq. by apply (write_loop_quiet fuel p pos f). Qed.
Lemma WriteAllAt_preserves data pos : preserves quiet (WriteAllAt data pos).
Proof. intros f Hq. by apply write_loop_stays. Qed.

(** ** Indexes *)

Definition quiet_index {E} (ix : SparseIndex E) : Prop := quiet (ix_file ix).

Lemma on_file_calm {E A} (m : SR FileHandle A) : calm quiet m → calm (@quiet_index E) (on_file m).
Proof. apply calm_zoom; by intros. Qed.
Lemma on_file_preserves {E A} (m : SR FileHandle A) : preserves quiet m → preserves (@quiet_index E) (on_file m).
Proof. apply preserves_zoom; by intros. Qed.

Lemma index_keep_calm {E} size keep : calm (@quiet_index E) (index_keep size keep).
Proof.
  apply calm_bind; [apply calm_get|]. intros ix. destruct (keep =? _)%nat; [apply calm_ret|].
  apply calm_bind; [by apply calm_mod|]. intros _. apply on_file_calm, Truncate_calm.
Qed.
Lemma OffsetIndex_TruncateFrom_calm offset : calm quiet_index (OffsetIndex_TruncateFrom offset).
Proof. apply calm_bind; [apply calm_get|]. intros ix. apply index_keep_calm. Qed.
Lemma TimeIndex_TruncateFrom_calm offset : calm quiet_index (TimeIndex_TruncateFrom offset).
Proof. apply calm_bind; [apply calm_get|]. intros ix. apply index_keep_calm. Qed.
Lemma index_sync_calm {E} : calm (@quiet_index E) index_sync.
Proof.
  apply calm_bind; [apply calm_get|]. intros ix. destruct (negb _); [apply calm_ret|].
  apply on_file_calm, SyncData_calm.
Qed.

Lemma index_push_preserves {E} size enc (e : E) : preserves quiet_index (index_push size enc e).
Proof.
  apply preserves_bind; [apply preserves_get|]. intros ix. apply preserves_bind.
  - apply on_file_preserves, WriteAllAt_preserves.
  - by intros _ ix'.
Qed.
Lemma OffsetIndex_Append_preserves o p : preserves quiet_index (OffsetIndex_Append o p).
Proof.
  apply preserves_bind; [apply preserves_get|]. intros ix. unfold sfail.
  destruct (_ || _); [by intros ?|]. destruct (UINT32_MAX <? p); [by intros ?|].
  destruct (match last _ with Some _ => _ | None => _ end); [by intros ?|apply index_push_preserves].
Qed.
Lemma TimeIndex_Append_preserves t o : preserves quiet_index (TimeIndex_Append t o).
Proof.
  apply preserves_bind; [apply preserves_get|]. intros ix.
  destruct (match last _ with Some _ => _ | None => _ end); [by intros ?|]. cbv zeta.
  destruct (_ || _); [by intros ?|apply index_push_preserves].
Qed.
#[export] Hint Resolve Truncate_calm SyncFile_calm SyncData_calm Size_calm Preallocate_calm on_file_calm
  OffsetIndex_TruncateFrom_calm TimeIndex_TruncateFrom_calm index_sync_calm OffsetIndex_Append_preserves
  TimeIndex_Append_preserves : pulse.
