(* ===== verification/Segment.v ===== *)
(** * Segment: one data file of a partition log and its indexes

    Models include/pulselog/storage/segment.h and src/storage/segment.cc.  Every
    operation runs over files whose system calls may fail or fall short
    ([FileUtil]).  The atomics are plain fields: a segment has one writer, and
    these definitions are its sequential behaviour. *)
From S2P Require Import Prelude Status Endian Buffer Types Text Frame Record FileUtil Search OffsetIndex.

Definition kBaseOffsetDigits : Z := 20.
Definition kRecoveryChunkBytes : Z := Z.shiftl 1 20.

(** ** File names *)

(** [setw(20) << setfill('0') << base_offset] *)
Definition FormatBaseOffset (base_offset : Z) : bytes :=
  let d := to_string base_offset in
  replicate (Z.to_nat (kBaseOffsetDigits - zlen d)) 48 ++ d.

Definition ParseBaseOffset (stem : bytes) : option Z :=
  if negb (zlen stem =? kBaseOffsetDigits) then None else
  match from_chars_int 64 stem with
  | Some (v, []) => Some v
  | _ => None
  end.

(** ** State *)

Record SegmentOptions := mkSegmentOptions {
  max_bytes : Z; index_interval_bytes : Z; preallocate : bool; write_mode : WriteMode;
  sync_mode : SyncMode }.

Record Segment := mkSegment {
  seg_file : FileHandle; seg_index : OffsetIndex; seg_time_index : TimeIndex;
  seg_options : SegmentOptions; base_offset : Z; created_at_ms : Z;
  end_position : Z; next_offset : Z; synced_position : Z; max_timestamp : Z; record_count : Z;
  last_indexed_position : Z; preallocated_to : Z }.

Definition with_file (f : FileHandle) (s : Segment) : Segment :=
  mkSegment f (seg_index s) (seg_time_index s) (seg_options s) (base_offset s) (created_at_ms s)
    (end_position s) (next_offset s) (synced_position s) (max_timestamp s) (record_count s)
    (last_indexed_position s) (preallocated_to s).
Definition with_index (i : OffsetIndex) (s : Segment) : Segment :=
  mkSegment (seg_file s) i (seg_time_index s) (seg_options s) (base_offset s) (created_at_ms s)
    (end_position s) (next_offset s) (synced_position s) (max_timestamp s) (record_count s)
    (last_indexed_position s) (preallocated_to s).
Definition with_time_index (t : TimeIndex) (s : Segment) : Segment :=
  mkSegment (seg_file s) (seg_index s) t (seg_options s) (base_offset s) (created_at_ms s)
    (end_position s) (next_offset s) (synced_position s) (max_timestamp s) (record_count s)
    (last_indexed_position s) (preallocated_to s).
Definition with_extent (endp next count maxts : Z) (s : Segment) : Segment :=
  mkSegment (seg_file s) (seg_index s) (seg_time_index s) (seg_options s) (base_offset s)
    (created_at_ms s) endp next (synced_position s) maxts count (last_indexed_position s)
    (preallocated_to s).
Definition with_synced (p : Z) (s : Segment) : Segment :=
  mkSegment (seg_file s) (seg_index s) (seg_time_index s) (seg_options s) (base_offset s)
    (created_at_ms s) (end_position s) (next_offset s) p (max_timestamp s) (record_count s)
    (last_indexed_position s) (preallocated_to s).
Definition with_last_indexed (p : Z) (s : Segment) : Segment :=
  mkSegment (seg_file s) (seg_index s) (seg_time_index s) (seg_options s) (base_offset s)
    (created_at_ms s) (end_position s) (next_offset s) (synced_position s) (max_timestamp s)
    (record_count s) p (preallocated_to s).
Definition with_preallocated (p : Z) (s : Segment) : Segment :=
  mkSegment (seg_file s) (seg_index s) (seg_time_index s) (seg_options s) (base_offset s)
    (created_at_ms s) (end_position s) (next_offset s) (synced_position s) (max_timestamp s)
    (record_count s) (last_indexed_position s) p.

Definition in_file {A} (m : SR FileHandle A) : SR Segment A := szoom seg_file with_file m.
Definition in_index {A} (m : SR OffsetIndex A) : SR Segment A := szoom seg_index with_index m.
Definition in_time_index {A} (m : SR TimeIndex A) : SR Segment A :=
  szoom seg_time_index with_time_index m.

(** The three files of a segment as [FileHandle::Open] returned them; [existed]
    says whether the log file was there before; [now] is WallClockMillis(). *)
Definition Segment_Open (existed : bool) (log_file index_file time_file : FileHandle)
    (base : Z) (options : SegmentOptions) (now : Z) : Result unit * Segment :=
  let s := mkSegment log_file (mkIndex index_file [] 0) (mkIndex time_file [] 0) options base
             0 0 base 0 (-1) 0 0 0 in
  (in_index (OffsetIndex_Open base) ;;;
   in_time_index (TimeIndex_Open base) ;;;
   let! file_size := in_file Size in
   smod (with_preallocated file_size) ;;;
   (if negb existed && preallocate options && (0 <? max_bytes options) then
      let! st := stry (in_file (Preallocate (max_bytes options))) in
      if is_ok st then smod (with_preallocated (max_bytes options)) else sret tt
    else sret tt) ;;;
   smod (λ s, mkSegment (seg_file s) (seg_index s) (seg_time_index s) (seg_options s)
                (base_offset s) now (end_position s) (next_offset s) (synced_position s)
                (max_timestamp s) (record_count s) (LastIndexedPosition (seg_index s))
                (preallocated_to s))) s.

(** ** Recovery *)

Record RecoveryReport := mkReport {
  rep_next_offset : Z; valid_bytes : Z; truncated_bytes : Z; preallocated_bytes : Z;
  records_scanned : Z; truncated : bool }.

(** Progress of the scan: the next expected offset, records seen, largest timestamp. *)
Record Scan := mkScan { sc_offset : Z; sc_records : Z; sc_max_ts : Z }.

(** The inner loop over one chunk: where it stopped and whether the scan is over.
    [more] says that the chunk was read in full and the file continues behind it. *)
Fixpoint scan_chunk (fuel : nat) (chunk : bytes) (chunk_pos : Z) (more : bool) (sc : Scan)
    : Z * Scan * bool :=
  match fuel with
  | O => (chunk_pos, sc, false)
  | S fuel =>
      if chunk_pos <? zlen chunk then
        match ParseRecord chunk chunk_pos true with
        | Err e => (chunk_pos, sc, negb (bool_decide (e = kOutOfRange) && more))
        | Ok (view, next) =>
            if negb (rv_offset view =? sc_offset sc) then (chunk_pos, sc, true)
            else scan_chunk fuel chunk next more
                   (mkScan (sc_offset sc + 1) (sc_records sc + 1)
                      (Z.max (sc_max_ts sc) (rv_timestamp view)))
        end
      else (chunk_pos, sc, false)
  end.

(** The outer loop; [None] when [fuel] rounds did not finish it.  In the source the
    [chunk.resize(kMaxRecordBytes + 64)] before [continue] is undone by the
    [chunk.resize(want)] at the top of the loop, so the retry is an identical round. *)
Fixpoint recover_loop (fuel : nat) (file_size position : Z) (sc : Scan) (f : FileHandle)
    : option (Result (Z * Scan)) * FileHandle :=
  match fuel with
  | O => (None, f)
  | S fuel =>
      if position <? file_size then
        let want := Z.min kRecoveryChunkBytes (file_size - position) in
        match ReadAt want position f with
        | (Err e, f) => (Some (Err e), f)
        | (Ok chunk, f) =>
            let got := zlen chunk in
            if got =? 0 then (Some (Ok (position, sc)), f) else
            let more := (got =? want) && (position + got <? file_size) in
            let '(chunk_pos, sc, fin) := scan_chunk (S (length chunk)) chunk 0 more sc in
            if (chunk_pos =? 0) && negb fin then
              if kMaxRecordBytes + 64 <=? want then (Some (Ok (position, sc)), f)
              else recover_loop fuel file_size position sc f
            else if fin then (Some (Ok (position + chunk_pos, sc)), f)
            else recover_loop fuel file_size (position + chunk_pos) sc f
        end
      else (Some (Ok (position, sc)), f)
  end.

(** The tail after the last good record: cut it off, in the file and the indexes. *)
Definition drop_tail (file_size position offset : Z) : SR Segment (Z * Z * bool) :=
  let! peeked := stry (in_file (ReadAt 4 position)) in
  let preallocated_tail :=
    match peeked with
    | Ok peek => (zlen peek =? 4) && (load_at 4 0 peek =? 0)
    | Err _ => false
    end in
  in_file (Truncate position) ;;;
  in_index (OffsetIndex_TruncateFrom offset) ;;;
  in_time_index (TimeIndex_TruncateFrom offset) ;;;
  smod (with_preallocated position) ;;;
  sret (if preallocated_tail then (0, file_size - position, false)
        else (file_size - position, 0, true)).

Definition finish_recovery (full_scan : bool) (file_size position : Z) (sc : Scan)
    : SR Segment RecoveryReport :=
  let offset := sc_offset sc in
  let! '(trunc, prealloc, damaged) :=
    (if position <? file_size then drop_tail file_size position offset else sret (0, 0, false)) in
  smod (λ s, with_last_indexed (LastIndexedPosition (seg_index s))
               (with_synced position
                  (with_extent position offset
                     (sc_records sc + (if full_scan then 0 else EntryCount (seg_index s)))
                     (Z.max (sc_max_ts sc) (MaxTimestamp (seg_time_index s))) s))) ;;;
  sret (mkReport offset position trunc prealloc (sc_records sc) damaged).

(** [None]: still scanning after [fuel] rounds. *)
Definition Recover (fuel : nat) (full_scan : bool) (s : Segment)
    : option (Result RecoveryReport) * Segment :=
  match in_file Size s with
  | (Err e, s) => (Some (Err e), s)
  | (Ok file_size, s) =>
      let from_index := negb full_scan && (0 <? EntryCount (seg_index s)) in
      let position := if from_index then LastIndexedPosition (seg_index s) else 0 in
      let offset := if from_index then LastIndexedOffset (seg_index s) else base_offset s in
      match recover_loop fuel file_size position (mkScan offset 0 (-1)) (seg_file s) with
      | (None, f) => (None, with_file f s)
      | (Some (Err e), f) => (Some (Err e), with_file f s)
      | (Some (Ok (position, sc)), f) =>
          let '(r, s) := finish_recovery full_scan file_size position sc (with_file f s) in
          (Some r, s)
      end
  end.

(** ** Appending *)

(** The sparse index entries for a batch that starts at [start].
    [start - last_indexed_position_] is unsigned arithmetic in the source. *)
Definition index_batch (start append_base max_ts : Z) : SR Segment unit :=
  let! s := sget in
  if (u64 (index_interval_bytes (seg_options s)) <=? u64 (start - last_indexed_position s))
     || (EntryCount (seg_index s) =? 0)
  then
    let! st := stry (in_index (OffsetIndex_Append append_base start)) in
    if is_ok st then
      smod (with_last_indexed start) ;;;
      let! _st := stry (in_time_index (TimeIndex_Append max_ts append_base)) in
      sret tt
    else sret tt
  else sret tt.

Definition FinishAppend (bytes_ append_base last_offset count max_ts : Z) : SR Segment unit :=
  let! s := sget in
  let start := end_position s in
  index_batch start append_base max_ts ;;;
  smod (λ s, with_extent (start + bytes_) (last_offset + 1) (record_count s + count)
               (Z.max (max_timestamp s) max_ts) s).

Definition grow_preallocated (needed : Z) : SR Segment unit :=
  smod (λ s, if preallocated_to s <? needed then with_preallocated needed s else s).

Definition AppendEncoded (records : bytes) (append_base last_offset count max_ts : Z) : SR Segment unit :=
  if zlen records =? 0 then sret tt else
  let! s := sget in
  let start := end_position s in
  grow_preallocated (start + zlen records) ;;;
  in_file (WriteAllAt records start) ;;;
  FinishAppend (zlen records) append_base last_offset count max_ts.

Definition AppendEncodedVectored (chunks : list bytes) (append_base last_offset count max_ts : Z)
    : SR Segment unit :=
  let total := fold_left (λ n c, n + zlen c) chunks 0 in
  if total =? 0 then sret tt else
  let! s := sget in
  let start := end_position s in
  grow_preallocated (start + total) ;;;
  in_file (WriteVectoredAt chunks start) ;;;
  FinishAppend total append_base last_offset count max_ts.

(** ** Lookup *)

(** The walk over one block: [inl e] is an early error return. *)
Fixpoint walk_block (fuel : nat) (block : bytes) (position limit offset block_pos current : Z)
    : ErrorCode + (Z * Z) :=
  match fuel with
  | O => inr (block_pos, current)
  | S fuel =>
      if (current <? offset) && (block_pos + 4 <=? zlen block) then
        let record_size := load_at 4 block_pos block + 4 in
        if (record_size <? kRecordFixedPrefix) || (limit <? position + block_pos + record_size)
        then inl kCorruption
        else if zlen block <? block_pos + record_size then inr (block_pos, current)
        else walk_block fuel block position limit offset (block_pos + record_size) (current + 1)
      else inr (block_pos, current)
  end.

Fixpoint position_loop (fuel : nat) (limit offset position current block_size : Z)
    : SR FileHandle Z := λ f,
  match fuel with
  | O => (Err kInternal, f)
  | S fuel =>
      if current <? offset then
        let want := Z.min block_size (limit - position) in
        if want <? 4 then (Err kCorruption, f) else
        match ReadAt want position f with
        | (Err e, f) => (Err e, f)
        | (Ok block, f) =>
            if zlen block <? 4 then (Err kCorruption, f) else
            match walk_block (S (length block)) block position limit offset 0 current with
            | inl e => (Err e, f)
            | inr (block_pos, current) =>
                if block_pos =? 0 then
                  let record_size := load_at 4 0 block + 4 in
                  if (record_size <? kRecordFixedPrefix) || (kMaxRecordBytes <? record_size)
                     || (limit <? position + record_size) then (Err kCorruption, f)
                  else if record_size <=? block_size then (Err kCorruption, f)
                  else position_loop fuel limit offset position current record_size f
                else position_loop fuel limit offset (position + block_pos) current block_size f
            end
        end
      else (Ok position, f)
  end.

(** Every round passes a record or enlarges the block for the one it is at, so two
    rounds per record are enough. *)
Definition PositionFor (offset : Z) : SR Segment Z :=
  let! s := sget in
  if offset <? base_offset s then sfail kOutOfRange else
  let end_ := next_offset s in
  if end_ <=? offset then sfail kOutOfRange else
  let limit := end_position s in
  let '(position, current) :=
    match LookupFloor offset (seg_index s) with
    | Some e => (file_position e, base_offset s + relative_offset e)
    | None => (0, base_offset s)
    end in
  if offset <=? current then sret position else
  let block_size := Z.max (index_interval_bytes (seg_options s)) 8192 in
  in_file (position_loop (S (2 * Z.to_nat (offset - current) + 1)) limit offset position current block_size).

(** ** Reading *)

Record ReadResult := mkReadResult {
  rr_base_offset : Z; rr_record_count : Z; rr_bytes : Z; reached_end : bool }.

(** How many whole records of the chunk to take: bytes and records accepted. *)
Fixpoint accept_loop (fuel : nat) (chunk : bytes) (offset end_ max_bytes taken_bytes taken_records : Z)
    (accepted accepted_records : Z) : Z * Z :=
  match fuel with
  | O => (accepted, accepted_records)
  | S fuel =>
      if (accepted <? zlen chunk) && (offset + accepted_records <? end_) then
        match PeekRecordLength chunk accepted with
        | None => (accepted, accepted_records)
        | Some length =>
            let record_size := length + 4 in
            if zlen chunk <? accepted + record_size then (accepted, accepted_records)
            else if (0 <? taken_records + accepted_records)
                    && (max_bytes <? taken_bytes + accepted + record_size)
            then (accepted, accepted_records)
            else accept_loop fuel chunk offset end_ max_bytes taken_bytes taken_records
                   (accepted + record_size) (accepted_records + 1)
        end
      else (accepted, accepted_records)
  end.

(** The state of the copy loop: next offset, file cursor, result so far. *)
Record Copy := mkCopy { cp_offset : Z; cp_cursor : Z; cp_bytes : Z; cp_records : Z }.

Fixpoint copy_loop (fuel : nat) (limit end_ max_bytes : Z) (c : Copy)
    : SR (FileHandle * ByteBuffer) Copy := λ st,
  let '(f, out) := st in
  match fuel with
  | O => (Err kInternal, st)
  | S fuel =>
      if (cp_cursor c <? limit) && (cp_offset c <? end_) then
        let budget_left := if cp_bytes c <? max_bytes then max_bytes - cp_bytes c else 0 in
        if budget_left =? 0 then (Ok c, st) else
        match ReadExactAt 4 (cp_cursor c) f with
        | (Err e, f) => (Err e, (f, out))
        | (Ok length_bytes, f) =>
            let next_record_size := load_at 4 0 length_bytes + 4 in
            if (next_record_size <? kRecordFixedPrefix) || (limit <? cp_cursor c + next_record_size)
            then (Err kCorruption, (f, out)) else
            let want := Z.min (Z.min kRecoveryChunkBytes (limit - cp_cursor c)) budget_left in
            if (want <? next_record_size) && (0 <? cp_records c) then (Ok c, (f, out)) else
            let want := if want <? next_record_size then next_record_size else want in
            let out := EnsureWritable want out in
            match ReadAt want (cp_cursor c) f with
            | (Err e, f) => (Err e, (f, out))
            | (Ok chunk, f) =>
                let out := PokeWritable chunk out in
                if zlen chunk <? next_record_size then (Ok c, (f, out)) else
                let '(accepted, accepted_records) :=
                  accept_loop (S (length chunk)) chunk (cp_offset c) end_ max_bytes
                    (cp_bytes c) (cp_records c) 0 0 in
                if accepted =? 0 then (Ok c, (f, out)) else
                copy_loop fuel limit end_ max_bytes
                  (mkCopy (cp_offset c + accepted_records) (cp_cursor c + accepted)
                     (cp_bytes c + accepted) (cp_records c + accepted_records))
                  (f, Commit accepted out)
            end
        end
      else (Ok c, st)
  end.

Definition Segment_Read (from max_bytes : Z) : SR (Segment * ByteBuffer) ReadResult :=
  let! st := sget in
  let s := st.1 in
  let end_ := next_offset s in
  let limit := end_position s in
  if end_ <=? from then sret (mkReadResult from 0 0 true) else
  let! position := szoom fst (λ s st, (s, st.2)) (PositionFor from) in
  let! c := szoom (λ st, (seg_file st.1, st.2)) (λ fb st, (with_file fb.1 st.1, fb.2))
              (copy_loop (S (Z.to_nat (end_ - from))) limit end_ max_bytes
                 (mkCopy from position 0 0)) in
  sret (mkReadResult from (cp_records c) (cp_bytes c) (end_ <=? cp_offset c)).

(** ** Truncating, syncing, closing *)

Definition Segment_TruncateFrom (offset : Z) : SR Segment unit :=
  let! s := sget in
  if next_offset s <=? offset then sret tt else
  if offset <=? base_offset s then
    in_file (Truncate 0) ;;;
    in_index (OffsetIndex_TruncateFrom (base_offset s)) ;;;
    in_time_index (TimeIndex_TruncateFrom (base_offset s)) ;;;
    smod (λ s, with_preallocated 0 (with_last_indexed 0 (with_synced 0
                 (with_extent 0 (base_offset s) 0 (max_timestamp s) s))))
  else
    let! position := PositionFor offset in
    in_file (Truncate position) ;;;
    in_index (OffsetIndex_TruncateFrom offset) ;;;
    in_time_index (TimeIndex_TruncateFrom offset) ;;;
    smod (λ s, with_preallocated position
                 (with_last_indexed (LastIndexedPosition (seg_index s))
                    (with_synced (if position <? synced_position s then position else synced_position s)
                       (with_extent position offset (offset - base_offset s) (max_timestamp s) s)))).

Definition Segment_Sync : SR Segment unit :=
  let! s := sget in
  let position := end_position s in
  if position =? synced_position s then sret tt else
  in_file (SyncFile (sync_mode (seg_options s))) ;;;
  in_index index_sync ;;;
  in_time_index index_sync ;;;
  smod (with_synced position).

Definition close_files (s : Segment) : Segment :=
  with_time_index (index_close (seg_time_index s))
    (with_index (index_close (seg_index s)) (with_file (CloseFile (seg_file s)) s)).

(** The first failure of the sync and the trim is the status returned. *)
Definition Segment_Close (s : Segment) : Result unit * Segment :=
  let '(status, s) :=
    if fvalid (seg_file s) then
      let '(status, s) := Segment_Sync s in
      let position := end_position s in
      if position <? preallocated_to s then
        let '(tr, s) := in_file (Truncate position) s in
        (match status with Ok _ => tr | Err e => Err e end, s)
      else (status, s)
    else (Ok tt, s) in
  (status, close_files s).

Definition OffsetForTimestamp (target : Z) (s : Segment) : option Z :=
  LookupCeiling target (seg_time_index s).
Definition IsFull (limit : Z) (s : Segment) : bool := limit <=? end_position s.
