(* ===== verification/SegmentSpec.v ===== *)
(** * SegmentSpec: what a segment holds

    The abstract state of a segment is the run of records it stores.  [seg_inv s rs]
    ties the implementation to it: the file up to the published end is exactly the
    records' bytes, their offsets are consecutive from the base, and every index
    entry points at the start of the record it names.  The lemmas here are about
    runs of records as byte strings, shared by recovery, lookup, read and
    truncation. *)
From S2P Require Import Prelude Status Endian Crc32c Buffer Types Frame Record FileUtil Search OffsetIndex Segment.

Abbreviation Run := (list (bytes * LogRecord)).

(** Where the [i]-th record of the run starts. *)
Definition pos_of (rs : Run) (i : nat) : Z := zlen (run_bytes (take i rs)).

Definition consecutive (base : Z) (rs : Run) : Prop :=
  ∀ i r, rs !! i = Some r → lr_offset r.2 = base + Z.of_nat i.

Definition index_points (rs : Run) (e : OffsetIndexEntry) : Prop :=
  relative_offset e < zlen rs ∧ file_position e = pos_of rs (Z.to_nat (relative_offset e)).

Definition index_ok (base : Z) (rs : Run) (ix : OffsetIndex) : Prop :=
  oi_wf ix ∧ ix_base ix = base ∧ ∀ e, e ∈ entries ix → index_points rs e.

Record seg_inv (s : Segment) (rs : Run) : Prop := {
  inv_end : end_position s = zlen (run_bytes rs);
  inv_content : ztake (end_position s) (content (seg_file s)) = run_bytes rs;
  inv_fits : end_position s ≤ zlen (content (seg_file s));
  inv_run : run_ok true rs;
  inv_offsets : consecutive (base_offset s) rs;
  inv_next : next_offset s = base_offset s + zlen rs;
  inv_index : index_ok (base_offset s) rs (seg_index s);
  inv_last_indexed : 0 ≤ last_indexed_position s ≤ end_position s;
  inv_size : zlen (run_bytes rs) < 2 ^ 62;
}.

(** ** Runs of records as byte strings *)

Lemma run_bytes_app rs1 rs2 : run_bytes (rs1 ++ rs2) = run_bytes rs1 ++ run_bytes rs2.
Proof. unfold run_bytes. by rewrite map_app, concat_app. Qed.

Lemma run_bytes_split i rs : run_bytes rs = run_bytes (take i rs) ++ run_bytes (drop i rs).
Proof. by rewrite <- run_bytes_app, take_drop. Qed.

Lemma run_ok_app v rs1 rs2 : run_ok v (rs1 ++ rs2) ↔ run_ok v rs1 ∧ run_ok v rs2.
Proof. unfold run_ok. apply Forall_app. Qed.
Lemma run_ok_take v i rs : run_ok v rs → run_ok v (take i rs).
Proof. apply Forall_take. Qed.
Lemma run_ok_drop v i rs : run_ok v rs → run_ok v (drop i rs).
Proof. apply Forall_drop. Qed.

Lemma run_ok_lookup v rs i r x :
  run_ok v rs → rs !! i = Some (r, x) → ∃ crc, shape r x crc ∧ (v = true → crc = Crc32c (zdrop 8 r)).
Proof. intros H Hi. apply (Forall_lookup_1 _ _ _ _ H Hi). Qed.

Lemma run_ok_encodes rs i r x : run_ok true rs → rs !! i = Some (r, x) → encodes r x.
Proof.
  intros H Hi. destruct (run_ok_lookup _ _ _ _ _ H Hi) as (crc & Hs & Hc).
  unfold encodes. by rewrite <- Hc.
Qed.

Lemma drop_run rs i tail : zdrop (pos_of rs i) (run_bytes rs ++ tail) = run_bytes (drop i rs) ++ tail.
Proof. rewrite (run_bytes_split i rs), <- app_assoc. by apply zdrop_app. Qed.

Lemma run_drop_cons rs i r :
  rs !! i = Some r → run_bytes (drop i rs) = r.1 ++ run_bytes (drop (S i) rs).
Proof. intros Hi. by rewrite (drop_S _ _ _ Hi). Qed.

Lemma pos_of_S rs i r : rs !! i = Some r → pos_of rs (S i) = pos_of rs i + zlen r.1.
Proof.
  intros Hi. unfold pos_of. rewrite (take_S_r _ _ _ Hi), run_bytes_app, zlen_app.
  unfold run_bytes at 2. cbn [map concat]. by rewrite app_nil_r.
Qed.

Lemma pos_of_0 rs : pos_of rs 0 = 0.
Proof. done. Qed.
Lemma pos_of_all rs i : (length rs ≤ i)%nat → pos_of rs i = zlen (run_bytes rs).
Proof. intros. unfold pos_of. by rewrite take_ge. Qed.

Lemma pos_of_le rs i : 0 ≤ pos_of rs i ≤ zlen (run_bytes rs).
Proof.
  unfold pos_of. rewrite (run_bytes_split i rs), zlen_app. zlist.
Qed.

Lemma pos_of_mono rs i j : (i ≤ j)%nat → pos_of rs i ≤ pos_of rs j.
Proof.
  intros Hij. unfold pos_of.
  rewrite (run_bytes_split i (take j rs)). rewrite take_take, Nat.min_l by done.
  rewrite zlen_app. zlist.
Qed.

Lemma consecutive_app base rs1 rs2 :
  consecutive base rs1 → consecutive (base + zlen rs1) rs2 → consecutive base (rs1 ++ rs2).
Proof.
  intros H1 H2 i r Hi. rewrite lookup_app_Some in Hi. destruct Hi as [Hi|[Hl Hi]]; [by apply H1|].
  rewrite (H2 _ _ Hi). unfold zlen. lia.
Qed.
Lemma consecutive_take base i rs : consecutive base rs → consecutive base (take i rs).
Proof. intros H j r Hj. rewrite lookup_take_Some in Hj. apply H. tauto. Qed.
Lemma consecutive_drop base i rs :
  consecutive base rs → consecutive (base + Z.of_nat i) (drop i rs).
Proof. intros H j r Hj. rewrite lookup_drop in Hj. rewrite (H _ _ Hj). lia. Qed.

Lemma run_record_bounds v rs i r : run_ok v rs → rs !! i = Some r → 27 ≤ zlen r.1 ≤ kMaxRecordBytes + 4.
Proof.
  destruct r as [r x]. intros H Hi. destruct (run_ok_lookup _ _ _ _ _ H Hi) as (crc & Hs & _).
  by apply (shape_bounds _ _ _ Hs).
Qed.

(** The length prefix at a record boundary is the record's size less 4. *)
Lemma shape_length r x crc post : shape r x crc → load_at 4 0 (r ++ post) + 4 = zlen r.
Proof.
  intros (kfb & vlb & _ & _ & -> & Hmax & Ho & Ht & Hc).
  destruct (image_fields crc x kfb vlb post Hmax Ho Ht Hc) as (-> & _).
  rewrite zlen_record_image. lia.
Qed.

Lemma load_length_at v rs i r tail :
  run_ok v rs → rs !! i = Some r →
  load_at 4 (pos_of rs i) (run_bytes rs ++ tail) + 4 = zlen r.1.
Proof.
  destruct r as [r x]. intros H Hi. destruct (run_ok_lookup _ _ _ _ _ H Hi) as (crc & Hs & _).
  rewrite <- (Z.add_0_r (pos_of rs i)), load_at_shift by (apply pos_of_le || done).
  rewrite drop_run, (run_drop_cons _ _ _ Hi). cbn [fst]. rewrite <- app_assoc.
  by apply (shape_length r x crc).
Qed.

(** Reading a window of the file at a boundary shows a prefix of what follows. *)
Lemma slice_run rs i n tail :
  slice (pos_of rs i) n (run_bytes rs ++ tail) = ztake n (run_bytes (drop i rs) ++ tail).
Proof. unfold slice. by rewrite drop_run. Qed.

(** ** Records cut short *)

Lemma load_at_prefix n off m (l : bytes) :
  0 ≤ off → off + Z.of_nat n ≤ m → m ≤ zlen l → load_at n off (ztake m l) = load_at n off l.
Proof.
  intros Ho Hm Hl. unfold load_at. rewrite zdrop_ztake by done.
  rewrite <- (ztake_zdrop (m - off) (zdrop off l)) at 2. rewrite LoadLe_app; [done|].
  unfold zlen in Hl. unfold ztake, zdrop. rewrite length_take, length_drop. lia.
Qed.

(** A record whose end is missing is reported as out of range, never as corrupt. *)
Lemma ParseRecord_truncated r x crc pre m verify :
  shape r x crc → 0 ≤ m < zlen r →
  ParseRecord (pre ++ ztake m r) (zlen pre) verify = Err kOutOfRange.
Proof.
  intros Hs Hm. pose proof (shape_bounds _ _ _ Hs) as Hb.
  assert (HL : zlen (pre ++ ztake m r) = zlen pre + m) by (rewrite zlen_app, zlen_ztake; lia).
  unfold ParseRecord. rewrite HL. unfold kRecordFixedPrefix.
  destruct (Z.ltb_spec (zlen pre + m) (zlen pre + 25)) as [|H25]; [done|].
  assert (Hlen : load_at 4 (zlen pre + kOffLength) (pre ++ ztake m r) + 4 = zlen r).
  { rewrite load_at_shift by (done || apply zlen_nonneg). rewrite zdrop_app by done.
    unfold kOffLength. rewrite load_at_prefix by lia.
    rewrite <- (app_nil_r r) at 1. by apply (shape_length r x crc). }
  destruct (Z.ltb_spec (load_at 4 (zlen pre + kOffLength) (pre ++ ztake m r)) (25 - 4)); [lia|].
  destruct (Z.ltb_spec kMaxRecordBytes (load_at 4 (zlen pre + kOffLength) (pre ++ ztake m r))); [lia|].
  by destruct (Z.ltb_spec (zlen pre + m) (zlen pre + (load_at 4 (zlen pre + kOffLength) (pre ++ ztake m r) + 4)));
    [|lia].
Qed.
