(* ===== verification/Recovery.v ===== *)
(** * Recovery: scanning a segment after a crash

    The scan of [Segment::Recover] against an arbitrary file: a run of good
    records followed by a tail that does not continue it.  It stops exactly at
    the end of the run, whatever the tail is, as long as no record exceeds the
    1 MiB scan window; with a larger one it never returns. *)
From S2P Require Import Prelude Status Endian Crc32c Buffer Types Codec Frame Record FileUtil Search OffsetIndex Quiet Segment SegmentSpec.

(** The scan's counters after [rs] more records. *)
Definition advance (sc : Scan) (rs : Run) : Scan :=
  mkScan (sc_offset sc + zlen rs) (sc_records sc + zlen rs)
    (fold_left (λ m r, Z.max m (lr_timestamp r.2)) rs (sc_max_ts sc)).

Lemma advance_nil sc : advance sc [] = sc.
Proof. destruct sc. unfold advance; cbn. by rewrite !Z.add_0_r. Qed.
Lemma advance_app sc rs1 rs2 : advance (advance sc rs1) rs2 = advance sc (rs1 ++ rs2).
Proof.
  unfold advance; cbn [sc_offset sc_records sc_max_ts]. rewrite fold_left_app, zlen_app.
  f_equal; lia.
Qed.

(** The bytes [tail] do not hold the record that would continue the log at [off]. *)
Definition tail_ends (off : Z) (tail : bytes) : Prop :=
  Forall is_byte tail ∧ sane_at tail 0 ∧
  ∀ v n, ParseRecord tail 0 true = Ok (v, n) → rv_offset v ≠ off.

Lemma ReadVarUInt_transfer data pos data' pos' v n post :
  0 ≤ pos → 0 ≤ pos' ≤ zlen data' → ReadVarUInt data pos = Some (v, n) →
  zdrop pos' data' = slice pos n data ++ post → ReadVarUInt data' pos' = Some (v, n).
Proof.
  intros Hp Hp' H Hd. destruct (ReadVarUInt_inv _ _ _ _ Hp H) as (Hn & Hle & Hr).
  assert (HL : zlen (slice pos n data) = n) by (apply zlen_slice; lia).
  rewrite (ReadVarUInt_reads data' pos' (slice pos n data) post v) by done. by rewrite HL.
Qed.

Lemma slice_prefix {A} (pre t : list A) k n pos :
  pos = zlen pre + k → 0 ≤ k → slice pos n (pre ++ t) = slice k n t.
Proof. intros -> Hk. rewrite slice_app_r by lia. f_equal. lia. Qed.

Lemma slice_of_ztake {A} k n m (l : list A) :
  0 ≤ k → 0 ≤ n → k + n ≤ m → slice k n (ztake m l) = slice k n l.
Proof.
  intros. unfold slice. rewrite zdrop_ztake by done. rewrite ztake_ztake. f_equal. lia.
Qed.

(** A varint read inside a prefix of the tail reads the same in the whole tail. *)
Lemma read_in_tail pre tail m k v n :
  0 ≤ m ≤ zlen tail → 0 ≤ k → ReadVarUInt (pre ++ ztake m tail) (zlen pre + k) = Some (v, n) →
  0 < n ∧ k + n ≤ m ∧ ReadVarUInt tail k = Some (v, n).
Proof.
  intros Hm Hk H. pose proof (zlen_nonneg pre).
  destruct (ReadVarUInt_inv (pre ++ ztake m tail) (zlen pre + k) v n ltac:(lia) H) as (Hn & Hle & _).
  rewrite zlen_app, zlen_ztake in Hle. split; [done|]. split; [lia|].
  apply (ReadVarUInt_transfer (pre ++ ztake m tail) (zlen pre + k) tail k v n (zdrop (k + n) tail));
    [lia|lia|done|].
  rewrite (slice_prefix _ _ k) by lia. rewrite slice_of_ztake by lia.
  unfold slice. rewrite <- (ztake_zdrop n (zdrop k tail)) at 1. by rewrite zdrop_zdrop by lia.
Qed.

(** No chunk that shows a prefix of the tail shows the next record either. *)
Lemma tail_ends_prefix off tail pre m v n :
  tail_ends off tail → Forall is_byte pre → 0 ≤ m ≤ zlen tail →
  zlen (pre ++ ztake m tail) < 2 ^ 62 → zlen tail < 2 ^ 62 →
  ParseRecord (pre ++ ztake m tail) (zlen pre) true = Ok (v, n) → rv_offset v ≠ off.
Proof.
  intros (Hbt & Hsane & Hoff) Hbp Hm Hbig Hbig' HP. pose proof (zlen_nonneg pre).
  set (data := pre ++ ztake m tail) in *.
  assert (Hb : Forall is_byte data) by (apply Forall_app; split; [done|by apply Forall_take]).
  assert (Hs : sane_at data (zlen pre)).
  { intros kf n1 vl n2 R1 R2. rewrite <- Z.add_assoc in R2.
    destruct (read_in_tail pre tail m kVarintStart kf n1 Hm ltac:(done) R1) as (Hn1 & _ & R1').
    destruct (read_in_tail pre tail m (kVarintStart + n1) vl n2 Hm ltac:(unfold kVarintStart; lia) R2) as (_ & _ & R2').
    exact (Hsane kf n1 vl n2 R1' R2'). }
  destruct (ParseRecord_inv data (zlen pre) true v n Hb Hs ltac:(lia) Hbig HP) as (Hn & x & crc & Hsh & Hv & Hc).
  set (r := slice (zlen pre) (n - zlen pre) data) in *.
  assert (Hle : n - zlen pre ≤ m) by (unfold data in Hn; rewrite zlen_app, zlen_ztake in Hn; lia).
  assert (Hr : r = ztake (n - zlen pre) tail).
  { unfold r, data. rewrite (slice_prefix _ _ 0) by lia. rewrite slice_of_ztake by lia. apply slice_0. }
  destruct (ParseRecord_shape tail 0 true r x crc (zdrop (n - zlen pre) tail) Hsh Hc) as (v' & HP' & Hv').
  { zlist. } { lia. } { rewrite zdrop_0, Hr by lia. by rewrite ztake_zdrop. }
  specialize (Hoff _ _ HP'). destruct Hv as (Hv & _), Hv' as (Hv' & _). congruence.
Qed.

(** ** One chunk *)

(** Where the scan of a chunk stops when the chunk shows [m] bytes from a record
    boundary on: behind the last record that is wholly visible. *)
Lemma scan_chunk_run rs tail pre m fuel more sc :
  run_ok true rs → consecutive (sc_offset sc) rs → Forall is_byte (run_bytes rs) → Forall is_byte pre →
  tail_ends (sc_offset sc + zlen rs) tail → zlen tail < 2 ^ 62 →
  0 ≤ m ≤ zlen (run_bytes rs) + zlen tail → zlen pre + m < 2 ^ 62 → m < Z.of_nat fuel →
  let chunk := pre ++ ztake m (run_bytes rs ++ tail) in
  ∃ j fin, (j ≤ length rs)%nat ∧ pos_of rs j ≤ m ∧
    scan_chunk fuel chunk (zlen pre) more sc = (zlen pre + pos_of rs j, advance sc (take j rs), fin) ∧
    ((j < length rs)%nat → m < pos_of rs (S j) ∧ (fin = true → more = false)) ∧
    (j = length rs → zlen (run_bytes rs) < m → fin = true ∨
       more = true ∧ ParseRecord chunk (zlen pre + zlen (run_bytes rs)) true = Err kOutOfRange) ∧
    (j = length rs → m ≤ zlen (run_bytes rs) → fin = false).
Proof.
  revert pre m fuel sc. induction rs as [|[r x] rs IH]; intros pre m fuel sc Hok Hcons Hbr Hbp Htail Hbt Hm Hbig Hfuel chunk;
    (destruct fuel as [|fuel]; [lia|]); pose proof (zlen_nonneg pre).
  - change (run_bytes []) with (@nil Z) in *. change (zlen (@nil (bytes * LogRecord))) with 0 in *.
    rewrite zlen_nil in *. cbn [app] in *. rewrite Z.add_0_r in *.
    assert (HL : zlen chunk = zlen pre + m) by (unfold chunk; rewrite zlen_app, zlen_ztake; lia).
    cbn [scan_chunk]. rewrite HL. destruct (Z.ltb_spec (zlen pre) (zlen pre + m)) as [Hlt|Hge].
    + destruct (ParseRecord chunk (zlen pre) true) as [[v n]|e] eqn:HP.
      * assert (Hne : rv_offset v ≠ sc_offset sc).
        { apply (tail_ends_prefix _ tail pre m v n Htail Hbp ltac:(lia)); [unfold chunk in HL; lia|done|done]. }
        destruct (Z.eqb_spec (rv_offset v) (sc_offset sc)); [done|]. cbn [negb].
        exists 0%nat, true. rewrite pos_of_0, Z.add_0_r, take_0, advance_nil.
        split; [lia|]. split; [lia|]. split; [done|]. split; [simpl; lia|]. split; [by left|lia].
      * exists 0%nat, (negb (bool_decide (e = kOutOfRange) && more)).
        rewrite pos_of_0, Z.add_0_r, take_0, advance_nil.
        split; [lia|]. split; [lia|]. split; [done|]. split; [simpl; lia|]. split; [|lia].
        intros _ _. case_bool_decide as He; [|by left]. subst e. destruct more; [by right|by left].
    + exists 0%nat, false. rewrite pos_of_0, Z.add_0_r, take_0, advance_nil.
      split; [lia|]. split; [lia|]. split; [done|]. split; [simpl; lia|]. split; [lia|done].
  - change (run_bytes ((r, x) :: rs)) with (r ++ run_bytes rs) in *.
    inversion Hok as [|? ? (crc & Hs & Hc) Hok']; subst. cbn [fst snd] in *.
    pose proof (shape_bounds _ _ _ Hs) as Hr. rewrite zlen_app in *. rewrite Forall_app in Hbr.
    assert (HL : zlen chunk = zlen pre + m) by (unfold chunk; rewrite zlen_app, zlen_ztake, !zlen_app; lia).
    cbn [scan_chunk]. rewrite HL.
    destruct (Z.lt_ge_cases m (zlen r)) as [Hlt|Hge].
    + (* the first record is cut by the chunk *)
      exists 0%nat. rewrite pos_of_0, Z.add_0_r, take_0, advance_nil.
      rewrite (pos_of_S _ 0 (r, x)) by done. cbn [fst]. rewrite pos_of_0.
      destruct (Z.ltb_spec (zlen pre) (zlen pre + m)).
      * assert (HP : ParseRecord chunk (zlen pre) true = Err kOutOfRange).
        { unfold chunk. rewrite <- app_assoc, ztake_app_le by lia.
          apply (ParseRecord_truncated r x crc); [done|lia]. }
        rewrite HP. exists (negb more). rewrite bool_decide_true by done. cbn [andb].
        split; [lia|]. split; [lia|]. split; [done|]. split; [intros _; split; [lia|by destruct more]|].
        split; simpl; lia.
      * exists false. split; [lia|]. split; [lia|]. split; [done|]. split; [intros _; split; [lia|done]|].
        split; simpl; lia.
    + destruct (Z.ltb_spec (zlen pre) (zlen pre + m)); [|lia].
      assert (HE : chunk = (pre ++ r) ++ ztake (m - zlen r) (run_bytes rs ++ tail)).
      { unfold chunk. rewrite <- (app_assoc r), <- (app_assoc pre r). f_equal.
        unfold ztake. rewrite take_app, take_ge by (unfold zlen in *; lia). f_equal. f_equal.
        unfold zlen. lia. }
      destruct (ParseRecord_shape chunk (zlen pre) true r x crc (ztake (m - zlen r) (run_bytes rs ++ tail)) Hs Hc)
        as (v & HP & Hv).
      { zlist. } { lia. } { rewrite HE, <- app_assoc. by apply zdrop_app. }
      rewrite HP. assert (Ho : rv_offset v = sc_offset sc).
      { destruct Hv as (-> & _). pose proof (Hcons 0%nat (r, x) eq_refl) as Hx. cbn [snd] in Hx. lia. }
      rewrite Ho, Z.eqb_refl. cbn [negb].
      assert (Ht : rv_timestamp v = lr_timestamp x) by apply Hv. rewrite Ht.
      set (sc1 := mkScan _ _ _).
      destruct (IH (pre ++ r) (m - zlen r) fuel sc1) as (j & fin & Hj & Hpj & Hscan & Hlt & Hend & Hend').
      * done.
      * intros i y Hi. rewrite (Hcons (S i) y) by done. unfold sc1; cbn [sc_offset]. lia.
      * apply Hbr.
      * apply Forall_app. split; [done|apply Hbr].
      * unfold sc1; cbn [sc_offset]. rewrite zlen_cons in Htail.
        replace (sc_offset sc + 1 + zlen rs) with (sc_offset sc + (1 + zlen rs)) by lia. done.
      * done.
      * lia.
      * rewrite zlen_app. lia.
      * lia.
      * exists (S j), fin. rewrite <- HE in Hscan, Hend. rewrite zlen_app in Hscan, Hend.
        assert (HpS : ∀ k, pos_of ((r, x) :: rs) (S k) = zlen r + pos_of rs k).
        { intros k. unfold pos_of. cbn [take]. change (run_bytes ((r, x) :: take k rs)) with (r ++ run_bytes (take k rs)).
          by rewrite zlen_app. }
        rewrite !HpS. cbn [length]. split; [lia|]. split; [lia|]. split.
        { rewrite Hscan. rewrite Z.add_assoc. cbn [take].
          assert (HA : advance sc1 (take j rs) = advance sc ((r, x) :: take j rs)).
          { rewrite (advance_app sc [(r, x)]). done. }
          by rewrite HA. }
        split; [intros Hj'; destruct (Hlt ltac:(lia)); split; [lia|done]|].
        split; [|intros; apply Hend'; lia]. intros Hj' Hm'. rewrite Z.add_assoc. apply Hend; lia.
Qed.

(** ** The whole scan *)

(** Every record fits the scan window. *)
Definition records_fit_window (rs : Run) : Prop :=
  Forall (λ r, zlen r.1 ≤ kRecoveryChunkBytes) rs.
(** The first window of the tail is not mistaken for the start of a larger record. *)
Definition tail_decided (tail : bytes) : Prop :=
  zlen tail ≤ kRecoveryChunkBytes ∨
  ParseRecord (ztake kRecoveryChunkBytes tail) 0 true ≠ Err kOutOfRange.

Lemma recover_tail fuel rs tail sc f :
  (0 < fuel)%nat → content f = run_bytes rs ++ tail → zlen (content f) < 2 ^ 62 →
  tail_ends (sc_offset sc) tail → tail_decided tail →
  let r := recover_loop fuel (zlen (content f)) (zlen (run_bytes rs)) sc f in
  content r.2 = content f ∧ same_file f r.2 ∧
  (r.1 = Some (Ok (zlen (run_bytes rs), sc)) ∨ ∃ e, r.1 = Some (Err e)).
Proof.
  intros Hf Hc Hbig Htail Hdec. destruct fuel as [|fuel]; [lia|]. cbn [recover_loop].
  assert (HL : zlen (content f) = zlen (run_bytes rs) + zlen tail) by (by rewrite Hc, zlen_app).
  pose proof (zlen_nonneg (run_bytes rs)). pose proof (zlen_nonneg tail).
  destruct (Z.ltb_spec (zlen (run_bytes rs)) (zlen (content f))); [|by split_and!; [| |left]].
  set (want := Z.min kRecoveryChunkBytes (zlen (content f) - zlen (run_bytes rs))).
  assert (HW : kRecoveryChunkBytes = 1048576) by done.
  assert (Hwant : want = Z.min 1048576 (zlen tail)) by (unfold want; lia).
  pose proof (ReadAt_spec want (zlen (run_bytes rs)) f ltac:(lia)) as (R1 & R2 & R3).
  destruct (ReadAt want (zlen (run_bytes rs)) f) as [[chunk|e] f1]; cbn [fst snd] in *;
    [|by split_and!; [| |right; eauto]].
  assert (HC : chunk = ztake want tail).
  { rewrite R3, Hc. unfold slice. by rewrite zdrop_app. }
  assert (HCL : zlen chunk = want) by (rewrite HC, zlen_ztake; lia).
  destruct (Z.eqb_spec (zlen chunk) 0); [lia|].
  set (more := (zlen chunk =? want) && (zlen (run_bytes rs) + zlen chunk <? zlen (content f))).
  assert (Htail0 : tail_ends (sc_offset sc + zlen (@nil (bytes * LogRecord))) tail)
    by (change (zlen (@nil (bytes * LogRecord))) with 0; by rewrite Z.add_0_r).
  destruct (scan_chunk_run [] tail [] want (S (length chunk)) more sc) as (j & fin & Hj & _ & Hscan & _ & Hend & _);
    [by constructor|by intros ? ? ?|by constructor|by constructor|exact Htail0|lia
    |change (zlen (run_bytes [])) with 0; lia|change (@zlen Z []) with 0; lia|unfold zlen in HCL; lia|].
  destruct j as [|j]; [|simpl in Hj; lia].
  change (run_bytes []) with (@nil Z) in *. cbn [app] in *. rewrite <- HC in *.
  rewrite pos_of_0, zlen_nil, Z.add_0_r, take_0, advance_nil in Hscan. rewrite Hscan.
  assert (Hfin : fin = true).
  { destruct (Hend eq_refl ltac:(rewrite zlen_nil; lia)) as [|[Hm HP]]; [done|]. exfalso.
    unfold more in Hm. apply andb_true_iff in Hm as [_ Hm%Z.ltb_lt].
    destruct Hdec as [Hd|Hd]; [lia|]. apply Hd. change (@zlen Z [] + @zlen Z []) with 0 in HP.
    rewrite HC in HP. by replace want with kRecoveryChunkBytes in HP by lia. }
  rewrite Hfin. cbn. split; [done|]. split; [done|]. left. by rewrite Z.add_0_r.
Qed.

Lemma take_take_drop_eq {A} i k (l : list A) : take (i + k) l = take i l ++ take k (drop i l).
Proof. by rewrite take_take_drop. Qed.

Lemma recover_loop_run fuel rs tail i sc f :
  run_ok true rs → records_fit_window rs → Forall is_byte (run_bytes rs) →
  content f = run_bytes rs ++ tail → zlen (content f) < 2 ^ 62 →
  (i ≤ length rs)%nat → consecutive (sc_offset sc) (drop i rs) →
  tail_ends (sc_offset sc + zlen (drop i rs)) tail → tail_decided tail →
  (length rs - i + 1 < fuel)%nat →
  let r := recover_loop fuel (zlen (content f)) (pos_of rs i) sc f in
  content r.2 = content f ∧ same_file f r.2 ∧
  (r.1 = Some (Ok (zlen (run_bytes rs), advance sc (drop i rs))) ∨ ∃ e, r.1 = Some (Err e)).
Proof.
  intros Hok Hwin Hb Hc Hbig. remember (length rs - i)%nat as d eqn:Ed. revert i sc f Hc Hbig Ed fuel.
  induction d as [d IH] using lt_wf_ind. intros i sc f Hc Hbig Ed fuel Hi Hcons Htail Hdec Hfuel.
  destruct (decide (i = length rs)) as [->|Hne].
  { rewrite pos_of_all by lia. rewrite drop_ge in * by lia. rewrite advance_nil.
    change (zlen (@nil (bytes * LogRecord))) with 0 in Htail. rewrite Z.add_0_r in Htail.
    apply (recover_tail fuel rs tail); [lia|done..]. }
  destruct fuel as [|fuel]; [lia|]. cbn [recover_loop].
  assert (HW : kRecoveryChunkBytes = 1048576) by done.
  pose proof (pos_of_le rs i) as Hpos. pose proof (zlen_nonneg tail).
  assert (HL : zlen (content f) = zlen (run_bytes rs) + zlen tail) by (by rewrite Hc, zlen_app).
  destruct (lookup_lt_is_Some_2 rs i ltac:(lia)) as [r0 Hr0].
  pose proof (run_record_bounds _ _ _ _ Hok Hr0) as Hr0b.
  assert (Hr0w : zlen r0.1 ≤ 1048576) by (rewrite <- HW; by apply (Forall_lookup_1 _ _ _ _ Hwin Hr0)).
  pose proof (pos_of_S _ _ _ Hr0) as HpS. pose proof (pos_of_le rs (S i)) as HposS.
  destruct (Z.ltb_spec (pos_of rs i) (zlen (content f))); [|lia].
  set (want := Z.min kRecoveryChunkBytes (zlen (content f) - pos_of rs i)).
  assert (Hwant : zlen r0.1 ≤ want) by (unfold want; lia).
  pose proof (ReadAt_spec want (pos_of rs i) f ltac:(lia)) as (R1 & R2 & R3).
  destruct (ReadAt want (pos_of rs i) f) as [[chunk|e] f1]; cbn [fst snd] in *;
    [|by split_and!; [| |right; eauto]].
  assert (HD : zlen (run_bytes (drop i rs)) = zlen (run_bytes rs) - pos_of rs i).
  { unfold pos_of. rewrite (run_bytes_split i rs), zlen_app. lia. }
  assert (HC : chunk = ztake want (run_bytes (drop i rs) ++ tail)) by (by rewrite R3, Hc, slice_run).
  assert (HCL : zlen chunk = want) by (rewrite HC, zlen_ztake, zlen_app; lia).
  destruct (Z.eqb_spec (zlen chunk) 0); [lia|].
  set (more := (zlen chunk =? want) && (pos_of rs i + zlen chunk <? zlen (content f))).
  assert (Hbd : Forall is_byte (run_bytes (drop i rs))).
  { rewrite (run_bytes_split i rs) in Hb. by apply Forall_app in Hb as [_ Hb]. }
  destruct (scan_chunk_run (drop i rs) tail [] want (S (length chunk)) more sc)
    as (j & fin & Hj & Hpj & Hscan & Hlt & Hend & Hend');
    try done; try by apply run_ok_drop.
  { lia. } { lia. } { rewrite zlen_nil. lia. } { unfold zlen in HCL. lia. }
  cbn [app] in *. rewrite <- HC in *. rewrite zlen_nil, Z.add_0_l in Hscan. rewrite Hscan.
  assert (Hpos_ij : ∀ k, pos_of rs (i + k) = pos_of rs i + pos_of (drop i rs) k).
  { intros k. unfold pos_of. rewrite <- zlen_app, <- run_bytes_app. do 2 f_equal.
    apply take_take_drop_eq. }
  destruct j as [|j].
  { exfalso. destruct (Hlt ltac:(rewrite length_drop; lia)) as [Hbad _].
    rewrite (pos_of_S (drop i rs) 0 r0) in Hbad by (by rewrite lookup_drop, Nat.add_0_r).
    rewrite pos_of_0 in Hbad. lia. }
  assert (Hjpos : 0 < pos_of (drop i rs) (S j)).
  { pose proof (pos_of_mono (drop i rs) 1 (S j) ltac:(lia)) as Hmono.
    rewrite (pos_of_S (drop i rs) 0 r0), pos_of_0 in Hmono by (by rewrite lookup_drop, Nat.add_0_r). lia. }
  destruct (Z.eqb_spec (pos_of (drop i rs) (S j)) 0); [lia|]. cbn [andb].
  rewrite length_drop in Hj, Hlt, Hend, Hend'.
  assert (HEQ : S j = (length rs - i)%nat → pos_of (drop i rs) (S j) = zlen (run_bytes rs) - pos_of rs i).
  { intros HE. rewrite pos_of_all by (rewrite length_drop; lia). lia. }
  destruct fin.
  - destruct (decide (S j < length rs - i)%nat) as [Hjl|Hjl].
    + exfalso. destruct (Hlt Hjl) as [Hm Hmore]. specialize (Hmore eq_refl). unfold more in Hmore.
      rewrite HCL, Z.eqb_refl in Hmore. cbn [andb] in Hmore. apply Z.ltb_ge in Hmore.
      pose proof (pos_of_le (drop i rs) (S (S j))). lia.
    + split; [done|]. split; [done|]. left. rewrite HEQ by lia.
      rewrite take_ge by (rewrite length_drop; lia).
      by replace (pos_of rs i + (zlen (run_bytes rs) - pos_of rs i)) with (zlen (run_bytes rs)) by lia.
  - rewrite <- Hpos_ij. rewrite <- R1 in Hc, Hbig |- *.
    destruct (IH (length rs - (i + S j))%nat ltac:(lia) (i + S j)%nat (advance sc (take (S j) (drop i rs))) f1
      Hc Hbig eq_refl fuel) as (I1 & I2 & I3).
    + lia.
    + rewrite <- drop_drop. intros k y Hk. rewrite lookup_drop in Hk. rewrite (Hcons _ _ Hk).
      unfold advance; cbn [sc_offset]. unfold zlen. rewrite length_take, length_drop. lia.
    + replace (sc_offset (advance sc (take (S j) (drop i rs))) + zlen (drop (i + S j) rs))
        with (sc_offset sc + zlen (drop i rs)); [done|].
      unfold advance; cbn [sc_offset]. unfold zlen. rewrite length_take, !length_drop. lia.
    + done.
    + lia.
    + split; [done|]. split; [destruct R2, I2; split; congruence|].
      rewrite advance_app in I3. rewrite <- drop_drop, take_drop in I3. done.
Qed.

(** ** Recovering a segment *)

(** What recovery needs from the index: entries inside the run point at their
    records; entries beyond it exist only when a tail was torn off and the whole
    file is rescanned. *)
Definition index_recoverable (base : Z) (rs : Run) (tail : bytes) (full_scan : bool) (ix : OffsetIndex) : Prop :=
  oi_wf ix ∧ ix_base ix = base ∧ ∀ e, e ∈ entries ix →
  (relative_offset e < zlen rs → file_position e = pos_of rs (Z.to_nat (relative_offset e))) ∧
  (zlen rs ≤ relative_offset e → full_scan = true ∧ tail ≠ []).

Lemma index_recoverable_ok base rs full ix : index_recoverable base rs [] full ix → index_ok base rs ix.
Proof.
  intros (Hwf & Hb & He). split; [done|]. split; [done|]. intros e Hin.
  destruct (He e Hin) as [H1 H2]. destruct (Z.lt_ge_cases (relative_offset e) (zlen rs)) as [|Hge].
  - split; [done|by apply H1].
  - by destruct (H2 Hge).
Qed.

Lemma index_recoverable_truncate base rs tail full ix :
  index_recoverable base rs tail full ix →
  index_ok base rs (OffsetIndex_TruncateFrom (base + zlen rs) ix).2.
Proof.
  intros (Hwf & Hb & He). destruct (OffsetIndex_TruncateFrom_spec (base + zlen rs) ix Hwf) as (Hwf' & Hb' & Hin).
  split; [done|]. split; [congruence|]. intros e [Hin' Hlt]%Hin. rewrite Hb in Hlt.
  destruct (He e Hin') as [H1 _]. split; [lia|apply H1; lia].
Qed.

Lemma last_entry_in {E} (ix : SparseIndex E) e : last (entries ix) = Some e → e ∈ entries ix.
Proof. apply last_Some_elem_of. Qed.

Lemma LastIndexedPosition_le base rs ix : index_ok base rs ix → 0 ≤ LastIndexedPosition ix ≤ zlen (run_bytes rs).
Proof.
  intros (_ & _ & He). unfold LastIndexedPosition. destruct (last (entries ix)) as [e|] eqn:El; [|zlist].
  destruct (He e (last_entry_in _ _ El)) as [_ ->]. apply pos_of_le.
Qed.

(** Cutting the tail off the file and both indexes. *)
Lemma drop_tail_spec fs rs tail full s :
  content (seg_file s) = run_bytes rs ++ tail →
  index_recoverable (base_offset s) rs tail full (seg_index s) →
  let r := drop_tail fs (zlen (run_bytes rs)) (base_offset s + zlen rs) s in
  base_offset r.2 = base_offset s ∧ seg_options r.2 = seg_options s ∧
  match r.1 with
  | Ok _ => content (seg_file r.2) = run_bytes rs ∧ index_ok (base_offset s) rs (seg_index r.2) ∧
            durable (seg_file r.2) = durable (seg_file s)
  | Err _ => True
  end.
Proof.
  intros Hc Hix. unfold drop_tail, stry, sbind, in_file, in_index, in_time_index, szoom, smod, sret.
  pose proof (ReadAt_spec 4 (zlen (run_bytes rs)) (seg_file s) (zlen_nonneg _)) as (R1 & [R2 _] & _).
  destruct (ReadAt 4 (zlen (run_bytes rs)) (seg_file s)) as [pk f1]; cbn [fst snd] in *.
  cbn [seg_file with_file seg_index with_index].
  pose proof (Truncate_spec (zlen (run_bytes rs)) f1) as [[HD _] HT].
  destruct (Truncate (zlen (run_bytes rs)) f1) as [[[]|e] f2]; cbn [fst snd] in *; [|done].
  assert (HC : content f2 = run_bytes rs).
  { rewrite HT, R1, Hc. unfold vector_resize. rewrite ztake_app by done.
    replace (Z.to_nat _) with 0%nat by (rewrite zlen_app; zlist). by rewrite app_nil_r. }
  pose proof (index_recoverable_truncate _ _ _ _ _ Hix) as HI.
  cbn [seg_index seg_file with_file with_index base_offset].
  destruct (OffsetIndex_TruncateFrom (base_offset s + zlen rs) (seg_index s)) as [[[]|e] ix1];
    cbn [fst snd] in *; [|done].
  cbn [seg_index seg_file seg_time_index with_file with_index with_time_index base_offset].
  destruct (TimeIndex_TruncateFrom _ (seg_time_index s)) as [[[]|e] ti]; cbn; [|done].
  rewrite HD, R2. by split_and!.
Qed.

Lemma finish_recovery_spec full rs tail sc s :
  content (seg_file s) = run_bytes rs ++ tail → run_ok true rs → consecutive (base_offset s) rs →
  zlen (run_bytes rs) < 2 ^ 62 → sc_offset sc = base_offset s + zlen rs →
  index_recoverable (base_offset s) rs tail full (seg_index s) →
  let r := finish_recovery full (zlen (content (seg_file s))) (zlen (run_bytes rs)) sc s in
  match r.1 with
  | Ok rep => seg_inv r.2 rs ∧ content (seg_file r.2) = run_bytes rs ∧
              base_offset r.2 = base_offset s ∧ rep_next_offset rep = next_offset r.2 ∧
              valid_bytes rep = end_position r.2 ∧ synced_position r.2 = end_position r.2 ∧
              durable (seg_file r.2) = durable (seg_file s)
  | Err _ => True
  end.
Proof.
  intros Hc Hok Hcons Hbig Hsc Hix. unfold finish_recovery. rewrite Hsc.
  set (m := if _ <? _ then drop_tail _ _ _ else _).
  assert (Hm : match (m s).1 with
    | Ok _ => content (seg_file (m s).2) = run_bytes rs ∧ index_ok (base_offset s) rs (seg_index (m s).2)
              ∧ base_offset (m s).2 = base_offset s ∧ durable (seg_file (m s).2) = durable (seg_file s)
    | Err _ => True end).
  { unfold m. destruct (Z.ltb_spec (zlen (run_bytes rs)) (zlen (content (seg_file s)))) as [Hlt|Hge].
    - destruct (drop_tail_spec (zlen (content (seg_file s))) rs tail full s Hc Hix) as (Hb & _ & HR).
      destruct (drop_tail _ _ _ s) as [[[[? ?] ?]|e] s']; cbn [fst snd] in *; [|done].
      destruct HR as (? & ? & ?). by split_and!.
    - cbn [sret fst snd]. rewrite Hc, zlen_app in Hge. assert (tail = []) as -> by (apply zlen_0_nil; zlist).
      rewrite app_nil_r in Hc. split_and!; [done|by apply (index_recoverable_ok _ _ full)|done|done]. }
  unfold sbind. destruct (m s) as [[[[t p] d]|e] s1]; cbn [fst snd] in *; [|done].
  destruct Hm as (HC & HI & HB & HDu). unfold smod, sret; cbn [fst snd rep_next_offset valid_bytes].
  split; [|done]. constructor; cbn [end_position seg_file with_last_indexed with_synced with_extent
    base_offset next_offset seg_index last_indexed_position]; rewrite ?HB; try done.
  - by rewrite HC, ztake_all.
  - by rewrite HC.
  - by apply (LastIndexedPosition_le (base_offset s)).
Qed.

(** Where the scan starts: at the record named by the last index entry. *)
Lemma recovery_start base rs tail full ix :
  index_recoverable base rs tail full ix →
  let from_index := negb full && (0 <? EntryCount ix) in
  ∃ i, (i ≤ length rs)%nat ∧
    (if from_index then LastIndexedPosition ix else 0) = pos_of rs i ∧
    (if from_index then LastIndexedOffset ix else base) = base + Z.of_nat i.
Proof.
  intros (Hwf & Hb & He) from. unfold from.
  destruct (negb full && (0 <? EntryCount ix)) eqn:E.
  2:{ exists 0%nat. split; [lia|]. split; [done|lia]. }
  apply andb_true_iff in E as [Hf%negb_true_iff Hn%Z.ltb_lt].
  unfold LastIndexedPosition, LastIndexedOffset, EntryCount in *.
  destruct (last (entries ix)) as [e|] eqn:El.
  2:{ apply last_None in El. rewrite El in Hn. by vm_compute in Hn. }
  pose proof (last_entry_in _ _ El) as Hin. destruct (He e Hin) as [H1 H2].
  destruct Hwf as (Hfit & _). rewrite Forall_forall in Hfit. destruct (Hfit e Hin) as [[H0 _] _].
  destruct (Z.lt_ge_cases (relative_offset e) (zlen rs)) as [Hlt|Hge].
  - exists (Z.to_nat (relative_offset e)). unfold zlen in Hlt. split; [lia|]. split; [by apply H1|lia].
  - destruct (H2 Hge) as [Hbad _]. by rewrite Hbad in Hf.
Qed.

(** ** Recovery on a reliable disk *)

Definition seg_quiet (s : Segment) : Prop :=
  quiet (seg_file s) ∧ quiet_index (seg_index s) ∧ quiet_index (seg_time_index s).

Lemma in_file_calm {A} (m : SR FileHandle A) : calm quiet m → calm seg_quiet (in_file m).
Proof. apply calm_zoom; [by intros s (? & _)|by intros f s (_ & ? & ?)]. Qed.
Lemma in_index_calm {A} (m : SR OffsetIndex A) : calm quiet_index m → calm seg_quiet (in_index m).
Proof. apply calm_zoom; [by intros s (_ & ? & _)|by intros f s (? & _ & ?)]. Qed.
Lemma in_time_index_calm {A} (m : SR TimeIndex A) : calm quiet_index m → calm seg_quiet (in_time_index m).
Proof. apply calm_zoom; [by intros s (_ & _ & ?)|by intros f s (? & ? & _)]. Qed.
#[export] Hint Resolve in_file_calm in_index_calm in_time_index_calm : pulse.

Lemma ParseRecord_next data pos verify v next : ParseRecord data pos verify = Ok (v, next) → pos < next.
Proof.
  unfold ParseRecord, kRecordFixedPrefix, kOffLength. intros H.
  destruct (zlen data <? _); [done|]. destruct (Z.ltb_spec (load_at 4 (pos + 0) data) (25 - 4)); [done|].
  destruct (kMaxRecordBytes <? _); [done|]. destruct (zlen data <? _); [done|].
  destruct (verify && _); [done|]. destruct (ReadVarUInt data _) as [[kf n1]|]; [|done].
  destruct (ReadVarUInt data _) as [[vl n2]|]; [|done]. destruct (_ || _); [done|].
  destruct (negb _); [done|]. injection H as _ <-. lia.
Qed.

Lemma scan_chunk_advances fuel chunk pos more sc : pos ≤ (scan_chunk fuel chunk pos more sc).1.1.
Proof.
  revert pos sc. induction fuel as [|fuel IH]; intros pos sc; cbn [scan_chunk]; [done|].
  destruct (pos <? zlen chunk); [|done]. destruct (ParseRecord chunk pos true) as [[v next]|e] eqn:E; [|done].
  destruct (negb _); [done|]. apply ParseRecord_next in E. specialize (IH next (mkScan (sc_offset sc + 1)
    (sc_records sc + 1) (Z.max (sc_max_ts sc) (rv_timestamp v)))). lia.
Qed.

Lemma recover_loop_quiet fuel fs pos sc f :
  quiet f → 0 ≤ pos → quiet (recover_loop fuel fs pos sc f).2 ∧
  ∀ e, (recover_loop fuel fs pos sc f).1 ≠ Some (Err e).
Proof.
  intros Hq. revert pos sc. induction fuel as [|fuel IH]; intros pos sc Hp; cbn [recover_loop]; [done|].
  destruct (pos <? fs); [|done]. rewrite (ReadAt_quiet _ _ f Hq Hp).
  destruct (zlen _ =? 0); [done|].
  pose proof (scan_chunk_advances (S (length (slice pos (Z.min kRecoveryChunkBytes (fs - pos)) (content f))))
    (slice pos (Z.min kRecoveryChunkBytes (fs - pos)) (content f)) 0
    ((zlen (slice pos (Z.min kRecoveryChunkBytes (fs - pos)) (content f)) =? Z.min kRecoveryChunkBytes (fs - pos))
     && (pos + zlen (slice pos (Z.min kRecoveryChunkBytes (fs - pos)) (content f)) <? fs)) sc) as Hadv.
  destruct (scan_chunk _ _ 0 _ sc) as [[cp sc'] fin]. cbn [fst] in Hadv.
  destruct ((cp =? 0) && negb fin); [destruct (_ <=? _); [done|by apply IH]|].
  destruct fin; [done|]. apply IH. lia.
Qed.

Lemma drop_tail_calm fs pos off : 0 ≤ pos → calm seg_quiet (drop_tail fs pos off).
Proof.
  intros Hp. apply calm_bind.
  - apply calm_try. intros s (Hq & Hi & Ht). unfold in_file, szoom. rewrite (ReadAt_quiet 4 pos _ Hq Hp). done.
  - intros pk. repeat (apply calm_bind; [eauto with pulse|intros _]). apply calm_ret.
Qed.

Lemma finish_recovery_calm full fs pos sc : 0 ≤ pos → calm seg_quiet (finish_recovery full fs pos sc).
Proof.
  intros Hp. apply calm_bind.
  - destruct (pos <? fs); [by apply drop_tail_calm|apply calm_ret].
  - intros [[? ?] ?]. apply calm_bind; [by apply calm_mod|]. intros _. apply calm_ret.
Qed.

Lemma recover_loop_pos fuel fs pos sc f p sc' :
  0 ≤ pos → (recover_loop fuel fs pos sc f).1 = Some (Ok (p, sc')) → 0 ≤ p.
Proof.
  revert pos sc f. induction fuel as [|fuel IH]; intros pos sc f Hp; cbn [recover_loop]; [done|].
  destruct (pos <? fs); [|by intros [= <- _]].
  destruct (ReadAt _ pos f) as [[chunk|e] f1]; [|done].
  destruct (zlen _ =? 0); [by intros [= <- _]|].
  pose proof (scan_chunk_advances (S (length chunk)) chunk 0
    ((zlen chunk =? Z.min kRecoveryChunkBytes (fs - pos)) && (pos + zlen chunk <? fs)) sc) as Hadv.
  destruct (scan_chunk _ _ 0 _ sc) as [[cp sc1] fin]. cbn [fst] in Hadv.
  destruct ((cp =? 0) && negb fin); [destruct (_ <=? _); [by intros [= <- _]|by apply IH]|].
  destruct fin; [intros [= <- _]; lia|]. apply IH. lia.
Qed.

(** With reliable files recovery cannot report an error. *)
Lemma Recover_quiet fuel full s :
  seg_quiet s → 0 ≤ LastIndexedPosition (seg_index s) → ∀ e, (Recover fuel full s).1 ≠ Some (Err e).
Proof.
  intros Hq Hl e. unfold Recover.
  destruct (in_file_calm Size Size_calm s Hq) as [H1 H2]. destruct (in_file Size s) as [[fs|e0] s1] eqn:E; [|done].
  assert (HI : seg_index s1 = seg_index s).
  { unfold in_file, szoom in E. destruct (Size (seg_file s)) as [r f]. injection E as _ <-. done. }
  rewrite HI. match goal with |- context [recover_loop fuel fs ?p (mkScan ?o 0 (-1))] => set (pos := p); set (off := o) end.
  assert (Hpos : 0 ≤ pos) by (unfold pos; by destruct (_ && _)).
  destruct H2 as (Hqf & Hqi & Hqt).
  destruct (recover_loop_quiet fuel fs pos (mkScan off 0 (-1)) (seg_file s1) Hqf Hpos) as [L1 L2].
  pose proof (recover_loop_pos fuel fs pos (mkScan off 0 (-1)) (seg_file s1)) as L3.
  destruct (recover_loop fuel fs pos _ (seg_file s1)) as [[[[p sc]|e1]|] f]; cbn [fst snd] in *.
  - destruct (finish_recovery_calm full fs p sc (L3 p sc Hpos eq_refl) (with_file f s1)) as [F1 _]; [done|].
    destruct (finish_recovery full fs p sc _) as [[rep|e2] s2]; [|done]. by intros [=].
  - by destruct (L2 e1).
  - done.
Qed.

Lemma index_start base rs tail full ix :
  index_recoverable base rs tail full ix → 0 ≤ LastIndexedPosition ix.
Proof.
  intros ((Hf & _) & _). unfold LastIndexedPosition. destruct (last (entries ix)) as [e|] eqn:El; [|done].
  rewrite Forall_forall in Hf. by destruct (Hf e (last_entry_in _ _ El)) as [_ [? _]].
Qed.

Lemma Recover_spec fuel full rs tail s :
  content (seg_file s) = run_bytes rs ++ tail → zlen (content (seg_file s)) < 2 ^ 62 →
  run_ok true rs → consecutive (base_offset s) rs → Forall is_byte (run_bytes rs) →
  records_fit_window rs → tail_ends (base_offset s + zlen rs) tail → tail_decided tail →
  index_recoverable (base_offset s) rs tail full (seg_index s) → (length rs + 1 < fuel)%nat →
  let r := Recover fuel full s in
  (∃ e, r.1 = Some (Err e)) ∨
  ∃ rep, r.1 = Some (Ok rep) ∧ seg_inv r.2 rs ∧ content (seg_file r.2) = run_bytes rs ∧
         base_offset r.2 = base_offset s ∧ rep_next_offset rep = next_offset r.2 ∧
         valid_bytes rep = end_position r.2 ∧ synced_position r.2 = end_position r.2 ∧
         durable (seg_file r.2) = durable (seg_file s).
Proof.
  intros Hc Hbig Hok Hcons Hb Hwin Htail Hdec Hix Hfuel. unfold Recover, in_file, szoom.
  pose proof (Size_spec (seg_file s)) as (S1 & S2 & S3).
  destruct (Size (seg_file s)) as [[fs|e] f1]; cbn [fst snd] in *; [|by left; eauto]. subst fs.
  cbn [seg_index with_file base_offset seg_file].
  destruct (recovery_start _ _ _ _ _ Hix) as (i & Hi & Hp & Ho). rewrite Hp, Ho.
  rewrite <- S1 in Hc, Hbig |- *.
  destruct (recover_loop_run fuel rs tail i (mkScan (base_offset s + Z.of_nat i) 0 (-1)) f1) as (L1 & L2 & L3);
    [done|done|done|done|done|done|by apply consecutive_drop| |done|lia|].
  { cbn [sc_offset]. replace (base_offset s + Z.of_nat i + zlen (drop i rs)) with (base_offset s + zlen rs); [done|].
    unfold zlen. rewrite length_drop. lia. }
  destruct (recover_loop fuel _ _ _ f1) as [o f2]; cbn [fst snd] in *.
  destruct L3 as [->|[e ->]]; [|by left; eauto].
  set (sc := advance _ _). set (s1 := with_file f2 (with_file f1 s)).
  assert (Hs1 : content (seg_file s1) = run_bytes rs ++ tail) by (cbn; by rewrite L1).
  rewrite <- L1. change f2 with (seg_file s1).
  pose proof (finish_recovery_spec full rs tail sc s1 Hs1 Hok Hcons) as HF.
  destruct (finish_recovery full _ _ sc s1) as [[rep|e] s2]; cbn [fst snd] in *; [|by left; eauto].
  right. exists rep. split; [done|]. replace (durable (seg_file s)) with (durable (seg_file s1)).
  2:{ cbn. destruct L2 as [-> _], S2 as [-> _]. done. }
  apply HF; [|unfold sc, advance; cbn [sc_offset]|done].
  - rewrite Hc, zlen_app in Hbig. zlist.
  - unfold zlen. rewrite length_drop. unfold s1; cbn. lia.
Qed.

(** C13. Recovery keeps exactly the log: given any file that is a run of well-formed
    records with consecutive offsets followed by a tail that does not
    hold the next record (a torn write, zeros, garbage), recovery returns and leaves the
    segment holding precisely that run (or, when a system call fails, and only
    then, reports an error), with the tail
    gone from the file, the indexes consistent, the next offset just past the
    last record and the report saying so.  This holds provided every record fits the scan
    window ([records_fit_window]; it does not return otherwise, [Recover_diverges]), the
    tail can be told from a record within the window ([tail_decided]), and the index entries
    point at the records they name, none past the run unless the whole file is scanned
    ([index_recoverable]). *)
Theorem Segment_Recover_sound (fuel : nat) (full_scan : bool) (rs : Run) (tail : bytes) (s : Segment) :
  content (seg_file s) = run_bytes rs ++ tail → zlen (content (seg_file s)) < 2 ^ 62 →
  run_ok true rs → consecutive (base_offset s) rs → Forall is_byte (run_bytes rs) →
  records_fit_window rs → tail_ends (base_offset s + zlen rs) tail → tail_decided tail →
  index_recoverable (base_offset s) rs tail full_scan (seg_index s) → (length rs + 1 < fuel)%nat →
  let r := Recover fuel full_scan s in
  (∃ e, r.1 = Some (Err e) ∧ ¬ seg_quiet s) ∨
  ∃ rep, r.1 = Some (Ok rep) ∧ seg_inv r.2 rs ∧ content (seg_file r.2) = run_bytes rs ∧
         rep_next_offset rep = base_offset s + zlen rs ∧ valid_bytes rep = zlen (run_bytes rs).
Proof.
  intros H1 H2 H3 H4 H5 H6 H7 H8 H9 H10 r.
  destruct (Recover_spec fuel full_scan rs tail s H1 H2 H3 H4 H5 H6 H7 H8 H9 H10)
    as [[e He]|(rep & Hr & Hinv & Hc & Hb & Hn & Hv & _)].
  - left. exists e. split; [done|]. intros Hq. by apply (Recover_quiet fuel full_scan s Hq (index_start _ _ _ _ _ H9) e).
  - right. exists rep. fold r in Hr, Hinv, Hc, Hb, Hn, Hv. split; [done|]. split; [done|]. split; [done|].
    rewrite Hn, Hv, (inv_next _ _ Hinv), (inv_end _ _ Hinv), Hb. done.
Qed.

Definition default_segment_options : SegmentOptions :=
  mkSegmentOptions (128 * 1024 * 1024) 4096 true kWrite kFull.

(** A freshly opened segment over a log file, with empty indexes. *)
Definition fresh_segment (log : bytes) (base : Z) : Segment :=
  mkSegment (file_with log []) (empty_index base []) (empty_index base []) default_segment_options
    base 0 0 base 0 (-1) 0 0 0.

Definition example_run : Run := [(record_bytes example_record, example_record)].

Lemma example_run_ok : run_ok true example_run.
Proof.
  constructor; [|constructor]. eexists. split; [apply record_bytes_encodes, example_record_fits|done].
Qed.
Lemma example_run_bytes : Forall is_byte (run_bytes example_run).
Proof.
  unfold run_bytes. cbn [example_run map concat fst]. rewrite app_nil_r. unfold record_bytes, record_image.
  rewrite !Forall_app. split_and!; try apply le_bytes_is_byte. by repeat constructor.
Qed.

Lemma Segment_Recover_sound_witness :
  let s := fresh_segment (run_bytes example_run ++ [0; 0; 0; 0; 0]) 0 in
  let r := Recover 5 false s in
  (∃ e, r.1 = Some (Err e) ∧ ¬ seg_quiet s) ∨
  ∃ rep, r.1 = Some (Ok rep) ∧ seg_inv r.2 example_run ∧
         content (seg_file r.2) = run_bytes example_run ∧
         rep_next_offset rep = 0 + zlen example_run ∧ valid_bytes rep = zlen (run_bytes example_run).
Proof.
  intros s r. apply (Segment_Recover_sound 5 false example_run [0; 0; 0; 0; 0] s).
  - reflexivity.
  - by vm_compute.
  - apply example_run_ok.
  - intros i x. destruct i as [|i]; [by intros [= <-]|done].
  - apply example_run_bytes.
  - constructor; [by vm_compute|constructor].
  - split; [by repeat constructor|]. split.
    + intros kf n1 vl n2. assert (R : ReadVarUInt [0; 0; 0; 0; 0] (0 + kVarintStart) = None) by done.
      by rewrite R.
    + intros v n. assert (P : ParseRecord [0; 0; 0; 0; 0] 0 true = Err kOutOfRange) by done. by rewrite P.
  - left. by vm_compute.
  - split; [apply empty_index_wf|]. split; [done|]. by intros e He%elem_of_nil.
  - simpl. lia.
Defined.

(** ** Where recovery goes wrong *)

Lemma scan_window : kRecoveryChunkBytes = 1048576 ∧ kRecoveryChunkBytes < kMaxRecordBytes + 64.
Proof. done. Qed.

(** A round of the scan that sees only the start of a record changes nothing. *)
Lemma recover_stuck fuel fs sc f rest :
  faults f = [] → content f = rest → fs = zlen rest → kRecoveryChunkBytes < fs →
  ParseRecord (ztake kRecoveryChunkBytes rest) 0 true = Err kOutOfRange →
  recover_loop fuel fs 0 sc f = (None, f).
Proof.
  intros Hf Hc Hfs Hbig HP. induction fuel as [|fuel IH]; [done|]. cbn [recover_loop].
  destruct scan_window as [HW HM]. revert HW HM Hbig HP IH. generalize kRecoveryChunkBytes as W.
  intros W HW HM Hbig HP IH.
  destruct (Z.ltb_spec 0 fs); [|lia]. rewrite Z.sub_0_r.
  replace (Z.min W fs) with W by lia.
  pose proof (ReadAt_quiet W 0 f Hf ltac:(lia)) as HR.
  rewrite Hc, slice_0 in HR. rewrite HR.
  set (chunk := ztake W rest) in *.
  assert (HL : zlen chunk = 1048576) by (unfold chunk; rewrite zlen_ztake; lia).
  destruct (Z.eqb_spec (zlen chunk) 0); [lia|].
  assert (Hmore : (zlen chunk =? W) && (0 + zlen chunk <? fs) = true).
  { apply andb_true_iff. split; [apply Z.eqb_eq; lia|apply Z.ltb_lt; lia]. }
  rewrite Hmore. cbn [scan_chunk]. destruct (Z.ltb_spec 0 (zlen chunk)); [|lia]. rewrite HP.
  rewrite bool_decide_true by done. cbn [andb negb]. rewrite Z.eqb_refl. cbn [andb negb].
  destruct (Z.leb_spec (kMaxRecordBytes + 64) W); [lia|]. exact IH.
Qed.

Lemma ParseRecord_cut r x m :
  encodes r x → 0 ≤ m < zlen r → ParseRecord (ztake m r) 0 true = Err kOutOfRange.
Proof. intros He Hm. exact (ParseRecord_truncated r x _ [] m true He Hm). Qed.


(** A record with a value of [n] zero bytes. *)
Definition big_record (n : Z) : LogRecord := mkLogRecord 0 0 0 None (replicate (Z.to_nat n) 0).

Lemma big_record_size n : 0 ≤ n ≤ 2 ^ 21 →
  record_fits (big_record n) ∧ n < zlen (record_bytes (big_record n)).
Proof.
  intros Hn. assert (HV : zlen (lr_value (big_record n)) = n).
  { unfold big_record, zlen; cbn [lr_value]. rewrite length_replicate. lia. }
  assert (HB : zlen (canonical_body (big_record n)) = 18 + zlen (varuint_bytes n) + n).
  { unfold canonical_body. rewrite zlen_record_body, HV. unfold key_field, key_bytes, big_record; cbn [lr_key default].
    change (zlen (varuint_bytes 0)) with 1. change (@zlen Z []) with 0. lia. }
  pose proof (zlen_nonneg (varuint_bytes n)). assert (HL : zlen (varuint_bytes n) ≤ 10) by apply (varuint_loop_length 10 n).
  assert (HM : kMaxRecordBytes = 16777216) by done.
  split.
  - split; [lia|]. by split.
  - unfold record_bytes. rewrite zlen_record_image. lia.
Qed.

