(* ===== verification/SegmentOps.v ===== *)
(** * SegmentOps: appending to, reading from and cutting a segment

    Every operation of a segment against its abstract state, the run of records it
    stores ([seg_inv] of [SegmentSpec]).  Statements hold for any behaviour of the
    operating system; the [calm] halves say that the operations succeed when it
    does not fail. *)
From S2P Require Import Prelude Status Endian Crc32c Buffer Types Codec Frame Record FileUtil Search OffsetIndex Quiet Segment SegmentSpec Recovery.

(** ** Appending *)

Lemma pos_of_app rs new i : (i ≤ length rs)%nat → pos_of (rs ++ new) i = pos_of rs i.
Proof. intros Hi. unfold pos_of. by rewrite take_app_le. Qed.

Lemma index_points_app rs new e : 0 ≤ relative_offset e → index_points rs e → index_points (rs ++ new) e.
Proof.
  intros H0 [Hlt Hp]. split; [rewrite zlen_app; pose proof (zlen_nonneg new); lia|].
  rewrite Hp, pos_of_app; [done|]. unfold zlen in Hlt. lia.
Qed.

Lemma entry_nonneg ix e : oi_wf ix → e ∈ entries ix → 0 ≤ relative_offset e.
Proof. intros (Hf & _) He. rewrite Forall_forall in Hf. by destruct (Hf e He) as [[? _] _]. Qed.

(** A batch that may follow the run [rs]. *)
Definition batch_after (base : Z) (rs new : Run) : Prop :=
  new ≠ [] ∧ run_ok true new ∧ consecutive (base + zlen rs) new ∧
  zlen (run_bytes (rs ++ new)) < 2 ^ 62.

Lemma index_ok_app base rs new ix : index_ok base rs ix → index_ok base (rs ++ new) ix.
Proof.
  intros (Hwf & Hb & He). split; [done|]. split; [done|]. intros e Hin.
  apply index_points_app; [by apply (entry_nonneg ix)|by apply He].
Qed.

Lemma index_ok_append base rs new ix :
  index_ok base rs ix → new ≠ [] →
  index_ok base (rs ++ new) (OffsetIndex_Append (base + zlen rs) (zlen (run_bytes rs)) ix).2.
Proof.
  intros Hix Hne. pose proof (index_ok_app base rs new ix Hix) as (_ & _ & He'). destruct Hix as (Hwf & Hb & _).
  destruct (OffsetIndex_Append_spec (base + zlen rs) (zlen (run_bytes rs)) ix Hwf (zlen_nonneg _))
    as (Hwf' & Hb' & HR).
  split; [done|]. split; [congruence|].
  destruct (OffsetIndex_Append _ _ ix) as [[[]|e0] ix']; cbn [fst snd] in *; rewrite HR; [|done].
  intros e [Hin|Hin]%elem_of_app; [by apply He'|]. apply list_elem_of_singleton in Hin as ->.
  replace (base + zlen rs - ix_base ix) with (zlen rs) by lia.
  unfold index_points; cbn [relative_offset file_position].
  split.
  - rewrite zlen_app. destruct new; [done|]. rewrite zlen_cons. pose proof (zlen_nonneg new). lia.
  - unfold zlen at 2. rewrite Nat2Z.id, pos_of_app by lia. by rewrite pos_of_all by lia.
Qed.

(** What an append leaves of the segment apart from its run. *)
Definition same_segment (s s' : Segment) : Prop :=
  base_offset s' = base_offset s ∧ seg_options s' = seg_options s ∧ synced_position s' = synced_position s ∧
  durable (seg_file s') = durable (seg_file s) ∧ fvalid (seg_file s') = fvalid (seg_file s).

(** The index entries of a batch: indexing cannot fail and touches nothing else. *)
Lemma index_batch_spec rs new s0 ts :
  index_ok (base_offset s0) rs (seg_index s0) → new ≠ [] →
  end_position s0 = zlen (run_bytes rs) → 0 ≤ last_indexed_position s0 ≤ end_position s0 →
  ∃ s1, index_batch (end_position s0) (base_offset s0 + zlen rs) ts s0 = (Ok tt, s1) ∧
    seg_file s1 = seg_file s0 ∧ index_ok (base_offset s0) (rs ++ new) (seg_index s1) ∧
    seg_options s1 = seg_options s0 ∧ base_offset s1 = base_offset s0 ∧
    synced_position s1 = synced_position s0 ∧ 0 ≤ last_indexed_position s1 ≤ end_position s0 ∧
    max_timestamp s1 = max_timestamp s0 ∧ record_count s1 = record_count s0.
Proof.
  intros Hix Hne Hend Hli. unfold index_batch, sbind at 1, sget.
  destruct (_ || _).
  2:{ exists s0. split_and!; try done; [by apply index_ok_app|lia..]. }
  pose proof (index_ok_append (base_offset s0) rs new (seg_index s0) Hix Hne) as HIX. rewrite <- Hend in HIX.
  unfold sbind, stry, in_index, in_time_index, szoom.
  destruct (OffsetIndex_Append (base_offset s0 + zlen rs) (end_position s0) (seg_index s0)) as [[[]|e] ix1];
    cbn [fst snd is_ok] in *.
  - unfold smod. cbn [fst snd seg_time_index with_last_indexed with_index].
    destruct (TimeIndex_Append ts (base_offset s0 + zlen rs) (seg_time_index s0)) as [rt ti].
    eexists. split; [done|]. cbn. split_and!; try done; lia.
  - eexists. split; [done|]. cbn. split_and!; try done; lia.
Qed.

(** Publishing a batch whose bytes are already in the file. *)
Lemma FinishAppend_spec rs new s0 cnt ts :
  new ≠ [] → end_position s0 = zlen (run_bytes rs) → 0 ≤ last_indexed_position s0 ≤ end_position s0 →
  ztake (zlen (run_bytes (rs ++ new))) (content (seg_file s0)) = run_bytes (rs ++ new) →
  run_ok true (rs ++ new) → consecutive (base_offset s0) (rs ++ new) →
  index_ok (base_offset s0) rs (seg_index s0) → zlen (run_bytes (rs ++ new)) < 2 ^ 62 →
  let r := FinishAppend (zlen (run_bytes new)) (base_offset s0 + zlen rs)
             (base_offset s0 + zlen rs + zlen new - 1) cnt ts s0 in
  r.1 = Ok tt ∧ seg_inv r.2 (rs ++ new) ∧ seg_file r.2 = seg_file s0 ∧ seg_options r.2 = seg_options s0 ∧
  base_offset r.2 = base_offset s0 ∧ synced_position r.2 = synced_position s0 ∧
  max_timestamp r.2 = Z.max (max_timestamp s0) ts ∧ record_count r.2 = record_count s0 + cnt.
Proof.
  intros Hne Hend Hli Hf Hok Hcons Hix Hsize.
  assert (HLen : zlen (run_bytes (rs ++ new)) = zlen (run_bytes rs) + zlen (run_bytes new))
    by (by rewrite run_bytes_app, zlen_app).
  assert (Hfit : zlen (run_bytes (rs ++ new)) ≤ zlen (content (seg_file s0))).
  { rewrite <- Hf at 1. rewrite zlen_ztake. pose proof (zlen_nonneg (content (seg_file s0))). lia. }
  pose proof (zlen_nonneg (run_bytes rs)). pose proof (zlen_nonneg (run_bytes new)).
  destruct (index_batch_spec rs new s0 ts Hix Hne Hend Hli) as (s1 & Hm & G1 & G2 & G3 & G4 & G5 & G6 & G7 & G8).
  unfold FinishAppend, sbind, sget. rewrite Hm. unfold smod. cbn [fst snd]. split; [done|]. split.
  - constructor; cbn [end_position seg_file with_extent base_offset next_offset seg_index last_indexed_position];
      rewrite ?G1, ?G4; try done.
    + lia.
    + by rewrite Hend, <- HLen.
    + lia.
    + rewrite zlen_app. lia.
    + lia.
  - cbn. rewrite G1, G7, G8. by split_and!.
Qed.

(** An invariant of the segment that only looks at the bytes below its end. *)
Lemma seg_inv_file f s rs :
  seg_inv s rs → ztake (end_position s) (content f) = run_bytes rs → end_position s ≤ zlen (content f) →
  seg_inv (with_file f s) rs.
Proof. intros [I1 I2 I3 I4 I5 I6 I7 I8 I9] H1 H2. by constructor. Qed.
Lemma seg_inv_preallocated p s rs : seg_inv s rs → seg_inv (with_preallocated p s) rs.
Proof. intros [I1 I2 I3 I4 I5 I6 I7 I8 I9]. by constructor. Qed.

Lemma grow_preallocated_with needed s :
  ∃ p, grow_preallocated needed s = (Ok tt, with_preallocated p s).
Proof.
  unfold grow_preallocated, smod. destruct (_ <? _); [by exists needed|].
  exists (preallocated_to s). by destruct s.
Qed.

(** What a segment looks like after an append, successful or not. *)
Definition appended (rs new : Run) (s s' : Segment) (r : Result unit) : Prop :=
  base_offset s' = base_offset s ∧ seg_options s' = seg_options s ∧ synced_position s' = synced_position s ∧
  durable (seg_file s') = durable (seg_file s) ∧ fvalid (seg_file s') = fvalid (seg_file s) ∧
  match r with
  | Ok _ => seg_inv s' (rs ++ new)
  | Err e => seg_inv s' rs ∧ e ≠ kInternal
  end.

Section Append.
Context (rs new : Run) (s : Segment) (cnt ts : Z).
Hypothesis Hinv : seg_inv s rs.
Hypothesis Hnew : batch_after (base_offset s) rs new.

Lemma append_with (write : SR FileHandle unit) needed :
  (∀ f, content f = content (seg_file s) →
        wrote (run_bytes new) (end_position s) f (write f).2 (write f).1) →
  let r := (grow_preallocated needed ;;; in_file write ;;;
            FinishAppend (zlen (run_bytes new)) (base_offset s + zlen rs)
              (base_offset s + zlen rs + zlen new - 1) cnt ts) s in
  appended rs new s r.2 r.1 ∧
  (is_ok r.1 = true → max_timestamp r.2 = Z.max (max_timestamp s) ts ∧ record_count r.2 = record_count s + cnt).
Proof.
  intros Hw. unfold sbind. destruct (grow_preallocated_with needed s) as [p ->]. unfold in_file, szoom.
  cbn [seg_file with_preallocated]. specialize (Hw (seg_file s) eq_refl).
  destruct (write (seg_file s)) as [[[]|e] f]; cbn [fst snd] in *; destruct Hw as [[Hd Hv] Hc];
    pose proof Hinv as [I1 I2 I3 I4 I5 I6 I7 I8 I9]; destruct Hnew as (Hne & Hok & Hcons & Hsz).
  - pose proof (zlen_nonneg (run_bytes rs)).
    assert (HC : ztake (zlen (run_bytes (rs ++ new))) (content f) = run_bytes (rs ++ new)).
    { rewrite run_bytes_app, zlen_app, <- I1, Hc. rewrite ztake_overwrite by lia. by rewrite I2. }
    set (s0 := with_file f (with_preallocated p s)).
    destruct (FinishAppend_spec rs new s0 cnt ts) as (R1 & R2 & R3 & R4 & R5 & R6 & R7);
      [done|done|done|done|by apply run_ok_app|by apply consecutive_app|done|done|].
    change (base_offset s0) with (base_offset s) in *.
    destruct (FinishAppend _ _ _ cnt ts s0) as [r s1]. cbn [fst snd] in *. subst r. split; [|done].
    unfold appended. rewrite R3, R4, R5, R6. by split_and!.
  - destruct Hc as (He & k & Hk & Hc). split; [|done]. unfold appended; cbn. split_and!; try done.
    pose proof (zlen_nonneg (run_bytes rs)).
    apply seg_inv_file; [by apply seg_inv_preallocated|..]; cbn; rewrite Hc.
    + rewrite ztake_overwrite_before by lia. done.
    + rewrite zlen_overwrite by lia. lia.
Qed.

Lemma batch_bytes_pos : 0 < zlen (run_bytes new).
Proof.
  destruct Hnew as (Hne & Hok & _). destruct new as [|r rest] eqn:E; [done|].
  pose proof (run_record_bounds true (r :: rest) 0 r Hok eq_refl).
  change (run_bytes (r :: rest)) with (r.1 ++ run_bytes rest). rewrite zlen_app.
  pose proof (zlen_nonneg (run_bytes rest)). lia.
Qed.

Lemma AppendEncoded_spec :
  let r := AppendEncoded (run_bytes new) (base_offset s + zlen rs) (base_offset s + zlen rs + zlen new - 1) cnt ts s in
  appended rs new s r.2 r.1 ∧
  (is_ok r.1 = true → max_timestamp r.2 = Z.max (max_timestamp s) ts ∧ record_count r.2 = record_count s + cnt).
Proof.
  unfold AppendEncoded. pose proof batch_bytes_pos. destruct (Z.eqb_spec (zlen (run_bytes new)) 0); [lia|].
  unfold sbind at 1, sget. apply append_with. intros f Hf. apply WriteAllAt_spec. rewrite Hf.
  pose proof (inv_fits _ _ Hinv). pose proof (inv_end _ _ Hinv). pose proof (zlen_nonneg (run_bytes rs)). lia.
Qed.

Lemma total_bytes (chunks : list bytes) n : fold_left (λ n c, n + zlen c) chunks n = n + zlen (concat chunks).
Proof.
  revert n. induction chunks as [|c cs IH]; intros n; cbn [fold_left concat]; [rewrite zlen_nil; lia|].
  rewrite IH, zlen_app. lia.
Qed.

Lemma AppendEncodedVectored_spec chunks : concat chunks = run_bytes new →
  let r := AppendEncodedVectored chunks (base_offset s + zlen rs) (base_offset s + zlen rs + zlen new - 1) cnt ts s in
  appended rs new s r.2 r.1 ∧
  (is_ok r.1 = true → max_timestamp r.2 = Z.max (max_timestamp s) ts ∧ record_count r.2 = record_count s + cnt).
Proof.
  intros Hch. unfold AppendEncodedVectored. rewrite total_bytes, Hch, Z.add_0_l.
  pose proof batch_bytes_pos. destruct (Z.eqb_spec (zlen (run_bytes new)) 0); [lia|].
  unfold sbind at 1, sget. apply append_with. intros f Hf. rewrite <- Hch. apply WriteVectoredAt_spec. rewrite Hf.
  pose proof (inv_fits _ _ Hinv). pose proof (inv_end _ _ Hinv). pose proof (zlen_nonneg (run_bytes rs)). lia.
Qed.
End Append.

Lemma in_index_preserves {A} (m : SR OffsetIndex A) : preserves quiet_index m → preserves seg_quiet (in_index m).
Proof. apply preserves_zoom; [by intros s (_ & ? & _)|by intros f s (? & _ & ?)]. Qed.
Lemma in_time_index_preserves {A} (m : SR TimeIndex A) :
  preserves quiet_index m → preserves seg_quiet (in_time_index m).
Proof. apply preserves_zoom; [by intros s (_ & _ & ?)|by intros f s (? & ? & _)]. Qed.
#[export] Hint Resolve in_index_preserves in_time_index_preserves : pulse.

Lemma index_batch_calm start base ts : calm seg_quiet (index_batch start base ts).
Proof.
  apply calm_bind; [apply calm_get|]. intros s. destruct (_ || _); [|apply calm_ret].
  apply calm_bind; [auto with pulse|]. intros st. destruct (is_ok st); [|apply calm_ret].
  apply calm_bind; [by apply calm_mod|]. intros _. apply calm_bind; [auto with pulse|]. intros _. apply calm_ret.
Qed.
Lemma FinishAppend_calm n base last cnt ts : calm seg_quiet (FinishAppend n base last cnt ts).
Proof.
  apply calm_bind; [apply calm_get|]. intros s. apply calm_bind; [apply index_batch_calm|].
  intros _. by apply calm_mod.
Qed.

Section AppendQuiet.
Context (rs : Run) (s : Segment) (base last cnt ts : Z).
Hypothesis Hinv : seg_inv s rs.
Hypothesis Hq : seg_quiet s.

Lemma end_in_file : 0 ≤ end_position s ≤ zlen (content (seg_file s)).
Proof. pose proof (inv_fits _ _ Hinv). rewrite (inv_end _ _ Hinv) in *. zlist. Qed.

Lemma append_quiet (write : SR FileHandle unit) needed n :
  (is_ok (write (seg_file s)).1 = true ∧ quiet (write (seg_file s)).2) →
  let r := (grow_preallocated needed ;;; in_file write ;;; FinishAppend n base last cnt ts) s in
  is_ok r.1 = true ∧ seg_quiet r.2.
Proof.
  intros [Hw1 Hw2]. unfold sbind. destruct (grow_preallocated_with needed s) as [p ->]. unfold in_file, szoom.
  cbn [seg_file with_preallocated]. destruct (write (seg_file s)) as [[[]|e] f]; [|done].
  apply FinishAppend_calm. by destruct Hq as (_ & ? & ?).
Qed.

Lemma AppendEncoded_quiet data :
  let r := AppendEncoded data base last cnt ts s in is_ok r.1 = true ∧ seg_quiet r.2.
Proof.
  unfold AppendEncoded. destruct (zlen data =? 0); [by split|]. unfold sbind at 1, sget.
  apply append_quiet, WriteAllAt_quiet; [apply Hq|apply end_in_file].
Qed.
Lemma AppendEncodedVectored_quiet chunks :
  let r := AppendEncodedVectored chunks base last cnt ts s in is_ok r.1 = true ∧ seg_quiet r.2.
Proof.
  unfold AppendEncodedVectored. destruct (_ =? 0); [by split|]. unfold sbind at 1, sget.
  apply append_quiet, WriteVectoredAt_quiet; [apply Hq|apply end_in_file].
Qed.
End AppendQuiet.

(** ** Finding a position *)

(** [n] whole records of [rs] are what a block of [m] bytes shows, up to [limit] of them. *)
Lemma walk_block_run rs m n fuel position limit offset cur j :
  run_ok true rs → 0 ≤ m ≤ zlen (run_bytes rs) → (n ≤ length rs)%nat →
  limit = position + zlen (run_bytes rs) → offset = cur + Z.of_nat n →
  (j ≤ n)%nat → pos_of rs j ≤ m → (Z.to_nat (m - pos_of rs j) < fuel)%nat →
  ∃ j', (j ≤ j' ≤ n)%nat ∧ pos_of rs j' ≤ m ∧
    walk_block fuel (ztake m (run_bytes rs)) position limit offset (pos_of rs j) (cur + Z.of_nat j)
    = inr (pos_of rs j', cur + Z.of_nat j') ∧ (j' = n ∨ m < pos_of rs (S j')).
Proof.
  intros Hok Hm Hn Hlim Hoff. revert j. induction fuel as [|fuel IH]; intros j Hj Hp Hfuel; [lia|].
  assert (HL : zlen (ztake m (run_bytes rs)) = m) by (rewrite zlen_ztake; lia).
  cbn [walk_block]. rewrite HL. destruct (decide (j = n)) as [->|Hne].
  { exists n. destruct (Z.ltb_spec (cur + Z.of_nat n) offset); [lia|]. cbn [andb]. split_and!; [lia..|done|by left]. }
  destruct (lookup_lt_is_Some_2 rs j ltac:(lia)) as [r Hr].
  pose proof (run_record_bounds _ _ _ _ Hok Hr) as Hb. pose proof (pos_of_S _ _ _ Hr) as HS.
  pose proof (pos_of_le rs (S j)) as HSle. pose proof (pos_of_le rs j) as Hjle.
  destruct (Z.ltb_spec (cur + Z.of_nat j) offset); [|lia]. cbn [andb].
  destruct (Z.leb_spec (pos_of rs j + 4) m) as [H4|H4].
  2:{ exists j. split_and!; [lia..|done|right; lia]. }
  assert (Hlen : load_at 4 (pos_of rs j) (ztake m (run_bytes rs)) + 4 = zlen r.1).
  { rewrite load_at_prefix by lia. rewrite <- (app_nil_r (run_bytes rs)). by apply (load_length_at true). }
  rewrite Hlen. unfold kRecordFixedPrefix.
  destruct (Z.ltb_spec (zlen r.1) 25); [lia|]. cbn [orb].
  destruct (Z.ltb_spec limit (position + pos_of rs j + zlen r.1)); [lia|].
  destruct (Z.ltb_spec m (pos_of rs j + zlen r.1)) as [Hcut|Hfit].
  { exists j. split_and!; [lia..|done|right; lia]. }
  rewrite <- HS. replace (cur + Z.of_nat j + 1) with (cur + Z.of_nat (S j)) by lia.
  destruct (IH (S j)) as (j' & Hj' & Hp' & HW & Hend); [lia|lia|lia|].
  exists j'. split_and!; [lia..|done|done].
Qed.

(** [segment.cc] refuses to step over a record of more than [kMaxRecordBytes] bytes in
    all, four less than the parser's limit. *)
Definition records_fit_lookup (rs : Run) : Prop := Forall (λ r, zlen r.1 ≤ kMaxRecordBytes) rs.

Definition zsize (rs : Run) (k : nat) : Z := pos_of rs (S k) - pos_of rs k.

Lemma zsize_lookup rs k r : rs !! k = Some r → zsize rs k = zlen r.1.
Proof. intros H. unfold zsize. rewrite (pos_of_S _ _ _ H). lia. Qed.

Lemma pos_of_drop rs k j : pos_of rs (k + j) = pos_of rs k + pos_of (drop k rs) j.
Proof. unfold pos_of. rewrite take_take_drop_eq, run_bytes_app, zlen_app. done. Qed.

Lemma run_bytes_drop_len rs k : zlen (run_bytes (drop k rs)) = zlen (run_bytes rs) - pos_of rs k.
Proof. unfold pos_of. rewrite (run_bytes_split k rs), zlen_app. lia. Qed.

(** The bytes a read inside the run shows. *)
Lemma slice_in_run rs k n c :
  ztake (zlen (run_bytes rs)) c = run_bytes rs → 0 ≤ n ≤ zlen (run_bytes rs) - pos_of rs k →
  slice (pos_of rs k) n c = ztake n (run_bytes (drop k rs)).
Proof.
  intros Hc Hn. pose proof (pos_of_le rs k).
  rewrite <- (slice_of_ztake _ _ (zlen (run_bytes rs))) by lia. rewrite Hc.
  rewrite <- (app_nil_r (run_bytes rs)) at 1. by rewrite slice_run, app_nil_r.
Qed.

(** What a read-only operation on a file returned. *)
Definition looked_up {A} (f f' : FileHandle) (r : Result A) (P : A → Prop) : Prop :=
  content f' = content f ∧ same_file f f' ∧ (quiet f → quiet f') ∧
  match r with Ok a => P a | Err e => e ≠ kInternal ∧ ¬ quiet f end.

Lemma ReadAt_looks size pos f :
  0 ≤ pos → looked_up f (ReadAt size pos f).2 (ReadAt size pos f).1 (λ bs, bs = slice pos size (content f)).
Proof.
  intros Hp. destruct (ReadAt_spec size pos f Hp) as (H1 & H2 & H3). split_and!; [done|done| |].
  - intros Hq. by apply ReadAt_calm.
  - destruct (ReadAt size pos f) as [[bs|e] f'] eqn:E; [done|]. split; [done|]. intros Hq.
    destruct (ReadAt_calm size pos f Hq Hp) as [Hok _]. by rewrite E in Hok.
Qed.

Lemma looked_up_trans {A} f f1 f2 (r : Result A) P :
  content f1 = content f → same_file f f1 → (quiet f → quiet f1) → looked_up f1 f2 r P → looked_up f f2 r P.
Proof.
  intros Hc [Hd Hv] Hq (H1 & [H2 H3] & H4 & H5). split_and!; [congruence|split; congruence|auto|].
  destruct r; [done|]. destruct H5. split; [done|]. auto.
Qed.

Lemma position_loop_run rs limit i base :
  run_ok true rs → records_fit_lookup rs → limit = zlen (run_bytes rs) → (i < length rs)%nat →
  ∀ fuel k block_size f,
  ztake (zlen (run_bytes rs)) (content f) = run_bytes rs → (k ≤ i)%nat → 8192 ≤ block_size →
  (2 * (i - k) + (if decide (k = i) then 1 else if decide (block_size < zsize rs k)%Z then 1 else 0) ≤ fuel)%nat →
  let r := position_loop fuel limit (base + Z.of_nat i) (pos_of rs k) (base + Z.of_nat k) block_size f in
  looked_up f r.2 r.1 (λ p, p = pos_of rs i).
Proof.
  intros Hok Hmax Hlim Hi. induction fuel as [|fuel IH]; intros k bs f Hc Hk Hbs Hfuel.
  { exfalso. destruct (decide (k = i)); lia. }
  cbn [position_loop]. destruct (decide (k = i)) as [->|Hne].
  { destruct (Z.ltb_spec (base + Z.of_nat i) (base + Z.of_nat i)); [lia|]. by split_and!. }
  destruct (Z.ltb_spec (base + Z.of_nat k) (base + Z.of_nat i)); [|lia].
  destruct (lookup_lt_is_Some_2 rs k ltac:(lia)) as [r Hr].
  pose proof (run_record_bounds _ _ _ _ Hok Hr) as Hb. pose proof (zsize_lookup _ _ _ Hr) as HZ.
  pose proof (pos_of_S _ _ _ Hr) as HS. pose proof (pos_of_le rs k) as Hkle. pose proof (pos_of_le rs (S k)) as HSle.
  assert (Hrm : zlen r.1 ≤ kMaxRecordBytes) by (by apply (Forall_lookup_1 _ _ _ _ Hmax Hr)).
  set (want := Z.min bs (limit - pos_of rs k)). assert (Hwant : 27 ≤ want) by (unfold want; lia).
  destruct (Z.ltb_spec want 4); [lia|].
  pose proof (ReadAt_looks want (pos_of rs k) f ltac:(lia)) as (R1 & R2 & R3 & R4).
  destruct (ReadAt want (pos_of rs k) f) as [[block|e] f1]; cbn [fst snd] in *; [|exact (conj R1 (conj R2 (conj R3 R4)))].
  rewrite slice_in_run in R4 by (done || (unfold want; lia)). pose proof (run_bytes_drop_len rs k) as HDL.
  assert (HBL : zlen block = want) by (rewrite R4, zlen_ztake; unfold want; lia).
  rewrite HBL. destruct (Z.ltb_spec want 4); [lia|].
  destruct (walk_block_run (drop k rs) want (i - k) (S (length block)) (pos_of rs k) limit (base + Z.of_nat i)
    (base + Z.of_nat k) 0) as (j & Hj & Hp & HW & Hend);
    [by apply run_ok_drop|unfold want; lia|rewrite length_drop; lia|lia|lia|lia|rewrite pos_of_0; lia
    |rewrite pos_of_0; unfold zlen in HBL; lia|].
  rewrite <- R4, pos_of_0, Z.add_0_r in HW. rewrite HW.
  destruct j as [|j].
  - rewrite pos_of_0, Z.eqb_refl. assert (Hbig : bs < zlen r.1).
    { destruct Hend as [Hend|Hend]; [lia|]. pose proof (pos_of_drop rs k 1) as HD1.
      replace (k + 1)%nat with (S k) in HD1 by lia. unfold want in Hend. lia. }
    assert (HLd : load_at 4 0 block + 4 = zlen r.1).
    { rewrite R4, load_at_prefix by (unfold want; lia). rewrite (run_drop_cons _ _ _ Hr).
      destruct r as [rb x]. destruct (run_ok_lookup _ _ _ _ _ Hok Hr) as (crc & Hs & _).
      by apply (shape_length rb x crc). }
    rewrite HLd. unfold kRecordFixedPrefix. destruct (Z.ltb_spec (zlen r.1) 25); [lia|].
    destruct (Z.ltb_spec kMaxRecordBytes (zlen r.1)); [lia|].
    destruct (Z.ltb_spec limit (pos_of rs k + zlen r.1)); [lia|]. cbn [orb].
    destruct (Z.leb_spec (zlen r.1) bs); [lia|]. rewrite Z.add_0_r.
    apply (looked_up_trans f f1); [done|done|done|]. apply IH; [by rewrite R1|done|lia|].
    destruct (decide (bs < zsize rs k)); [|lia].
    destruct (decide (k = i)); [lia|]. destruct (decide (zlen r.1 < zsize rs k)); lia.
  - assert (Hpos : 0 < pos_of (drop k rs) (S j)).
    { pose proof (pos_of_mono (drop k rs) 1 (S j) ltac:(lia)). pose proof (pos_of_drop rs k 1) as HD1.
      replace (k + 1)%nat with (S k) in HD1 by lia. lia. }
    destruct (Z.eqb_spec (pos_of (drop k rs) (S j)) 0); [lia|].
    rewrite <- pos_of_drop. replace (base + Z.of_nat k + Z.of_nat (S j)) with (base + Z.of_nat (k + S j)) by lia.
    apply (looked_up_trans f f1); [done|done|done|]. apply IH; [by rewrite R1|lia|done|].
    destruct (decide (k + S j = i)%nat); [lia|]. destruct (decide (bs < zsize rs (k + S j))); lia.
Qed.

Lemma with_file_id s : with_file (seg_file s) s = s.
Proof. by destruct s. Qed.

(** Where a lookup starts: the index entry at or below the target, or the base. *)
Lemma lookup_start rs s i :
  seg_inv s rs →
  ∃ k, (k ≤ i)%nat ∧
    match LookupFloor (base_offset s + Z.of_nat i) (seg_index s) with
    | Some e => (file_position e, base_offset s + relative_offset e)
    | None => (0, base_offset s)
    end = (pos_of rs k, base_offset s + Z.of_nat k).
Proof.
  intros Hinv. destruct (inv_index _ _ Hinv) as (Hwf & Hb & He).
  pose proof (LookupFloor_spec (seg_index s) (base_offset s + Z.of_nat i) Hwf) as HF. rewrite Hb in HF.
  replace (base_offset s + Z.of_nat i - base_offset s) with (Z.of_nat i) in HF by lia.
  destruct (LookupFloor _ _) as [e|]; cbn [is_floor] in HF.
  - destruct HF as (Hin & Hle & _). pose proof (entry_nonneg _ _ Hwf Hin). destruct (He e Hin) as [_ Hp].
    exists (Z.to_nat (relative_offset e)). split; [lia|]. rewrite Hp. f_equal. lia.
  - exists 0%nat. rewrite pos_of_0. split; [lia|]. f_equal. lia.
Qed.

Lemma PositionFor_spec rs s i :
  seg_inv s rs → records_fit_lookup rs → (i < length rs)%nat →
  ∃ f, (PositionFor (base_offset s + Z.of_nat i) s).2 = with_file f s ∧
    looked_up (seg_file s) f (PositionFor (base_offset s + Z.of_nat i) s).1 (λ p, p = pos_of rs i).
Proof.
  intros Hinv Hmax Hi. destruct (lookup_start rs s i Hinv) as (k & Hk & HL).
  unfold PositionFor, sbind, sget. destruct (Z.ltb_spec (base_offset s + Z.of_nat i) (base_offset s)); [lia|].
  rewrite (inv_next _ _ Hinv).
  destruct (Z.leb_spec (base_offset s + zlen rs) (base_offset s + Z.of_nat i)); [unfold zlen in *; lia|].
  rewrite HL. destruct (Z.leb_spec (base_offset s + Z.of_nat i) (base_offset s + Z.of_nat k)).
  { assert (k = i) as -> by lia. exists (seg_file s). cbn [sret fst snd]. split; [by rewrite with_file_id|].
    by split_and!. }
  unfold in_file, szoom. set (bs := Z.max (index_interval_bytes (seg_options s)) 8192).
  replace (base_offset s + Z.of_nat i - (base_offset s + Z.of_nat k)) with (Z.of_nat (i - k)) by lia.
  rewrite Nat2Z.id.
  pose proof (position_loop_run rs (end_position s) i (base_offset s) (inv_run _ _ Hinv) Hmax (inv_end _ _ Hinv) Hi
    (S (2 * (i - k) + 1)) k bs (seg_file s)) as HP.
  destruct (position_loop _ _ _ _ _ bs (seg_file s)) as [r f]. exists f. split; [done|]. apply HP.
  - rewrite <- (inv_end _ _ Hinv). apply (inv_content _ _ Hinv).
  - done.
  - unfold bs. lia.
  - destruct (decide (k = i)); [lia|]. destruct (decide _); lia.
Qed.

Lemma PositionFor_outside rs s offset :
  seg_inv s rs → offset < base_offset s ∨ base_offset s + zlen rs ≤ offset →
  PositionFor offset s = (Err kOutOfRange, s).
Proof.
  intros Hinv Hout. unfold PositionFor, sbind, sget. destruct (Z.ltb_spec offset (base_offset s)); [done|].
  rewrite (inv_next _ _ Hinv). by destruct (Z.leb_spec (base_offset s + zlen rs) offset); [|lia].
Qed.
