(* ===== verification/SegmentRead.v ===== *)
(** * SegmentRead: what a read of a segment returns

    [Segment::Read] copies whole records from the requested offset on, chunk by
    chunk, and stops at the byte budget.  The theorem says which records it
    returns, and why it stops. *)
From S2P Require Import Prelude Status Endian Crc32c Buffer Types Codec Frame Record FileUtil Search OffsetIndex Quiet Segment SegmentSpec Recovery SegmentOps.

Lemma ztake_app_ge {A} n (l k : list A) : zlen l ≤ n → ztake n (l ++ k) = l ++ ztake (n - zlen l) k.
Proof.
  intros Hn. unfold ztake. rewrite take_app_ge by (unfold zlen in Hn; lia). do 2 f_equal. unfold zlen. lia.
Qed.

(** Writing a chunk behind the content and committing a part of it. *)
Lemma PokeCommit_prefix bs n b :
  buffer_wf b → zlen bs ≤ WritableBytes b → 0 ≤ n ≤ zlen bs →
  let b' := Commit n (PokeWritable bs b) in
  buffer_wf b' ∧ Readable b' = Readable b ++ ztake n bs.
Proof.
  intros Hwf Hw Hn. destruct (PokeCommit_spec bs b Hwf Hw) as [(H1 & H2 & H3) HR]. cbn in *.
  destruct Hwf as (G1 & G2 & G3). split.
  - unfold buffer_wf; cbn. lia.
  - apply (f_equal (ztake (ReadableBytes b + n))) in HR. rewrite ztake_app_ge in HR by (rewrite zlen_Readable by done; lia).
    rewrite zlen_Readable in HR by done. replace (ReadableBytes b + n - ReadableBytes b) with n in HR by lia.
    rewrite <- HR. unfold Readable, ReadableBytes; cbn. unfold slice. rewrite ztake_ztake. f_equal. lia.
Qed.

(** ** Which records of a chunk are taken *)

Section Accept.
Context (rs : Run) (m taken taken_n budget offset end_ : Z).
Hypothesis Hok : run_ok true rs.
Hypothesis Hm : 0 ≤ m ≤ zlen (run_bytes rs).
Hypothesis Hend : end_ = offset + zlen rs.
Hypothesis Hn : 0 ≤ taken_n.

Lemma accept_loop_run fuel j :
  (j ≤ length rs)%nat → pos_of rs j ≤ m → (Z.to_nat (m - pos_of rs j) < fuel)%nat →
  taken + pos_of rs j ≤ budget ∨ (taken_n = 0 ∧ (j ≤ 1)%nat) →
  ∃ j', (j ≤ j' ≤ length rs)%nat ∧ pos_of rs j' ≤ m ∧
    accept_loop fuel (ztake m (run_bytes rs)) offset end_ budget taken taken_n (pos_of rs j) (Z.of_nat j)
    = (pos_of rs j', Z.of_nat j') ∧
    (taken + pos_of rs j' ≤ budget ∨ (taken_n = 0 ∧ (j' ≤ 1)%nat)) ∧
    (j' = length rs ∨ m < pos_of rs (S j') ∨
     (0 < taken_n + Z.of_nat j' ∧ budget < taken + pos_of rs (S j'))).
Proof.
  revert j. induction fuel as [|fuel IH]; intros j Hj Hp Hfuel Hb; [lia|].
  assert (HL : zlen (ztake m (run_bytes rs)) = m) by (rewrite zlen_ztake; lia).
  cbn [accept_loop]. rewrite HL.
  destruct (decide (j = length rs)) as [->|Hne].
  { exists (length rs). unfold zlen in Hend. destruct (Z.ltb_spec (offset + Z.of_nat (length rs)) end_); [lia|].
    rewrite andb_false_r. split_and!; [lia..|done|done|by left]. }
  destruct (lookup_lt_is_Some_2 rs j ltac:(lia)) as [r Hr].
  pose proof (run_record_bounds _ _ _ _ Hok Hr) as Hrb. pose proof (pos_of_S _ _ _ Hr) as HS.
  pose proof (pos_of_le rs (S j)) as HSle. pose proof (pos_of_le rs j) as Hjle.
  destruct (Z.ltb_spec (pos_of rs j) m) as [Hlt|Hge].
  2:{ cbn [andb]. exists j. split_and!; [lia..|done|done|right; left; lia]. }
  destruct (Z.ltb_spec (offset + Z.of_nat j) end_); [|unfold zlen in Hend; lia]. cbn [andb].
  unfold PeekRecordLength. rewrite HL. destruct (Z.ltb_spec m (pos_of rs j + 4)).
  { exists j. split_and!; [lia..|done|done|right; left; lia]. }
  assert (Hlen : load_at 4 (pos_of rs j) (ztake m (run_bytes rs)) + 4 = zlen r.1).
  { rewrite load_at_prefix by lia. rewrite <- (app_nil_r (run_bytes rs)). by apply (load_length_at true). }
  rewrite Hlen, <- HS. destruct (Z.ltb_spec m (pos_of rs (S j))).
  { exists j. split_and!; [lia..|done|done|right; left; lia]. }
  destruct (Z.ltb_spec 0 (taken_n + Z.of_nat j)) as [Hsome|Hnone]; cbn [andb].
  - destruct (Z.ltb_spec budget (taken + pos_of rs j + zlen r.1)) as [Hover|Hfit].
    { exists j. split_and!; [lia..|done|done|right; right; lia]. }
    replace (Z.of_nat j + 1) with (Z.of_nat (S j)) by lia.
    destruct (IH (S j)) as (j' & K1 & K2 & K3 & K4 & K5); [lia|lia|lia|left; lia|].
    exists j'. split_and!; [lia..|done|done|done].
  - replace (Z.of_nat j + 1) with (Z.of_nat (S j)) by lia.
    destruct (IH (S j)) as (j' & K1 & K2 & K3 & K4 & K5); [lia|lia|lia|right; lia|].
    exists j'. split_and!; [lia..|done|done|done].
Qed.
End Accept.

(** ** The copy loop *)

Lemma ReadExactAt_looks size pos f :
  0 ≤ pos → 0 < size → pos + size ≤ zlen (content f) →
  looked_up f (ReadExactAt size pos f).2 (ReadExactAt size pos f).1 (λ bs, bs = slice pos size (content f)).
Proof.
  intros Hp Hs Hin. destruct (ReadAt_looks size pos f Hp) as (H1 & H2 & H3 & H4).
  unfold ReadExactAt, sbind. destruct (ReadAt size pos f) as [[bs|e] f']; cbn [fst snd] in *;
    [|exact (conj H1 (conj H2 (conj H3 H4)))].
  assert (HL : zlen bs = size) by (rewrite H4; apply zlen_slice; lia).
  rewrite HL, Z.eqb_refl. cbn. by split_and!.
Qed.

Section Copy.
Context (rs : Run) (base : Z) (i : nat) (budget : Z) (pre : bytes).
Hypothesis Hok : run_ok true rs.
Let limit : Z := zlen (run_bytes rs).
Let end_ : Z := base + zlen rs.

(** [t] records copied so far. *)
Definition copied (t : nat) : Copy :=
  mkCopy (base + Z.of_nat (i + t)) (pos_of rs (i + t)) (pos_of rs (i + t) - pos_of rs i) (Z.of_nat t).
Definition copied_out (t : nat) (out : ByteBuffer) : Prop :=
  buffer_wf out ∧ Readable out = pre ++ run_bytes (take t (drop i rs)).
Definition in_budget (t : nat) : Prop := pos_of rs (i + t) - pos_of rs i ≤ budget ∨ (t ≤ 1)%nat.
(** Why the loop may stop after [t] records. *)
Definition may_stop (t : nat) : Prop :=
  (i + t)%nat = length rs ∨ budget ≤ pos_of rs (i + t) - pos_of rs i ∨
  (0 < t)%nat ∧ (budget < pos_of rs (i + t) - pos_of rs i + zsize rs (i + t) ∨
                 kRecoveryChunkBytes < zsize rs (i + t)).

Lemma copied_step t j chunk out :
  copied_out t out → chunk = ztake (zlen chunk) (run_bytes (drop (i + t) rs)) →
  pos_of (drop (i + t) rs) j ≤ zlen chunk → ∀ n, zlen chunk ≤ n →
  copied_out (t + j) (Commit (pos_of (drop (i + t) rs) j) (PokeWritable chunk (EnsureWritable n out))).
Proof.
  intros [Hwf HR] Hch Hle n Hn. pose proof (zlen_nonneg chunk). pose proof (pos_of_le (drop (i + t) rs) j).
  destruct (EnsureWritable_spec n out Hwf ltac:(lia)) as (E1 & E2 & E3).
  destruct (PokeCommit_prefix chunk (pos_of (drop (i + t) rs) j) (EnsureWritable n out)) as [P1 P2]; [done|lia|lia|].
  split; [done|]. rewrite P2, E2, HR, <- app_assoc. f_equal.
  rewrite Hch, ztake_ztake, Z.min_l by done. unfold pos_of at 1.
  rewrite (run_bytes_split j (drop (i + t) rs)), ztake_app by done.
  rewrite <- run_bytes_app, <- drop_drop, take_take_drop. done.
Qed.

Lemma copied_poke t chunk out n :
  copied_out t out → zlen chunk ≤ n → copied_out t (PokeWritable chunk (EnsureWritable n out)).
Proof.
  intros [Hwf HR] Hn. pose proof (zlen_nonneg chunk).
  destruct (EnsureWritable_spec n out Hwf ltac:(lia)) as (E1 & E2 & E3).
  destruct (PokeCommit_prefix chunk 0 (EnsureWritable n out)) as [P1 P2]; [done|lia|lia|].
  assert (HC : ∀ b, Commit 0 b = b) by (intros []; unfold Commit; cbn; by rewrite Z.add_0_r).
  rewrite HC in P1, P2. split; [done|]. by rewrite P2, E2, ztake_0, app_nil_r by done.
Qed.

Lemma copy_loop_run fuel t f out :
  ztake limit (content f) = run_bytes rs → limit ≤ zlen (content f) → copied_out t out → in_budget t →
  (i + t ≤ length rs)%nat → (length rs - (i + t) < fuel)%nat →
  let r := copy_loop fuel limit end_ budget (copied t) (f, out) in
  looked_up f r.2.1 r.1 (λ c, ∃ t', (t ≤ t')%nat ∧ (i + t' ≤ length rs)%nat ∧ c = copied t' ∧
    copied_out t' r.2.2 ∧ in_budget t' ∧ may_stop t').
Proof.
  revert t f out. induction fuel as [|fuel IH]; intros t f out Hc Hlim Hout Hbud Hit Hfuel; [lia|].
  assert (Hsame : may_stop t → ∀ f' out', content f' = content f → same_file f f' → (quiet f → quiet f') →
    copied_out t out' → looked_up f f' (Ok (copied t)) (λ c, ∃ t', (t ≤ t')%nat ∧ (i + t' ≤ length rs)%nat ∧
      c = copied t' ∧ copied_out t' out' ∧ in_budget t' ∧ may_stop t')).
  { intros Hstop f' out' K1 K2 K3 K4. split_and!; try done. exists t. split_and!; done || lia. }
  cbn [copy_loop]. cbn [copied cp_cursor cp_offset cp_bytes cp_records].
  destruct (decide (i + t = length rs)%nat) as [HE|HE].
  { rewrite pos_of_all by lia. fold limit. destruct (Z.ltb_spec limit limit); [lia|]. cbn [andb].
    apply Hsame; try done. by left. }
  destruct (lookup_lt_is_Some_2 rs (i + t) ltac:(lia)) as [r Hr].
  pose proof (run_record_bounds _ _ _ _ Hok Hr) as Hrb. pose proof (zsize_lookup _ _ _ Hr) as HZ.
  pose proof (pos_of_S _ _ _ Hr) as HS. pose proof (pos_of_le rs (i + t)) as Hkle.
  pose proof (pos_of_le rs (S (i + t))) as HSle. fold limit in Hkle, HSle.
  set (bytes := pos_of rs (i + t) - pos_of rs i) in *.
  destruct (Z.ltb_spec (pos_of rs (i + t)) limit); [|lia].
  destruct (Z.ltb_spec (base + Z.of_nat (i + t)) end_); [|unfold end_, zlen in *; lia]. cbn [andb].
  set (left := if bytes <? budget then budget - bytes else 0).
  destruct (Z.eqb_spec left 0) as [Hl0|Hl0].
  { apply Hsame; try done. right; left. fold bytes. unfold left in Hl0. destruct (Z.ltb_spec bytes budget); lia. }
  assert (Hleft : left = budget - bytes ∧ bytes < budget)
    by (unfold left in *; destruct (Z.ltb_spec bytes budget); lia).
  destruct (ReadExactAt_looks 4 (pos_of rs (i + t)) f) as (R1 & R2 & R3 & R4); [lia|lia|lia|].
  destruct (ReadExactAt 4 _ f) as [[lb|e] f1]; cbn [fst snd] in *; [|exact (conj R1 (conj R2 (conj R3 R4)))].
  assert (Hsz : load_at 4 0 lb + 4 = zlen r.1).
  { rewrite R4, slice_in_run by (done || (fold limit; lia)). rewrite load_at_prefix.
    - rewrite (run_drop_cons _ _ _ Hr). destruct r as [rb x].
      destruct (run_ok_lookup _ _ _ _ _ Hok Hr) as (crc & Hs & _). by apply (shape_length rb x crc).
    - lia.
    - lia.
    - rewrite run_bytes_drop_len. fold limit. lia. }
  rewrite Hsz. unfold kRecordFixedPrefix. destruct (Z.ltb_spec (zlen r.1) 25); [lia|].
  destruct (Z.ltb_spec limit (pos_of rs (i + t) + zlen r.1)); [lia|]. cbn [orb].
  set (want := Z.min (Z.min kRecoveryChunkBytes (limit - pos_of rs (i + t))) left).
  destruct ((want <? zlen r.1) && (0 <? Z.of_nat t)) eqn:Hbrk.
  { apply andb_true_iff in Hbrk as [Hw%Z.ltb_lt Ht%Z.ltb_lt]. apply Hsame; try done. right; right. fold bytes.
    unfold want in Hw. lia. }
  set (want' := if want <? zlen r.1 then zlen r.1 else want).
  assert (Hw' : zlen r.1 ≤ want' ≤ limit - pos_of rs (i + t) ∧ ((0 < t)%nat → want' ≤ budget - bytes)).
  { unfold want'. destruct (Z.ltb_spec want (zlen r.1)) as [Hw|Hw].
    - split; [lia|]. intros Ht. apply andb_false_iff in Hbrk as [Hb|Hb%Z.ltb_ge]; [discriminate|lia].
    - unfold want in *. lia. }
  destruct Hw' as [Hw' Hwb].
  destruct (ReadAt_looks want' (pos_of rs (i + t)) f1) as (Q1 & Q2 & Q3 & Q4); [lia|].
  destruct (ReadAt want' _ f1) as [[chunk|e] f2]; cbn [fst snd] in *.
  2:{ apply (looked_up_trans f f1); [done..|]. exact (conj Q1 (conj Q2 (conj Q3 Q4))). }
  rewrite R1, slice_in_run in Q4 by (done || (fold limit; lia)).
  pose proof (run_bytes_drop_len rs (i + t)) as HDL. fold limit in HDL.
  assert (HCL : zlen chunk = want') by (rewrite Q4, zlen_ztake; lia).
  assert (Hch : chunk = ztake (zlen chunk) (run_bytes (drop (i + t) rs))) by (by rewrite HCL).
  destruct (Z.ltb_spec (zlen chunk) (zlen r.1)); [lia|].
  destruct (accept_loop_run (drop (i + t) rs) want' bytes (Z.of_nat t) budget (base + Z.of_nat (i + t)) end_
    (run_ok_drop _ _ _ Hok) ltac:(lia) ltac:(unfold end_, zlen; rewrite length_drop; lia) ltac:(lia)
    (S (length chunk)) 0) as (j & J1 & J2 & J3 & J4 & J5);
    [lia|rewrite pos_of_0; lia|rewrite pos_of_0; unfold zlen in HCL; lia|rewrite pos_of_0; left; lia|].
  rewrite <- Q4, pos_of_0 in J3. change (Z.of_nat 0) with 0 in J3. rewrite J3.
  rewrite length_drop in J1, J5.
  assert (HP : ∀ k, pos_of (drop (i + t) rs) k = pos_of rs (i + (t + k)) - pos_of rs (i + t))
    by (intros k; rewrite Nat.add_assoc, (pos_of_drop rs (i + t)); lia).
  assert (HP1 : pos_of (drop (i + t) rs) 1 = zlen r.1)
    by (rewrite HP; replace (i + (t + 1))%nat with (S (i + t)) by lia; lia).
  destruct j as [|j].
  { exfalso. rewrite HP1 in J5. lia. }
  assert (Hjpos : 0 < pos_of (drop (i + t) rs) (S j)).
  { pose proof (pos_of_mono (drop (i + t) rs) 1 (S j) ltac:(lia)). lia. }
  destruct (Z.eqb_spec (pos_of (drop (i + t) rs) (S j)) 0); [lia|].
  apply (looked_up_trans f f2); [congruence| |tauto|].
  { destruct R2, Q2. split; congruence. }
  pose proof (IH (t + S j)%nat f2 (Commit (pos_of (drop (i + t) rs) (S j)) (PokeWritable chunk (EnsureWritable want' out)))) as HI.
  unfold copied in HI at 1. rewrite HP in *.
  replace (base + Z.of_nat (i + t) + Z.of_nat (S j)) with (base + Z.of_nat (i + (t + S j))) by lia.
  replace (pos_of rs (i + t) + (pos_of rs (i + (t + S j)) - pos_of rs (i + t))) with (pos_of rs (i + (t + S j))) by lia.
  replace (bytes + (pos_of rs (i + (t + S j)) - pos_of rs (i + t))) with (pos_of rs (i + (t + S j)) - pos_of rs i)
    by (unfold bytes; lia).
  replace (Z.of_nat t + Z.of_nat (S j)) with (Z.of_nat (t + S j)) by lia.
  destruct HI as (I1 & I2 & I3 & I4).
  - by rewrite Q1, R1.
  - by rewrite Q1, R1.
  - rewrite <- HP. apply copied_step; [done|done|rewrite HP; lia|lia].
  - unfold in_budget. unfold bytes in J4. destruct J4 as [J4|[J4 J4']]; [left; lia|right; lia].
  - lia.
  - lia.
  - split_and!; [done|done|done|].
    destruct (copy_loop _ _ _ _ _ _) as [[c|e] st']; cbn [fst snd] in *; [|done].
    destruct I4 as (t' & T1 & T2). exists t'. split; [lia|done].
Qed.
End Copy.

(** ** The whole read *)

(** A reader's result: [t] records from index [i] on, appended to the output. *)
Definition read_result (rs : Run) (base : Z) (i t : nat) (budget : Z) (pre : bytes) (rr : ReadResult)
    (out : ByteBuffer) : Prop :=
  (i + t ≤ length rs)%nat ∧ rr_base_offset rr = base + Z.of_nat i ∧ rr_record_count rr = Z.of_nat t ∧
  rr_bytes rr = zlen (run_bytes (take t (drop i rs))) ∧
  buffer_wf out ∧ Readable out = pre ++ run_bytes (take t (drop i rs)) ∧
  (rr_bytes rr ≤ budget ∨ (t ≤ 1)%nat) ∧
  (reached_end rr = true ↔ (i + t)%nat = length rs) ∧ may_stop rs i budget t.

Lemma copied_bytes rs i t : pos_of rs (i + t) - pos_of rs i = zlen (run_bytes (take t (drop i rs))).
Proof. rewrite pos_of_drop. unfold pos_of at 2. lia. Qed.

Lemma seg_inv_lookup f s rs (r : Result ReadResult) P :
  seg_inv s rs → looked_up (seg_file s) f r P → seg_inv (with_file f s) rs.
Proof.
  intros Hinv (Hc & _). apply seg_inv_file; [done| |]; rewrite Hc; [apply (inv_content _ _ Hinv)|apply (inv_fits _ _ Hinv)].
Qed.

Lemma Segment_Read_spec rs s out i budget :
  seg_inv s rs → records_fit_lookup rs → buffer_wf out → (i < length rs)%nat → 0 ≤ budget →
  let r := Segment_Read (base_offset s + Z.of_nat i) budget (s, out) in
  ∃ f, r.2.1 = with_file f s ∧
    looked_up (seg_file s) f r.1 (λ rr, ∃ t, read_result rs (base_offset s) i t budget (Readable out) rr r.2.2).
Proof.
  intros Hinv Hmax Hwf Hi Hbud. unfold Segment_Read, sbind, sget, szoom. cbn [fst snd].
  pose proof (inv_next _ _ Hinv) as HN. pose proof (inv_end _ _ Hinv) as HE. rewrite HN.
  destruct (Z.leb_spec (base_offset s + zlen rs) (base_offset s + Z.of_nat i)); [unfold zlen in *; lia|].
  destruct (PositionFor_spec rs s i Hinv Hmax Hi) as (f1 & Hf1 & L1).
  cbn [fst snd]. destruct (PositionFor (base_offset s + Z.of_nat i) s) as [[p|e] s1]; cbn [fst snd] in *; subst s1.
  2:{ exists f1. split; [done|]. exact L1. }
  destruct L1 as (Lc & Ls & Lq & ->). cbn [fst snd seg_file with_file].
  replace (base_offset s + zlen rs - (base_offset s + Z.of_nat i)) with (Z.of_nat (length rs - i)) by (unfold zlen; lia).
  rewrite Nat2Z.id.
  pose proof (copy_loop_run rs (base_offset s) i budget (Readable out) (inv_run _ _ Hinv)
    (S (length rs - i)) 0 f1 out) as HC.
  unfold copied in HC at 1. rewrite Nat.add_0_r, Z.sub_diag in HC. change (Z.of_nat 0) with 0 in HC.
  specialize (HC ltac:(rewrite Lc, <- HE; apply (inv_content _ _ Hinv))
    ltac:(rewrite Lc, <- HE; apply (inv_fits _ _ Hinv))
    ltac:(split; [done|by rewrite take_0, app_nil_r]) ltac:(left; rewrite Nat.add_0_r; lia) ltac:(lia) ltac:(lia)).
  rewrite HE. destruct (copy_loop _ _ _ _ _ _) as [[c|e] [f2 out2]]; cbn [fst snd] in *; exists f2;
    (split; [done|]); apply (looked_up_trans _ f1); try done.
  destruct HC as (C1 & C2 & C3 & t & T1 & T2 & -> & [T4 T4'] & T5 & T6). split_and!; [done..|]. exists t.
  unfold read_result; cbn. rewrite copied_bytes. unfold in_budget in T5. rewrite copied_bytes in T5.
  split_and!; try done. rewrite Z.leb_le. unfold zlen. lia.
Qed.
