(* ===== verification/SegmentTheorems.v ===== *)
(** * SegmentTheorems: the contract of a log segment

    Truncation, syncing and file names, and the statements of what appends, reads,
    truncations and syncs promise, for any behaviour of the operating system. *)
From S2P Require Import Prelude Status Endian Crc32c Buffer Types Text Codec Frame Record FileUtil Search OffsetIndex Quiet Segment SegmentSpec Recovery SegmentOps SegmentRead.

(** ** Truncation *)

Lemma pos_of_take rs i k : (k ≤ i)%nat → pos_of (take i rs) k = pos_of rs k.
Proof. intros. unfold pos_of. by rewrite take_take, Nat.min_l. Qed.

Lemma index_ok_truncate base rs ix i :
  index_ok base rs ix → (i ≤ length rs)%nat →
  index_ok base (take i rs) (OffsetIndex_TruncateFrom (base + Z.of_nat i) ix).2.
Proof.
  intros (Hwf & Hb & He) Hi.
  destruct (OffsetIndex_TruncateFrom_spec (base + Z.of_nat i) ix Hwf) as (Hwf' & Hb' & Hin).
  split; [done|]. split; [congruence|]. intros e [Hin' Hlt]%Hin. rewrite Hb in Hlt.
  destruct (He e Hin') as [_ Hp]. pose proof (entry_nonneg _ _ Hwf Hin'). split.
  - unfold zlen. rewrite length_take. lia.
  - rewrite Hp, pos_of_take; [done|lia].
Qed.

(** What the segment's syncs have secured, in the mode it is configured for: everything below
    [synced_position], as long as no sync has failed. *)
Definition seg_secured (s : Segment) : bytes := covered (sync_mode (seg_options s)) (durable (seg_file s)).
Definition sync_intact (s : Segment) : Prop := sync_failed (durable (seg_file s)) = false.
Definition seg_durable (s : Segment) (rs : Run) : Prop :=
  0 ≤ synced_position s ≤ zlen (run_bytes rs) ∧
  (sync_intact s → ztake (synced_position s) (seg_secured s) = ztake (synced_position s) (run_bytes rs)).

Lemma ztake_run_prefix n m (d b : bytes) : n ≤ m → ztake m d = ztake m b → ztake n d = ztake n b.
Proof.
  intros Hn HE. apply (f_equal (ztake n)) in HE. by rewrite !ztake_ztake, !Z.min_l in HE by done.
Qed.

Lemma truncated_content n f f' :
  0 ≤ n ≤ zlen (content f) → content f' = vector_resize n (content f) →
  ztake n (content f') = ztake n (content f) ∧ zlen (content f') = n.
Proof.
  intros Hn Hc. rewrite Hc, zlen_vector_resize by lia. split; [|done].
  unfold vector_resize. rewrite ztake_app_le by (rewrite zlen_ztake; lia). by rewrite ztake_ztake, Z.min_l.
Qed.

(** The steps that follow once the new end [pos_of rs i] is known. *)
Lemma cut_files rs s f i offset :
  seg_inv s rs → content f = content (seg_file s) → same_file (seg_file s) f →
  (i ≤ length rs)%nat → offset = base_offset s + Z.of_nat i →
  ∀ finish,
  let r := (in_file (Truncate (pos_of rs i)) ;;;
            in_index (OffsetIndex_TruncateFrom offset) ;;;
            in_time_index (TimeIndex_TruncateFrom offset) ;;; smod finish) (with_file f s) in
  match r.1 with
  | Ok _ => ∃ f' ix ti, r.2 = finish (with_time_index ti (with_index ix (with_file f' (with_file f s)))) ∧
      same_file (seg_file s) f' ∧ ztake (pos_of rs i) (content f') = run_bytes (take i rs) ∧
      zlen (content f') = pos_of rs i ∧ index_ok (base_offset s) (take i rs) ix
  | Err _ => True
  end.
Proof.
  intros Hinv Hc Hsf Hi Hoff finish. unfold sbind, in_file, in_index, in_time_index, szoom. cbn [seg_file with_file].
  pose proof (Truncate_spec (pos_of rs i) f) as [[HT1 HT2] HT].
  destruct (Truncate _ f) as [[[]|e] f']; cbn [fst snd] in *; [|done].
  cbn [seg_index with_file]. rewrite Hoff.
  pose proof (index_ok_truncate _ _ _ i (inv_index _ _ Hinv) Hi) as HI.
  destruct (OffsetIndex_TruncateFrom _ (seg_index s)) as [[[]|e] ix]; cbn [fst snd] in *; [|done].
  cbn [seg_time_index with_file with_index].
  destruct (TimeIndex_TruncateFrom _ (seg_time_index s)) as [[[]|e] ti]; cbn [fst snd smod]; [|done].
  exists f', ix, ti. split; [done|]. destruct Hsf as [Hd Hv]. split; [split; congruence|].
  pose proof (pos_of_le rs i). pose proof (inv_fits _ _ Hinv) as Hfit. rewrite (inv_end _ _ Hinv) in Hfit.
  rewrite Hc in HT. destruct (truncated_content (pos_of rs i) (seg_file s) f' ltac:(lia) HT) as [HC HL].
  split_and!; [|done|done]. rewrite HC. pose proof (inv_content _ _ Hinv) as Hpre.
  apply (f_equal (ztake (pos_of rs i))) in Hpre. rewrite ztake_ztake, Z.min_l in Hpre by (rewrite (inv_end _ _ Hinv); lia).
  rewrite Hpre, (run_bytes_split i rs). by apply ztake_app.
Qed.

Lemma seg_inv_cut rs s s' i :
  seg_inv s rs → (i ≤ length rs)%nat → end_position s' = pos_of rs i →
  ztake (pos_of rs i) (content (seg_file s')) = run_bytes (take i rs) →
  zlen (content (seg_file s')) = pos_of rs i → base_offset s' = base_offset s →
  next_offset s' = base_offset s + Z.of_nat i → index_ok (base_offset s) (take i rs) (seg_index s') →
  0 ≤ last_indexed_position s' ≤ pos_of rs i → seg_inv s' (take i rs).
Proof.
  intros [I1 I2 I3 I4 I5 I6 I7 I8 I9] Hi He Hc Hl Hb Hn Hix Hli. pose proof (pos_of_le rs i).
  constructor; rewrite ?He, ?Hb; try done.
  - lia.
  - by apply run_ok_take.
  - by apply consecutive_take.
  - rewrite Hn. unfold zlen. rewrite length_take. lia.
  - change (zlen (run_bytes (take i rs))) with (pos_of rs i). lia.
Qed.

Lemma seg_durable_cut rs s s' i :
  seg_durable s rs → durable (seg_file s') = durable (seg_file s) → seg_options s' = seg_options s →
  synced_position s' = Z.min (pos_of rs i) (synced_position s) → seg_durable s' (take i rs).
Proof.
  intros [Hs Hd] Hdur Hopt Hsy. pose proof (pos_of_le rs i). unfold seg_durable, sync_intact, seg_secured in *. rewrite Hsy, Hdur, Hopt.
  change (zlen (run_bytes (take i rs))) with (pos_of rs i). split; [lia|]. intros Hin. specialize (Hd Hin).
  rewrite (ztake_run_prefix _ (synced_position s) _ (run_bytes rs)) by (done || lia).
  rewrite (run_bytes_split i rs). rewrite ztake_app_le; [done|]. change (zlen (run_bytes (take i rs))) with (pos_of rs i). lia.
Qed.

(** The two ways a truncation proceeds, as one operation on the files. *)
Definition cut (n offset : Z) (finish : Segment → Segment) : SR Segment unit :=
  in_file (Truncate n) ;;; in_index (OffsetIndex_TruncateFrom offset) ;;;
  in_time_index (TimeIndex_TruncateFrom offset) ;;; smod finish.
Definition cut_all (s : Segment) : Segment :=
  with_preallocated 0 (with_last_indexed 0 (with_synced 0 (with_extent 0 (base_offset s) 0 (max_timestamp s) s))).
Definition cut_at (n offset : Z) (s : Segment) : Segment :=
  with_preallocated n (with_last_indexed (LastIndexedPosition (seg_index s))
    (with_synced (if n <? synced_position s then n else synced_position s)
       (with_extent n offset (offset - base_offset s) (max_timestamp s) s))).

Lemma Segment_TruncateFrom_eq offset s :
  Segment_TruncateFrom offset s =
  if next_offset s <=? offset then (Ok tt, s)
  else if offset <=? base_offset s then cut 0 (base_offset s) cut_all s
  else match PositionFor offset s with
       | (Ok p, s1) => cut p offset (cut_at p offset) s1
       | (Err e, s1) => (Err e, s1)
       end.
Proof.
  unfold Segment_TruncateFrom. rewrite (sbind_ok sget _ s s s eq_refl).
  destruct (_ <=? _); [done|]. by destruct (_ <=? _).
Qed.

Lemma cut_quiet n offset finish :
  (∀ s, seg_quiet s → seg_quiet (finish s)) → calm seg_quiet (cut n offset finish).
Proof.
  intros Hfin. apply calm_bind; [auto with pulse|intros _]. apply calm_bind; [auto with pulse|intros _].
  apply calm_bind; [auto with pulse|intros _]. by apply calm_mod.
Qed.

Lemma Segment_TruncateFrom_quiet rs s offset :
  seg_inv s rs → records_fit_lookup rs → seg_quiet s →
  is_ok (Segment_TruncateFrom offset s).1 = true ∧ seg_quiet (Segment_TruncateFrom offset s).2.
Proof.
  intros Hinv Hmax Hq. rewrite Segment_TruncateFrom_eq. rewrite (inv_next _ _ Hinv).
  destruct (Z.leb_spec (base_offset s + zlen rs) offset); [done|].
  destruct (Z.leb_spec offset (base_offset s)); [by apply cut_quiet|].
  assert (Hoff : offset = base_offset s + Z.of_nat (Z.to_nat (offset - base_offset s))) by lia.
  destruct (PositionFor_spec rs s (Z.to_nat (offset - base_offset s)) Hinv Hmax) as (f & Hf & _ & _ & Lq & L);
    [unfold zlen in *; lia|].
  rewrite <- Hoff in *. destruct Hq as (Q1 & Q2 & Q3).
  destruct (PositionFor offset s) as [[p|e] s1]; cbn [fst snd] in *; subst s1; [|by destruct L].
  apply cut_quiet; [done|]. split_and!; auto.
Qed.

Lemma Segment_TruncateFrom_spec rs s offset :
  seg_inv s rs → records_fit_lookup rs →
  let r := Segment_TruncateFrom offset s in
  let kept := take (Z.to_nat (offset - base_offset s)) rs in
  is_ok r.1 = true →
  seg_inv r.2 kept ∧ base_offset r.2 = base_offset s ∧
  (seg_durable s rs → seg_durable r.2 kept ∧ synced_position r.2 = Z.min (synced_position s) (zlen (run_bytes kept))).
Proof.
  intros Hinv Hmax r kept. unfold r. rewrite Segment_TruncateFrom_eq. rewrite (inv_next _ _ Hinv).
  pose proof (zlen_nonneg rs). unfold kept. clear r kept.
  destruct (Z.leb_spec (base_offset s + zlen rs) offset) as [Hhi|Hhi].
  { intros _. cbn [fst snd]. rewrite take_ge by (unfold zlen in *; lia). split_and!; [done|done|].
    intros Hdur. split; [done|]. destruct Hdur. lia. }
  destruct (Z.leb_spec offset (base_offset s)) as [Hlo|Hlo].
  - replace (Z.to_nat (offset - base_offset s)) with 0%nat by lia.
    pose proof (cut_files rs s (seg_file s) 0 (base_offset s) Hinv eq_refl ltac:(done) ltac:(lia) ltac:(lia) cut_all) as HC.
    rewrite with_file_id, pos_of_0 in HC. fold (cut 0 (base_offset s) cut_all) in HC.
    destruct (cut 0 (base_offset s) cut_all s) as [[[]|e] s']; [|done]. intros _.
    cbn [fst snd] in *. destruct HC as (f' & ix & ti & -> & [Hd _] & Hc & Hl & Hi).
    split_and!; [|done|].
    + apply (seg_inv_cut rs s _ 0); try done; cbn; rewrite ?pos_of_0; lia.
    + intros Hdur. cbn. split; [|rewrite take_0; change (zlen (run_bytes [])) with 0; destruct Hdur; lia].
      apply (seg_durable_cut rs s _ 0); [done|done|done|]. cbn. rewrite pos_of_0. destruct Hdur as [? _]. lia.
  - set (i := Z.to_nat (offset - base_offset s)).
    assert (Hoff : offset = base_offset s + Z.of_nat i) by (unfold i; lia).
    assert (Hi : (i < length rs)%nat) by (unfold zlen in *; lia).
    destruct (PositionFor_spec rs s i Hinv Hmax Hi) as (f & Hf & L). rewrite <- Hoff in *.
    destruct (PositionFor offset s) as [[p|e] s1]; cbn [fst snd] in *; subst s1; [|done].
    destruct L as (L1 & L2 & L3 & ->).
    pose proof (cut_files rs s f i offset Hinv L1 L2 ltac:(lia) Hoff (cut_at (pos_of rs i) offset)) as HC.
    fold (cut (pos_of rs i) offset (cut_at (pos_of rs i) offset)) in HC.
    destruct (cut _ _ _ (with_file f s)) as [[[]|e] s']; [|done]. intros _.
    cbn [fst snd] in *. destruct HC as (f' & ix & ti & -> & [Hd _] & Hc & Hl & Hix).
    split_and!; [|done|].
    + apply (seg_inv_cut rs s _ i); try done; cbn; [lia|].
      change (pos_of rs i) with (zlen (run_bytes (take i rs))). by apply (LastIndexedPosition_le (base_offset s)).
    + intros Hdur. cbn. fold (pos_of rs i). split; [|destruct (Z.ltb_spec (pos_of rs i) (synced_position s)); lia].
      apply (seg_durable_cut rs s _ i); [done|done|done|]. cbn.
      destruct (Z.ltb_spec (pos_of rs i) (synced_position s)); lia.
Qed.

(** ** Syncing *)

Lemma index_sync_same {E} (ix : SparseIndex E) :
  let r := index_sync ix in entries r.2 = entries ix ∧ ix_base r.2 = ix_base ix ∧
    content (ix_file r.2) = content (ix_file ix) ∧ (is_ok r.1 = false → ∃ e, r.1 = Err e ∧ e ≠ kInternal).
Proof.
  unfold index_sync, sbind, sget. destruct (negb _); [by split_and!|]. unfold on_file, szoom.
  pose proof (Sync_spec kData (ix_file ix)) as (H1 & _ & H3). change (SyncFile kData) with SyncData in *.
  destruct (SyncData (ix_file ix)) as [[[]|e] f]; cbn [fst snd] in *; [by split_and!|].
  split_and!; try done. intros _. exists e. by destruct H3.
Qed.

Lemma index_ok_sync base rs ix : index_ok base rs ix → index_ok base rs (index_sync ix).2.
Proof.
  intros ((H1 & H2 & H3) & H4 & H5). destruct (index_sync_same ix) as (E1 & E2 & E3 & _).
  unfold index_ok, oi_wf, on_disk. rewrite E1, E2, E3. destruct H3. by split_and!.
Qed.

Definition in_bytes (s : Segment) (rs : Run) : Prop :=
  sync_intact s → ztake (zlen (run_bytes rs)) (seg_secured s) = run_bytes rs.

(** After a sync every record below the end is secured; a failed sync loses nothing of the
    segment. *)
Lemma Segment_Sync_spec rs s :
  seg_inv s rs → seg_durable s rs →
  let r := Segment_Sync s in
  seg_inv r.2 rs ∧ seg_durable r.2 rs ∧ base_offset r.2 = base_offset s ∧
  match r.1 with Ok _ => in_bytes r.2 rs ∧ synced_position r.2 = end_position r.2 | Err e => e ≠ kInternal end.
Proof.
  intros Hinv Hdur. pose proof (inv_end _ _ Hinv) as HE. pose proof (zlen_nonneg (run_bytes rs)).
  unfold Segment_Sync. rewrite (sbind_ok sget _ s s s eq_refl).
  destruct (Z.eqb_spec (end_position s) (synced_position s)) as [HS|HS].
  { cbn [sret fst snd]. split_and!; try done. destruct Hdur as [_ Hd]. intros Hin. rewrite <- HE, HS, (Hd Hin).
    apply ztake_all. lia. }
  unfold sbind, in_file, in_index, in_time_index, szoom, smod.
  pose proof (Sync_spec (sync_mode (seg_options s)) (seg_file s)) as (S1 & S2 & S3).
  destruct (SyncFile _ (seg_file s)) as [[[]|e] f1]; cbn [fst snd] in *.
  2:{ destruct S3 as [S3 S4]. split; [|split; [|done]].
      - apply seg_inv_file; [done|rewrite S1; apply (inv_content _ _ Hinv)|rewrite S1; apply (inv_fits _ _ Hinv)].
      - split; [apply Hdur|]. unfold sync_intact. cbn. by rewrite S3. }
  assert (Hb : sync_failed (durable f1) = false → ztake (zlen (run_bytes rs)) (covered (sync_mode (seg_options s)) (durable f1)) = run_bytes rs).
  { destruct S3 as [S3 S4]. rewrite S3. intros Hin. rewrite (S4 Hin), <- HE. apply (inv_content _ _ Hinv). }
  assert (Hstep : ∀ ix ti sp, index_ok (base_offset s) rs ix → 0 ≤ sp ≤ zlen (run_bytes rs) →
    let s1 := with_synced sp (with_time_index ti (with_index ix (with_file f1 s))) in
    seg_inv s1 rs ∧ seg_durable s1 rs).
  { intros ix ti sp Hix Hsp s1. split.
    - destruct Hinv as [I1 I2 I3 I4 I5 I6 I7 I8 I9]. constructor; cbn; try done; by rewrite S1.
    - split; [done|]. intros Hin. apply (ztake_run_prefix _ (zlen (run_bytes rs))); [cbn; lia|].
      unfold seg_secured. cbn. by rewrite (Hb Hin), ztake_all by lia. }
  cbn [seg_index with_file]. pose proof (index_ok_sync _ _ _ (inv_index _ _ Hinv)) as HI.
  destruct (index_sync_same (seg_index s)) as (_ & _ & _ & HIe).
  destruct (index_sync (seg_index s)) as [[[]|e] ix]; cbn [fst snd] in *.
  2:{ destruct HIe as (e' & [= <-] & He'); [done|].
      destruct (Hstep ix (seg_time_index s) (synced_position s) HI) as [H1 H2]; [apply Hdur|].
      split_and!; [exact H1|exact H2|done|done]. }
  cbn [seg_time_index with_file with_index].
  destruct (index_sync_same (seg_time_index s)) as (_ & _ & _ & HTe).
  destruct (index_sync (seg_time_index s)) as [[[]|e] ti]; cbn [fst snd] in *.
  2:{ destruct HTe as (e' & [= <-] & He'); [done|].
      destruct (Hstep ix ti (synced_position s) HI) as [H1 H2]; [apply Hdur|].
      split_and!; [exact H1|exact H2|done|done]. }
  destruct (Hstep ix ti (end_position s) HI) as [H1 H2]; [lia|].
  split_and!; [exact H1|exact H2|done|exact Hb|done].
Qed.

Lemma Segment_Sync_quiet : calm seg_quiet Segment_Sync.
Proof.
  apply calm_bind; [apply calm_get|]. intros s. cbv zeta. destruct (_ =? _); [apply calm_ret|].
  apply calm_bind; [auto with pulse|intros _]. apply calm_bind; [auto with pulse|intros _].
  apply calm_bind; [auto with pulse|intros _]. by apply calm_mod.
Qed.

(** ** The contract *)

(** A segment's file name determines its base offset: every non-negative 64-bit
    offset is printed as exactly twenty digits, and parsing the name gives it back. *)
Theorem segment_name_roundtrip (base : Z) :
  0 ≤ base < 2 ^ 63 →
  zlen (FormatBaseOffset base) = kBaseOffsetDigits ∧ ParseBaseOffset (FormatBaseOffset base) = Some base.
Proof.
  intros Hb. unfold FormatBaseOffset, to_string. destruct (Z.ltb_spec base 0); [lia|].
  set (fuel := (Z.to_nat (Z.log2_up base) + 1)%nat).
  destruct (digits_spec fuel base) as (Hd & Hv & Hne); [split; [lia|by apply log_fuel_enough]|lia|].
  assert (Hs : zlen (digits fuel base) ≤ 19) by (apply digits_short; [|lia]; split; [lia|];
    apply Z.lt_trans with (2 ^ 63); [lia|done]).
  unfold kBaseOffsetDigits in *. set (l := replicate _ 48 ++ digits fuel base).
  assert (HL : zlen l = 20).
  { unfold l. rewrite zlen_app. unfold zlen at 1. rewrite length_replicate. lia. }
  split; [done|]. unfold ParseBaseOffset, kBaseOffsetDigits. rewrite HL. cbn [Z.eqb Pos.eqb negb].
  assert (HV : decimal 0 l = base) by (unfold l; by rewrite decimal_zeros).
  rewrite from_chars_int_digits, HV; [done| | |lia].
  - apply Forall_app. split; [|done]. apply Forall_replicate. unfold is_digit. lia.
  - intros HE. by rewrite HE in HL.
Qed.

Lemma segment_name_roundtrip_witness :
  ParseBaseOffset (FormatBaseOffset 12345) = Some 12345 ∧
  FormatBaseOffset 12345 = str "00000000000000012345".
Proof. split; [apply (segment_name_roundtrip 12345); lia|by vm_compute]. Defined.

(** Appending a batch to a segment, in one buffer or as a vector of chunks, adds
    exactly the batch's records to the segment, or, when a write fails, leaves the
    segment's records as they were whatever part of the batch reached the file;
    nothing becomes durable by it, and without I/O failures both succeed. *)
Theorem Segment_append (rs new : Run) (chunks : list bytes) (s : Segment) (cnt ts : Z) :
  seg_inv s rs → batch_after (base_offset s) rs new → concat chunks = run_bytes new →
  let base := base_offset s + zlen rs in
  let r1 := AppendEncoded (concat chunks) base (base + zlen new - 1) cnt ts s in
  let r2 := AppendEncodedVectored chunks base (base + zlen new - 1) cnt ts s in
  appended rs new s r1.2 r1.1 ∧ appended rs new s r2.2 r2.1 ∧
  (seg_quiet s → is_ok r1.1 = true ∧ is_ok r2.1 = true).
Proof.
  intros Hinv Hnew Hch base r1 r2. split_and!.
  - unfold r1. rewrite Hch. by apply AppendEncoded_spec.
  - by apply AppendEncodedVectored_spec.
  - intros Hq. split; [by apply (AppendEncoded_quiet rs)|by apply (AppendEncodedVectored_quiet rs)].
Qed.

Lemma fresh_segment_inv base : seg_inv (fresh_segment [] base) [].
Proof.
  constructor; try done.
  - by apply Forall_nil.
  - cbn. unfold zlen; cbn. lia.
  - split; [apply empty_index_wf|]. split; [done|]. by intros e He%elem_of_nil.
Qed.
Lemma fresh_segment_quiet log base : seg_quiet (fresh_segment log base).
Proof. by repeat split. Qed.
Lemma example_batch : batch_after 0 [] example_run.
Proof.
  split; [done|]. split; [apply example_run_ok|]. split.
  - intros i r. destruct i as [|i]; [by intros [= <-]|done].
  - by vm_compute.
Qed.

Lemma Segment_append_witness :
  is_ok (AppendEncoded (run_bytes example_run) 0 0 1 7 (fresh_segment [] 0)).1 = true.
Proof.
  destruct (Segment_append [] example_run [run_bytes example_run] (fresh_segment [] 0) 1 7) as (_ & _ & H).
  - apply fresh_segment_inv.
  - apply example_batch.
  - cbn [concat]. by rewrite app_nil_r.
  - cbn [concat] in H. rewrite app_nil_r in H. apply H, fresh_segment_quiet.
Defined.

(** A segment holding one record. *)
Definition example_segment : Segment :=
  (AppendEncoded (run_bytes example_run) (0 + 0) (0 + 0 + 1 - 1) 1 7 (fresh_segment [] 0)).2.
Lemma example_segment_inv : seg_inv example_segment example_run.
Proof.
  destruct (AppendEncoded_spec [] example_run (fresh_segment [] 0) 1 7 (fresh_segment_inv 0) example_batch)
    as [(_ & _ & _ & _ & _ & HA) _].
  destruct (AppendEncoded_quiet [] (fresh_segment [] 0) (0 + 0) (0 + 0 + 1 - 1) 1 7 (fresh_segment_inv 0)
    (fresh_segment_quiet [] 0) (run_bytes example_run)) as [HO _].
  unfold example_segment. change (base_offset (fresh_segment [] 0) + zlen (@nil (bytes * LogRecord))) with (0 + 0) in HA.
  change (zlen example_run) with 1 in HA. destruct (AppendEncoded _ _ _ 1 7 _) as [[]]; done.
Qed.
Lemma example_fits_lookup : records_fit_lookup example_run.
Proof. constructor; [by vm_compute|constructor]. Qed.

(** A read returns whole records, exactly the ones asked for: starting at an
    offset of the segment it appends to the output the bytes of the consecutive
    records from that offset on, reports their number and size, exceeds the byte
    budget only when a single record does, returns at least one record when the
    budget is positive, and stops early only at the end of the segment, when the
    next record would exceed the budget, or in front of a record larger than
    1 MiB.  Offsets past the end give an empty result, offsets before the segment
    an error; only a failing read makes a valid request fail. *)
Theorem Segment_read_exact (rs : Run) (s : Segment) (out : ByteBuffer) (from budget : Z) :
  seg_inv s rs → records_fit_lookup rs → buffer_wf out → 0 ≤ budget →
  let r := Segment_Read from budget (s, out) in
  let i := Z.to_nat (from - base_offset s) in
  (base_offset s + zlen rs ≤ from → r = (Ok (mkReadResult from 0 0 true), (s, out))) ∧
  (from < base_offset s → 0 < zlen rs → r.1 = Err kOutOfRange) ∧
  (base_offset s ≤ from < base_offset s + zlen rs →
   seg_inv r.2.1 rs ∧
   match r.1 with
   | Ok rr => ∃ t, read_result rs (base_offset s) i t budget (Readable out) rr r.2.2 ∧
                   (0 < budget → (0 < t)%nat)
   | Err e => e ≠ kInternal ∧ ¬ seg_quiet s
   end).
Proof.
  intros Hinv Hmax Hwf Hb r i. pose proof (inv_next _ _ Hinv) as HN. split_and!.
  - intros Hge. unfold r, Segment_Read. rewrite (sbind_ok sget _ (s, out) (s, out) (s, out) eq_refl). cbn [fst].
    rewrite HN. by destruct (Z.leb_spec (base_offset s + zlen rs) from); [|lia].
  - intros Hlt Hne. unfold r, Segment_Read. rewrite (sbind_ok sget _ (s, out) (s, out) (s, out) eq_refl). cbn [fst].
    rewrite HN. destruct (Z.leb_spec (base_offset s + zlen rs) from); [lia|].
    unfold sbind, szoom. cbn [fst]. rewrite (PositionFor_outside rs s from Hinv) by (by left). done.
  - intros Hin. assert (Hfrom : from = base_offset s + Z.of_nat i) by (unfold i; lia).
    destruct (Segment_Read_spec rs s out i budget Hinv Hmax Hwf) as (f & Hs & HL); [unfold zlen in *; lia|done|].
    rewrite <- Hfrom in Hs, HL. fold r in Hs, HL. rewrite Hs. split; [by apply (seg_inv_lookup f s rs r.1 _ Hinv HL)|].
    destruct HL as (_ & _ & _ & HR). destruct r.1 as [rr|e].
    + destruct HR as (t & HR). exists t. split; [done|]. intros Hpos. destruct t; [exfalso|lia].
      destruct HR as (_ & _ & _ & _ & _ & _ & _ & _ & [Hs'|[Hs'|[Hs' _]]]); [unfold zlen in *; lia| |lia].
      rewrite Nat.add_0_r, Z.sub_diag in Hs'. lia.
    + destruct HR as [He Hnq]. split; [done|]. by intros (Hq & _).
Qed.

Lemma Segment_read_exact_witness :
  match (Segment_Read 0 100 (example_segment, emptyBuffer)).1 with
  | Ok rr => ∃ t, read_result example_run (base_offset example_segment) 0 t 100 (Readable emptyBuffer) rr
                    (Segment_Read 0 100 (example_segment, emptyBuffer)).2.2 ∧ (0 < 100 → (0 < t)%nat)
  | Err e => e ≠ kInternal ∧ ¬ seg_quiet example_segment
  end.
Proof.
  destruct (Segment_read_exact example_run example_segment emptyBuffer 0 100) as (_ & _ & H).
  - apply example_segment_inv.
  - apply example_fits_lookup.
  - apply emptyBuffer_wf.
  - lia.
  - apply H. vm_compute. split; [discriminate|reflexivity].
Defined.

(** Truncating a segment keeps exactly the records before the given offset: all of
    them when it is past the end, none when it is at or before the base, with the
    file and the indexes cut accordingly and nothing durable lost; it succeeds
    when no system call fails. *)
Theorem Segment_truncate_exact (rs : Run) (s : Segment) (offset : Z) :
  seg_inv s rs → records_fit_lookup rs → seg_durable s rs →
  let r := Segment_TruncateFrom offset s in
  let kept := take (Z.to_nat (offset - base_offset s)) rs in
  (is_ok r.1 = true → seg_inv r.2 kept ∧ seg_durable r.2 kept ∧ base_offset r.2 = base_offset s) ∧
  (seg_quiet s → is_ok r.1 = true).
Proof.
  intros Hinv Hmax Hdur r kept. split.
  - intros Hok. destruct (Segment_TruncateFrom_spec rs s offset Hinv Hmax Hok) as (H1 & H2 & H3).
    split; [exact H1|]. split; [by apply H3|done].
  - intros Hq. by apply (Segment_TruncateFrom_quiet rs).
Qed.

Lemma fresh_durable rs base : seg_durable (fresh_segment (run_bytes rs) base) rs.
Proof. split; [cbn; zlist|]. intros _. cbn. by rewrite !ztake_0 by done. Qed.

Lemma Segment_truncate_exact_witness :
  is_ok (Segment_TruncateFrom 0 (fresh_segment [] 0)).1 = true.
Proof.
  destruct (Segment_truncate_exact [] (fresh_segment [] 0) 0) as [_ H].
  - apply fresh_segment_inv.
  - constructor.
  - apply (fresh_durable [] 0).
  - apply H, fresh_segment_quiet.
Defined.

(** A successful sync secures every record of the segment as its mode promises, unless a sync
    of it had failed before; a failed one changes neither the records nor what was secured. *)
Theorem Segment_sync_durable (rs : Run) (s : Segment) :
  seg_inv s rs → seg_durable s rs →
  let r := Segment_Sync s in
  seg_inv r.2 rs ∧ seg_durable r.2 rs ∧
  (is_ok r.1 = true → sync_intact r.2 → ztake (zlen (run_bytes rs)) (seg_secured r.2) = run_bytes rs) ∧
  (seg_quiet s → is_ok r.1 = true).
Proof.
  intros Hinv Hdur r. destruct (Segment_Sync_spec rs s Hinv Hdur) as (H1 & H2 & _ & H3). fold r in H1, H2, H3.
  split; [done|]. split; [done|]. split.
  - intros Hok. destruct r.1; [|done]. by destruct H3.
  - intros Hq. by apply Segment_Sync_quiet.
Qed.

Lemma Segment_sync_durable_witness :
  is_ok (Segment_Sync (fresh_segment [] 0)).1 = true.
Proof.
  destruct (Segment_sync_durable [] (fresh_segment [] 0)) as (_ & _ & _ & H).
  - apply fresh_segment_inv.
  - apply (fresh_durable [] 0).
  - apply H, fresh_segment_quiet.
Defined.
