(* ===== verification/PartitionLog.v ===== *)
(** * PartitionLog: the append-only log of one partition

    Models include/pulselog/storage/partition_log.h and src/storage/partition_log.cc:
    the list of segments and the policies that roll, flush, truncate and delete
    them.  What the operating system answers during a call (clocks, free space, the
    files a new segment gets, failed deletions) is the [LogEnv] of the call; the
    theorems quantify over it.  [active_] is a pointer into the segment list, here
    an index that may dangle. *)
From S2P Require Import Prelude Status Endian Buffer Types Frame Record FileUtil Search OffsetIndex Segment.
From Stdlib Require Import Mergesort Orders.

Definition kDiskCheckIntervalMs : Z := 1000.

Record FlushPolicy := mkFlushPolicy {
  sync_on_append : bool; interval_ms : Z; max_unflushed_bytes : Z; max_unflushed_records : Z }.

Record LogOptions := mkLogOptions {
  segment_bytes : Z; segment_ms : Z; lo_index_interval_bytes : Z; retention_bytes : Z;
  retention_ms : Z; min_free_disk_bytes : Z; lo_preallocate : bool; lo_write_mode : WriteMode;
  lo_sync_mode : SyncMode; flush_policy : FlushPolicy }.

Record AppendResult := mkAppendResult {
  ar_base_offset : Z; ar_last_offset : Z; ar_record_count : Z; ar_bytes : Z; ar_append_time : Z }.

Record LogReadResult := mkLogReadResult {
  lr_base : Z; lr_record_count : Z; lr_bytes : Z; lr_log_start : Z; lr_log_end : Z }.

Record LogStats := mkLogStats {
  st_log_start_offset : Z; st_log_end_offset : Z; st_flushed_offset : Z; st_total_bytes : Z;
  st_record_count : Z; st_segment_count : Z; st_flush_count : Z; st_flush_nanos_total : Z;
  st_flush_nanos_max : Z; st_roll_count : Z; st_deleted_segments : Z }.

(** Flush statistics, grouped: they are only ever written by [Flush]. *)
Record FlushStats := mkFlushStats {
  last_flush_ms : Z; flush_count : Z; flush_nanos_total : Z; flush_nanos_max : Z }.

Record PartitionLog := mkLog {
  lg_options : LogOptions; segments : list Segment; active : option nat;
  log_start_offset : Z; log_end_offset : Z; flushed_offset : Z;
  unflushed_bytes : Z; unflushed_records : Z; flush_stats : FlushStats;
  roll_count : Z; deleted_segments : Z;
  disk_check_due_ms : Z; disk_full : bool; closed : bool }.

(** What the system answers to the calls made during one operation. *)
Record LogEnv := mkLogEnv {
  env_disk_ms : Z; env_available : Result Z; env_roll_now : Z;
  env_files : Result (bool * FileHandle * FileHandle * FileHandle); env_open_now : Z;
  env_append_now : Z; env_flush_started : Z; env_flush_done : Z; env_flush_end_ms : Z }.

Definition with_segments (ss : list Segment) (l : PartitionLog) : PartitionLog :=
  mkLog (lg_options l) ss (active l) (log_start_offset l) (log_end_offset l) (flushed_offset l)
    (unflushed_bytes l) (unflushed_records l) (flush_stats l) (roll_count l) (deleted_segments l)
    (disk_check_due_ms l) (disk_full l) (closed l).
Definition with_active (a : option nat) (l : PartitionLog) : PartitionLog :=
  mkLog (lg_options l) (segments l) a (log_start_offset l) (log_end_offset l) (flushed_offset l)
    (unflushed_bytes l) (unflushed_records l) (flush_stats l) (roll_count l) (deleted_segments l)
    (disk_check_due_ms l) (disk_full l) (closed l).
Definition with_offsets (start end_ flushed : Z) (l : PartitionLog) : PartitionLog :=
  mkLog (lg_options l) (segments l) (active l) start end_ flushed
    (unflushed_bytes l) (unflushed_records l) (flush_stats l) (roll_count l) (deleted_segments l)
    (disk_check_due_ms l) (disk_full l) (closed l).
Definition with_unflushed (b r : Z) (l : PartitionLog) : PartitionLog :=
  mkLog (lg_options l) (segments l) (active l) (log_start_offset l) (log_end_offset l) (flushed_offset l)
    b r (flush_stats l) (roll_count l) (deleted_segments l) (disk_check_due_ms l) (disk_full l) (closed l).
Definition with_flush_stats (f : FlushStats) (l : PartitionLog) : PartitionLog :=
  mkLog (lg_options l) (segments l) (active l) (log_start_offset l) (log_end_offset l) (flushed_offset l)
    (unflushed_bytes l) (unflushed_records l) f (roll_count l) (deleted_segments l)
    (disk_check_due_ms l) (disk_full l) (closed l).
Definition with_counts (rolls deleted : Z) (l : PartitionLog) : PartitionLog :=
  mkLog (lg_options l) (segments l) (active l) (log_start_offset l) (log_end_offset l) (flushed_offset l)
    (unflushed_bytes l) (unflushed_records l) (flush_stats l) rolls deleted
    (disk_check_due_ms l) (disk_full l) (closed l).
Definition with_disk (due : Z) (full : bool) (l : PartitionLog) : PartitionLog :=
  mkLog (lg_options l) (segments l) (active l) (log_start_offset l) (log_end_offset l) (flushed_offset l)
    (unflushed_bytes l) (unflushed_records l) (flush_stats l) (roll_count l) (deleted_segments l)
    due full (closed l).
Definition with_closed (c : bool) (l : PartitionLog) : PartitionLog :=
  mkLog (lg_options l) (segments l) (active l) (log_start_offset l) (log_end_offset l) (flushed_offset l)
    (unflushed_bytes l) (unflushed_records l) (flush_stats l) (roll_count l) (deleted_segments l)
    (disk_check_due_ms l) (disk_full l) c.

Definition segment_options (o : LogOptions) : SegmentOptions :=
  mkSegmentOptions (segment_bytes o) (lo_index_interval_bytes o) (lo_preallocate o)
    (lo_write_mode o) (lo_sync_mode o).

(** A method of the [i]-th segment.  An index outside the list is a dangling pointer,
    on which the source's behaviour is undefined; the model stops with an error. *)
Definition at_segment {A} (i : nat) (m : SR Segment A) : SR PartitionLog A := λ l,
  match segments l !! i with
  | None => (Err kInternal, l)
  | Some s => let '(r, s') := m s in (r, with_segments (<[i := s']> (segments l)) l)
  end.
Definition the_segment (i : nat) : SR PartitionLog Segment := at_segment i sget.

(** ** Opening *)

Module ZOrder <: TotalLeBool.
Definition t := Z.
Definition leb := Z.leb.
Lemma leb_total x y : leb x y = true ∨ leb y x = true.
Proof. unfold leb. rewrite !Z.leb_le. lia. Qed.
End ZOrder.
Module ZSort := Sort ZOrder.

Definition new_log (o : LogOptions) (now_ms : Z) : PartitionLog :=
  mkLog o [] None 0 0 0 0 0 (mkFlushStats now_ms 0 0 0) 0 0 0 false false.

(** [Segment::Open(dir, base, options)] given what opening its three files answered. *)
Definition open_segment (files : Result (bool * FileHandle * FileHandle * FileHandle)) (base : Z)
    (o : SegmentOptions) (now : Z) : Result Segment :=
  match files with
  | Err e => Err e
  | Ok (existed, lf, xf, tf) =>
      match Segment_Open existed lf xf tf base o now with
      | (Ok _, s) => Ok s
      | (Err e, _) => Err e
      end
  end.

Definition combine_reports (a b : RecoveryReport) : RecoveryReport :=
  mkReport (rep_next_offset b) (valid_bytes a + valid_bytes b)
    (if truncated b then truncated_bytes a + truncated_bytes b else truncated_bytes a)
    (preallocated_bytes a + preallocated_bytes b) (records_scanned a + records_scanned b)
    (truncated a || truncated b).

(** The loop over the base offsets; [None] when a recovery did not finish. *)
Fixpoint load_loop (fuel : nat) (files : Z → Result (bool * FileHandle * FileHandle * FileHandle))
    (o : SegmentOptions) (now : Z) (bases : list Z) (combined : RecoveryReport)
    : SR PartitionLog (option RecoveryReport) :=
  match bases with
  | [] => sret (Some combined)
  | base :: rest =>
      let! s := slift (open_segment (files base) base o now) in
      match Recover fuel false s with
      | (None, _) => sret None
      | (Some (Err e), _) => sfail e
      | (Some (Ok report), s) =>
          smod (λ l, with_segments (segments l ++ [s]) l) ;;;
          load_loop fuel files o now rest (combine_reports combined report)
      end
  end.

Definition LoadSegments (fuel : nat) (listing : Result (list bytes))
    (files : Z → Result (bool * FileHandle * FileHandle * FileHandle)) (now : Z)
    : SR PartitionLog (option RecoveryReport) :=
  let! stems := slift listing in
  let bases := ZSort.sort (omap ParseBaseOffset stems) in
  let! l := sget in
  let o := segment_options (lg_options l) in
  match bases with
  | [] =>
      let! s := slift (open_segment (files 0) 0 o now) in
      smod (λ l, with_offsets 0 0 0 (with_active (Some 0%nat) (with_segments [s] l))) ;;;
      sret (Some (mkReport 0 0 0 0 0 false))
  | _ =>
      let! rep := load_loop fuel files o now bases (mkReport 0 0 0 0 0 false) in
      match rep with
      | None => sret None
      | Some rep =>
          let! l := sget in
          let last := pred (length (segments l)) in
          let! act := the_segment last in
          let! first := the_segment 0 in
          smod (λ l, with_offsets (base_offset first) (next_offset act) (next_offset act)
                       (with_active (Some last) l)) ;;;
          sret (Some rep)
      end
  end.

Definition Log_Open (fuel : nat) (o : LogOptions) (now_ms : Z) (ensure : Result unit) (listing : Result (list bytes))
    (files : Z → Result (bool * FileHandle * FileHandle * FileHandle)) (now : Z)
    : Result (option RecoveryReport) * PartitionLog :=
  (slift ensure ;;; LoadSegments fuel listing files now) (new_log o now_ms).

(** ** Rolling *)

Definition CheckDiskSpace (e : LogEnv) : SR PartitionLog unit :=
  let! l := sget in
  if env_disk_ms e <? disk_check_due_ms l then
    (if disk_full l then sfail kResourceExhausted else sret tt)
  else
    smod (λ l, with_disk (env_disk_ms e + kDiskCheckIntervalMs) (disk_full l) l) ;;;
    match env_available e with
    | Err _ => smod (λ l, with_disk (disk_check_due_ms l) false l)
    | Ok available =>
        let full := i64 available <? min_free_disk_bytes (lg_options l) in
        smod (λ l, with_disk (disk_check_due_ms l) full l) ;;;
        if full then sfail kResourceExhausted else sret tt
    end.

Definition RollSegment (e : LogEnv) : SR PartitionLog unit :=
  let! l := sget in
  let! next_base :=
    (match active l with
     | Some i => let! s := the_segment i in sret (next_offset s)
     | None => sret (log_end_offset l)
     end) in
  let! fresh := slift (open_segment (env_files e) next_base (segment_options (lg_options l)) (env_open_now e)) in
  (match active l with Some i => at_segment i Segment_Sync | None => sret tt end) ;;;
  smod (λ l, with_counts (roll_count l + 1) (deleted_segments l)
               (with_active (Some (length (segments l))) (with_segments (segments l ++ [fresh]) l))).

Definition MaybeRoll (e : LogEnv) (incoming_bytes : Z) : SR PartitionLog unit :=
  let! l := sget in
  match active l with
  | None => sfail kInternal
  | Some i =>
      let! s := the_segment i in
      let o := lg_options l in
      let size := end_position s in
      let by_size := (0 <? segment_bytes o) && (segment_bytes o <? i64 (size + incoming_bytes)) && (0 <? size) in
      let by_age := (0 <? segment_ms o) && (0 <? size)
                    && (segment_ms o <=? env_roll_now e - created_at_ms s) in
      let by_limit := 0xFFFFFFFF <? size + incoming_bytes in
      if negb by_size && negb by_age && negb by_limit then sret tt else RollSegment e
  end.

(** ** Flushing *)

Fixpoint sync_segments (ss : list Segment) : Result unit * list Segment :=
  match ss with
  | [] => (Ok tt, [])
  | s :: rest =>
      if synced_position s <? end_position s then
        match Segment_Sync s with
        | (Err e, s) => (Err e, s :: rest)
        | (Ok _, s) => let '(r, rest) := sync_segments rest in (r, s :: rest)
        end
      else let '(r, rest) := sync_segments rest in (r, s :: rest)
  end.

(** What a flush reads before its system calls: counters, then the target offset. *)
Record FlushTicket := mkTicket { bytes_covered : Z; records_covered : Z; flush_target : Z }.
Definition flush_begin (l : PartitionLog) : FlushTicket :=
  mkTicket (unflushed_bytes l) (unflushed_records l) (log_end_offset l).
Definition flush_sync : SR PartitionLog unit := λ l,
  let '(r, ss) := sync_segments (segments l) in (r, with_segments ss l).
Definition flush_end (e : LogEnv) (t : FlushTicket) (l : PartitionLog) : PartitionLog :=
  let elapsed := u64 (env_flush_done e - env_flush_started e) in
  let f := flush_stats l in
  with_flush_stats (mkFlushStats (env_flush_end_ms e) (flush_count f + 1) (flush_nanos_total f + elapsed)
                      (Z.max (flush_nanos_max f) elapsed))
    (with_unflushed (unflushed_bytes l - bytes_covered t) (unflushed_records l - records_covered t)
       (with_offsets (log_start_offset l) (log_end_offset l) (flush_target t) l)).

Definition Flush (e : LogEnv) : SR PartitionLog unit :=
  let! l := sget in
  let t := flush_begin l in
  if flush_target t =? flushed_offset l then sret tt else
  flush_sync ;;;
  smod (flush_end e t).

Definition NeedsFlush (now_ms : Z) (l : PartitionLog) : bool :=
  let p := flush_policy (lg_options l) in
  if sync_on_append p then false else
  if unflushed_bytes l =? 0 then false else
  if (0 <? max_unflushed_bytes p) && (max_unflushed_bytes p <=? unflushed_bytes l) then true else
  if (0 <? max_unflushed_records p) && (max_unflushed_records p <=? unflushed_records l) then true else
  (0 <? interval_ms p) && (interval_ms p <=? now_ms - last_flush_ms (flush_stats l)).

(** ** Appending *)

Definition FinalizeAppend (e : LogEnv) (r : AppendResult) : SR PartitionLog unit :=
  let! l := sget in
  smod (λ l, with_unflushed (unflushed_bytes l + ar_bytes r) (unflushed_records l + ar_record_count r)
               (with_offsets (log_start_offset l) (ar_last_offset r + 1) (flushed_offset l) l)) ;;;
  if sync_on_append (flush_policy (lg_options l)) then Flush e else sret tt.

(** Progress over a batch: next offset, largest timestamp, records seen. *)
Record Batch := mkBatch { b_offset : Z; b_max_ts : Z; b_seen : Z }.

(** The leader's single pass: parse, stamp offset and timestamp in place, go on.  The
    batch is the caller's buffer, returned as the loop left it. *)
Fixpoint assign_loop (fuel : nat) (append_time pos : Z) (b : Batch) : SR bytes Batch := λ records,
  match fuel with
  | O => (Err kInternal, records)
  | S fuel =>
      if pos <? zlen records then
        match ParseRecord records pos false with
        | Err e => (Err e, records)
        | Ok (view, next) =>
            let timestamp := if 0 <? rv_timestamp view then rv_timestamp view else append_time in
            let stamped := RewriteRecordHeader (slice pos (next - pos) records) (next - pos) (b_offset b) timestamp in
            assign_loop fuel append_time next
              (mkBatch (b_offset b + 1) (Z.max (b_max_ts b) timestamp) (u32 (b_seen b + 1)))
              (zsplice pos stamped records)
        end
      else (Ok b, records)
  end.

Definition on_log {A B} (m : SR A B) : SR (A * bytes) B := szoom fst (λ l st, (l, st.2)) m.
Definition on_batch {A B} (m : SR bytes B) : SR (A * bytes) B := szoom snd (λ bs st, (st.1, bs)) m.

(** [active_] after a roll check: the segment appended to. *)
Definition active_index : SR PartitionLog nat :=
  let! l := sget in
  match active l with Some i => sret i | None => sfail kInternal end.

Definition append_result (base : Z) (b : Batch) (bytes_ now : Z) : AppendResult :=
  mkAppendResult base (b_offset b - 1) (b_seen b) bytes_ now.

Definition AppendAssigningOffsets (e : LogEnv) (record_count : Z) : SR (PartitionLog * bytes) AppendResult :=
  let! st := sget in
  let size := zlen st.2 in
  if closed st.1 then sfail kClosed else
  if (size =? 0) || (record_count =? 0) then sfail kInvalidArgument else
  on_log (CheckDiskSpace e) ;;;
  on_log (MaybeRoll e size) ;;;
  let! i := on_log active_index in
  let! s := on_log (the_segment i) in
  let base := next_offset s in
  let append_time := env_append_now e in
  let! b := on_batch (assign_loop (S (length st.2)) append_time 0 (mkBatch base (-1) 0)) in
  if negb (b_seen b =? record_count) then sfail kInvalidArgument else
  let! st := sget in
  on_log (at_segment i (AppendEncoded st.2 base (b_offset b - 1) (b_seen b) (b_max_ts b))) ;;;
  let r := append_result base b size append_time in
  on_log (FinalizeAppend e r) ;;;
  sret r.

(** [while (it.Next(view)) ...] over a batch that carries its offsets. *)
Fixpoint check_batch (fuel : nat) (it : RecordIterator) (b : Batch) : Result (Batch * RecordIterator) :=
  match fuel with
  | O => Err kInternal
  | S fuel =>
      match NextRecord it with
      | (None, it) => Ok (b, it)
      | (Some view, it) =>
          if negb (rv_offset view =? b_offset b) then Err kOutOfRange else
          check_batch fuel it
            (mkBatch (b_offset b + 1) (Z.max (b_max_ts b) (rv_timestamp view)) (u32 (b_seen b + 1)))
      end
  end.

(** One run of records checked and its iterator's status consulted. *)
Definition check_run (data : bytes) (verify : bool) (b : Batch) : Result Batch :=
  let? '(b, it) := check_batch (S (S (length data))) (newIterator data verify) b in
  match it_status it with Some e => Err e | None => Ok b end.

Definition AppendWithOffsets (e : LogEnv) (records : bytes) (record_count : Z) : SR PartitionLog AppendResult :=
  let! l := sget in
  if closed l then sfail kClosed else
  if (zlen records =? 0) || (record_count =? 0) then sfail kInvalidArgument else
  CheckDiskSpace e ;;;
  let expected := log_end_offset l in
  let! b := slift (check_run records true (mkBatch expected (-1) 0)) in
  if negb (b_seen b =? record_count) then sfail kInvalidArgument else
  MaybeRoll e (zlen records) ;;;
  let! i := active_index in
  let! s := the_segment i in
  if negb (next_offset s =? expected) then sfail kInternal else
  at_segment i (AppendEncoded records expected (b_offset b - 1) (b_seen b) (b_max_ts b)) ;;;
  let r := append_result expected b (zlen records) (env_append_now e) in
  FinalizeAppend e r ;;;
  sret r.

Fixpoint check_chunks (chunks : list bytes) (b : Batch) : Result Batch :=
  match chunks with
  | [] => Ok b
  | c :: rest => let? b := check_run c false b in check_chunks rest b
  end.

Definition AppendVectoredWithOffsets (e : LogEnv) (chunks : list bytes) (record_count : Z)
    : SR PartitionLog AppendResult :=
  let! l := sget in
  if closed l then sfail kClosed else
  let total := fold_left (λ n c, n + zlen c) chunks 0 in
  if (total =? 0) || (record_count =? 0) then sfail kInvalidArgument else
  CheckDiskSpace e ;;;
  MaybeRoll e total ;;;
  let! i := active_index in
  let! s := the_segment i in
  let base := next_offset s in
  let! b := slift (check_chunks chunks (mkBatch base (-1) 0)) in
  if negb (b_seen b =? record_count) then sfail kInvalidArgument else
  at_segment i (AppendEncodedVectored chunks base (b_offset b - 1) (b_seen b) (b_max_ts b)) ;;;
  let r := append_result base b total (env_append_now e) in
  FinalizeAppend e r ;;;
  sret r.

(** ** Reading *)

(** The largest segment whose base is at most the offset ([std::upper_bound] - 1). *)
Definition SegmentForOffsetLocked (offset : Z) (ss : list Segment) : option nat :=
  match partition_point (λ s, negb (offset <? base_offset s)) ss with
  | O => None
  | S i => Some i
  end.

Definition next_segment (i : nat) (ss : list Segment) : option nat :=
  if (S i <? length ss)%nat then Some (S i) else None.

(** Cursor, records and bytes so far. *)
Record ReadState := mkReadState { rs_cursor : Z; rs_records : Z; rs_bytes : Z }.

Fixpoint read_segments (fuel : nat) (i : nat) (log_end max_bytes : Z) (r : ReadState)
    : SR (PartitionLog * ByteBuffer) ReadState := λ st,
  match fuel with
  | O => (Err kInternal, st)
  | S fuel =>
      if rs_bytes r <? max_bytes then
        let '(l, out) := st in
        match segments l !! i with
        | None => (Err kInternal, st)
        | Some s =>
            match Segment_Read (rs_cursor r) (max_bytes - rs_bytes r) (s, out) with
            | (Err e, (s, out)) => (Err e, (with_segments (<[i := s]> (segments l)) l, out))
            | (Ok chunk, (s, out)) =>
                let st := (with_segments (<[i := s]> (segments l)) l, out) in
                let r := mkReadState (rs_cursor r + rr_record_count chunk) (rs_records r + rr_record_count chunk)
                           (rs_bytes r + rr_bytes chunk) in
                if rr_record_count chunk =? 0 then
                  if negb (reached_end chunk) then (Ok r, st) else
                  match next_segment i (segments l) with
                  | None => (Ok r, st)
                  | Some i => read_segments fuel i log_end max_bytes r st
                  end
                else if log_end <=? rs_cursor r then (Ok r, st)
                else if next_offset s <=? rs_cursor r then
                  match next_segment i (segments l) with
                  | None => (Ok r, st)
                  | Some i => read_segments fuel i log_end max_bytes r st
                  end
                else read_segments fuel i log_end max_bytes r st
            end
        end
      else (Ok r, st)
  end.

(** A round moves on a record or a segment. *)
Definition read_fuel (from : Z) (l : PartitionLog) : nat :=
  S (Z.to_nat (log_end_offset l - from) + length (segments l)).

Definition Log_Read (from max_bytes : Z) : SR (PartitionLog * ByteBuffer) LogReadResult :=
  let! st := sget in
  let l := st.1 in
  let start := log_start_offset l in
  let end_ := log_end_offset l in
  if from <? start then sfail kOutOfRange else
  if end_ <? from then sfail kOutOfRange else
  if from =? end_ then sret (mkLogReadResult from 0 0 start end_) else
  match SegmentForOffsetLocked from (segments l) with
  | None => sfail kOutOfRange
  | Some i =>
      let! r := read_segments (read_fuel from l) i end_ max_bytes (mkReadState from 0 0) in
      sret (mkLogReadResult from (rs_records r) (rs_bytes r) start end_)
  end.

(** ** Truncation, retention, statistics *)

(** [Segment::Delete]: three removals share one error code, so only the last one's
    failure is reported. *)
Definition Segment_Delete (removed : bool * bool * bool) : Result unit :=
  let '(_, _, time_index_removed) := removed in
  if time_index_removed then Ok tt else Err kIoError.

(** Dropping whole segments from the back; [del n] answers the three removals made
    when [n] segments are left. *)
Fixpoint drop_back (fuel : nat) (del : nat → bool * bool * bool) (offset : Z) : SR PartitionLog unit := λ l,
  match fuel with
  | O => (Ok tt, l)
  | S fuel =>
      if (1 <? length (segments l))%nat then
        match last (segments l) with
        | None => (Ok tt, l)
        | Some s =>
            if offset <=? base_offset s then
              let l := with_segments (take (pred (length (segments l))) (segments l)) l in
              let '(st, _) := Segment_Close s in
              match st with
              | Err e => (Err e, l)
              | Ok _ =>
                  match Segment_Delete (del (length (segments l))) with
                  | Err e => (Err e, l)
                  | Ok _ => drop_back fuel del offset (with_counts (roll_count l) (deleted_segments l + 1) l)
                  end
              end
            else (Ok tt, l)
        end
      else (Ok tt, l)
  end.

Definition TruncateTo (del : nat → bool * bool * bool) (offset : Z) : SR PartitionLog unit :=
  let! l := sget in
  if log_end_offset l <=? offset then sret tt else
  if offset <? log_start_offset l then sfail kOutOfRange else
  drop_back (length (segments l)) del offset ;;;
  smod (λ l, with_active (Some (pred (length (segments l)))) l) ;;;
  let! i := active_index in
  at_segment i (Segment_TruncateFrom offset) ;;;
  smod (λ l, with_unflushed 0 0
               (with_offsets (log_start_offset l) offset
                  (if offset <? flushed_offset l then offset else flushed_offset l) l)).

Definition total_bytes_of (ss : list Segment) : Z := fold_right (λ s n, end_position s + n) 0 ss.

Fixpoint retention_loop (fuel : nat) (del : nat → bool * bool * bool) (now : Z) (deleted : Z) : SR PartitionLog Z := λ l,
  match fuel with
  | O => (Ok deleted, l)
  | S fuel =>
      match segments l with
      | oldest :: ((second :: _) as rest) =>
          let o := lg_options l in
          let total := u64 (total_bytes_of (segments l)) in
          let too_old := (0 <? retention_ms o) && (0 <? max_timestamp oldest)
                         && (retention_ms o <? now - max_timestamp oldest) in
          let too_big := (0 <? retention_bytes o) && (retention_bytes o <? i64 total) in
          if negb too_old && negb too_big then (Ok deleted, l) else
          let l := with_active (pred <$> active l) (with_segments rest l) in
          let '(st, _) := Segment_Close oldest in
          match st with
          | Err e => (Err e, l)
          | Ok _ =>
              match Segment_Delete (del (length rest)) with
              | Err e => (Err e, l)
              | Ok _ =>
                  retention_loop fuel del now (deleted + 1)
                    (with_counts (roll_count l) (deleted_segments l + 1)
                       (with_offsets (base_offset second) (log_end_offset l) (flushed_offset l) l))
              end
          end
      | _ => (Ok deleted, l)
      end
  end.

Definition EnforceRetention (del : nat → bool * bool * bool) (now : Z) : SR PartitionLog Z :=
  let! l := sget in
  if (retention_bytes (lg_options l) <=? 0) && (retention_ms (lg_options l) <=? 0) then sret 0 else
  retention_loop (length (segments l)) del now 0.

Fixpoint find_timestamp (timestamp : Z) (ss : list Segment) : option Z :=
  match ss with
  | [] => None
  | s :: rest =>
      if (0 <=? max_timestamp s) && (max_timestamp s <? timestamp) then find_timestamp timestamp rest else
      match OffsetForTimestamp timestamp s with
      | Some o => Some o
      | None => find_timestamp timestamp rest
      end
  end.

Definition Log_OffsetForTimestamp (timestamp : Z) (l : PartitionLog) : Z :=
  if timestamp =? kEarliestOffset then log_start_offset l else
  if timestamp =? kLatestOffset then log_end_offset l else
  default (log_end_offset l) (find_timestamp timestamp (segments l)).

Definition Log_GetStats (l : PartitionLog) : LogStats :=
  mkLogStats (log_start_offset l) (log_end_offset l) (flushed_offset l) (total_bytes_of (segments l))
    (fold_right (λ s n, record_count s + n) 0 (segments l)) (zlen (segments l))
    (flush_count (flush_stats l)) (flush_nanos_total (flush_stats l)) (flush_nanos_max (flush_stats l))
    (roll_count l) (deleted_segments l).

(** Every segment is closed; the first failure is the status returned. *)
Fixpoint close_segments (ss : list Segment) (result : Result unit) : Result unit * list Segment :=
  match ss with
  | [] => (result, [])
  | s :: rest =>
      let '(st, s) := Segment_Close s in
      let result := if is_ok result && negb (is_ok st) then st else result in
      let '(r, rest) := close_segments rest result in (r, s :: rest)
  end.

Definition Log_Close : SR PartitionLog unit := λ l,
  if closed l then (Ok tt, l) else
  let '(r, ss) := close_segments (segments l) (Ok tt) in
  (r, with_active None (with_segments ss (with_closed true l))).
