(* ===== verification/PartitionLogSpec.v ===== *)
(** * PartitionLogSpec: what a partition log holds

    The abstract state of a log is the run of records from its start offset on, cut
    into one run per segment.  [log_inv l rss] ties the implementation to it, and
    says that what [flushed_offset] claims is on stable storage. *)
From S2P Require Import Prelude Status Endian Crc32c Buffer Types Codec Frame Record FileUtil Search OffsetIndex Quiet Segment SegmentSpec Recovery SegmentOps SegmentRead SegmentTheorems PartitionLog.

(** A segment in good order. *)
Definition seg_good (s : Segment) (rs : Run) : Prop :=
  seg_inv s rs ∧ records_fit_lookup rs ∧ seg_durable s rs.

(** The records below [flushed] are durable. *)
Definition seg_flushed (flushed : Z) (s : Segment) (rs : Run) : Prop :=
  pos_of rs (Z.to_nat (flushed - base_offset s)) ≤ synced_position s.

(** Segments follow one another without gaps. *)
Fixpoint chain (base flushed : Z) (ss : list Segment) (rss : list Run) : Prop :=
  match ss, rss with
  | [], [] => True
  | s :: ss, rs :: rss =>
      base_offset s = base ∧ seg_good s rs ∧ seg_flushed flushed s rs ∧ chain (base + zlen rs) flushed ss rss
  | _, _ => False
  end.

(** A segment that has been rolled over was synced first: only the last segment may
    hold records that are not yet durable. *)
Definition segment_synced (s : Segment) : Prop := end_position s ≤ synced_position s.
Definition sealed (ss : list Segment) : Prop :=
  ∀ i s, ss !! i = Some s → (S i < length ss)%nat → segment_synced s.

Lemma sealed_snoc ss s : sealed (ss ++ [s]) ↔ Forall segment_synced ss.
Proof.
  unfold sealed. rewrite length_app, Forall_lookup. cbn. split.
  - intros H i x Hi. pose proof (lookup_lt_Some _ _ _ Hi). apply (H i x); [by rewrite lookup_app_l by lia|lia].
  - intros H i x Hi Hlt. rewrite lookup_app_l in Hi by lia. by apply (H i).
Qed.
Lemma sealed_take ss m : sealed ss → sealed (take m ss).
Proof.
  intros H i s Hi Hlt. rewrite lookup_take_Some in Hi. rewrite length_take in Hlt. apply (H i s); [tauto|lia].
Qed.
Lemma sealed_insert ss i s s' :
  sealed ss → ss !! i = Some s → (segment_synced s → segment_synced s') → sealed (<[i := s']> ss).
Proof.
  intros H Hi Hs j x Hj Hlt. rewrite length_insert in Hlt. apply list_lookup_insert_Some in Hj as [(-> & -> & _)|[_ Hj]].
  - apply Hs. by apply (H j).
  - by apply (H j).
Qed.

Record log_inv (l : PartitionLog) (rss : list Run) : Prop := {
  li_chain : chain (log_start_offset l) (flushed_offset l) (segments l) rss;
  li_nonempty : segments l ≠ [];
  li_active : active l = Some (pred (length (segments l)));
  li_end : log_end_offset l = log_start_offset l + zlen (concat rss);
  li_flushed : flushed_offset l ≤ log_end_offset l;
  li_open : closed l = false;
  li_sealed : sealed (segments l);
}.

(** ** Chains *)

Lemma chain_app base fl ss1 ss2 rss1 rss2 :
  length ss1 = length rss1 →
  chain base fl (ss1 ++ ss2) (rss1 ++ rss2) ↔
  chain base fl ss1 rss1 ∧ chain (base + zlen (concat rss1)) fl ss2 rss2.
Proof.
  revert base rss1. induction ss1 as [|s ss1 IH]; intros base [|rs rss1] HL; try done.
  - cbn [app chain concat]. change (zlen (@nil (bytes * LogRecord))) with 0. rewrite Z.add_0_r. tauto.
  - injection HL as HL. cbn [app chain concat]. rewrite zlen_app.
    rewrite (IH (base + zlen rs) rss1 HL).
    replace (base + (zlen rs + zlen (concat rss1))) with (base + zlen rs + zlen (concat rss1)) by lia. tauto.
Qed.

Lemma chain_length base fl ss rss : chain base fl ss rss → length ss = length rss.
Proof.
  revert base rss. induction ss as [|s ss IH]; intros base [|rs rss]; try done.
  intros (_ & _ & _ & H). cbn. f_equal. by eapply IH.
Qed.

Lemma chain_snoc base fl ss rss :
  chain base fl ss rss → ss ≠ [] →
  ∃ ss0 s rss0 rs, ss = ss0 ++ [s] ∧ rss = rss0 ++ [rs] ∧ length ss0 = length rss0 ∧ pred (length ss) = length ss0.
Proof.
  intros Hc Hne. pose proof (chain_length _ _ _ _ Hc) as HL.
  destruct ss as [|s ss0 _] using rev_ind; [done|]. destruct rss as [|rs rss0 _] using rev_ind.
  { rewrite length_app in HL. simpl in HL. lia. }
  exists ss0, s, rss0, rs. rewrite !length_app in HL. simpl in HL. rewrite length_app. simpl.
  split_and!; [done|done|lia|lia].
Qed.

Lemma chain_cons_last base fl s rs :
  chain base fl [s] [rs] ↔ base_offset s = base ∧ seg_good s rs ∧ seg_flushed fl s rs.
Proof. cbn. tauto. Qed.

Lemma insert_last {A} (l : list A) x y : <[length l := y]> (l ++ [x]) = l ++ [y].
Proof. by rewrite insert_app_r_alt, Nat.sub_diag by lia. Qed.
Lemma lookup_last {A} (l : list A) x : (l ++ [x]) !! length l = Some x.
Proof. by rewrite lookup_app_r, Nat.sub_diag by lia. Qed.

(** A smaller claim about what is durable is weaker. *)
Lemma chain_flushed_le base fl fl' ss rss : fl' ≤ fl → chain base fl ss rss → chain base fl' ss rss.
Proof.
  intros Hle. revert base rss. induction ss as [|s ss IH]; intros base [|rs rss]; try done.
  intros (H1 & H2 & H3 & H4). split_and!; try done; [|by apply IH].
  unfold seg_flushed in *. etrans; [|exact H3]. apply pos_of_mono. lia.
Qed.

(** The view of a log as all its segments but the last, and the last. *)
Definition split_inv (l : PartitionLog) (rss : list Run) (ss0 : list Segment) (s : Segment)
    (rss0 : list Run) (rs : Run) : Prop :=
  segments l = ss0 ++ [s] ∧ rss = rss0 ++ [rs] ∧ length ss0 = length rss0 ∧ active l = Some (length ss0) ∧
  chain (log_start_offset l) (flushed_offset l) ss0 rss0 ∧
  base_offset s = log_start_offset l + zlen (concat rss0) ∧ seg_good s rs ∧ seg_flushed (flushed_offset l) s rs ∧
  next_offset s = log_end_offset l ∧ Forall segment_synced ss0.

Lemma log_split l rss : log_inv l rss → ∃ ss0 s rss0 rs, split_inv l rss ss0 s rss0 rs.
Proof.
  intros [Hc Hne Ha He Hf Ho Hse]. destruct (chain_snoc _ _ _ _ Hc Hne) as (ss0 & s & rss0 & rs & Hs & Hr & HL & HP).
  exists ss0, s, rss0, rs. rewrite Hs, Hr in Hc. apply chain_app in Hc as [Hc1 Hc2]; [|done].
  apply chain_cons_last in Hc2 as (Hb & Hg & Hfl). pose proof Hg as ([] & _).
  unfold split_inv. rewrite Ha, HP. split_and!; try done; [|by rewrite Hs, sealed_snoc in Hse].
  rewrite inv_next, Hb, He, Hr, concat_app, zlen_app. cbn [concat]. rewrite app_nil_r. lia.
Qed.

(** Replacing the last segment. *)
Lemma log_join l l' ss0 s rss0 rs :
  segments l' = ss0 ++ [s] → length ss0 = length rss0 → active l' = Some (length ss0) →
  chain (log_start_offset l') (flushed_offset l') ss0 rss0 →
  base_offset s = log_start_offset l' + zlen (concat rss0) → seg_good s rs → seg_flushed (flushed_offset l') s rs →
  log_end_offset l' = next_offset s → flushed_offset l' ≤ log_end_offset l' → closed l' = closed l → closed l = false →
  Forall segment_synced ss0 → log_inv l' (rss0 ++ [rs]).
Proof.
  intros Hs HL Ha Hc Hb Hg Hf He Hle Hcl Hc0 Hse. constructor; try done.
  - rewrite Hs. apply chain_app; [done|]. split; [done|]. by apply chain_cons_last.
  - rewrite Hs. by destruct ss0.
  - rewrite Ha, Hs, length_app. cbn. f_equal. lia.
  - pose proof Hg as ([] & _). rewrite He, inv_next, Hb, concat_app, zlen_app. cbn [concat]. rewrite app_nil_r. lia.
  - congruence.
  - by rewrite Hs, sealed_snoc.
Qed.
