(* ===== verification/PartitionLogRoll.v ===== *)
(** * PartitionLogRoll: opening, rolling and flushing segments of a log

    Lemmas for the parts every append goes through: the disk-space guard, the roll
    to a fresh segment and the flush, each preserving the run of records the log
    holds. *)
From S2P Require Import Prelude Status Endian Crc32c Buffer Types Codec Frame Record FileUtil Search OffsetIndex Quiet Segment SegmentSpec Recovery SegmentOps SegmentRead SegmentTheorems PartitionLog PartitionLogSpec.

(** Opening the files of a segment that does not exist yet creates them empty. *)
Definition fresh_files (files : Result (bool * FileHandle * FileHandle * FileHandle)) : Prop :=
  match files with
  | Ok (_, lf, xf, tf) => content lf = [] ∧ content xf = [] ∧ content tf = []
  | Err _ => True
  end.

Lemma OffsetIndex_Open_fresh base ix :
  content (ix_file ix) = [] → (OffsetIndex_Open base ix).1 = Ok tt →
  entries (OffsetIndex_Open base ix).2 = [] ∧ index_ok base [] (OffsetIndex_Open base ix).2.
Proof.
  intros Hc Hok.
  destruct (index_open_spec kIndexEntryBytes enc_offset_entry dec_offset_entry relative_offset
    (λ prev e, relative_offset e <=? prev) offset_entry_fits eq_refl (λ e, eq_refl) dec_enc_offset
    [] [] ix base) as (H1 & H2 & H3); [done|done|done|done|].
  fold (OffsetIndex_Open base) in H1, H2, H3.
  split; [done|]. split; [|split; [done|]].
  - split; [by rewrite H1|]. split; [rewrite H1; by intros i j x y Hi|done].
  - rewrite H1. by intros e He%elem_of_nil.
Qed.

Lemma Segment_Open_fresh ex lf xf tf base o now s :
  content xf = [] → Segment_Open ex lf xf tf base o now = (Ok tt, s) →
  seg_good s [] ∧ base_offset s = base ∧ synced_position s = 0 ∧ end_position s = 0 ∧ next_offset s = base.
Proof.
  intros Hx. unfold Segment_Open, sbind, in_index, in_time_index, in_file, szoom, smod, stry.
  cbn [seg_index with_index].
  pose proof (OffsetIndex_Open_fresh base (mkIndex xf [] 0) Hx) as HI.
  destruct (OffsetIndex_Open base _) as [[[]|e] ix]; [|done]. cbn [fst snd] in HI. destruct (HI eq_refl) as [HE HI'].
  cbn [seg_time_index with_index]. destruct (TimeIndex_Open base _) as [[[]|e] ti]; [|done].
  cbn [seg_file with_index with_time_index]. destruct (Size lf) as [[fs|e] f1]; [|done].
  assert (Hgoal : ∀ s0, seg_index s0 = ix → end_position s0 = 0 → next_offset s0 = base → base_offset s0 = base →
    synced_position s0 = 0 → last_indexed_position s0 = LastIndexedPosition ix →
    seg_good s0 [] ∧ base_offset s0 = base ∧ synced_position s0 = 0 ∧ end_position s0 = 0 ∧ next_offset s0 = base).
  { intros s0 G1 G2 G3 G4 G5 G6. split_and!; try done. split; [|split; [constructor|]].
    - constructor; rewrite ?G1, ?G2, ?G3, ?G4, ?G6; try done.
      + apply zlen_nonneg.
      + constructor.
      + change (zlen (@nil (bytes * LogRecord))) with 0. lia.
      + unfold LastIndexedPosition. by rewrite HE.
    - split; rewrite G5; [done|]. by rewrite !ztake_0. }
  destruct (_ && _).
  - cbn [seg_file with_preallocated with_file]. destruct (Preallocate _ _) as [[[]|e] f2]; intros [= <-]; by apply Hgoal.
  - intros [= <-]. by apply Hgoal.
Qed.

Lemma open_segment_fresh files base o now s :
  fresh_files files → open_segment files base o now = Ok s →
  seg_good s [] ∧ base_offset s = base ∧ synced_position s = 0 ∧ end_position s = 0 ∧ next_offset s = base.
Proof.
  destruct files as [[[[ex lf] xf] tf]|e]; [|done]. intros (_ & Hx & _). unfold open_segment.
  destruct (Segment_Open ex lf xf tf base o now) as [[[]|e] s'] eqn:E; [|done]. intros [= <-].
  by apply (Segment_Open_fresh ex lf xf tf base o now).
Qed.

(** ** Changes that do not touch the records *)

Definition same_core (l l' : PartitionLog) : Prop :=
  segments l' = segments l ∧ active l' = active l ∧ log_start_offset l' = log_start_offset l ∧
  log_end_offset l' = log_end_offset l ∧ flushed_offset l' = flushed_offset l ∧ closed l' = closed l ∧
  lg_options l' = lg_options l.

Lemma log_inv_core l l' rss : same_core l l' → log_inv l rss → log_inv l' rss.
Proof.
  intros (H1 & H2 & H3 & H4 & H5 & H6 & _) [I1 I2 I3 I4 I5 I6 I7]. constructor; try congruence. by rewrite H1.
Qed.

Lemma CheckDiskSpace_core e l :
  same_core l (CheckDiskSpace e l).2 ∧
  ((CheckDiskSpace e l).1 = Ok tt ∨ (CheckDiskSpace e l).1 = Err kResourceExhausted).
Proof.
  unfold CheckDiskSpace, sbind, sget, smod, sret, sfail. destruct (_ <? _).
  - destruct (disk_full l); split; [done|by right|done|by left].
  - destruct (env_available e) as [a|err]; [|split; [done|by left]].
    destruct (_ <? _); (split; [done|]); [by right|by left].
Qed.

(** ** Rolling *)

(** The same records, perhaps over one more segment. *)
Definition rolled (rss rss' : list Run) : Prop := rss' = rss ∨ rss' = rss ++ [[]].
Lemma rolled_concat rss rss' : rolled rss rss' → concat rss' = concat rss.
Proof. intros [->| ->]; [done|]. rewrite concat_app. cbn. by rewrite app_nil_r. Qed.

Lemma at_segment_last {A} (m : SR Segment A) l ss0 s :
  segments l = ss0 ++ [s] →
  at_segment (length ss0) m l = ((m s).1, with_segments (ss0 ++ [(m s).2]) l).
Proof.
  intros Hs. unfold at_segment. rewrite Hs, lookup_last. destruct (m s) as [r s']. by rewrite insert_last.
Qed.

Lemma sync_keeps s rs :
  seg_good s rs → let s' := (Segment_Sync s).2 in
  seg_good s' rs ∧ base_offset s' = base_offset s ∧ synced_position s ≤ synced_position s' ∧
  match (Segment_Sync s).1 with Ok _ => synced_position s' = end_position s' | Err e => e ≠ kInternal end.
Proof.
  intros (Hi & Hf & Hd) s'. destruct (Segment_Sync_spec rs s Hi Hd) as (S1 & S2 & S3 & S4).
  split; [done|]. split; [done|].
  assert (Hsy : synced_position s' = synced_position s ∨ synced_position s' = end_position s).
  { unfold s', Segment_Sync. rewrite (sbind_ok sget _ s s s eq_refl). destruct (_ =? _); [by left|].
    unfold sbind, in_file, in_index, in_time_index, szoom, smod.
    destruct (SyncFile _ _) as [[[]|e] f]; [|by left]. cbn [seg_index with_file].
    destruct (index_sync (seg_index s)) as [[[]|e] ix]; [|by left]. cbn [seg_time_index with_file with_index].
    destruct (index_sync (seg_time_index s)) as [[[]|e] ti]; [by right|by left]. }
  pose proof (inv_end _ _ Hi) as He. destruct Hd as [Hsb _].
  split; [destruct Hsy as [->| ->]; lia|]. fold s' in S4. destruct (Segment_Sync s).1; [by destruct S4|done].
Qed.

(** Everything but the segments. *)
Definition same_meta (l l' : PartitionLog) : Prop :=
  log_start_offset l' = log_start_offset l ∧ log_end_offset l' = log_end_offset l ∧
  flushed_offset l' = flushed_offset l ∧ closed l' = closed l ∧ lg_options l' = lg_options l ∧
  unflushed_bytes l' = unflushed_bytes l ∧ unflushed_records l' = unflushed_records l.

Lemma flushed_more fl s s' rs :
  base_offset s' = base_offset s → synced_position s ≤ synced_position s' → seg_flushed fl s rs → seg_flushed fl s' rs.
Proof. unfold seg_flushed. intros -> Hle H. lia. Qed.

Lemma seg_flushed_empty fl s : seg_good s [] → seg_flushed fl s [].
Proof. intros (_ & _ & [Hs _] & _). unfold seg_flushed, pos_of. rewrite take_nil. change (zlen (run_bytes [])) with 0. lia. Qed.

Lemma with_segments_id l : with_segments (segments l) l = l.
Proof. by destruct l. Qed.

Lemma RollSegment_eq e l ss0 s :
  segments l = ss0 ++ [s] → active l = Some (length ss0) →
  RollSegment e l =
  match open_segment (env_files e) (next_offset s) (segment_options (lg_options l)) (env_open_now e) with
  | Err err => (Err err, l)
  | Ok fresh =>
      match Segment_Sync s with
      | (Err err, s') => (Err err, with_segments (ss0 ++ [s']) l)
      | (Ok _, s') =>
          (Ok tt, with_counts (roll_count l + 1) (deleted_segments l)
                    (with_active (Some (S (length ss0))) (with_segments (ss0 ++ [s'; fresh]) l)))
      end
  end.
Proof.
  intros Hs Ha. unfold RollSegment, the_segment, sbind, sget. rewrite Ha.
  rewrite (at_segment_last _ l ss0 s Hs). cbn [fst snd sret]. rewrite <- Hs, with_segments_id.
  unfold slift. destruct (open_segment _ _ _ _) as [fresh|err]; [|done].
  rewrite (at_segment_last _ l ss0 s Hs). destruct (Segment_Sync s) as [[[]|err] s']; cbn [fst snd smod]; [|done].
  unfold smod. cbn [segments with_segments]. rewrite length_app, <- app_assoc, Nat.add_1_r. done.
Qed.

Lemma RollSegment_spec e l rss :
  log_inv l rss → fresh_files (env_files e) →
  let r := RollSegment e l in
  same_meta l r.2 ∧
  match r.1 with Ok _ => log_inv r.2 (rss ++ [[]]) | Err _ => log_inv r.2 rss end.
Proof.
  intros Hinv Hfresh. destruct (log_split l rss Hinv) as (ss0 & s & rss0 & rs & Hs & Hr & HL & Ha & Hc & Hb & Hg & Hf & Hn & Hse).
  rewrite (RollSegment_eq e l ss0 s Hs Ha).
  destruct (open_segment _ _ _ _) as [fresh|err] eqn:Eo; [|by split].
  destruct (open_segment_fresh _ _ _ _ _ Hfresh Eo) as (Fg & Fb & Fs & Fe & Fn).
  destruct (sync_keeps s rs Hg) as (Kg & Kb & Ks & Kr).
  destruct (Segment_Sync s) as [st s']; cbn [fst snd] in *.
  assert (Hl1 : log_inv (with_segments (ss0 ++ [s']) l) rss).
  { rewrite Hr. apply (log_join l _ ss0 s'); try done; cbn.
    - congruence.
    - by apply (flushed_more _ s).
    - destruct Kg as ([] & _), Hg as ([] & _). congruence.
    - apply (li_flushed _ _ Hinv).
    - apply (li_open _ _ Hinv). }
  destruct st as [[]|err]; cbn [fst snd]; (split; [done|]); [|exact Hl1].
  apply (log_join l _ (ss0 ++ [s']) fresh rss []); cbn; try done.
  - by rewrite <- app_assoc.
  - by rewrite Hr, !length_app, HL.
  - f_equal. rewrite length_app. cbn. lia.
  - rewrite Hr. apply chain_app; [done|]. split; [done|]. apply chain_cons_last.
    split_and!; [congruence|done|by apply (flushed_more _ s)].
  - rewrite Fb, Hn. apply (li_end _ _ Hinv).
  - by apply seg_flushed_empty.
  - congruence.
  - apply (li_flushed _ _ Hinv).
  - apply (li_open _ _ Hinv).
  - apply Forall_app. split; [done|]. constructor; [|constructor]. unfold segment_synced. lia.
Qed.

(** After a roll check there is room for the incoming bytes in the last segment. *)
Definition room_for (incoming : Z) (rss : list Run) : Prop :=
  ∃ rss0 rs, rss = rss0 ++ [rs] ∧ (rs = [] ∨ zlen (run_bytes rs) + incoming ≤ 0xFFFFFFFF).

Lemma MaybeRoll_spec e incoming l rss :
  log_inv l rss → fresh_files (env_files e) →
  let r := MaybeRoll e incoming l in
  same_meta l r.2 ∧
  ∃ rss', log_inv r.2 rss' ∧ rolled rss rss' ∧ (r.1 = Ok tt → room_for incoming rss').
Proof.
  intros Hinv Hfresh. destruct (log_split l rss Hinv) as (ss0 & s & rss0 & rs & Hs & Hr & HL & Ha & Hc & Hb & Hg & Hf & Hn & Hse).
  unfold MaybeRoll, the_segment, sbind, sget. rewrite Ha, (at_segment_last _ l ss0 s Hs). cbn [fst snd].
  rewrite <- Hs, with_segments_id.
  destruct (negb _ && negb _ && negb _) eqn:E.
  - apply andb_true_iff in E as [_ E%negb_true_iff%Z.ltb_ge]. cbn [sret fst snd]. split; [done|].
    exists rss. split; [done|]. split; [by left|]. intros _. exists rss0, rs. split; [done|]. right.
    destruct Hg as ([] & _). lia.
  - destruct (RollSegment_spec e l rss Hinv Hfresh) as [HM HR]. split; [done|].
    destruct (RollSegment e l).1 as [[]|err].
    + exists (rss ++ [[]]). split; [done|]. split; [by right|]. intros _. exists rss, []. by split; [|left].
    + exists rss. split; [done|]. by split; [left|].
Qed.

(** ** Flushing *)

Lemma pos_of_bound rs k : pos_of rs k ≤ zlen (run_bytes rs).
Proof. apply pos_of_le. Qed.

(** Syncing every segment makes every record durable; a failure loses nothing. *)
Lemma sync_segments_spec base fl ss rss :
  chain base fl ss rss →
  let r := sync_segments ss in
  chain base fl r.2 rss ∧ (r.1 = Ok tt → ∀ fl', chain base fl' r.2 rss) ∧ (∀ e, r.1 = Err e → e ≠ kInternal).
Proof.
  revert base rss. induction ss as [|s ss IH]; intros base [|rs rss]; try done.
  intros (Hb & Hg & Hf & Hc). cbn [sync_segments].
  assert (Hflush : ∀ s', seg_good s' rs → base_offset s' = base_offset s → end_position s' ≤ synced_position s' →
    ∀ fl', seg_flushed fl' s' rs).
  { intros s' Hg' Hb' Hsy fl'. unfold seg_flushed. pose proof (pos_of_bound rs (Z.to_nat (fl' - base_offset s'))).
    destruct Hg' as ([] & _). lia. }
  destruct (IH _ _ Hc) as (I1 & I2 & I3).
  destruct (Z.ltb_spec (synced_position s) (end_position s)) as [Hlt|Hge].
  - destruct (sync_keeps s rs Hg) as (Kg & Kb & Ks & Kr).
    destruct (Segment_Sync s) as [[[]|e] s']; cbn [fst snd] in *.
    + destruct (sync_segments ss) as [r ss']; cbn [fst snd] in *. split_and!; try done.
      * cbn. split_and!; [congruence|done|by apply (flushed_more _ s)|done].
      * intros Hr fl'. cbn. split_and!; [congruence|done|apply Hflush; [done|done|lia]|by apply I2].
    + split_and!; try done.
      * cbn. split_and!; [congruence|done|by apply (flushed_more _ s)|done].
      * by intros e' [= <-].
  - destruct (sync_segments ss) as [r ss']; cbn [fst snd] in *. split_and!; try done.
    intros Hr fl'. cbn. split_and!; [done|done|by apply Hflush|by apply I2].
Qed.

(** A sync only moves the synced positions forward. *)
Lemma sync_segments_synced base fl ss rss :
  chain base fl ss rss → Forall2 (λ s s', segment_synced s → segment_synced s') ss (sync_segments ss).2.
Proof.
  revert base rss. induction ss as [|s ss IH]; intros base [|rs rss] HC; try done.
  destruct HC as (_ & Hg & _ & Hc). specialize (IH _ _ Hc). cbn [sync_segments].
  assert (Hrefl : Forall2 (λ s s', segment_synced s → segment_synced s') ss ss) by (apply Forall_Forall2_diag, Forall_true; auto).
  destruct (sync_segments ss) as [r ss']. cbn [snd] in IH. destruct (_ <? _); [|cbn [snd]; by constructor].
  destruct (sync_keeps s rs Hg) as (Kg & _ & Ks & _). destruct (Segment_Sync s) as [[[]|e] s']; cbn [fst snd] in *;
    (constructor; [|done]); destruct Hg as ([] & _), Kg as ([] & _); unfold segment_synced; lia.
Qed.
Lemma sealed_synced ss ss' :
  Forall2 (λ s s', segment_synced s → segment_synced s') ss ss' → sealed ss → sealed ss'.
Proof.
  intros HF H i s' Hi Hlt. rewrite <- (Forall2_length _ _ _ HF) in Hlt.
  destruct (Forall2_lookup_r _ _ _ _ _ HF Hi) as (s & Hs & Himp). apply Himp. by apply (H i).
Qed.

Lemma with_segments_inv l rss ss :
  log_inv l rss → chain (log_start_offset l) (flushed_offset l) ss rss → sealed ss → log_inv (with_segments ss l) rss.
Proof.
  intros [I1 I2 I3 I4 I5 I6 I7] Hc Hse. pose proof (chain_length _ _ _ _ Hc) as HL. pose proof (chain_length _ _ _ _ I1) as HL0.
  constructor; cbn; try done.
  - intros ->. destruct (segments l); [done|]. cbn in *. lia.
  - rewrite I3. do 2 f_equal. lia.
Qed.

(** What a flush leaves: the same records, and on success all of them durable and the
    counters of what it covered taken off. *)
Definition flushed_to (l l' : PartitionLog) (r : Result unit) : Prop :=
  log_start_offset l' = log_start_offset l ∧ log_end_offset l' = log_end_offset l ∧ closed l' = closed l ∧
  lg_options l' = lg_options l ∧
  match r with
  | Ok _ => flushed_offset l' = log_end_offset l ∧
      (flushed_offset l ≠ log_end_offset l → unflushed_bytes l' = 0 ∧ unflushed_records l' = 0)
  | Err e => e ≠ kInternal ∧ flushed_offset l' = flushed_offset l ∧
      unflushed_bytes l' = unflushed_bytes l ∧ unflushed_records l' = unflushed_records l
  end.

Lemma Flush_spec e l rss :
  log_inv l rss → log_inv (Flush e l).2 rss ∧ flushed_to l (Flush e l).2 (Flush e l).1.
Proof.
  intros Hinv. unfold Flush, sbind, sget, flush_begin, flush_sync. cbn [flush_target].
  destruct (Z.eqb_spec (log_end_offset l) (flushed_offset l)) as [HE|HE].
  { cbn [sret fst snd]. split; [done|]. unfold flushed_to. split_and!; try done. }
  destruct (sync_segments_spec _ _ _ _ (li_chain _ _ Hinv)) as (S1 & S2 & S3).
  pose proof (sealed_synced _ _ (sync_segments_synced _ _ _ _ (li_chain _ _ Hinv)) (li_sealed _ _ Hinv)) as S4.
  destruct (sync_segments (segments l)) as [[[]|err] ss]; cbn [fst snd] in *.
  - specialize (S2 eq_refl (log_end_offset l)). unfold smod, flush_end. cbn [fst snd flush_target bytes_covered records_covered].
    split; [|unfold flushed_to; cbn; split_and!; try done; intros _; lia].
    destruct Hinv as [I1 I2 I3 I4 I5 I6 I7]. pose proof (chain_length _ _ _ _ S2) as HL.
    pose proof (chain_length _ _ _ _ I1) as HL0. constructor; cbn; try done.
    + intros ->. destruct (segments l); [done|]. cbn in *. lia.
    + rewrite I3. do 2 f_equal. lia.
  - split; [by apply with_segments_inv|]. unfold flushed_to; cbn. split_and!; try done. by apply S3.
Qed.

Lemma sync_segments_quiet ss :
  Forall seg_quiet ss → (sync_segments ss).1 = Ok tt ∧ Forall seg_quiet (sync_segments ss).2.
Proof.
  induction 1 as [|s ss Hs Hss [I1 I2]]; [done|]. cbn [sync_segments].
  destruct (Segment_Sync_quiet s Hs) as [Q1 Q2]. destruct (sync_segments ss) as [r ss']; cbn [fst snd] in *.
  destruct (_ <? _); [|by split; [|constructor]].
  destruct (Segment_Sync s) as [[[]|err] s']; [|done]. by split; [|constructor].
Qed.

Definition log_quiet (l : PartitionLog) : Prop := Forall seg_quiet (segments l).

Lemma Flush_quiet e : calm log_quiet (Flush e).
Proof.
  apply calm_bind; [apply calm_get|]. intros l. cbv zeta. destruct (_ =? _); [apply calm_ret|].
  apply calm_bind; [|intros _; by apply calm_mod].
  intros l' Hq. unfold flush_sync. destruct (sync_segments_quiet _ Hq) as [Q1 Q2].
  destruct (sync_segments (segments l')) as [r ss]; cbn in *. by subst r.
Qed.

(** ** Rolls succeed when the system does *)

Definition quiet_files (files : Result (bool * FileHandle * FileHandle * FileHandle)) : Prop :=
  match files with Ok (_, lf, xf, tf) => quiet lf ∧ quiet xf ∧ quiet tf | Err _ => False end.

Lemma index_open_empty {E} size dec (key : E → Z) stop base (ix : SparseIndex E) :
  content (ix_file ix) = [] → quiet_index ix →
  index_open size dec key stop base ix = (Ok tt, mkIndex (ix_file ix) [] base).
Proof.
  intros Hc Hq. unfold index_open, sbind, smod, on_file, szoom, Size. cbn [ix_file].
  rewrite next_outcome_quiet by done. rewrite Hc. change (zlen (@nil Z)) with 0. rewrite Zmod_0_l. done.
Qed.

Lemma open_segment_quiet files base o now :
  fresh_files files → quiet_files files → ∃ s, open_segment files base o now = Ok s ∧ seg_quiet s.
Proof.
  destruct files as [[[[ex lf] xf] tf]|e]; [|done]. intros (_ & Hx & Ht) (Ql & Qx & Qt). unfold open_segment, Segment_Open.
  unfold sbind, in_index, in_time_index, in_file, szoom, smod, stry, OffsetIndex_Open, TimeIndex_Open.
  cbn [seg_index]. rewrite index_open_empty by done. cbn [seg_time_index with_index].
  rewrite index_open_empty by done. cbn [seg_file with_time_index with_index].
  unfold Size. rewrite next_outcome_quiet by done. destruct (_ && _).
  - cbn [seg_file with_preallocated with_file]. destruct (Preallocate_calm (max_bytes o) lf Ql) as [P1 P2].
    destruct (Preallocate _ lf) as [[[]|e] f]; [|done]. eexists. by split.
  - eexists. by split.
Qed.

Lemma log_quiet_last l ss0 s : segments l = ss0 ++ [s] → log_quiet l ↔ Forall seg_quiet ss0 ∧ seg_quiet s.
Proof. intros Hs. unfold log_quiet. rewrite Hs, Forall_app, Forall_singleton. done. Qed.

Lemma MaybeRoll_quiet e n l rss :
  log_inv l rss → fresh_files (env_files e) → quiet_files (env_files e) → log_quiet l →
  is_ok (MaybeRoll e n l).1 = true ∧ log_quiet (MaybeRoll e n l).2.
Proof.
  intros Hinv Hfresh Hqf Hq. destruct (log_split l rss Hinv) as (ss0 & s & rss0 & rs & Hs & _ & _ & Ha & _).
  unfold MaybeRoll, the_segment, sbind, sget. rewrite Ha, (at_segment_last _ l ss0 s Hs). cbn [fst snd].
  rewrite <- Hs, with_segments_id. destruct (negb _ && _ && _); [done|]. rewrite (RollSegment_eq e l ss0 s Hs Ha).
  destruct (proj1 (log_quiet_last l ss0 s Hs) Hq) as [Hq0 Hqs].
  destruct (open_segment_quiet (env_files e) (next_offset s) (segment_options (lg_options l)) (env_open_now e) Hfresh Hqf)
    as (fresh & -> & Hqfr).
  destruct (Segment_Sync_quiet s Hqs) as [S1 S2]. destruct (Segment_Sync s) as [[[]|err] s']; [|done].
  split; [done|]. unfold log_quiet; cbn. rewrite Forall_app. split; [done|]. rewrite !Forall_cons. by split_and!.
Qed.

(** What every append asks of the system: reliable files and enough free space. *)
Definition calm_env (e : LogEnv) (l : PartitionLog) : Prop :=
  log_quiet l ∧ (CheckDiskSpace e l).1 = Ok tt ∧ quiet_files (env_files e).

Lemma CheckDiskSpace_meta e l : same_meta l (CheckDiskSpace e l).2.
Proof.
  unfold CheckDiskSpace, sbind, sget, smod, sret, sfail. destruct (_ <? _); [by destruct (disk_full l)|].
  destruct (env_available e); [by destruct (_ <? _)|done].
Qed.
