(* ===== verification/PartitionLogBatch.v ===== *)
(** * PartitionLogBatch: the scans a log makes over a batch before it appends it

    A leader's scan ([assign_loop]) stamps offsets and timestamps into the batch, a
    follower's ([check_run], [check_chunks]) compares the offsets already there.  Both
    are exact: they succeed on the byte strings that are runs of well-formed records
    and on no others. *)
From S2P Require Import Prelude Status Endian Crc32c Buffer Types Codec Frame Record FileUtil Search OffsetIndex Quiet Segment SegmentSpec Recovery SegmentOps PartitionLog.

(** No position of the bytes announces a key or value of 2^62 bytes or more. *)
Definition sane (data : bytes) : Prop := Forall is_byte data ∧ ∀ pos, 0 ≤ pos → sane_at data pos.

(** ** Scans depend on the bytes from the cursor on *)

Lemma read_varuint_shift fuel pre suf pos value shift consumed :
  0 ≤ pos + consumed →
  read_varuint_loop fuel (pre ++ suf) (zlen pre + pos) value shift consumed
  = read_varuint_loop fuel suf pos value shift consumed.
Proof.
  revert value shift consumed. induction fuel as [|fuel IH]; intros value shift consumed Hp; [done|].
  cbn [read_varuint_loop]. rewrite zlen_app.
  replace (zlen pre + pos + consumed <? zlen pre + zlen suf) with (pos + consumed <? zlen suf) by lia.
  replace (zlen pre + pos + consumed) with (zlen pre + (pos + consumed)) by lia.
  rewrite znth_shift, zdrop_app by (done || apply zlen_nonneg). cbv zeta.
  destruct (_ && _); [|done]. destruct (_ =? 0); [done|]. apply IH. lia.
Qed.

Lemma sane_at_shift pre suf : sane suf → sane_at (pre ++ suf) (zlen pre).
Proof.
  intros [_ Hs] kf n1 vl n2. unfold ReadVarUInt. rewrite <- (Z.add_assoc (zlen pre)).
  rewrite !(read_varuint_shift 11 pre suf) by (unfold kVarintStart; lia). intros R1.
  pose proof R1 as R1'. apply ReadVarUInt_inv in R1' as (Hn & _); [|unfold kVarintStart; lia].
  rewrite (read_varuint_shift 11 pre suf) by (unfold kVarintStart; lia). intros R2.
  by apply (Hs 0 (Z.le_refl 0) kf n1 vl n2).
Qed.

Lemma sane_drop n suf : 0 ≤ n → sane suf → sane (zdrop n suf).
Proof.
  intros Hn [Hb Hs]. split; [unfold zdrop; by apply Forall_drop|]. intros pos Hp kf n1 vl n2 R1 R2.
  destruct (Z.le_gt_cases (zlen suf) n) as [Hge|Hlt].
  { rewrite zdrop_all in R1 by done. apply ReadVarUInt_inv in R1 as (? & ? & _); [|unfold kVarintStart; lia].
    rewrite zlen_nil in *. unfold kVarintStart in *. lia. }
  assert (HE : ∀ p, 0 ≤ p → ReadVarUInt suf (n + p) = ReadVarUInt (zdrop n suf) p).
  { intros p Hp0. unfold ReadVarUInt. rewrite <- (read_varuint_shift 11 (ztake n suf) (zdrop n suf) p) by lia.
    rewrite ztake_zdrop, zlen_ztake. by replace (Z.min (Z.max n 0) (zlen suf)) with n by lia. }
  pose proof R1 as R1'. apply ReadVarUInt_inv in R1' as (Hn1 & _); [|unfold kVarintStart; lia].
  rewrite <- HE in R1, R2 by (unfold kVarintStart; lia).
  apply (Hs (n + pos) ltac:(lia) kf n1 vl n2).
  - by replace (n + pos + kVarintStart) with (n + (pos + kVarintStart)) by lia.
  - by replace (n + pos + kVarintStart + n1) with (n + (pos + kVarintStart + n1)) by lia.
Qed.

(** ** One record off the front *)

(** What a successful parse at the cursor shows. *)
Lemma parse_front pre suf verify v next :
  Forall is_byte pre → sane suf → zlen (pre ++ suf) < 2 ^ 62 →
  ParseRecord (pre ++ suf) (zlen pre) verify = Ok (v, next) →
  ∃ r x rest, suf = r ++ rest ∧ next = zlen pre + zlen r ∧ run_ok verify [(r, x)] ∧
    view_shows (pre ++ suf) v x ∧ sane rest ∧ Forall is_byte r ∧ 27 ≤ zlen r.
Proof.
  intros Hpre Hs Hbig HP.
  destruct (ParseRecord_inv _ _ _ _ _ ltac:(apply Forall_app; split; [exact Hpre|apply Hs]) (sane_at_shift pre suf Hs) (zlen_nonneg pre) Hbig HP)
    as (Hn & x & crc & Hsh & Hv & Hc).
  set (n := next - zlen pre) in *. rewrite zlen_app in Hn.
  rewrite slice_app_r, Z.sub_diag, slice_0 in Hsh, Hc by done.
  exists (ztake n suf), x, (zdrop n suf).
  assert (HL : zlen (ztake n suf) = n) by (rewrite zlen_ztake; lia).
  split_and!; try done.
  - by rewrite ztake_zdrop.
  - lia.
  - constructor; [|constructor]. by exists crc.
  - apply sane_drop; [lia|done].
  - unfold ztake. apply Forall_take, Hs.
  - by apply (shape_bounds _ _ _ Hsh).
Qed.

(** Conversely, a record at the cursor parses. *)
Lemma parse_record_front pre r x rest verify :
  run_ok verify [(r, x)] → zlen (pre ++ r ++ rest) < 2 ^ 62 →
  ∃ v, ParseRecord (pre ++ r ++ rest) (zlen pre) verify = Ok (v, zlen pre + zlen r) ∧
       view_shows (pre ++ r ++ rest) v x.
Proof.
  intros (( crc & Hs & Hc) & _)%Forall_cons Hbig. cbn [fst snd] in *.
  apply (ParseRecord_shape _ _ _ _ _ crc rest Hs Hc); [zlist|lia|by apply zdrop_app].
Qed.

(** ** The follower's scan *)

Definition batch_run (verify : bool) (offset : Z) (data : bytes) (rs : Run) : Prop :=
  data = run_bytes rs ∧ run_ok verify rs ∧ consecutive offset rs.

Definition max_ts_of (m : Z) (rs : Run) : Z := foldl (λ m r, Z.max m (lr_timestamp r.2)) m rs.

(** How far a scan over the run [rs] takes its batch state. *)
Definition scanned (b : Batch) (rs : Run) : Batch :=
  mkBatch (b_offset b + zlen rs) (max_ts_of (b_max_ts b) rs) (u32 (b_seen b + zlen rs)).

Lemma u32_add a n : u32 (u32 a + n) = u32 (a + n).
Proof. unfold uwrap. by rewrite Zplus_mod_idemp_l. Qed.

Lemma scanned_cons b p rs :
  scanned (mkBatch (b_offset b + 1) (Z.max (b_max_ts b) (lr_timestamp p.2)) (u32 (b_seen b + 1))) rs
  = scanned b (p :: rs).
Proof.
  unfold scanned; cbn [b_offset b_max_ts b_seen max_ts_of foldl]. rewrite zlen_cons, u32_add. f_equal; [lia|].
  f_equal. lia.
Qed.

Lemma consecutive_cons offset p rs :
  consecutive offset (p :: rs) ↔ lr_offset p.2 = offset ∧ consecutive (offset + 1) rs.
Proof.
  split.
  - intros H. split; [rewrite (H 0%nat p eq_refl); lia|]. intros i r Hi. rewrite (H (S i) r Hi). lia.
  - intros [H1 H2] [|i] r Hi; [injection Hi as <-; lia|]. cbn in Hi. rewrite (H2 i r Hi). lia.
Qed.
Lemma run_ok_cons v p rs : run_ok v (p :: rs) ↔ run_ok v [p] ∧ run_ok v rs.
Proof. apply (run_ok_app v [p] rs). Qed.

Lemma check_batch_step fuel pre suf verify n v next b :
  suf ≠ [] → ParseRecord (pre ++ suf) (zlen pre) verify = Ok (v, next) →
  check_batch (S fuel) (mkIter (pre ++ suf) verify (zlen pre) n None) b =
  if negb (rv_offset v =? b_offset b) then Err kOutOfRange else
  check_batch fuel (mkIter (pre ++ suf) verify next (n + 1) None)
    (mkBatch (b_offset b + 1) (Z.max (b_max_ts b) (rv_timestamp v)) (u32 (b_seen b + 1))).
Proof.
  intros Hne HP. cbn [check_batch]. unfold NextRecord; cbn [it_status it_data it_pos it_verify_crc].
  destruct (Z.leb_spec (zlen (pre ++ suf)) (zlen pre)) as [Hle|_]; [|by rewrite HP].
  rewrite zlen_app in Hle. destruct suf; [done|]. rewrite zlen_cons in Hle. pose proof (zlen_nonneg suf). lia.
Qed.

Lemma check_batch_end fuel pre suf verify n b :
  suf = [] ∨ (∃ e, suf ≠ [] ∧ ParseRecord (pre ++ suf) (zlen pre) verify = Err e) →
  ∃ it, check_batch (S fuel) (mkIter (pre ++ suf) verify (zlen pre) n None) b = Ok (b, it) ∧
    match it_status it with None => suf = [] | Some e => e ≠ kInternal end.
Proof.
  intros H. cbn [check_batch]. unfold NextRecord; cbn [it_status it_data it_pos it_verify_crc].
  destruct H as [->|(e & Hne & HP)].
  - rewrite app_nil_r. destruct (Z.leb_spec (zlen pre) (zlen pre)); [|lia]. eexists. by split.
  - destruct (Z.leb_spec (zlen (pre ++ suf)) (zlen pre)) as [Hle|_].
    { rewrite zlen_app in Hle. destruct suf; [done|]. rewrite zlen_cons in Hle. pose proof (zlen_nonneg suf). lia. }
    rewrite HP. eexists. split; [done|]. cbn.
    revert HP. unfold ParseRecord. repeat case_match; congruence.
Qed.

Lemma scanned_nil b : unsigned 32 (b_seen b) → scanned b [] = b.
Proof.
  intros Hb. destruct b as [o m c]. unfold scanned; cbn. change (zlen (@nil (bytes * LogRecord))) with 0.
  by rewrite !Z.add_0_r, uwrap_small.
Qed.
Lemma batch_run_nil verify offset : batch_run verify offset [] [].
Proof. by split; [|split; [constructor|intros i r Hi]]. Qed.
Lemma batch_run_cons verify offset r x rest rs :
  run_ok verify [(r, x)] → lr_offset x = offset → batch_run verify (offset + 1) rest rs →
  batch_run verify offset (r ++ rest) ((r, x) :: rs).
Proof.
  intros Hr Ho (-> & Hok & Hc). split; [done|]. split; [by apply run_ok_cons|]. by apply consecutive_cons.
Qed.

(** A scan that ends well has seen a run with the expected offsets. *)
Definition scan_result (verify : bool) (suf : bytes) (b : Batch) (r : Result (Batch * RecordIterator)) : Prop :=
  match r with
  | Ok (b', it) =>
      match it_status it with
      | None => ∃ rs, batch_run verify (b_offset b) suf rs ∧ b' = scanned b rs
      | Some e => e ≠ kInternal
      end
  | Err e => e ≠ kInternal
  end.

Lemma check_batch_sound fuel pre suf verify n b :
  Forall is_byte pre → sane suf → zlen (pre ++ suf) < 2 ^ 62 → (length suf < fuel)%nat → unsigned 32 (b_seen b) →
  scan_result verify suf b (check_batch fuel (mkIter (pre ++ suf) verify (zlen pre) n None) b).
Proof.
  revert pre suf n b. induction fuel as [|fuel IH]; intros pre suf n b Hpre Hs Hbig Hfuel Hseen; [lia|].
  assert (Hend : suf = [] ∨ (∃ e, suf ≠ [] ∧ ParseRecord (pre ++ suf) (zlen pre) verify = Err e) →
    scan_result verify suf b (check_batch (S fuel) (mkIter (pre ++ suf) verify (zlen pre) n None) b)).
  { intros H. destruct (check_batch_end fuel pre suf verify n b H) as (it & -> & Hit). unfold scan_result.
    destruct (it_status it); [done|]. subst suf. exists []. split; [apply batch_run_nil|by rewrite scanned_nil]. }
  destruct (decide (suf = [])) as [He|Hne]; [by apply Hend; left|].
  destruct (ParseRecord (pre ++ suf) (zlen pre) verify) as [[v next]|e] eqn:HP; [|apply Hend; right; by exists e].
  rewrite (check_batch_step _ _ _ _ _ _ _ _ Hne HP).
  destruct (parse_front _ _ _ _ _ Hpre Hs Hbig HP) as (r & x & rest & -> & -> & Hr & Hv & Hrest & Hb & Hlen).
  destruct Hv as (Vo & Vt & _). destruct (Z.eqb_spec (rv_offset v) (b_offset b)) as [Ho|]; [|done]. cbn [negb].
  rewrite app_assoc in Hbig |- *. rewrite <- zlen_app.
  specialize (IH (pre ++ r) rest (n + 1) (mkBatch (b_offset b + 1) (Z.max (b_max_ts b) (rv_timestamp v)) (u32 (b_seen b + 1)))
    ltac:(by apply Forall_app) Hrest Hbig).
  rewrite length_app in Hfuel. specialize (IH ltac:(unfold zlen in Hlen; lia) ltac:(by apply uwrap_range)).
  destruct (check_batch fuel _ _) as [[b' it]|e]; [|done]. unfold scan_result in *. destruct (it_status it); [done|].
  destruct IH as (rs & Hrs & ->). exists ((r, x) :: rs).
  split; [apply batch_run_cons; [done|congruence|done]|]. rewrite <- scanned_cons. cbn [snd]. by rewrite <- Vt.
Qed.

(** On a run of records only the offsets can make the scan fail. *)
Lemma check_batch_run fuel pre rs verify n b :
  run_ok verify rs → zlen (pre ++ run_bytes rs) < 2 ^ 62 → (length rs < fuel)%nat → unsigned 32 (b_seen b) →
  let r := check_batch fuel (mkIter (pre ++ run_bytes rs) verify (zlen pre) n None) b in
  (consecutive (b_offset b) rs ∧ ∃ it, r = Ok (scanned b rs, it) ∧ it_status it = None) ∨
  (¬ consecutive (b_offset b) rs ∧ r = Err kOutOfRange).
Proof.
  revert pre rs n b. induction fuel as [|fuel IH]; intros pre rs n b Hok Hbig Hfuel Hseen; [lia|].
  destruct rs as [|[r x] rs].
  - left. split; [by intros i r Hi|]. cbn [check_batch]. unfold NextRecord; cbn [it_status it_data it_pos it_verify_crc].
    change (run_bytes []) with (@nil Z). rewrite app_nil_r, scanned_nil by done.
    destruct (Z.leb_spec (zlen pre) (zlen pre)); [|lia]. eexists. by split.
  - change (run_bytes ((r, x) :: rs)) with (r ++ run_bytes rs) in *.
    apply run_ok_cons in Hok as [Hr Hok]. cbv zeta. rewrite consecutive_cons.
    destruct (parse_record_front pre r x (run_bytes rs) verify Hr Hbig) as (v & HP & Vo & Vt & _).
    assert (Hne : r ++ run_bytes rs ≠ []).
    { intros HE. pose proof (run_record_bounds verify [(r, x)] 0 _ Hr eq_refl) as Hb. cbn [fst] in Hb.
      apply (f_equal zlen) in HE. rewrite zlen_app, zlen_nil in HE. pose proof (zlen_nonneg (run_bytes rs)). lia. }
    rewrite (check_batch_step _ _ _ _ _ _ _ _ Hne HP). cbn [fst snd] in *. rewrite Vo.
    destruct (Z.eqb_spec (lr_offset x) (b_offset b)) as [Ho|]; [|right; by split; [intros [? _]|]]. cbn [negb].
    rewrite app_assoc in Hbig |- *. rewrite <- zlen_app, Vt, <- (scanned_cons b (r, x)). cbn [snd].
    destruct (IH (pre ++ r) rs (n + 1) (mkBatch (b_offset b + 1) (Z.max (b_max_ts b) (lr_timestamp x)) (u32 (b_seen b + 1)))
      Hok Hbig ltac:(cbn in Hfuel; lia) ltac:(by apply uwrap_range)) as [[Hc H]|[Hc H]]; [by left|].
    right. by split; [intros [_ ?]|].
Qed.

Lemma run_length_bytes v rs : run_ok v rs → 27 * zlen rs ≤ zlen (run_bytes rs).
Proof.
  induction 1 as [|p rs (crc & Hs & _) Hok IH]; [done|]. change (run_bytes (p :: rs)) with (p.1 ++ run_bytes rs).
  rewrite zlen_cons, zlen_app. pose proof (shape_bounds _ _ _ Hs). lia.
Qed.

(** The whole scan of one run of bytes. *)
Lemma check_run_spec data verify b :
  sane data → zlen data < 2 ^ 62 → unsigned 32 (b_seen b) →
  match check_run data verify b with
  | Ok b' => ∃ rs, batch_run verify (b_offset b) data rs ∧ b' = scanned b rs
  | Err e => e ≠ kInternal ∧ ∀ rs, ¬ batch_run verify (b_offset b) data rs
  end.
Proof.
  intros Hs Hbig Hb. unfold check_run, newIterator.
  pose proof (check_batch_sound (S (S (length data))) [] data verify 0 b ltac:(constructor) Hs Hbig ltac:(lia) Hb) as HS.
  assert (HC : ∀ rs, batch_run verify (b_offset b) data rs →
    ∃ it, check_batch (S (S (length data))) (mkIter data verify 0 0 None) b = Ok (scanned b rs, it) ∧ it_status it = None).
  { intros rs (-> & Hok & Hc). destruct (check_batch_run (S (S (length (run_bytes rs)))) [] rs verify 0 b Hok Hbig)
      as [[_ H]|[H _]]; [|done|exact H|done].
    pose proof (run_length_bytes _ _ Hok). unfold zlen in *. lia. }
  cbn [app] in HS. change (zlen (@nil Z)) with 0 in HS.
  destruct (check_batch _ _ b) as [[b' it]|e]; cbn [scan_result] in HS; cbn.
  - destruct (it_status it) as [e|] eqn:Es; [|done]. split; [done|]. intros rs Hrs.
    destruct (HC rs Hrs) as (it' & [= _ <-] & H). congruence.
  - split; [done|]. intros rs Hrs. destruct (HC rs Hrs) as (it' & ? & H). congruence.
Qed.

(** Scanning the batch at [offset] tells exactly whether it is a run that continues
    there. *)
Definition scans_at (offset : Z) (records : bytes) : Prop :=
  let b := mkBatch offset (-1) 0 in
  match check_run records true b with
  | Ok b' => ∃ rs, batch_run true offset records rs ∧ b' = scanned b rs
  | Err e => e ≠ kInternal ∧ ∀ rs, ¬ batch_run true offset records rs
  end.
Lemma sane_scans offset records : sane records → zlen records < 2 ^ 62 → scans_at offset records.
Proof. intros Hs Hb. exact (check_run_spec records true (mkBatch offset (-1) 0) Hs Hb ltac:(done)). Qed.
(** For bytes known to be such a run this needs nothing else. *)
Lemma run_scans offset rs :
  run_ok true rs → zlen (run_bytes rs) < 2 ^ 62 → consecutive offset rs → scans_at offset (run_bytes rs).
Proof.
  intros Hok Hbig Hc. unfold scans_at, check_run, newIterator. cbv zeta. pose proof (run_length_bytes _ _ Hok) as HL.
  destruct (check_batch_run (S (S (length (run_bytes rs)))) [] rs true 0 (mkBatch offset (-1) 0) Hok Hbig)
    as [[_ (it & H & Hit)]|[H _]]; [unfold zlen in *; lia|done| |done].
  cbn [app] in H. change (zlen (@nil Z)) with 0 in H. rewrite H. cbn [rbind]. rewrite Hit. exists rs. by split.
Qed.

Lemma run_ok_weaken verify rs : run_ok true rs → run_ok verify rs.
Proof. intros H. eapply Forall_impl; [exact H|]. intros p (crc & Hs & Hc). exists crc. auto. Qed.

(** Chunks of a vectored append, each a run of records: the offsets alone decide. *)
Lemma check_chunks_spec (css : list Run) b :
  Forall (run_ok true) css → zlen (run_bytes (concat css)) < 2 ^ 62 → unsigned 32 (b_seen b) →
  (consecutive (b_offset b) (concat css) ∧ check_chunks (map run_bytes css) b = Ok (scanned b (concat css))) ∨
  (¬ consecutive (b_offset b) (concat css) ∧ check_chunks (map run_bytes css) b = Err kOutOfRange).
Proof.
  intros Hok. revert b. induction Hok as [|rs css Hr Hok IH]; intros b Hbig Hb.
  - left. split; [by intros i r Hi|]. cbn. by rewrite scanned_nil.
  - cbn [concat map check_chunks] in *. rewrite run_bytes_app, zlen_app in Hbig.
    pose proof (zlen_nonneg (run_bytes rs)). pose proof (zlen_nonneg (run_bytes (concat css))).
    pose proof (run_length_bytes _ _ Hr) as HL. unfold check_run, newIterator.
    destruct (check_batch_run (S (S (length (run_bytes rs)))) [] rs false 0 b (run_ok_weaken _ _ Hr))
      as [[Hc (it & Hch & Hit)]|[Hc Hch]]; [cbn [app]; lia|unfold zlen in *; lia|done| |].
    + cbn [app] in Hch. change (zlen (@nil Z)) with 0 in Hch. rewrite Hch. cbn [rbind]. rewrite Hit. cbn [rbind].
      destruct (IH (scanned b rs)) as [[Hc' ->]|[Hc' ->]]; [lia|by apply uwrap_range| |].
      * left. split; [by apply consecutive_app|]. f_equal. unfold scanned, max_ts_of; cbn [b_offset b_max_ts b_seen].
        rewrite foldl_app, zlen_app, u32_add. f_equal; [lia|]. f_equal. lia.
      * right. split; [|done]. intros HC. apply Hc'. apply (consecutive_drop _ (length rs)) in HC.
        by rewrite drop_app_length in HC.
    + cbn [app] in Hch. change (zlen (@nil Z)) with 0 in Hch. rewrite Hch. right. split; [|done].
      intros HC. apply Hc. apply (consecutive_take _ (length rs)) in HC. by rewrite take_app_length in HC.
Qed.

(** ** The leader's scan *)

(** The records as the log stores them: consecutive offsets, missing timestamps
    filled in, checksums recomputed. *)
Fixpoint stamp (now offset : Z) (rs : Run) : Run :=
  match rs with
  | [] => []
  | (r, x) :: rs =>
      let ts := if 0 <? lr_timestamp x then lr_timestamp x else now in
      (RewriteRecordHeader r (zlen r) offset ts, set_header offset ts x) :: stamp now (offset + 1) rs
  end.

Lemma stamp_length now offset rs : length (stamp now offset rs) = length rs.
Proof. revert offset. induction rs as [|[r x] rs IH]; intros offset; [done|]. cbn. by rewrite IH. Qed.
Lemma zlen_stamp now offset rs : zlen (stamp now offset rs) = zlen rs.
Proof. unfold zlen. by rewrite stamp_length. Qed.

Lemma stamped_ts now x r crc : shape r x crc → signed 64 now →
  signed 64 (if 0 <? lr_timestamp x then lr_timestamp x else now).
Proof. intros (? & ? & _ & _ & _ & _ & _ & ? & _) Hn. by destruct (_ <? _). Qed.

(** Stamping makes a run with consecutive offsets and good checksums, in place. *)
Lemma stamp_spec now offset rs :
  run_ok false rs → signed 64 now → - 2 ^ 63 ≤ offset → offset + zlen rs ≤ 2 ^ 63 →
  run_ok true (stamp now offset rs) ∧ consecutive offset (stamp now offset rs) ∧
  zlen (run_bytes (stamp now offset rs)) = zlen (run_bytes rs).
Proof.
  intros Hok Hnow. revert offset. induction Hok as [|[r x] rs (crc & Hs & _) Hok IH]; intros offset Hlo Hhi.
  { split_and!; [constructor|by intros i r Hi|done]. }
  rewrite zlen_cons in Hhi. pose proof (zlen_nonneg rs). cbn [stamp fst snd] in *. cbv zeta.
  set (ts := if 0 <? lr_timestamp x then lr_timestamp x else now).
  destruct (Rewrite_encodes r x crc offset ts Hs) as [He Hl]; [unfold signed; lia|by apply (stamped_ts now x r crc)|].
  destruct (IH (offset + 1) ltac:(lia) ltac:(lia)) as (I1 & I2 & I3). split_and!.
  - constructor; [|done]. eexists. by split.
  - by apply consecutive_cons.
  - change (run_bytes (?p :: ?q)) with (p.1 ++ run_bytes q). cbn [fst]. rewrite !zlen_app, I3, Hl. done.
Qed.

Lemma StoreLe_is_byte n v : Forall is_byte (StoreLe n v).
Proof. apply le_bytes_is_byte. Qed.
Lemma zsplice_is_byte pos bs l : Forall is_byte bs → Forall is_byte l → Forall is_byte (zsplice pos bs l).
Proof.
  intros Hb Hl. unfold zsplice, ztake, zdrop. rewrite !Forall_app. split_and!; [by apply Forall_take|done|by apply Forall_drop].
Qed.
Lemma Rewrite_is_byte r n off ts : Forall is_byte r → Forall is_byte (RewriteRecordHeader r n off ts).
Proof. intros Hr. unfold RewriteRecordHeader, StoreLeI64. auto using zsplice_is_byte, StoreLe_is_byte. Qed.

Lemma run_split_unique verify pre r rest rs v :
  zlen (pre ++ r ++ rest) < 2 ^ 62 → run_ok verify rs → r ≠ [] → r ++ rest = run_bytes rs →
  ParseRecord (pre ++ r ++ rest) (zlen pre) verify = Ok (v, zlen pre + zlen r) →
  ∃ p rs', rs = p :: rs' ∧ rest = run_bytes rs' ∧ run_ok verify rs'.
Proof.
  intros Hbig Hok Hne HE HP. destruct rs as [|[r' x'] rs']; [by destruct r|].
  exists (r', x'), rs'. apply run_ok_cons in Hok as [Hr Hok]. split; [done|].
  change (run_bytes ((r', x') :: rs')) with (r' ++ run_bytes rs') in HE.
  destruct (parse_record_front pre r' x' (run_bytes rs') verify Hr) as (v' & HP' & _); [by rewrite <- HE|].
  rewrite <- HE, HP in HP'. injection HP' as _ Hl. apply app_inj_1 in HE as [_ ?]; [done|]. unfold zlen in Hl. lia.
Qed.

(** The batch is a run of records (their old offsets and checksums ignored) and comes
    out stamped, or the scan reports an error. *)
Lemma assign_loop_spec fuel now pre suf b :
  Forall is_byte pre → sane suf → zlen (pre ++ suf) < 2 ^ 62 → (length suf < fuel)%nat → unsigned 32 (b_seen b) →
  signed 64 now → - 2 ^ 63 ≤ b_offset b → b_offset b + zlen suf < 2 ^ 63 →
  match assign_loop fuel now (zlen pre) b (pre ++ suf) with
  | (Ok b', out) => ∃ rs, suf = run_bytes rs ∧ run_ok false rs ∧
      out = pre ++ run_bytes (stamp now (b_offset b) rs) ∧ b' = scanned b (stamp now (b_offset b) rs)
  | (Err e, _) => e ≠ kInternal ∧ ∀ rs, run_ok false rs → suf ≠ run_bytes rs
  end.
Proof.
  revert pre suf b. induction fuel as [|fuel IH]; intros pre suf b Hpre Hs Hbig Hfuel Hseen Hnow Hlo Hhi; [lia|].
  cbn [assign_loop]. destruct (Z.ltb_spec (zlen pre) (zlen (pre ++ suf))) as [Hlt|Hge]; rewrite zlen_app in *.
  2:{ assert (suf = []) as -> by (apply zlen_0_nil; pose proof (zlen_nonneg suf); lia).
      exists []. cbn [stamp]. rewrite scanned_nil by done. split_and!; [done|constructor|done|done]. }
  destruct (ParseRecord (pre ++ suf) (zlen pre) false) as [[v next]|e] eqn:HP.
  2:{ split; [revert HP; unfold ParseRecord; repeat case_match; congruence|]. intros [|[r x] rs] Hok HE.
      { rewrite HE in Hlt. change (zlen (run_bytes [])) with 0 in Hlt. lia. }
      apply run_ok_cons in Hok as [Hr _]. change (run_bytes ((r, x) :: rs)) with (r ++ run_bytes rs) in HE.
      destruct (parse_record_front pre r x (run_bytes rs) false Hr) as (v & HP' & _); rewrite <- HE in *.
      - by rewrite zlen_app.
      - congruence. }
  destruct (parse_front _ _ _ _ _ Hpre Hs ltac:(by rewrite zlen_app) HP) as (r & x & rest & -> & -> & Hr & Hv & Hrest & Hrb & Hlen).
  destruct Hv as (_ & Vt & _). rewrite Vt. cbv zeta.
  set (ts := if 0 <? lr_timestamp x then lr_timestamp x else now).
  replace (zlen pre + zlen r - zlen pre) with (zlen r) by lia.
  rewrite slice_app_r, Z.sub_diag, slice_0, ztake_app by done.
  apply Forall_cons in Hr as HR. destruct HR as ((crc & Hsh & _) & _). cbn [fst snd] in Hsh.
  pose proof (zlen_nonneg rest) as Hr0. rewrite zlen_app in *.
  destruct (Rewrite_encodes r x crc (b_offset b) ts Hsh) as [He Hl]; [unfold signed; lia|by apply (stamped_ts now x r crc)|].
  set (r' := RewriteRecordHeader r (zlen r) (b_offset b) ts) in *.
  rewrite zsplice_next by done. rewrite (zdrop_app _ r) by done.
  rewrite <- Hl. rewrite <- zlen_app. rewrite length_app in Hfuel.
  specialize (IH (pre ++ r') rest (mkBatch (b_offset b + 1) (Z.max (b_max_ts b) ts) (u32 (b_seen b + 1)))
    ltac:(apply Forall_app; split; [done|by apply Rewrite_is_byte]) Hrest ltac:(rewrite !zlen_app; lia) ltac:(unfold zlen in Hlen; lia)
    ltac:(by apply uwrap_range) Hnow ltac:(cbn; lia) ltac:(cbn; lia)).
  destruct (assign_loop fuel _ _ _ _) as [[b'|e] out].
  - destruct IH as (rs & -> & Hok & -> & ->). exists ((r, x) :: rs). cbn [b_offset stamp]. cbv zeta. fold ts. fold r'.
    split; [done|]. split; [by apply run_ok_cons|]. split; [by rewrite <- app_assoc|]. apply (scanned_cons b (r', set_header (b_offset b) ts x)).
  - destruct IH as [Hne IH]. split; [done|]. intros rs Hok HE.
    destruct (run_split_unique false pre r rest rs v) as (p & rs' & _ & HE' & Hok'); [rewrite !zlen_app; lia|done| |done|done|].
    + intros ->. change (zlen (@nil Z)) with 0 in Hlen. lia.
    + by apply (IH rs' Hok').
Qed.

Lemma assign_loop_run fuel now pre rs b :
  run_ok false rs → zlen (pre ++ run_bytes rs) < 2 ^ 62 → (length rs < fuel)%nat → unsigned 32 (b_seen b) →
  signed 64 now → - 2 ^ 63 ≤ b_offset b → b_offset b + zlen rs < 2 ^ 63 →
  assign_loop fuel now (zlen pre) b (pre ++ run_bytes rs) =
  (Ok (scanned b (stamp now (b_offset b) rs)), pre ++ run_bytes (stamp now (b_offset b) rs)).
Proof.
  intros Hok. revert fuel pre b. induction Hok as [|[r x] rs Hr Hok IH]; intros [|fuel] pre b Hbig Hfuel Hseen Hnow Hlo Hhi; try (cbn in Hfuel; lia).
  { cbn [assign_loop stamp]. change (run_bytes []) with (@nil Z). rewrite app_nil_r, Z.ltb_irrefl, scanned_nil by done. done. }
  cbn [assign_loop]. change (run_bytes ((r, x) :: rs)) with (r ++ run_bytes rs) in *.
  destruct Hr as (crc & Hsh & Hv). cbn [fst snd] in Hsh, Hv. pose proof (shape_bounds _ _ _ Hsh) as Hb.
  rewrite zlen_cons in Hhi. pose proof (zlen_nonneg rs). pose proof (zlen_nonneg (run_bytes rs)).
  rewrite (proj2 (Z.ltb_lt _ _)) by (rewrite !zlen_app; lia).
  destruct (parse_record_front pre r x (run_bytes rs) false) as (v & -> & (_ & Vt & _)); [constructor; [by exists crc|constructor]|done|].
  rewrite Vt. cbv zeta. cbn [stamp]. cbv zeta. set (ts := if 0 <? lr_timestamp x then lr_timestamp x else now).
  replace (zlen pre + zlen r - zlen pre) with (zlen r) by lia.
  rewrite slice_app_r, Z.sub_diag, slice_0, ztake_app by done.
  destruct (Rewrite_encodes r x crc (b_offset b) ts Hsh) as [He Hl]; [unfold signed; lia|by apply (stamped_ts now x r crc)|].
  set (r' := RewriteRecordHeader r (zlen r) (b_offset b) ts) in *.
  rewrite zsplice_next by done. rewrite (zdrop_app _ r) by done. rewrite <- Hl, <- zlen_app. cbn [length] in Hfuel.
  rewrite !zlen_app in Hbig. rewrite IH; cbn [b_offset b_seen]; [|rewrite !zlen_app; lia|lia|by apply uwrap_range|done|lia|lia].
  rewrite <- (scanned_cons b (r', set_header (b_offset b) ts x)). by rewrite <- app_assoc.
Qed.

(** A byte string is cut into records in one way only. *)
Lemma run_cut_unique v v' rs rs' :
  run_ok v rs → run_ok v' rs' → run_bytes rs = run_bytes rs' → map fst rs = map fst rs'.
Proof.
  intros Hok. revert rs'. induction Hok as [|[r x] rs (crc & Hs & _) Hok IH]; intros rs' Hok' HE.
  - destruct Hok' as [|[r' x'] rs' (crc' & Hs' & _) _]; [done|]. cbn [fst] in Hs'.
    change (run_bytes ((r', x') :: rs')) with (r' ++ run_bytes rs') in HE. apply (f_equal zlen) in HE.
    rewrite zlen_app in HE. change (zlen (run_bytes [])) with 0 in HE.
    pose proof (shape_bounds _ _ _ Hs'). pose proof (zlen_nonneg (run_bytes rs')). lia.
  - change (run_bytes ((r, x) :: rs)) with (r ++ run_bytes rs) in HE. cbn [fst] in Hs.
    destruct Hok' as [|[r' x'] rs' (crc' & Hs' & _) Hok'].
    { apply (f_equal zlen) in HE. rewrite zlen_app in HE. change (zlen (run_bytes [])) with 0 in HE.
      pose proof (shape_bounds _ _ _ Hs). pose proof (zlen_nonneg (run_bytes rs)). lia. }
    change (run_bytes ((r', x') :: rs')) with (r' ++ run_bytes rs') in HE. cbn [fst] in Hs'.
    pose proof (shape_length _ _ _ (run_bytes rs) Hs) as H1. pose proof (shape_length _ _ _ (run_bytes rs') Hs') as H2.
    rewrite HE in H1. apply app_inj_1 in HE as [-> HE]; [|unfold zlen in *; lia].
    cbn [map fst]. f_equal. by apply IH.
Qed.
Lemma run_cut_length v v' rs rs' :
  run_ok v rs → run_ok v' rs' → run_bytes rs = run_bytes rs' → zlen rs = zlen rs'.
Proof.
  intros H1 H2 HE. pose proof (run_cut_unique v v' rs rs' H1 H2 HE) as HM. apply (f_equal length) in HM.
  rewrite !length_map in HM. unfold zlen. lia.
Qed.
