(* ===== verification/PartitionLogAppend.v ===== *)
(** * PartitionLogAppend: appending to a partition log

    The three append operations against the abstract log, the run of records it holds:
    a successful append extends the run by exactly the batch, a failed one leaves it
    as it was (or, when only the flush of a synchronous append failed, extended), and
    without failures of the system an append fails only on an invalid batch. *)
From S2P Require Import Prelude Status Endian Crc32c Buffer Types Codec Frame Record FileUtil Search OffsetIndex Quiet Segment SegmentSpec Recovery SegmentOps SegmentRead SegmentTheorems PartitionLog PartitionLogSpec PartitionLogRoll PartitionLogBatch.

(** ** Adding a batch to the last segment *)

Lemma seg_flushed_app fl s s' rs new :
  fl ≤ base_offset s + zlen rs → base_offset s' = base_offset s → synced_position s' = synced_position s →
  seg_flushed fl s rs → seg_flushed fl s' (rs ++ new).
Proof.
  unfold seg_flushed. intros Hle -> -> H. rewrite pos_of_app; [done|]. unfold zlen in Hle. lia.
Qed.

Lemma seg_durable_app s s' rs new :
  synced_position s' = synced_position s → durable (seg_file s') = durable (seg_file s) → seg_options s' = seg_options s →
  seg_durable s rs → seg_durable s' (rs ++ new).
Proof.
  unfold seg_durable, sync_intact, seg_secured. intros -> -> -> [Hb Hd]. rewrite run_bytes_app, zlen_app. pose proof (zlen_nonneg (run_bytes new)).
  split; [lia|]. intros Hin. rewrite (Hd Hin). by rewrite ztake_app_le by lia.
Qed.

Lemma appended_good s s' rs new r :
  seg_good s rs → records_fit_lookup new → appended rs new s s' r →
  match r with Ok _ => seg_good s' (rs ++ new) | Err _ => seg_good s' rs end.
Proof.
  intros (Hi & Hf & Hd) Hfn (A1 & A2 & A3 & A4 & A5 & A6). destruct r.
  - split; [done|]. split; [by apply Forall_app|]. by apply (seg_durable_app s).
  - destruct A6 as [A6 _]. split; [done|]. split; [done|]. unfold seg_durable, sync_intact, seg_secured in *. by rewrite A2, A3, A4.
Qed.

(** The write and the bookkeeping that end every append. *)
Definition commit (e : LogEnv) (i : nat) (m : SR Segment unit) (r : AppendResult) : SR PartitionLog unit :=
  at_segment i m ;;; FinalizeAppend e r.

(** The counters after an append, with or without an immediate flush. *)
Definition accounted (l l' : PartitionLog) (new : Run) : Prop :=
  if sync_on_append (flush_policy (lg_options l)) then flushed_offset l' = log_end_offset l'
  else flushed_offset l' = flushed_offset l ∧ unflushed_bytes l' = unflushed_bytes l + zlen (run_bytes new) ∧
       unflushed_records l' = unflushed_records l + zlen new.

(** What an append does to a log holding [rss]. *)
Definition grown (l l' : PartitionLog) (rss : list Run) (new : Run) {A} (r : Result A) : Prop :=
  log_start_offset l' = log_start_offset l ∧ lg_options l' = lg_options l ∧
  ∃ rss', log_inv l' rss' ∧
  match r with
  | Ok _ => concat rss' = concat rss ++ new ∧ accounted l l' new
  | Err _ => concat rss' = concat rss ∧ flushed_offset l' = flushed_offset l ∨
             sync_on_append (flush_policy (lg_options l)) = true ∧ concat rss' = concat rss ++ new ∧
             flushed_offset l ≤ flushed_offset l'
  end.

Lemma concat_snoc {A} (xss : list (list A)) xs ys : concat (xss ++ [xs ++ ys]) = concat (xss ++ [xs]) ++ ys.
Proof. rewrite !concat_app. cbn [concat]. by rewrite !app_nil_r, app_assoc. Qed.

Lemma FinalizeAppend_eq e ar l :
  let l1 := with_unflushed (unflushed_bytes l + ar_bytes ar) (unflushed_records l + ar_record_count ar)
              (with_offsets (log_start_offset l) (ar_last_offset ar + 1) (flushed_offset l) l) in
  FinalizeAppend e ar l = if sync_on_append (flush_policy (lg_options l)) then Flush e l1 else (Ok tt, l1).
Proof. unfold FinalizeAppend, sbind, sget, smod. by destruct (sync_on_append _). Qed.

Section Commit.
Context (e : LogEnv) (l : PartitionLog) (ss0 : list Segment) (s : Segment) (rss0 : list Run) (rs new : Run).
Context (m : SR Segment unit) (ar : AppendResult).
Hypothesis Hinv : log_inv l (rss0 ++ [rs]).
Hypothesis Hsplit : split_inv l (rss0 ++ [rs]) ss0 s rss0 rs.
Hypothesis Hfit : records_fit_lookup new.
Hypothesis Happ : appended rs new s (m s).2 (m s).1.
Hypothesis Hlast : ar_last_offset ar = log_end_offset l + zlen new - 1.
Hypothesis Hbytes : ar_bytes ar = zlen (run_bytes new).
Hypothesis Hcount : ar_record_count ar = zlen new.

Lemma commit_spec :
  let r := commit e (length ss0) m ar l in grown l r.2 (rss0 ++ [rs]) new r.1.
Proof.
  destruct Hsplit as (Hs & _ & HL & Ha & Hc & Hb & Hg & Hf & Hn & Hse).
  pose proof (appended_good s _ rs new _ Hg Hfit Happ) as HG. pose proof Happ as (A1 & A2 & A3 & A4 & A5 & A6).
  pose proof (li_flushed _ _ Hinv) as Hle. pose proof (li_open _ _ Hinv) as Hop.
  pose proof Hg as (Hi & _). pose proof (inv_next _ _ Hi) as HN. pose proof (zlen_nonneg new).
  unfold commit, sbind. rewrite (at_segment_last m l ss0 s Hs).
  destruct (m s) as [[[]|err] s']; cbn [fst snd] in *.
  - assert (Hinv1 : log_inv (with_unflushed (unflushed_bytes l + ar_bytes ar) (unflushed_records l + ar_record_count ar)
      (with_offsets (log_start_offset l) (ar_last_offset ar + 1) (flushed_offset l) (with_segments (ss0 ++ [s']) l)))
      (rss0 ++ [rs ++ new])).
    { apply (log_join l _ ss0 s'); cbn; try done.
      - congruence.
      - by apply (seg_flushed_app _ s); [lia|..].
      - rewrite (inv_next _ _ A6), A1, zlen_app. lia.
      - lia. }
    rewrite FinalizeAppend_eq. cbn [unflushed_bytes unflushed_records log_start_offset flushed_offset with_segments lg_options].
    unfold grown, accounted. destruct (sync_on_append _) eqn:Ey; cbn [fst snd].
    + destruct (Flush_spec e _ _ Hinv1) as [F1 F2]. destruct (Flush e _) as [[[]|err] l2]; cbn [fst snd] in *;
        destruct F2 as (G1 & G2 & G3 & G4 & G5); (split; [done|]; split; [done|]; exists (rss0 ++ [rs ++ new]); split; [done|]).
      * split; [apply concat_snoc|]. rewrite G2. by apply G5.
      * right. split; [done|]. split; [apply concat_snoc|]. destruct G5 as (_ & G5 & _). cbn in G5. lia.
    + split; [done|]. split; [done|]. exists (rss0 ++ [rs ++ new]). split; [done|]. split; [apply concat_snoc|].
      cbn. by rewrite Hbytes, Hcount.
  - split; [done|]. split; [done|]. exists (rss0 ++ [rs]). split; [|by left].
    apply (log_join l _ ss0 s'); cbn; try done.
    + congruence.
    + unfold seg_flushed. by rewrite A1, A3.
    + rewrite (inv_next _ _ (proj1 A6)), A1. congruence.
Qed.
End Commit.

Lemma commit_quiet e l ss0 s m ar :
  segments l = ss0 ++ [s] → log_quiet l → is_ok (m s).1 = true → seg_quiet (m s).2 →
  is_ok (commit e (length ss0) m ar l).1 = true.
Proof.
  intros Hs Hq Hm Hqs. unfold commit, sbind. rewrite (at_segment_last m l ss0 s Hs).
  destruct (m s) as [[[]|err] s']; [|done]. cbn [fst snd] in *. rewrite FinalizeAppend_eq.
  destruct (sync_on_append _); [|done]. apply Flush_quiet. unfold log_quiet; cbn.
  apply Forall_app. split; [apply (log_quiet_last l ss0 s Hs) in Hq; tauto|by constructor].
Qed.

(** ** Steps that keep the records *)

Lemma same_meta_trans l1 l2 l3 : same_meta l1 l2 → same_meta l2 l3 → same_meta l1 l3.
Proof.
  intros (?&?&?&?&?&?&?) (?&?&?&?&?&?&?). unfold same_meta. split_and!; congruence.
Qed.
Lemma grown_err {A} l l' rss rss' new (e : ErrorCode) :
  same_meta l l' → log_inv l' rss' → concat rss' = concat rss → grown l l' rss new (@Err A e).
Proof. intros (M1&M2&M3&M4&M5&M6&M7) Hi Hc. split; [done|]. split; [done|]. exists rss'. split; [done|]. by left. Qed.
Lemma grown_trans {A} l l1 l2 rss rss1 new (r : Result A) :
  same_meta l l1 → concat rss1 = concat rss → grown l1 l2 rss1 new r → grown l l2 rss new r.
Proof.
  intros (M1&M2&M3&M4&M5&M6&M7) Hc (G1 & G2 & rss' & Hi & G). split; [congruence|]. split; [congruence|].
  exists rss'. split; [done|]. unfold accounted in *. rewrite M5, M3, M6, M7, Hc in G. done.
Qed.
(** The result value of an append does not matter to the log. *)
Lemma grown_result {A B} l l' rss new (r : Result A) (r' : Result B) :
  is_ok r = is_ok r' → grown l l' rss new r → grown l l' rss new r'.
Proof. by destruct r, r'. Qed.

Lemma check_and_roll e n l rss :
  log_inv l rss → fresh_files (env_files e) →
  let r := (CheckDiskSpace e ;;; MaybeRoll e n) l in
  same_meta l r.2 ∧ (calm_env e l → is_ok r.1 = true ∧ log_quiet r.2) ∧
  ∃ rss', log_inv r.2 rss' ∧ concat rss' = concat rss ∧ (is_ok r.1 = true → room_for n rss').
Proof.
  intros Hinv Hfr. unfold sbind. destruct (CheckDiskSpace_core e l) as [Hcore Hcd]. pose proof (CheckDiskSpace_meta e l) as Hm.
  pose proof (log_inv_core _ _ _ Hcore Hinv) as Hinv1. destruct (CheckDiskSpace e l) as [[[]|err] l1] eqn:EC; cbn [fst snd] in *.
  - destruct (MaybeRoll_spec e n l1 rss Hinv1 Hfr) as (Hm2 & rss' & Hi & Hr & Hroom).
    split; [by apply (same_meta_trans l l1)|]. split.
    + intros (Hq & _ & Hqf). apply (MaybeRoll_quiet e n l1 rss); try done. unfold log_quiet in *. by rewrite (proj1 Hcore).
    + exists rss'. split; [done|]. split; [by apply rolled_concat|]. intros Hok. apply Hroom. by destruct (MaybeRoll e n l1) as [[[]|]].
  - split; [done|]. split; [intros (_ & H & _); by rewrite EC in H|]. by exists rss.
Qed.

Lemma segment_room rs n : (rs = [] ∨ zlen (run_bytes rs) + n ≤ 0xFFFFFFFF) → n ≤ kMaxRecordBytes →
  zlen (run_bytes rs) + n < 2 ^ 62.
Proof.
  unfold kMaxRecordBytes. intros [->|H] Hn; [change (zlen (run_bytes [])) with 0|]; lia.
Qed.

Lemma small_batch_fits rs : zlen (run_bytes rs) ≤ kMaxRecordBytes → records_fit_lookup rs.
Proof.
  intros H. apply Forall_forall. intros p Hp. apply list_elem_of_lookup in Hp as [i Hi].
  pose proof (pos_of_S rs i p Hi). pose proof (pos_of_le rs i). pose proof (pos_of_le rs (S i)). lia.
Qed.

Lemma at_last l rss ss0 s rss0 rs :
  split_inv l rss ss0 s rss0 rs → active_index l = (Ok (length ss0), l) ∧ the_segment (length ss0) l = (Ok s, l).
Proof.
  intros (Hs & _ & _ & Ha & _). split; [unfold active_index, sbind, sget; by rewrite Ha|].
  unfold the_segment. rewrite (at_segment_last _ l ss0 s Hs). unfold sget; cbn [fst snd]. by rewrite <- Hs, with_segments_id.
Qed.

(** ** A batch committed behind the log *)

(** The last step of an append, from a log with room for the batch. *)
Lemma commit_batch e l rss new (m : SR Segment unit) ar n :
  log_inv l rss → room_for n rss → n = zlen (run_bytes new) → n ≤ kMaxRecordBytes →
  new ≠ [] → run_ok true new → consecutive (log_end_offset l) new →
  (∀ rs s, seg_inv s rs → batch_after (base_offset s) rs new → next_offset s = log_end_offset l →
     appended rs new s (m s).2 (m s).1 ∧ (seg_quiet s → is_ok (m s).1 = true ∧ seg_quiet (m s).2)) →
  ar_last_offset ar = log_end_offset l + zlen new - 1 → ar_bytes ar = n → ar_record_count ar = zlen new →
  ∃ ss0 s, split_inv l rss ss0 s (take (pred (length rss)) rss) (default [] (last rss)) ∧
  let r := commit e (length ss0) m ar l in
  grown l r.2 rss new r.1 ∧ (log_quiet l → is_ok r.1 = true).
Proof.
  intros Hinv (rss0' & rs' & Hr & Hroom) -> Hmax Hne Hok Hcons Hm H1 H2 H3.
  destruct (log_split l rss Hinv) as (ss0 & s & rss0 & rs & Hsp). exists ss0, s.
  pose proof Hsp as (Hs & Hr' & HL & Ha & Hc & Hb & Hg & Hf & Hn & Hse).
  assert (rss0' = rss0 ∧ rs' = rs) as [-> ->] by (rewrite Hr in Hr'; by apply app_inj_2 in Hr' as [-> [= ->]]).
  assert (HE : take (pred (length rss)) rss = rss0 ∧ default [] (last rss) = rs).
  { rewrite Hr, last_snoc, length_app. cbn [length default]. rewrite Nat.add_1_r. cbn [pred]. by rewrite take_app_length. }
  destruct HE as [-> ->]. split; [done|]. rewrite Hr in *.
  pose proof Hg as (Hi & _). destruct (Hm rs s Hi) as [Happ Hqm]; [|congruence|].
  { split; [done|]. split; [done|]. split; [rewrite <- (inv_next _ _ Hi), Hn; done|].
    rewrite run_bytes_app, zlen_app. by apply segment_room. }
  split.
  - apply (commit_spec e l ss0 s rss0 rs); try done. by apply small_batch_fits.
  - intros Hq. destruct (proj1 (log_quiet_last l ss0 s Hs) Hq) as [_ Hqs]. destruct (Hqm Hqs).
    by apply (commit_quiet e l ss0 s).
Qed.

Definition result_of (base : Z) (new : Run) (now : Z) : AppendResult :=
  mkAppendResult base (base + zlen new - 1) (zlen new) (zlen (run_bytes new)) now.

Lemma seen_count v new : run_ok v new → zlen (run_bytes new) ≤ kMaxRecordBytes → u32 (0 + zlen new) = zlen new.
Proof.
  intros Hok Hmax. pose proof (run_length_bytes _ _ Hok). pose proof (zlen_nonneg new). unfold kMaxRecordBytes in Hmax.
  apply uwrap_small. unfold unsigned. lia.
Qed.

Lemma write_batch new base cnt ts rs s :
  seg_inv s rs → batch_after (base_offset s) rs new → next_offset s = base →
  let m := AppendEncoded (run_bytes new) base (base + zlen new - 1) cnt ts in
  appended rs new s (m s).2 (m s).1 ∧ (seg_quiet s → is_ok (m s).1 = true ∧ seg_quiet (m s).2).
Proof.
  intros Hi Hb <-. rewrite (inv_next _ _ Hi). split; [by apply AppendEncoded_spec|].
  intros Hq. by apply (AppendEncoded_quiet rs).
Qed.
Lemma write_chunks chunks new base cnt ts rs s :
  concat chunks = run_bytes new → seg_inv s rs → batch_after (base_offset s) rs new → next_offset s = base →
  let m := AppendEncodedVectored chunks base (base + zlen new - 1) cnt ts in
  appended rs new s (m s).2 (m s).1 ∧ (seg_quiet s → is_ok (m s).1 = true ∧ seg_quiet (m s).2).
Proof.
  intros Hc Hi Hb <-. rewrite (inv_next _ _ Hi). split; [by apply AppendEncodedVectored_spec|].
  intros Hq. by apply (AppendEncodedVectored_quiet rs).
Qed.

(** What an append of [new] has to deliver; [valid] says when it must succeed. *)
Definition append_outcome (e : LogEnv) (l l' : PartitionLog) (rss : list Run) (new : Run)
    (r : Result AppendResult) : Prop :=
  grown l l' rss new r ∧
  match r with
  | Ok ar => new ≠ [] ∧ ar = result_of (log_end_offset l) new (env_append_now e)
  | Err _ => True
  end.

Lemma outcome_err e l l' rss rss' new err :
  same_meta l l' → log_inv l' rss' → concat rss' = concat rss → append_outcome e l l' rss new (Err err).
Proof. intros Hm Hi Hc. split; [by apply (grown_err l l' rss rss')|done]. Qed.

Lemma commit_eq e i m ar l :
  (at_segment i m ;;; FinalizeAppend e ar ;;; sret ar) l =
  ((if is_ok (commit e i m ar l).1 then Ok ar else Err (result_code (commit e i m ar l).1)), (commit e i m ar l).2).
Proof.
  unfold commit, sbind, sret. destruct (at_segment i m l) as [[[]|err] l1]; [|done].
  by destruct (FinalizeAppend e ar l1) as [[[]|err] l2].
Qed.

(** The common end of the appends: from a log rolled for the batch, find the last
    segment, write and account. *)
Lemma append_tail e l l2 rss rss2 new (m : SR Segment unit) ar :
  same_meta l l2 → log_inv l2 rss2 → concat rss2 = concat rss → room_for (zlen (run_bytes new)) rss2 →
  zlen (run_bytes new) ≤ kMaxRecordBytes → new ≠ [] → run_ok true new → consecutive (log_end_offset l) new →
  (∀ rs s, seg_inv s rs → batch_after (base_offset s) rs new → next_offset s = log_end_offset l →
     appended rs new s (m s).2 (m s).1 ∧ (seg_quiet s → is_ok (m s).1 = true ∧ seg_quiet (m s).2)) →
  ar = result_of (log_end_offset l) new (env_append_now e) →
  ∃ i s, active_index l2 = (Ok i, l2) ∧ the_segment i l2 = (Ok s, l2) ∧ next_offset s = log_end_offset l ∧
  let r := (at_segment i m ;;; FinalizeAppend e ar ;;; sret ar) l2 in
  append_outcome e l r.2 rss new r.1 ∧ (log_quiet l2 → is_ok r.1 = true).
Proof.
  intros Hm Hinv2 Hr Hroom Hmax Hne Hok Hcons Hw ->. assert (He2 : log_end_offset l2 = log_end_offset l) by apply Hm.
  set (ar := result_of _ _ _).
  destruct (commit_batch e l2 rss2 new m ar (zlen (run_bytes new)) Hinv2 Hroom eq_refl Hmax Hne Hok)
    as (ss0 & s & Hsp & Hgrown & Hq); rewrite ?He2; try done.
  exists (length ss0), s. destruct (at_last _ _ _ _ _ _ Hsp) as [-> ->]. split; [done|]. split; [done|].
  split; [rewrite <- He2; apply Hsp|]. cbv zeta in *. rewrite commit_eq.
  destruct (commit e (length ss0) m ar l2) as [[[]|err] l3]; cbn [fst snd is_ok result_code] in *.
  - split; [|done]. split; [|done]. apply (grown_trans l l2 l3 rss rss2 new); try done.
  - split; [|done]. split; [|done]. apply (grown_trans l l2 l3 rss rss2 new); try done.
Qed.

(** The replica's append of a batch that carries its offsets. *)
Definition replica_outcome (e : LogEnv) (l : PartitionLog) (rss : list Run) (records : bytes) (cnt : Z)
    (r : Result AppendResult * PartitionLog) : Prop :=
  ∃ new, append_outcome e l r.2 rss new r.1 ∧
  match r.1 with
  | Ok _ => batch_run true (log_end_offset l) records new ∧ zlen new = cnt
  | Err _ => (new = [] ∨ batch_run true (log_end_offset l) records new) ∧
      (calm_env e l → cnt ≠ 0 → ∀ new, batch_run true (log_end_offset l) records new → zlen new ≠ cnt)
  end.

Lemma AppendWithOffsets_outcome e records cnt l rss :
  log_inv l rss → fresh_files (env_files e) → scans_at (log_end_offset l) records → zlen records ≤ kMaxRecordBytes →
  replica_outcome e l rss records cnt (AppendWithOffsets e records cnt l).
Proof.
  intros Hinv Hfr Hsane Hmax. unfold replica_outcome, AppendWithOffsets, sbind, sget, sfail, slift. rewrite (li_open _ _ Hinv).
  assert (Hbig : zlen records < 2 ^ 62) by (unfold kMaxRecordBytes in Hmax; lia).
  destruct ((zlen records =? 0) || (cnt =? 0)) eqn:E0; cbn [fst snd].
  { exists []. split; [by apply (outcome_err e l l rss rss)|]. split; [by left|]. intros _ Hne new (Hd & Hok & _).
    apply orb_true_iff in E0 as [E0%Z.eqb_eq|E0%Z.eqb_eq]; [|lia]. rewrite Hd in E0.
    pose proof (run_length_bytes _ _ Hok). pose proof (zlen_nonneg new). lia. }
  apply orb_false_iff in E0 as [E0%Z.eqb_neq E1%Z.eqb_neq].
  destruct (CheckDiskSpace_core e l) as [Hcore Hcd]. pose proof (CheckDiskSpace_meta e l) as Hm.
  pose proof (log_inv_core _ _ _ Hcore Hinv) as Hinv1. destruct (CheckDiskSpace e l) as [[[]|err] l1] eqn:EC; cbn [fst snd] in *.
  2:{ exists []. split; [by apply (outcome_err e l l1 rss rss)|]. split; [by left|]. intros (_ & H & _). by rewrite EC in H. }
  pose proof Hsane as HC. unfold scans_at in HC. cbv zeta in HC.
  destruct (check_run records true _) as [b|err]; cbn [fst snd b_offset] in *.
  2:{ exists []. split; [by apply (outcome_err e l l1 rss rss)|]. split; [by left|]. intros _ _ new Hb. by destruct HC as [_ HC]; apply HC in Hb. }
  destruct HC as (new & Hnew & ->). pose proof Hnew as (-> & Hok & Hcons).
  unfold scanned; cbn [b_offset b_seen b_max_ts]. rewrite (seen_count true new Hok Hmax).
  destruct (Z.eqb_spec (zlen new) cnt) as [<-|Hcnt]; cbn [negb fst snd].
  2:{ exists []. split; [by apply (outcome_err e l l1 rss rss)|]. split; [by left|]. intros _ _ new' (HE & Hok' & _) Hl.
      apply Hcnt. rewrite <- Hl. by apply (run_cut_length true true). }
  assert (Hne : new ≠ []) by (intros ->; done).
  assert (He1 : log_end_offset l1 = log_end_offset l) by apply Hm.
  destruct (MaybeRoll_spec e (zlen (run_bytes new)) l1 rss Hinv1 Hfr) as (Hm2 & rss2 & Hinv2 & Hr & Hroom).
  assert (Hroll : calm_env e l → is_ok (MaybeRoll e (zlen (run_bytes new)) l1).1 = true ∧ log_quiet (MaybeRoll e (zlen (run_bytes new)) l1).2).
  { intros (Hq & _ & Hqf). apply (MaybeRoll_quiet e _ l1 rss); try done. unfold log_quiet in *. by rewrite (proj1 Hcore). }
  apply rolled_concat in Hr. pose proof (same_meta_trans _ _ _ Hm Hm2) as Hm3.
  destruct (MaybeRoll e (zlen (run_bytes new)) l1) as [[[]|err] l2]; cbn [fst snd] in *.
  2:{ exists []. split; [by apply (outcome_err e l l2 rss rss2)|]. split; [by left|]. intros Hcalm. by destruct (Hroll Hcalm). }
  assert (He2 : log_end_offset l2 = log_end_offset l) by apply Hm3.
  destruct (append_tail e l l2 rss rss2 new (AppendEncoded (run_bytes new) (log_end_offset l) (log_end_offset l + zlen new - 1) (zlen new)
    (max_ts_of (-1) new)) _ Hm3 Hinv2 Hr (Hroom eq_refl) Hmax Hne Hok Hcons (write_batch new _ _ _) eq_refl)
    as (i & s & Hi & Hs & Hn & Hout & Hq).
  rewrite Hi, Hs, Hn, Z.eqb_refl. cbn [negb]. exists new. unfold append_result; cbn [b_offset b_seen].
  unfold result_of, sbind in Hout, Hq.
  match type of Hq with _ → is_ok (fst ?x) = true => change x with (id x) in Hout, Hq; set (r := id x) in * end.
  match goal with |- append_outcome _ _ ?x.2 _ _ _ ∧ _ => change x with r end.
  split; [done|]. destruct r.1; [done|]. split; [by right|]. intros Hcalm. destruct (Hroll Hcalm) as [_ Hlq]. by specialize (Hq Hlq).
Qed.

Lemma on_log_eq {A} (m : SR PartitionLog A) (l : PartitionLog) (bs : bytes) :
  on_log m (l, bs) = ((m l).1, ((m l).2, bs)).
Proof. unfold on_log, szoom. cbn [fst snd]. by destruct (m l). Qed.
Lemma on_batch_eq {A} (m : SR bytes A) (l : PartitionLog) (bs : bytes) :
  on_batch m (l, bs) = ((m bs).1, (l, (m bs).2)).
Proof. unfold on_batch, szoom. cbn [fst snd]. by destruct (m bs). Qed.
Lemma on_log_bind {A B} (m : SR PartitionLog A) (k : A → SR PartitionLog B) st :
  (let! a := on_log m in on_log (k a)) st = on_log (sbind m k) st.
Proof. destruct st as [l bs]. unfold sbind, on_log, szoom. cbn [fst snd]. destruct (m l) as [[a|e] l']; [|done]. cbn. by destruct (k a l'). Qed.

Lemma on_log_bind2 {A B C} (m : SR PartitionLog A) (m2 : SR PartitionLog B) (c : C) st :
  (on_log m ;;; on_log m2 ;;; sret c) st = on_log (m ;;; m2 ;;; sret c) st.
Proof.
  destruct st as [l bs]. unfold sbind, sret, on_log, szoom. cbn [fst snd]. destruct (m l) as [[a|e] l']; [|done].
  cbn. by destruct (m2 l') as [[b|e] l''].
Qed.

(** What the leader's scan makes of the batch, at the front of the buffer. *)
Definition assigns (now base : Z) (records : bytes) : Prop :=
  match assign_loop (S (length records)) now 0 (mkBatch base (-1) 0) records with
  | (Ok b, out) => ∃ rs, let new := stamp now base rs in
      records = run_bytes rs ∧ run_ok false rs ∧ out = run_bytes new ∧ run_ok true new ∧ consecutive base new ∧
      zlen new = zlen rs ∧ zlen (run_bytes new) = zlen records ∧ b = mkBatch (base + zlen new) (max_ts_of (-1) new) (zlen new)
  | (Err _, _) => ∀ rs, run_ok false rs → records ≠ run_bytes rs
  end.
Lemma stamped_batch now base rs :
  run_ok false rs → zlen (run_bytes rs) ≤ kMaxRecordBytes → signed 64 now → - 2 ^ 63 ≤ base → base + zlen (run_bytes rs) < 2 ^ 63 →
  let new := stamp now base rs in
  run_ok true new ∧ consecutive base new ∧ zlen new = zlen rs ∧ zlen (run_bytes new) = zlen (run_bytes rs) ∧
  scanned (mkBatch base (-1) 0) new = mkBatch (base + zlen new) (max_ts_of (-1) new) (zlen new).
Proof.
  intros Hok Hmax Hnow Hlo Hhi. unfold kMaxRecordBytes in Hmax. pose proof (run_length_bytes _ _ Hok). pose proof (zlen_nonneg rs).
  destruct (stamp_spec now base rs Hok Hnow Hlo ltac:(lia)) as (S1 & S2 & S3). cbv zeta.
  split_and!; try done; [apply zlen_stamp|]. unfold scanned; cbn [b_offset b_max_ts b_seen]. f_equal.
  apply (seen_count true); [done|]. unfold kMaxRecordBytes. lia.
Qed.
Lemma assign_spec now base records :
  sane records → zlen records ≤ kMaxRecordBytes → signed 64 now → - 2 ^ 63 ≤ base → base + zlen records < 2 ^ 63 →
  assigns now base records.
Proof.
  intros Hs Hmax Hnow Hlo Hhi. unfold assigns. pose proof Hmax as Hmax'. unfold kMaxRecordBytes in Hmax'.
  pose proof (assign_loop_spec (S (length records)) now [] records (mkBatch base (-1) 0) ltac:(constructor) Hs
    ltac:(cbn [app]; lia) ltac:(lia) ltac:(done) Hnow Hlo Hhi) as HA.
  cbn [app] in HA. change (zlen (@nil Z)) with 0 in HA. destruct (assign_loop _ now 0 _ records) as [[b|err] out]; [|by destruct HA].
  destruct HA as (rs & -> & Hok & -> & ->). exists rs. cbn [b_offset].
  destruct (stamped_batch now base rs Hok Hmax Hnow Hlo Hhi) as (S1 & S2 & S3 & S4 & S5). by split_and!.
Qed.
(** A batch that is a run of records scans whatever the bytes inside the records are. *)
Lemma assign_run now base rs :
  run_ok false rs → zlen (run_bytes rs) ≤ kMaxRecordBytes → signed 64 now → - 2 ^ 63 ≤ base → base + zlen (run_bytes rs) < 2 ^ 63 →
  assigns now base (run_bytes rs).
Proof.
  intros Hok Hmax Hnow Hlo Hhi. unfold assigns. pose proof (run_length_bytes _ _ Hok). pose proof (zlen_nonneg rs).
  pose proof (assign_loop_run (S (length (run_bytes rs))) now [] rs (mkBatch base (-1) 0) Hok) as HA. unfold kMaxRecordBytes in Hmax.
  cbn [app b_offset b_seen] in HA. change (zlen (@nil Z)) with 0 in HA.
  rewrite HA; [|lia|unfold zlen in *; lia|done|done|lia|lia]. exists rs.
  destruct (stamped_batch now base rs Hok Hmax Hnow Hlo Hhi) as (S1 & S2 & S3 & S4 & S5). by split_and!.
Qed.

(** The leader's append of a batch whose headers are still blank. *)
Definition leader_outcome (e : LogEnv) (l : PartitionLog) (rss : list Run) (records : bytes) (cnt : Z)
    (r : Result AppendResult * (PartitionLog * bytes)) : Prop :=
  ∃ rs, let new := stamp (env_append_now e) (log_end_offset l) rs in
  append_outcome e l r.2.1 rss new r.1 ∧
  match r.1 with
  | Ok _ => records = run_bytes rs ∧ run_ok false rs ∧ zlen rs = cnt ∧ r.2.2 = run_bytes new
  | Err _ => (rs = [] ∨ records = run_bytes rs ∧ run_ok false rs) ∧
      (calm_env e l → cnt ≠ 0 → ∀ rs, run_ok false rs → records = run_bytes rs → zlen rs ≠ cnt)
  end.

Lemma leader_err e l l' rss rss' records cnt out err :
  same_meta l l' → log_inv l' rss' → concat rss' = concat rss →
  (calm_env e l → cnt ≠ 0 → ∀ rs, run_ok false rs → records = run_bytes rs → zlen rs ≠ cnt) →
  leader_outcome e l rss records cnt (Err err, (l', out)).
Proof. intros Hm Hi Hc Hn. exists []. split; [by apply (outcome_err e l l' rss rss')|]. split; [by left|done]. Qed.

Lemma AppendAssigningOffsets_outcome e records cnt l rss :
  log_inv l rss → fresh_files (env_files e) → assigns (env_append_now e) (log_end_offset l) records → zlen records ≤ kMaxRecordBytes →
  leader_outcome e l rss records cnt (AppendAssigningOffsets e cnt (l, records)).
Proof.
  intros Hinv Hfr HA Hmax. unfold AppendAssigningOffsets. rewrite (sbind_ok sget _ (l, records) (l, records) (l, records) eq_refl).
  cbn [fst snd]. rewrite (li_open _ _ Hinv).
  destruct ((zlen records =? 0) || (cnt =? 0)) eqn:E0.
  { apply (leader_err e l l rss rss); [done|done|done|]. intros _ Hne rs Hok Hd.
    apply orb_true_iff in E0 as [E0%Z.eqb_eq|E0%Z.eqb_eq]; [|lia]. rewrite Hd in E0.
    pose proof (run_length_bytes _ _ Hok). pose proof (zlen_nonneg rs). lia. }
  apply orb_false_iff in E0 as [E0%Z.eqb_neq E1%Z.eqb_neq].
  destruct (check_and_roll e (zlen records) l rss Hinv Hfr) as (Hm & Hcalm & rss2 & Hinv2 & Hr & Hroom).
  rewrite <- sbind_assoc. unfold sbind at 1. rewrite on_log_bind, on_log_eq.
  destruct ((CheckDiskSpace e ;;; MaybeRoll e (zlen records)) l) as [[[]|err] l2]; cbn [fst snd] in *.
  2:{ apply (leader_err e l l2 rss rss2); [done|done|done|]. intros Hc. by destruct (Hcalm Hc). }
  destruct (log_split l2 rss2 Hinv2) as (ss0 & s & rss0 & rs0 & Hsp). destruct (at_last _ _ _ _ _ _ Hsp) as [Hact Hseg].
  assert (Hend : next_offset s = log_end_offset l) by (destruct Hm as (_ & <- & _); apply Hsp).
  unfold sbind at 1. rewrite on_log_eq, Hact. cbn [fst snd]. unfold sbind at 1. rewrite on_log_eq, Hseg. cbn [fst snd].
  rewrite Hend. unfold sbind at 1. rewrite on_batch_eq.
  unfold assigns in HA. destruct (assign_loop _ _ 0 _ records) as [[b|err] out]; cbn [fst snd].
  2:{ apply (leader_err e l l2 rss rss2); [done|done|done|]. intros _ _ rs Hok HE. by destruct (HA rs Hok HE). }
  destruct HA as (rs & HR & Hok & -> & Hok' & Hcons & Hlen & Hsz & ->). set (new := stamp _ _ rs) in *. cbn [b_seen b_offset b_max_ts].
  destruct (Z.eqb_spec (zlen new) cnt) as [<-|Hcnt]; cbn [negb].
  2:{ apply (leader_err e l l2 rss rss2); [done|done|done|]. intros _ _ rs' Hok2 HE Hl. apply Hcnt. rewrite Hlen, <- Hl.
      apply (run_cut_length false false); [done|done|congruence]. }
  rewrite (sbind_ok sget _ _ _ _ eq_refl). cbn [snd].
  assert (Hne : new ≠ []) by (intros HE; rewrite HE in E1; done). rewrite <- Hsz in *.
  destruct (append_tail e l l2 rss rss2 new (AppendEncoded (run_bytes new) (log_end_offset l) (log_end_offset l + zlen new - 1) (zlen new)
    (max_ts_of (-1) new)) _ Hm Hinv2 Hr (Hroom eq_refl) Hmax Hne Hok' Hcons (write_batch new _ _ _) eq_refl)
    as (i & s' & Hi & Hs & Hn & Hout & Hq).
  rewrite Hact in Hi. injection Hi as <-. rewrite on_log_bind2, on_log_eq. unfold append_result; cbn [b_offset b_seen].
  fold (result_of (log_end_offset l) new (env_append_now e)).
  destruct ((at_segment _ _ ;;; _) l2) as [[ar|err] l3]; cbn [fst snd] in *.
  - exists rs. by split_and!.
  - exists rs. split; [done|]. split; [by right|]. intros Hc. destruct (Hcalm Hc) as [_ Hlq]. by specialize (Hq Hlq).
Qed.

(** The append of a batch in chunks whose offsets are already assigned; their checksums
    are not looked at again. *)
Definition vectored_outcome (e : LogEnv) (l : PartitionLog) (rss : list Run) (new : Run) (cnt : Z)
    (r : Result AppendResult * PartitionLog) : Prop :=
  append_outcome e l r.2 rss new r.1 ∧
  match r.1 with
  | Ok _ => consecutive (log_end_offset l) new ∧ zlen new = cnt
  | Err _ => calm_env e l → cnt ≠ 0 → consecutive (log_end_offset l) new → zlen new ≠ cnt
  end.

Lemma vectored_err e l l' rss rss' new cnt err :
  same_meta l l' → log_inv l' rss' → concat rss' = concat rss →
  (calm_env e l → cnt ≠ 0 → consecutive (log_end_offset l) new → zlen new ≠ cnt) →
  vectored_outcome e l rss new cnt (Err err, l').
Proof. intros Hm Hi Hc Hn. split; [by apply (outcome_err e l l' rss rss')|done]. Qed.

Lemma concat_run_bytes (css : list Run) : concat (map run_bytes css) = run_bytes (concat css).
Proof. induction css as [|rs css IH]; [done|]. cbn [map concat]. by rewrite IH, run_bytes_app. Qed.

Lemma AppendVectoredWithOffsets_outcome e css cnt l rss :
  log_inv l rss → fresh_files (env_files e) → Forall (run_ok true) css → zlen (run_bytes (concat css)) ≤ kMaxRecordBytes →
  vectored_outcome e l rss (concat css) cnt (AppendVectoredWithOffsets e (map run_bytes css) cnt l).
Proof.
  intros Hinv Hfr Hok Hmax. unfold AppendVectoredWithOffsets. rewrite (sbind_ok sget _ l l l eq_refl).
  rewrite (li_open _ _ Hinv), total_bytes, concat_run_bytes, Z.add_0_l. cbv zeta. set (new := concat css) in *.
  assert (Hok' : run_ok true new) by (by apply Forall_concat).
  assert (Hbig : zlen (run_bytes new) < 2 ^ 62) by (unfold kMaxRecordBytes in Hmax; lia).
  destruct ((zlen (run_bytes new) =? 0) || (cnt =? 0)) eqn:E0.
  { apply (vectored_err e l l rss rss); [done|done|done|]. intros _ Hne _.
    apply orb_true_iff in E0 as [E0%Z.eqb_eq|E0%Z.eqb_eq]; [|lia].
    pose proof (run_length_bytes _ _ Hok'). pose proof (zlen_nonneg new). lia. }
  apply orb_false_iff in E0 as [E0%Z.eqb_neq E1%Z.eqb_neq].
  destruct (check_and_roll e (zlen (run_bytes new)) l rss Hinv Hfr) as (Hm & Hcalm & rss2 & Hinv2 & Hr & Hroom).
  rewrite <- sbind_assoc. unfold sbind at 1.
  destruct ((CheckDiskSpace e ;;; MaybeRoll e (zlen (run_bytes new))) l) as [[[]|err] l2]; cbn [fst snd] in *.
  2:{ apply (vectored_err e l l2 rss rss2); [done|done|done|]. intros Hc. by destruct (Hcalm Hc). }
  destruct (log_split l2 rss2 Hinv2) as (ss0 & s & rss0 & rs0 & Hsp). destruct (at_last _ _ _ _ _ _ Hsp) as [Hact Hseg].
  assert (Hend : next_offset s = log_end_offset l) by (destruct Hm as (_ & <- & _); apply Hsp).
  rewrite (sbind_ok _ _ _ _ _ Hact), (sbind_ok _ _ _ _ _ Hseg), Hend. unfold sbind at 1, slift.
  destruct (check_chunks_spec css (mkBatch (log_end_offset l) (-1) 0) Hok Hbig ltac:(done)) as [[Hc ->]|[Hc ->]].
  2:{ apply (vectored_err e l l2 rss rss2); [done|done|done|]. done. }
  fold new in Hc |- *. unfold scanned; cbn [b_offset b_seen b_max_ts]. rewrite (seen_count true new Hok' Hmax).
  destruct (Z.eqb_spec (zlen new) cnt) as [<-|Hcnt]; cbn [negb].
  2:{ by apply (vectored_err e l l2 rss rss2). }
  assert (Hne : new ≠ []) by (intros HE; rewrite HE in E1; done).
  destruct (append_tail e l l2 rss rss2 new (AppendEncodedVectored (map run_bytes css) (log_end_offset l) (log_end_offset l + zlen new - 1) (zlen new)
    (max_ts_of (-1) new)) _ Hm Hinv2 Hr (Hroom eq_refl) Hmax Hne Hok' Hc
    (λ rs s Hi Hb Hn, write_chunks _ new _ _ _ rs s (concat_run_bytes css) Hi Hb Hn) eq_refl) as (i & s' & Hi & Hs & Hn & Hout & Hq).
  rewrite Hact in Hi. injection Hi as <-. unfold append_result; cbn [b_offset b_seen].
  fold (result_of (log_end_offset l) new (env_append_now e)).
  destruct ((at_segment _ _ ;;; _) l2) as [[ar|err] l3]; cbn [fst snd] in *.
  - by split_and!.
  - split; [done|]. intros Hcm. destruct (Hcalm Hcm) as [_ Hlq]. by specialize (Hq Hlq).
Qed.
