(* ===== verification/PartitionLogRead.v ===== *)
(** * PartitionLogRead: reading a partition log across its segments

    A read copies consecutive records from the requested offset on, across segment
    boundaries, until the byte budget is reached or the log ends. *)
From S2P Require Import Prelude Status Endian Crc32c Buffer Types Codec Frame Record FileUtil Search OffsetIndex Quiet Segment SegmentSpec Recovery SegmentOps SegmentRead SegmentTheorems PartitionLog PartitionLogSpec PartitionLogRoll.

(** ** Chains by index *)

Lemma chain_lookup base fl ss rss i s :
  chain base fl ss rss → ss !! i = Some s →
  ∃ rs, rss !! i = Some rs ∧ base_offset s = base + zlen (concat (take i rss)) ∧ seg_good s rs ∧ seg_flushed fl s rs.
Proof.
  revert base rss i. induction ss as [|s0 ss IH]; intros base [|rs rss] [|i] Hc Hi; try done.
  - injection Hi as ->. destruct Hc as (Hb & Hg & Hf & _). exists rs. split_and!; [done| |done|done].
    cbn. change (zlen (@nil (bytes * LogRecord))) with 0. lia.
  - destruct Hc as (_ & _ & _ & Hc). destruct (IH _ _ _ Hc Hi) as (rs' & H1 & H2 & H3 & H4). exists rs'.
    split_and!; try done. cbn [take concat]. rewrite zlen_app. lia.
Qed.

Lemma chain_insert base fl ss rss i s s' rs :
  chain base fl ss rss → ss !! i = Some s → rss !! i = Some rs → base_offset s' = base_offset s →
  seg_good s' rs → seg_flushed fl s' rs → chain base fl (<[i := s']> ss) rss.
Proof.
  revert base rss i. induction ss as [|s0 ss IH]; intros base [|rs0 rss] [|i] Hc Hi Hr Hb Hg Hf; try done.
  - injection Hi as ->. injection Hr as ->. destruct Hc as (H1 & _ & _ & Hc). cbn. split_and!; [congruence|done..].
  - destruct Hc as (H1 & H2 & H3 & Hc). cbn. split_and!; try done. by apply IH.
Qed.

Lemma concat_take_S {A} (xss : list (list A)) i xs :
  xss !! i = Some xs → concat (take (S i) xss) = concat (take i xss) ++ xs.
Proof. intros Hi. rewrite (take_S_r _ _ _ Hi), concat_app. cbn. by rewrite app_nil_r. Qed.

(** Reading inside one segment reads a stretch of the whole log. *)
Lemma flat_slice {A} (xss : list (list A)) i xs j t :
  xss !! i = Some xs → (j + t ≤ length xs)%nat →
  take t (drop j xs) = take t (drop (length (concat (take i xss)) + j) (concat xss)).
Proof.
  intros Hi Hj. rewrite <- (take_drop (S i) xss) at 2. rewrite concat_app, (concat_take_S _ _ _ Hi), <- app_assoc.
  rewrite drop_app_add', drop_app_le, take_app_le; [done| |lia|done]. rewrite length_drop. lia.
Qed.

Lemma chain_concat_take_le {A} (xss : list (list A)) i : (length (concat (take i xss)) ≤ length (concat xss))%nat.
Proof. rewrite <- (take_drop i xss) at 2. rewrite concat_app, length_app. lia. Qed.

(** The log as one run. *)
Lemma chain_run base fl ss rss : chain base fl ss rss → run_ok true (concat rss) ∧ consecutive base (concat rss).
Proof.
  revert base rss. induction ss as [|s ss IH]; intros base [|rs rss]; try done; cbn [concat].
  - intros _. split; [constructor|by intros i r Hi].
  - intros (<- & ([] & _) & _ & Hc). destruct (IH _ _ Hc). split; [by apply run_ok_app|by apply consecutive_app].
Qed.

(** ** The segment that holds an offset *)

Lemma concat_take_mono {A} (xss : list (list A)) i j :
  (i ≤ j)%nat → (length (concat (take i xss)) ≤ length (concat (take j xss)))%nat.
Proof. intros Hij. rewrite <- (chain_concat_take_le (take j xss) i), take_take, Nat.min_l by lia. done. Qed.

Lemma chain_partitioned base fl ss rss offset :
  chain base fl ss rss → partitioned (λ s, negb (offset <? base_offset s)) ss.
Proof.
  intros Hc. apply (sorted_partitioned base_offset); [intros x y; lia|]. intros i j x y Hi Hj Hij.
  destruct (chain_lookup _ _ _ _ _ _ Hc Hi) as (_ & _ & -> & _). destruct (chain_lookup _ _ _ _ _ _ Hc Hj) as (_ & _ & -> & _).
  pose proof (concat_take_mono rss i j ltac:(lia)). unfold zlen. lia.
Qed.

(** Binary search finds the segment whose records include the offset. *)
Lemma segment_for_offset base fl ss rss k :
  chain base fl ss rss → (k < length (concat rss))%nat →
  ∃ i, SegmentForOffsetLocked (base + Z.of_nat k) ss = Some i ∧ (i < length ss)%nat ∧
       (length (concat (take i rss)) ≤ k < length (concat (take (S i) rss)))%nat.
Proof.
  intros Hc Hk. unfold SegmentForOffsetLocked. pose proof (chain_length _ _ _ _ Hc) as HL.
  rewrite (partition_point_spec _ _ (chain_partitioned _ _ _ _ (base + Z.of_nat k) Hc)).
  set (p := λ s, negb _). pose proof (prefix_length_le p ss) as Hle.
  pose proof (prefix_length_before p ss) as Hbefore. pose proof (prefix_length_at p ss) as Hat.
  destruct (prefix_length p ss) as [|i].
  { destruct ss as [|s ss]; [destruct rss; [cbn in Hk; lia|done]|]. specialize (Hat s eq_refl).
    destruct rss; [done|]. destruct Hc as (Hb & _). unfold p in Hat. lia. }
  exists i. split; [done|]. split; [lia|]. split.
  - destruct (lookup_lt_is_Some_2 ss i ltac:(lia)) as [s Hs]. specialize (Hbefore i s ltac:(lia) Hs).
    destruct (chain_lookup _ _ _ _ _ _ Hc Hs) as (_ & _ & Hb & _). unfold p, zlen in *. lia.
  - destruct (ss !! S i) as [s|] eqn:Hs.
    + specialize (Hat s eq_refl). destruct (chain_lookup _ _ _ _ _ _ Hc Hs) as (_ & _ & Hb & _). unfold p, zlen in *. lia.
    + apply lookup_ge_None in Hs. rewrite (take_ge rss) by lia. done.
Qed.

(** ** The read loop *)

(** How many records a read of budget [max] returns from position [k] of the log: the
    fewest whose size reaches the budget, or all there are. *)
Definition read_extent (flat : Run) (k : nat) (max : Z) (t : nat) : Prop :=
  (k + t ≤ length flat)%nat ∧ (t = 0%nat ∨ pos_of (drop k flat) (pred t) < max) ∧
  (max ≤ pos_of (drop k flat) t ∨ (k + t)%nat = length flat).

(** A read changes nothing but the state of the files it read. *)
Definition only_read (l l' : PartitionLog) (rss : list Run) : Prop :=
  log_inv l' rss ∧ same_meta l l' ∧ length (segments l') = length (segments l) ∧ (log_quiet l → log_quiet l').

Lemma read_keeps_good s f rs :
  seg_good s rs → content f = content (seg_file s) → same_file (seg_file s) f → seg_good (with_file f s) rs.
Proof.
  intros (Hi & Hf & Hd) Hc [Hdu _]. split; [|split; [done|]].
  - apply seg_inv_file; [done| |]; rewrite Hc; [apply (inv_content _ _ Hi)|apply (inv_fits _ _ Hi)].
  - unfold seg_durable, sync_intact, seg_secured in *. cbn. by rewrite Hdu.
Qed.

Lemma only_read_step l rss i s f rs :
  log_inv l rss → segments l !! i = Some s → rss !! i = Some rs → seg_good (with_file f s) rs →
  (seg_quiet s → seg_quiet (with_file f s)) →
  only_read l (with_segments (<[i := with_file f s]> (segments l)) l) rss.
Proof.
  intros Hinv Hi Hr Hg Hq. destruct (chain_lookup _ _ _ _ _ _ (li_chain _ _ Hinv) Hi) as (rs' & Hr' & Hb & _ & Hf).
  simplify_eq. split.
  - apply with_segments_inv; [done| |].
    + by apply (chain_insert _ _ _ _ _ s _ rs (li_chain _ _ Hinv)).
    + apply (sealed_insert _ _ s); [apply (li_sealed _ _ Hinv)|done|done].
  - split; [done|]. cbn. split; [by rewrite length_insert|]. unfold log_quiet; cbn. intros HQ.
    apply Forall_insert; [done|]. apply Hq. by apply (Forall_lookup_1 _ _ _ _ HQ Hi).
Qed.

Lemma only_read_trans l1 l2 l3 rss : only_read l1 l2 rss → only_read l2 l3 rss → only_read l1 l3 rss.
Proof.
  intros (_ & HM & HL & HQ) (I1 & IM & IL & IQ). split; [done|]. split; [|split; [congruence|auto]].
  destruct HM as (?&?&?&?&?&?&?), IM as (?&?&?&?&?&?&?). unfold same_meta. split_and!; congruence.
Qed.

Section ReadLoop.
Context (rss : list Run) (k : nat) (max : Z) (pre : bytes) (start : Z).
#[local] Abbreviation flat := (concat rss).

(** The loop's state after [t] records. *)
Definition read_at (t : nat) : ReadState :=
  mkReadState (start + Z.of_nat (k + t)) (Z.of_nat t) (pos_of (drop k flat) t).
Definition read_out (t : nat) (out : ByteBuffer) : Prop :=
  buffer_wf out ∧ Readable out = pre ++ run_bytes (take t (drop k flat)).

Definition read_ends (l : PartitionLog) (r : Result ReadState * (PartitionLog * ByteBuffer)) : Prop :=
  only_read l r.2.1 rss ∧
  match r.1 with
  | Ok rs => ∃ t, read_extent flat k max t ∧ rs = read_at t ∧ read_out t r.2.2
  | Err e => e ≠ kInternal ∧ ¬ log_quiet l
  end.

Lemma read_ends_step l l' r : only_read l l' rss → read_ends l' r → read_ends l r.
Proof.
  intros HO (HR & HE). split; [by apply (only_read_trans l l')|]. destruct r.1; [done|].
  destruct HE as [H1 H2]. split; [done|]. intros HQ. by apply H2, HO.
Qed.

(** One segment's read, seen from the whole log. *)
Lemma read_chunk l i t out s :
  log_inv l rss → log_start_offset l = start → segments l !! i = Some s → read_out t out →
  (length (concat (take i rss)) ≤ k + t < length (concat (take (S i) rss)))%nat →
  pos_of (drop k flat) t < max →
  let r := Segment_Read (start + Z.of_nat (k + t)) (max - pos_of (drop k flat) t) (s, out) in
  only_read l (with_segments (<[i := r.2.1]> (segments l)) l) rss ∧ next_offset r.2.1 = start + Z.of_nat (length (concat (take (S i) rss))) ∧
  match r.1 with
  | Ok rr => ∃ u : nat, (0 < u)%nat ∧ (k + t + u ≤ length (concat (take (S i) rss)))%nat ∧ rr_record_count rr = Z.of_nat u ∧
      rr_bytes rr = pos_of (drop k flat) (t + u) - pos_of (drop k flat) t ∧ read_out (t + u) r.2.2 ∧
      pos_of (drop k flat) (pred (t + u)) < max
  | Err e => e ≠ kInternal ∧ ¬ log_quiet l
  end.
Proof.
  intros Hinv Hst Hi [Hwf HR] Hk Hbud.
  destruct (chain_lookup _ _ _ _ _ _ (li_chain _ _ Hinv) Hi) as (rs & Hr & Hb & Hg & Hf). pose proof Hg as (Hsi & Hfit & _).
  rewrite (concat_take_S _ _ _ Hr), length_app in Hk |- *. set (n0 := length (concat (take i rss))) in *.
  assert (Hbase : base_offset s = start + Z.of_nat n0) by (rewrite Hb, Hst; unfold zlen; lia).
  set (j := (k + t - n0)%nat).
  replace (start + Z.of_nat (k + t)) with (base_offset s + Z.of_nat j) by (unfold j; lia).
  destruct (Segment_Read_spec rs s out j (max - pos_of (drop k flat) t) Hsi Hfit Hwf) as (f & Hs & HC & HS & HQ & HP);
    [unfold j; lia|lia|].
  set (r := Segment_Read _ _ _) in *. cbv zeta. rewrite Hs. split; [|split].
  - apply (only_read_step l rss i s f rs); try done; [by apply read_keeps_good|]. intros (Q1 & Q2 & Q3). split_and!; [by apply HQ|done|done].
  - cbn. rewrite (inv_next _ _ Hsi), Hbase. unfold zlen. lia.
  - destruct r.1 as [rr|e].
    2:{ destruct HP as [HP1 HP2]. split; [done|]. intros Hlq. apply HP2. by destruct (Forall_lookup_1 _ _ _ _ Hlq Hi) as (? & _). }
    destruct HP as (u & R1 & _ & R3 & R4 & R5 & R6 & R7 & _ & R9).
    assert (Hu : (0 < u)%nat).
    { destruct u; [exfalso|lia]. destruct R9 as [R9|[R9|[R9 _]]]; [unfold j in *; lia| |lia]. rewrite Nat.add_0_r, Z.sub_diag in R9. lia. }
    assert (HF : take u (drop j rs) = take u (drop t (drop k flat))).
    { rewrite (flat_slice rss i rs j u Hr R1), drop_drop. fold n0. do 2 f_equal. unfold j. lia. }
    assert (HS' : zlen (run_bytes (take u (drop j rs))) = pos_of (drop k flat) (t + u) - pos_of (drop k flat) t)
      by (by rewrite HF, copied_bytes).
    exists u. split; [done|]. split; [unfold j in *; lia|]. split; [done|]. split; [congruence|]. split.
    + split; [done|]. rewrite R6, HR, HF, <- app_assoc, <- run_bytes_app, take_take_drop. done.
    + destruct R7 as [R7|R7]; [|by replace (pred (t + u)) with t by lia].
      destruct (lookup_lt_is_Some_2 (drop k flat) (pred (t + u))) as [q Hq].
      { rewrite length_drop. pose proof (chain_concat_take_le rss (S i)) as HT. rewrite (concat_take_S _ _ _ Hr), length_app in HT.
        fold n0 in HT. unfold j in *. lia. }
      pose proof (pos_of_S _ _ _ Hq) as Hp. replace (S (pred (t + u))) with (t + u)%nat in Hp by lia.
      destruct (chain_run _ _ _ _ (li_chain _ _ Hinv)) as [Hok _].
      pose proof (run_record_bounds true (drop k flat) _ q (run_ok_drop _ _ _ Hok) Hq). lia.
Qed.

Lemma Segment_Read_past s rs from budget out :
  seg_inv s rs → base_offset s + zlen rs ≤ from →
  Segment_Read from budget (s, out) = (Ok (mkReadResult from 0 0 true), (s, out)).
Proof.
  intros Hi Hge. unfold Segment_Read. rewrite (sbind_ok sget _ (s, out) (s, out) (s, out) eq_refl). cbn [fst].
  rewrite (inv_next _ _ Hi). by destruct (Z.leb_spec (base_offset s + zlen rs) from); [|lia].
Qed.

(** Before the end of the log there is always another segment to go to. *)
Lemma next_segment_some l i :
  log_inv l rss → (length (concat (take (S i) rss)) < length flat)%nat → next_segment i (segments l) = Some (S i).
Proof.
  intros Hinv Hlt. pose proof (chain_length _ _ _ _ (li_chain _ _ Hinv)). unfold next_segment.
  destruct (Nat.ltb_spec (S i) (length (segments l))) as [|Hge]; [done|]. rewrite (take_ge rss) in Hlt by lia. lia.
Qed.

Lemma read_at_advance t u rr :
  rr_record_count rr = Z.of_nat u → rr_bytes rr = pos_of (drop k flat) (t + u) - pos_of (drop k flat) t →
  mkReadState (rs_cursor (read_at t) + rr_record_count rr) (rs_records (read_at t) + rr_record_count rr)
    (rs_bytes (read_at t) + rr_bytes rr) = read_at (t + u).
Proof. intros -> ->. unfold read_at; cbn. f_equal; lia. Qed.

Lemma read_segments_spec fuel i t l out :
  log_inv l rss → log_start_offset l = start → read_out t out → (i < length (segments l))%nat →
  (length (concat (take i rss)) ≤ k + t ≤ length (concat (take (S i) rss)))%nat → (k + t < length flat)%nat →
  (t = 0%nat ∨ pos_of (drop k flat) (pred t) < max) →
  ((length flat - (k + t)) + (length (segments l) - i) < fuel)%nat →
  read_ends l (read_segments fuel i (log_end_offset l) max (read_at t) (l, out)).
Proof.
  revert i t l out. induction fuel as [|fuel IH]; intros i t l out Hinv Hst Hout Hi Hk Hend Hprev Hfuel; [lia|].
  assert (Hself : only_read l l rss) by (by split; [|split; [|split]]).
  cbn [read_segments]. unfold read_at at 1; cbn [rs_bytes].
  destruct (Z.ltb_spec (pos_of (drop k flat) t) max) as [Hbud|Hfull].
  2:{ split; [done|]. exists t. split; [|done]. split; [lia|]. split; [done|by left]. }
  destruct (lookup_lt_is_Some_2 (segments l) i Hi) as [s Hs]. rewrite Hs.
  assert (HE : log_end_offset l = start + Z.of_nat (length flat)) by (rewrite (li_end _ _ Hinv), Hst; done).
  destruct (decide (k + t = length (concat (take (S i) rss)))%nat) as [Heq|Hne].
  - destruct (chain_lookup _ _ _ _ _ _ (li_chain _ _ Hinv) Hs) as (rs & Hr & Hb & (Hsi & _) & _).
    rewrite (Segment_Read_past s rs _ _ out Hsi).
    2:{ unfold read_at; cbn. rewrite Hb, Hst, Heq, (concat_take_S _ _ _ Hr), length_app. unfold zlen. lia. }
    cbn [rr_record_count rr_bytes reached_end]. rewrite (list_insert_id _ _ _ Hs), with_segments_id. cbn [Z.eqb negb].
    rewrite (next_segment_some l i Hinv) by lia.
    pose proof (read_at_advance t 0 (mkReadResult 0 0 0 true) eq_refl) as HA. rewrite Nat.add_0_r, Z.sub_diag in HA.
    cbn [rr_record_count rr_bytes] in HA. rewrite (HA eq_refl). apply IH; try done; [|pose proof (concat_take_mono rss (S i) (S (S i))); lia|lia].
    pose proof (chain_length _ _ _ _ (li_chain _ _ Hinv)) as HL. destruct (decide (S i < length (segments l))%nat); [done|].
    rewrite (take_ge rss) in Heq by lia. lia.
  - destruct (read_chunk l i t out s Hinv Hst Hs Hout ltac:(lia) Hbud) as (Honly & Hnext & HC).
    change (rs_cursor (read_at t)) with (start + Z.of_nat (k + t)). change (rs_bytes (read_at t)) with (pos_of (drop k flat) t).
    destruct (Segment_Read _ _ (s, out)) as [[rr|e] [s' out']]; cbn [fst snd] in *; [|by split].
    destruct HC as (u & Hu & Hle & Hcnt & Hbytes & Hout' & Hprev').
    pose proof (read_at_advance t u rr Hcnt Hbytes) as HA. cbn [read_at rs_cursor rs_bytes rs_records] in HA.
    change (rs_records (read_at t)) with (Z.of_nat t). rewrite HA, Hcnt. destruct (Z.eqb_spec (Z.of_nat u) 0); [lia|].
    change (rs_cursor (read_at (t + u))) with (start + Z.of_nat (k + (t + u))). rewrite HE, Hnext.
    set (l' := with_segments _ l) in *.
    pose proof (chain_concat_take_le rss (S i)) as Hmax.
    destruct (Z.leb_spec (start + Z.of_nat (length flat)) (start + Z.of_nat (k + (t + u)))).
    { split; [done|]. exists (t + u)%nat. split; [|done]. split; [lia|]. split; [by right|right; lia]. }
    assert (Hrec : ∀ i', (i' < length (segments l'))%nat →
      (length (concat (take i' rss)) ≤ k + (t + u) ≤ length (concat (take (S i') rss)))%nat → (i ≤ i')%nat →
      read_ends l (read_segments fuel i' (start + Z.of_nat (length flat)) max (read_at (t + u)) (l', out'))).
    { intros i' Hi' Hk' Hii. apply (read_ends_step l l' _ Honly). rewrite <- HE. change (log_end_offset l) with (log_end_offset l').
      pose proof Honly as (Hinv' & _ & HL' & _). apply IH; try done; [lia|by right|lia]. }
    assert (HL' : length (segments l') = length (segments l)) by apply Honly.
    destruct (Z.leb_spec (start + Z.of_nat (length (concat (take (S i) rss)))) (start + Z.of_nat (k + (t + u)))) as [Hge|Hlt].
    + rewrite (next_segment_some l i Hinv) by lia.
      apply Hrec; [|pose proof (concat_take_mono rss (S i) (S (S i))); lia|lia]. rewrite HL'.
      pose proof (chain_length _ _ _ _ (li_chain _ _ Hinv)) as HL. destruct (decide (S i < length (segments l))%nat); [done|].
      rewrite (take_ge rss) in Hge by lia. lia.
    + apply Hrec; lia.
Qed.
End ReadLoop.

(** A whole read, on every branch. *)
Definition log_read (rss : list Run) (from max : Z) (l : PartitionLog) (out : ByteBuffer)
    (r : Result LogReadResult * (PartitionLog * ByteBuffer)) : Prop :=
  let k := Z.to_nat (from - log_start_offset l) in
  only_read l r.2.1 rss ∧
  match r.1 with
  | Ok rr => ∃ t, log_start_offset l ≤ from ≤ log_end_offset l ∧ read_extent (concat rss) k max t ∧
      rr = mkLogReadResult from (Z.of_nat t) (zlen (run_bytes (take t (drop k (concat rss))))) (log_start_offset l) (log_end_offset l) ∧
      buffer_wf r.2.2 ∧ Readable r.2.2 = Readable out ++ run_bytes (take t (drop k (concat rss)))
  | Err e => e = kOutOfRange ∧ ¬ (log_start_offset l ≤ from ≤ log_end_offset l) ∨ e ≠ kInternal ∧ ¬ log_quiet l
  end.

Lemma Log_Read_spec rss l out from max :
  log_inv l rss → buffer_wf out → log_read rss from max l out (Log_Read from max (l, out)).
Proof.
  intros Hinv Hwf. assert (Hself : only_read l l rss) by (by split; [|split; [|split]]).
  pose proof (li_end _ _ Hinv) as HE. unfold zlen in HE.
  unfold Log_Read. rewrite (sbind_ok sget _ (l, out) (l, out) (l, out) eq_refl). cbn [fst]. cbv zeta.
  destruct (Z.ltb_spec from (log_start_offset l)); [split; [done|]; left; split; [done|lia]|].
  destruct (Z.ltb_spec (log_end_offset l) from); [split; [done|]; left; split; [done|lia]|].
  destruct (Z.eqb_spec from (log_end_offset l)) as [Hfe|Hne].
  - split; [done|]. exists 0%nat. split; [lia|]. split; [split; [lia|split; [by left|right; lia]]|].
    rewrite take_0. cbn. by rewrite app_nil_r.
  - set (k := Z.to_nat (from - log_start_offset l)).
    destruct (segment_for_offset _ _ _ _ k (li_chain _ _ Hinv)) as (i & Hsf & Hi & Hk); [unfold k; lia|].
    replace (log_start_offset l + Z.of_nat k) with from in Hsf by (unfold k; lia). rewrite Hsf.
    pose proof (read_segments_spec rss k max (Readable out) (log_start_offset l) (read_fuel from l) i 0 l out Hinv eq_refl) as HR.
    unfold read_at in HR at 1. rewrite Nat.add_0_r in HR. replace (log_start_offset l + Z.of_nat k) with from in HR by (unfold k; lia).
    change (pos_of (drop k (concat rss)) 0) with 0 in HR. change (Z.of_nat 0) with 0 in HR.
    specialize (HR ltac:(split; [done|by rewrite take_0, app_nil_r]) Hi ltac:(lia) ltac:(unfold k; lia) ltac:(by left) ltac:(unfold read_fuel, k; lia)).
    unfold sbind. destruct (read_segments _ _ _ _ _ _) as [[rs|e] [l' out']]; destruct HR as [HR1 HR2]; cbn [fst snd] in *.
    + destruct HR2 as (t & HX & -> & HO1 & HO2). split; [done|]. exists t. split; [lia|]. by fold k.
    + split; [done|]. by right.
Qed.

(** What a read returns overshoots its budget by less than a record. *)
Lemma extent_bytes flat k max t :
  run_ok true flat → read_extent flat k max t → 0 ≤ max → zlen (run_bytes (take t (drop k flat))) < max + kMaxRecordBytes + 5.
Proof.
  intros Hok (Hk & Ht & _) Hmax. destruct t as [|t]; [change (zlen (run_bytes (take 0 (drop k flat)))) with 0; unfold kMaxRecordBytes; lia|].
  destruct Ht as [|Ht]; [done|]. cbn [pred] in Ht. destruct (drop k flat !! t) as [[r x]|] eqn:E.
  - fold (pos_of (drop k flat) (S t)). rewrite (pos_of_S _ _ _ E). cbn [fst].
    assert (Hr : ∃ crc, shape r x crc).
    { apply list_elem_of_lookup_2 in E. unfold run_ok in Hok. rewrite Forall_forall in Hok.
      destruct (Hok (r, x)) as (crc & Hs & _); [|by exists crc]. rewrite <- (take_drop k flat). apply elem_of_app. by right. }
    destruct Hr as (crc & Hs%shape_bounds). lia.
  - apply lookup_ge_None in E. rewrite length_drop in E. lia.
Qed.
