(* ===== verification/PartitionLogTruncate.v ===== *)
(** * PartitionLogTruncate: removing records from either end of a log

    [TruncateTo] cuts the log behind an offset, [EnforceRetention] drops whole
    segments from the front.  Both are exact on success and succeed when no system
    call fails. *)
From S2P Require Import Prelude Status Endian Crc32c Buffer Types Codec Frame Record FileUtil Search OffsetIndex Quiet Segment SegmentSpec Recovery SegmentOps SegmentRead SegmentTheorems PartitionLog PartitionLogSpec PartitionLogRoll PartitionLogRead.

Lemma Segment_Close_quiet s : seg_quiet s → is_ok (Segment_Close s).1 = true.
Proof.
  intros Hq. unfold Segment_Close. destruct (fvalid (seg_file s)); [|done].
  destruct (Segment_Sync_quiet s Hq) as [S1 S2]. destruct (Segment_Sync s) as [[[]|e] s1]; [|done]. cbn [fst snd] in *.
  destruct (_ <? _); [|done]. unfold in_file, szoom. destruct S2 as (Q & _). destruct (Truncate_calm (end_position s1) _ Q) as [T1 _].
  by destruct (Truncate _ _) as [[[]|e] f].
Qed.

(** Every file removal succeeds. *)
Definition removals_ok (del : nat → bool * bool * bool) : Prop := ∀ n, is_ok (Segment_Delete (del n)) = true.

(** ** Truncation *)

(** Dropping from the back keeps a non-empty prefix of the segments, cut behind the
    first segment that starts at or after the offset. *)
Definition kept_front (offset : Z) (ss : list Segment) (m : nat) : Prop :=
  (1 ≤ m ≤ length ss)%nat ∧ (∀ s, ss !! m = Some s → offset ≤ base_offset s) ∧
  (m = 1%nat ∨ ∀ s, ss !! pred m = Some s → base_offset s < offset).

Lemma drop_back_spec fuel del offset l ss m0 :
  segments l = take m0 ss → (1 ≤ m0 ≤ length ss)%nat → (m0 ≤ fuel)%nat →
  (∀ s, ss !! m0 = Some s → offset ≤ base_offset s) →
  match drop_back fuel del offset l with
  | (Ok _, l') => ∃ m rc dc, kept_front offset ss m ∧ l' = with_counts rc dc (with_segments (take m ss) l)
  | (Err _, _) => ¬ (Forall seg_quiet ss ∧ removals_ok del)
  end.
Proof.
  revert l m0. induction fuel as [|fuel IH]; intros l m0 Hs Hm Hf Hafter; [lia|].
  assert (HL : length (segments l) = m0) by (rewrite Hs, length_take; lia).
  assert (Hstop : m0 = 1%nat ∨ (∀ s, ss !! pred m0 = Some s → base_offset s < offset) →
    ∃ m rc dc, kept_front offset ss m ∧ l = with_counts rc dc (with_segments (take m ss) l)).
  { intros H. exists m0, (roll_count l), (deleted_segments l). split; [by split|]. rewrite <- Hs. by destruct l. }
  cbn [drop_back]. rewrite HL. destruct (Nat.ltb_spec 1 m0) as [Hgt|Hle]; [|apply Hstop; left; lia].
  destruct (lookup_lt_is_Some_2 ss (pred m0) ltac:(lia)) as [s Hlast].
  assert (Hlast' : last (segments l) = Some s) by (rewrite last_lookup, HL, Hs, lookup_take_lt by lia; done).
  rewrite Hlast'. destruct (Z.leb_spec offset (base_offset s)) as [Hge|Hlt].
  2:{ apply Hstop. right. intros s' Hs'. by simplify_eq. }
  cbv zeta. destruct (Segment_Close s) as [st s'] eqn:EC. destruct st as [[]|e].
  2:{ intros [Hq _]. pose proof (Segment_Close_quiet s (Forall_lookup_1 _ _ _ _ Hq Hlast)) as H. by rewrite EC in H. }
  cbn [segments with_segments]. destruct (Segment_Delete _) as [[]|e] eqn:ED.
  2:{ intros [_ Hd]. specialize (Hd (length (take (pred m0) (segments l)))). by rewrite ED in Hd. }
  match goal with |- context [drop_back fuel del offset ?x] => set (l1 := x) end.
  specialize (IH l1 (pred m0)).
  assert (H1 : segments l1 = take (pred m0) ss) by (cbn; rewrite Hs, take_take, Nat.min_l by lia; done).
  specialize (IH H1 ltac:(lia) ltac:(lia) ltac:(intros s1 Hs1; by simplify_eq)).
  destruct (drop_back fuel del offset l1) as [[[]|e] l']; [|done].
  destruct IH as (m & rc & dc & Hk & ->). exists m, rc, dc. split; [done|]. done.
Qed.

(** The records before an offset, when the later segments start behind it. *)
Lemma cut_flat (rss : list Run) i rs n :
  rss !! i = Some rs → (length (concat (take i rss)) ≤ n ∨ i = 0%nat)%nat → (n ≤ length (concat (take (S i) rss)))%nat →
  concat (take i rss ++ [take (n - length (concat (take i rss))) rs]) = take n (concat rss).
Proof.
  intros Hi Hlo Hhi. rewrite concat_app. cbn [concat]. rewrite app_nil_r.
  assert (HE : concat rss = concat (take (S i) rss) ++ concat (drop (S i) rss)) by (by rewrite <- concat_app, take_drop).
  rewrite HE, take_app_le by done.
  rewrite (concat_take_S _ _ _ Hi). destruct Hlo as [Hlo| ->].
  - rewrite take_app. by rewrite (take_ge (concat (take i rss))) by lia.
  - cbn. by rewrite Nat.sub_0_r.
Qed.

Lemma seg_flushed_cut fl offset s s' rs :
  base_offset s' = base_offset s → seg_flushed fl s rs →
  let kept := take (Z.to_nat (offset - base_offset s)) rs in
  synced_position s' = Z.min (synced_position s) (zlen (run_bytes kept)) →
  seg_flushed (if offset <? fl then offset else fl) s' kept.
Proof.
  intros Hb Hf kept Hsy. unfold seg_flushed in *. rewrite Hsy, Hb. set (fl' := if offset <? fl then offset else fl).
  assert (Hle : fl' ≤ fl) by (unfold fl'; destruct (Z.ltb_spec offset fl); lia).
  pose proof (pos_of_le kept (Z.to_nat (fl' - base_offset s))).
  assert (pos_of kept (Z.to_nat (fl' - base_offset s)) ≤ pos_of rs (Z.to_nat (fl - base_offset s))); [|lia].
  unfold kept, pos_of at 1. rewrite take_take. apply pos_of_mono. lia.
Qed.

Lemma chain_take base fl ss rss m : chain base fl ss rss → chain base fl (take m ss) (take m rss).
Proof.
  revert base rss m. induction ss as [|s ss IH]; intros base [|rs rss] [|m]; try done. cbn.
  intros (H1 & H2 & H3 & H4). split_and!; try done. by apply IH.
Qed.

(** What a truncation leaves. *)
Definition log_truncated (offset : Z) (l l' : PartitionLog) (rss : list Run) : Prop :=
  log_start_offset l' = log_start_offset l ∧ log_end_offset l' = offset ∧
  flushed_offset l' = Z.min offset (flushed_offset l) ∧
  ∃ rss', log_inv l' rss' ∧ concat rss' = take (Z.to_nat (offset - log_start_offset l)) (concat rss).

Lemma TruncateTo_eq del offset l :
  log_start_offset l ≤ offset < log_end_offset l →
  TruncateTo del offset l =
  match drop_back (length (segments l)) del offset l with
  | (Err e, l1) => (Err e, l1)
  | (Ok _, l1) =>
      let i := pred (length (segments l1)) in
      match at_segment i (Segment_TruncateFrom offset) (with_active (Some i) l1) with
      | (Err e, l2) => (Err e, l2)
      | (Ok _, l2) => (Ok tt, with_unflushed 0 0 (with_offsets (log_start_offset l2) offset
                        (if offset <? flushed_offset l2 then offset else flushed_offset l2) l2))
      end
  end.
Proof.
  intros Hr. unfold TruncateTo, sbind, sget, smod, sfail, sret, active_index.
  destruct (Z.leb_spec (log_end_offset l) offset); [lia|]. destruct (Z.ltb_spec offset (log_start_offset l)); [lia|].
  destruct (drop_back _ del offset l) as [[[]|e] l1]; [|done]. cbn [active with_active]. done.
Qed.

Lemma TruncateTo_spec del offset l rss :
  log_inv l rss → log_start_offset l ≤ offset < log_end_offset l →
  match TruncateTo del offset l with
  | (Ok _, l') => log_truncated offset l l' rss
  | (Err _, _) => ¬ (log_quiet l ∧ removals_ok del)
  end.
Proof.
  intros Hinv Hr. rewrite (TruncateTo_eq del offset l Hr). pose proof (li_chain _ _ Hinv) as Hc.
  pose proof (chain_length _ _ _ _ Hc) as HL. pose proof (li_end _ _ Hinv) as HE. set (ss := segments l) in *.
  assert (Hlen : (1 ≤ length ss)%nat) by (pose proof (li_nonempty _ _ Hinv); fold ss in H; destruct ss; [done|cbn; lia]).
  pose proof (drop_back_spec (length ss) del offset l ss (length ss)) as HD. rewrite firstn_all in HD.
  specialize (HD eq_refl ltac:(lia) ltac:(lia) ltac:(intros s Hs; apply lookup_lt_Some in Hs; lia)).
  destruct (drop_back (length ss) del offset l) as [[[]|e] l1]; [|done].
  destruct HD as (m & rc & dc & (Hm & Hafter & Hbefore) & ->). cbn [segments with_counts with_segments].
  destruct (lookup_lt_is_Some_2 ss (pred m) ltac:(lia)) as [s Hs].
  destruct (chain_lookup _ _ _ _ _ _ Hc Hs) as (rs & Hrs & Hb & Hg & Hf). pose proof Hg as (Hi & Hfit & Hdur).
  assert (Hseg : take m ss = take (pred m) ss ++ [s]) by (rewrite <- (take_S_r _ _ _ Hs); f_equal; lia).
  assert (Hpm : pred (length (take m ss)) = length (take (pred m) ss)) by (rewrite !length_take; lia).
  rewrite Hpm, (at_segment_last _ _ (take (pred m) ss) s) by (cbn; exact Hseg).
  pose proof (Segment_TruncateFrom_spec rs s offset Hi Hfit) as HT. pose proof (Segment_TruncateFrom_quiet rs s offset Hi Hfit) as HQ.
  destruct (Segment_TruncateFrom offset s) as [[[]|e] s']; cbn [fst snd] in *.
  2:{ intros [Hlq _]. apply (Forall_lookup_1 _ _ _ _ Hlq) in Hs. by destruct (HQ Hs). }
  destruct (HT eq_refl) as (T1 & T2 & T3). destruct (T3 Hdur) as [T4 T5]. clear HT HQ.
  set (n := Z.to_nat (offset - log_start_offset l)). set (rss0 := take (pred m) rss) in *.
  assert (Hlo : (length (concat rss0) ≤ n)%nat).
  { unfold n. destruct Hbefore as [->|Hbefore]; [unfold rss0; cbn [pred]; rewrite take_0; cbn; lia|]. specialize (Hbefore s Hs). unfold zlen in Hb. lia. }
  assert (Hhi : (n ≤ length (concat (take (S (pred m)) rss)))%nat).
  { replace (S (pred m)) with m by lia. destruct (ss !! m) as [s2|] eqn:Hs2.
    - specialize (Hafter s2 eq_refl). destruct (chain_lookup _ _ _ _ _ _ Hc Hs2) as (_ & _ & Hb2 & _). unfold zlen in Hb2. lia.
    - apply lookup_ge_None in Hs2. rewrite take_ge by lia. unfold zlen in HE. lia. }
  rewrite (concat_take_S _ _ _ Hrs), length_app in Hhi. fold rss0 in Hhi.
  assert (Hkeep : Z.to_nat (offset - base_offset s) = (n - length (concat rss0))%nat) by (unfold n, zlen in *; lia).
  assert (Hmin : (if offset <? flushed_offset l then offset else flushed_offset l) = Z.min offset (flushed_offset l)).
  { destruct (Z.ltb_spec offset (flushed_offset l)); lia. }
  split; [done|]. split; [done|]. split; [exact Hmin|].
  exists (rss0 ++ [take (n - length (concat rss0)) rs]). split.
  - pose proof (chain_take _ _ _ _ (pred m) Hc) as Hct.
    apply (log_join l _ (take (pred m) ss) s'); cbn; try done.
    + unfold rss0. rewrite !length_take. lia.
    + apply (chain_flushed_le _ (flushed_offset l)); [lia|done].
    + congruence.
    + rewrite <- Hkeep. split; [done|]. split; [by apply Forall_take|done].
    + rewrite <- Hkeep. apply (seg_flushed_cut _ _ s); done.
    + rewrite (inv_next _ _ T1), T2, Hkeep, Hb. unfold zlen. rewrite length_take. unfold n in *. lia.
    + lia.
    + apply (li_open _ _ Hinv).
    + apply sealed_snoc with s. rewrite <- Hseg. apply sealed_take, (li_sealed _ _ Hinv).
  - apply cut_flat; [done|by left|]. rewrite (concat_take_S _ _ _ Hrs), length_app. done.
Qed.

(** ** Retention *)

(** The condition under which the oldest segment goes. *)
Definition expired (o : LogOptions) (now : Z) (ss : list Segment) : bool :=
  match ss with
  | oldest :: _ :: _ =>
      ((0 <? retention_ms o) && (0 <? max_timestamp oldest) && (retention_ms o <? now - max_timestamp oldest)) ||
      ((0 <? retention_bytes o) && (retention_bytes o <? i64 (u64 (total_bytes_of ss))))
  | _ => false
  end.

Fixpoint expired_count (o : LogOptions) (now : Z) (ss : list Segment) : nat :=
  match ss with
  | [] => 0
  | s :: rest => if expired o now ss then S (expired_count o now rest) else 0
  end.

(** What retention leaves: exactly the expired prefix of segments is gone. *)
Definition retained (o : LogOptions) (now : Z) (l l' : PartitionLog) (rss : list Run) : Prop :=
  let d := expired_count o now (segments l) in
  log_inv l' (drop d rss) ∧ log_start_offset l' = log_start_offset l + zlen (concat (take d rss)) ∧
  log_end_offset l' = log_end_offset l ∧ flushed_offset l' = flushed_offset l ∧ segments l' = drop d (segments l).

Lemma expired_more o now s ss : expired o now (s :: ss) = true → ss ≠ [].
Proof. by destruct ss. Qed.

Lemma drop_front_inv l rss s rs ss' rss' rc dc :
  log_inv l rss → segments l = s :: ss' → rss = rs :: rss' → ss' ≠ [] →
  log_inv (with_counts rc dc (with_offsets (log_start_offset l + zlen rs) (log_end_offset l) (flushed_offset l)
             (with_active (pred <$> active l) (with_segments ss' l)))) rss'.
Proof.
  intros [I1 I2 I3 I4 I5 I6 I7] Hs -> Hne. rewrite Hs in *. destruct I1 as (Hb & Hg & Hf & Hc). constructor; cbn; try done.
  - rewrite I3. cbn. by destruct ss'.
  - rewrite I4. cbn [concat]. rewrite zlen_app. lia.
  - intros i x Hi Hlt. apply (I7 (S i) x Hi). cbn. lia.
Qed.

Lemma chain_head base fl s ss rss : chain base fl (s :: ss) rss → ∃ rs rss', rss = rs :: rss' ∧ base_offset s = base ∧ chain (base + zlen rs) fl ss rss'.
Proof. destruct rss as [|rs rss']; [done|]. intros (H1 & _ & _ & H2). by exists rs, rss'. Qed.

Lemma retention_loop_spec fuel del now deleted l rss :
  log_inv l rss → (length (segments l) ≤ fuel)%nat →
  match retention_loop fuel del now deleted l with
  | (Ok n, l') => retained (lg_options l) now l l' rss ∧ n = deleted + Z.of_nat (expired_count (lg_options l) now (segments l))
  | (Err _, _) => ¬ (log_quiet l ∧ removals_ok del)
  end.
Proof.
  revert deleted l rss. induction fuel as [|fuel IH]; intros deleted l rss Hinv Hfuel.
  { pose proof (li_nonempty _ _ Hinv). destruct (segments l); [done|cbn in Hfuel; lia]. }
  assert (Hstop : expired (lg_options l) now (segments l) = false →
    retained (lg_options l) now l l rss ∧ deleted = deleted + Z.of_nat (expired_count (lg_options l) now (segments l))).
  { intros HE. assert (HC : expired_count (lg_options l) now (segments l) = 0%nat)
      by (destruct (segments l); [done|]; cbn [expired_count]; by rewrite HE).
    unfold retained. rewrite HC, !drop_0, take_0. split; [|lia]. split_and!; try done. cbn. change (zlen (@nil (bytes * LogRecord))) with 0. lia. }
  cbn [retention_loop]. destruct (segments l) as [|oldest [|second rest]] eqn:Hs; [by apply Hstop|by apply Hstop|].
  cbv zeta. set (ss' := second :: rest) in *.
  assert (Hex : expired (lg_options l) now (oldest :: ss') = negb
    (negb ((0 <? retention_ms (lg_options l)) && (0 <? max_timestamp oldest) && (retention_ms (lg_options l) <? now - max_timestamp oldest)) &&
     negb ((0 <? retention_bytes (lg_options l)) && (retention_bytes (lg_options l) <? i64 (u64 (total_bytes_of (oldest :: ss'))))))).
  { unfold expired, ss'. by rewrite negb_andb, !negb_involutive. }
  destruct (negb _ && negb _); cbn [negb] in Hex; [by apply Hstop|].
  destruct (Segment_Close oldest) as [st c] eqn:EC. destruct st as [[]|e].
  2:{ intros [Hq _]. unfold log_quiet in Hq. rewrite Hs in Hq. apply Forall_cons in Hq as [Hq _].
      pose proof (Segment_Close_quiet oldest Hq) as H. by rewrite EC in H. }
  destruct (Segment_Delete _) as [[]|e] eqn:ED.
  2:{ intros [_ Hd]. specialize (Hd (length ss')). by rewrite ED in Hd. }
  pose proof (li_chain _ _ Hinv) as Hc. rewrite Hs in Hc. destruct (chain_head _ _ _ _ _ Hc) as (rs & rss' & Hr & Hb & Hc').
  destruct (chain_head _ _ _ _ _ Hc') as (rs2 & rss2 & Hr2 & Hb2 & _).
  match goal with |- context [retention_loop fuel del now (deleted + 1) ?x] => set (l1 := x) end.
  assert (Hinv1 : log_inv l1 rss').
  { unfold l1. cbn [log_end_offset flushed_offset with_active with_segments roll_count deleted_segments]. rewrite Hb2.
    apply (drop_front_inv l rss oldest rs); try done. }
  specialize (IH (deleted + 1) l1 rss' Hinv1 ltac:(cbn in *; lia)).
  destruct (retention_loop fuel del now (deleted + 1) l1) as [[n|e] l'].
  2:{ intros [Hq Hd]. apply IH. split; [|done]. unfold log_quiet in *. rewrite Hs in Hq. by apply Forall_cons in Hq as [_ Hq]. }
  change (segments l1) with ss' in IH. change (lg_options l1) with (lg_options l) in IH.
  destruct IH as [(R1 & R2 & R3 & R4 & R5) ->]. change (segments l1) with ss' in R1, R2, R5.
  unfold retained. rewrite Hs. cbn [expired_count]. rewrite Hex.
  set (d := expired_count (lg_options l) now ss') in *. rewrite Hr. cbn [drop take concat]. split; [|lia].
  split_and!; try done. rewrite R2, zlen_app. change (log_start_offset l1) with (base_offset second). rewrite Hb2. lia.
Qed.
