(* ===== verification/PartitionLogOpen.v ===== *)
(** * PartitionLogOpen: reopening a log from its files

    What [PartitionLog::Open] makes of a directory: each segment file is recovered and
    the log holds the records of all of them, from the first base offset on, whatever
    torn tail a crash left behind the last good record of a segment. *)
From stdpp Require Import sorting.
From S2P Require Import Prelude Status Endian Crc32c Buffer Types Codec Frame Record FileUtil Search OffsetIndex Quiet Segment SegmentSpec Recovery SegmentOps SegmentRead SegmentTheorems PartitionLog PartitionLogSpec PartitionLogRoll.

(** The files of a segment that holds [rs]: its records, perhaps followed by a tail
    that is no record, and index entries that point at records.  What is in the file
    is on the disk: the system itself has gone down, or the file was closed. *)
Definition disk_segment (base : Z) (rs : Run) (files : Result (bool * FileHandle * FileHandle * FileHandle)) : Prop :=
  match files with
  | Err _ => True
  | Ok (existed, lf, xf, tf) =>
      existed = true ∧ durable lf = on_disk_file (content lf) ∧ zlen (content lf) < 2 ^ 62 ∧
      run_ok true rs ∧ consecutive base rs ∧ Forall is_byte (run_bytes rs) ∧ records_fit_window rs ∧
      (∃ tail, content lf = run_bytes rs ++ tail ∧ tail_ends (base + zlen rs) tail ∧ tail_decided tail) ∧
      (∃ es frag, content xf = concat (map enc_offset_entry es) ++ frag ∧ zlen frag < kIndexEntryBytes ∧
         Forall offset_entry_fits es ∧ increasing es ∧ ∀ e, e ∈ es → index_points rs e)
  end.

(** ** Opening on a reliable disk *)

Lemma index_open_quiet {E} size dec (key : E → Z) stop base (ix : SparseIndex E) :
  0 < size → quiet_index ix → is_ok (index_open size dec key stop base ix).1 = true ∧ quiet_index (index_open size dec key stop base ix).2.
Proof.
  intros Hsize Hq. unfold index_open, sbind, smod, on_file, szoom, Size. cbn [ix_file]. rewrite next_outcome_quiet by done.
  set (f := ix_file ix) in *. set (n := zlen (content f)). set (whole := n - n mod size).
  pose proof (Z.mod_pos_bound n size Hsize). pose proof (zlen_nonneg (content f)). pose proof (Z.mod_le n size ltac:(unfold n; lia) Hsize).
  cbn [ix_file entries ix_base].
  assert (HT : ∃ f2, (if negb (whole =? n) then Truncate whole else sret tt) f = (Ok tt, f2) ∧ quiet f2 ∧ whole ≤ zlen (content f2)).
  { destruct (negb (whole =? n)).
    - destruct (Truncate_calm whole f Hq) as [T1 T2]. pose proof (Truncate_spec whole f) as [_ HT].
      destruct (Truncate whole f) as [[[]|e] f2]; [|done]. exists f2. cbn [fst snd] in *. rewrite HT, zlen_vector_resize by (unfold whole; lia). split_and!; [done|done|lia].
    - exists f. split_and!; [done|done|]. unfold whole, n in *. lia. }
  destruct HT as (f2 & -> & Hq2 & Hw). cbn [ix_file entries ix_base fst snd].
  destruct (Z.eqb_spec whole 0); [by split|].
  destruct (ReadExactAt_looks whole 0 f2 ltac:(lia) ltac:(unfold whole in *; lia) ltac:(lia)) as (_ & _ & R3 & R4).
  cbn [ix_file entries ix_base]. destruct (ReadExactAt whole 0 f2) as [[raw|e] f3]; cbn [fst snd] in *; [|by destruct R4].
  destruct (load_entries _ _ _ _ _ _ _ _) as [es [t|]]; unfold set_entries; cbn [ix_file entries ix_base]; [|by split; [|apply R3]].
  destruct (Truncate_calm t f3 (R3 Hq2)) as [T1 T2]. by destruct (Truncate t f3) as [[[]|e] f4].
Qed.

Lemma OffsetIndex_Open_quiet base (ix : OffsetIndex) :
  quiet_index ix → is_ok (OffsetIndex_Open base ix).1 = true ∧ quiet_index (OffsetIndex_Open base ix).2.
Proof. by apply index_open_quiet. Qed.
Lemma TimeIndex_Open_quiet base (ix : TimeIndex) :
  quiet_index ix → is_ok (TimeIndex_Open base ix).1 = true ∧ quiet_index (TimeIndex_Open base ix).2.
Proof. by apply index_open_quiet. Qed.

(** A segment opened over existing files: its log file and what its index loaded. *)
Lemma Segment_Open_existing lf xf tf base o now :
  let r := Segment_Open true lf xf tf base o now in
  (quiet lf → quiet xf → quiet tf → is_ok r.1 = true ∧ seg_quiet r.2) ∧
  (r.1 = Ok tt → base_offset r.2 = base ∧ content (seg_file r.2) = content lf ∧ durable (seg_file r.2) = durable lf ∧
     ∃ ix, OffsetIndex_Open base (mkIndex xf [] 0) = (Ok tt, ix) ∧ seg_index r.2 = ix).
Proof.
  unfold Segment_Open, sbind, in_index, in_time_index, in_file, szoom, smod, stry. cbn [seg_index].
  pose proof (OffsetIndex_Open_quiet base (mkIndex xf [] 0)) as QX.
  destruct (OffsetIndex_Open base _) as [[[]|e] ix]; cbn [fst snd] in *.
  2:{ split; [|done]. intros _ Q _. by destruct (QX Q). }
  cbn [seg_time_index with_index]. pose proof (TimeIndex_Open_quiet base (mkIndex tf [] 0)) as QT.
  destruct (TimeIndex_Open base _) as [[[]|e] ti]; cbn [fst snd] in *.
  2:{ split; [|done]. intros _ _ Q. by destruct (QT Q). }
  cbn [seg_file with_time_index with_index]. pose proof (Size_spec lf) as (S1 & [S2 _] & _). pose proof (Size_calm lf) as QS.
  destruct (Size lf) as [[n|e] f1]; cbn [fst snd] in *.
  2:{ split; [|done]. intros Q. by destruct (QS Q). }
  cbn [negb andb]. split.
  - intros Q1 Q2 Q3. split; [done|]. split_and!; [by apply QS|by apply QX|by apply QT].
  - intros _. cbn. split_and!; try done. by exists ix.
Qed.

(** One segment reopened: it holds exactly its records, all of them durable. *)
Definition reopened (base : Z) (rs : Run) (s : Segment) : Prop :=
  seg_good s rs ∧ base_offset s = base ∧ (∀ fl, seg_flushed fl s rs) ∧ segment_synced s.

Lemma open_and_recover fuel base rs files o now :
  disk_segment base rs files → (length rs + 1 < fuel)%nat →
  match open_segment files base o now with
  | Err _ => ¬ quiet_files files
  | Ok s => match Recover fuel false s with
            | (None, _) => False
            | (Some (Err _), _) => ¬ quiet_files files
            | (Some (Ok _), s') => reopened base rs s'
            end
  end.
Proof.
  destruct files as [[[[ex lf] xf] tf]|e]; [|by intros _ _ H].
  intros (-> & Hdur & Hbig & Hok & Hcons & Hbytes & Hwin & (tail & Hc & Htail & Hdec) & es & frag & Hx & Hfrag & Hfit & Hinc & Hpts) Hfuel.
  unfold open_segment. destruct (Segment_Open_existing lf xf tf base o now) as [HQ HO].
  destruct (Segment_Open true lf xf tf base o now) as [[[]|e] s]; cbn [fst snd] in *.
  2:{ intros (Q1 & Q2 & Q3). by destruct (HQ Q1 Q2 Q3). }
  destruct (HO eq_refl) as (Hb & Hcs & Hds & ix & Hix & Hsx).
  assert (Ho : in_order relative_offset (λ prev e, relative_offset e <=? prev) offset_entry_fits (-1) es).
  { apply increasing_in_order; [done|done|]. intros e He. rewrite Forall_forall in Hfit. apply list_elem_of_lookup_2 in He.
    destruct (Hfit e He) as [[? _] _]. lia. }
  destruct (index_open_spec kIndexEntryBytes enc_offset_entry dec_offset_entry relative_offset
    (λ prev e, relative_offset e <=? prev) offset_entry_fits eq_refl (λ e, eq_refl) dec_enc_offset
    es frag (mkIndex xf [] 0) base Ho Hfrag Hx) as (He & Hbx & Hd); fold (OffsetIndex_Open base) in *; rewrite Hix in *; [done|].
  cbn [fst snd] in *.
  assert (Hrec : index_recoverable (base_offset s) rs tail false (seg_index s)).
  { rewrite Hsx, Hb. split; [|split; [done|]].
    - split; [by rewrite He|]. split; [by rewrite He|done].
    - rewrite He. intros e Hin. destruct (Hpts e Hin) as [H1 H2]. split; [done|]. lia. }
  rewrite <- Hb in Hcons, Htail. rewrite <- Hcs in Hc, Hbig.
  pose proof (Recover_spec fuel false rs tail s Hc Hbig Hok Hcons Hbytes Hwin Htail Hdec Hrec Hfuel) as HR.
  pose proof (Recover_quiet fuel false s) as HRQ.
  destruct (Recover fuel false s) as [out s']; cbn [fst snd] in *. destruct HR as [[e ->]|(rep & -> & Hinv & Hcn & Hbo & _ & _ & Hsy & Hdu)].
  - intros (Q1 & Q2 & Q3). destruct (HQ Q1 Q2 Q3) as [_ HSQ]. by apply (HRQ HSQ (index_start _ _ _ _ _ Hrec) e).
  - pose proof (inv_end _ _ Hinv) as Hend. split; [|split].
    + split; [done|]. split.
      * eapply Forall_impl; [exact Hwin|]. intros r Hr. etrans; [exact Hr|done].
      * unfold seg_durable, seg_secured. rewrite Hsy, Hend, Hdu, Hds, Hdur, <- Hcs, Hc. split; [zlist|]. intros _. assert (HC : ∀ m d, covered m (on_disk_file d) = d) by by intros []. rewrite HC, ztake_app, ztake_all by lia. done.
    + congruence.
    + split; [|unfold segment_synced; lia]. intros fl. unfold seg_flushed. rewrite Hsy, Hend. apply pos_of_le.
Qed.

(** ** The whole directory *)

Section Load.
Context (files : Z → Result (bool * FileHandle * FileHandle * FileHandle)).

(** Segment files, in order, each starting where the one before ends. *)
Fixpoint disk_chain (base : Z) (bases : list Z) (rss : list Run) : Prop :=
  match bases, rss with
  | [], [] => True
  | b :: bases, rs :: rss => b = base ∧ disk_segment b rs (files b) ∧ disk_chain (base + zlen rs) bases rss
  | _, _ => False
  end.

Lemma disk_chain_bounds base bases rss : disk_chain base bases rss → Forall (λ b, base ≤ b) bases.
Proof.
  revert base rss. induction bases as [|b bases IH]; intros base [|rs rss]; try done. intros (-> & _ & Hc).
  constructor; [lia|]. eapply Forall_impl; [by eapply IH|]. cbn. intros b Hb. pose proof (zlen_nonneg rs). lia.
Qed.
Lemma disk_chain_sorted base bases rss : disk_chain base bases rss → StronglySorted Z.le bases.
Proof.
  revert base rss. induction bases as [|b bases IH]; intros base [|rs rss]; try done; [by constructor|].
  intros (-> & _ & Hc). constructor; [by eapply IH|]. eapply Forall_impl; [by eapply disk_chain_bounds|].
  cbn. intros b Hb. pose proof (zlen_nonneg rs). lia.
Qed.

Lemma sort_bases bs bases : StronglySorted Z.le bases → bs ≡ₚ bases → ZSort.sort bs = bases.
Proof.
  intros Hs Hp. apply (StronglySorted_unique Z.le); [|done|by rewrite <- ZSort.Permuted_sort].
  assert (HT : RelationClasses.Transitive (λ x y, is_true (ZOrder.leb x y))).
  { intros x y z. unfold is_true, ZOrder.leb. rewrite !Z.leb_le. lia. }
  pose proof (ZSort.StronglySorted_sort bs HT) as HS.
  induction HS as [|x l HS IH Hx]; [by constructor|]. constructor; [done|].
  eapply Forall_impl; [exact Hx|]. intros y. unfold is_true, ZOrder.leb. by rewrite Z.leb_le.
Qed.

Lemma load_loop_spec fuel o now bases rss comb l base :
  disk_chain base bases rss → Forall (λ rs, (length rs + 1 < fuel)%nat) rss →
  match load_loop fuel files o now bases comb l with
  | (Ok None, _) => False
  | (Ok (Some _), l') => ∃ ss, l' = with_segments (segments l ++ ss) l ∧ (∀ fl, chain base fl ss rss) ∧ Forall segment_synced ss
  | (Err _, _) => ¬ Forall (λ b, quiet_files (files b)) bases
  end.
Proof.
  revert base rss comb l. induction bases as [|b bases IH]; intros base [|rs rss] comb l; try done; cbn [load_loop disk_chain].
  { intros _ _. exists []. split; [|by split]. rewrite app_nil_r. by destruct l. }
  intros (-> & Hd & Hc) [Hf Hfs]%Forall_cons. unfold sbind at 1, slift.
  pose proof (open_and_recover fuel base rs (files base) o now Hd Hf) as HO.
  destruct (open_segment _ _ _ _) as [s|e]; [|by intros [? _]%Forall_cons].
  destruct (Recover fuel false s) as [[[rep|e]|] s']; [|by intros [? _]%Forall_cons|done].
  destruct HO as (Hg & Hb & Hfl & Hsy). unfold sbind, smod. set (l1 := with_segments (segments l ++ [s']) l).
  specialize (IH (base + zlen rs) rss (combine_reports comb rep) l1 Hc Hfs).
  destruct (load_loop fuel files o now bases _ l1) as [[[rep'|]|e] l2]; [|done|by intros [_ ?]%Forall_cons].
  destruct IH as (ss & -> & Hch & Hse). exists (s' :: ss). split; [by cbn; rewrite <- app_assoc|].
  split; [intros fl; cbn; by split_and!|by constructor].
Qed.
End Load.

(** Opening a directory: the log of the segment files in it. *)
Definition opened (o : LogOptions) (start : Z) (rss : list Run) (files : Z → Result (bool * FileHandle * FileHandle * FileHandle))
    (bases : list Z) (r : Result (option RecoveryReport) * PartitionLog) : Prop :=
  match r with
  | (Ok None, _) => False
  | (Ok (Some _), l) => log_inv l rss ∧ log_start_offset l = start ∧ flushed_offset l = log_end_offset l ∧ lg_options l = o ∧
                        unflushed_bytes l = 0 ∧ unflushed_records l = 0
  | (Err _, _) => ¬ Forall (λ b, quiet_files (files b)) bases
  end.

Lemma sbind_lift {S A B} (a : A) (k : A → SR S B) s : sbind (slift (Ok a)) k s = k a s.
Proof. done. Qed.

Lemma Log_Open_spec fuel o now_ms now files stems start bases rss :
  omap ParseBaseOffset stems ≡ₚ bases → bases ≠ [] → disk_chain files start bases rss →
  Forall (λ rs, (length rs + 1 < fuel)%nat) rss →
  opened o start rss files bases (Log_Open fuel o now_ms (Ok tt) (Ok stems) files now).
Proof.
  intros Hp Hne Hd Hf. unfold Log_Open, LoadSegments. rewrite !sbind_lift.
  rewrite (sort_bases _ bases (disk_chain_sorted _ _ _ _ Hd) Hp), (sbind_ok sget _ _ _ _ eq_refl). cbn [lg_options new_log].
  destruct bases as [|b bases]; [done|]. set (bs := b :: bases) in *. unfold sbind at 1.
  pose proof (load_loop_spec files fuel (segment_options o) now bs rss (mkReport 0 0 0 0 0 false) (new_log o now_ms) start Hd Hf) as HL.
  destruct (load_loop _ _ _ _ _ _ _) as [[[rep|]|e] l]; [|done|done].
  destruct HL as (ss & -> & Hch & Hse). cbn [segments new_log app] in *.
  destruct rss as [|rs0 rss0]; [done|]. destruct ss as [|s0 ss0]; [by destruct (Hch 0)|]. set (ss := s0 :: ss0) in *. set (rss := rs0 :: rss0) in *.
  rewrite (sbind_ok sget _ _ _ _ eq_refl). cbn [segments with_segments].
  set (l := with_segments ss (new_log o now_ms)).
  assert (Hseg : ∀ i s, ss !! i = Some s → the_segment i l = (Ok s, l)).
  { intros i s Hi. unfold the_segment, at_segment, sget. cbn [segments with_segments l]. rewrite Hi. by rewrite (list_insert_id _ _ _ Hi). }
  destruct (lookup_lt_is_Some_2 ss (pred (length ss))) as [s Hlast]; [cbn; lia|].
  rewrite (sbind_ok _ _ _ _ _ (Hseg _ _ Hlast)), (sbind_ok _ _ _ _ _ (Hseg 0%nat s0 eq_refl)). unfold sbind, smod, sret.
  assert (Hnext : next_offset s = start + zlen (concat rss)).
  { destruct (chain_snoc _ _ _ _ (Hch 0) ltac:(done)) as (ss1 & s1 & rss1 & rs1 & E1 & E2 & EL & EP).
    rewrite EP, E1, lookup_last in Hlast. injection Hlast as ->. pose proof (Hch 0) as Hc. rewrite E1, E2 in Hc.
    apply chain_app in Hc as [_ Hc]; [|done]. apply chain_cons_last in Hc as (Hb & ([] & _) & _).
    rewrite E2, concat_app, zlen_app. cbn [concat]. rewrite app_nil_r. lia. }
  pose proof (Hch (next_offset s)) as Hc. assert (Hb0 : base_offset s0 = start) by apply Hc.
  split; [|by split_and!]. constructor; try done.
  - change (chain (base_offset s0) (next_offset s) ss rss). by rewrite Hb0.
  - change (next_offset s = base_offset s0 + zlen (concat rss)). by rewrite Hb0.
  - change (sealed ss). intros i x Hi _. by apply (Forall_lookup_1 _ _ _ _ Hse Hi).
Qed.
