(* ===== verification/PartitionLogTheorems.v ===== *)
(** * PartitionLogTheorems: the contract of a partition log

    The log as its users see it: a run of records with consecutive offsets, appended
    at the end, read from any offset, cut at either end, durable up to
    [flushed_offset] and back after a restart. *)
From S2P Require Import Prelude Status Endian Crc32c Buffer Types Codec Frame Record FileUtil Search OffsetIndex Quiet Segment SegmentSpec Recovery SegmentOps SegmentRead SegmentTheorems PartitionLog PartitionLogSpec PartitionLogRoll PartitionLogBatch PartitionLogAppend PartitionLogRead PartitionLogTruncate PartitionLogOpen.

(** ** A concrete log *)

Definition example_options : LogOptions :=
  mkLogOptions (128 * 1024 * 1024) 0 4096 0 0 0 false kWrite kFull (mkFlushPolicy false 1000 0 0).
Definition sync_options : LogOptions :=
  mkLogOptions (128 * 1024 * 1024) 0 4096 100 0 0 false kWrite kFull (mkFlushPolicy true 1000 0 0).
Definition example_files : Result (bool * FileHandle * FileHandle * FileHandle) :=
  Ok (false, file_with [] [], file_with [] [], file_with [] []).
Definition example_env : LogEnv := mkLogEnv 5 (Ok (2 ^ 40)) 5 example_files 5 1700000000000 5 6 7.

(** A log with one empty segment. *)
Definition example_log (o : LogOptions) : PartitionLog :=
  mkLog o [fresh_segment [] 0] (Some 0%nat) 0 0 0 0 0 (mkFlushStats 0 0 0 0) 0 0 0 false false.

Lemma fresh_good : seg_good (fresh_segment [] 0) [].
Proof. split; [apply fresh_segment_inv|]. split; [constructor|apply (fresh_durable [] 0)]. Qed.

Lemma example_log_inv o : log_inv (example_log o) [[]].
Proof.
  constructor; try done; [apply chain_cons_last; split; [done|]; split; [apply fresh_good|]|].
  - apply seg_flushed_empty, fresh_good.
  - intros i s Hi Hlt. cbn in Hlt. lia.
Qed.
Lemma example_env_calm o : min_free_disk_bytes o = 0 → calm_env example_env (example_log o).
Proof.
  intros H. split; [constructor; [apply fresh_segment_quiet|constructor]|]. split; [|by split_and!].
  unfold CheckDiskSpace, sbind, sget, smod, sret; cbn. by rewrite H.
Qed.

(** Batches of one record. *)
Definition record_at (offset : Z) : LogRecord := record_of offset 7 0 false [107] [118].
Definition run_at (offset : Z) : Run := [(record_bytes (record_at offset), record_at offset)].
Definition example_records : bytes := run_bytes (run_at 0).

Lemma run_at_ok offset : signed 64 offset → run_ok true (run_at offset).
Proof.
  intros Ho. constructor; [|constructor]. eexists. split; [apply record_bytes_encodes|done].
  split; [by vm_compute|]. by split.
Qed.
Lemma run_at_size offset : zlen (run_bytes (run_at offset)) = 29.
Proof. done. Qed.

Lemma run_at_sane offset : sane (run_bytes (run_at offset)).
Proof.
  set (d := run_bytes (run_at offset)).
  assert (HD : ∀ k, 25 ≤ k → znth d k = znth (zdrop 25 d) (k - 25)).
  { intros k Hk. rewrite <- znth_shift by lia. f_equal. lia. }
  assert (HT : zdrop 25 d = [2; 1; 107; 118]) by done.
  split.
  { unfold d, run_bytes. cbn [run_at map concat fst]. rewrite app_nil_r. unfold record_bytes, record_image.
    rewrite !Forall_app. split_and!; try apply le_bytes_is_byte. unfold canonical_body, record_body.
    rewrite !Forall_app. split_and!; try apply le_bytes_is_byte; by repeat constructor. }
  assert (HR : ∀ p, 0 ≤ p → ReadVarUInt d (25 + p) = ReadVarUInt [2; 1; 107; 118] p).
  { intros p Hp. rewrite <- HT. unfold ReadVarUInt.
    rewrite <- (read_varuint_shift 11 (ztake 25 d) (zdrop 25 d) p) by lia. by rewrite ztake_zdrop. }
  intros pos Hpos kf n1 vl n2 R1 R2. unfold kVarintStart in *.
  assert (Hn : 0 < n1) by (by apply ReadVarUInt_inv in R1 as (? & _); [|lia]).
  replace (pos + 25) with (25 + pos) in R1 by lia. replace (pos + 25 + n1) with (25 + (pos + n1)) in R2 by lia.
  rewrite HR in R1, R2 by lia.
  assert (H4 : ∀ p v n, 0 ≤ p → ReadVarUInt [2; 1; 107; 118] p = Some (v, n) → v < 2 ^ 62).
  { clear. intros p v n Hp HR. pose proof HR as HR'. apply ReadVarUInt_inv in HR' as (H1 & H2 & _); [|done].
    assert (HL : zlen [2; 1; 107; 118] = 4) by done. rewrite HL in H2.
    assert (Hc : p = 0 ∨ p = 1 ∨ p = 2 ∨ p = 3) by lia.
    destruct Hc as [->|[->|[->| ->]]]; vm_compute in HR; by simplify_eq. }
  split; [by apply (H4 pos kf n1)|by apply (H4 (pos + n1) vl n2); [lia|]].
Qed.

(** ** Appending *)



(** A replica's append takes a batch with its offsets: a contiguous batch (whose
    checksums it verifies), or chunks of an already verified batch, is added as it
    is exactly when its offsets continue the log and it has the announced number of
    records; any other batch is refused and a failure leaves the log as it was. *)
Theorem Log_append_replica (e : LogEnv) (records : bytes) (css : list Run) (cnt : Z) (l : PartitionLog) (rss : list Run) :
  log_inv l rss → fresh_files (env_files e) → sane records → zlen records ≤ kMaxRecordBytes →
  Forall (run_ok true) css → zlen (run_bytes (concat css)) ≤ kMaxRecordBytes →
  replica_outcome e l rss records cnt (AppendWithOffsets e records cnt l) ∧
  vectored_outcome e l rss (concat css) cnt (AppendVectoredWithOffsets e (map run_bytes css) cnt l).
Proof.
  intros. split; [|by apply AppendVectoredWithOffsets_outcome]. apply AppendWithOffsets_outcome; try done.
  apply sane_scans; [done|unfold kMaxRecordBytes in *; lia].
Qed.

Lemma Log_append_replica_witness :
  replica_outcome example_env (example_log example_options) [[]] example_records 1
    (AppendWithOffsets example_env example_records 1 (example_log example_options)) ∧
  is_ok (AppendVectoredWithOffsets example_env [example_records] 1 (example_log example_options)).1 = true.
Proof.
  split; [|by vm_compute].
  refine (proj1 (Log_append_replica example_env example_records [run_at 0] 1 (example_log example_options) [[]] _ _ _ _ _ _)).
  - apply example_log_inv.
  - done.
  - apply (run_at_sane 0).
  - by vm_compute.
  - constructor; [by apply (run_at_ok 0)|constructor].
  - by vm_compute.
Defined.

(** ** Reading *)

(** C11. A read from an offset inside the log returns whole records in order across
    segment boundaries: the fewest records from that offset on whose size reaches
    the byte budget, or all that are left; it fails only for an offset outside the
    log or because a system call did, and changes neither records nor counters. *)
Theorem Log_read_exact (l : PartitionLog) (rss : list Run) (out : ByteBuffer) (from max : Z) :
  log_inv l rss → buffer_wf out → log_read rss from max l out (Log_Read from max (l, out)).
Proof. apply Log_Read_spec. Qed.

(** Logs built by appending single records. *)
Definition append_at (offset : Z) (l : PartitionLog) : PartitionLog :=
  (AppendWithOffsets example_env (run_bytes (run_at offset)) 1 l).2.
Lemma append_at_inv offset l rss : signed 64 offset → log_inv l rss → ∃ rss', log_inv (append_at offset l) rss'.
Proof.
  intros Ho Hinv. destruct (AppendWithOffsets_outcome example_env (run_bytes (run_at offset)) 1 l rss) as (new & [HG _] & _);
    [done|done|by apply sane_scans; [apply run_at_sane|]|by rewrite run_at_size|].
  destruct HG as (_ & _ & rss' & Hi & _). by exists rss'.
Qed.

Definition one_record_log : PartitionLog := append_at 0 (example_log example_options).
Lemma one_record_log_inv : ∃ rss, log_inv one_record_log rss.
Proof. apply (append_at_inv 0 _ [[]]); [done|apply example_log_inv]. Qed.

Lemma Log_read_exact_witness :
  ∃ rss, log_read rss 0 10 one_record_log emptyBuffer (Log_Read 0 10 (one_record_log, emptyBuffer)).
Proof.
  destruct one_record_log_inv as (rss & Hi). exists rss.
  apply (Log_read_exact one_record_log rss emptyBuffer 0 10 Hi emptyBuffer_wf).
Defined.

(** ** Cutting the log *)

(** Truncating a log to an offset inside it keeps exactly the records before the
    offset, moves the log end there and never leaves [flushed_offset] beyond it; to
    an offset at or past the end it does nothing, before the start it is refused;
    it succeeds when no system call fails. *)
Theorem Log_truncate_exact (del : nat → bool * bool * bool) (offset : Z) (l : PartitionLog) (rss : list Run) :
  log_inv l rss →
  let r := TruncateTo del offset l in
  (log_end_offset l ≤ offset → r = (Ok tt, l)) ∧
  (offset < log_start_offset l → offset < log_end_offset l → r = (Err kOutOfRange, l)) ∧
  (log_start_offset l ≤ offset < log_end_offset l →
   (is_ok r.1 = true → log_truncated offset l r.2 rss) ∧ (log_quiet l → removals_ok del → is_ok r.1 = true)).
Proof.
  intros Hinv r. split_and!.
  - intros H. unfold r, TruncateTo, sbind, sget. by destruct (Z.leb_spec (log_end_offset l) offset); [|lia].
  - intros H H'. unfold r, TruncateTo, sbind, sget. destruct (Z.leb_spec (log_end_offset l) offset); [lia|].
    by destruct (Z.ltb_spec offset (log_start_offset l)); [|lia].
  - intros H. pose proof (TruncateTo_spec del offset l rss Hinv H) as HT. fold r in HT.
    destruct r as [[[]|e] l']; split; [done|done|done|]. intros Hq Hd. by destruct (HT (conj Hq Hd)).
Qed.

Lemma Log_truncate_exact_witness :
  ∃ rss, log_truncated 0 one_record_log (TruncateTo (λ _, (true, true, true)) 0 one_record_log).2 rss.
Proof.
  destruct one_record_log_inv as (rss & Hi). exists rss.
  destruct (Log_truncate_exact (λ _, (true, true, true)) 0 one_record_log rss Hi) as (_ & _ & H).
  assert (Hr : log_start_offset one_record_log ≤ 0 < log_end_offset one_record_log) by (vm_compute; split; [discriminate|reflexivity]).
  apply (proj1 (H Hr)). by vm_compute.
Defined.

(** When removing a segment fails during a truncation, the log is left with its
    write pointer dangling: the segment it points to is no longer in the log, and
    the next append uses it. *)
Theorem TruncateTo_dangles (del : nat → bool * bool * bool) (offset : Z) (l : PartitionLog) (rss : list Run)
    (ss : list Segment) (s s' : Segment) :
  log_inv l rss → log_start_offset l ≤ offset < log_end_offset l → segments l = ss ++ [s'; s] →
  offset ≤ base_offset s → is_ok (Segment_Close s).1 = true → Segment_Delete (del (S (length ss))) = Err kIoError →
  let r := TruncateTo del offset l in
  r.1 = Err kIoError ∧ ∃ i, active r.2 = Some i ∧ segments r.2 !! i = None.
Proof.
  intros Hinv Hr Hs Hb Hcl Hdel. cbv zeta. rewrite (TruncateTo_eq del offset l Hr).
  assert (HL : length (segments l) = S (S (length ss))) by (rewrite Hs, length_app; cbn; lia).
  assert (HD : drop_back (length (segments l)) del offset l = (Err kIoError, with_segments (take (S (length ss)) (segments l)) l)).
  { assert (Hlast : last (segments l) = Some s) by (rewrite Hs, (app_assoc ss [s'] [s] : ss ++ [s'; s] = _); apply last_snoc).
    rewrite HL. cbn [drop_back]. rewrite HL, Hlast. cbn [Nat.ltb Nat.leb pred].
    destruct (Z.leb_spec offset (base_offset s)); [|lia]. destruct (Segment_Close s) as [[[]|err] sc]; [|done].
    cbn [segments with_segments]. rewrite length_take, HL, Nat.min_l by lia. by rewrite Hdel. }
  rewrite HD. split; [done|]. exists (S (length ss)). split.
  - transitivity (active l); [done|]. by rewrite (li_active _ _ Hinv), HL.
  - apply lookup_ge_None. cbn. rewrite length_take. lia.
Qed.

(** Two segments of one record each. *)
Definition small_options : LogOptions :=
  mkLogOptions 10 0 4096 0 0 0 false kWrite kFull (mkFlushPolicy false 1000 0 0).
Definition two_segment_log : PartitionLog := append_at 1 (append_at 0 (example_log small_options)).
Lemma two_segment_log_inv : ∃ rss, log_inv two_segment_log rss.
Proof.
  destruct (append_at_inv 0 _ [[]] ltac:(done) (example_log_inv small_options)) as (rss & Hi).
  by apply (append_at_inv 1 _ rss).
Qed.

Lemma TruncateTo_dangles_witness :
  ∃ i, active (TruncateTo (λ _, (true, true, false)) 0 two_segment_log).2 = Some i ∧
       segments (TruncateTo (λ _, (true, true, false)) 0 two_segment_log).2 !! i = None.
Proof.
  destruct two_segment_log_inv as (rss & Hi).
  assert (HB : map (λ s, (base_offset s, is_ok (Segment_Close s).1)) (segments two_segment_log) = [(0, true); (1, true)])
    by (vm_compute; reflexivity).
  assert (HR : log_start_offset two_segment_log ≤ 0 < log_end_offset two_segment_log)
    by (vm_compute; split; [discriminate|reflexivity]).
  destruct (segments two_segment_log) as [|s' [|s [|]]] eqn:HS; try discriminate HB. injection HB as _ _ Hb Hc.
  refine (proj2 (TruncateTo_dangles (λ _, (true, true, false)) 0 two_segment_log rss [] s s' Hi HR HS _ Hc eq_refl)).
  rewrite Hb. discriminate.
Defined.

(** Retention removes whole segments from the front, exactly the expired ones: the
    longest prefix of segments that are too old, or that together with the rest
    exceed the size limit, never the last segment; the log starts at the first
    record kept and the rest is untouched; it succeeds when no system call fails. *)
Theorem Log_retention_exact (del : nat → bool * bool * bool) (now : Z) (l : PartitionLog) (rss : list Run) :
  log_inv l rss →
  let r := EnforceRetention del now l in
  (retention_bytes (lg_options l) ≤ 0 → retention_ms (lg_options l) ≤ 0 → r = (Ok 0, l)) ∧
  (0 < retention_bytes (lg_options l) ∨ 0 < retention_ms (lg_options l) →
   match r.1 with
   | Ok n => retained (lg_options l) now l r.2 rss ∧ n = Z.of_nat (expired_count (lg_options l) now (segments l))
   | Err _ => ¬ (log_quiet l ∧ removals_ok del)
   end).
Proof.
  intros Hinv r. unfold r, EnforceRetention, sbind, sget.
  destruct (Z.leb_spec (retention_bytes (lg_options l)) 0), (Z.leb_spec (retention_ms (lg_options l)) 0); cbn [andb];
    (split; [intros; try lia; done|]); intros Hor; try lia;
    pose proof (retention_loop_spec (length (segments l)) del now 0 l rss Hinv ltac:(lia)) as HR;
    by destruct (retention_loop _ del now 0 l) as [[n|e] l'].
Qed.

Lemma Log_retention_exact_witness :
  (EnforceRetention (λ _, (true, true, true)) 0 (example_log example_options)) = (Ok 0, example_log example_options).
Proof.
  apply (Log_retention_exact (λ _, (true, true, true)) 0 (example_log example_options) [[]] (example_log_inv _)); done.
Defined.
