(* ===== verification/PartitionLogCrash.v ===== *)
(** * PartitionLogCrash: durability

    What [flushed_offset] promises: every record below it was secured by a sync, a
    flush raises it to the log end, and a log reopened after the machine went down
    holds all of them. *)
From S2P Require Import Prelude Status Endian Crc32c Buffer Types Codec Frame Record FileUtil Search OffsetIndex Quiet Segment SegmentSpec Recovery SegmentOps SegmentRead SegmentTheorems PartitionLog PartitionLogSpec PartitionLogRoll PartitionLogBatch PartitionLogAppend PartitionLogRead PartitionLogTruncate PartitionLogOpen PartitionLogTheorems.

(** The records below [n] are secured by the syncs of their segment's file, as the configured
    mode promises, for every segment none of whose syncs has failed. *)
Definition durable_below (n : Z) (l : PartitionLog) (rss : list Run) : Prop :=
  ∀ i s rs, segments l !! i = Some s → rss !! i = Some rs → sync_intact s →
  let k := Z.to_nat (n - base_offset s) in
  ztake (pos_of rs k) (seg_secured s) = run_bytes (take k rs).

Lemma ztake_pos_of rs k : ztake (pos_of rs k) (run_bytes rs) = run_bytes (take k rs).
Proof. rewrite (run_bytes_split k rs). by apply ztake_app. Qed.

Lemma flushed_bytes fl s rs :
  seg_durable s rs → seg_flushed fl s rs → sync_intact s →
  let k := Z.to_nat (fl - base_offset s) in ztake (pos_of rs k) (seg_secured s) = run_bytes (take k rs).
Proof.
  intros [_ Hd] Hf Hin k. unfold seg_flushed in Hf. fold k in Hf.
  rewrite (ztake_run_prefix (pos_of rs k) _ _ _ Hf (Hd Hin)). apply ztake_pos_of.
Qed.

Lemma log_durable_below l rss : log_inv l rss → durable_below (flushed_offset l) l rss.
Proof.
  intros Hinv i s rs Hs Hr Hin. destruct (chain_lookup _ _ _ _ _ _ (li_chain _ _ Hinv) Hs) as (rs' & Hr' & _ & (_ & _ & Hd) & Hf).
  simplify_eq. by apply flushed_bytes.
Qed.

(** ** The life of a log *)

(** What is done to a log once it is open: appends by a leader or a replica, flushes, reads,
    truncation and retention.  A truncation or a retention that fails on the way is left
    out (see [TruncateTo_dangles]). *)
Inductive log_moves : PartitionLog → PartitionLog → Prop :=
  | lm_append e records cnt l :
      fresh_files (env_files e) → sane records → zlen records ≤ kMaxRecordBytes → signed 64 (env_append_now e) →
      0 ≤ log_end_offset l → log_end_offset l + zlen records < 2 ^ 63 → log_moves l (AppendAssigningOffsets e cnt (l, records)).2.1
  | lm_append_with e records cnt l :
      fresh_files (env_files e) → sane records → zlen records ≤ kMaxRecordBytes → log_moves l (AppendWithOffsets e records cnt l).2
  | lm_append_vectored e css cnt l :
      fresh_files (env_files e) → Forall (run_ok true) css → zlen (run_bytes (concat css)) ≤ kMaxRecordBytes →
      log_moves l (AppendVectoredWithOffsets e (map run_bytes css) cnt l).2
  | lm_flush e l : log_moves l (Flush e l).2
  | lm_read from max out l : buffer_wf out → log_moves l (Log_Read from max (l, out)).2.1
  | lm_truncate del offset l l' : TruncateTo del offset l = (Ok tt, l') → log_moves l l'
  | lm_retain del now n l l' : EnforceRetention del now l = (Ok n, l') → log_moves l l'.
(** A log that was opened, in a new directory or on what a machine that has come up finds on
    its disk, and then used. *)
Inductive log_reachable : PartitionLog → Prop :=
  | lr_new fuel o now_ms now stems files rep l :
      omap ParseBaseOffset stems = [] → fresh_files (files 0) →
      Log_Open fuel o now_ms (Ok tt) (Ok stems) files now = (Ok (Some rep), l) → log_reachable l
  | lr_open fuel o now_ms now stems files start bases rss rep l :
      omap ParseBaseOffset stems ≡ₚ bases → bases ≠ [] → disk_chain files start bases rss → Forall (λ rs, (length rs + 1 < fuel)%nat) rss →
      Log_Open fuel o now_ms (Ok tt) (Ok stems) files now = (Ok (Some rep), l) → log_reachable l
  | lr_move l l' : log_reachable l → log_moves l l' → log_reachable l'.

Lemma Log_Open_new fuel o now_ms now stems files rep l :
  omap ParseBaseOffset stems = [] → fresh_files (files 0) → Log_Open fuel o now_ms (Ok tt) (Ok stems) files now = (Ok (Some rep), l) → log_inv l [[]].
Proof.
  intros Hb Hf. unfold Log_Open, LoadSegments. rewrite !sbind_lift, Hb. change (ZSort.sort []) with (@nil Z). rewrite (sbind_ok sget _ _ _ _ eq_refl). cbn [lg_options new_log]. unfold sbind, slift.
  destruct (open_segment (files 0) 0 (segment_options o) now) as [s|e] eqn:E; [|done]. destruct (open_segment_fresh _ _ _ _ _ Hf E) as (Hg & Hs & _). unfold smod, sret. intros [= _ <-].
  constructor; try done; [apply chain_cons_last; split; [done|]; split; [done|by apply seg_flushed_empty]|]. intros i x Hi Hlt. cbn in Hlt. lia.
Qed.
Lemma log_moves_inv l l' rss : log_inv l rss → log_moves l l' → ∃ rss', log_inv l' rss'.
Proof.
  intros Hi Hm. assert (HG : ∀ l' new (A : Type) (r : Result A), grown l l' rss new r → ∃ rss', log_inv l' rss') by (intros l1 new A r (_ & _ & rss' & H & _); by exists rss').
  destruct Hm as [e records cnt l Hfr Hsane Hmax Hnow H0 Hend|e records cnt l Hfr Hsane Hmax|e css cnt l Hfr Hok Hmax|e l|from max out l Hb|del offset l l' HE|del now n l l' HE].
  - destruct (AppendAssigningOffsets_outcome e records cnt l rss Hi Hfr (assign_spec (env_append_now e) (log_end_offset l) records Hsane Hmax Hnow ltac:(lia) Hend) Hmax) as (rs & [H _] & _). by eapply HG.
  - destruct (AppendWithOffsets_outcome e records cnt l rss Hi Hfr) as (new & [H _] & _); [by apply sane_scans; [|unfold kMaxRecordBytes in *; lia]|done|]. by eapply HG.
  - destruct (AppendVectoredWithOffsets_outcome e css cnt l rss Hi Hfr Hok Hmax) as [[H _] _]. by eapply HG.
  - exists rss. by apply Flush_spec.
  - exists rss. apply (Log_Read_spec rss l out from max Hi Hb).
  - destruct (Z.leb_spec (log_end_offset l) offset) as [H1|H1]; [|destruct (Z.ltb_spec offset (log_start_offset l)) as [H2|H2]].
    + unfold TruncateTo, sbind, sget in HE. destruct (Z.leb_spec (log_end_offset l) offset); [|lia]. injection HE as <-. by exists rss.
    + unfold TruncateTo, sbind, sget in HE. destruct (Z.leb_spec (log_end_offset l) offset); [lia|]. by destruct (Z.ltb_spec offset (log_start_offset l)); [|lia].
    + pose proof (TruncateTo_spec del offset l rss Hi ltac:(lia)) as HT. rewrite HE in HT. destruct HT as (_ & _ & _ & rss' & HT & _). by exists rss'.
  - unfold EnforceRetention, sbind, sget in HE. destruct (_ && _); [injection HE as _ <-; by exists rss|].
    pose proof (retention_loop_spec (length (segments l)) del now 0 l rss Hi ltac:(lia)) as HR. rewrite HE in HR. destruct HR as [(HR & _) _]. by eexists.
Qed.
Lemma log_reachable_inv l : log_reachable l → ∃ rss, log_inv l rss.
Proof.
  induction 1 as [fuel o now_ms now stems files rep l Hb Hf HE|fuel o now_ms now stems files start bases rss rep l Hp Hne Hd Hf HE|l l' Hr [rss IH] Hm].
  - exists [[]]. by eapply Log_Open_new.
  - exists rss. pose proof (Log_Open_spec fuel o now_ms now files stems start bases rss Hp Hne Hd Hf) as HO. rewrite HE in HO. by destruct HO.
  - by eapply log_moves_inv.
Qed.


(** A log in a new directory with one record appended. *)
Definition new_files (_ : Z) : Result (bool * FileHandle * FileHandle * FileHandle) := example_files.
Definition opened_log : PartitionLog := (Log_Open 5 example_options 0 (Ok tt) (Ok []) new_files 0).2.
Definition used_log : PartitionLog := (AppendAssigningOffsets example_env 1 (opened_log, example_records)).2.1.
Lemma used_log_reachable : log_reachable used_log.
Proof.
  refine (lr_move opened_log _ _ _).
  - refine (lr_new 5 example_options 0 0 [] new_files (mkReport 0 0 0 0 0 false) opened_log eq_refl _ _); [split; [reflexivity|split; reflexivity]|]. unfold opened_log. vm_compute. reflexivity.
  - refine (lm_append example_env example_records 1 opened_log _ (run_at_sane 0) _ _ _ _); vm_compute; repeat split; discriminate || reflexivity.
Qed.

(** After a failed sync the next one succeeds and everything is declared flushed, although the
    record may never have been written: here its only sync that did anything failed. *)
Definition failing_log : PartitionLog :=
  let l := one_record_log in with_segments (map (λ s, with_file (mkFile (content (seg_file s)) (durable (seg_file s)) [OErr (EOther 5)] true) s) (segments l)) l.
Lemma retried_sync_overclaims :
  let first := Flush example_env failing_log in let second := Flush example_env first.2 in
  first.1 = Err kIoError ∧ flushed_offset first.2 = 0 ∧ second.1 = Ok tt ∧ flushed_offset second.2 = 1 ∧
  map (λ s, on_media (durable (seg_file s))) (segments second.2) = [[]].
Proof. by vm_compute. Qed.

(** ** After a crash *)

(** Two readings of the same bytes as records agree as far as the shorter one goes. *)
Lemma run_prefix base rs1 rs2 t1 t2 :
  run_ok true rs1 → run_ok true rs2 → consecutive base rs1 → zlen (run_bytes rs1 ++ t1) < 2 ^ 62 →
  run_bytes rs1 ++ t1 = run_bytes rs2 ++ t2 → tail_ends (base + zlen rs2) t2 →
  map fst rs1 `prefix_of` map fst rs2.
Proof.
  intros Hok1. revert base rs2. induction Hok1 as [|[r x] rs1 (crc & Hs & Hcrc) Hok1 IH]; intros base rs2 Hok2 Hc Hbig HE Htail.
  { apply prefix_nil. }
  change (run_bytes ((r, x) :: rs1)) with (r ++ run_bytes rs1) in *. rewrite <- app_assoc in HE, Hbig. cbn [fst snd] in Hs, Hcrc.
  apply consecutive_cons in Hc as [Ho Hc]. cbn [snd] in Ho.
  destruct Hok2 as [|[r2 x2] rs2 (crc2 & Hs2 & _) Hok2].
  - exfalso. change (run_bytes []) with (@nil Z) in HE. cbn [app] in HE. destruct Htail as (_ & _ & Ht).
    destruct (ParseRecord_shape t2 0 true r x crc (run_bytes rs1 ++ t1) Hs Hcrc) as (v & HP & Vo & _);
      [pose proof (zlen_nonneg t2); lia|rewrite <- HE; lia|by rewrite <- HE, zdrop_0 by lia|].
    apply (Ht _ _ HP). rewrite Vo, Ho. change (zlen (@nil (bytes * LogRecord))) with 0. lia.
  - change (run_bytes ((r2, x2) :: rs2)) with (r2 ++ run_bytes rs2) in HE. rewrite <- app_assoc in HE. cbn [fst snd] in Hs2.
    pose proof (shape_length _ _ _ (run_bytes rs1 ++ t1) Hs) as H1. pose proof (shape_length _ _ _ (run_bytes rs2 ++ t2) Hs2) as H2.
    rewrite HE in H1. apply app_inj_1 in HE as [-> HE]; [|unfold zlen in *; lia].
    cbn [map fst]. apply prefix_cons. apply (IH (base + 1)); try done.
    + rewrite zlen_app in Hbig. pose proof (zlen_nonneg r2). lia.
    + rewrite zlen_cons in Htail. by replace (base + 1 + zlen rs2) with (base + (1 + zlen rs2)) by lia.
Qed.

(** The log file found after the crash starts with what had been synced. *)
Definition survives (files : Z → Result (bool * FileHandle * FileHandle * FileHandle)) (s : Segment) : Prop :=
  match files (base_offset s) with
  | Ok (_, lf, _, _) => ztake (synced_position s) (content lf) = ztake (synced_position s) (seg_secured s)
  | Err _ => True
  end.
Definition found (files : Z → Result (bool * FileHandle * FileHandle * FileHandle)) (s : Segment) : Prop :=
  is_ok (files (base_offset s)) = true.

Lemma survivor_prefix files s rs rs' fl :
  seg_good s rs → seg_flushed fl s rs → sync_intact s → survives files s → found files s → disk_segment (base_offset s) rs' (files (base_offset s)) →
  map fst (take (Z.to_nat (fl - base_offset s)) rs) `prefix_of` map fst rs'.
Proof.
  intros (Hi & _ & Hd) Hf Hin Hsu Hfo. unfold survives, found, disk_segment in *.
  destruct (files (base_offset s)) as [[[[ex lf] xf] tf]|e]; [|done].
  intros (_ & Hdl & Hbig & Hok & Hcons & _ & _ & (tail & Hc & Htail & _) & _).
  set (k := Z.to_nat (fl - base_offset s)). pose proof (flushed_bytes fl s rs Hd Hf Hin) as HB. cbv zeta in HB. fold k in HB.
  unfold seg_flushed in Hf. fold k in Hf.
  assert (HP : content lf = run_bytes (take k rs) ++ zdrop (pos_of rs k) (content lf)).
  { rewrite <- (ztake_zdrop (pos_of rs k) (content lf)) at 1. f_equal. rewrite <- HB.
    apply (ztake_run_prefix _ (synced_position s)); [done|exact Hsu]. }
  pose proof Hi as [_ _ _ Hrun Hoff _ _ _ _].
  apply (run_prefix (base_offset s) _ _ (zdrop (pos_of rs k) (content lf)) tail); try done.
  - by apply run_ok_take.
  - by apply consecutive_take.
  - by rewrite <- HP.
  - by rewrite <- HP.
Qed.

Lemma prefix_lookup {A} (l l' : list A) n x : l `prefix_of` l' → l !! n = Some x → l' !! n = Some x.
Proof. intros [k ->] Hn. by apply lookup_app_l_Some. Qed.

Lemma crash_records files base fl ss rss rss' n r :
  chain base fl ss rss → disk_chain files base (map base_offset ss) rss' → Forall sync_intact ss → Forall (survives files) ss → Forall (found files) ss →
  concat rss !! n = Some r → base + Z.of_nat n < fl →
  ∃ r', concat rss' !! n = Some r' ∧ r'.1 = r.1.
Proof.
  revert base rss rss' n. induction ss as [|s ss IH]; intros base [|rs rss] [|rs' rss'] n Hc Hd Hin Hsu Hfo Hn Hlt; try done.
  destruct Hc as (Hb & Hg & Hf & Hc). destruct Hd as (_ & Hd & Hdc). apply Forall_cons in Hin as [Hin Hins]. apply Forall_cons in Hsu as [Hsu Hsus]. apply Forall_cons in Hfo as [Hfo Hfos].
  cbn [concat] in *. rewrite lookup_app_Some in Hn. destruct Hn as [Hn|[Hge Hn]].
  - pose proof (survivor_prefix files s rs rs' fl Hg Hf Hin Hsu Hfo Hd) as HP.
    assert (Hk : map fst (take (Z.to_nat (fl - base_offset s)) rs) !! n = Some r.1).
    { rewrite list_lookup_fmap, lookup_take_lt, Hn by lia. done. }
    apply (prefix_lookup _ _ _ _ HP) in Hk. rewrite list_lookup_fmap in Hk.
    destruct (rs' !! n) as [r'|] eqn:Hr'; [|done]. injection Hk as Hk. exists r'. split; [by apply lookup_app_l_Some|done].
  - destruct ss as [|s2 ss]; [destruct rss; [cbn [concat] in Hn; by rewrite lookup_nil in Hn|done]|].
    assert (HL : length rs' = length rs).
    { destruct rss; [done|]. destruct Hc as (Hb2 & _). destruct rss'; [done|]. destruct Hdc as (Hb2' & _). unfold zlen in *. lia. }
    destruct (IH (base + zlen rs) rss rss' (n - length rs)%nat Hc) as (r' & Hr' & HE); try done.
    { by replace (zlen rs) with (zlen rs') by (unfold zlen; lia). }
    { unfold zlen. lia. }
    exists r'. split; [|done]. rewrite lookup_app_r by lia. by rewrite HL.
Qed.

(** C1. No flushed record is lost in a crash: when the machine goes down and the log is
    reopened from the files as they are then found, every record below the
    [flushed_offset] of the old log is in the new one, at the same offset and byte for byte,
    and opening returns and fails only when a system call does.  This holds if no sync of a
    segment has failed before the crash ([sync_intact]), every segment's files are still
    there and the log file begins with the bytes its syncs secured ([found], [survives]:
    after a power cut that is what sync mode [kFull] gives, [kData] needs the device's cache
    to survive), and the files are what recovery can read ([disk_chain]): every record found
    fits the scan window of recovery ([records_fit_window]), the tail behind the records is
    one that recovery can tell from a record ([tail_decided]), and no surviving index entry
    points past the surviving records.  These can fail: [Recover_diverges] is about a record
    larger than the window, and recovery trusts an index entry that outlived its records. *)
Theorem Log_crash_recovery (fuel : nat) (l : PartitionLog) (rss rss' : list Run) (o : LogOptions) (now_ms now : Z)
    (stems : list bytes) (files : Z → Result (bool * FileHandle * FileHandle * FileHandle)) :
  log_inv l rss → Forall sync_intact (segments l) → Forall (survives files) (segments l) → Forall (found files) (segments l) →
  disk_chain files (log_start_offset l) (map base_offset (segments l)) rss' →
  omap ParseBaseOffset stems ≡ₚ map base_offset (segments l) → Forall (λ rs, (length rs + 1 < fuel)%nat) rss' →
  match Log_Open fuel o now_ms (Ok tt) (Ok stems) files now with
  | (Ok None, _) => False
  | (Ok (Some _), l') =>
      log_inv l' rss' ∧ log_start_offset l' = log_start_offset l ∧
      ∀ n r, concat rss !! n = Some r → log_start_offset l + Z.of_nat n < flushed_offset l →
      ∃ r', concat rss' !! n = Some r' ∧ r'.1 = r.1
  | (Err _, _) => ¬ Forall (λ b, quiet_files (files b)) (map base_offset (segments l))
  end.
Proof.
  intros Hinv Hin Hsu Hfo Hd Hst Hfuel.
  assert (Hne : map base_offset (segments l) ≠ []) by (pose proof (li_nonempty _ _ Hinv); by destruct (segments l)).
  pose proof (Log_Open_spec fuel o now_ms now files stems _ _ _ Hst Hne Hd Hfuel) as HO.
  destruct (Log_Open _ _ _ _ _ _ _) as [[[rep|]|e] l']; [|done|done]. destruct HO as (H1 & H2 & _).
  split; [done|]. split; [done|]. intros n r Hn Hlt.
  by apply (crash_records files _ _ _ _ rss' n r (li_chain _ _ Hinv) Hd Hin Hsu Hfo Hn).
Qed.

(** The flushed log of one record, and the files it leaves. *)
Definition flushed_log : PartitionLog := (Flush example_env one_record_log).2.
Definition crash_files (base : Z) : Result (bool * FileHandle * FileHandle * FileHandle) :=
  Ok (true, file_with (run_bytes (run_at 0)) [], file_with [] [], file_with [] []).

Lemma crash_disk : disk_chain crash_files 0 [0] [run_at 0].
Proof.
  split; [done|]. split; [|done]. cbn [disk_segment crash_files]. split_and!; try done.
  - by apply run_at_ok.
  - intros i r. destruct i as [|i]; [by intros [= <-]|done].
  - apply run_at_sane.
  - constructor; [by vm_compute|constructor].
  - exists []. split; [by rewrite app_nil_r|]. split.
    + split; [constructor|]. split; [intros kf n1 vl n2 H; by vm_compute in H|]. intros v n H. by vm_compute in H.
    + left. by vm_compute.
  - exists [], []. split; [done|]. split; [done|]. split; [constructor|]. split; [by intros i j x y Hi|by intros e He%elem_of_nil].
Qed.

Lemma Log_crash_recovery_witness :
  match Log_Open 5 example_options 0 (Ok tt) (Ok [FormatBaseOffset 0]) crash_files 0 with
  | (Ok (Some _), l') => log_inv l' [run_at 0]
  | _ => False
  end.
Proof.
  destruct one_record_log_inv as (rss & Hi). destruct (Flush_spec example_env _ _ Hi) as [Hi' _]. fold flushed_log in Hi'.
  assert (HM : map base_offset (segments flushed_log) = [0]) by (vm_compute; reflexivity).
  assert (HS : map (λ s, (synced_position s, seg_secured s)) (segments flushed_log) = [(29, run_bytes (run_at 0))]) by (vm_compute; reflexivity).
  assert (HK : map (λ s, sync_failed (durable (seg_file s))) (segments flushed_log) = [false]) by (vm_compute; reflexivity).
  assert (HN : Forall sync_intact (segments flushed_log)).
  { destruct (segments flushed_log) as [|s [|]]; try discriminate HK. injection HK as HK. constructor; [exact HK|constructor]. }
  assert (H0 : log_start_offset flushed_log = 0) by (vm_compute; reflexivity).
  assert (HF : Forall (survives crash_files) (segments flushed_log)).
  { destruct (segments flushed_log) as [|s [|]]; try discriminate HS. injection HS as H1 H2. constructor; [|constructor].
    unfold survives. cbn [crash_files]. by rewrite H2. }
  pose proof (Log_crash_recovery 5 flushed_log rss [run_at 0] example_options 0 0 [FormatBaseOffset 0] crash_files Hi' HN HF) as H.
  rewrite HM, H0 in H. specialize (H ltac:(by apply Forall_true) crash_disk ltac:(by vm_compute) ltac:(repeat constructor)).
  assert (HO : match (Log_Open 5 example_options 0 (Ok tt) (Ok [FormatBaseOffset 0]) crash_files 0).1 with Ok (Some _) => true | _ => false end = true)
    by (vm_compute; reflexivity).
  destruct (Log_Open _ _ _ _ _ _ _) as [[[rep|]|e] l']; try discriminate HO. by destruct H.
Defined.
