(* ===== verification/ClusterMetadata.v ===== *)
(** * ClusterMetadata: brokers, topics and who leads what

    Models include/pulselog/metadata/cluster_metadata.h and
    src/metadata/cluster_metadata.cc.  The object is its broker list and its topic
    map ([OrdMap], in name order); each method runs under the object's lock, so it
    is one step.  The persistence methods work on a directory of text files whose
    stream operations may fail. *)
From S2P Require Import Prelude Status Crc32c Types Text OrdMap MessagesData MessagesControl.

(** ** Data *)

Record TopicConfig := mkTopicConfig {
  tc_name : bytes; tc_partition_count : Z; tc_replication_factor : Z;
  tc_retention_ms : Z; tc_segment_bytes : Z;
  (** The underlying byte of the [Compression] enum. *)
  tc_compression : Z }.

Record PartitionAssignment := mkAssignment {
  pa_index : Z; pa_leader : Z; pa_leader_epoch : Z;
  pa_replicas : list Z; pa_in_sync : list Z }.

Record TopicDescriptor := mkTopic { td_config : TopicConfig; td_partitions : list PartitionAssignment }.

Record ClusterMetadata := mkMetadata {
  md_brokers : list BrokerEndpoint; md_topics : list (bytes * TopicDescriptor) }.

Definition with_brokers (b : list BrokerEndpoint) (md : ClusterMetadata) : ClusterMetadata :=
  mkMetadata b (md_topics md).
Definition with_topics (t : list (bytes * TopicDescriptor)) (md : ClusterMetadata) : ClusterMetadata :=
  mkMetadata (md_brokers md) t.
Definition with_partitions (ps : list PartitionAssignment) (d : TopicDescriptor) : TopicDescriptor :=
  mkTopic (td_config d) ps.

#[global] Instance TopicConfig_eq_dec : EqDecision TopicConfig.
Proof. solve_decision. Defined.
#[global] Instance PartitionAssignment_eq_dec : EqDecision PartitionAssignment.
Proof. solve_decision. Defined.
#[global] Instance TopicDescriptor_eq_dec : EqDecision TopicDescriptor.
Proof. solve_decision. Defined.

Definition HasReplica (broker : Z) (a : PartitionAssignment) : bool := bool_decide (broker ∈ pa_replicas a).
Definition QuorumSize (a : PartitionAssignment) : Z := zlen (pa_replicas a) / 2 + 1.

(** ** Routing *)

Definition PartitionForKey (key : bytes) (partition_count : Z) : Z :=
  if partition_count <=? 1 then 0
  else let hash := Z.land (Crc32c key) 0x7FFFFFFF in i32 (hash mod u32 partition_count).

(** [brokers[hash % brokers.size()].id] *)
Definition CoordinatorForGroup (group_id : bytes) (brokers : list BrokerEndpoint) : Z :=
  match brokers with
  | [] => -1
  | _ => match brokers !! Z.to_nat (Crc32c group_id mod zlen brokers) with Some b => be_id b | None => -1 end
  end.

Definition PartitionRoundRobin (counter partition_count : Z) : Z :=
  if partition_count <=? 1 then 0 else i32 (counter mod u64 partition_count).

(** ** Brokers *)

(** One "id@host:port". *)
Definition parse_broker_spec (spec : bytes) : Result BrokerEndpoint :=
  match cut_first 64 spec with
  | None => Err kInvalidArgument
  | Some (id_text, address) =>
      match ParseNumber 32 id_text with
      | Some id =>
          if id <? 0 then Err kInvalidArgument else
          match cut_last 58 address with
          | None => Err kInvalidArgument
          | Some (host, port_text) =>
              match ParseNumber_unsigned 32 port_text with
              | Some port =>
                  if (port =? 0) || (65535 <? port) then Err kInvalidArgument
                  else Ok (mkBrokerEndpoint id host (u16 port))
              | None => Err kInvalidArgument
              end
          end
      | None => Err kInvalidArgument
      end
  end.
Fixpoint parse_broker_specs (specs : list bytes) : Result (list BrokerEndpoint) :=
  match specs with
  | [] => Ok []
  | spec :: specs =>
      let? b := parse_broker_spec spec in let? bs := parse_broker_specs specs in Ok (b :: bs)
  end.

Definition broker_le (a b : BrokerEndpoint) : Prop := be_id a ≤ be_id b.
#[global] Instance broker_le_dec : RelDecision broker_le.
Proof. intros a b. unfold broker_le. apply _. Defined.

(** [brokers[i].id == brokers[i - 1].id] for some [i]. *)
Fixpoint has_adjacent_duplicate (brokers : list BrokerEndpoint) : bool :=
  match brokers with
  | a :: (b :: _) as rest => (be_id b =? be_id a) || has_adjacent_duplicate rest
  | _ => false
  end.

Definition SetBrokers (brokers : list BrokerEndpoint) : SR ClusterMetadata unit := smod (with_brokers brokers).

Definition SetBrokersFromSpec (specs : list bytes) : SR ClusterMetadata unit :=
  let! parsed := slift (parse_broker_specs specs) in
  let brokers := merge_sort broker_le parsed in
  if has_adjacent_duplicate brokers then sfail kInvalidArgument else SetBrokers brokers.

Definition FindBroker (id : Z) (md : ClusterMetadata) : option BrokerEndpoint :=
  List.find (λ b, be_id b =? id) (md_brokers md).
Definition ControllerId (md : ClusterMetadata) : Z :=
  match md_brokers md with [] => -1 | b :: _ => be_id b end.
Definition CoordinatorFor (group_id : bytes) (md : ClusterMetadata) : Z :=
  CoordinatorForGroup group_id (md_brokers md).

(** ** Topics *)

(** Replica [r] of partition [p]: the broker at slot (p + r + topic_offset) % n. *)
Definition replica_slot (brokers : list BrokerEndpoint) (topic_offset p r : Z) : Z :=
  match brokers !! Z.to_nat (u64 (u64 (p + r) + topic_offset) mod zlen brokers) with
  | Some b => be_id b
  | None => -1
  end.
Definition assign_partition (brokers : list BrokerEndpoint) (replication topic_offset p : Z) : PartitionAssignment :=
  let replicas := map (replica_slot brokers topic_offset p) (seqZ 0 replication) in
  mkAssignment p (hd (-1) replicas) 0 replicas replicas.
Definition ComputeAssignments (config : TopicConfig) (md : ClusterMetadata) : list PartitionAssignment :=
  let brokers := md_brokers md in
  let broker_count := zlen brokers in
  if broker_count =? 0 then [] else
  let replication := Z.min (u64 (tc_replication_factor config)) broker_count in
  let topic_offset := Crc32c (tc_name config) mod broker_count in
  map (assign_partition brokers replication topic_offset) (seqZ 0 (tc_partition_count config)).

(** The result, and what [*created] is set to. *)
Definition CreateTopic (config : TopicConfig) : SR ClusterMetadata (TopicDescriptor * bool) := λ md,
  if negb (IsValidTopicName (tc_name config)) then (Err kInvalidArgument, md)
  else if tc_partition_count config <=? 0 then (Err kInvalidArgument, md)
  else if tc_replication_factor config <=? 0 then (Err kInvalidArgument, md)
  else if zlen (md_brokers md) =? 0 then (Err kUnavailable, md)
  else if i16 (zlen (md_brokers md)) <? tc_replication_factor config then (Err kInvalidArgument, md)
  else match om_find (tc_name config) (md_topics md) with
  | Some existing =>
      if negb (tc_partition_count (td_config existing) =? tc_partition_count config)
         || negb (tc_replication_factor (td_config existing) =? tc_replication_factor config)
      then (Err kAlreadyExists, md)
      else (Ok (existing, false), md)
  | None =>
      let descriptor := mkTopic config (ComputeAssignments config md) in
      (Ok (descriptor, true), with_topics (om_emplace (tc_name config) descriptor (md_topics md)) md)
  end.

Definition UpsertTopic (descriptor : TopicDescriptor) : SR ClusterMetadata unit :=
  if negb (IsValidTopicName (tc_name (td_config descriptor))) then sfail kInvalidArgument
  else smod (λ md, with_topics (om_insert (tc_name (td_config descriptor)) descriptor (md_topics md)) md).

Definition DeleteTopic (name : bytes) : SR ClusterMetadata unit := λ md,
  match om_find name (md_topics md) with
  | None => (Err kNotFound, md)
  | Some _ => (Ok tt, with_topics (om_erase name (md_topics md)) md)
  end.

Definition HasTopic (name : bytes) (md : ClusterMetadata) : bool :=
  match om_find name (md_topics md) with Some _ => true | None => false end.
Definition GetTopic (name : bytes) (md : ClusterMetadata) : Result TopicDescriptor :=
  match om_find name (md_topics md) with Some d => Ok d | None => Err kNotFound end.
Definition ListTopics (md : ClusterMetadata) : list TopicDescriptor := map snd (md_topics md).

Definition GetPartition (topic : bytes) (partition : Z) (md : ClusterMetadata) : Result PartitionAssignment :=
  match om_find topic (md_topics md) with
  | None => Err kNotFound
  | Some d =>
      if partition <? 0 then Err kNotFound else
      match td_partitions d !! Z.to_nat partition with Some a => Ok a | None => Err kNotFound end
  end.

Definition partitions_where (keep : PartitionAssignment → bool) (md : ClusterMetadata) : list TopicPartition :=
  concat (map (λ e, map (λ a, mkTP e.1 (pa_index a)) (List.filter keep (td_partitions e.2))) (md_topics md)).
Definition PartitionsLedBy (broker : Z) (md : ClusterMetadata) : list TopicPartition :=
  partitions_where (λ a, pa_leader a =? broker) md.
Definition PartitionsHostedBy (broker : Z) (md : ClusterMetadata) : list TopicPartition :=
  partitions_where (HasReplica broker) md.

(** [it->second.partitions[index]] for the index [static_cast<std::size_t>(partition)]:
    a negative one wraps to an index past any vector. *)
Definition at_partition (topic : bytes) (partition : Z) (f : PartitionAssignment → Result PartitionAssignment)
    : SR ClusterMetadata unit := λ md,
  match om_find topic (md_topics md) with
  | None => (Err kNotFound, md)
  | Some d =>
      let index := u64 partition in
      if zlen (td_partitions d) <=? index then (Err kNotFound, md) else
      match td_partitions d !! Z.to_nat index with
      | None => (Err kNotFound, md)
      | Some a =>
          match f a with
          | Err e => (Err e, md)
          | Ok a' => (Ok tt, with_topics
              (om_insert topic (with_partitions (<[Z.to_nat index := a']> (td_partitions d)) d) (md_topics md)) md)
          end
      end
  end.

Definition UpdateInSyncReplicas (topic : bytes) (partition : Z) (in_sync : list Z) : SR ClusterMetadata unit :=
  at_partition topic partition (λ a,
    Ok (mkAssignment (pa_index a) (pa_leader a) (pa_leader_epoch a) (pa_replicas a) in_sync)).

Definition SetLeader (topic : bytes) (partition leader : Z) : SR ClusterMetadata unit :=
  at_partition topic partition (λ a,
    if negb (HasReplica leader a) then Err kInvalidArgument
    else if pa_leader a =? leader then Ok a
    else Ok (mkAssignment (pa_index a) leader (pa_leader_epoch a + 1) (pa_replicas a) (pa_in_sync a))).

(** ** Persistence *)

Definition kFileHeader : bytes := str "pulselog-metadata v1".
Definition tab : Z := 9.
Definition newline : Z := 10.

Definition topic_line (config : TopicConfig) : bytes :=
  intercalate tab [str "topic"; tc_name config; to_string (tc_partition_count config);
    to_string (tc_replication_factor config); to_string (tc_retention_ms config);
    to_string (tc_segment_bytes config); to_string (tc_compression config)].
Definition partition_line (config : TopicConfig) (a : PartitionAssignment) : bytes :=
  intercalate tab [str "partition"; tc_name config; to_string (pa_index a); to_string (pa_leader a);
    to_string (pa_leader_epoch a); intercalate 44 (map to_string (pa_replicas a))].
Definition topic_lines (d : TopicDescriptor) : list bytes :=
  topic_line (td_config d) :: map (partition_line (td_config d)) (td_partitions d).
(** The text [SaveTo] streams out. *)
Definition metadata_text (md : ClusterMetadata) : bytes :=
  concat (map (λ l, l ++ [newline]) (kFileHeader :: concat (map (λ e, topic_lines e.2) (md_topics md)))).

(** The files by path, and what the stream calls of one [SaveTo] do: whether the
    temporary file opens, whether the stream is still good when it is tested, how
    many bytes have reached the file once the destructor has flushed and closed it,
    and whether the rename succeeds. *)
Abbreviation Dir := (list (bytes * bytes)).
Record SaveEnv := mkSaveEnv { se_opens : bool; se_good : bool; se_written : Z; se_renames : bool }.

Definition SaveTo (env : SaveEnv) (path : bytes) (md : ClusterMetadata) : SR Dir unit := λ dir,
  let temp := path ++ str ".tmp" in
  if negb (se_opens env) then (Err kIoError, dir) else
  let dir := om_insert temp (ztake (se_written env) (metadata_text md)) dir in
  if negb (se_good env) then (Err kIoError, dir)
  else if negb (se_renames env) then (Err kIoError, dir)
  else (Ok tt, om_insert path (ztake (se_written env) (metadata_text md)) (om_erase temp dir)).

Abbreviation Topics := (list (bytes * TopicDescriptor)).

(** A "topic" line: [fields] without the keyword. *)
Definition load_topic (fields : list bytes) (loaded : Topics) : Result Topics :=
  match fields with
  | name :: f2 :: f3 :: f4 :: f5 :: f6 :: _ =>
      match ParseNumber 32 f2, ParseNumber 16 f3, ParseNumber 64 f4, ParseNumber 64 f5, ParseNumber 32 f6 with
      | Some count, Some factor, Some retention, Some seg, Some compression =>
          Ok (om_insert name (mkTopic (mkTopicConfig name count factor retention seg (u8 compression)) []) loaded)
      | _, _, _, _, _ => Err kCorruption
      end
  | _ => Err kCorruption
  end.
(** The replicas of the last field: what does not parse is left out. *)
Definition parse_replicas (field : bytes) : list Z := omap (ParseNumber 32) (Split 44 field).
Definition load_partition (fields : list bytes) (loaded : Topics) : Result Topics :=
  match fields with
  | name :: f2 :: f3 :: f4 :: f5 :: _ =>
      match om_find name loaded with
      | None => Err kCorruption
      | Some d =>
          match ParseNumber 32 f2, ParseNumber 32 f3, ParseNumber 64 f4 with
          | Some index, Some leader, Some epoch =>
              let replicas := parse_replicas f5 in
              let a := mkAssignment index leader epoch replicas replicas in
              Ok (om_insert name (with_partitions (td_partitions d ++ [a]) d) loaded)
          | _, _, _ => Err kCorruption
          end
      end
  | _ => Err kCorruption
  end.
Definition load_line (line : bytes) (loaded : Topics) : Result Topics :=
  match line with
  | [] => Ok loaded
  | _ =>
      match Split tab line with
      | kind :: fields =>
          if bool_decide (kind = str "topic") then load_topic fields loaded
          else if bool_decide (kind = str "partition") then load_partition fields loaded
          else Ok loaded
      | [] => Ok loaded
      end
  end.
Fixpoint load_loop_lines (lines : list bytes) (loaded : Topics) : Result Topics :=
  match lines with
  | [] => Ok loaded
  | line :: lines => let? loaded := load_line line loaded in load_loop_lines lines loaded
  end.

Definition index_le (a b : PartitionAssignment) : Prop := pa_index a ≤ pa_index b.
#[global] Instance index_le_dec : RelDecision index_le.
Proof. intros a b. unfold index_le. apply _. Defined.
(** [partitions[i].index == i] from [i] on. *)
Fixpoint dense_from (i : Z) (ps : list PartitionAssignment) : bool :=
  match ps with
  | [] => true
  | a :: ps => (pa_index a =? i32 i) && dense_from (i + 1) ps
  end.
(** Sorts every topic's partitions and rejects a gap. *)
Fixpoint sort_partitions (loaded : Topics) : Result Topics :=
  match loaded with
  | [] => Ok []
  | (name, d) :: rest =>
      let ps := merge_sort index_le (td_partitions d) in
      if negb (dense_from 0 ps) then Err kCorruption
      else let? rest := sort_partitions rest in Ok ((name, with_partitions ps d) :: rest)
  end.
Definition load_text (text : bytes) : Result Topics :=
  match getlines text with
  | [] => Err kCorruption
  | header :: lines =>
      if negb (bool_decide (header = kFileHeader)) then Err kCorruption
      else let? loaded := load_loop_lines lines [] in sort_partitions loaded
  end.
Definition LoadFrom (dir : Dir) (path : bytes) : SR ClusterMetadata unit := λ md,
  match om_find path dir with
  | None => (Err kNotFound, md)
  | Some text =>
      match load_text text with
      | Ok loaded => (Ok tt, with_topics loaded md)
      | Err e => (Err e, md)
      end
  end.

(** ** The METADATA response *)

Definition partition_metadata (a : PartitionAssignment) : PartitionMetadata :=
  mkPartitionMetadata (pa_index a) (pa_leader a) (pa_leader_epoch a) (pa_replicas a) (pa_in_sync a).
Definition topic_metadata (d : TopicDescriptor) : TopicMetadata :=
  mkTopicMetadata (tc_name (td_config d)) (map partition_metadata (td_partitions d)).
Definition BuildMetadataResponse (requested : list bytes) (md : ClusterMetadata) : MetadataResponse :=
  mkMetadataResponse (mkResponseHeader kOk []) (ControllerId md) (md_brokers md)
    (match requested with
     | [] => map (λ e, topic_metadata e.2) (md_topics md)
     | _ => omap (λ name, topic_metadata <$> om_find name (md_topics md)) requested
     end).
