(* ===== verification/ClusterMetadataTheorems.v ===== *)
(** * ClusterMetadataTheorems: placement, agreement, invariants, persistence

    What the metadata promises to the rest of the broker: every broker configured
    with the same membership computes the same layout, replica sets are distinct and
    leadership is spread evenly, the layout invariants survive every operation, and
    the text file restores it. *)
From S2P Require Import Prelude Status Crc32c Types Text OrdMap MessagesData MessagesControl ClusterMetadata.

(** ** Membership *)

Lemma parse_broker_specs_err specs e : parse_broker_specs specs = Err e → e = kInvalidArgument.
Proof.
  revert e. induction specs as [|spec specs IH]; intros e; [done|]. cbn. unfold rbind.
  destruct (parse_broker_spec spec) as [b|e'] eqn:Eb.
  - destruct (parse_broker_specs specs) as [bs|e'] eqn:E; [done|]. intros [= <-]. by apply IH.
  - intros [= <-]. revert Eb. unfold parse_broker_spec. repeat case_match; congruence.
Qed.

Lemma parse_broker_specs_perm specs specs' :
  specs ≡ₚ specs' →
  match parse_broker_specs specs with
  | Ok bs => ∃ bs', parse_broker_specs specs' = Ok bs' ∧ bs ≡ₚ bs'
  | Err _ => ∃ e, parse_broker_specs specs' = Err e
  end.
Proof.
  induction 1 as [|x l l' Hp IH|x y l|l l' l'' Hp1 IH1 Hp2 IH2]; cbn; unfold rbind.
  - by exists [].
  - destruct (parse_broker_spec x) as [b|e]; [|by exists e].
    destruct (parse_broker_specs l) as [bs|e].
    + destruct IH as (bs' & -> & Hb). exists (b :: bs'). by rewrite Hb.
    + destruct IH as (e' & ->). by exists e'.
  - destruct (parse_broker_spec x) as [b|e], (parse_broker_spec y) as [b'|e'],
      (parse_broker_specs l) as [bs|e'']; eauto. exists (b :: b' :: bs). split; [done|constructor].
  - destruct (parse_broker_specs l) as [bs|e].
    + destruct IH1 as (bs' & E1 & H1). rewrite E1 in IH2. destruct IH2 as (bs'' & -> & H2).
      exists bs''. by rewrite H1.
    + destruct IH1 as (e' & E1). by rewrite E1 in IH2.
Qed.

#[global] Instance broker_le_total : Total broker_le.
Proof. intros a b. unfold broker_le. lia. Qed.
#[global] Instance broker_le_trans : Transitive broker_le.
Proof. intros a b c. unfold broker_le. lia. Qed.

(** The sorted list has two equal ids next to each other exactly when it has two
    equal ids at all. *)
Lemma has_adjacent_duplicate_spec bs :
  StronglySorted broker_le bs → has_adjacent_duplicate bs = bool_decide (¬ NoDup (map be_id bs)).
Proof.
  induction 1 as [|a bs Hs IH Ha]; cbn [has_adjacent_duplicate map].
  { rewrite bool_decide_eq_false_2; [done|]. intros H. apply H. constructor. }
  destruct bs as [|b bs].
  { rewrite bool_decide_eq_false_2; [done|]. intros H. apply H. apply NoDup_singleton. }
  rewrite IH. inversion Ha as [|? ? Hab Ha']; subst. inversion Hs as [|? ? Hs' Hb]; subst.
  destruct (Z.eqb_spec (be_id b) (be_id a)) as [E|E]; cbn [orb].
  { symmetry. apply bool_decide_eq_true_2. intros H. apply NoDup_cons in H as [H _]. apply H. rewrite <- E. left. }
  apply bool_decide_ext. rewrite (NoDup_cons (be_id a)). split; [tauto|]. intros H Hn. apply H. split; [|done].
  intros Hin. apply list_elem_of_fmap in Hin as (c & Hc & Hin). unfold broker_le in *.
  apply elem_of_cons in Hin as [->|Hin]; [congruence|].
  rewrite Forall_forall in Hb. specialize (Hb c Hin). lia.
Qed.

Lemma NoDup_ids_inj bs b b' : NoDup (map be_id bs) → b ∈ bs → b' ∈ bs → be_id b = be_id b' → b = b'.
Proof.
  intros Hn Hb Hb' He. apply list_elem_of_lookup in Hb as [i Hi]. apply list_elem_of_lookup in Hb' as [j Hj].
  assert (i = j) as ->.
  { eapply (NoDup_lookup (map be_id bs)); [done| |]; rewrite list_lookup_fmap.
    - by rewrite Hi.
    - rewrite Hj. cbn. by rewrite He. }
  congruence.
Qed.

Lemma sorted_brokers_unique bs bs' :
  bs ≡ₚ bs' → NoDup (map be_id bs) → merge_sort broker_le bs = merge_sort broker_le bs'.
Proof.
  intros Hp Hn. apply (StronglySorted_unique_strong broker_le).
  - intros x1 x2 H1 H2 H12 H21. rewrite merge_sort_Permutation in H1, H2. rewrite <- Hp in H2.
    apply (NoDup_ids_inj bs); [done|done|done|]. unfold broker_le in *. lia.
  - apply (StronglySorted_merge_sort broker_le).
  - apply (StronglySorted_merge_sort broker_le).
  - by rewrite !merge_sort_Permutation.
Qed.

(** Every broker configured with the same members computes the same metadata,
    whatever the order in which its configuration lists them: the broker list, hence
    the controller, each group's coordinator and every topic's layout, are the same. *)
Theorem SetBrokersFromSpec_agree (specs specs' : list bytes) (md : ClusterMetadata) :
  specs ≡ₚ specs' →
  SetBrokersFromSpec specs md = SetBrokersFromSpec specs' md ∧
  (let md1 := (SetBrokersFromSpec specs md).2 in let md2 := (SetBrokersFromSpec specs' md).2 in
   ControllerId md1 = ControllerId md2 ∧ (∀ g, CoordinatorFor g md1 = CoordinatorFor g md2) ∧
   ∀ config, ComputeAssignments config md1 = ComputeAssignments config md2).
Proof.
  intros Hp. assert (SetBrokersFromSpec specs md = SetBrokersFromSpec specs' md) as E; [|by rewrite E].
  unfold SetBrokersFromSpec, sbind, slift. pose proof (parse_broker_specs_perm _ _ Hp) as H.
  destruct (parse_broker_specs specs) as [bs|e] eqn:Es.
  - destruct H as (bs' & -> & Hb).
    rewrite !has_adjacent_duplicate_spec by apply (StronglySorted_merge_sort broker_le).
    assert (∀ l, NoDup (map be_id (merge_sort broker_le l)) ↔ NoDup (map be_id l)) as Hms.
    { intros l. by rewrite (merge_sort_Permutation broker_le l). }
    destruct (decide (NoDup (map be_id bs))) as [Hn|Hn].
    + assert (NoDup (map be_id bs')) by (by rewrite <- Hb).
      rewrite !bool_decide_eq_false_2 by (rewrite Hms; tauto). by rewrite (sorted_brokers_unique bs bs').
    + assert (¬ NoDup (map be_id bs')) by (by rewrite <- Hb). by rewrite !bool_decide_eq_true_2 by (by rewrite Hms).
  - destruct H as (e' & E). rewrite E. by rewrite (parse_broker_specs_err _ _ Es), (parse_broker_specs_err _ _ E).
Qed.

Definition three_specs : list bytes := [str "2@b:9092"; str "1@a.example:9092"; str "3@c:65535"].
Definition three_brokers : ClusterMetadata := (SetBrokersFromSpec three_specs (mkMetadata [] [])).2.
Lemma SetBrokersFromSpec_agree_witness :
  SetBrokersFromSpec three_specs (mkMetadata [] []) = SetBrokersFromSpec (reverse three_specs) (mkMetadata [] []) ∧
  map be_id (md_brokers three_brokers) = [1; 2; 3].
Proof.
  split; [|by vm_compute].
  refine (proj1 (SetBrokersFromSpec_agree three_specs (reverse three_specs) (mkMetadata [] []) _)).
  symmetry. apply reverse_Permutation.
Defined.

(** ** Placement *)

Definition broker_at (bs : list BrokerEndpoint) (s : Z) : Z :=
  match bs !! Z.to_nat s with Some b => be_id b | None => -1 end.

Lemma broker_at_in bs s : 0 ≤ s < zlen bs → broker_at bs s ∈ map be_id bs.
Proof.
  intros Hs. unfold broker_at, zlen in *. destruct (lookup_lt_is_Some_2 bs (Z.to_nat s)) as [b Hb]; [lia|].
  rewrite Hb. apply list_elem_of_fmap. exists b. split; [done|by eapply list_elem_of_lookup_2].
Qed.
Lemma broker_at_inj bs s s' :
  NoDup (map be_id bs) → 0 ≤ s < zlen bs → 0 ≤ s' < zlen bs → broker_at bs s = broker_at bs s' → s = s'.
Proof.
  intros Hn Hs Hs'. unfold broker_at, zlen in *. destruct (lookup_lt_is_Some_2 bs (Z.to_nat s)) as [b Hb]; [lia|].
  destruct (lookup_lt_is_Some_2 bs (Z.to_nat s')) as [b' Hb']; [lia|]. rewrite Hb, Hb'. intros E.
  enough (Z.to_nat s = Z.to_nat s') by lia. eapply (NoDup_lookup (map be_id bs)); [done| |]; rewrite list_lookup_fmap.
  - by rewrite Hb.
  - rewrite Hb'. cbn. by rewrite E.
Qed.

(** Small enough that no slot computation wraps. *)
Definition cluster_fits (bs : list BrokerEndpoint) : Prop := zlen bs < 2 ^ 62.

Lemma replica_slot_eq bs off p r :
  cluster_fits bs → 0 ≤ off < zlen bs → 0 ≤ p < 2 ^ 31 → 0 ≤ r < zlen bs →
  replica_slot bs off p r = broker_at bs ((p + r + off) mod zlen bs).
Proof.
  unfold cluster_fits. intros Hf Ho Hp Hr. unfold replica_slot, broker_at.
  rewrite !uwrap_small; unfold unsigned; [done| |]; rewrite ?uwrap_small; unfold unsigned; lia.
Qed.

Lemma mod_shift_inj n a r r' : 0 ≤ r < n → 0 ≤ r' < n → (a + r) mod n = (a + r') mod n → r = r'.
Proof.
  intros Hr Hr' E. pose proof (Z.div_mod (a + r) n ltac:(lia)). pose proof (Z.div_mod (a + r') n ltac:(lia)).
  assert (r - r' = n * ((a + r) / n - (a + r') / n)) by lia.
  assert ((a + r) / n - (a + r') / n = 0) by nia. lia.
Qed.

(** A replica set the rest of the program may rely on. *)
Record assignment_ok (n : Z) (a : PartitionAssignment) : Prop := {
  ao_distinct : NoDup (pa_replicas a);
  ao_size : zlen (pa_replicas a) = n;
  ao_leader : pa_leader a ∈ pa_replicas a;
  ao_in_sync : ∀ b, b ∈ pa_in_sync a → b ∈ pa_replicas a;
  ao_epoch : 0 ≤ pa_leader_epoch a }.

Lemma assign_partition_ok bs k off p :
  NoDup (map be_id bs) → cluster_fits bs → 0 ≤ off < zlen bs → 0 ≤ p < 2 ^ 31 → 0 < k ≤ zlen bs →
  assignment_ok k (assign_partition bs k off p) ∧
  pa_leader (assign_partition bs k off p) = broker_at bs ((p + off) mod zlen bs) ∧
  ∀ b, b ∈ pa_replicas (assign_partition bs k off p) → b ∈ map be_id bs.
Proof.
  intros Hn Hf Ho Hp Hk. unfold assign_partition. cbn [pa_leader pa_replicas].
  set (rs := map _ (seqZ 0 k)).
  assert (Hel : ∀ r, 0 ≤ r < k → replica_slot bs off p r = broker_at bs ((p + off + r) mod zlen bs)).
  { intros r Hr. rewrite replica_slot_eq by (done || lia). by replace (p + r + off) with (p + off + r) by lia. }
  assert (Hhd : hd (-1) rs = broker_at bs ((p + off) mod zlen bs) ∧ hd (-1) rs ∈ rs).
  { unfold rs. rewrite (seqZ_cons 0 k) by lia. cbn [map hd]. split; [|left]. rewrite Hel by lia.
    by replace (p + off + 0) with (p + off) by lia. }
  split_and!; [|by apply Hhd|].
  - constructor; cbn [pa_replicas pa_leader pa_in_sync pa_leader_epoch]; [| |by apply Hhd|done|lia].
    + apply NoDup_fmap_2_strong; [|apply NoDup_seqZ]. intros r r' Hr Hr' E. apply elem_of_seqZ in Hr, Hr'.
      rewrite !Hel in E by lia. apply broker_at_inj in E; [|done|apply Z.mod_pos_bound; lia..].
      by apply mod_shift_inj in E; [|lia..].
    + unfold rs, zlen. rewrite length_map, length_seqZ. lia.
  - intros b Hb. apply list_elem_of_fmap in Hb as (r & -> & Hr). apply elem_of_seqZ in Hr. rewrite Hel by lia.
    apply broker_at_in, Z.mod_pos_bound. lia.
Qed.

(** How many of the numbers below [x] are congruent to [s]. *)
Definition hits (n s x : Z) : Z := (x + (n - 1 - s)) / n.
Lemma hits_step n s x : 0 ≤ s < n → hits n s (x + 1) = hits n s x + (if decide (x mod n = s) then 1 else 0).
Proof.
  intros Hs. unfold hits. pose proof (Z.div_mod x n ltac:(lia)) as Hx. pose proof (Z.mod_pos_bound x n ltac:(lia)).
  set (q := x / n) in *. set (m := x mod n) in *. rewrite Hx.
  replace (n * q + m + 1 + (n - 1 - s)) with (q * n + (m - s + n)) by lia.
  replace (n * q + m + (n - 1 - s)) with (q * n + (m - s + n - 1)) by lia. rewrite !Z.div_add_l by lia.
  case_decide as Hm.
  - rewrite Hm. replace (s - s + n) with n by lia. rewrite Z.div_same, (Z.div_small (n - 1)) by lia. lia.
  - destruct (Z.lt_ge_cases m s).
    + rewrite !Z.div_small by lia. lia.
    + replace (m - s + n) with (1 * n + (m - s)) by lia. replace (1 * n + (m - s) - 1) with (1 * n + (m - s - 1)) by lia.
      rewrite !Z.div_add_l, !Z.div_small by lia. lia.
Qed.
Lemma hits_spread n s off x :
  0 ≤ s < n → 0 ≤ x → x / n ≤ hits n s (off + x) - hits n s off ≤ (x + n - 1) / n.
Proof.
  intros Hs Hx. unfold hits. set (a := off + (n - 1 - s)). replace (off + x + (n - 1 - s)) with (a + x) by lia.
  assert (Hlow : ∀ y, 0 ≤ y → a / n + y / n ≤ (a + y) / n).
  { intros y Hy. pose proof (Z.div_mod a n ltac:(lia)). pose proof (Z.div_mod y n ltac:(lia)).
    pose proof (Z.mod_pos_bound a n ltac:(lia)). pose proof (Z.mod_pos_bound y n ltac:(lia)).
    apply Z.div_le_lower_bound; lia. }
  split; [specialize (Hlow x Hx); lia|].
  pose proof (Z.div_mod a n ltac:(lia)). pose proof (Z.div_mod (x + n - 1) n ltac:(lia)).
  pose proof (Z.mod_pos_bound a n ltac:(lia)). pose proof (Z.mod_pos_bound (x + n - 1) n ltac:(lia)).
  enough ((a + x) / n < a / n + (x + n - 1) / n + 1) by lia. apply Z.div_lt_upper_bound; [lia|]. lia.
Qed.

Lemma leaders_counted bs k off b (m : nat) :
  NoDup (map be_id bs) → cluster_fits bs → 0 ≤ off < zlen bs → Z.of_nat m < 2 ^ 31 → 0 < k ≤ zlen bs →
  ∀ s, 0 ≤ s < zlen bs → b = broker_at bs s →
  zlen (List.filter (λ a, pa_leader a =? b) (map (assign_partition bs k off) (seqZ 0 (Z.of_nat m))))
  = hits (zlen bs) s (off + Z.of_nat m) - hits (zlen bs) s off.
Proof.
  intros Hn Hf Ho Hm Hk s Hs ->. induction m as [|m IH].
  - replace (off + Z.of_nat 0) with off by lia. cbn [seqZ Z.of_nat Z.to_nat]. change (zlen _) with 0 at 1. lia.
  - rewrite Nat2Z.inj_succ in *. unfold Z.succ. rewrite seqZ_app, map_app, List.filter_app, zlen_app by lia.
    rewrite IH by lia. change (seqZ (0 + Z.of_nat m) 1) with [0 + Z.of_nat m]. cbn [map List.filter].
    rewrite (proj1 (proj2 (assign_partition_ok bs k off (0 + Z.of_nat m) Hn Hf Ho ltac:(lia) Hk))).
    replace (off + (Z.of_nat m + 1)) with (off + Z.of_nat m + 1) by lia. rewrite hits_step by done.
    replace (0 + Z.of_nat m + off) with (off + Z.of_nat m) by lia.
    destruct (Z.eqb_spec (broker_at bs ((off + Z.of_nat m) mod zlen bs)) (broker_at bs s)) as [E|E]; case_decide as Hd;
      rewrite ?zlen_cons, ?zlen_nil; try lia.
    + apply broker_at_inj in E; [done|done|apply Z.mod_pos_bound; lia|done].
    + by rewrite Hd in E.
Qed.

(** ** Topics *)

(** The configurations that fit the fields of the request. *)
Definition config_fits (c : TopicConfig) : Prop :=
  signed 32 (tc_partition_count c) ∧ signed 16 (tc_replication_factor c).

Record topic_ok (name : bytes) (d : TopicDescriptor) : Prop := {
  to_name : tc_name (td_config d) = name;
  to_valid : IsValidTopicName name = true;
  to_fits : config_fits (td_config d);
  to_count : zlen (td_partitions d) = tc_partition_count (td_config d);
  to_dense : ∀ i a, td_partitions d !! i = Some a →
    pa_index a = Z.of_nat i ∧ assignment_ok (tc_replication_factor (td_config d)) a }.

(** The layout is well formed but for the topics in [foreign]: those a caller has upserted, or
    a file has brought, without anybody checking them.  Their names are still their keys. *)
Record layout_inv (foreign : list bytes) (md : ClusterMetadata) : Prop := {
  mi_sorted : StronglySorted broker_le (md_brokers md);
  mi_distinct : NoDup (map be_id (md_brokers md));
  mi_fits : cluster_fits (md_brokers md);
  mi_map : om_wf (md_topics md);
  mi_names : ∀ name d, om_find name (md_topics md) = Some d → tc_name (td_config d) = name;
  mi_topics : ∀ name d, om_find name (md_topics md) = Some d → name ∉ foreign → topic_ok name d }.
Abbreviation md_inv := (layout_inv []).
Lemma mi_all md name d : md_inv md → om_find name (md_topics md) = Some d → topic_ok name d.
Proof. intros Hi Hd. apply (mi_topics _ _ Hi _ _ Hd). apply not_elem_of_nil. Qed.

(** What [CreateTopic] asks of a request before it looks at the existing topics. *)
Definition createable (c : TopicConfig) (md : ClusterMetadata) : Prop :=
  IsValidTopicName (tc_name c) = true ∧ 0 < tc_partition_count c ∧
  0 < tc_replication_factor c ≤ i16 (zlen (md_brokers md)).

Lemma i16_le n : 0 ≤ n → i16 n ≤ n.
Proof.
  intros Hn. unfold swrap. change (2 ^ (16 - 1)) with 32768.
  pose proof (Z.mod_le (n + 32768) (2 ^ 16) ltac:(lia) ltac:(lia)). lia.
Qed.

Lemma ComputeAssignments_eq c md :
  createable c md → config_fits c →
  ComputeAssignments c md =
  map (assign_partition (md_brokers md) (tc_replication_factor c)
         (Crc32c (tc_name c) mod zlen (md_brokers md))) (seqZ 0 (tc_partition_count c)) ∧
  0 < tc_replication_factor c ≤ zlen (md_brokers md).
Proof.
  intros (Hv & Hc & Hr) [Hf1 Hf2]. pose proof (i16_le (zlen (md_brokers md)) (zlen_nonneg _)).
  unfold ComputeAssignments. destruct (Z.eqb_spec (zlen (md_brokers md)) 0); [lia|].
  rewrite uwrap_small, Z.min_l; [split; [done|lia]|lia|]. unfold unsigned, signed in *. lia.
Qed.

Lemma ComputeAssignments_ok c md :
  NoDup (map be_id (md_brokers md)) → cluster_fits (md_brokers md) → createable c md → config_fits c →
  topic_ok (tc_name c) (mkTopic c (ComputeAssignments c md)) ∧
  (∀ a b, a ∈ ComputeAssignments c md → b ∈ pa_replicas a → b ∈ map be_id (md_brokers md)) ∧
  (∀ b, b ∈ map be_id (md_brokers md) →
    tc_partition_count c / zlen (md_brokers md)
    ≤ zlen (List.filter (λ a, pa_leader a =? b) (ComputeAssignments c md))
    ≤ (tc_partition_count c + zlen (md_brokers md) - 1) / zlen (md_brokers md)).
Proof.
  intros Hn Hf Hc Hfit. destruct (ComputeAssignments_eq c md Hc Hfit) as [-> Hrep].
  destruct Hc as (Hv & Hc & _). pose proof Hfit as [Hf1 _]. unfold signed in Hf1. cbn in Hf1.
  set (n := zlen (md_brokers md)) in *. set (off := Crc32c (tc_name c) mod n).
  assert (Ho : 0 ≤ off < n) by (apply Z.mod_pos_bound; lia).
  assert (Hasg : ∀ p, 0 ≤ p < tc_partition_count c → _) by
    (intros p Hp; exact (assign_partition_ok (md_brokers md) (tc_replication_factor c) off p Hn Hf Ho ltac:(lia) Hrep)).
  split_and!.
  - constructor; cbn [td_config td_partitions]; try done.
    + unfold zlen. rewrite length_map, length_seqZ. lia.
    + intros i a. rewrite list_lookup_fmap. intros (p & Hp & ->)%fmap_Some. apply lookup_seqZ in Hp as [-> Hi].
      split; [cbn; lia|]. apply Hasg. lia.
  - intros a b Ha Hb. apply list_elem_of_fmap in Ha as (p & -> & Hp). apply elem_of_seqZ in Hp.
    destruct (Hasg p ltac:(lia)) as (_ & _ & H). by apply H.
  - intros b Hb. apply list_elem_of_fmap in Hb as (e & -> & He). apply list_elem_of_lookup in He as [i Hi].
    pose proof (lookup_lt_Some _ _ _ Hi).
    replace (seqZ 0 (tc_partition_count c)) with (seqZ 0 (Z.of_nat (Z.to_nat (tc_partition_count c)))) by (by rewrite Z2Nat.id by lia).
    rewrite (leaders_counted (md_brokers md) _ _ _ (Z.to_nat (tc_partition_count c)) Hn Hf Ho ltac:(lia) Hrep (Z.of_nat i)).
    + rewrite Z2Nat.id by lia. apply hits_spread; [unfold n, zlen; lia|lia].
    + unfold zlen. lia.
    + unfold broker_at. by rewrite Nat2Z.id, Hi.
Qed.

Lemma CreateTopic_cases c md :
  match CreateTopic c md with
  | (Err e, md') => md' = md ∧
      (¬ createable c md ∧ (e = kInvalidArgument ∨ e = kUnavailable ∧ md_brokers md = []) ∨
       ∃ d, om_find (tc_name c) (md_topics md) = Some d ∧ e = kAlreadyExists ∧
         (tc_partition_count (td_config d) ≠ tc_partition_count c ∨
          tc_replication_factor (td_config d) ≠ tc_replication_factor c))
  | (Ok (d, false), md') => md' = md ∧ createable c md ∧ om_find (tc_name c) (md_topics md) = Some d ∧
      tc_partition_count (td_config d) = tc_partition_count c ∧
      tc_replication_factor (td_config d) = tc_replication_factor c
  | (Ok (d, true), md') => createable c md ∧ om_find (tc_name c) (md_topics md) = None ∧
      d = mkTopic c (ComputeAssignments c md) ∧ md' = with_topics (om_emplace (tc_name c) d (md_topics md)) md
  end.
Proof.
  unfold CreateTopic, createable. destruct (IsValidTopicName (tc_name c)); cbn [negb]; [|split; [done|left; split; [naive_solver|by left]]].
  destruct (Z.leb_spec (tc_partition_count c) 0); [split; [done|left; split; [lia|by left]]|].
  destruct (Z.leb_spec (tc_replication_factor c) 0); [split; [done|left; split; [lia|by left]]|].
  destruct (Z.eqb_spec (zlen (md_brokers md)) 0) as [E|E].
  { apply zlen_0_nil in E. rewrite E. split; [done|]. left. split; [|by right].
    change (i16 (zlen [])) with 0. lia. }
  destruct (Z.ltb_spec (i16 (zlen (md_brokers md))) (tc_replication_factor c)); [split; [done|left; split; [lia|by left]]|].
  destruct (om_find (tc_name c) (md_topics md)) as [d|] eqn:Ef; [|by split_and!].
  destruct (Z.eqb_spec (tc_partition_count (td_config d)) (tc_partition_count c)) as [E1|E1]; cbn [negb orb].
  - destruct (Z.eqb_spec (tc_replication_factor (td_config d)) (tc_replication_factor c)) as [E2|E2]; cbn [negb].
    + by split_and!.
    + split; [done|]. right. exists d. auto.
  - split; [done|]. right. exists d. auto.
Qed.

(** C22. Creating a topic.  A refused request changes nothing: it is refused when the
    name, the counts or the membership do not allow it, or when the name is taken by
    a topic of another shape; the same request again returns the existing topic.
    A new topic has exactly the requested partitions, densely numbered, each on
    [replication_factor] distinct brokers of the cluster with the leader among them
    and every replica in sync, and no broker leads more than its even share of the
    partitions, rounded up, or fewer than that share rounded down. *)
Theorem CreateTopic_placement (config : TopicConfig) (md : ClusterMetadata) :
  NoDup (map be_id (md_brokers md)) → cluster_fits (md_brokers md) → config_fits config →
  match CreateTopic config md with
  | (Err e, md') => md' = md ∧
      (¬ createable config md ∧ (e = kInvalidArgument ∨ e = kUnavailable ∧ md_brokers md = []) ∨
       ∃ d, om_find (tc_name config) (md_topics md) = Some d ∧ e = kAlreadyExists ∧
         (tc_partition_count (td_config d) ≠ tc_partition_count config ∨
          tc_replication_factor (td_config d) ≠ tc_replication_factor config))
  | (Ok (d, false), md') => md' = md ∧ om_find (tc_name config) (md_topics md) = Some d ∧
      tc_partition_count (td_config d) = tc_partition_count config ∧
      tc_replication_factor (td_config d) = tc_replication_factor config
  | (Ok (d, true), md') =>
      om_find (tc_name config) (md_topics md) = None ∧ td_config d = config ∧ topic_ok (tc_name config) d ∧
      (∀ name, om_find name (md_topics md') =
        if decide (name = tc_name config) then Some d else om_find name (md_topics md)) ∧
      (∀ a, a ∈ td_partitions d → pa_in_sync a = pa_replicas a ∧ pa_leader_epoch a = 0 ∧
        ∀ b, b ∈ pa_replicas a → b ∈ map be_id (md_brokers md)) ∧
      (∀ b, b ∈ map be_id (md_brokers md) →
        tc_partition_count config / zlen (md_brokers md)
        ≤ zlen (List.filter (λ a, pa_leader a =? b) (td_partitions d))
        ≤ (tc_partition_count config + zlen (md_brokers md) - 1) / zlen (md_brokers md))
  end.
Proof.
  intros Hn Hf Hc. pose proof (CreateTopic_cases config md) as H.
  destruct (CreateTopic config md) as [[[d [|]]|e] md']; [|naive_solver|naive_solver].
  destruct H as (Hcr & Hfind & -> & ->).
  destruct (ComputeAssignments_ok config md Hn Hf Hcr Hc) as (H1 & H2 & H3). split_and!; try done.
  - intros name. cbn [md_topics with_topics]. by rewrite om_find_emplace, Hfind.
  - intros a Ha. split_and!; [| |intros b; by apply (H2 a)]; revert Ha; cbn [td_partitions];
      rewrite (proj1 (ComputeAssignments_eq config md Hcr Hc)); intros (p & -> & _)%list_elem_of_fmap; done.
Qed.

Definition orders : TopicConfig := mkTopicConfig (str "orders") 8 2 (-1) (-1) 0.
Lemma orders_fits : config_fits orders.
Proof. unfold config_fits, signed, orders. cbn. lia. Qed.
Lemma three_distinct : NoDup (map be_id (md_brokers three_brokers)).
Proof. apply (bool_decide_unpack _). vm_compute. exact I. Qed.
Lemma three_fits : cluster_fits (md_brokers three_brokers).
Proof. vm_compute. reflexivity. Qed.
Lemma CreateTopic_placement_witness :
  let d := mkTopic orders (ComputeAssignments orders three_brokers) in
  CreateTopic orders three_brokers = (Ok (d, true), with_topics [(str "orders", d)] three_brokers) ∧
  topic_ok (str "orders") d.
Proof.
  intros d. assert (E : CreateTopic orders three_brokers = (Ok (d, true), with_topics [(str "orders", d)] three_brokers))
    by (vm_compute; reflexivity).
  split; [exact E|].
  pose proof (CreateTopic_placement orders three_brokers three_distinct three_fits orders_fits) as H. rewrite E in H.
  exact (proj1 (proj2 (proj2 H))).
Defined.

(** *** Printing and reading the metadata file *)

Definition reset_in_sync (a : PartitionAssignment) : PartitionAssignment :=
  mkAssignment (pa_index a) (pa_leader a) (pa_leader_epoch a) (pa_replicas a) (pa_replicas a).
Definition reset_topic (e : bytes * TopicDescriptor) : bytes * TopicDescriptor :=
  (e.1, with_partitions (map reset_in_sync (td_partitions e.2)) e.2).

(** Values inside the fields' types, which is all that printing needs. *)
Definition assignment_fits (a : PartitionAssignment) : Prop :=
  signed 32 (pa_index a) ∧ signed 32 (pa_leader a) ∧ signed 64 (pa_leader_epoch a) ∧ Forall (signed 32) (pa_replicas a).
Definition topic_fits (d : TopicDescriptor) : Prop :=
  config_fits (td_config d) ∧ signed 64 (tc_retention_ms (td_config d)) ∧
  signed 64 (tc_segment_bytes (td_config d)) ∧ unsigned 8 (tc_compression (td_config d)) ∧
  Forall assignment_fits (td_partitions d).

Lemma valid_name_free name d : IsValidTopicName name = true → d ≤ 32 → free_of d name.
Proof.
  intros Hv Hd. destruct (IsValidTopicName_safe name Hv) as (_ & _ & _ & _ & Hf).
  eapply Forall_impl; [exact Hf|]. cbn. intros c. lia.
Qed.
Lemma replicas_field_free d a : d < 44 → free_of d (intercalate 44 (map to_string (pa_replicas a))).
Proof.
  intros Hd. apply free_of_intercalate; [lia|]. apply Forall_map, Forall_true. intros n. apply to_string_free. lia.
Qed.
Lemma parse_replicas_print l : Forall (signed 32) l → parse_replicas (intercalate 44 (map to_string l)) = l.
Proof.
  intros Hl. unfold parse_replicas. destruct l as [|n l]; [done|].
  rewrite Split_intercalate; [|done|apply Forall_map, Forall_true; intros; apply to_string_free; lia].
  induction Hl as [|m l' Hm Hl IH]; [done|]. cbn. rewrite ParseNumber_to_string by done. f_equal. exact IH.
Qed.

Lemma topic_fields_free x c : IsValidTopicName (tc_name c) = true → 0 < x ≤ 32 →
  Forall (free_of x) [str "topic"; tc_name c; to_string (tc_partition_count c); to_string (tc_replication_factor c);
    to_string (tc_retention_ms c); to_string (tc_segment_bytes c); to_string (tc_compression c)].
Proof.
  intros Hv Hx. repeat constructor; try (apply to_string_free; lia); try (cbn; lia). apply valid_name_free; [done|lia].
Qed.
Lemma partition_fields_free x c a : IsValidTopicName (tc_name c) = true → 0 < x ≤ 32 →
  Forall (free_of x) [str "partition"; tc_name c; to_string (pa_index a); to_string (pa_leader a);
    to_string (pa_leader_epoch a); intercalate 44 (map to_string (pa_replicas a))].
Proof.
  intros Hv Hx. repeat constructor; try (apply to_string_free; lia); try (cbn; lia).
  - apply valid_name_free; [done|lia].
  - apply replicas_field_free. lia.
Qed.

(** A printed line is read back by [load_line]. *)
Lemma load_line_fields kind fields loaded :
  Forall (free_of tab) (kind :: fields) → kind ≠ [] →
  load_line (intercalate tab (kind :: fields)) loaded =
  if bool_decide (kind = str "topic") then load_topic fields loaded
  else if bool_decide (kind = str "partition") then load_partition fields loaded else Ok loaded.
Proof.
  intros Hf Hne. unfold load_line. rewrite Split_intercalate by done.
  destruct (intercalate tab (kind :: fields)) eqn:E; [|done]. exfalso.
  destruct kind as [|c kind]; [done|]. by destruct fields.
Qed.
Lemma load_topic_line c loaded :
  IsValidTopicName (tc_name c) = true → topic_fits (mkTopic c []) →
  load_line (topic_line c) loaded = Ok (om_insert (tc_name c) (mkTopic c []) loaded).
Proof.
  intros Hv ([F1 F2] & F3 & F4 & F5 & _). cbn [td_config] in *. unfold topic_line.
  rewrite load_line_fields; [|by apply topic_fields_free|done]. rewrite bool_decide_eq_true_2 by done.
  unfold load_topic. rewrite !ParseNumber_to_string; try done; [|unfold signed, unsigned in *; cbn in *; lia].
  rewrite uwrap_small by done. by destruct c.
Qed.
Lemma load_partition_line c a loaded d :
  IsValidTopicName (tc_name c) = true → assignment_fits a → om_find (tc_name c) loaded = Some d →
  load_line (partition_line c a) loaded =
  Ok (om_insert (tc_name c) (with_partitions (td_partitions d ++ [reset_in_sync a]) d) loaded).
Proof.
  intros Hv (F1 & F2 & F3 & F4) Hd. unfold partition_line.
  rewrite load_line_fields; [|by apply partition_fields_free|done].
  rewrite bool_decide_eq_false_2, bool_decide_eq_true_2 by done.
  unfold load_partition. rewrite Hd, !ParseNumber_to_string, parse_replicas_print by done. done.
Qed.

Lemma load_partition_lines c ps qs m rest :
  IsValidTopicName (tc_name c) = true → Forall assignment_fits ps →
  load_loop_lines (map (partition_line c) ps ++ rest) (om_insert (tc_name c) (mkTopic c qs) m) =
  load_loop_lines rest (om_insert (tc_name c) (mkTopic c (qs ++ map reset_in_sync ps)) m).
Proof.
  intros Hv Hps. revert qs. induction Hps as [|a ps Ha Hps IH]; intros qs; cbn [map app load_loop_lines].
  - by rewrite app_nil_r.
  - rewrite (load_partition_line c a _ (mkTopic c qs)); [|done|done|by rewrite om_find_insert, decide_True].
    cbn [rbind]. rewrite om_insert_insert. unfold with_partitions. cbn [td_partitions td_config]. rewrite IH.
    by rewrite <- app_assoc.
Qed.
Lemma load_topic_lines d rest loaded :
  IsValidTopicName (tc_name (td_config d)) = true → topic_fits d →
  load_loop_lines (topic_lines d ++ rest) loaded =
  load_loop_lines rest (om_insert (tc_name (td_config d)) (reset_topic (tc_name (td_config d), d)).2 loaded).
Proof.
  intros Hv (F1 & F2 & F3 & F4 & F5). unfold topic_lines. cbn [app load_loop_lines].
  rewrite load_topic_line; [|done|by split_and!]. cbn [rbind]. by rewrite load_partition_lines.
Qed.

Definition saved_ok (e : bytes * TopicDescriptor) : Prop :=
  tc_name (td_config e.2) = e.1 ∧ IsValidTopicName e.1 = true ∧ topic_fits e.2 ∧
  ∀ i a, td_partitions e.2 !! i = Some a → pa_index a = Z.of_nat i.

Lemma load_all_lines ts loaded :
  Forall saved_ok ts →
  load_loop_lines (concat (map (λ e, topic_lines e.2) ts)) loaded =
  Ok (fold_left (λ m e, om_insert e.1 (reset_topic e).2 m) ts loaded).
Proof.
  intros Hts. revert loaded. induction Hts as [|[name d] ts (Hn & Hv & Hf & _) Hts IH]; intros loaded; [done|].
  cbn [map concat snd fst fold_left] in *. rewrite load_topic_lines by (by rewrite ?Hn). rewrite IH. by rewrite Hn.
Qed.

Lemma fold_insert_wf (ts loaded : list (bytes * TopicDescriptor)) :
  om_wf loaded → om_wf (fold_left (λ m e, om_insert e.1 (reset_topic e).2 m) ts loaded).
Proof. revert loaded. induction ts as [|e ts IH]; intros loaded H; [done|]. cbn. apply IH. by apply om_insert_wf. Qed.
Lemma reset_below k (ts : list (bytes * TopicDescriptor)) : om_below k ts → om_below k (map reset_topic ts).
Proof. intros H. by apply Forall_map. Qed.
Lemma reset_wf (ts : list (bytes * TopicDescriptor)) : om_wf ts → om_wf (map reset_topic ts).
Proof. induction ts as [|[k d] ts IH]; [done|]. cbn. intros [H1 H2]. split; [by apply reset_below|by apply IH]. Qed.
Lemma fold_insert_find k (ts loaded : list (bytes * TopicDescriptor)) :
  om_wf ts → om_find k (fold_left (λ m e, om_insert e.1 (reset_topic e).2 m) ts loaded) =
  match om_find k (map reset_topic ts) with Some v => Some v | None => om_find k loaded end.
Proof.
  revert loaded. induction ts as [|[k' d] ts IH]; intros loaded Hwf; [done|]. cbn in Hwf. destruct Hwf as [Hb Hwf].
  cbn [fold_left map om_find reset_topic fst snd]. rewrite IH, om_find_insert by done. cbn [reset_topic fst snd].
  destruct (decide (k = k')) as [->|Hne]; [|done]. by rewrite om_below_find by (by apply reset_below).
Qed.
Lemma fold_insert_eq (ts : list (bytes * TopicDescriptor)) :
  om_wf ts → fold_left (λ m e, om_insert e.1 (reset_topic e).2 m) ts [] = map reset_topic ts.
Proof.
  intros Hwf. apply om_ext; [by apply fold_insert_wf|by apply reset_wf|]. intros k.
  rewrite fold_insert_find by done. by destruct (om_find k (map reset_topic ts)).
Qed.

(** Partitions numbered 0, 1, 2, ... are sorted and dense. *)
#[global] Instance index_le_total : Total index_le.
Proof. intros a b. unfold index_le. lia. Qed.
#[global] Instance index_le_trans : Transitive index_le.
Proof. intros a b c. unfold index_le. lia. Qed.
Definition numbered (k : Z) (ps : list PartitionAssignment) : Prop :=
  ∀ i a, ps !! i = Some a → pa_index a = k + Z.of_nat i.
Lemma numbered_cons k a ps : numbered k (a :: ps) → pa_index a = k ∧ numbered (k + 1) ps.
Proof.
  intros H. split; [specialize (H O a eq_refl); lia|]. intros i b Hb. specialize (H (S i) b Hb). lia.
Qed.
Lemma numbered_sorted k ps : numbered k ps → StronglySorted index_le ps.
Proof.
  revert k. induction ps as [|a ps IH]; intros k H; [constructor|]. apply numbered_cons in H as [Ha H].
  constructor; [by eapply IH|]. apply Forall_forall. intros b Hb. apply list_elem_of_lookup in Hb as [i Hi].
  specialize (H i b Hi). unfold index_le. lia.
Qed.
Lemma numbered_sort k ps : numbered k ps → merge_sort index_le ps = ps.
Proof.
  intros H. apply (StronglySorted_unique_strong index_le);
    [|apply (StronglySorted_merge_sort index_le)|by eapply numbered_sorted|apply merge_sort_Permutation].
  intros x y Hx Hy H1 H2. rewrite merge_sort_Permutation in Hx.
  apply list_elem_of_lookup in Hx as [i Hi]. apply list_elem_of_lookup in Hy as [j Hj].
  pose proof (H i x Hi). pose proof (H j y Hj). unfold index_le in *. assert (i = j) as -> by lia. congruence.
Qed.
Lemma numbered_dense k ps :
  numbered k ps → 0 ≤ k → Forall (λ a, signed 32 (pa_index a)) ps → dense_from k ps = true.
Proof.
  intros H Hk Hs. revert k H Hk. induction Hs as [|a ps Ha Hs IH]; intros k H Hk; [done|].
  apply numbered_cons in H as [Hi H]. cbn. rewrite swrap_small by (done || by rewrite <- Hi).
  rewrite Hi, Z.eqb_refl. apply IH; [done|lia].
Qed.
Lemma sort_partitions_saved ts : Forall saved_ok ts → sort_partitions (map reset_topic ts) = Ok (map reset_topic ts).
Proof.
  induction 1 as [|[name d] ts (Hn & Hv & (_ & _ & _ & _ & Hf) & Hd) Hts IH]; [done|]. cbn in Hd, Hf.
  cbn [map reset_topic fst snd sort_partitions with_partitions td_partitions].
  assert (Hnum : numbered 0 (map reset_in_sync (td_partitions d))).
  { intros i a. rewrite list_lookup_fmap. intros (b & Hb & ->)%fmap_Some. cbn. by apply Hd. }
  rewrite (numbered_sort 0), (numbered_dense 0); [|done|done| |done].
  - cbn [negb]. rewrite IH. done.
  - apply Forall_map. eapply Forall_impl; [exact Hf|]. intros a (H & _). exact H.
Qed.

Lemma topic_lines_free d : IsValidTopicName (tc_name (td_config d)) = true → Forall (free_of 10) (topic_lines d).
Proof.
  intros Hv. constructor.
  - apply free_of_intercalate; [done|]. by apply topic_fields_free.
  - apply Forall_map, Forall_true. intros a. apply free_of_intercalate; [done|]. by apply partition_fields_free.
Qed.
Lemma load_metadata_text md :
  om_wf (md_topics md) → Forall saved_ok (md_topics md) → load_text (metadata_text md) = Ok (map reset_topic (md_topics md)).
Proof.
  intros Hwf Hs. unfold load_text, metadata_text. rewrite getlines_concat.
  - rewrite bool_decide_eq_true_2 by done. cbn [negb]. rewrite load_all_lines by done. cbn [rbind].
    rewrite fold_insert_eq by done. by apply sort_partitions_saved.
  - constructor; [repeat constructor; done|]. apply Forall_concat, Forall_map.
    eapply Forall_impl; [exact Hs|]. intros e (Hn & Hv & _). apply topic_lines_free. by rewrite Hn.
Qed.

Lemma md_inv_saved md : md_inv md → Forall (λ e, topic_fits e.2) (md_topics md) → Forall saved_ok (md_topics md).
Proof.
  intros Hi Hf. apply Forall_forall. intros [name d] Hin. rewrite Forall_forall in Hf. specialize (Hf _ Hin).
  apply om_find_elem in Hin; [|apply Hi]. destruct (mi_all _ _ _ Hi Hin) as [T1 T2 T3 T4 T5].
  split_and!; [done|done|done|]. intros i a Ha. by destruct (T5 i a Ha).
Qed.
(** *** The invariant under every operation *)

Inductive MdOp :=
  | OpSetBrokersFromSpec (specs : list bytes)
  | OpSetBrokers (brokers : list BrokerEndpoint)
  | OpCreate (config : TopicConfig)
  | OpUpsert (d : TopicDescriptor)
  | OpDelete (name : bytes)
  | OpInSync (topic : bytes) (partition : Z) (in_sync : list Z)
  | OpSetLeader (topic : bytes) (partition leader : Z)
  | OpLoad (dir : Dir) (path : bytes).

Definition md_apply (op : MdOp) (md : ClusterMetadata) : ClusterMetadata :=
  match op with
  | OpSetBrokersFromSpec specs => (SetBrokersFromSpec specs md).2
  | OpSetBrokers brokers => (SetBrokers brokers md).2
  | OpCreate config => (CreateTopic config md).2
  | OpUpsert d => (UpsertTopic d md).2
  | OpDelete name => (DeleteTopic name md).2
  | OpInSync t p isr => (UpdateInSyncReplicas t p isr md).2
  | OpSetLeader t p l => (SetLeader t p l md).2
  | OpLoad dir path => (LoadFrom dir path md).2
  end.

(** What the callers are responsible for: a broker list set without a check is sorted and has
    no id twice (the one caller sets a single broker), and a leader only reports replicas of
    the partition.  Upserts and loads may bring anything. *)
Definition op_legal (op : MdOp) (md : ClusterMetadata) : Prop :=
  match op with
  | OpSetBrokersFromSpec specs => zlen specs < 2 ^ 62
  | OpSetBrokers bs => StronglySorted broker_le bs ∧ NoDup (map be_id bs) ∧ cluster_fits bs
  | OpCreate config => config_fits config
  | OpInSync t p isr => signed 32 p ∧ ∀ a, GetPartition t p md = Ok a → ∀ b, b ∈ isr → b ∈ pa_replicas a
  | OpSetLeader _ p _ => signed 32 p
  | OpUpsert _ | OpDelete _ | OpLoad _ _ => True
  end.

Definition without (name : bytes) (foreign : list bytes) : list bytes := List.filter (λ n, negb (bool_decide (n = name))) foreign.
(** An upserted topic is foreign, and so is every topic of a file that has been loaded, until it
    is deleted. *)
Definition foreign_after (op : MdOp) (md : ClusterMetadata) (foreign : list bytes) : list bytes :=
  match op with
  | OpUpsert d => tc_name (td_config d) :: foreign
  | OpDelete name => without name foreign
  | OpLoad dir path => match LoadFrom dir path md with (Ok _, md') => map fst (md_topics md') | (Err _, _) => foreign end
  | _ => foreign
  end.

(** The histories of one broker's metadata, with the topics that are foreign in the end: any
    operation; the upsert of a well-formed descriptor; loading the whole text that a [SaveTo]
    of metadata without foreign topics has written. *)
Inductive md_reachable : ClusterMetadata → list bytes → Prop :=
  | md_initial : md_reachable (mkMetadata [] []) []
  | md_next md foreign op : md_reachable md foreign → op_legal op md → md_reachable (md_apply op md) (foreign_after op md foreign)
  | md_adopt md foreign d :
      md_reachable md foreign → topic_ok (tc_name (td_config d)) d →
      md_reachable (UpsertTopic d md).2 (without (tc_name (td_config d)) foreign)
  | md_restore md foreign saved dir path :
      md_reachable md foreign → md_reachable saved [] → Forall (λ e, topic_fits e.2) (md_topics saved) →
      om_find path dir = Some (metadata_text saved) → md_reachable (LoadFrom dir path md).2 [].

Lemma parse_broker_specs_length specs bs : parse_broker_specs specs = Ok bs → length bs = length specs.
Proof.
  revert bs. induction specs as [|spec specs IH]; intros bs; cbn; [by intros [= <-]|]. unfold rbind.
  destruct (parse_broker_spec spec); [|done]. destruct (parse_broker_specs specs) eqn:E; [|done]. intros [= <-].
  cbn. f_equal. by apply IH.
Qed.

Lemma SetBrokers_inv fs bs md :
  StronglySorted broker_le bs → NoDup (map be_id bs) → cluster_fits bs → layout_inv fs md → layout_inv fs (SetBrokers bs md).2.
Proof. intros H1 H2 H3 [I1 I2 I3 I4 I5 I6]. by constructor. Qed.
Lemma SetBrokersFromSpec_inv fs specs md : zlen specs < 2 ^ 62 → layout_inv fs md → layout_inv fs (SetBrokersFromSpec specs md).2.
Proof.
  intros Hl Hi. unfold SetBrokersFromSpec, sbind, slift. destruct (parse_broker_specs specs) as [bs|] eqn:E; [|done].
  rewrite has_adjacent_duplicate_spec by apply (StronglySorted_merge_sort broker_le).
  case_bool_decide as Hd; [done|]. apply SetBrokers_inv; [apply (StronglySorted_merge_sort broker_le)|exact Hd| |exact Hi].
  unfold cluster_fits, zlen. rewrite (Permutation_length (merge_sort_Permutation broker_le bs)).
  rewrite (parse_broker_specs_length _ _ E). exact Hl.
Qed.

Lemma layout_inv_topics fs fs' md ts :
  layout_inv fs md → om_wf ts → (∀ name d, om_find name ts = Some d → tc_name (td_config d) = name ∧ (name ∉ fs' → topic_ok name d)) →
  layout_inv fs' (with_topics ts md).
Proof. intros [I1 I2 I3 I4 I5 I6] Hwf Ht. constructor; cbn [with_topics md_brokers md_topics]; try done; intros name d Hd; destruct (Ht name d Hd) as [? ?]; done. Qed.

Lemma without_not name foreign n : n ∉ without name foreign → n ≠ name → n ∉ foreign.
Proof.
  intros Hn Hne Hin. apply Hn. unfold without. apply list_elem_of_In, filter_In. split; [by apply list_elem_of_In|]. by rewrite bool_decide_eq_false_2.
Qed.
Lemma layout_inv_insert fs fs' md name d :
  layout_inv fs md → tc_name (td_config d) = name → (name ∉ fs' → topic_ok name d) → (∀ n, n ≠ name → n ∉ fs' → n ∉ fs) →
  layout_inv fs' (with_topics (om_insert name d (md_topics md)) md).
Proof.
  intros Hi Hnm Ht Hfs. apply (layout_inv_topics fs); [done|apply om_insert_wf, Hi|]. intros name' d'. rewrite om_find_insert.
  case_decide as Hn; [intros [= <-]; by subst|]. intros Hd. split; [by apply (mi_names _ _ Hi)|]. intros Hf. apply (mi_topics _ _ Hi); [done|]. by apply Hfs.
Qed.

(** Whatever is in a file, loading it leaves every topic under its name. *)
Definition named (ts : Topics) : Prop := ∀ name d, om_find name ts = Some d → tc_name (td_config d) = name.
Lemma named_insert_topic ts name d : named ts → tc_name (td_config d) = name → named (om_insert name d ts).
Proof. intros Hn Hd n x. rewrite om_find_insert. case_decide; [intros [= <-]; by subst|apply Hn]. Qed.
Lemma load_line_named line ts ts' : load_line line ts = Ok ts' → om_wf ts ∧ named ts → om_wf ts' ∧ named ts'.
Proof.
  intros HE [Hwf Hn]. unfold load_line in HE. destruct line as [|c line]; [by injection HE as <-|]. destruct (Split tab _) as [|kind fields]; [by injection HE as <-|].
  case_bool_decide; [|case_bool_decide; [|by injection HE as <-]].
  - unfold load_topic in HE. destruct fields as [|name [|f2 [|f3 [|f4 [|f5 [|f6 fields]]]]]]; try done.
    destruct (ParseNumber 32 f2), (ParseNumber 16 f3), (ParseNumber 64 f4), (ParseNumber 64 f5), (ParseNumber 32 f6); try done.
    injection HE as <-. split; [by apply om_insert_wf|by apply named_insert_topic].
  - unfold load_partition in HE. destruct fields as [|name [|f2 [|f3 [|f4 [|f5 fields]]]]]; try done.
    destruct (om_find name ts) as [d|] eqn:Hd; [|done]. destruct (ParseNumber 32 f2), (ParseNumber 32 f3), (ParseNumber 64 f4); try done.
    injection HE as <-. split; [by apply om_insert_wf|]. apply named_insert_topic; [done|]. cbn. by apply Hn.
Qed.
Lemma load_loop_named lines ts ts' : load_loop_lines lines ts = Ok ts' → om_wf ts ∧ named ts → om_wf ts' ∧ named ts'.
Proof.
  revert ts. induction lines as [|line lines IH]; intros ts; cbn [load_loop_lines]; [by intros [= <-]|]. unfold rbind.
  destruct (load_line line ts) as [ts1|] eqn:E; [|done]. intros HE H. apply (IH ts1 HE). by apply (load_line_named line ts).
Qed.
Lemma sort_partitions_named ts ts' :
  sort_partitions ts = Ok ts' → map fst ts' = map fst ts ∧ ∀ name d', om_find name ts' = Some d' → ∃ d, om_find name ts = Some d ∧ td_config d = td_config d'.
Proof.
  revert ts'. induction ts as [|[name d] ts IH]; intros ts'; cbn [sort_partitions]; [by intros [= <-]|]. destruct (negb _); [done|]. unfold rbind.
  destruct (sort_partitions ts) as [rest|] eqn:E; [|done]. intros [= <-]. destruct (IH rest eq_refl) as [H1 H2]. split; [cbn; by rewrite H1|].
  intros n x. cbn [om_find]. case_decide; [intros [= <-]; by exists d|]. apply H2.
Qed.
Lemma om_wf_keys {V W} (m : list (bytes * V)) (m' : list (bytes * W)) : map fst m' = map fst m → om_wf m → om_wf m'.
Proof.
  assert (Hb : ∀ k (a : list (bytes * V)) (b : list (bytes * W)), map fst b = map fst a → om_below k a → om_below k b).
  { intros k a. induction a as [|x a IH]; intros [|y b]; cbn; try done; [by intros _ _; constructor|]. intros [= E1 E2] H. inversion H; subst. constructor; [by rewrite E1|by apply IH]. }
  revert m'. induction m as [|[k v] m IH]; intros [|[k' w] m']; cbn; try done. intros [= -> E] [H1 H2]. split; [by apply (Hb k m)|by apply IH].
Qed.
Lemma load_text_named text ts : load_text text = Ok ts → om_wf ts ∧ named ts.
Proof.
  unfold load_text. destruct (getlines text) as [|header lines]; [done|]. destruct (negb _); [done|]. unfold rbind.
  destruct (load_loop_lines lines []) as [loaded|] eqn:E; [|done]. intros HS. destruct (load_loop_named lines [] loaded E) as [Hwf Hn]; [split; [done|by intros ?]|].
  destruct (sort_partitions_named _ _ HS) as [S1 S2]. split; [by apply (om_wf_keys loaded)|]. intros name d' Hd. destruct (S2 name d' Hd) as (d & Hd' & <-). by apply Hn.
Qed.
Lemma om_find_key {V} k (m : list (bytes * V)) v : om_find k m = Some v → k ∈ map fst m.
Proof. induction m as [|[k' v'] m IH]; cbn; [done|]. case_decide; [intros _; subst; left|intros H'; right; by apply IH]. Qed.

(** What a [LoadFrom] that succeeds leaves: everything foreign, but for a file that a [SaveTo]
    of well-formed metadata has written whole. *)
Lemma LoadFrom_inv fs dir path md :
  layout_inv fs md → layout_inv (foreign_after (OpLoad dir path) md fs) (LoadFrom dir path md).2.
Proof.
  intros Hi. cbn [foreign_after]. unfold LoadFrom. destruct (om_find path dir) as [text|]; [|done]. destruct (load_text text) as [ts|] eqn:E; [|done]. cbn [snd with_topics md_topics].
  destruct (load_text_named _ _ E) as [Hwf Hn]. apply (layout_inv_topics fs); [done|done|]. intros name d Hd. split; [by apply Hn|]. intros Hf. destruct Hf. by apply (om_find_key _ _ d).
Qed.
Lemma om_find_reset name (ts : Topics) d' : om_find name (map reset_topic ts) = Some d' → ∃ d, om_find name ts = Some d ∧ d' = (reset_topic (name, d)).2.
Proof. induction ts as [|[k d] ts IH]; cbn; [done|]. case_decide; [|apply IH]. intros [= <-]. subst. by exists d. Qed.
Lemma reset_topic_ok name d : topic_ok name d → topic_ok name (reset_topic (name, d)).2.
Proof.
  intros [T1 T2 T3 T4 T5]. constructor; cbn; try done; [unfold zlen in *; by rewrite length_map|]. intros i a. rewrite list_lookup_fmap. intros (b & Hb & ->)%fmap_Some.
  destruct (T5 i b Hb) as [H1 [A1 A2 A3 A4 A5]]. split; [done|]. by constructor.
Qed.
Lemma LoadFrom_saved fs saved dir path md :
  layout_inv fs md → md_inv saved → Forall (λ e, topic_fits e.2) (md_topics saved) → om_find path dir = Some (metadata_text saved) → md_inv (LoadFrom dir path md).2.
Proof.
  intros Hi Hs Hf Hd. unfold LoadFrom. rewrite Hd, load_metadata_text; [|apply Hs|by apply md_inv_saved]. cbn [snd]. apply (layout_inv_topics fs); [done|apply reset_wf, Hs|].
  intros name d (x & Hx & ->)%om_find_reset. split; [cbn; by apply (mi_names _ _ Hs)|]. intros _. apply reset_topic_ok. by apply (mi_all saved).
Qed.

(** What [at_partition] does to one assignment. *)
Lemma at_partition_spec topic p f md :
  (∃ d i a a', om_find topic (md_topics md) = Some d ∧ td_partitions d !! i = Some a ∧ u64 p = Z.of_nat i ∧ f a = Ok a' ∧
     at_partition topic p f md =
     (Ok tt, with_topics (om_insert topic (with_partitions (<[i := a']> (td_partitions d)) d) (md_topics md)) md)) ∨
  (∃ e, at_partition topic p f md = (Err e, md)).
Proof.
  unfold at_partition. destruct (om_find topic (md_topics md)) as [d|] eqn:Ed; [|right; eauto].
  destruct (_ <=? _); [right; eauto|]. destruct (td_partitions d !! _) as [a|] eqn:Ea; [|right; eauto].
  destruct (f a) as [a'|e] eqn:Ef; [left|right; eauto].
  pose proof (uwrap_range 64 p ltac:(lia)) as Hu. unfold unsigned in Hu.
  exists d, (Z.to_nat (u64 p)), a, a'. rewrite Z2Nat.id by lia. by split_and!.
Qed.

Lemma topic_ok_insert name d i a a' :
  topic_ok name d → td_partitions d !! i = Some a → pa_index a' = pa_index a →
  (assignment_ok (tc_replication_factor (td_config d)) a → assignment_ok (tc_replication_factor (td_config d)) a') →
  topic_ok name (with_partitions (<[i := a']> (td_partitions d)) d).
Proof.
  intros [T1 T2 T3 T4 T5] Hi Hx Hok. constructor; cbn; try done.
  - unfold zlen. rewrite length_insert. exact T4.
  - intros j b Hj. destruct (decide (i = j)) as [<-|Hne].
    + rewrite list_lookup_insert_eq in Hj by (by eapply lookup_lt_Some). injection Hj as <-.
      destruct (T5 _ _ Hi) as [Hidx Ha]. rewrite Hx. split; [done|by apply Hok].
    + rewrite list_lookup_insert_ne in Hj by done. by apply T5.
Qed.

(** A negative partition wraps past the end of every vector. *)
Lemma at_partition_get topic p md d i a :
  topic_ok topic d → signed 32 p → om_find topic (md_topics md) = Some d → td_partitions d !! i = Some a →
  u64 p = Z.of_nat i → GetPartition topic p md = Ok a ∧ p = Z.of_nat i.
Proof.
  intros [_ _ [Hc _] Hl _] Hp Hd Ha Hu. unfold signed in *.
  apply lookup_lt_Some in Ha as Hlt. unfold zlen in Hl. cbn in Hc, Hp.
  assert (0 ≤ p) as H0.
  { destruct (Z.lt_ge_cases p 0); [|done]. exfalso.
    unfold uwrap in Hu. rewrite <- (Z.mod_add p 1), Z.mod_small in Hu by lia. lia. }
  rewrite uwrap_small in Hu by (unfold unsigned; lia). split; [|done].
  unfold GetPartition. rewrite Hd. destruct (Z.ltb_spec p 0); [lia|]. by rewrite Hu, Nat2Z.id, Ha.
Qed.

Lemma at_partition_inv fs topic p f md :
  layout_inv fs md → signed 32 p →
  (∀ a a' n, GetPartition topic p md = Ok a → f a = Ok a' →
     pa_index a' = pa_index a ∧ (assignment_ok n a → assignment_ok n a')) →
  layout_inv fs (at_partition topic p f md).2.
Proof.
  intros Hi Hp Hf. destruct (at_partition_spec topic p f md) as [(d & i & a & a' & Hd & Ha & Hu & Hfa & ->)|[e ->]]; [|done].
  cbn [snd]. apply (layout_inv_insert fs); [done|cbn; by apply (mi_names _ _ Hi)| |done]. intros Hfo. pose proof (mi_topics _ _ Hi _ _ Hd Hfo) as Ht.
  assert (HG : GetPartition topic p md = Ok a) by (by eapply at_partition_get, Hu).
  apply (topic_ok_insert _ _ _ a); [done|done|by eapply (Hf a a' 0)|]. by apply (Hf a a').
Qed.

Lemma in_sync_update_ok n a isr :
  (∀ b, b ∈ isr → b ∈ pa_replicas a) → assignment_ok n a →
  assignment_ok n (mkAssignment (pa_index a) (pa_leader a) (pa_leader_epoch a) (pa_replicas a) isr).
Proof. intros Hisr [A1 A2 A3 A4 A5]. by constructor. Qed.
Lemma leader_update_ok n a l :
  HasReplica l a = true → assignment_ok n a →
  assignment_ok n (mkAssignment (pa_index a) l (pa_leader_epoch a + 1) (pa_replicas a) (pa_in_sync a)).
Proof. intros Hl%bool_decide_eq_true [A1 A2 A3 A4 A5]. constructor; cbn; try done. lia. Qed.

Lemma UpsertTopic_inv fs fs' d md :
  layout_inv fs md → (tc_name (td_config d) ∉ fs' → topic_ok (tc_name (td_config d)) d) → (∀ n, n ≠ tc_name (td_config d) → n ∉ fs' → n ∉ fs) →
  (tc_name (td_config d) ∈ fs' ∨ IsValidTopicName (tc_name (td_config d)) = true) → layout_inv fs' (UpsertTopic d md).2.
Proof.
  intros Hi Ht Hfs Hv. unfold UpsertTopic. destruct (IsValidTopicName _) eqn:E; [by apply (layout_inv_insert fs)|]. destruct Hv as [Hv|]; [|done]. cbn [negb sfail snd].
  destruct Hi as [I1 I2 I3 I4 I5 I6]. constructor; try done. intros name x Hx Hn. apply I6; [done|]. apply Hfs; [|done]. by intros ->.
Qed.
Lemma md_apply_inv fs op md : layout_inv fs md → op_legal op md → layout_inv (foreign_after op md fs) (md_apply op md).
Proof.
  intros Hi. destruct op as [specs|bs|c|d|name|t p isr|t p l|dir path]; cbn [md_apply op_legal foreign_after].
  - intros H. by apply SetBrokersFromSpec_inv.
  - intros (H1 & H2 & H3). by apply SetBrokers_inv.
  - intros Hc. pose proof (CreateTopic_cases c md) as H.
    destruct (CreateTopic c md) as [[[d [|]]|e] md']; cbn [snd]; [|by destruct H as [-> _]..].
    destruct H as (Hcr & Hfind & -> & ->). unfold om_emplace. rewrite Hfind. apply (layout_inv_insert fs); [done|done| |done].
    intros _. apply ComputeAssignments_ok; [apply Hi|apply Hi|done|done].
  - intros _. apply (UpsertTopic_inv fs); [done|intros Hn; destruct Hn; left|intros n Hne Hn Hin; apply Hn; by right|left; left].
  - intros _. unfold DeleteTopic. destruct (om_find name (md_topics md)) as [d|] eqn:Hd; cbn [snd].
    + apply (layout_inv_topics fs); [done|apply om_erase_wf, Hi|]. intros name' d'. rewrite om_find_erase by apply Hi.
      case_decide as Hn; [done|]. intros Hd'. split; [by apply (mi_names _ _ Hi)|]. intros Hf. apply (mi_topics _ _ Hi); [done|]. by apply (without_not name).
    + destruct Hi as [I1 I2 I3 I4 I5 I6]. constructor; try done. intros n x Hx Hn. apply I6; [done|]. apply (without_not name); [done|]. intros ->. by rewrite Hd in Hx.
  - intros [Hp H]. apply at_partition_inv; [done|done|]. intros a a' n Ha [= <-]. split; [done|].
    apply in_sync_update_ok, (H _ Ha).
  - intros Hp. apply at_partition_inv; [done|done|]. intros a a' n Ha.
    destruct (HasReplica l a) eqn:Hl; [|done]. cbn [negb]. destruct (pa_leader a =? l); intros [= <-]; [done|].
    split; [done|by apply leader_update_ok].
  - intros _. by apply LoadFrom_inv.
Qed.

Lemma md_reachable_inv md fs : md_reachable md fs → layout_inv fs md.
Proof.
  induction 1 as [|md fs op Hr IH Hop|md fs d Hr IH Ht|md fs saved dir path Hr IH Hs IHs Hf Hd].
  - constructor; cbn; [constructor|constructor|by vm_compute|done|done|done].
  - by apply md_apply_inv.
  - apply (UpsertTopic_inv fs); [done|done| |right; apply Ht]. intros n Hne Hn. by apply (without_not (tc_name (td_config d))).
  - by apply (LoadFrom_saved fs saved).
Qed.

(** A partition before and after an update of the same topic. *)
Lemma GetPartition_insert t p md d i a' t' p' x :
  om_find t (md_topics md) = Some d → (i < length (td_partitions d))%nat → p = Z.of_nat i →
  GetPartition t' p' (with_topics (om_insert t (with_partitions (<[i := a']> (td_partitions d)) d) (md_topics md)) md) = Ok x →
  (t' = t ∧ p' = p ∧ x = a') ∨ GetPartition t' p' md = Ok x.
Proof.
  intros Hd Hi ->. unfold GetPartition. cbn [md_topics with_topics]. rewrite om_find_insert. case_decide as Ht; [|by right].
  subst t'. rewrite Hd. cbn [td_partitions with_partitions]. destruct (Z.ltb_spec p' 0); [by right|].
  destruct (decide (i = Z.to_nat p')) as [->|Hne].
  - rewrite list_lookup_insert_eq by done. intros [= ->]. left. split_and!; [done|lia|done].
  - rewrite list_lookup_insert_ne by done. by right.
Qed.


Definition orders_cluster : ClusterMetadata := (CreateTopic orders three_brokers).2.
Lemma orders_cluster_reachable : md_reachable orders_cluster [].
Proof.
  apply (md_next three_brokers [] (OpCreate orders)); [|exact orders_fits].
  apply (md_next (mkMetadata [] []) [] (OpSetBrokersFromSpec three_specs)); [constructor|by vm_compute].
Qed.

(** *** The metadata file *)

Lemma temp_name_ne (path : bytes) : path ≠ path ++ str ".tmp".
Proof. intros H. apply (f_equal length) in H. rewrite length_app in H. cbn in H. lia. Qed.

(** C24. The metadata file.  A failed [SaveTo] leaves the file of the last successful
    one as it was.  A successful one whose text all reached the file (which holds
    when the final flush of the stream does not fail) makes [LoadFrom] restore every
    topic, partition, leader and epoch, with all replicas back in the in-sync set;
    without failures it succeeds.  For reachable metadata without foreign topics, with values
    inside the types of their fields. *)
Theorem metadata_roundtrip (md md0 : ClusterMetadata) (dir : Dir) (path : bytes) (env : SaveEnv) :
  md_reachable md [] → Forall (λ e, topic_fits e.2) (md_topics md) →
  (match SaveTo env path md dir with
   | (Err e, dir') => e = kIoError ∧ om_find path dir' = om_find path dir
   | (Ok _, dir') => zlen (metadata_text md) ≤ se_written env →
       LoadFrom dir' path md0 = (Ok tt, mkMetadata (md_brokers md0) (map reset_topic (md_topics md)))
   end) ∧
  (se_opens env = true → se_good env = true → se_renames env = true → is_ok (SaveTo env path md dir).1 = true).
Proof.
  intros Hr Hf. pose proof (md_reachable_inv md [] Hr) as Hi. unfold SaveTo. destruct env as [o g w r]. cbn [se_opens se_good se_written se_renames] in *. cbv zeta.
  split; [|intros -> -> ->; done].
  assert (Ht : om_find path (om_insert (path ++ str ".tmp") (ztake w (metadata_text md)) dir) = om_find path dir)
    by (rewrite om_find_insert, decide_False by apply temp_name_ne; done).
  destruct o; [|done]. cbn [negb]. destruct g; [|done]. cbn [negb]. destruct r; [|done]. cbn [negb].
  intros Hw. unfold LoadFrom. rewrite om_find_insert, decide_True by done. rewrite ztake_all by done.
  rewrite load_metadata_text; [done|apply Hi|by apply md_inv_saved].
Qed.

Definition metadata_path : bytes := str "data/metadata".
Definition good_save : SaveEnv := mkSaveEnv true true 4096 true.
Lemma orders_cluster_fits : Forall (λ e, topic_fits e.2) (md_topics orders_cluster).
Proof.
  change (md_topics orders_cluster) with [(str "orders", mkTopic orders (ComputeAssignments orders three_brokers))].
  constructor; [|constructor]. cbn [snd]. split_and!; [exact orders_fits|by vm_compute..|].
  apply Forall_forall. intros a Ha. unfold ComputeAssignments in Ha.
  assert (E : forallb (λ a, (0 <=? pa_index a) && (pa_index a <=? 7) && (0 <=? pa_leader a) && (pa_leader a <=? 3)
    && (pa_leader_epoch a =? 0) && forallb (λ r, (0 <=? r) && (r <=? 3)) (pa_replicas a))
    (ComputeAssignments orders three_brokers) = true) by (vm_compute; reflexivity).
  rewrite forallb_forall in E. specialize (E a (proj1 (list_elem_of_In _ _) Ha)).
  repeat (apply andb_true_iff in E as [E ?]). unfold assignment_fits, signed.
  rewrite forallb_forall in H. cbn. split_and!; try lia.
  apply Forall_forall. intros r Hr. specialize (H r (proj1 (list_elem_of_In _ _) Hr)). lia.
Qed.
Lemma metadata_roundtrip_witness :
  ∃ dir', SaveTo good_save metadata_path orders_cluster [] = (Ok tt, dir') ∧
  LoadFrom dir' metadata_path three_brokers = (Ok tt, orders_cluster).
Proof.
  destruct (metadata_roundtrip orders_cluster three_brokers [] metadata_path good_save
    orders_cluster_reachable orders_cluster_fits) as [H Hok].
  specialize (Hok eq_refl eq_refl eq_refl).
  destruct (SaveTo good_save metadata_path orders_cluster []) as [[[]|e] dir']; [|discriminate].
  exists dir'. split; [reflexivity|]. rewrite H; [vm_compute; reflexivity|vm_compute; discriminate].
Defined.

(** The stream is tested before its destructor flushes it: when that flush fails the
    call still succeeds, and a truncated file replaces the good one. *)
Example SaveTo_lost_flush :
  let dir' := (SaveTo (mkSaveEnv true true 130 true) metadata_path orders_cluster []).2 in
  is_ok (SaveTo (mkSaveEnv true true 130 true) metadata_path orders_cluster []).1 = true ∧
  ∃ d, om_find (str "orders") (md_topics (LoadFrom dir' metadata_path three_brokers).2) = Some d ∧
    tc_partition_count (td_config d) = 8 ∧ zlen (td_partitions d) < 8.
Proof. split; [reflexivity|]. eexists. split; [vm_compute; reflexivity|]. split; reflexivity. Qed.
