(* ===== verification/Replica.v ===== *)
(** * Replica: the replication state of one partition on one broker

    Models include/pulselog/broker/partition_replica.h and
    src/broker/partition_replica.cc.  A replica sees its log only through the
    [ReplicaLog] interface.  Every method is one critical section, so it is one step
    here; a completion callback is identified by a number, and a method returns the
    callbacks it runs, in order, with their arguments.  (The watermark handed to a
    callback is read after the mutex is released; another thread can only have
    raised it in between.) *)
From S2P Require Import Prelude Status Types OrdMap ClusterMetadata PartitionLog PartitionLogSpec.

(** What a replica uses of its log. *)
Class ReplicaLog (L : Type) := {
  rl_end : L → Z;
  rl_flushed : L → Z;
  rl_stats : L → LogStats;
  rl_ok : L → Prop;
  rl_stats_end : ∀ l, st_log_end_offset (rl_stats l) = rl_end l;
  rl_flushed_le : ∀ l, rl_ok l → rl_flushed l ≤ rl_end l }.

#[global] Program Instance PartitionLog_replica_log : ReplicaLog PartitionLog := {|
  rl_end := log_end_offset; rl_flushed := flushed_offset; rl_stats := Log_GetStats;
  rl_ok := λ l, ∃ rss, log_inv l rss |}.
Next Obligation. done. Qed.
Next Obligation. intros l [rss H]. apply H. Qed.

(** ** State *)

Record FollowerState := mkFollower {
  fs_broker : Z; fs_log_end : Z; fs_flushed : Z; fs_last_ack_ms : Z; fs_in_sync : bool; fs_acks : Z }.
Definition new_follower (broker : Z) : FollowerState := mkFollower broker 0 0 0 true 0.

Record DurabilityWaiter := mkWaiter {
  dw_required : Z; dw_mode : AckMode; dw_deadline_ms : Z;
  (** Which callback [on_complete] is. *)
  dw_callback : Z;
  dw_added_nanos : Z; dw_local_flush_nanos : Z }.
#[global] Instance DurabilityWaiter_eq_dec : EqDecision DurabilityWaiter.
Proof. solve_decision. Defined.

(** One call of an [on_complete]. *)
Record Completion := mkCompletion {
  co_callback : Z; co_status : ErrorCode; co_watermark : Z; co_local_flush_nanos : Z }.

Abbreviation Followers_map := (list (Z * FollowerState)).

Record PartitionReplica (L : Type) := mkReplica {
  pr_topic_partition : TopicPartition; pr_self : Z; pr_log : L;
  pr_assignment : PartitionAssignment; pr_followers : Followers_map;
  pr_waiters : list DurabilityWaiter; pr_pending : Z; pr_hwm : Z }.
Arguments mkReplica {L} _ _ _ _ _ _ _ _.
Arguments pr_topic_partition {L} _.
Arguments pr_self {L} _.
Arguments pr_log {L} _.
Arguments pr_assignment {L} _.
Arguments pr_followers {L} _.
Arguments pr_waiters {L} _.
Arguments pr_pending {L} _.
Arguments pr_hwm {L} _.

Record ReplicaStats := mkReplicaStats {
  rs_log_start : Z; rs_log_end : Z; rs_hwm : Z; rs_flushed : Z; rs_total_bytes : Z; rs_segment_count : Z;
  rs_pending : Z; rs_max_lag : Z; rs_in_sync : Z; rs_leader : bool }.

Section Replica.
Context {L : Type} `{!ReplicaLog L}.
Implicit Types r : PartitionReplica L.

Definition with_log (l : L) r : PartitionReplica L :=
  mkReplica (pr_topic_partition r) (pr_self r) l (pr_assignment r) (pr_followers r) (pr_waiters r) (pr_pending r) (pr_hwm r).
Definition with_assignment (a : PartitionAssignment) r : PartitionReplica L :=
  mkReplica (pr_topic_partition r) (pr_self r) (pr_log r) a (pr_followers r) (pr_waiters r) (pr_pending r) (pr_hwm r).
Definition with_followers (fs : Followers_map) r : PartitionReplica L :=
  mkReplica (pr_topic_partition r) (pr_self r) (pr_log r) (pr_assignment r) fs (pr_waiters r) (pr_pending r) (pr_hwm r).
(** A change of [waiters_] followed by [PublishWaiterCountLocked]. *)
Definition publish_waiters (ws : list DurabilityWaiter) r : PartitionReplica L :=
  mkReplica (pr_topic_partition r) (pr_self r) (pr_log r) (pr_assignment r) (pr_followers r) ws (zlen ws) (pr_hwm r).
Definition with_hwm (h : Z) r : PartitionReplica L :=
  mkReplica (pr_topic_partition r) (pr_self r) (pr_log r) (pr_assignment r) (pr_followers r) (pr_waiters r) (pr_pending r) h.

Definition is_leader r : bool := pa_leader (pr_assignment r) =? pr_self r.
Definition HasPendingWaiters r : bool := negb (pr_pending r =? 0).
Definition PendingWaiterCount r : Z := zlen (pr_waiters r).

(** ** Construction and assignment *)

(** [followers_.emplace(replica, state)] for every replica but this broker. *)
Definition add_followers (self : Z) (replicas : list Z) (fs : Followers_map) : Followers_map :=
  fold_left (λ fs b, if b =? self then fs else om_emplace b (new_follower b) fs) replicas fs.

Definition new_replica (tp : TopicPartition) (a : PartitionAssignment) (self : Z) (l : L) : PartitionReplica L :=
  let fs := add_followers self (pa_replicas a) [] in
  mkReplica tp self l a fs [] 0 (if (pa_leader a =? self) && (zlen fs =? 0) then rl_end l else 0).

Definition SetAssignment (a : PartitionAssignment) r : PartitionReplica L :=
  let kept := List.filter (λ e, negb (negb (HasReplica e.1 a) || (e.1 =? pr_self r))) (pr_followers r) in
  with_followers (add_followers (pr_self r) (pa_replicas a) kept) (with_assignment a r).

(** ** The high-water mark *)

(** The smallest log end among the leader and its in-sync followers. *)
Fixpoint min_in_sync (watermark : Z) (fs : Followers_map) : Z :=
  match fs with
  | [] => watermark
  | (_, f) :: fs => min_in_sync (if fs_in_sync f then Z.min watermark (fs_log_end f) else watermark) fs
  end.
Fixpoint count_in_sync (n : Z) (fs : Followers_map) : Z :=
  match fs with
  | [] => n
  | (_, f) :: fs => count_in_sync (if fs_in_sync f then n + 1 else n) fs
  end.
Definition RecomputeHighWaterMarkLocked r : PartitionReplica L * Z :=
  let leader_end := rl_end (pr_log r) in
  if negb (is_leader r) then (r, pr_hwm r) else
  let watermark := min_in_sync leader_end (pr_followers r) in
  let watermark := if count_in_sync 1 (pr_followers r) =? 1 then leader_end else watermark in
  if pr_hwm r <? watermark then (with_hwm watermark r, watermark) else (r, pr_hwm r).

(** ** Waiters *)

(** Replicas that have persisted past [offset], given whether the leader has. *)
Fixpoint count_persisted (n offset : Z) (fs : Followers_map) : Z :=
  match fs with
  | [] => n
  | (_, f) :: fs => count_persisted (if fs_in_sync f && (offset <? fs_flushed f) then n + 1 else n) offset fs
  end.
Definition PersistedReplicaCount (offset : Z) r : Z :=
  let count := if offset <=? rl_flushed (pr_log r) then 1 else 0 in
  fold_left (λ n e, if fs_in_sync e.2 && (offset <=? fs_flushed e.2) then n + 1 else n) (pr_followers r) count.

(** [MonotonicNanos()] as read when a waiter is examined. *)
Context (MonotonicNanos : DurabilityWaiter → Z).

(** The lambda [satisfied]: the waiter as it leaves it, and its verdict. *)
Definition examine r (w : DurabilityWaiter) : DurabilityWaiter * bool :=
  match dw_mode w with
  | kNone => (w, true)
  | kLeader => (w, dw_required w <? rl_end (pr_log r))
  | kQuorum =>
      let locally_flushed := dw_required w <? rl_flushed (pr_log r) in
      let w' := if locally_flushed && (dw_local_flush_nanos w =? 0)
                then mkWaiter (dw_required w) (dw_mode w) (dw_deadline_ms w) (dw_callback w) (dw_added_nanos w) (MonotonicNanos w)
                else w in
      (w', QuorumSize (pr_assignment r) <=?
           count_persisted (if locally_flushed then 1 else 0) (dw_required w) (pr_followers r))
  end.
(** [std::stable_partition]: the waiters that stay, and those that are done. *)
Fixpoint partition_waiters r (ws : list DurabilityWaiter) : list DurabilityWaiter * list DurabilityWaiter :=
  match ws with
  | [] => ([], [])
  | w :: ws =>
      let '(w', done) := examine r w in
      let '(stay, out) := partition_waiters r ws in
      if done then (stay, w' :: out) else (w' :: stay, out)
  end.
Definition ExtractSatisfiedLocked r : PartitionReplica L * list DurabilityWaiter :=
  match pr_waiters r with
  | [] => (publish_waiters [] r, [])
  | ws => let '(stay, out) := partition_waiters r ws in (publish_waiters stay r, out)
  end.

Definition complete (status : ErrorCode) (watermark : Z) (ws : list DurabilityWaiter) : list Completion :=
  map (λ w, mkCompletion (dw_callback w) status watermark (dw_local_flush_nanos w)) ws.

(** Recompute, extract, then run the callbacks: the common shape of the methods. *)
Definition settle r : PartitionReplica L * list Completion :=
  let '(r, _) := RecomputeHighWaterMarkLocked r in
  let '(r, satisfied) := ExtractSatisfiedLocked r in
  (r, complete kOk (pr_hwm r) satisfied).

Definition OnLeaderAppend (new_log_end_offset now_ms : Z) r : PartitionReplica L * list Completion := settle r.

Definition OnFollowerProgress (follower log_end flushed now_ms : Z) r : PartitionReplica L * list Completion * Z :=
  match om_find follower (pr_followers r) with
  | None => (r, [], pr_hwm r)
  | Some state =>
      let state := mkFollower (fs_broker state) (Z.max (fs_log_end state) log_end) (Z.max (fs_flushed state) flushed)
                     now_ms true (u64 (fs_acks state + 1)) in
      let r := with_followers (om_insert follower state (pr_followers r)) r in
      let '(r, watermark) := RecomputeHighWaterMarkLocked r in
      let '(r, satisfied) := ExtractSatisfiedLocked r in
      (r, complete kOk watermark satisfied, watermark)
  end.

Definition MarkFollowerOutOfSync (follower now_ms : Z) r : PartitionReplica L * list Completion :=
  match om_find follower (pr_followers r) with
  | None => (r, [])
  | Some state =>
      if negb (fs_in_sync state) then (r, []) else
      let state := mkFollower (fs_broker state) (fs_log_end state) (fs_flushed state) (fs_last_ack_ms state) false (fs_acks state) in
      settle (with_followers (om_insert follower state (pr_followers r)) r)
  end.

Definition AddWaiter (waiter : DurabilityWaiter) (now_ms : Z) r : PartitionReplica L * list Completion :=
  let '(r, satisfied) := ExtractSatisfiedLocked (publish_waiters (pr_waiters r ++ [waiter]) r) in
  (r, complete kOk (pr_hwm r) satisfied).

Definition CompleteSatisfiedWaiters (now_ms : Z) r : PartitionReplica L * list Completion * Z :=
  let '(r, done) := settle r in (r, done, zlen done).

Definition ExpireWaiters (now_ms : Z) r : PartitionReplica L * list Completion * Z :=
  let keep := List.filter (λ w, now_ms <? dw_deadline_ms w) (pr_waiters r) in
  let expired := List.filter (λ w, negb (now_ms <? dw_deadline_ms w)) (pr_waiters r) in
  (publish_waiters keep r, complete kTimeout (pr_hwm r) expired, zlen expired).

Definition FailAllWaiters (reason : ErrorCode) r : PartitionReplica L * list Completion * Z :=
  (publish_waiters [] r, complete reason (pr_hwm r) (pr_waiters r), zlen (pr_waiters r)).

(** The destructor's last act. *)
Definition destroy_replica r : list Completion := (FailAllWaiters kUnavailable r).1.2.

(** ** Reporting *)

Definition Followers r : list FollowerState := map snd (pr_followers r).
Definition MaxFollowerLag r : Z :=
  fold_left (λ worst e, Z.max worst (rl_end (pr_log r) - fs_log_end e.2)) (pr_followers r) 0.
Definition Replica_GetStats r : ReplicaStats :=
  let st := rl_stats (pr_log r) in
  mkReplicaStats (st_log_start_offset st) (st_log_end_offset st) (pr_hwm r) (st_flushed_offset st) (st_total_bytes st)
    (st_segment_count st) (zlen (pr_waiters r)) (MaxFollowerLag r) (count_in_sync 1 (pr_followers r)) (is_leader r).
End Replica.
