(* ===== verification/ReplicaTheorems.v ===== *)
(** * ReplicaTheorems: acknowledgements and the high-water mark

    A history of a replica is any sequence of its methods interleaved with progress
    of its log.  The theorems hold for every history and every log that implements
    [ReplicaLog]: each produce request is answered exactly once, an OK answer means
    what its mode promises, nothing that can be answered is left waiting, and the
    high-water mark only rises, and only to what every in-sync replica has. *)
From S2P Require Import Prelude Status Types OrdMap ClusterMetadata PartitionLog PartitionLogSpec PartitionLogTheorems Replica.

Inductive ReplicaOp (L : Type) :=
  | RLog (l : L)
  | RAppended (new_end now : Z)
  | RFollower (follower log_end flushed now : Z)
  | ROutOfSync (follower now : Z)
  | RAdd (w : DurabilityWaiter) (now : Z)
  | RComplete (now : Z)
  | RExpire (now : Z)
  | RFail (reason : ErrorCode)
  | RAssign (a : PartitionAssignment).
Arguments RLog {L} l.
Arguments RAppended {L} new_end now.
Arguments RFollower {L} follower log_end flushed now.
Arguments ROutOfSync {L} follower now.
Arguments RAdd {L} w now.
Arguments RComplete {L} now.
Arguments RExpire {L} now.
Arguments RFail {L} reason.
Arguments RAssign {L} a.

Section ReplicaHistory.
Context {L : Type} `{!ReplicaLog L} (nanos : DurabilityWaiter → Z).
Implicit Types r : PartitionReplica L.
Implicit Types ops : list (ReplicaOp L).

Definition replica_step (op : ReplicaOp L) r : PartitionReplica L * list Completion :=
  match op with
  | RLog l => (with_log l r, [])
  | RAppended e now => OnLeaderAppend nanos e now r
  | RFollower b e f now => (OnFollowerProgress nanos b e f now r).1
  | ROutOfSync b now => MarkFollowerOutOfSync nanos b now r
  | RAdd w now => AddWaiter nanos w now r
  | RComplete now => (CompleteSatisfiedWaiters nanos now r).1
  | RExpire now => (ExpireWaiters now r).1
  | RFail reason => (FailAllWaiters reason r).1
  | RAssign a => (SetAssignment a r, [])
  end.
Fixpoint replica_run ops r : PartitionReplica L * list Completion :=
  match ops with
  | [] => (r, [])
  | op :: ops =>
      let '(r, cs) := replica_step op r in
      let '(r, cs') := replica_run ops r in (r, cs ++ cs')
  end.

Definition added (op : ReplicaOp L) : list DurabilityWaiter := match op with RAdd w _ => [w] | _ => [] end.

Lemma replica_run_app ops1 ops2 r :
  replica_run (ops1 ++ ops2) r =
  ((replica_run ops2 (replica_run ops1 r).1).1, (replica_run ops1 r).2 ++ (replica_run ops2 (replica_run ops1 r).1).2).
Proof.
  revert r. induction ops1 as [|op ops1 IH]; intros r; cbn [app replica_run fst snd].
  - by destruct (replica_run ops2 r).
  - destruct (replica_step op r) as [r1 cs1]. rewrite IH. destruct (replica_run ops1 r1) as [r2 cs2]. cbn. by rewrite app_assoc.
Qed.

(** ** Extraction *)

(** What stays the same when a waiter is examined. *)
Definition waiter_key (w : DurabilityWaiter) : Z * Z * AckMode * Z :=
  (dw_callback w, dw_required w, dw_mode w, dw_deadline_ms w).

Definition satisfied r (w : DurabilityWaiter) : bool := (examine nanos r w).2.

Lemma examine_key r w : waiter_key (examine nanos r w).1 = waiter_key w.
Proof. unfold examine. destruct (dw_mode w) eqn:E; [done|done|]. cbn. destruct (_ && _); cbn; [unfold waiter_key; cbn; by rewrite E|done]. Qed.
Lemma satisfied_key r w w' : waiter_key w = waiter_key w' → satisfied r w = satisfied r w'.
Proof.
  destruct w, w'. unfold waiter_key, satisfied, examine. cbn. intros [= -> -> -> ->]. by destruct dw_mode0.
Qed.

Lemma partition_waiters_spec r ws :
  map waiter_key (partition_waiters nanos r ws).1 = map waiter_key (List.filter (λ w, negb (satisfied r w)) ws) ∧
  map waiter_key (partition_waiters nanos r ws).2 = map waiter_key (List.filter (satisfied r) ws).
Proof.
  induction ws as [|w ws [IH1 IH2]]; [done|]. cbn [partition_waiters List.filter].
  change (satisfied r w) with (examine nanos r w).2. pose proof (examine_key r w) as Hk. destruct (examine nanos r w) as [w' b] eqn:E.
  destruct (partition_waiters nanos r ws) as [stay out]. cbn in *.
  destruct b; cbn; split; congruence.
Qed.

Lemma partition_waiters_perm r ws :
  map waiter_key ws ≡ₚ map waiter_key (partition_waiters nanos r ws).1 ++ map waiter_key (partition_waiters nanos r ws).2.
Proof.
  induction ws as [|w ws IH]; [done|]. cbn [partition_waiters map]. pose proof (examine_key r w) as Hk.
  destruct (examine nanos r w) as [w' b]. destruct (partition_waiters nanos r ws) as [stay out]. cbn in *.
  destruct b; cbn; rewrite Hk, IH; [by rewrite Permutation_middle|done].
Qed.

(** The outcome of a method: who is still waiting and who has been answered. *)
Record settled r (ws : list DurabilityWaiter) (out : PartitionReplica L * list Completion) : Prop := {
  st_keys : map waiter_key (pr_waiters out.1) = map waiter_key (List.filter (λ w, negb (satisfied r w)) ws);
  st_done : map co_callback out.2 = map dw_callback (List.filter (satisfied r) ws);
  st_ok : Forall (λ c, co_status c = kOk ∧ co_watermark c = pr_hwm out.1) out.2;
  st_pending : pr_pending out.1 = zlen (pr_waiters out.1);
  st_log : pr_log out.1 = pr_log r;
  st_followers : pr_followers out.1 = pr_followers r;
  st_assignment : pr_assignment out.1 = pr_assignment r;
  st_self : pr_self out.1 = pr_self r }.

Lemma callbacks_of_keys ws ws' : map waiter_key ws = map waiter_key ws' → map dw_callback ws = map dw_callback ws'.
Proof.
  intros H. apply (f_equal (map (λ k : Z * Z * AckMode * Z, k.1.1.1))) in H. by rewrite !map_map in H.
Qed.
Lemma complete_callbacks status h ws : map co_callback (complete status h ws) = map dw_callback ws.
Proof. unfold complete. by rewrite map_map. Qed.
Lemma complete_status status h ws : Forall (λ c, co_status c = status ∧ co_watermark c = h) (complete status h ws).
Proof. apply Forall_map, Forall_true. done. Qed.

Lemma extract_settled r h :
  h = pr_hwm r →
  settled r (pr_waiters r) ((ExtractSatisfiedLocked nanos r).1, complete kOk h (ExtractSatisfiedLocked nanos r).2).
Proof.
  intros ->. pose proof (partition_waiters_spec r (pr_waiters r)) as [H1 H2].
  unfold ExtractSatisfiedLocked in *. destruct (pr_waiters r) as [|w ws] eqn:Ew; [by constructor|].
  destruct (partition_waiters nanos r (w :: ws)) as [stay out] eqn:Ep. cbn [fst snd] in *.
  constructor; cbn [fst snd]; try done.
  - rewrite complete_callbacks. by apply callbacks_of_keys.
  - apply complete_status.
Qed.
Lemma extract_hwm r : pr_hwm (ExtractSatisfiedLocked nanos r).1 = pr_hwm r.
Proof. unfold ExtractSatisfiedLocked. destruct (pr_waiters r); [done|]. by destruct (partition_waiters _ _ _). Qed.

(** ** The high-water mark *)

Definition hwm_target r : Z := min_in_sync (rl_end (pr_log r)) (pr_followers r).

Lemma min_in_sync_le w fs : min_in_sync w fs ≤ w.
Proof. revert w. induction fs as [|[b f] fs IH]; intros w; cbn; [lia|]. etrans; [apply IH|]. destruct (fs_in_sync f); lia. Qed.
Lemma min_in_sync_mono w w' fs : w ≤ w' → min_in_sync w fs ≤ min_in_sync w' fs.
Proof. revert w w'. induction fs as [|[b f] fs IH]; intros w w' H; cbn; [done|]. apply IH. destruct (fs_in_sync f); lia. Qed.
Lemma min_in_sync_member w fs b f : (b, f) ∈ fs → fs_in_sync f = true → min_in_sync w fs ≤ fs_log_end f.
Proof.
  intros Hin Hs. revert w. induction fs as [|[b' f'] fs IH]; intros w; [by apply elem_of_nil in Hin|].
  apply elem_of_cons in Hin as [[= <- <-]|Hin]; cbn; [|by apply IH]. rewrite Hs. etrans; [apply min_in_sync_le|lia].
Qed.
Lemma min_in_sync_glb x w fs :
  x ≤ w → (∀ b f, (b, f) ∈ fs → fs_in_sync f = true → x ≤ fs_log_end f) → x ≤ min_in_sync w fs.
Proof.
  revert w. induction fs as [|[b f] fs IH]; intros w Hw Hf; [done|]. cbn. apply IH.
  - destruct (fs_in_sync f) eqn:E; [|done]. specialize (Hf b f (list_elem_of_here _ _) E). lia.
  - intros b' f' H. apply (Hf b'). by right.
Qed.
Lemma count_in_sync_ge n fs : n ≤ count_in_sync n fs.
Proof. revert n. induction fs as [|[b f] fs IH]; intros n; cbn; [lia|]. etrans; [|apply IH]. destruct (fs_in_sync f); lia. Qed.
Lemma no_in_sync n w fs : count_in_sync n fs = n → min_in_sync w fs = w.
Proof.
  revert n w. induction fs as [|[b f] fs IH]; intros n w; cbn; [done|]. destruct (fs_in_sync f); [|by apply IH].
  pose proof (count_in_sync_ge (n + 1) fs). lia.
Qed.

Lemma recompute_spec r :
  RecomputeHighWaterMarkLocked r =
  (with_hwm (if is_leader r then Z.max (pr_hwm r) (hwm_target r) else pr_hwm r) r,
   if is_leader r then Z.max (pr_hwm r) (hwm_target r) else pr_hwm r).
Proof.
  unfold RecomputeHighWaterMarkLocked. destruct (is_leader r); cbn [negb]; [|by destruct r].
  assert ((if count_in_sync 1 (pr_followers r) =? 1 then rl_end (pr_log r)
           else min_in_sync (rl_end (pr_log r)) (pr_followers r)) = hwm_target r) as ->.
  { unfold hwm_target. destruct (Z.eqb_spec (count_in_sync 1 (pr_followers r)) 1) as [E|E]; [|done].
    by rewrite (no_in_sync 1). }
  destruct (Z.ltb_spec (pr_hwm r) (hwm_target r)).
  - by rewrite Z.max_r by lia.
  - rewrite Z.max_l by lia. by destruct r.
Qed.

Lemma settled_hwm r h ws out : settled (with_hwm h r) ws out → settled r ws out.
Proof. by intros [S1 S2 S3 S4 S5 S6 S7 S8]. Qed.
Lemma settle_settled r : settled r (pr_waiters r) (settle nanos r).
Proof.
  unfold settle. rewrite recompute_spec. set (r1 := with_hwm _ r).
  pose proof (extract_settled r1 (pr_hwm r1) eq_refl) as H. pose proof (extract_hwm r1) as Hh.
  destruct (ExtractSatisfiedLocked nanos r1) as [r2 out]. cbn [fst snd] in *. rewrite Hh.
  eapply settled_hwm. exact H.
Qed.
Lemma settle_tp r : pr_topic_partition (settle nanos r).1 = pr_topic_partition r.
Proof.
  unfold settle. rewrite recompute_spec. unfold ExtractSatisfiedLocked. cbn [with_hwm pr_waiters]. destruct (pr_waiters r) as [|w ws]; [done|].
  by destruct (partition_waiters _ _ (w :: ws)).
Qed.
Lemma settle_hwm r : pr_hwm (settle nanos r).1 = if is_leader r then Z.max (pr_hwm r) (hwm_target r) else pr_hwm r.
Proof.
  unfold settle. rewrite recompute_spec. set (r1 := with_hwm _ r). pose proof (extract_hwm r1) as Hh.
  by destruct (ExtractSatisfiedLocked nanos r1).
Qed.

(** Which state a method examines the waiters in, and with which waiters. *)
Definition examined (op : ReplicaOp L) r : option (PartitionReplica L) :=
  match op with
  | RAppended _ _ | RComplete _ => Some r
  | RFollower b e f now =>
      match om_find b (pr_followers r) with
      | Some s => Some (with_followers (om_insert b (mkFollower (fs_broker s) (Z.max (fs_log_end s) e)
                    (Z.max (fs_flushed s) f) now true (u64 (fs_acks s + 1))) (pr_followers r)) r)
      | None => None
      end
  | ROutOfSync b _ =>
      match om_find b (pr_followers r) with
      | Some s => if fs_in_sync s then Some (with_followers (om_insert b (mkFollower (fs_broker s) (fs_log_end s)
                    (fs_flushed s) (fs_last_ack_ms s) false (fs_acks s)) (pr_followers r)) r) else None
      | None => None
      end
  | RAdd w _ => Some r
  | RLog _ | RExpire _ | RFail _ | RAssign _ => None
  end.

Lemma step_settled op r r1 :
  examined op r = Some r1 → settled r1 (pr_waiters r ++ added op) (replica_step op r).
Proof.
  destruct op as [l|e now|b e f now|b now|w now|now|now|reason|a]; cbn [examined replica_step added]; try done;
    rewrite ?app_nil_r.
  - intros [= <-]. apply settle_settled.
  - unfold OnFollowerProgress. destruct (om_find b (pr_followers r)) as [s|]; [|done]. intros [= <-].
    rewrite recompute_spec. set (r2 := with_followers _ r). set (r1 := with_hwm _ r2).
    pose proof (extract_settled r1 (pr_hwm r1) eq_refl) as H.
    destruct (ExtractSatisfiedLocked nanos r1) as [r3 out]. eapply settled_hwm. exact H.
  - unfold MarkFollowerOutOfSync. destruct (om_find b (pr_followers r)) as [s|]; [|done].
    destruct (fs_in_sync s); [|done]. intros [= <-]. apply (settle_settled (with_followers _ r)).
  - intros [= <-]. unfold AddWaiter. set (r2 := publish_waiters _ r).
    pose proof (extract_settled r2 (pr_hwm r2) eq_refl) as H. pose proof (extract_hwm r2) as Hh.
    destruct (ExtractSatisfiedLocked nanos r2) as [r3 out]. cbn [fst snd] in *. rewrite Hh.
    destruct H as [S1 S2 S3 S4 S5 S6 S7 S8]. by constructor.
  - intros [= <-]. unfold CompleteSatisfiedWaiters. pose proof (settle_settled r) as H. by destruct (settle nanos r).
Qed.

(** ** Accounting *)

Lemma filter_negb_perm {A} (p : A → bool) l : l ≡ₚ List.filter (λ x, negb (p x)) l ++ List.filter p l.
Proof.
  induction l as [|x l IH]; [done|]. cbn. destruct (p x); cbn; [|by constructor]. rewrite <- Permutation_middle. by constructor.
Qed.

(** What a step does to the waiters: each is still there or has been answered, and
    what is there was there before or has just been added. *)
Record waiters_accounted (before : list DurabilityWaiter) (out : PartitionReplica L * list Completion) : Prop := {
  ac_perm : map dw_callback before ≡ₚ map dw_callback (pr_waiters out.1) ++ map co_callback out.2;
  ac_keys : ∀ k, k ∈ map waiter_key (pr_waiters out.1) → k ∈ map waiter_key before;
  ac_pending : pr_pending out.1 = zlen (pr_waiters out.1) }.

Lemma settled_accounted r ws out : settled r ws out → waiters_accounted ws out.
Proof.
  intros [S1 S2 _ S4 _ _ _ _]. constructor; [|intros k|done].
  - rewrite S2, (callbacks_of_keys _ _ S1), <- map_app. apply Permutation_map, filter_negb_perm.
  - rewrite S1. intros (w & -> & Hw)%list_elem_of_fmap. apply list_elem_of_fmap. exists w. split; [done|].
    apply list_elem_of_In in Hw. apply List.filter_In in Hw as [Hw _]. by apply list_elem_of_In.
Qed.

Lemma kept_accounted ws r h (p : DurabilityWaiter → bool) status :
  waiters_accounted ws (publish_waiters (List.filter (λ w, negb (p w)) ws) r, complete status h (List.filter p ws)).
Proof.
  constructor; cbn [fst snd pr_waiters publish_waiters pr_pending]; [|intros k|done].
  - rewrite complete_callbacks, <- map_app. apply Permutation_map, filter_negb_perm.
  - intros (w & -> & Hw)%list_elem_of_fmap. apply list_elem_of_fmap. exists w. split; [done|].
    apply list_elem_of_In in Hw. apply List.filter_In in Hw as [Hw _]. by apply list_elem_of_In.
Qed.
Lemma same_accounted r r' :
  pr_pending r = zlen (pr_waiters r) → pr_waiters r' = pr_waiters r → pr_pending r' = pr_pending r →
  waiters_accounted (pr_waiters r ++ []) (r', []).
Proof. intros Hp Hw Hpe. rewrite app_nil_r. constructor; cbn; rewrite ?app_nil_r, ?Hw; [done|done|congruence]. Qed.

Lemma step_accounted op r :
  pr_pending r = zlen (pr_waiters r) → waiters_accounted (pr_waiters r ++ added op) (replica_step op r).
Proof.
  intros Hp. destruct (examined op r) as [r1|] eqn:E; [by eapply settled_accounted, step_settled|].
  destruct op as [l|e now|b e f now|b now|w now|now|now|reason|a]; cbn [examined replica_step added] in *; try done.
  - by apply same_accounted.
  - unfold OnFollowerProgress. destruct (om_find b (pr_followers r)); [done|]. by apply same_accounted.
  - unfold MarkFollowerOutOfSync. destruct (om_find b (pr_followers r)) as [s|]; [|by apply same_accounted].
    destruct (fs_in_sync s); [done|]. by apply same_accounted.
  - rewrite app_nil_r. unfold ExpireWaiters.
    pose proof (kept_accounted (pr_waiters r) r (pr_hwm r) (λ w, negb (now <? dw_deadline_ms w)) kTimeout) as H.
    assert (List.filter (λ w, now <? dw_deadline_ms w) (pr_waiters r) =
            List.filter (λ w, negb (negb (now <? dw_deadline_ms w))) (pr_waiters r)) as ->; [|exact H].
    apply List.filter_ext. intros w. by rewrite negb_involutive.
  - rewrite app_nil_r. unfold FailAllWaiters. constructor; cbn; [by rewrite complete_callbacks|set_solver|done].
  - by apply same_accounted.
Qed.

Lemma run_accounted ops r :
  pr_pending r = zlen (pr_waiters r) →
  waiters_accounted (pr_waiters r ++ concat (map added ops)) (replica_run ops r).
Proof.
  revert r. induction ops as [|op ops IH]; intros r Hp; cbn [map concat replica_run].
  { by apply same_accounted. }
  pose proof (step_accounted op r Hp) as [A1 A2 A3]. destruct (replica_step op r) as [r1 cs1]. cbn [fst snd] in *.
  specialize (IH r1 A3). destruct IH as [B1 B2 B3]. destruct (replica_run ops r1) as [r2 cs2]. cbn [fst snd] in *.
  constructor; cbn [fst snd]; [| |done].
  - rewrite app_assoc, map_app, A1, map_app, (Permutation_app_comm (map co_callback cs1)), app_assoc, <- B1, map_app.
    rewrite <- !app_assoc. apply Permutation_app_head, Permutation_app_comm.
  - intros k Hk. specialize (B2 k Hk). rewrite map_app in B2. rewrite app_assoc, map_app.
    apply elem_of_app in B2 as [Hb|Hb]; apply elem_of_app; [left; by apply A2|by right].
Qed.
End ReplicaHistory.

Lemma NoDup_callbacks_inj (ws : list DurabilityWaiter) w w' :
  NoDup (map dw_callback ws) → w ∈ ws → w' ∈ ws → dw_callback w = dw_callback w' → w = w'.
Proof.
  intros Hn Hw Hw' He. apply list_elem_of_lookup in Hw as [i Hi]. apply list_elem_of_lookup in Hw' as [j Hj].
  assert (i = j) as ->; [|congruence].
  eapply (NoDup_lookup (map dw_callback ws)); [done| |]; rewrite list_lookup_fmap; [by rewrite Hi|].
  rewrite Hj. cbn. by rewrite He.
Qed.
Lemma count_none x (cs : list Completion) :
  x ∉ map co_callback cs → List.filter (λ c, co_callback c =? x) cs = [].
Proof.
  induction cs as [|c cs IH]; [done|]. cbn. intros H. apply not_elem_of_cons in H as [H1 H2].
  destruct (Z.eqb_spec (co_callback c) x); [congruence|by apply IH].
Qed.
Lemma count_one x (cs : list Completion) :
  NoDup (map co_callback cs) → x ∈ map co_callback cs → length (List.filter (λ c, co_callback c =? x) cs) = 1%nat.
Proof.
  induction cs as [|c cs IH]; cbn; intros Hn Hin; [by apply elem_of_nil in Hin|]. apply NoDup_cons in Hn as [Hc Hn].
  destruct (Z.eqb_spec (co_callback c) x) as [E|E].
  - rewrite count_none by (by rewrite <- E). done.
  - apply elem_of_cons in Hin as [Hin|Hin]; [congruence|]. by apply IH.
Qed.

(** C15. Every produce request is answered at most once, and is accounted for at every
    moment: through any history of a replica and any behaviour of its log, the
    requests registered are exactly, with multiplicity, those still waiting and those
    whose callback has run; the lock-free counter tells whether any is waiting. *)
Theorem replica_exactly_once {L} `{!ReplicaLog L} (nanos : DurabilityWaiter → Z) (tp : TopicPartition)
    (a : PartitionAssignment) (self : Z) (l : L) (ops : list (ReplicaOp L)) :
  let '(r, answers) := replica_run nanos ops (new_replica tp a self l) in
  map dw_callback (concat (map added ops)) ≡ₚ map dw_callback (pr_waiters r) ++ map co_callback answers ∧
  (HasPendingWaiters r = true ↔ pr_waiters r ≠ []) ∧ PendingWaiterCount r = pr_pending r.
Proof.
  destruct (run_accounted nanos ops (new_replica tp a self l) eq_refl) as [A1 A2 A3].
  destruct (replica_run _ _ _) as [r answers]. cbn [fst snd] in *. split; [exact A1|]. split; [|by unfold PendingWaiterCount].
  unfold HasPendingWaiters. rewrite A3. destruct (Z.eqb_spec (zlen (pr_waiters r)) 0) as [E|E]; cbn [negb].
  - apply zlen_0_nil in E. by rewrite E.
  - split; [|done]. intros _ H. by rewrite H in E.
Qed.

(** C16. Every produce request gets its answer: one registered with a deadline has been
    answered exactly once, whatever happens in between, when a sweep past that
    deadline has run. *)
Theorem replica_answered {L} `{!ReplicaLog L} (nanos : DurabilityWaiter → Z) (tp : TopicPartition)
    (a : PartitionAssignment) (self : Z) (l : L) (before between : list (ReplicaOp L)) (w : DurabilityWaiter)
    (now sweep : Z) :
  let ops := before ++ RAdd w now :: between ++ [RExpire sweep] in
  NoDup (map dw_callback (concat (map added ops))) → dw_deadline_ms w ≤ sweep →
  length (List.filter (λ c, co_callback c =? dw_callback w) (replica_run nanos ops (new_replica tp a self l)).2) = 1%nat.
Proof.
  intros ops Hnd Hdl. destruct (run_accounted nanos ops (new_replica tp a self l) eq_refl) as [A1 A2 _].
  assert (Hw : w ∈ concat (map added ops)).
  { unfold ops. rewrite map_app, concat_app. apply elem_of_app. right. cbn. left. }
  assert (Hnot : dw_callback w ∉ map dw_callback (pr_waiters (replica_run nanos ops (new_replica tp a self l)).1)).
  { intros (w' & Hcb & Hw')%list_elem_of_fmap.
    assert (Hk : waiter_key w' ∈ map waiter_key (pr_waiters (new_replica tp a self l) ++ concat (map added ops)))
      by (apply A2, list_elem_of_fmap; eauto).
    apply list_elem_of_fmap in Hk as (w'' & Hk & Hw''). cbn [pr_waiters new_replica app] in Hw''.
    assert (w'' = w) as ->.
    { apply (NoDup_callbacks_inj _ _ _ Hnd Hw'' Hw). unfold waiter_key in Hk. congruence. }
    assert (Hdl' : sweep < dw_deadline_ms w').
    { revert Hw'. unfold ops. rewrite app_comm_cons, app_assoc, replica_run_app. cbn [fst replica_run replica_step].
      unfold ExpireWaiters. cbn [fst pr_waiters publish_waiters]. intros Hw'.
      apply list_elem_of_In in Hw'. apply List.filter_In in Hw' as [_ Hlt]. by apply Z.ltb_lt in Hlt. }
    unfold waiter_key in Hk. assert (dw_deadline_ms w' = dw_deadline_ms w) by congruence. lia. }
  cbn [pr_waiters new_replica app] in A1. rewrite A1 in Hnd.
  apply NoDup_app in Hnd as (_ & _ & Hnd).
  assert (Hin : dw_callback w ∈ map co_callback (replica_run nanos ops (new_replica tp a self l)).2).
  { assert (H : dw_callback w ∈ map dw_callback (concat (map added ops))) by (apply list_elem_of_fmap; eauto).
    rewrite A1 in H. by apply elem_of_app in H as [H|H]. }
  by apply count_one.
Qed.

(** ** What an acknowledgement means *)

Section ReplicaSafety.
Context {L : Type} `{!ReplicaLog L} (nanos : DurabilityWaiter → Z).
Implicit Types r : PartitionReplica L.

(** The members of the replica set known to have persisted past [offset]. *)
Definition persisted_set (offset : Z) r : list Z :=
  (if offset <? rl_flushed (pr_log r) then [pr_self r] else []) ++
  map fst (List.filter (λ e, fs_in_sync e.2 && (offset <? fs_flushed e.2)) (pr_followers r)).

Lemma count_persisted_filter n offset (fs : Followers_map) :
  count_persisted n offset fs = n + zlen (List.filter (λ e, fs_in_sync e.2 && (offset <? fs_flushed e.2)) fs).
Proof.
  revert n. induction fs as [|[b f] fs IH]; intros n; cbn; [zlist|]. rewrite IH.
  destruct (fs_in_sync f && _); rewrite ?zlen_cons; lia.
Qed.

(** The condition a waiter waits for. *)
Definition acknowledgeable r (w : DurabilityWaiter) : Prop :=
  match dw_mode w with
  | kNone => True
  | kLeader => dw_required w < rl_end (pr_log r)
  | kQuorum => QuorumSize (pr_assignment r) ≤ zlen (persisted_set (dw_required w) r)
  end.
Lemma satisfied_acknowledgeable r w : satisfied nanos r w = true ↔ acknowledgeable r w.
Proof.
  unfold satisfied, acknowledgeable, examine. destruct (dw_mode w); cbn [snd]; [done|apply Z.ltb_lt|].
  rewrite Z.leb_le, count_persisted_filter. unfold persisted_set. rewrite zlen_app.
  assert (Hm : ∀ l : Followers_map, zlen (map fst l) = zlen l) by (intros l; unfold zlen; by rewrite length_map).
  rewrite Hm.
  destruct (dw_required w <? rl_flushed (pr_log r)); [change (zlen [pr_self r]) with 1|change (zlen (@nil Z)) with 0]; lia.
Qed.
Lemma acknowledgeable_frame r r' w :
  pr_log r' = pr_log r → pr_followers r' = pr_followers r → pr_assignment r' = pr_assignment r → pr_self r' = pr_self r →
  acknowledgeable r' w ↔ acknowledgeable r w.
Proof. unfold acknowledgeable, persisted_set. intros -> -> -> ->. done. Qed.
(** A method that looks at the waiters leaves none whose condition holds. *)
Lemma settled_none_left r ws out : settled nanos r ws out → ∀ w, w ∈ pr_waiters out.1 → ¬ acknowledgeable out.1 w.
Proof.
  intros [S1 _ _ _ S5 S6 S7 S8] w Hw Hack. assert (Hk : waiter_key w ∈ map waiter_key (pr_waiters out.1)) by (apply list_elem_of_fmap; eauto).
  rewrite S1 in Hk. apply list_elem_of_fmap in Hk as (w' & Hk & Hin). apply list_elem_of_In, List.filter_In in Hin as [_ Hns].
  rewrite (acknowledgeable_frame r out.1 w S5 S6 S7 S8) in Hack. apply satisfied_acknowledgeable in Hack.
  rewrite (satisfied_key nanos r _ _ Hk) in Hack. by rewrite Hack in Hns.
Qed.

(** *** Reachable replicas *)

Definition followers_ok r : Prop :=
  om_wf (pr_followers r) ∧
  ∀ b f, om_find b (pr_followers r) = Some f → b ≠ pr_self r ∧ b ∈ pa_replicas (pr_assignment r).

(** The log of a replica only grows, this broker stays in the replica sets it is
    given, and waiters are only failed with an error. *)
Definition legal (op : ReplicaOp L) r : Prop :=
  match op with
  | RLog l => rl_end (pr_log r) ≤ rl_end l ∧ rl_flushed (pr_log r) ≤ rl_flushed l
  | RAssign a => pr_self r ∈ pa_replicas a
  | RFail reason => reason ≠ kOk
  | _ => True
  end.
Inductive replica_reachable : PartitionReplica L → Prop :=
  | rr_new tp a self l : self ∈ pa_replicas a → 0 ≤ rl_end l → replica_reachable (new_replica tp a self l)
  | rr_step r op : replica_reachable r → legal op r → replica_reachable (replica_step nanos op r).1.

Lemma add_followers_spec self (replicas : list Z) fs :
  om_wf fs → om_wf (add_followers self replicas fs) ∧
  ∀ b f, om_find b (add_followers self replicas fs) = Some f →
    om_find b fs = Some f ∨ b ≠ self ∧ b ∈ replicas ∧ f = new_follower b.
Proof.
  unfold add_followers. revert fs. induction replicas as [|c replicas IH]; intros fs Hwf; [by split; [|left]|].
  cbn [fold_left]. destruct (Z.eqb_spec c self) as [E|E].
  - destruct (IH fs Hwf) as [H1 H2]. split; [done|]. intros b f Hb. destruct (H2 b f Hb) as [H|(H3 & H4 & H5)]; [by left|].
    right. split_and!; [done|by right|done].
  - destruct (IH _ (om_emplace_wf c (new_follower c) fs Hwf)) as [H1 H2]. split; [done|]. intros b f Hb.
    destruct (H2 b f Hb) as [H|(H3 & H4 & H5)].
    + unfold om_emplace in H. destruct (om_find c fs); [by left|]. rewrite om_find_insert in H. case_decide as Hc; [|by left].
      right. injection H as <-. subst. split_and!; [done|left|done].
    + right. split_and!; [done|by right|done].
Qed.

(** Fields a step does not touch. *)
Lemma step_frame op r :
  pr_self (replica_step nanos op r).1 = pr_self r ∧
  pr_log (replica_step nanos op r).1 = match op with RLog l => l | _ => pr_log r end ∧
  pr_assignment (replica_step nanos op r).1 = match op with RAssign a => a | _ => pr_assignment r end ∧
  pr_followers (replica_step nanos op r).1 =
    match op with
    | RAssign a => pr_followers (SetAssignment a r)
    | _ => match examined op r with Some r1 => pr_followers r1 | None => pr_followers r end
    end.
Proof.
  destruct (examined op r) as [r1|] eqn:E.
  - pose proof (step_settled nanos op r r1 E) as [_ _ _ _ S5 S6 S7 S8]. rewrite S5, S6, S7, S8.
    destruct op; cbn in E; try done; injection E as <- || (repeat case_match; simplify_eq); done.
  - destruct op as [l|e now|b e f now|b now|w now|now|now|reason|a]; cbn [examined replica_step] in *; try done.
    + unfold OnFollowerProgress. by destruct (om_find b (pr_followers r)).
    + unfold MarkFollowerOutOfSync. destruct (om_find b (pr_followers r)) as [s|]; [|done]. by destruct (fs_in_sync s).
Qed.

Lemma examined_followers op r r1 b f :
  examined op r = Some r1 → om_find b (pr_followers r1) = Some f → ∃ f', om_find b (pr_followers r) = Some f'.
Proof.
  destruct op; cbn; intros E; repeat case_match; simplify_eq; try by eauto.
  all: cbn [pr_followers with_followers]; rewrite om_find_insert; case_decide; subst; eauto.
Qed.
Lemma examined_wf op r r1 : examined op r = Some r1 → om_wf (pr_followers r) → om_wf (pr_followers r1).
Proof. destruct op; cbn; intros E Hwf; repeat case_match; simplify_eq; try done; by apply om_insert_wf. Qed.

Lemma reachable_followers r : replica_reachable r → followers_ok r ∧ pr_self r ∈ pa_replicas (pr_assignment r).
Proof.
  induction 1 as [tp a self l Hs Hl|r op Hr [[Hwf Hf] Hs] Hop].
  - split; [|done]. destruct (add_followers_spec self (pa_replicas a) [] I) as [H1 H2]. split; [done|]. cbn. intros b f Hb.
    destruct (H2 b f Hb) as [H|(H3 & H4 & _)]; [done|]. done.
  - destruct (step_frame op r) as (F1 & F2 & F3 & F4). unfold followers_ok. rewrite F1, F3, F4.
    destruct op as [l|e now|b e f now|b now|w now|now|now|reason|a];
      try (destruct (examined _ r) as [r1|] eqn:E; [|done]; split; [|done]; split; [by eapply examined_wf|];
           intros b' f' [f'' Hb]%(examined_followers _ _ _ _ _ E); by eapply Hf).
    split; [|done]. cbn [SetAssignment with_followers pr_followers].
    set (kept := List.filter _ _). assert (Hk : om_wf kept) by (by apply om_filter_wf).
    destruct (add_followers_spec (pr_self r) (pa_replicas a) kept Hk) as [H1 H2]. split; [done|]. intros b f Hb.
    destruct (H2 b f Hb) as [H|(H3 & H4 & _)]; [|done]. apply om_find_filter in H as [_ H]; [|done]. cbn in H.
    apply negb_true_iff, orb_false_iff in H as [Hr1 Hr2]. apply negb_false_iff, bool_decide_eq_true in Hr1. lia || split; [lia|done].
Qed.

Lemma persisted_set_spec offset r :
  followers_ok r → pr_self r ∈ pa_replicas (pr_assignment r) →
  NoDup (persisted_set offset r) ∧ (∀ b, b ∈ persisted_set offset r → b ∈ pa_replicas (pr_assignment r)).
Proof.
  intros [Hwf Hf] Hs. unfold persisted_set. set (fs := List.filter _ _).
  assert (Hfs : om_wf fs) by (by apply om_filter_wf).
  assert (Hin : ∀ b, b ∈ map fst fs → b ≠ pr_self r ∧ b ∈ pa_replicas (pr_assignment r)).
  { intros b ([b' f] & -> & Hb)%list_elem_of_fmap. apply om_find_elem in Hb; [|done].
    apply om_find_filter in Hb as [Hb _]; [|done]. by eapply Hf. }
  split.
  - apply NoDup_app. split_and!; [|intros b Hb Hb'; apply Hin in Hb' as [Hne _]|by apply om_keys_NoDup].
    + destruct (_ <? _); [apply NoDup_singleton|constructor].
    + destruct (_ <? _); [|by apply elem_of_nil in Hb]. apply list_elem_of_singleton in Hb. done.
  - intros b [Hb|Hb]%elem_of_app; [|by apply Hin]. destruct (_ <? _); [|by apply elem_of_nil in Hb].
    apply list_elem_of_singleton in Hb. by subst.
Qed.

Lemma persisted_member offset r b :
  followers_ok r → b ∈ persisted_set offset r →
  (b = pr_self r ∧ offset < rl_flushed (pr_log r)) ∨
  ∃ f, om_find b (pr_followers r) = Some f ∧ offset < fs_flushed f.
Proof.
  intros [Hwf _] [Hb|Hb]%elem_of_app.
  - left. destruct (Z.ltb_spec offset (rl_flushed (pr_log r))); [|by apply elem_of_nil in Hb].
    by apply list_elem_of_singleton in Hb.
  - right. apply list_elem_of_fmap in Hb as ([b' f] & -> & Hb). apply om_find_elem in Hb; [|by apply om_filter_wf].
    apply om_find_filter in Hb as [Hb Hp]; [|done]. exists f. split; [done|]. apply andb_true_iff in Hp as [_ Hp]. by apply Z.ltb_lt.
Qed.

Lemma majority_survives (reps S lost : list Z) :
  NoDup S → (∀ b, b ∈ S → b ∈ reps) → zlen reps / 2 + 1 ≤ zlen S → 2 * zlen lost < zlen reps →
  ∃ b, b ∈ S ∧ b ∉ lost.
Proof.
  intros Hn Hin Hq Hl. destruct (decide (Exists (λ b, b ∉ lost) S)) as [H|H].
  - apply Exists_exists in H as (b & Hb & Hb'). eauto.
  - exfalso. assert (S ⊆+ lost) as Hsub.
    { apply NoDup_submseteq; [done|]. intros b Hb. destruct (decide (b ∈ lost)) as [|Hb']; [done|].
      exfalso. apply H. apply Exists_exists. eauto. }
    apply submseteq_length in Hsub. unfold zlen in *.
    pose proof (Z.div_mod (Z.of_nat (length reps)) 2 ltac:(lia)).
    pose proof (Z.mod_pos_bound (Z.of_nat (length reps)) 2 ltac:(lia)). lia.
Qed.

(** *** The mark of a step *)

Lemma step_hwm op r :
  pr_hwm (replica_step nanos op r).1 =
  match op with
  | RAdd _ _ => pr_hwm r
  | _ => match examined op r with
         | Some r1 => if is_leader r then Z.max (pr_hwm r) (hwm_target r1) else pr_hwm r
         | None => pr_hwm r
         end
  end.
Proof.
  destruct op as [l|e now|b e f now|b now|w now|now|now|reason|a]; cbn [examined replica_step]; try done.
  - apply settle_hwm.
  - unfold OnFollowerProgress. destruct (om_find b (pr_followers r)) as [s|]; [|done]. rewrite recompute_spec.
    set (r2 := with_followers _ r). set (r1 := with_hwm _ r2). pose proof (extract_hwm nanos r1) as Hh.
    by destruct (ExtractSatisfiedLocked nanos r1).
  - unfold MarkFollowerOutOfSync. destruct (om_find b (pr_followers r)) as [s|]; [|done].
    destruct (fs_in_sync s); [|done]. apply (settle_hwm nanos (with_followers _ r)).
  - unfold AddWaiter. set (r2 := publish_waiters _ r). pose proof (extract_hwm nanos r2) as Hh.
    by destruct (ExtractSatisfiedLocked nanos r2).
  - unfold CompleteSatisfiedWaiters. pose proof (settle_hwm nanos r) as H. by destruct (settle nanos r).
Qed.

Lemma examined_log op r r1 : examined op r = Some r1 → pr_log r1 = pr_log r.
Proof. destruct op; cbn; intros E; repeat case_match; by simplify_eq. Qed.
Definition op_is_add (op : ReplicaOp L) : bool := match op with RAdd _ _ => true | _ => false end.
Lemma hwm_target_le r : hwm_target r ≤ rl_end (pr_log r).
Proof. apply min_in_sync_le. Qed.

Lemma reachable_hwm r : replica_reachable r → pr_hwm r ≤ rl_end (pr_log r).
Proof.
  induction 1 as [tp a self l Hs Hl|r op Hr IH Hop].
  - cbn. by destruct (_ && _).
  - destruct (step_frame op r) as (_ & Hlog & _). rewrite step_hwm, Hlog.
    destruct op; cbn [legal] in Hop; try (cbn; lia);
      (destruct (examined _ r) as [r1|] eqn:E; [|done]; destruct (is_leader r); [|done];
       pose proof (hwm_target_le r1); rewrite (examined_log _ _ _ E) in *; lia).
Qed.
End ReplicaSafety.

(** What the answers of a step say, and who is left waiting. *)
Definition answers_ok {L} `{!ReplicaLog L} (r : PartitionReplica L) (op : ReplicaOp L) (out : PartitionReplica L * list Completion) : Prop :=
  let '(r', answers) := out in
  (∀ c, c ∈ answers → co_status c = kOk →
    co_watermark c = pr_hwm r' ∧
    ∃ w, w ∈ pr_waiters r ++ added op ∧ dw_callback w = co_callback c ∧
      match dw_mode w with
      | kNone => True
      | kLeader => dw_required w < rl_end (pr_log r')
      | kQuorum => let S := persisted_set (dw_required w) r' in
          NoDup S ∧ (∀ b, b ∈ S → b ∈ pa_replicas (pr_assignment r')) ∧ QuorumSize (pr_assignment r') ≤ zlen S ∧
          ∀ lost, 2 * zlen lost < zlen (pa_replicas (pr_assignment r')) → ∃ b, b ∈ S ∧ b ∉ lost
      end) ∧
  (is_Some (examined op r) → ∀ w, w ∈ pr_waiters r' → ¬ acknowledgeable r' w).

Lemma step_answers_ok {L} `{!ReplicaLog L} (nanos : DurabilityWaiter → Z) (r : PartitionReplica L) (op : ReplicaOp L) :
  replica_reachable nanos r → legal op r → answers_ok r op (replica_step nanos op r).
Proof.
  intros Hr Hop. unfold answers_ok. pose proof (reachable_followers nanos _ (rr_step nanos r op Hr Hop)) as [Hf Hs].
  destruct (examined op r) as [r1|] eqn:E.
  - pose proof (step_settled nanos op r r1 E) as HS. pose proof HS as [S1 S2 S3 S4 S5 S6 S7 S8].
    destruct (replica_step nanos op r) as [r' answers]. cbn [fst snd] in *. split.
    + intros c Hc _. pose proof (proj1 (Forall_forall _ _) S3 c Hc) as [_ Hw]. split; [done|].
      assert (Hcb : co_callback c ∈ map co_callback answers) by (apply list_elem_of_fmap; eauto).
      rewrite S2 in Hcb. apply list_elem_of_fmap in Hcb as (w & Hcb & Hin). apply list_elem_of_In, List.filter_In in Hin as [Hin Hsat].
      exists w. split; [by apply list_elem_of_In|]. split; [done|].
      apply satisfied_acknowledgeable in Hsat. rewrite <- (acknowledgeable_frame r1 r' w S5 S6 S7 S8) in Hsat.
      unfold acknowledgeable in Hsat. destruct (dw_mode w); [done|done|]. cbv zeta.
      destruct (persisted_set_spec (dw_required w) r' Hf Hs) as [Hn Hsub]. split_and!; [done|done|done|].
      intros lost Hl. by eapply majority_survives.
    + intros _. exact (settled_none_left nanos r1 _ (r', answers) HS).
  - assert (Hno : ∀ c, c ∈ (replica_step nanos op r).2 → co_status c ≠ kOk).
    { destruct op as [l|e now|b e f now|b now|w now|now|now|reason|a]; cbn [examined replica_step legal] in *; try done.
      - intros c Hc. by apply elem_of_nil in Hc.
      - unfold OnFollowerProgress. destruct (om_find b (pr_followers r)); [done|]. intros c Hc. by apply elem_of_nil in Hc.
      - unfold MarkFollowerOutOfSync. destruct (om_find b (pr_followers r)) as [s|]; [destruct (fs_in_sync s); [done|]|];
          intros c Hc; by apply elem_of_nil in Hc.
      - unfold ExpireWaiters. cbn [fst snd]. intros c Hc. pose proof (proj1 (Forall_forall _ _) (complete_status _ _ _) c Hc) as [-> _]. done.
      - unfold FailAllWaiters. cbn [fst snd]. intros c Hc. pose proof (proj1 (Forall_forall _ _) (complete_status _ _ _) c Hc) as [-> _]. done.
      - intros c Hc. by apply elem_of_nil in Hc. }
    destruct (replica_step nanos op r) as [r' answers]. split; [intros c Hc Hk; by destruct (Hno c Hc)|]. by intros [? [=]].
Qed.

(** C14. What an OK answer means.  In every reachable state and for every method, a
    request is answered OK only when its condition holds at that moment (nothing for
    acks=none, the record being in the leader's log for acks=leader, and for
    acks=quorum a majority of the replica set, each counted once, with a persisted
    position past the record, so that after the loss of any minority of the replicas
    some holder of the record remains), and after any method that looks at the
    waiters no request whose condition holds is left waiting. *)
Theorem replica_ack_meaning {L} `{!ReplicaLog L} (nanos : DurabilityWaiter → Z) (r : PartitionReplica L) (op : ReplicaOp L) :
  replica_reachable nanos r → legal op r →
  let '(r', answers) := replica_step nanos op r in
  (∀ c, c ∈ answers → co_status c = kOk →
    co_watermark c = pr_hwm r' ∧
    ∃ w, w ∈ pr_waiters r ++ added op ∧ dw_callback w = co_callback c ∧
      match dw_mode w with
      | kNone => True
      | kLeader => dw_required w < rl_end (pr_log r')
      | kQuorum => let S := persisted_set (dw_required w) r' in
          NoDup S ∧ (∀ b, b ∈ S → b ∈ pa_replicas (pr_assignment r')) ∧ QuorumSize (pr_assignment r') ≤ zlen S ∧
          ∀ lost, 2 * zlen lost < zlen (pa_replicas (pr_assignment r')) → ∃ b, b ∈ S ∧ b ∉ lost
      end) ∧
  (is_Some (examined op r) → ∀ w, w ∈ pr_waiters r' → ¬ acknowledgeable r' w).
Proof. apply step_answers_ok. Qed.

(** C17. The high-water mark.  It never moves backwards and never passes the end of the
    log; it rises only on the leader, only when a method recomputes it, and never past
    what any in-sync follower has reported; and right after a method of the leader that
    recomputes it, it has reached every offset that the log and all in-sync followers
    cover.  It may lag behind that at other times: after a change of the assignment, until
    the next such method, and on a replica that does not lead. *)
Theorem replica_watermark {L} `{!ReplicaLog L} (nanos : DurabilityWaiter → Z) (r : PartitionReplica L) (op : ReplicaOp L) :
  replica_reachable nanos r → legal op r →
  let r' := (replica_step nanos op r).1 in
  pr_hwm r ≤ pr_hwm r' ≤ rl_end (pr_log r') ∧
  (pr_hwm r < pr_hwm r' → is_leader r = true ∧ is_Some (examined op r) ∧
    ∀ b f, om_find b (pr_followers r') = Some f → fs_in_sync f = true → pr_hwm r' ≤ fs_log_end f) ∧
  (is_leader r = true → is_Some (examined op r) → added op = [] →
    ∀ x, x ≤ rl_end (pr_log r') →
      (∀ b f, om_find b (pr_followers r') = Some f → fs_in_sync f = true → x ≤ fs_log_end f) → x ≤ pr_hwm r').
Proof.
  intros Hr Hop r'. assert (Hr' : replica_reachable nanos r') by (by constructor).
  pose proof (reachable_hwm nanos r' Hr') as Hend. destruct (reachable_followers nanos r' Hr') as [[Hwf _] _].
  destruct (step_frame nanos op r) as (F1 & F2 & F3 & F4). pose proof (step_hwm nanos op r) as Hh. fold r' in F1, F2, F3, F4, Hh.
  destruct (examined op r) as [r1|] eqn:E.
  - assert (Hf1 : pr_followers r' = pr_followers r1) by (rewrite F4; by destruct op).
    assert (Hl1 : pr_log r1 = pr_log r') by (rewrite (examined_log _ _ _ E), F2; by destruct op).
    assert (Hcase : op_is_add op = true ∧ pr_hwm r' = pr_hwm r ∨ op_is_add op = false ∧ pr_hwm r' = if is_leader r then Z.max (pr_hwm r) (hwm_target r1) else pr_hwm r)
      by (rewrite Hh; destruct op; cbn; auto).
    split_and!; [destruct Hcase as [[_ ->]|[_ ->]]; [lia|destruct (is_leader r); lia]|done| |].
    + intros Hlt. destruct Hcase as [[_ HE]|[_ HE]]; [lia|]. destruct (is_leader r); [|lia].
      split_and!; [done|by eexists|]. intros b f Hb Hs. apply om_find_elem in Hb; [|done]. rewrite Hf1 in Hb.
      pose proof (min_in_sync_member (rl_end (pr_log r1)) _ _ _ Hb Hs). unfold hwm_target in HE. lia.
    + intros Hld _ Hadd x Hx Hall. destruct Hcase as [[Ha _]|[_ HE]]; [by destruct op|]. rewrite Hld in HE.
      enough (x ≤ hwm_target r1) by lia. apply min_in_sync_glb; [by rewrite Hl1|]. intros b f Hb. rewrite <- Hf1 in Hb.
      apply om_find_elem in Hb; [|done]. by apply (Hall b).
  - assert (Hsame : pr_hwm r' = pr_hwm r) by (rewrite Hh; by destruct op). rewrite Hsame in *.
    split_and!; [lia|done|lia|]. by intros _ [? [=]].
Qed.

(** ** A partition with three replicas *)

Definition three_replicas : PartitionAssignment := mkAssignment 0 1 0 [1; 2; 3] [1; 2; 3].
Definition empty_log : PartitionLog := example_log sync_options.
Definition synced_log : PartitionLog := append_at 0 (example_log sync_options).
Definition zero_nanos (_ : DurabilityWaiter) : Z := 7.
Definition leader_replica : PartitionReplica PartitionLog := new_replica (mkTP (str "t") 0) three_replicas 1 empty_log.
Definition quorum_waiter : DurabilityWaiter := mkWaiter 0 kQuorum 50 11 0 0.
(** The record is in the leader's log and flushed there; its request waits. *)
Definition waiting_replica : PartitionReplica PartitionLog :=
  (replica_step zero_nanos (RAdd quorum_waiter 1) (replica_step zero_nanos (RLog synced_log) leader_replica).1).1.

Lemma waiting_reachable : replica_reachable zero_nanos waiting_replica.
Proof.
  apply (rr_step zero_nanos (replica_step zero_nanos (RLog synced_log) leader_replica).1 (RAdd quorum_waiter 1)); [|exact I].
  apply (rr_step zero_nanos leader_replica (RLog synced_log)); [|vm_compute; split; discriminate].
  apply rr_new; [apply list_elem_of_here|vm_compute; discriminate].
Qed.

Lemma replica_answered_witness :
  length (List.filter (λ c, co_callback c =? 11)
    (replica_run zero_nanos ([] ++ RAdd quorum_waiter 1 :: [RLog synced_log] ++ [RExpire 60]) leader_replica).2) = 1%nat.
Proof.
  apply (replica_answered zero_nanos (mkTP (str "t") 0) three_replicas 1 empty_log [] [RLog synced_log] quorum_waiter 1 60).
  - apply (bool_decide_unpack _). vm_compute. exact I.
  - vm_compute. discriminate.
Defined.

(** The first follower to report makes a majority of two out of three. *)
Lemma replica_ack_meaning_witness :
  pr_waiters waiting_replica ≠ [] ∧
  ∃ c, c ∈ (replica_step zero_nanos (RFollower 2 1 1 5) waiting_replica).2 ∧ co_status c = kOk ∧ co_callback c = 11 ∧
    ∃ w, w ∈ pr_waiters waiting_replica ++ [] ∧ dw_callback w = 11.
Proof.
  split; [vm_compute; discriminate|].
  pose proof (replica_ack_meaning zero_nanos waiting_replica (RFollower 2 1 1 5) waiting_reachable I) as H.
  assert (E : map (λ c, (co_status c, co_callback c)) (replica_step zero_nanos (RFollower 2 1 1 5) waiting_replica).2 = [(kOk, 11)])
    by (vm_compute; reflexivity).
  destruct (replica_step zero_nanos (RFollower 2 1 1 5) waiting_replica) as [r' [|c cs]]; [discriminate|].
  cbn [map snd] in E. injection E as Es Ec _. destruct H as [H _].
  destruct (H c (list_elem_of_here _ _) Es) as (_ & w & Hw & Hcb & _).
  exists c. split; [apply list_elem_of_here|]. split; [exact Es|]. split; [exact Ec|]. exists w. split; [exact Hw|congruence].
Defined.

Lemma replica_watermark_witness :
  pr_hwm waiting_replica ≤ pr_hwm (replica_step zero_nanos (ROutOfSync 3 5) waiting_replica).1.
Proof.
  pose proof (replica_watermark zero_nanos waiting_replica (ROutOfSync 3 5) waiting_reachable I) as H.
  cbv zeta in H. exact (proj1 (proj1 H)).
Defined.

(** A follower that fell out of the in-sync set rejoins it with its next report,
    however far behind it is: the mark is then above an in-sync replica's log end,
    although the header of the class calls it the smallest of them. *)
Example rejoining_follower_below_mark :
  let r := (replica_run zero_nanos [ROutOfSync 2 5; ROutOfSync 3 5; RFollower 2 0 0 6] waiting_replica).1 in
  ∃ f, om_find 2 (pr_followers r) = Some f ∧ fs_in_sync f = true ∧ fs_log_end f < pr_hwm r.
Proof. eexists. split; [vm_compute; reflexivity|]. split; reflexivity. Qed.

(** [PersistedReplicaCount] counts a replica whose persisted position, exclusive, is
    the offset itself: it reports one replica for a record nobody has flushed. *)
Example PersistedReplicaCount_off_by_one :
  rl_flushed (pr_log waiting_replica) = 1 ∧ PersistedReplicaCount 1 waiting_replica = 1 ∧
  persisted_set 1 waiting_replica = [].
Proof. vm_compute. auto. Qed.
