(* ===== verification/Replication.v ===== *)
(** * Replication: the leader's sender and the follower's handler

    Models, for one partition, Replicator::Sender::SendPending of
    src/replication/replicator.cc (what a round sends to one peer and what it makes
    of the answer) and Broker::ExecuteReplicate of src/broker/request_handler.cc
    (what the follower does with it).  The two only meet through the encoded payloads
    the transport carries; [Call] is that transport, a parameter that may also fail
    before or after the follower has acted.  Error texts are left empty. *)
From S2P Require Import Prelude Status Buffer Types OrdMap Codec MessageCodec MessagesData MessagesControl MessagesGroup ClusterMetadata PartitionLog Replica.

Abbreviation Node := (PartitionReplica PartitionLog).

Record ReplicatorOptions := mkReplicatorOptions { ro_self : Z; ro_max_bytes : Z }.

(** ** The leader's side *)

(** The loop over [replica->Followers()]. *)
Definition follower_position (peer : Z) (r : Node) : Z * Z :=
  match List.find (λ f, fs_broker f =? peer) (Followers r) with
  | Some f => (fs_log_end f, fs_flushed f)
  | None => (0, 0)
  end.

Definition replicate_request (o : ReplicatorOptions) (r : Node) (base_offset log_start record_count : Z) (records : bytes)
    : ReplicateRequest :=
  mkReplicateRequest (topic (pr_topic_partition r)) (partition (pr_topic_partition r)) (ro_self o)
    (pa_leader_epoch (pr_assignment r)) base_offset (base_offset - 1) (pr_hwm r) log_start record_count records.

(** What the round sends to [peer] for this partition, if anything: nothing to a peer
    that is caught up and durable, a probe to one that is only caught up, else the
    records from its position on. *)
Definition prepare (o : ReplicatorOptions) (peer : Z) (records : ByteBuffer) (r : Node) : option ReplicateRequest * Node :=
  if negb (is_leader r) then (None, r)
  else if negb (HasReplica peer (pr_assignment r)) then (None, r)
  else
    let '(follower_offset, follower_flushed) := follower_position peer r in
    let log_start := log_start_offset (pr_log r) in
    let log_end := log_end_offset (pr_log r) in
    let follower_offset := if follower_offset <? log_start then log_start else follower_offset in
    let caught_up := log_end <=? follower_offset in
    let follower_durable := log_end <=? follower_flushed in
    if caught_up && follower_durable then (None, r)
    else if caught_up then (Some (replicate_request o r follower_offset log_start 0 []), r)
    else
      let '(res, (l, buf)) := Log_Read follower_offset (ro_max_bytes o) (pr_log r, Clear records) in
      let r := with_log l r in
      match res with
      | Err _ => (None, r)
      | Ok read =>
          if lr_record_count read =? 0 then (None, r)
          else (Some (replicate_request o r (lr_base read) log_start (lr_record_count read) (Readable buf)), r)
      end.

(** What the round does with the peer's answer. *)
Definition handle_response (nanos : DurabilityWaiter → Z) (peer now_ms : Z) (payload : bytes) (r : Node)
    : Result unit * Node * list Completion :=
  match (ReplicateResponse_Decode (newReader payload)).1 with
  | None => (Err kProtocolError, r, [])
  | Some response =>
      let progress := (OnFollowerProgress nanos peer (rresp_log_end_offset response) (rresp_flushed_offset response) now_ms r).1 in
      let e := error (rresp_header response) in
      if bool_decide (e = kOk) then (Ok tt, progress.1, progress.2)
      else if bool_decide (e = kOutOfRange) then (Ok tt, progress.1, progress.2)
      else (Ok tt, r, [])
  end.

Section Round.
(** [client_.Call(kReplicate, id, payload)] against a peer with state [F]. *)
Context {F : Type} (Call : bytes → SR F bytes).

(** One partition of [SendPending]: the status it may return early with, the
    leader's replica, the acknowledgements it releases, and the peer afterwards. *)
Definition send_partition (o : ReplicatorOptions) (nanos : DurabilityWaiter → Z) (peer now_ms : Z)
    (records scratch : ByteBuffer) (r : Node) (peer_state : F) : Result unit * Node * list Completion * F :=
  match prepare o peer records r with
  | (None, r) => (Ok tt, r, [], peer_state)
  | (Some request, r) =>
      let payload := Readable (ReplicateRequest_Encode request (Clear scratch)) in
      match Call payload peer_state with
      | (Err e, peer_state) => (Err e, r, [], peer_state)
      | (Ok response, peer_state) => (handle_response nanos peer now_ms response r, peer_state)
      end
  end.
End Round.

(** ** The follower's side *)

Definition reply (response : ReplicateResponse) : bytes := Readable (ReplicateResponse_Encode response emptyBuffer).
Definition error_header (e : ErrorCode) : ResponseHeader := mkResponseHeader e [].

(** [ExecuteReplicate] once the partition has been found (or opened); [e] is what the
    system does during the append. *)
Definition replicate_to (broker_id : Z) (e : LogEnv) (nanos : DurabilityWaiter → Z) (now_ms : Z)
    (m : ReplicateRequest) (r : Node) : ReplicateResponse * Node * list Completion :=
  let log_end := log_end_offset (pr_log r) in
  let epoch := pa_leader_epoch (pr_assignment r) in
  let answer := λ err log_end flushed, mkReplicateResponse (error_header err) broker_id log_end flushed epoch in
  if rreq_leader_epoch m <? epoch then (answer kNotLeader log_end (flushed_offset (pr_log r)), r, [])
  else if (rreq_record_count m =? 0) && (rreq_base_offset m =? log_end) then
    let '(r', done) := OnLeaderAppend nanos (Z.min (rreq_leader_high_water_mark m) log_end) now_ms r in
    (answer kOk log_end (flushed_offset (pr_log r)), r', done)
  else if negb (rreq_base_offset m =? log_end) then (answer kOutOfRange log_end (flushed_offset (pr_log r)), r, [])
  else
    let '(appended, l) := AppendWithOffsets e (rreq_records m) (rreq_record_count m) (pr_log r) in
    let r := with_log l r in
    match appended with
    | Err err => (answer err (log_end_offset l) (flushed_offset l), r, [])
    | Ok _ =>
        let '(r', done) := OnLeaderAppend nanos (Z.min (rreq_leader_high_water_mark m) (log_end_offset l)) now_ms r in
        (answer kOk (log_end_offset l) (flushed_offset l), r', done)
    end.

(** The whole handler, given what [Find] and [OpenPartition] yielded: the payload of
    the response frame, or [None] for the bare error response to a payload that does
    not decode. *)
Definition ExecuteReplicate (broker_id : Z) (e : LogEnv) (nanos : DurabilityWaiter → Z) (now_ms : Z)
    (payload : bytes) (hosted : option Node) : option bytes * option Node * list Completion :=
  match (ReplicateRequest_Decode (newReader payload)).1 with
  | None => (None, hosted, [])
  | Some m =>
      match hosted with
      | None => (Some (reply (mkReplicateResponse (error_header kNotFound) broker_id 0 kInvalidOffset 0)), None, [])
      | Some r =>
          let '(response, r, done) := replicate_to broker_id e nanos now_ms m r in (Some (reply response), Some r, done)
      end
  end.
