(* ===== verification/ReplicationTheorems.v ===== *)
(** * ReplicationTheorems: what a cluster promises about one partition

    A leader, its followers and the network between them, as a step relation whose
    steps run the code: produces, flushes and retention on the logs, the methods of
    the leader's replica, replication rounds in their three parts (the leader prepares and
    sends a request, the follower handles it, the leader handles the answer), between which
    anything else may happen, over a network that loses and delays requests and answers, and
    restarts of a follower, after which its log is what recovery finds.  Follower logs are
    copies of the leader's, the leader never believes a follower to have flushed more than it
    has, and a quorum acknowledgement means that the record is on the disks of a majority. *)
From S2P Require Import Prelude Status Endian Crc32c Buffer Types Codec MessageCodec MessagesData MessagesControl MessagesGroup Messages Frame Record FileUtil Search OffsetIndex Quiet Segment SegmentSpec Recovery SegmentOps SegmentRead SegmentTheorems OrdMap ClusterMetadata PartitionLog PartitionLogSpec PartitionLogRoll PartitionLogBatch PartitionLogAppend PartitionLogRead PartitionLogTruncate PartitionLogOpen PartitionLogTheorems PartitionLogCrash Replica ReplicaTheorems Replication.

(** ** Logs that grow *)

(** The record a log holds at an offset. *)
Definition rec_at (l : PartitionLog) (rss : list Run) (offset : Z) : option bytes :=
  if offset <? log_start_offset l then None
  else map fst (concat rss) !! Z.to_nat (offset - log_start_offset l).

(** [l'] holds what [l] held, but for records dropped at the front and added at the
    end, and has flushed at least as much. *)
Definition log_extends (l : PartitionLog) (rss : list Run) (l' : PartitionLog) (rss' : list Run) : Prop :=
  log_inv l' rss' ∧ log_start_offset l ≤ log_start_offset l' ∧ log_end_offset l ≤ log_end_offset l' ∧
  flushed_offset l ≤ flushed_offset l' ∧
  ∀ o, log_start_offset l' ≤ o < log_end_offset l → rec_at l' rss' o = rec_at l rss o.

Lemma log_extends_refl l rss : log_inv l rss → log_extends l rss l rss.
Proof. intros H. unfold log_extends. split_and!; done || lia. Qed.

Lemma log_end_concat l rss : log_inv l rss → log_end_offset l = log_start_offset l + zlen (concat rss).
Proof. apply li_end. Qed.

(** The same records in the same place. *)
Lemma log_extends_same l rss l' rss' :
  log_inv l rss → log_inv l' rss' → log_start_offset l' = log_start_offset l → concat rss' = concat rss →
  flushed_offset l ≤ flushed_offset l' → log_extends l rss l' rss'.
Proof.
  intros Hi Hi' Hs Hc Hf. split; [done|]. rewrite (log_end_concat _ _ Hi), (log_end_concat _ _ Hi'), Hs, Hc.
  split_and!; [lia|lia|lia|]. intros o _. unfold rec_at. by rewrite Hs, Hc.
Qed.
(** New records at the end. *)
Lemma log_extends_app l rss l' rss' new :
  log_inv l rss → log_inv l' rss' → log_start_offset l' = log_start_offset l → concat rss' = concat rss ++ new →
  flushed_offset l ≤ flushed_offset l' → log_extends l rss l' rss'.
Proof.
  intros Hi Hi' Hs Hc Hf. pose proof (zlen_nonneg new). split; [done|].
  rewrite (log_end_concat _ _ Hi), (log_end_concat _ _ Hi'), Hs, Hc, zlen_app.
  split_and!; [lia|lia|lia|]. intros o Ho. unfold rec_at. rewrite Hs, Hc, map_app.
  destruct (o <? log_start_offset l); [done|]. apply lookup_app_l. rewrite length_map. unfold zlen in *. lia.
Qed.

Lemma grown_extends {A} l l' rss new (r : Result A) :
  log_inv l rss → grown l l' rss new r →
  ∃ rss', log_extends l rss l' rss' ∧ (concat rss' = concat rss ∨ concat rss' = concat rss ++ new) ∧
    log_start_offset l' = log_start_offset l ∧ (is_ok r = true → concat rss' = concat rss ++ new).
Proof.
  intros Hi (G1 & G2 & rss' & Hi' & G). exists rss'. pose proof (li_flushed _ _ Hi) as Hfl.
  assert (Hend : ∀ n, concat rss' = concat rss ++ n → log_end_offset l ≤ log_end_offset l').
  { intros n Hn. rewrite (log_end_concat _ _ Hi), (log_end_concat _ _ Hi'), G1, Hn, zlen_app. pose proof (zlen_nonneg n). lia. }
  destruct r as [a|e].
  - destruct G as [Hc Hacc]. split_and!; [|by right|done|done]. apply (log_extends_app _ _ _ _ new); try done.
    unfold accounted in Hacc. specialize (Hend _ Hc). destruct (sync_on_append _); lia.
  - destruct G as [[Hc Hf]|(_ & Hc & Hf)].
    + split_and!; [|by left|done|done]. apply log_extends_same; try done. lia.
    + split_and!; [|by right|done|done]. by apply (log_extends_app _ _ _ _ new).
Qed.

Lemma flush_extends e l rss : log_inv l rss → log_extends l rss (Flush e l).2 rss.
Proof.
  intros Hi. destruct (Flush_spec e l rss Hi) as [Hi' F]. apply log_extends_same; try done; [apply F|].
  destruct F as (_ & _ & _ & _ & F). pose proof (li_flushed _ _ Hi). destruct (Flush e l).1; destruct F as [F F']; lia.
Qed.
Lemma read_extends l l' rss : log_inv l rss → only_read l l' rss → log_extends l rss l' rss.
Proof.
  intros Hi (Hi' & (M1 & M2 & M3 & _) & _). apply log_extends_same; try done. lia.
Qed.
Lemma retained_extends o now l l' rss :
  log_inv l rss → retained o now l l' rss → ∃ rss', log_extends l rss l' rss'.
Proof.
  intros Hi (Hi' & Hs & He & Hf & _). set (d := expired_count o now (segments l)) in *. exists (drop d rss).
  assert (HC : concat rss = concat (take d rss) ++ concat (drop d rss)) by (rewrite <- concat_app; by rewrite take_drop).
  pose proof (zlen_nonneg (concat (take d rss))).
  split; [done|]. rewrite He, Hf, Hs. split_and!; [lia|lia|lia|]. intros x Hx. unfold rec_at. rewrite Hs.
  destruct (Z.ltb_spec x (log_start_offset l + zlen (concat (take d rss)))); [lia|].
  destruct (Z.ltb_spec x (log_start_offset l)); [lia|]. rewrite HC, map_app.
  rewrite lookup_app_r by (rewrite length_map; unfold zlen in *; lia). rewrite length_map. f_equal. unfold zlen in *. lia.
Qed.

Lemma EnforceRetention_extends del now n l l' rss :
  log_inv l rss → EnforceRetention del now l = (Ok n, l') →
  ∃ rss', log_extends l rss l' rss' ∧ log_end_offset l' = log_end_offset l.
Proof.
  intros Hi. unfold EnforceRetention, sbind, sget.
  destruct (_ && _); [intros [= _ <-]; exists rss; split; [by apply log_extends_refl|done]|].
  pose proof (retention_loop_spec (length (segments l)) del now 0 l rss Hi ltac:(lia)) as HR.
  intros HE. rewrite HE in HR. destruct HR as [HR _]. destruct (retained_extends _ _ _ _ _ Hi HR) as (rss' & H).
  exists rss'. split; [done|apply HR].
Qed.
Lemma upkeep_end_flush e l rss : log_inv l rss → log_end_offset (Flush e l).2 = log_end_offset l.
Proof. intros Hi. destruct (Flush_spec e l rss Hi) as [_ (_ & H & _)]. exact H. Qed.

(** ** A follower's log is a copy *)

Definition copy_of (l : PartitionLog) (rssL : list Run) (f : PartitionLog) (rssF : list Run) : Prop :=
  log_end_offset f ≤ log_end_offset l ∧
  ∀ o, log_start_offset l ≤ o → log_start_offset f ≤ o < log_end_offset f → rec_at f rssF o = rec_at l rssL o.

Lemma copy_leader l rss l' rss' f rssF :
  log_extends l rss l' rss' → copy_of l rss f rssF → copy_of l' rss' f rssF.
Proof.
  intros (_ & Hs & He & _ & Hr) [Hle Ha]. split; [lia|]. intros o Ho Hf. rewrite Ha by lia. symmetry. apply Hr. lia.
Qed.
Lemma copy_follower l rss f rssF f' rssF' :
  log_extends f rssF f' rssF' → log_end_offset f' = log_end_offset f → copy_of l rss f rssF → copy_of l rss f' rssF'.
Proof.
  intros (_ & Hs & He & _ & Hr) HE [Hle Ha]. split; [lia|]. intros o Ho Hf. rewrite Hr by lia. apply Ha; lia.
Qed.

(** A batch of the leader's log, from some offset on; the log may have dropped the first of
    the records since. *)
Definition batch_of (l : PartitionLog) (rss : list Run) (m : ReplicateRequest) : Prop :=
  rreq_record_count m = 0 ∨
  ∃ rs, run_ok true rs ∧ consecutive (rreq_base_offset m) rs ∧ rreq_records m = run_bytes rs ∧
    rreq_base_offset m + zlen rs ≤ log_end_offset l ∧
    ∀ j r, rs !! j = Some r → log_start_offset l ≤ rreq_base_offset m + Z.of_nat j → rec_at l rss (rreq_base_offset m + Z.of_nat j) = Some r.1.
Lemma batch_of_extends l rss l' rss' m : log_extends l rss l' rss' → batch_of l rss m → batch_of l' rss' m.
Proof.
  intros (_ & Hs & He & _ & Hr) [H|(rs & H1 & H2 & H3 & H4 & H5)]; [by left|right]. exists rs. split_and!; try done; [lia|].
  intros j r Hj Ho. pose proof (lookup_lt_Some _ _ _ Hj). rewrite Hr by (unfold zlen in *; lia). apply H5; [done|lia].
Qed.

(** Appending to the follower the leader's records from its end on. *)
Lemma copy_append l rss f rssF f' rssF' m (rs new : Run) :
  log_inv f rssF → log_inv f' rssF' → log_start_offset f' = log_start_offset f → rreq_base_offset m = log_end_offset f →
  rreq_base_offset m + zlen rs ≤ log_end_offset l →
  (∀ j r, rs !! j = Some r → log_start_offset l ≤ rreq_base_offset m + Z.of_nat j → rec_at l rss (rreq_base_offset m + Z.of_nat j) = Some r.1) →
  map fst new = map fst rs → concat rssF' = concat rssF ++ new → copy_of l rss f rssF → copy_of l rss f' rssF'.
Proof.
  intros Hf Hf' Hs Hb Hend Hrec Hnew Hc [Hle Ha]. rewrite Hb in *.
  pose proof (log_end_concat _ _ Hf) as EF. pose proof (log_end_concat _ _ Hf') as EF'.
  rewrite Hs, Hc, zlen_app in EF'. pose proof (f_equal length Hnew) as HL. rewrite !length_map in HL. split; [unfold zlen in *; lia|].
  intros o Ho Hof. unfold rec_at at 1. rewrite Hs, Hc, map_app. destruct (Z.ltb_spec o (log_start_offset f)); [lia|].
  destruct (Z.lt_ge_cases o (log_end_offset f)) as [Hlt|Hge].
  - rewrite lookup_app_l by (rewrite length_map; unfold zlen in *; lia). rewrite <- Ha by lia. unfold rec_at. by destruct (Z.ltb_spec o (log_start_offset f)); [lia|].
  - rewrite lookup_app_r by (rewrite length_map; unfold zlen in *; lia). rewrite length_map, Hnew. set (j := (Z.to_nat (o - log_start_offset f) - length (concat rssF))%nat).
    assert (Hj : o = log_end_offset f + Z.of_nat j) by (unfold j, zlen in *; lia). destruct (lookup_lt_is_Some_2 rs j) as [r Hr]; [unfold zlen in *; lia|].
    rewrite list_lookup_fmap, Hr. cbn [fmap option_fmap option_map]. rewrite Hj in Ho |- *. symmetry. by apply Hrec.
Qed.

(** ** One round *)

Lemma prepare_spec o peer buf (r : Node) rss :
  log_inv (pr_log r) rss →
  let '(m, r') := prepare o peer buf r in
  (∃ l, r' = with_log l r ∧ only_read (pr_log r) l rss) ∧
  match m with
  | Some m => batch_of (pr_log r) rss m ∧ pa_leader_epoch (pr_assignment r) = rreq_leader_epoch m ∧ is_leader r = true
  | None => True
  end.
Proof.
  intros Hi. assert (Hself : ∃ l, r = with_log l r ∧ only_read (pr_log r) l rss).
  { exists (pr_log r). split; [by destruct r|]. by split; [|split; [|split]]. }
  unfold prepare. destruct (is_leader r) eqn:El; cbn [negb]; [|done]. destruct (HasReplica peer _); cbn [negb]; [|done].
  destruct (follower_position peer r) as [fo ff]. set (fo' := if fo <? _ then _ else fo).
  destruct (_ && _); [done|]. destruct (_ <=? fo'); [split; [done|]; split; [by left|done]|].
  destruct (Clear_spec buf) as [Hwf Hrd].
  pose proof (Log_Read_spec rss (pr_log r) (Clear buf) fo' (ro_max_bytes o) Hi Hwf) as [Hro HR].
  destruct (Log_Read fo' (ro_max_bytes o) (pr_log r, Clear buf)) as [res [l b]]. cbn [fst snd] in *.
  destruct res as [rr|e]; [|by split; [exists l|]]. destruct HR as (t & Hrange & _ & -> & _ & Hb). cbn [lr_record_count lr_base].
  destruct (_ =? 0); [by split; [exists l|]|]. split; [by exists l|]. split; [|done]. right. set (k := Z.to_nat (fo' - log_start_offset (pr_log r))) in *.
  exists (take t (drop k (concat rss))). destruct (chain_run _ _ _ _ (li_chain _ _ Hi)) as [Hok Hcons]. pose proof (log_end_concat _ _ Hi) as HE. cbn [rreq_base_offset rreq_records replicate_request]. split_and!.
  - by apply run_ok_take, run_ok_drop.
  - apply consecutive_take. apply (consecutive_drop _ k) in Hcons. by replace (log_start_offset (pr_log r) + Z.of_nat k) with fo' in Hcons by (unfold k; lia).
  - by rewrite Hb, Hrd.
  - unfold zlen in *. rewrite length_take, length_drop. unfold k. lia.
  - intros j x Hj Ho. apply lookup_take_Some in Hj as [Hj _]. rewrite lookup_drop in Hj. unfold rec_at. destruct (Z.ltb_spec (fo' + Z.of_nat j) (log_start_offset (pr_log r))); [lia|].
    replace (Z.to_nat (fo' + Z.of_nat j - log_start_offset (pr_log r))) with (k + j)%nat by (unfold k; lia). by rewrite list_lookup_fmap, Hj.
Qed.

(** The follower's log after a batch of the leader's. *)
Lemma replicate_to_spec b e nanos now m (n : Node) l rss rssF :
  batch_of l rss m → log_inv (pr_log n) rssF → copy_of l rss (pr_log n) rssF →
  fresh_files (env_files e) → zlen (rreq_records m) ≤ kMaxRecordBytes →
  let '(resp, n', _) := replicate_to b e nanos now m n in
  (∃ rssF', log_extends (pr_log n) rssF (pr_log n') rssF' ∧ copy_of l rss (pr_log n') rssF') ∧
  rresp_log_end_offset resp = log_end_offset (pr_log n') ∧ rresp_flushed_offset resp = flushed_offset (pr_log n').
Proof.
  intros Hb Hn Hcp Hfr Hsz. unfold replicate_to.
  assert (Hsame : ∃ rssF', log_extends (pr_log n) rssF (pr_log n) rssF' ∧ copy_of l rss (pr_log n) rssF')
    by (exists rssF; split; [by apply log_extends_refl|done]).
  destruct (_ <? _); [done|]. destruct (Z.eqb_spec (rreq_record_count m) 0) as [H0|H0]; cbn [andb].
  { destruct (Z.eqb_spec (rreq_base_offset m) (log_end_offset (pr_log n))); cbn [negb]; [|done].
    pose proof (settle_settled nanos n) as [_ _ _ _ S5 _ _ _]. unfold OnLeaderAppend.
    destruct (settle nanos n) as [n' done]. cbn in S5. cbn [rresp_log_end_offset rresp_flushed_offset]. by rewrite S5. }
  destruct (Z.eqb_spec (rreq_base_offset m) (log_end_offset (pr_log n))) as [Hbase|]; cbn [negb]; [|done].
  destruct Hb as [|(rs & Hrs & Hc & Hrec & Hend & Hat)]; [lia|]. rewrite Hbase in Hc.
  assert (Hbig : zlen (run_bytes rs) < 2 ^ 62) by (rewrite <- Hrec; unfold kMaxRecordBytes in Hsz; lia).
  destruct (AppendWithOffsets_outcome e (rreq_records m) (rreq_record_count m) (pr_log n) rssF Hn Hfr) as (new & [HG _] & Hnew);
    [rewrite Hrec; by apply run_scans|done|].
  assert (Hbatch : new = [] ∨ map fst new = map fst rs).
  { destruct (AppendWithOffsets _ _ _ _).1; [destruct Hnew as [(Hd & Hrun & _) _]|destruct Hnew as [[->|(Hd & Hrun & _)] _]; [by left|]];
      right; apply (run_cut_unique true true); congruence. }
  destruct (AppendWithOffsets e (rreq_records m) (rreq_record_count m) (pr_log n)) as [res l']. cbn [fst snd] in *.
  destruct (grown_extends _ _ _ _ _ Hn HG) as (rssF' & Hext & Hcat & Hst & _).
  assert (Hcopy : copy_of l rss l' rssF').
  { assert (Hone : concat rssF' = concat rssF → copy_of l rss l' rssF').
    { intros HE. apply (copy_follower _ _ (pr_log n) rssF); [done| |done]. destruct Hext as [Hi' _].
      by rewrite (log_end_concat _ _ Hn), (log_end_concat _ _ Hi'), Hst, HE. }
    destruct Hcat as [HE|HE]; [by apply Hone|]. destruct Hbatch as [->|Hm]; [apply Hone; by rewrite HE, app_nil_r|].
    by apply (copy_append l rss (pr_log n) rssF l' rssF' m rs new Hn (proj1 Hext) Hst Hbase Hend Hat Hm HE). }
  destruct res as [ar|err].
  - unfold OnLeaderAppend. pose proof (settle_settled nanos (with_log l' n)) as [_ _ _ _ S5 _ _ _].
    destruct (settle nanos (with_log l' n)) as [n' done]. cbn in S5. cbn [rresp_log_end_offset rresp_flushed_offset].
    rewrite S5. split; [by exists rssF'|done].
  - split; [by exists rssF'|done].
Qed.

(** ** Restarting *)

(** A broker restarts on what it finds on its disk after a crash: what its syncs had secured
    is there, recovery can read the files, and no record is found that had not been written.
    The hypotheses are those of [Log_crash_recovery]. *)
Definition restarts (l l' : PartitionLog) : Prop :=
  ∃ fuel o now_ms now stems files rss' rep,
    Forall sync_intact (segments l) ∧ Forall (survives files) (segments l) ∧ Forall (found files) (segments l) ∧
    disk_chain files (log_start_offset l) (map base_offset (segments l)) rss' ∧
    (∀ rss, log_inv l rss → map fst (concat rss') `prefix_of` map fst (concat rss)) ∧
    omap ParseBaseOffset stems ≡ₚ map base_offset (segments l) ∧ Forall (λ rs, (length rs + 1 < fuel)%nat) rss' ∧
    Log_Open fuel o now_ms (Ok tt) (Ok stems) files now = (Ok (Some rep), l').
Lemma restarts_spec l l' rss : log_inv l rss → restarts l l' →
  ∃ rss', log_inv l' rss' ∧ log_start_offset l' = log_start_offset l ∧ flushed_offset l ≤ log_end_offset l' ≤ log_end_offset l ∧
    flushed_offset l' = log_end_offset l' ∧ ∀ o, o < log_end_offset l' → rec_at l' rss' o = rec_at l rss o.
Proof.
  intros Hi (fuel & o & now_ms & now & stems & files & rss' & rep & Hin & Hsu & Hfo & Hd & Hp & Hst & Hf & HE). exists rss'.
  assert (Hne : map base_offset (segments l) ≠ []) by (pose proof (li_nonempty _ _ Hi); by destruct (segments l)).
  pose proof (Log_Open_spec fuel o now_ms now files stems _ _ _ Hst Hne Hd Hf) as HO. rewrite HE in HO. destruct HO as (O1 & O2 & O3 & _). destruct (Hp rss Hi) as [k Hk].
  pose proof (log_end_concat _ _ Hi) as EL. pose proof (log_end_concat _ _ O1) as EL'. pose proof (f_equal length Hk) as HL. rewrite length_app, !length_map in HL. pose proof (zlen_nonneg (concat rss')).
  split_and!; try done; [|unfold zlen in *; lia|].
  - destruct (Z.le_gt_cases (flushed_offset l) (log_start_offset l)) as [Hle|Hgt]; [lia|]. pose proof (li_flushed _ _ Hi). set (i := Z.to_nat (flushed_offset l - log_start_offset l - 1)).
    destruct (lookup_lt_is_Some_2 (concat rss) i) as [x Hx]; [unfold i, zlen in *; lia|]. destruct (crash_records files _ _ _ _ rss' i x (li_chain _ _ Hi) Hd Hin Hsu Hfo Hx) as (x' & Hx' & _); [unfold i; lia|].
    apply lookup_lt_Some in Hx'. unfold i, zlen in *. lia.
  - intros x Hx. unfold rec_at. rewrite O2. destruct (Z.ltb_spec x (log_start_offset l)); [done|]. rewrite Hk. symmetry. apply lookup_app_l. rewrite length_map. unfold zlen in *. lia.
Qed.

Lemma DecodePayload_decodes k bs m : DecodePayload k bs = Some m → (msg_decode (M := payload k) (newReader bs)).1 = Some m.
Proof. unfold DecodePayload. destruct (msg_decode (newReader bs)) as [[m'|] r]; [|done]. by destruct (Complete r). Qed.

(** ** The cluster *)

(** The leader, the followers, the requests and answers on their way (with the broker they are
    for or from), and the followers that have restarted, a history no step reads. *)
Record Cluster := mkCluster {
  cl_leader : Node; cl_nodes : list (Z * Node); cl_requests : list (Z * bytes); cl_answers : list (Z * bytes); cl_restarted : list Z }.
Definition with_leader (r : Node) (c : Cluster) : Cluster := mkCluster r (cl_nodes c) (cl_requests c) (cl_answers c) (cl_restarted c).
Definition with_node (b : Z) (n : Node) (c : Cluster) : Cluster := mkCluster (cl_leader c) (om_insert b n (cl_nodes c)) (cl_requests c) (cl_answers c) (cl_restarted c).

(** How a log moves without replication. *)
Inductive log_step : PartitionLog → PartitionLog → Prop :=
  | ls_produce e records cnt l :
      fresh_files (env_files e) → sane records → zlen records ≤ kMaxRecordBytes → signed 64 (env_append_now e) →
      0 ≤ log_end_offset l → log_end_offset l + zlen records < 2 ^ 63 →
      log_step l (AppendAssigningOffsets e cnt (l, records)).2.1
  | ls_upkeep l l' : upkeep l l' → log_step l l'
with upkeep : PartitionLog → PartitionLog → Prop :=
  | up_flush e l : upkeep l (Flush e l).2
  | up_retain del now n l l' : EnforceRetention del now l = (Ok n, l') → upkeep l l'.

Section Cluster.
Context (o : ReplicatorOptions) (nanos : DurabilityWaiter → Z).

(** The values of a request are within their fields, and the batch is one the follower's log
    takes in one piece; likewise those of an answer. *)
Definition request_fits (m : ReplicateRequest) : Prop := ReplicateRequest_wf m ∧ zlen (rreq_records m) ≤ kMaxRecordBytes.
Definition answer_fits (b : Z) (e : LogEnv) (now : Z) (payload : bytes) (n : Node) : Prop :=
  ∀ m, (ReplicateRequest_Decode (newReader payload)).1 = Some m → ReplicateResponse_wf (replicate_to b e nanos now m n).1.1.
(** What the sender puts on the wire. *)
Definition sent_request (b : Z) (scratch : ByteBuffer) (m : option ReplicateRequest) : list (Z * bytes) :=
  match m with Some m => [(b, Readable (ReplicateRequest_Encode m (Clear scratch)))] | None => [] end.

(** The methods other threads call on the leader's replica. *)
Definition leader_method (op : ReplicaOp PartitionLog) : Prop :=
  match op with RAppended _ _ | ROutOfSync _ _ | RAdd _ _ | RComplete _ | RExpire _ | RFail _ => True | _ => False end.

(** A request or an answer that is never taken off the network is lost.  A follower may restart
    having lost what it had not flushed; the leader only with its whole log. *)
Inductive cluster_step : Cluster → list Completion → Cluster → Prop :=
  | cs_method c op :
      leader_method op → legal op (cl_leader c) →
      cluster_step c (replica_step nanos op (cl_leader c)).2 (with_leader (replica_step nanos op (cl_leader c)).1 c)
  | cs_leader_log c l : log_step (pr_log (cl_leader c)) l → cluster_step c [] (with_leader (with_log l (cl_leader c)) c)
  | cs_node_log c b n l :
      om_find b (cl_nodes c) = Some n → upkeep (pr_log n) l → cluster_step c [] (with_node b (with_log l n) c)
  | cs_send c b buf scratch m r :
      prepare o b buf (cl_leader c) = (m, r) → (∀ m', m = Some m' → request_fits m') →
      cluster_step c [] (mkCluster r (cl_nodes c) (cl_requests c ++ sent_request b scratch m) (cl_answers c) (cl_restarted c))
  | cs_deliver c qs1 qs2 b payload n e now response n' done :
      cl_requests c = qs1 ++ (b, payload) :: qs2 → om_find b (cl_nodes c) = Some n → fresh_files (env_files e) → answer_fits b e now payload n →
      ExecuteReplicate b e nanos now payload (Some n) = (Some response, Some n', done) →
      cluster_step c [] (mkCluster (cl_leader c) (om_insert b n' (cl_nodes c)) (qs1 ++ qs2) (cl_answers c ++ [(b, response)]) (cl_restarted c))
  | cs_receive c as1 as2 b payload now st r done :
      cl_answers c = as1 ++ (b, payload) :: as2 → handle_response nanos b now payload (cl_leader c) = (st, r, done) →
      cluster_step c done (mkCluster r (cl_nodes c) (cl_requests c) (as1 ++ as2) (cl_restarted c))
  | cs_node_restart c b n l :
      om_find b (cl_nodes c) = Some n → restarts (pr_log n) l →
      cluster_step c [] (mkCluster (cl_leader c) (om_insert b (new_replica (pr_topic_partition n) (pr_assignment n) (pr_self n) l) (cl_nodes c))
                           (cl_requests c) (cl_answers c) (b :: cl_restarted c))
  | cs_leader_restart c l :
      restarts (pr_log (cl_leader c)) l → log_end_offset l = log_end_offset (pr_log (cl_leader c)) →
      cluster_step c [] (with_leader (new_replica (pr_topic_partition (cl_leader c)) (pr_assignment (cl_leader c)) (pr_self (cl_leader c)) l) c).

(** A partition starts with empty logs everywhere, or ones that already agree, nothing on its
    way, and a leader that knows nothing of its followers. *)
Definition cluster_start (c : Cluster) : Prop :=
  (∃ tp a self l, cl_leader c = new_replica tp a self l ∧ self ∈ pa_replicas a ∧ 0 ≤ log_end_offset l ∧ pa_leader a = self ∧
     (∀ b, b ∈ pa_replicas a → b ≠ self → is_Some (om_find b (cl_nodes c)))) ∧ cl_requests c = [] ∧ cl_answers c = [] ∧
  ∃ rss, log_inv (pr_log (cl_leader c)) rss ∧
    ∀ b n, om_find b (cl_nodes c) = Some n →
      ∃ rssF, log_inv (pr_log n) rssF ∧ copy_of (pr_log (cl_leader c)) rss (pr_log n) rssF ∧
        0 ≤ log_end_offset (pr_log n) ∧ 0 ≤ flushed_offset (pr_log n).
Inductive cluster_reachable : Cluster → Prop :=
  | cr_start c : cluster_start c → cluster_reachable c
  | cr_step c done c' : cluster_reachable c → cluster_step c done c' → cluster_reachable c'.

(** What a position claimed of broker [b] is behind: the flushed one always, the log end until
    the broker restarts. *)
Definition behind (c : Cluster) (b log_end flushed : Z) : Prop :=
  ∃ n, om_find b (cl_nodes c) = Some n ∧ flushed ≤ flushed_offset (pr_log n) ∧ (b ∉ cl_restarted c → log_end ≤ log_end_offset (pr_log n)).
Record cluster_inv (c : Cluster) (rss : list Run) : Prop := {
  ci_leader : replica_reachable nanos (cl_leader c);
  ci_self : pr_self (cl_leader c) ∈ pa_replicas (pr_assignment (cl_leader c)) ∧ 0 ≤ log_end_offset (pr_log (cl_leader c));
  ci_log : log_inv (pr_log (cl_leader c)) rss;
  ci_members : ∀ b, b ∈ pa_replicas (pr_assignment (cl_leader c)) → b ≠ pr_self (cl_leader c) → is_Some (om_find b (cl_nodes c));
  ci_copies : ∀ b n, om_find b (cl_nodes c) = Some n →
    0 ≤ log_end_offset (pr_log n) ∧ 0 ≤ flushed_offset (pr_log n) ∧
    ∃ rssF, log_inv (pr_log n) rssF ∧ copy_of (pr_log (cl_leader c)) rss (pr_log n) rssF;
  (* the requests on their way hold the leader's records, the answers are behind the truth, and
     so is what the leader has recorded of a follower *)
  ci_requests : ∀ b payload, (b, payload) ∈ cl_requests c →
    ∃ m, (ReplicateRequest_Decode (newReader payload)).1 = Some m ∧ zlen (rreq_records m) ≤ kMaxRecordBytes ∧ batch_of (pr_log (cl_leader c)) rss m;
  ci_answers : ∀ b payload, (b, payload) ∈ cl_answers c →
    ∃ resp, (ReplicateResponse_Decode (newReader payload)).1 = Some resp ∧ behind c b (rresp_log_end_offset resp) (rresp_flushed_offset resp);
  ci_progress : ∀ b f, om_find b (pr_followers (cl_leader c)) = Some f → behind c b (fs_log_end f) (fs_flushed f) }.

Lemma log_step_extends l l' rss : log_inv l rss → log_step l l' → ∃ rss', log_extends l rss l' rss'.
Proof.
  intros Hi Hs. destruct Hs as [e records cnt l Hfr Hsane Hmax Hnow H0 Hend|l l' Hu].
  - destruct (AppendAssigningOffsets_outcome e records cnt l rss Hi Hfr (assign_spec (env_append_now e) (log_end_offset l) records Hsane Hmax Hnow ltac:(lia) Hend) Hmax) as (rs & [HG _] & _).
    destruct (grown_extends _ _ _ _ _ Hi HG) as (rss' & H & _). by exists rss'.
  - destruct Hu as [e l|del now n l l' HE]; [exists rss; by apply flush_extends|].
    destruct (EnforceRetention_extends del now n l l' rss Hi HE) as (rss' & H & _). by exists rss'.
Qed.
Lemma request_decodes m scratch :
  ReplicateRequest_wf m →
  (ReplicateRequest_Decode (newReader (Readable (ReplicateRequest_Encode m (Clear scratch))))).1 = Some m.
Proof.
  intros Hm. destruct (Clear_spec scratch) as [Hwf Hrd].
  destruct (@decode_encoded ByteBuffer ByteBuffer_sink KReplicateRequest m (Clear scratch) Hm Hwf Hrd) as [_ H].
  apply DecodePayload_decodes in H. exact H.
Qed.
Lemma response_decodes m :
  ReplicateResponse_wf m → (ReplicateResponse_Decode (newReader (reply m))).1 = Some m.
Proof.
  intros Hm. destruct (@decode_encoded ByteBuffer ByteBuffer_sink KReplicateResponse m emptyBuffer Hm emptyBuffer_wf eq_refl) as [_ H].
  apply DecodePayload_decodes in H. exact H.
Qed.

(** *** The invariant is kept *)

Lemma behind_node c b n n' rs qs as_ : om_find b (cl_nodes c) = Some n → flushed_offset (pr_log n) ≤ flushed_offset (pr_log n') →
  (b ∉ rs → log_end_offset (pr_log n) ≤ log_end_offset (pr_log n')) → (∀ x, x ∈ cl_restarted c → x ∈ rs) →
  ∀ b' e f, behind c b' e f → behind (mkCluster (cl_leader c) (om_insert b n' (cl_nodes c)) qs as_ rs) b' e f.
Proof.
  intros Hb Hf He Hr b' e f (x & Hx & H1 & H2). unfold behind. cbn [cl_nodes cl_restarted]. rewrite om_find_insert. case_decide as Hd; [|exists x; split; [done|]; split; [done|]; auto].
  subst b'. rewrite Hb in Hx. injection Hx as <-. exists n'. split; [done|]. split; [lia|]. intros Hn. specialize (He Hn). specialize (H2 ltac:(auto)). lia.
Qed.
Lemma leader_log_step c rss l rss' :
  cluster_inv c rss → log_extends (pr_log (cl_leader c)) rss l rss' → cluster_inv (with_leader (with_log l (cl_leader c)) c) rss'.
Proof.
  intros [C1 [C2 C2'] C3 C4 C5 C6 C7 C8] Hext. pose proof Hext as (E1 & E2 & E3 & E4 & _). constructor; cbn [with_leader cl_leader cl_nodes cl_requests cl_answers]; try done.
  - apply (rr_step nanos _ (RLog l) C1). cbn. split; done.
  - split; [done|]. cbn. lia.
  - intros b n Hb. destruct (C5 b n Hb) as (P1 & P2 & rssF & HF & Hcp). split_and!; try done. exists rssF. split; [done|]. by eapply copy_leader.
  - intros b payload Hin. destruct (C6 b payload Hin) as (m & H1 & H2 & H3). exists m. split_and!; try done. by eapply batch_of_extends.
Qed.
Lemma node_step c rss b n n' rssF' qs as_ rs :
  cluster_inv c rss → om_find b (cl_nodes c) = Some n → log_inv (pr_log n') rssF' → copy_of (pr_log (cl_leader c)) rss (pr_log n') rssF' →
  flushed_offset (pr_log n) ≤ flushed_offset (pr_log n') → 0 ≤ log_end_offset (pr_log n') → (b ∉ rs → log_end_offset (pr_log n) ≤ log_end_offset (pr_log n')) →
  (∀ x, x ∈ cl_restarted c → x ∈ rs) → (∀ x, x ∈ qs → x ∈ cl_requests c) →
  (∀ b' payload, (b', payload) ∈ as_ → (b', payload) ∈ cl_answers c ∨
     b' = b ∧ ∃ resp, (ReplicateResponse_Decode (newReader payload)).1 = Some resp ∧ rresp_log_end_offset resp ≤ log_end_offset (pr_log n') ∧ rresp_flushed_offset resp ≤ flushed_offset (pr_log n')) →
  cluster_inv (mkCluster (cl_leader c) (om_insert b n' (cl_nodes c)) qs as_ rs) rss.
Proof.
  intros [C1 C2 C3 C4 C5 C6 C7 C8] Hb Hi Hcp Hf H0 He Hr Hq Ha. pose proof (behind_node c b n n' rs qs as_ Hb Hf He Hr) as HB. destruct (C5 b n Hb) as (_ & P2 & _).
  constructor; cbn [cl_leader cl_nodes cl_requests cl_answers]; try done.
  - intros b' H1 H2. rewrite om_find_insert. case_decide; [done|]. by apply C4.
  - intros b' x. rewrite om_find_insert. case_decide as Hd; [|apply C5]. intros [= <-]. split; [done|]. split; [lia|]. by exists rssF'.
  - intros b' payload Hin. apply (C6 b'). by apply Hq.
  - intros b' payload Hin. destruct (Ha b' payload Hin) as [Hin'|(-> & resp & H1 & H2 & H3)]; [destruct (C7 b' payload Hin') as (resp & H1 & H2); exists resp; split; [done|by apply HB]|].
    exists resp. split; [done|]. exists n'. cbn [cl_nodes]. by rewrite om_find_insert, decide_True.
  - intros b' f Hf'. by apply HB, C8.
Qed.

(** A method that changes neither the log nor what is recorded of the followers. *)
Lemma method_followers op (r : Node) b f :
  leader_method op → om_find b (pr_followers (replica_step nanos op r).1) = Some f →
  ∃ f', om_find b (pr_followers r) = Some f' ∧ fs_log_end f' = fs_log_end f ∧ fs_flushed f' = fs_flushed f.
Proof.
  intros Hop. destruct (step_frame nanos op r) as (_ & _ & _ & ->).
  destruct op; try done; cbn [examined]; try (intros ->; by exists f).
  destruct (om_find follower (pr_followers r)) as [s|] eqn:Es; [|intros ->; by exists f].
  destruct (fs_in_sync s); [|intros ->; by exists f]. cbn [pr_followers with_followers]. rewrite om_find_insert.
  case_decide as Hd; [|intros ->; by exists f]. intros [= <-]. subst. by exists s.
Qed.
(** A step of the leader's replica that leaves its log alone. *)
Lemma replica_keeps c rss op as_ :
  cluster_inv c rss → legal op (cl_leader c) → match op with RLog _ | RAssign _ => False | _ => True end → (∀ x, x ∈ as_ → x ∈ cl_answers c) →
  (∀ b f, om_find b (pr_followers (replica_step nanos op (cl_leader c)).1) = Some f → behind c b (fs_log_end f) (fs_flushed f)) →
  cluster_inv (mkCluster (replica_step nanos op (cl_leader c)).1 (cl_nodes c) (cl_requests c) as_ (cl_restarted c)) rss.
Proof.
  intros [C1 C2 C3 C4 C5 C6 C7 C8] Hleg Hop Ha Hp. destruct (step_frame nanos op (cl_leader c)) as (HS & HL & HA & _).
  assert (EL : pr_log (replica_step nanos op (cl_leader c)).1 = pr_log (cl_leader c)) by (rewrite HL; by destruct op).
  assert (EA : pr_assignment (replica_step nanos op (cl_leader c)).1 = pr_assignment (cl_leader c)) by (rewrite HA; by destruct op).
  constructor; cbn [cl_leader cl_nodes cl_requests cl_answers]; rewrite ?EL, ?EA, ?HS; try done; [by constructor|]. intros b payload Hin. by apply C7, Ha.
Qed.
Lemma method_step c rss op :
  cluster_inv c rss → leader_method op → legal op (cl_leader c) → cluster_inv (with_leader (replica_step nanos op (cl_leader c)).1 c) rss.
Proof.
  intros Hci Hop Hleg. apply replica_keeps; try done; [by destruct op|]. intros b f Hf. apply method_followers in Hf as (f' & Hf' & <- & <-); [|done]. by apply (ci_progress _ _ Hci).
Qed.
(** The leader records an answer that is behind the truth. *)
Lemma progress_step c rss b le fl now as_ :
  cluster_inv c rss → behind c b le fl → (∀ x, x ∈ as_ → x ∈ cl_answers c) →
  cluster_inv (mkCluster (replica_step nanos (RFollower b le fl now) (cl_leader c)).1 (cl_nodes c) (cl_requests c) as_ (cl_restarted c)) rss.
Proof.
  intros Hci (n & Hb & Hfl & Hle) Ha. apply replica_keeps; try done. destruct (step_frame nanos (RFollower b le fl now) (cl_leader c)) as (_ & _ & _ & HF).
  intros b' f. rewrite HF. cbn [examined]. destruct (om_find b (pr_followers (cl_leader c))) as [s|] eqn:Es; [|apply (ci_progress _ _ Hci)].
  cbn [pr_followers with_followers]. rewrite om_find_insert. case_decide as Hd; [|apply (ci_progress _ _ Hci)]. intros [= <-]. subst b'.
  destruct (ci_progress _ _ Hci b s Es) as (x & Hx & H1 & H2). rewrite Hb in Hx. injection Hx as <-. exists n. split; [done|].
  cbn [fs_log_end fs_flushed]. split; [lia|]. intros Hn. specialize (Hle Hn). specialize (H2 Hn). lia.
Qed.
(** An answer is dropped, or is one step of the leader's replica. *)
Lemma handle_response_cases b now payload (r : Node) :
  let '(_, r', done) := handle_response nanos b now payload r in
  (r' = r ∧ done = []) ∨
  ∃ resp, (ReplicateResponse_Decode (newReader payload)).1 = Some resp ∧
    (r', done) = replica_step nanos (RFollower b (rresp_log_end_offset resp) (rresp_flushed_offset resp) now) r.
Proof.
  unfold handle_response. destruct (ReplicateResponse_Decode (newReader payload)).1 as [resp|]; [|by left]. cbn [replica_step].
  repeat case_bool_decide; [right|right|by left]; exists resp; (split; [done|]); by destruct (OnFollowerProgress nanos b _ _ now r) as [[? ?] ?].
Qed.
Lemma send_step c rss b buf scratch m r :
  cluster_inv c rss → prepare o b buf (cl_leader c) = (m, r) → (∀ m', m = Some m' → request_fits m') →
  cluster_inv (mkCluster r (cl_nodes c) (cl_requests c ++ sent_request b scratch m) (cl_answers c) (cl_restarted c)) rss.
Proof.
  intros Hci HE Hfit. pose proof (prepare_spec o b buf (cl_leader c) rss (ci_log _ _ Hci)) as HP. rewrite HE in HP. destruct HP as [(l & -> & Hro) Hm].
  pose proof (read_extends _ _ _ (ci_log _ _ Hci) Hro) as Hext. destruct (leader_log_step c rss l rss Hci Hext) as [C1 C2 C3 C4 C5 C6 C7 C8].
  constructor; cbn [with_leader cl_leader cl_nodes cl_requests cl_answers] in *; try done. intros b' payload [Hin|Hin]%elem_of_app; [by eapply C6|].
  destruct m as [m|]; [|by apply elem_of_nil in Hin]. apply list_elem_of_singleton in Hin. injection Hin as -> ->. destruct (Hfit m eq_refl) as [F1 F2].
  exists m. split; [by apply request_decodes|]. split; [done|]. apply (batch_of_extends (pr_log (cl_leader c)) rss); [done|apply Hm].
Qed.
Lemma deliver_step c rss qs1 qs2 b payload n e now response n' done :
  cluster_inv c rss → cl_requests c = qs1 ++ (b, payload) :: qs2 → om_find b (cl_nodes c) = Some n → fresh_files (env_files e) → answer_fits b e now payload n →
  ExecuteReplicate b e nanos now payload (Some n) = (Some response, Some n', done) →
  cluster_inv (mkCluster (cl_leader c) (om_insert b n' (cl_nodes c)) (qs1 ++ qs2) (cl_answers c ++ [(b, response)]) (cl_restarted c)) rss.
Proof.
  intros Hci Hq Hb Hfr Hfit HE. destruct (ci_requests _ _ Hci b payload) as (m & Hm & Hsz & Hbatch); [rewrite Hq; apply elem_of_app; right; left|].
  destruct (ci_copies _ _ Hci b n Hb) as (P1 & P2 & rssF & HF & Hcp). specialize (Hfit m Hm). unfold ExecuteReplicate in HE. rewrite Hm in HE.
  pose proof (replicate_to_spec b e nanos now m n _ rss rssF Hbatch HF Hcp Hfr Hsz) as HR. destruct (replicate_to b e nanos now m n) as [[resp n1] fd]. cbn [fst snd] in Hfit. injection HE as <- <- _.
  destruct HR as ((rssF' & Hext & Hcp') & E1 & E2). pose proof Hext as (X1 & _ & X3 & X4 & _).
  apply (node_step c rss b n n1 rssF'); try done; [lia|intros [x y]; rewrite Hq, !elem_of_app, elem_of_cons; naive_solver|].
  intros b' p [Hin|Hin]%elem_of_app; [by left|]. apply list_elem_of_singleton in Hin. injection Hin as -> ->. right. split; [done|]. exists resp. split; [by apply response_decodes|lia].
Qed.
Lemma receive_step c rss as1 as2 b payload now st r done :
  cluster_inv c rss → cl_answers c = as1 ++ (b, payload) :: as2 → handle_response nanos b now payload (cl_leader c) = (st, r, done) →
  cluster_inv (mkCluster r (cl_nodes c) (cl_requests c) (as1 ++ as2) (cl_restarted c)) rss.
Proof.
  intros Hci Ha HE. pose proof (handle_response_cases b now payload (cl_leader c)) as HC. rewrite HE in HC. assert (Hsub : ∀ x, x ∈ as1 ++ as2 → x ∈ cl_answers c) by (intros x; rewrite Ha, !elem_of_app, elem_of_cons; naive_solver).
  destruct HC as [[-> _]|(resp & Hr & Hst)].
  - destruct Hci as [C1 C2 C3 C4 C5 C6 C7 C8]. constructor; cbn [cl_leader cl_nodes cl_requests cl_answers] in *; try done. intros b' p Hin. by apply C7, Hsub.
  - apply (f_equal fst) in Hst. cbn [fst] in Hst. subst r. apply progress_step; [done| |done]. destruct (ci_answers _ _ Hci b payload) as (resp' & Hr' & HB); [rewrite Ha; apply elem_of_app; right; left|]. rewrite Hr in Hr'. by injection Hr' as <-.
Qed.
Lemma node_restart_step c rss b n l :
  cluster_inv c rss → om_find b (cl_nodes c) = Some n → restarts (pr_log n) l →
  cluster_inv (mkCluster (cl_leader c) (om_insert b (new_replica (pr_topic_partition n) (pr_assignment n) (pr_self n) l) (cl_nodes c)) (cl_requests c) (cl_answers c) (b :: cl_restarted c)) rss.
Proof.
  intros Hci Hb Hre. destruct (ci_copies _ _ Hci b n Hb) as (P1 & P2 & rssF & HF & Hle & Hcp). destruct (restarts_spec _ _ _ HF Hre) as (rssF' & R1 & R2 & R3 & R4 & R5).
  apply (node_step c rss b n _ rssF'); cbn [new_replica pr_log]; [done|done|exact R1| |lia|lia|set_solver|intros x; set_solver|done|by left].
  split; [lia|]. intros x Hx1 Hx2. rewrite R5 by lia. apply Hcp; lia.
Qed.
Lemma leader_restart_step c rss l :
  cluster_inv c rss → restarts (pr_log (cl_leader c)) l → log_end_offset l = log_end_offset (pr_log (cl_leader c)) →
  ∃ rss', cluster_inv (with_leader (new_replica (pr_topic_partition (cl_leader c)) (pr_assignment (cl_leader c)) (pr_self (cl_leader c)) l) c) rss'.
Proof.
  intros Hci Hre He. pose proof Hci as [C1 [C2 C2'] C3 C4 C5 C6 C7 C8]. destruct (restarts_spec _ _ _ C3 Hre) as (rss' & R1 & R2 & R3 & R4 & R5). exists rss'.
  assert (Hext : log_extends (pr_log (cl_leader c)) rss l rss').
  { split; [done|]. pose proof (li_flushed _ _ C3). split_and!; [lia|lia|lia|]. intros x Hx. apply R5. lia. }
  destruct (leader_log_step c rss l rss' Hci Hext) as [D1 [D2 D2'] D3 D4 D5 D6 D7 D8]. constructor; cbn [with_leader cl_leader cl_nodes cl_requests cl_answers new_replica pr_log pr_self pr_assignment pr_followers with_log] in *; try done.
  - constructor; [done|exact D2'].
  - intros b f Hf. destruct (add_followers_spec (pr_self (cl_leader c)) (pa_replicas (pr_assignment (cl_leader c))) [] I) as [_ HS]. destruct (HS b f Hf) as [H|(H1 & H2 & ->)]; [done|].
    destruct (C4 b H2 H1) as [n Hn]. destruct (C5 b n Hn) as (P1 & P2 & _). exists n. split; [done|]. cbn. by split.
Qed.

Lemma cluster_step_inv c rss done c' : cluster_inv c rss → cluster_step c done c' → ∃ rss', cluster_inv c' rss'.
Proof.
  intros Hci Hs. destruct Hs as [c op Hop Hleg|c l Hl|c b n l Hb Hu|c b buf scratch m r HE Hfit|c qs1 qs2 b payload n e now response n' done Hq Hb Hfr Hfit HE|c as1 as2 b payload now st r done Ha HE|c b n l Hb Hre|c l Hre He].
  - exists rss. by apply method_step.
  - destruct (log_step_extends _ _ _ (ci_log _ _ Hci) Hl) as (rss' & Hext). exists rss'. by eapply leader_log_step.
  - destruct (ci_copies _ _ Hci b n Hb) as (P1 & P2 & rssF & HF & Hcp). exists rss.
    assert (∃ rssF', log_extends (pr_log n) rssF l rssF' ∧ log_end_offset l = log_end_offset (pr_log n)) as (rssF' & Hext & He).
    { destruct Hu as [e fl|del now k fl fl' HE]; [|by apply (EnforceRetention_extends del now k)].
      exists rssF. split; [by apply flush_extends|by apply (upkeep_end_flush e fl rssF)]. }
    pose proof Hext as (X1 & _ & X3 & X4 & _). apply (node_step c rss b n (with_log l n) rssF'); try done; [by apply (copy_follower _ _ (pr_log n) rssF)|cbn; lia|by left].
  - exists rss. by apply (send_step c rss b buf scratch).
  - exists rss. by eapply deliver_step.
  - exists rss. by eapply receive_step.
  - exists rss. by eapply node_restart_step.
  - by eapply leader_restart_step.
Qed.

Lemma cluster_start_inv c : cluster_start c → ∃ rss, cluster_inv c rss.
Proof.
  intros ((tp & a & self & l & HL & Hself & H0 & _ & Hn) & Hq & Ha & rss & Hi & Hc). exists rss. constructor; rewrite ?Hq, ?Ha; try done.
  - rewrite HL. by constructor.
  - by rewrite HL.
  - by rewrite HL.
  - intros b n Hb. destruct (Hc b n Hb) as (rssF & H1 & H2 & H3 & H4). split_and!; try done. by exists rssF.
  - by intros b p Hin%elem_of_nil.
  - by intros b p Hin%elem_of_nil.
  - intros b f Hf. rewrite HL in Hf. cbn in Hf. destruct (add_followers_spec self (pa_replicas a) [] I) as [_ HS].
    destruct (HS b f Hf) as [H|(H1 & H2 & ->)]; [done|]. destruct (Hn b H2 H1) as [n Hb].
    exists n. destruct (Hc b n Hb) as (rssF & _ & _ & H3 & H4). by split_and!.
Qed.
Lemma cluster_reachable_inv c : cluster_reachable c → ∃ rss, cluster_inv c rss.
Proof. induction 1 as [c H|c done c' Hr [rss IH] Hs]; [by apply cluster_start_inv|by eapply cluster_step_inv]. Qed.

(** *** Acknowledgements of a step come from one step of the leader's replica. *)
Lemma replica_answers (r : Node) op a :
  replica_reachable nanos r → legal op r → a ∈ (replica_step nanos op r).2 → co_status a = kOk →
  ∃ w, (w ∈ pr_waiters r ∨ ∃ now, op = RAdd w now) ∧ dw_callback w = co_callback a ∧
    (dw_mode w = kQuorum →
     let S := persisted_set (dw_required w) (replica_step nanos op r).1 in
     NoDup S ∧ (∀ b, b ∈ S → b ∈ pa_replicas (pr_assignment (replica_step nanos op r).1)) ∧
     QuorumSize (pr_assignment (replica_step nanos op r).1) ≤ zlen S).
Proof.
  intros Hr Hleg Ha Hok. pose proof (step_answers_ok nanos r op Hr Hleg) as H. unfold answers_ok in H. destruct (replica_step nanos op r) as [r' answers]. cbn [fst snd] in *. destruct H as [H _].
  destruct (H a Ha Hok) as (_ & w & Hw & Hcb & Hm). exists w. split_and!; [|done|].
  - apply elem_of_app in Hw as [Hw|Hw]; [by left|]. destruct op; try (by apply elem_of_nil in Hw). apply list_elem_of_singleton in Hw. subst. right. by eexists.
  - intros Hq. rewrite Hq in Hm. destruct Hm as (? & ? & ? & _). by split_and!.
Qed.
Lemma cluster_step_answers c rss done c' :
  cluster_inv c rss → cluster_step c done c' →
  ∀ a, a ∈ done → co_status a = kOk →
  ∃ w, (w ∈ pr_waiters (cl_leader c) ∨ ∃ now, cl_leader c' = (replica_step nanos (RAdd w now) (cl_leader c)).1) ∧
    dw_callback w = co_callback a ∧
    (dw_mode w = kQuorum →
     let S := persisted_set (dw_required w) (cl_leader c') in
     NoDup S ∧ (∀ b, b ∈ S → b ∈ pa_replicas (pr_assignment (cl_leader c'))) ∧
     QuorumSize (pr_assignment (cl_leader c')) ≤ zlen S).
Proof.
  intros Hci Hs a Ha Hok. destruct Hs as [c op Hop Hleg|c l Hl|c b n l Hb Hu|c b buf scratch m r HE Hfit|c qs1 qs2 b payload n e now response n' done Hq Hb Hfr Hfit HE|c as1 as2 b payload now st r done Han HE|c b n l Hb Hre|c l Hre He];
    try (by apply elem_of_nil in Ha).
  - destruct (replica_answers _ op a (ci_leader _ _ Hci) Hleg Ha Hok) as (w & Hw & Hcb & Hm). exists w. split_and!; [|done|done]. destruct Hw as [Hw|(now & ->)]; [by left|right]. by exists now.
  - pose proof (handle_response_cases b now payload (cl_leader c)) as HC. rewrite HE in HC. destruct HC as [[_ ->]|(resp & _ & Hst)]; [by apply elem_of_nil in Ha|].
    pose proof (f_equal fst Hst) as E1. pose proof (f_equal snd Hst) as E2. cbn [fst snd cl_leader] in E1, E2 |- *. rewrite E2 in Ha. rewrite E1.
    destruct (replica_answers _ (RFollower b (rresp_log_end_offset resp) (rresp_flushed_offset resp) now) a (ci_leader _ _ Hci) I Ha Hok) as (w & [Hw|(now' & Hw)] & Hcb & Hm); [|discriminate Hw]. exists w. split_and!; [by left|done|done].
Qed.
End Cluster.



(** ** A whole round *)

(** The network during one call: it loses the request, loses the answer, or works. *)
Inductive Network := Lost | AnswerLost | Works.

(** [Call] as the broker [b] answers it over such a network. *)
Definition call_node (net : Network) (b : Z) (e : LogEnv) (nanos : DurabilityWaiter → Z) (now : Z) (payload : bytes) : SR Node bytes := λ n,
  match net with
  | Lost => (Err kTimeout, n)
  | _ =>
      match ExecuteReplicate b e nanos now payload (Some n) with
      | (Some response, Some n', _) => (match net with Works => Ok response | _ => Err kTimeout end, n')
      | _ => (Err kProtocolError, n)
      end
  end.
Definition round_fits (o : ReplicatorOptions) (nanos : DurabilityWaiter → Z) (b : Z) (buf : ByteBuffer) (e : LogEnv) (now : Z) (leader n : Node) : Prop :=
  ∀ m, (prepare o b buf leader).1 = Some m → request_fits m ∧ ReplicateResponse_wf (replicate_to b e nanos now m n).1.1.

(** Either the follower has not moved and the leader learns nothing, or the follower
    has handled the request and the leader learns nothing or exactly its answer. *)
Lemma send_partition_cases o nanos net b e now buf scratch (leader n : Node) :
  round_fits o nanos b buf e now leader n →
  let '(st, leader', done, n') := send_partition (call_node net b e nanos now) o nanos b now buf scratch leader n in
  let r1 := (prepare o b buf leader).2 in
  (n' = n ∧ leader' = r1 ∧ done = []) ∨
  ∃ m, (prepare o b buf leader).1 = Some m ∧ n' = (replicate_to b e nanos now m n).1.2 ∧
    ((leader' = r1 ∧ done = []) ∨
     let resp := (replicate_to b e nanos now m n).1.1 in
     (leader', done) = replica_step nanos (RFollower b (rresp_log_end_offset resp) (rresp_flushed_offset resp) now) r1).
Proof.
  intros Hfit. unfold send_partition, round_fits in *. destruct (prepare o b buf leader) as [[m|] r1]; cbn [fst snd] in *; [|by left].
  destruct (Hfit m eq_refl) as ([Hm _] & Hresp). unfold call_node, ExecuteReplicate. rewrite request_decodes by done.
  destruct (replicate_to b e nanos now m n) as [[resp n'] fd] eqn:ER. cbn [fst snd] in Hresp.
  destruct net; [by left|right; exists m; rewrite ER; split_and!; [done|done|by left]|].
  pose proof (handle_response_cases nanos b now (reply resp) r1) as HC. destruct (handle_response nanos b now (reply resp) r1) as [[st r2] fd2]. right. exists m. rewrite ER. cbn [fst snd]. split; [done|]. split; [done|].
  rewrite response_decodes in HC by done. destruct HC as [[-> ->]|(resp' & [= <-] & HC)]; [by left|by right].
Qed.
(** A round over a working network is a send, a delivery and a receipt of the cluster. *)
Lemma round_steps o nanos c b n m r e now buf scratch :
  om_find b (cl_nodes c) = Some n → cl_requests c = [] → cl_answers c = [] → prepare o b buf (cl_leader c) = (Some m, r) → fresh_files (env_files e) → round_fits o nanos b buf e now (cl_leader c) n →
  let out := send_partition (call_node Works b e nanos now) o nanos b now buf scratch (cl_leader c) n in
  ∃ c1 c2, cluster_step o nanos c [] c1 ∧ cluster_step o nanos c1 [] c2 ∧
    cluster_step o nanos c2 out.1.2 (mkCluster out.1.1.2 (om_insert b out.2 (cl_nodes c)) [] [] (cl_restarted c)).
Proof.
  intros Hb Hq Ha HP Hfr Hfit. unfold send_partition, round_fits in *. rewrite HP in *. cbn [fst] in Hfit. destruct (Hfit m eq_refl) as ([Hm Hs] & Hresp). pose proof (request_decodes m scratch Hm) as HD.
  set (payload := Readable (ReplicateRequest_Encode m (Clear scratch))) in *. unfold call_node. destruct (replicate_to b e nanos now m n) as [[resp n'] fd] eqn:ER. cbn [fst snd] in Hresp.
  assert (HE : ExecuteReplicate b e nanos now payload (Some n) = (Some (reply resp), Some n', fd)) by (unfold ExecuteReplicate; by rewrite HD, ER). rewrite HE. destruct (handle_response nanos b now (reply resp) r) as [[st r2] fd2] eqn:EH.
  exists (mkCluster r (cl_nodes c) [(b, payload)] [] (cl_restarted c)), (mkCluster r (om_insert b n' (cl_nodes c)) [] [(b, reply resp)] (cl_restarted c)). split_and!.
  - pose proof (cs_send o nanos c b buf scratch (Some m) r HP) as HS. rewrite Hq, Ha in HS. apply HS. intros m' [= <-]. by split.
  - refine (cs_deliver o nanos (mkCluster r (cl_nodes c) [(b, payload)] [] (cl_restarted c)) [] [] b payload n e now (reply resp) n' fd eq_refl Hb Hfr _ HE). intros m' Hm'. rewrite HD in Hm'. injection Hm' as <-. by rewrite ER.
  - exact (cs_receive o nanos (mkCluster r (om_insert b n' (cl_nodes c)) [] [(b, reply resp)] (cl_restarted c)) [] [] b (reply resp) now st r2 fd2 eq_refl EH).
Qed.

(** ** A follower that has lost its tail *)

Definition followers_named (fs : Followers_map) : Prop := ∀ b f, (b, f) ∈ fs → fs_broker f = b.
Lemma find_named b (fs : Followers_map) :
  followers_named fs → List.find (λ f, fs_broker f =? b) (map snd fs) = om_find b fs.
Proof.
  induction fs as [|[b' f] fs IH]; intros Hn; [done|]. cbn. rewrite (Hn b' f) by left.
  destruct (Z.eqb_spec b' b) as [->|Hne]; [by rewrite decide_True|]. rewrite decide_False by congruence.
  apply IH. intros x y Hxy. apply Hn. by right.
Qed.
Lemma named_insert b f (fs : Followers_map) : followers_named fs → fs_broker f = b → followers_named (om_insert b f fs).
Proof.
  intros Hn Hf. induction fs as [|[b' f'] fs IH]; cbn.
  { intros x y Hxy. apply list_elem_of_singleton in Hxy. by simplify_eq. }
  assert (Hrest : followers_named fs) by (intros x y Hxy; apply Hn; by right).
  destruct (b <? b').
  - intros x y [Hxy|Hxy]%elem_of_cons; [by simplify_eq|by apply Hn].
  - case_decide as Hd.
    + intros x y [Hxy|Hxy]%elem_of_cons; [by simplify_eq|by apply Hrest].
    + intros x y [Hxy|Hxy]%elem_of_cons; [apply Hn; rewrite Hxy; left|by apply IH].
Qed.

Lemma prepare_base o peer buf (r : Node) rss m f :
  log_inv (pr_log r) rss → followers_named (pr_followers r) → om_find peer (pr_followers r) = Some f →
  (prepare o peer buf r).1 = Some m → fs_log_end f ≤ rreq_base_offset m.
Proof.
  intros Hi Hn Hf. unfold prepare, follower_position, Followers. rewrite find_named, Hf by done.
  destruct (is_leader r); cbn [negb]; [|done]. destruct (HasReplica _ _); cbn [negb]; [|done].
  set (fo := if fs_log_end f <? _ then _ else fs_log_end f).
  assert (Hfo : fs_log_end f ≤ fo) by (unfold fo; destruct (Z.ltb_spec (fs_log_end f) (log_start_offset (pr_log r))); lia).
  destruct (_ && _); [done|]. destruct (_ <=? fo); [by intros [= <-]|].
  destruct (Clear_spec buf) as [Hwf _].
  pose proof (Log_Read_spec rss (pr_log r) (Clear buf) fo (ro_max_bytes o) Hi Hwf) as [_ HR].
  destruct (Log_Read fo (ro_max_bytes o) (pr_log r, Clear buf)) as [[rr|e] [l b]]; cbn [fst snd] in *; [|done].
  destruct HR as (t & _ & _ & -> & _). cbn [lr_record_count lr_base]. destruct (_ =? 0); [done|]. by intros [= <-].
Qed.

(** The leader believes the follower to be further than it is. *)
Definition overrated (b : Z) (leader n : Node) : Prop :=
  followers_named (pr_followers leader) ∧
  ∃ f, om_find b (pr_followers leader) = Some f ∧ log_end_offset (pr_log n) < fs_log_end f.

Lemma stall_leader nanos b (leader n : Node) l rss f le fl now leader' (done : list Completion) :
  followers_named (pr_followers leader) → om_find b (pr_followers leader) = Some f → log_end_offset (pr_log n) < fs_log_end f →
  log_inv l rss →
  (leader' = with_log l leader ∧ done = []) ∨ (leader', done) = replica_step nanos (RFollower b le fl now) (with_log l leader) →
  overrated b leader' n ∧ log_inv (pr_log leader') rss.
Proof.
  intros Hn Hf Hlt Hi [[-> _]|HE]; [split; [split; [done|]; by exists f|done]|].
  apply (f_equal fst) in HE. cbn [fst] in HE. subst leader'.
  destruct (step_frame nanos (RFollower b le fl now) (with_log l leader)) as (_ & HL & _ & HF). rewrite HL. split; [|done].
  unfold overrated. rewrite HF. cbn [examined pr_followers with_log]. rewrite Hf. cbn [pr_followers with_followers].
  split; [apply named_insert; [done|]; cbn; apply Hn; apply om_find_In in Hf; exact Hf|].
  rewrite om_find_insert, decide_True by done. eexists. split; [done|]. cbn. lia.
Qed.

(** A follower that comes back with less than it had reported (after a crash that
    lost records it had not flushed) never catches up: whatever the network and the
    disks do, a replication round leaves its log as it is, and leaves the leader
    believing it to be further than it is, so the next round starts from the same
    place.  The follower does report where it is, but the leader keeps the larger of
    the two positions. *)
Theorem replication_stalls (o : ReplicatorOptions) (nanos : DurabilityWaiter → Z) (b now : Z) (net : Network) (e : LogEnv)
    (buf scratch : ByteBuffer) (leader n : Node) (rss : list Run) :
  log_inv (pr_log leader) rss → overrated b leader n → round_fits o nanos b buf e now leader n →
  let '(_, leader', _, n') := send_partition (call_node net b e nanos now) o nanos b now buf scratch leader n in
  pr_log n' = pr_log n ∧ overrated b leader' n' ∧ log_inv (pr_log leader') rss.
Proof.
  intros Hi (Hn & f & Hf & Hlt) Hfit. pose proof (send_partition_cases o nanos net b e now buf scratch leader n Hfit) as Hcases.
  pose proof (prepare_spec o b buf leader rss Hi) as HP.
  pose proof (λ m, prepare_base o b buf leader rss m f Hi Hn Hf) as Hbase.
  destruct (send_partition _ _ _ _ _ _ _ _ _) as [[[st leader'] done] n'].
  destruct (prepare o b buf leader) as [m r1]. destruct HP as [(l & -> & Hro) _]. cbn [fst snd] in *.
  destruct Hcases as [(-> & -> & _)|(mm & Hmm & -> & Hl)].
  { split_and!; [done| |apply Hro]. split; [done|]. by exists f. }
  specialize (Hbase mm Hmm). unfold replicate_to in *.
  destruct (rreq_leader_epoch mm <? _).
  - cbn [fst snd rresp_log_end_offset rresp_flushed_offset] in Hl. split; [done|].
    by eapply (stall_leader nanos b leader n l rss f); [done|done|done|apply Hro|exact Hl].
  - destruct (Z.eqb_spec (rreq_base_offset mm) (log_end_offset (pr_log n))); [lia|]. rewrite andb_false_r in *. cbn [negb] in *.
    cbn [fst snd rresp_log_end_offset rresp_flushed_offset] in Hl. split; [done|].
    by eapply (stall_leader nanos b leader n l rss f); [done|done|done|apply Hro|exact Hl].
Qed.

(** ** A three-broker partition *)

Definition example_replicator : ReplicatorOptions := mkReplicatorOptions 1 1048576.
Definition follower_node (b : Z) : Node := new_replica (mkTP (str "t") 0) three_replicas b empty_log.
Definition started : Cluster := mkCluster leader_replica [(2, follower_node 2); (3, follower_node 3)] [] [] [].
Definition produced_log : PartitionLog := (AppendAssigningOffsets example_env 1 (empty_log, example_records)).2.1.
Definition produced : Cluster := with_leader (with_log produced_log leader_replica) started.
Definition awaiting : Cluster := with_leader (replica_step zero_nanos (RAdd quorum_waiter 1) (cl_leader produced)).1 produced.
(** One round to broker 2 over a working network. *)
Definition first_round : Result unit * Node * list Completion * Node :=
  send_partition (call_node Works 2 example_env zero_nanos 5) example_replicator zero_nanos 2 5 emptyBuffer emptyBuffer
    (cl_leader awaiting) (follower_node 2).
Definition acked : Cluster := mkCluster first_round.1.1.2 (om_insert 2 first_round.2 (cl_nodes awaiting)) [] [] [].

Lemma started_start : cluster_start started.
Proof.
  split.
  - exists (mkTP (str "t") 0), three_replicas, 1, empty_log. split_and!; [done|apply list_elem_of_here|done|done|].
    intros b Hb Hne. cbn in Hb. repeat (apply elem_of_cons in Hb as [->|Hb]; [try done; by eexists|]). by apply elem_of_nil in Hb.
  - split; [done|]. split; [done|]. exists [[]]. split; [apply example_log_inv|]. intros b n Hb. cbn in Hb.
    assert (pr_log n = empty_log) as -> by (repeat case_decide; by simplify_eq).
    exists [[]]. split_and!; [apply example_log_inv| |done|done]. by split.
Qed.
Lemma awaiting_reachable : cluster_reachable example_replicator zero_nanos awaiting.
Proof.
  refine (cr_step _ _ produced _ awaiting _ (cs_method _ _ produced (RAdd quorum_waiter 1) I I)).
  refine (cr_step _ _ started [] produced (cr_start _ _ _ started_start) _).
  refine (cs_leader_log _ _ started produced_log _).
  refine (ls_produce example_env example_records 1 empty_log _ (run_at_sane 0) _ _ _ _); vm_compute; repeat split; discriminate || reflexivity.
Qed.
Definition first_request : ReplicateRequest :=
  Eval vm_compute in
    match (prepare example_replicator 2 emptyBuffer (cl_leader awaiting)).1 with Some m => m | None => mkReplicateRequest [] 0 0 0 0 0 0 0 0 [] end.
Lemma first_request_eq : (prepare example_replicator 2 emptyBuffer (cl_leader awaiting)).1 = Some first_request.
Proof. vm_compute. reflexivity. Qed.
Lemma first_round_fits : round_fits example_replicator zero_nanos 2 emptyBuffer example_env 5 (cl_leader awaiting) (follower_node 2).
Proof.
  intros m. rewrite first_request_eq. intros [= <-].
  split; [split; vm_compute; repeat split; discriminate|]. vm_compute. repeat split; discriminate.
Qed.
Lemma follower_2 : om_find 2 (cl_nodes awaiting) = Some (follower_node 2).
Proof. vm_compute. reflexivity. Qed.
Lemma example_fresh : fresh_files (env_files example_env).
Proof. vm_compute. auto. Qed.
Lemma first_prepared : prepare example_replicator 2 emptyBuffer (cl_leader awaiting) = (Some first_request, (prepare example_replicator 2 emptyBuffer (cl_leader awaiting)).2).
Proof. rewrite <- first_request_eq. apply surjective_pairing. Qed.
Lemma first_round_steps : ∃ c, cluster_reachable example_replicator zero_nanos c ∧ cluster_step example_replicator zero_nanos c first_round.1.2 acked.
Proof.
  destruct (round_steps example_replicator zero_nanos awaiting 2 (follower_node 2) first_request _ example_env 5 emptyBuffer emptyBuffer follower_2 eq_refl eq_refl first_prepared example_fresh first_round_fits) as (c1 & c2 & H1 & H2 & H3).
  exists c2. split; [exact (cr_step _ _ _ _ _ (cr_step _ _ _ _ _ awaiting_reachable H1) H2)|exact H3].
Qed.



(** The leader of [awaiting] once it has heard of broker 3 holding record 0, and broker
    3 back with an empty log. *)
Definition misled_leader : Node := (replica_step zero_nanos (RFollower 3 1 0 4) (cl_leader awaiting)).1.
Definition misled_followers : Followers_map := [(2, new_follower 2); (3, mkFollower 3 1 0 4 true 1)].
Lemma misled_named : followers_named misled_followers.
Proof. intros b f [Hb|[Hb|Hb]%elem_of_cons]%elem_of_cons; [by simplify_eq..|by apply elem_of_nil in Hb]. Qed.
Lemma misled_followers_eq : pr_followers misled_leader = misled_followers.
Proof. vm_compute. reflexivity. Qed.
Lemma misled_overrated : overrated 3 misled_leader (follower_node 3).
Proof.
  unfold overrated. rewrite misled_followers_eq. split; [exact misled_named|].
  exists (mkFollower 3 1 0 4 true 1). split; vm_compute; reflexivity.
Qed.
Lemma misled_quiet : (prepare example_replicator 3 emptyBuffer misled_leader).1 =
  Some (mkReplicateRequest (str "t") 0 1 0 1 0 0 0 0 []).
Proof. vm_compute. reflexivity. Qed.
Lemma misled_log : ∃ rss, log_inv (pr_log misled_leader) rss.
Proof.
  destruct (cluster_reachable_inv _ _ _ awaiting_reachable) as (rss & Hci). exists rss.
  exact (eq_ind_r (λ l, log_inv l rss) (ci_log _ _ _ Hci)
    (proj1 (proj2 (step_frame zero_nanos (RFollower 3 1 0 4) (cl_leader awaiting))))).
Qed.
Lemma replication_stalls_witness :
  overrated 3 misled_leader (follower_node 3) ∧
  let '(_, leader', _, n') := send_partition (call_node Works 3 example_env zero_nanos 9) example_replicator zero_nanos 3 9
    emptyBuffer emptyBuffer misled_leader (follower_node 3) in
  pr_log n' = pr_log (follower_node 3) ∧ overrated 3 leader' n'.
Proof.
  split; [exact misled_overrated|]. destruct misled_log as (rss & Hi).
  assert (Hfit : round_fits example_replicator zero_nanos 3 emptyBuffer example_env 9 misled_leader (follower_node 3)).
  { intros m. rewrite misled_quiet. intros [= <-]. split; [split; vm_compute; repeat split; discriminate|].
    vm_compute. repeat split; discriminate. }
  pose proof (replication_stalls example_replicator zero_nanos 3 9 Works example_env emptyBuffer emptyBuffer misled_leader
    (follower_node 3) rss Hi misled_overrated Hfit) as H.
  destruct (send_partition _ _ _ _ _ _ _ _ _) as [[[st leader'] done] n']. destruct H as (H1 & H2 & _). split; [exact H1|exact H2].
Defined.

(** ** A leader that has lost its tail *)

(** The leader had record A at offset 0 and had not flushed it; broker 2 copied it.  The
    leader's machine stops, A is gone there, and the leader takes another record, B, at offset
    0.  The next round offers B to broker 2, which answers OUT_OF_RANGE with its log end 1;
    the leader takes that for the progress of a follower that is caught up.  Both logs end
    at 1 from now on, with different records at offset 0. *)
Definition other_records : bytes := record_bytes (record_of 0 7 0 false [107] [119]).
Definition appended_to_empty (records : bytes) : PartitionLog := (AppendAssigningOffsets example_env 1 (example_log example_options, records)).2.1.
Definition replica_of (b : Z) (l : PartitionLog) : Node := new_replica (mkTP (str "t") 0) three_replicas b l.
Definition read_back (l : PartitionLog) : bytes := Readable (Log_Read 0 1000 (l, emptyBuffer)).2.2.
Definition after_leader_loss : Result unit * Node * list Completion * Node :=
  send_partition (call_node Works 2 example_env zero_nanos 9) example_replicator zero_nanos 2 9 emptyBuffer emptyBuffer
    (replica_of 1 (appended_to_empty other_records)) (replica_of 2 (appended_to_empty example_records)).
Lemma leader_restart_diverges :
  flushed_offset (appended_to_empty example_records) = 0 ∧
  after_leader_loss.1.1.1 = Ok tt ∧
  fs_log_end <$> om_find 2 (pr_followers after_leader_loss.1.1.2) = Some 1 ∧
  (log_end_offset (pr_log after_leader_loss.1.1.2), log_end_offset (pr_log after_leader_loss.2)) = (1, 1) ∧
  (length (read_back (pr_log after_leader_loss.1.1.2)), length (read_back (pr_log after_leader_loss.2))) = (29%nat, 29%nat) ∧
  bool_decide (read_back (pr_log after_leader_loss.1.1.2) = read_back (pr_log after_leader_loss.2)) = false.
Proof. vm_compute. repeat split; reflexivity. Qed.
