(* ===== verification/Assignor.v ===== *)
(** * Assignor: dealing partitions to the members of a consumer group

    Models include/pulselog/consumer/assignor.h and src/consumer/assignor.cc: the
    range and the round-robin strategy, as functions of the members and partitions
    given, and what they promise: every partition goes to exactly one member, the
    order of the inputs does not matter, and the shares are even. *)
From S2P Require Import Prelude Types OrdMap MessagesControl.

(** member id -> partitions *)
Abbreviation Assignment := (list (bytes * list TopicPartition)).

(** [std::unique] then [erase]: equal neighbours collapse to the first. *)
Fixpoint unique {A} `{!EqDecision A} (l : list A) : list A :=
  match l with
  | x :: (y :: _) as rest => if decide (x = y) then unique rest else x :: unique rest
  | _ => l
  end.
Definition SortedMembers (members : list bytes) : list bytes := unique (merge_sort bytes_le members).
Definition SortedPartitions (partitions : list TopicPartition) : list TopicPartition :=
  unique (merge_sort tp_le partitions).

(** [m[k].push_back(x)]: a missing key starts empty. *)
Definition push_back {K V} `{!EqDecision K, !KeyOrder K} (k : K) (x : V) (m : list (K * list V)) : list (K * list V) :=
  om_insert k (default [] (om_find k m) ++ [x]) m.
(** [for (const auto& member : members) assignment[member];] *)
Definition with_members (members : list bytes) : Assignment :=
  fold_left (λ a id, om_emplace id [] a) members [].

Definition by_topic (sorted : list TopicPartition) : list (bytes * list TopicPartition) :=
  fold_left (λ m p, push_back (topic p) p m) sorted [].

(** The members of one topic from index [m] on, and the partitions from the cursor on. *)
Fixpoint deal_range (members : list bytes) (m per_member remainder : Z) (ps : list TopicPartition) (a : Assignment) : Assignment :=
  match members with
  | [] => a
  | id :: members =>
      let take := per_member + (if m <? remainder then 1 else 0) in
      deal_range members (m + 1) per_member remainder (zdrop take ps)
        (fold_left (λ a p, push_back id p a) (ztake take ps) a)
  end.
Definition assign_topic (members : list bytes) (a : Assignment) (ps : list TopicPartition) : Assignment :=
  let count := zlen ps in
  deal_range members 0 (count / zlen members) (count mod zlen members) ps a.
Definition AssignRange (member_ids : list bytes) (partitions : list TopicPartition) : Assignment :=
  let members := SortedMembers member_ids in
  match members with
  | [] => []
  | _ => fold_left (λ a e, assign_topic members a e.2) (by_topic (SortedPartitions partitions)) (with_members members)
  end.

(** [sorted[i]] goes to [members[i % members.size()]], from [i] on. *)
Fixpoint deal_round_robin (members : list bytes) (i : Z) (sorted : list TopicPartition) (a : Assignment) : Assignment :=
  match sorted with
  | [] => a
  | p :: sorted =>
      let id := default [] (members !! Z.to_nat (i mod zlen members)) in
      deal_round_robin members (i + 1) sorted (push_back id p a)
  end.
Definition AssignRoundRobin (member_ids : list bytes) (partitions : list TopicPartition) : Assignment :=
  let members := SortedMembers member_ids in
  match members with
  | [] => []
  | _ => deal_round_robin members 0 (SortedPartitions partitions) (with_members members)
  end.

Definition Assign (strategy : AssignmentStrategy) (member_ids : list bytes) (partitions : list TopicPartition) : Assignment :=
  match strategy with
  | kRoundRobin => AssignRoundRobin member_ids partitions
  | kRange => AssignRange member_ids partitions
  end.

(** ** Sorted sets *)

Section SortUnique.
Context {A : Type} `{!EqDecision A} (R : relation A) `{!RelDecision R, !Transitive R, !Total R, !AntiSymm (=) R}.

Lemma unique_elem (l : list A) x : x ∈ unique l ↔ x ∈ l.
Proof.
  induction l as [|y l IH]; [done|]. destruct l as [|z l]; [done|]. cbn [unique].
  case_decide as Hd.
  - subst. rewrite IH, !elem_of_cons. tauto.
  - by rewrite !(elem_of_cons _ x y), IH.
Qed.
Lemma unique_sorted (l : list A) : StronglySorted R l → StronglySorted R (unique l) ∧ NoDup (unique l).
Proof.
  induction 1 as [|y l Hs [IH1 IH2] Hy]; [by split; constructor|].
  destruct l as [|z l]; [split; [by repeat constructor|apply NoDup_singleton]|]. cbn [unique]. case_decide as Hd; [done|].
  assert (Hall : Forall (R y) (unique (z :: l))).
  { apply Forall_forall. intros x Hx. rewrite unique_elem in Hx. exact (proj1 (Forall_forall _ _) Hy x Hx). }
  split; [by constructor|]. constructor; [|done]. intros Hin. apply (proj1 (unique_elem (z :: l) y)) in Hin.
  apply elem_of_cons in Hin as [->|Hin]; [done|]. inversion Hs as [|? ? Hs' Hz]; subst.
  pose proof (proj1 (Forall_forall _ _) Hz y Hin) as H1. inversion Hy as [|? ? H2 _]; subst.
  apply Hd. by apply (anti_symm R).
Qed.

Definition sorted_set (l : list A) : list A := unique (merge_sort R l).
Lemma sorted_set_elem l x : x ∈ sorted_set l ↔ x ∈ l.
Proof. unfold sorted_set. by rewrite unique_elem, (merge_sort_Permutation R l). Qed.
Lemma sorted_set_spec l : StronglySorted R (sorted_set l) ∧ NoDup (sorted_set l).
Proof. apply unique_sorted, (StronglySorted_merge_sort R). Qed.
(** The set alone determines the list. *)
Lemma sorted_set_ext l l' : (∀ x, x ∈ l ↔ x ∈ l') → sorted_set l = sorted_set l'.
Proof.
  intros H. apply (StronglySorted_unique R); [apply sorted_set_spec..|].
  apply NoDup_Permutation; [apply sorted_set_spec..|]. intros x. by rewrite !sorted_set_elem.
Qed.
End SortUnique.

Lemma SortedMembers_spec ms : NoDup (SortedMembers ms) ∧ ∀ x, x ∈ SortedMembers ms ↔ x ∈ ms.
Proof. split; [apply (sorted_set_spec bytes_le)|apply (sorted_set_elem bytes_le)]. Qed.
Lemma SortedPartitions_spec ps : NoDup (SortedPartitions ps) ∧ ∀ x, x ∈ SortedPartitions ps ↔ x ∈ ps.
Proof. split; [apply (sorted_set_spec tp_le)|apply (sorted_set_elem tp_le)]. Qed.

(** ** Pushing into a map of lists *)

Section Push.
Context {K V : Type} `{!EqDecision K, !KeyOrder K}.
Implicit Types m : list (K * list V).

(** All values, and those under one key. *)
Definition values m : list V := concat (map snd m).
Definition under (k : K) m : list V := default [] (om_find k m).

Lemma under_push k k' x m : under k' (push_back k x m) = under k' m ++ (if decide (k' = k) then [x] else []).
Proof.
  unfold under, push_back. rewrite om_find_insert. case_decide as Hd; [by subst|]. by rewrite app_nil_r.
Qed.
Lemma push_wf k x m : om_wf m → om_wf (push_back k x m).
Proof. apply om_insert_wf. Qed.

Lemma insert_values k v m : om_wf m → values (om_insert k v m) ++ under k m ≡ₚ v ++ values m.
Proof.
  unfold values, under. induction m as [|[k' v'] m IH]; cbn; [by rewrite !app_nil_r|]. intros [Hb Hwf].
  destruct (klt k k') eqn:Hk; cbn.
  - rewrite decide_False by (by apply klt_neq). rewrite om_below_find by (by apply (om_below_trans k k')). by rewrite app_nil_r.
  - destruct (decide (k = k')) as [->|Hne]; cbn.
    + rewrite <- app_assoc. apply Permutation_app_head, Permutation_app_comm.
    + rewrite <- app_assoc, IH by done. rewrite !app_assoc. apply Permutation_app_tail, Permutation_app_comm.
Qed.
Lemma push_values k x m : om_wf m → values (push_back k x m) ≡ₚ x :: values m.
Proof.
  intros Hwf. pose proof (insert_values k (under k m ++ [x]) m Hwf) as H. unfold push_back. fold (under k m).
  apply (Permutation_app_inv_r (under k m)). rewrite H. rewrite <- app_assoc. cbn.
  rewrite (Permutation_app_comm (under k m)). cbn. by rewrite (Permutation_app_comm (values m)).
Qed.
Lemma push_find k k' x m : is_Some (om_find k' (push_back k x m)) ↔ k' = k ∨ is_Some (om_find k' m).
Proof.
  unfold push_back. rewrite om_find_insert. case_decide as Hd; [|tauto]. subst. split; [by left|]. intros _. by eexists.
Qed.
(** Pushing a sequence of values, each under its key. *)
Definition push_all (es : list (K * V)) m : list (K * list V) := fold_left (λ m e, push_back e.1 e.2 m) es m.
Definition only (k : K) (es : list (K * V)) : list V := map snd (List.filter (λ e, bool_decide (k = e.1)) es).

Lemma push_all_app es es' m : push_all (es ++ es') m = push_all es' (push_all es m).
Proof. apply fold_left_app. Qed.
Lemma push_all_key k xs m : fold_left (λ m x, push_back k x m) xs m = push_all (map (pair k) xs) m.
Proof. revert m. induction xs as [|x xs IH]; intros m; [done|]. apply IH. Qed.
Lemma only_app k es es' : only k (es ++ es') = only k es ++ only k es'.
Proof. unfold only. by rewrite List.filter_app, map_app. Qed.
Lemma only_same k xs : only k (map (pair k) xs) = xs.
Proof. induction xs as [|x xs IH]; [done|]. unfold only in *. cbn. rewrite bool_decide_eq_true_2 by done. cbn. by f_equal. Qed.
Lemma only_other k es : k ∉ map fst es → only k es = [].
Proof.
  induction es as [|e es IH]; [done|]. cbn. rewrite not_elem_of_cons. intros [H1 H2]. unfold only in *. cbn.
  rewrite bool_decide_eq_false_2 by done. by apply IH.
Qed.

Lemma push_all_spec es m :
  om_wf m → om_wf (push_all es m) ∧
  values (push_all es m) ≡ₚ map snd es ++ values m ∧
  (∀ k, under k (push_all es m) = under k m ++ only k es) ∧
  (∀ k, is_Some (om_find k (push_all es m)) ↔ k ∈ map fst es ∨ is_Some (om_find k m)).
Proof.
  unfold push_all. revert m. induction es as [|e es IH]; intros m Hwf; cbn [fold_left map].
  { split_and!; [done|done| |]; intros k; [by rewrite app_nil_r|]. rewrite elem_of_nil. tauto. }
  destruct (IH (push_back e.1 e.2 m) (push_wf _ _ _ Hwf)) as (H1 & H2 & H3 & H4). split_and!; [done| | |].
  - rewrite H2, push_values by done. cbn. symmetry. apply Permutation_middle.
  - intros k. rewrite H3, under_push, <- app_assoc. f_equal. unfold only. cbn. destruct (decide (k = e.1)) as [Hd|Hd].
    + by rewrite bool_decide_eq_true_2.
    + by rewrite bool_decide_eq_false_2.
  - intros k. rewrite H4, push_find, elem_of_cons. tauto.
Qed.
End Push.

(** The members are the keys, each starting with nothing. *)
Lemma with_members_spec ms a0 :
  om_wf a0 → values a0 = [] → let a := fold_left (λ a id, om_emplace id [] a) ms a0 : Assignment in
  om_wf a ∧ values a = [] ∧ ∀ id, is_Some (om_find id a) ↔ id ∈ ms ∨ is_Some (om_find id a0).
Proof.
  revert a0. induction ms as [|id ms IH]; intros a0 Hwf Hv; cbn [fold_left].
  { split_and!; [done|done|]. intros id. rewrite elem_of_nil. tauto. }
  assert (Hv' : values (om_emplace id [] a0) = []).
  { unfold om_emplace. destruct (om_find id a0) eqn:E; [done|]. apply Permutation_nil.
    pose proof (insert_values id [] a0 Hwf) as H. unfold under in H. rewrite E in H. cbn in H. by rewrite app_nil_r, Hv in H. }
  destruct (IH (om_emplace id [] a0)) as (H1 & H2 & H3); [by apply om_emplace_wf|done|]. split_and!; [done|done|].
  intros id'. rewrite H3, om_find_emplace, elem_of_cons. case_decide as Hd; [|tauto]. subst. split; [tauto|]. intros _. right. by eexists.
Qed.

Lemma values_under {K V} `{!EqDecision K, !KeyOrder K} (m : list (K * list V)) x :
  om_wf m → x ∈ values m ↔ ∃ k, x ∈ under k m.
Proof.
  intros Hwf. unfold values, under. rewrite list_elem_of_In, in_concat. split.
  - intros (l & (e & <- & He)%in_map_iff & Hx). exists e.1. replace (om_find e.1 m) with (Some e.2); [by apply list_elem_of_In|].
    symmetry. apply om_find_elem; [done|]. destruct e. by apply list_elem_of_In.
  - intros [k Hk]. destruct (om_find k m) as [l|] eqn:E; [|by apply elem_of_nil in Hk].
    exists l. split; [|by apply list_elem_of_In]. apply in_map_iff. exists (k, l). split; [done|].
    by apply list_elem_of_In, om_find_In.
Qed.
(** With no duplicates overall, a value is under one key only. *)
Lemma values_exclusive {K V} `{!EqDecision K, !KeyOrder K} (m : list (K * list V)) k k' x :
  om_wf m → NoDup (values m) → x ∈ under k m → x ∈ under k' m → k = k'.
Proof.
  unfold values, under. induction m as [|[k0 l] m IH]; cbn; [by intros _ _ ?%elem_of_nil|]. intros [Hb Hwf] Hnd.
  apply NoDup_app in Hnd as (Hl & Hlm & Hm).
  assert (Hin : ∀ k, x ∈ default [] (om_find k m) → x ∉ l).
  { intros k1 Hk1 Hx. apply (Hlm x Hx). apply (values_under m x Hwf). by exists k1. }
  destruct (decide (k = k0)) as [->|Hk], (decide (k' = k0)) as [->|Hk']; cbn; [done| | |by apply IH].
  - intros Hx Hx'. by destruct (Hin k' Hx').
  - intros Hx Hx'. by destruct (Hin k Hx).
Qed.

(** ** What each strategy deals, as a sequence of (member, partition) *)

Fixpoint range_deals (members : list bytes) (m per_member remainder : Z) (ps : list TopicPartition) : list (bytes * TopicPartition) :=
  match members with
  | [] => []
  | id :: members =>
      let take := per_member + (if m <? remainder then 1 else 0) in
      map (pair id) (ztake take ps) ++ range_deals members (m + 1) per_member remainder (zdrop take ps)
  end.
Lemma deal_range_deals members m q r ps a : deal_range members m q r ps a = push_all (range_deals members m q r ps) a.
Proof.
  revert m ps a. induction members as [|id members IH]; intros m ps a; [done|]. cbn [deal_range range_deals].
  by rewrite push_all_app, push_all_key, IH.
Qed.

(** Where the block of member [i] starts when [count] partitions are split among [n], and
    the block itself. *)
Definition block_start (n count i : Z) : Z := i * (count / n) + i `min` (count mod n).
Definition block {V} (n i : Z) (ps : list V) : list V :=
  let count := zlen ps in
  ztake (block_start n count (i + 1) - block_start n count i) (zdrop (block_start n count i) ps).

Section RangeDeals.
Context (q r : Z) (Hq : 0 ≤ q) (Hr : 0 ≤ r).
Let start i := i * q + i `min` r.

Lemma range_deals_all members m ps :
  0 ≤ m → r ≤ m + zlen members → zlen ps ≤ start (m + zlen members) - start m → map snd (range_deals members m q r ps) = ps.
Proof.
  revert m ps. induction members as [|id members IH]; intros m ps Hm Hlen Hps; cbn [range_deals map].
  { change (zlen (@nil bytes)) with 0 in *. symmetry. apply zlen_0_nil. pose proof (zlen_nonneg ps). unfold start in Hps. lia. }
  rewrite zlen_cons in *. rewrite map_app, map_map. cbn. rewrite map_id.
  rewrite IH; [apply ztake_zdrop|lia|lia|]. rewrite zlen_zdrop. pose proof (Z.mul_nonneg_nonneg (zlen members) q (zlen_nonneg _) Hq). unfold start in *. destruct (m <? r) eqn:E; lia.
Qed.
Lemma range_deals_keys members m ps id : id ∈ map fst (range_deals members m q r ps) → id ∈ members.
Proof.
  revert m ps. induction members as [|id' members IH]; intros m ps; cbn [range_deals map]; [done|].
  rewrite map_app, map_map, elem_of_app. cbn. intros [(p & -> & _)%list_elem_of_fmap|H]; [left|right; by apply (IH _ _ H)].
Qed.
Lemma range_deals_only members m ps (i : nat) id :
  NoDup members → 0 ≤ m → members !! i = Some id →
  only id (range_deals members m q r ps) = ztake (start (m + Z.of_nat i + 1) - start (m + Z.of_nat i)) (zdrop (start (m + Z.of_nat i) - start m) ps).
Proof.
  revert m ps i. induction members as [|id' members IH]; intros m ps i Hnd Hm Hi; [done|]. cbn [range_deals].
  apply NoDup_cons in Hnd as [Hid Hnd]. rewrite only_app. destruct i as [|i]; cbn in Hi.
  - injection Hi as ->. rewrite only_same, (only_other id (range_deals _ _ _ _ _)) by (by intros ?%range_deals_keys).
    rewrite app_nil_r. unfold start. rewrite zdrop_0 by lia. f_equal. destruct (m <? r) eqn:E; lia.
  - rewrite (only_other id (map _ _)).
    2:{ rewrite map_map. cbn. intros (p & -> & _)%list_elem_of_fmap. apply Hid. by apply list_elem_of_lookup_2 with i. }
    rewrite app_nil_l, (IH _ _ i) by (done || lia). rewrite zdrop_zdrop by (unfold start; destruct (m <? r) eqn:E; lia).
    f_equal; [|f_equal]; unfold start; destruct (m <? r) eqn:E; lia.
Qed.
End RangeDeals.

Section Dealing.
Context (members : list bytes) (Hnd : NoDup members) (Hne : members ≠ []).
Let n := zlen members.
Lemma dealing_pos : 0 < n.
Proof using Hne. unfold n, zlen. pose proof (nil_length_inv members). assert (length members ≠ 0%nat) by tauto. lia. Qed.

Definition topic_deals (ps : list TopicPartition) : list (bytes * TopicPartition) :=
  range_deals members 0 (zlen ps / n) (zlen ps mod n) ps.
Lemma topic_deals_all ps : map snd (topic_deals ps) = ps.
Proof using Hne.
  pose proof dealing_pos as Hn. pose proof (zlen_nonneg ps) as Hl. pose proof (Z.mod_pos_bound (zlen ps) n Hn) as Hb.
  apply range_deals_all; [by apply Z.div_pos|lia|fold n; lia|]. fold n. rewrite Z.add_0_l, (Z.min_r n) by lia.
  rewrite (Z.div_mod (zlen ps) n) at 1 by lia. lia.
Qed.
Lemma topic_deals_only ps (i : nat) id : members !! i = Some id → only id (topic_deals ps) = block n (Z.of_nat i) ps.
Proof using Hne Hnd.
  intros Hi. pose proof dealing_pos as Hn. unfold topic_deals, block, block_start.
  pose proof (Z.mod_pos_bound (zlen ps) n Hn). rewrite range_deals_only with (i := i) by (done || (apply Z.div_pos; [apply zlen_nonneg|done]) || lia).
  rewrite !Z.add_0_l. f_equal. f_equal. lia.
Qed.

(** Range, topic after topic. *)
Definition all_range_deals (topics : list (bytes * list TopicPartition)) : list (bytes * TopicPartition) :=
  concat (map (λ e, topic_deals e.2) topics).
Lemma range_pushes topics a :
  fold_left (λ a e, assign_topic members a e.2) topics a = push_all (all_range_deals topics) a.
Proof.
  unfold all_range_deals. revert a. induction topics as [|e topics IH]; intros a; [done|]. cbn [fold_left map concat]. rewrite push_all_app, IH.
  f_equal. apply deal_range_deals.
Qed.
Lemma range_deals_values topics : map snd (all_range_deals topics) = values topics.
Proof using Hne.
  unfold all_range_deals, values. rewrite concat_map, map_map. f_equal. apply map_ext. intros e. apply topic_deals_all.
Qed.
Lemma all_range_keys topics id : id ∈ map fst (all_range_deals topics) → id ∈ members.
Proof.
  unfold all_range_deals. rewrite concat_map, map_map. rewrite list_elem_of_In, in_concat. intros (l & (e & <- & _)%in_map_iff & Hin).
  apply list_elem_of_In in Hin. by apply range_deals_keys in Hin.
Qed.
Lemma all_range_only topics (i : nat) id :
  members !! i = Some id → only id (all_range_deals topics) = concat (map (λ e, block n (Z.of_nat i) e.2) topics).
Proof using Hne Hnd.
  intros Hi. unfold all_range_deals. induction topics as [|e topics IH]; [done|]. cbn [map concat]. rewrite only_app, IH. f_equal.
  by apply topic_deals_only.
Qed.

(** Round robin, index after index. *)
Definition robin (j : nat) (p : TopicPartition) : bytes * TopicPartition :=
  (default [] (members !! (j mod length members)%nat), p).
Lemma deal_round_robin_deals (i : nat) ps a :
  deal_round_robin members (Z.of_nat i) ps a = push_all (imap (λ j, robin (i + j)) ps) a.
Proof using Hne.
  revert i a. induction ps as [|p ps IH]; intros i a; [done|]. cbn [deal_round_robin]. rewrite imap_cons. cbn.
  replace (Z.of_nat i + 1) with (Z.of_nat (S i)) by lia. rewrite IH. f_equal.
  - apply imap_ext. intros j x _. cbn. f_equal. lia.
  - unfold robin, zlen. rewrite <- Nat2Z.inj_mod, Nat2Z.id. by rewrite Nat.add_0_r.
Qed.
Lemma robin_values ps : map snd (imap robin ps) = ps.
Proof.
  apply list_eq. intros j. rewrite list_lookup_fmap, list_lookup_imap. by destruct (ps !! j).
Qed.
Lemma robin_keys ps id : id ∈ map fst (imap robin ps) → id ∈ members.
Proof using Hne.
  intros (e & -> & (j & p & -> & _)%elem_of_lookup_imap_1)%list_elem_of_fmap. cbn.
  destruct (lookup_lt_is_Some_2 members (j mod length members)) as [x Hx].
  { apply Nat.mod_upper_bound. by intros ?%nil_length_inv. }
  rewrite Hx. by apply list_elem_of_lookup_2 in Hx.
Qed.
(** The member of index [i] gets the partitions [i], [i + n], [i + 2n], ... *)
Lemma robin_only ps (i : nat) id :
  members !! i = Some id → ∀ j, only id (imap robin ps) !! j = ps !! (i + j * length members)%nat.
Proof using Hne Hnd.
  intros Hi. assert (Hlt : (i < length members)%nat) by (by apply lookup_lt_Some in Hi).
  induction ps as [|p ps IH] using rev_ind; intros j; [by rewrite !lookup_nil|].
  rewrite imap_app, only_app. change (imap (λ n, robin (length ps + n)) [p]) with [robin (length ps + 0) p]. rewrite Nat.add_0_r. unfold only at 2. cbn.
  set (L := length ps) in *. set (N := length members) in *.
  destruct (lookup_lt_is_Some_2 members (L mod N)) as [x Hx]; [apply Nat.mod_upper_bound; lia|]. fold N. rewrite Hx. cbn.
  pose proof (Nat.div_mod_eq L N) as HL. destruct (decide (i = (L mod N)%nat)) as [He|He].
  - assert (x = id) as -> by congruence. rewrite bool_decide_eq_true_2 by done. cbn.
    assert (Hlen : length (only id (imap robin ps)) = (L / N)%nat).
    { apply Nat.le_antisymm.
      - apply Nat.nlt_ge. intros Hc. destruct (lookup_lt_is_Some_2 (only id (imap robin ps)) (L / N) Hc) as [y Hy].
        rewrite IH in Hy. apply lookup_lt_Some in Hy. fold L in Hy. lia.
      - destruct (L / N)%nat as [|k] eqn:Hk; [lia|]. apply (lookup_lt_is_Some_1 _ k). rewrite IH. apply lookup_lt_is_Some_2. fold L. lia. }
    destruct (decide (j = L / N)%nat) as [->|Hj].
    + rewrite lookup_app_r by lia. rewrite Hlen, Nat.sub_diag. rewrite lookup_app_r by (fold L; lia).
      replace (i + L / N * N - length ps)%nat with 0%nat by (fold L; lia). done.
    + destruct (decide (j < L / N)%nat) as [Hj'|Hj'].
      * rewrite lookup_app_l by lia. rewrite IH. rewrite lookup_app_l by (fold L; nia). done.
      * rewrite !lookup_ge_None_2; [done|rewrite length_app; cbn; fold L; nia|rewrite length_app; cbn; lia].
  - rewrite bool_decide_eq_false_2. 2:{ intros ->. apply He. by apply (NoDup_lookup members i (L mod N) x). }
    cbn. rewrite app_nil_r, IH. destruct (decide (i + j * N < L)%nat); [by rewrite lookup_app_l by (fold L; lia)|].
    rewrite !lookup_ge_None_2; [done|rewrite length_app; cbn; fold L|fold L; lia].
    enough (i + j * N ≠ L)%nat by lia. intros <-. apply He. rewrite Nat.Div0.mod_add. symmetry. by apply Nat.mod_small.
Qed.
End Dealing.

(** ** The theorems *)

Lemma by_topic_spec sorted :
  om_wf (by_topic sorted) ∧ values (by_topic sorted) ≡ₚ sorted ∧
  ∀ t, under t (by_topic sorted) = List.filter (λ p, bool_decide (t = topic p)) sorted.
Proof.
  assert (by_topic sorted = push_all (map (λ p, (topic p, p)) sorted) []) as ->.
  { unfold by_topic, push_all. generalize (@nil (bytes * list TopicPartition)). induction sorted as [|p sorted IH]; intros m; [done|]. apply IH. }
  destruct (push_all_spec (map (λ p, (topic p, p)) sorted) []) as (H1 & H2 & H3 & _); [done|]. split_and!; [done| |].
  - rewrite H2, map_map. cbn. by rewrite map_id, app_nil_r.
  - intros t. rewrite H3. cbn. unfold only. clear. induction sorted as [|p sorted IH]; [done|]. cbn.
    case_bool_decide; cbn; by rewrite ?IH.
Qed.

Lemma nonempty_members ms : ms ≠ [] → SortedMembers ms ≠ [].
Proof.
  intros H HS. destruct ms as [|x ms]; [done|]. assert (Hx : x ∈ SortedMembers (x :: ms)) by (apply SortedMembers_spec; left).
  rewrite HS in Hx. by apply elem_of_nil in Hx.
Qed.
Lemma AssignRange_pushes ms ps :
  ms ≠ [] → AssignRange ms ps = push_all (all_range_deals (SortedMembers ms) (by_topic (SortedPartitions ps))) (with_members (SortedMembers ms)).
Proof.
  intros H%nonempty_members. unfold AssignRange. destruct (SortedMembers ms) eqn:E; [done|]. rewrite <- E. apply range_pushes.
Qed.
Lemma AssignRoundRobin_pushes ms ps :
  ms ≠ [] → AssignRoundRobin ms ps = push_all (imap (robin (SortedMembers ms)) (SortedPartitions ps)) (with_members (SortedMembers ms)).
Proof.
  intros H%nonempty_members. unfold AssignRoundRobin. destruct (SortedMembers ms) eqn:E; [done|]. rewrite <- E in *.
  by rewrite (deal_round_robin_deals _ H 0).
Qed.
(** Whatever the strategy, it deals each partition once and only to members. *)
Lemma Assign_pushes strategy ms ps :
  ms ≠ [] → ∃ es, Assign strategy ms ps = push_all es (with_members (SortedMembers ms)) ∧
    map snd es ≡ₚ SortedPartitions ps ∧ ∀ id, id ∈ map fst es → id ∈ ms.
Proof.
  intros H. pose proof (nonempty_members ms H) as HS. destruct strategy; cbn [Assign].
  - eexists. split_and!; [by apply AssignRange_pushes| |].
    + rewrite range_deals_values by done. apply by_topic_spec.
    + intros id Hid%all_range_keys. by apply SortedMembers_spec.
  - eexists. split_and!; [by apply AssignRoundRobin_pushes| |].
    + by rewrite robin_values.
    + intros id Hid%robin_keys; [|done]. by apply SortedMembers_spec.
Qed.
Lemma Assign_no_members strategy ps : Assign strategy [] ps = [].
Proof. by destruct strategy. Qed.

Lemma Assign_spec strategy ms ps :
  om_wf (Assign strategy ms ps) ∧ (∀ id, is_Some (om_find id (Assign strategy ms ps)) ↔ id ∈ ms) ∧
  (ms ≠ [] → values (Assign strategy ms ps) ≡ₚ SortedPartitions ps).
Proof.
  destruct (decide (ms = [])) as [->|Hne].
  { rewrite Assign_no_members. split_and!; [done| |done]. intros id. rewrite elem_of_nil. split; [intros [? [=]]|done]. }
  destruct (Assign_pushes strategy ms ps Hne) as (es & -> & Hs & Hk).
  destruct (with_members_spec (SortedMembers ms) [] I eq_refl) as (W1 & W2 & W3). fold (with_members (SortedMembers ms)) in *.
  destruct (push_all_spec es (with_members (SortedMembers ms)) W1) as (P1 & P2 & _ & P4). split_and!; [done| |].
  - intros id. rewrite P4, W3, (proj2 (SortedMembers_spec ms) id). split; [intros [?|[?|[? [=]]]]; auto|tauto].
  - intros _. by rewrite P2, W2, app_nil_r.
Qed.

(** Nobody gets a partition twice. *)
Lemma under_NoDup strategy ms ps id : NoDup (under id (Assign strategy ms ps)).
Proof.
  destruct (Assign_spec strategy ms ps) as (Hwf & Hk & Hv). set (a := Assign strategy ms ps) in *.
  unfold under. destruct (om_find id a) as [l|] eqn:E; [|constructor]. cbn.
  assert (Hne : ms ≠ []). { assert (id ∈ ms) by (apply Hk; by rewrite E). intros ->. by destruct (elem_of_nil id). }
  assert (Hnd : NoDup (values a)) by (rewrite (Hv Hne); apply SortedPartitions_spec).
  apply om_find_In, list_elem_of_split in E as (m1 & m2 & Ha). unfold values in Hnd. rewrite Ha in Hnd.
  rewrite map_app, concat_app in Hnd. cbn in Hnd. by apply NoDup_app in Hnd as (_ & _ & (? & _)%NoDup_app).
Qed.

(** C21. Within one generation every assigned partition goes to exactly one member.  For
    either strategy, any members and any partitions: the members (with or without
    partitions) are exactly the ids given; only given partitions are dealt and only to
    given members; with at least one member every partition is dealt; no partition is
    with two members, nor twice with one; and the result depends on the sets of members
    and partitions alone, not on their order or repetitions. *)
Theorem assign_exclusive strategy ms ps :
  let a := Assign strategy ms ps in
  (∀ id, is_Some (om_find id a) ↔ id ∈ ms) ∧
  (∀ id p, p ∈ under id a → p ∈ ps ∧ id ∈ ms) ∧
  (ms ≠ [] → ∀ p, p ∈ ps → ∃ id, p ∈ under id a) ∧
  (∀ id id' p, p ∈ under id a → p ∈ under id' a → id = id') ∧
  (∀ id, NoDup (under id a)) ∧
  (∀ ms' ps', (∀ id, id ∈ ms' ↔ id ∈ ms) → (∀ p, p ∈ ps' ↔ p ∈ ps) → Assign strategy ms' ps' = a).
Proof.
  intros a. destruct (Assign_spec strategy ms ps) as (Hwf & Hk & Hv). fold a in Hwf, Hk, Hv.
  destruct (SortedPartitions_spec ps) as [Pnd Pel].
  assert (Hin : ∀ id p, p ∈ under id a → ms ≠ [] ∧ id ∈ ms).
  { intros id p Hp. enough (id ∈ ms) by (split; [by intros ->; destruct (elem_of_nil id)|done]).
    apply Hk. unfold under in Hp. destruct (om_find id a); [by eexists|]. by apply elem_of_nil in Hp. }
  assert (Hval : ∀ p, ms ≠ [] → p ∈ values a ↔ p ∈ ps) by (intros p Hne; by rewrite (Hv Hne), Pel).
  assert (Hnd : ms ≠ [] → NoDup (values a)) by (intros Hne; by rewrite (Hv Hne)).
  split_and!.
  - done.
  - intros id p Hp. destruct (Hin id p Hp) as [Hne Hid]. split; [|done]. apply Hval; [done|]. apply values_under; [done|]. by exists id.
  - intros Hne p Hp. by apply values_under, Hval.
  - intros id id' p Hp Hp'. destruct (Hin id p Hp) as [Hne _]. by apply (values_exclusive a id id' p Hwf (Hnd Hne)).
  - apply under_NoDup.
  - intros ms' ps' Hms Hps. unfold a.
    assert (SortedMembers ms' = SortedMembers ms) as E1 by (by apply (sorted_set_ext bytes_le)).
    assert (SortedPartitions ps' = SortedPartitions ps) as E2 by (by apply (sorted_set_ext tp_le)).
    destruct strategy; cbn [Assign]; unfold AssignRange, AssignRoundRobin; by rewrite E1, E2.
Qed.

(** The part of a member's list that belongs to topic [t]. *)
Definition of_topic (t : bytes) (ps : list TopicPartition) : list TopicPartition :=
  List.filter (λ p, bool_decide (t = topic p)) ps.

Lemma under_with_members members id : under id (with_members members) = [].
Proof.
  destruct (with_members_spec members [] I eq_refl) as (W1 & W2 & _). fold (with_members members) in *.
  destruct (under id (with_members members)) as [|p l] eqn:E; [done|].
  assert (Hp : p ∈ values (with_members members)) by (apply values_under; [done|]; exists id; rewrite E; left).
  rewrite W2 in Hp. by apply elem_of_nil in Hp.
Qed.
Lemma under_dealt members es id : under id (push_all es (with_members members)) = only id es.
Proof.
  destruct (with_members_spec members [] I eq_refl) as (W1 & _ & _). fold (with_members members) in *.
  destruct (push_all_spec es (with_members members) W1) as (_ & _ & P3 & _). by rewrite P3, under_with_members.
Qed.

Lemma Forall_of_topic t ps : Forall (λ p, topic p = t) (of_topic t ps).
Proof.
  apply Forall_forall. intros p Hp%list_elem_of_In. apply List.filter_In in Hp as [_ Hp]. by case_bool_decide.
Qed.
Lemma of_topic_own t t' ps : Forall (λ p, topic p = t') ps → of_topic t ps = if decide (t' = t) then ps else [].
Proof.
  unfold of_topic. induction 1 as [|p ps Hp Hps IH]; cbn; [by case_decide|]. rewrite IH. subst.
  repeat case_decide; case_bool_decide; congruence.
Qed.
Lemma Forall_block {V} (P : V → Prop) n i ps : Forall P ps → Forall P (block n i ps).
Proof. intros H. unfold block. by apply Forall_take, Forall_drop. Qed.
(** Of the blocks of all topics, those of topic [t] are the block of [t]. *)
Lemma of_topic_blocks t n i (topics : list (bytes * list TopicPartition)) :
  om_wf topics → (∀ e, e ∈ topics → Forall (λ p, topic p = e.1) e.2) →
  of_topic t (concat (map (λ e, block n i e.2) topics)) = block n i (under t topics).
Proof.
  assert (Hnil : block n i (@nil TopicPartition) = []) by (unfold block, ztake, zdrop; by rewrite drop_nil, take_nil).
  unfold under. induction topics as [|[t' ps] topics IH]; cbn; [done|]. intros [Hb Hwf] Hall.
  unfold of_topic in *. rewrite List.filter_app. fold (of_topic t (block n i ps)).
  rewrite (of_topic_own t t') by (apply Forall_block, (Hall (t', ps)); left).
  rewrite IH; [|done|intros e He; apply Hall; by right]. destruct (decide (t' = t)) as [->|Hd].
  - rewrite (om_below_find t topics Hb), decide_True by done. cbn. by rewrite Hnil, app_nil_r.
  - by rewrite decide_False by congruence.
Qed.

Lemma AssignRange_blocks ms ps (i : nat) id t :
  SortedMembers ms !! i = Some id →
  of_topic t (under id (AssignRange ms ps)) = block (zlen (SortedMembers ms)) (Z.of_nat i) (of_topic t (SortedPartitions ps)).
Proof.
  intros Hi. assert (Hne : ms ≠ []) by (by intros ->). pose proof (nonempty_members ms Hne) as HS.
  rewrite AssignRange_pushes, under_dealt by done.
  rewrite (all_range_only _ (proj1 (SortedMembers_spec ms)) HS _ i id Hi).
  destruct (by_topic_spec (SortedPartitions ps)) as (Hwf & _ & Hu). rewrite of_topic_blocks; [by rewrite Hu|done|].
  intros [t' l] He. apply om_find_elem in He; [|done]. cbn. specialize (Hu t'). unfold under in Hu. rewrite He in Hu. cbn in Hu.
  rewrite Hu. apply Forall_of_topic.
Qed.
Lemma AssignRoundRobin_picks ms ps (i : nat) id :
  SortedMembers ms !! i = Some id →
  ∀ j, under id (AssignRoundRobin ms ps) !! j = SortedPartitions ps !! (i + j * length (SortedMembers ms))%nat.
Proof.
  intros Hi. assert (Hne : ms ≠ []) by (by intros ->). pose proof (nonempty_members ms Hne) as HS.
  rewrite AssignRoundRobin_pushes, under_dealt by done. apply robin_only; [apply SortedMembers_spec|done|done].
Qed.

Lemma zlen_block {V} n i (ps : list V) :
  0 ≤ i < n → zlen (block n i ps) = zlen ps / n + (if i <? zlen ps mod n then 1 else 0).
Proof.
  intros Hi. unfold block, block_start. pose proof (zlen_nonneg ps) as Hl. pose proof (Z.mod_pos_bound (zlen ps) n ltac:(lia)).
  pose proof (Z.div_pos (zlen ps) n Hl ltac:(lia)). pose proof (Z.div_mod (zlen ps) n ltac:(lia)).
  rewrite zlen_ztake, zlen_zdrop. destruct (i <? zlen ps mod n) eqn:E; nia.
Qed.
(** Lists that take every [n]-th element from different starts below [n] are of even length. *)
Lemma picks_even {V} (l u u' : list V) n i i' :
  (i < n → i' < n → (∀ j, u !! j = l !! (i + j * n)) → (∀ j, u' !! j = l !! (i' + j * n)) → length u ≤ S (length u'))%nat.
Proof.
  intros Hi Hi' Hu Hu'. apply Nat.nlt_ge. intros Hc.
  destruct (lookup_lt_is_Some_2 u (S (length u')) Hc) as [x Hx]. rewrite Hu in Hx. apply lookup_lt_Some in Hx.
  pose proof (lookup_ge_None_2 u' (length u') (le_n _)) as Hn. rewrite Hu' in Hn. apply lookup_ge_None in Hn. lia.
Qed.

(** How the partitions are shared.  Under the range strategy a member's partitions of a
    topic are a contiguous block of the topic's sorted partitions, the blocks following the
    order of the member ids; under round robin the member of index [i] has the sorted
    partitions [i], [i + n], [i + 2n], ...  Either way two members' shares (of each topic,
    or of all partitions) differ by at most one, and a range member of smaller index
    never has fewer than one of larger index. *)
Theorem assign_even ms ps (i i' : nat) id id' :
  SortedMembers ms !! i = Some id → SortedMembers ms !! i' = Some id' →
  let n := zlen (SortedMembers ms) in
  let range t id := of_topic t (under id (AssignRange ms ps)) in
  let robin id := under id (AssignRoundRobin ms ps) in
  (∀ t, range t id = block n (Z.of_nat i) (of_topic t (SortedPartitions ps)) ∧
        zlen (range t id) ≤ zlen (range t id') + 1 ∧ ((i ≤ i')%nat → zlen (range t id') ≤ zlen (range t id))) ∧
  (∀ j, robin id !! j = SortedPartitions ps !! (i + j * length (SortedMembers ms))%nat) ∧
  zlen (robin id) ≤ zlen (robin id') + 1.
Proof.
  intros Hi Hi' n range rob. pose proof (lookup_lt_Some _ _ _ Hi) as Hlt. pose proof (lookup_lt_Some _ _ _ Hi') as Hlt'.
  split_and!.
  - intros t. unfold range. rewrite (AssignRange_blocks _ _ i id), (AssignRange_blocks _ _ i' id') by done.
    split; [done|]. fold n. rewrite !zlen_block by (unfold n, zlen; lia).
    destruct (Z.ltb_spec (Z.of_nat i) (zlen (of_topic t (SortedPartitions ps)) mod n)),
             (Z.ltb_spec (Z.of_nat i') (zlen (of_topic t (SortedPartitions ps)) mod n)); lia.
  - by apply AssignRoundRobin_picks.
  - unfold rob, zlen. pose proof (picks_even (SortedPartitions ps) (rob id) (rob id') (length (SortedMembers ms)) i i' Hlt Hlt'
      (AssignRoundRobin_picks ms ps i id Hi) (AssignRoundRobin_picks ms ps i' id' Hi')) as H. unfold rob in H. lia.
Qed.

(** Seven partitions of two topics, three members. *)
Lemma assign_even_witness :
  let ms := [[99]; [97]; [98]; [97]] in
  let ps := map (λ p, {| topic := [116]; partition := p |}) [3; 0; 1; 2] ++ map (λ p, {| topic := [117]; partition := p |}) [0; 2; 1] in
  zlen (under [97] (AssignRoundRobin ms ps)) ≤ zlen (under [99] (AssignRoundRobin ms ps)) + 1 ∧
  AssignRange ms ps =
    [([97], [{| topic := [116]; partition := 0 |}; {| topic := [116]; partition := 1 |}; {| topic := [117]; partition := 0 |}]);
     ([98], [{| topic := [116]; partition := 2 |}; {| topic := [117]; partition := 1 |}]);
     ([99], [{| topic := [116]; partition := 3 |}; {| topic := [117]; partition := 2 |}])].
Proof. intros ms ps. split; [exact (proj2 (proj2 (assign_even ms ps 0 2 [97] [99] eq_refl eq_refl)))|vm_compute; reflexivity]. Defined.
