(* ===== verification/OffsetStore.v ===== *)
(** * OffsetStore: committed consumer offsets, kept in a journal

    Models include/pulselog/consumer/offset_store.h and src/consumer/offset_store.cc.
    Commits are records of an internal partition log; the map in memory is rebuilt by
    replaying it, the last write of a key winning.  Every method runs under the
    store's mutex, so each is one step of the model. *)
From S2P Require Import Prelude Status Endian Buffer Types OrdMap Codec MessageCodec Record FileUtil Segment PartitionLog.

Record CommittedOffset := mkCommitted { co_offset : Z; co_metadata : bytes; co_commit_time : Z }.
Record OffsetKey := mkOffsetKey { ok_group_id : bytes; ok_topic : bytes; ok_partition : Z }.

#[global] Instance OffsetKey_eq : EqDecision OffsetKey.
Proof. solve_decision. Defined.
#[global] Instance CommittedOffset_eq : EqDecision CommittedOffset.
Proof. solve_decision. Defined.

(** [operator<] *)
Definition OffsetKey_ltb (a b : OffsetKey) : bool :=
  if decide (ok_group_id a = ok_group_id b) then
    if decide (ok_topic a = ok_topic b) then ok_partition a <? ok_partition b
    else bytes_ltb (ok_topic a) (ok_topic b)
  else bytes_ltb (ok_group_id a) (ok_group_id b).

Lemma OffsetKey_ltb_irrefl a : OffsetKey_ltb a a = false.
Proof. unfold OffsetKey_ltb. rewrite !decide_True by done. apply Z.ltb_irrefl. Qed.
Lemma OffsetKey_ltb_trans a b c : OffsetKey_ltb a b = true → OffsetKey_ltb b c = true → OffsetKey_ltb a c = true.
Proof.
  destruct a as [g1 t1 p1], b as [g2 t2 p2], c as [g3 t3 p3]. unfold OffsetKey_ltb. cbn. intros H1 H2.
  destruct (decide (g1 = g2)), (decide (g2 = g3)), (decide (g1 = g3)); subst; try congruence.
  - destruct (decide (t1 = t2)), (decide (t2 = t3)), (decide (t1 = t3)); subst; try congruence.
    + rewrite Z.ltb_lt in *. lia.
    + pose proof (bytes_ltb_trans _ _ _ H1 H2) as H. by rewrite bytes_ltb_irrefl in H.
    + by apply (bytes_ltb_trans _ t2).
  - pose proof (bytes_ltb_trans _ _ _ H1 H2) as H. by rewrite bytes_ltb_irrefl in H.
  - by apply (bytes_ltb_trans _ g2).
Qed.
Lemma OffsetKey_ltb_total a b : OffsetKey_ltb a b = true ∨ a = b ∨ OffsetKey_ltb b a = true.
Proof.
  destruct a as [g1 t1 p1], b as [g2 t2 p2]. unfold OffsetKey_ltb. cbn.
  destruct (decide (g1 = g2)) as [<-|H12].
  - rewrite (decide_True (P := g1 = g1)) by done. destruct (decide (t1 = t2)) as [<-|Ht12].
    + rewrite (decide_True (P := t1 = t1)) by done. rewrite !Z.ltb_lt. destruct (Z.lt_trichotomy p1 p2) as [?|[->|?]]; auto.
    + rewrite (decide_False (P := t2 = t1)) by congruence. destruct (bytes_ltb_total t1 t2) as [|[|]]; [auto|congruence|auto].
  - rewrite (decide_False (P := g2 = g1)) by congruence. destruct (bytes_ltb_total g1 g2) as [|[|]]; [auto|congruence|auto].
Qed.
#[global] Instance OffsetKey_order : KeyOrder OffsetKey :=
  {| klt := OffsetKey_ltb; klt_irrefl := OffsetKey_ltb_irrefl; klt_trans := OffsetKey_ltb_trans; klt_total := OffsetKey_ltb_total |}.

(** ** Key and value encoding *)

Definition EncodeKey {W} `{!ByteSink W} (key : OffsetKey) : W → W :=
  PutString (ok_group_id key) ;;>
  PutString (ok_topic key) ;;>
  PutI32 (ok_partition key).
Definition get_key : Getter OffsetKey :=
  let^ group_id := GetString in
  let^ topic := GetString in
  let^ partition := GetI32 in
  gguard (negb (partition <? 0)) ;;^
  gret (mkOffsetKey group_id topic partition).
Definition EncodeValue {W} `{!ByteSink W} (value : CommittedOffset) : W → W :=
  PutI64 (co_offset value) ;;>
  PutI64 (co_commit_time value) ;;>
  PutString (co_metadata value).
Definition get_value : Getter CommittedOffset :=
  let^ offset := GetI64 in
  let^ commit_time := GetI64 in
  let^ metadata := GetString in
  gret (mkCommitted offset metadata commit_time).

(** [return reader.Complete();] *)
Definition get_all {A} (g : Getter A) (bs : bytes) : option A :=
  match g (newReader bs) with
  | (Some x, r) => if Complete r then Some x else None
  | (None, _) => None
  end.
Definition DecodeKey : bytes → option OffsetKey := get_all get_key.
Definition DecodeValue : bytes → option CommittedOffset := get_all get_value.

(** ** The store *)

Abbreviation Offsets := (list (OffsetKey * CommittedOffset)).

(** [scratch_] holds nothing between commits and is not part of the state; [log_] is
    null once the store is closed. *)
Record OffsetStore := mkStore {
  os_log : option PartitionLog; os_offsets : Offsets; os_sync_on_commit : bool; os_replayed : Z }.

Definition with_store_log (l : PartitionLog) (st : OffsetStore) : OffsetStore :=
  mkStore (Some l) (os_offsets st) (os_sync_on_commit st) (os_replayed st).
Definition with_store_offsets (m : Offsets) (n : Z) (st : OffsetStore) : OffsetStore :=
  mkStore (os_log st) m (os_sync_on_commit st) n.

Definition store_options (sync_on_commit : bool) : LogOptions :=
  mkLogOptions (8 * 1024 * 1024) (-1) 4096 (-1) (-1) (64 * 1024 * 1024) false kWrite kFull
    (mkFlushPolicy sync_on_commit 200 (256 * 1024) 100).

(** ** Replay *)

(** The body of the loop over one chunk's records. *)
Definition replay_view (data : bytes) (m : Offsets * Z) (view : RecordView) : Offsets * Z :=
  match DecodeKey (span_bytes data (rv_key view)) with
  | None => m
  | Some key =>
      ((if tombstone view then om_erase key m.1
        else match DecodeValue (span_bytes data (rv_value view)) with
             | Some value => om_insert key value m.1
             | None => m.1
             end), u64 (m.2 + 1))
  end.
Fixpoint replay_chunk (fuel : nat) (it : RecordIterator) (m : Offsets * Z) : (Offsets * Z) * RecordIterator :=
  match fuel with
  | O => (m, it)
  | S fuel =>
      match NextRecord it with
      | (Some view, it') => replay_chunk fuel it' (replay_view (it_data it) m view)
      | (None, it') => (m, it')
      end
  end.

Definition kReplayReadBytes : Z := Z.shiftl 1 20.

(** [while (cursor < end)], each round reading a chunk from the cursor. *)
Fixpoint replay_loop (fuel : nat) (end_ cursor : Z) (buffer : ByteBuffer) (m : Offsets * Z) : SR PartitionLog (Offsets * Z) := λ l,
  match fuel with
  | O => (Err kInternal, l)
  | S fuel =>
      if cursor <? end_ then
        match Log_Read cursor kReplayReadBytes (l, Clear buffer) with
        | (Err e, (l, _)) => (Err e, l)
        | (Ok read, (l, buffer)) =>
            if lr_record_count read =? 0 then (Ok m, l) else
            let data := Readable buffer in
            let '(m, it) := replay_chunk (S (length data)) (newIterator data true) m in
            match it_status it with
            | Some e => (Err e, l)
            | None => replay_loop fuel end_ (cursor + lr_record_count read) buffer m l
            end
        end
      else (Ok m, l)
  end.
(** A chunk has at least one record, so the rounds are at most the records. *)
Definition Replay (st : OffsetStore) : Result unit * OffsetStore :=
  match os_log st with
  | None => (Err kInternal, st)
  | Some l =>
      let end_ := log_end_offset l in
      if end_ =? 0 then (Ok tt, st) else
      let cursor := log_start_offset l in
      match replay_loop (S (Z.to_nat (end_ - cursor))) end_ cursor emptyBuffer (os_offsets st, os_replayed st) l with
      | (Ok (m, n), l) => (Ok tt, with_store_offsets m n (with_store_log l st))
      | (Err e, l) => (Err e, with_store_log l st)
      end
  end.

(** The log is opened on the files found in the directory, as in [Log_Open]. *)
Definition OffsetStore_Open (fuel : nat) (sync_on_commit : bool) (now_ms : Z) (ensure : Result unit) (listing : Result (list bytes))
    (files : Z → Result (bool * FileHandle * FileHandle * FileHandle)) (now : Z) : Result OffsetStore :=
  match Log_Open fuel (store_options sync_on_commit) now_ms ensure listing files now with
  | (Err e, _) => Err e
  | (Ok None, _) => Err kInternal
  | (Ok (Some _), l) =>
      match Replay (mkStore (Some l) [] sync_on_commit 0) with
      | (Ok _, st) => Ok st
      | (Err e, _) => Err e
      end
  end.

(** ** Operations *)

(** Committing after [Close] would follow a null pointer; the model answers [kInternal]. *)
Definition OffsetStore_Commit (e : LogEnv) (key : OffsetKey) (offset : Z) (metadata : bytes) (now : Z) : SR OffsetStore unit := λ st,
  match os_log st with
  | None => (Err kInternal, st)
  | Some l =>
      let value := mkCommitted offset metadata now in
      let key_bytes := EncodeKey key emptyBuffer in
      let value_bytes := EncodeValue value emptyBuffer in
      let '(_, scratch) := AppendRecord 0 now 0 false (Readable key_bytes) (Readable value_bytes) (Clear emptyBuffer) in
      match AppendAssigningOffsets e 1 (l, Readable scratch) with
      | (Err e, (l, _)) => (Err e, with_store_log l st)
      | (Ok _, (l, _)) =>
          (Ok tt, with_store_offsets (om_insert key value (os_offsets st)) (os_replayed st) (with_store_log l st))
      end
  end.

Definition OffsetStore_Get (key : OffsetKey) (st : OffsetStore) : option CommittedOffset := om_find key (os_offsets st).
Definition ForGroup (group_id : bytes) (st : OffsetStore) : Offsets :=
  fold_left (λ result e, if decide (ok_group_id e.1 = group_id) then om_insert e.1 e.2 result else result) (os_offsets st) [].
Definition OffsetStore_Size (st : OffsetStore) : Z := zlen (os_offsets st).

Definition OffsetStore_Flush (e : LogEnv) : SR OffsetStore unit := λ st,
  match os_log st with
  | None => (Ok tt, st)
  | Some l => let '(r, l) := Flush e l in (r, with_store_log l st)
  end.
Definition OffsetStore_Close (e : LogEnv) : SR OffsetStore unit := λ st,
  match os_log st with
  | None => (Ok tt, st)
  | Some l =>
      let '(flush, l) := Flush e l in
      let '(close, _) := Log_Close l in
      (if is_ok flush then close else flush, mkStore None (os_offsets st) (os_sync_on_commit st) (os_replayed st))
  end.
