(* ===== verification/OffsetStoreTheorems.v ===== *)
(** * OffsetStoreTheorems: the journal and the map agree

    What a commit adds to the journal and to the map, on every outcome, and that
    replaying the journal, after a restart or a crash, gives the map back. *)
From S2P Require Import Prelude Status Endian Crc32c Buffer Types OrdMap Codec MessageCodec Frame Record FileUtil Search OffsetIndex Quiet Segment SegmentSpec Recovery SegmentOps SegmentRead SegmentTheorems PartitionLog PartitionLogSpec PartitionLogRoll PartitionLogBatch PartitionLogAppend PartitionLogRead PartitionLogTruncate PartitionLogOpen PartitionLogTheorems PartitionLogCrash OffsetStore.

(** ** Encoding *)

(** What a request can carry. *)
Definition key_fits (k : OffsetKey) : Prop :=
  string_fits (ok_group_id k) ∧ string_fits (ok_topic k) ∧ signed 32 (ok_partition k) ∧ 0 ≤ ok_partition k.
Definition value_fits (v : CommittedOffset) : Prop :=
  signed 64 (co_offset v) ∧ signed 64 (co_commit_time v) ∧ string_fits (co_metadata v).

Lemma get_all_codec {A} (f : ByteBuffer → ByteBuffer) (g : Getter A) x :
  codec_end f g x → get_all g (Readable (f emptyBuffer)) = Some x.
Proof.
  intros (bs & Ha & Hr). destruct (Ha emptyBuffer emptyBuffer_wf) as [_ E]. change (Readable (f emptyBuffer) = bs) in E. rewrite E.
  unfold get_all, newReader. rewrite (Hr bs 0 false); [|pose proof (zlen_nonneg bs); lia|by apply zdrop_0].
  unfold Complete, Remaining; cbn. by rewrite Z.sub_diag.
Qed.

Lemma key_roundtrip k : key_fits k → DecodeKey (Readable (EncodeKey k emptyBuffer)) = Some k.
Proof.
  destruct k as [g t p]. intros (? & ? & ? & ?). apply get_all_codec. unfold EncodeKey, get_key. cbn [ok_group_id ok_topic ok_partition] in *.
  codec_agree.
Qed.
Lemma value_roundtrip v : value_fits v → DecodeValue (Readable (EncodeValue v emptyBuffer)) = Some v.
Proof.
  destruct v as [o m t]. intros (? & ? & ?). apply get_all_codec. unfold EncodeValue, get_value. cbn [co_offset co_commit_time co_metadata] in *.
  codec_agree.
Qed.
(** Keys keep apart: the length prefixes make the encoding injective. *)
Lemma EncodeKey_inj k k' : key_fits k → key_fits k' → Readable (EncodeKey k emptyBuffer) = Readable (EncodeKey k' emptyBuffer) → k = k'.
Proof. intros H H' HE. apply key_roundtrip in H, H'. congruence. Qed.

Lemma encoded_size (f : ByteBuffer → ByteBuffer) bs : appends f bs → zlen (Readable (f emptyBuffer)) = zlen bs.
Proof. intros Ha. destruct (Ha emptyBuffer emptyBuffer_wf) as [_ E]. change (Readable (f emptyBuffer) = bs) in E. by rewrite E. Qed.
Lemma key_size k : key_fits k → zlen (Readable (EncodeKey k emptyBuffer)) ≤ 2 * 65535 + 8.
Proof.
  intros (H1 & H2 & _). unfold string_fits, kMaxStringLength in *.
  erewrite encoded_size; [|unfold EncodeKey, wseq; apply (appends_seq (λ w, PutString _ (PutString _ w)));
    [apply (appends_seq (PutString _)); apply appends_string|apply appends_U32]].
  rewrite !zlen_app, !zlen_StoreLe. lia.
Qed.
Lemma value_size v : value_fits v → zlen (Readable (EncodeValue v emptyBuffer)) ≤ 65535 + 18.
Proof.
  intros (_ & _ & H). unfold string_fits, kMaxStringLength in *.
  erewrite encoded_size; [|unfold EncodeValue, wseq; apply (appends_seq (λ w, PutI64 _ (PutI64 _ w)));
    [apply (appends_seq (PutI64 _)); apply appends_U64|apply appends_string]].
  rewrite !zlen_app, !zlen_StoreLe. lia.
Qed.

(** ** Replay *)

(** What one record does to the map and the counter, from its contents. *)
Definition replay_record (m : Offsets * Z) (x : LogRecord) : Offsets * Z :=
  match DecodeKey (key_bytes x) with
  | None => m
  | Some key =>
      ((if negb (Z.land (lr_attributes x) kTombstone =? 0) then om_erase key m.1
        else match DecodeValue (lr_value x) with
             | Some value => om_insert key value m.1
             | None => m.1
             end), u64 (m.2 + 1))
  end.
Definition replayed (m : Offsets * Z) (rs : Run) : Offsets * Z := fold_left replay_record (map snd rs) m.

Lemma replay_view_shows data m v x : view_shows data v x → replay_view data m v = replay_record m x.
Proof.
  intros (_ & _ & Ha & _ & _ & Hk & _ & Hv). unfold replay_view, replay_record, tombstone. by rewrite Hk, Hv, Ha.
Qed.
Lemma replay_views data m vs xs : Forall2 (view_shows data) vs xs → fold_left (replay_view data) vs m = fold_left replay_record xs m.
Proof.
  intros H. revert m. induction H as [|v x vs xs Hv Hvs IH]; intros m; [done|]. cbn [fold_left].
  by rewrite (replay_view_shows _ _ _ _ Hv).
Qed.
Lemma NextRecord_data it : it_data (NextRecord it).2 = it_data it.
Proof. unfold NextRecord. repeat case_match; done. Qed.
Lemma replay_chunk_iterate fuel it m :
  replay_chunk fuel it m = (fold_left (replay_view (it_data it)) (iterate fuel it).1 m, (iterate fuel it).2).
Proof.
  revert it m. induction fuel as [|fuel IH]; intros it m; [done|]. cbn [replay_chunk iterate].
  pose proof (NextRecord_data it) as HD. destruct (NextRecord it) as [[v|] it']; cbn [snd] in HD; [|done].
  rewrite IH, HD. by destruct (iterate fuel it').
Qed.
Lemma replay_chunk_run rs m :
  run_ok true rs → zlen (run_bytes rs) < 2 ^ 63 →
  let r := replay_chunk (S (length (run_bytes rs))) (newIterator (run_bytes rs) true) m in
  r.1 = replayed m rs ∧ it_status r.2 = None.
Proof.
  intros Hok Hbig. pose proof (run_length_bytes _ _ Hok) as HL. unfold zlen in HL.
  pose proof (iterate_run true rs [] [] (S (length (run_bytes rs))) 0 Hok) as H. cbn [app] in H. rewrite app_nil_r in H.
  specialize (H Hbig ltac:(lia) ltac:(by left)). cbv zeta in H. change (mkIter (run_bytes rs) true (zlen []) 0 None) with (newIterator (run_bytes rs) true) in H.
  rewrite replay_chunk_iterate. destruct (iterate _ _) as [vs it]. destruct H as (H1 & _ & _ & H4). split; [|by apply H4].
  by apply replay_views.
Qed.

Lemma replayed_app m rs rs' : replayed m (rs ++ rs') = replayed (replayed m rs) rs'.
Proof. unfold replayed. by rewrite map_app, fold_left_app. Qed.

Lemma replay_loop_spec fuel rss k buffer m l :
  log_inv l rss → (k ≤ length (concat rss))%nat → (length (concat rss) - k < fuel)%nat → buffer_wf buffer →
  let r := replay_loop fuel (log_end_offset l) (log_start_offset l + Z.of_nat k) buffer m l in
  log_inv r.2 rss ∧ same_meta l r.2 ∧
  match r.1 with Ok m' => m' = replayed m (drop k (concat rss)) | Err _ => ¬ log_quiet l end.
Proof.
  revert k buffer m l. induction fuel as [|fuel IH]; intros k buffer m l Hi Hk Hf Hb; [lia|]. cbn [replay_loop].
  pose proof (li_end _ _ Hi) as He. unfold zlen in He. destruct (Z.ltb_spec (log_start_offset l + Z.of_nat k) (log_end_offset l)) as [Hlt|Hge].
  2:{ cbn. split; [done|]. split; [done|]. rewrite drop_ge by lia. done. }
  destruct (Clear_spec buffer) as [Hcw Hcr].
  destruct (Log_Read_spec rss l (Clear buffer) (log_start_offset l + Z.of_nat k) kReplayReadBytes Hi Hcw) as [Hor Hr].
  replace (Z.to_nat (log_start_offset l + Z.of_nat k - log_start_offset l)) with k in Hr by lia.
  destruct (Log_Read _ _ _) as [[read|e] [l' out]]; cbn [fst snd] in *; destruct Hor as (Hi' & Hm & _ & Hq).
  2:{ split; [done|]. split; [done|]. destruct Hr as [[_ []]|[_ Hr]]; [lia|done]. }
  destruct Hr as (t & _ & Hx & -> & Hw & HR). rewrite Hcr in HR. cbn [app] in HR. cbn [lr_record_count]. rewrite HR.
  destruct (chain_run _ _ _ _ (li_chain _ _ Hi)) as [Hok _].
  assert (Ht : (0 < t)%nat).
  { destruct t; [|lia]. destruct Hx as (_ & _ & [Hx|Hx]); [|lia]. rewrite pos_of_0 in Hx. by vm_compute in Hx. }
  destruct (Z.eqb_spec (Z.of_nat t) 0); [lia|].
  destruct (replay_chunk_run (take t (drop k (concat rss))) m) as [H1 H2].
  { apply run_ok_take. by apply Forall_drop. }
  { pose proof (extent_bytes _ _ _ _ Hok Hx ltac:(by vm_compute)) as H. change (kReplayReadBytes + kMaxRecordBytes + 5) with 17825797 in H. lia. }
  destruct (replay_chunk _ _ m) as [m' it]. cbn [fst snd] in H1, H2. rewrite H2, H1.
  destruct Hx as (Hkt & _). destruct Hm as (M1 & M2 & Hm'). rewrite <- M1, <- M2.
  replace (log_start_offset l' + Z.of_nat k + Z.of_nat t) with (log_start_offset l' + Z.of_nat (k + t)) by lia.
  specialize (IH (k + t)%nat out (replayed m (take t (drop k (concat rss)))) l' Hi' ltac:(lia) ltac:(lia) Hw). cbv zeta in IH.
  destruct (replay_loop _ _ _ _ _ _) as [r l'']. cbn [fst snd] in *. destruct IH as (I1 & I2 & I3).
  split; [done|]. split; [by apply (same_meta_trans l l')|]. destruct r; [|by auto].
  rewrite I3, <- replayed_app. f_equal. rewrite <- drop_drop. apply take_drop.
Qed.

Lemma Replay_spec l rss sync :
  log_inv l rss → 0 ≤ log_start_offset l →
  match Replay (mkStore (Some l) [] sync 0) with
  | (Ok _, st) => ∃ l', st = mkStore (Some l') (replayed ([], 0) (concat rss)).1 sync (replayed ([], 0) (concat rss)).2 ∧
                        log_inv l' rss ∧ same_meta l l'
  | (Err _, _) => ¬ log_quiet l
  end.
Proof.
  intros Hi H0. unfold Replay. cbn [os_log os_offsets os_replayed]. pose proof (li_end _ _ Hi) as He. pose proof (zlen_nonneg (concat rss)).
  destruct (Z.eqb_spec (log_end_offset l) 0) as [Hz|Hz].
  { exists l. assert (concat rss = []) as -> by (apply zlen_0_nil; lia). split; [done|]. by split_and!. }
  pose proof (replay_loop_spec (S (Z.to_nat (log_end_offset l - log_start_offset l))) rss 0 emptyBuffer ([], 0) l Hi
    ltac:(lia) ltac:(unfold zlen in *; lia) emptyBuffer_wf) as HL. cbv zeta in HL.
  replace (log_start_offset l + Z.of_nat 0) with (log_start_offset l) in HL by lia. rewrite drop_0 in HL.
  destruct (replay_loop _ _ _ _ _ _) as [[[m n]|e] l']; cbn [fst snd] in HL; destruct HL as (H1 & H2 & H3); [|done].
  exists l'. rewrite <- H3. by split_and!.
Qed.

(** ** The journal *)

Abbreviation Commit_ := (OffsetKey * CommittedOffset)%type.

(** The record [x] is the commit [c]. *)
Definition writes (x : LogRecord) (c : Commit_) : Prop :=
  DecodeKey (key_bytes x) = Some c.1 ∧ Z.land (lr_attributes x) kTombstone = 0 ∧ DecodeValue (lr_value x) = Some c.2.
Definition journal (rs : Run) (J : list Commit_) : Prop := Forall2 writes (map snd rs) J.
(** The map a sequence of commits leaves: the last one of a key wins. *)
Definition apply_commit (m : Offsets) (c : Commit_) : Offsets := om_insert c.1 c.2 m.
Definition applied (m : Offsets) (J : list Commit_) : Offsets := fold_left apply_commit J m.

Lemma replayed_journal m n rs J : journal rs J → (replayed (m, n) rs).1 = applied m J.
Proof.
  unfold journal, replayed, applied. generalize (map snd rs) as xs. intros xs H. revert m n.
  induction H as [|x c xs J (Hk & Ht & Hv) HJ IH]; intros m n; [done|]. cbn [fold_left].
  unfold replay_record at 2. rewrite Hk, Ht, Hv. cbn [negb Z.eqb fst snd]. apply IH.
Qed.
Lemma journal_app rs rs' J J' : journal rs J → journal rs' J' → journal (rs ++ rs') (J ++ J').
Proof. unfold journal. rewrite map_app. apply Forall2_app. Qed.
Lemma applied_snoc m J c : applied m (J ++ [c]) = om_insert c.1 c.2 (applied m J).
Proof. unfold applied. by rewrite fold_left_app. Qed.
Lemma applied_wf m J : om_wf m → om_wf (applied m J).
Proof. revert m. induction J as [|c J IH]; intros m Hm; [done|]. apply IH. by apply om_insert_wf. Qed.
Lemma applied_find J k :
  om_find k (applied [] J) = snd <$> last (List.filter (λ c, bool_decide (c.1 = k)) J).
Proof.
  induction J as [|c J IH] using rev_ind; [done|]. rewrite applied_snoc, om_find_insert, List.filter_app. cbn.
  destruct (decide (k = c.1)) as [->|Hne].
  - rewrite bool_decide_eq_true_2 by done. by rewrite last_snoc.
  - rewrite bool_decide_eq_false_2 by congruence. by rewrite app_nil_r.
Qed.

(** A store, its log and its history: every commit the log holds, and whether it was
    acknowledged.  (A commit whose record was written and whose sync then failed
    is in the log but was refused.) *)
Record store_inv (st : OffsetStore) (l : PartitionLog) (rss : list Run) (J : list (Commit_ * bool)) : Prop := {
  si_log : os_log st = Some l;
  si_inv : log_inv l rss;
  si_start : 0 ≤ log_start_offset l;
  si_options : lg_options l = store_options (os_sync_on_commit st);
  si_journal : journal (concat rss) (map fst J);
  si_offsets : os_offsets st = applied [] (map fst (List.filter snd J));
}.
Definition all_acked (J : list Commit_) : list (Commit_ * bool) := map (λ c, (c, true)) J.

Lemma all_acked_fst J : map fst (all_acked J) = J.
Proof. unfold all_acked. rewrite map_map. apply map_id. Qed.
Lemma all_acked_filter J : List.filter snd (all_acked J) = all_acked J.
Proof. induction J as [|c J IH]; [done|]. unfold all_acked in *. cbn. by f_equal. Qed.

(** The record a commit writes. *)
Definition commit_record (c : Commit_) : LogRecord :=
  record_of 0 (co_commit_time c.2) 0 false (Readable (EncodeKey c.1 emptyBuffer)) (Readable (EncodeValue c.2 emptyBuffer)).
Lemma commit_record_fits c : key_fits c.1 → value_fits c.2 → record_fits (commit_record c) ∧ zlen (record_bytes (commit_record c)) ≤ kMaxRecordBytes.
Proof.
  intros Hk Hv. pose proof (key_size _ Hk). pose proof (value_size _ Hv).
  assert (HB : zlen (canonical_body (commit_record c)) ≤ 17 + 20 + (2 * 65535 + 8) + (65535 + 18)).
  { unfold canonical_body. rewrite zlen_record_body. pose proof (varuint_loop_length 10 (key_field (commit_record c))) as V1.
    pose proof (varuint_loop_length 10 (zlen (lr_value (commit_record c)))) as V2.
    fold (varuint_bytes (key_field (commit_record c))) in V1. fold (varuint_bytes (zlen (lr_value (commit_record c)))) in V2.
    change (key_bytes (commit_record c)) with (Readable (EncodeKey c.1 emptyBuffer)).
    change (lr_value (commit_record c)) with (Readable (EncodeValue c.2 emptyBuffer)) in *. lia. }
  unfold record_bytes. rewrite zlen_record_image. change kMaxRecordBytes with 16777216. split; [|lia].
  split; [change kMaxRecordBytes with 16777216; lia|]. split; [by unfold signed|apply Hv].
Qed.
Lemma commit_record_writes c off ts : key_fits c.1 → value_fits c.2 → writes (set_header off ts (commit_record c)) c.
Proof. intros Hk Hv. split; [by apply key_roundtrip|]. split; [done|by apply value_roundtrip]. Qed.

(** A byte string is the layout of one record at most. *)
Lemma shape_inj r x x' crc crc' : shape r x crc → shape r x' crc' → x = x'.
Proof.
  intros H H'. pose proof (shape_bounds _ _ _ H) as Hb. change kMaxRecordBytes with 16777216 in Hb.
  destruct (ParseRecord_shape r 0 false r x crc [] H) as (v & E & V1 & V2 & V3 & V4 & _ & V5 & _ & V6); [done|lia|lia|by rewrite zdrop_0, app_nil_r|].
  destruct (ParseRecord_shape r 0 false r x' crc' [] H') as (v' & E' & V1' & V2' & V3' & V4' & _ & V5' & _ & V6'); [done|lia|lia|by rewrite zdrop_0, app_nil_r|].
  rewrite E in E'. injection E' as <-. destruct x as [o t a k va], x' as [o' t' a' k' va']. cbn [lr_offset lr_timestamp lr_attributes lr_key lr_value key_bytes] in *.
  unfold key_bytes in *. cbn [lr_key] in *. f_equal; try congruence. rewrite V4 in V4'. rewrite V5 in V5'.
  destruct k, k'; cbn in V5'; [by f_equal| | |done]; by repeat case_bool_decide.
Qed.

(** The append a commit makes, against the journal. *)
Lemma commit_append e l rss c :
  log_inv l rss → 0 ≤ log_start_offset l → key_fits c.1 → value_fits c.2 → fresh_files (env_files e) → signed 64 (env_append_now e) →
  log_end_offset l < 2 ^ 62 →
  ∃ l' out, let r := AppendAssigningOffsets e 1 (l, record_bytes (commit_record c)) in
  r.2 = (l', out) ∧ log_start_offset l' = log_start_offset l ∧ lg_options l' = lg_options l ∧ ∃ rss', log_inv l' rss' ∧
  match r.1 with
  | Ok _ => (∃ new, concat rss' = concat rss ++ new ∧ journal new [c]) ∧
            (sync_on_append (flush_policy (lg_options l)) = true → flushed_offset l' = log_end_offset l')
  | Err _ => (concat rss' = concat rss ∨
              sync_on_append (flush_policy (lg_options l)) = true ∧ ∃ new, concat rss' = concat rss ++ new ∧ journal new [c]) ∧
             ¬ calm_env e l
  end.
Proof.
  intros Hi H0 Hk Hv Hfr Hnow Hend. destruct (commit_record_fits c Hk Hv) as [Hfit Hsz].
  pose proof (record_bytes_encodes _ Hfit) as Henc. set (x := commit_record c) in *. set (rs := [(record_bytes x, x)]).
  assert (Hok : run_ok false rs) by (constructor; [by exists (Crc32c (zdrop 8 (record_bytes x)))|constructor]).
  assert (HB : run_bytes rs = record_bytes x) by apply app_nil_r.
  pose proof (li_end _ _ Hi) as He. pose proof (zlen_nonneg (concat rss)). change kMaxRecordBytes with 16777216 in *.
  destruct (AppendAssigningOffsets_outcome e (record_bytes x) 1 l rss Hi Hfr) as (rs' & [Hg Hres] & Hout).
  { rewrite <- HB. apply assign_run; rewrite ?HB; change kMaxRecordBytes with 16777216; (done || lia). }
  { change kMaxRecordBytes with 16777216. lia. }
  assert (Hw : run_ok false rs' → record_bytes x = run_bytes rs' → journal (stamp (env_append_now e) (log_end_offset l) rs') [c]).
  { intros Hok' HE. rewrite <- HB in HE. pose proof (run_cut_unique false false _ _ Hok Hok' HE) as HM.
    destruct rs' as [|[r' x'] [|]]; try discriminate HM. injection HM as HM. cbn [stamp]. constructor; [|constructor]. cbn [snd map].
    apply Forall_cons in Hok' as [(crc & Hs' & _) _]. cbn [fst snd] in Hs'. rewrite <- HM in Hs'.
    rewrite (shape_inj _ _ _ _ _ Hs' Henc). by apply commit_record_writes. }
  destruct (AppendAssigningOffsets e 1 (l, record_bytes x)) as [r [l' out]]. cbn [fst snd] in *. exists l', out.
  destruct Hg as (Hst & Hopt & rss' & Hi' & Hcase). split_and!; [done..|]. exists rss'. split; [done|]. destruct r as [ar|err].
  - destruct Hcase as [Hc Hacc], Hout as (HE & Hok' & _ & _). split; [eexists; split; [exact Hc|by apply Hw]|].
    intros Hsync. unfold accounted in Hacc. by rewrite Hsync in Hacc.
  - destruct Hout as [Hrs Hne]. split; [|intros Hcalm; by apply (Hne Hcalm ltac:(lia) rs Hok (eq_sym HB))].
    destruct Hcase as [[Hc _]|(Hsync & Hc & _)]; [by left|]. destruct Hrs as [->|[HE Hok']].
    + left. cbn [stamp] in Hc. by rewrite app_nil_r in Hc.
    + right. split; [done|]. eexists; split; [exact Hc|by apply Hw].
Qed.

Lemma Commit_eq e c st l :
  os_log st = Some l → key_fits c.1 → value_fits c.2 →
  OffsetStore_Commit e c.1 (co_offset c.2) (co_metadata c.2) (co_commit_time c.2) st =
  match AppendAssigningOffsets e 1 (l, record_bytes (commit_record c)) with
  | (Err e, (l, _)) => (Err e, with_store_log l st)
  | (Ok _, (l, _)) => (Ok tt, with_store_offsets (om_insert c.1 c.2 (os_offsets st)) (os_replayed st) (with_store_log l st))
  end.
Proof.
  intros Hl Hk Hv. unfold OffsetStore_Commit. rewrite Hl. destruct c as [k [o m t]]. cbn [fst snd co_offset co_metadata co_commit_time] in *.
  destruct (commit_record_fits (k, mkCommitted o m t) Hk Hv) as [Hfit _]. destruct (Clear_spec emptyBuffer) as [Hcw Hcr].
  pose proof (AppendRecord_spec 0 t 0 false (Readable (EncodeKey k emptyBuffer)) (Readable (EncodeValue (mkCommitted o m t) emptyBuffer))
    (Clear emptyBuffer) Hcw) as HA. pose proof (key_size k Hk). specialize (HA ltac:(lia) Hfit). cbv zeta in *.
  destruct (AppendRecord _ _ _ _ _ _ _) as [n scratch]. destruct HA as (_ & _ & HA). rewrite Hcr in HA. cbn [app] in HA. by rewrite HA.
Qed.

Lemma Commit_outcome e st l rss J c :
  store_inv st l rss J → key_fits c.1 → value_fits c.2 → fresh_files (env_files e) → signed 64 (env_append_now e) →
  log_end_offset l < 2 ^ 62 →
  let r := OffsetStore_Commit e c.1 (co_offset c.2) (co_metadata c.2) (co_commit_time c.2) st in
  ∃ l' rss',
  match r.1 with
  | Ok _ => store_inv r.2 l' rss' (J ++ [(c, true)]) ∧
            (os_sync_on_commit st = true → flushed_offset l' = log_end_offset l') ∧
            ∀ k, OffsetStore_Get k r.2 = if decide (k = c.1) then Some c.2 else OffsetStore_Get k st
  | Err _ => (store_inv r.2 l' rss' J ∨ os_sync_on_commit st = true ∧ store_inv r.2 l' rss' (J ++ [(c, false)])) ∧
             (∀ k, OffsetStore_Get k r.2 = OffsetStore_Get k st) ∧ ¬ calm_env e l
  end.
Proof.
  intros [Hl Hi H0 Hopt HJ Hoff] Hk Hv Hfr Hnow Hend. rewrite (Commit_eq e c st l Hl Hk Hv).
  destruct (commit_append e l rss c Hi H0 Hk Hv Hfr Hnow Hend) as (l' & out & HA). cbv zeta in HA.
  destruct (AppendAssigningOffsets e 1 _) as [r [l'' out']]. cbn [fst snd] in HA.
  destruct HA as ([= -> ->] & Hst & Ho & rss' & Hi' & Hcase). exists l', rss'.
  rewrite Hopt in Hcase. cbn [store_options flush_policy sync_on_append] in Hcase.
  destruct r as [ar|err]; cbn [fst snd].
  - destruct Hcase as [(new & Hc & Hnew) Hsync]. split; [|split; [done|]].
    + constructor; cbn; [done|done|lia|congruence|rewrite map_app, Hc; by apply journal_app|].
      rewrite List.filter_app, map_app. cbn. by rewrite applied_snoc, Hoff.
    + intros k. unfold OffsetStore_Get. cbn. apply om_find_insert.
  - destruct Hcase as [Hc Hne]. split; [|done]. destruct Hc as [Hc|(Hsync & new & Hc & Hnew)].
    + left. constructor; cbn; [done|done|lia|congruence|by rewrite Hc|done].
    + right. split; [done|]. constructor; cbn; [done|done|lia|congruence|rewrite map_app, Hc; by apply journal_app|].
      rewrite List.filter_app. cbn. by rewrite app_nil_r.
Qed.

(** A commit is journalled before it is visible.  A successful commit adds its record at
    the end of the journal (flushed when the store syncs on commit) and is what [Get]
    then answers for its key, every other key being as before; a failed commit changes
    no answer, and leaves the journal as it was unless the store syncs on commit, in
    which case the record may be in the journal although the commit was refused; and
    a commit fails only when a system call or the disk does. *)
Theorem offset_commit_journalled e st l rss J c :
  store_inv st l rss J → key_fits c.1 → value_fits c.2 → fresh_files (env_files e) → signed 64 (env_append_now e) →
  log_end_offset l < 2 ^ 62 →
  let r := OffsetStore_Commit e c.1 (co_offset c.2) (co_metadata c.2) (co_commit_time c.2) st in
  ∃ l' rss',
  match r.1 with
  | Ok _ => store_inv r.2 l' rss' (J ++ [(c, true)]) ∧
            (os_sync_on_commit st = true → flushed_offset l' = log_end_offset l') ∧
            ∀ k, OffsetStore_Get k r.2 = if decide (k = c.1) then Some c.2 else OffsetStore_Get k st
  | Err _ => (store_inv r.2 l' rss' J ∨ os_sync_on_commit st = true ∧ store_inv r.2 l' rss' (J ++ [(c, false)])) ∧
             (∀ k, OffsetStore_Get k r.2 = OffsetStore_Get k st) ∧ ¬ calm_env e l
  end.
Proof. apply Commit_outcome. Qed.

(** One commit into an empty store. *)
Definition example_store : OffsetStore := mkStore (Some (example_log (store_options true))) [] true 0.
Definition example_commit : Commit_ := (mkOffsetKey [103] [116] 0, mkCommitted 5 [] 7).
Lemma example_store_inv : store_inv example_store (example_log (store_options true)) [[]] [].
Proof. constructor; [done|apply example_log_inv|done|done|constructor|done]. Qed.
Lemma example_commit_fits : key_fits example_commit.1 ∧ value_fits example_commit.2.
Proof. split; by repeat split. Qed.
Abbreviation committed :=
  (OffsetStore_Commit example_env example_commit.1 (co_offset example_commit.2) (co_metadata example_commit.2) (co_commit_time example_commit.2) example_store).
Lemma committed_ok : committed.1 = Ok tt.
Proof. vm_compute. reflexivity. Qed.

Lemma offset_commit_journalled_witness :
  OffsetStore_Get (mkOffsetKey [103] [116] 0) committed.2 = Some (mkCommitted 5 [] 7) ∧
  OffsetStore_Get (mkOffsetKey [103] [116] 1) committed.2 = None.
Proof.
  destruct (offset_commit_journalled example_env example_store (example_log (store_options true)) [[]] [] example_commit
    example_store_inv (proj1 example_commit_fits) (proj2 example_commit_fits)) as (l' & rss' & H); [by vm_compute|by vm_compute|by vm_compute|].
  pose proof committed_ok as HO. revert HO H. generalize committed. intros [r st'] HO H. cbn [fst] in HO. subst r. destruct H as (_ & _ & HG).
  split; [exact (HG (mkOffsetKey [103] [116] 0))|exact (HG (mkOffsetKey [103] [116] 1))].
Defined.

(** The records below the flushed offset are the same in both logs. *)
Lemma flushed_records_kept l rss rss' n :
  log_inv l rss → run_ok true (concat rss') → n = Z.to_nat (flushed_offset l - log_start_offset l) →
  (∀ i r, concat rss !! i = Some r → log_start_offset l + Z.of_nat i < flushed_offset l → ∃ r', concat rss' !! i = Some r' ∧ r'.1 = r.1) →
  map snd (take n (concat rss')) = map snd (take n (concat rss)).
Proof.
  intros Hi Hok' Hn Hkept. destruct (chain_run _ _ _ _ (li_chain _ _ Hi)) as [Hok _].
  pose proof (li_flushed _ _ Hi) as Hfl. pose proof (li_end _ _ Hi) as He. unfold zlen in He.
  apply list_eq. intros i. rewrite !list_lookup_fmap. destruct (decide (i < n)%nat) as [Hlt|Hge].
  2:{ rewrite !lookup_ge_None_2; [done|rewrite length_take; lia..]. }
  rewrite !lookup_take_lt by done. destruct (lookup_lt_is_Some_2 (concat rss) i) as [[r x] Hr]; [lia|].
  destruct (Hkept i (r, x) Hr ltac:(lia)) as ([r' x'] & Hr' & HE). cbn in HE. subst r'. rewrite Hr, Hr'. cbn. f_equal.
  apply list_elem_of_lookup_2 in Hr, Hr'. unfold run_ok in *. rewrite Forall_forall in Hok, Hok'.
  destruct (Hok _ Hr) as (c & Hs & _), (Hok' _ Hr') as (c' & Hs' & _). cbn [fst snd] in *. by apply (shape_inj r x' x c' c).
Qed.

Lemma replayed_other k m rs :
  om_wf m.1 → (∀ r, r ∈ rs → DecodeKey (key_bytes r.2) ≠ Some k) → om_find k (replayed m rs).1 = om_find k m.1.
Proof.
  revert m. induction rs as [|r rs IH]; intros m Hm Hno; [done|]. change (replayed m (r :: rs)) with (replayed (replay_record m r.2) rs).
  assert (Hrest : ∀ r', r' ∈ rs → DecodeKey (key_bytes r'.2) ≠ Some k) by (intros r' Hr'; apply Hno; by right).
  assert (Hne : DecodeKey (key_bytes r.2) ≠ Some k) by (apply Hno; left).
  unfold replay_record. destruct (DecodeKey (key_bytes r.2)) as [key|]; [|by apply IH].
  assert (Hk : k ≠ key) by congruence. rewrite IH; cbn [fst snd]; [|repeat case_match; auto with pulse|done].
  repeat case_match; rewrite ?om_find_erase, ?om_find_insert, ?decide_False by done; done.
Qed.

(** C20. Committed offsets survive a crash.  When the machine goes down and the store is opened
    on the files then found, the map holds the commits that were flushed, in order, and on
    top of them whatever later records are found; so a key none of these later records is
    for answers with its last flushed commit.  Opening fails only when a system call does.
    The hypotheses are those of the log: no sync of a segment has failed before the crash
    ([sync_intact]); every segment's files are still there and begin with the bytes its
    syncs secured ([found], [survives]); and the files are what recovery can read
    ([disk_chain]): each holds valid consecutive records no larger than the scan window and
    a tail that recovery can tell from a record, and no index entry points past the records
    that survive.  These can fail: [Recover_diverges] is about a record larger than the
    window, and recovery trusts an index entry that outlived its records. *)
Theorem offset_crash_recovery fuel st l rss J rss' sync now_ms now stems files :
  store_inv st l rss J → Forall sync_intact (segments l) → Forall (survives files) (segments l) → Forall (found files) (segments l) →
  disk_chain files (log_start_offset l) (map base_offset (segments l)) rss' →
  omap ParseBaseOffset stems ≡ₚ map base_offset (segments l) → Forall (λ rs, (length rs + 1 < fuel)%nat) rss' →
  let n := Z.to_nat (flushed_offset l - log_start_offset l) in
  let flushed := take n (map fst J) in
  let later := drop n (concat rss') in
  match OffsetStore_Open fuel sync now_ms (Ok tt) (Ok stems) files now with
  | Ok st' => (∃ l' count, os_log st' = Some l' ∧ log_inv l' rss' ∧ os_offsets st' = (replayed (applied [] flushed, count) later).1) ∧
      ∀ k, (∀ r, r ∈ later → DecodeKey (key_bytes r.2) ≠ Some k) →
        OffsetStore_Get k st' = snd <$> last (List.filter (λ c, bool_decide (c.1 = k)) flushed)
  | Err _ => ¬ Forall (λ b, quiet_files (files b)) (map base_offset (segments l)) ∨
             ¬ log_quiet (Log_Open fuel (store_options sync) now_ms (Ok tt) (Ok stems) files now).2
  end.
Proof.
  intros [Hl Hi H0 _ HJ _] Hin Hsu Hfo Hd Hst Hfuel n flushed later.
  assert (Hne : map base_offset (segments l) ≠ []) by (pose proof (li_nonempty _ _ Hi); by destruct (segments l)).
  unfold OffsetStore_Open.
  pose proof (Log_Open_spec fuel (store_options sync) now_ms now files stems _ _ _ Hst Hne Hd Hfuel) as HO.
  destruct (Log_Open _ _ _ _ _ _ _) as [[[rep|]|e] l']; [|done|by left]. destruct HO as (Hi' & Hs' & _). cbn [snd].
  pose proof (Replay_spec l' rss' sync Hi' ltac:(lia)) as HR. destruct (Replay _) as [[[]|e] st']; [|by right].
  destruct HR as (l'' & -> & Hi'' & _). cbn [os_log os_offsets].
  assert (HF : journal (take n (concat rss')) flushed).
  { unfold journal, flushed. rewrite (flushed_records_kept l rss rss' n Hi (proj1 (chain_run _ _ _ _ (li_chain _ _ Hi'))) eq_refl).
    - change (map snd) with (fmap (M := list) (@snd bytes LogRecord)). rewrite fmap_take. by apply Forall2_take.
    - intros i r Hr Hlt. by apply (crash_records files _ _ _ _ rss' i r (li_chain _ _ Hi) Hd Hin Hsu Hfo Hr). }
  assert (HE : ∃ count, (replayed ([], 0) (concat rss')).1 = (replayed (applied [] flushed, count) later).1).
  { exists (replayed ([], 0) (take n (concat rss'))).2. rewrite <- (take_drop n (concat rss')) at 1. rewrite replayed_app. fold later.
    by rewrite <- (replayed_journal [] 0 _ _ HF), <- surjective_pairing. }
  destruct HE as [count HE]. split; [by exists l'', count|]. intros k Hk. unfold OffsetStore_Get. cbn [os_offsets].
  rewrite HE, replayed_other; [apply applied_find|by apply applied_wf|done].
Qed.

(** The store of one synced commit, and the files it leaves. *)
Definition committed_run : Run :=
  Eval vm_compute in stamp 1700000000000 0 [(record_bytes (commit_record example_commit), commit_record example_commit)].
Definition committed_files (base : Z) : Result (bool * FileHandle * FileHandle * FileHandle) :=
  Ok (true, file_with (run_bytes committed_run) [], file_with [] [], file_with [] []).
Lemma committed_run_eq : committed_run = stamp 1700000000000 0 [(record_bytes (commit_record example_commit), commit_record example_commit)].
Proof. vm_compute. reflexivity. Qed.
Lemma committed_run_ok : run_ok true committed_run.
Proof.
  destruct (commit_record_fits example_commit (proj1 example_commit_fits) (proj2 example_commit_fits)) as [Hfit _].
  pose proof (record_bytes_encodes _ Hfit) as Henc. rewrite committed_run_eq. revert Henc. generalize (record_bytes (commit_record example_commit)).
  intros r Henc. apply (stamp_spec 1700000000000 0 [(r, commit_record example_commit)]); [|by unfold signed|lia|by unfold zlen].
  constructor; [by eexists|constructor].
Qed.
Lemma committed_disk : disk_chain committed_files 0 [0] [committed_run].
Proof.
  split; [done|]. split; [|done]. cbn [disk_segment committed_files]. split_and!; try done.
  - apply committed_run_ok.
  - intros i r. destruct i as [|i]; [by intros [= <-]|done].
  - by repeat (constructor; [done|]).
  - constructor; [by vm_compute|constructor].
  - exists []. split; [by rewrite app_nil_r|]. split.
    + split; [constructor|]. split; [intros kf n1 vl n2 H; by vm_compute in H|]. intros v n H. by vm_compute in H.
    + left. by vm_compute.
  - exists [], []. split; [done|]. split; [done|]. split; [constructor|]. split; [by intros i j x y Hi|by intros e He%elem_of_nil].
Qed.
Definition log_facts (l : PartitionLog) : Z * Z * list Z * list bytes * list Z * list bool :=
  (log_start_offset l, flushed_offset l, map base_offset (segments l),
   map (λ s, ztake (synced_position s) (seg_secured s)) (segments l), map synced_position (segments l), map (λ s, sync_failed (durable (seg_file s))) (segments l)).
Lemma same_facts o l x : o = Some l → option_map log_facts o = Some x → log_facts l = x.
Proof. by intros -> [= ?]. Qed.
Lemma committed_log_facts :
  option_map log_facts (os_log committed.2) = Some (0, 1, [0], [run_bytes committed_run], [zlen (run_bytes committed_run)], [false]).
Proof. vm_compute. reflexivity. Qed.
Lemma committed_store_inv :
  ∃ l rss, store_inv committed.2 l rss [(example_commit, true)] ∧ log_facts l = (0, 1, [0], [run_bytes committed_run], [zlen (run_bytes committed_run)], [false]).
Proof.
  destruct (Commit_outcome example_env example_store (example_log (store_options true)) [[]] [] example_commit
    example_store_inv (proj1 example_commit_fits) (proj2 example_commit_fits)) as (l' & rss' & H); [by vm_compute|by vm_compute|by vm_compute|].
  pose proof committed_ok as HO. pose proof committed_log_facts as HL. revert HO HL H. generalize committed. intros [r st'] HO HL H.
  cbn [fst] in HO. subst r. destruct H as (HI & _). exists l', rss'. split; [exact HI|]. exact (same_facts _ _ _ (si_log _ _ _ _ HI) HL).
Qed.

Lemma offset_crash_recovery_witness :
  match OffsetStore_Open 5 true 0 (Ok tt) (Ok [FormatBaseOffset 0]) committed_files 0 with
  | Ok st' => OffsetStore_Get (mkOffsetKey [103] [116] 0) st' = Some (mkCommitted 5 [] 7)
  | Err _ => False
  end.
Proof.
  destruct committed_store_inv as (l & rss & HI & [= H0 Hf Hb Hd Hs Hk]).
  assert (HN : Forall sync_intact (segments l)).
  { destruct (segments l) as [|s [|]]; try discriminate Hb. injection Hk as Hk. constructor; [exact Hk|constructor]. }
  assert (HF : Forall (survives committed_files) (segments l)).
  { destruct (segments l) as [|s [|]]; try discriminate Hb. injection Hd as Hd. injection Hs as Hs. constructor; [|constructor].
    unfold survives. cbn [committed_files]. rewrite Hd, Hs. by apply ztake_all. }
  pose proof (offset_crash_recovery 5 committed.2 l rss [(example_commit, true)] [committed_run] true 0 0 [FormatBaseOffset 0] committed_files HI HN HF) as H.
  rewrite Hb, H0, Hf in H. specialize (H ltac:(by apply Forall_true) committed_disk ltac:(by vm_compute) ltac:(repeat constructor)).
  assert (HO : is_ok (OffsetStore_Open 5 true 0 (Ok tt) (Ok [FormatBaseOffset 0]) committed_files 0) = true) by (vm_compute; reflexivity).
  destruct (OffsetStore_Open _ _ _ _ _ _ _) as [st'|e]; [|discriminate HO]. destruct H as [_ H].
  rewrite (H (mkOffsetKey [103] [116] 0)); [by vm_compute|]. by intros r Hr%elem_of_nil.
Defined.
