(* ===== verification/GroupCoordinator.v ===== *)
(** * GroupCoordinator: consumer-group membership and fenced commits

    Models include/pulselog/consumer/group_coordinator.h and
    src/consumer/group_coordinator.cc.  Each method that takes [mutex_] once is one
    function on the coordinator's state; [Commit] takes it for its check only and
    then calls the store, so it is two functions, [commit_check] and [commit_store],
    and their composition.  The lookup of a topic's partitions is the broker's and is
    an argument; [None] is the null function.  [groups_] is an unordered map that
    only [ExpireSessions] and [Describe] iterate over, each group on its own: the model
    keeps it by key. *)
From S2P Require Import Prelude Status Types Text OrdMap MessagesData MessagesControl MessagesGroup FileUtil Segment PartitionLog Assignor OffsetStore.

Record GroupMember := mkMember {
  gm_member_id : bytes; gm_topics : list bytes; gm_session_timeout_ms : Z; gm_last_heartbeat_ms : Z;
  gm_assignment : list TopicPartition }.
Inductive GroupState : Set := kEmpty | kRebalancing | kStable.
#[global] Instance GroupState_eq : EqDecision GroupState.
Proof. solve_decision. Defined.
Definition GroupStateName (state : GroupState) : bytes :=
  match state with
  | kEmpty => str "empty" | kRebalancing => str "rebalancing" | kStable => str "stable"
  end.

Record Group := mkGroup {
  g_group_id : bytes; g_state : GroupState; g_generation : Z; g_leader_id : bytes; g_strategy : AssignmentStrategy;
  g_members : list (bytes * GroupMember); g_last_rebalance_ms : Z }.
Record GroupSnapshot := mkSnapshot {
  gs_group_id : bytes; gs_state : GroupState; gs_generation : Z; gs_leader_id : bytes; gs_strategy : AssignmentStrategy;
  gs_members : list GroupMember }.
Abbreviation PartitionLookup := (option (list bytes → list TopicPartition)).

Record Coordinator := mkCoordinator {
  gc_groups : list (bytes * Group); gc_offsets : OffsetStore; gc_default_session_timeout_ms : Z; gc_member_counter : Z }.
Definition newCoordinator (offsets : OffsetStore) (default_session_timeout_ms : Z) : Coordinator :=
  mkCoordinator [] offsets default_session_timeout_ms 0.

Definition with_groups (gs : list (bytes * Group)) (c : Coordinator) : Coordinator :=
  mkCoordinator gs (gc_offsets c) (gc_default_session_timeout_ms c) (gc_member_counter c).
Definition with_counter (n : Z) (c : Coordinator) : Coordinator :=
  mkCoordinator (gc_groups c) (gc_offsets c) (gc_default_session_timeout_ms c) n.
Definition with_offset_store (s : OffsetStore) (c : Coordinator) : Coordinator :=
  mkCoordinator (gc_groups c) s (gc_default_session_timeout_ms c) (gc_member_counter c).
Definition with_members_ (ms : list (bytes * GroupMember)) (g : Group) : Group :=
  mkGroup (g_group_id g) (g_state g) (g_generation g) (g_leader_id g) (g_strategy g) ms (g_last_rebalance_ms g).

(** The defaults of the two structs. *)
Definition newGroup : Group := mkGroup [] kEmpty 0 [] kRange [] 0.
Definition newMember : GroupMember := mkMember [] [] 10000 0 [].

Definition AllocateMemberId (group_id : bytes) (c : Coordinator) : bytes * Coordinator :=
  let n := u64 (gc_member_counter c + 1) in
  (group_id ++ str "-" ++ to_string n, with_counter n c).

(** [std::min_element]: the first of the least. *)
Definition min_element (ids : list bytes) : bytes :=
  match ids with
  | [] => []
  | id :: ids => fold_left (λ best id, if bytes_ltb id best then id else best) ids id
  end.

Definition group_topics (members : list (bytes * GroupMember)) : list bytes :=
  unique (merge_sort bytes_le (concat (map (λ e, gm_topics e.2) members))).

Definition RebalanceLocked (lookup : PartitionLookup) (now_ms : Z) (group : Group) : Group :=
  let generation := i32 (g_generation group + 1) in
  match g_members group with
  | [] => mkGroup (g_group_id group) kEmpty generation [] (g_strategy group) [] now_ms
  | members =>
      let member_ids := map fst members in
      let topics := group_topics members in
      let partitions := match lookup with Some f => f topics | None => [] end in
      let assignment := Assign (g_strategy group) member_ids partitions in
      let members := map (λ e, (e.1, mkMember (gm_member_id e.2) (gm_topics e.2) (gm_session_timeout_ms e.2)
        (gm_last_heartbeat_ms e.2) (default [] (om_find e.1 assignment)))) members in
      mkGroup (g_group_id group) kStable generation (min_element member_ids) (g_strategy group) members now_ms
  end.

Definition no_error : ResponseHeader := mkResponseHeader kOk [].
(** Error messages are left out. *)
Definition refused (e : ErrorCode) : ResponseHeader := mkResponseHeader e [].

Definition Join (lookup : PartitionLookup) (request : JoinGroupRequest) (now_ms : Z) (c : Coordinator)
    : JoinGroupResponse * Coordinator :=
  let group_id := jgreq_group_id request in
  if bool_decide (group_id = []) then (mkJoinGroupResponse (refused kInvalidArgument) (-1) [] [] [], c) else
  if bool_decide (jgreq_topics request = []) then (mkJoinGroupResponse (refused kInvalidArgument) (-1) [] [] [], c) else
  let group := default newGroup (om_find group_id (gc_groups c)) in
  let group := if bool_decide (g_group_id group = []) then
      mkGroup group_id (g_state group) (g_generation group) (g_leader_id group) (jgreq_strategy request) (g_members group) (g_last_rebalance_ms group)
    else group in
  let is_new := bool_decide (jgreq_member_id request = []) || bool_decide (om_find (jgreq_member_id request) (g_members group) = None) in
  let '(member_id, c) := if is_new then AllocateMemberId group_id c else (jgreq_member_id request, c) in
  let member := default newMember (om_find member_id (g_members group)) in
  let subscription_changed := negb (bool_decide (gm_topics member = jgreq_topics request)) in
  let member := mkMember member_id (jgreq_topics request)
    (if 0 <? jgreq_session_timeout_ms request then jgreq_session_timeout_ms request else gc_default_session_timeout_ms c)
    now_ms (gm_assignment member) in
  let group := with_members_ (om_insert member_id member (g_members group)) group in
  let group := if is_new || subscription_changed || negb (bool_decide (g_state group = kStable))
    then RebalanceLocked lookup now_ms group else group in
  (mkJoinGroupResponse no_error (g_generation group) member_id (g_leader_id group)
     (gm_assignment (default newMember (om_find member_id (g_members group)))),
   with_groups (om_insert group_id group (gc_groups c)) c).

Definition Heartbeat (request : HeartbeatRequest) (now_ms : Z) (c : Coordinator) : HeartbeatResponse * Coordinator :=
  match om_find (hbreq_group_id request) (gc_groups c) with
  | None => (mkHeartbeatResponse (refused kNotFound) (-1) false, c)
  | Some group =>
      match om_find (hbreq_member_id request) (g_members group) with
      | None => (mkHeartbeatResponse (refused kUnknownMember) (g_generation group) true, c)
      | Some member =>
          if negb (hbreq_generation request =? g_generation group) then
            (mkHeartbeatResponse (refused kRebalanceInProgress) (g_generation group) true, c)
          else
            let member := mkMember (gm_member_id member) (gm_topics member) (gm_session_timeout_ms member) now_ms (gm_assignment member) in
            (mkHeartbeatResponse no_error (g_generation group) false,
             with_groups (om_insert (hbreq_group_id request)
               (with_members_ (om_insert (hbreq_member_id request) member (g_members group)) group) (gc_groups c)) c)
      end
  end.

Definition Leave (lookup : PartitionLookup) (request : LeaveGroupRequest) (now_ms : Z) (c : Coordinator) : LeaveGroupResponse * Coordinator :=
  match om_find (lgreq_group_id request) (gc_groups c) with
  | None => (mkLeaveGroupResponse (refused kNotFound), c)
  | Some group =>
      match om_find (lgreq_member_id request) (g_members group) with
      | None => (mkLeaveGroupResponse (refused kUnknownMember), c)
      | Some _ =>
          let group := with_members_ (om_erase (lgreq_member_id request) (g_members group)) group in
          (mkLeaveGroupResponse no_error,
           with_groups (om_insert (lgreq_group_id request) (RebalanceLocked lookup now_ms group) (gc_groups c)) c)
      end
  end.

(** The first half of [Commit]: [Some e] refuses with [e]. *)
Definition commit_check (request : CommitOffsetRequest) (c : Coordinator) : option ErrorCode :=
  if coreq_offset request <? 0 then Some kInvalidArgument else
  if bool_decide (coreq_member_id request = []) then None else
  match om_find (coreq_group_id request) (gc_groups c) with
  | None => Some kNotFound
  | Some group =>
      match om_find (coreq_member_id request) (g_members group) with
      | None => Some kUnknownMember
      | Some member =>
          if negb (coreq_generation request =? g_generation group) then Some kIllegalGeneration else
          if bool_decide (mkTP (coreq_topic request) (coreq_partition request) ∈ gm_assignment member) then None
          else Some kIllegalGeneration
      end
  end.
(** The second half, with [mutex_] released. *)
Definition commit_store (e : LogEnv) (request : CommitOffsetRequest) (now_ms : Z) (c : Coordinator) : CommitOffsetResponse * Coordinator :=
  let key := mkOffsetKey (coreq_group_id request) (coreq_topic request) (coreq_partition request) in
  match OffsetStore_Commit e key (coreq_offset request) (coreq_metadata request) now_ms (gc_offsets c) with
  | (Ok _, s) => (mkCommitOffsetResponse no_error, with_offset_store s c)
  | (Err err, s) => (mkCommitOffsetResponse (refused err), with_offset_store s c)
  end.
Definition Coordinator_Commit (e : LogEnv) (request : CommitOffsetRequest) (now_ms : Z) (c : Coordinator) : CommitOffsetResponse * Coordinator :=
  match commit_check request c with
  | Some err => (mkCommitOffsetResponse (refused err), c)
  | None => commit_store e request now_ms c
  end.

Definition FetchOffset (request : FetchOffsetRequest) (c : Coordinator) : FetchOffsetResponse :=
  match OffsetStore_Get (mkOffsetKey (foreq_group_id request) (foreq_topic request) (foreq_partition request)) (gc_offsets c) with
  | None => mkFetchOffsetResponse no_error kInvalidOffset []
  | Some committed => mkFetchOffsetResponse no_error (co_offset committed) (co_metadata committed)
  end.

Definition session_expired (now_ms : Z) (member : GroupMember) : bool :=
  gm_session_timeout_ms member <? now_ms - gm_last_heartbeat_ms member.
(** The body of the loop over the groups: the group after, and how many were evicted. *)
Definition expire_group (lookup : PartitionLookup) (now_ms : Z) (group : Group) : Group * Z :=
  let expired_ids := map fst (List.filter (λ e, session_expired now_ms e.2) (g_members group)) in
  match expired_ids with
  | [] => (group, 0)
  | _ => (RebalanceLocked lookup now_ms
            (with_members_ (fold_left (λ ms id, om_erase id ms) expired_ids (g_members group)) group), zlen expired_ids)
  end.
Definition ExpireSessions (lookup : PartitionLookup) (now_ms : Z) (c : Coordinator) : Z * Coordinator :=
  let gs := map (λ e, (e.1, expire_group lookup now_ms e.2)) (gc_groups c) in
  (fold_right (λ e n, e.2.2 + n) 0 gs, with_groups (map (λ e, (e.1, e.2.1)) gs) c).

Definition GroupCount (c : Coordinator) : Z := zlen (gc_groups c).
Definition Describe (c : Coordinator) : list GroupSnapshot :=
  map (λ e, mkSnapshot e.1 (g_state e.2) (g_generation e.2) (g_leader_id e.2) (g_strategy e.2) (map snd (g_members e.2))) (gc_groups c).
Definition CommittedOffsets (group_id : bytes) (c : Coordinator) : list (TopicPartition * Z) :=
  fold_left (λ result e, om_insert (mkTP (ok_topic e.1) (ok_partition e.1)) (co_offset e.2) result) (ForGroup group_id (gc_offsets c)) [].
Definition Coordinator_Flush (e : LogEnv) (c : Coordinator) : Result unit * Coordinator :=
  let '(r, s) := OffsetStore_Flush e (gc_offsets c) in (r, with_offset_store s c).
Definition Coordinator_Close (e : LogEnv) (c : Coordinator) : Coordinator :=
  with_offset_store (OffsetStore_Close e (gc_offsets c)).2 c.
