(* ===== verification/GroupCoordinatorTheorems.v ===== *)
(** * GroupCoordinatorTheorems: one owner per partition and generation

    The invariant of the coordinator's groups over every sequence of its operations,
    the fence the generation puts in front of commits, and session expiry. *)
From S2P Require Import Prelude Status Types Text OrdMap MessagesData MessagesControl MessagesGroup FileUtil Quiet Segment SegmentSpec Recovery SegmentOps SegmentRead SegmentTheorems PartitionLog PartitionLogSpec PartitionLogRoll PartitionLogTheorems Assignor OffsetStore OffsetStoreTheorems GroupCoordinator.

(** ** Maps updated in place *)

Section MapValues.
Context {K V W : Type} `{!EqDecision K, !KeyOrder K}.

Lemma om_map_find (f : K → V → W) (m : list (K * V)) k : om_find k (map (λ e, (e.1, f e.1 e.2)) m) = f k <$> om_find k m.
Proof. induction m as [|[k' v] m IH]; [done|]. cbn. case_decide; [by subst|done]. Qed.
Lemma om_map_wf (f : K → V → W) (m : list (K * V)) : om_wf m → om_wf (map (λ e, (e.1, f e.1 e.2)) m).
Proof.
  induction m as [|[k v] m IH]; [done|]. cbn. intros [Hb Hwf]. split; [|by apply IH]. clear -Hb.
  induction Hb as [|[k' v'] m Hk Hm IH]; cbn; [constructor|]. by constructor.
Qed.
(** Overwriting a value by one with the same image. *)
Lemma om_insert_image (f : V → W) k v v' (m : list (K * V)) :
  om_wf m → om_find k m = Some v → f v' = f v → map (λ e, (e.1, f e.2)) (om_insert k v' m) = map (λ e, (e.1, f e.2)) m.
Proof.
  induction m as [|[k' v0] m IH]; [done|]. cbn. intros [Hb Hwf]. case_decide as Hd.
  - subst. intros [= ->] Hf. rewrite klt_irrefl. cbn. by rewrite Hf.
  - intros Hk Hf. destruct (klt k k') eqn:Hlt.
    + rewrite om_below_find in Hk; [done|]. by apply (om_below_trans k k').
    + cbn. by rewrite IH.
Qed.
Lemma om_erase_all ids (m : list (K * V)) k :
  om_wf m → om_wf (fold_left (λ m id, om_erase id m) ids m) ∧
  om_find k (fold_left (λ m id, om_erase id m) ids m) = if decide (k ∈ ids) then None else om_find k m.
Proof.
  revert m. induction ids as [|id ids IH]; intros m Hwf; cbn [fold_left].
  { split; [done|]. by rewrite decide_False by (by intros ?%elem_of_nil). }
  destruct (IH (om_erase id m) (om_erase_wf _ _ Hwf)) as [H1 H2]. split; [done|]. rewrite H2, om_find_erase by done.
  destruct (decide (k = id)) as [->|Hne].
  - rewrite (decide_True (P := id ∈ id :: ids)) by left. by case_decide.
  - destruct (decide (k ∈ ids)); [rewrite decide_True by (by right)|rewrite decide_False by (by intros [?|?]%elem_of_cons)]; done.
Qed.
Lemma om_keys (m : list (K * V)) k : k ∈ map fst m ↔ is_Some (om_find k m).
Proof.
  induction m as [|[k' v] m IH]; cbn; [by split; [intros ?%elem_of_nil|intros [? [=]]]|].
  rewrite elem_of_cons. case_decide; [subst; split; [by eexists|by left]|]. rewrite IH. tauto.
Qed.
End MapValues.

Lemma min_element_spec ids :
  ids ≠ [] → min_element ids ∈ ids ∧ ∀ id, id ∈ ids → bytes_le (min_element ids) id.
Proof.
  destruct ids as [|x ids]; [done|]. intros _. cbn [min_element].
  assert (H : ∀ best, let r := fold_left (λ best id, if bytes_ltb id best then id else best) ids best in
    (r = best ∨ r ∈ ids) ∧ bytes_le r best ∧ ∀ id, id ∈ ids → bytes_le r id).
  { induction ids as [|y ids IH]; intros best; cbn [fold_left].
    { split_and!; [by left|apply bytes_ltb_irrefl|by intros ? ?%elem_of_nil]. }
    set (b := if bytes_ltb y best then y else best). destruct (IH b) as (H1 & H2 & H3).
    assert (Hb : bytes_le b best ∧ bytes_le b y ∧ (b = best ∨ b = y)).
    { unfold b. destruct (bytes_ltb y best) eqn:E.
      - split_and!; [|apply bytes_ltb_irrefl|by right]. unfold bytes_le. destruct (bytes_ltb best y) eqn:E'; [|done].
        pose proof (bytes_ltb_trans _ _ _ E E') as Hc. by rewrite bytes_ltb_irrefl in Hc.
      - split_and!; [apply bytes_ltb_irrefl|done|by left]. }
    destruct Hb as (B1 & B2 & B3). split_and!.
    - destruct H1 as [->|H1]; [|right; by right]. destruct B3 as [->| ->]; [by left|right; left].
    - by transitivity b.
    - intros id [->|Hid]%elem_of_cons; [by transitivity b|by apply H3]. }
  destruct (H x) as (H1 & H2 & H3). split; [destruct H1 as [->|H1]; [left|by right]|].
  intros id [->|Hid]%elem_of_cons; [done|by apply H3].
Qed.

(** ** The invariant *)

(** The [k]-th id the coordinator hands out, for a member of group [gid]. *)
Definition member_name (gid : bytes) (k : Z) : bytes := gid ++ str "-" ++ to_string k.
Lemma member_name_inj gid k k' : 0 ≤ k → 0 ≤ k' → member_name gid k = member_name gid k' → k = k'.
Proof.
  unfold member_name. intros Hk Hk' H. apply app_inv_head, app_inv_head in H.
  destruct (to_string_digits k Hk) as (_ & H1 & _), (to_string_digits k' Hk') as (_ & H2 & _). congruence.
Qed.

(** The members are as the coordinator made them: under their own id, which it allocated. *)
Definition members_inv (n : Z) (gid : bytes) (ms : list (bytes * GroupMember)) : Prop :=
  om_wf ms ∧ ∀ id m, om_find id ms = Some m →
    gm_member_id m = id ∧ gm_topics m ≠ [] ∧ ∃ k, 1 ≤ k ≤ n ∧ id = member_name gid k.
(** Who owns what: the present assignment is the strategy's for the present members. *)
Definition assigned_by (strategy : AssignmentStrategy) (ms : list (bytes * GroupMember)) (ps : list TopicPartition) : Prop :=
  ∀ id m, om_find id ms = Some m → gm_assignment m = under id (Assign strategy (map fst ms) ps).
Record group_inv (n : Z) (gid : bytes) (g : Group) : Prop := {
  gi_id : g_group_id g = gid ∧ gid ≠ [];
  gi_members : members_inv n gid (g_members g);
  gi_generation : 0 ≤ g_generation g < 2 ^ 31;
  gi_state : g_state g = kEmpty ∧ g_members g = [] ∧ g_leader_id g = [] ∨
             g_state g = kStable ∧ g_leader_id g ∈ map fst (g_members g) ∧
             ∀ id, id ∈ map fst (g_members g) → bytes_le (g_leader_id g) id;
  gi_assigned : ∃ ps, assigned_by (g_strategy g) (g_members g) ps;
}.
Record coordinator_inv (c : Coordinator) : Prop := {
  ci_wf : om_wf (gc_groups c);
  ci_counter : 0 ≤ gc_member_counter c < 2 ^ 64;
  ci_groups : ∀ gid g, om_find gid (gc_groups c) = Some g → group_inv (gc_member_counter c) gid g;
}.

(** The owners of the partitions of a group. *)
Definition owners (g : Group) : list (bytes * list TopicPartition) := map (λ e, (e.1, gm_assignment e.2)) (g_members g).

Lemma members_inv_mono n n' gid ms : n ≤ n' → members_inv n gid ms → members_inv n' gid ms.
Proof.
  intros Hn [Hwf H]. split; [done|]. intros id m Hm. destruct (H id m Hm) as (? & ? & k & ? & ?). split_and!; [done|done|].
  exists k. split; [lia|done].
Qed.
Lemma group_inv_mono n n' gid g : n ≤ n' → group_inv n gid g → group_inv n' gid g.
Proof. intros Hn [H1 H2 H3 H4 H5]. constructor; try done. by apply (members_inv_mono n). Qed.

Lemma rebalance_spec lookup now n gid g :
  g_group_id g = gid → gid ≠ [] → members_inv n gid (g_members g) → 0 ≤ g_generation g → g_generation g + 1 < 2 ^ 31 →
  let g' := RebalanceLocked lookup now g in
  group_inv n gid g' ∧ g_generation g' = g_generation g + 1 ∧ map fst (g_members g') = map fst (g_members g) ∧
  (∀ id m, om_find id (g_members g) = Some m → ∃ m', om_find id (g_members g') = Some m' ∧
     gm_assignment m' = under id (Assign (g_strategy g) (map fst (g_members g))
       (match lookup with Some f => f (group_topics (g_members g)) | None => [] end))).
Proof.
  intros Hid Hne [Hwf Hms] Hg0 Hg. assert (HG : i32 (g_generation g + 1) = g_generation g + 1) by (apply swrap_small; unfold signed; lia).
  unfold RebalanceLocked. destruct (g_members g) as [|e0 ms0] eqn:E; cbv zeta.
  { cbn. rewrite HG. split_and!; [|done|done|done]. constructor; cbn; [done|by split|lia|by left|by exists []]. }
  rewrite <- E in *. set (ps := match lookup with Some f => _ | None => _ end). set (a := Assign _ _ ps).
  set (upd := λ e : bytes * GroupMember, (e.1, mkMember (gm_member_id e.2) (gm_topics e.2) (gm_session_timeout_ms e.2) (gm_last_heartbeat_ms e.2) (default [] (om_find e.1 a)))).
  pose (f id m := mkMember (gm_member_id m) (gm_topics m) (gm_session_timeout_ms m) (gm_last_heartbeat_ms m) (default [] (om_find id a))).
  assert (Hf : map upd (g_members g) = map (λ e, (e.1, f e.1 e.2)) (g_members g)) by done.
  assert (Hkeys : map fst (map upd (g_members g)) = map fst (g_members g)) by (rewrite map_map; by apply map_ext).
  assert (Hassign : ∀ id m, om_find id (map upd (g_members g)) = Some m → gm_assignment m = under id a).
  { intros id m. rewrite Hf, om_map_find. destruct (om_find id (g_members g)); [|done]. cbn. by intros [= <-]. }
  cbn [g_generation g_members]. rewrite HG. split_and!; [|done|done|].
  - constructor; cbn [g_group_id g_members g_generation g_state g_leader_id g_strategy].
    + done.
    + rewrite Hf. split; [by apply om_map_wf|]. intros id m. rewrite om_map_find. destruct (om_find id (g_members g)) eqn:Em; [|done].
      cbn. intros [= <-]. exact (Hms id _ Em).
    + lia.
    + right. split; [done|]. rewrite Hkeys. apply min_element_spec. by rewrite E.
    + exists ps. intros id m Hm. rewrite Hkeys. by apply Hassign.
  - intros id m Hm. exists (f id m). split; [rewrite Hf, om_map_find, Hm; done|done].
Qed.

(** ** What an operation may do to a group *)

(** Signed overflow of the generation, or a member counter that wraps, is out of scope. *)
Definition room (c : Coordinator) : Prop :=
  gc_member_counter c + 1 < 2 ^ 64 ∧ ∀ gid g, om_find gid (gc_groups c) = Some g → g_generation g + 1 < 2 ^ 31.
(** The generation never goes back, and while it stands the owners do. *)
Definition evolves (g g' : Group) : Prop :=
  g_generation g ≤ g_generation g' ∧ (g_generation g' = g_generation g → owners g' = owners g).
Definition step_ok (c c' : Coordinator) : Prop :=
  coordinator_inv c' ∧ ∀ gid g, om_find gid (gc_groups c) = Some g → ∃ g', om_find gid (gc_groups c') = Some g' ∧ evolves g g'.

Lemma evolves_refl g : evolves g g.
Proof. by split. Qed.
Lemma evolves_trans g g' g'' : evolves g g' → evolves g' g'' → evolves g g''.
Proof. intros [H1 H2] [H3 H4]. split; [lia|]. intros H. rewrite H4, H2 by lia. done. Qed.
Lemma step_ok_same c c' :
  coordinator_inv c → gc_groups c' = gc_groups c → gc_member_counter c' = gc_member_counter c → step_ok c c'.
Proof.
  intros [H1 H2 H3] Hg Hn. split; [constructor; rewrite ?Hg, ?Hn; done|]. intros gid g Hf. exists g. rewrite Hg. split; [done|apply evolves_refl].
Qed.
Lemma update_group c gid g' n :
  coordinator_inv c → gc_member_counter c ≤ n < 2 ^ 64 → group_inv n gid g' →
  (∀ g, om_find gid (gc_groups c) = Some g → evolves g g') →
  step_ok c (with_groups (om_insert gid g' (gc_groups c)) (with_counter n c)).
Proof.
  intros [H1 H2 H3] Hn Hg Hev. split.
  - constructor; cbn; [by apply om_insert_wf|lia|]. intros gid' g. rewrite om_find_insert. case_decide as Hd; [intros [= <-]; by subst|].
    intros Hf%H3. apply (group_inv_mono (gc_member_counter c)); [lia|done].
  - intros gid' g Hf. cbn. rewrite om_find_insert. case_decide as Hd; [subst; eexists; split; [done|by apply Hev]|].
    exists g. split; [done|apply evolves_refl].
Qed.
Lemma with_counter_id c : with_counter (gc_member_counter c) c = c.
Proof. by destruct c. Qed.
Lemma keep_counter c gs : step_ok c (with_groups gs (with_counter (gc_member_counter c) c)) → step_ok c (with_groups gs c).
Proof. by destruct c. Qed.

Lemma owners_keys g : map fst (owners g) = map fst (g_members g).
Proof. unfold owners. rewrite map_map. by apply map_ext. Qed.
(** A member's record refreshed, its partitions kept. *)
Lemma refresh_member n gid g id m m' :
  group_inv n gid g → om_find id (g_members g) = Some m → gm_member_id m' = id → gm_topics m' ≠ [] → gm_assignment m' = gm_assignment m →
  let g' := with_members_ (om_insert id m' (g_members g)) g in group_inv n gid g' ∧ owners g' = owners g.
Proof.
  intros [Hid [Hwf Hms] Hgen Hst (ps & Hps)] Hm Hi Ht Ha g'.
  assert (HO : owners g' = owners g) by (by apply (om_insert_image gm_assignment id m)).
  assert (HK : map fst (g_members g') = map fst (g_members g)) by (by rewrite <- !owners_keys, HO).
  assert (HF : ∀ id' m0, om_find id' (g_members g') = Some m0 → ∃ m1, om_find id' (g_members g) = Some m1 ∧ gm_assignment m0 = gm_assignment m1 ∧
    (m0 = m1 ∨ id' = id ∧ m0 = m')).
  { intros id' m0. cbn. rewrite om_find_insert. case_decide as Hd; [subst; intros [= <-]; exists m; auto|]. intros H. exists m0. auto. }
  split; [|done]. constructor; [done| |done| |].
  - split; [by apply om_insert_wf|]. intros id' m0 H. destruct (HF id' m0 H) as (m1 & H1 & _ & [->|[-> ->]]); [by apply Hms|].
    destruct (Hms id m Hm) as (_ & _ & Hk). done.
  - destruct Hst as [(H1 & H2 & H3)|(H1 & H2)]; [rewrite H2 in Hm; done|right]. rewrite HK. exact (conj H1 H2).
  - exists ps. intros id' m0 H. destruct (HF id' m0 H) as (m1 & H1 & -> & _). rewrite HK. by apply Hps.
Qed.

(** Members changed, then rebalanced. *)
Lemma rebalanced_group lookup now c gid g ms n :
  coordinator_inv c → room c → gc_member_counter c ≤ n < 2 ^ 64 → g_group_id g = gid → gid ≠ [] → members_inv n gid ms →
  0 ≤ g_generation g → g_generation g + 1 < 2 ^ 31 → (∀ g0, om_find gid (gc_groups c) = Some g0 → g_generation g = g_generation g0) →
  step_ok c (with_groups (om_insert gid (RebalanceLocked lookup now (with_members_ ms g)) (gc_groups c)) (with_counter n c)).
Proof.
  intros Hc _ Hn Hid Hne Hms Hg0 Hg Hsame. destruct (rebalance_spec lookup now n gid (with_members_ ms g) Hid Hne Hms Hg0 Hg) as (H1 & H2 & _).
  apply update_group; [done|done|done|]. intros g0 Hf. specialize (Hsame g0 Hf). cbn [g_generation with_members_] in H2. split; [lia|]. lia.
Qed.

(** ** The operations *)

Lemma fresh_member n gid ms k : members_inv n gid ms → n < k → om_find (member_name gid k) ms = None.
Proof.
  intros [_ H] Hk. destruct (om_find _ ms) as [m|] eqn:E; [|done]. destruct (H _ _ E) as (_ & _ & k' & Hk' & HE).
  apply member_name_inj in HE; lia.
Qed.
Lemma members_inv_insert n gid ms id m :
  members_inv n gid ms → gm_member_id m = id → gm_topics m ≠ [] → (∃ k, 1 ≤ k ≤ n ∧ id = member_name gid k) →
  members_inv n gid (om_insert id m ms).
Proof.
  intros [Hwf H] Hi Ht Hk. split; [by apply om_insert_wf|]. intros id' m'. rewrite om_find_insert. case_decide as Hd; [|by apply H].
  intros [= <-]. by subst.
Qed.
Lemma members_inv_erase n gid ms id : members_inv n gid ms → members_inv n gid (om_erase id ms).
Proof.
  intros [Hwf H]. split; [by apply om_erase_wf|]. intros id' m'. rewrite om_find_erase by done. case_decide; [done|]. by apply H.
Qed.

(** The group a join works on: the one there is, or a new one. *)
Definition joined_group (request : JoinGroupRequest) (c : Coordinator) : Group :=
  match om_find (jgreq_group_id request) (gc_groups c) with
  | Some g => g
  | None => mkGroup (jgreq_group_id request) kEmpty 0 [] (jgreq_strategy request) [] 0
  end.
Lemma joined_group_spec request c :
  coordinator_inv c → room c → jgreq_group_id request ≠ [] →
  let g := joined_group request c in
  group_inv (gc_member_counter c) (jgreq_group_id request) g ∧ g_generation g + 1 < 2 ^ 31 ∧
  (∀ g0, om_find (jgreq_group_id request) (gc_groups c) = Some g0 → g = g0).
Proof.
  intros Hc [_ Hr] Hne. unfold joined_group. destruct (om_find _ (gc_groups c)) as [g|] eqn:E.
  - split_and!; [by apply (ci_groups _ Hc)|by apply (Hr _ _ E)|by intros g0 [= ->]].
  - split_and!; [|done|done]. constructor; cbn; [done|by split|lia|by left|by exists []].
Qed.
Lemma Join_group request c :
  coordinator_inv c → jgreq_group_id request ≠ [] →
  (let group := default newGroup (om_find (jgreq_group_id request) (gc_groups c)) in
   if bool_decide (g_group_id group = []) then
      mkGroup (jgreq_group_id request) (g_state group) (g_generation group) (g_leader_id group) (jgreq_strategy request) (g_members group) (g_last_rebalance_ms group)
    else group) = joined_group request c.
Proof.
  intros Hc Hne. unfold joined_group. destruct (om_find _ (gc_groups c)) as [g|] eqn:E; cbn; [|done].
  destruct (ci_groups _ Hc _ _ E) as [[Hid _] _ _ _ _]. by rewrite bool_decide_eq_false_2 by congruence.
Qed.

(** What a join does, past its two argument checks. *)
Definition join_known (lookup : PartitionLookup) (request : JoinGroupRequest) (now : Z) (c : Coordinator) (m : GroupMember) : Group :=
  let g := joined_group request c in
  let id := jgreq_member_id request in
  let m' := mkMember id (jgreq_topics request)
    (if 0 <? jgreq_session_timeout_ms request then jgreq_session_timeout_ms request else gc_default_session_timeout_ms c) now (gm_assignment m) in
  let g' := with_members_ (om_insert id m' (g_members g)) g in
  if bool_decide (gm_topics m = jgreq_topics request) && bool_decide (g_state g = kStable) then g' else RebalanceLocked lookup now g'.
Definition join_new (lookup : PartitionLookup) (request : JoinGroupRequest) (now : Z) (c : Coordinator) : Group :=
  let g := joined_group request c in
  let id := member_name (jgreq_group_id request) (gc_member_counter c + 1) in
  let m' := mkMember id (jgreq_topics request)
    (if 0 <? jgreq_session_timeout_ms request then jgreq_session_timeout_ms request else gc_default_session_timeout_ms c) now [] in
  RebalanceLocked lookup now (with_members_ (om_insert id m' (g_members g)) g).

Lemma Join_eq lookup request now c :
  coordinator_inv c → room c → jgreq_group_id request ≠ [] → jgreq_topics request ≠ [] →
  let g := joined_group request c in
  (∃ m g', jgreq_member_id request ≠ [] ∧ om_find (jgreq_member_id request) (g_members g) = Some m ∧ g' = join_known lookup request now c m ∧
     Join lookup request now c = (mkJoinGroupResponse no_error (g_generation g') (jgreq_member_id request) (g_leader_id g')
       (gm_assignment (default newMember (om_find (jgreq_member_id request) (g_members g')))),
       with_groups (om_insert (jgreq_group_id request) g' (gc_groups c)) (with_counter (gc_member_counter c) c))) ∨
  (∃ g', let id := member_name (jgreq_group_id request) (gc_member_counter c + 1) in
     (jgreq_member_id request = [] ∨ om_find (jgreq_member_id request) (g_members g) = None) ∧ g' = join_new lookup request now c ∧
     Join lookup request now c = (mkJoinGroupResponse no_error (g_generation g') id (g_leader_id g')
       (gm_assignment (default newMember (om_find id (g_members g')))),
       with_groups (om_insert (jgreq_group_id request) g' (gc_groups c)) (with_counter (gc_member_counter c + 1) c))).
Proof.
  intros Hc Hr Hg Ht g. destruct (joined_group_spec request c Hc Hr Hg) as (Hi & _ & _). fold g in Hi.
  unfold Join. rewrite !bool_decide_eq_false_2 by done. pose proof (Join_group request c Hc Hg) as HJ. cbv zeta in HJ. rewrite HJ. fold g. cbv zeta.
  destruct (bool_decide (jgreq_member_id request = []) || _) eqn:En.
  - right. eexists. cbv zeta. split; [|split; [reflexivity|]].
    { apply orb_true_iff in En as [En%bool_decide_eq_true|En%bool_decide_eq_true]; auto. }
    unfold AllocateMemberId, join_new. fold g. rewrite (uwrap_small 64) by (destruct Hr as [Hr _], (ci_counter _ Hc); unfold unsigned; lia).
    fold (member_name (jgreq_group_id request) (gc_member_counter c + 1)). cbn [gc_groups with_counter gc_default_session_timeout_ms gc_member_counter].
    rewrite (fresh_member _ _ _ (gc_member_counter c + 1) (gi_members _ _ _ Hi)) by lia. reflexivity.
  - left. apply orb_false_iff in En as [En1%bool_decide_eq_false En2%bool_decide_eq_false].
    destruct (om_find (jgreq_member_id request) (g_members g)) as [m|] eqn:Em; [|done]. exists m. eexists.
    split; [done|]. split; [done|]. split; [reflexivity|]. rewrite with_counter_id. unfold join_known. fold g. cbn [default orb g_state with_members_].
    unfold id. rewrite <- negb_andb. destruct (bool_decide (gm_topics m = _) && _); reflexivity.
Qed.

Lemma Join_step lookup request now c : coordinator_inv c → room c → step_ok c (Join lookup request now c).2.
Proof.
  intros Hc Hr. destruct (decide (jgreq_group_id request = [])) as [Hg|Hg].
  { unfold Join. rewrite bool_decide_eq_true_2 by done. by apply step_ok_same. }
  destruct (decide (jgreq_topics request = [])) as [Ht|Ht].
  { unfold Join. rewrite bool_decide_eq_false_2, bool_decide_eq_true_2 by done. by apply step_ok_same. }
  destruct (joined_group_spec request c Hc Hr Hg) as (Hi & Hroom & Hsame). pose proof (ci_counter _ Hc) as Hcnt.
  destruct (Join_eq lookup request now c Hc Hr Hg Ht) as [(m & g' & _ & Hm & -> & ->)|(g' & _ & -> & ->)]; cbn [snd].
  - unfold join_known. set (g := joined_group request c) in *. set (m' := mkMember _ _ _ _ _).
    destruct (refresh_member _ _ g _ m m' Hi Hm eq_refl Ht eq_refl) as [R1 R2]. destruct (_ && _).
    + apply update_group; [done|lia|done|]. intros g0 Hf. rewrite <- (Hsame g0 Hf). by split.
    + apply rebalanced_group; [done|done|lia|apply Hi|done|apply R1|apply Hi|done|]. intros g0 Hf. by rewrite (Hsame g0 Hf).
  - unfold join_new. set (g := joined_group request c) in *. destruct Hr as [Hr1 Hr2].
    apply rebalanced_group; [done|by split|lia|apply Hi|done| |apply Hi|done|intros g0 Hf; by rewrite (Hsame g0 Hf)].
    apply members_inv_insert; [|done|done|exists (gc_member_counter c + 1); split; [lia|done]].
    apply (members_inv_mono (gc_member_counter c)); [lia|apply Hi].
Qed.
Lemma Heartbeat_step request now c : coordinator_inv c → step_ok c (Heartbeat request now c).2.
Proof.
  intros Hc. unfold Heartbeat. destruct (om_find _ (gc_groups c)) as [g|] eqn:Eg; [|by apply step_ok_same].
  destruct (om_find _ (g_members g)) as [m|] eqn:Em; [|by apply step_ok_same]. destruct (negb _); [by apply step_ok_same|]. cbn [snd].
  pose proof (ci_groups _ Hc _ _ Eg) as Hi. destruct (gi_members _ _ _ Hi) as [_ Hms]. destruct (Hms _ _ Em) as (M1 & M2 & _).
  set (m' := mkMember _ _ _ _ _). destruct (refresh_member _ _ g _ m m' Hi Em M1 M2 eq_refl) as [R1 R2].
  pose proof (ci_counter _ Hc). apply keep_counter, update_group; [done|lia|done|]. intros g0 Hf. rewrite Eg in Hf. injection Hf as <-. by split.
Qed.
Lemma Leave_step lookup request now c : coordinator_inv c → room c → step_ok c (Leave lookup request now c).2.
Proof.
  intros Hc Hr. unfold Leave. destruct (om_find _ (gc_groups c)) as [g|] eqn:Eg; [|by apply step_ok_same].
  destruct (om_find _ (g_members g)) as [m|] eqn:Em; [|by apply step_ok_same]. cbn [snd].
  pose proof (ci_groups _ Hc _ _ Eg) as Hi. pose proof (ci_counter _ Hc).
  apply keep_counter, rebalanced_group; [done|done|lia|apply Hi|apply Hi|apply members_inv_erase, Hi|apply Hi|by apply (proj2 Hr _ _ Eg)|].
  intros g0 Hf. rewrite Eg in Hf. by injection Hf as <-.
Qed.

Definition expired_ids (now : Z) (ms : list (bytes * GroupMember)) : list bytes := map fst (List.filter (λ e, session_expired now e.2) ms).
Definition live_members (now : Z) (ms : list (bytes * GroupMember)) : list (bytes * GroupMember) :=
  fold_left (λ ms id, om_erase id ms) (expired_ids now ms) ms.
Lemma expired_ids_spec now ms id : om_wf ms → id ∈ expired_ids now ms ↔ ∃ m, om_find id ms = Some m ∧ session_expired now m = true.
Proof.
  intros Hwf. unfold expired_ids. split.
  - intros (e & -> & He%list_elem_of_In)%list_elem_of_fmap. apply List.filter_In in He as [He Hx]. exists e.2. split; [|done].
    apply om_find_elem; [done|]. destruct e. by apply list_elem_of_In.
  - intros (m & Hm & Hx). apply list_elem_of_fmap. exists (id, m). split; [done|]. apply list_elem_of_In, List.filter_In.
    split; [|done]. by apply list_elem_of_In, om_find_In.
Qed.
Lemma live_members_find now ms id : om_wf ms →
  om_find id (live_members now ms) = match om_find id ms with Some m => if session_expired now m then None else Some m | None => None end.
Proof.
  intros Hwf. unfold live_members. destruct (om_erase_all (expired_ids now ms) ms id Hwf) as [_ ->].
  destruct (decide (id ∈ expired_ids now ms)) as [Hd|Hd].
  - apply expired_ids_spec in Hd as (m & -> & ->); done.
  - destruct (om_find id ms) as [m|] eqn:E; [|done]. destruct (session_expired now m) eqn:Ex; [|done]. exfalso. apply Hd, expired_ids_spec; [done|]. by exists m.
Qed.

Lemma expire_group_spec lookup now n gid g :
  group_inv n gid g → g_generation g + 1 < 2 ^ 31 →
  let r := expire_group lookup now g in
  group_inv n gid r.1 ∧ evolves g r.1 ∧ r.2 = zlen (expired_ids now (g_members g)) ∧
  (expired_ids now (g_members g) = [] → r.1 = g) ∧
  (expired_ids now (g_members g) ≠ [] →
     g_generation r.1 = g_generation g + 1 ∧ map fst (g_members r.1) = map fst (live_members now (g_members g)) ∧
     ∀ id m, om_find id (live_members now (g_members g)) = Some m → ∃ m', om_find id (g_members r.1) = Some m' ∧
       gm_assignment m' = under id (Assign (g_strategy g) (map fst (live_members now (g_members g)))
         (match lookup with Some f => f (group_topics (live_members now (g_members g))) | None => [] end))).
Proof.
  intros Hi Hg. unfold expire_group. fold (expired_ids now (g_members g)).
  destruct (expired_ids now (g_members g)) as [|id0 ids0] eqn:E; cbn [fst snd].
  { split_and!; [done|apply evolves_refl|done|done|done]. }
  rewrite <- E. fold (live_members now (g_members g)). destruct Hi as [[Hid Hne] [Hwf Hms] Hgen _ _].
  assert (Hlive : members_inv n gid (live_members now (g_members g))).
  { split; [by apply (om_erase_all _ _ []) |]. intros id m. rewrite live_members_find by done.
    destruct (om_find id (g_members g)) as [m0|] eqn:Em; [|done]. destruct (session_expired now m0); [done|]. intros [= <-]. by apply Hms. }
  destruct (rebalance_spec lookup now n gid (with_members_ (live_members now (g_members g)) g) Hid Hne Hlive) as (R1 & R2 & R3 & R4);
    [apply Hgen|done|]. cbn [g_generation with_members_ g_members g_strategy] in R2, R3, R4.
  split_and!; [done|split; lia|done|by rewrite E|]. intros _. by split_and!.
Qed.

Lemma ExpireSessions_find lookup now c gid :
  om_find gid (gc_groups (ExpireSessions lookup now c).2) = (λ g, (expire_group lookup now g).1) <$> om_find gid (gc_groups c).
Proof.
  cbn. rewrite map_map. apply (om_map_find (λ _ g, (expire_group lookup now g).1)).
Qed.
Lemma ExpireSessions_count lookup now c :
  (ExpireSessions lookup now c).1 = fold_right (λ e n, zlen (expired_ids now (g_members e.2)) + n) 0 (gc_groups c).
Proof.
  cbn. generalize (gc_groups c) as gs. intros gs. induction gs as [|e gs IH]; [done|]. cbn. rewrite IH. f_equal. unfold expire_group.
  fold (expired_ids now (g_members e.2)). by destruct (expired_ids now (g_members e.2)).
Qed.
Lemma ExpireSessions_step lookup now c : coordinator_inv c → room c → step_ok c (ExpireSessions lookup now c).2.
Proof.
  intros Hc [_ Hr]. split.
  - constructor; [| |].
    + cbn. rewrite map_map. apply (om_map_wf (λ _ g, (expire_group lookup now g).1)), (ci_wf _ Hc).
    + apply (ci_counter _ Hc).
    + intros gid g'. rewrite ExpireSessions_find. destruct (om_find gid (gc_groups c)) as [g|] eqn:E; [|done]. intros [= <-].
      by apply expire_group_spec; [apply (ci_groups _ Hc)|apply (Hr _ _ E)].
  - intros gid g E. rewrite ExpireSessions_find, E. eexists. split; [done|].
    by apply (expire_group_spec lookup now (gc_member_counter c) gid); [apply (ci_groups _ Hc)|apply (Hr _ _ E)].
Qed.

(** ** Sequences of operations *)

(** One critical section of the coordinator or of its store.  A commit is two of them:
    its check changes nothing, and the store takes the commit later, whatever happened
    to the group in between. *)
Inductive gop (c : Coordinator) : Coordinator → Prop :=
  | op_join lookup request now : gop c (Join lookup request now c).2
  | op_heartbeat request now : gop c (Heartbeat request now c).2
  | op_leave lookup request now : gop c (Leave lookup request now c).2
  | op_expire lookup now : gop c (ExpireSessions lookup now c).2
  | op_commit_store e request now : gop c (commit_store e request now c).2
  | op_flush e : gop c (Coordinator_Flush e c).2
  | op_close e : gop c (Coordinator_Close e c).
Definition gstep (c c' : Coordinator) : Prop := room c ∧ gop c c'.

Lemma commit_store_groups e request now c :
  gc_groups (commit_store e request now c).2 = gc_groups c ∧ gc_member_counter (commit_store e request now c).2 = gc_member_counter c.
Proof. unfold commit_store. by destruct (OffsetStore_Commit _ _ _ _ _ _) as [[]]. Qed.
Lemma gstep_ok c c' : coordinator_inv c → gstep c c' → step_ok c c'.
Proof.
  intros Hc [Hr Hop]. destruct Hop as [lookup request now|request now|lookup request now|lookup now|e request now|e|e].
  - by apply Join_step.
  - by apply Heartbeat_step.
  - by apply Leave_step.
  - by apply ExpireSessions_step.
  - destruct (commit_store_groups e request now c). by apply step_ok_same.
  - apply step_ok_same; [done|..]; unfold Coordinator_Flush; by destruct (OffsetStore_Flush e (gc_offsets c)).
  - by apply step_ok_same.
Qed.
Lemma gsteps_ok c c' : coordinator_inv c → rtc gstep c c' → step_ok c c'.
Proof.
  intros Hc H. revert Hc. induction H as [c|c c1 c' H1 _ IH]; intros Hc; [by apply step_ok_same|].
  destruct (gstep_ok c c1 Hc H1) as [Hc1 E1]. destruct (IH Hc1) as [Hc' E2]. split; [done|].
  intros gid g Hg. destruct (E1 gid g Hg) as (g1 & Hg1 & V1), (E2 gid g1 Hg1) as (g' & Hg' & V2). exists g'. split; [done|].
  by apply (evolves_trans g g1).
Qed.
Lemma new_coordinator_inv st timeout : coordinator_inv (newCoordinator st timeout).
Proof. by constructor. Qed.

Lemma group_exclusive n gid g id id' m m' p :
  group_inv n gid g → om_find id (g_members g) = Some m → om_find id' (g_members g) = Some m' →
  p ∈ gm_assignment m → p ∈ gm_assignment m' → id = id'.
Proof.
  intros [_ _ _ _ (ps & Hps)] Hm Hm' Hp Hp'. rewrite (Hps _ _ Hm) in Hp. rewrite (Hps _ _ Hm') in Hp'.
  destruct (Assign_spec (g_strategy g) (map fst (g_members g)) ps) as (Hwf & _ & Hv).
  assert (Hne : map fst (g_members g) ≠ []) by (by destruct (g_members g)).
  refine (values_exclusive _ id id' p Hwf _ Hp Hp'). rewrite (Hv Hne). apply SortedPartitions_spec.
Qed.

(** C19. The groups stay well formed and exclusive.  Whatever joins, heartbeats, departures,
    session expiries and commits a coordinator serves, and whatever partitions each
    lookup answers: every group is either empty, with no leader, or stable, led by its
    least member id, its members holding the strategy's assignment for exactly the
    present members, so that no partition has two owners and none is held twice; and
    every member id is one the coordinator allocated for that group. *)
Theorem group_invariant st timeout c gid g :
  rtc gstep (newCoordinator st timeout) c → om_find gid (gc_groups c) = Some g →
  group_inv (gc_member_counter c) gid g ∧
  (∀ id id' m m' p, om_find id (g_members g) = Some m → om_find id' (g_members g) = Some m' →
     p ∈ gm_assignment m → p ∈ gm_assignment m' → id = id') ∧
  (∀ id m, om_find id (g_members g) = Some m → NoDup (gm_assignment m)).
Proof.
  intros H Hg. destruct (gsteps_ok _ _ (new_coordinator_inv st timeout) H) as [Hc _].
  pose proof (ci_groups _ Hc gid g Hg) as Hi. split_and!; [done| |].
  - intros id id' m m' p. by apply (group_exclusive (gc_member_counter c) gid g).
  - intros id m Hm. destruct (gi_assigned _ _ _ Hi) as (ps & Hps). rewrite (Hps id m Hm). apply under_NoDup.
Qed.

(** A check that passes for a managed member: the member owns the partition now. *)
Lemma commit_check_owner request c :
  commit_check request c = None → coreq_member_id request ≠ [] →
  ∃ g m, om_find (coreq_group_id request) (gc_groups c) = Some g ∧ om_find (coreq_member_id request) (g_members g) = Some m ∧
    g_generation g = coreq_generation request ∧ mkTP (coreq_topic request) (coreq_partition request) ∈ gm_assignment m.
Proof.
  unfold commit_check. intros H Hne. destruct (_ <? _); [done|]. rewrite bool_decide_eq_false_2 in H by done.
  destruct (om_find _ (gc_groups c)) as [g|] eqn:Eg; [|done]. destruct (om_find _ (g_members g)) as [m|] eqn:Em; [|done].
  destruct (Z.eqb_spec (coreq_generation request) (g_generation g)) as [HE|]; [|done]. cbn in H.
  case_bool_decide as Hp; [|done]. by exists g, m.
Qed.
Lemma owners_find g id m : om_find id (g_members g) = Some m → om_find id (owners g) = Some (gm_assignment m).
Proof. intros H. unfold owners. by rewrite (om_map_find (λ _ x, gm_assignment x)), H. Qed.

(** C18. The generation fences the commits of members.  Within the life of one coordinator,
    however much later and whatever happened in between, two commits that name a member
    (a commit with an empty member id is taken for one by hand and is not fenced), for the
    same group, partition and generation, and pass the coordinator's check, come from the
    same member; and once a group's owners have changed, no commit that names a member and
    carries the generation of before passes.  The generations start again when the
    coordinator restarts, and the check is made before the commit is stored. *)
Theorem commit_fenced st timeout c1 c2 r1 r2 :
  rtc gstep (newCoordinator st timeout) c1 → rtc gstep c1 c2 →
  coreq_member_id r1 ≠ [] → coreq_member_id r2 ≠ [] →
  coreq_group_id r1 = coreq_group_id r2 → coreq_topic r1 = coreq_topic r2 → coreq_partition r1 = coreq_partition r2 →
  coreq_generation r1 = coreq_generation r2 →
  (commit_check r1 c1 = None → commit_check r2 c2 = None → coreq_member_id r1 = coreq_member_id r2) ∧
  (∀ g1 g2, om_find (coreq_group_id r1) (gc_groups c1) = Some g1 → om_find (coreq_group_id r1) (gc_groups c2) = Some g2 →
     g_generation g1 = coreq_generation r1 → owners g2 ≠ owners g1 → commit_check r2 c2 ≠ None).
Proof.
  intros H1 H2 M1 M2 EG ET EP EN. destruct (gsteps_ok _ _ (new_coordinator_inv st timeout) H1) as [Hc1 _].
  destruct (gsteps_ok _ _ Hc1 H2) as [Hc2 Hev]. split.
  - intros C1 C2. destruct (commit_check_owner _ _ C1 M1) as (g1 & m1 & G1 & F1 & N1 & P1).
    destruct (commit_check_owner _ _ C2 M2) as (g2 & m2 & G2 & F2 & N2 & P2). rewrite <- EG in G2.
    destruct (Hev _ _ G1) as (g2' & G2' & _ & Hsame). rewrite G2 in G2'. injection G2' as <-.
    assert (HO : om_find (coreq_member_id r1) (owners g2) = Some (gm_assignment m1)).
    { rewrite Hsame by congruence. by apply owners_find. }
    unfold owners in HO. rewrite (om_map_find (λ _ x, gm_assignment x)) in HO.
    destruct (om_find (coreq_member_id r1) (g_members g2)) as [m1'|] eqn:F1'; [|done]. injection HO as HO.
    apply (group_exclusive (gc_member_counter c2) (coreq_group_id r1) g2 _ _ m1' m2 (mkTP (coreq_topic r1) (coreq_partition r1)));
      [by apply (ci_groups _ Hc2)|done|done|by rewrite HO|by rewrite ET, EP].
  - intros g1 g2 G1 G2 HN Hne C2. destruct (commit_check_owner _ _ C2 M2) as (g2' & m2 & G2' & _ & N2 & _).
    rewrite <- EG, G2 in G2'. injection G2' as <-. destruct (Hev _ _ G1) as (g2' & G2' & _ & Hsame). rewrite G2 in G2'. injection G2' as <-.
    apply Hne, Hsame. congruence.
Qed.

(** Expiring sessions hands the partitions of the silent on.  Exactly the members whose
    last heartbeat is older than their session timeout leave (their number is what is
    reported); a group none of whose members expired does not change at all; in the
    others the generation goes up by one and, when somebody is left, every partition of
    the survivors' topics has an owner among them. *)
Theorem session_expiry lookup now c gid g :
  coordinator_inv c → room c → om_find gid (gc_groups c) = Some g →
  let r := ExpireSessions lookup now c in
  ∃ g', om_find gid (gc_groups r.2) = Some g' ∧
  (∀ id, is_Some (om_find id (g_members g')) ↔ ∃ m, om_find id (g_members g) = Some m ∧ now - gm_last_heartbeat_ms m ≤ gm_session_timeout_ms m) ∧
  (expired_ids now (g_members g) = [] → g' = g) ∧
  (expired_ids now (g_members g) ≠ [] → g_generation g' = g_generation g + 1 ∧
     (g_members g' ≠ [] → ∀ f p, lookup = Some f → p ∈ f (group_topics (live_members now (g_members g))) →
      ∃ id m, om_find id (g_members g') = Some m ∧ p ∈ gm_assignment m)) ∧
  r.1 = fold_right (λ e n, zlen (expired_ids now (g_members e.2)) + n) 0 (gc_groups c).
Proof.
  intros Hc [_ Hr] Hg r. pose proof (ci_groups _ Hc _ _ Hg) as Hi.
  destruct (expire_group_spec lookup now _ gid g Hi (Hr _ _ Hg)) as (S1 & _ & _ & S3 & S4).
  set (g' := (expire_group lookup now g).1) in *. exists g'. pose proof (proj1 (gi_members _ _ _ Hi)) as Hwf.
  assert (Hlive : ∀ id, is_Some (om_find id (live_members now (g_members g))) ↔
    ∃ m, om_find id (g_members g) = Some m ∧ now - gm_last_heartbeat_ms m ≤ gm_session_timeout_ms m).
  { intros id. rewrite live_members_find by done. destruct (om_find id (g_members g)) as [m|]; [|by split; [intros [? [=]]|intros (? & [=] & _)]].
    unfold session_expired. destruct (Z.ltb_spec (gm_session_timeout_ms m) (now - gm_last_heartbeat_ms m)).
    - split; [intros [? [=]]|intros (? & [= <-] & ?); lia].
    - split; [|by eexists]. intros _. exists m. split; [done|lia]. }
  assert (Hkeys : ∀ id, is_Some (om_find id (g_members g')) ↔ is_Some (om_find id (live_members now (g_members g)))).
  { intros id. destruct (decide (expired_ids now (g_members g) = [])) as [He|He].
    - rewrite (S3 He). unfold live_members. by rewrite He.
    - destruct (S4 He) as (_ & HK & _). by rewrite <- !om_keys, HK. }
  split_and!; [unfold r; by rewrite ExpireSessions_find, Hg|intros id; by rewrite Hkeys, Hlive|done| |].
  - intros He. destruct (S4 He) as (HN & HK & Has). split; [done|]. intros Hne f p -> Hp.
    destruct (Assign_spec (g_strategy g) (map fst (live_members now (g_members g))) (f (group_topics (live_members now (g_members g))))) as (Aw & Ak & Av).
    assert (Hne' : map fst (live_members now (g_members g)) ≠ []) by (rewrite <- HK; by destruct (g_members g')).
    assert (Hin : p ∈ values (Assign (g_strategy g) (map fst (live_members now (g_members g))) (f (group_topics (live_members now (g_members g)))))).
    { rewrite (Av Hne'). by apply SortedPartitions_spec. }
    apply (values_under _ _ Aw) in Hin as [id Hid]. destruct (om_find id (live_members now (g_members g))) as [m|] eqn:Em.
    + destruct (Has id m Em) as (m' & Hm' & HA). exists id, m'. split; [done|]. by rewrite HA.
    + exfalso. assert (Hn : id ∉ map fst (live_members now (g_members g))) by (rewrite om_keys, Em; by intros [? [=]]).
      apply Hn, Ak. unfold under in Hid. destruct (om_find id (Assign _ _ _)); [by eexists|by apply elem_of_nil in Hid].
  - apply ExpireSessions_count.
Qed.

(** ** Commits and fetches *)

(** What a group commits is what it fetches.  A commit the check refuses changes nothing;
    one it lets through is answered with success, and then a fetch of that group's
    partition gives its offset and metadata while every other fetch answers as before, or
    with the store's error, and then no fetch changes. *)
Theorem commit_then_fetch e c l rss J request now :
  store_inv (gc_offsets c) l rss J → CommitOffsetRequest_wf request → fresh_files (env_files e) → signed 64 (env_append_now e) →
  signed 64 now → log_end_offset l < 2 ^ 62 →
  let r := Coordinator_Commit e request now c in
  (∀ err, commit_check request c = Some err → r = (mkCommitOffsetResponse (refused err), c)) ∧
  (commit_check request c = None →
     (r.1 = mkCommitOffsetResponse no_error ∧ ∀ q, FetchOffset q r.2 =
        if decide (foreq_group_id q = coreq_group_id request ∧ foreq_topic q = coreq_topic request ∧ foreq_partition q = coreq_partition request)
        then mkFetchOffsetResponse no_error (coreq_offset request) (coreq_metadata request) else FetchOffset q c) ∨
     (∃ err, r.1 = mkCommitOffsetResponse (refused err) ∧ (∀ q, FetchOffset q r.2 = FetchOffset q c) ∧ ¬ calm_env e l)).
Proof.
  intros HI Hwf Hfr Hnow Hn Hend. cbv zeta. unfold Coordinator_Commit. split; [by intros err ->|]. intros ->.
  destruct request as [g id gen t p o m]. destruct Hwf as (? & ? & ? & ? & ? & ? & ? & ?). unfold commit_store. cbn [coreq_group_id coreq_topic coreq_partition coreq_offset coreq_metadata].
  destruct (Commit_outcome e (gc_offsets c) l rss J (mkOffsetKey g t p, mkCommitted o m now) HI) as (l' & rss' & H'); [done|done|done|done|done|].
  cbn [fst snd co_offset co_metadata co_commit_time] in H'.
  destruct (OffsetStore_Commit _ _ _ _ _ _) as [[[]|err] s]; cbn [fst snd] in *.
  - left. destruct H' as (_ & _ & HG). split; [done|]. intros [qg qt qp]. unfold FetchOffset. cbn [foreq_group_id foreq_topic foreq_partition gc_offsets with_offset_store].
    rewrite HG. destruct (decide (mkOffsetKey qg qt qp = mkOffsetKey g t p)) as [[= -> -> ->]|Hne].
    + by rewrite decide_True.
    + rewrite decide_False; [done|]. by intros (-> & -> & ->).
  - right. destruct H' as (_ & HG & Hq). exists err. split_and!; [done| |done]. intros q. unfold FetchOffset. cbn [gc_offsets with_offset_store]. by rewrite HG.
Qed.

(** ** An example group *)

Definition room_b (c : Coordinator) : bool :=
  (gc_member_counter c + 1 <? 2 ^ 64) && forallb (λ e, g_generation e.2 + 1 <? 2 ^ 31) (gc_groups c).
Lemma room_b_room c : room_b c = true → room c.
Proof.
  unfold room_b. intros [H1%Z.ltb_lt H2]%andb_true_iff. split; [done|]. intros gid g Hg%om_find_In%list_elem_of_In.
  rewrite forallb_forall in H2. by apply Z.ltb_lt, (H2 _ Hg).
Qed.

(** Two members of group "g" on topic "t" with two partitions. *)
Definition two_partitions : PartitionLookup := Some (λ _, [mkTP (str "t") 0; mkTP (str "t") 1]).
Definition join_g : JoinGroupRequest := mkJoinGroupRequest (str "g") [] [str "t"] 0 kRange.
Definition group0 : Coordinator := newCoordinator example_store 1000.
Definition group1 : Coordinator := (Join two_partitions join_g 10 group0).2.
Definition group2 : Coordinator := (Join two_partitions join_g 20 group1).2.
Definition group3 : Coordinator := (Leave two_partitions (mkLeaveGroupRequest (str "g") (str "g-1")) 30 group2).2.
Definition commit_g : CommitOffsetRequest := mkCommitOffsetRequest (str "g") (str "g-1") 2 (str "t") 0 5 [].

Lemma group2_reached : rtc gstep group0 group2.
Proof.
  apply (rtc_l _ _ group1); [split; [apply room_b_room; by vm_compute|constructor]|].
  apply rtc_once. split; [apply room_b_room; by vm_compute|constructor].
Qed.
Lemma group3_step : gstep group2 group3.
Proof. split; [apply room_b_room; by vm_compute|constructor]. Qed.

Lemma group_invariant_witness :
  ∃ g, om_find (str "g") (gc_groups group2) = Some g ∧ g_leader_id g = str "g-1" ∧
    owners g = [(str "g-1", [mkTP (str "t") 0]); (str "g-2", [mkTP (str "t") 1])] ∧ group_inv 2 (str "g") g.
Proof.
  destruct (om_find (str "g") (gc_groups group2)) as [g|] eqn:E; [|by vm_compute in E]. exists g.
  destruct (group_invariant example_store 1000 group2 (str "g") g group2_reached E) as (HI & _).
  vm_compute in E. injection E as <-. split; [done|]. split; [done|]. split; [done|exact HI].
Defined.
Lemma commit_fenced_witness : commit_check commit_g group2 = None ∧ commit_check commit_g group3 ≠ None.
Proof.
  split; [by vm_compute|].
  destruct (commit_fenced example_store 1000 group2 group3 commit_g commit_g group2_reached (rtc_once _ _ group3_step)) as [_ H]; [done..|].
  destruct (om_find (str "g") (gc_groups group2)) as [g1|] eqn:E1; [|by vm_compute in E1].
  destruct (om_find (str "g") (gc_groups group3)) as [g2|] eqn:E2; [|by vm_compute in E2].
  apply (H g1 g2 E1 E2); vm_compute in E1, E2; injection E1 as <-; injection E2 as <-; by vm_compute.
Defined.
Lemma session_expiry_witness :
  ∃ g, om_find (str "g") (gc_groups (ExpireSessions two_partitions 1015 group2).2) = Some g ∧
    owners g = [(str "g-2", [mkTP (str "t") 0; mkTP (str "t") 1])] ∧ (ExpireSessions two_partitions 1015 group2).1 = 1.
Proof.
  destruct (gsteps_ok _ _ (new_coordinator_inv _ _) group2_reached) as [Hc _].
  destruct (om_find (str "g") (gc_groups group2)) as [g1|] eqn:E1; [|by vm_compute in E1].
  destruct (session_expiry two_partitions 1015 group2 (str "g") g1 Hc) as (g & Hg & _); [apply room_b_room; by vm_compute|done|].
  exists g. split; [done|]. vm_compute in Hg. injection Hg as <-. split; by vm_compute.
Defined.
Lemma example_store_calm : calm_env example_env (example_log (store_options true)).
Proof.
  split; [constructor; [apply fresh_segment_quiet|constructor]|]. split; [|by split_and!]. vm_compute. reflexivity.
Qed.
Lemma group2_offsets : gc_offsets group2 = example_store.
Proof. vm_compute. reflexivity. Qed.
Lemma commit_then_fetch_witness :
  FetchOffset (mkFetchOffsetRequest (str "g") (str "t") 0) (Coordinator_Commit example_env commit_g 7 group2).2
  = mkFetchOffsetResponse no_error 5 [].
Proof.
  destruct (commit_then_fetch example_env group2 (example_log (store_options true)) [[]] [] commit_g 7) as [_ H];
    [rewrite group2_offsets; apply example_store_inv|by repeat split|by vm_compute|by vm_compute|by vm_compute|by vm_compute|].
  destruct (H ltac:(by vm_compute)) as [[_ HF]|(err & _ & _ & Hc)]; [|by destruct (Hc example_store_calm)].
  rewrite HF. by vm_compute.
Defined.

(** The check and the store are two critical sections: a commit that passed the check when
    its member owned the partition is stored after the member has left and the
    partition has a new owner. *)
Theorem commit_race :
  commit_check commit_g group2 = None ∧ gstep group2 group3 ∧ commit_check commit_g group3 = Some kUnknownMember ∧
  (commit_store example_env commit_g 7 group3).1 = mkCommitOffsetResponse no_error ∧
  FetchOffset (mkFetchOffsetRequest (str "g") (str "t") 0) (commit_store example_env commit_g 7 group3).2 = mkFetchOffsetResponse no_error 5 [].
Proof. split; [by vm_compute|]. split; [apply group3_step|]. split; [by vm_compute|]. split; vm_compute; reflexivity. Qed.
