(* ===== verification/RequestHandler.v ===== *)
(** * RequestHandler: what a partition worker does with a request

    Models the partition-scoped handlers of src/broker/request_handler.cc: produce,
    fetch, list-offsets, replica-fetch and replica-ack, on the encoded payload and on
    what [ResolvePartition] (or [Find]) yielded for its partition.  A handler returns the
    payload it responds with, the replica afterwards, and the completions it set off;
    a produce request that waits for its acknowledgement returns the pending callback
    instead, and [produce_complete] is what that callback sends.  Error texts and
    metrics are left out. *)
From S2P Require Import Prelude Status Buffer Types OrdMap Codec MessageCodec MessagesData MessagesControl MessagesGroup Messages Record ClusterMetadata PartitionLog Replica Replication.

(** [RespondError]: a response of the header alone. *)
Definition error_reply (code : ErrorCode) : bytes := Readable (EncodeErrorResponse code [] emptyBuffer).
(** [response.Encode(writer)] into a new buffer. *)
Definition encode_reply {k : MessageKind} (response : payload k) : bytes := Readable (EncodePayload response emptyBuffer).

(** ** Produce *)

(** What the completion callback of a produce request captured. *)
Record PendingProduce := mkPendingProduce {
  pp_callback : Z; pp_base_offset : Z; pp_last_offset : Z; pp_append_time : Z }.
Definition produce_response (p : PendingProduce) (status : ErrorCode) (high_water_mark : Z) : ProduceResponse :=
  mkProduceResponse (error_header status) (pp_base_offset p) (pp_last_offset p) (pp_append_time p) high_water_mark.
Definition produce_complete (p : PendingProduce) (c : Completion) : bytes :=
  encode_reply (k := KProduceResponse) (produce_response p (co_status c) (co_watermark c)).

(** Refuse rather than silently degrade. *)
Definition not_enough_replicas (acks : AckMode) (r : Node) : bool :=
  bool_decide (acks = kQuorum) && (rs_in_sync (Replica_GetStats r) <? QuorumSize (pr_assignment r)).

(** The handler on the resolved leader: the waiter's callback is the number [cb]. *)
Definition produce_to (e : LogEnv) (nanos : DurabilityWaiter → Z) (replication_timeout_ms now_ms append_finished cb : Z)
    (produce : ProduceRequest) (r : Node) : Result PendingProduce * Node * list Completion :=
  if negb (is_leader r) then (Err kNotLeader, r, []) else
  if not_enough_replicas (preq_acks produce) r then (Err kNotEnoughReplicas, r, []) else
  match AppendAssigningOffsets e (preq_record_count produce) (pr_log r, preq_records produce) with
  | (Err err, (l, _)) => (Err err, with_log l r, [])
  | (Ok appended, (l, _)) =>
      let r := with_log l r in
      let '(r, done1) := OnLeaderAppend nanos (ar_last_offset appended + 1) now_ms r in
      let waiter := mkWaiter (ar_last_offset appended) (preq_acks produce)
        (now_ms + (if 0 <? preq_timeout_ms produce then preq_timeout_ms produce else replication_timeout_ms)) cb append_finished 0 in
      let '(r, done2) := AddWaiter nanos waiter now_ms r in
      (Ok (mkPendingProduce cb (ar_base_offset appended) (ar_last_offset appended) (ar_append_time appended)), r, done1 ++ done2)
  end.

Definition ExecuteProduce (e : LogEnv) (nanos : DurabilityWaiter → Z) (replication_timeout_ms now_ms append_finished cb : Z)
    (payload : bytes) (resolved : Result Node) : (bytes + PendingProduce) * Result Node * list Completion :=
  match (ProduceRequest_Decode (newReader payload)).1 with
  | None => (inl (error_reply kProtocolError), resolved, [])
  | Some produce =>
      match resolved with
      | Err err => (inl (error_reply err), resolved, [])
      | Ok r =>
          match produce_to e nanos replication_timeout_ms now_ms append_finished cb produce r with
          | (Err err, r, done) => (inl (error_reply err), Ok r, done)
          | (Ok pending, r, done) => (inr pending, Ok r, done)
          end
      end
  end.

(** ** Fetch *)

(** [while (seen < visible_records && it.Next(view))]: where the last visible record ends. *)
Fixpoint trim_loop (fuel : nat) (visible_records seen visible_bytes : Z) (it : RecordIterator) : Z :=
  match fuel with
  | O => visible_bytes
  | S fuel =>
      if seen <? visible_records then
        match NextRecord it with
        | (Some _, it') => trim_loop fuel visible_records (u32 (seen + 1)) (it_pos it') it'
        | (None, _) => visible_bytes
        end
      else visible_bytes
  end.

Definition fetch_start (fetch : FetchRequest) (r : Node) : Z :=
  if freq_fetch_offset fetch =? kEarliestOffset then log_start_offset (pr_log r)
  else if freq_fetch_offset fetch =? kLatestOffset then
    match freq_isolation fetch with kReadReplicated => pr_hwm r | kReadUncommitted => log_end_offset (pr_log r) end
  else freq_fetch_offset fetch.
Definition visible_end (fetch : FetchRequest) (r : Node) : Z :=
  match freq_isolation fetch with kReadReplicated => pr_hwm r | kReadUncommitted => log_end_offset (pr_log r) end.

Definition fetch_from (fetch : FetchRequest) (r : Node) : Result FetchResponse * Node :=
  let high_water_mark := pr_hwm r in
  let log_end := log_end_offset (pr_log r) in
  let log_start := log_start_offset (pr_log r) in
  let start := fetch_start fetch r in
  if log_end <? start then (Err kOutOfRange, r) else
  if start <? log_start then (Err kOutOfRange, r) else
  let visible_end := visible_end fetch r in
  let response := mkFetchResponse (error_header kOk) high_water_mark log_start start in
  if start <? visible_end then
    match Log_Read start (freq_max_bytes fetch) (pr_log r, emptyBuffer) with
    | (Err err, (l, _)) => (Err err, with_log l r)
    | (Ok read, (l, records)) =>
        let data := Readable records in
        let '(visible_records, visible_bytes) :=
          if visible_end <? start + lr_record_count read then
            let visible_records := u32 (visible_end - start) in
            (visible_records, trim_loop (S (length data)) visible_records 0 0 (newIterator data false))
          else (lr_record_count read, lr_bytes read) in
        (Ok (response visible_records (ztake visible_bytes data)), with_log l r)
    end
  else (Ok (response 0 []), r).

Definition ExecuteFetch (payload : bytes) (resolved : Result Node) : bytes * Result Node :=
  match DecodePayload KFetchRequest payload with
  | None => (error_reply kProtocolError, resolved)
  | Some fetch =>
      match resolved with
      | Err err => (error_reply err, resolved)
      | Ok r =>
          match fetch_from fetch r with
          | (Err err, r) => (error_reply err, Ok r)
          | (Ok response, r) => (encode_reply (k := KFetchResponse) response, Ok r)
          end
      end
  end.

(** ** The other handlers *)

Definition ExecuteListOffsets (payload : bytes) (resolved : Result Node) : bytes :=
  match DecodePayload KListOffsetsRequest payload with
  | None => error_reply kProtocolError
  | Some request =>
      match resolved with
      | Err err => error_reply err
      | Ok r =>
          encode_reply (k := KListOffsetsResponse)
            (mkListOffsetsResponse (error_header kOk) (Log_OffsetForTimestamp (loreq_timestamp request) (pr_log r)) (loreq_timestamp request))
      end
  end.

Definition ExecuteReplicaFetch (payload : bytes) (resolved : Result Node) : bytes * Result Node :=
  match DecodePayload KReplicaFetchRequest payload with
  | None => (error_reply kProtocolError, resolved)
  | Some fetch =>
      match resolved with
      | Err err => (error_reply err, resolved)
      | Ok r =>
          let response := mkReplicaFetchResponse (error_header kOk) (pa_leader_epoch (pr_assignment r)) (pr_hwm r)
            (log_start_offset (pr_log r)) (rfreq_fetch_offset fetch) in
          if rfreq_fetch_offset fetch <? log_end_offset (pr_log r) then
            match Log_Read (rfreq_fetch_offset fetch) (rfreq_max_bytes fetch) (pr_log r, emptyBuffer) with
            | (Err err, (l, _)) => (error_reply err, Ok (with_log l r))
            | (Ok read, (l, records)) =>
                (encode_reply (k := KReplicaFetchResponse) (response (lr_record_count read) (Readable records)), Ok (with_log l r))
            end
          else (encode_reply (k := KReplicaFetchResponse) (response 0 []), Ok r)
      end
  end.

(** [found] is what [partitions_.Find] yields. *)
Definition ExecuteReplicaAck (nanos : DurabilityWaiter → Z) (now_ms : Z) (payload : bytes) (found : option Node)
    : bytes * option Node * list Completion :=
  match DecodePayload KReplicaAckRequest payload with
  | None => (error_reply kProtocolError, found, [])
  | Some ack =>
      match found with
      | None => (encode_reply (k := KReplicaAckResponse) (mkReplicaAckResponse (error_header kNotFound) kInvalidOffset), None, [])
      | Some r =>
          let '(r, done, watermark) := OnFollowerProgress nanos (rareq_follower_id ack) (rareq_log_end_offset ack) (rareq_flushed_offset ack) now_ms r in
          (encode_reply (k := KReplicaAckResponse) (mkReplicaAckResponse (error_header kOk) watermark), Some r, done)
      end
  end.
