(* ===== verification/RequestTheorems.v ===== *)
(** * RequestTheorems: what a client may rely on

    A fetch returns exactly stored records and nothing past what is visible; a produce
    request that is accepted has its batch in the log at the offsets it is answered
    with, and a refused one has nothing there. *)
From S2P Require Import Prelude Status Endian Crc32c Buffer Types OrdMap Codec MessageCodec MessagesData MessagesControl MessagesGroup Messages Record FileUtil Quiet Segment SegmentSpec Recovery SegmentOps SegmentRead PartitionLog PartitionLogSpec PartitionLogRoll PartitionLogBatch PartitionLogAppend PartitionLogRead PartitionLogTheorems ClusterMetadata Replica ReplicaTheorems Replication RequestHandler.

(** ** Trimming to the visible records *)

Lemma trim_loop_run fuel n pre rs seen cnt :
  run_ok false rs → zlen (pre ++ run_bytes rs) < 2 ^ 62 → (length rs < fuel)%nat → 0 ≤ seen ≤ n → n < 2 ^ 32 → n ≤ seen + zlen rs →
  trim_loop fuel n seen (zlen pre) (mkIter (pre ++ run_bytes rs) false (zlen pre) cnt None)
  = zlen pre + zlen (run_bytes (take (Z.to_nat (n - seen)) rs)).
Proof.
  revert pre seen fuel cnt. induction rs as [|[r x] rs IH]; intros pre seen [|fuel] cnt Hok Hbig Hf Hs Hn Hle; try (cbn in Hf; lia); cbn [trim_loop].
  - change (zlen (@nil (bytes * LogRecord))) with 0 in Hle. destruct (Z.ltb_spec seen n); [lia|]. rewrite take_nil. change (zlen (run_bytes [])) with 0. lia.
  - destruct (Z.ltb_spec seen n) as [Hlt|Hge].
    2:{ replace (Z.to_nat (n - seen)) with 0%nat by lia. change (zlen (run_bytes (take 0 ((r, x) :: rs)))) with 0. lia. }
    apply run_ok_cons in Hok as [Hr Hok]. change (run_bytes ((r, x) :: rs)) with (r ++ run_bytes rs) in *.
    destruct (parse_record_front pre r x (run_bytes rs) false Hr Hbig) as (v & Hp & _).
    pose proof (run_length_bytes _ _ Hr) as HL. change (zlen [(r, x)]) with 1 in HL. change (run_bytes [(r, x)]) with (r ++ []) in HL. rewrite app_nil_r in HL.
    unfold NextRecord. cbn [it_status it_data it_pos it_verify_crc records_read].
    destruct (Z.leb_spec (zlen (pre ++ r ++ run_bytes rs)) (zlen pre)) as [Hb|_]; [rewrite !zlen_app in Hb; pose proof (zlen_nonneg (run_bytes rs)); lia|].
    rewrite Hp. cbn [it_pos]. rewrite uwrap_small by (unfold unsigned; lia). rewrite zlen_cons in Hle. cbn [length] in Hf.
    rewrite <- zlen_app, app_assoc, IH; [|done|by rewrite <- app_assoc|lia|lia|lia|lia].
    replace (Z.to_nat (n - seen)) with (S (Z.to_nat (n - (seen + 1)))) by lia. cbn [take].
    change (run_bytes ((r, x) :: take (Z.to_nat (n - (seen + 1))) rs)) with (r ++ run_bytes (take (Z.to_nat (n - (seen + 1))) rs)).
    rewrite !zlen_app. lia.
Qed.

Lemma run_ok_unverified rs : run_ok true rs → run_ok false rs.
Proof. intros H. eapply Forall_impl; [exact H|]. intros p (crc & Hs & _). by exists crc. Qed.

(** ** Fetch *)

(** What a fetch answers: [n] records from [start] on, none past [vend]. *)
Record fetched (m : FetchRequest) (r : Node) (flat : Run) (resp : FetchResponse) (n : nat) : Prop := {
  fe_header : fresp_header resp = error_header kOk;
  fe_marks : fresp_high_water_mark resp = pr_hwm r ∧ fresp_log_start_offset resp = log_start_offset (pr_log r);
  fe_base : fresp_base_offset resp = fetch_start m r ∧ log_start_offset (pr_log r) ≤ fetch_start m r ≤ log_end_offset (pr_log r);
  fe_count : fresp_record_count resp = Z.of_nat n;
  fe_records : fresp_records resp = run_bytes (take n (drop (Z.to_nat (fetch_start m r - log_start_offset (pr_log r))) flat));
  fe_exists : (Z.to_nat (fetch_start m r - log_start_offset (pr_log r)) + n ≤ length flat)%nat;
  fe_visible : n = 0%nat ∨ fetch_start m r + Z.of_nat n ≤ visible_end m r;
  fe_full : fetch_start m r < visible_end m r → fetch_start m r + Z.of_nat n = visible_end m r ∨ freq_max_bytes m ≤ zlen (fresp_records resp);
  fe_size : zlen (fresp_records resp) < freq_max_bytes m + kMaxRecordBytes + 5;
  fe_some : fetch_start m r < visible_end m r → 0 < freq_max_bytes m → (0 < n)%nat;
}.

Lemma visible_end_le m r : pr_hwm r ≤ log_end_offset (pr_log r) → visible_end m r ≤ log_end_offset (pr_log r).
Proof. intros H. unfold visible_end. destruct (freq_isolation m); lia. Qed.

Lemma fetch_from_spec m r rss :
  log_inv (pr_log r) rss → FetchRequest_wf m → pr_hwm r ≤ log_end_offset (pr_log r) →
  let res := fetch_from m r in
  (∃ l', res.2 = with_log l' r ∧ only_read (pr_log r) l' rss) ∧
  match res.1 with
  | Ok resp => ∃ n, fetched m r (concat rss) resp n
  | Err e => e = kOutOfRange ∧ ¬ (log_start_offset (pr_log r) ≤ fetch_start m r ≤ log_end_offset (pr_log r)) ∨ ¬ log_quiet (pr_log r)
  end.
Proof.
  intros Hi Hwf Hh. unfold fetch_from. set (start := fetch_start m r). set (l := pr_log r) in *.
  pose proof (visible_end_le m r Hh) as Hv. fold l in Hv.
  assert (Hb : 0 ≤ freq_max_bytes m < 2 ^ 32) by (destruct m; destruct Hwf as (_ & _ & _ & _ & Hu & _); exact Hu).
  assert (Hsame : ∃ l', r = with_log l' r ∧ only_read l l' rss) by (exists l; split; [by destruct r|split; [exact Hi|]; split; [by repeat split|done]]).
  destruct (Z.ltb_spec (log_end_offset l) start); [cbn; split; [done|left; split; [done|lia]]|].
  destruct (Z.ltb_spec start (log_start_offset l)); [cbn; split; [done|left; split; [done|lia]]|].
  destruct (Z.ltb_spec start (visible_end m r)) as [Hlt|Hge].
  2:{ cbn [fst snd]. split; [done|]. exists 0%nat. constructor; cbn; fold start; fold l; try done; try lia; try (by left).
      - pose proof (li_end _ _ Hi). unfold zlen in *. lia.
      - change (zlen (@nil Z)) with 0. unfold kMaxRecordBytes. lia. }
  destruct (Log_Read_spec rss l emptyBuffer start (freq_max_bytes m) Hi emptyBuffer_wf) as [Hor Hr].
  destruct (Log_Read start (freq_max_bytes m) (l, emptyBuffer)) as [[read|e] [l' out]]; cbn [fst snd] in *.
  2:{ split; [by exists l'|]. right. destruct Hr as [[_ Hr]|[_ Hr]]; [lia|done]. }
  destruct Hr as (t & _ & Hx & -> & _ & HR). cbn [lr_record_count lr_bytes]. set (k := Z.to_nat (start - log_start_offset l)) in *.
  change (Readable emptyBuffer) with (@nil Z) in HR. cbn [app] in HR. rewrite HR. set (rs := take t (drop k (concat rss))) in *.
  destruct (chain_run _ _ _ _ (li_chain _ _ Hi)) as [Hok _].
  pose proof (extent_bytes _ _ _ _ Hok Hx (proj1 Hb)) as Hsz. fold rs in Hsz. unfold kMaxRecordBytes in Hsz.
  assert (Hrs : run_ok true rs) by (apply run_ok_take; by apply Forall_drop).
  pose proof (run_length_bytes _ _ Hrs) as HL.
  destruct Hx as (Hkt & Ht & Hfull). pose proof (li_end _ _ Hi) as Hend. fold l in Hend.
  assert (Hrl : length rs = t) by (unfold rs; rewrite length_take, length_drop; lia). unfold zlen in HL at 1. rewrite Hrl in HL.
  assert (Htpos : 0 < freq_max_bytes m → (0 < t)%nat).
  { intros Hm. destruct t; [|lia]. rewrite pos_of_0 in Hfull. destruct Hfull as [|Hfull]; [lia|]. unfold zlen in Hend. lia. }
  destruct (Z.ltb_spec (visible_end m r) (start + Z.of_nat t)) as [Hcut|Hall]; cbn [fst snd]; (split; [by exists l'|]).
  - set (n := visible_end m r - start). assert (Hn : u32 n = n) by (apply uwrap_small; unfold unsigned, n; lia). rewrite Hn.
    pose proof (trim_loop_run (S (length (run_bytes rs))) n [] rs 0 0 (run_ok_unverified _ Hrs)) as HT. cbn [app] in HT.
    change (zlen (@nil Z)) with 0 in HT. unfold newIterator. rewrite HT; [|lia|unfold zlen in HL; lia|unfold n; lia|unfold n; lia|unfold zlen, n; lia].
    rewrite Z.add_0_l, Z.sub_0_r. exists (Z.to_nat n).
    assert (HB : ztake (zlen (run_bytes (take (Z.to_nat n) rs))) (run_bytes rs) = run_bytes (take (Z.to_nat n) rs)).
    { rewrite (run_bytes_split (Z.to_nat n) rs). by apply ztake_app. }
    constructor; cbn; fold start; fold l; fold k; try done; try lia; try (unfold n; lia).
    + rewrite HB. unfold rs. rewrite take_take. do 2 f_equal. unfold n. lia.
    + rewrite HB. pose proof (run_bytes_split (Z.to_nat n) rs) as HS. apply (f_equal zlen) in HS. rewrite zlen_app in HS.
      pose proof (zlen_nonneg (run_bytes (drop (Z.to_nat n) rs))). unfold kMaxRecordBytes. lia.
  - exists t. rewrite ztake_all by lia. constructor; cbn; fold start; fold l; fold k; try done; try lia.
    intros _. destruct Hfull as [Hfull|Hfull]; [right; exact Hfull|left]. unfold zlen in Hend. lia.
Qed.

(** A payload that decodes carries a message that fits. *)
Lemma decoded_wf k payload (m : Messages.payload k) : Forall is_byte payload → DecodePayload k payload = Some m → msg_wf m.
Proof.
  intros Hb. unfold DecodePayload. pose proof (msg_bounded (M := Messages.payload k) (newReader payload)) as H.
  assert (Hw : reader_wf (newReader payload)) by (split; [cbn; pose proof (zlen_nonneg payload); lia|done]).
  destruct (H Hw) as (_ & _ & Hm). destruct (msg_decode (newReader payload)) as [[m'|] rd]; [|done]. destruct (Complete rd); [|done].
  intros [= <-]. by apply Hm.
Qed.
Lemma encode_reply_decodes k (m : Messages.payload k) : msg_wf m → DecodePayload k (encode_reply m) = Some m.
Proof. intros Hm. exact (proj2 (@decode_encoded ByteBuffer ByteBuffer_sink k m emptyBuffer Hm emptyBuffer_wf eq_refl)). Qed.

(** Offsets a replica can be at. *)
Definition in_range (r : Node) : Prop :=
  0 ≤ log_start_offset (pr_log r) ∧ log_end_offset (pr_log r) < 2 ^ 62 ∧ 0 ≤ pr_hwm r ≤ log_end_offset (pr_log r).

(** The two fields of the long poll are read by nothing. *)
Lemma fetch_never_waits m r min_bytes max_wait_ms :
  fetch_from (mkFetchRequest (freq_topic m) (freq_partition m) (freq_fetch_offset m) (freq_max_bytes m) min_bytes max_wait_ms (freq_isolation m)) r = fetch_from m r.
Proof. reflexivity. Qed.

(** C5. A fetch sees what is visible and nothing else.  The answer to a well-formed fetch
    request decodes to consecutive records from the requested position on, byte for byte
    as they are stored; none of them is past the high-water mark for a consumer that
    reads replicated data, or past the log end for one that does not; the answer stops
    short of that only when the byte budget is used up, and is not empty while there is
    something to see.  Otherwise the answer is [kOutOfRange], for exactly the positions
    outside the log, or the error of a failed system call.  The replica is unchanged.  This
    holds on any replica that hosts the partition: the handler does not ask whether it
    leads, so a follower answers too, from its own log and its own high-water mark, although
    the documentation says that followers reject client fetches; and the answer is given at
    once, whatever [min_bytes] and [max_wait_ms] say ([fetch_never_waits]). *)
Theorem fetch_visible payload m r rss :
  Forall is_byte payload → DecodePayload KFetchRequest payload = Some m →
  log_inv (pr_log r) rss → in_range r → freq_max_bytes m ≤ 2 ^ 31 →
  let res := ExecuteFetch payload (Ok r) in
  (∃ l', res.2 = Ok (with_log l' r) ∧ only_read (pr_log r) l' rss) ∧
  ((∃ resp n, DecodePayload KFetchResponse res.1 = Some resp ∧ fetched m r (concat rss) resp n) ∨
   (∃ e, res.1 = error_reply e ∧
      (e = kOutOfRange ∧ ¬ (log_start_offset (pr_log r) ≤ fetch_start m r ≤ log_end_offset (pr_log r)) ∨ ¬ log_quiet (pr_log r)))).
Proof.
  intros Hb Hd Hi (H0 & He & Hh) Hm. pose proof (decoded_wf KFetchRequest payload m Hb Hd) as Hwf. change (FetchRequest_wf m) in Hwf.
  unfold ExecuteFetch. rewrite Hd. cbv zeta.
  destruct (fetch_from_spec m r rss Hi Hwf ltac:(lia)) as [(l' & Hl & Ho) Hres].
  destruct (fetch_from m r) as [[resp|e] r']; cbn [fst snd] in *; (split; [exists l'; by rewrite Hl|]); [left|right; by exists e].
  destruct Hres as [n Hf]. exists resp, n. split; [|done]. apply encode_reply_decodes. change (FetchResponse_wf resp).
  destruct Hf as [F1 [F2 F2'] [F3 F3'] F4 F5 F6 _ _ Fs _]. destruct (chain_run _ _ _ _ (li_chain _ _ Hi)) as [Hok _].
  set (k := Z.to_nat (fetch_start m r - log_start_offset (pr_log r))) in *.
  assert (Hrs : run_ok true (take n (drop k (concat rss)))) by (apply run_ok_take; by apply Forall_drop).
  pose proof (run_length_bytes _ _ Hrs) as HL. unfold zlen in HL at 1. rewrite length_take, length_drop in HL.
  assert (HS : zlen (fresp_records resp) < 2 ^ 32).
  { unfold kMaxRecordBytes in Fs. lia. }
  destruct resp as [h hw ls bo rc rec]. cbn in *. subst. unfold signed, unsigned. pose proof (zlen_nonneg (run_bytes (take n (drop k (concat rss))))).
  split_and!; try lia. by unfold string_fits.
Qed.

(** ** Produce *)

Section Waiting.
Context (nanos : DurabilityWaiter → Z).
Implicit Types r : Node.

Lemma extract_log r : pr_log (ExtractSatisfiedLocked nanos r).1 = pr_log r.
Proof. unfold ExtractSatisfiedLocked. destruct (pr_waiters r) as [|w ws]; [done|]. by destruct (partition_waiters nanos r (w :: ws)). Qed.
Lemma recompute_log r : pr_log (RecomputeHighWaterMarkLocked r).1 = pr_log r.
Proof. unfold RecomputeHighWaterMarkLocked. destruct (negb _); [done|]. cbv zeta. by destruct (pr_hwm r <? _). Qed.
Lemma settle_log r : pr_log (settle nanos r).1 = pr_log r.
Proof.
  unfold settle. pose proof (recompute_log r) as H1. destruct (RecomputeHighWaterMarkLocked r) as [r1 h]. cbn [fst] in H1.
  pose proof (extract_log r1) as H2. destruct (ExtractSatisfiedLocked nanos r1) as [r2 ws]. cbn in *. congruence.
Qed.
Lemma partition_published r ws ws' : partition_waiters nanos (publish_waiters ws' r) ws = partition_waiters nanos r ws.
Proof. induction ws as [|w ws IH]; [done|]. cbn [partition_waiters]. by rewrite IH. Qed.
Lemma partition_waiters_snoc r ws w :
  partition_waiters nanos r (ws ++ [w]) =
  (let '(stay, out) := partition_waiters nanos r ws in
   let '(w', done) := examine nanos r w in if done then (stay, out ++ [w']) else (stay ++ [w'], out)).
Proof.
  induction ws as [|w0 ws IH]; cbn [app partition_waiters].
  - by destruct (examine nanos r w) as [w' [|]].
  - rewrite IH. destruct (examine nanos r w0) as [w0' d0], (partition_waiters nanos r ws) as [stay out], (examine nanos r w) as [w' [|]], d0; done.
Qed.
Lemma examine_same r w : dw_callback (examine nanos r w).1 = dw_callback w ∧ dw_required (examine nanos r w).1 = dw_required w.
Proof. unfold examine. destruct (dw_mode w); [done|done|]. by destruct (_ && _). Qed.

(** A registered waiter is completed on the spot or waits. *)
Lemma AddWaiter_outcome r w now :
  let res := AddWaiter nanos w now r in
  pr_log res.1 = pr_log r ∧
  if (examine nanos r w).2 then ∃ c, c ∈ res.2 ∧ co_callback c = dw_callback w ∧ co_status c = kOk
  else ∃ w', w' ∈ pr_waiters res.1 ∧ dw_callback w' = dw_callback w ∧ dw_required w' = dw_required w.
Proof.
  unfold AddWaiter, ExtractSatisfiedLocked. cbn [pr_waiters publish_waiters].
  destruct (pr_waiters r ++ [w]) as [|w0 ws0] eqn:E; [by destruct (pr_waiters r)|]. rewrite <- E. rewrite partition_published, partition_waiters_snoc.
  destruct (examine_same r w) as [HC HQ]. destruct (partition_waiters nanos r (pr_waiters r)) as [stay out], (examine nanos r w) as [w' [|]]; cbn [fst snd] in *.
  - split; [done|]. exists (mkCompletion (dw_callback w') kOk (pr_hwm r) (dw_local_flush_nanos w')). split; [|by split]. apply list_elem_of_fmap. exists w'. split; [done|]. apply elem_of_app. right. left.
  - split; [done|]. exists w'. split; [|done]. cbn. apply elem_of_app. right. left.
Qed.
End Waiting.

(** The two refusals before the log is touched. *)
Definition refused_early (m : ProduceRequest) (r : Node) (err : ErrorCode) : Prop :=
  err = kNotLeader ∧ is_leader r = false ∨
  err = kNotEnoughReplicas ∧ is_leader r = true ∧ preq_acks m = kQuorum ∧ count_in_sync 1 (pr_followers r) < QuorumSize (pr_assignment r).


(** ** Examples *)

Definition example_node (l : PartitionLog) : Node := new_replica (mkTP (str "t") 0) (mkAssignment 0 0 0 [0] [0]) 0 l.
Lemma example_node_inv l rss : log_inv l rss → log_inv (pr_log (example_node l)) rss.
Proof. done. Qed.
Lemma example_node_range l : log_start_offset l = 0 → 0 ≤ log_end_offset l < 100 → in_range (example_node l).
Proof. intros H0 He. unfold in_range. change (pr_hwm (example_node l)) with (log_end_offset l). change (pr_log (example_node l)) with l. lia. Qed.
Lemma one_record_log_range : log_start_offset one_record_log = 0 ∧ 0 ≤ log_end_offset one_record_log < 100.
Proof. by vm_compute. Qed.
Definition fetch_payload : bytes := Eval vm_compute in encode_reply (k := KFetchRequest) (mkFetchRequest (str "t") 0 0 100 0 0 kReadReplicated).
Lemma fetch_payload_decodes : DecodePayload KFetchRequest fetch_payload = Some (mkFetchRequest (str "t") 0 0 100 0 0 kReadReplicated).
Proof. vm_compute. reflexivity. Qed.
Lemma fetch_visible_witness :
  (∃ l', (ExecuteFetch fetch_payload (Ok (example_node one_record_log))).2 = Ok (with_log l' (example_node one_record_log))) ∧
  option_map fresp_record_count (DecodePayload KFetchResponse (ExecuteFetch fetch_payload (Ok (example_node one_record_log))).1) = Some 1.
Proof.
  split; [|vm_compute; reflexivity]. destruct one_record_log_inv as (rss & Hi).
  pose proof (fetch_visible fetch_payload (mkFetchRequest (str "t") 0 0 100 0 0 kReadReplicated) (example_node one_record_log) rss
    ltac:(by repeat constructor) fetch_payload_decodes (example_node_inv _ _ Hi)
    (example_node_range _ (proj1 one_record_log_range) (proj2 one_record_log_range)) ltac:(by vm_compute)) as H.
  revert H. generalize (example_node one_record_log). intros r [(l' & Hl & _) _].
  exists l'. exact Hl.
Defined.

Definition produce_payload : bytes := Eval vm_compute in encode_reply (k := KProduceRequest) (mkProduceRequest (str "t") 0 kLeader 1000 1 (run_bytes (run_at 0))).
Lemma produce_payload_decodes :
  (ProduceRequest_Decode (newReader produce_payload)).1 = Some (mkProduceRequest (str "t") 0 kLeader 1000 1 (run_bytes (run_at 0))).
Proof. vm_compute. reflexivity. Qed.
Definition produce_example : ProduceRequest := mkProduceRequest (str "t") 0 kLeader 1000 1 (run_bytes (run_at 0)).
Definition produce_node : Node := example_node (example_log example_options).
Local Notation produced := (ExecuteProduce example_env (λ _, 1) 5000 7 8 42 produce_payload (Ok produce_node)).
Lemma produced_pending : match produced.1.1 with inl _ => false | inr _ => true end = true.
Proof. vm_compute. reflexivity. Qed.
Lemma produce_example_files : fresh_files (env_files example_env).
Proof. by vm_compute. Qed.
Lemma produce_example_len : zlen (preq_records produce_example) ≤ kMaxRecordBytes.
Proof. by vm_compute. Qed.
Lemma produce_example_now : signed 64 (env_append_now example_env).
Proof. by vm_compute. Qed.
Lemma produce_node_range : in_range produce_node.
Proof. by vm_compute. Qed.
Lemma produce_example_pending :
  mkPendingProduce 42 (log_end_offset (pr_log produce_node)) (log_end_offset (pr_log produce_node) + preq_record_count produce_example - 1)
    (env_append_now example_env) = mkPendingProduce 42 0 0 1700000000000.
Proof. vm_compute. reflexivity. Qed.
