(* ===== verification/MpmcQueue.v ===== *)
(** * MpmcQueue: the bounded multi-producer / multi-consumer queue

    Models include/pulselog/concurrency/mpmc_queue.h.  Every shared access of [TryPush]
    and [TryPop] is one step of a thread: the loads of the positions and of a cell's
    sequence, the compare-exchange (which may fail spuriously, as the weak one may), the
    construction, move and destruction of the payload, and the store of the sequence.
    Threads interleave at these steps; the acquire/release pairing of the sequence makes
    the payload accesses of a cell ordered, which is what the exclusion theorem needs
    and shows to be enough.  Positions and sequences are 64-bit. *)
From S2P Require Import Prelude.

(** [RoundUpPow2]: the doubling loop; none when it has not ended after 64 rounds, by
    which time the result has been shifted out to 0 for good. *)
Fixpoint round_up_loop (fuel : nat) (result v : Z) : option Z :=
  match fuel with
  | O => None
  | S fuel => if result <? v then round_up_loop fuel (u64 (Z.shiftl result 1)) v else Some result
  end.
Definition RoundUpPow2 (v : Z) : option Z := round_up_loop 65 1 v.

Section Queue.
Context {T : Type}.

Record Cell := mkCell { sequence : Z; storage : option T }.
Record MpmcQueue := mkMpmc { mq_mask : Z; mq_cells : list Cell; enqueue_pos : Z; dequeue_pos : Z }.
Implicit Types (q : MpmcQueue) (v : T) (pos : Z).

(** The constructor on a rounded capacity. *)
Definition new_queue (capacity : Z) : MpmcQueue :=
  mkMpmc (u64 (capacity - 1)) ((λ i, mkCell i None) <$> seqZ 0 capacity) 0 0.
Definition newMpmc (capacity : Z) : option MpmcQueue := new_queue <$> RoundUpPow2 capacity.
Definition Mpmc_Capacity q : Z := u64 (mq_mask q + 1).
(** [SizeApprox] on the two positions it loaded, possibly at different times. *)
Definition SizeApprox (enqueue dequeue : Z) : Z := if dequeue <? enqueue then enqueue - dequeue else 0.

(** [cells_[pos & mask_]]; the mask keeps the index inside the array. *)
Definition slot q pos : nat := Z.to_nat (Z.land pos (mq_mask q)).
Definition cell_at q pos : Cell := default (mkCell 0 None) (mq_cells q !! slot q pos).
Definition set_cell pos (c : Cell) q : MpmcQueue :=
  mkMpmc (mq_mask q) (<[slot q pos := c]> (mq_cells q)) (enqueue_pos q) (dequeue_pos q).
Definition set_storage pos (x : option T) q : MpmcQueue := set_cell pos (mkCell (sequence (cell_at q pos)) x) q.
Definition set_sequence pos (seq : Z) q : MpmcQueue := set_cell pos (mkCell seq (storage (cell_at q pos))) q.
Definition set_enqueue (e : Z) q : MpmcQueue := mkMpmc (mq_mask q) (mq_cells q) e (dequeue_pos q).
Definition set_dequeue (d : Z) q : MpmcQueue := mkMpmc (mq_mask q) (mq_cells q) (enqueue_pos q) d.

(** Where a thread stands: at the next shared access it will make. *)
Inductive Op :=
  | Idle
  | PushStart (v : T)              (* load enqueue_pos_ *)
  | PushLoop (v : T) (pos : Z)     (* load the cell's sequence and branch *)
  | PushClaim (v : T) (pos : Z)    (* compare_exchange_weak on enqueue_pos_ *)
  | PushWrite (v : T) (pos : Z)    (* Construct *)
  | PushPublish (pos : Z)          (* store sequence = pos + 1 *)
  | PopStart
  | PopLoop (pos : Z)
  | PopClaim (pos : Z)
  | PopTake (pos : Z)              (* move the payload out *)
  | PopDestroy (pos : Z) (v : T)
  | PopRelease (pos : Z) (v : T).  (* store sequence = pos + capacity *)

(** What a step lets the rest of the program see: a ticket taken by a push with its
    value, a pop that returned its value, and the two refusals. *)
Inductive Event := Claimed (v : T) | Popped (pos : Z) (v : T) | PushedOk | RefusedFull (v : T) | RefusedEmpty.

Definition TryPush_step (spurious : bool) q (op : Op) : MpmcQueue * Op * option Event :=
  match op with
  | PushStart v => (q, PushLoop v (enqueue_pos q), None)
  | PushLoop v pos =>
      let diff := i64 (sequence (cell_at q pos)) - i64 pos in
      if diff =? 0 then (q, PushClaim v pos, None)
      else if diff <? 0 then (q, Idle, Some (RefusedFull v))
      else (q, PushStart v, None)
  | PushClaim v pos =>
      if negb spurious && (enqueue_pos q =? pos) then (set_enqueue (u64 (pos + 1)) q, PushWrite v pos, Some (Claimed v))
      else (q, PushLoop v (enqueue_pos q), None)
  | PushWrite v pos => (set_storage pos (Some v) q, PushPublish pos, None)
  | PushPublish pos => (set_sequence pos (u64 (pos + 1)) q, Idle, Some PushedOk)
  | _ => (q, op, None)
  end.

(** Reading a slot with no object in it is undefined in C++; the model stops there. *)
Definition TryPop_step (spurious : bool) q (op : Op) : MpmcQueue * Op * option Event :=
  match op with
  | PopStart => (q, PopLoop (dequeue_pos q), None)
  | PopLoop pos =>
      let diff := i64 (sequence (cell_at q pos)) - i64 (u64 (pos + 1)) in
      if diff =? 0 then (q, PopClaim pos, None)
      else if diff <? 0 then (q, Idle, Some RefusedEmpty)
      else (q, PopStart, None)
  | PopClaim pos =>
      if negb spurious && (dequeue_pos q =? pos) then (set_dequeue (u64 (pos + 1)) q, PopTake pos, None)
      else (q, PopLoop (dequeue_pos q), None)
  | PopTake pos => match storage (cell_at q pos) with Some v => (q, PopDestroy pos v, None) | None => (q, op, None) end
  | PopDestroy pos v => (set_storage pos None q, PopRelease pos v, None)
  | PopRelease pos v => (set_sequence pos (u64 (pos + mq_mask q + 1)) q, Idle, Some (Popped pos v))
  | _ => (q, op, None)
  end.

Definition is_push (op : Op) : bool :=
  match op with PushStart _ | PushLoop _ _ | PushClaim _ _ | PushWrite _ _ | PushPublish _ => true | _ => false end.
Definition op_step (spurious : bool) q (op : Op) : MpmcQueue * Op * option Event :=
  if is_push op then TryPush_step spurious q op else TryPop_step spurious q op.

(** ** The queue with the threads that use it

    [sys_pushed] lists the values in the order of their tickets, [sys_popped] the tickets
    and values of the pops that returned: the history, which no step reads. *)
Record System := mkSystem { sys_queue : MpmcQueue; sys_ops : list Op; sys_pushed : list T; sys_popped : list (Z * T) }.
Inductive Action := BeginPush (v : T) | BeginPop | Run (spurious : bool).

Definition record_event (ev : option Event) (s : System) : System :=
  match ev with
  | Some (Claimed v) => mkSystem (sys_queue s) (sys_ops s) (sys_pushed s ++ [v]) (sys_popped s)
  | Some (Popped pos v) => mkSystem (sys_queue s) (sys_ops s) (sys_pushed s) (sys_popped s ++ [(pos, v)])
  | _ => s
  end.
Definition sys_step (i : nat) (a : Action) (s : System) : System :=
  match sys_ops s !! i, a with
  | Some Idle, BeginPush v => mkSystem (sys_queue s) (<[i := PushStart v]> (sys_ops s)) (sys_pushed s) (sys_popped s)
  | Some Idle, BeginPop => mkSystem (sys_queue s) (<[i := PopStart]> (sys_ops s)) (sys_pushed s) (sys_popped s)
  | Some op, Run spurious =>
      let '(q, op', ev) := op_step spurious (sys_queue s) op in
      record_event ev (mkSystem q (<[i := op']> (sys_ops s)) (sys_pushed s) (sys_popped s))
  | _, _ => s
  end.
Definition sys_run (schedule : list (nat * Action)) (s : System) : System :=
  fold_left (λ s a, sys_step a.1 a.2 s) schedule s.
Definition sys_init (capacity : Z) (threads : nat) : System := mkSystem (new_queue capacity) (replicate threads Idle) [] [].
End Queue.
Arguments Cell : clear implicits.
Arguments MpmcQueue : clear implicits.
Arguments Op : clear implicits.
Arguments Event : clear implicits.
Arguments System : clear implicits.
Arguments Action : clear implicits.

Lemma round_up_spec v : 2 ≤ v ≤ 2 ^ 60 → ∃ k, 1 ≤ k ≤ 60 ∧ RoundUpPow2 v = Some (2 ^ k) ∧ v ≤ 2 ^ k < 2 * v.
Proof.
  intros Hv. unfold RoundUpPow2. enough (H : ∀ fuel j, 0 ≤ j ≤ 60 → 2 ^ j < 2 * v → (61 - j < Z.of_nat fuel) →
    ∃ k, 0 ≤ k ≤ 60 ∧ round_up_loop fuel (2 ^ j) v = Some (2 ^ k) ∧ v ≤ 2 ^ k < 2 * v).
  { destruct (H 65%nat 0 ltac:(lia) ltac:(lia) ltac:(lia)) as (k & H1 & H2 & H3). exists k. split; [|done].
    destruct (decide (k = 0)) as [->|]; lia. }
  induction fuel as [|fuel IH]; intros j Hj Hlt Hf; [lia|]. cbn [round_up_loop].
  destruct (Z.ltb_spec (2 ^ j) v) as [Hl|Hl]; [|by exists j].
  assert (j ≠ 60) by (intros ->; lia). assert (E : 2 ^ (j + 1) = 2 * 2 ^ j) by (rewrite Z.pow_add_r by lia; lia).
  rewrite Z.shiftl_mul_pow2, uwrap_small; [|unfold unsigned|lia].
  - replace (2 ^ j * 2 ^ 1) with (2 ^ (j + 1)) by lia. apply IH; lia.
  - pose proof (Z.pow_lt_mono_r 2 j 60 ltac:(lia) ltac:(lia) ltac:(lia)). lia.
Qed.
