(* ===== verification/MpmcTheorems.v ===== *)
(** * MpmcTheorems: the queue hands every item over once, in order

    The invariant describes the window of the last [capacity] tickets: a ticket owned by
    a thread is in the state that thread expects, any other one is free, or holds its
    value.  First in, first out; exclusive access to the payload; and that a thread
    running on its own finishes, whatever the others were stopped in the middle of. *)
From S2P Require Import Prelude MpmcQueue.

Section Invariant.
Context {T : Type} (k : Z) (Hk : 1 ≤ k ≤ 60).
Implicit Types (s : System T) (q : MpmcQueue T) (op : Op T) (v : T) (t pos : Z).

Notation cap := (2 ^ k).
Notation enq s := (enqueue_pos (sys_queue s)).
Notation deq s := (dequeue_pos (sys_queue s)).
Notation cell s t := (cell_at (sys_queue s) t).

Lemma cap_bounds : 2 ≤ cap ≤ 2 ^ 60.
Proof. split; [apply (Z.pow_le_mono_r 2 1 k)|apply Z.pow_le_mono_r]; lia. Qed.

(** The ticket a thread holds, once its compare-exchange has succeeded. *)
Definition ticket op : option Z :=
  match op with
  | PushWrite _ t | PushPublish t | PopTake t | PopDestroy t _ | PopRelease t _ => Some t
  | _ => None
  end.
Definition tickets s : list (option Z) := ticket <$> sys_ops s.
Definition owned s t : Prop := Some t ∈ tickets s.
#[global] Instance owned_dec s t : Decision (owned s t).
Proof. unfold owned. apply _. Defined.
Definition pushed_as s t v : Prop := 0 ≤ t ∧ sys_pushed s !! Z.to_nat t = Some v.
Definition window s t : Prop := enq s - cap ≤ t < enq s.

(** What a thread may rely on. *)
Definition op_ok s op : Prop :=
  match op with
  | PushLoop _ pos => 0 ≤ pos ≤ enq s
  | PushClaim _ pos => 0 ≤ pos ≤ enq s ∧ (pos = enq s → sequence (cell s pos) = pos)
  | PushWrite v t => window s t ∧ deq s ≤ t ∧ cell s t = mkCell t None ∧ pushed_as s t v
  | PushPublish t => window s t ∧ deq s ≤ t ∧ ∃ v, cell s t = mkCell t (Some v) ∧ pushed_as s t v
  | PopLoop pos => 0 ≤ pos ≤ deq s
  | PopClaim pos => 0 ≤ pos ≤ deq s ∧ (pos = deq s → sequence (cell s pos) = pos + 1)
  | PopTake t => window s t ∧ t < deq s ∧ t ∉ (sys_popped s).*1 ∧ ∃ v, cell s t = mkCell (t + 1) (Some v) ∧ pushed_as s t v
  | PopDestroy t v => window s t ∧ t < deq s ∧ t ∉ (sys_popped s).*1 ∧ cell s t = mkCell (t + 1) (Some v) ∧ pushed_as s t v
  | PopRelease t v => window s t ∧ t < deq s ∧ t ∉ (sys_popped s).*1 ∧ cell s t = mkCell (t + 1) None ∧ pushed_as s t v
  | Idle | PushStart _ | PopStart => True
  end.
(** The state of a ticket no thread holds. *)
Definition settled s t : Prop :=
  (t < deq s ∧ cell s t = mkCell (t + cap) None ∧ (0 ≤ t → t ∈ (sys_popped s).*1)) ∨
  (deq s ≤ t ∧ ∃ v, cell s t = mkCell (t + 1) (Some v) ∧ pushed_as s t v).

Record mq_inv s : Prop := {
  mi_mask : mq_mask (sys_queue s) = cap - 1;
  mi_cells : zlen (mq_cells (sys_queue s)) = cap;
  mi_pos : 0 ≤ deq s ≤ enq s;
  mi_room : enq s ≤ deq s + cap;
  mi_pushed : zlen (sys_pushed s) = enq s;
  mi_ops i op : sys_ops s !! i = Some op → op_ok s op;
  mi_settled t : window s t → ¬ owned s t → settled s t;
  mi_unique i j t : tickets s !! i = Some (Some t) → tickets s !! j = Some (Some t) → i = j;
  mi_popped t v : (t, v) ∈ sys_popped s → t < deq s ∧ pushed_as s t v;
  mi_once : NoDup (sys_popped s).*1;
  mi_before t : 0 ≤ t < enq s - cap → t ∈ (sys_popped s).*1 }.

Lemma slot_mod q pos : mq_mask q = cap - 1 → slot q pos = Z.to_nat (pos mod cap).
Proof. intros H. unfold slot. rewrite H. replace (cap - 1) with (Z.ones k) by (rewrite Z.ones_equiv; lia). by rewrite Z.land_ones by lia. Qed.

Lemma window_slots e t u : e - cap ≤ t < e → e - cap ≤ u < e → t mod cap = u mod cap → t = u.
Proof.
  pose proof cap_bounds. intros Ht Hu Hm. pose proof (Z.div_mod t cap ltac:(lia)). pose proof (Z.div_mod u cap ltac:(lia)).
  assert (t / cap = u / cap) by nia. nia.
Qed.
Lemma slot_shift t : (t - cap) mod cap = t mod cap.
Proof. pose proof cap_bounds. replace (t - cap) with (t + (-1) * cap) by lia. by rewrite Z.mod_add by lia. Qed.

Lemma cell_set_same q pos c : mq_mask q = cap - 1 → zlen (mq_cells q) = cap → cell_at (set_cell pos c q) pos = c.
Proof.
  intros Hm Hl. pose proof cap_bounds. unfold cell_at. change (slot (set_cell pos c q) pos) with (slot q pos). cbn [set_cell mq_cells].
  rewrite list_lookup_insert_eq; [done|]. rewrite (slot_mod _ _ Hm). pose proof (Z.mod_pos_bound pos cap ltac:(lia)). unfold zlen in Hl. lia.
Qed.
Lemma cell_set_other q pos t c : mq_mask q = cap - 1 → t mod cap ≠ pos mod cap → cell_at (set_cell pos c q) t = cell_at q t.
Proof.
  intros Hm Hne. pose proof cap_bounds. unfold cell_at. change (slot (set_cell pos c q) t) with (slot q t). cbn [set_cell mq_cells].
  rewrite list_lookup_insert_ne; [done|]. rewrite !(slot_mod _ _ Hm).
  pose proof (Z.mod_pos_bound pos cap ltac:(lia)). pose proof (Z.mod_pos_bound t cap ltac:(lia)). lia.
Qed.
(** The cell is determined by the ticket up to laps. *)
Lemma cell_lap q t : mq_mask q = cap - 1 → cell_at q (t - cap) = cell_at q t.
Proof. intros Hm. unfold cell_at. by rewrite !(slot_mod _ _ Hm), slot_shift. Qed.

Lemma owned_iff s t : owned s t ↔ ∃ i op, sys_ops s !! i = Some op ∧ ticket op = Some t.
Proof.
  unfold owned, tickets. rewrite list_elem_of_fmap. split.
  - intros (op & Ht & (i & Hi)%list_elem_of_lookup_1). by exists i, op.
  - intros (i & op & Hi & Ht). exists op. split; [done|by eapply list_elem_of_lookup_2].
Qed.

(** The holder of a ticket pins down the sequence of its cell. *)
Lemma owner_seq s op t : op_ok s op → ticket op = Some t →
  window s t ∧ (deq s ≤ t ∧ sequence (cell s t) = t ∨ t < deq s ∧ sequence (cell s t) = t + 1).
Proof.
  destruct op; cbn; intros H Ht; try discriminate Ht; injection Ht as ->.
  - destruct H as (H1 & H2 & -> & _). auto.
  - destruct H as (H1 & H2 & v & -> & _). auto.
  - destruct H as (H1 & H2 & _ & v & -> & _). auto.
  - destruct H as (H1 & H2 & _ & -> & _). auto.
  - destruct H as (H1 & H2 & _ & -> & _). auto.
Qed.

Lemma owner_pushed s op t : op_ok s op → ticket op = Some t → ∃ v, pushed_as s t v.
Proof.
  destruct op; cbn; intros H Ht; try discriminate Ht; injection Ht as ->.
  - destruct H as (_ & _ & _ & H). eauto.
  - destruct H as (_ & _ & v & _ & H). eauto.
  - destruct H as (_ & _ & _ & v & _ & H). eauto.
  - destruct H as (_ & _ & _ & _ & H). eauto.
  - destruct H as (_ & _ & _ & _ & H). eauto.
Qed.

Section Step.
Context s (Hi : mq_inv s).

Lemma claimable_push : sequence (cell s (enq s)) = enq s →
  ¬ owned s (enq s - cap) ∧ cell s (enq s) = mkCell (enq s) None ∧ enq s - cap < deq s ∧ (0 ≤ enq s - cap → enq s - cap ∈ (sys_popped s).*1).
Proof.
  intros Hs. pose proof cap_bounds as Hc. rewrite <- (cell_lap _ _ (mi_mask _ Hi)) in Hs.
  assert (Hno : ¬ owned s (enq s - cap)).
  { intros (i & op & Ho & Ht)%owned_iff. destruct (owner_seq _ _ _ (mi_ops _ Hi _ _ Ho) Ht) as [_ H]. lia. }
  split; [done|]. rewrite <- (cell_lap _ _ (mi_mask _ Hi)). pose proof (mi_pos _ Hi).
  destruct (mi_settled _ Hi (enq s - cap)) as [(H1 & H2 & H3)|(H1 & v & H2 & _)]; [unfold window; lia|done| |].
  - split; [rewrite H2; f_equal; lia|]. by split.
  - rewrite H2 in Hs. cbn in Hs. lia.
Qed.
Lemma claimable_pop : sequence (cell s (deq s)) = deq s + 1 →
  ¬ owned s (deq s) ∧ deq s < enq s ∧ ∃ v, cell s (deq s) = mkCell (deq s + 1) (Some v) ∧ pushed_as s (deq s) v.
Proof.
  intros Hs. pose proof cap_bounds as Hc. pose proof (mi_pos _ Hi) as Hp. pose proof (mi_room _ Hi) as Hr.
  assert (Hlt : deq s < enq s).
  { destruct (decide (deq s = enq s)) as [E|]; [|lia]. rewrite E in Hs. rewrite <- (cell_lap _ _ (mi_mask _ Hi)) in Hs.
    destruct (decide (owned s (enq s - cap))) as [(i & op & Ho & Ht)%owned_iff|Hno].
    - destruct (owner_seq _ _ _ (mi_ops _ Hi _ _ Ho) Ht) as [_ H]. lia.
    - destruct (mi_settled _ Hi (enq s - cap)) as [(H1 & H2 & H3)|(H1 & v & H2 & _)]; [unfold window; lia|done| |]; rewrite H2 in Hs; cbn in Hs; lia. }
  assert (Hno : ¬ owned s (deq s)).
  { intros (i & op & Ho & Ht)%owned_iff. destruct (owner_seq _ _ _ (mi_ops _ Hi _ _ Ho) Ht) as [_ H]. lia. }
  split; [done|]. split; [done|].
  destruct (mi_settled _ Hi (deq s)) as [(H1 & H2 & H3)|(H1 & v & H2 & H3)]; [unfold window; lia|done|lia|by exists v].
Qed.

(** A thread moves on without touching anything shared. *)
Lemma move_inv i op op' : sys_ops s !! i = Some op → ticket op' = ticket op → op_ok s op' →
  mq_inv (mkSystem (sys_queue s) (<[i := op']> (sys_ops s)) (sys_pushed s) (sys_popped s)).
Proof.
  intros Ho Ht Hok. set (s' := mkSystem _ _ _ _). assert (HT : tickets s' = tickets s).
  { unfold tickets, s'. cbn. rewrite list_fmap_insert, Ht. apply list_insert_id. by rewrite list_lookup_fmap, Ho. }
  destruct Hi as [H1 H2 H3 H4 H5 H6 H7 H8 H9 H10 H11]. split; try done.
  - intros j op2. cbn. intros [(-> & <- & _)|[_ Hj]]%list_lookup_insert_Some; [exact Hok|exact (H6 j op2 Hj)].
  - intros t Hw. unfold owned. rewrite HT. exact (H7 t Hw).
  - intros i1 i2 t. rewrite HT. apply H8.
Qed.

Lemma ticket_other i j op op2 t u : sys_ops s !! i = Some op → ticket op = Some t → sys_ops s !! j = Some op2 → ticket op2 = Some u → i ≠ j → u ≠ t.
Proof. intros H1 H2 H3 H4 Hne ->. apply Hne. apply (mi_unique _ Hi i j t); unfold tickets; rewrite list_lookup_fmap, ?H1, ?H3; cbn; congruence. Qed.

(** The holder of a ticket changes the cell of that ticket; the others do not notice. *)
Section Cell.
Context (i : nat) op t (c : Cell T) (ps : list (Z * T)) (Ho : sys_ops s !! i = Some op) (Ht : ticket op = Some t) (Hps : ∀ u, u ∈ ps.*1 → u = t).
Let s' op' := mkSystem (set_cell t c (sys_queue s)) (<[i := op']> (sys_ops s)) (sys_pushed s) (sys_popped s ++ ps).

Lemma cell_kept op' u : window s u → u ≠ t → cell (s' op') u = cell s u.
Proof.
  intros Hu Hne. unfold s'. cbn. apply cell_set_other; [apply Hi|]. intros Hm. apply Hne.
  destruct (owner_seq _ _ _ (mi_ops _ Hi _ _ Ho) Ht) as [Hw _]. by apply (window_slots (enq s)).
Qed.
Lemma popped_kept op' u : u ≠ t → u ∉ (sys_popped s).*1 → u ∉ (sys_popped (s' op')).*1.
Proof. intros Hne Hu. unfold s'. cbn. rewrite fmap_app, elem_of_app. intros [H|H]; [done|by apply Hne, Hps]. Qed.
Lemma push_claim_kept op' : sequence (cell s (enq s)) = enq s → sequence (cell (s' op') (enq s)) = enq s.
Proof.
  intros Hs. pose proof cap_bounds. destruct (owner_seq _ _ _ (mi_ops _ Hi _ _ Ho) Ht) as [Hw Hq].
  destruct (claimable_push Hs) as [Hno _]. rewrite <- (cell_lap (sys_queue s)) in Hs by apply Hi.
  rewrite <- (cell_lap (sys_queue (s' op'))) by apply Hi. rewrite cell_kept; [done|unfold window; lia|].
  intros <-. apply Hno, owned_iff. eauto.
Qed.
Lemma pop_claim_kept op' : sequence (cell s (deq s)) = deq s + 1 → sequence (cell (s' op') (deq s)) = deq s + 1.
Proof.
  intros Hs. destruct (claimable_pop Hs) as (Hno & Hlt & _). pose proof (mi_room _ Hi). pose proof (mi_pos _ Hi).
  rewrite cell_kept; [done|unfold window; lia|]. intros <-. apply Hno, owned_iff. eauto.
Qed.
Lemma op_ok_kept op' j op2 : i ≠ j → sys_ops s !! j = Some op2 → op_ok (s' op') op2.
Proof.
  intros Hne Hj. pose proof (mi_ops _ Hi j op2 Hj) as Hok. pose proof (λ u H, ticket_other i j op op2 t u Ho Ht Hj H Hne) as Hu.
  destruct op2 as [|v|v pos|v pos|v pos|pos| |pos|pos|pos|pos v|pos v]; try exact Hok.
  - destruct Hok as [Hp Hs]. split; [exact Hp|]. intros ->. apply push_claim_kept. by apply Hs.
  - destruct Hok as (Hw & Hd & Hc & Hv). split; [done|]. split; [done|]. rewrite cell_kept; [done|done|by apply Hu].
  - destruct Hok as (Hw & Hd & v & Hc & Hv). split; [done|]. split; [done|]. exists v. rewrite cell_kept; [done|done|by apply Hu].
  - destruct Hok as [Hp Hs]. split; [exact Hp|]. intros ->. apply pop_claim_kept. by apply Hs.
  - destruct Hok as (Hw & Hd & Hn & v & Hc & Hv). split; [done|]. split; [done|]. split; [apply popped_kept; auto|]. exists v. rewrite cell_kept; [done|done|by apply Hu].
  - destruct Hok as (Hw & Hd & Hn & Hc & Hv). split; [done|]. split; [done|]. split; [apply popped_kept; auto|]. rewrite cell_kept; [done|done|by apply Hu].
  - destruct Hok as (Hw & Hd & Hn & Hc & Hv). split; [done|]. split; [done|]. split; [apply popped_kept; auto|]. rewrite cell_kept; [done|done|by apply Hu].
Qed.
Lemma settled_kept op' u : window s u → u ≠ t → settled s u → settled (s' op') u.
Proof.
  intros Hw Hne [(H1 & H2 & H3)|(H1 & v & H2 & H3)]; [left|right].
  - split; [done|]. rewrite cell_kept by done. split; [done|]. intros H0. unfold s'. cbn. rewrite fmap_app. apply elem_of_app. left. auto.
  - split; [done|]. exists v. by rewrite cell_kept.
Qed.

(** ... and keeps the ticket, or hands it back in a settled state. *)
Lemma cell_inv op' : op_ok (s' op') op' →
  ticket op' = Some t ∨ ticket op' = None ∧ settled (s' op') t →
  ps = [] ∨ (∃ v, ps = [(t, v)] ∧ t < deq s ∧ pushed_as s t v ∧ t ∉ (sys_popped s).*1) → mq_inv (s' op').
Proof.
  intros Hok Htk Hpp. pose proof Hi as [H1 H2 H3 H4 H5 H6 H7 H8 H9 H10 H11].
  assert (HT : tickets (s' op') = <[i := ticket op']> (tickets s)) by (unfold tickets, s'; cbn; by rewrite list_fmap_insert).
  assert (Hti : tickets s !! i = Some (Some t)) by (unfold tickets; rewrite list_lookup_fmap, Ho; cbn; congruence).
  split; try done.
  - unfold s', zlen. cbn. rewrite length_insert. exact H2.
  - intros j op2. cbn. intros [(-> & <- & _)|[Hne Hj]]%list_lookup_insert_Some; [exact Hok|by apply (op_ok_kept op' j)].
  - intros u Hw. destruct (decide (u = t)) as [->|Hne].
    + intros Hno. destruct Htk as [Htk|[_ Hs]]; [|done]. destruct Hno. unfold owned. rewrite HT, Htk.
      apply list_elem_of_lookup_2 with i. apply list_lookup_insert_eq. by eapply lookup_lt_Some.
    + intros Hno. apply settled_kept; [done|done|]. apply H7; [done|]. intros Hown. apply Hno. unfold owned in *. rewrite HT.
      apply list_elem_of_lookup_1 in Hown as (j & Hj). apply list_elem_of_lookup_2 with j. rewrite list_lookup_insert_ne; [done|]. congruence.
  - intros i1 i2 u. rewrite HT. intros [(-> & E1 & _)|[N1 G1]]%list_lookup_insert_Some [(<- & E2 & _)|[N2 G2]]%list_lookup_insert_Some; [done| | |].
    + destruct Htk as [Htk|[Htk _]]; rewrite Htk in E1; inversion E1; subst. by apply (H8 _ _ u).
    + destruct Htk as [Htk|[Htk _]]; rewrite Htk in E2; inversion E2; subst. by apply (H8 _ _ u).
    + by apply (H8 _ _ u).
  - intros u v. unfold s'. cbn. intros [Hin|Hin]%elem_of_app; [exact (H9 u v Hin)|]. destruct Hpp as [->|(w & -> & Hd & Hp & _)]; [by apply not_elem_of_nil in Hin|].
    apply list_elem_of_singleton in Hin as [= -> ->]. by split.
  - unfold s'. cbn. rewrite fmap_app. destruct Hpp as [->|(w & -> & Hd & Hp & Hn)]; cbn; [by rewrite app_nil_r|].
    apply NoDup_app. split; [done|]. split; [|apply NoDup_singleton]. intros x Hx ->%list_elem_of_singleton. done.
  - intros u Hu. unfold s'. cbn. rewrite fmap_app. apply elem_of_app. left. auto.
Qed.
End Cell.

(** The shared part of the two claims: thread [i], without a ticket so far, takes [t]. *)
Lemma claim_tickets i op op' t : sys_ops s !! i = Some op → ticket op = None → ticket op' = Some t →
  let ts := <[i := Some t]> (tickets s) in
  ¬ owned s t → (Some t ∈ ts) ∧ (∀ u, Some u ∈ tickets s → Some u ∈ ts) ∧
  (∀ i1 i2 u, ts !! i1 = Some (Some u) → ts !! i2 = Some (Some u) → i1 = i2).
Proof.
  intros Ho Hn Ht ts Hno. assert (Hti : tickets s !! i = Some None) by (unfold tickets; rewrite list_lookup_fmap, Ho; cbn; congruence).
  assert (Hnew : ts !! i = Some (Some t)) by (apply list_lookup_insert_eq; by eapply lookup_lt_Some).
  split; [by apply list_elem_of_lookup_2 with i|]. split.
  - intros u (j & Hj)%list_elem_of_lookup_1. apply list_elem_of_lookup_2 with j. unfold ts. rewrite list_lookup_insert_ne; [done|congruence].
  - intros i1 i2 u. unfold ts. intros [(-> & E1 & _)|[N1 G1]]%list_lookup_insert_Some [(<- & E2 & _)|[N2 G2]]%list_lookup_insert_Some; [done| | |].
    + injection E1 as ->. destruct Hno. by apply list_elem_of_lookup_2 with i2.
    + injection E2 as ->. destruct Hno. by apply list_elem_of_lookup_2 with i1.
    + by apply (mi_unique _ Hi _ _ u).
Qed.

Lemma claim_push_inv i v : sys_ops s !! i = Some (PushClaim v (enq s)) →
  mq_inv (mkSystem (set_enqueue (enq s + 1) (sys_queue s)) (<[i := PushWrite v (enq s)]> (sys_ops s)) (sys_pushed s ++ [v]) (sys_popped s)).
Proof.
  intros Ho. set (s' := mkSystem _ _ _ _). destruct (mi_ops _ Hi _ _ Ho) as [_ Hs]. specialize (Hs eq_refl).
  destruct (claimable_push Hs) as (Hno & Hcell & Hd & Hpop). pose proof cap_bounds as Hc.
  pose proof Hi as [H1 H2 H3 H4 H5 H6 H7 H8 H9 H10 H11].
  assert (Hnt : ¬ owned s (enq s)).
  { intros (j & op & Hj & Ht)%owned_iff. destruct (owner_seq _ _ _ (H6 _ _ Hj) Ht) as [[_ ?] _]. lia. }
  destruct (claim_tickets i _ (PushWrite v (enq s)) (enq s) Ho eq_refl eq_refl Hnt) as (T1 & T2 & T3).
  assert (HT : tickets s' = <[i := Some (enq s)]> (tickets s)) by (unfold tickets, s'; cbn; by rewrite list_fmap_insert).
  assert (Hpa : ∀ u w, pushed_as s u w → pushed_as s' u w).
  { intros u w [Hu Hl]. split; [done|]. cbn. apply lookup_app_Some. by left. }
  assert (Hwin : ∀ u, owned s u → window s u → window s' u).
  { intros u Hu [Hw1 Hw2]. unfold window, s'. cbn. assert (u ≠ enq s - cap) by (intros ->; done). lia. }
  assert (Hself : pushed_as s' (enq s) v).
  { split; [lia|]. cbn. unfold zlen in H5. replace (Z.to_nat (enq s)) with (length (sys_pushed s)) by lia.
    rewrite lookup_app_r, Nat.sub_diag by lia. done. }
  split; try done.
  - unfold s'. cbn. lia.
  - unfold s'. cbn. lia.
  - unfold s'. cbn. rewrite zlen_app. change (zlen [v]) with 1. lia.
  - intros j op2. cbn. intros [(-> & <- & _)|[Hne Hj]]%list_lookup_insert_Some.
    { split; [unfold window, s'; cbn; lia|]. split; [unfold s'; cbn; lia|]. by split. }
    pose proof (H6 j op2 Hj) as Hok. assert (Hown : ∀ u, ticket op2 = Some u → owned s u) by (intros u Hu; apply owned_iff; eauto).
    destruct op2 as [|w|w pos|w pos|w pos|pos| |pos|pos|pos|pos w|pos w]; cbn in Hok |- *; try exact Hok.
    + lia.
    + destruct Hok as [Hp Hs2]. split; lia.
    + destruct Hok as (Hw & Hd2 & Hc2 & Hv). auto 10.
    + destruct Hok as (Hw & Hd2 & x & Hc2 & Hv). split; [auto|]. split; [done|]. exists x. auto.
    + destruct Hok as (Hw & Hd2 & Hn & x & Hc2 & Hv). split; [auto|]. split; [done|]. split; [done|]. exists x. auto.
    + destruct Hok as (Hw & Hd2 & Hn & Hc2 & Hv). auto 10.
    + destruct Hok as (Hw & Hd2 & Hn & Hc2 & Hv). auto 10.
  - intros u [Hu1 Hu2] Hnu. unfold s' in Hu1, Hu2. cbn in Hu1, Hu2. unfold owned in Hnu. rewrite HT in Hnu.
    assert (u ≠ enq s) by (intros ->; done). destruct (H7 u) as [Hf|(Hf1 & w & Hf2 & Hf3)]; [unfold window; lia|auto|by left|right].
    split; [done|]. exists w. auto.
  - intros i1 i2 u. rewrite HT. apply T3.
  - intros u w Hin. destruct (H9 u w Hin) as [Hl Hp]. auto.
  - intros u Hu. unfold s' in Hu |- *. cbn in Hu |- *. destruct (decide (u = enq s - cap)) as [->|]; [apply Hpop; lia|apply H11; lia].
Qed.

Lemma claim_pop_inv i : sys_ops s !! i = Some (PopClaim (deq s)) →
  mq_inv (mkSystem (set_dequeue (deq s + 1) (sys_queue s)) (<[i := PopTake (deq s)]> (sys_ops s)) (sys_pushed s) (sys_popped s)).
Proof.
  intros Ho. set (s' := mkSystem _ _ _ _). destruct (mi_ops _ Hi _ _ Ho) as [_ Hs]. specialize (Hs eq_refl).
  destruct (claimable_pop Hs) as (Hno & Hlt & v & Hcell & Hv). pose proof cap_bounds as Hc.
  pose proof Hi as [H1 H2 H3 H4 H5 H6 H7 H8 H9 H10 H11].
  destruct (claim_tickets i _ (PopTake (deq s)) (deq s) Ho eq_refl eq_refl Hno) as (T1 & T2 & T3).
  assert (HT : tickets s' = <[i := Some (deq s)]> (tickets s)) by (unfold tickets, s'; cbn; by rewrite list_fmap_insert).
  assert (Hnp : deq s ∉ (sys_popped s).*1).
  { intros ([u w] & Hu & Hin)%list_elem_of_fmap. destruct (H9 u w Hin). cbn in *. lia. }
  split; try done.
  - unfold s'. cbn. lia.
  - unfold s'. cbn. lia.
  - intros j op2. cbn. intros [(-> & <- & _)|[Hne Hj]]%list_lookup_insert_Some.
    { split; [unfold window, s'; cbn; lia|]. split; [unfold s'; cbn; lia|]. split; [done|]. by exists v. }
    pose proof (H6 j op2 Hj) as Hok. assert (Hown : ∀ u, ticket op2 = Some u → u ≠ deq s) by (intros u Hu ->; apply Hno, owned_iff; eauto).
    destruct op2 as [|w|w pos|w pos|w pos|pos| |pos|pos|pos|pos w|pos w]; cbn in Hok |- *; try exact Hok.
    + destruct Hok as (Hw & Hd2 & Hc2). specialize (Hown pos eq_refl). split; [done|]. split; [lia|done].
    + destruct Hok as (Hw & Hd2 & Hc2). specialize (Hown pos eq_refl). split; [done|]. split; [lia|done].
    + lia.
    + destruct Hok as [Hp Hs2]. split; lia.
    + destruct Hok as (Hw & Hd2 & Hc2). split; [done|]. split; [lia|done].
    + destruct Hok as (Hw & Hd2 & Hc2). split; [done|]. split; [lia|done].
    + destruct Hok as (Hw & Hd2 & Hc2). split; [done|]. split; [lia|done].
  - intros u Hu Hnu. unfold owned in Hnu. rewrite HT in Hnu. assert (u ≠ deq s) by (intros ->; done).
    destruct (H7 u) as [(Hf1 & Hf)|(Hf1 & Hf)]; [done|auto|left|right]; (split; [unfold s'; cbn; lia|done]).
  - intros i1 i2 u. rewrite HT. apply T3.
  - intros u w Hin. destruct (H9 u w Hin) as [Hl Hp]. split; [unfold s'; cbn; lia|done].
Qed.

Lemma window_seq t : window s t → t ≤ sequence (cell s t) ≤ t + cap ∧ 0 ≤ sequence (cell s t).
Proof.
  intros Hw. pose proof cap_bounds. pose proof (mi_pos _ Hi). destruct (decide (owned s t)) as [(i & op & Ho & Ht)%owned_iff|Hno].
  - pose proof (mi_ops _ Hi _ _ Ho) as Hok. assert (0 ≤ t).
    { by destruct (owner_pushed _ _ _ Hok Ht) as (v & ? & _). }
    destruct (owner_seq _ _ _ Hok Ht) as [_ Hq]. lia.
  - destruct Hw as [Hw1 Hw2]. destruct (mi_settled _ Hi t) as [(H1 & -> & _)|(H1 & v & -> & _)]; cbn; try done; lia.
Qed.
Lemma cell_window pos : ∃ t, window s t ∧ cell s pos = cell s t.
Proof.
  pose proof cap_bounds. set (b := enq s - cap). exists (b + (pos - b) mod cap). split.
  - unfold window. pose proof (Z.mod_pos_bound (pos - b) cap ltac:(lia)). lia.
  - unfold cell_at. rewrite !(slot_mod _ _ (mi_mask _ Hi)). rewrite Zplus_mod_idemp_r. by replace (b + (pos - b)) with pos by lia.
Qed.
Lemma seq_signed pos : enq s < 2 ^ 62 → signed 64 (sequence (cell s pos)).
Proof.
  intros He. destruct (cell_window pos) as (t & Hw & ->). pose proof cap_bounds. destruct (window_seq t Hw). destruct Hw.
  unfold signed. change (2 ^ (64 - 1)) with (2 ^ 63). lia.
Qed.

(** The wrapped differences of the source are the differences of the positions. *)
Lemma push_diff pos : enq s < 2 ^ 62 → 0 ≤ pos ≤ enq s → i64 (sequence (cell s pos)) - i64 pos = sequence (cell s pos) - pos.
Proof.
  intros He Hp. rewrite !swrap_small; [done|lia| |lia|by apply seq_signed]. unfold signed. change (2 ^ (64 - 1)) with (2 ^ 63). lia.
Qed.
Lemma pop_diff pos : enq s < 2 ^ 62 → 0 ≤ pos ≤ enq s → i64 (sequence (cell s pos)) - i64 (u64 (pos + 1)) = sequence (cell s pos) - (pos + 1).
Proof.
  intros He Hp. rewrite (uwrap_small 64) by (unfold unsigned; lia). rewrite !swrap_small; [done|lia| |lia|by apply seq_signed].
  unfold signed. change (2 ^ (64 - 1)) with (2 ^ 63). lia.
Qed.

Lemma push_step_inv i op b : enq s < 2 ^ 62 → sys_ops s !! i = Some op → is_push op = true →
  let '(q, op', ev) := TryPush_step b (sys_queue s) op in
  mq_inv (record_event ev (mkSystem q (<[i := op']> (sys_ops s)) (sys_pushed s) (sys_popped s))).
Proof.
  intros He Ho Hp. pose proof (mi_ops _ Hi _ _ Ho) as Hok. pose proof (mi_pos _ Hi) as Hpos. pose proof cap_bounds as Hc.
  destruct op as [|v|v pos|v pos|v pos|pos| | | | | |]; try discriminate Hp; cbn [TryPush_step].
  - apply (move_inv i _ _ Ho); [done|]. cbn. lia.
  - rewrite (push_diff pos He Hok). destruct (sequence (cell s pos) - pos =? 0) eqn:E0.
    + apply (move_inv i _ _ Ho); [done|]. cbn. split; [exact Hok|]. intros _. apply Z.eqb_eq in E0. lia.
    + destruct (_ <? 0); by apply (move_inv i _ _ Ho).
  - destruct (negb b && (enq s =? pos)) eqn:E; cbn [record_event].
    + apply andb_true_iff in E as [_ <-%Z.eqb_eq]. rewrite (uwrap_small 64) by (unfold unsigned; lia). by apply claim_push_inv.
    + apply (move_inv i _ _ Ho); [done|]. cbn. lia.
  - destruct Hok as (Hw & Hd & Hcell & Hv).
    pose proof (cell_inv i _ pos (mkCell pos (Some v)) [] Ho eq_refl ltac:(intros u []%not_elem_of_nil) (PushPublish pos)) as HI.
    unfold set_storage. rewrite Hcell. cbn [sequence record_event]. rewrite app_nil_r in HI. apply HI; [|by left|by left].
    split; [done|]. split; [done|]. exists v. split; [|done]. cbn. apply cell_set_same; apply Hi.
  - destruct Hok as (Hw & Hd & v & Hcell & Hv).
    pose proof (cell_inv i _ pos (mkCell (pos + 1) (Some v)) [] Ho eq_refl ltac:(intros u []%not_elem_of_nil) Idle) as HI.
    unfold set_sequence. rewrite Hcell. cbn [storage record_event]. rewrite (uwrap_small 64) by (destruct Hw; unfold unsigned; lia).
    rewrite app_nil_r in HI. apply HI; [done| |by left]. right. split; [done|]. right. split; [done|]. exists v. split; [|done]. cbn. apply cell_set_same; apply Hi.
Qed.
Lemma pop_step_inv i op b : enq s < 2 ^ 62 → sys_ops s !! i = Some op → is_push op = false →
  let '(q, op', ev) := TryPop_step b (sys_queue s) op in
  mq_inv (record_event ev (mkSystem q (<[i := op']> (sys_ops s)) (sys_pushed s) (sys_popped s))).
Proof.
  intros He Ho Hp. pose proof (mi_ops _ Hi _ _ Ho) as Hok. pose proof (mi_pos _ Hi) as Hpos. pose proof cap_bounds as Hc.
  destruct op as [| | | | | | |pos|pos|pos|pos v|pos v]; try discriminate Hp; cbn [TryPop_step].
  - by apply (move_inv i _ _ Ho).
  - apply (move_inv i _ _ Ho); [done|]. cbn. lia.
  - cbn in Hok. rewrite (pop_diff pos He ltac:(lia)). destruct (sequence (cell s pos) - (pos + 1) =? 0) eqn:E0.
    + apply (move_inv i _ _ Ho); [done|]. cbn. split; [exact Hok|]. intros _. apply Z.eqb_eq in E0. lia.
    + destruct (_ <? 0); by apply (move_inv i _ _ Ho).
  - destruct (negb b && (deq s =? pos)) eqn:E; cbn [record_event].
    + apply andb_true_iff in E as [_ <-%Z.eqb_eq]. rewrite (uwrap_small 64) by (unfold unsigned; lia). by apply claim_pop_inv.
    + apply (move_inv i _ _ Ho); [done|]. cbn. lia.
  - pose proof Hok as (Hw & Hd & Hn & v & Hcell & Hv). rewrite Hcell. cbn [storage]. apply (move_inv i _ _ Ho); [done|]. cbn. auto.
  - destruct Hok as (Hw & Hd & Hn & Hcell & Hv).
    pose proof (cell_inv i _ pos (mkCell (pos + 1) None) [] Ho eq_refl ltac:(intros u []%not_elem_of_nil) (PopRelease pos v)) as HI.
    unfold set_storage. rewrite Hcell. cbn [sequence record_event]. rewrite app_nil_r in HI. apply HI; [|by left|by left].
    split; [done|]. split; [done|]. split; [done|]. split; [|done]. cbn. apply cell_set_same; apply Hi.
  - destruct Hok as (Hw & Hd & Hn & Hcell & Hv).
    pose proof (cell_inv i _ pos (mkCell (pos + cap) None) [(pos, v)] Ho eq_refl ltac:(by intros u ->%list_elem_of_singleton) Idle) as HI.
    unfold set_sequence. rewrite Hcell, (mi_mask _ Hi). cbn [storage record_event].
    rewrite (uwrap_small 64) by (destruct Hw, Hv; unfold unsigned; lia). replace (pos + (cap - 1) + 1) with (pos + cap) by lia.
    apply HI; [done| |right; by exists v]. right. split; [done|]. left. split; [done|]. split; [cbn; apply cell_set_same; apply Hi|].
    intros _. cbn. rewrite fmap_app. apply elem_of_app. right. by apply list_elem_of_singleton.
Qed.

Lemma sys_step_inv i a : enq s < 2 ^ 62 → mq_inv (sys_step i a s).
Proof.
  intros He. unfold sys_step. destruct (sys_ops s !! i) as [op|] eqn:Ho; [|done].
  assert (HR : ∀ b, mq_inv (let '(q, op', ev) := op_step b (sys_queue s) op in record_event ev (mkSystem q (<[i := op']> (sys_ops s)) (sys_pushed s) (sys_popped s)))).
  { intros b. unfold op_step. destruct (is_push op) eqn:Hp.
    - pose proof (push_step_inv i op b He Ho Hp) as H. by destruct (TryPush_step b (sys_queue s) op) as [[q op'] ev].
    - pose proof (pop_step_inv i op b He Ho Hp) as H. by destruct (TryPop_step b (sys_queue s) op) as [[q op'] ev]. }
  destruct a as [w| |b]; [destruct op; try exact Hi; by apply (move_inv i _ _ Ho)|destruct op; try exact Hi; by apply (move_inv i _ _ Ho)|destruct op; exact (HR b)].
Qed.
End Step.

Lemma init_inv n : mq_inv (sys_init cap n).
Proof.
  pose proof cap_bounds. assert (Hm : mq_mask (sys_queue (sys_init (T := T) cap n)) = cap - 1).
  { cbn. apply uwrap_small. unfold unsigned. lia. }
  assert (Ho : ∀ i op, sys_ops (sys_init cap n) !! i = Some op → op = Idle).
  { intros i op Hi. cbn in Hi. by apply lookup_replicate in Hi as [-> _]. }
  split; try done.
  - unfold zlen. cbn. rewrite length_fmap, length_seqZ. lia.
  - cbn. lia.
  - intros i op Hi. by rewrite (Ho i op Hi).
  - intros t [Hw1 Hw2] _. cbn in Hw1, Hw2. left. split; [cbn; lia|]. split; [|cbn; lia].
    unfold cell_at. rewrite (slot_mod _ _ Hm). cbn. rewrite <- (Z.mod_add t 1) by lia. rewrite Z.mod_small by lia.
    rewrite list_lookup_fmap, lookup_seqZ_lt by lia. cbn. f_equal. lia.
  - intros i j t. unfold tickets. rewrite !list_lookup_fmap. intros (op & Hop & Ht)%fmap_Some. rewrite (Ho _ _ Hop) in Ht. discriminate Ht.
  - intros t v []%not_elem_of_nil.
  - constructor.
  - cbn. lia.
Qed.

Lemma pushed_grows i a s : sys_pushed s `prefix_of` sys_pushed (sys_step i a s).
Proof.
  unfold sys_step. destruct (sys_ops s !! i) as [op|]; [|done].
  assert (HR : ∀ b, sys_pushed s `prefix_of` sys_pushed (let '(q, op', ev) := op_step b (sys_queue s) op in record_event ev (mkSystem q (<[i := op']> (sys_ops s)) (sys_pushed s) (sys_popped s)))).
  { intros b. destruct (op_step b (sys_queue s) op) as [[q op'] [[]|]]; cbn; try done. by eexists. }
  destruct a as [w| |b]; [destruct op; done|destruct op; done|destruct op; exact (HR b)].
Qed.
Lemma run_pushed_grows sched s : sys_pushed s `prefix_of` sys_pushed (sys_run sched s).
Proof.
  revert s. induction sched as [|[i a] sched IH]; intros s; [done|]. cbn. etrans; [apply (pushed_grows i a)|apply IH].
Qed.
Lemma run_threads sched s : length (sys_ops (sys_run sched s)) = length (sys_ops s).
Proof.
  revert s. induction sched as [|[i a] sched IH]; intros s; [done|]. cbn. etrans; [apply IH|]. unfold sys_step.
  destruct (sys_ops s !! i) as [op|]; [|done]. assert (HR : ∀ b, length (sys_ops (let '(q, op', ev) := op_step b (sys_queue s) op in record_event ev (mkSystem q (<[i := op']> (sys_ops s)) (sys_pushed s) (sys_popped s)))) = length (sys_ops s)).
  { intros b. destruct (op_step b (sys_queue s) op) as [[q op'] [[]|]]; cbn; apply length_insert. }
  destruct a as [w| |b]; [destruct op; cbn; rewrite ?length_insert; done|destruct op; cbn; rewrite ?length_insert; done|destruct op; exact (HR b)].
Qed.
Lemma run_inv sched s : mq_inv s → zlen (sys_pushed (sys_run sched s)) < 2 ^ 62 → mq_inv (sys_run sched s).
Proof.
  revert s. induction sched as [|[i a] sched IH]; intros s Hs Hb; [done|]. cbn in Hb |- *. apply IH; [|exact Hb].
  apply sys_step_inv; [done|]. rewrite <- (mi_pushed _ Hs).
  pose proof (prefix_length _ _ (pushed_grows i a s)). pose proof (prefix_length _ _ (run_pushed_grows sched (sys_step i a s))).
  unfold zlen in *. unfold sys_run in *. lia.
Qed.

(** ** A thread running on its own *)

(** At a current position the cell is never ahead: the reload branch is only taken on a
    stale position. *)
Lemma current_push s : mq_inv s → sequence (cell s (enq s)) ≤ enq s.
Proof.
  intros Hi. pose proof cap_bounds. rewrite <- (cell_lap _ _ (mi_mask _ Hi)).
  destruct (window_seq s Hi (enq s - cap)); [unfold window; lia|lia].
Qed.
Lemma current_pop s : mq_inv s → sequence (cell s (deq s)) ≤ deq s + 1.
Proof.
  intros Hi. pose proof cap_bounds. pose proof (mi_pos _ Hi). pose proof (mi_room _ Hi).
  destruct (decide (deq s = enq s)) as [E|]; [rewrite E; pose proof (current_push s Hi); lia|].
  destruct (decide (owned s (deq s))) as [(i & op & Ho & Ht)%owned_iff|Hno].
  - destruct (owner_seq _ _ _ (mi_ops _ Hi _ _ Ho) Ht). lia.
  - destruct (mi_settled _ Hi (deq s)) as [(? & _)|(_ & v & -> & _)]; [unfold window; lia|done|lia|done].
Qed.

(** Steps left, at most. *)
Definition rank q op : nat :=
  match op with
  | Idle => 0
  | PushPublish _ => 1
  | PushWrite _ _ => 2
  | PushClaim _ pos => if pos =? enqueue_pos q then 3 else 5
  | PushLoop _ pos => if pos =? enqueue_pos q then 4 else 6
  | PushStart _ => 5
  | PopRelease _ _ => 1
  | PopDestroy _ _ => 2
  | PopTake _ => 3
  | PopClaim pos => if pos =? dequeue_pos q then 4 else 6
  | PopLoop pos => if pos =? dequeue_pos q then 5 else 7
  | PopStart => 6
  end.

Lemma sys_step_run s i b op : sys_ops s !! i = Some op →
  sys_step i (Run b) s = (let '(q, op', ev) := op_step b (sys_queue s) op in record_event ev (mkSystem q (<[i := op']> (sys_ops s)) (sys_pushed s) (sys_popped s))).
Proof. intros Ho. unfold sys_step. rewrite Ho. by destruct op. Qed.
Lemma record_shape ev s : sys_queue (record_event ev s) = sys_queue s ∧ sys_ops (record_event ev s) = sys_ops s ∧
  zlen (sys_pushed (record_event ev s)) ≤ zlen (sys_pushed s) + 1.
Proof. destruct ev as [[]|]; cbn; rewrite ?zlen_app; split_and!; try done; try lia. Qed.

Lemma op_step_rank s op : mq_inv s → enq s < 2 ^ 62 → op_ok s op → op ≠ Idle →
  (rank (op_step false (sys_queue s) op).1.1 (op_step false (sys_queue s) op).1.2 < rank (sys_queue s) op)%nat.
Proof.
  intros Hi He Hok Hne. pose proof (current_push s Hi) as Hcp. pose proof (current_pop s Hi) as Hcq. pose proof (mi_pos _ Hi).
  destruct op as [|v|v pos|v pos|v pos|pos| |pos|pos|pos|pos v|pos v]; try done; cbn [op_step is_push TryPush_step TryPop_step].
  - cbn. rewrite Z.eqb_refl. lia.
  - rewrite (push_diff s Hi pos He Hok). cbn [rank]. destruct (sequence (cell s pos) - pos =? 0) eqn:E0; [|destruct (_ <? 0) eqn:E1]; cbn; destruct (pos =? enq s) eqn:E2; try lia.
    apply Z.eqb_neq in E0. apply Z.ltb_ge in E1. apply Z.eqb_eq in E2. subst. lia.
  - cbn [negb andb rank]. rewrite (Z.eqb_sym pos). destruct (enq s =? pos); cbn; rewrite ?Z.eqb_refl; lia.
  - cbn. lia.
  - cbn. lia.
  - cbn. rewrite Z.eqb_refl. lia.
  - cbn in Hok. rewrite (pop_diff s Hi pos He ltac:(lia)). cbn [rank]. destruct (sequence (cell s pos) - (pos + 1) =? 0) eqn:E0; [|destruct (_ <? 0) eqn:E1]; cbn; destruct (pos =? deq s) eqn:E2; try lia.
    apply Z.eqb_neq in E0. apply Z.ltb_ge in E1. apply Z.eqb_eq in E2. subst. lia.
  - cbn [negb andb rank]. rewrite (Z.eqb_sym pos). destruct (deq s =? pos); cbn; rewrite ?Z.eqb_refl; lia.
  - destruct Hok as (_ & _ & _ & v & -> & _). cbn. lia.
  - cbn. lia.
  - cbn. lia.
Qed.

Lemma solo_idle n s i op : mq_inv s → enq s + Z.of_nat n < 2 ^ 62 → sys_ops s !! i = Some op → (rank (sys_queue s) op ≤ n)%nat →
  sys_ops (sys_run (replicate n (i, Run false)) s) !! i = Some Idle.
Proof.
  revert s op. induction n as [|n IH]; intros s op Hi He Ho Hr.
  - cbn in Hr |- *. destruct op as [|v|v pos|v pos|v pos|pos| |pos|pos|pos|pos v|pos v]; cbn in Hr; try lia; try done; destruct (_ =? _) in Hr; lia.
  - pose proof (mi_ops _ Hi _ _ Ho) as Hok. cbn. pose proof (sys_step_inv s Hi i (Run false) ltac:(lia)) as Hi'.
    rewrite (sys_step_run _ _ _ _ Ho) in Hi' |- *. pose proof (op_step_rank s op Hi ltac:(lia) Hok) as Hstep.
    destruct (op_step false (sys_queue s) op) as [[q op'] ev] eqn:E. cbn [fst snd] in Hstep.
    destruct (record_shape ev (mkSystem q (<[i := op']> (sys_ops s)) (sys_pushed s) (sys_popped s))) as (R1 & R2 & R3).
    apply (IH _ op' Hi').
    + rewrite <- (mi_pushed _ Hi'). pose proof (mi_pushed _ Hi). cbn in R3. lia.
    + rewrite R2. cbn. apply list_lookup_insert_eq. by eapply lookup_lt_Some.
    + rewrite R1. cbn. assert (op = Idle ∨ op ≠ Idle) as [->|Hne] by (destruct op; auto; by right); [|specialize (Hstep Hne); lia].
      cbn in E. injection E as _ <- _. cbn. lia.
Qed.

(** One operation from start to end, undisturbed. *)
Definition quiet s : Prop := Forall (λ op, op = Idle) (sys_ops s).
Definition contents s : list T := zdrop (deq s) (sys_pushed s).

Section Solo.
Context (ops : list (Op T)) (i : nat) (Hlen : (i < length ops)%nat).
Lemma solo_step q op pu po : sys_step i (Run false) (mkSystem q (<[i := op]> ops) pu po) =
  (let '(q', op', ev) := op_step false q op in record_event ev (mkSystem q' (<[i := op']> ops) pu po)).
Proof.
  rewrite (sys_step_run _ _ _ op) by (cbn; by apply list_lookup_insert_eq). cbn [sys_queue sys_ops sys_pushed sys_popped].
  destruct (op_step false q op) as [[q' op'] ev]. by rewrite list_insert_insert_eq.
Qed.
End Solo.

Lemma push_solo s i v : mq_inv s → enq s < 2 ^ 61 → sys_ops s !! i = Some Idle →
  let s' := sys_run ((i, BeginPush v) :: replicate 5 (i, Run false)) s in
  if sequence (cell s (enq s)) =? enq s
  then sys_ops s' = sys_ops s ∧ sys_pushed s' = sys_pushed s ++ [v] ∧ sys_popped s' = sys_popped s ∧ deq s' = deq s
  else s' = s.
Proof.
  intros Hi He Ho s'.
  enough (H : if sequence (cell s (enq s)) =? enq s then ∃ q', s' = mkSystem q' (sys_ops s) (sys_pushed s ++ [v]) (sys_popped s) ∧ dequeue_pos q' = deq s else s' = s).
  { destruct (_ =? _); [|done]. by destruct H as (q' & -> & Hq). }
  pose proof (lookup_lt_Some _ _ _ Ho) as Hlen. pose proof (mi_pos _ Hi). unfold s'. cbn [replicate sys_run fold_left fst snd].
  replace (sys_step i (BeginPush v) s) with (mkSystem (sys_queue s) (<[i := PushStart v]> (sys_ops s)) (sys_pushed s) (sys_popped s)) by (unfold sys_step; by rewrite Ho). do 2 (rewrite (solo_step _ _ Hlen); cbn [op_step is_push TryPush_step record_event]).
  pose proof (current_push s Hi) as Hc. rewrite (push_diff s Hi) by lia.
  destruct (sequence (cell s (enq s)) =? enq s) eqn:E.
  - apply Z.eqb_eq in E. rewrite E, Z.sub_diag, Z.eqb_refl. cbn [record_event].
    rewrite (solo_step _ _ Hlen); cbn [op_step is_push TryPush_step record_event negb andb]; rewrite Z.eqb_refl; cbn [record_event sys_queue sys_ops sys_pushed sys_popped].
    do 2 (rewrite (solo_step _ _ Hlen); cbn [op_step is_push TryPush_step record_event sys_queue sys_ops sys_pushed sys_popped]).
    eexists. split; [f_equal; by apply list_insert_id|done].
  - apply Z.eqb_neq in E. destruct (Z.eqb_spec (sequence (cell s (enq s)) - enq s) 0); [lia|]. destruct (Z.ltb_spec (sequence (cell s (enq s)) - enq s) 0); [|lia].
    cbn [record_event]. do 3 (rewrite (solo_step _ _ Hlen); cbn [op_step is_push TryPop_step record_event]).
    rewrite list_insert_id by done. by destruct s.
Qed.
Lemma pop_solo s i : mq_inv s → enq s < 2 ^ 61 → sys_ops s !! i = Some Idle →
  let s' := sys_run ((i, BeginPop) :: replicate 6 (i, Run false)) s in
  if sequence (cell s (deq s)) =? deq s + 1
  then ∃ v, sys_pushed s !! Z.to_nat (deq s) = Some v ∧ sys_ops s' = sys_ops s ∧ sys_pushed s' = sys_pushed s ∧ sys_popped s' = sys_popped s ++ [(deq s, v)] ∧ deq s' = deq s + 1
  else s' = s.
Proof.
  intros Hi He Ho s'.
  enough (H : if sequence (cell s (deq s)) =? deq s + 1 then ∃ v q', sys_pushed s !! Z.to_nat (deq s) = Some v ∧ s' = mkSystem q' (sys_ops s) (sys_pushed s) (sys_popped s ++ [(deq s, v)]) ∧ dequeue_pos q' = deq s + 1 else s' = s).
  { destruct (_ =? _); [|done]. destruct H as (v & q' & Hv & -> & Hq). by exists v. }
  pose proof (lookup_lt_Some _ _ _ Ho) as Hlen. pose proof (mi_pos _ Hi). unfold s'. cbn [replicate sys_run fold_left fst snd].
  replace (sys_step i BeginPop s) with (mkSystem (sys_queue s) (<[i := PopStart]> (sys_ops s)) (sys_pushed s) (sys_popped s)) by (unfold sys_step; by rewrite Ho). do 2 (rewrite (solo_step _ _ Hlen); cbn [op_step is_push TryPop_step record_event]).
  pose proof (current_pop s Hi) as Hc. rewrite (pop_diff s Hi) by lia.
  destruct (sequence (cell s (deq s)) =? deq s + 1) eqn:E.
  - apply Z.eqb_eq in E. destruct (claimable_pop s Hi E) as (_ & Hlt & v & Hcell & _ & Hv). rewrite E, Z.sub_diag, Z.eqb_refl. cbn [record_event]. exists v.
    rewrite (solo_step _ _ Hlen); cbn [op_step is_push TryPop_step record_event negb andb]; rewrite Z.eqb_refl; cbn [record_event sys_queue sys_ops sys_pushed sys_popped].
    rewrite (solo_step _ _ Hlen); cbn [op_step is_push TryPop_step record_event]. change (cell_at (set_dequeue _ _) (deq s)) with (cell s (deq s)). rewrite Hcell. cbn [storage record_event].
    do 2 (rewrite (solo_step _ _ Hlen); cbn [op_step is_push TryPop_step record_event sys_queue sys_ops sys_pushed sys_popped]).
    eexists. split; [done|]. split; [f_equal; by apply list_insert_id|]. cbn. apply uwrap_small. unfold unsigned. lia.
  - apply Z.eqb_neq in E. destruct (Z.eqb_spec (sequence (cell s (deq s)) - (deq s + 1)) 0); [lia|]. destruct (Z.ltb_spec (sequence (cell s (deq s)) - (deq s + 1)) 0); [|lia].
    cbn [record_event]. do 4 (rewrite (solo_step _ _ Hlen); cbn [op_step is_push TryPop_step record_event]).
    rewrite list_insert_id by done. by destruct s.
Qed.
End Invariant.

Section Theorems.
Context {T : Type}.
Implicit Types (s : System T) (v : T).

Definition started (q : MpmcQueue T) (threads : nat) : System T := mkSystem q (replicate threads Idle) [] [].
(** The position whose payload a thread is about to touch. *)
Definition touches (op : Op T) : option Z :=
  match op with PushWrite _ pos | PopTake pos | PopDestroy pos _ => Some pos | _ => None end.

Lemma started_inv capacity threads sched : 2 ≤ capacity ≤ 2 ^ 60 →
  ∃ k q, 1 ≤ k ≤ 60 ∧ newMpmc capacity = Some q ∧ capacity ≤ 2 ^ k < 2 * capacity ∧ Mpmc_Capacity q = 2 ^ k ∧
    let s := sys_run sched (started q threads) in zlen (sys_pushed s) < 2 ^ 62 → mq_inv k s.
Proof.
  intros Hc. destruct (round_up_spec capacity Hc) as (k & Hk & HR & Hb). exists k, (new_queue (2 ^ k)).
  pose proof (cap_bounds k Hk). unfold newMpmc. rewrite HR. split_and!; try done; try lia.
  - unfold Mpmc_Capacity. cbn. rewrite !(uwrap_small 64); unfold unsigned; try lia. rewrite uwrap_small; unfold unsigned; lia.
  - cbv zeta. intros Hl. apply run_inv; [done| |done]. by apply (init_inv k Hk threads).
Qed.

Lemma quiet_settled k s t : mq_inv k s → quiet s → window k s t → settled k s t.
Proof.
  intros Hi Hq Hw. apply (mi_settled _ _ Hi); [done|]. intros (i & op & Ho & Ht)%owned_iff.
  by rewrite (Forall_lookup_1 _ _ _ _ Hq Ho) in Ht.
Qed.
Lemma quiet_popped k s : mq_inv k s → quiet s →
  sys_popped s ≡ₚ zip (seqZ 0 (dequeue_pos (sys_queue s))) (ztake (dequeue_pos (sys_queue s)) (sys_pushed s)).
Proof.
  intros Hi Hq. set (D := dequeue_pos (sys_queue s)). pose proof (mi_pos _ _ Hi) as Hp. fold D in Hp.
  pose proof (mi_pushed _ _ Hi) as Hl. unfold zlen in Hl. assert (HL : length (seqZ 0 D) = length (ztake D (sys_pushed s))).
  { rewrite length_seqZ. unfold ztake. rewrite length_take. lia. }
  apply NoDup_Permutation.
  - apply (NoDup_fmap_1 fst), Hi.
  - apply (NoDup_fmap_1 fst). rewrite fst_zip by lia. apply NoDup_seqZ.
  - intros [t v]. split.
    + intros Hin. destruct (mi_popped _ _ Hi t v Hin) as (Hd & H0 & Hv). apply list_elem_of_lookup_2 with (Z.to_nat t).
      apply lookup_zip_with_Some. exists t, v. split; [done|]. split; [apply lookup_seqZ; lia|].
      unfold ztake. rewrite lookup_take_Some. split; [done|]. fold D in Hd. lia.
    + intros (n & (t' & v' & [= <- <-] & Ht & Hv)%lookup_zip_with_Some)%list_elem_of_lookup_1. apply lookup_seqZ in Ht as [-> Hn].
      unfold ztake in Hv. apply lookup_take_Some in Hv as [Hv _].
      assert (Hin : (0 + Z.of_nat n) ∈ (sys_popped s).*1).
      { destruct (decide (0 + Z.of_nat n < enqueue_pos (sys_queue s) - 2 ^ k)) as [|Hge]; [apply (mi_before _ _ Hi); lia|].
        destruct (quiet_settled k s (0 + Z.of_nat n) Hi Hq) as [(_ & _ & H1)|(H1 & _)]; [unfold window; lia|apply H1; lia|fold D in H1; lia]. }
      apply list_elem_of_fmap in Hin as ([t w] & Ht & Hin). cbn in Ht. subst t.
      destruct (mi_popped _ _ Hi _ w Hin) as (_ & _ & Hw). replace (Z.to_nat (0 + Z.of_nat n)) with n in Hw by lia. congruence.
Qed.

(** C30. The queue is first-in first-out and loses or repeats nothing.  For every capacity
    from 2 on, any number of threads and any interleaving of their steps, spurious
    failures included, up to 2^62 pushes: a pop with the n-th ticket returns the value
    pushed with the n-th ticket, no ticket is served twice, never more items are under
    way than the capacity, and once no operation is in progress exactly the first pushed
    values have been returned.  A slot is only written while it is empty and only read
    while it holds an object, and two threads never touch the same slot at a time. *)
Theorem mpmc_fifo capacity threads sched : 2 ≤ capacity ≤ 2 ^ 60 →
  ∃ q, newMpmc capacity = Some q ∧ capacity ≤ Mpmc_Capacity q < 2 * capacity ∧
  let s := sys_run sched (started q threads) in
  zlen (sys_pushed s) < 2 ^ 62 →
  (∀ t v, (t, v) ∈ sys_popped s → 0 ≤ t ∧ sys_pushed s !! Z.to_nat t = Some v) ∧
  NoDup (sys_popped s).*1 ∧
  0 ≤ zlen (contents s) ≤ Mpmc_Capacity q ∧
  (quiet s → ∃ served, sys_popped s ≡ₚ zip (seqZ 0 (zlen served)) served ∧ sys_pushed s = served ++ contents s) ∧
  (∀ i op pos, sys_ops s !! i = Some op → touches op = Some pos →
     (storage (cell_at (sys_queue s) pos) = None ↔ ∃ v, op = PushWrite v pos) ∧
     (∀ j op' pos', i ≠ j → sys_ops s !! j = Some op' → touches op' = Some pos' → slot (sys_queue s) pos ≠ slot (sys_queue s) pos')).
Proof.
  intros Hc. destruct (started_inv capacity threads sched Hc) as (k & q & Hk & Hq & Hb & Hcap & Hinv). exists q. split; [done|]. rewrite Hcap. split; [done|].
  intros s Hl. specialize (Hinv Hl). fold s in Hinv. pose proof (mi_pos _ _ Hinv). pose proof (mi_pushed _ _ Hinv) as HP. pose proof (mi_room _ _ Hinv).
  split_and!.
  - intros t v Hin. apply (mi_popped _ _ Hinv t v Hin).
  - apply Hinv.
  - apply zlen_nonneg.
  - unfold contents. rewrite zlen_zdrop by lia. lia.
  - intros Hqt. exists (ztake (dequeue_pos (sys_queue s)) (sys_pushed s)). split; [|unfold contents, ztake, zdrop; by rewrite take_drop].
    replace (zlen (ztake _ _)) with (dequeue_pos (sys_queue s)) by (rewrite zlen_ztake; lia). by apply (quiet_popped k).
  - intros i op pos Ho Ht. pose proof (mi_ops _ _ Hinv _ _ Ho) as Hok. assert (Htk : ticket op = Some pos) by (destruct op; done). split.
    + destruct op as [| | | |v pos'| | | | |pos'|pos' v|]; try discriminate Ht; injection Ht as ->.
      * destruct Hok as (_ & _ & -> & _). split; [by exists v|done].
      * destruct Hok as (_ & _ & _ & v & -> & _). split; [done|]. by intros (? & ?).
      * destruct Hok as (_ & _ & _ & -> & _). split; [done|]. by intros (? & ?).
    + intros j op' pos' Hne Hj Ht'. assert (Htk' : ticket op' = Some pos') by (destruct op'; done).
      destruct (owner_seq _ _ _ _ Hok Htk) as [Hw _]. destruct (owner_seq _ _ _ _ (mi_ops _ _ Hinv _ _ Hj) Htk') as [Hw' _].
      pose proof (cap_bounds k Hk). rewrite !(slot_mod k Hk) by apply Hinv. intros Heq.
      pose proof (Z.mod_pos_bound pos (2 ^ k) ltac:(lia)). pose proof (Z.mod_pos_bound pos' (2 ^ k) ltac:(lia)).
      apply (ticket_other k s Hinv i j op op' pos pos' Ho Htk Hj Htk' Hne). symmetry. apply (window_slots k Hk (enqueue_pos (sys_queue s))); [done|done|lia].
Qed.

Lemma quiet_push k s : 1 ≤ k ≤ 60 → mq_inv k s → quiet s →
  sequence (cell_at (sys_queue s) (enqueue_pos (sys_queue s))) = enqueue_pos (sys_queue s) ↔ zlen (contents s) < 2 ^ k.
Proof.
  intros Hk Hi Hq. pose proof (cap_bounds k Hk). pose proof (mi_pos _ _ Hi). pose proof (mi_room _ _ Hi). pose proof (mi_pushed _ _ Hi).
  unfold contents. rewrite zlen_zdrop by lia. rewrite <- (cell_lap k Hk) by apply Hi.
  destruct (quiet_settled k s (enqueue_pos (sys_queue s) - 2 ^ k) Hi Hq) as [(Hd & -> & _)|(Hd & v & -> & _)]; [unfold window; lia| |]; cbn; lia.
Qed.
Lemma quiet_pop k s : 1 ≤ k ≤ 60 → mq_inv k s → quiet s →
  sequence (cell_at (sys_queue s) (dequeue_pos (sys_queue s))) = dequeue_pos (sys_queue s) + 1 ↔ 0 < zlen (contents s).
Proof.
  intros Hk Hi Hq. pose proof (cap_bounds k Hk). pose proof (mi_pos _ _ Hi). pose proof (mi_room _ _ Hi). pose proof (mi_pushed _ _ Hi).
  unfold contents. rewrite zlen_zdrop by lia. split; [intros Hs; destruct (claimable_pop k Hk s Hi Hs); lia|]. intros Hlt.
  destruct (quiet_settled k s (dequeue_pos (sys_queue s)) Hi Hq) as [(Hd & _)|(Hd & v & -> & _)]; [unfold window; lia|lia|done].
Qed.

(** Nobody waits for anybody, and one at a time it is a bounded queue.  From every
    reachable state, whatever the other threads were stopped in the middle of, a thread
    that runs alone is done with its operation after at most seven of its steps.  While
    no other operation is under way, a push appends its value unless the queue holds
    [Capacity] of them and then leaves everything as it was, and a pop returns the
    oldest value unless the queue is empty. *)
Theorem mpmc_solo capacity threads sched : 2 ≤ capacity ≤ 2 ^ 60 →
  ∃ q, newMpmc capacity = Some q ∧
  let s := sys_run sched (started q threads) in
  zlen (sys_pushed s) < 2 ^ 61 → ∀ i, (i < threads)%nat →
  sys_ops (sys_run (replicate 7 (i, Run false)) s) !! i = Some Idle ∧
  (quiet s →
   (∀ v, let s' := sys_run ((i, BeginPush v) :: replicate 5 (i, Run false)) s in
      if zlen (contents s) <? Mpmc_Capacity q then contents s' = contents s ++ [v] ∧ sys_popped s' = sys_popped s ∧ quiet s' else s' = s) ∧
   (let s' := sys_run ((i, BeginPop) :: replicate 6 (i, Run false)) s in
      match contents s with
      | [] => s' = s
      | v :: rest => contents s' = rest ∧ (sys_popped s').*2 = (sys_popped s).*2 ++ [v] ∧ quiet s'
      end)).
Proof.
  intros Hc. destruct (started_inv capacity threads sched Hc) as (k & q & Hk & Hq & Hb & Hcap & Hinv). exists q. split; [done|]. rewrite Hcap.
  intros s Hl i Hlt. specialize (Hinv ltac:(fold s; lia)). fold s in Hinv. pose proof (cap_bounds k Hk).
  pose proof (mi_pos _ _ Hinv). pose proof (mi_pushed _ _ Hinv) as HP.
  assert (Hth : is_Some (sys_ops s !! i)).
  { apply lookup_lt_is_Some. unfold s. rewrite run_threads. cbn. by rewrite length_replicate. }
  destruct Hth as (op & Ho). split.
  - apply (solo_idle k Hk 7 s i op Hinv); [lia|done|]. destruct op; cbn; try lia; destruct (_ =? _); lia.
  - intros Hqt. assert (HI : op = Idle) by (by apply (Forall_lookup_1 _ _ _ _ Hqt Ho)). subst op. split.
    + intros v s'. pose proof (push_solo k Hk s i v Hinv ltac:(lia) Ho) as HS. fold s' in HS.
      destruct (Z.eqb_spec (sequence (cell_at (sys_queue s) (enqueue_pos (sys_queue s)))) (enqueue_pos (sys_queue s))) as [E|E]; rewrite (quiet_push k) in E by done.
      * rewrite (proj2 (Z.ltb_lt _ _) E). destruct HS as (H1 & H2 & H3 & H4). unfold contents, quiet. rewrite H1, H2, H4. split; [|done].
        unfold zdrop. rewrite drop_app_le; [done|]. unfold zlen in HP. lia.
      * rewrite (proj2 (Z.ltb_ge _ _)) by lia. exact HS.
    + intros s'. pose proof (pop_solo k Hk s i Hinv ltac:(lia) Ho) as HS. fold s' in HS.
      destruct (Z.eqb_spec (sequence (cell_at (sys_queue s) (dequeue_pos (sys_queue s)))) (dequeue_pos (sys_queue s) + 1)) as [E|E]; rewrite (quiet_pop k) in E by done.
      * destruct HS as (v & Hv & H1 & H2 & H3 & H4). unfold contents, quiet. rewrite H1, H2, H3, H4. unfold zdrop. rewrite (drop_S _ v) by done.
        split; [f_equal; lia|]. split; [by rewrite fmap_app|done].
      * destruct (contents s) as [|v rest]; [done|]. rewrite zlen_cons in E. pose proof (zlen_nonneg rest). lia.
Qed.
End Theorems.

(** ** Examples *)

(** Two threads push 10 and 20 in lockstep, the second losing the first race; then the
    first thread pops. *)
Definition race : list (nat * Action Z) :=
  [(0%nat, BeginPush 10); (1%nat, BeginPush 20)] ++ concat (replicate 8 [(0%nat, Run false); (1%nat, Run false)]) ++
  [(0%nat, BeginPop)] ++ replicate 6 (0%nat, Run false).
Definition raced : System Z := Eval vm_compute in sys_run race (started (new_queue 4) 2).
Lemma race_start : newMpmc 3 = Some (new_queue (T := Z) 4).
Proof. vm_compute. reflexivity. Qed.
Lemma race_raced : sys_run race (started (new_queue 4) 2) = raced.
Proof. vm_compute. reflexivity. Qed.
Lemma race_quiet : quiet raced.
Proof. repeat constructor. Qed.

Lemma mpmc_fifo_witness : sys_popped raced = [(0, 10)] ∧ contents raced = [20] ∧ NoDup (sys_popped raced).*1 ∧ sys_pushed raced !! 0%nat = Some 10.
Proof.
  destruct (mpmc_fifo (T := Z) 3 2 race ltac:(lia)) as (q & Hq & _ & H). rewrite race_start in Hq. injection Hq as <-.
  rewrite race_raced in H. destruct (H ltac:(by vm_compute)) as (H1 & H2 & _). split; [reflexivity|]. split; [reflexivity|]. split; [exact H2|].
  apply (H1 0 10). apply list_elem_of_here.
Defined.

Lemma mpmc_solo_witness : contents (sys_run ((1%nat, BeginPush 30) :: replicate 5 (1%nat, Run false)) raced) = [20; 30].
Proof.
  destruct (mpmc_solo (T := Z) 3 2 race ltac:(lia)) as (q & Hq & H). rewrite race_start in Hq. injection Hq as <-.
  rewrite race_raced in H. destruct (H ltac:(by vm_compute) 1%nat ltac:(lia)) as [_ H1].
  destruct (H1 race_quiet) as [H2 _]. exact (proj1 (H2 30)).
Defined.

(** A queue of capacity 1 does not work: full and writable look the same.  A second push is
    accepted and overwrites the first value, and no pop ever returns again. *)
Lemma mpmc_capacity_one :
  let two_pushes := [(0%nat, BeginPush 10)] ++ replicate 5 (0%nat, Run false) ++ [(0%nat, BeginPush 20)] ++ replicate 5 (0%nat, Run false) in
  let s := sys_run two_pushes (started (new_queue 1) 1) in
  newMpmc 1 = Some (new_queue (T := Z) 1) ∧ sys_pushed s = [10; 20] ∧ mq_cells (sys_queue s) = [mkCell 2 (Some 20)] ∧
  ∀ n, sys_ops (sys_run ((0%nat, BeginPop) :: replicate n (0%nat, Run false)) s) ≠ [Idle].
Proof.
  intros two_pushes s. split; [reflexivity|]. split; [reflexivity|]. split; [reflexivity|]. intros n.
  assert (H : ∀ n op, op = PopStart ∨ op = PopLoop 0 →
    sys_ops (sys_run (replicate n (0%nat, Run false)) (mkSystem (mkMpmc 0 [mkCell 2 (Some 20)] 2 0) [op] [10; 20] [])) ≠ [Idle]).
  { clear n. induction n as [|n IH]; intros op [->| ->]; cbn; [done|done| |]; (apply IH; auto). }
  apply (H n PopStart). by left.
Qed.
