(* ===== verification/Mailbox.v ===== *)
(** * Mailbox: the bounded queue with one consumer

    The event loops and the partition workers use the queue of [MpmcQueue] the same way: any
    number of threads push, one thread pops.  This file adds to the invariant of
    [MpmcTheorems] what holds of such a use.  What was popped is a prefix of what was pushed,
    in the order of the tickets; and the consumer is told that the queue is empty only when
    it is, or when the oldest ticket is held by a push that has not published it yet.  In the
    second case values pushed completely after it are invisible to the consumer. *)
From S2P Require Import Prelude MpmcQueue MpmcTheorems.

(** A step of thread [i] in its operation, with what it lets the caller see. *)
Definition thread_step {T} (i : nat) (spurious : bool) (s : System T) : System T * option (Event T) :=
  match sys_ops s !! i with
  | None => (s, None)
  | Some op =>
      let '(q, op', ev) := op_step spurious (sys_queue s) op in
      (record_event ev (mkSystem q (<[i := op']> (sys_ops s)) (sys_pushed s) (sys_popped s)), ev)
  end.

(** The calls the program makes, a step at a time.  [TryPush(v)] begins with [BeginPush v] and
    goes on until it has answered; [TryPop] begins when the consumer is idle. *)
Inductive PushAnswer : Set := PushGoesOn | Accepted | Full.
Definition push_move {T} (i : nat) (spurious : bool) (s : System T) : System T * PushAnswer :=
  let '(s', ev) := thread_step i spurious s in
  (s', match ev with Some PushedOk => Accepted | Some (RefusedFull _) => Full | _ => PushGoesOn end).
Inductive PopAnswer : Set := PopGoesOn | Got | Empty.
Definition pop_move {T} (c : nat) (spurious : bool) (s : System T) : System T * PopAnswer :=
  match sys_ops s !! c with
  | Some Idle => (sys_step c BeginPop s, PopGoesOn)
  | _ =>
      let '(s', ev) := thread_step c spurious s in
      (s', match ev with Some (Popped _ _) => Got | Some RefusedEmpty => Empty | _ => PopGoesOn end)
  end.

Section Mailbox.
Context {T : Type} (k : Z) (Hk : 1 ≤ k ≤ 60) (c : nat).
Implicit Types (s : System T) (op : Op T).
Notation enq s := (enqueue_pos (sys_queue s)).
Notation deq s := (dequeue_pos (sys_queue s)).

Lemma thread_step_run i b s : (thread_step i b s).1 = sys_step i (Run b) s.
Proof. unfold thread_step, sys_step. destruct (sys_ops s !! i) as [op|]; [|done]. by destruct op; cbn [is_push]; destruct (op_step b (sys_queue s) _) as [[q op'] ev]. Qed.

Definition pushing op : Prop := op = Idle ∨ is_push op = true.
(** The consumer's operation: its positions are current, because nobody else pops; [n] pops
    have returned. *)
Definition popping (d n : Z) op : Prop :=
  match op with
  | Idle | PopStart => d = n
  | PopLoop pos | PopClaim pos => d = n ∧ pos = d
  | PopTake t | PopDestroy t _ | PopRelease t _ => d = n + 1 ∧ t = n
  | _ => False
  end.
Definition returned s : Z := zlen (sys_popped s).
Record mail_inv s : Prop := {
  ml_queue : mq_inv k s;
  ml_pushers i op : sys_ops s !! i = Some op → i ≠ c → pushing op;
  ml_consumer : ∃ op, sys_ops s !! c = Some op ∧ popping (deq s) (returned s) op;
  ml_order : (sys_popped s).*1 = seqZ 0 (returned s) }.

Definition taken s : list T := (sys_popped s).*2.
(** A push that holds a ticket. *)
Definition holds s (i : nat) (t : Z) : Prop := i ≠ c ∧ ∃ op, sys_ops s !! i = Some op ∧ ticket op = Some t.
Definition mid_push s (i : nat) : Prop := ∃ t, holds s i t.

(** What was popped is what was pushed first. *)
Lemma taken_prefix s : mail_inv s → taken s = ztake (returned s) (sys_pushed s).
Proof.
  intros [Hq _ _ Ho]. unfold taken. apply list_eq. intros n. destruct (decide (Z.of_nat n < returned s)) as [Hn|Hn].
  - assert (HL : (n < length (sys_popped s))%nat) by (unfold returned, zlen in Hn; lia). destruct (lookup_lt_is_Some_2 _ _ HL) as [[t v] E]. rewrite list_lookup_fmap, E. cbn [fmap option_fmap option_map snd].
    assert (Ht : t = Z.of_nat n). { pose proof (f_equal (.!! n) Ho) as H. cbn beta in H. rewrite list_lookup_fmap, E in H. cbn in H. symmetry in H. apply lookup_seqZ in H as [-> _]. lia. }
    destruct (mi_popped _ _ Hq t v) as (_ & _ & Hv); [by eapply list_elem_of_lookup_2|]. unfold ztake. rewrite lookup_take_lt by lia. rewrite <- Hv. f_equal. lia.
  - rewrite !lookup_ge_None_2; [done|unfold ztake; rewrite length_take; lia|rewrite length_fmap; unfold returned, zlen in Hn; lia].
Qed.
Lemma returned_le s : mail_inv s → returned s ≤ deq s ≤ returned s + 1 ∧ deq s ≤ enq s ∧ enq s = zlen (sys_pushed s).
Proof.
  intros [Hq _ (op & _ & Hp) _]. pose proof (mi_pos _ _ Hq). pose proof (mi_pushed _ _ Hq). split; [|lia]. destruct op; cbn in Hp; try done; lia.
Qed.

(** ** Steps *)

Lemma record_ops ev s : sys_ops (record_event ev s) = sys_ops s ∧ sys_queue (record_event ev s) = sys_queue s.
Proof. by destruct ev as [[]|]. Qed.
Lemma begin_push_ops s i v : sys_ops s !! i = Some Idle → sys_step i (BeginPush v) s = mkSystem (sys_queue s) (<[i := PushStart v]> (sys_ops s)) (sys_pushed s) (sys_popped s).
Proof. intros E. unfold sys_step. by rewrite E. Qed.
Lemma begin_push_inv s i v : mail_inv s → i ≠ c → enq s < 2 ^ 62 → mail_inv (sys_step i (BeginPush v) s).
Proof.
  intros [H1 H2 H3 H4] Hne He. pose proof (sys_step_inv k Hk s H1 i (BeginPush v) He) as Hi. unfold sys_step in *. destruct (sys_ops s !! i) as [op|] eqn:E; [|done]. destruct op; try done. constructor; cbn [sys_ops sys_queue sys_popped]; [done| | |done].
  - intros j op [(-> & <- & _)|[_ Hj]]%list_lookup_insert_Some Hj'; [by right|by eapply H2].
  - destruct H3 as (op & Ho & Hp). exists op. split; [|done]. by rewrite list_lookup_insert_ne.
Qed.
Lemma begin_pop_ops s i : sys_ops s !! i = Some Idle → sys_step i BeginPop s = mkSystem (sys_queue s) (<[i := PopStart]> (sys_ops s)) (sys_pushed s) (sys_popped s).
Proof. intros E. unfold sys_step. by rewrite E. Qed.
Lemma begin_pop_inv s : mail_inv s → sys_ops s !! c = Some Idle → enq s < 2 ^ 62 → mail_inv (sys_step c BeginPop s).
Proof.
  intros [H1 H2 H3 H4] Ho He. pose proof (sys_step_inv k Hk s H1 c BeginPop He) as Hi. rewrite (begin_pop_ops _ _ Ho) in *. constructor; cbn [sys_ops sys_queue sys_popped]; [done| | |done].
  - intros j op [(-> & <- & _)|[_ Hj]]%list_lookup_insert_Some Hj'; [done|by eapply H2].
  - destruct H3 as (op & Ho' & Hp). exists PopStart. rewrite list_lookup_insert_eq by (by eapply lookup_lt_Some). split; [done|]. rewrite Ho in Ho'. by injection Ho' as <-.
Qed.
Lemma push_step_shape op b s : pushing op → let '(q, op', ev) := op_step b (sys_queue s) op in
  pushing op' ∧ dequeue_pos q = deq s ∧ (∀ pos v, ev ≠ Some (Popped pos v)) ∧ ev ≠ Some RefusedEmpty ∧
  (op ≠ Idle → op' = Idle ↔ ev = Some PushedOk ∨ ∃ v, ev = Some (RefusedFull v)) ∧
  (∀ t, ticket op = Some t → ticket op' = Some t ∨ ev = Some PushedOk) ∧
  (∀ v, ev = Some (RefusedFull v) → ticket op = None) ∧
  ((∀ v, ev ≠ Some (Claimed v)) → ticket op = None → ticket op' = None) ∧ (∀ v, ev = Some (Claimed v) → ∃ t, ticket op' = Some t).
Proof.
  intros [->|Hp]; [cbn; split_and!; try done; by left|]. destruct op; try discriminate Hp; cbn [op_step is_push TryPush_step]; repeat (destruct (_ =? _) || destruct (_ <? _) || destruct (negb _ && _)); cbn; split_and!; try done; try (by right); try (by left); try (intros; naive_solver); intros _; split; naive_solver.
Qed.

Lemma thread_step_push s i b : mail_inv s → i ≠ c → enq s < 2 ^ 62 → let s' := (thread_step i b s).1 in
  mail_inv s' ∧ sys_popped s' = sys_popped s ∧ deq s' = deq s ∧ (∀ j, j ≠ i → sys_ops s' !! j = sys_ops s !! j) ∧ length (sys_ops s') = length (sys_ops s) ∧
  sys_pushed s' = sys_pushed s ++ match (thread_step i b s).2 with Some (Claimed v) => [v] | _ => [] end.
Proof.
  intros [H1 H2 H3 H4] Hne He. pose proof (sys_step_inv k Hk s H1 i (Run b) He) as Hi. rewrite <- thread_step_run in Hi. unfold thread_step in *. destruct (sys_ops s !! i) as [op|] eqn:E; [|cbn; by rewrite app_nil_r]. pose proof (push_step_shape op b s (H2 i op E Hne)) as HS.
  destruct (op_step b (sys_queue s) op) as [[q op'] ev]. cbn [fst snd] in *. destruct HS as (S1 & S2 & S3 & S4 & _). destruct (record_ops ev (mkSystem q (<[i := op']> (sys_ops s)) (sys_pushed s) (sys_popped s))) as [R1 R2]. cbn [sys_ops sys_queue] in R1, R2.
  assert (HP : sys_popped (record_event ev (mkSystem q (<[i := op']> (sys_ops s)) (sys_pushed s) (sys_popped s))) = sys_popped s) by (destruct ev as [[| | | |]|]; try done; by destruct (S3 pos v)).
  split; [|split; [done|]; split; [by rewrite R2|]; split; [intros j Hj; rewrite R1; by apply list_lookup_insert_ne|]; split; [rewrite R1; apply length_insert|destruct ev as [[| | | |]|]; cbn; by rewrite ?app_nil_r]].
  constructor; [done| | |unfold returned; by rewrite HP].
  - rewrite R1. intros j op2 [(-> & <- & _)|[_ Hj]]%list_lookup_insert_Some Hj'; [done|by eapply H2].
  - destruct H3 as (opc & Hc & Hp). exists opc. rewrite R1, R2, list_lookup_insert_ne by done. unfold returned. rewrite HP, S2. done.
Qed.

(** An empty answer. *)
Lemma refused_empty s pos b : mail_inv s → enq s < 2 ^ 62 → sys_ops s !! c = Some (PopLoop pos) → (op_step b (sys_queue s) (PopLoop pos)).2 = Some RefusedEmpty →
  deq s = enq s ∨ ∃ i, holds s i (deq s).
Proof.
  intros [Hq H2 (op & Ho & Hp) _] He Hc HE. rewrite Hc in Ho. injection Ho as <-. destruct Hp as [Hd ->]. pose proof (mi_pos _ _ Hq). pose proof (mi_room _ _ Hq). cbn [op_step is_push TryPop_step] in HE. rewrite (pop_diff k Hk s Hq) in HE by lia.
  destruct (decide (deq s = enq s)) as [|Hne]; [by left|right]. destruct (decide (owned s (deq s))) as [(i & op & Hi & Ht)%owned_iff|Hno].
  - exists i. split; [intros ->; rewrite Hc in Hi; by injection Hi as <-|by eexists].
  - exfalso. destruct (mi_settled _ _ Hq (deq s)) as [(? & _)|(_ & v & E & _)]; [unfold window; lia|done|lia|]. rewrite E in HE. cbn [sequence] in HE. rewrite Z.sub_diag in HE. done.
Qed.
Lemma thread_step_pop s op b : mail_inv s → enq s < 2 ^ 62 → sys_ops s !! c = Some op → op ≠ Idle → let '(s', ev) := thread_step c b s in
  mail_inv s' ∧ sys_pushed s' = sys_pushed s ∧ enq s' = enq s ∧ (∀ j, j ≠ c → sys_ops s' !! j = sys_ops s !! j) ∧ length (sys_ops s') = length (sys_ops s) ∧
  match ev with
  | Some (Popped _ v) => sys_ops s' !! c = Some Idle ∧ sys_popped s' = sys_popped s ++ [(returned s, v)] ∧ deq s' = returned s'
  | Some RefusedEmpty => sys_ops s' !! c = Some Idle ∧ sys_popped s' = sys_popped s ∧ deq s' = returned s ∧ (deq s' = enq s' ∨ ∃ i, holds s' i (deq s'))
  | None => (∃ op', sys_ops s' !! c = Some op' ∧ op' ≠ Idle) ∧ sys_popped s' = sys_popped s
  | _ => False
  end.
Proof.
  intros Hm He Ho Hne. pose proof Hm as [H1 H2 (op0 & Ho' & Hp) H4]. rewrite Ho in Ho'. injection Ho' as <-. pose proof (sys_step_inv k Hk s H1 c (Run b) He) as Hi. rewrite <- thread_step_run in Hi. pose proof (mi_pos _ _ H1). pose proof (mi_ops _ _ H1 _ _ Ho) as Hok.
  assert (HL : (c < length (sys_ops s))%nat) by by eapply lookup_lt_Some. pose proof (refused_empty s) as HR. unfold thread_step in *. rewrite Ho in *.
  assert (HB : ∀ q op' ev, op_step b (sys_queue s) op = (q, op', ev) → (∀ v, ev ≠ Some (Claimed v)) → let s' := record_event ev (mkSystem q (<[c := op']> (sys_ops s)) (sys_pushed s) (sys_popped s)) in
    enqueue_pos q = enq s → popping (dequeue_pos q) (returned s') op' → (sys_popped s').*1 = seqZ 0 (returned s') → mail_inv s' ∧ sys_pushed s' = sys_pushed s ∧ enq s' = enq s ∧ (∀ j, j ≠ c → sys_ops s' !! j = sys_ops s !! j) ∧ length (sys_ops s') = length (sys_ops s)).
  { intros q op' ev E HC s' Hq' HP HQ. destruct (record_ops ev (mkSystem q (<[c := op']> (sys_ops s)) (sys_pushed s) (sys_popped s))) as [R1 R2]. fold s' in R1, R2. cbn [sys_ops sys_queue] in R1, R2. rewrite E in Hi. cbn [fst] in Hi. fold s' in Hi.
    split; [|split; [destruct ev as [[| | | |]|]; try done; by destruct (HC v)|]; split; [by rewrite R2|]; split; [intros j Hj; rewrite R1; by apply list_lookup_insert_ne|rewrite R1; apply length_insert]].
    constructor; [done| |exists op'; rewrite R1, R2, list_lookup_insert_eq by done; done|done]. rewrite R1. intros j op2 [(-> & <- & _)|[_ Hj]]%list_lookup_insert_Some Hj'; [done|by eapply H2]. }
  destruct op as [|v|v pos|v pos|v pos|pos| |pos|pos|pos|pos v|pos v]; try done; cbn [op_step is_push TryPop_step] in *.
  - destruct (HB _ _ _ eq_refl) as (B1 & B2 & B3 & B4 & B5); try done. split_and!; try done. eexists. split; [by apply list_lookup_insert_eq|done].
  - destruct Hp as [Hd Hpos]. destruct (_ - _ =? 0) eqn:E0; [|destruct (_ <? 0) eqn:E1].
    + destruct (HB _ _ _ eq_refl) as (B1 & B2 & B3 & B4 & B5); try done. split_and!; try done. eexists. split; [by apply list_lookup_insert_eq|done].
    + destruct (HB _ _ _ eq_refl) as (B1 & B2 & B3 & B4 & B5); try done. split_and!; try done; [by apply list_lookup_insert_eq|]. destruct (HR pos b Hm He eq_refl) as [HX|(i & Hi1 & op2 & Hi2 & Hi3)]; [by rewrite E0, E1|by left|]. right. exists i. split; [done|]. exists op2. split; [cbn; by rewrite list_lookup_insert_ne|done].
    + destruct (HB _ _ _ eq_refl) as (B1 & B2 & B3 & B4 & B5); try done. split_and!; try done. eexists. split; [by apply list_lookup_insert_eq|done].
  - destruct Hp as [Hd ->]. destruct (negb b && _) eqn:E.
    + rewrite uwrap_small in * by (unfold unsigned; lia). destruct (HB _ _ _ eq_refl) as (B1 & B2 & B3 & B4 & B5); try done; [cbn; unfold returned in *; cbn; lia|]. split_and!; try done. eexists. split; [by apply list_lookup_insert_eq|done].
    + destruct (HB _ _ _ eq_refl) as (B1 & B2 & B3 & B4 & B5); try done. split_and!; try done. eexists. split; [by apply list_lookup_insert_eq|done].
  - destruct Hok as (_ & _ & _ & v & Hcell & _). rewrite Hcell in *. cbn [storage] in *. destruct (HB _ _ _ eq_refl) as (B1 & B2 & B3 & B4 & B5); try done. split_and!; try done. eexists. split; [by apply list_lookup_insert_eq|done].
  - destruct (HB _ _ _ eq_refl) as (B1 & B2 & B3 & B4 & B5); try done. split_and!; try done. eexists. split; [by apply list_lookup_insert_eq|done].
  - destruct Hp as [Hd ->]. assert (HZ : zlen (sys_popped s ++ [(returned s, v)]) = returned s + 1) by (rewrite zlen_app; done).
    destruct (HB _ _ _ eq_refl) as (B1 & B2 & B3 & B4 & B5); try done.
    + cbn [popping]. unfold returned in *. cbn [record_event sys_popped]. rewrite HZ. done.
    + unfold returned in *. cbn [record_event sys_popped]. rewrite HZ, fmap_app, H4. cbn. by rewrite seqZ_app, Z.add_0_l by (pose proof (zlen_nonneg (sys_popped s)); lia).
    + split_and!; try done; [by apply list_lookup_insert_eq|]. unfold returned in *. cbn [record_event sys_popped sys_queue]. rewrite HZ. done.
Qed.
Lemma started_mail n q : q = new_queue (2 ^ k) → (c < n)%nat → mail_inv (started q n).
Proof.
  intros -> Hc. constructor; [exact (init_inv k Hk n)| |exists Idle; split; [by apply lookup_replicate|done]|done]. intros i op [-> _]%lookup_replicate _. by left.
Qed.

(** ** A consumer that is left alone *)

(** Nobody else holds a ticket and something is queued: the consumer is not told otherwise. *)
Lemma pop_not_refused s op : mail_inv s → enq s < 2 ^ 62 → sys_ops s !! c = Some op → op ≠ Idle → returned s < enq s → (∀ i, ¬ mid_push s i) → ∀ b, (thread_step c b s).2 ≠ Some RefusedEmpty.
Proof.
  intros Hm He Ho Hne Hlt Hq b HE. pose proof (thread_step_pop s op b Hm He Ho Hne) as HS. destruct (thread_step c b s) as [s' ev]. cbn [snd] in HE. subst ev. destruct HS as (H1 & H2 & H3 & H4 & H5 & _ & _ & H6 & [H7|(i & Hi & op2 & H7 & H8)]); [lia|].
  apply (Hq i). eexists. split; [done|]. exists op2. by rewrite <- H4.
Qed.
Lemma op_rank_down s op : mail_inv s → enq s < 2 ^ 62 → sys_ops s !! c = Some op → op ≠ Idle → let s' := (thread_step c false s).1 in
  ∃ op', sys_ops s' !! c = Some op' ∧ (rank (sys_queue s') op' < rank (sys_queue s) op)%nat.
Proof.
  intros Hm He Ho Hne. pose proof (op_step_rank k Hk s op (ml_queue _ Hm) He (mi_ops _ _ (ml_queue _ Hm) _ _ Ho) Hne) as HR. unfold thread_step. rewrite Ho. destruct (op_step false (sys_queue s) op) as [[q op'] ev]. cbn [fst snd] in *. destruct (record_ops ev (mkSystem q (<[c := op']> (sys_ops s)) (sys_pushed s) (sys_popped s))) as [-> ->].
  exists op'. split; [|done]. cbn. apply list_lookup_insert_eq. by eapply lookup_lt_Some.
Qed.
Definition pop_rank s : nat := match sys_ops s !! c with Some Idle => 8 | Some op => rank (sys_queue s) op | None => 0 end.
Lemma pop_rank_le s : (pop_rank s ≤ 8)%nat.
Proof. unfold pop_rank. destruct (sys_ops s !! c) as [op|]; [|lia]. destruct op; cbn; try lia; destruct (_ =? _); lia. Qed.

(** ** The calls *)

Lemma idle_or op : op = Idle ∨ op ≠ Idle.
Proof. destruct op; (by left) || by right. Qed.
Lemma pop_move_spec s b : mail_inv s → enq s < 2 ^ 62 → let '(s', a) := pop_move c b s in
  mail_inv s' ∧ sys_pushed s' = sys_pushed s ∧ enq s' = enq s ∧ (∀ j, j ≠ c → sys_ops s' !! j = sys_ops s !! j) ∧ length (sys_ops s') = length (sys_ops s) ∧
  match a with
  | PopGoesOn => returned s' = returned s
  | Got => sys_ops s' !! c = Some Idle ∧ returned s' = returned s + 1
  | Empty => sys_ops s' !! c = Some Idle ∧ returned s' = returned s ∧ (returned s' = enq s' ∨ ∃ i, holds s' i (returned s'))
  end.
Proof.
  intros Hm He. pose proof Hm as [_ _ (op & Ho & _) _]. unfold pop_move. rewrite Ho. destruct (idle_or op) as [->|Hne].
  - split; [by apply begin_pop_inv|]. rewrite (begin_pop_ops _ _ Ho). cbn [sys_pushed sys_queue sys_ops returned sys_popped]. split_and!; try done; [intros j Hj; by apply list_lookup_insert_ne|apply length_insert].
  - pose proof (thread_step_pop s op b Hm He Ho Hne) as HS. destruct (thread_step c b s) as [s' ev].
    enough (HE : let a := match ev with Some (Popped _ _) => Got | Some RefusedEmpty => Empty | _ => PopGoesOn end in mail_inv s' ∧ sys_pushed s' = sys_pushed s ∧ enq s' = enq s ∧ (∀ j, j ≠ c → sys_ops s' !! j = sys_ops s !! j) ∧ length (sys_ops s') = length (sys_ops s) ∧
      match a with PopGoesOn => returned s' = returned s | Got => sys_ops s' !! c = Some Idle ∧ returned s' = returned s + 1 | Empty => sys_ops s' !! c = Some Idle ∧ returned s' = returned s ∧ (returned s' = enq s' ∨ ∃ i, holds s' i (returned s')) end) by (destruct op; done).
    cbv zeta. destruct HS as (H1 & H2 & H3 & H4 & H5 & H6). split_and!; try done. destruct ev as [[v|pos v| |v|]|]; try done; unfold returned in *.
    + destruct H6 as (H6 & H7 & _). split; [done|]. by rewrite H7, zlen_app.
    + destruct H6 as (H6 & H7 & H8 & H9). rewrite H7. split; [done|]. split; [done|]. by rewrite H8 in H9.
    + destruct H6 as (_ & ->). done.
Qed.
(** Nobody else holds a ticket and something is queued: the pop is getting there. *)
Lemma pop_move_alone s : mail_inv s → enq s < 2 ^ 62 → returned s < enq s → (∀ i, ¬ mid_push s i) → let '(s', a) := pop_move c false s in
  a = Got ∨ a = PopGoesOn ∧ (pop_rank s' < pop_rank s)%nat.
Proof.
  intros Hm He Hlt Hno. pose proof Hm as [_ _ (op & Ho & _) _]. unfold pop_move. rewrite Ho. destruct (idle_or op) as [->|Hne].
  - right. split; [done|]. rewrite (begin_pop_ops _ _ Ho). unfold pop_rank. cbn [sys_ops sys_queue]. rewrite Ho, list_lookup_insert_eq by (by eapply lookup_lt_Some). cbn. lia.
  - pose proof (pop_not_refused s op Hm He Ho Hne Hlt Hno false) as HR. pose proof (op_rank_down s op Hm He Ho Hne) as HD. pose proof (thread_step_pop s op false Hm He Ho Hne) as HS. destruct (thread_step c false s) as [s' ev]. cbn [fst snd] in *.
    enough (HE : match ev with Some (Popped _ _) => Got | Some RefusedEmpty => Empty | _ => PopGoesOn end = Got ∨ match ev with Some (Popped _ _) => Got | Some RefusedEmpty => Empty | _ => PopGoesOn end = PopGoesOn ∧ (pop_rank s' < pop_rank s)%nat) by (destruct op; done).
    destruct ev as [[v|pos v| |v|]|]; [by destruct HS as (_ & _ & _ & _ & _ & [])|by left|by destruct HS as (_ & _ & _ & _ & _ & [])|by destruct HS as (_ & _ & _ & _ & _ & [])|by destruct HR|]. destruct HS as (_ & _ & _ & _ & _ & (op1 & Ho1 & Hne1) & _). destruct HD as (op' & Ho' & HD). rewrite Ho1 in Ho'. injection Ho' as <-. right. split; [done|]. unfold pop_rank. rewrite Ho, Ho1. destruct op, op1; done.
Qed.
Lemma push_move_spec s i b op : mail_inv s → i ≠ c → enq s < 2 ^ 62 → sys_ops s !! i = Some op → is_push op = true → let '(s', a) := push_move i b s in
  mail_inv s' ∧ returned s' = returned s ∧ enq s ≤ enq s' ∧ sys_pushed s `prefix_of` sys_pushed s' ∧ (∀ j, j ≠ i → sys_ops s' !! j = sys_ops s !! j) ∧ length (sys_ops s') = length (sys_ops s) ∧
  (enq s < enq s' → mid_push s' i) ∧ (mid_push s i → mid_push s' i ∨ a = Accepted) ∧
  match a with
  | PushGoesOn => ∃ op', sys_ops s' !! i = Some op' ∧ is_push op' = true
  | Accepted | Full => sys_ops s' !! i = Some Idle
  end.
Proof.
  intros Hm Hne He Ho Hp. pose proof (thread_step_push s i b Hm Hne He) as HS. unfold push_move. destruct HS as (H1 & H2 & H3 & H4 & H5 & H6). pose proof (push_step_shape op b s (or_intror Hp)) as HP.
  assert (HL : (i < length (sys_ops s))%nat) by by eapply lookup_lt_Some. pose proof (returned_le _ Hm) as (_ & _ & HE). pose proof (returned_le _ H1) as (_ & _ & HE').
  unfold thread_step in *. rewrite Ho in *. destruct (op_step b (sys_queue s) op) as [[q op'] ev]. cbn [fst snd] in *. set (s' := record_event ev _) in *.
  assert (HO : sys_ops s' !! i = Some op') by (unfold s'; rewrite (proj1 (record_ops ev _)); cbn; by apply list_lookup_insert_eq).
  destruct HP as (P1 & P2 & P3 & P4 & P5 & P6 & P7 & P8 & P9). assert (Hidle : op ≠ Idle) by (by intros ->).
  split; [done|]. split; [unfold returned; by rewrite H2|]. split; [rewrite HE, HE', H6, zlen_app; match goal with |- _ ≤ _ + zlen ?l => pose proof (zlen_nonneg l) end; lia|]. split; [rewrite H6; by eexists|]. split; [done|]. split; [done|]. split.
  - intros HlT. rewrite HE, HE', H6, zlen_app in HlT. destruct ev as [[v|pos v| |v|]|]; try (change (zlen (@nil T)) with 0 in HlT; lia). destruct (P9 v eq_refl) as [t Ht]. exists t. split; [done|]. by exists op'.
  - split.
    + intros (t & _ & op1 & Ho1 & Ht). rewrite Ho in Ho1. injection Ho1 as <-. destruct (P6 t Ht) as [HT|HT]; [left; exists t; split; [done|]; by exists op'|]. right. by rewrite HT.
    + destruct P1 as [->|Hp']; [destruct (proj1 (P5 Hidle) eq_refl) as [->|(v & ->)]; done|]. destruct ev as [[v|pos v| |v|]|]; try (by exists op'); exfalso; [assert (HI : op' = Idle) by (apply (P5 Hidle); by left)|assert (HI : op' = Idle) by (apply (P5 Hidle); right; by exists v)]; by rewrite HI in Hp'.
Qed.
Lemma begin_push_spec s i v : mail_inv s → i ≠ c → enq s < 2 ^ 62 → sys_ops s !! i = Some Idle → let s' := sys_step i (BeginPush v) s in
  mail_inv s' ∧ sys_popped s' = sys_popped s ∧ sys_queue s' = sys_queue s ∧ sys_pushed s' = sys_pushed s ∧ (∀ j, j ≠ i → sys_ops s' !! j = sys_ops s !! j) ∧ length (sys_ops s') = length (sys_ops s) ∧
  sys_ops s' !! i = Some (PushStart v).
Proof.
  intros Hm Hne He Ho. cbv zeta. split; [by apply begin_push_inv|]. rewrite (begin_push_ops _ _ _ Ho). cbn [sys_pushed sys_queue sys_ops sys_popped]. split_and!; try done; [intros j Hj; by apply list_lookup_insert_ne|apply length_insert|apply list_lookup_insert_eq; by eapply lookup_lt_Some].
Qed.
(** A thread that is not pushing holds no ticket. *)
Lemma mid_push_other s s' i j : (∀ j, j ≠ i → sys_ops s' !! j = sys_ops s !! j) → j ≠ i → mid_push s j → mid_push s' j.
Proof. intros H Hj (t & H1 & op & H2 & H3). exists t. split; [done|]. exists op. by rewrite H. Qed.

(** A ticket somebody holds after a step of a push was held before, or is a new one. *)
Lemma push_move_tickets s i b : mail_inv s → i ≠ c → enq s < 2 ^ 62 → ∀ j t, holds (push_move i b s).1 j t → holds s j t ∨ enq s ≤ t.
Proof.
  intros Hm Hne He j t (H1 & op' & H2 & H3). unfold push_move, thread_step in H2. destruct (sys_ops s !! i) as [op|] eqn:Ho; [|left; split; [done|]; by exists op']. pose proof (ml_pushers _ Hm i op Ho Hne) as Hp. pose proof (mi_ops _ _ (ml_queue _ Hm) _ _ Ho) as Hok.
  destruct (op_step b (sys_queue s) op) as [[q op1] ev] eqn:E. cbn [fst] in H2. rewrite (proj1 (record_ops _ _)) in H2. cbn in H2. apply list_lookup_insert_Some in H2 as [(-> & -> & _)|[_ H2]]; [|left; split; [done|]; by exists op'].
  destruct Hp as [->|Hp]; [cbn in E; injection E as <- <- <-; done|]. destruct op as [|v|v pos|v pos|v pos|pos| | | | | | ]; try discriminate Hp; cbn [op_step is_push TryPush_step] in E.
  - by injection E as <- <- <-.
  - destruct (_ =? 0); [|destruct (_ <? 0)]; by injection E as <- <- <-.
  - destruct (negb b && _) eqn:EB; [|by injection E as <- <- <-]. injection E as <- <- <-. injection H3 as <-. right. apply andb_prop in EB as [_ EB%Z.eqb_eq]. lia.
  - injection E as <- <- <-. injection H3 as <-. left. split; [done|]. by eexists.
  - by injection E as <- <- <-.
Qed.

(** ** The value of a push *)

(** The push [op] is about to take a ticket for [v], or has done so. *)
Definition carries op (v : T) s : Prop :=
  match op with
  | PushStart v' | PushLoop v' _ | PushClaim v' _ => v' = v
  | PushWrite _ _ | PushPublish _ => v ∈ sys_pushed s
  | _ => False
  end.
Lemma carries_grows op v s s' : sys_pushed s `prefix_of` sys_pushed s' → carries op v s → carries op v s'.
Proof. intros [l Hl]. destruct op; cbn; try done; rewrite Hl; intros; apply elem_of_app; by left. Qed.
Lemma thread_step_others i b s j : j ≠ i → sys_ops (thread_step i b s).1 !! j = sys_ops s !! j.
Proof. intros Hj. unfold thread_step. destruct (sys_ops s !! i) as [op|]; [|done]. destruct (op_step b (sys_queue s) op) as [[q op'] ev]. cbn [fst]. rewrite (proj1 (record_ops _ _)). cbn. by apply list_lookup_insert_ne. Qed.
Lemma sys_step_others i a s j : j ≠ i → sys_ops (sys_step i a s) !! j = sys_ops s !! j.
Proof.
  intros Hj. destruct a as [v| |b]; [| |rewrite <- thread_step_run; by apply thread_step_others]; unfold sys_step; destruct (sys_ops s !! i) as [[]|]; try done; cbn; by apply list_lookup_insert_ne.
Qed.
Lemma thread_step_pushed i b s : sys_pushed s `prefix_of` sys_pushed (thread_step i b s).1.
Proof. rewrite thread_step_run. apply pushed_grows. Qed.
Lemma push_move_carries s i b op v : sys_ops s !! i = Some op → carries op v s → let '(s', a) := push_move i b s in
  match a with PushGoesOn => ∃ op', sys_ops s' !! i = Some op' ∧ carries op' v s' | Accepted => v ∈ sys_pushed s' | Full => True end.
Proof.
  intros Ho Hc. assert (HL : (i < length (sys_ops s))%nat) by by eapply lookup_lt_Some. unfold push_move, thread_step. rewrite Ho.
  destruct op; try done; cbn [op_step is_push TryPush_step carries] in *; subst; repeat (destruct (_ =? _) || destruct (_ <? _) || destruct (negb _ && _)); cbn [record_event sys_ops sys_pushed]; try done;
    (eexists; split; [by apply list_lookup_insert_eq|]; cbn; try done; apply elem_of_app; right; by apply list_elem_of_singleton).
Qed.
End Mailbox.
