(* ===== verification/SpscRing.v ===== *)
(** * SpscRing: the single-producer / single-consumer ring

    Models include/pulselog/concurrency/spsc_ring.h at the granularity of its shared
    accesses, with one producer and one consumer interleaving freely, and proves that
    what they observe is a bounded first-in first-out queue, step by step. *)
From S2P Require Import Prelude MpmcQueue.

Section Ring.
Context {T : Type}.

Record SpscRing := mkRing {
  sr_mask : Z; sr_slots : list (option T);
  write_index : Z; cached_read_index : Z; read_index : Z; cached_write_index : Z }.
Implicit Types (q : SpscRing) (v : T).

(** The constructor on the rounded capacity. *)
Definition new_ring (size : Z) : SpscRing := mkRing (u64 (size - 1)) (replicate (Z.to_nat size) None) 0 0 0 0.
Definition newSpsc (capacity : Z) : option SpscRing := new_ring <$> RoundUpPow2 (u64 (capacity + 1)).
Definition Spsc_Capacity q : Z := sr_mask q.
(** On the indices the two loads saw. *)
Definition Spsc_SizeApprox q (write read : Z) : Z := Z.land (u64 (write - read)) (sr_mask q).
Definition EmptyApprox (write read : Z) : bool := write =? read.

Definition ring_next q (i : Z) : Z := Z.land (u64 (i + 1)) (sr_mask q).
Definition slot_of q (i : Z) : option T := default None (sr_slots q !! Z.to_nat i).
Definition set_slot (i : Z) (x : option T) q : SpscRing :=
  mkRing (sr_mask q) (<[Z.to_nat i := x]> (sr_slots q)) (write_index q) (cached_read_index q) (read_index q) (cached_write_index q).
Definition set_write (i : Z) q : SpscRing := mkRing (sr_mask q) (sr_slots q) i (cached_read_index q) (read_index q) (cached_write_index q).
Definition set_read (i : Z) q : SpscRing := mkRing (sr_mask q) (sr_slots q) (write_index q) (cached_read_index q) i (cached_write_index q).
Definition cache_read (i : Z) q : SpscRing := mkRing (sr_mask q) (sr_slots q) (write_index q) i (read_index q) (cached_write_index q).
Definition cache_write (i : Z) q : SpscRing := mkRing (sr_mask q) (sr_slots q) (write_index q) (cached_read_index q) (read_index q) i.

(** Where the producer and the consumer stand. *)
Inductive Producer :=
  | PIdle
  | PStart (v : T)               (* load write_index_, compare with the cached position *)
  | PRefresh (v : T) (write next : Z) (* load read_index_, compare again *)
  | PWrite (v : T) (write next : Z)   (* Construct *)
  | PPublish (v : T) (next : Z).      (* store write_index_ *)
Inductive Consumer :=
  | CIdle
  | CStart
  | CRefresh (read : Z)
  | CTake (read : Z)             (* move the payload out *)
  | CDestroy (read : Z) (v : T)
  | CRelease (read : Z) (v : T). (* store read_index_ *)
Inductive RingEvent := REPush (v : T) | REPop (v : T) | REFull | REEmpty.

Definition Spsc_TryPush q (p : Producer) : SpscRing * Producer * list RingEvent :=
  match p with
  | PIdle => (q, PIdle, [])
  | PStart v =>
      let write := write_index q in
      let next := ring_next q write in
      if next =? cached_read_index q then (q, PRefresh v write next, []) else (q, PWrite v write next, [])
  | PRefresh v write next =>
      let q := cache_read (read_index q) q in
      if next =? cached_read_index q then (q, PIdle, [REFull]) else (q, PWrite v write next, [])
  | PWrite v write next => (set_slot write (Some v) q, PPublish v next, [])
  | PPublish v next => (set_write next q, PIdle, [REPush v])
  end.
Definition Spsc_TryPop q (c : Consumer) : SpscRing * Consumer * list RingEvent :=
  match c with
  | CIdle => (q, CIdle, [])
  | CStart =>
      let read := read_index q in
      if read =? cached_write_index q then (q, CRefresh read, []) else (q, CTake read, [])
  | CRefresh read =>
      let q := cache_write (write_index q) q in
      if read =? cached_write_index q then (q, CIdle, [REEmpty]) else (q, CTake read, [])
  | CTake read => match slot_of q read with Some v => (q, CDestroy read v, []) | None => (q, c, []) end
  | CDestroy read v => (set_slot read None q, CRelease read v, [])
  | CRelease read v => (set_read (ring_next q read) q, CIdle, [REPop v])
  end.

(** The ring with its two users and the history of what they saw. *)
Record RingSystem := mkRingSystem { rg_ring : SpscRing; rg_producer : Producer; rg_consumer : Consumer; rg_trace : list RingEvent }.
Inductive RingAction := RPush (v : T) | RPop | RProducer | RConsumer.
Definition ring_step (a : RingAction) (s : RingSystem) : RingSystem :=
  let '(mkRingSystem q p c h) := s in
  match a with
  | RPush v => mkRingSystem q (match p with PIdle => PStart v | _ => p end) c h
  | RPop => mkRingSystem q p (match c with CIdle => CStart | _ => c end) h
  | RProducer => let '(q, p, ev) := Spsc_TryPush q p in mkRingSystem q p c (h ++ ev)
  | RConsumer => let '(q, c, ev) := Spsc_TryPop q c in mkRingSystem q p c (h ++ ev)
  end.
Definition ring_run (sched : list RingAction) (s : RingSystem) : RingSystem := fold_left (λ s a, ring_step a s) sched s.
Definition ring_init q : RingSystem := mkRingSystem q PIdle CIdle [].

(** ** The specification: a bounded queue, as a recogniser of histories *)
Definition spec_event (capacity : Z) (ev : RingEvent) (items items' : list T) : Prop :=
  match ev with
  | REPush v => zlen items < capacity ∧ items' = items ++ [v]
  | REPop v => items = v :: items'
  | REFull => zlen items = capacity ∧ items' = items
  | REEmpty => items = [] ∧ items' = []
  end.
Inductive spec_run (capacity : Z) : list RingEvent → list T → Prop :=
  | spec_start : spec_run capacity [] []
  | spec_next h ev items items' : spec_run capacity h items → spec_event capacity ev items items' → spec_run capacity (h ++ [ev]) items'.
End Ring.
Arguments SpscRing : clear implicits.
Arguments Producer : clear implicits.
Arguments Consumer : clear implicits.
Arguments RingEvent : clear implicits.
Arguments RingSystem : clear implicits.
Arguments RingAction : clear implicits.

Section Refinement.
Context {T : Type} (k : Z) (Hk : 0 ≤ k ≤ 62).
Implicit Types (q : SpscRing T) (s : RingSystem T) (v : T).
Notation cap := (2 ^ k).

Lemma ring_cap : 1 ≤ cap ≤ 2 ^ 62.
Proof. split; [apply (Z.pow_le_mono_r 2 0 k)|apply Z.pow_le_mono_r]; lia. Qed.

(** The counters [w] and [r] of items written and read so far, of which the ring keeps the
    remainders; [cr] and [cw] are those behind the cached positions. *)
Definition expects_push (p : Producer T) (w cr : Z) : Prop :=
  match p with
  | PRefresh _ wr nx => wr = w mod cap ∧ nx = (w + 1) mod cap
  | PWrite _ wr nx => wr = w mod cap ∧ nx = (w + 1) mod cap ∧ w < cr + cap - 1
  | PPublish _ nx => nx = (w + 1) mod cap ∧ w < cr + cap - 1
  | _ => True
  end.
Definition expects_pop (c : Consumer T) (r cw : Z) (items : list T) : Prop :=
  match c with
  | CRefresh rd => rd = r mod cap
  | CTake rd => rd = r mod cap ∧ r < cw
  | CDestroy rd v | CRelease rd v => rd = r mod cap ∧ r < cw ∧ items !! 0%nat = Some v
  | _ => True
  end.
(** The slot of the [t]-th item. *)
Definition slot_content s (w r : Z) (items : list T) (t : Z) : option T :=
  if t <? w then
    match rg_consumer s with
    | CRelease _ _ => if t =? r then None else items !! Z.to_nat (t - r)
    | _ => items !! Z.to_nat (t - r)
    end
  else match rg_producer s with PPublish v _ => if t =? w then Some v else None | _ => None end.

Record ring_inv s (w r cr cw : Z) (items : list T) : Prop := {
  ri_mask : sr_mask (rg_ring s) = cap - 1;
  ri_slots : zlen (sr_slots (rg_ring s)) = cap;
  ri_write : write_index (rg_ring s) = w mod cap;
  ri_read : read_index (rg_ring s) = r mod cap;
  ri_cached_read : cached_read_index (rg_ring s) = cr mod cap;
  ri_cached_write : cached_write_index (rg_ring s) = cw mod cap;
  ri_order : 0 ≤ cr ≤ r ∧ r ≤ cw ≤ w ∧ w ≤ cr + cap - 1;
  ri_items : zlen items = w - r;
  ri_producer : expects_push (rg_producer s) w cr;
  ri_consumer : expects_pop (rg_consumer s) r cw items;
  ri_content t : r ≤ t < r + cap → slot_of (rg_ring s) (t mod cap) = slot_content s w r items t;
  ri_trace : spec_run (cap - 1) (rg_trace s) items }.

Lemma next_mod q t : sr_mask q = cap - 1 → ring_next q (t mod cap) = (t + 1) mod cap.
Proof.
  intros Hm. pose proof ring_cap. pose proof (Z.mod_pos_bound t cap ltac:(lia)). unfold ring_next. rewrite uwrap_small by (unfold unsigned; lia).
  rewrite Hm. replace (cap - 1) with (Z.ones k) by (rewrite Z.ones_equiv; lia). rewrite Z.land_ones by lia. by rewrite Zplus_mod_idemp_l.
Qed.
(** Remainders of counters less than a lap apart. *)
Lemma mod_eqb a b : 0 ≤ a - b < cap → (a mod cap =? b mod cap) = (a =? b).
Proof.
  intros Hd. pose proof ring_cap. destruct (Z.eqb_spec a b) as [->|Hne]; [apply Z.eqb_refl|]. apply Z.eqb_neq. intros E. apply Hne.
  pose proof (Z.div_mod a cap ltac:(lia)). pose proof (Z.div_mod b cap ltac:(lia)). assert (a / cap = b / cap) by nia. nia.
Qed.
Lemma lap_eqb a b : 1 ≤ a - b ≤ cap → (a mod cap =? b mod cap) = (a =? b + cap).
Proof.
  intros Hd. pose proof ring_cap. rewrite <- (Z.mod_add a (-1)) by lia. destruct (Z.eqb_spec a (b + cap)) as [->|Hne].
  - replace (b + cap + -1 * cap) with b by lia. apply Z.eqb_refl.
  - rewrite Z.mod_add by lia. rewrite mod_eqb by lia. apply Z.eqb_neq. lia.
Qed.
Lemma slot_set_same q t x : zlen (sr_slots q) = cap → slot_of (set_slot (t mod cap) x q) (t mod cap) = x.
Proof.
  intros Hl. pose proof ring_cap. unfold slot_of. cbn. rewrite list_lookup_insert_eq; [done|]. pose proof (Z.mod_pos_bound t cap ltac:(lia)). unfold zlen in Hl. lia.
Qed.
Lemma slot_set_other q r t u x : r ≤ t < r + cap → r ≤ u < r + cap → t ≠ u → slot_of (set_slot (t mod cap) x q) (u mod cap) = slot_of q (u mod cap).
Proof.
  intros Ht Hu Hne. pose proof ring_cap. unfold slot_of. cbn. rewrite list_lookup_insert_ne; [done|].
  pose proof (Z.mod_pos_bound t cap ltac:(lia)). pose proof (Z.mod_pos_bound u cap ltac:(lia)). intros E.
  assert (E' : t mod cap = u mod cap) by lia. apply Hne. destruct (Z.le_gt_cases u t).
  - apply Z.eqb_eq. rewrite <- (mod_eqb t u) by lia. by apply Z.eqb_eq.
  - symmetry. apply Z.eqb_eq. rewrite <- (mod_eqb u t) by lia. by apply Z.eqb_eq.
Qed.

Lemma expects_pop_app c r cw items v : expects_pop c r cw items → expects_pop c r cw (items ++ [v]).
Proof.
  destruct c as [| |rd|rd|rd x|rd x]; cbn; try done; intros (H1 & H2 & H3); (split; [done|]); (split; [done|]); by apply lookup_app_l_Some.
Qed.

Lemma producer_step s w r cr cw items : ring_inv s w r cr cw items → ∃ w' cr' items', ring_inv (ring_step RProducer s) w' r cr' cw items'.
Proof.
  intros Hi. pose proof ring_cap as Hc. destruct s as [q p c h]. destruct Hi as [H1 H2 H3 H4 H5 H6 H7 H8 H9 H10 H11 H12]. cbn in *.
  destruct p as [|v|v wr nx|v wr nx|v nx]; cbn [Spsc_TryPush].
  - exists w, cr, items. rewrite app_nil_r. by constructor.
  - rewrite H3, (next_mod q w H1), H5. destruct (_ =? cr mod cap) eqn:E; exists w, cr, items; rewrite app_nil_r; constructor; try done.
    cbn. rewrite lap_eqb in E by lia. apply Z.eqb_neq in E. split_and!; try done. lia.
  - destruct H9 as [-> ->]. cbn [cache_read cached_read_index]. rewrite H4. destruct (_ =? r mod cap) eqn:E; rewrite lap_eqb in E by lia.
    + apply Z.eqb_eq in E. exists w, r, items. constructor; try done; cbn; [lia|]. apply spec_next with items; [done|]. cbn. split; [lia|done].
    + apply Z.eqb_neq in E. exists w, r, items. rewrite app_nil_r. constructor; try done; cbn; [lia|]. split_and!; try done. lia.
  - destruct H9 as (-> & -> & Hlt). exists w, cr, items. rewrite app_nil_r. constructor; try done; cbn.
    + unfold zlen. rewrite length_insert. exact H2.
    + intros t Ht. destruct (Z.eq_dec t w) as [->|Hne].
      * rewrite slot_set_same by done. unfold slot_content. cbn. by rewrite Z.ltb_irrefl, Z.eqb_refl.
      * rewrite (slot_set_other q r) by lia. rewrite (H11 t Ht). unfold slot_content. cbn. rewrite (proj2 (Z.eqb_neq t w)) by done. done.
  - destruct H9 as [-> Hlt]. exists (w + 1), cr, (items ++ [v]). assert (HL : zlen (items ++ [v]) = w + 1 - r) by (rewrite zlen_app; change (zlen [v]) with 1; lia).
    unfold zlen in H8. constructor; try done; cbn; [lia| | |].
    + by apply expects_pop_app.
    + intros t Ht. etrans; [exact (H11 t Ht)|]. unfold slot_content. cbn. destruct (Z.ltb_spec t w) as [Hl|Hl].
      * rewrite (proj2 (Z.ltb_lt t (w + 1))) by lia. rewrite lookup_app_l by lia. done.
      * destruct (Z.eqb_spec t w) as [->|Hne].
        -- rewrite (proj2 (Z.ltb_lt w (w + 1))) by lia. rewrite lookup_app_r by lia. replace (Z.to_nat (w - r) - length items)%nat with O by lia.
           destruct c; try done. cbn in H10. destruct (Z.eqb_spec w r); [lia|done].
        -- rewrite (proj2 (Z.ltb_ge t (w + 1))) by lia. done.
    + apply spec_next with items; [done|]. cbn. unfold zlen. split; [lia|done].
Qed.

Lemma consumer_step s w r cr cw items : ring_inv s w r cr cw items → ∃ r' cw' items', ring_inv (ring_step RConsumer s) w r' cr cw' items'.
Proof.
  intros Hi. pose proof ring_cap as Hc. destruct s as [q p c h]. destruct Hi as [H1 H2 H3 H4 H5 H6 H7 H8 H9 H10 H11 H12]. cbn in *.
  destruct c as [| |rd|rd|rd v|rd v]; cbn [Spsc_TryPop].
  - exists r, cw, items. rewrite app_nil_r. by constructor.
  - rewrite H4, H6. rewrite Z.eqb_sym, mod_eqb by lia. destruct (Z.eqb_spec cw r); exists r, cw, items; rewrite app_nil_r; constructor; try done. cbn. lia.
  - cbn in H10. subst rd. cbn [cache_write cached_write_index]. rewrite H3, Z.eqb_sym, mod_eqb by lia. destruct (Z.eqb_spec w r) as [->|Hne].
    + exists r, r, items. constructor; try done; cbn; [lia|]. assert (items = []) by (destruct items; [done|rewrite zlen_cons in H8; pose proof (zlen_nonneg items); lia]).
      subst. by apply spec_next with [].
    + exists r, w, items. rewrite app_nil_r. constructor; try done; cbn; [lia|]. split; [done|lia].
  - destruct H10 as [-> Hlt]. assert (is_Some (items !! 0%nat)) as (v & Hv) by (apply lookup_lt_is_Some; unfold zlen in H8; lia).
    rewrite (H11 r) by lia. unfold slot_content. cbn. rewrite (proj2 (Z.ltb_lt r w)), Z.sub_diag by lia. change (Z.to_nat 0) with 0%nat. rewrite Hv.
    exists r, cw, items. rewrite app_nil_r. by constructor.
  - destruct H10 as (-> & Hlt & Hv). exists r, cw, items. rewrite app_nil_r. constructor; try done; cbn.
    + unfold zlen. rewrite length_insert. exact H2.
    + intros t Ht. destruct (Z.eq_dec t r) as [->|Hne].
      * rewrite slot_set_same by done. unfold slot_content. cbn. by rewrite (proj2 (Z.ltb_lt r w)), Z.eqb_refl by lia.
      * rewrite (slot_set_other q r) by lia. rewrite (H11 t Ht). unfold slot_content. cbn. by rewrite (proj2 (Z.eqb_neq t r)) by done.
  - destruct H10 as (-> & Hlt & Hv). destruct items as [|v' items]; [done|]. injection Hv as ->. rewrite zlen_cons in H8. rewrite (next_mod q r H1).
    exists (r + 1), cw, items. constructor; try done; cbn; [lia|lia| |by apply spec_next with (v :: items)].
    intros t Ht. destruct (Z.eq_dec t (r + cap)) as [->|Hne].
    + replace ((r + cap) mod cap) with (r mod cap) by (rewrite <- (Z.mod_add r 1) by lia; f_equal; lia).
      etrans; [exact (H11 r ltac:(lia))|]. unfold slot_content. cbn. rewrite (proj2 (Z.ltb_lt r w)), Z.eqb_refl, (proj2 (Z.ltb_ge (r + cap) w)) by lia.
      destruct p; try done. cbn in H9. destruct (Z.eqb_spec (r + cap) w); [lia|done].
    + etrans; [exact (H11 t ltac:(lia))|]. unfold slot_content. cbn. rewrite (proj2 (Z.eqb_neq t r)) by lia. destruct (t <? w); [|done].
      replace (Z.to_nat (t - r)) with (S (Z.to_nat (t - (r + 1)))) by lia. done.
Qed.

Lemma ring_run_inv sched s w r cr cw items : ring_inv s w r cr cw items → ∃ w' r' cr' cw' items', ring_inv (ring_run sched s) w' r' cr' cw' items'.
Proof.
  revert s w r cr cw items. induction sched as [|a sched IH]; intros s w r cr cw items Hi; [by eauto 10|]. cbn. destruct a as [v| | |].
  - apply (IH _ w r cr cw items). destruct s as [q [] c h]; try exact Hi. destruct Hi as [H1 H2 H3 H4 H5 H6 H7 H8 H9 H10 H11 H12]. by constructor.
  - apply (IH _ w r cr cw items). destruct s as [q p [] h]; try exact Hi. destruct Hi as [H1 H2 H3 H4 H5 H6 H7 H8 H9 H10 H11 H12]. by constructor.
  - destruct (producer_step _ _ _ _ _ _ Hi) as (w' & cr' & items' & Hi'). by apply (IH _ _ _ _ _ _ Hi').
  - destruct (consumer_step _ _ _ _ _ _ Hi) as (r' & cw' & items' & Hi'). by apply (IH _ _ _ _ _ _ Hi').
Qed.
Lemma ring_init_inv : ring_inv (ring_init (new_ring cap)) 0 0 0 0 [].
Proof.
  pose proof ring_cap. constructor; try done; cbn; try lia.
  - apply uwrap_small. unfold unsigned. lia.
  - unfold zlen. rewrite length_replicate. lia.
  - intros t Ht. unfold slot_of, slot_content. cbn. rewrite (proj2 (Z.ltb_ge t 0)) by lia.
    pose proof (Z.mod_pos_bound t cap ltac:(lia)). rewrite lookup_replicate_2 by lia. done.
  - constructor.
Qed.

(** ** Bounded steps *)
Definition producer_rank (p : Producer T) : nat :=
  match p with PIdle => 0 | PPublish _ _ => 1 | PWrite _ _ _ => 2 | PRefresh _ _ _ => 3 | PStart _ => 4 end.
Definition consumer_rank (c : Consumer T) : nat :=
  match c with CIdle => 0 | CRelease _ _ => 1 | CDestroy _ _ => 2 | CTake _ => 3 | CRefresh _ => 4 | CStart => 5 end.
Definition producer_steps (sched : list (RingAction T)) : nat := length (List.filter (λ a, match a with RProducer => true | _ => false end) sched).
Definition consumer_steps (sched : list (RingAction T)) : nat := length (List.filter (λ a, match a with RConsumer => true | _ => false end) sched).
(** No new operation begins. *)
Definition finishing (sched : list (RingAction T)) : Prop := Forall (λ a, match a with RProducer | RConsumer => True | _ => False end) sched.

Lemma producer_rank_run sched s : finishing sched → (producer_rank (rg_producer (ring_run sched s)) ≤ producer_rank (rg_producer s) - producer_steps sched)%nat.
Proof.
  revert s. induction sched as [|a sched IH]; intros s Hf; [cbn; lia|]. inversion Hf as [|? ? Ha Hs]; subst.
  etrans; [exact (IH (ring_step a s) Hs)|]. unfold producer_steps. destruct a; try done; cbn; destruct s as [q p c h]; cbn.
  - destruct p; cbn; try (destruct (_ =? _)); cbn; lia.
  - destruct (Spsc_TryPop q c) as [[q' c'] ev]. cbn. lia.
Qed.
Lemma consumer_rank_run sched s w r cr cw items : ring_inv s w r cr cw items → finishing sched →
  (consumer_rank (rg_consumer (ring_run sched s)) ≤ consumer_rank (rg_consumer s) - consumer_steps sched)%nat.
Proof.
  revert s w r cr cw items. induction sched as [|a sched IH]; intros s w r cr cw items Hi Hf; [cbn; lia|]. inversion Hf as [|? ? Ha Hs]; subst.
  assert (Hi' : ∃ w r cr cw items, ring_inv (ring_step a s) w r cr cw items).
  { destruct a; try done; [destruct (producer_step _ _ _ _ _ _ Hi) as (? & ? & ? & H)|destruct (consumer_step _ _ _ _ _ _ Hi) as (? & ? & ? & H)]; eauto 10. }
  destruct Hi' as (w' & r' & cr' & cw' & items' & Hi'). etrans; [exact (IH _ _ _ _ _ _ Hi' Hs)|]. unfold consumer_steps. destruct a; try done; cbn.
  - destruct s as [q p c h]. cbn. destruct (Spsc_TryPush q p) as [[q' p'] ev]. cbn. lia.
  - pose proof (ri_content _ _ _ _ _ _ Hi r) as Hr. pose proof (ri_consumer _ _ _ _ _ _ Hi) as He. pose proof (ri_items _ _ _ _ _ _ Hi) as Hl.
    pose proof (ri_order _ _ _ _ _ _ Hi) as Hor. pose proof ring_cap.
    destruct s as [q p c h]. destruct c as [| |rd|rd|rd v|rd v]; cbn in *; try (destruct (_ =? _)); cbn; try lia.
    destruct He as [-> Hlt]. specialize (Hr ltac:(lia)). unfold slot_content in Hr. cbn in Hr. rewrite (proj2 (Z.ltb_lt r w)), Z.sub_diag in Hr by lia.
    destruct (lookup_lt_is_Some_2 items 0) as (v & Hv); [unfold zlen in Hl; lia|]. change (Z.to_nat 0) with 0%nat in Hr. rewrite Hr, Hv. cbn. lia.
Qed.
End Refinement.

Section RingTheorem.
Context {T : Type}.

(** The ring is a bounded queue to its two users.  However the steps of one producer and
    one consumer interleave, the history of their results, accepted and refused ones, is
    one of a first-in first-out queue of that capacity; a slot is written only while it
    is empty and read only while it holds an object, and never both at once; and every
    push ends after four steps of its own, every pop after five, whatever the other side
    does meanwhile. *)
Theorem spsc_queue capacity (sched : list (RingAction T)) : 1 ≤ capacity < 2 ^ 60 →
  ∃ q, newSpsc capacity = Some q ∧ capacity ≤ Spsc_Capacity q ∧
  let s := ring_run sched (ring_init q) in
  (∃ items, spec_run (Spsc_Capacity q) (rg_trace s) items ∧ zlen items ≤ Spsc_Capacity q ∧
     Spsc_SizeApprox q (write_index (rg_ring s)) (read_index (rg_ring s)) = zlen items) ∧
  (∀ v write next, rg_producer s = PWrite v write next → slot_of (rg_ring s) write = None ∧
     (∀ read, rg_consumer s = CTake read → read ≠ write) ∧ ∀ read x, rg_consumer s = CDestroy read x → read ≠ write) ∧
  (∀ read, rg_consumer s = CTake read → is_Some (slot_of (rg_ring s) read)) ∧
  (∀ rest, finishing rest →
     ((4 ≤ producer_steps rest)%nat → rg_producer (ring_run rest s) = PIdle) ∧
     ((5 ≤ consumer_steps rest)%nat → rg_consumer (ring_run rest s) = CIdle)).
Proof.
  intros Hc. destruct (round_up_spec (capacity + 1) ltac:(lia)) as (k & Hk & HR & Hb). assert (Hk' : 0 ≤ k ≤ 62) by lia.
  pose proof (ring_cap k Hk') as Hcap. exists (new_ring (2 ^ k)). unfold newSpsc. rewrite uwrap_small by (unfold unsigned; lia). rewrite HR. split; [done|].
  assert (HM : Spsc_Capacity (new_ring (T := T) (2 ^ k)) = 2 ^ k - 1) by (cbn; apply uwrap_small; unfold unsigned; lia).
  rewrite HM. split; [lia|]. cbv zeta. set (s := ring_run sched _). destruct (ring_run_inv k Hk' sched _ _ _ _ _ _ (ring_init_inv k Hk')) as (w & r & cr & cw & items & Hi). fold s in Hi.
  pose proof (ri_order _ _ _ _ _ _ _ Hi) as Hor. pose proof (ri_items _ _ _ _ _ _ _ Hi) as Hl. split_and!.
  - exists items. split; [apply Hi|]. split; [lia|]. unfold Spsc_SizeApprox. rewrite (ri_write _ _ _ _ _ _ _ Hi), (ri_read _ _ _ _ _ _ _ Hi).
    change (sr_mask (new_ring (2 ^ k))) with (Spsc_Capacity (new_ring (T := T) (2 ^ k))). rewrite HM. replace (2 ^ k - 1) with (Z.ones k) by (rewrite Z.ones_equiv; lia).
    rewrite Z.land_ones by lia. unfold uwrap. rewrite <- Znumtheory.Zmod_div_mod; [|lia|lia|exists (2 ^ (64 - k)); rewrite <- Z.pow_add_r by lia; f_equal; lia].
    rewrite <- Zminus_mod. rewrite Z.mod_small by lia. lia.
  - intros v write next Hp. pose proof (ri_producer _ _ _ _ _ _ _ Hi) as He. rewrite Hp in He. destruct He as (-> & -> & Hlt).
    pose proof (ri_consumer _ _ _ _ _ _ _ Hi) as Hco.
    assert (Hne : r < w → r mod 2 ^ k ≠ w mod 2 ^ k).
    { intros Hrw E. assert (HE : (w mod 2 ^ k =? r mod 2 ^ k) = true) by (by apply Z.eqb_eq). rewrite (mod_eqb k Hk') in HE by lia. apply Z.eqb_eq in HE. lia. }
    split; [|split].
    + rewrite (ri_content _ _ _ _ _ _ _ Hi w) by lia. unfold slot_content. by rewrite Z.ltb_irrefl, Hp.
    + intros read Hr. rewrite Hr in Hco. destruct Hco as [-> Hcw]. apply Hne. lia.
    + intros read x Hr. rewrite Hr in Hco. destruct Hco as [-> [Hcw _]]. apply Hne. lia.
  - intros read Hr. pose proof (ri_consumer _ _ _ _ _ _ _ Hi) as Hco. rewrite Hr in Hco. destruct Hco as [-> Hcw].
    rewrite (ri_content _ _ _ _ _ _ _ Hi r) by lia. unfold slot_content. rewrite (proj2 (Z.ltb_lt r w)), Hr by lia. apply lookup_lt_is_Some. unfold zlen in Hl. lia.
  - intros rest Hf. split; intros Hs.
    { pose proof (producer_rank_run rest s Hf) as HRk. destruct (rg_producer (ring_run rest s)); [done|..]; destruct (rg_producer s); cbn in HRk; lia. }
    pose proof (consumer_rank_run k Hk' rest s _ _ _ _ _ Hi Hf) as HRk. destruct (rg_consumer (ring_run rest s)); [done|..]; destruct (rg_consumer s); cbn in HRk; lia.
Qed.
End RingTheorem.

(** A ring for one item: the second push is refused until the first has been popped. *)
Definition ring_example : list (RingAction Z) :=
  [RPush 10] ++ replicate 4 RProducer ++ [RPush 20] ++ replicate 4 RProducer ++ [RPop] ++ replicate 5 RConsumer ++ [RPush 30] ++ replicate 4 RProducer.
Lemma spsc_queue_witness : ∃ q, newSpsc 1 = Some q ∧
  rg_trace (ring_run ring_example (ring_init q)) = [REPush 10; REFull; REPop 10; REPush 30] ∧
  ∃ items, spec_run (Spsc_Capacity q) [REPush 10; REFull; REPop 10; REPush 30] items.
Proof.
  destruct (spsc_queue (T := Z) 1 ring_example ltac:(lia)) as (q & Hq & _ & (items & H & _) & _). exists q.
  assert (HE : newSpsc (T := Z) 1 = Some (new_ring 2)) by (vm_compute; reflexivity). rewrite HE in Hq. injection Hq as <-.
  split; [exact HE|]. split; [vm_compute; reflexivity|]. exists items. exact H.
Defined.
