(* ===== verification/Config.v ===== *)
(** * Config: the configuration store

    Models src/base/config.cc: a string map filled from a properties file, PULSELOG_*
    environment variables and the command line, with typed getters that record which
    keys were read.  [GetDouble], which nothing calls, is left out. *)
From S2P Require Import Prelude Status Types OrdMap Text.

Record ConfigStore := mkConfigStore { cs_entries : list (bytes * bytes); cs_read : list bytes }.
Definition emptyStore : ConfigStore := mkConfigStore [] [].
Definition put_entry (key value : bytes) (st : ConfigStore) : ConfigStore :=
  mkConfigStore (om_insert key value (cs_entries st)) (cs_read st).
(** [read_keys_] is a set; only membership is ever asked for. *)
Definition MarkRead (key : bytes) (st : ConfigStore) : ConfigStore := mkConfigStore (cs_entries st) (key :: cs_read st).

(** ** Text *)

(** [std::isspace] and [std::tolower] in the C locale. *)
Definition is_space (c : Z) : bool := (c =? 32) || ((9 <=? c) && (c <=? 13)).
Definition tolower (c : Z) : Z := if (65 <=? c) && (c <=? 90) then c + 32 else c.
Definition ToLower (s : bytes) : bytes := map tolower s.
Fixpoint skip_space (s : bytes) : bytes :=
  match s with c :: rest => if is_space c then skip_space rest else s | [] => [] end.
Definition Trim (s : bytes) : bytes := rev (skip_space (rev (skip_space s))).
Definition ends_with (suffix s : bytes) : bool :=
  bool_decide (zlen suffix ≤ zlen s) && bool_decide (zdrop (zlen s - zlen suffix) s = suffix).
Definition remove_suffix (n : Z) (s : bytes) : bytes := ztake (zlen s - n) s.
Definition ParseInteger (text : bytes) : Result Z :=
  match ParseNumber 64 text with Some v => Ok v | None => Err kInvalidArgument end.

(** ** Loading *)

(** Values may be quoted so that they can hold spaces at their ends. *)
Definition unquote (value : bytes) : bytes :=
  match value with
  | 34 :: _ :: _ => if bool_decide (last value = Some 34) then slice 1 (zlen value - 2) value else value
  | _ => value
  end.
(** One line of a properties file, in the current section. *)
Definition load_config_line (line section : bytes) : SR ConfigStore bytes :=
  let view := Trim line in
  match view with
  | [] | 35 :: _ | 59 :: _ => sret section
  | 91 :: after =>
      match cut_first 93 after with
      | None => sfail kInvalidArgument
      | Some (name, _) => let name := Trim name in sret (match name with [] => [] | _ => name ++ [46] end)
      end
  | _ =>
      match cut_first 61 view with
      | None => sfail kInvalidArgument
      | Some (key, value) => smod (put_entry (section ++ ToLower (Trim key)) (unquote (Trim value))) ;;; sret section
      end
  end.
Fixpoint load_config_lines (lines : list bytes) (section : bytes) : SR ConfigStore unit :=
  match lines with
  | [] => sret tt
  | line :: lines => let! section := load_config_line line section in load_config_lines lines section
  end.
(** [file] is the content of the file, none when it cannot be opened. *)
Definition LoadFile (file : option bytes) : SR ConfigStore unit :=
  match file with
  | None => sfail kNotFound
  | Some text => load_config_lines (getlines text) []
  end.

(** [FOO_BAR] names the key [foo.bar]; a doubled underscore stands for one. *)
Fixpoint env_key (raw : bytes) : bytes :=
  match raw with
  | [] => []
  | c :: rest =>
      if c =? 95 then
        match rest with
        | c' :: rest' => if c' =? 95 then 95 :: env_key rest' else 46 :: env_key rest
        | [] => 46 :: env_key rest
        end
      else tolower c :: env_key rest
  end.
Definition kPrefix : bytes := str "PULSELOG_".
Definition load_variable (entry : bytes) (st : ConfigStore) : ConfigStore :=
  if bool_decide (ztake (zlen kPrefix) entry = kPrefix) then
    match cut_first 61 entry with
    | None => st
    | Some (name, value) => put_entry (env_key (zdrop (zlen kPrefix) name)) value st
    end
  else st.
(** [environ]. *)
Definition LoadEnvironment (environ : list bytes) (st : ConfigStore) : ConfigStore :=
  fold_left (λ st entry, load_variable entry st) environ st.

Definition load_argument (acc : list bytes * ConfigStore) (arg : bytes) : list bytes * ConfigStore :=
  let '(positional, st) := acc in
  if (zlen arg <? 3) || negb (bool_decide (ztake 2 arg = str "--")) then (positional ++ [arg], st) else
  let arg := zdrop 2 arg in
  match cut_first 61 arg with
  | Some (key, value) => (positional, put_entry (ToLower key) value st)
  | None => (positional, put_entry (ToLower arg) (str "true") st)
  end.
(** [argv] without the program's name. *)
Definition LoadCommandLine (args : list bytes) (st : ConfigStore) : list bytes * ConfigStore := fold_left load_argument args ([], st).
Definition ConfigStore_Set (key value : bytes) (st : ConfigStore) : ConfigStore := put_entry (ToLower key) value st.

(** ** Reading *)

Definition find_entry (key : bytes) : SR ConfigStore (option bytes) :=
  smod (MarkRead key) ;;; let! st := sget in sret (om_find key (cs_entries st)).
Definition Contains (key : bytes) : SR ConfigStore bool :=
  let! value := find_entry key in sret (match value with Some _ => true | None => false end).
Definition ConfigStore_GetString (key fallback : bytes) : SR ConfigStore bytes := let! value := find_entry key in sret (default fallback value).
Definition RequireString (key : bytes) : SR ConfigStore bytes :=
  let! value := find_entry key in match value with Some v => sret v | None => sfail kInvalidArgument end.
(** The typed getters: the fallback for a key that is not set, the parsed text otherwise. *)
Definition get_parsed {A} (parse : bytes → Result A) (key : bytes) (fallback : A) : SR ConfigStore A :=
  let! value := find_entry key in match value with Some text => slift (parse text) | None => sret fallback end.
Definition GetInt : bytes → Z → SR ConfigStore Z := get_parsed ParseInteger.
Definition ParseBool (text : bytes) : Result bool :=
  let value := ToLower text in
  if bool_decide (value ∈ [str "true"; str "1"; str "yes"; str "on"]) then Ok true
  else if bool_decide (value ∈ [str "false"; str "0"; str "no"; str "off"]) then Ok false
  else Err kInvalidArgument.
Definition GetBool : bytes → bool → SR ConfigStore bool := get_parsed ParseBool.

(** The multiplication is one of 64-bit integers; it overflows for what does not fit. *)
Definition scaled (multiplier : Z) (text : bytes) : Result Z := let? n := ParseInteger (Trim text) in Ok (i64 (n * multiplier)).
(** The suffixes in the order they are tried: text, multiplier, bytes removed. *)
Definition size_suffix (lower : bytes) : Z * Z :=
  if ends_with (str "kb") lower || ends_with (str "kib") lower then (1024, if ends_with (str "kib") lower then 3 else 2)
  else if ends_with (str "mb") lower || ends_with (str "mib") lower then (1048576, if ends_with (str "mib") lower then 3 else 2)
  else if ends_with (str "gb") lower || ends_with (str "gib") lower then (1073741824, if ends_with (str "gib") lower then 3 else 2)
  else if ends_with (str "k") lower then (1024, 1)
  else if ends_with (str "m") lower then (1048576, 1)
  else if ends_with (str "g") lower then (1073741824, 1)
  else if ends_with (str "b") lower then (1, 1)
  else (1, 0).
Definition ParseBytes (value : bytes) : Result Z :=
  let text := Trim value in
  let '(multiplier, n) := size_suffix (ToLower text) in
  scaled multiplier (remove_suffix n text).
Definition GetBytes : bytes → Z → SR ConfigStore Z := get_parsed ParseBytes.
Definition ParseDurationMs (value : bytes) : Result Z :=
  let text := Trim value in
  let lower := ToLower text in
  if ends_with (str "ms") lower then scaled 1 (remove_suffix 2 text)
  else if ends_with (str "us") lower then let? n := ParseInteger (Trim (remove_suffix 2 text)) in Ok (Z.quot n 1000)
  else if ends_with (str "s") lower then scaled 1000 (remove_suffix 1 text)
  else if ends_with (str "m") lower then scaled 60000 (remove_suffix 1 text)
  else if ends_with (str "h") lower then scaled 3600000 (remove_suffix 1 text)
  else scaled 1 text.
Definition GetDurationMs : bytes → Z → SR ConfigStore Z := get_parsed ParseDurationMs.

(** [GetList]: the items between the commas, trimmed, without the empty ones. *)
Definition list_items (text : bytes) : list bytes := List.filter (λ item, negb (bool_decide (item = []))) (map Trim (Split 44 text)).
Definition GetList (key : bytes) : SR ConfigStore (list bytes) :=
  let! value := find_entry key in sret (match value with Some text => list_items text | None => [] end).
Definition Dump (st : ConfigStore) : bytes := concat (map (λ e, e.1 ++ [61] ++ e.2 ++ [10]) (cs_entries st)).
Definition UnreadKeys (st : ConfigStore) : list bytes :=
  List.filter (λ key, negb (bool_decide (key ∈ cs_read st))) (map fst (cs_entries st)).
