(* ===== verification/BrokerConfig.v ===== *)
(** * BrokerConfig: the broker's settings

    Models src/broker/broker_config.cc with the parsers it calls: [Endpoint::Parse]
    (src/net/socket.cc) and [ParseLogLevel] (src/base/logging.cc).  Every numeric key goes
    through [Narrow], a static_cast to the field's type. *)
From S2P Require Import Prelude Status Types OrdMap Text FileUtil PartitionLog Config MpmcQueue.

Record Endpoint := mkEndpoint { ep_host : bytes; ep_port : Z }.
Definition endpoint_with (host port_text : bytes) : Result Endpoint :=
  match ParseNumber_unsigned 32 port_text with
  | None => Err kInvalidArgument
  | Some port =>
      if (port =? 0) || (65535 <? port) then Err kInvalidArgument
      else Ok (mkEndpoint (match host with [] => str "0.0.0.0" | _ => host end) (u16 port))
  end.
Definition Endpoint_Parse (text : bytes) : Result Endpoint :=
  match text with
  | [] => Err kInvalidArgument
  | 91 :: rest =>
      match cut_first 93 rest with
      | Some (host, 58 :: port_text) => endpoint_with host port_text
      | _ => Err kInvalidArgument
      end
  | _ =>
      match cut_last 58 text with
      | None => Err kInvalidArgument
      | Some (host, port_text) => endpoint_with host port_text
      end
  end.

Inductive LogLevel : Set := kTrace | kDebug | kInfo | kWarn | kError | kOff.
Definition ParseLogLevel (text : bytes) : option LogLevel :=
  if bool_decide (text = str "trace") then Some kTrace
  else if bool_decide (text = str "debug") then Some kDebug
  else if bool_decide (text = str "info") then Some kInfo
  else if bool_decide (text = str "warn") || bool_decide (text = str "warning") then Some kWarn
  else if bool_decide (text = str "error") then Some kError
  else if bool_decide (text = str "off") || bool_decide (text = str "none") then Some kOff
  else None.

Record BrokerConfig := mkBrokerConfig {
  bc_broker_id : Z; bc_listen : Endpoint; bc_advertised_host : bytes; bc_advertised_port : Z;
  bc_cluster_brokers : list bytes; bc_data_dir : bytes;
  bc_io_threads : Z; bc_max_connections : Z; bc_max_frame_bytes : Z; bc_connection_idle_timeout_ms : Z;
  bc_output_high_water_bytes : Z; bc_output_max_bytes : Z;
  bc_worker_threads : Z; bc_worker_queue_capacity : Z; bc_pin_workers : bool;
  bc_segment_bytes : Z; bc_segment_ms : Z; bc_index_interval_bytes : Z; bc_retention_bytes : Z; bc_retention_ms : Z;
  bc_min_free_disk_bytes : Z; bc_preallocate_segments : bool; bc_write_mode : WriteMode; bc_sync_mode : SyncMode;
  bc_flush : FlushPolicy; bc_flusher_interval_ms : Z;
  bc_auto_create_topics : bool; bc_default_partitions : Z; bc_default_replication_factor : Z;
  bc_replication_interval_ms : Z; bc_replication_timeout_ms : Z; bc_replication_max_bytes : Z; bc_replica_lag_max_ms : Z;
  bc_group_session_timeout_ms : Z; bc_group_rebalance_delay_ms : Z;
  bc_metrics_enabled : bool; bc_metrics_host : bytes; bc_metrics_port : Z; bc_metrics_sample_interval_ms : Z;
  bc_log_level : LogLevel; bc_log_file : bytes; bc_retention_check_interval_ms : Z }.

Definition Validate (c : BrokerConfig) : Result unit :=
  if bc_broker_id c <? 0 then Err kInvalidArgument else
  if bc_io_threads c =? 0 then Err kInvalidArgument else
  if bc_worker_threads c =? 0 then Err kInvalidArgument else
  if bc_worker_queue_capacity c <? 8 then Err kInvalidArgument else
  if bool_decide (bc_data_dir c = []) then Err kInvalidArgument else
  if bc_segment_bytes c <? 4096 then Err kInvalidArgument else
  if 4294967295 <? bc_segment_bytes c then Err kInvalidArgument else
  if bc_index_interval_bytes c <=? 0 then Err kInvalidArgument else
  if bc_default_partitions c <=? 0 then Err kInvalidArgument else
  if bc_default_replication_factor c <=? 0 then Err kInvalidArgument else
  if negb (bool_decide (bc_cluster_brokers c = [])) && (i16 (zlen (bc_cluster_brokers c)) <? bc_default_replication_factor c) then Err kInvalidArgument else
  if bc_output_max_bytes c <=? bc_output_high_water_bytes c then Err kInvalidArgument else
  if bc_max_frame_bytes c =? 0 then Err kInvalidArgument else
  Ok tt.

(** The macros of the file: read a key with its fallback, pass a failure on, narrow. *)
Definition config_int (narrow : Z → Z) (key : string) (fallback : Z) : SR ConfigStore Z := let! v := GetInt (str key) fallback in sret (narrow v).
Definition config_bytes (narrow : Z → Z) (key : string) (fallback : Z) : SR ConfigStore Z := let! v := GetBytes (str key) fallback in sret (narrow v).
Definition config_ms (key : string) (fallback : Z) : SR ConfigStore Z := GetDurationMs (str key) fallback.
Definition config_bool (key : string) (fallback : bool) : SR ConfigStore bool := GetBool (str key) fallback.
Definition required {S A} (r : option A) : SR S A := match r with Some a => sret a | None => sfail kInvalidArgument end.

Definition FromStore : SR ConfigStore BrokerConfig :=
  let! broker_id := config_int i64 "broker.id" 0 in
  let! listen_text := ConfigStore_GetString (str "net.listen") (str "0.0.0.0:9092") in
  let! listen := slift (Endpoint_Parse listen_text) in
  let! advertised_host := ConfigStore_GetString (str "net.advertised.host") (str "127.0.0.1") in
  let! advertised_port := config_int i64 "net.advertised.port" (ep_port listen) in
  let! cluster_brokers := GetList (str "cluster.brokers") in
  let! data_dir := ConfigStore_GetString (str "broker.data.dir") (str "./pulselog-data") in
  let! io_threads := config_int u64 "net.io.threads" 2 in
  let! max_connections := config_int u64 "net.max.connections" 4096 in
  let! max_frame_bytes := config_bytes u32 "net.max.frame.bytes" 67108864 in
  let! idle_timeout := config_ms "net.idle.timeout" 0 in
  let! output_high_water_bytes := config_bytes u64 "net.output.high.water.bytes" 4194304 in
  let! output_max_bytes := config_bytes u64 "net.output.max.bytes" 67108864 in
  let! worker_threads := config_int u64 "broker.worker.threads" 2 in
  let! worker_queue_capacity := config_int u64 "broker.worker.queue.capacity" 4096 in
  let! pin_workers := config_bool "broker.pin.workers" false in
  let! segment_bytes := config_bytes i64 "storage.segment.bytes" 134217728 in
  let! segment_ms := config_ms "storage.segment.ms" (-1) in
  let! index_interval_bytes := config_bytes i64 "storage.index.interval.bytes" 4096 in
  let! retention_bytes := config_bytes i64 "storage.retention.bytes" (-1) in
  let! retention_ms := config_ms "storage.retention.ms" (-1) in
  let! min_free_disk_bytes := config_bytes i64 "storage.min.free.disk.bytes" 67108864 in
  let! preallocate_segments := config_bool "storage.preallocate" true in
  let! write_mode_text := ConfigStore_GetString (str "storage.write.mode") (str "write") in
  let! write_mode := required (ParseWriteMode write_mode_text) in
  let! sync_mode_text := ConfigStore_GetString (str "storage.fsync.mode") (str "full") in
  let! sync_mode := required (ParseSyncMode sync_mode_text) in
  let! sync_on_append := config_bool "storage.flush.sync.on.append" false in
  let! flush_interval := config_ms "storage.flush.interval" 200 in
  let! flush_bytes := config_bytes i64 "storage.flush.max.bytes" 4194304 in
  let! flush_records := config_int i64 "storage.flush.max.records" 10000 in
  let! flusher_interval_ms := config_ms "storage.flusher.interval" 20 in
  let! auto_create := config_bool "topics.auto.create" true in
  let! default_partitions := config_int i32 "topics.default.partitions" 1 in
  let! default_replication_factor := config_int i16 "topics.default.replication.factor" 1 in
  let! replication_interval_ms := config_ms "replication.interval" 2 in
  let! replication_timeout_ms := config_ms "replication.timeout" 5000 in
  let! replication_max_bytes := config_bytes u32 "replication.max.bytes" 1048576 in
  let! replica_lag_max_ms := config_ms "replication.lag.max" 10000 in
  let! group_session_timeout_ms := config_ms "group.session.timeout" 10000 in
  let! group_rebalance_delay_ms := config_ms "group.rebalance.delay" 200 in
  let! metrics_enabled := config_bool "metrics.enabled" true in
  let! metrics_host := ConfigStore_GetString (str "metrics.host") (str "0.0.0.0") in
  let! metrics_port := config_int i64 "metrics.port" 9644 in
  let! metrics_sample_interval_ms := config_ms "metrics.sample.interval" 1000 in
  let! log_level_text := ConfigStore_GetString (str "log.level") (str "info") in
  let! log_level := required (ParseLogLevel log_level_text) in
  let! log_file := ConfigStore_GetString (str "log.file") [] in
  let! retention_check_interval_ms := config_ms "storage.retention.check.interval" 30000 in
  let config := mkBrokerConfig (i32 broker_id) listen advertised_host (u16 advertised_port) cluster_brokers data_dir
    io_threads max_connections max_frame_bytes idle_timeout output_high_water_bytes output_max_bytes
    worker_threads worker_queue_capacity pin_workers
    segment_bytes segment_ms index_interval_bytes retention_bytes retention_ms min_free_disk_bytes preallocate_segments write_mode sync_mode
    (mkFlushPolicy sync_on_append flush_interval flush_bytes flush_records) flusher_interval_ms
    auto_create default_partitions default_replication_factor
    replication_interval_ms replication_timeout_ms replication_max_bytes replica_lag_max_ms
    group_session_timeout_ms group_rebalance_delay_ms
    metrics_enabled metrics_host (u16 metrics_port) metrics_sample_interval_ms log_level log_file retention_check_interval_ms in
  slift (Validate config) ;;; sret config.

(** The options of a partition's log; a topic's own limits, when positive, come first. *)
Definition LogOptionsFor (retention_override segment_override : Z) (c : BrokerConfig) : LogOptions :=
  mkLogOptions (if 0 <? segment_override then segment_override else bc_segment_bytes c) (bc_segment_ms c) (bc_index_interval_bytes c)
    (bc_retention_bytes c) (if 0 <? retention_override then retention_override else bc_retention_ms c) (bc_min_free_disk_bytes c)
    (bc_preallocate_segments c) (bc_write_mode c) (bc_sync_mode c) (bc_flush c).
