(* ===== verification/ConfigTheorems.v ===== *)
(** * ConfigTheorems: what a configuration that is accepted guarantees

    Keys written in the environment come back as themselves, an accepted configuration
    has no value that did not parse and no key that was silently dropped from the unread
    ones, and the narrowing that can still change a value. *)
From S2P Require Import Prelude Status Types OrdMap Text FileUtil PartitionLog Config MpmcQueue BrokerConfig.

(** ** Environment variables *)

(** How a key is written as a variable name: dots as underscores, underscores doubled. *)
Definition toupper (c : Z) : Z := if (97 <=? c) && (c <=? 122) then c - 32 else c.
Fixpoint env_name (key : bytes) : bytes :=
  match key with
  | [] => []
  | c :: key => if c =? 46 then 95 :: env_name key else if c =? 95 then 95 :: 95 :: env_name key else toupper c :: env_name key
  end.
(** No capitals, and no dot before an underscore or another dot. *)
Fixpoint plain_key (key : bytes) : bool :=
  match key with
  | [] => true
  | c :: rest => negb ((65 <=? c) && (c <=? 90)) && negb ((c =? 46) && match rest with d :: _ => (d =? 95) || (d =? 46) | [] => false end) && plain_key rest
  end.

Lemma env_key_single rest : (match rest with c :: _ => c ≠ 95 | [] => True end) → env_key (95 :: rest) = 46 :: env_key rest.
Proof. destruct rest as [|c rest]; [done|]. intros Hc. cbn. by rewrite (proj2 (Z.eqb_neq c 95)). Qed.
Lemma toupper_char c : (65 <=? c) && (c <=? 90) = false → c ≠ 95 → toupper c ≠ 95 ∧ tolower (toupper c) = c.
Proof. unfold toupper, tolower. intros Hc Hn. destruct ((97 <=? c) && (c <=? 122)) eqn:E; [|rewrite Hc; lia]. destruct ((65 <=? c - 32) && (c - 32 <=? 90)) eqn:E2; lia. Qed.

Lemma env_key_name key : plain_key key = true → env_key (env_name key) = key.
Proof.
  induction key as [|c key IH]; [done|]. cbn [plain_key env_name]. intros [[Hc Hd]%andb_true_iff Hp]%andb_true_iff. apply negb_true_iff in Hc, Hd. specialize (IH Hp).
  destruct (Z.eqb_spec c 46) as [->|N46].
  - rewrite env_key_single; [by rewrite IH|]. destruct key as [|d key]; [done|]. cbn in Hd |- *. apply orb_false_iff in Hd as [Hd1 Hd2]. rewrite Hd1, Hd2.
    cbn [plain_key] in Hp. apply andb_true_iff in Hp as [[Hd3 _]%andb_true_iff _]. apply negb_true_iff in Hd3. apply Z.eqb_neq in Hd1.
    apply (toupper_char d Hd3 Hd1).
  - destruct (Z.eqb_spec c 95) as [->|N95]; [cbn; by rewrite IH|].
    destruct (toupper_char c Hc N95) as [H1 H2]. cbn. rewrite (proj2 (Z.eqb_neq _ 95) H1). by rewrite H2, IH.
Qed.

(** ** Accepted configurations *)

(** What a typed getter yielded. *)
Definition parsed {A} (parse : bytes → Result A) (key : string) (fallback : A) (st : ConfigStore) (v : A) : Prop :=
  match om_find (str key) (cs_entries st) with Some text => parse text = Ok v | None => v = fallback end.
Definition is_parsed {A} (parse : bytes → Result A) (key : string) (st : ConfigStore) : Prop :=
  ∀ text, om_find (str key) (cs_entries st) = Some text → ∃ v, parse text = Ok v.
Definition marked (key : string) (st : ConfigStore) : ConfigStore := MarkRead (str key) st.

Lemma parsed_is {A} (parse : bytes → Result A) key d st v : parsed parse key d st v → is_parsed parse key st.
Proof. unfold parsed. intros H text Ht. rewrite Ht in H. by exists v. Qed.

Section Steps.
Context {B : Type} (st st' : ConfigStore) (c : B).
Lemma get_step {A} (parse : bytes → Result A) key d (k : A → SR ConfigStore B) :
  sbind (get_parsed parse (str key) d) k st = (Ok c, st') → ∃ v, parsed parse key d st v ∧ k v (marked key st) = (Ok c, st').
Proof.
  unfold sbind, get_parsed, find_entry, sget, smod, sret, slift, parsed, marked, sbind. cbn [cs_entries MarkRead].
  destruct (om_find (str key) (cs_entries st)) as [text|]; [destruct (parse text) as [v|]; [by exists v|done]|by exists d].
Qed.
Lemma int_step narrow key d (k : Z → SR ConfigStore B) :
  sbind (config_int narrow key d) k st = (Ok c, st') → ∃ v, parsed ParseInteger key d st v ∧ k (narrow v) (marked key st) = (Ok c, st').
Proof. intros H. unfold config_int in H. rewrite sbind_assoc in H. exact (get_step ParseInteger key d _ H). Qed.
Lemma bytes_step narrow key d (k : Z → SR ConfigStore B) :
  sbind (config_bytes narrow key d) k st = (Ok c, st') → ∃ v, parsed ParseBytes key d st v ∧ k (narrow v) (marked key st) = (Ok c, st').
Proof. intros H. unfold config_bytes in H. rewrite sbind_assoc in H. exact (get_step ParseBytes key d _ H). Qed.
Lemma text_step key d (k : bytes → SR ConfigStore B) :
  sbind (ConfigStore_GetString (str key) d) k st = (Ok c, st') → ∃ v, v = default d (om_find (str key) (cs_entries st)) ∧ k v (marked key st) = (Ok c, st').
Proof. intros H. eexists. split; [reflexivity|]. exact H. Qed.
Lemma list_step key (k : list bytes → SR ConfigStore B) :
  sbind (GetList (str key)) k st = (Ok c, st') → ∃ v, k v (marked key st) = (Ok c, st').
Proof. intros H. eexists. exact H. Qed.
Lemma lift_step {A} (r : Result A) (k : A → SR ConfigStore B) : sbind (slift r) k st = (Ok c, st') → ∃ v, r = Ok v ∧ k v st = (Ok c, st').
Proof. destruct r as [v|]; [by exists v|done]. Qed.
Lemma required_step {A} (r : option A) (k : A → SR ConfigStore B) : sbind (required r) k st = (Ok c, st') → ∃ v, r = Some v ∧ k v st = (Ok c, st').
Proof. destruct r as [v|]; [by exists v|done]. Qed.
End Steps.

Ltac config_step H :=
  let v := fresh "v" in let P := fresh "P" in
  first [ apply int_step in H as (v & P & H) | apply bytes_step in H as (v & P & H) | apply text_step in H as (v & P & H)
        | apply list_step in H as (v & H) | apply lift_step in H as (v & P & H) | apply required_step in H as (v & P & H)
        | apply get_step in H as (v & P & H) ]; cbv beta in H.

(** The keys the broker reads, by the type of their value. *)
Definition int_keys : list string :=
  ["broker.id"; "net.advertised.port"; "net.io.threads"; "net.max.connections"; "broker.worker.threads"; "broker.worker.queue.capacity";
   "storage.flush.max.records"; "topics.default.partitions"; "topics.default.replication.factor"; "metrics.port"]%string.
Definition size_keys : list string :=
  ["net.max.frame.bytes"; "net.output.high.water.bytes"; "net.output.max.bytes"; "storage.segment.bytes"; "storage.index.interval.bytes";
   "storage.retention.bytes"; "storage.min.free.disk.bytes"; "storage.flush.max.bytes"; "replication.max.bytes"]%string.
Definition duration_keys : list string :=
  ["net.idle.timeout"; "storage.segment.ms"; "storage.retention.ms"; "storage.flush.interval"; "storage.flusher.interval"; "replication.interval";
   "replication.timeout"; "replication.lag.max"; "group.session.timeout"; "group.rebalance.delay"; "metrics.sample.interval"; "storage.retention.check.interval"]%string.
Definition bool_keys : list string :=
  ["broker.pin.workers"; "storage.preallocate"; "storage.flush.sync.on.append"; "topics.auto.create"; "metrics.enabled"]%string.
Definition text_keys : list string :=
  ["net.listen"; "net.advertised.host"; "cluster.brokers"; "broker.data.dir"; "storage.write.mode"; "storage.fsync.mode"; "metrics.host"; "log.level"; "log.file"]%string.
Definition broker_keys : list bytes := map str (int_keys ++ size_keys ++ duration_keys ++ bool_keys ++ text_keys).

(** The limits an accepted configuration respects. *)
Definition sane_config (c : BrokerConfig) : Prop :=
  0 ≤ bc_broker_id c ∧ bc_io_threads c ≠ 0 ∧ bc_worker_threads c ≠ 0 ∧ 8 ≤ bc_worker_queue_capacity c ∧ bc_data_dir c ≠ [] ∧
  4096 ≤ bc_segment_bytes c < 2 ^ 32 ∧ 0 < bc_index_interval_bytes c ∧ 0 < bc_default_partitions c ∧ 0 < bc_default_replication_factor c ∧
  bc_output_high_water_bytes c < bc_output_max_bytes c ∧ bc_max_frame_bytes c ≠ 0.
Lemma Validate_sane c : Validate c = Ok tt → sane_config c.
Proof.
  unfold Validate, sane_config. intros H. repeat (case_match; [discriminate H|]).
  repeat match goal with E : (_ <? _) = false |- _ => apply Z.ltb_ge in E | E : (_ <=? _) = false |- _ => apply Z.leb_gt in E
    | E : (_ =? _) = false |- _ => apply Z.eqb_neq in E | E : bool_decide _ = false |- _ => apply bool_decide_eq_false in E end.
  split_and!; try done; lia.
Qed.

(** The keys in the order a successful run reads them, last one first. *)
Definition read_order : list bytes := Eval vm_compute in cs_read (FromStore emptyStore).2.
Lemma read_order_keys key : key ∈ read_order ↔ key ∈ broker_keys.
Proof.
  split.
  - intros Hk. assert (HF : Forall (λ k, k ∈ broker_keys) read_order) by (apply (bool_decide_unpack _); vm_compute; exact I).
    by apply (Forall_forall (λ k, k ∈ broker_keys) read_order).
  - intros Hk. assert (HF : Forall (λ k, k ∈ read_order) broker_keys) by (apply (bool_decide_unpack _); vm_compute; exact I).
    by apply (Forall_forall (λ k, k ∈ read_order) broker_keys).
Qed.

(** An accepted configuration holds nothing that was not understood.  When the broker
    accepts a store, the text of every numeric, size, duration and boolean key in it has
    parsed and the values respect the limits the rest of the program needs; the store is
    unchanged, and the unread keys are exactly those that are no keys of the broker. *)
Theorem config_checked st c st' : FromStore st = (Ok c, st') → cs_read st = [] →
  Forall (λ k, is_parsed ParseInteger k st) int_keys ∧ Forall (λ k, is_parsed ParseBytes k st) size_keys ∧
  Forall (λ k, is_parsed ParseDurationMs k st) duration_keys ∧ Forall (λ k, is_parsed ParseBool k st) bool_keys ∧
  sane_config c ∧ segment_bytes (LogOptionsFor (-1) (-1) c) < 2 ^ 32 ∧
  cs_entries st' = cs_entries st ∧ (∀ key, key ∈ UnreadKeys st' ↔ key ∈ (cs_entries st).*1 ∧ key ∉ broker_keys).
Proof.
  intros H Hr. unfold FromStore in H. repeat config_step H. injection H as Hc Hst.
  assert (Hv : Validate c = Ok tt) by (rewrite <- Hc; match goal with P : Validate _ = Ok ?u |- _ => destruct u; exact P end).
  assert (He : cs_entries st' = cs_entries st) by (rewrite <- Hst; reflexivity).
  assert (HR : ∀ key, key ∈ cs_read st' ↔ key ∈ broker_keys).
  { intros key. rewrite <- read_order_keys. rewrite <- Hst. cbn [marked MarkRead cs_read]. rewrite Hr. reflexivity. }
  clear Hc Hst. split_and!; [unfold int_keys|unfold size_keys|unfold duration_keys|unfold bool_keys| | | |].
  1-4: repeat constructor; match goal with |- is_parsed ?p ?k _ => match goal with P : parsed p k _ _ _ |- _ => exact (parsed_is p k _ _ _ P) end end.
  - by apply Validate_sane.
  - destruct (Validate_sane _ Hv) as (_ & _ & _ & _ & _ & Hseg & _). cbn. lia.
  - done.
  - intros key. unfold UnreadKeys. rewrite list_elem_of_In, filter_In, <- list_elem_of_In, He, negb_true_iff, bool_decide_eq_false, HR.
    change (map fst (cs_entries st)) with ((cs_entries st).*1). done.
Qed.

(** ** What narrowing lets through *)

(** The doubling loop never reaches a bound above 2^63: it ends at 0 and stays there. *)
Lemma round_up_zero fuel v : 0 < v → round_up_loop fuel 0 v = None.
Proof. intros Hv. induction fuel as [|fuel IH]; [done|]. cbn. by rewrite (proj2 (Z.ltb_lt 0 v) Hv). Qed.
Lemma round_up_diverges fuel v : 2 ^ 63 < v → round_up_loop fuel 1 v = None.
Proof.
  intros Hv. enough (H : ∀ n fuel, (n ≤ 63)%nat → round_up_loop fuel (2 ^ Z.of_nat (63 - n)) v = None).
  { exact (H 63%nat fuel ltac:(lia)). }
  clear fuel. induction n as [|n IH]; intros fuel Hn; (destruct fuel as [|fuel]; [done|]); cbn [round_up_loop].
  - change (2 ^ Z.of_nat (63 - 0)) with (2 ^ 63). rewrite (proj2 (Z.ltb_lt _ _) Hv). change (u64 (Z.shiftl (2 ^ 63) 1)) with 0. apply round_up_zero. lia.
  - pose proof (Z.pow_lt_mono_r 2 (Z.of_nat (63 - S n)) 63 ltac:(lia) ltac:(lia) ltac:(lia)) as Hlt. rewrite (proj2 (Z.ltb_lt _ _)) by lia.
    replace (u64 (Z.shiftl (2 ^ Z.of_nat (63 - S n)) 1)) with (2 ^ Z.of_nat (63 - n)); [apply IH; lia|].
    rewrite Z.shiftl_mul_pow2, <- Z.pow_add_r by lia. rewrite uwrap_small; [f_equal; lia|]. unfold unsigned. split; [lia|]. apply Z.pow_lt_mono_r; lia.
Qed.

Definition typo_store : ConfigStore := ConfigStore_Set (str "broker.worker.queue.capacity") (str "-1") emptyStore.

(** A negative queue capacity is accepted and stops the broker from starting.  The text -1
    parses, is narrowed to 2^64 - 1, passes [Validate], and the queue's constructor then
    never finishes rounding it up to a power of two, however long it runs. *)
Theorem config_hangs : ∃ c, (FromStore typo_store).1 = Ok c ∧ bc_worker_queue_capacity c = 2 ^ 64 - 1 ∧
  ∀ fuel, round_up_loop fuel 1 (bc_worker_queue_capacity c) = None.
Proof.
  eexists. split; [vm_compute; reflexivity|]. split; [vm_compute; reflexivity|]. intros fuel. apply round_up_diverges. by vm_compute.
Qed.

(** ** Examples *)
Definition example_store : ConfigStore := LoadEnvironment [str "PULSELOG_BROKER_ID=7"; str "PULSELOG_STORAGE_SEGMENT_BYTES=64MB"; str "PULSELOG_BROKRE_ID=8"] emptyStore.
Definition example_run := FromStore example_store.
Lemma config_checked_witness : match example_run with
  | (Ok c, st) => bc_broker_id c = 7 ∧ bc_segment_bytes c = 67108864 ∧ str "brokre.id" ∈ UnreadKeys st
  | _ => False end.
Proof.
  destruct example_run as [[c|e] st] eqn:E.
  - destruct (config_checked example_store c st E eq_refl) as (_ & _ & _ & _ & _ & _ & _ & H).
    unfold example_run in E. vm_compute in E. injection E as <- <-. split; [reflexivity|]. split; [reflexivity|].
    apply H. split; [by apply (bool_decide_unpack _); vm_compute|by apply (bool_decide_unpack _); vm_compute].
  - vm_compute in E. discriminate E.
Defined.
