(* ===== verification/PartitionManager.v ===== *)
(** * PartitionManager: the replicas a broker hosts

    Models src/broker/partition_manager.cc: the map from topic partitions to replicas,
    opening and deleting them along with the cluster metadata, and the sweeps over all of
    them (flushing, retention, expiry, shutdown).  The map is an unordered one: it is kept
    as an association list in any order.  A sweep works on one replica after the other;
    what the file system answers to each is a parameter. *)
From S2P Require Import Prelude Status Buffer Types OrdMap FileUtil Segment Recovery ClusterMetadata PartitionLog Replica Replication BrokerConfig.

(** What opening the files of one partition runs into. *)
Record OpenEnv := mkOpenEnv {
  oe_fuel : nat; oe_now_ms : Z; oe_ensure : Result unit; oe_listing : Result (list bytes);
  oe_files : Z → Result (bool * FileHandle * FileHandle * FileHandle); oe_now : Z }.
Abbreviation Disk := (TopicPartition → OpenEnv).

Abbreviation Partitions := (list (TopicPartition * Node)).
Record PartitionManager := mkManager { pm_partitions : Partitions; pm_closed : bool }.
Definition with_hosted (ps : Partitions) (pm : PartitionManager) : PartitionManager := mkManager ps (pm_closed pm).

Definition Find (tp : TopicPartition) (pm : PartitionManager) : option Node := om_find tp (pm_partitions pm).
Definition All (pm : PartitionManager) : list Node := map snd (pm_partitions pm).
Definition PM_Size (pm : PartitionManager) : Z := zlen (pm_partitions pm).
(** [partitions_.emplace]: an entry that is there stays. *)
Definition um_emplace (tp : TopicPartition) (r : Node) (ps : Partitions) : Partitions :=
  match om_find tp ps with Some _ => ps | None => ps ++ [(tp, r)] end.

(** [std::hash<TopicPartition>]; the hash of a string is the library's. *)
Definition TopicPartition_hash (string_hash : bytes → Z) (tp : TopicPartition) : Z :=
  Z.lxor (string_hash (topic tp)) (u64 (u64 (partition tp) * 0x9E3779B97F4A7C15)).
Definition WorkerFor (string_hash : bytes → Z) (config : BrokerConfig) (tp : TopicPartition) : Z :=
  if bc_worker_threads config <=? 1 then 0 else TopicPartition_hash string_hash tp mod bc_worker_threads config.

(** ** Opening *)

(** [PartitionLog::Open] on what the disk holds. *)
Definition open_log (d : OpenEnv) (o : LogOptions) : Result (PartitionLog * RecoveryReport) :=
  match Log_Open (oe_fuel d) o (oe_now_ms d) (oe_ensure d) (oe_listing d) (oe_files d) (oe_now d) with
  | (Ok (Some report), l) => Ok (l, report)
  | (Ok None, _) => Err kInternal
  | (Err e, _) => Err e
  end.
Definition topic_options (config : BrokerConfig) (tc : TopicConfig) : LogOptions := LogOptionsFor (tc_retention_ms tc) (tc_segment_bytes tc) config.

(** The last part of [OpenPartition], under the exclusive lock. *)
Definition insert_opened (tp : TopicPartition) (r : Node) (pm : PartitionManager) : Result Node * PartitionManager :=
  if pm_closed pm then (Err kClosed, pm) else
  let pm := with_hosted (um_emplace tp r (pm_partitions pm)) pm in
  (match Find tp pm with Some r => Ok r | None => Err kInternal end, pm).
Definition OpenPartition (config : BrokerConfig) (disk : Disk) (tp : TopicPartition) (tc : TopicConfig) (a : PartitionAssignment)
    : SR PartitionManager Node := λ pm,
  match Find tp pm with
  | Some r => (Ok r, pm)
  | None =>
      match open_log (disk tp) (topic_options config tc) with
      | Err e => (Err e, pm)
      | Ok (log, _) => insert_opened tp (new_replica tp a (bc_broker_id config) log) pm
      end
  end.

Record OpenReport := mkOpenReport { or_opened : Z; or_truncated : Z; or_records : Z; or_bytes : Z }.
Fixpoint open_hosted (config : BrokerConfig) (disk : Disk) (md : ClusterMetadata) (hosted : list TopicPartition) (report : OpenReport)
    : SR PartitionManager OpenReport := λ pm,
  match hosted with
  | [] => (Ok report, pm)
  | tp :: hosted =>
      match GetTopic (topic tp) md, GetPartition (topic tp) (partition tp) md with
      | Ok t, Ok a =>
          match open_log (disk tp) (topic_options config (td_config t)) with
          | Err e => (Err e, pm)
          | Ok (log, recovery) =>
              let report := mkOpenReport (or_opened report + 1) (if truncated recovery then or_truncated report + 1 else or_truncated report)
                (u64 (or_records report + records_scanned recovery)) (u64 (or_bytes report + valid_bytes recovery)) in
              open_hosted config disk md hosted report
                (with_hosted (um_emplace tp (new_replica tp a (bc_broker_id config) log) (pm_partitions pm)) pm)
          end
      | _, _ => open_hosted config disk md hosted report pm
      end
  end.
Definition OpenHostedPartitions (config : BrokerConfig) (disk : Disk) (md : ClusterMetadata) : SR PartitionManager OpenReport :=
  open_hosted config disk md (PartitionsHostedBy (bc_broker_id config) md) (mkOpenReport 0 0 0 0).

Fixpoint open_assigned (config : BrokerConfig) (disk : Disk) (tc : TopicConfig) (ps : list PartitionAssignment) : SR PartitionManager unit :=
  match ps with
  | [] => sret tt
  | a :: ps =>
      if negb (HasReplica (bc_broker_id config) a) then open_assigned config disk tc ps else
      OpenPartition config disk (mkTP (tc_name tc) (pa_index a)) tc a ;;; open_assigned config disk tc ps
  end.
Definition OpenPartitionsForTopic (config : BrokerConfig) (disk : Disk) (d : TopicDescriptor) : SR PartitionManager unit :=
  open_assigned config disk (td_config d) (td_partitions d).

(** The manager and the metadata it shares with the broker. *)
Definition PM_CreateTopic (config : BrokerConfig) (disk : Disk) (tc : TopicConfig) : SR (ClusterMetadata * PartitionManager) (TopicDescriptor * bool) :=
  let! created := szoom fst (λ md s, (md, s.2)) (CreateTopic tc) in
  szoom snd (λ pm s, (s.1, pm)) (OpenPartitionsForTopic config disk created.1) ;;;
  sret created.

(** ** Deleting *)

Fixpoint take_out (name : bytes) (ps : list PartitionAssignment) (parts : Partitions) : list Node * Partitions :=
  match ps with
  | [] => ([], parts)
  | a :: ps =>
      let tp := mkTP name (pa_index a) in
      match om_find tp parts with
      | None => take_out name ps parts
      | Some r => let '(removed, parts) := take_out name ps (om_erase tp parts) in (r :: removed, parts)
      end
  end.
(** Failing the waiters and closing the log; the error of the latter is only logged. *)
Definition retire (reason : ErrorCode) (r : Node) : Node * list Completion :=
  let '(r, done, _) := FailAllWaiters reason r in (with_log (Log_Close (pr_log r)).2 r, done).
(** The directories are removed with what is left of the logs; that failing is only
    logged too.  The replicas destroyed at the end have no waiters left to fail. *)
Definition PM_DeleteTopic (name : bytes) : SR (ClusterMetadata * PartitionManager) (list Completion) := λ s,
  let '(md, pm) := s in
  match GetTopic name md with
  | Err e => (Err e, s)
  | Ok d =>
      let '(removed, parts) := take_out name (td_partitions d) (pm_partitions pm) in
      let done := concat (map (λ r, (retire kNotFound r).2) removed) in
      let pm := with_hosted parts pm in
      match DeleteTopic name md with
      | (Ok _, md) => (Ok done, (md, pm))
      | (Err e, md) => (Err e, (md, pm))
      end
  end.

(** ** Sweeps *)

Section Sweeps.
Context (env : TopicPartition → LogEnv) (nanos : DurabilityWaiter → Z).

(** One replica of [FlushDuePartitions]: how its flush went, if it had one. *)
Definition flush_due (now_ms : Z) (r : Node) : option (Result unit) * Node * list Completion :=
  if negb (NeedsFlush now_ms (pr_log r)) then
    if HasPendingWaiters r then let '(r, done, _) := CompleteSatisfiedWaiters nanos now_ms r in (None, r, done)
    else (None, r, [])
  else
    match Flush (env (pr_topic_partition r)) (pr_log r) with
    | (Err e, l) => (Some (Err e), with_log l r, [])
    | (Ok _, l) => let '(r, done, _) := CompleteSatisfiedWaiters nanos now_ms (with_log l r) in (Some (Ok tt), r, done)
    end.
(** A sweep applies its action to every replica and collects what each returned. *)
Definition sweep {A} (action : Node → A * Node * list Completion) (ps : Partitions) : list A * Partitions * list Completion :=
  let rs := map (λ p, (p.1, action p.2)) ps in
  (map (λ p, p.2.1.1) rs, map (λ p, (p.1, p.2.1.2)) rs, concat (map (λ p, p.2.2) rs)).
Definition first_error (results : list (Result unit)) : Result unit :=
  fold_left (λ acc r, match acc, r with Ok _, Err e => Err e | _, _ => acc end) results (Ok tt).
Definition count_ok (results : list (option (Result unit))) : Z :=
  zlen (List.filter (λ o, match o with Some (Ok _) => true | _ => false end) results).
Definition FlushDuePartitions (now_ms : Z) (pm : PartitionManager) : Result Z * PartitionManager * list Completion :=
  let '(results, ps, done) := sweep (flush_due now_ms) (pm_partitions pm) in
  (match first_error (omap id results) with Ok _ => Ok (count_ok results) | Err e => Err e end, with_hosted ps pm, done).

Definition flush_one (r : Node) : Result unit * Node * list Completion :=
  let '(res, l) := Flush (env (pr_topic_partition r)) (pr_log r) in (res, with_log l r, []).
Definition FlushAll (pm : PartitionManager) : Result unit * PartitionManager :=
  let '(results, ps, _) := sweep flush_one (pm_partitions pm) in (first_error results, with_hosted ps pm).

(** [del] and [now] as for the log's own retention; a failure is only logged. *)
Definition PM_EnforceRetention (del : TopicPartition → nat → bool * bool * bool) (now : Z) (pm : PartitionManager) : Z * PartitionManager :=
  let action r := let '(res, l) := EnforceRetention (del (pr_topic_partition r)) now (pr_log r) in
    (match res with Ok n => n | Err _ => 0 end, with_log l r, []) in
  let '(counts, ps, _) := sweep action (pm_partitions pm) in (fold_right Z.add 0 counts, with_hosted ps pm).

Definition PM_ExpireWaiters (now_ms : Z) (pm : PartitionManager) : Z * PartitionManager * list Completion :=
  let '(counts, ps, done) := sweep (λ r, let '(r, done, n) := ExpireWaiters now_ms r in (n, r, done)) (pm_partitions pm) in
  (fold_right Z.add 0 counts, with_hosted ps pm, done).

(** [Close]: every waiter fails first, then every log is flushed and closed.  The closed
    replicas, destroyed at the end, are returned. *)
Definition close_one (r : Node) : Node := with_log (Log_Close (Flush (env (pr_topic_partition r)) (pr_log r)).2).2 r.
Definition PM_Close (pm : PartitionManager) : list Node * PartitionManager * list Completion :=
  if pm_closed pm then ([], pm, []) else
  let failed := map (λ p, FailAllWaiters kUnavailable p.2) (pm_partitions pm) in
  (map (λ f, close_one f.1.1) failed, mkManager [] true, concat (map (λ f, f.1.2) failed)).
End Sweeps.

Record AggregateStats := mkAggregate {
  ag_partitions : Z; ag_leaders : Z; ag_total_bytes : Z; ag_total_records : Z; ag_pending_waiters : Z; ag_max_lag : Z;
  ag_flush_count : Z; ag_flush_nanos_max : Z }.
Definition add_stats (a : AggregateStats) (r : Node) : AggregateStats :=
  let s := Replica_GetStats r in
  let ls := Log_GetStats (pr_log r) in
  mkAggregate (ag_partitions a + 1) (if rs_leader s then ag_leaders a + 1 else ag_leaders a) (u64 (ag_total_bytes a + rs_total_bytes s))
    (u64 (ag_total_records a + (rs_log_end s - rs_log_start s))) (ag_pending_waiters a + rs_pending s) (Z.max (ag_max_lag a) (rs_max_lag s))
    (u64 (ag_flush_count a + st_flush_count ls)) (Z.max (ag_flush_nanos_max a) (st_flush_nanos_max ls)).
Definition PM_GetStats (pm : PartitionManager) : AggregateStats := fold_left add_stats (All pm) (mkAggregate 0 0 0 0 0 0 0 0).
