(* ===== verification/PartitionManagerTheorems.v ===== *)
(** * PartitionManagerTheorems: no waiter is forgotten, whatever the sweep

    A flush sweep leaves no answerable request behind on any partition it could serve,
    every sweep and every removal accounts for each waiting request, and what is opened
    and deleted is what the metadata says. *)
From S2P Require Import Prelude Status Buffer Types OrdMap FileUtil Segment Recovery ClusterMetadata ClusterMetadataTheorems PartitionLog PartitionLogSpec PartitionLogRoll PartitionLogTheorems PartitionLogCrash Replica ReplicaTheorems Replication BrokerConfig PartitionManager.

(** A replica is filed under its own name, with its counter of waiters in step. *)
Definition hosted_ok (p : TopicPartition * Node) : Prop :=
  pr_topic_partition p.2 = p.1 ∧ pr_pending p.2 = zlen (pr_waiters p.2).
Record manager_ok (pm : PartitionManager) : Prop := {
  mo_keys : NoDup (pm_partitions pm).*1;
  mo_hosted : Forall hosted_ok (pm_partitions pm) }.

Definition waiting (ps : Partitions) : list Z := concat (map (λ p, map dw_callback (pr_waiters p.2)) ps).
Definition answered (done : list Completion) : list Z := map co_callback done.

(** Nothing that could be answered is left waiting. *)
Definition served (nanos : DurabilityWaiter → Z) (r : Node) : Prop := Forall (λ w, satisfied nanos r w = false) (pr_waiters r).

Section Flushing.
Context (env : TopicPartition → LogEnv) (nanos : DurabilityWaiter → Z) (now : Z).

Lemma settled_served (r : Node) ws out : settled nanos r ws out → served nanos out.1.
Proof.
  intros [S1 _ _ _ S5 S6 S7 S8]. apply Forall_forall. intros w Hw.
  assert (Hk : waiter_key w ∈ map waiter_key (List.filter (λ w, negb (satisfied nanos r w)) ws)).
  { rewrite <- S1. apply list_elem_of_fmap. by exists w. }
  apply list_elem_of_fmap in Hk as (w' & Hk & Hin). apply list_elem_of_In, List.filter_In in Hin as [_ Hs].
  assert (HE : satisfied nanos out.1 w = satisfied nanos r w) by (unfold satisfied, examine; by rewrite S5, S6, S7).
  rewrite HE, (satisfied_key nanos r w w' Hk). by apply negb_true_iff.
Qed.

(** The requests one replica's turn is to answer: those whose acknowledgement mode holds once
    the flush that was due has succeeded; none when it has failed. *)
Definition answerable (r : Node) : list Z :=
  if NeedsFlush now (pr_log r) then
    match Flush (env (pr_topic_partition r)) (pr_log r) with
    | (Ok _, l) => map dw_callback (List.filter (satisfied nanos (with_log l r)) (pr_waiters r))
    | (Err _, _) => []
    end
  else map dw_callback (List.filter (satisfied nanos r) (pr_waiters r)).

(** One replica of the sweep. *)
Record flushed_as (r : Node) (out : option (Result unit) * Node * list Completion) : Prop := {
  fa_key : pr_topic_partition out.1.2 = pr_topic_partition r;
  fa_pending : pr_pending out.1.2 = zlen (pr_waiters out.1.2);
  fa_perm : map dw_callback (pr_waiters r) ≡ₚ map dw_callback (pr_waiters out.1.2) ++ map co_callback out.2;
  fa_done : map co_callback out.2 = answerable r ∧ Forall (λ c, co_status c = kOk) out.2;
  fa_served : match out.1.1 with Some (Err _) => True | _ => served nanos out.1.2 end;
  fa_log : match out.1.1 with
           | None => NeedsFlush now (pr_log r) = false ∧ pr_log out.1.2 = pr_log r
           | Some res => NeedsFlush now (pr_log r) = true ∧ (res, pr_log out.1.2) = Flush (env (pr_topic_partition r)) (pr_log r)
           end }.

Lemma settle_flushed (r : Node) : pr_pending r = zlen (pr_waiters r) →
  let out := settle nanos r in
  pr_topic_partition out.1 = pr_topic_partition r ∧ pr_pending out.1 = zlen (pr_waiters out.1) ∧
  map dw_callback (pr_waiters r) ≡ₚ map dw_callback (pr_waiters out.1) ++ map co_callback out.2 ∧
  (map co_callback out.2 = map dw_callback (List.filter (satisfied nanos r) (pr_waiters r)) ∧ Forall (λ c, co_status c = kOk) out.2) ∧
  served nanos out.1 ∧ pr_log out.1 = pr_log r.
Proof.
  intros Hp out. pose proof (settle_settled nanos r) as HS. pose proof (settled_accounted nanos r _ _ HS) as [A1 _ A3].
  split_and!; [apply (settle_tp nanos)|exact A3|exact A1|apply HS| |by eapply settled_served|apply HS].
  eapply Forall_impl; [apply HS|]. by intros c [? _].
Qed.
Lemma flush_due_as r : pr_pending r = zlen (pr_waiters r) → flushed_as r (flush_due env nanos now r).
Proof.
  intros Hp. unfold flush_due. destruct (NeedsFlush now (pr_log r)) eqn:EN; cbn [negb].
  - destruct (Flush (env (pr_topic_partition r)) (pr_log r)) as [[[]|e] l] eqn:EF; unfold CompleteSatisfiedWaiters.
    + destruct (settle_flushed (with_log l r) Hp) as (H1 & H2 & H3 & HD & H4 & H5). destruct (settle nanos (with_log l r)) as [r' done]. cbn [fst snd] in *.
      constructor; cbn [fst snd]; try done; [unfold answerable; by rewrite EN, EF|]. rewrite H5. by split.
    + constructor; cbn [fst snd]; try done; [cbn; by rewrite app_nil_r|]. unfold answerable. by rewrite EN, EF.
  - unfold HasPendingWaiters, CompleteSatisfiedWaiters. destruct (Z.eqb_spec (pr_pending r) 0) as [E|E]; cbn [negb].
    + assert (HW : pr_waiters r = []) by (apply zlen_0_nil; congruence). constructor; cbn [fst snd]; try done; [by rewrite app_nil_r|unfold answerable; by rewrite EN, HW|]. unfold served. by rewrite HW.
    + destruct (settle_flushed r Hp) as (H1 & H2 & H3 & HD & H4 & H5). destruct (settle nanos r) as [r' done]. cbn [fst snd] in *. constructor; cbn [fst snd]; try done. unfold answerable. by rewrite EN.
Qed.
End Flushing.

(** ** Sweeps in general *)
Section Sweep.
Context {A : Type} (action : Node → A * Node * list Completion).
Lemma sweep_keys ps : (sweep action ps).1.2.*1 = ps.*1.
Proof. unfold sweep. cbn. induction ps as [|p ps IH]; [done|]. cbn. by f_equal. Qed.
Lemma sweep_find tp ps : om_find tp (sweep action ps).1.2 = (λ r, (action r).1.2) <$> om_find tp ps.
Proof. unfold sweep. cbn. induction ps as [|[k r] ps IH]; [done|]. cbn. by destruct (decide (tp = k)). Qed.
Lemma sweep_results ps : (sweep action ps).1.1 = map (λ p, (action p.2).1.1) ps.
Proof. unfold sweep. cbn. by rewrite map_map. Qed.
Lemma sweep_waiting ps :
  (∀ p, p ∈ ps → map dw_callback (pr_waiters p.2) ≡ₚ map dw_callback (pr_waiters (action p.2).1.2) ++ map co_callback (action p.2).2) →
  waiting ps ≡ₚ waiting (sweep action ps).1.2 ++ answered (sweep action ps).2.
Proof.
  intros H. unfold waiting, answered, sweep. cbn. induction ps as [|p ps IH]; [done|]. cbn. rewrite map_app.
  rewrite (H p (list_elem_of_here _ _)), IH by (intros q Hq; apply H; by right). cbn. rewrite <- !app_assoc. apply Permutation_app_head.
  rewrite !app_assoc. apply Permutation_app_tail. apply Permutation_app_comm.
Qed.
Lemma sweep_done ps : (sweep action ps).2 = concat (map (λ p, (action p.2).2) ps).
Proof. unfold sweep. cbn [snd]. by rewrite map_map. Qed.
Lemma sweep_ok ps : Forall hosted_ok ps →
  (∀ r, pr_pending r = zlen (pr_waiters r) → pr_topic_partition (action r).1.2 = pr_topic_partition r ∧ pr_pending (action r).1.2 = zlen (pr_waiters (action r).1.2)) →
  Forall hosted_ok (sweep action ps).1.2.
Proof.
  intros Hps Ha. unfold sweep. cbn. rewrite map_map. apply Forall_map. eapply Forall_impl; [exact Hps|]. intros [k r] [H1 H2]. cbn in *.
  destruct (Ha r H2) as [H3 H4]. split; cbn; [congruence|done].
Qed.
End Sweep.

Lemma pm_swept_ok {A} (action : Node → A * Node * list Completion) pm : manager_ok pm →
  (∀ r, pr_pending r = zlen (pr_waiters r) → pr_topic_partition (action r).1.2 = pr_topic_partition r ∧ pr_pending (action r).1.2 = zlen (pr_waiters (action r).1.2)) →
  manager_ok (with_hosted (sweep action (pm_partitions pm)).1.2 pm).
Proof. intros [H1 H2] Ha. constructor; cbn [with_hosted pm_partitions]; [by rewrite sweep_keys|by apply sweep_ok]. Qed.

Lemma first_error_ok rs : first_error rs = Ok tt ↔ Forall (λ r, r = Ok tt) rs.
Proof.
  unfold first_error. assert (HE : ∀ (rs : list (Result unit)) e, fold_left (λ acc r : Result unit, match acc, r with Ok _, Err e => Err e | _, _ => acc end) rs (Err e) = Err e).
  { clear. induction rs as [|r rs IH]; intros e; [done|]. apply IH. }
  induction rs as [|[[]|e] rs IH]; [done|..]; cbn [fold_left].
  - rewrite IH. split; [by constructor|by inversion 1].
  - rewrite HE. split; [done|by inversion 1].
Qed.
Lemma om_find_hosted (ps : Partitions) tp r : Forall hosted_ok ps → om_find tp ps = Some r → pr_topic_partition r = tp ∧ pr_pending r = zlen (pr_waiters r).
Proof.
  induction 1 as [|[k x] ps [H1 H2] _ IH]; [done|]. cbn in *. destruct (decide (tp = k)) as [->|]; [|done]. intros [= <-]. by split.
Qed.
Lemma due_ok env nanos now ps : (∀ r, pr_pending r = zlen (pr_waiters r) → flushed_as env nanos now r (flush_due env nanos now r)) → Forall hosted_ok ps →
  Forall (λ r, r = Ok tt) (omap id (map (λ p : TopicPartition * Node, (flush_due env nanos now p.2).1.1) ps)) ↔
  ∀ tp r, (tp, r) ∈ ps → NeedsFlush now (pr_log r) = true → (Flush (env tp) (pr_log r)).1 = Ok tt.
Proof.
  intros HF. induction 1 as [|[k r] ps [Hk Hp] _ IH]; [split; [intros _ tp r []%not_elem_of_nil|constructor]|]. cbn [fst snd] in Hk, Hp. subst k.
  cbn [map fst snd]. destruct (HF r Hp) as [_ _ _ _ _ F5].
  assert (HS : (∀ tp x, (tp, x) ∈ (pr_topic_partition r, r) :: ps → NeedsFlush now (pr_log x) = true → (Flush (env tp) (pr_log x)).1 = Ok tt) ↔
    (NeedsFlush now (pr_log r) = true → (Flush (env (pr_topic_partition r)) (pr_log r)).1 = Ok tt) ∧
    ∀ tp x, (tp, x) ∈ ps → NeedsFlush now (pr_log x) = true → (Flush (env tp) (pr_log x)).1 = Ok tt).
  { split; [intros H; split; [apply H; left|intros tp x Hx; apply H; by right]|]. intros [H1 H2] tp x [[= -> ->]|Hx]%elem_of_cons; auto. }
  rewrite HS, <- IH. destruct (flush_due env nanos now r) as [[[res|] r'] d]; cbn [fst snd omap list_omap id] in *; destruct F5 as [-> F5].
  - rewrite Forall_cons, <- F5. cbn. split; intros [H1 H2]; (split; [|done]); [done|]. by apply H1.
  - split; [by split|]. by intros [_ ?].
Qed.

Lemma swept_answers env nanos now ps : Forall hosted_ok ps →
  answered (sweep (flush_due env nanos now) ps).2 = concat (map (λ p, answerable env nanos now p.2) ps) ∧
  Forall (λ c, co_status c = kOk) (sweep (flush_due env nanos now) ps).2.
Proof.
  rewrite sweep_done. unfold answered. induction 1 as [|p ps [_ Hp] _ [IH1 IH2]]; [by split|]. cbn [map concat].
  destruct (fa_done _ _ _ _ _ (flush_due_as env nanos now p.2 Hp)) as [H1 H2]. rewrite map_app, IH1, H1. split; [done|]. by apply Forall_app.
Qed.

(** C9. A flush sweep answers exactly the requests it can.  The answered requests are, in
    order, those of each partition whose acknowledgement mode holds after the partition's
    flush, if it was due and succeeded, or as it stands if none was due, and none of a
    partition whose flush failed; all with OK.  Afterwards no request that its partition
    could answer is left waiting on any partition, also on those that had nothing to flush,
    except where the partition's own flush failed; a flush that succeeded has moved the
    flushed offset to the log end.  The same partitions are hosted, every waiting
    request is still waiting or has been answered, once, and the sweep reports an error
    exactly when some flush failed. *)
Theorem flush_sweep env nanos now pm : manager_ok pm →
  let '(res, pm', done) := FlushDuePartitions env nanos now pm in
  manager_ok pm' ∧ (pm_partitions pm').*1 = (pm_partitions pm).*1 ∧
  waiting (pm_partitions pm) ≡ₚ waiting (pm_partitions pm') ++ answered done ∧
  (answered done = concat (map (λ p, answerable env nanos now p.2) (pm_partitions pm)) ∧ Forall (λ c, co_status c = kOk) done) ∧
  (∀ tp r, Find tp pm = Some r → ∃ r', Find tp pm' = Some r' ∧
     if NeedsFlush now (pr_log r) then
       pr_log r' = (Flush (env tp) (pr_log r)).2 ∧
       ((Flush (env tp) (pr_log r)).1 = Ok tt → served nanos r' ∧ ∀ rss, log_inv (pr_log r) rss → flushed_offset (pr_log r') = log_end_offset (pr_log r))
     else pr_log r' = pr_log r ∧ served nanos r') ∧
  ((∃ n, res = Ok n) ↔ ∀ tp r, (tp, r) ∈ pm_partitions pm → NeedsFlush now (pr_log r) = true → (Flush (env tp) (pr_log r)).1 = Ok tt).
Proof.
  intros Hok. unfold FlushDuePartitions. pose proof Hok as [Hk Hh]. pose proof (λ r, flush_due_as env nanos now r) as HF.
  pose proof (sweep_keys (flush_due env nanos now) (pm_partitions pm)) as S1. pose proof (λ tp, sweep_find (flush_due env nanos now) tp (pm_partitions pm)) as S2.
  pose proof (sweep_waiting (flush_due env nanos now) (pm_partitions pm)) as S3. pose proof (pm_swept_ok (flush_due env nanos now) pm Hok) as S4.
  pose proof (sweep_results (flush_due env nanos now) (pm_partitions pm)) as S5. pose proof (swept_answers env nanos now _ Hh) as S6.
  destruct (sweep (flush_due env nanos now) (pm_partitions pm)) as [[results ps] done]. cbn [fst snd with_hosted pm_partitions Find] in *. split_and!; [| | |exact (proj1 S6)|exact (proj2 S6)| |].
  - apply S4. intros r Hr. destruct (HF r Hr). done.
  - done.
  - apply S3. intros p Hp. rewrite Forall_forall in Hh. destruct (HF p.2 (proj2 (Hh p Hp))). done.
  - intros tp r Hr. unfold Find in *. cbn [pm_partitions with_hosted]. rewrite S2, Hr. eexists. split; [reflexivity|]. destruct (om_find_hosted _ _ _ Hh Hr) as [<- Hp].
    destruct (HF r Hp) as [F1 F2 F3 _ F4 F5]. destruct (flush_due env nanos now r) as [[[res|] r'] d]; cbn [fst snd] in *.
    + destruct F5 as [-> F5]. rewrite <- F5. cbn [fst snd]. split; [done|]. intros ->. split; [done|]. intros rss Hi.
      destruct (Flush_spec (env (pr_topic_partition r)) (pr_log r) rss Hi) as [_ Hfl]. rewrite <- F5 in Hfl. cbn [fst snd] in Hfl. apply Hfl.
    + destruct F5 as [-> F5]. by split.
  - rewrite <- (due_ok env nanos now _ HF Hh), <- S5, <- first_error_ok. destruct (first_error (omap id results)) as [[]|e]; [|by split; [intros [??]|]].
    split; [done|]. intros _. by eexists.
Qed.

(** ** The map *)
Lemma um_erase_find k tp (ps : Partitions) : NoDup ps.*1 → om_find tp (om_erase k ps) = if decide (tp = k) then None else om_find tp ps.
Proof.
  induction ps as [|[k' r] ps IH]; cbn; [by destruct (decide (tp = k))|]. intros [Hn Hd]%NoDup_cons. specialize (IH Hd).
  destruct (decide (k = k')) as [->|Hne].
  - destruct (decide (tp = k')) as [->|]; [|done]. destruct (om_find k' ps) as [r'|] eqn:E; [|done]. apply om_find_In in E.
    destruct Hn. apply list_elem_of_fmap. by exists (k', r').
  - cbn. destruct (decide (tp = k')) as [->|]; [by destruct (decide (k' = k)); congruence|done].
Qed.
Lemma um_erase_keys k (ps : Partitions) x : x ∈ (om_erase k ps).*1 → x ∈ ps.*1.
Proof.
  induction ps as [|[k' r] ps IH]; [done|]. cbn. destruct (decide (k = k')) as [->|]; [by right|]. intros [->|H]%elem_of_cons; [left|right; auto].
Qed.
Lemma um_erase_ok k (ps : Partitions) : NoDup ps.*1 → Forall hosted_ok ps → NoDup (om_erase k ps).*1 ∧ Forall hosted_ok (om_erase k ps).
Proof.
  induction ps as [|[k' r] ps IH]; [done|]. cbn. intros [Hn Hd]%NoDup_cons Hh. inversion Hh as [|? ? Hr Hh']; subst. destruct (IH Hd Hh') as [H1 H2].
  destruct (decide (k = k')); [done|]. cbn. split; [constructor; [intros H; apply Hn; exact (um_erase_keys _ _ _ H)|done]|by constructor].
Qed.
Lemma um_erase_waiting k r (ps : Partitions) : om_find k ps = Some r → waiting ps ≡ₚ map dw_callback (pr_waiters r) ++ waiting (om_erase k ps).
Proof.
  induction ps as [|[k' r'] ps IH]; [done|]. cbn. destruct (decide (k = k')) as [->|]; [by intros [= ->]|]. intros H. unfold waiting in *. cbn. rewrite (IH H).
  rewrite !app_assoc. apply Permutation_app_tail, Permutation_app_comm.
Qed.
Lemma um_find_None tp (ps : Partitions) : om_find tp ps = None → tp ∉ ps.*1.
Proof. induction ps as [|[k r] ps IH]; [intros _ H; by apply not_elem_of_nil in H|]. cbn. destruct (decide (tp = k)) as [->|Hne]; [done|]. intros H [->|Hin]%elem_of_cons; [done|by apply IH]. Qed.
Lemma um_find_app tp (ps qs : Partitions) : om_find tp (ps ++ qs) = match om_find tp ps with Some r => Some r | None => om_find tp qs end.
Proof. induction ps as [|[k r] ps IH]; [done|]. cbn. by destruct (decide (tp = k)). Qed.
Lemma um_emplace_find k r tp (ps : Partitions) :
  om_find tp (um_emplace k r ps) = match om_find tp ps with Some x => Some x | None => if decide (tp = k) then Some r else None end.
Proof.
  unfold um_emplace. destruct (om_find k ps) as [x|] eqn:E.
  - destruct (om_find tp ps) eqn:E2; [done|]. destruct (decide (tp = k)) as [->|]; [congruence|done].
  - rewrite um_find_app. destruct (om_find tp ps); [done|]. cbn. by destruct (decide (tp = k)).
Qed.
Lemma um_emplace_ok k r (ps : Partitions) : hosted_ok (k, r) → NoDup ps.*1 → Forall hosted_ok ps → NoDup (um_emplace k r ps).*1 ∧ Forall hosted_ok (um_emplace k r ps).
Proof.
  intros Hr Hd Hh. unfold um_emplace. destruct (om_find k ps) eqn:E; [done|]. apply um_find_None in E. split.
  - rewrite fmap_app. apply NoDup_app. split; [done|]. split; [|apply NoDup_singleton]. intros x Hx ->%list_elem_of_singleton. done.
  - apply Forall_app. split; [done|]. by constructor.
Qed.

Lemma take_out_spec name ps parts : NoDup parts.*1 → Forall hosted_ok parts →
  let '(removed, parts') := take_out name ps parts in
  NoDup parts'.*1 ∧ Forall hosted_ok parts' ∧
  waiting parts ≡ₚ waiting parts' ++ concat (map (λ r, map dw_callback (pr_waiters r)) removed) ∧
  (∀ tp, om_find tp parts' = if decide (tp ∈ map (λ a, mkTP name (pa_index a)) ps) then None else om_find tp parts).
Proof.
  revert parts. induction ps as [|a ps IH]; intros parts Hd Hh; cbn [take_out map].
  { split_and!; try done. by rewrite app_nil_r. }
  set (tp := mkTP name (pa_index a)). destruct (om_find tp parts) as [r|] eqn:E.
  - destruct (um_erase_ok tp parts Hd Hh) as [Hd' Hh']. specialize (IH _ Hd' Hh'). destruct (take_out name ps (om_erase tp parts)) as [removed parts'].
    destruct IH as (I1 & I2 & I3 & I4). split_and!; try done.
    + rewrite (um_erase_waiting tp r parts E), I3. cbn. rewrite !app_assoc. apply Permutation_app_tail, Permutation_app_comm.
    + intros x. rewrite I4, um_erase_find by done. destruct (decide (x = tp)) as [->|Hne].
      * rewrite (decide_True _ _ (list_elem_of_here tp _)). by destruct (decide _).
      * apply decide_ext. rewrite elem_of_cons. naive_solver.
  - specialize (IH parts Hd Hh). destruct (take_out name ps parts) as [removed parts']. destruct IH as (I1 & I2 & I3 & I4). split_and!; try done.
    intros x. rewrite I4. destruct (decide (x = tp)) as [->|Hne].
    + rewrite (decide_True _ _ (list_elem_of_here tp _)), E. by destruct (decide _).
    + apply decide_ext. rewrite elem_of_cons. naive_solver.
Qed.
Lemma retire_done reason r : answered (retire reason r).2 = map dw_callback (pr_waiters r) ∧ Forall (λ c, co_status c = reason) (retire reason r).2.
Proof.
  unfold retire, FailAllWaiters, answered. cbn [snd]. split; [apply complete_callbacks|]. eapply Forall_impl; [apply complete_status|]. by intros c [? _].
Qed.

(** ** Opening *)
Lemma open_assigned_spec config disk tc ps pm pm' : manager_ok pm → open_assigned config disk tc ps pm = (Ok tt, pm') →
  manager_ok pm' ∧ pm_closed pm' = pm_closed pm ∧
  (∀ tp r, Find tp pm = Some r → Find tp pm' = Some r) ∧
  (∀ a, a ∈ ps → HasReplica (bc_broker_id config) a = true → is_Some (Find (mkTP (tc_name tc) (pa_index a)) pm')) ∧
  (∀ tp r, Find tp pm = None → Find tp pm' = Some r → ∃ a log report, a ∈ ps ∧ tp = mkTP (tc_name tc) (pa_index a) ∧
     HasReplica (bc_broker_id config) a = true ∧ open_log (disk tp) (topic_options config tc) = Ok (log, report) ∧ r = new_replica tp a (bc_broker_id config) log).
Proof.
  revert pm. induction ps as [|a ps IH]; intros pm Hok; cbn [open_assigned].
  { intros [= <-]. split_and!; try done; [intros a []%not_elem_of_nil|congruence]. }
  destruct (HasReplica (bc_broker_id config) a) eqn:EH; cbn [negb].
  - set (tp := mkTP (tc_name tc) (pa_index a)). unfold sbind, OpenPartition. destruct (Find tp pm) as [r0|] eqn:EF.
    + intros H. destruct (IH pm Hok H) as (I1 & I2 & I3 & I4 & I5). split_and!; try done.
      * intros x [->|Hx]%elem_of_cons Hx2; [fold tp; rewrite (I3 _ _ EF); by eexists|by apply I4].
      * intros x r Hx Hr. destruct (I5 x r Hx Hr) as (a' & log & rep & H1 & H2). exists a', log, rep. split; [by right|done].
    + destruct (open_log (disk tp) (topic_options config tc)) as [[log rep]|e] eqn:EO; [|done]. unfold insert_opened. destruct (pm_closed pm) eqn:EC; [done|].
      set (nr := new_replica tp a (bc_broker_id config) log). set (pm1 := with_hosted _ pm).
      assert (HF : ∀ x, Find x pm1 = match Find x pm with Some y => Some y | None => if decide (x = tp) then Some nr else None end).
      { intros x. unfold Find, pm1. cbn. apply um_emplace_find. }
      rewrite HF, EF, decide_True by done. intros H. assert (Hok1 : manager_ok pm1).
      { destruct (um_emplace_ok tp nr (pm_partitions pm)) as [H1 H2]; [by split|apply Hok|apply Hok|by constructor]. }
      destruct (IH pm1 Hok1 H) as (I1 & I2 & I3 & I4 & I5). split_and!; try done.
      * rewrite I2. exact EC.
      * intros x r Hx. apply I3. by rewrite HF, Hx.
      * intros x [->|Hx]%elem_of_cons Hx2; [|by apply I4]. exists nr. apply I3. fold tp. by rewrite HF, EF, decide_True.
      * intros x r Hx Hr. destruct (decide (x = tp)) as [->|Hne].
        -- assert (Hr' : Find tp pm' = Some nr) by (apply I3; by rewrite HF, EF, decide_True). assert (r = nr) as -> by congruence. exists a, log, rep. split; [left|]. by split_and!.
        -- destruct (I5 x r) as (a' & log' & rep' & H1 & H2); [rewrite HF, Hx, decide_False by done; done|done|]. exists a', log', rep'. split; [by right|done].
  - intros H. destruct (IH pm Hok H) as (I1 & I2 & I3 & I4 & I5). split_and!; try done.
    + intros x [->|Hx]%elem_of_cons Hx2; [congruence|by apply I4].
    + intros x r Hx Hr. destruct (I5 x r Hx Hr) as (a' & log & rep & H1 & H2). exists a', log, rep. split; [by right|done].
Qed.

(** A topic's life on a broker.  Creating a topic, when it succeeds, registers it and leaves
    a replica for every one of its partitions this broker is assigned: the one that was
    there, or a new one on the log found on disk under the topic's options, with nothing
    waiting; other partitions are not touched.  Deleting it removes the topic and all its
    replicas and nothing else, and every request waiting on one of them is answered once,
    with [kNotFound]. *)
Theorem topic_lifecycle config disk tc md pm : manager_ok pm → om_wf (md_topics md) →
  (∀ d created md' pm', PM_CreateTopic config disk tc (md, pm) = (Ok (d, created), (md', pm')) →
     let tp a := mkTP (tc_name (td_config d)) (pa_index a) in
     GetTopic (tc_name tc) md' = Ok d ∧ om_wf (md_topics md') ∧ manager_ok pm' ∧
     (∀ x r, Find x pm = Some r → Find x pm' = Some r) ∧
     (∀ a, a ∈ td_partitions d → HasReplica (bc_broker_id config) a = true → ∃ r, Find (tp a) pm' = Some r) ∧
     (∀ x r, Find x pm = None → Find x pm' = Some r → ∃ a log report, a ∈ td_partitions d ∧ x = tp a ∧ HasReplica (bc_broker_id config) a = true ∧
        open_log (disk x) (topic_options config (td_config d)) = Ok (log, report) ∧ r = new_replica x a (bc_broker_id config) log)) ∧
  (∀ name d, GetTopic name md = Ok d → ∃ done md' pm', PM_DeleteTopic name (md, pm) = (Ok done, (md', pm')) ∧
     HasTopic name md' = false ∧ manager_ok pm' ∧
     (∀ x, Find x pm' = if decide (x ∈ map (λ a, mkTP name (pa_index a)) (td_partitions d)) then None else Find x pm) ∧
     waiting (pm_partitions pm) ≡ₚ waiting (pm_partitions pm') ++ answered done ∧ Forall (λ c, co_status c = kNotFound) done).
Proof.
  intros Hok Hwf. split.
  - intros d created md' pm'. unfold PM_CreateTopic, szoom, sbind. cbn [fst snd]. pose proof (CreateTopic_cases tc md) as HC.
    destruct (CreateTopic tc md) as [[[d0 c0]|e] md1]; cbn [fst snd]; [|done]. unfold OpenPartitionsForTopic.
    destruct (open_assigned config disk (td_config d0) (td_partitions d0) pm) as [[[]|e] pm1] eqn:EO; cbn [fst snd]; [|done].
    intros [= <- <- <- <-]. destruct (open_assigned_spec _ _ _ _ _ _ Hok EO) as (H1 & _ & H3 & H4 & H5).
    assert (HT : GetTopic (tc_name tc) md1 = Ok d0 ∧ om_wf (md_topics md1)).
    { unfold GetTopic. destruct c0.
      - destruct HC as (_ & Hn & _ & ->). cbn. rewrite om_find_emplace, decide_True, Hn by done. split; [done|by apply om_emplace_wf].
      - destruct HC as (-> & _ & -> & _). by split. }
    destruct HT as [HT1 HT2]. split_and!; done.
  - intros name d HG. unfold PM_DeleteTopic. rewrite HG. pose proof (take_out_spec name (td_partitions d) (pm_partitions pm) (mo_keys _ Hok) (mo_hosted _ Hok)) as HT.
    destruct (take_out name (td_partitions d) (pm_partitions pm)) as [removed parts]. destruct HT as (T1 & T2 & T3 & T4).
    unfold GetTopic in HG. unfold DeleteTopic. destruct (om_find name (md_topics md)) as [d'|] eqn:EF; [|done].
    eexists _, _, _. split; [reflexivity|]. split_and!.
    + unfold HasTopic. cbn. by rewrite om_find_erase, decide_True by done.
    + by constructor.
    + exact T4.
    + cbn. rewrite T3. apply Permutation_app_head. clear. unfold answered. rewrite concat_map, map_map. apply reflexive_eq. f_equal.
      apply map_ext. intros r. symmetry. apply retire_done.
    + apply Forall_concat, Forall_map, Forall_forall. intros r _. apply retire_done.
Qed.

(** ** Expiry and shutdown *)
Lemma expire_as now (r : Node) : pr_pending r = zlen (pr_waiters r) → waiters_accounted (pr_waiters r) (ExpireWaiters now r).1.
Proof.
  intros Hp. pose proof (step_accounted (λ _, 0) (RExpire now) r Hp) as H. cbn [replica_step added] in H. by rewrite app_nil_r in H.
Qed.
Lemma fold_add_zlen {A} (ls : list (list A)) : fold_right Z.add 0 (map zlen ls) = zlen (concat ls).
Proof. induction ls as [|l ls IH]; [done|]. cbn. by rewrite IH, zlen_app. Qed.

(** The two ways a waiting request ends without its condition.  An expiry sweep answers
    exactly the requests whose deadline has passed, on every partition, with [kTimeout],
    and reports their number; the rest keep waiting.  Closing the manager answers every
    waiting request with [kUnavailable] before it flushes and closes the logs; nothing is
    hosted afterwards, nothing can be opened any more, and closing again does nothing. *)
Theorem manager_ends env now pm : manager_ok pm →
  (let '(n, pm', done) := PM_ExpireWaiters now pm in
   manager_ok pm' ∧ (pm_partitions pm').*1 = (pm_partitions pm).*1 ∧ n = zlen done ∧
   waiting (pm_partitions pm) ≡ₚ waiting (pm_partitions pm') ++ answered done ∧ Forall (λ c, co_status c = kTimeout) done ∧
   (∀ tp r, Find tp pm = Some r → ∃ r', Find tp pm' = Some r' ∧ pr_log r' = pr_log r ∧ pr_waiters r' = List.filter (λ w, now <? dw_deadline_ms w) (pr_waiters r))) ∧
  (pm_closed pm = false → let '(gone, pm', done) := PM_Close env pm in
   pm' = mkManager [] true ∧ answered done = waiting (pm_partitions pm) ∧ Forall (λ c, co_status c = kUnavailable) done ∧
   map pr_log gone = map (λ p, (Log_Close (Flush (env p.1) (pr_log p.2)).2).2) (pm_partitions pm) ∧
   PM_Close env pm' = ([], pm', []) ∧ ∀ config disk tp tc a r, (OpenPartition config disk tp tc a pm').1 ≠ Ok r).
Proof.
  intros Hok. split.
  - unfold PM_ExpireWaiters. set (act := λ r : Node, _). pose proof (sweep_keys act (pm_partitions pm)) as S1. pose proof (λ tp, sweep_find act tp (pm_partitions pm)) as S2.
    pose proof (sweep_waiting act (pm_partitions pm)) as S3. pose proof (pm_swept_ok act pm Hok) as S4. pose proof (sweep_results act (pm_partitions pm)) as S5.
    assert (S6 : (sweep act (pm_partitions pm)).2 = concat (map (λ p, (act p.2).2) (pm_partitions pm))) by (unfold sweep; cbn [snd]; by rewrite map_map).
    assert (HA : ∀ r : Node, pr_pending r = zlen (pr_waiters r) → pr_pending (act r).1.2 = zlen (pr_waiters (act r).1.2) ∧
      map dw_callback (pr_waiters r) ≡ₚ map dw_callback (pr_waiters (act r).1.2) ++ map co_callback (act r).2).
    { intros r Hr. destruct (expire_as now r Hr) as [A1 _ A3]. unfold act. destruct (ExpireWaiters now r) as [[r' d] n]. done. }
    destruct (sweep act (pm_partitions pm)) as [[counts ps] done]. cbn [fst snd] in *. split_and!.
    + apply S4. intros r Hr. split; [done|by apply HA].
    + exact S1.
    + rewrite S5, S6. rewrite <- fold_add_zlen, map_map. f_equal. apply map_ext. intros p. unfold act, ExpireWaiters. cbn. unfold complete. unfold zlen. by rewrite length_map.
    + apply S3. intros p Hp. apply HA. pose proof (mo_hosted _ Hok) as Hh. rewrite Forall_forall in Hh. apply (Hh p Hp).
    + rewrite S6. apply Forall_concat, Forall_map, Forall_forall. intros p _. unfold act, ExpireWaiters. cbn. eapply Forall_impl; [apply complete_status|]. by intros c [? _].
    + intros tp r Hr. unfold Find in *. cbn [with_hosted pm_partitions]. rewrite S2, Hr. eexists. split; [reflexivity|]. by unfold act, ExpireWaiters.
  - intros HC. unfold PM_Close. rewrite HC. split; [done|]. split_and!.
    + unfold answered, waiting. rewrite concat_map, !map_map. f_equal. apply map_ext. intros p. unfold FailAllWaiters. cbn [fst snd]. apply complete_callbacks.
    + apply Forall_concat, Forall_map, Forall_map, Forall_forall. intros p _. unfold FailAllWaiters. cbn [fst snd]. eapply Forall_impl; [apply complete_status|]. by intros c [? _].
    + rewrite !map_map. pose proof (mo_hosted _ Hok) as Hh. apply map_ext_in. intros p Hp%list_elem_of_In. rewrite Forall_forall in Hh. destruct (Hh p Hp) as [HK _].
      unfold close_one, FailAllWaiters. cbn [fst snd with_log pr_log publish_waiters pr_topic_partition]. by rewrite HK.
    + done.
    + intros config disk tp tc a r. unfold OpenPartition, Find. cbn [pm_partitions om_find]. destruct (open_log _ _) as [[log rep]|e]; [|done].
      unfold insert_opened. done.
Qed.

(** ** Examples *)

(** A partition whose log is flushed already, with a quorum request still waiting. *)
Definition tp0 : TopicPartition := mkTP (str "t") 0.
Definition waiting_node (l : PartitionLog) : Node := publish_waiters [mkWaiter 0 kQuorum 5000 42 0 0] (new_replica tp0 (mkAssignment 0 0 0 [0] [0]) 0 l).
Definition waiting_manager (l : PartitionLog) : PartitionManager := mkManager [(tp0, waiting_node l)] false.
Definition t_metadata : ClusterMetadata := mkMetadata [] [(str "t", mkTopic (mkTopicConfig (str "t") 1 1 (-1) (-1) 0) [mkAssignment 0 0 0 [0] [0]])].
Lemma waiting_manager_ok l : manager_ok (waiting_manager l).
Proof. constructor; [apply NoDup_singleton|]. by constructor. Qed.
Lemma waiting_found l : Find tp0 (waiting_manager l) = Some (waiting_node l).
Proof. unfold Find. cbn. by rewrite decide_True. Qed.
Lemma flushed_log_idle : NeedsFlush 0 flushed_log = false.
Proof. vm_compute. reflexivity. Qed.
Lemma flushed_log_answers : answered (FlushDuePartitions (λ _, example_env) (λ _, 1) 0 (waiting_manager flushed_log)).2 = [42].
Proof. vm_compute. reflexivity. Qed.

Lemma flush_sweep_witness :
  answered (FlushDuePartitions (λ _, example_env) (λ _, 1) 0 (waiting_manager flushed_log)).2 = [42] ∧
  ∃ r, Find tp0 (FlushDuePartitions (λ _, example_env) (λ _, 1) 0 (waiting_manager flushed_log)).1.2 = Some r ∧ served (λ _, 1) r.
Proof.
  split; [exact flushed_log_answers|]. pose proof flushed_log_idle as HN.
  pose proof (flush_sweep (λ _, example_env) (λ _, 1) 0 (waiting_manager flushed_log) (waiting_manager_ok _)) as H.
  revert HN H. generalize flushed_log. intros l HN. destruct (FlushDuePartitions _ _ _ _) as [[res pm'] done]. cbn [fst snd].
  intros (_ & _ & _ & _ & H & _). destruct (H tp0 (waiting_node l) (waiting_found l)) as (r & Hr & Hs). exists r. split; [exact Hr|].
  change (pr_log (waiting_node l)) with l in Hs. rewrite HN in Hs. apply Hs.
Defined.

Lemma topic_lifecycle_witness : ∃ done md' pm',
  PM_DeleteTopic (str "t") (t_metadata, waiting_manager flushed_log) = (Ok done, (md', pm')) ∧ HasTopic (str "t") md' = false ∧ waiting (pm_partitions pm') = [] ∧ answered done = [42].
Proof.
  generalize flushed_log. intros l.
  pose proof (λ disk c tc, proj2 (topic_lifecycle c disk tc t_metadata (waiting_manager l) (waiting_manager_ok l) ltac:(by repeat constructor)) (str "t")
    (mkTopic (mkTopicConfig (str "t") 1 1 (-1) (-1) 0) [mkAssignment 0 0 0 [0] [0]]) eq_refl) as H.
  destruct (H (λ _, mkOpenEnv 1 0 (Ok tt) (Ok []) (λ _, Err kIoError) 0) (mkBrokerConfig 0 (mkEndpoint [] 0) [] 0 [] [] 1 1 1 1 1 1 1 8 false 4096 0 1 0 0 0 false kWrite kFull
    (mkFlushPolicy false 0 0 0) 0 false 1 1 0 0 0 0 0 0 false [] 0 0 kInfo [] 0) (mkTopicConfig (str "t") 1 1 (-1) (-1) 0)) as (done & md' & pm' & H1 & H2 & _).
  exists done, md', pm'. split; [exact H1|]. split; [exact H2|].
  unfold PM_DeleteTopic in H1. cbn in H1. injection H1 as <- <- <-. by split.
Defined.

Lemma manager_ends_witness : let '(n, pm', done) := PM_ExpireWaiters 6000 (waiting_manager flushed_log) in n = zlen done ∧ answered done = [42].
Proof.
  generalize flushed_log. intros l. destruct (manager_ends (λ _, example_env) 6000 (waiting_manager l) (waiting_manager_ok l)) as [H _].
  destruct (PM_ExpireWaiters 6000 (waiting_manager l)) as [[n pm'] done] eqn:E. destruct H as (_ & _ & H & _). split; [exact H|].
  unfold PM_ExpireWaiters in E. cbn in E. by injection E as <- <- <-.
Defined.
