(* ===== verification/Broker.v ===== *)
(** * Broker: from a frame to a handler

    Models the dispatch of src/broker/request_handler.cc (what an io thread answers
    itself, what goes to which worker, what a worker executes) and the topic
    administration of src/broker/broker.cc (creation on the controller and through it,
    the broadcast, adopting the controller's topics).  Calls to the controller are a
    parameter, and so is what the system answers; messages to peers are collected in
    [br_sent].  Starting and joining threads, metrics and logging are left out. *)
From S2P Require Import Prelude Status Buffer Types OrdMap FileUtil Frame Codec MessageCodec MessagesData MessagesControl MessagesGroup Messages ClusterMetadata PartitionLog Replica Replication RequestHandler BrokerConfig PartitionManager OffsetStore GroupCoordinator.

Record Broker := mkBroker {
  br_md : ClusterMetadata; br_pm : PartitionManager; br_groups : Coordinator;
  br_files : Dir; br_sent : list (Z * bytes) }.
Definition set_md (md : ClusterMetadata) (b : Broker) : Broker := mkBroker md (br_pm b) (br_groups b) (br_files b) (br_sent b).
Definition set_pm (pm : PartitionManager) (b : Broker) : Broker := mkBroker (br_md b) pm (br_groups b) (br_files b) (br_sent b).
Definition set_groups (g : Coordinator) (b : Broker) : Broker := mkBroker (br_md b) (br_pm b) g (br_files b) (br_sent b).
Definition set_files (d : Dir) (b : Broker) : Broker := mkBroker (br_md b) (br_pm b) (br_groups b) d (br_sent b).
Definition send_to (ms : list (Z * bytes)) (b : Broker) : Broker := mkBroker (br_md b) (br_pm b) (br_groups b) (br_files b) (br_sent b ++ ms).

(** What one request runs into: the disk, the clock, saving the metadata, and a call to
    the controller (connecting included). *)
Record RequestEnv := mkRequestEnv {
  re_disk : Disk; re_log : LogEnv; re_nanos : DurabilityWaiter → Z; re_now_ms : Z; re_append_finished : Z; re_callback : Z;
  re_save : SaveEnv; re_controller : OpCode → bytes → Result bytes }.

Section Broker.
Context (config : BrokerConfig) (env : RequestEnv).

Definition on_md {A} (m : SR ClusterMetadata A) : SR Broker A := szoom br_md set_md m.
Definition on_pm {A} (m : SR PartitionManager A) : SR Broker A := szoom br_pm set_pm m.

(** ** Metadata *)

Definition metadata_path : bytes := bc_data_dir config ++ str "/metadata.tsv".
Definition PersistMetadata : SR Broker unit := λ b,
  let '(r, files) := SaveTo (re_save env) metadata_path (br_md b) (br_files b) in (r, set_files files b).
(** A failure to persist is only logged. *)
Definition persist_quietly (b : Broker) : Broker := (PersistMetadata b).2.

Definition LoadOrInitialiseMetadata : SR Broker unit :=
  match bc_cluster_brokers config with
  | [] => on_md (SetBrokers [mkBrokerEndpoint (bc_broker_id config) (bc_advertised_host config) (bc_advertised_port config)])
  | specs => on_md (SetBrokersFromSpec specs) ;;;
      let! b := sget in
      match FindBroker (bc_broker_id config) (br_md b) with None => sfail kInvalidArgument | Some _ => sret tt end
  end ;;;
  let! b := sget in
  let! loaded := stry (on_md (LoadFrom (br_files b) metadata_path)) in
  match loaded with
  | Ok _ | Err kNotFound => sret tt
  | Err e => sfail e
  end.

(** The controller's description of a topic, as a descriptor. *)
Definition adopted_topic (t : TopicMetadata) : TopicDescriptor :=
  let ps := map (λ p, mkAssignment (pm_index p) (pm_leader p) (pm_leader_epoch p) (pm_replicas p) (pm_in_sync_replicas p)) (tm_partitions t) in
  mkTopic (mkTopicConfig (tm_name t) (i32 (zlen ps)) (match ps with [] => 1 | a :: _ => i16 (zlen (pa_replicas a)) end) (-1) (-1) 0) ps.
Fixpoint adopt_topics (ts : list TopicMetadata) (adopted : Z) : SR Broker Z :=
  match ts with
  | [] => sret adopted
  | t :: ts =>
      let! b := sget in
      if HasTopic (tm_name t) (br_md b) then adopt_topics ts adopted else
      on_md (UpsertTopic (adopted_topic t)) ;;;
      let! opened := stry (on_pm (OpenPartitionsForTopic config (re_disk env) (adopted_topic t))) in
      adopt_topics ts (match opened with Ok _ => adopted + 1 | Err _ => adopted end)
  end.
Definition ReconcileMetadataFromController : SR Broker unit :=
  let! b := sget in
  let controller := ControllerId (br_md b) in
  if controller =? bc_broker_id config then sret tt else
  match FindBroker controller (br_md b) with
  | None => sret tt
  | Some _ =>
      let! reply := slift (re_controller env kMetadata (encode_reply (k := KMetadataRequest) (mkMetadataRequest []))) in
      match (MetadataResponse_Decode (newReader reply)).1 with
      | None => sfail kProtocolError
      | Some response =>
          if negb (bool_decide (error (mresp_header response) = kOk)) then sfail (error (mresp_header response)) else
          let! adopted := adopt_topics (mresp_topics response) 0 in
          if 0 <? adopted then smod persist_quietly else sret tt
      end
  end.

(** ** Topics *)

Definition topic_request (tc : TopicConfig) (from_controller : bool) : CreateTopicRequest :=
  mkCreateTopicRequest (tc_name tc) (tc_partition_count tc) (tc_replication_factor tc) (tc_retention_ms tc) (tc_segment_bytes tc)
    (Compression_of_raw (tc_compression tc)) from_controller.
Definition BroadcastTopic (d : TopicDescriptor) (b : Broker) : Broker :=
  let payload := encode_reply (k := KCreateTopicRequest) (topic_request (td_config d) true) in
  send_to (map (λ peer, (be_id peer, payload)) (List.filter (λ peer, negb (be_id peer =? bc_broker_id config)) (md_brokers (br_md b)))) b.

Definition create_here (topic : bytes) (partitions replication_factor : Z) (apply_locally : bool) : SR Broker TopicDescriptor :=
  let! created := (λ b, let '(r, (md, pm)) := PM_CreateTopic config (re_disk env) (mkTopicConfig topic partitions replication_factor (-1) (-1) 0) (br_md b, br_pm b) in
                        (r, set_pm pm (set_md md b))) in
  (if created.2 then
     smod persist_quietly ;;;
     smod (λ b, if negb apply_locally && (1 <? zlen (md_brokers (br_md b))) then BroadcastTopic created.1 b else b)
   else sret tt) ;;;
  sret created.1.
Definition create_through_controller (topic : bytes) (partitions replication_factor : Z) : SR Broker TopicDescriptor :=
  let! b := sget in
  match FindBroker (ControllerId (br_md b)) (br_md b) with
  | None => sfail kUnavailable
  | Some _ =>
      let! reply := slift (re_controller env kCreateTopic
        (encode_reply (k := KCreateTopicRequest) (mkCreateTopicRequest topic partitions replication_factor (-1) (-1) kCompNone false))) in
      match (ResponseHeader_Decode (newReader reply)).1 with
      | None => sfail kProtocolError
      | Some header =>
          if negb (bool_decide (error header = kOk)) then sfail (error header) else
          ReconcileMetadataFromController ;;;
          let! b := sget in slift (GetTopic topic (br_md b))
      end
  end.
Definition EnsureTopic (topic : bytes) (partitions replication_factor : Z) (apply_locally : bool) : SR Broker TopicDescriptor :=
  let! b := sget in
  match GetTopic topic (br_md b) with
  | Ok existing => sret existing
  | Err _ =>
      if (ControllerId (br_md b) =? bc_broker_id config) || apply_locally then create_here topic partitions replication_factor apply_locally
      else create_through_controller topic partitions replication_factor
  end.

Definition ResolvePartition (topic : bytes) (partition : Z) (auto_create : bool) : SR Broker Node :=
  let tp := mkTP topic partition in
  let! b := sget in
  match Find tp (br_pm b) with
  | Some r => sret r
  | None =>
      (if HasTopic topic (br_md b) then sret tt
       else if negb auto_create || negb (bc_auto_create_topics config) then sfail kNotFound
       else if negb (IsValidTopicName topic) then sfail kInvalidArgument
       else EnsureTopic topic (Z.max (bc_default_partitions config) (i32 (partition + 1))) (bc_default_replication_factor config) false ;;; sret tt) ;;;
      let! b := sget in
      match Find tp (br_pm b) with
      | Some r => sret r
      | None => match GetPartition topic partition (br_md b) with Ok _ => sfail kNotLeader | Err e => sfail e end
      end
  end.

Definition ExecuteCreateTopic (payload : bytes) (b : Broker) : bytes * Broker :=
  match DecodePayload KCreateTopicRequest payload with
  | None => (error_reply kProtocolError, b)
  | Some create =>
      let '(r, b) := EnsureTopic (ctreq_topic create)
        (if 0 <? ctreq_partitions create then ctreq_partitions create else bc_default_partitions config)
        (if 0 <? ctreq_replication_factor create then ctreq_replication_factor create else bc_default_replication_factor config)
        (ctreq_from_controller create) b in
      (encode_reply (k := KCreateTopicResponse)
         (match r with
          | Ok d => mkCreateTopicResponse (error_header kOk) (tc_partition_count (td_config d))
          | Err e => mkCreateTopicResponse (error_header e) 0
          end), b)
  end.
Definition ExecuteDeleteTopic (payload : bytes) (b : Broker) : bytes * Broker * list Completion :=
  match DecodePayload KDeleteTopicRequest payload with
  | None => (error_reply kProtocolError, b, [])
  | Some remove =>
      match PM_DeleteTopic (dtreq_topic remove) (br_md b, br_pm b) with
      | (Err e, (md, pm)) => (encode_reply (k := KDeleteTopicResponse) (mkDeleteTopicResponse (error_header e)), set_pm pm (set_md md b), [])
      | (Ok done, (md, pm)) => (encode_reply (k := KDeleteTopicResponse) (mkDeleteTopicResponse (error_header kOk)), persist_quietly (set_pm pm (set_md md b)), done)
      end
  end.

(** ** On a worker *)

(** The replica a handler worked on, back in its place. *)
Definition replace_node (tp : TopicPartition) (r : Node) (ps : Partitions) : Partitions :=
  map (λ p, if decide (p.1 = tp) then (tp, r) else p) ps.
Definition put_back (tp : TopicPartition) (r : option Node) (b : Broker) : Broker :=
  match r with Some r => set_pm (with_hosted (replace_node tp r (pm_partitions (br_pm b))) (br_pm b)) b | None => b end.
Definition of_result {A} (r : Result A) : option A := match r with Ok a => Some a | Err _ => None end.

(** [ResolvePartition], then the handler on what it yielded. *)
Definition with_partition {A} (tp : option TopicPartition) (auto_create : bool) (handler : Result Node → A * Result Node) (b : Broker) : A * Broker :=
  match tp with
  | None => ((handler (Err kProtocolError)).1, b)
  | Some tp =>
      let '(resolved, b) := ResolvePartition (topic tp) (partition tp) auto_create b in
      let '(a, r) := handler resolved in (a, put_back tp (of_result r) b)
  end.
Definition Execute_produce (payload : bytes) (b : Broker) : (bytes + PendingProduce) * list Completion * Broker :=
  with_partition ((λ m, mkTP (preq_topic m) (preq_partition m)) <$> (ProduceRequest_Decode (newReader payload)).1) true
    (λ resolved, let '(out, r, done) := ExecuteProduce (re_log env) (re_nanos env) (bc_replication_timeout_ms config) (re_now_ms env) (re_append_finished env) (re_callback env) payload resolved in
       ((out, done), r)) b.
Definition Execute_fetch (payload : bytes) (b : Broker) : bytes * Broker :=
  with_partition ((λ m, mkTP (freq_topic m) (freq_partition m)) <$> DecodePayload KFetchRequest payload) false (ExecuteFetch payload) b.
Definition Execute_list_offsets (payload : bytes) (b : Broker) : bytes * Broker :=
  with_partition ((λ m, mkTP (loreq_topic m) (loreq_partition m)) <$> DecodePayload KListOffsetsRequest payload) false (λ r, (ExecuteListOffsets payload r, r)) b.
Definition Execute_replica_fetch (payload : bytes) (b : Broker) : bytes * Broker :=
  with_partition ((λ m, mkTP (rfreq_topic m) (rfreq_partition m)) <$> DecodePayload KReplicaFetchRequest payload) false (ExecuteReplicaFetch payload) b.
Definition Execute_replica_ack (payload : bytes) (b : Broker) : bytes * list Completion * Broker :=
  match DecodePayload KReplicaAckRequest payload with
  | None => (error_reply kProtocolError, [], b)
  | Some ack =>
      let tp := mkTP (rareq_topic ack) (rareq_partition ack) in
      let '(reply, r, done) := ExecuteReplicaAck (re_nanos env) (re_now_ms env) payload (Find tp (br_pm b)) in
      (reply, done, put_back tp r b)
  end.
(** The partition may be known but not open here yet. *)
Definition find_or_open (tp : TopicPartition) (b : Broker) : option Node * Broker :=
  match Find tp (br_pm b) with
  | Some r => (Some r, b)
  | None =>
      match GetPartition (topic tp) (partition tp) (br_md b), GetTopic (topic tp) (br_md b) with
      | Ok a, Ok t =>
          if HasReplica (bc_broker_id config) a then
            let '(opened, b) := on_pm (OpenPartition config (re_disk env) tp (td_config t) a) b in (of_result opened, b)
          else (None, b)
      | _, _ => (None, b)
      end
  end.
Definition Execute_replicate (payload : bytes) (b : Broker) : bytes * list Completion * Broker :=
  match (ReplicateRequest_Decode (newReader payload)).1 with
  | None => (error_reply kProtocolError, [], b)
  | Some m =>
      let tp := mkTP (rreq_topic m) (rreq_partition m) in
      let '(hosted, b) := find_or_open tp b in
      let '(reply, r, done) := ExecuteReplicate (bc_broker_id config) (re_log env) (re_nanos env) (re_now_ms env) payload hosted in
      (default (error_reply kProtocolError) reply, done, put_back tp r b)
  end.

(** [Execute]: the answer, or the pending produce request. *)
Definition Execute (op : OpCode) (payload : bytes) (b : Broker) : (bytes + PendingProduce) * list Completion * Broker :=
  match op with
  | kProduce => Execute_produce payload b
  | kFetch => let '(reply, b) := Execute_fetch payload b in (inl reply, [], b)
  | kListOffsets => let '(reply, b) := Execute_list_offsets payload b in (inl reply, [], b)
  | kReplicate => let '(reply, done, b) := Execute_replicate payload b in (inl reply, done, b)
  | kReplicaFetch => let '(reply, b) := Execute_replica_fetch payload b in (inl reply, [], b)
  | kReplicaAck => let '(reply, done, b) := Execute_replica_ack payload b in (inl reply, done, b)
  | kCreateTopic => let '(reply, b) := ExecuteCreateTopic payload b in (inl reply, [], b)
  | kDeleteTopic => let '(reply, b, done) := ExecuteDeleteTopic payload b in (inl reply, done, b)
  | _ => (inl (error_reply kProtocolError), [], b)
  end.

(** ** On an io thread *)

Definition PeekTopicPartition (payload : bytes) : option TopicPartition :=
  ((let^ topic := GetString in let^ raw := GetI32 in gguard (negb (raw <? 0)) ;;^ gret (mkTP topic raw)) (newReader payload)).1.

(** A group is served by its coordinator only: [Some] is the refusal. *)
Definition RejectIfNotCoordinator (group_id : bytes) (b : Broker) : option bytes :=
  let coordinator := CoordinatorFor group_id (br_md b) in
  if (coordinator <? 0) || (coordinator =? bc_broker_id config) then None else Some (error_reply kNotLeader).

(** The partitions of the topics a group subscribes to, from the current metadata. *)
Definition partition_lookup (b : Broker) (topics : list bytes) : list TopicPartition :=
  concat (map (λ name, match GetTopic name (br_md b) with Ok d => map (λ a, mkTP name (pa_index a)) (td_partitions d) | Err _ => [] end) topics).

Definition health (uptime_ms : Z) (ready : bool) (b : Broker) : HealthResponse :=
  let stats := PM_GetStats (br_pm b) in
  mkHealthResponse (error_header kOk) (bc_broker_id config) uptime_ms (i32 (ag_partitions stats)) (i32 (ag_leaders stats)) ready (str "0.1.0").
Definition topic_summary (b : Broker) (d : TopicDescriptor) : TopicSummary :=
  let name := tc_name (td_config d) in
  let hosted := omap (λ a, Find (mkTP name (pa_index a)) (br_pm b)) (td_partitions d) in
  mkTopicSummary name (tc_partition_count (td_config d))
    (fold_left (λ n r, n + i64 (rs_total_bytes (Replica_GetStats r))) hosted 0)
    (fold_left (λ n r, n + (rs_log_end (Replica_GetStats r) - rs_log_start (Replica_GetStats r))) hosted 0).

(** A request of kind [k], refused when it does not decode completely. *)
Definition inline_request (k : MessageKind) (payload : bytes) (b : Broker) (handler : Messages.payload k → bytes * Broker) : bytes * Broker :=
  match DecodePayload k payload with None => (error_reply kProtocolError, b) | Some m => handler m end.
Definition group_request (k : MessageKind) (payload : bytes) (b : Broker) (group_of : Messages.payload k → bytes) (handler : Messages.payload k → bytes * Broker)
    : bytes * Broker :=
  inline_request k payload b (λ m, match RejectIfNotCoordinator (group_of m) b with Some refusal => (refusal, b) | None => handler m end).

(** [live] are the followers the replicator is connected to; [None] goes to a worker. *)
Definition HandleInline (uptime_ms : Z) (ready : bool) (live : list Z) (op : OpCode) (payload : bytes) (b : Broker) : option (bytes * Broker) :=
  let lookup := Some (partition_lookup b) in
  match op with
  | kHealth => Some (encode_reply (k := KHealthResponse) (health uptime_ms ready b), b)
  | kMetadata => Some (inline_request KMetadataRequest payload b (λ m, (encode_reply (k := KMetadataResponse) (BuildMetadataResponse (mreq_topics m) (br_md b)), b)))
  | kListTopics => Some (encode_reply (k := KListTopicsResponse) (mkListTopicsResponse (error_header kOk) (map (topic_summary b) (ListTopics (br_md b)))), b)
  | kDescribeCluster => Some (encode_reply (k := KDescribeClusterResponse)
      (mkDescribeClusterResponse (error_header kOk) (ControllerId (br_md b)) (md_brokers (br_md b)) (bc_broker_id config :: live)), b)
  | kJoinGroup => Some (group_request KJoinGroupRequest payload b jgreq_group_id (λ m,
      let '(r, g) := Join lookup m (re_now_ms env) (br_groups b) in (encode_reply (k := KJoinGroupResponse) r, set_groups g b)))
  | kHeartbeat => Some (group_request KHeartbeatRequest payload b hbreq_group_id (λ m,
      let '(r, g) := Heartbeat m (re_now_ms env) (br_groups b) in (encode_reply (k := KHeartbeatResponse) r, set_groups g b)))
  | kLeaveGroup => Some (group_request KLeaveGroupRequest payload b lgreq_group_id (λ m,
      let '(r, g) := Leave lookup m (re_now_ms env) (br_groups b) in (encode_reply (k := KLeaveGroupResponse) r, set_groups g b)))
  | kCommitOffset => Some (group_request KCommitOffsetRequest payload b coreq_group_id (λ m,
      let '(r, g) := Coordinator_Commit (re_log env) m (re_now_ms env) (br_groups b) in (encode_reply (k := KCommitOffsetResponse) r, set_groups g b)))
  | kFetchOffset => Some (group_request KFetchOffsetRequest payload b foreq_group_id (λ m,
      (encode_reply (k := KFetchOffsetResponse) (FetchOffset m (br_groups b)), b)))
  | _ => None
  end.

(** What an io thread does with a frame: it answers, or the request is on a worker's queue. *)
Inductive FrameAction := Answered (reply : bytes) | Queued (worker : Z).
Definition WorkerForRequest (string_hash : bytes → Z) (payload : bytes) : option Z := WorkerFor string_hash config <$> PeekTopicPartition payload.
(** [submit worker] is whether the worker's queue had room. *)
Definition RouteToWorker (submit : Z → bool) (worker : Z) : FrameAction :=
  if submit worker then Queued worker else Answered (error_reply kBackpressure).
Definition OnFrame (string_hash : bytes → Z) (submit : Z → bool) (uptime_ms : Z) (ready : bool) (live : list Z) (op : OpCode) (payload : bytes) (b : Broker)
    : FrameAction * Broker :=
  match HandleInline uptime_ms ready live op payload b with
  | Some (reply, b) => (Answered reply, b)
  | None =>
      if bool_decide (op = kCreateTopic) || bool_decide (op = kDeleteTopic) then (RouteToWorker submit 0, b) else
      match WorkerForRequest string_hash payload with
      | None => (Answered (error_reply kProtocolError), b)
      | Some worker => (RouteToWorker submit worker, b)
      end
  end.
End Broker.
