(* ===== verification/BrokerTheorems.v ===== *)
(** * BrokerTheorems: requests reach the worker of their partition, topics look the same everywhere

    The routing an io thread does from the first bytes of a payload agrees with what the
    handler decodes, and a handler leaves every other partition alone; a topic created on
    the controller ends up with the same layout on the brokers it is pushed to and on
    those that adopt it later. *)
From S2P Require Import Prelude Status Buffer Types OrdMap FileUtil Frame Codec MessageCodec MessagesData MessagesControl MessagesGroup MessageSize Messages ClusterMetadata ClusterMetadataTheorems PartitionLog PartitionLogTheorems Replica Replication RequestHandler RequestTheorems BrokerConfig PartitionManager PartitionManagerTheorems OffsetStore GroupCoordinator Broker.

(** ** Peeking *)

(** The partition a worker's handler takes from a payload. *)
Definition partition_of (op : OpCode) (payload : bytes) : option TopicPartition :=
  match op with
  | kProduce => (λ m, mkTP (preq_topic m) (preq_partition m)) <$> (ProduceRequest_Decode (newReader payload)).1
  | kFetch => (λ m, mkTP (freq_topic m) (freq_partition m)) <$> DecodePayload KFetchRequest payload
  | kListOffsets => (λ m, mkTP (loreq_topic m) (loreq_partition m)) <$> DecodePayload KListOffsetsRequest payload
  | kReplicate => (λ m, mkTP (rreq_topic m) (rreq_partition m)) <$> (ReplicateRequest_Decode (newReader payload)).1
  | kReplicaFetch => (λ m, mkTP (rfreq_topic m) (rfreq_partition m)) <$> DecodePayload KReplicaFetchRequest payload
  | kReplicaAck => (λ m, mkTP (rareq_topic m) (rareq_partition m)) <$> DecodePayload KReplicaAckRequest payload
  | _ => None
  end.

Lemma DecodePayload_decode k payload m : DecodePayload k payload = Some m → ∃ r, msg_decode (newReader payload) = (Some m, r).
Proof. unfold DecodePayload. destruct (msg_decode (newReader payload)) as [[m'|] r]; [|done]. destruct (Complete r); [|done]. intros [= ->]. by exists r. Qed.

(** Every decoder of a partition-scoped request begins with the topic and the partition,
    and refuses a negative one. *)
Definition peek_getter : Getter TopicPartition := let^ topic := GetString in let^ raw := GetI32 in gguard (negb (raw <? 0)) ;;^ gret (mkTP topic raw).
Lemma peek_of t p r r1 r2 : GetString r = (Some t, r1) → GetI32 r1 = (Some p, r2) → negb (p <? 0) = true → (peek_getter r).1 = Some (mkTP t p).
Proof. intros H1 H2 H3. unfold peek_getter, gbind. rewrite H1, H2. cbv beta iota. rewrite H3. done. Qed.

Lemma partition_of_peek op payload tp : partition_of op payload = Some tp → PeekTopicPartition payload = Some tp ∧ 0 ≤ partition tp.
Proof.
  assert (HN : ∀ p, negb (p <? 0) = true → 0 ≤ p) by (intros p Hp; apply negb_true_iff in Hp; by apply Z.ltb_ge in Hp).
  change (PeekTopicPartition payload) with (peek_getter (newReader payload)).1.
  destruct op; cbn [partition_of]; try discriminate; intros (m & Hm & ->)%fmap_Some.
  - destruct (ProduceRequest_Decode (newReader payload)) as [o r'] eqn:E0. cbn [fst] in Hm. subst o. unfold ProduceRequest_Decode in E0. peel. eauto using peek_of.
  - destruct (DecodePayload_decode KFetchRequest payload m Hm) as (r' & Hm'). clear Hm. rename Hm' into Hm. change (FetchRequest_Decode (newReader payload) = (Some m, r')) in Hm. unfold FetchRequest_Decode in Hm. peel. eauto using peek_of.
  - destruct (DecodePayload_decode KListOffsetsRequest payload m Hm) as (r' & Hm'). clear Hm. rename Hm' into Hm. change (ListOffsetsRequest_Decode (newReader payload) = (Some m, r')) in Hm. unfold ListOffsetsRequest_Decode in Hm. peel. eauto using peek_of.
  - destruct (ReplicateRequest_Decode (newReader payload)) as [o r'] eqn:E0. cbn [fst] in Hm. subst o. unfold ReplicateRequest_Decode in E0. peel. eauto using peek_of.
  - destruct (DecodePayload_decode KReplicaAckRequest payload m Hm) as (r' & Hm'). clear Hm. rename Hm' into Hm. change (ReplicaAckRequest_Decode (newReader payload) = (Some m, r')) in Hm. unfold ReplicaAckRequest_Decode in Hm. peel. eauto using peek_of.
  - destruct (DecodePayload_decode KReplicaFetchRequest payload m Hm) as (r' & Hm'). clear Hm. rename Hm' into Hm. change (ReplicaFetchRequest_Decode (newReader payload) = (Some m, r')) in Hm. unfold ReplicaFetchRequest_Decode in Hm. peel. eauto using peek_of.
Qed.

(** ** What a handler leaves alone *)

Definition kept (pm pm' : PartitionManager) : Prop := ∀ tp r, Find tp pm = Some r → Find tp pm' = Some r.
Lemma kept_refl pm : kept pm pm.
Proof. by intros tp r. Qed.
#[export] Hint Resolve kept_refl : core.
(** Hosted replicas and groups are as they were; partitions may have been added. *)
Definition calm_step (b b' : Broker) : Prop := kept (br_pm b) (br_pm b') ∧ br_groups b' = br_groups b.
Definition calmly {A} (m : SR Broker A) : Prop := ∀ b, calm_step b (m b).2.

#[global] Instance calm_step_preorder : PreOrder calm_step.
Proof. split; [intros b; split; [by intros tp r|done]|]. intros a b c [H1 H2] [H3 H4]. split; [|congruence]. intros tp r H. auto. Qed.
Lemma calmly_bind {A B} (m : SR Broker A) (k : A → SR Broker B) : calmly m → (∀ a, calmly (k a)) → calmly (sbind m k).
Proof. intros Hm Hk b. unfold sbind. specialize (Hm b). destruct (m b) as [[a|e] b1]; [|exact Hm]. etrans; [exact Hm|apply Hk]. Qed.
Lemma calmly_ret {A} (a : A) : calmly (sret a).
Proof. by intros b. Qed.
Lemma calmly_fail {A} e : calmly (sfail (A := A) e).
Proof. by intros b. Qed.
Lemma calmly_get : calmly sget.
Proof. by intros b. Qed.
Lemma calmly_lift {A} (r : Result A) : calmly (slift r).
Proof. by intros b. Qed.
Lemma calmly_mod f : (∀ b, br_pm (f b) = br_pm b ∧ br_groups (f b) = br_groups b) → calmly (smod f).
Proof. intros H b. destruct (H b) as [H1 H2]. cbn. split; [|done]. intros tp r. by rewrite H1. Qed.
Lemma calmly_try {A} (m : SR Broker A) : calmly m → calmly (stry m).
Proof. intros H b. specialize (H b). unfold stry. by destruct (m b). Qed.
Lemma calmly_md {A} (m : SR ClusterMetadata A) : calmly (on_md m).
Proof. intros b. unfold on_md, szoom. destruct (m (br_md b)) as [r md]. split; [by intros tp x|done]. Qed.
Lemma calmly_pm {A} (m : SR PartitionManager A) : (∀ pm, kept pm (m pm).2) → calmly (on_pm m).
Proof. intros H b. unfold on_pm, szoom. specialize (H (br_pm b)). destruct (m (br_pm b)) as [r pm]. by split. Qed.

Section Calm.
Context (config : BrokerConfig) (env : RequestEnv).

Lemma OpenPartition_kept disk tp tc a pm : kept pm (OpenPartition config disk tp tc a pm).2.
Proof.
  unfold OpenPartition. destruct (Find tp pm); [done|]. destruct (open_log _ _) as [[log rep]|e]; [|done]. unfold insert_opened.
  destruct (pm_closed pm); [done|]. cbn [snd]. intros x r Hx. unfold Find in *. cbn. by rewrite um_emplace_find, Hx.
Qed.
Lemma open_assigned_kept disk tc ps pm : kept pm (open_assigned config disk tc ps pm).2.
Proof.
  revert pm. induction ps as [|a ps IH]; intros pm; [done|]. cbn [open_assigned]. destruct (negb _); [apply IH|]. unfold sbind.
  pose proof (OpenPartition_kept disk (mkTP (tc_name tc) (pa_index a)) tc a pm) as H. destruct (OpenPartition _ _ _ _ _ pm) as [[x|e] pm1]; [|exact H].
  intros tp r Hr. apply IH. by apply H.
Qed.
Lemma persist_calm : calmly (smod (persist_quietly config env)).
Proof. apply calmly_mod. intros b. unfold persist_quietly, PersistMetadata. by destruct (SaveTo _ _ _ _). Qed.
Lemma adopt_topics_calm ts n : calmly (adopt_topics config env ts n).
Proof.
  revert n. induction ts as [|t ts IH]; intros n; [apply calmly_ret|]. cbn [adopt_topics]. apply calmly_bind; [apply calmly_get|]. intros b.
  destruct (HasTopic _ _); [apply IH|]. apply calmly_bind; [apply calmly_md|]. intros _. apply calmly_bind; [|intros r; apply IH].
  apply calmly_try, calmly_pm. intros pm. apply open_assigned_kept.
Qed.
Lemma Reconcile_calm : calmly (ReconcileMetadataFromController config env).
Proof.
  apply calmly_bind; [apply calmly_get|]. intros b. cbv zeta. destruct (_ =? _); [apply calmly_ret|]. destruct (FindBroker _ _); [|apply calmly_ret].
  apply calmly_bind; [apply calmly_lift|]. intros reply. destruct (MetadataResponse_Decode _) as [[m|] r]; cbn [fst]; [|apply calmly_fail].
  destruct (negb _); [apply calmly_fail|]. apply calmly_bind; [apply adopt_topics_calm|]. intros n. destruct (0 <? n); [apply persist_calm|apply calmly_ret].
Qed.
Lemma create_here_calm t n rf loc : calmly (create_here config env t n rf loc).
Proof.
  apply calmly_bind.
  - intros b. unfold PM_CreateTopic, szoom, sbind. cbn [fst snd]. destruct (CreateTopic _ (br_md b)) as [[[d c]|e] md]; cbn [fst snd]; [|split; [by intros tp x|done]].
    pose proof (open_assigned_kept (re_disk env) (td_config d) (td_partitions d) (br_pm b)) as H. unfold OpenPartitionsForTopic.
    destruct (open_assigned _ _ _ _ (br_pm b)) as [[x|e] pm]; by split.
  - intros [d c]. apply calmly_bind; [|intros _; apply calmly_ret]. destruct c; [|apply calmly_ret]. apply calmly_bind; [apply persist_calm|]. intros _.
    apply calmly_mod. intros b. by destruct (negb loc && _).
Qed.
Lemma EnsureTopic_calm t n rf loc : calmly (EnsureTopic config env t n rf loc).
Proof.
  apply calmly_bind; [apply calmly_get|]. intros b. destruct (GetTopic t (br_md b)); [apply calmly_ret|]. destruct (_ || _); [apply create_here_calm|].
  apply calmly_bind; [apply calmly_get|]. intros b1. destruct (FindBroker _ _); [|apply calmly_fail]. apply calmly_bind; [apply calmly_lift|]. intros reply.
  destruct (ResponseHeader_Decode _) as [[h|] r]; cbn [fst]; [|apply calmly_fail]. destruct (negb _); [apply calmly_fail|].
  apply calmly_bind; [apply Reconcile_calm|]. intros _. apply calmly_bind; [apply calmly_get|]. intros b2. apply calmly_lift.
Qed.
Lemma ResolvePartition_calm t p auto : calmly (ResolvePartition config env t p auto).
Proof.
  apply calmly_bind; [apply calmly_get|]. intros b. destruct (Find _ _); [apply calmly_ret|]. apply calmly_bind.
  - destruct (HasTopic _ _); [apply calmly_ret|]. destruct (_ || _); [apply calmly_fail|]. destruct (negb _); [apply calmly_fail|].
    apply calmly_bind; [apply EnsureTopic_calm|]. intros _. apply calmly_ret.
  - intros _. apply calmly_bind; [apply calmly_get|]. intros b1. destruct (Find _ _); [apply calmly_ret|]. destruct (GetPartition _ _ _); [apply calmly_fail|apply calmly_fail].
Qed.
End Calm.

Lemma replace_node_find tp r tp' ps : tp' ≠ tp → om_find tp' (replace_node tp r ps) = om_find tp' ps.
Proof.
  intros Hne. induction ps as [|[k x] ps IH]; [done|]. unfold replace_node in *. cbn. destruct (decide (k = tp)) as [->|]; cbn.
  - by rewrite !(decide_False _ _ Hne).
  - by destruct (decide (tp' = k)).
Qed.
Lemma put_back_find tp r tp' b : tp' ≠ tp → Find tp' (br_pm (put_back tp r b)) = Find tp' (br_pm b) ∧ br_groups (put_back tp r b) = br_groups b.
Proof. intros Hne. destruct r as [r|]; [|done]. split; [|done]. unfold Find. cbn. by apply replace_node_find. Qed.

(** Everything but the partition [tp] is as it was. *)
Definition others_kept (tp : TopicPartition) (b b' : Broker) : Prop :=
  (∀ tp' r, tp' ≠ tp → Find tp' (br_pm b) = Some r → Find tp' (br_pm b') = Some r) ∧ br_groups b' = br_groups b.
Lemma put_back_kept tp r b b' : calm_step b b' → others_kept tp b (put_back tp r b').
Proof.
  intros [H1 H2]. split.
  - intros tp' x Hne Hx. destruct (put_back_find tp r tp' b' Hne) as [-> _]. by apply H1.
  - rewrite <- H2. by destruct r.
Qed.

Section Routing.
Context (config : BrokerConfig) (env : RequestEnv).

Lemma with_partition_kept {A} tp auto (handler : Result Node → A * Result Node) b : others_kept tp b (with_partition config env (Some tp) auto handler b).2.
Proof.
  unfold with_partition. pose proof (ResolvePartition_calm config env (topic tp) (partition tp) auto b) as H.
  destruct (ResolvePartition _ _ _ _ _ b) as [res b1]. destruct (handler res) as [a r]. by apply put_back_kept.
Qed.
Lemma find_or_open_calm tp b : calm_step b (find_or_open config env tp b).2.
Proof.
  unfold find_or_open. destruct (Find tp (br_pm b)); [done|]. destruct (GetPartition _ _ _) as [a|]; [|done]. destruct (GetTopic _ _) as [t|]; [|done].
  destruct (HasReplica _ _); [|done]. pose proof (calmly_pm (OpenPartition config (re_disk env) tp (td_config t) a) (OpenPartition_kept _ _ _ _ _) b) as H.
  by destruct (on_pm _ b).
Qed.
Lemma Execute_kept op payload tp b : partition_of op payload = Some tp → others_kept tp b (Execute config env op payload b).2.
Proof.
  destruct op; cbn [partition_of]; try discriminate; intros Htp; cbn [Execute].
  - unfold Execute_produce. rewrite Htp. apply with_partition_kept.
  - unfold Execute_fetch. rewrite Htp. pose proof (with_partition_kept tp false (ExecuteFetch payload) b) as H. by destruct (with_partition _ _ _ _ _ b).
  - unfold Execute_list_offsets. rewrite Htp. pose proof (with_partition_kept tp false (λ r, (ExecuteListOffsets payload r, r)) b) as H. by destruct (with_partition _ _ _ _ _ b).
  - unfold Execute_replicate. apply fmap_Some in Htp as (m & -> & ->). pose proof (find_or_open_calm (mkTP (rreq_topic m) (rreq_partition m)) b) as H.
    destruct (find_or_open _ _ _ b) as [hosted b1]. destruct (ExecuteReplicate _ _ _ _ _ _) as [[reply r] done]. by apply put_back_kept.
  - unfold Execute_replica_ack. apply fmap_Some in Htp as (m & -> & ->). destruct (ExecuteReplicaAck _ _ _ _) as [[reply r] done]. by apply put_back_kept.
  - unfold Execute_replica_fetch. rewrite Htp. pose proof (with_partition_kept tp false (ExecuteReplicaFetch payload) b) as H. by destruct (with_partition _ _ _ _ _ b).
Qed.
Lemma partition_op_routed op payload tp hash submit up ready live b : partition_of op payload = Some tp →
  OnFrame config env hash submit up ready live op payload b = (RouteToWorker submit (WorkerFor hash config tp), b).
Proof.
  intros H. destruct (partition_of_peek op payload tp H) as [HP _]. unfold OnFrame, WorkerForRequest. rewrite HP.
  destruct op; try discriminate H; cbn [HandleInline]; rewrite !bool_decide_eq_false_2 by done; done.
Qed.

(** The group a request on a group is about. *)
Definition group_of (op : OpCode) (payload : bytes) : option bytes :=
  match op with
  | kJoinGroup => jgreq_group_id <$> DecodePayload KJoinGroupRequest payload
  | kHeartbeat => hbreq_group_id <$> DecodePayload KHeartbeatRequest payload
  | kLeaveGroup => lgreq_group_id <$> DecodePayload KLeaveGroupRequest payload
  | kCommitOffset => coreq_group_id <$> DecodePayload KCommitOffsetRequest payload
  | kFetchOffset => foreq_group_id <$> DecodePayload KFetchOffsetRequest payload
  | _ => None
  end.
Lemma group_refused op payload g hash submit up ready live b : group_of op payload = Some g → RejectIfNotCoordinator config g b = Some (error_reply kNotLeader) →
  OnFrame config env hash submit up ready live op payload b = (Answered (error_reply kNotLeader), b).
Proof.
  intros Hg HR. unfold OnFrame. destruct op; cbn [group_of] in Hg; try discriminate Hg; apply fmap_Some in Hg as (m & Hm & ->);
    cbn [HandleInline]; unfold group_request, inline_request; rewrite Hm; cbv beta; by rewrite HR.
Qed.

(** The requests the workers handle for a partition, and those on a group. *)
Definition partition_ops : list OpCode := [kProduce; kFetch; kListOffsets; kReplicate; kReplicaFetch; kReplicaAck].
Definition group_ops : list OpCode := [kJoinGroup; kHeartbeat; kLeaveGroup; kCommitOffset; kFetchOffset].

(** A worker that cannot decode a request answers with an error and does nothing else. *)
Lemma Execute_undecodable op payload b : op ∈ partition_ops → partition_of op payload = None →
  Execute config env op payload b = (inl (error_reply kProtocolError), [], b).
Proof.
  assert (HN : ∀ A (f : A → TopicPartition) o, f <$> o = None → o = None) by (by intros A f []).
  intros Hop. destruct op; try (exfalso; set_solver); cbn [partition_of Execute]; intros HP.
  - unfold Execute_produce. rewrite HP. unfold with_partition, ExecuteProduce. by rewrite (HN _ _ _ HP).
  - unfold Execute_fetch. rewrite HP. unfold with_partition, ExecuteFetch. by rewrite (HN _ _ _ HP).
  - unfold Execute_list_offsets. rewrite HP. unfold with_partition, ExecuteListOffsets. by rewrite (HN _ _ _ HP).
  - unfold Execute_replicate. by rewrite (HN _ _ _ HP).
  - unfold Execute_replica_ack. by rewrite (HN _ _ _ HP).
  - unfold Execute_replica_fetch. rewrite HP. unfold with_partition, ExecuteReplicaFetch. by rewrite (HN _ _ _ HP).
Qed.
Lemma group_undecodable op payload hash submit up ready live b : op ∈ group_ops → group_of op payload = None →
  OnFrame config env hash submit up ready live op payload b = (Answered (error_reply kProtocolError), b).
Proof.
  assert (HN : ∀ A (f : A → bytes) o, f <$> o = None → o = None) by (by intros A f []).
  intros Hop. unfold OnFrame. destruct op; try (exfalso; set_solver); cbn [group_of HandleInline]; intros HP;
    unfold group_request, inline_request; by rewrite (HN _ _ _ HP).
Qed.

(** C7. Requests are routed by what they are about.  A request a partition handler can decode
    is put on the queue of its partition's worker, the same one for every kind of request
    on that partition, a number below the number of workers; the io thread changes
    nothing, and the handler changes no other partition and no group.  A partition request
    the handler cannot decode has no effect: the io thread refuses it when it cannot read a
    topic and a partition in front, and else passes it on to a worker, which answers with an
    error, completes no other request and leaves the whole broker as it was.  A request on a
    group that does not decode, or whose coordinator is another broker, is refused by the io
    thread, and changes nothing. *)
Theorem request_routing hash submit up ready live op payload b :
  (∀ tp, partition_of op payload = Some tp →
     OnFrame config env hash submit up ready live op payload b = (RouteToWorker submit (WorkerFor hash config tp), b) ∧
     (0 < bc_worker_threads config → 0 ≤ WorkerFor hash config tp < bc_worker_threads config) ∧
     others_kept tp b (Execute config env op payload b).2) ∧
  (op ∈ partition_ops → partition_of op payload = None →
     OnFrame config env hash submit up ready live op payload b =
       (match PeekTopicPartition payload with
        | None => Answered (error_reply kProtocolError)
        | Some tp => RouteToWorker submit (WorkerFor hash config tp)
        end, b) ∧
     Execute config env op payload b = (inl (error_reply kProtocolError), [], b)) ∧
  (op ∈ group_ops → group_of op payload = None →
     OnFrame config env hash submit up ready live op payload b = (Answered (error_reply kProtocolError), b)) ∧
  (∀ g, group_of op payload = Some g → 0 ≤ CoordinatorFor g (br_md b) → CoordinatorFor g (br_md b) ≠ bc_broker_id config →
     OnFrame config env hash submit up ready live op payload b = (Answered (error_reply kNotLeader), b)).
Proof.
  split_and!.
  - intros tp Htp. split; [by apply partition_op_routed|]. split; [|by apply Execute_kept]. intros Hw. unfold WorkerFor.
    destruct (Z.leb_spec (bc_worker_threads config) 1); [lia|]. apply Z.mod_pos_bound. lia.
  - intros Hop HP. split; [|by apply Execute_undecodable]. unfold OnFrame, WorkerForRequest.
    destruct op; try (exfalso; set_solver); cbn [HandleInline]; rewrite !bool_decide_eq_false_2 by done; by destruct (PeekTopicPartition payload).
  - apply group_undecodable.
  - intros g Hg H0 Hne. apply (group_refused op payload g); [done|]. unfold RejectIfNotCoordinator.
    destruct (Z.ltb_spec (CoordinatorFor g (br_md b)) 0); [lia|]. by rewrite (proj2 (Z.eqb_neq _ _) Hne).
Qed.
End Routing.

(** ** Topics across brokers *)

Definition plain_topic (name : bytes) (n rf : Z) : TopicConfig := mkTopicConfig name n rf (-1) (-1) 0.

Lemma GetTopic_absent name md : HasTopic name md = false → GetTopic name md = Err kNotFound.
Proof. unfold HasTopic, GetTopic. by destruct (om_find name (md_topics md)). Qed.

Section Topics.
Context (config : BrokerConfig) (env : RequestEnv).

Lemma persist_shape b : br_md (persist_quietly config env b) = br_md b ∧ br_sent (persist_quietly config env b) = br_sent b.
Proof. unfold persist_quietly, PersistMetadata. by destruct (SaveTo _ _ _ _). Qed.

(** Creating on the spot: the descriptor is computed from the membership alone, and is
    registered whether or not the logs then open. *)
Lemma create_here_spec name n rf loc b : HasTopic name (br_md b) = false → createable (plain_topic name n rf) (br_md b) →
  let d := mkTopic (plain_topic name n rf) (ComputeAssignments (plain_topic name n rf) (br_md b)) in
  let res := create_here config env name n rf loc b in
  br_md res.2 = with_topics (om_emplace name d (md_topics (br_md b))) (br_md b) ∧ GetTopic name (br_md res.2) = Ok d ∧
  (loc = true → br_sent res.2 = br_sent b) ∧
  (res.1 = Ok d → loc = false → 1 < zlen (md_brokers (br_md b)) →
     br_sent res.2 = br_sent b ++ map (λ peer, (be_id peer, encode_reply (k := KCreateTopicRequest) (topic_request (plain_topic name n rf) true)))
       (List.filter (λ peer, negb (be_id peer =? bc_broker_id config)) (md_brokers (br_md b)))) ∧
  (∀ d', res.1 = Ok d' → d' = d).
Proof.
  intros Hno Hc d res. pose proof (CreateTopic_cases (plain_topic name n rf) (br_md b)) as HC.
  assert (Hf : om_find name (md_topics (br_md b)) = None) by (unfold HasTopic in Hno; by destruct (om_find name _)).
  unfold res, create_here, PM_CreateTopic, szoom, sbind. cbn [fst snd]. fold (plain_topic name n rf).
  destruct (CreateTopic (plain_topic name n rf) (br_md b)) as [[[d0 c0]|e] md1]; cbn [fst snd].
  2:{ exfalso. destruct HC as (_ & [[Hn _]|(d0 & Hd & _)]); [done|]. cbn [plain_topic tc_name] in Hd. congruence. }
  destruct c0; [|exfalso; destruct HC as (_ & _ & Hd & _); cbn [plain_topic tc_name] in Hd; congruence].
  destruct HC as (_ & _ & -> & ->). fold d.
  assert (HG : GetTopic name (with_topics (om_emplace name d (md_topics (br_md b))) (br_md b)) = Ok d).
  { unfold GetTopic. cbn. by rewrite om_find_emplace, decide_True, Hf. }
  change (tc_name (plain_topic name n rf)) with name.
  destruct (OpenPartitionsForTopic config (re_disk env) d (br_pm b)) as [[[]|e] pm1]; cbn [fst snd]; [|by split_and!].
  unfold smod, sret. cbn [fst snd]. set (b1 := set_pm pm1 _). destruct (persist_shape b1) as [P1 P2].
  assert (HM : ∀ x : bool, br_md (if x then BroadcastTopic config d (persist_quietly config env b1) else persist_quietly config env b1) = br_md b1) by (by intros []).
  rewrite HM. split_and!; try done.
  - intros ->. cbn [negb andb]. exact P2.
  - intros _ -> Hl. cbn [negb andb]. rewrite P1. change (md_brokers (br_md b1)) with (md_brokers (br_md b)). rewrite (proj2 (Z.ltb_lt _ _) Hl).
    unfold BroadcastTopic. cbn [send_to br_sent]. rewrite P1, P2. reflexivity.
  - by intros d' [= <-].
Qed.

(** What the controller tells about a topic is the topic. *)
Lemma adopted_same name n rf ps : topic_ok name (mkTopic (plain_topic name n rf) ps) → 0 < n →
  adopted_topic (topic_metadata (mkTopic (plain_topic name n rf) ps)) = mkTopic (plain_topic name n rf) ps.
Proof.
  intros [_ _ [F1 F2] Hc Hd] Hn. unfold adopted_topic, topic_metadata. cbn [td_config td_partitions plain_topic tc_name tm_name tm_partitions tc_partition_count tc_replication_factor] in *.
  rewrite map_map. assert (HE : map (λ x, mkAssignment (pm_index (partition_metadata x)) (pm_leader (partition_metadata x)) (pm_leader_epoch (partition_metadata x))
    (pm_replicas (partition_metadata x)) (pm_in_sync_replicas (partition_metadata x))) ps = ps) by (rewrite <- (map_id ps) at 2; apply map_ext; by intros []).
  rewrite HE. unfold plain_topic. f_equal. rewrite Hc, swrap_small by (done || lia). destruct ps as [|a ps]; [change (zlen (@nil PartitionAssignment)) with 0 in Hc; lia|].
  destruct (Hd 0%nat a eq_refl) as [_ Ha]. rewrite (ao_size _ _ Ha), swrap_small by (done || lia). reflexivity.
Qed.

(** What another broker's well-formed metadata tells about a topic is a well-formed topic, so
    adopting it is a step [md_adopt] of the metadata. *)
Lemma adopted_ok name d : topic_ok name d → topic_ok name (adopted_topic (topic_metadata d)).
Proof.
  intros [T1 T2 [F1 F2] T4 T5]. unfold adopted_topic, topic_metadata. cbn [tm_name tm_partitions]. rewrite map_map.
  assert (HE : map (λ x, mkAssignment (pm_index (partition_metadata x)) (pm_leader (partition_metadata x)) (pm_leader_epoch (partition_metadata x))
    (pm_replicas (partition_metadata x)) (pm_in_sync_replicas (partition_metadata x))) (td_partitions d) = td_partitions d) by (rewrite <- (map_id (td_partitions d)) at 2; apply map_ext; by intros []).
  rewrite HE. rewrite T4, (swrap_small 32) by (done || lia).
  assert (Hrf : td_partitions d ≠ [] → match td_partitions d with [] => 1 | a :: _ => i16 (zlen (pa_replicas a)) end = tc_replication_factor (td_config d)).
  { destruct (td_partitions d) as [|a ps] eqn:E; [done|]. intros _. destruct (T5 0%nat a eq_refl) as [_ Ha]. by rewrite (ao_size _ _ Ha), swrap_small by (done || lia). }
  constructor; cbn [td_config td_partitions tc_name tc_partition_count tc_replication_factor]; try done.
  - split; [done|]. cbn [tc_replication_factor]. destruct (td_partitions d); [done|]. by rewrite Hrf.
  - intros i a Ha. destruct (T5 i a Ha) as [H1 H2]. split; [done|]. rewrite Hrf; [done|]. intros E. by rewrite E in Ha.
Qed.

Definition adopted_or (t : TopicMetadata) (known : Result TopicDescriptor) : Result TopicDescriptor :=
  match known with Ok x => Ok x | Err _ => Ok (adopted_topic t) end.
Lemma upsert_get t md : IsValidTopicName (tm_name t) = true →
  (UpsertTopic (adopted_topic t) md).1 = Ok tt ∧
  ∀ name, GetTopic name (UpsertTopic (adopted_topic t) md).2 = if decide (name = tm_name t) then Ok (adopted_topic t) else GetTopic name md.
Proof.
  intros Hv. unfold UpsertTopic. change (tc_name (td_config (adopted_topic t))) with (tm_name t). rewrite Hv. cbn [negb smod fst snd]. split; [done|].
  intros name. unfold GetTopic. cbn. rewrite om_find_insert. by destruct (decide (name = tm_name t)).
Qed.
Lemma adopt_known t ts n b : HasTopic (tm_name t) (br_md b) = true → adopt_topics config env (t :: ts) n b = adopt_topics config env ts n b.
Proof. intros EH. cbn [adopt_topics]. unfold sbind, sget. by rewrite EH. Qed.
Lemma adopt_unknown t ts n b : HasTopic (tm_name t) (br_md b) = false → IsValidTopicName (tm_name t) = true →
  ∃ n' b1, adopt_topics config env (t :: ts) n b = adopt_topics config env ts n' b1 ∧
    ∀ name, GetTopic name (br_md b1) = if decide (name = tm_name t) then Ok (adopted_topic t) else GetTopic name (br_md b).
Proof.
  intros EH Hv. cbn [adopt_topics]. unfold sbind, sget. rewrite EH. destruct (upsert_get t (br_md b) Hv) as [U1 U2].
  unfold on_md, szoom. destruct (UpsertTopic (adopted_topic t) (br_md b)) as [r md1]. cbn [fst snd] in *. subst r.
  unfold stry, on_pm, szoom. cbn [fst snd]. destruct (OpenPartitionsForTopic config (re_disk env) (adopted_topic t) _) as [opened pm1].
  eexists _, _. split; [reflexivity|]. exact U2.
Qed.
Lemma adopt_topics_spec ts n b : Forall (λ t, IsValidTopicName (tm_name t) = true) ts → NoDup (map tm_name ts) →
  let res := adopt_topics config env ts n b in
  (∃ n', res.1 = Ok n') ∧ (∀ name, name ∉ map tm_name ts → GetTopic name (br_md res.2) = GetTopic name (br_md b)) ∧
  (∀ t, t ∈ ts → GetTopic (tm_name t) (br_md res.2) = adopted_or t (GetTopic (tm_name t) (br_md b))).
Proof.
  intros HV. revert n b. induction HV as [|t ts Hv HV IH]; intros n b Hnd; cbn [map] in *.
  { split; [by exists n|]. split; [done|]. intros t []%not_elem_of_nil. }
  apply NoDup_cons in Hnd as [Hn Hnd]. destruct (HasTopic (tm_name t) (br_md b)) eqn:EH.
  - rewrite adopt_known by done.
    destruct (IH n b Hnd) as (I1 & I2 & I3). split; [done|]. split; [intros name Hname; apply I2; set_solver|].
    intros t' [->|Ht']%elem_of_cons; [|by apply I3]. rewrite I2 by done. unfold HasTopic, GetTopic in *. by destruct (om_find _ _).
  - destruct (adopt_unknown t ts n b EH Hv) as (n' & b1 & -> & Hb1). destruct (IH n' b1 Hnd) as (I1 & I2 & I3).
    assert (HG : GetTopic (tm_name t) (br_md b) = Err kNotFound) by (by apply GetTopic_absent).
    split; [exact I1|]. split; [intros name Hname; rewrite I2, Hb1, decide_False by set_solver; done|].
    intros t' [->|Ht']%elem_of_cons; [rewrite I2, Hb1, decide_True by done; by rewrite HG|]. rewrite (I3 t' Ht'), Hb1, decide_False; [done|].
    intros HE. apply Hn. rewrite <- HE. by apply list_elem_of_fmap_2.
Qed.
(** A reachable controller's answer is decoded and adopted topic by topic. *)
Lemma Reconcile_adopts b md : ControllerId (br_md b) ≠ bc_broker_id config → is_Some (FindBroker (ControllerId (br_md b)) (br_md b)) →
  msg_wf (M := Messages.payload KMetadataResponse) (BuildMetadataResponse [] md) →
  (∀ p, re_controller env kMetadata p = Ok (encode_reply (k := KMetadataResponse) (BuildMetadataResponse [] md))) →
  ReconcileMetadataFromController config env b =
  (let! adopted := adopt_topics config env (map (λ e, topic_metadata e.2) (md_topics md)) 0 in if 0 <? adopted then smod (persist_quietly config env) else sret tt) b.
Proof.
  intros Hne [e He] Hwf Hcall. unfold ReconcileMetadataFromController, sbind at 1, sget. rewrite (proj2 (Z.eqb_neq _ _) Hne), He.
  unfold sbind at 1, slift. rewrite Hcall.
  assert (HD : (MetadataResponse_Decode (newReader (encode_reply (k := KMetadataResponse) (BuildMetadataResponse [] md)))).1 = Some (BuildMetadataResponse [] md)).
  { pose proof (encode_reply_decodes KMetadataResponse _ Hwf) as HD. destruct (DecodePayload_decode _ _ _ HD) as (r & Hr).
    change (MetadataResponse_Decode (newReader (encode_reply (k := KMetadataResponse) (BuildMetadataResponse [] md))) = (Some (BuildMetadataResponse [] md), r)) in Hr. by rewrite Hr. }
  rewrite HD. cbn [BuildMetadataResponse mresp_header MessagesData.error mresp_topics]. by rewrite bool_decide_eq_true_2 by done.
Qed.
Lemma Reconcile_spec b md : ControllerId (br_md b) ≠ bc_broker_id config → is_Some (FindBroker (ControllerId (br_md b)) (br_md b)) →
  md_inv md → msg_wf (M := Messages.payload KMetadataResponse) (BuildMetadataResponse [] md) →
  (∀ p, re_controller env kMetadata p = Ok (encode_reply (k := KMetadataResponse) (BuildMetadataResponse [] md))) →
  let res := ReconcileMetadataFromController config env b in
  res.1 = Ok tt ∧ (∀ name d, GetTopic name md = Ok d → GetTopic name (br_md res.2) = adopted_or (topic_metadata d) (GetTopic name (br_md b))) ∧
  ∀ name known, GetTopic name (br_md b) = Ok known → GetTopic name (br_md res.2) = Ok known.
Proof.
  intros Hne He Hi Hwf Hcall. rewrite (Reconcile_adopts b md Hne He Hwf Hcall). set (ts := map (λ e, topic_metadata e.2) (md_topics md)).
  assert (HT : ∀ p, p ∈ md_topics md → tm_name (topic_metadata p.2) = p.1 ∧ IsValidTopicName p.1 = true).
  { intros [k d] Hp. apply (om_find_elem k d) in Hp; [|apply Hi]. destruct (mi_all _ k d Hi Hp) as [T1 T2 _ _ _]. by split. }
  assert (HV : Forall (λ t, IsValidTopicName (tm_name t) = true) ts).
  { apply Forall_map, Forall_forall. intros p Hp. destruct (HT p Hp) as [E1 E2]. by rewrite E1. }
  assert (HN : NoDup (map tm_name ts)).
  { unfold ts. rewrite map_map. rewrite (map_ext_in _ fst); [apply om_keys_NoDup, Hi|]. intros p Hp%list_elem_of_In. by apply HT. }
  destruct (adopt_topics_spec ts 0 b HV HN) as ([n Hn] & H0 & H3). unfold sbind. destruct (adopt_topics config env ts 0 b) as [r b1]. cbn [fst snd] in *. subst r.
  assert (HM : ∀ m : SR Broker unit, m = (if 0 <? n then smod (persist_quietly config env) else sret tt) → (m b1).1 = Ok tt ∧ br_md (m b1).2 = br_md b1).
  { intros m ->. destruct (0 <? n); [|done]. cbn. by destruct (persist_shape b1) as [-> _]. }
  destruct (HM _ eq_refl) as [H1 H2]. split; [exact H1|]. split.
  2:{ intros name known Hk. transitivity (GetTopic name (br_md b1)); [f_equal; exact H2|]. destruct (decide (name ∈ map tm_name ts)) as [Hin|Hin]; [|by rewrite H0].
      apply list_elem_of_fmap in Hin as (t & -> & Ht). by rewrite (H3 t Ht), Hk. }
  intros name d Hd. unfold GetTopic in Hd. destruct (om_find name (md_topics md)) as [d'|] eqn:EF; [|done]. injection Hd as ->.
  destruct (HT (name, d) (om_find_In _ _ _ EF)) as [E1 _]. cbn in E1. rewrite <- E1.
  transitivity (GetTopic (tm_name (topic_metadata d)) (br_md b1)); [f_equal; exact H2|]. apply H3. unfold ts. apply list_elem_of_fmap. exists (name, d). split; [done|by apply om_find_In].
Qed.
End Topics.

Section Agreement.
Context (config : BrokerConfig) (env : RequestEnv).

Lemma EnsureTopic_new name n rf b d b1 : ControllerId (br_md b) = bc_broker_id config → HasTopic name (br_md b) = false →
  EnsureTopic config env name n rf false b = (Ok d, b1) → create_here config env name n rf false b = (Ok d, b1) ∧ createable (plain_topic name n rf) (br_md b).
Proof.
  intros Hc Hno. unfold EnsureTopic, sbind at 1, sget. assert (HG : GetTopic name (br_md b) = Err kNotFound) by (by apply GetTopic_absent).
  rewrite HG, Hc, Z.eqb_refl. cbn [orb]. intros H. split; [exact H|]. revert H. unfold create_here, PM_CreateTopic, szoom, sbind. cbn [fst snd].
  pose proof (CreateTopic_cases (plain_topic name n rf) (br_md b)) as HC. fold (plain_topic name n rf).
  destruct (CreateTopic (plain_topic name n rf) (br_md b)) as [[[d0 c0]|e] md1]; [|done]. intros _. destruct c0; by destruct HC as (? & ? & _).
Qed.
Lemma EnsureTopic_local name n rf b : HasTopic name (br_md b) = false → EnsureTopic config env name n rf true b = create_here config env name n rf true b.
Proof. unfold HasTopic, EnsureTopic, sbind at 1, sget, GetTopic. destruct (om_find _ _); [done|]. by rewrite orb_true_r. Qed.
(** The message the controller pushes, at a broker that does not know the topic. *)
Lemma pushed_topic name n rf b : HasTopic name (br_md b) = false → createable (plain_topic name n rf) (br_md b) → config_fits (plain_topic name n rf) →
  let res := ExecuteCreateTopic config env (encode_reply (k := KCreateTopicRequest) (topic_request (plain_topic name n rf) true)) b in
  GetTopic name (br_md res.2) = Ok (mkTopic (plain_topic name n rf) (ComputeAssignments (plain_topic name n rf) (br_md b))) ∧ br_sent res.2 = br_sent b.
Proof.
  intros Hno Hc [F1 F2]. destruct Hc as (Hv & Hp & Hr) eqn:EC. destruct (IsValidTopicName_safe name Hv) as (_ & _ & _ & Hl & _).
  unfold ExecuteCreateTopic. rewrite encode_reply_decodes.
  2:{ cbn [plain_topic tc_partition_count tc_replication_factor] in F1, F2. change (CreateTopicRequest_wf (topic_request (plain_topic name n rf) true)).
      unfold CreateTopicRequest_wf, topic_request, plain_topic. cbn. split_and!; try done. unfold string_fits, kMaxStringLength. lia. }
  cbn [topic_request plain_topic tc_name tc_partition_count tc_replication_factor tc_retention_ms tc_segment_bytes ctreq_topic ctreq_partitions ctreq_replication_factor ctreq_from_controller] in *.
  rewrite (proj2 (Z.ltb_lt _ _) Hp), (proj2 (Z.ltb_lt _ _) (proj1 Hr)). rewrite EnsureTopic_local by done.
  destruct (create_here_spec config env name n rf true b Hno) as (_ & H2 & H3 & _ & _); [done|]. destruct (create_here config env name n rf true b) as [r b1]. cbn [fst snd] in *. split; [exact H2|by apply H3].
Qed.
End Agreement.

(** C8. The layout a topic is created with reaches the other brokers.  Take a controller with
    well-formed metadata that does not know the topic and whose [EnsureTopic] returns OK.  It
    then knows the topic and has handed a message for every other broker of its list to the
    transport.  A broker that takes such a message, has the same broker list and does not know
    the topic yet, registers exactly the controller's descriptor, whether or not its logs then
    open, and tells nobody else.  A broker with the same list that the message did not reach
    and that does not know the topic gets the same descriptor when it reconciles with the
    controller (whose metadata response fits the field ranges of the protocol); reconciling keeps every topic it already knew, as it knew it.  Nothing is said
    of a broker that knows another layout of the topic (it keeps that), nor of an [EnsureTopic]
    that fails after the topic has been registered (it does not broadcast). *)
Theorem topic_agreement config env name n rf b d b1 :
  md_inv (br_md b) → ControllerId (br_md b) = bc_broker_id config → HasTopic name (br_md b) = false → config_fits (plain_topic name n rf) →
  EnsureTopic config env name n rf false b = (Ok d, b1) →
  let message := encode_reply (k := KCreateTopicRequest) (topic_request (td_config d) true) in
  GetTopic name (br_md b1) = Ok d ∧
  (∀ e, e ∈ md_brokers (br_md b) → be_id e ≠ bc_broker_id config → (be_id e, message) ∈ br_sent b1) ∧
  (∀ config' env' p, md_brokers (br_md p) = md_brokers (br_md b) → HasTopic name (br_md p) = false →
     let p1 := (ExecuteCreateTopic config' env' message p).2 in GetTopic name (br_md p1) = Ok d ∧ br_sent p1 = br_sent p) ∧
  (∀ config' env' p, md_brokers (br_md p) = md_brokers (br_md b) → bc_broker_id config' ≠ bc_broker_id config →
     msg_wf (M := Messages.payload KMetadataResponse) (BuildMetadataResponse [] (br_md b1)) →
     (∀ q, re_controller env' kMetadata q = Ok (encode_reply (k := KMetadataResponse) (BuildMetadataResponse [] (br_md b1)))) →
     let res := ReconcileMetadataFromController config' env' p in
     res.1 = Ok tt ∧ (HasTopic name (br_md p) = false → GetTopic name (br_md res.2) = Ok d) ∧
     (∀ t known, GetTopic t (br_md p) = Ok known → GetTopic t (br_md res.2) = Ok known)).
Proof.
  intros Hi Hc Hno Hf HE message. destruct (EnsureTopic_new config env name n rf b d b1 Hc Hno HE) as [HH Hcr].
  destruct (create_here_spec config env name n rf false b Hno Hcr) as (H1 & H2 & _ & H4 & H5). rewrite HH in *. cbn [fst snd] in *.
  pose proof (H5 d eq_refl) as Hd. set (ps := ComputeAssignments (plain_topic name n rf) (br_md b)) in *.
  assert (Hok : topic_ok name d) by (rewrite Hd; apply (ComputeAssignments_ok (plain_topic name n rf)); [apply Hi|apply Hi|done|done]).
  assert (Hi1 : md_inv (br_md b1)).
  { rewrite H1. unfold om_emplace. unfold HasTopic in Hno. destruct (om_find name (md_topics (br_md b))); [done|]. apply (layout_inv_insert []); [done|done|intros _; by rewrite <- Hd|done]. }
  rewrite <- Hd in H2, H4. split_and!; [done| | |].
  - intros e He Hne. assert (Hl : 1 < zlen (md_brokers (br_md b))).
    { unfold ControllerId in Hc. destruct (md_brokers (br_md b)) as [|b0 [|b' bs]]; [by apply not_elem_of_nil in He| |unfold zlen; cbn; lia].
      apply list_elem_of_singleton in He as ->. done. }
    rewrite H4 by done. apply elem_of_app. right. unfold message. rewrite Hd. cbn [td_config]. apply list_elem_of_fmap. exists e. split; [done|].
    apply list_elem_of_In, filter_In. split; [by apply list_elem_of_In|]. by rewrite (proj2 (Z.eqb_neq _ _) Hne).
  - intros config' env' p Hb Hp. unfold message. rewrite Hd. cbn [td_config].
    assert (HA : ComputeAssignments (plain_topic name n rf) (br_md p) = ps) by (unfold ps, ComputeAssignments; by rewrite Hb).
    rewrite <- HA. apply pushed_topic; [done|by unfold createable; rewrite Hb|done].
  - intros config' env' p Hb Hne Hwf Hcall.
    assert (HC : ControllerId (br_md p) = bc_broker_id config) by (unfold ControllerId in *; by rewrite Hb).
    assert (HF : is_Some (FindBroker (ControllerId (br_md p)) (br_md p))).
    { destruct Hcr as (_ & _ & Hr). unfold ControllerId, FindBroker. rewrite Hb. destruct (md_brokers (br_md b)) as [|b0 bs]; [exfalso; change (i16 (zlen (@nil BrokerEndpoint))) with 0 in Hr; lia|].
      cbn. rewrite Z.eqb_refl. by eexists. }
    destruct (Reconcile_spec config' env' p (br_md b1)) as (R1 & R2 & R3); [rewrite HC; congruence|done|done|done|done|].
    split; [exact R1|]. split; [|exact R3].
    intros Hp. rewrite (R2 name d H2). assert (HG : GetTopic name (br_md p) = Err kNotFound) by (by apply GetTopic_absent).
      rewrite HG. cbn [adopted_or]. rewrite Hd in Hok |- *. f_equal. apply adopted_same; [done|]. by destruct Hcr as (_ & Hp0 & _).
Qed.

(** ** Examples *)

Definition broker_config (id : Z) : BrokerConfig :=
  mkBrokerConfig id (mkEndpoint [] 0) [] 0 [] [] 1 1 1 1 1 1 1 8 false 4096 0 1 0 0 0 false kWrite kFull
    (mkFlushPolicy false 0 0 0) 0 false 1 1 0 0 0 0 0 0 false [] 0 0 kInfo [] 0.
Definition broker_env (controller : OpCode → bytes → Result bytes) : RequestEnv :=
  mkRequestEnv (λ _, mkOpenEnv 1 0 (Ok tt) (Ok []) (λ _, Err kIoError) 0) example_env (λ _, 0) 0 0 0 (mkSaveEnv true true 0 true) controller.
Definition idle_broker : Broker := mkBroker three_brokers (mkManager [] false) (newCoordinator (mkStore None [] false 0) 1000) [] [].
Definition offline : RequestEnv := broker_env (λ _ _, Err kUnavailable).

(** A request for the offsets of partition 5 of [t], and a heartbeat of a group that another
    broker coordinates. *)
Definition list_offsets_payload : bytes := Eval vm_compute in encode_reply (k := KListOffsetsRequest) (mkListOffsetsRequest (str "t") 5 (-1)).
Definition heartbeat_payload : bytes := Eval vm_compute in encode_reply (k := KHeartbeatRequest) (mkHeartbeatRequest (str "g") (str "m") 1).

Lemma list_offsets_about : partition_of kListOffsets list_offsets_payload = Some (mkTP (str "t") 5).
Proof. vm_compute. reflexivity. Qed.
Lemma heartbeat_about : group_of kHeartbeat heartbeat_payload = Some (str "g").
Proof. vm_compute. reflexivity. Qed.
Lemma heartbeat_elsewhere : CoordinatorFor (str "g") (br_md idle_broker) = 2.
Proof. vm_compute. reflexivity. Qed.

Lemma request_routing_witness :
  OnFrame (broker_config 1) offline (λ _, 7) (λ _, true) 0 true [] kListOffsets list_offsets_payload idle_broker =
    (RouteToWorker (λ _, true) (WorkerFor (λ _, 7) (broker_config 1) (mkTP (str "t") 5)), idle_broker) ∧
  Execute (broker_config 1) offline kFetch list_offsets_payload idle_broker = (inl (error_reply kProtocolError), [], idle_broker) ∧
  OnFrame (broker_config 1) offline (λ _, 7) (λ _, true) 0 true [] kLeaveGroup [] idle_broker = (Answered (error_reply kProtocolError), idle_broker) ∧
  OnFrame (broker_config 1) offline (λ _, 7) (λ _, true) 0 true [] kHeartbeat heartbeat_payload idle_broker = (Answered (error_reply kNotLeader), idle_broker).
Proof.
  split; [|split; [|split]].
  - exact (proj1 (proj1 (request_routing (broker_config 1) offline (λ _, 7) (λ _, true) 0 true [] kListOffsets list_offsets_payload idle_broker) _ list_offsets_about)).
  - apply (proj1 (proj2 (request_routing (broker_config 1) offline (λ _, 7) (λ _, true) 0 true [] kFetch list_offsets_payload idle_broker))); [right; left|vm_compute; reflexivity].
  - apply (proj1 (proj2 (proj2 (request_routing (broker_config 1) offline (λ _, 7) (λ _, true) 0 true [] kLeaveGroup [] idle_broker)))); [right; right; left|vm_compute; reflexivity].
  - apply (proj2 (proj2 (proj2 (request_routing (broker_config 1) offline (λ _, 7) (λ _, true) 0 true [] kHeartbeat heartbeat_payload idle_broker))) (str "g"));
      [exact heartbeat_about|rewrite heartbeat_elsewhere; lia|rewrite heartbeat_elsewhere; discriminate].
Defined.

Local Notation created := (EnsureTopic (broker_config 1) offline (str "orders") 1 1 false idle_broker).
Definition orders_made : TopicDescriptor := Eval vm_compute in mkTopic (plain_topic (str "orders") 1 1) (ComputeAssignments (plain_topic (str "orders") 1 1) three_brokers).
Lemma orders_created : created = (Ok orders_made, created.2).
Proof. vm_compute. reflexivity. Qed.
Lemma three_inv : md_inv three_brokers.
Proof. apply (md_reachable_inv three_brokers), (md_next _ [] (OpSetBrokersFromSpec three_specs)); [constructor|]. vm_compute. reflexivity. Qed.
Definition orders_response : MetadataResponse := Eval vm_compute in BuildMetadataResponse [] (br_md created.2).
Lemma orders_response_eq : BuildMetadataResponse [] (br_md created.2) = orders_response.
Proof. vm_compute. reflexivity. Qed.
Lemma orders_answer : msg_wf (M := Messages.payload KMetadataResponse) (BuildMetadataResponse [] (br_md created.2)).
Proof.
  rewrite orders_response_eq. change (MetadataResponse_wf orders_response). unfold orders_response, MetadataResponse_wf, ResponseHeader_wf, signed.
  repeat (split || constructor); cbn; unfold signed, unsigned; try (cbn; lia); try done.
Qed.

Lemma topic_agreement_witness :
  GetTopic (str "orders") (br_md (ReconcileMetadataFromController (broker_config 2)
    (broker_env (λ _ _, Ok (encode_reply (k := KMetadataResponse) (BuildMetadataResponse [] (br_md created.2))))) idle_broker).2) = Ok orders_made.
Proof.
  exact (proj1 (proj2 (proj2 (proj2 (proj2 (topic_agreement (broker_config 1) offline (str "orders") 1 1 idle_broker orders_made created.2 three_inv eq_refl eq_refl
    ltac:(split; [cbn; unfold signed; lia|cbn; unfold signed; lia]) orders_created)))
    (broker_config 2) (broker_env (λ _ _, Ok (encode_reply (k := KMetadataResponse) (BuildMetadataResponse [] (br_md created.2))))) idle_broker eq_refl ltac:(discriminate) orders_answer (λ _, eq_refl))) eq_refl).
Defined.
