(* ===== verification/Socket.v ===== *)
(** * Socket: non-blocking transfers over a byte stream

    Models the transfer calls of [TcpSocket] (src/net/socket.cc): [ReadInto], [Write] and
    [WriteVectored], with the classification of errors they share.  What the kernel will
    answer to the next calls is part of the socket: [so_recv] lists what arrives, [so_send]
    how many bytes the kernel accepts, and a call past the end of a list would block.  Each
    call takes one answer, so a loop of transfers cannot make more of them than there are
    answers.  [so_sent] and [so_received] are the two byte streams as they passed the
    socket; no call reads them.  Creating, connecting and configuring sockets are system
    calls without logic of their own and are left out. *)
From S2P Require Import Prelude Status Buffer.

(** [Arrived []] is the end of the stream. *)
Inductive RecvAnswer := Arrived (data : bytes) | RecvFails (e : Errno).
Inductive SendAnswer := Accepts (n : Z) | SendFails (e : Errno).

Record TcpSocket := mkSocket {
  so_fd : Z; so_recv : list RecvAnswer; so_send : list SendAnswer; so_received : bytes; so_sent : bytes }.
Definition valid (s : TcpSocket) : bool := 0 <=? so_fd s.
Definition Socket_Close (s : TcpSocket) : TcpSocket := mkSocket (-1) (so_recv s) (so_send s) (so_received s) (so_sent s).

Record TransferResult := mkTransfer { tr_bytes : Z; would_block : bool; eof : bool }.
Definition moved (n : Z) : TransferResult := mkTransfer n false false.
Definition blocked : TransferResult := mkTransfer 0 true false.
Definition at_eof : TransferResult := mkTransfer 0 false true.

Definition kMaxWriteChunks : Z := 64.

(** ** System calls *)

(** [recv] of at most [size] bytes: the next of what has arrived, the rest of it stays. *)
Definition recv (size : Z) (s : TcpSocket) : (bytes + Errno) * TcpSocket :=
  match so_recv s with
  | [] => (inr EAGAIN, s)
  | RecvFails e :: rest => (inr e, mkSocket (so_fd s) rest (so_send s) (so_received s) (so_sent s))
  | Arrived data :: rest =>
      let got := ztake size data in
      let rest := if size <? zlen data then Arrived (zdrop size data) :: rest else rest in
      (inl got, mkSocket (so_fd s) rest (so_send s) (so_received s ++ got) (so_sent s))
  end.
(** [send] and [sendmsg]: the kernel takes a prefix of what it is given. *)
Definition send (data : bytes) (s : TcpSocket) : (Z + Errno) * TcpSocket :=
  match so_send s with
  | [] => (inr EAGAIN, s)
  | SendFails e :: rest => (inr e, mkSocket (so_fd s) (so_recv s) rest (so_received s) (so_sent s))
  | Accepts n :: rest =>
      let taken := ztake n data in
      (inl (zlen taken), mkSocket (so_fd s) (so_recv s) rest (so_received s) (so_sent s ++ taken))
  end.

Definition IsWouldBlock (e : Errno) : bool := bool_decide (e = EAGAIN).

(** [do { ... } while (result < 0 && errno == EINTR)]: an interrupted call takes an answer, so
    the number of answers left bounds the retries. *)
Fixpoint again {A} (fuel : nat) (call : TcpSocket → (A + Errno) * TcpSocket) (s : TcpSocket) : (A + Errno) * TcpSocket :=
  match call s, fuel with
  | (inr EINTR, s), S fuel => again fuel call s
  | res, _ => res
  end.

(** ** Transfers *)

Definition ReadInto (max_bytes : Z) (b : ByteBuffer) (s : TcpSocket) : Result TransferResult * ByteBuffer * TcpSocket :=
  let b := EnsureWritable max_bytes b in
  match again (length (so_recv s)) (recv max_bytes) s with
  | (inl data, s) =>
      if 0 <? zlen data then (Ok (moved (zlen data)), Commit (zlen data) (PokeWritable data b), s)
      else (Ok at_eof, b, s)
  | (inr e, s) =>
      if IsWouldBlock e then (Ok blocked, b, s)
      else if bool_decide (e = ECONNRESET) then (Ok at_eof, b, s)
      else (Err (ErrnoToStatus e), b, s)
  end.

Definition write_result (res : (Z + Errno) * TcpSocket) : Result TransferResult * TcpSocket :=
  match res with
  | (inl wrote, s) => (Ok (moved wrote), s)
  | (inr e, s) =>
      if IsWouldBlock e then (Ok blocked, s)
      else if bool_decide (e = EPIPE) || bool_decide (e = ECONNRESET) then (Ok at_eof, s)
      else (Err (ErrnoToStatus e), s)
  end.
Definition Socket_Write (data : bytes) (s : TcpSocket) : Result TransferResult * TcpSocket :=
  if zlen data =? 0 then (Ok (moved 0), s) else write_result (again (length (so_send s)) (send data) s).
(** The empty chunks are skipped, the others fill the vector of at most [kMaxWriteChunks]. *)
Definition WriteVectored (chunks : list bytes) (s : TcpSocket) : Result TransferResult * TcpSocket :=
  let vecs := ztake kMaxWriteChunks (List.filter (λ c, negb (zlen c =? 0)) chunks) in
  if zlen vecs =? 0 then (Ok (moved 0), s) else write_result (again (length (so_send s)) (send (concat vecs)) s).

(** ** What a transfer does *)

(** A read only takes answers off the front, keeps the sending side, and adds what it
    received to the stream. *)
Lemma again_recv fuel size s res s' : 0 < size → again fuel (recv size) s = (res, s') →
  so_fd s' = so_fd s ∧ so_send s' = so_send s ∧ so_sent s' = so_sent s ∧
  match res with inl data => so_received s' = so_received s ++ data ∧ zlen data ≤ size | inr _ => so_received s' = so_received s end.
Proof.
  intros Hs. revert s. induction fuel as [|fuel IH]; intros s; cbn; unfold recv at 1; destruct (so_recv s) as [|[data|e] rest];
    try (intros [= <- <-]; cbn; split_and!; try done; zlist).
  - destruct e; intros [= <- <-]; done.
  - destruct e; try (intros [= <- <-]; done). intros H. exact (IH _ H).
Qed.
(** A write takes a prefix of the data, or nothing. *)
Lemma again_send fuel data s res s' : again fuel (send data) s = (res, s') →
  so_fd s' = so_fd s ∧ so_recv s' = so_recv s ∧ so_received s' = so_received s ∧
  match res with
  | inl n => 0 ≤ n ≤ zlen data ∧ so_sent s' = so_sent s ++ ztake n data ∧ (length (so_send s') < length (so_send s))%nat
  | inr _ => so_sent s' = so_sent s
  end.
Proof.
  revert s. induction fuel as [|fuel IH]; intros s; cbn; unfold send at 1; destruct (so_send s) as [|[n|e] rest] eqn:E;
    try (intros [= <- <-]; cbn; rewrite ?ztake_zlen; split_and!; try done; rewrite ?zlen_ztake; try lia; zlist).
  - destruct e; intros [= <- <-]; done.
  - destruct e; try (intros [= <- <-]; done). intros H. apply IH in H as (H1 & H2 & H3 & H4). cbn in *. split_and!; try done.
    destruct res as [n|e]; [|done]. destruct H4 as (H5 & H6 & H7). split_and!; try lia; done.
Qed.

Lemma ReadInto_spec max_bytes b s res b' s' : 0 < max_bytes → buffer_wf b → ReadInto max_bytes b s = (res, b', s') →
  buffer_wf b' ∧ so_fd s' = so_fd s ∧ so_send s' = so_send s ∧ so_sent s' = so_sent s ∧
  ∃ data, Readable b' = Readable b ++ data ∧ so_received s' = so_received s ++ data ∧
    (∀ t, res = Ok t → tr_bytes t = zlen data) ∧ (∀ e, res = Err e → data = [] ∧ e ≠ kOk).
Proof.
  intros Hm Hwf. destruct (EnsureWritable_spec max_bytes b Hwf ltac:(lia)) as (Hw & HR & Hroom). unfold ReadInto.
  destruct (again (length (so_recv s)) (recv max_bytes) s) as [r s1] eqn:E. apply again_recv in E as (E1 & E2 & E3 & E4); [|done].
  assert (HN : ∀ x, (x, EnsureWritable max_bytes b, s1) = (res, b', s') → (∀ t, x = Ok t → tr_bytes t = 0) → (∀ e, x = Err e → e ≠ kOk) →
    (∀ data, so_received s1 = so_received s ++ data → data = [] →
    buffer_wf b' ∧ so_fd s' = so_fd s ∧ so_send s' = so_send s ∧ so_sent s' = so_sent s ∧
    ∃ data, Readable b' = Readable b ++ data ∧ so_received s' = so_received s ++ data ∧
      (∀ t, res = Ok t → tr_bytes t = zlen data) ∧ (∀ e, res = Err e → data = [] ∧ e ≠ kOk))).
  { intros x [= <- <- <-] Hx He data Hd ->. split_and!; try done. exists []. rewrite HR, app_nil_r. split; [done|]. split; [exact Hd|]. split; [exact Hx|].
    intros e ->. split; [done|by apply He]. }
  destruct r as [data|e].
  - destruct E4 as [E4 E5]. destruct (Z.ltb_spec 0 (zlen data)) as [Hl|Hl].
    + intros [= <- <- <-]. destruct (PokeCommit_spec data (EnsureWritable max_bytes b) Hw ltac:(lia)) as [P1 P2].
      split_and!; try done. exists data. rewrite P2, HR. split_and!; try done. by intros t [= <-].
    + intros H. apply (HN _ H) with data; [by intros t [= <-]|done|done|]. destruct data; [done|]. zlist.
  - assert (E4' : so_received s1 = so_received s ++ []) by by rewrite app_nil_r.
    destruct (IsWouldBlock e); [|destruct (bool_decide _)]; intros H;
      (refine (HN _ H _ _ [] E4' eq_refl); [by intros t [= <-]|intros e' [= <-]; apply ErrnoToStatus_not_ok]).
Qed.

(** The outcome of a write: a prefix of the data went out, and unless it blocked the kernel
    gave an answer. *)
Definition wrote (data : bytes) (s : TcpSocket) (res : Result TransferResult) (s' : TcpSocket) : Prop :=
  so_fd s' = so_fd s ∧ so_recv s' = so_recv s ∧ so_received s' = so_received s ∧
  match res with
  | Ok t => 0 ≤ tr_bytes t ≤ zlen data ∧ so_sent s' = so_sent s ++ ztake (tr_bytes t) data ∧
      ((would_block t = true ∨ eof t = true) → tr_bytes t = 0) ∧ (0 < tr_bytes t → (length (so_send s') < length (so_send s))%nat)
  | Err e => so_sent s' = so_sent s ∧ e ≠ kOk
  end.
Lemma write_result_spec fuel data s res s' : write_result (again fuel (send data) s) = (res, s') → wrote data s res s'.
Proof.
  destruct (again fuel (send data) s) as [r s1] eqn:E. apply again_send in E as (E1 & E2 & E3 & E4). unfold wrote.
  destruct r as [n|e]; cbn.
  - intros [= <- <-]. destruct E4 as (E4 & E5 & E6). cbn. split_and!; try done; try lia; by intros [].
  - pose proof (zlen_nonneg data). assert (E5 : so_sent s1 = so_sent s ++ ztake 0 data) by (rewrite ztake_0, app_nil_r by lia; done).
    destruct (IsWouldBlock e); [|destruct (_ || _)]; intros [= <- <-]; cbn; split_and!; try done; try lia. apply ErrnoToStatus_not_ok.
Qed.
Lemma moved_none data s : wrote data s (Ok (moved 0)) s.
Proof. pose proof (zlen_nonneg data). unfold wrote. cbn. rewrite ztake_0, app_nil_r by lia. split_and!; try done; lia. Qed.
Lemma Socket_Write_spec data s res s' : Socket_Write data s = (res, s') → wrote data s res s'.
Proof.
  unfold Socket_Write. destruct (Z.eqb_spec (zlen data) 0); [intros [= <- <-]; apply moved_none|]. apply write_result_spec.
Qed.
Lemma concat_filter_nonempty (chunks : list bytes) : concat (List.filter (λ c, negb (zlen c =? 0)) chunks) = concat chunks.
Proof.
  induction chunks as [|c cs IH]; [done|]. cbn. destruct (Z.eqb_spec (zlen c) 0) as [E|E]; cbn; [|by rewrite IH].
  apply zlen_0_nil in E as ->. exact IH.
Qed.
Lemma WriteVectored_spec chunks s res s' : zlen chunks ≤ kMaxWriteChunks → WriteVectored chunks s = (res, s') → wrote (concat chunks) s res s'.
Proof.
  intros Hl. unfold WriteVectored. set (vecs := List.filter _ chunks).
  assert (Hv : ztake kMaxWriteChunks vecs = vecs).
  { unfold ztake. apply take_ge. pose proof (filter_length_le (λ c : bytes, negb (zlen c =? 0)) chunks). fold vecs in H. unfold zlen, kMaxWriteChunks in *. lia. }
  rewrite Hv. destruct (Z.eqb_spec (zlen vecs) 0); [intros [= <- <-]; apply moved_none|].
  intros H. apply write_result_spec in H. unfold vecs in H. by rewrite concat_filter_nonempty in H.
Qed.

(** What arrives are bytes. *)
Definition answer_bytes (a : RecvAnswer) : Prop := match a with Arrived data => Forall is_byte data | RecvFails _ => True end.
Definition incoming_bytes (s : TcpSocket) : Prop := Forall answer_bytes (so_recv s) ∧ Forall is_byte (so_received s).
Lemma again_recv_bytes fuel size s : incoming_bytes s → incoming_bytes (again fuel (recv size) s).2.
Proof.
  revert s. induction fuel as [|fuel IH]; intros s [Ha Hr]; cbn; unfold recv at 1; destruct (so_recv s) as [|[data|e] rest] eqn:E;
    try (split; cbn; rewrite ?E; done); inversion Ha as [|? ? Hd Hrest]; subst.
  - split; cbn; [destruct (size <? zlen data); [constructor; [by apply Forall_drop|done]|done]|]. apply Forall_app. split; [done|by apply Forall_take].
  - destruct e; by split.
  - split; cbn; [destruct (size <? zlen data); [constructor; [by apply Forall_drop|done]|done]|]. apply Forall_app. split; [done|by apply Forall_take].
  - destruct e; try by split. by apply IH.
Qed.
Lemma ReadInto_bytes size b s : incoming_bytes s → incoming_bytes (ReadInto size b s).2.
Proof.
  intros H. apply (again_recv_bytes (length (so_recv s)) size) in H. unfold ReadInto. destruct (again _ _ s) as [[data|e] s1]; [by destruct (0 <? _)|].
  destruct (IsWouldBlock e); [done|]. by destruct (bool_decide _).
Qed.

(** The retry loops end with an answer other than an interruption. *)
Lemma again_recv_ends size s : (again (length (so_recv s)) (recv size) s).1 ≠ inr EINTR.
Proof.
  remember (so_recv s) as answers eqn:E. revert s E. induction answers as [|a answers IH]; intros s E; cbn; unfold recv at 1; rewrite <- E; [done|].
  destruct a as [data|e]; [done|]. destruct e; try done. by apply IH.
Qed.
Lemma again_send_ends data s : (again (length (so_send s)) (send data) s).1 ≠ inr EINTR.
Proof.
  remember (so_send s) as answers eqn:E. revert s E. induction answers as [|a answers IH]; intros s E; cbn; unfold send at 1; rewrite <- E; [done|].
  destruct a as [n|e]; [done|]. destruct e; try done. by apply IH.
Qed.

(** A write does not add answers; one that neither blocked nor met the end took one. *)
Lemma send_answers data s : (length (so_send (send data s).2) ≤ length (so_send s))%nat.
Proof. unfold send. destruct (so_send s) as [|[n|e] rest] eqn:E; cbn [snd so_send]; rewrite ?E; cbn; lia. Qed.
Lemma again_send_answers fuel data s : (length (so_send (again fuel (send data) s).2) ≤ length (so_send s))%nat.
Proof.
  revert s. induction fuel as [|fuel IH]; intros s; cbn [again]; pose proof (send_answers data s) as H; destruct (send data s) as [[n|e] s1]; cbn [snd] in *; try done.
  - by destruct e.
  - destruct e; try done. specialize (IH s1). lia.
Qed.
Lemma Socket_Write_answers data s res s' : Socket_Write data s = (res, s') → (length (so_send s') ≤ length (so_send s))%nat.
Proof.
  unfold Socket_Write. destruct (zlen data =? 0); [by intros [= <- <-]|]. pose proof (again_send_answers (length (so_send s)) data s) as H. destruct (again _ _ s) as [[n|e] s1]; cbn in *; [by intros [= <- <-]|].
  destruct (IsWouldBlock e); [by intros [= <- <-]|]. by destruct (_ || _); intros [= <- <-].
Qed.
Lemma Socket_Write_progress data s t s' : Socket_Write data s = (Ok t, s') → zlen data ≠ 0 → would_block t = false → eof t = false → (length (so_send s') < length (so_send s))%nat.
Proof.
  unfold Socket_Write. intros H Hd Hb He. destruct (Z.eqb_spec (zlen data) 0); [done|]. destruct (again (length (so_send s)) (send data) s) as [[n'|e] s1] eqn:E; cbn in H.
  - injection H as <- <-. apply again_send in E as (_ & _ & _ & _ & _ & E). exact E.
  - destruct (IsWouldBlock e); [injection H as <- <-; discriminate Hb|]. destruct (_ || _); [injection H as <- <-; discriminate He|discriminate H].
Qed.
