(* ===== verification/Connection.v ===== *)
(** * Connection: one client connection on its event loop

    Models src/net/connection.cc: reading and dispatching frames, the output queue with its
    vectored writes, back-pressure on reads, and closing.  [cn_watched] is what the loop was
    last told to watch (readable, writable); a failure of that call is only logged.
    [cl_closing] stands for the request to the loop to destroy the handler.  Pooled buffers
    are fresh buffers here: the pool hands out empty ones.  [cn_delivered] and [cn_accepted]
    are the frames given to the frame callback and the byte strings accepted for sending;
    the callback is a function of the frames it has seen so far. *)
From S2P Require Import Prelude Status Buffer Frame Socket.

Record ConnectionOptions := mkConnectionOptions {
  read_chunk_bytes : Z; output_high_water_bytes : Z; output_low_water_bytes : Z; output_max_bytes : Z;
  max_frame_bytes : Z; max_frames_per_event : Z }.

Record OutputChunk := mkChunk { ch_buffer : ByteBuffer; ch_sent : Z }.
Record PollState := mkPoll { read_paused : bool; want_write : bool; watched : bool * bool }.
Record Closing := mkClosing { cl_closing : bool; close_when_drained : bool; close_reason : ErrorCode }.
Record ConnStats := mkConnStats {
  frames_received : Z; frames_sent : Z; bytes_received : Z; bytes_sent : Z; writev_calls : Z; partial_writes : Z; read_pauses : Z }.
Record Connection := mkConnection {
  cn_socket : TcpSocket; cn_input : ByteBuffer; cn_decoder : FrameDecoder; cn_output : list OutputChunk; cn_output_bytes : Z;
  cn_poll : PollState; cn_close : Closing; cn_last_activity_ms : Z; cn_stats : ConnStats;
  cn_delivered : list Frame; cn_accepted : list bytes }.

Definition set_socket (s : TcpSocket) (c : Connection) : Connection :=
  mkConnection s (cn_input c) (cn_decoder c) (cn_output c) (cn_output_bytes c) (cn_poll c) (cn_close c) (cn_last_activity_ms c) (cn_stats c) (cn_delivered c) (cn_accepted c).
Definition set_input (b : ByteBuffer) (c : Connection) : Connection :=
  mkConnection (cn_socket c) b (cn_decoder c) (cn_output c) (cn_output_bytes c) (cn_poll c) (cn_close c) (cn_last_activity_ms c) (cn_stats c) (cn_delivered c) (cn_accepted c).
Definition set_decoder (d : FrameDecoder) (c : Connection) : Connection :=
  mkConnection (cn_socket c) (cn_input c) d (cn_output c) (cn_output_bytes c) (cn_poll c) (cn_close c) (cn_last_activity_ms c) (cn_stats c) (cn_delivered c) (cn_accepted c).
Definition set_output (out : list OutputChunk) (n : Z) (c : Connection) : Connection :=
  mkConnection (cn_socket c) (cn_input c) (cn_decoder c) out n (cn_poll c) (cn_close c) (cn_last_activity_ms c) (cn_stats c) (cn_delivered c) (cn_accepted c).
Definition set_poll (p : PollState) (c : Connection) : Connection :=
  mkConnection (cn_socket c) (cn_input c) (cn_decoder c) (cn_output c) (cn_output_bytes c) p (cn_close c) (cn_last_activity_ms c) (cn_stats c) (cn_delivered c) (cn_accepted c).
Definition set_close (cl : Closing) (c : Connection) : Connection :=
  mkConnection (cn_socket c) (cn_input c) (cn_decoder c) (cn_output c) (cn_output_bytes c) (cn_poll c) cl (cn_last_activity_ms c) (cn_stats c) (cn_delivered c) (cn_accepted c).
Definition set_activity (now : Z) (c : Connection) : Connection :=
  mkConnection (cn_socket c) (cn_input c) (cn_decoder c) (cn_output c) (cn_output_bytes c) (cn_poll c) (cn_close c) now (cn_stats c) (cn_delivered c) (cn_accepted c).
Definition count (f : ConnStats → ConnStats) (c : Connection) : Connection :=
  mkConnection (cn_socket c) (cn_input c) (cn_decoder c) (cn_output c) (cn_output_bytes c) (cn_poll c) (cn_close c) (cn_last_activity_ms c) (f (cn_stats c)) (cn_delivered c) (cn_accepted c).
Definition note_delivered (f : Frame) (c : Connection) : Connection :=
  mkConnection (cn_socket c) (cn_input c) (cn_decoder c) (cn_output c) (cn_output_bytes c) (cn_poll c) (cn_close c) (cn_last_activity_ms c) (cn_stats c) (cn_delivered c ++ [f]) (cn_accepted c).
Definition note_accepted (bs : bytes) (c : Connection) : Connection :=
  mkConnection (cn_socket c) (cn_input c) (cn_decoder c) (cn_output c) (cn_output_bytes c) (cn_poll c) (cn_close c) (cn_last_activity_ms c) (cn_stats c) (cn_delivered c) (cn_accepted c ++ [bs]).
Definition closing (c : Connection) : bool := cl_closing (cn_close c).

Definition count_received (st : ConnStats) := mkConnStats (frames_received st + 1) (frames_sent st) (bytes_received st) (bytes_sent st) (writev_calls st) (partial_writes st) (read_pauses st).
Definition count_sent (st : ConnStats) := mkConnStats (frames_received st) (frames_sent st + 1) (bytes_received st) (bytes_sent st) (writev_calls st) (partial_writes st) (read_pauses st).
Definition count_bytes_in (n : Z) (st : ConnStats) := mkConnStats (frames_received st) (frames_sent st) (bytes_received st + n) (bytes_sent st) (writev_calls st) (partial_writes st) (read_pauses st).
Definition count_bytes_out (n : Z) (st : ConnStats) := mkConnStats (frames_received st) (frames_sent st) (bytes_received st) (bytes_sent st + n) (writev_calls st) (partial_writes st) (read_pauses st).
Definition count_writev (st : ConnStats) := mkConnStats (frames_received st) (frames_sent st) (bytes_received st) (bytes_sent st) (writev_calls st + 1) (partial_writes st) (read_pauses st).
Definition count_partial (n : Z) (st : ConnStats) := mkConnStats (frames_received st) (frames_sent st) (bytes_received st) (bytes_sent st) (writev_calls st) (partial_writes st + n) (read_pauses st).
Definition count_pause (st : ConnStats) := mkConnStats (frames_received st) (frames_sent st) (bytes_received st) (bytes_sent st) (writev_calls st) (partial_writes st) (read_pauses st + 1).

Section Connection.
Context (options : ConnectionOptions).

Definition newConnection (s : TcpSocket) (now : Z) : Connection :=
  mkConnection s (newBuffer (read_chunk_bytes options)) (newDecoder (max_frame_bytes options)) [] 0
    (mkPoll false false (true, false)) (mkClosing false false kOk) now (mkConnStats 0 0 0 0 0 0 0) [] [].

(** ** Closing and back-pressure *)

Definition CloseNow (reason : ErrorCode) (c : Connection) : Connection :=
  if closing c then c else set_close (mkClosing true (close_when_drained (cn_close c)) reason) c.
Definition CloseWhenDrained (c : Connection) : Connection :=
  if closing c then c else
  let c := set_close (mkClosing false true (close_reason (cn_close c))) c in
  match cn_output c with [] => CloseNow kClosed c | _ => c end.

Definition UpdatePollRegistration (c : Connection) : Connection :=
  if closing c then c else
  let should_pause := output_high_water_bytes options <=? cn_output_bytes c in
  let should_resume := cn_output_bytes c <=? output_low_water_bytes options in
  let paused := read_paused (cn_poll c) in
  let pausing := negb paused && should_pause in
  let paused := if pausing then true else if paused && should_resume then false else paused in
  let c := if pausing then count count_pause c else c in
  set_poll (mkPoll paused (want_write (cn_poll c)) (negb paused, want_write (cn_poll c))) c.
Definition want (w : bool) (c : Connection) : Connection := set_poll (mkPoll (read_paused (cn_poll c)) w (watched (cn_poll c))) c.

(** ** Output *)

Definition chunk_rest (ch : OutputChunk) : bytes := zdrop (ch_sent ch) (Readable (ch_buffer ch)).
(** Whole buffers go, the one the write stopped in stays with what it has left. *)
Fixpoint consume_chunks (remaining : Z) (out : list OutputChunk) : list OutputChunk * Z :=
  match out with
  | [] => ([], 0)
  | ch :: rest =>
      if remaining <=? 0 then (out, 0) else
      let pending := ReadableBytes (ch_buffer ch) - ch_sent ch in
      if pending <=? remaining then consume_chunks (remaining - pending) rest
      else (mkChunk (ch_buffer ch) (ch_sent ch + remaining) :: rest, 1)
  end.
(** The loop of [FlushOutput]; [true] when the queue is empty.  An iteration that does not end
    the loop has taken one of the kernel's answers. *)
Fixpoint flush_loop (fuel : nat) (now : Z) (c : Connection) : Connection * bool :=
  match cn_output c, fuel with
  | [], _ => (c, true)
  | _, O => (c, false)
  | out, S fuel =>
      match WriteVectored (map chunk_rest (ztake kMaxWriteChunks out)) (cn_socket c) with
      | (Err e, s) => (CloseNow e (set_socket s c), false)
      | (Ok t, s) =>
          let c := set_socket s c in
          if eof t then (CloseNow kClosed c, false) else
          let c := count count_writev c in
          if would_block t || (tr_bytes t =? 0) then (UpdatePollRegistration (count (count_partial 1) (want true c)), false) else
          let '(out, partial) := consume_chunks (tr_bytes t) out in
          let c := set_output out (u64 (cn_output_bytes c - tr_bytes t)) (count (count_partial partial) (count (count_bytes_out (tr_bytes t)) c)) in
          flush_loop fuel now (set_activity now c)
      end
  end.
Definition FlushOutput (now : Z) (c : Connection) : Connection :=
  let '(c, drained) := flush_loop (S (length (so_send (cn_socket c)))) now c in
  if negb drained then c else
  let c := want false c in
  if close_when_drained (cn_close c) then CloseNow (if decide (close_reason (cn_close c) = kOk) then kClosed else close_reason (cn_close c)) c
  else UpdatePollRegistration c.

Definition push_output (b : ByteBuffer) (c : Connection) : Connection :=
  note_accepted (Readable b) (set_output (cn_output c ++ [mkChunk b 0]) (u64 (cn_output_bytes c + ReadableBytes b)) c).
Definition SendFrame (now : Z) (op : OpCode) (request_id flags : Z) (payload : bytes) (c : Connection) : bool * Connection :=
  if closing c then (false, c) else
  let buffer := EncodeFrame_op op request_id flags payload (newBuffer (kFrameHeaderSize + zlen payload)) in
  if output_max_bytes options <? u64 (cn_output_bytes c + ReadableBytes buffer) then (false, CloseNow kResourceExhausted c) else
  (true, FlushOutput now (count count_sent (push_output buffer c))).
Definition SendRaw (now : Z) (framed : bytes) (c : Connection) : bool * Connection :=
  if closing c || (zlen framed =? 0) then (false, c) else
  let buffer := Append framed (newBuffer (zlen framed)) in
  if output_max_bytes options <? u64 (cn_output_bytes c + ReadableBytes buffer) then (false, CloseNow kResourceExhausted c) else
  (true, FlushOutput now (push_output buffer c)).

Definition OnWritable (now : Z) (c : Connection) : Connection := if so_fd (cn_socket c) <? 0 then c else FlushOutput now c.
Definition OnClosed (c : Connection) : Connection := set_socket (Socket_Close (cn_socket c)) (set_output [] 0 c).

(** ** Input *)

(** What the frame callback, or a task of a worker, does with the connection. *)
Inductive Action :=
  | DoSendFrame (op : OpCode) (request_id flags : Z) (payload : bytes) | DoSendRaw (framed : bytes) | DoCloseWhenDrained | DoCloseNow (reason : ErrorCode).
Definition act (now : Z) (a : Action) (c : Connection) : Connection :=
  match a with
  | DoSendFrame op id flags payload => (SendFrame now op id flags payload c).2
  | DoSendRaw framed => (SendRaw now framed c).2
  | DoCloseWhenDrained => CloseWhenDrained c
  | DoCloseNow reason => CloseNow reason c
  end.
Definition act_all (now : Z) (actions : list Action) (c : Connection) : Connection := fold_left (λ c a, act now a c) actions c.

Context (on_frame : list Frame → list Action).

(** The decode loop of [OnReadable]; [true] when the connection goes on. *)
Fixpoint deliver (frames : nat) (now : Z) (c : Connection) : Connection * bool :=
  match frames with
  | O => (c, true)
  | S frames =>
      match Next (cn_decoder c) (Readable (cn_input c)) with
      | (kNeedMore, d) => (set_decoder d c, true)
      | (kError, d) => (CloseNow (default kOk (derror d)) (set_decoder d c), false)
      | (kFrame f, d) =>
          let c := note_delivered f (count count_received (set_decoder d c)) in
          let c := act_all now (on_frame (cn_delivered c)) c in
          let c := set_input (Consume (total_size f) (cn_input c)) c in
          if closing c then (c, false) else deliver frames now c
      end
  end.
Definition OnReadable (now : Z) (c : Connection) : Connection :=
  if closing c then c else
  let c := set_activity now c in
  let '(transfer, input, s) := ReadInto (read_chunk_bytes options) (cn_input c) (cn_socket c) in
  let c := set_input input (set_socket s c) in
  match transfer with
  | Err e => CloseNow e c
  | Ok t =>
      if eof t && Empty (cn_input c) then CloseNow kClosed c else
      let c := if 0 <? tr_bytes t then count (count_bytes_in (tr_bytes t)) c else c in
      let '(c, on) := deliver (Z.to_nat (max_frames_per_event options)) now c in
      if negb on then c else
      if eof t then CloseWhenDrained c else
      let c := if Empty (cn_input c) && (4 * read_chunk_bytes options <? Capacity (cn_input c)) then set_input (Shrink (read_chunk_bytes options) (cn_input c)) c else c in
      UpdatePollRegistration c
  end.

(** ** A connection's life: events of the loop, and tasks posted to it *)
Inductive ConnEvent := Readable_event (now : Z) | Writable_event (now : Z) | Task (now : Z) (actions : list Action).
Definition conn_step (c : Connection) (ev : ConnEvent) : Connection :=
  match ev with
  | Readable_event now => OnReadable now c
  | Writable_event now => OnWritable now c
  | Task now actions => act_all now actions c
  end.
Definition conn_run (events : list ConnEvent) (c : Connection) : Connection := fold_left conn_step events c.
End Connection.
