(* ===== verification/ConnectionTheorems.v ===== *)
(** * ConnectionTheorems: both directions of a connection, whatever the kernel does

    The bytes on the wire are the accepted frames in order, whole up to where the kernel
    stopped; the queue is bounded; as long as a connection is open the loop watches it for
    something that can happen, so it cannot stall with output pending; the frames delivered
    are those of the byte stream. *)
From S2P Require Import Prelude Status Buffer Frame Socket Connection.

Definition pending (out : list OutputChunk) : bytes := concat (map chunk_rest out).
(** A queued buffer has something left to send. *)
Definition chunk_ok (ch : OutputChunk) : Prop := buffer_wf (ch_buffer ch) ∧ 0 ≤ ch_sent ch < ReadableBytes (ch_buffer ch).

Lemma zlen_chunk_rest ch : chunk_ok ch → zlen (chunk_rest ch) = ReadableBytes (ch_buffer ch) - ch_sent ch.
Proof. intros [Hw Hs]. unfold chunk_rest. rewrite zlen_zdrop, zlen_Readable by done. lia. Qed.
Lemma pending_app out out' : pending (out ++ out') = pending out ++ pending out'.
Proof. unfold pending. by rewrite map_app, concat_app. Qed.
Lemma pending_nonempty out : Forall chunk_ok out → out ≠ [] → 0 < zlen (pending out).
Proof.
  intros Hf Hne. destruct Hf as [|ch out Hc _]; [done|]. change (pending (ch :: out)) with (chunk_rest ch ++ pending out).
  rewrite zlen_app, zlen_chunk_rest by done. destruct Hc as [_ Hs]. pose proof (zlen_nonneg (pending out)). lia.
Qed.
Lemma consume_chunks_spec n out : Forall chunk_ok out → 0 ≤ n ≤ zlen (pending out) →
  Forall chunk_ok (consume_chunks n out).1 ∧ pending (consume_chunks n out).1 = zdrop n (pending out).
Proof.
  intros Hf. revert n. induction Hf as [|ch out Hc Hf IH]; intros n Hn.
  { split; [constructor|]. cbn. unfold zdrop. by rewrite drop_nil. }
  change (pending (ch :: out)) with (chunk_rest ch ++ pending out) in *. pose proof (zlen_chunk_rest ch Hc) as HL. rewrite zlen_app in Hn.
  cbn [consume_chunks]. destruct (Z.leb_spec n 0).
  { split; [by constructor|]. rewrite zdrop_0 by lia. done. }
  cbv zeta. destruct (Z.leb_spec (ReadableBytes (ch_buffer ch) - ch_sent ch) n).
  - destruct (IH (n - (ReadableBytes (ch_buffer ch) - ch_sent ch)) ltac:(lia)) as [I1 I2]. split; [done|]. rewrite I2, zdrop_app_ge by lia. f_equal. lia.
  - cbn [fst]. destruct Hc as [Hw Hs]. split; [constructor; [split; [done|cbn; lia]|done]|].
    change (pending (mkChunk (ch_buffer ch) (ch_sent ch + n) :: out)) with (zdrop (ch_sent ch + n) (Readable (ch_buffer ch)) ++ pending out).
    rewrite zdrop_app_le by lia. unfold chunk_rest. rewrite zdrop_zdrop by lia. f_equal.
Qed.

(** ** The output side *)

Section Output.
Context (options : ConnectionOptions).
Context (Hlow : 0 ≤ output_low_water_bytes options < output_high_water_bytes options) (Hmax : output_max_bytes options < 2 ^ 63).

(** Sent and queued bytes together are what was accepted, and the queue is bounded. *)
Record core_ok (c : Connection) : Prop := {
  co_chunks : Forall chunk_ok (cn_output c);
  co_stream : so_sent (cn_socket c) ++ pending (cn_output c) = concat (cn_accepted c);
  co_bytes : cn_output_bytes c = zlen (pending (cn_output c));
  co_bound : cn_output_bytes c ≤ output_max_bytes options }.
(** What the loop watches fits the state. *)
Record poll_ok (c : Connection) : Prop := {
  po_watched : watched (cn_poll c) = (negb (read_paused (cn_poll c)), want_write (cn_poll c));
  po_want : want_write (cn_poll c) = negb (bool_decide (cn_output c = []));
  po_paused : read_paused (cn_poll c) = true → output_low_water_bytes options < cn_output_bytes c;
  po_open : read_paused (cn_poll c) = false → cn_output_bytes c < output_high_water_bytes options }.
Definition conn_ok (c : Connection) : Prop := core_ok c ∧ (closing c = false → poll_ok c).

(** Everything the output side leaves alone. *)
Definition in_view (c : Connection) :=
  (cn_input c, cn_decoder c, cn_delivered c, so_recv (cn_socket c), so_received (cn_socket c), so_fd (cn_socket c)).

Lemma core_CloseNow r c : core_ok c → core_ok (CloseNow r c).
Proof. unfold CloseNow. destruct (closing c); [done|]. intros [H1 H2 H3 H4]. by constructor. Qed.
Lemma closed_CloseNow r c : closing (CloseNow r c) = true.
Proof. unfold CloseNow. destruct (closing c) eqn:E; done. Qed.
Lemma view_CloseNow r c : in_view (CloseNow r c) = in_view c ∧ cn_accepted (CloseNow r c) = cn_accepted c.
Proof. unfold CloseNow. by destruct (closing c). Qed.
Lemma conn_CloseNow r c : core_ok c → conn_ok (CloseNow r c).
Proof. intros H. split; [by apply core_CloseNow|]. by rewrite closed_CloseNow. Qed.

Lemma Update_ok c : core_ok c → want_write (cn_poll c) = negb (bool_decide (cn_output c = [])) → conn_ok (UpdatePollRegistration options c).
Proof.
  intros Hc Hw. unfold UpdatePollRegistration. destruct (closing c) eqn:Ec; [split; [done|congruence]|]. destruct Hc as [H1 H2 H3 H4].
  split; [destruct (negb (read_paused (cn_poll c)) && _); by constructor|]. intros _.
  destruct (read_paused (cn_poll c)) eqn:EP; cbn [negb andb].
  - destruct (Z.leb_spec (cn_output_bytes c) (output_low_water_bytes options)); constructor; cbn; try done; lia.
  - destruct (Z.leb_spec (output_high_water_bytes options) (cn_output_bytes c)); constructor; cbn; try done; lia.
Qed.
Lemma Update_view c : in_view (UpdatePollRegistration options c) = in_view c ∧ cn_accepted (UpdatePollRegistration options c) = cn_accepted c ∧
  cn_close (UpdatePollRegistration options c) = cn_close c.
Proof. unfold UpdatePollRegistration. destruct (closing c); [done|]. cbv zeta. by destruct (negb _ && _). Qed.

Lemma ztake_map_prefix (out : list OutputChunk) : ∃ rest, pending out = concat (map chunk_rest (ztake kMaxWriteChunks out)) ++ rest.
Proof.
  exists (concat (map chunk_rest (zdrop kMaxWriteChunks out))). rewrite <- concat_app, <- map_app. unfold pending. by rewrite ztake_zdrop.
Qed.
(** One write of the loop, when it moved something. *)
Lemma flush_write_ok c s t : core_ok c → wrote (concat (map chunk_rest (ztake kMaxWriteChunks (cn_output c)))) (cn_socket c) (Ok t) s →
  let c' := set_output (consume_chunks (tr_bytes t) (cn_output c)).1 (u64 (cn_output_bytes c - tr_bytes t)) (set_socket s c) in
  core_ok c' ∧ in_view c' = in_view c.
Proof.
  intros [H1 H2 H3 H4] (W1 & W2 & W3 & W4 & W5 & _). destruct (ztake_map_prefix (cn_output c)) as [rest Hr].
  set (first := concat (map chunk_rest (ztake kMaxWriteChunks (cn_output c)))) in *.
  assert (Hn : 0 ≤ tr_bytes t ≤ zlen (pending (cn_output c))) by (rewrite Hr, zlen_app; pose proof (zlen_nonneg rest); lia).
  destruct (consume_chunks_spec (tr_bytes t) (cn_output c) H1 Hn) as [C1 C2].
  assert (Ht : ztake (tr_bytes t) first = ztake (tr_bytes t) (pending (cn_output c))).
  { rewrite Hr. unfold ztake. rewrite take_app_le; [done|]. unfold zlen in W4. lia. }
  assert (Hu : u64 (cn_output_bytes c - tr_bytes t) = zlen (zdrop (tr_bytes t) (pending (cn_output c)))).
  { rewrite zlen_zdrop, uwrap_small by (unfold unsigned; change (2 ^ 64) with (2 * 2 ^ 63); lia). lia. }
  split; [constructor; cbn [cn_output cn_output_bytes cn_socket cn_accepted set_output set_socket]|].
  - done.
  - rewrite W5, C2, Ht, <- app_assoc, ztake_zdrop. exact H2.
  - by rewrite C2.
  - rewrite Hu, zlen_zdrop. lia.
  - unfold in_view. cbn. by rewrite W1, W2, W3.
Qed.
Lemma flush_stop_ok c s t : core_ok c → wrote (concat (map chunk_rest (ztake kMaxWriteChunks (cn_output c)))) (cn_socket c) (Ok t) s → tr_bytes t = 0 →
  core_ok (set_socket s c) ∧ in_view (set_socket s c) = in_view c.
Proof.
  intros [H1 H2 H3 H4] (W1 & W2 & W3 & W4 & W5 & _) H0. rewrite H0, ztake_0, app_nil_r in W5 by lia.
  split; [constructor; cbn; try done; by rewrite W5|]. unfold in_view. cbn. by rewrite W1, W2, W3.
Qed.

Lemma flush_loop_ok fuel now c : core_ok c → (length (so_send (cn_socket c)) < fuel)%nat →
  let '(c', drained) := flush_loop options fuel now c in
  core_ok c' ∧ in_view c' = in_view c ∧ cn_accepted c' = cn_accepted c ∧ (closing c = true → closing c' = true) ∧
  (if drained then cn_output c' = [] ∧ cn_close c' = cn_close c else closing c' = false → poll_ok c').
Proof.
  revert c. induction fuel as [|fuel IH]; intros c Hc Hfuel; [lia|]. cbn [flush_loop]. destruct (cn_output c) as [|ch out] eqn:EO; [by rewrite EO|]. rewrite <- EO.
  destruct (WriteVectored _ _) as [res s] eqn:EW.
  assert (HW : wrote (concat (map chunk_rest (ztake kMaxWriteChunks (cn_output c)))) (cn_socket c) res s).
  { apply WriteVectored_spec in EW; [done|]. unfold zlen. rewrite length_map. change (Z.of_nat (length (ztake kMaxWriteChunks (cn_output c)))) with (zlen (ztake kMaxWriteChunks (cn_output c))).
    rewrite zlen_ztake. unfold kMaxWriteChunks. lia. }
  destruct res as [t|e].
  - destruct (eof t) eqn:Ef.
    { destruct (flush_stop_ok c s t Hc HW) as [F1 F2]; [apply HW; by right|]. destruct (view_CloseNow kClosed (set_socket s c)) as [V1 V2].
      rewrite V1, V2, closed_CloseNow. split; [by apply core_CloseNow|]. done. }
    cbv zeta. destruct (would_block t || (tr_bytes t =? 0)) eqn:Eb.
    { assert (H0 : tr_bytes t = 0) by (apply orb_true_iff in Eb as [Eb|Eb]; [apply HW; by left|by apply Z.eqb_eq]).
      destruct (flush_stop_ok c s t Hc HW H0) as [F1 F2]. set (c1 := count (count_partial 1) (want true (count count_writev (set_socket s c)))).
      assert (Hc1 : core_ok c1) by (destruct F1 as [G1 G2 G3 G4]; by constructor).
      destruct (Update_ok c1 Hc1) as [U1 U2]; [cbn; rewrite EO; done|]. destruct (Update_view c1) as (V1 & V2 & V3). rewrite V1, V2. split; [done|]. split; [done|]. split; [done|]. split; [|done]. unfold closing. by rewrite V3. }
    apply orb_false_iff in Eb as [_ Eb]. apply Z.eqb_neq in Eb.
    destruct (flush_write_ok c s t Hc HW) as [F1 F2]. destruct (consume_chunks (tr_bytes t) (cn_output c)) as [out' partial] eqn:EC. cbn [fst] in *.
    match goal with |- context [flush_loop options fuel now ?x] => set (c1 := x) end.
    assert (Hc1 : core_ok c1) by (destruct F1 as [G1 G2 G3 G4]; by constructor).
    assert (Hlen : (length (so_send (cn_socket c1)) < fuel)%nat).
    { destruct HW as (_ & _ & _ & W4 & _ & _ & W7). specialize (W7 ltac:(lia)). change (so_send (cn_socket c1)) with (so_send s). lia. }
    specialize (IH c1 Hc1 Hlen). destruct (flush_loop options fuel now c1) as [c' drained]. destruct IH as (I1 & I2 & I3 & I4 & I5).
    rewrite I2, I3. split; [done|]. split; [exact F2|]. split; [done|]. split; [exact I4|]. done.
  - destruct HW as (W1 & W2 & W3 & W4 & _). destruct (view_CloseNow e (set_socket s c)) as [V1 V2]. rewrite V1, V2, closed_CloseNow.
    split; [apply core_CloseNow; destruct Hc as [H1 H2 H3 H4]; constructor; cbn; try done; by rewrite W4|]. split; [unfold in_view; cbn; by rewrite W1, W2, W3|]. done.
Qed.

(** [in_view] and the accepted frames are kept, the invariant established. *)
Definition flushed_ok (c c' : Connection) : Prop := conn_ok c' ∧ in_view c' = in_view c ∧ cn_accepted c' = cn_accepted c ∧ (closing c = true → closing c' = true).
Lemma FlushOutput_ok now c : core_ok c → flushed_ok c (FlushOutput options now c).
Proof.
  intros Hc. unfold FlushOutput. pose proof (flush_loop_ok (S (length (so_send (cn_socket c)))) now c Hc ltac:(lia)) as H.
  destruct (flush_loop options _ now c) as [c1 [|]]; cbn [negb]; destruct H as (H1 & H2 & H3 & HM & H4); [|by split_and!].
  destruct H4 as [HO HC]. set (c2 := want false c1). assert (Hc2 : core_ok c2) by (destruct H1; by constructor).
  assert (Hv : in_view c2 = in_view c ∧ cn_accepted c2 = cn_accepted c) by done. unfold flushed_ok.
  destruct (close_when_drained (cn_close c2)).
  - destruct (view_CloseNow (if decide (close_reason (cn_close c2) = kOk) then kClosed else close_reason (cn_close c2)) c2) as [-> ->]. rewrite closed_CloseNow. split; [by apply conn_CloseNow|done].
  - destruct (Update_view c2) as (-> & -> & V3). split; [|split; [done|split; [done|unfold closing; rewrite V3; exact HM]]]. apply Update_ok; [done|]. change (cn_output c2) with (cn_output c1). by rewrite HO.
Qed.

Definition payload_fits (bs : bytes) : Prop := zlen bs < 2 ^ 62.
Definition action_fits (a : Action) : Prop :=
  match a with DoSendFrame _ _ _ payload => payload_fits payload | DoSendRaw framed => payload_fits framed | _ => True end.

(** What an action leads to: the invariant, and perhaps one more accepted byte string. *)
Definition acted_ok (c c' : Connection) : Prop :=
  conn_ok c' ∧ in_view c' = in_view c ∧ (closing c = true → closing c' = true) ∧ ∃ more, cn_accepted c' = cn_accepted c ++ more.
Lemma acted_refl c : conn_ok c → acted_ok c c.
Proof. intros H. split; [done|]. split; [done|]. split; [done|]. exists []. by rewrite app_nil_r. Qed.
Lemma acted_close c r : core_ok c → acted_ok c (CloseNow r c).
Proof.
  intros H. destruct (view_CloseNow r c) as [V1 V2]. split; [by apply conn_CloseNow|]. split; [done|]. split; [by rewrite closed_CloseNow|]. exists []. by rewrite V2, app_nil_r.
Qed.
Lemma acted_trans a b c : acted_ok a b → acted_ok b c → acted_ok a c.
Proof. intros (_ & H2 & M1 & m1 & H3) (H4 & H5 & M2 & m2 & H6). split; [done|]. split; [congruence|]. split; [by auto|]. exists (m1 ++ m2). by rewrite H6, H3, app_assoc. Qed.

Lemma push_ok c b : core_ok c → buffer_wf b → 0 < ReadableBytes b < 2 ^ 63 → u64 (cn_output_bytes c + ReadableBytes b) ≤ output_max_bytes options →
  core_ok (push_output b c).
Proof.
  intros [H1 H2 H3 H4] Hb Hr Hm. assert (HP : pending (cn_output c ++ [mkChunk b 0]) = pending (cn_output c) ++ Readable b).
  { rewrite pending_app. f_equal. unfold pending, chunk_rest. cbn. by rewrite app_nil_r, zdrop_0 by lia. }
  pose proof (zlen_nonneg (pending (cn_output c))).
  constructor; cbn [push_output note_accepted set_output cn_output cn_socket cn_accepted cn_output_bytes].
  - apply Forall_app. split; [done|]. constructor; [|constructor]. split; [done|cbn; lia].
  - rewrite HP, app_assoc, H2, concat_app. cbn. by rewrite app_nil_r.
  - rewrite HP, zlen_app, zlen_Readable, uwrap_small by (done || unfold unsigned; change (2 ^ 64) with (2 * 2 ^ 63); lia). lia.
  - done.
Qed.
(** Both senders: the limit, the queue, the flush. *)
Lemma send_ok now c b f : conn_ok c → buffer_wf b → 0 < ReadableBytes b < 2 ^ 63 → (∀ x, core_ok x → core_ok (f x) ∧ in_view (f x) = in_view x ∧ cn_accepted (f x) = cn_accepted x ∧ cn_close (f x) = cn_close x) →
  acted_ok c (if output_max_bytes options <? u64 (cn_output_bytes c + ReadableBytes b) then (false, CloseNow kResourceExhausted c)
              else (true, FlushOutput options now (f (push_output b c)))).2.
Proof.
  intros [Hc Hp] Hb Hr Hf. destruct (Z.ltb_spec (output_max_bytes options) (u64 (cn_output_bytes c + ReadableBytes b))) as [Hl|Hl]; cbn [snd].
  - by apply acted_close.
  - destruct (Hf _ (push_ok c b Hc Hb Hr Hl)) as (F1 & F2 & F3 & F4). destruct (FlushOutput_ok now _ F1) as (G1 & G2 & G3 & G4). split; [done|]. split; [by rewrite G2, F2|].
    split; [intros Hcl; apply G4; unfold closing in *; by rewrite F4|].
    exists [Readable b]. by rewrite G3, F3.
Qed.
Lemma newBuffer_wf n : buffer_wf (newBuffer n) ∧ Readable (newBuffer n) = [].
Proof. unfold newBuffer. destruct (Reserve_spec n emptyBuffer emptyBuffer_wf) as [H1 H2]. by split. Qed.
Lemma act_ok now a c : conn_ok c → action_fits a → acted_ok c (act options now a c).
Proof.
  intros Hc Hf. destruct a as [op id fl payload|framed| |reason]; cbn [act action_fits] in *.
  - unfold SendFrame. destruct (closing c); [by apply acted_refl|]. unfold EncodeFrame_op. set (h := mkFrameHeader _ _ _ _ _ _).
    destruct (newBuffer_wf (kFrameHeaderSize + zlen payload)) as [N1 N2]. destruct (EncodeFrame_spec h payload _ N1) as [E1 E2].
    apply (send_ok now c _ (count count_sent)); [done|done| |].
    + rewrite <- zlen_Readable, E2, N2 by done. cbn [app]. rewrite zlen_frame_bytes. unfold payload_fits in Hf. pose proof (zlen_nonneg payload). lia.
    + intros x [H1 H2 H3 H4]. split; [by constructor|done].
  - unfold SendRaw. destruct (closing c); [by apply acted_refl|]. cbn [orb]. destruct (Z.eqb_spec (zlen framed) 0); [by apply acted_refl|].
    destruct (newBuffer_wf (zlen framed)) as [N1 N2]. destruct (Append_spec framed _ N1) as [E1 E2].
    apply (send_ok now c _ id); [done|done| |intros x Hx; by split_and!].
    rewrite <- zlen_Readable, E2, N2 by done. cbn [app]. unfold payload_fits in Hf. pose proof (zlen_nonneg framed). lia.
  - unfold CloseWhenDrained. destruct (closing c) eqn:Ec; [by apply acted_refl|]. set (c1 := set_close _ c). destruct Hc as [[H1 H2 H3 H4] Hp].
    assert (Hc1 : core_ok c1) by by constructor.
    destruct (cn_output c1) eqn:EO.
    + destruct (acted_close c1 kClosed Hc1) as (V1 & V2 & V3 & V4). split; [done|]. split; [done|]. split; [congruence|done].
    + split; [split; [done|]; intros _; destruct (Hp Ec); by constructor|]. split; [done|]. split; [congruence|]. exists []. by rewrite app_nil_r.
  - apply acted_close, Hc.
Qed.
Lemma act_all_ok now actions c : conn_ok c → Forall action_fits actions → acted_ok c (act_all options now actions c).
Proof.
  intros Hc Hf. unfold act_all. revert c Hc. induction Hf as [|a actions Ha Hf IH]; intros c Hc; [by apply acted_refl|]. cbn [fold_left].
  pose proof (act_ok now a c Hc Ha) as H. eapply acted_trans; [exact H|]. apply IH, H.
Qed.
End Output.

(** ** The input side *)

Section Input.
Context (options : ConnectionOptions) (on_frame : list Frame → list Action).
Context (Hlow : 0 ≤ output_low_water_bytes options < output_high_water_bytes options) (Hmax : output_max_bytes options < 2 ^ 63).
Context (Hchunk : 0 < read_chunk_bytes options) (Hfits : ∀ frames, Forall action_fits (on_frame frames)).

(** The bytes received are the frames delivered, in order, and what is still buffered. *)
Record input_ok (c : Connection) : Prop := {
  io_buffer : buffer_wf (cn_input c);
  io_bytes : incoming_bytes (cn_socket c);
  io_stream : so_received (cn_socket c) = concat (map wire (cn_delivered c)) ++ Readable (cn_input c);
  io_frames : Forall (frame_valid (max_frame_bytes options)) (cn_delivered c);
  io_decoder : closing c = false → cn_decoder c = newDecoder (max_frame_bytes options) }.

Lemma input_ok_view c c' : input_ok c → in_view c' = in_view c → (closing c = true → closing c' = true) → input_ok c'.
Proof.
  intros [H1 H2 H3 H4 H5] Hv Hcl. unfold in_view in Hv. injection Hv as E1 E2 E3 E4 E5 E6. constructor; rewrite ?E1, ?E2, ?E3, ?E5; try done.
  - unfold incoming_bytes in *. by rewrite E4, E5.
  - intros Hc. apply H5. destruct (closing c); [|done]. by rewrite Hcl in Hc.
Qed.
Lemma Shrink_empty n b : 0 ≤ n → buffer_wf b → Empty b = true → buffer_wf (Shrink n b) ∧ Readable (Shrink n b) = Readable b.
Proof.
  intros Hn Hw He. pose proof (Compact_wf b Hw) as Hc. pose proof (Compact_readable b Hw) as HR. unfold Empty in He. apply Z.eqb_eq in He. unfold Shrink.
  assert (HW : write_pos (Compact b) = 0).
  { unfold Compact, ReadableBytes. destruct (Z.eqb_spec (read_pos b) 0); cbn; lia. }
  pose proof (Compact_read_pos b) as HP. destruct (Z.ltb_spec n (zlen (storage (Compact b)))); [|done]. rewrite <- HR. split.
  - unfold buffer_wf. cbn. rewrite HW, HP, zlen_vector_resize by lia. lia.
  - unfold Readable, ReadableBytes. cbn. rewrite HW, HP. unfold slice. by rewrite !ztake_0 by lia.
Qed.

Lemma deliver_ok frames now c : conn_ok options c → input_ok c → closing c = false →
  let '(c', on) := deliver options on_frame frames now c in
  conn_ok options c' ∧ input_ok c' ∧ (∃ more, cn_accepted c' = cn_accepted c ++ more) ∧ (on = false → closing c' = true) ∧
  ∃ got, cn_delivered c' = cn_delivered c ++ got ∧ (length got ≤ frames)%nat ∧
    (on = true → closing c' = false ∧ ((length got < frames)%nat → Next (cn_decoder c') (Readable (cn_input c')) = (kNeedMore, cn_decoder c'))).
Proof.
  revert c. induction frames as [|frames IH]; intros c Hc Hi Hcl; cbn [deliver].
  { split_and!; try done; [exists []; by rewrite app_nil_r|]. exists []. rewrite app_nil_r. split; [done|]. split; [cbn; lia|]. intros _. split; [done|]. cbn. lia. }
  pose proof (io_decoder c Hi Hcl) as Hd. destruct (Next (cn_decoder c) (Readable (cn_input c))) as [st d] eqn:EN.
  assert (Hb : Forall is_byte (Readable (cn_input c))).
  { pose proof (proj2 (io_bytes c Hi)) as H. rewrite (io_stream c Hi) in H. by apply Forall_app in H as [_ H]. }
  destruct st as [|f|].
  - assert (Ed : d = cn_decoder c).
    { revert EN. rewrite Hd. unfold Next. cbn [derror newDecoder]. repeat case_match; intros [= ]; congruence. }
    subst d. assert (Hs : set_decoder (cn_decoder c) c = c) by by destruct c. rewrite Hs.
    split_and!; try done; [exists []; by rewrite app_nil_r|]. exists []. rewrite app_nil_r. split; [done|]. split; [cbn; lia|]. intros _. split; [done|]. by rewrite EN.
  - rewrite Hd in EN. destruct (Next_inv _ _ _ _ Hb EN) as (-> & Hv & rest & Hrest). set (c1 := note_delivered f _).
    assert (Hc1 : conn_ok options c1) by (destruct Hc as [[H1 H2 H3 H4] Hp]; split; [by constructor|]; intros _; destruct (Hp Hcl); by constructor).
    destruct (act_all_ok options Hlow Hmax now (on_frame (cn_delivered c1)) c1 Hc1 (Hfits _)) as (A1 & A2 & A3 & more & A4).
    set (c2 := act_all options now _ c1) in *. set (c3 := set_input _ c2).
    assert (Hc3 : conn_ok options c3) by (destruct A1 as [[H1 H2 H3 H4] Hp]; split; [by constructor|]; intros Hx; destruct (Hp Hx); by constructor).
    assert (Hi3 : input_ok c3).
    { destruct Hi as [I1 I2 I3 I4 I5]. unfold in_view in A2. injection A2 as E1 E2 E3 E4 E5 E6. pose proof (zlen_wire _ _ Hv) as HL.
      destruct (Consume_spec (total_size f) (cn_input c) I1) as [C1 C2].
      { rewrite <- zlen_Readable, Hrest, zlen_app, HL by done. pose proof (zlen_nonneg rest). pose proof (zlen_nonneg (wire f)). lia. }
      constructor; cbn [c3 set_input cn_input cn_socket cn_delivered cn_decoder].
      - by rewrite E1.
      - unfold incoming_bytes. rewrite E4, E5. exact I2.
      - rewrite E5, E3, E1. cbn [c1 note_delivered count set_decoder cn_delivered cn_socket cn_input]. rewrite C2, map_app, concat_app, I3, Hrest, (zdrop_app (total_size f)) by done.
        cbn [map concat]. by rewrite app_nil_r, <- app_assoc.
      - rewrite E3. cbn. apply Forall_app. split; [done|by constructor].
      - intros _. by rewrite E2. }
    assert (HA : cn_accepted c3 = cn_accepted c ++ more) by exact A4.
    assert (HD : cn_delivered c3 = cn_delivered c ++ [f]) by (unfold in_view in A2; injection A2 as _ _ E3 _ _ _; exact E3).
    destruct (closing c3) eqn:E3.
    + split_and!; try done; [by exists more|]. exists [f]. split_and!; try done. cbn. lia.
    + specialize (IH c3 Hc3 Hi3 E3). destruct (deliver options on_frame frames now c3) as [c' on]. destruct IH as (I1 & I2 & [m2 I3] & I4 & got & I5 & I6 & I7).
      split_and!; try done; [exists (more ++ m2); by rewrite I3, HA, app_assoc|]. exists (f :: got). rewrite I5, HD, <- app_assoc. split_and!; [done|cbn; lia|].
      intros Hon. destruct (I7 Hon) as [J1 J2]. split; [done|]. cbn. intros Hlt. apply J2. lia.
  - assert (Hi1 : input_ok (CloseNow (default kOk (derror d)) (set_decoder d c))).
    { unfold CloseNow. change (closing (set_decoder d c)) with (closing c). rewrite Hcl. destruct Hi as [I1 I2 I3 I4 I5]. by constructor. }
    assert (Hcd : core_ok options (set_decoder d c)) by (destruct Hc as [[H1 H2 H3 H4] _]; by constructor).
    destruct (acted_close options (set_decoder d c) (default kOk (derror d)) Hcd) as (A1 & A2 & _ & more & A4).
    split_and!; try done; [by exists more|intros _; apply closed_CloseNow|]. exists []. rewrite app_nil_r. unfold in_view in A2. injection A2 as _ _ E3 _ _ _. split_and!; [exact E3|cbn; lia|done].
Qed.

(** The effect of an event: both invariants, and both streams only grow. *)
Definition stepped_ok (c c' : Connection) : Prop :=
  conn_ok options c' ∧ input_ok c' ∧ (∃ more, cn_accepted c' = cn_accepted c ++ more) ∧ (∃ got, cn_delivered c' = cn_delivered c ++ got).
Lemma stepped_acted a b c : conn_ok options b → input_ok b → cn_accepted b = cn_accepted a → cn_delivered b = cn_delivered a → acted_ok options b c → stepped_ok a c.
Proof.
  intros Hb Hi Ha Hd (H1 & H2 & H3 & more & H4). split; [done|]. split; [by apply (input_ok_view b)|]. split; [exists more; by rewrite H4, Ha|].
  exists []. unfold in_view in H2. injection H2 as _ _ E _ _ _. by rewrite E, Hd, app_nil_r.
Qed.
Lemma read_transfer_ok now c t b s : conn_ok options c → input_ok c → ReadInto (read_chunk_bytes options) (cn_input c) (cn_socket c) = (t, b, s) →
  let c1 := set_input b (set_socket s (set_activity now c)) in
  conn_ok options c1 ∧ input_ok c1.
Proof.
  intros [[H1 H2 H3 H4] Hp] [I1 I2 I3 I4 I5] HR. pose proof (ReadInto_bytes (read_chunk_bytes options) (cn_input c) (cn_socket c) I2) as HB. rewrite HR in HB.
  destruct (ReadInto_spec _ _ _ _ _ _ Hchunk I1 HR) as (R1 & R2 & R3 & R4 & data & R5 & R6 & _).
  split; [split; [constructor; cbn; try done; by rewrite R4|]|].
  - intros Hcl. destruct (Hp Hcl). by constructor.
  - constructor; cbn; try done. by rewrite R6, I3, R5, app_assoc.
Qed.
Lemma count_ok f c : conn_ok options c → input_ok c → conn_ok options (count f c) ∧ input_ok (count f c).
Proof. intros [[H1 H2 H3 H4] Hp] [I1 I2 I3 I4 I5]. split; [split; [by constructor|]; intros Hc; destruct (Hp Hc); by constructor|by constructor]. Qed.

Lemma OnReadable_ok now c : conn_ok options c → input_ok c →
  let c' := OnReadable options on_frame now c in
  stepped_ok c c' ∧
  (closing c' = false → (∃ got, cn_delivered c' = cn_delivered c ++ got ∧ zlen got = max_frames_per_event options) ∨
     (Next (newDecoder (max_frame_bytes options)) (Readable (cn_input c'))).1 = kNeedMore ∨ max_frames_per_event options ≤ 0 ∨ close_when_drained (cn_close c') = true).
Proof.
  intros Hc Hi. unfold OnReadable. destruct (closing c) eqn:Ecl.
  { split; [|congruence]. split_and!; try done; exists []; by rewrite app_nil_r. }
  change (cn_input (set_activity now c)) with (cn_input c). change (cn_socket (set_activity now c)) with (cn_socket c).
  destruct (ReadInto _ _ _) as [[t b] s] eqn:ER. destruct (read_transfer_ok now c t b s Hc Hi ER) as [Hc1 Hi1]. set (c1 := set_input b _) in *.
  assert (HC : ∀ r, stepped_ok c (CloseNow r c1)) by (intros r; apply (stepped_acted c c1); [done..|apply acted_close, Hc1]).
  destruct t as [t|e]; [|split; [apply HC|by rewrite closed_CloseNow]]. destruct (eof t && Empty (cn_input c1)); [split; [apply HC|by rewrite closed_CloseNow]|].
  set (c2 := if 0 <? tr_bytes t then _ else c1).
  assert (H2 : conn_ok options c2 ∧ input_ok c2 ∧ closing c2 = false ∧ cn_accepted c2 = cn_accepted c ∧ cn_delivered c2 = cn_delivered c).
  { unfold c2. destruct (0 <? tr_bytes t); [|by split_and!]. destruct (count_ok (count_bytes_in (tr_bytes t)) c1 Hc1 Hi1). by split_and!. }
  destruct H2 as (Hc2 & Hi2 & Hcl2 & Ha2 & Hd2). pose proof (deliver_ok (Z.to_nat (max_frames_per_event options)) now c2 Hc2 Hi2 Hcl2) as HD.
  destruct (deliver options on_frame _ now c2) as [c3 on]. destruct HD as (D1 & D2 & [more D3] & D4 & got & D5 & D6 & D7). rewrite Ha2 in D3. rewrite Hd2 in D5.
  destruct on; cbn [negb].
  2:{ split; [|intros H; by rewrite D4 in H]. split; [done|]. split; [done|]. split; [by exists more|by exists got]. }
  destruct (D7 eq_refl) as [Hcl3 Hnext].
  assert (HS : ∀ c4, acted_ok options c3 c4 → stepped_ok c c4).
  { intros c4 H. destruct (stepped_acted c3 c3 c4 D1 D2 eq_refl eq_refl H) as (S1 & S2 & [m S3] & g & S4). split; [done|]. split; [done|].
    split; [exists (more ++ m); by rewrite S3, D3, app_assoc|exists (got ++ g); by rewrite S4, D5, app_assoc]. }
  destruct (eof t).
  { split; [apply HS; exact (act_ok options Hlow Hmax now DoCloseWhenDrained c3 D1 I)|]. intros Ho. right. right. right.
    unfold CloseWhenDrained in *. rewrite Hcl3 in *. destruct (cn_output (set_close _ c3)); [by rewrite closed_CloseNow in Ho|done]. }
  set (c4 := if _ : bool then set_input _ c3 else c3).
  assert (H4 : conn_ok options c4 ∧ input_ok c4 ∧ closing c4 = false ∧ cn_accepted c4 = cn_accepted c3 ∧ cn_delivered c4 = cn_delivered c3 ∧ Readable (cn_input c4) = Readable (cn_input c3) ∧
    want_write (cn_poll c4) = negb (bool_decide (cn_output c4 = []))).
  { pose proof (po_want _ _ (proj2 D1 Hcl3)) as Hw. unfold c4. destruct (Empty (cn_input c3) && _) eqn:EE; [|by split_and!]. apply andb_true_iff in EE as [EE _].
    destruct (Shrink_empty (read_chunk_bytes options) (cn_input c3) ltac:(lia) (io_buffer _ D2) EE) as [X1 X2].
    destruct D1 as [[H1 H2 H3 H4'] Hp]. destruct D2 as [I1 I2 I3 I4 I5]. split; [split; [by constructor|]; intros Hx; destruct (Hp Hx); by constructor|].
    split; [constructor; cbn; try done; by rewrite X2|]. by split_and!. }
  destruct H4 as (Hc4 & Hi4 & Hcl4 & Ha4 & Hd4 & HR4 & Hw4). destruct (Update_view options c4) as (V1 & V2 & V3). pose proof (Update_ok options Hlow c4 (proj1 Hc4) Hw4) as HU.
  split.
  - split; [done|]. split; [apply (input_ok_view c4); [done|done|]; unfold closing; by rewrite V3|]. unfold in_view in V1. injection V1 as _ _ E _ _ _. rewrite V2, E, Ha4, Hd4. split; [by exists more|by exists got].
  - intros _. unfold in_view in V1. injection V1 as EI _ E _ _ _. destruct (Z_le_gt_dec (max_frames_per_event options) 0); [by right; right; left|].
    destruct (decide (length got = Z.to_nat (max_frames_per_event options))) as [El|El].
    + left. exists got. rewrite E, Hd4. split; [done|]. unfold zlen. lia.
    + right. left. rewrite EI, HR4. rewrite (io_decoder _ D2 Hcl3) in Hnext. rewrite Hnext by lia. done.
Qed.

Definition event_fits (ev : ConnEvent) : Prop := match ev with Task _ actions => Forall action_fits actions | _ => True end.
Lemma conn_run_ok events c : conn_ok options c → input_ok c → Forall event_fits events → stepped_ok c (conn_run options on_frame events c).
Proof.
  intros Hc Hi Hf. unfold conn_run. revert c Hc Hi. induction Hf as [|ev events He Hf IH]; intros c Hc Hi.
  { split_and!; try done; exists []; by rewrite app_nil_r. }
  assert (HS : stepped_ok c (conn_step options on_frame c ev)).
  { destruct ev as [now|now|now actions]; cbn [conn_step event_fits] in *.
    - by apply OnReadable_ok.
    - unfold OnWritable. destruct (so_fd (cn_socket c) <? 0); [split_and!; try done; exists []; by rewrite app_nil_r|].
      destruct (FlushOutput_ok options Hlow Hmax now c (proj1 Hc)) as (F1 & F2 & F3 & F4). apply (stepped_acted c c); try done. split; [done|]. split; [done|]. split; [done|]. exists []. by rewrite F3, app_nil_r.
    - apply (stepped_acted c c); try done. by apply act_all_ok. }
  cbn [fold_left]. destruct HS as (S1 & S2 & [m S3] & g & S4). destruct (IH _ S1 S2) as (T1 & T2 & [m2 T3] & g2 & T4).
  split; [done|]. split; [done|]. split; [exists (m ++ m2); by rewrite T3, S3, app_assoc|exists (g ++ g2); by rewrite T4, S4, app_assoc].
Qed.
(** A fresh socket: nothing has passed it yet. *)
Definition fresh (s : TcpSocket) : Prop := so_sent s = [] ∧ so_received s = [] ∧ Forall answer_bytes (so_recv s).
Lemma new_ok s now : fresh s → 0 ≤ output_max_bytes options → conn_ok options (newConnection options s now) ∧ input_ok (newConnection options s now).
Proof.
  intros (F1 & F2 & F3) Hm. destruct (newBuffer_wf (read_chunk_bytes options)) as [N1 N2]. split; [split; [constructor; cbn; try done; by rewrite F1|]|].
  - intros _. constructor; cbn; try done. lia.
  - constructor; cbn; try done; [by split; rewrite ?F2|]. by rewrite F2, N2.
Qed.
End Input.

Section Life.
Context (options : ConnectionOptions) (on_frame : list Frame → list Action).
Context (Hlow : 0 ≤ output_low_water_bytes options < output_high_water_bytes options) (Hmax : 0 ≤ output_max_bytes options < 2 ^ 63).
Context (Hchunk : 0 < read_chunk_bytes options) (Hfits : ∀ frames, Forall action_fits (on_frame frames)).

(** C36. What passes a connection, whatever the kernel does with its calls.  The bytes on the wire
    are a prefix of the accepted frames one after another, and the rest of them is queued, so
    no frame is lost, repeated, reordered or torn; the queue never holds more than
    [output_max_bytes].  The bytes received are the frames delivered to the callback, in
    order and each of them valid, followed by what is still in the buffer. *)
Theorem connection_streams s now events :
  fresh s → Forall event_fits events →
  let c := conn_run options on_frame events (newConnection options s now) in
  so_sent (cn_socket c) ++ pending (cn_output c) = concat (cn_accepted c) ∧
  zlen (pending (cn_output c)) = cn_output_bytes c ∧ cn_output_bytes c ≤ output_max_bytes options ∧
  so_received (cn_socket c) = concat (map wire (cn_delivered c)) ++ Readable (cn_input c) ∧
  Forall (frame_valid (max_frame_bytes options)) (cn_delivered c).
Proof.
  intros Hs He. destruct (new_ok options Hlow s now Hs ltac:(lia)) as [N1 N2].
  destruct (conn_run_ok options on_frame Hlow ltac:(lia) Hchunk Hfits events _ N1 N2 He) as ([[C1 C2 C3 C4] _] & [I1 I2 I3 I4 I5] & _).
  cbv zeta. split; [exact C2|]. split; [by rewrite C3|]. split; [exact C4|]. by split.
Qed.

(** While every answer takes something, the loop empties the queue. *)
Definition taking (a : SendAnswer) : Prop := match a with Accepts n => 0 < n | SendFails _ => False end.
Lemma write_taking chunks s : Forall taking (so_send s) → so_send s ≠ [] → (∃ c, c ∈ chunks ∧ c ≠ []) → zlen chunks ≤ kMaxWriteChunks →
  ∃ n s', WriteVectored chunks s = (Ok (moved n), s') ∧ 0 < n ∧ so_send s' = tail (so_send s).
Proof.
  intros Hf Hne (c & Hc & Hcn) Hl. set (vecs := List.filter (λ c : bytes, negb (zlen c =? 0)) chunks).
  assert (Hin : c ∈ vecs).
  { unfold vecs. apply list_elem_of_In, filter_In. split; [by apply list_elem_of_In|]. destruct c; [done|]. apply negb_true_iff, Z.eqb_neq. rewrite zlen_cons. zlen_pos. lia. }
  assert (Hv : ztake kMaxWriteChunks vecs = vecs).
  { unfold ztake. apply take_ge. pose proof (filter_length_le (λ c : bytes, negb (zlen c =? 0)) chunks). fold vecs in H. unfold zlen, kMaxWriteChunks in *. lia. }
  unfold WriteVectored. fold vecs. rewrite Hv.
  destruct (Z.eqb_spec (zlen vecs) 0) as [E|_]; [apply zlen_0_nil in E; rewrite E in Hin; by apply not_elem_of_nil in Hin|].
  destruct (so_send s) as [|[n|e] rest] eqn:Es; [done| |inversion Hf; done]. inversion Hf as [|? ? Hn _]; subst. cbn in Hn.
  cbn [length again]. unfold send. rewrite Es. cbn. eexists _, _. split; [reflexivity|]. split; [|done].
  assert (Hpos : 0 < zlen (concat vecs)).
  { apply list_elem_of_split in Hin as (l1 & l2 & ->). rewrite concat_app. cbn. rewrite !zlen_app. destruct c; [done|]. rewrite zlen_cons. zlen_pos. lia. }
  rewrite zlen_ztake. lia.
Qed.
Lemma flush_loop_drains fuel now c : core_ok options c → Forall taking (so_send (cn_socket c)) → zlen (pending (cn_output c)) ≤ zlen (so_send (cn_socket c)) →
  (length (so_send (cn_socket c)) < fuel)%nat → (flush_loop options fuel now c).2 = true.
Proof.
  revert c. induction fuel as [|fuel IH]; intros c Hc Hf Hz Hfuel; [lia|]. cbn [flush_loop]. destruct (cn_output c) as [|ch out] eqn:EO; [done|]. rewrite <- EO in *.
  assert (Hne : cn_output c ≠ []) by (rewrite EO; done). pose proof (pending_nonempty _ (co_chunks _ _ Hc) Hne) as Hpos.
  assert (Hl : zlen (map chunk_rest (ztake kMaxWriteChunks (cn_output c))) ≤ kMaxWriteChunks).
  { unfold zlen. rewrite length_map. change (Z.of_nat (length (ztake kMaxWriteChunks (cn_output c)))) with (zlen (ztake kMaxWriteChunks (cn_output c))). rewrite zlen_ztake. unfold kMaxWriteChunks. lia. }
  destruct (write_taking (map chunk_rest (ztake kMaxWriteChunks (cn_output c))) (cn_socket c)) as (n & s & EW & Hn & Hs); [done| | |done|].
  { intros E. rewrite E in Hz. change (zlen (@nil SendAnswer)) with 0 in Hz. lia. }
  { exists (chunk_rest ch). split; [rewrite EO; left|]. intros E. assert (Hch : chunk_ok ch) by (pose proof (co_chunks _ _ Hc) as H; rewrite EO in H; by inversion H).
    pose proof (zlen_chunk_rest ch Hch) as HL. rewrite E in HL. destruct Hch as [_ Hch]. change (zlen (@nil Z)) with 0 in HL. lia. }
  pose proof (WriteVectored_spec _ _ _ _ Hl EW) as HW. rewrite EW. cbn [moved eof would_block tr_bytes orb]. destruct (Z.eqb_spec n 0); [lia|]. cbv zeta.
  destruct (flush_write_ok options (proj2 Hmax) c s (moved n) Hc HW) as [F1 _]. cbn [moved tr_bytes] in F1.
  destruct (consume_chunks_spec n (cn_output c) (co_chunks _ _ Hc)) as [K1 K2].
  { destruct (ztake_map_prefix (cn_output c)) as [rest Hr]. destruct HW as (_ & _ & _ & W4 & _). cbn [moved tr_bytes] in W4. rewrite Hr, zlen_app. pose proof (zlen_nonneg rest). lia. }
  destruct (consume_chunks n (cn_output c)) as [out' partial] eqn:EC. cbn [fst] in *. cbn [moved tr_bytes] in *. apply IH; cbn [set_activity set_output count set_socket cn_socket cn_output].
  - destruct F1 as [G1 G2 G3 G4]. by constructor.
  - rewrite Hs. destruct (so_send (cn_socket c)); [done|]. by inversion Hf.
  - rewrite K2, zlen_zdrop, Hs. destruct (so_send (cn_socket c)) as [|a l] eqn:Es; [change (zlen (@nil SendAnswer)) with 0 in Hz; lia|]. rewrite zlen_cons in Hz. cbn [tail]. pose proof (zlen_nonneg l). lia.
  - rewrite Hs. destruct (so_send (cn_socket c)) as [|a l] eqn:Es; [change (zlen (@nil SendAnswer)) with 0 in Hz; lia|]. cbn in *. lia.
Qed.

(** C37. An open connection is never stuck.  The loop watches it for writability exactly as long
    as output is queued, and for readability unless more than the low-water mark is queued;
    so reading is only ever suspended while there is something to write.  Reading is
    suspended from the high-water mark on.  When the socket becomes writable and the kernel
    takes what it is offered, the queue is emptied: the connection is then watched for
    reading again, or closed if that was waiting for the queue. *)
Theorem connection_never_stuck s now events :
  fresh s → Forall event_fits events →
  let c := conn_run options on_frame events (newConnection options s now) in
  closing c = false →
  watched (cn_poll c) = (negb (read_paused (cn_poll c)), bool_decide (cn_output c ≠ [])) ∧
  watched (cn_poll c) ≠ (false, false) ∧
  (read_paused (cn_poll c) = true → output_low_water_bytes options < cn_output_bytes c) ∧
  (output_high_water_bytes options ≤ cn_output_bytes c → read_paused (cn_poll c) = true) ∧
  (0 ≤ so_fd (cn_socket c) → Forall taking (so_send (cn_socket c)) → zlen (pending (cn_output c)) ≤ zlen (so_send (cn_socket c)) →
   let c' := OnWritable options now c in
   so_sent (cn_socket c') = concat (cn_accepted c) ∧ if close_when_drained (cn_close c) then closing c' = true else closing c' = false ∧ watched (cn_poll c') = (true, false)).
Proof.
  intros Hs He c Hcl. destruct (new_ok options Hlow s now Hs ltac:(lia)) as [N1 N2].
  destruct (conn_run_ok options on_frame Hlow ltac:(lia) Hchunk Hfits events _ N1 N2 He) as ([Hc Hp] & _). fold c in Hc, Hp. destruct (Hp Hcl) as [P1 P2 P3 P4].
  assert (HW : watched (cn_poll c) = (negb (read_paused (cn_poll c)), bool_decide (cn_output c ≠ []))) by (rewrite P1, P2; f_equal; by destruct (cn_output c)).
  split; [done|]. split; [|split; [done|split]].
  - rewrite HW. intros [= E1 E2]. apply negb_false_iff in E1. specialize (P3 E1). apply bool_decide_eq_false in E2. apply dec_stable in E2.
    rewrite (co_bytes _ _ Hc), E2 in P3. change (zlen (pending [])) with 0 in P3. lia.
  - intros Hh. destruct (read_paused (cn_poll c)); [done|]. specialize (P4 eq_refl). lia.
  - intros Hfd Hf Hz. cbv zeta. unfold OnWritable. destruct (Z.ltb_spec (so_fd (cn_socket c)) 0); [lia|].
    destruct (FlushOutput_ok options Hlow (proj2 Hmax) now c Hc) as ([[F1 F2 F3 F4] Fp] & _ & F5 & _). pose proof (flush_loop_drains (S (length (so_send (cn_socket c)))) now c Hc Hf Hz ltac:(lia)) as HD.
    pose proof (flush_loop_ok options Hlow (proj2 Hmax) (S (length (so_send (cn_socket c)))) now c Hc ltac:(lia)) as HL. unfold FlushOutput in *.
    destruct (flush_loop options _ now c) as [c1 drained]. cbn [snd] in HD. subst drained. cbn [negb] in *. destruct HL as ([L1 L2 L3 L4] & _ & L5 & _ & L6 & L7).
    change (cn_close (want false c1)) with (cn_close c1) in *. rewrite L7 in *.
    assert (HS : so_sent (cn_socket c1) = concat (cn_accepted c)) by (rewrite <- L5, <- L2, L6; unfold pending; cbn; by rewrite app_nil_r).
    destruct (close_when_drained (cn_close c)) eqn:Ed.
    + split; [|apply closed_CloseNow]. unfold CloseNow. by destruct (closing (want false c1)).
    + assert (Hcl1 : closing (want false c1) = false) by (unfold closing; cbn; by rewrite L7).
      assert (Hcu : closing (UpdatePollRegistration options (want false c1)) = false).
      { destruct (Update_view options (want false c1)) as (_ & _ & V3). unfold closing in *. by rewrite V3. }
      split; [unfold UpdatePollRegistration; rewrite Hcl1; cbv zeta; destruct (negb _ && _); exact HS|]. split; [done|]. destruct (Fp Hcu) as [Q1 Q2 Q3 _].
      assert (HO : cn_output (UpdatePollRegistration options (want false c1)) = []).
      { unfold UpdatePollRegistration. rewrite Hcl1. cbv zeta. destruct (negb _ && _); exact L6. }
      rewrite Q1, Q2, HO, (bool_decide_eq_true_2 (@nil OutputChunk = []) eq_refl). f_equal.
      destruct (read_paused (cn_poll (UpdatePollRegistration options (want false c1)))) eqn:EP; [|done]. specialize (Q3 eq_refl). rewrite F3, HO in Q3. change (zlen (pending [])) with 0 in Q3. lia.
Qed.
End Life.

(** ** Examples *)

Definition small_options (frames : Z) : ConnectionOptions := mkConnectionOptions 128 64 16 200 64 frames.
Definition ping : bytes := Eval vm_compute in Readable (EncodeFrame_op kHealth 7 0 [9] (newBuffer 64)).
Definition pong (frames : list Frame) : list Action := [DoSendFrame kHealth 7 1 [1; 2; 3]].
Definition two_pings : TcpSocket := mkSocket 5 [Arrived (ping ++ ping)] [Accepts 10] [] [].
Lemma two_pings_fresh : fresh two_pings.
Proof. split; [done|]. split; [done|]. constructor; [|constructor]. apply (bool_decide_unpack _). vm_compute. exact I. Qed.
Lemma pong_fits frames : Forall action_fits (pong frames).
Proof. constructor; [|constructor]. vm_compute. reflexivity. Qed.
Local Notation after := (conn_run (small_options 64) pong [Readable_event 0] (newConnection (small_options 64) two_pings 0)).
Lemma after_state : zlen (so_sent (cn_socket after)) = 10 ∧ zlen (cn_accepted after) = 2 ∧ zlen (cn_delivered after) = 2 ∧ closing after = false ∧ read_paused (cn_poll after) = false.
Proof. vm_compute. by split_and!. Qed.

Lemma connection_streams_witness :
  zlen (so_sent (cn_socket after)) = 10 ∧ so_sent (cn_socket after) ++ pending (cn_output after) = concat (cn_accepted after) ∧
  Forall (frame_valid 64) (cn_delivered after) ∧ zlen (cn_delivered after) = 2.
Proof.
  destruct after_state as (H1 & _ & H3 & _). split; [exact H1|].
  destruct (connection_streams (small_options 64) pong ltac:(cbn; lia) ltac:(cbn; lia) ltac:(cbn; lia) pong_fits two_pings 0 [Readable_event 0] two_pings_fresh ltac:(repeat constructor))
    as (T1 & _ & _ & _ & T5). split; [exact T1|]. split; [exact T5|exact H3].
Defined.
Lemma connection_never_stuck_witness : watched (cn_poll after) ≠ (false, false) ∧ (watched (cn_poll after)).2 = bool_decide (cn_output after ≠ []).
Proof.
  destruct after_state as (_ & _ & _ & H4 & _).
  destruct (connection_never_stuck (small_options 64) pong ltac:(cbn; lia) ltac:(cbn; lia) ltac:(cbn; lia) pong_fits two_pings 0 [Readable_event 0] two_pings_fresh ltac:(repeat constructor) H4)
    as (T1 & T2 & _). split; [exact T2|]. rewrite T1. reflexivity.
Defined.

(** A frame can be left behind: with a limit of one frame per event, the second of two frames
    that arrived together is complete in the buffer while the socket has nothing more to
    read and readability is all the loop watches. *)
Lemma frame_left_behind :
  let c := conn_run (small_options 1) (λ _, []) [Readable_event 0] (newConnection (small_options 1) two_pings 0) in
  zlen (cn_delivered c) = 1 ∧ so_recv (cn_socket c) = [] ∧ watched (cn_poll c) = (true, false) ∧
  ∃ f, (Next (cn_decoder c) (Readable (cn_input c))).1 = kFrame f.
Proof. vm_compute. split_and!; try done. by eexists. Qed.
