(* ===== verification/Histogram.v ===== *)
(** * Histogram: latency percentiles from logarithmic buckets

    Models src/metrics/histogram.cc: the bucket layout, recording, percentiles, merging and
    resetting.  Every update of the source is an atomic read-modify-write on one counter;
    the model performs a call's updates one after the other.  Floating point is left out: the
    sum and the mean, and in [ValueAtPercentile] the rounding of the rank, which is an
    argument here.  The theorem says what a reported percentile means. *)
From S2P Require Import Prelude.

Definition kInt64Max : Z := 2 ^ 63 - 1.

(** [while ((1 << bits) < largest * 2) ++bits;] *)
Fixpoint precision_loop (fuel : nat) (bits largest : Z) : Z :=
  match fuel with
  | O => bits
  | S fuel => if Z.shiftl 1 bits <? largest * 2 then precision_loop fuel (bits + 1) largest else bits
  end.
Definition PrecisionBits (significant_digits : Z) : Z := precision_loop 64 0 (10 ^ significant_digits).

(** How many power-of-two buckets reach [max_trackable]: at most one per bit. *)
Fixpoint bucket_loop (fuel : nat) (smallest_untrackable count max_trackable : Z) : Z :=
  match fuel with
  | O => count
  | S fuel =>
      if smallest_untrackable <=? max_trackable then
        if kInt64Max / 2 <? smallest_untrackable then count else bucket_loop fuel (Z.shiftl smallest_untrackable 1) (count + 1) max_trackable
      else count
  end.

Record Histogram := mkHistogram {
  max_trackable : Z; significant_digits : Z; sub_bucket_half_count_magnitude : Z; sub_bucket_count : Z; sub_bucket_half_count : Z;
  sub_bucket_mask : Z; bucket_count : Z; leading_zero_count_base : Z;
  counts : list Z; total_count : Z; overflow_count : Z; min_value : Z; max_value : Z }.
Definition set_counts (cs : list Z) (total overflow lo hi : Z) (h : Histogram) : Histogram :=
  mkHistogram (max_trackable h) (significant_digits h) (sub_bucket_half_count_magnitude h) (sub_bucket_count h) (sub_bucket_half_count h)
    (sub_bucket_mask h) (bucket_count h) (leading_zero_count_base h) cs total overflow lo hi.

Definition newHistogram (max_trackable digits : Z) : Histogram :=
  let max_trackable := if max_trackable <? 2 then 2 else max_trackable in
  let digits := Z.max 1 (Z.min digits 5) in
  let precision_bits := PrecisionBits digits in
  let sub_bucket_count := Z.shiftl 1 precision_bits in
  let half := sub_bucket_count / 2 in
  let buckets := bucket_loop 64 sub_bucket_count 1 max_trackable in
  mkHistogram max_trackable digits (precision_bits - 1) sub_bucket_count half (sub_bucket_count - 1) buckets (64 - precision_bits)
    (replicate (Z.to_nat ((buckets + 1) * half)) 0) 0 0 kInt64Max 0.

Definition countl_zero (x : Z) : Z := if x <=? 0 then 64 else 63 - Z.log2 x.
Definition IndexFor (value : Z) (h : Histogram) : Z :=
  let masked := u64 (Z.lor value (sub_bucket_mask h)) in
  let bucket_index := leading_zero_count_base h - countl_zero masked in
  let sub_bucket_index := i32 (Z.shiftr value bucket_index) in
  let bucket_base_index := i32 (Z.shiftl (bucket_index + 1) (sub_bucket_half_count_magnitude h)) in
  let offset_in_bucket := sub_bucket_index - sub_bucket_half_count h in
  let index := u64 (u64 bucket_base_index + u64 offset_in_bucket) in
  if index <? zlen (counts h) then index else zlen (counts h) - 1.
Definition ValueForIndex (index : Z) (h : Histogram) : Z :=
  let bucket_index := i32 (Z.shiftr index (sub_bucket_half_count_magnitude h)) - 1 in
  let sub_bucket_index := i32 (Z.land index (sub_bucket_half_count h - 1)) + sub_bucket_half_count h in
  if bucket_index <? 0 then Z.shiftl (sub_bucket_index - sub_bucket_half_count h) 0 else Z.shiftl sub_bucket_index bucket_index.

Definition bump (index : nat) (count : Z) (cs : list Z) : list Z := <[index := u64 (default 0 (cs !! index) + count)]> cs.
Definition RecordMany (value count : Z) (h : Histogram) : Histogram :=
  if count =? 0 then h else
  let value := if value <? 0 then 0 else value in
  let over := max_trackable h <? value in
  let value := if over then max_trackable h else value in
  set_counts (bump (Z.to_nat (IndexFor value h)) count (counts h)) (u64 (total_count h + count))
    (if over then u64 (overflow_count h + count) else overflow_count h)
    (if value <? min_value h then value else min_value h) (if max_value h <? value then value else max_value h) h.
Definition Histogram_Record (value : Z) (h : Histogram) : Histogram := RecordMany value 1 h.

Definition Histogram_Min (h : Histogram) : Z := if min_value h =? kInt64Max then 0 else min_value h.
Definition Histogram_Max (h : Histogram) : Z := max_value h.
Definition Histogram_Reset (h : Histogram) : Histogram := set_counts (replicate (length (counts h)) 0) 0 0 kInt64Max 0 h.

(** The highest value of a slot. *)
Definition slot_top (i : Z) (h : Histogram) : Z :=
  let bucket_index := i32 (Z.shiftr i (sub_bucket_half_count_magnitude h)) in
  let exponent := if 0 <? bucket_index then bucket_index - 1 else 0 in
  ValueForIndex i h + Z.shiftl 1 exponent - 1.
(** The scan for the slot where the running count reaches [target]. *)
Fixpoint percentile_scan (cs : list Z) (i running target : Z) : option Z :=
  match cs with
  | [] => None
  | c :: cs => let running := u64 (running + c) in if target <=? running then Some i else percentile_scan cs (i + 1) running target
  end.
(** [rank] is [llround((clamped / 100.0) * total)]. *)
Definition ValueAtPercentile (rank : Z) (h : Histogram) : Z :=
  if total_count h =? 0 then 0 else
  let target := if rank =? 0 then 1 else rank in
  let target := if total_count h <? target then total_count h else target in
  match percentile_scan (counts h) 0 0 target with Some i => slot_top i h | None => max_value h end.

Definition Histogram_Add (other h : Histogram) : Histogram :=
  if negb (zlen (counts other) =? zlen (counts h)) then h else
  set_counts (zip_with (λ c o, if 0 <? o then u64 (c + o) else c) (counts h) (counts other))
    (u64 (total_count h + total_count other)) (u64 (overflow_count h + overflow_count other))
    (if Histogram_Min other <? min_value h then Histogram_Min other else min_value h)
    (if max_value h <? Histogram_Max other then Histogram_Max other else max_value h) h.
Fixpoint non_empty (cs : list Z) (i : Z) (h : Histogram) : list (Z * Z) :=
  match cs with [] => [] | c :: cs => if c =? 0 then non_empty cs (i + 1) h else (ValueForIndex i h, c) :: non_empty cs (i + 1) h end.
Definition NonEmptyBuckets (h : Histogram) : list (Z * Z) := non_empty (counts h) 0 h.

(** ** The layout *)

(** A slot as arithmetic: slot [i] starts at [slot_low] and is [2 ^ slot_exp] wide. *)
Definition slot_exp (m i : Z) : Z := Z.max 0 (i / 2 ^ m - 1).
Definition slot_low (m i : Z) : Z := if i / 2 ^ m <=? 0 then i else (i mod 2 ^ m + 2 ^ m) * 2 ^ (i / 2 ^ m - 1).
Definition slot_of (m v : Z) : Z := let b := Z.max 0 (Z.log2 v - m) in b * 2 ^ m + v / 2 ^ b.

Record layout_ok (h : Histogram) : Prop := {
  lo_mag : 4 ≤ sub_bucket_half_count_magnitude h ≤ 17;
  lo_half : sub_bucket_half_count h = 2 ^ sub_bucket_half_count_magnitude h;
  lo_mask : sub_bucket_mask h = Z.ones (sub_bucket_half_count_magnitude h + 1);
  lo_base : leading_zero_count_base h = 63 - sub_bucket_half_count_magnitude h;
  lo_digits : 0 ≤ significant_digits h ∧ 10 ^ significant_digits h ≤ 2 ^ sub_bucket_half_count_magnitude h;
  lo_trackable : 0 ≤ max_trackable h < 2 ^ 62;
  lo_len : ∀ v, 0 ≤ v ≤ max_trackable h → slot_of (sub_bucket_half_count_magnitude h) v < zlen (counts h);
  lo_short : zlen (counts h) < 2 ^ 31 }.

Section Slots.
Context (m : Z) (Hm : 0 ≤ m).
Lemma half_pos : 0 < 2 ^ m.
Proof. by apply Z.pow_pos_nonneg. Qed.

Lemma slot_of_spec v : 0 ≤ v → 0 ≤ slot_of m v ∧ slot_low m (slot_of m v) ≤ v < slot_low m (slot_of m v) + 2 ^ slot_exp m (slot_of m v).
Proof.
  intros Hv. pose proof half_pos as HP. unfold slot_of. set (b := Z.max 0 (Z.log2 v - m)). cbv zeta.
  destruct (Z.eq_dec b 0) as [Hb|Hb].
  - rewrite Hb, Z.mul_0_l, Z.add_0_l, Z.pow_0_r, Z.div_1_r. assert (Hs : v < 2 ^ (m + 1)).
    { destruct (Z.eq_dec v 0); [subst; apply Z.pow_pos_nonneg; lia|]. apply Z.log2_lt_pow2; lia. }
    rewrite Z.pow_add_r, Z.pow_1_r in Hs by lia. split; [done|]. unfold slot_low, slot_exp.
    destruct (Z.leb_spec (v / 2 ^ m) 0) as [Hq|Hq].
    + rewrite Z.max_l by lia. rewrite Z.pow_0_r. lia.
    + assert (Hq1 : v / 2 ^ m = 1) by (apply Z.le_antisymm; [apply Z.lt_succ_r, Z.div_lt_upper_bound; lia|lia]).
      rewrite Hq1. change (Z.max 0 (1 - 1)) with 0. change (1 - 1) with 0. rewrite Z.pow_0_r, Z.mul_1_r.
      pose proof (Z.div_mod v (2 ^ m) ltac:(lia)) as HD. rewrite Hq1 in HD. lia.
  - assert (Hb' : b = Z.log2 v - m ∧ 1 ≤ b) by lia. destruct Hb' as [Hbe Hb1]. assert (Hv0 : 0 < v) by (destruct (Z.eq_dec v 0); [subst; cbn in Hbe; lia|lia]).
    pose proof (Z.log2_spec v Hv0) as [L1 L2]. replace (Z.log2 v) with (m + b) in L1, L2 by lia. rewrite Z.pow_succ_r, Z.pow_add_r in L2 by lia. rewrite Z.pow_add_r in L1 by lia.
    assert (HB : 0 < 2 ^ b) by (apply Z.pow_pos_nonneg; lia). set (s := v / 2 ^ b).
    assert (Hs1 : 2 ^ m ≤ s) by (apply Z.div_le_lower_bound; lia). assert (Hs2 : s < 2 * 2 ^ m) by (apply Z.div_lt_upper_bound; lia).
    assert (Hq : (b * 2 ^ m + s) / 2 ^ m = b + 1).
    { symmetry. apply Z.div_unique with (s - 2 ^ m); lia. }
    assert (Hr : (b * 2 ^ m + s) mod 2 ^ m = s - 2 ^ m).
    { symmetry. apply Z.mod_unique with (b + 1); lia. }
    split; [nia|]. unfold slot_low, slot_exp. rewrite Hq, Hr. destruct (Z.leb_spec (b + 1) 0); [lia|]. rewrite Z.max_r by lia.
    replace (b + 1 - 1) with b by lia. replace (s - 2 ^ m + 2 ^ m) with s by lia. unfold s. pose proof (Z.div_mod v (2 ^ b) ltac:(lia)). pose proof (Z.mod_pos_bound v (2 ^ b) HB). nia.
Qed.
(** The slots follow each other without gaps. *)
Lemma slot_next i : 0 ≤ i → slot_low m i + 2 ^ slot_exp m i = slot_low m (i + 1).
Proof.
  intros Hi. pose proof half_pos as HP. pose proof (Z.div_mod i (2 ^ m) ltac:(lia)) as HD. pose proof (Z.mod_pos_bound i (2 ^ m) HP) as HR.
  assert (Hq0 : 0 ≤ i / 2 ^ m) by (apply Z.div_pos; lia). set (q := i / 2 ^ m) in *. set (r := i mod 2 ^ m) in *.
  destruct (Z.eq_dec r (2 ^ m - 1)) as [Hr|Hr].
  - assert (Hq1 : (i + 1) / 2 ^ m = q + 1) by (symmetry; apply Z.div_unique with 0; lia).
    assert (Hr1 : (i + 1) mod 2 ^ m = 0) by (symmetry; apply Z.mod_unique with (q + 1); lia).
    unfold slot_low, slot_exp. rewrite Hq1, Hr1. fold q r. destruct (Z.leb_spec q 0) as [H0|H0]; destruct (Z.leb_spec (q + 1) 0); try lia.
    + replace (q + 1 - 1) with 0 by lia. rewrite Z.max_l, Z.pow_0_r by lia. nia.
    + rewrite Z.max_r by lia. replace (q + 1 - 1) with (Z.succ (q - 1)) by lia. rewrite Z.pow_succ_r by lia. rewrite Hr. ring.
  - assert (Hq1 : (i + 1) / 2 ^ m = q) by (symmetry; apply Z.div_unique with (r + 1); lia).
    assert (Hr1 : (i + 1) mod 2 ^ m = r + 1) by (symmetry; apply Z.mod_unique with q; lia).
    unfold slot_low, slot_exp. rewrite Hq1, Hr1. fold q r. destruct (Z.leb_spec q 0) as [H0|H0].
    + rewrite Z.max_l, Z.pow_0_r by lia. done.
    + rewrite Z.max_r by lia. ring.
Qed.
Lemma slot_low_mono i j : 0 ≤ i ≤ j → slot_low m i ≤ slot_low m j.
Proof.
  intros [Hi Hj]. replace j with (i + Z.of_nat (Z.to_nat (j - i))) by lia. induction (Z.to_nat (j - i)) as [|k IH]; [rewrite Z.add_0_r; lia|].
  replace (i + Z.of_nat (S k)) with (i + Z.of_nat k + 1) by lia. rewrite <- slot_next by lia. assert (0 < 2 ^ slot_exp m (i + Z.of_nat k)) by (apply Z.pow_pos_nonneg; [lia|unfold slot_exp; lia]). lia.
Qed.
Lemma slot_of_mono v w : 0 ≤ v ≤ w → slot_of m v ≤ slot_of m w.
Proof.
  intros [Hv Hw]. destruct (slot_of_spec v Hv) as (V0 & V1 & V2). destruct (slot_of_spec w ltac:(lia)) as (W0 & W1 & W2).
  destruct (Z.le_gt_cases (slot_of m v) (slot_of m w)) as [|Hgt]; [done|]. pose proof (slot_low_mono (slot_of m w + 1) (slot_of m v) ltac:(lia)) as HL. rewrite <- slot_next in HL by lia. lia.
Qed.
(** The width of a slot is small against its values. *)
Lemma slot_precise d v : 0 ≤ d → 10 ^ d ≤ 2 ^ m → 0 ≤ v → (slot_low m (slot_of m v) + 2 ^ slot_exp m (slot_of m v) - 1 - v) * 10 ^ d ≤ v.
Proof.
  intros Hd H10 Hv. destruct (slot_of_spec v Hv) as (V0 & V1 & V2). set (i := slot_of m v) in *. pose proof half_pos as HP. assert (Hten : 0 < 10 ^ d) by (apply Z.pow_pos_nonneg; lia).
  unfold slot_exp, slot_low in *. destruct (Z.leb_spec (i / 2 ^ m) 0).
  - rewrite Z.max_l, Z.pow_0_r in * by lia. nia.
  - rewrite Z.max_r in * by lia. set (e := i / 2 ^ m - 1) in *. assert (He : 0 < 2 ^ e) by (apply Z.pow_pos_nonneg; lia). pose proof (Z.mod_pos_bound i (2 ^ m) HP). nia.
Qed.
End Slots.

(** ** The code computes the layout *)

Lemma bucket_loop_spec fuel s c mx : 0 < s → 0 ≤ mx < 2 ^ 62 → mx < s * 2 ^ Z.of_nat fuel →
  c ≤ bucket_loop fuel s c mx ≤ c + Z.of_nat fuel ∧ mx < s * 2 ^ (bucket_loop fuel s c mx - c).
Proof.
  revert s c. induction fuel as [|fuel IH]; intros s c Hs Hmx Hf; cbn [bucket_loop].
  { rewrite Z.sub_diag, Z.pow_0_r in *. cbn in Hf. lia. }
  destruct (Z.leb_spec s mx) as [Hle|Hgt]; [|rewrite Z.sub_diag, Z.pow_0_r; lia].
  destruct (Z.ltb_spec (kInt64Max / 2) s) as [Hb|Hb]; [exfalso; change (kInt64Max / 2) with (2 ^ 62 - 1) in Hb; lia|].
  rewrite Z.shiftl_mul_pow2 by lia. rewrite Nat2Z.inj_succ, Z.pow_succ_r in Hf by lia.
  destruct (IH (s * 2 ^ 1) (c + 1) ltac:(lia) Hmx ltac:(lia)) as [I1 I2]. split; [lia|].
  set (r := bucket_loop fuel (s * 2 ^ 1) (c + 1) mx) in *. replace (r - c) with (Z.succ (r - (c + 1))) by lia. rewrite Z.pow_succ_r by lia. lia.
Qed.
Lemma PrecisionBits_spec d : 1 ≤ d ≤ 5 → 5 ≤ PrecisionBits d ≤ 18 ∧ 10 ^ d ≤ 2 ^ (PrecisionBits d - 1).
Proof.
  intros Hd. assert (HC : d = 1 ∨ d = 2 ∨ d = 3 ∨ d = 4 ∨ d = 5) by lia.
  destruct HC as [-> | [-> | [-> | [-> | ->]]]]; vm_compute; by split_and!.
Qed.
Lemma new_layout mx d : mx < 2 ^ 62 → layout_ok (newHistogram mx d).
Proof.
  intros Hmx. destruct (PrecisionBits_spec (Z.max 1 (Z.min d 5)) ltac:(lia)) as [HP H10]. unfold newHistogram. set (digits := Z.max 1 (Z.min d 5)) in *.
  set (p := PrecisionBits digits) in *. set (mt := if mx <? 2 then 2 else mx). assert (Hmt : 2 ≤ mt < 2 ^ 62) by (unfold mt; destruct (Z.ltb_spec mx 2); lia).
  rewrite Z.shiftl_1_l. assert (Hh : 2 ^ p / 2 = 2 ^ (p - 1)) by (replace p with (Z.succ (p - 1)) at 1 by lia; rewrite Z.pow_succ_r, Z.mul_comm, Z.div_mul by lia; done).
  assert (Hpos : 0 < 2 ^ (p - 1)) by (apply Z.pow_pos_nonneg; lia). assert (Hp : 2 ^ p = 2 * 2 ^ (p - 1)) by (rewrite <- Z.pow_succ_r by lia; f_equal; lia).
  destruct (bucket_loop_spec 64 (2 ^ p) 1 mt) as [B1 B2]; [lia|lia|change (Z.of_nat 64) with 64; assert (2 ^ 62 < 2 ^ 64) by (vm_compute; reflexivity); nia|].
  set (B := bucket_loop 64 (2 ^ p) 1 mt) in *. rewrite Hh. change (Z.of_nat 64) with 64 in B1.
  assert (HL : zlen (replicate (Z.to_nat ((B + 1) * 2 ^ (p - 1))) 0) = (B + 1) * 2 ^ (p - 1)) by (unfold zlen; rewrite length_replicate; nia).
  constructor; cbn [max_trackable significant_digits sub_bucket_half_count_magnitude sub_bucket_half_count sub_bucket_mask leading_zero_count_base counts]; try lia.
  - replace (p - 1 + 1) with p by lia. by rewrite Z.ones_equiv, Z.sub_1_r.
  - rewrite HL. intros v Hv. destruct (slot_of_spec (p - 1) ltac:(lia) v ltac:(lia)) as (S0 & _). unfold slot_of in *. set (b := Z.max 0 (Z.log2 v - (p - 1))) in *.
    assert (Hb : b + 1 ≤ B).
    { destruct (Z.eq_dec b 0); [lia|]. assert (Hv0 : 0 < v) by (destruct (Z.eq_dec v 0); [subst v; change (Z.log2 0) with 0 in b; lia|lia]).
      assert (Hlog : Z.log2 v < p + (B - 1)) by (apply Z.log2_lt_pow2; [done|]; rewrite Z.pow_add_r by lia; lia). lia. }
    assert (Hs : v / 2 ^ b < 2 * 2 ^ (p - 1)).
    { apply Z.div_lt_upper_bound; [apply Z.pow_pos_nonneg; lia|]. rewrite <- Hp, <- Z.pow_add_r by lia. destruct (Z.eq_dec v 0); [subst v; apply Z.pow_pos_nonneg; lia|]. apply Z.log2_lt_pow2; lia. }
    nia.
  - rewrite HL. assert (2 ^ (p - 1) ≤ 2 ^ 17) by (apply Z.pow_le_mono_r; lia). change (2 ^ 31) with (2 ^ 14 * 2 ^ 17). nia.
Qed.

Section Layout.
Context (h : Histogram) (L : layout_ok h).
Local Notation m := (sub_bucket_half_count_magnitude h).

Lemma IndexFor_slot v : 0 ≤ v ≤ max_trackable h → IndexFor v h = slot_of m v.
Proof.
  intros Hv. pose proof (lo_mag h L) as HM. pose proof (lo_trackable h L) as HT. destruct (slot_of_spec m ltac:(lia) v ltac:(lia)) as (S0 & _). pose proof (lo_len h L v Hv) as HL. pose proof (lo_short h L) as HS.
  unfold IndexFor. rewrite (lo_mask h L), (lo_base h L), (lo_half h L).
  assert (Hlog : Z.log2 (Z.lor v (Z.ones (m + 1))) = Z.max (Z.log2 v) m).
  { rewrite Z.ones_equiv, Z.log2_lor by (try lia; assert (0 < 2 ^ (m + 1)) by (apply Z.pow_pos_nonneg; lia); lia). rewrite Z.log2_pred_pow2 by lia. f_equal. lia. }
  assert (Hpos : 0 < Z.lor v (Z.ones (m + 1))).
  { destruct (Z.eq_dec (Z.lor v (Z.ones (m + 1))) 0) as [E|E]; [apply Z.lor_eq_0_iff in E as [_ E]; rewrite Z.ones_equiv in E; assert (2 ^ 1 ≤ 2 ^ (m + 1)) by (apply Z.pow_le_mono_r; lia); lia|].
    assert (0 ≤ Z.lor v (Z.ones (m + 1))) by (apply Z.lor_nonneg; split; [lia|rewrite Z.ones_equiv; assert (0 < 2 ^ (m + 1)) by (apply Z.pow_pos_nonneg; lia); lia]). lia. }
  assert (Hlv : Z.log2 v ≤ 61) by (destruct (Z.eq_dec v 0); [subst; cbn; lia|]; assert (Z.log2 v < 62) by (apply Z.log2_lt_pow2; lia); lia).
  rewrite (uwrap_small 64 (Z.lor v (Z.ones (m + 1)))).
  2:{ split; [by apply Z.lt_le_incl|]. apply Z.log2_lt_pow2; [done|]. rewrite Hlog. lia. }
  unfold countl_zero. destruct (Z.leb_spec (Z.lor v (Z.ones (m + 1))) 0); [lia|]. rewrite Hlog.
  replace (63 - m - (63 - Z.max (Z.log2 v) m)) with (Z.max 0 (Z.log2 v - m)) by lia. unfold slot_of in *. set (b := Z.max 0 (Z.log2 v - m)) in *. cbv zeta in *.
  rewrite Z.shiftr_div_pow2, Z.shiftl_mul_pow2 by lia. assert (Hm17 : 0 < 2 ^ m ≤ 2 ^ 17) by (split; [apply Z.pow_pos_nonneg; lia|apply Z.pow_le_mono_r; lia]).
  assert (Hs : 0 ≤ v / 2 ^ b < 2 * 2 ^ m).
  { split; [apply Z.div_pos; [lia|apply Z.pow_pos_nonneg; lia]|]. apply Z.div_lt_upper_bound; [apply Z.pow_pos_nonneg; lia|]. rewrite <- Z.pow_succ_r, <- Z.pow_add_r by lia.
    destruct (Z.eq_dec v 0); [subst v; apply Z.pow_pos_nonneg; lia|]. apply Z.log2_lt_pow2; lia. }
  assert (Hb : 0 ≤ b ≤ 61) by lia. change (2 ^ 17) with 131072 in *.
  rewrite (swrap_small 32 (v / 2 ^ b)) by (try lia; unfold signed; change (2 ^ (32 - 1)) with 2147483648; lia).
  rewrite (swrap_small 32 ((b + 1) * 2 ^ m)) by (try lia; unfold signed; change (2 ^ (32 - 1)) with 2147483648; nia).
  assert (HU : u64 (u64 ((b + 1) * 2 ^ m) + u64 (v / 2 ^ b - 2 ^ m)) = b * 2 ^ m + v / 2 ^ b).
  { unfold uwrap at 1. unfold uwrap. rewrite <- Z.add_mod by lia. rewrite Z.mod_small; [lia|]. change (2 ^ 64) with 18446744073709551616. nia. }
  rewrite HU. destruct (Z.ltb_spec (b * 2 ^ m + v / 2 ^ b) (zlen (counts h))); [done|lia].
Qed.
Lemma ValueForIndex_low i : 0 ≤ i < zlen (counts h) → ValueForIndex i h = slot_low m i ∧ slot_top i h = slot_low m i + 2 ^ slot_exp m i - 1.
Proof.
  intros Hi. pose proof (lo_mag h L) as HM. pose proof (lo_short h L) as HS. assert (Hm : 0 < 2 ^ m) by (apply Z.pow_pos_nonneg; lia).
  assert (Hq : 0 ≤ i / 2 ^ m ≤ i) by (split; [apply Z.div_pos; lia|apply Z.div_le_upper_bound; nia]). pose proof (Z.mod_pos_bound i (2 ^ m) Hm) as HR.
  assert (Hr : i mod 2 ^ m ≤ i) by (apply Z.mod_le; lia).
  assert (HV : ValueForIndex i h = slot_low m i).
  { unfold ValueForIndex, slot_low. rewrite (lo_half h L), Z.shiftr_div_pow2 by lia. rewrite swrap_small by (try lia; unfold signed; lia).
    replace (2 ^ m - 1) with (Z.ones m) by (rewrite Z.ones_equiv; lia). rewrite Z.land_ones by lia. rewrite swrap_small by (try lia; unfold signed; lia).
    destruct (Z.ltb_spec (i / 2 ^ m - 1) 0); destruct (Z.leb_spec (i / 2 ^ m) 0); try lia.
    - rewrite Z.shiftl_0_r. pose proof (Z.div_mod i (2 ^ m) ltac:(lia)). nia.
    - by rewrite Z.shiftl_mul_pow2 by lia. }
  split; [done|]. unfold slot_top, slot_exp. rewrite HV, Z.shiftr_div_pow2 by lia. rewrite swrap_small by (try lia; unfold signed; lia).
  rewrite Z.shiftl_1_l. destruct (Z.ltb_spec 0 (i / 2 ^ m)); [rewrite Z.max_r by lia|rewrite Z.max_l by lia]; lia.
Qed.
End Layout.

(** ** Counting *)

(** How many samples satisfy a condition. *)
Definition tally (p : Z → bool) (vs : list Z) : Z := zlen (List.filter p vs).
Lemma tally_nonneg p vs : 0 ≤ tally p vs.
Proof. apply zlen_nonneg. Qed.
Lemma tally_app p vs ws : tally p (vs ++ ws) = tally p vs + tally p ws.
Proof. unfold tally. by rewrite List.filter_app, zlen_app. Qed.
Lemma tally_le p q vs : (∀ v, v ∈ vs → p v = true → q v = true) → tally p vs ≤ tally q vs.
Proof.
  unfold tally. induction vs as [|v vs IH]; intros H; [done|]. cbn. assert (IH' := IH ltac:(intros w Hw; apply H; by right)).
  destruct (p v) eqn:Ep; [rewrite (H v ltac:(left) Ep)|destruct (q v)]; rewrite ?zlen_cons; lia.
Qed.
Lemma tally_repeat p v n : tally p (replicate n v) = if p v then Z.of_nat n else 0.
Proof.
  unfold tally. induction n as [|n IH]; cbn; [by destruct (p v)|]. destruct (p v) eqn:E; [rewrite zlen_cons, IH; lia|exact IH].
Qed.
Lemma tally_all p vs : (∀ v, v ∈ vs → p v = true) → tally p vs = zlen vs.
Proof.
  unfold tally. induction vs as [|v vs IH]; intros H; [done|]. cbn. rewrite (H v) by left. rewrite !zlen_cons, IH; [done|]. intros w Hw. apply H. by right.
Qed.
Lemma tally_split k f vs : tally (λ v, f v <? k + 1) vs = tally (λ v, f v <? k) vs + tally (λ v, f v =? k) vs.
Proof.
  unfold tally. induction vs as [|v vs IH]; [done|]. cbn. destruct (Z.ltb_spec (f v) (k + 1)), (Z.ltb_spec (f v) k), (Z.eqb_spec (f v) k); rewrite ?zlen_cons; lia.
Qed.

Record hist_ok (h : Histogram) (vs : list Z) : Prop := {
  ho_layout : layout_ok h;
  ho_samples : Forall (λ v, 0 ≤ v ≤ max_trackable h) vs;
  ho_counts : ∀ i : nat, (i < length (counts h))%nat → counts h !! i = Some (tally (λ v, slot_of (sub_bucket_half_count_magnitude h) v =? Z.of_nat i) vs);
  ho_total : total_count h = zlen vs;
  ho_small : zlen vs < 2 ^ 64 }.

Definition clamped (h : Histogram) (v : Z) : Z := Z.min (Z.max 0 v) (max_trackable h).
Lemma layout_same h cs t o lo hi : layout_ok h → length cs = length (counts h) → layout_ok (set_counts cs t o lo hi h).
Proof. intros [H1 H2 H3 H4 H5 H6 H7 H8] Hl. assert (Hz : zlen cs = zlen (counts h)) by (unfold zlen; lia). constructor; cbn; try done; by rewrite Hz. Qed.

Lemma RecordMany_ok v n h vs : hist_ok h vs → 0 ≤ n → zlen vs + n < 2 ^ 64 → hist_ok (RecordMany v n h) (vs ++ replicate (Z.to_nat n) (clamped h v)).
Proof.
  intros [H1 H2 H3 H4 H5] Hn Hl. unfold RecordMany. destruct (Z.eqb_spec n 0) as [->|Hn0]; [rewrite app_nil_r; by constructor|].
  set (value := if max_trackable h <? (if v <? 0 then 0 else v) then max_trackable h else if v <? 0 then 0 else v).
  pose proof (lo_trackable h H1) as HT.
  assert (Hv : value = clamped h v) by (unfold value, clamped; destruct (Z.ltb_spec v 0); [destruct (Z.ltb_spec (max_trackable h) 0)|destruct (Z.ltb_spec (max_trackable h) v)]; lia).
  assert (Hr : 0 ≤ value ≤ max_trackable h) by (rewrite Hv; unfold clamped; lia).
  rewrite (IndexFor_slot h H1 value Hr). pose proof (lo_len h H1 value Hr) as Hlen. destruct (slot_of_spec (sub_bucket_half_count_magnitude h) ltac:(pose proof (lo_mag h H1); lia) value ltac:(lia)) as (S0 & _).
  set (m := sub_bucket_half_count_magnitude h) in *. set (k := Z.to_nat (slot_of m value)).
  assert (Hk : (k < length (counts h))%nat) by (unfold k, zlen in *; lia).
  constructor.
  - apply layout_same; [done|]. unfold bump. by rewrite length_insert.
  - apply Forall_app. split; [exact H2|apply Forall_replicate; rewrite <- Hv; exact Hr].
  - intros i. cbn [set_counts counts]. unfold bump. rewrite length_insert. intros Hi. rewrite tally_app, tally_repeat, <- Hv.
    change (sub_bucket_half_count_magnitude (set_counts _ _ _ _ _ h)) with m.
    destruct (decide (i = k)) as [->|Hne].
    + rewrite list_lookup_insert_eq by done. rewrite (H3 k Hk). replace (slot_of m value =? Z.of_nat k) with true by (symmetry; apply Z.eqb_eq; unfold k; lia).
      f_equal. assert (HB : tally (λ v, slot_of m v =? Z.of_nat k) vs ≤ zlen vs).
      { rewrite <- (tally_all (λ _, true) vs) by done. by apply tally_le. }
      pose proof (tally_nonneg (λ v, slot_of m v =? Z.of_nat k) vs). revert HB H.
      generalize (tally (λ v, slot_of m v =? Z.of_nat k) vs). cbn. intros t HB H. rewrite uwrap_small by (unfold unsigned; lia). lia.
    + rewrite list_lookup_insert_ne by done. rewrite (H3 i Hi). replace (slot_of m value =? Z.of_nat i) with false by (symmetry; apply Z.eqb_neq; unfold k in Hne; lia). by rewrite Z.add_0_r.
  - cbn [set_counts total_count]. rewrite H4, zlen_app. unfold zlen at 3. rewrite length_replicate, uwrap_small by (unfold unsigned; pose proof (zlen_nonneg vs); lia). lia.
  - rewrite zlen_app. unfold zlen at 2. rewrite length_replicate. lia.
Qed.

Lemma Add_ok g h vs ws : hist_ok h vs → hist_ok g ws → sub_bucket_half_count_magnitude g = sub_bucket_half_count_magnitude h → max_trackable g = max_trackable h →
  zlen (counts g) = zlen (counts h) → zlen vs + zlen ws < 2 ^ 64 → hist_ok (Histogram_Add g h) (vs ++ ws).
Proof.
  intros [H1 H2 H3 H4 H5] [G1 G2 G3 G4 G5] Em Et El Hz. unfold Histogram_Add. rewrite El, Z.eqb_refl. cbn [negb].
  assert (Hlen : length (counts g) = length (counts h)) by (unfold zlen in El; lia). pose proof (zlen_nonneg vs). pose proof (zlen_nonneg ws).
  constructor.
  - apply layout_same; [done|]. rewrite length_zip_with. lia.
  - apply Forall_app. split; [done|]. cbn. by rewrite <- Et.
  - intros i. cbn [set_counts counts]. rewrite length_zip_with. intros Hi. change (sub_bucket_half_count_magnitude (set_counts _ _ _ _ _ h)) with (sub_bucket_half_count_magnitude h).
    rewrite lookup_zip_with, (H3 i) by lia. cbn. rewrite (G3 i) by lia. cbn. rewrite tally_app, Em. f_equal.
    set (f := λ v, slot_of (sub_bucket_half_count_magnitude h) v =? Z.of_nat i). pose proof (tally_nonneg f vs). pose proof (tally_nonneg f ws).
    assert (HB : ∀ us, tally f us ≤ zlen us) by (intros us; rewrite <- (tally_all (λ _, true) us) by done; by apply tally_le). pose proof (HB vs). pose proof (HB ws).
    destruct (Z.ltb_spec 0 (tally f ws)); [rewrite uwrap_small by (unfold unsigned; lia)|]; lia.
  - cbn. rewrite H4, G4, zlen_app, uwrap_small by (unfold unsigned; lia). done.
  - rewrite zlen_app. lia.
Qed.

(** ** Percentiles *)

Definition total (cs : list Z) : Z := fold_right Z.add 0 cs.
Lemma total_nonneg cs : Forall (λ c, 0 ≤ c) cs → 0 ≤ total cs.
Proof. unfold total. induction 1 as [|c cs Hc Hf IH]; cbn [fold_right]; lia. Qed.
Lemma scan_spec cs i running target : Forall (λ c, 0 ≤ c) cs → 0 ≤ running < target → running + total cs < 2 ^ 64 → target ≤ running + total cs →
  ∃ k : nat, percentile_scan cs i running target = Some (i + Z.of_nat k) ∧ (k < length cs)%nat ∧
    running + total (take k cs) < target ≤ running + total (take (S k) cs).
Proof.
  intros Hf. revert i running. induction Hf as [|c cs Hc Hf IH]; intros i running Hr Hs Ht; cbn [percentile_scan total fold_right] in *; [lia|].
  assert (Hcs : 0 ≤ total cs) by by apply total_nonneg. fold (total cs) in *.
  rewrite uwrap_small by (unfold unsigned; lia). destruct (Z.leb_spec target (running + c)).
  - exists 0%nat. rewrite Z.add_0_r. split; [done|]. change (take 0 (c :: cs)) with (@nil Z). assert (HT : total (take 1 (c :: cs)) = c + 0) by (cbn [take]; by rewrite take_0).
    change (total []) with 0. cbn [length]. split; [lia|]. lia.
  - destruct (IH (i + 1) (running + c) ltac:(lia) ltac:(lia) ltac:(lia)) as (k & K1 & K2 & K3). exists (S k). rewrite K1. split; [f_equal; lia|]. split; [cbn [length]; lia|].
    change (total (take (S k) (c :: cs))) with (c + total (take k cs)). change (total (take (S (S k)) (c :: cs))) with (c + total (take (S k) cs)). lia.
Qed.

Section Percentile.
Context (h : Histogram) (vs : list Z) (H : hist_ok h vs).
Local Notation m := (sub_bucket_half_count_magnitude h).

Lemma total_take k : (k ≤ length (counts h))%nat → total (take k (counts h)) = tally (λ v, slot_of m v <? Z.of_nat k) vs.
Proof.
  induction k as [|k IH]; intros Hk.
  - change (total (take 0 (counts h))) with 0. unfold tally. pose proof (ho_samples h vs H) as HS. pose proof (lo_mag h (ho_layout h vs H)) as HM. clear H. induction HS as [|v l Hv Hl IHl]; [done|]. cbn [List.filter].
    destruct (slot_of_spec m ltac:(lia) v ltac:(lia)) as (S0 & _). destruct (Z.ltb_spec (slot_of m v) (Z.of_nat 0)); [lia|done].
  - pose proof (ho_counts h vs H k ltac:(lia)) as HC. rewrite (take_S_r _ _ _ HC). unfold total. rewrite fold_right_app. cbn.
    assert (HA : ∀ l a, fold_right Z.add a l = fold_right Z.add 0 l + a) by (induction l as [|x l IHl]; intros a; cbn; [lia|rewrite IHl; lia]).
    rewrite HA. fold (total (take k (counts h))). rewrite IH by lia. rewrite Nat2Z.inj_succ, <- Z.add_1_r, tally_split. lia.
Qed.

(** The slot the scan stops in is the one of the sample of that rank. *)
Lemma percentile_slot rank x : 1 ≤ rank ≤ zlen vs → 0 ≤ x ≤ max_trackable h → tally (λ v, v <? x) vs < rank ≤ tally (λ v, v <=? x) vs →
  percentile_scan (counts h) 0 0 rank = Some (slot_of m x).
Proof.
  intros Hr Hx Hrank. pose proof (ho_layout h vs H) as L. pose proof (lo_mag h L) as HM. pose proof (ho_samples h vs H) as HS. rewrite Forall_forall in HS.
  assert (Hmono : ∀ v w, 0 ≤ v → slot_of m v < slot_of m w → v < w).
  { intros v w Hv Hlt. destruct (Z.lt_ge_cases v w) as [|Hge]; [done|]. destruct (Z.lt_ge_cases w 0); [|pose proof (slot_of_mono m ltac:(lia) w v ltac:(lia)); lia].
    exfalso. assert (E : slot_of m w ≤ 0); [|destruct (slot_of_spec m ltac:(lia) v Hv); lia].
    unfold slot_of. rewrite Z.log2_nonpos by lia. rewrite Z.max_l by lia. rewrite Z.pow_0_r, Z.div_1_r. lia. }
  assert (Hnn : Forall (λ c, 0 ≤ c) (counts h)).
  { apply Forall_lookup. intros i c Hc. assert (Hi : (i < length (counts h))%nat) by by apply lookup_lt_Some in Hc. rewrite (ho_counts h vs H i Hi) in Hc. injection Hc as <-. apply tally_nonneg. }
  assert (Htot : total (counts h) = zlen vs).
  { rewrite <- (take_ge (counts h) (length (counts h))) by lia. rewrite total_take by lia. apply tally_all. intros v Hv. apply Z.ltb_lt. exact (lo_len h L v (HS v Hv)). }
  destruct (scan_spec (counts h) 0 0 rank Hnn ltac:(lia)) as (k & K1 & K2 & K3); [rewrite Htot; pose proof (ho_small h vs H); lia|rewrite Htot; lia|].
  rewrite K1, Z.add_0_l. rewrite !total_take in K3 by lia. rewrite !Z.add_0_l in K3. f_equal. rewrite Nat2Z.inj_succ, <- Z.add_1_r in K3.
  destruct (Z.lt_trichotomy (Z.of_nat k) (slot_of m x)) as [Hlt|[Heq|Hgt]]; [exfalso|done|exfalso].
  - assert (HT : tally (λ v, slot_of m v <? Z.of_nat k + 1) vs ≤ tally (λ v, v <? x) vs); [|lia].
    apply tally_le. intros v Hv Hlv%Z.ltb_lt. apply Z.ltb_lt, Hmono; [by apply HS|lia].
  - assert (HT : tally (λ v, v <=? x) vs ≤ tally (λ v, slot_of m v <? Z.of_nat k) vs); [|lia].
    apply tally_le. intros v Hv Hlv%Z.leb_le. apply Z.ltb_lt. pose proof (slot_of_mono m ltac:(lia) v x ltac:(pose proof (HS v Hv); lia)). lia.
Qed.
End Percentile.

(** ** What a histogram reports *)

Definition record_all (samples : list (Z * Z)) (h : Histogram) : Histogram := fold_left (λ h s, RecordMany s.1 s.2 h) samples h.
(** The recorded values, clamped to the range, each as often as it was recorded. *)
Definition recorded (mt : Z) (samples : list (Z * Z)) : list Z := concat (map (λ s, replicate (Z.to_nat s.2) (Z.min (Z.max 0 s.1) mt)) samples).

Lemma RecordMany_shape v n h : let h' := RecordMany v n h in
  sub_bucket_half_count_magnitude h' = sub_bucket_half_count_magnitude h ∧ max_trackable h' = max_trackable h ∧ zlen (counts h') = zlen (counts h) ∧ significant_digits h' = significant_digits h.
Proof. unfold RecordMany. destruct (n =? 0); [done|]. cbn. unfold zlen, bump. by rewrite length_insert. Qed.
Lemma record_all_ok samples h vs : hist_ok h vs → Forall (λ s, 0 ≤ s.2) samples → zlen vs + zlen (recorded (max_trackable h) samples) < 2 ^ 64 →
  let h' := record_all samples h in
  hist_ok h' (vs ++ recorded (max_trackable h) samples) ∧ sub_bucket_half_count_magnitude h' = sub_bucket_half_count_magnitude h ∧ max_trackable h' = max_trackable h ∧
  zlen (counts h') = zlen (counts h) ∧ significant_digits h' = significant_digits h.
Proof.
  intros Hh Hf. unfold record_all. revert h vs Hh. induction Hf as [|[v n] samples Hn Hf IH]; intros h vs Hh Hz; cbn [fold_left fst snd] in *.
  { by rewrite app_nil_r. }
  change (recorded (max_trackable h) ((v, n) :: samples)) with (replicate (Z.to_nat n) (clamped h v) ++ recorded (max_trackable h) samples) in *.
  rewrite zlen_app in Hz. assert (HR : zlen (replicate (Z.to_nat n) (clamped h v)) = n) by (unfold zlen; rewrite length_replicate; lia). rewrite HR in Hz.
  destruct (RecordMany_shape v n h) as (S1 & S2 & S3 & S4). pose proof (zlen_nonneg (recorded (max_trackable h) samples)).
  destruct (IH (RecordMany v n h) (vs ++ replicate (Z.to_nat n) (clamped h v))) as (I1 & I2 & I3 & I4 & I5); [apply RecordMany_ok; [done|done|lia]|rewrite S2, zlen_app, HR; lia|].
  rewrite S2 in I1. rewrite app_assoc. split; [exact I1|]. rewrite I2, I3, I4, I5. done.
Qed.
Lemma new_histogram_ok mx d : mx < 2 ^ 62 → hist_ok (newHistogram mx d) [].
Proof.
  intros Hm. constructor; [by apply new_layout|constructor| |done|done]. intros i Hi. unfold newHistogram in *. cbn [counts] in *. rewrite length_replicate in Hi. by apply lookup_replicate_2.
Qed.

(** C35. What a reported percentile means.  After any recordings, also spread over two histograms
    that are then merged, the percentile of rank [rank] is computed from the slot of the
    sample of that rank: it is never below that sample, and above it by at most the promised
    relative error, one part in ten to the number of significant digits.  Values outside the
    range count as its ends, and every recording is counted. *)
Theorem percentile_sound max_trackable digits samples1 samples2 rank x :
  max_trackable < 2 ^ 62 → Forall (λ s, 0 ≤ s.2) (samples1 ++ samples2) →
  let new := newHistogram max_trackable digits in
  let vs := recorded (Histogram.max_trackable new) (samples1 ++ samples2) in
  zlen vs < 2 ^ 64 → 1 ≤ rank ≤ zlen vs → 0 ≤ x ≤ Histogram.max_trackable new →
  tally (λ v, v <? x) vs < rank ≤ tally (λ v, v <=? x) vs →
  let h := Histogram_Add (record_all samples2 new) (record_all samples1 new) in
  total_count h = zlen vs ∧ x ≤ ValueAtPercentile rank h ∧ (ValueAtPercentile rank h - x) * 10 ^ significant_digits new ≤ x.
Proof.
  intros Hm Hf new vs Hz Hrank Hx Hr h. apply Forall_app in Hf as [Hf1 Hf2].
  assert (Hvs : vs = recorded (Histogram.max_trackable new) samples1 ++ recorded (Histogram.max_trackable new) samples2) by (unfold vs, recorded; by rewrite map_app, concat_app).
  pose proof (new_histogram_ok max_trackable digits Hm) as Hnew. fold new in Hnew. rewrite Hvs, zlen_app in Hz.
  pose proof (zlen_nonneg (recorded (Histogram.max_trackable new) samples1)). pose proof (zlen_nonneg (recorded (Histogram.max_trackable new) samples2)).
  destruct (record_all_ok samples1 new [] Hnew Hf1) as (A1 & A2 & A3 & A4 & A5); [change (zlen (@nil Z)) with 0; lia|].
  destruct (record_all_ok samples2 new [] Hnew Hf2) as (B1 & B2 & B3 & B4 & B5); [change (zlen (@nil Z)) with 0; lia|]. cbn [app] in A1, B1.
  assert (Hh : hist_ok h vs) by (rewrite Hvs; apply Add_ok; congruence || lia).
  assert (HD : significant_digits h = significant_digits new ∧ Histogram.max_trackable h = Histogram.max_trackable new).
  { unfold h, Histogram_Add. destruct (negb _); cbn; done. }
  destruct HD as [HD HM]. split; [apply Hh|]. pose proof (ho_layout h vs Hh) as L. pose proof (lo_mag h L) as Hmag. rewrite <- HM in Hx.
  pose proof (percentile_slot h vs Hh rank x Hrank Hx Hr) as HS. unfold ValueAtPercentile. rewrite (ho_total h vs Hh). destruct (Z.eqb_spec (zlen vs) 0); [lia|].
  destruct (Z.eqb_spec rank 0); [lia|]. destruct (Z.ltb_spec (zlen vs) rank); [lia|]. rewrite HS. pose proof (lo_len h L x Hx) as HL.
  destruct (slot_of_spec (sub_bucket_half_count_magnitude h) ltac:(lia) x ltac:(lia)) as (S0 & S1 & S2). destruct (ValueForIndex_low h L (slot_of (sub_bucket_half_count_magnitude h) x) ltac:(lia)) as [_ ->].
  split; [lia|]. destruct (lo_digits h L) as [D0 D1]. rewrite <- HD. apply slot_precise; lia.
Qed.

Lemma percentile_sound_witness :
  let h := Histogram_Add (record_all [(1000000, 1)] (newHistogram 2000000 1)) (record_all [(5, 2); (70, 1)] (newHistogram 2000000 1)) in
  70 ≤ ValueAtPercentile 3 h ∧ (ValueAtPercentile 3 h - 70) * 10 ^ 1 ≤ 70.
Proof.
  assert (HF : Forall (λ s : Z * Z, 0 ≤ s.2) ([(5, 2); (70, 1)] ++ [(1000000, 1)])) by (repeat constructor; cbn; lia).
  pose proof (percentile_sound 2000000 1 [(5, 2); (70, 1)] [(1000000, 1)] 3 70 ltac:(lia) HF) as H. cbv zeta in H.
  destruct H as (_ & H1 & H2); [vm_compute; reflexivity|vm_compute; by split|vm_compute; by split|vm_compute; by split|].
  split; [exact H1|]. exact H2.
Defined.

(** Merging an empty histogram forgets the minimum: [Min] of an empty one is 0. *)
Lemma merge_forgets_min : let h := Histogram_Record 500 (newHistogram 1000 1) in
  Histogram_Min h = 500 ∧ Histogram_Min (Histogram_Add (newHistogram 1000 1) h) = 0.
Proof. vm_compute. by split. Qed.
(** The bound a bucket is listed with is its lowest value, not an upper one. *)
Lemma bucket_bound_is_low : NonEmptyBuckets (Histogram_Record 999 (newHistogram 1000 1)) = [(992, 1)].
Proof. vm_compute. reflexivity. Qed.
