(* ===== verification/SyncClient.v ===== *)
(** * SyncClient: a blocking request/response connection

    Models src/net/sync_client.cc over the socket of [Socket]: sending a request frame,
    reading frames until the awaited response, and a call as both.  [sc_waits] is what the
    next waits for the descriptor will return, a wait past its end times out.  Connecting
    yields the socket it is given.  The theorem says what a returned response is and what
    was sent; the example is a request that times out half sent. *)
From S2P Require Import Prelude Status Buffer Frame Socket.

Record SyncClient := mkSyncClient {
  sc_socket : TcpSocket; sc_input : ByteBuffer; sc_decoder : FrameDecoder; sc_consumed : Z; sc_waits : list (Result unit) }.
Definition connected (c : SyncClient) : bool := valid (sc_socket c).
Definition set_input (b : ByteBuffer) (c : SyncClient) : SyncClient := mkSyncClient (sc_socket c) b (sc_decoder c) (sc_consumed c) (sc_waits c).
Definition set_socket (s : TcpSocket) (c : SyncClient) : SyncClient := mkSyncClient s (sc_input c) (sc_decoder c) (sc_consumed c) (sc_waits c).
Definition set_decoder (d : FrameDecoder) (c : SyncClient) : SyncClient := mkSyncClient (sc_socket c) (sc_input c) d (sc_consumed c) (sc_waits c).
Definition set_consumed (n : Z) (c : SyncClient) : SyncClient := mkSyncClient (sc_socket c) (sc_input c) (sc_decoder c) n (sc_waits c).

Definition Client_Close (c : SyncClient) : SyncClient :=
  mkSyncClient (Socket_Close (sc_socket c)) (Clear (sc_input c)) (ResetDecoder (sc_decoder c)) 0 (sc_waits c).
(** [Connect], with what [ConnectWithTimeout] and [SetNoDelay] returned. *)
Definition Client_Connect (opened : Result TcpSocket) (no_delay : Result unit) (c : SyncClient) : Result unit * SyncClient :=
  let c := Client_Close c in
  match opened with
  | Err e => (Err e, c)
  | Ok s =>
      let c := set_socket s c in
      match no_delay with
      | Err e => (Err e, c)
      | Ok _ => (Ok tt, mkSyncClient (sc_socket c) (Clear (sc_input c)) (ResetDecoder (sc_decoder c)) 0 (sc_waits c))
      end
  end.

Definition WaitFor (c : SyncClient) : Result unit * SyncClient :=
  match sc_waits c with
  | [] => (Err kTimeout, c)
  | w :: ws => (w, mkSyncClient (sc_socket c) (sc_input c) (sc_decoder c) (sc_consumed c) ws)
  end.

(** [while (!remaining.empty())]: every round takes an answer of the kernel or a wait. *)
Fixpoint send_loop (fuel : nat) (remaining : bytes) (c : SyncClient) : Result unit * SyncClient :=
  if zlen remaining =? 0 then (Ok tt, c) else
  match fuel with
  | O => (Err kInternal, c)
  | S fuel =>
      match Socket_Write remaining (sc_socket c) with
      | (Err e, s) => (Err e, Client_Close (set_socket s c))
      | (Ok t, s) =>
          let c := set_socket s c in
          if eof t then (Err kClosed, Client_Close c) else
          if would_block t then
            match WaitFor c with (Err e, c) => (Err e, c) | (Ok _, c) => send_loop fuel remaining c end
          else send_loop fuel (zdrop (tr_bytes t) remaining) c
      end
  end.
Definition SendRequest (op : OpCode) (request_id : Z) (payload : bytes) (c : SyncClient) : Result unit * SyncClient :=
  if negb (connected c) then (Err kClosed, c) else
  let scratch := EncodeFrame_op op request_id 0 payload emptyBuffer in
  send_loop (S (length (so_send (sc_socket c)) + length (sc_waits c))) (Readable scratch) c.

Section Read.
Context (read_chunk_bytes : Z).

(** The bytes that can still be looked at. *)
Definition unread (c : SyncClient) : Z :=
  zlen (Readable (sc_input c)) + fold_right Z.add 0 (map (λ a, match a with Arrived d => zlen d | RecvFails _ => 0 end) (so_recv (sc_socket c))).
(** [for (;;)]: every round takes a wait, or drops a whole frame. *)
Fixpoint response_loop (fuel : nat) (expected : Z) (c : SyncClient) : Result Frame * SyncClient :=
  match fuel with
  | O => (Err kInternal, c)
  | S fuel =>
      match Next (sc_decoder c) (Readable (sc_input c)) with
      | (kError, d) => (Err (default kOk (derror d)), Client_Close (set_decoder d c))
      | (kFrame f, d) =>
          let c := set_decoder d c in
          if request_id (fheader f) =? expected then (Ok f, set_consumed (total_size f) c)
          else response_loop fuel expected (set_input (Consume (total_size f) (sc_input c)) c)
      | (kNeedMore, d) =>
          match WaitFor (set_decoder d c) with
          | (Err e, c) => (Err e, c)
          | (Ok _, c) =>
              let '(transfer, input, s) := ReadInto read_chunk_bytes (sc_input c) (sc_socket c) in
              let c := set_input input (set_socket s c) in
              match transfer with
              | Err e => (Err e, Client_Close c)
              | Ok t => if eof t then (Err kClosed, Client_Close c) else response_loop fuel expected c
              end
          end
      end
  end.
Definition read_fuel (c : SyncClient) : nat := S (length (sc_waits c) + Z.to_nat (unread c)).
Definition ReadResponse (expected : Z) (c : SyncClient) : Result Frame * SyncClient :=
  if negb (connected c) then (Err kClosed, c) else
  let c := if 0 <? sc_consumed c then set_consumed 0 (set_input (Consume (sc_consumed c) (sc_input c)) c) else c in
  response_loop (read_fuel c) expected c.
Definition Call (op : OpCode) (request_id : Z) (payload : bytes) (c : SyncClient) : Result Frame * SyncClient :=
  match SendRequest op request_id payload c with
  | (Err e, c) => (Err e, c)
  | (Ok _, c) => ReadResponse request_id c
  end.
End Read.

(** ** What a call does *)

(** The frames of the stream so far, returned or skipped, then what is left of the buffer. *)
Record sc_inv (maxf : Z) (c : SyncClient) (seen : list Frame) : Prop := {
  si_buffer : buffer_wf (sc_input c);
  si_bytes : incoming_bytes (sc_socket c);
  si_consumed : 0 ≤ sc_consumed c ≤ ReadableBytes (sc_input c);
  si_stream : so_received (sc_socket c) = concat (map wire seen) ++ zdrop (sc_consumed c) (Readable (sc_input c));
  si_frames : Forall (frame_valid maxf) seen;
  si_decoder : sc_decoder c = newDecoder maxf }.

Definition arriving (s : TcpSocket) : Z := fold_right Z.add 0 (map (λ a, match a with Arrived d => zlen d | RecvFails _ => 0 end) (so_recv s)).
Lemma arriving_nonneg s : 0 ≤ arriving s.
Proof. unfold arriving. induction (so_recv s) as [|[data|e] l IH]; cbn [map fold_right]; [lia|pose proof (zlen_nonneg data); lia|lia]. Qed.
Definition got_len (r : bytes + Errno) : Z := match r with inl data => zlen data | inr _ => 0 end.
Lemma recv_arriving size s : arriving (recv size s).2 + got_len (recv size s).1 ≤ arriving s.
Proof.
  unfold recv, arriving. destruct (so_recv s) as [|[data|e] rest] eqn:E; cbn [fst snd got_len so_recv]; rewrite ?E; cbn [map fold_right]; [lia| |lia].
  destruct (Z.ltb_spec size (zlen data)); cbn [map fold_right]; rewrite ?zlen_ztake, ?zlen_zdrop; pose proof (zlen_nonneg data); lia.
Qed.
Lemma again_recv_arriving fuel size s : arriving (again fuel (recv size) s).2 + got_len (again fuel (recv size) s).1 ≤ arriving s.
Proof.
  revert s. induction fuel as [|fuel IH]; intros s; cbn [again]; pose proof (recv_arriving size s) as H; destruct (recv size s) as [[data|e] s1]; cbn [fst snd got_len] in *; try done.
  - by destruct e.
  - destruct e; try done. specialize (IH s1). lia.
Qed.
Lemma ReadInto_unread size b s res b' s' : 0 < size → buffer_wf b → ReadInto size b s = (res, b', s') →
  zlen (Readable b') + arriving s' ≤ zlen (Readable b) + arriving s.
Proof.
  intros Hs Hw HR. destruct (EnsureWritable_spec size b Hw ltac:(lia)) as (Hw1 & HR1 & Hroom). pose proof (again_recv_arriving (length (so_recv s)) size s) as A2. revert HR. unfold ReadInto.
  destruct (again _ _ s) as [[data|e] s1] eqn:E; cbn [fst snd got_len] in *.
  - apply again_recv in E as (_ & _ & _ & _ & E5); [|done]. destruct (Z.ltb_spec 0 (zlen data)); intros [= <- <- <-]; [|rewrite HR1; pose proof (zlen_nonneg data); lia].
    destruct (PokeCommit_spec data _ Hw1 ltac:(lia)) as [_ ->]. rewrite HR1, zlen_app. lia.
  - destruct (IsWouldBlock e); [|destruct (bool_decide _)]; intros [= <- <- <-]; rewrite HR1; lia.
Qed.

(** A read leaves the sending side alone and adds to the buffer what it adds to the stream. *)
Lemma sc_inv_read maxf size c seen t b s : 0 < size → sc_inv maxf c seen → ReadInto size (sc_input c) (sc_socket c) = (t, b, s) →
  sc_inv maxf (set_input b (set_socket s c)) seen ∧ so_sent s = so_sent (sc_socket c) ∧ so_fd s = so_fd (sc_socket c).
Proof.
  intros Hs [I1 I2 I3 I4 I5 I6] HR. pose proof (ReadInto_bytes size (sc_input c) (sc_socket c) I2) as HB. rewrite HR in HB.
  destruct (ReadInto_spec _ _ _ _ _ _ Hs I1 HR) as (R1 & R2 & R3 & R4 & data & R5 & R6 & _). split; [|done].
  assert (HZ : zlen (Readable b) = zlen (Readable (sc_input c)) + zlen data) by (rewrite R5; apply zlen_app). rewrite !zlen_Readable in HZ by done. pose proof (zlen_nonneg data).
  constructor; cbn; try done; [lia|]. rewrite R6, I4, R5, <- app_assoc, zdrop_app_le by (rewrite zlen_Readable by done; lia). done.
Qed.
(** A frame at the front of the buffer. *)
Lemma sc_inv_frame maxf c seen f d : sc_inv maxf c seen → sc_consumed c = 0 → Next (sc_decoder c) (Readable (sc_input c)) = (kFrame f, d) →
  d = sc_decoder c ∧ frame_valid maxf f ∧ 32 ≤ total_size f ≤ ReadableBytes (sc_input c) ∧
  sc_inv maxf (set_consumed (total_size f) c) (seen ++ [f]) ∧ sc_inv maxf (set_input (Consume (total_size f) (sc_input c)) c) (seen ++ [f]).
Proof.
  intros [I1 I2 I3 I4 I5 I6] Hc HN. rewrite I6 in HN |- *. rewrite Hc, zdrop_0 in I4 by lia.
  assert (Hb : Forall is_byte (Readable (sc_input c))) by (pose proof (proj2 I2) as H; rewrite I4 in H; by apply Forall_app in H as [_ H]).
  destruct (Next_inv _ _ _ _ Hb HN) as (-> & Hv & rest & Hrest). pose proof (zlen_wire _ _ Hv) as HL.
  assert (HT : 32 ≤ total_size f ≤ ReadableBytes (sc_input c)).
  { rewrite <- zlen_Readable, Hrest, zlen_app by done. pose proof (zlen_nonneg rest). destruct Hv as (_ & _ & _ & _ & Ht). pose proof (zlen_nonneg (fpayload f)). unfold kFrameHeaderSize in Ht. lia. }
  split; [done|]. split; [done|]. split; [done|]. destruct (Consume_spec (total_size f) (sc_input c) I1 ltac:(lia)) as [C1 C2].
  assert (HS : concat (map wire seen) ++ Readable (sc_input c) = concat (map wire (seen ++ [f])) ++ zdrop (total_size f) (Readable (sc_input c))).
  { rewrite map_app, concat_app, Hrest, zdrop_app by done. cbn [map concat]. by rewrite app_nil_r, <- app_assoc. }
  assert (HF : Forall (frame_valid maxf) (seen ++ [f])) by (apply Forall_app; split; [done|by constructor]).
  split; constructor; cbn; try done; try lia.
  - by rewrite I4, HS.
  - rewrite Hc. assert (0 ≤ ReadableBytes (Consume (total_size f) (sc_input c))) by (rewrite <- zlen_Readable by done; apply zlen_nonneg). lia.
  - by rewrite Hc, zdrop_0, C2, I4, HS by lia.
Qed.

(** The bytes and descriptors a read loop does not touch. *)
Definition same_out (c c' : SyncClient) : Prop := so_sent (sc_socket c') = so_sent (sc_socket c).
Definition skipping (id : Z) (fs : list Frame) : Prop := Forall (λ g, request_id (fheader g) ≠ id) fs.

Section Loops.
Context (maxf size : Z) (Hsize : 0 < size).

Lemma WaitFor_inv c seen : sc_inv maxf c seen → let '(r, c1) := WaitFor c in
  sc_inv maxf c1 seen ∧ sc_socket c1 = sc_socket c ∧ sc_input c1 = sc_input c ∧ sc_consumed c1 = sc_consumed c ∧ (r = Ok tt → (length (sc_waits c1) < length (sc_waits c))%nat).
Proof. intros [I1 I2 I3 I4 I5 I6]. unfold WaitFor. destruct (sc_waits c); cbn; (split; [by constructor|]); split_and!; try done; lia. Qed.

Lemma read_loop_ok fuel id c seen : sc_inv maxf c seen → sc_consumed c = 0 → (length (sc_waits c) + Z.to_nat (unread c) < fuel)%nat →
  let '(r, c') := response_loop size fuel id c in
  so_sent (sc_socket c') = so_sent (sc_socket c) ∧
  match r with
  | Ok f => request_id (fheader f) = id ∧ ∃ skipped, skipping id skipped ∧ sc_inv maxf c' (seen ++ skipped ++ [f])
  | Err e => connected c' = true → ∃ skipped, skipping id skipped ∧ sc_inv maxf c' (seen ++ skipped)
  end ∧ ∀ more, response_loop size (fuel + more) id c = (r, c').
Proof.
  revert c seen. induction fuel as [|fuel IH]; intros c seen Hi Hc Hf; [lia|]. cbn [response_loop Nat.add]. destruct (Next (sc_decoder c) (Readable (sc_input c))) as [[|f|] d] eqn:EN.
  - assert (Ed : d = sc_decoder c) by (revert EN; rewrite (si_decoder _ _ _ Hi); unfold Next; cbn [derror newDecoder]; repeat case_match; intros [= ]; congruence).
    subst d. assert (Hs : set_decoder (sc_decoder c) c = c) by by destruct c. rewrite Hs. pose proof (WaitFor_inv c seen Hi) as HW. destruct (WaitFor c) as [[[]|e] c1].
    2:{ destruct HW as (W1 & W2 & _). rewrite W2. split; [done|]. split; [|done]. intros _. exists []. rewrite app_nil_r. by split; [constructor|]. }
    destruct HW as (W1 & W2 & W3 & W4 & W5). specialize (W5 eq_refl). destruct (ReadInto size (sc_input c1) (sc_socket c1)) as [[t b] s] eqn:ER.
    destruct (sc_inv_read _ _ _ _ _ _ _ Hsize W1 ER) as (R1 & R2 & R3). pose proof (ReadInto_unread _ _ _ _ _ _ Hsize (si_buffer _ _ _ W1) ER) as HU. rewrite W2 in R2, R3.
    destruct t as [t|e]; [|split; [exact R2|]; split; [|done]; intros Hx; discriminate Hx]. destruct (eof t); [split; [exact R2|]; split; [|done]; intros Hx; discriminate Hx|].
    specialize (IH (set_input b (set_socket s c1)) seen R1). destruct (response_loop size fuel id _) as [r c'] eqn:EL. destruct IH as (J1 & J2 & J3); [by rewrite <- Hc, <- W4| |].
    { rewrite W2, W3 in HU. unfold unread, arriving in *. cbn. lia. }
    cbn in J1. rewrite J1, R2. split; [done|]. split; [done|]. intros more. exact (J3 more).
  - destruct (sc_inv_frame maxf c seen f d Hi Hc EN) as (-> & Hv & HT & F1 & F2). assert (Hs : set_decoder (sc_decoder c) c = c) by by destruct c. rewrite Hs.
    destruct (Z.eqb_spec (request_id (fheader f)) id) as [Hid|Hid].
    { split; [done|]. split; [|done]. split; [done|]. exists []. by split; [constructor|]. }
    set (c1 := set_input (Consume (total_size f) (sc_input c)) c). specialize (IH c1 (seen ++ [f]) F2). destruct (response_loop size fuel id c1) as [r c'] eqn:EL. destruct IH as (J1 & J2 & J3); [exact Hc| |].
    { destruct (Consume_spec (total_size f) (sc_input c) (si_buffer _ _ _ Hi) ltac:(lia)) as [C1 C2]. unfold unread in *. cbn [c1 set_input sc_input sc_socket sc_waits]. rewrite C2, zlen_zdrop, zlen_Readable by apply Hi.
      rewrite zlen_Readable in Hf by apply Hi. pose proof (arriving_nonneg (sc_socket c)) as HA. unfold arriving in HA. lia. }
    split; [exact J1|]. split; [|exact J3]. destruct r as [g|e].
    + destruct J2 as (G1 & sk & G2 & G3). split; [done|]. exists (f :: sk). split; [by constructor|]. by rewrite <- app_assoc in G3.
    + intros Hx. destruct (J2 Hx) as (sk & G2 & G3). exists (f :: sk). split; [by constructor|]. by rewrite <- app_assoc in G3.
  - split; [done|]. split; [|done]. intros Hx. discriminate Hx.
Qed.
End Loops.

Lemma send_loop_ok maxf fuel remaining c seen : sc_inv maxf c seen → (length (so_send (sc_socket c)) + length (sc_waits c) < fuel)%nat →
  let '(r, c') := send_loop fuel remaining c in
  (∃ n, so_sent (sc_socket c') = so_sent (sc_socket c) ++ ztake n remaining) ∧
  match r with
  | Ok _ => so_sent (sc_socket c') = so_sent (sc_socket c) ++ remaining ∧ sc_inv maxf c' seen ∧ connected c' = connected c
  | Err e => connected c' = true → sc_inv maxf c' seen
  end ∧ ∀ more, send_loop (fuel + more) remaining c = (r, c').
Proof.
  revert remaining c. induction fuel as [|fuel IH]; intros remaining c Hi Hf; [lia|]. cbn [send_loop Nat.add]. destruct (Z.eqb_spec (zlen remaining) 0) as [H0|H0].
  { apply zlen_0_nil in H0 as ->. rewrite app_nil_r. split; [exists 0; by rewrite ztake_0, app_nil_r by lia|]. by split_and!. }
  destruct (Socket_Write remaining (sc_socket c)) as [res s] eqn:EW. pose proof (Socket_Write_spec _ _ _ _ EW) as HW.
  assert (HI : sc_inv maxf (set_socket s c) seen).
  { destruct HW as (W1 & W2 & W3 & _). destruct Hi as [I1 I2 I3 I4 I5 I6]. constructor; cbn; try done; [unfold incoming_bytes in *; by rewrite W2, W3|by rewrite W3]. }
  assert (HV : valid s = valid (sc_socket c)) by (unfold valid; by rewrite (proj1 HW)).
  destruct res as [t|e].
  2:{ destruct HW as (_ & _ & _ & W4 & _). split; [exists 0; cbn; by rewrite ztake_0, app_nil_r by lia|]. split; [|done]. intros Hx. discriminate Hx. }
  destruct HW as (_ & _ & _ & W4 & W5 & W6 & W7). destruct (eof t) eqn:Ee.
  { split; [by exists (tr_bytes t)|]. split; [|done]. intros Hx. discriminate Hx. }
  destruct (would_block t) eqn:Eb.
  - assert (H1 : so_sent s = so_sent (sc_socket c)) by (rewrite W5, (W6 ltac:(by left)), ztake_0, app_nil_r by lia; done).
    pose proof (WaitFor_inv maxf (set_socket s c) seen HI) as HF. destruct (WaitFor (set_socket s c)) as [[[]|e] c1]; destruct HF as (F1 & F2 & F3 & F4 & F5).
    2:{ rewrite F2. split; [exists 0; cbn; by rewrite H1, ztake_0, app_nil_r by lia|]. by split. }
    specialize (F5 eq_refl). specialize (IH remaining c1 F1). destruct (send_loop fuel remaining c1) as [r c']. destruct IH as ([n J1] & J2 & J3).
    { rewrite F2. cbn. assert (length (so_send s) ≤ length (so_send (sc_socket c)))%nat by exact (Socket_Write_answers _ _ _ _ EW). cbn in F5. lia. }
    rewrite F2 in J1, J2. cbn [set_socket sc_socket] in J1, J2. rewrite H1 in J1, J2. split; [by exists n|]. split; [|exact J3]. destruct r; [|done]. destruct J2 as (G1 & G2 & G3). split; [done|]. split; [done|]. rewrite G3. unfold connected. rewrite F2. exact HV.
  - specialize (IH (zdrop (tr_bytes t) remaining) (set_socket s c) HI). destruct (send_loop fuel _ (set_socket s c)) as [r c']. destruct IH as ([n J1] & J2 & J3).
    { cbn. pose proof (Socket_Write_progress _ _ _ _ EW H0 Eb Ee). lia. }
    cbn in J1, J2. split.
    { exists (tr_bytes t + Z.max 0 n). rewrite J1, W5, <- app_assoc. f_equal. rewrite <- (slice_0 (tr_bytes t + Z.max 0 n)), <- (slice_split 0 (tr_bytes t) (0 + tr_bytes t) (Z.max 0 n)), slice_0 by lia.
      f_equal. unfold slice. rewrite Z.add_0_l. unfold ztake. f_equal. lia. }
    split; [|exact J3]. destruct r; [|exact J2]. destruct J2 as (G1 & G2 & G3). rewrite G1, W5, <- app_assoc, ztake_zdrop. split; [done|]. split; [done|]. rewrite G3. exact HV.
Qed.

(** Dropping the frame returned last is invisible to the stream. *)
Lemma sc_inv_release maxf c seen : sc_inv maxf c seen → ∃ c1,
  (if 0 <? sc_consumed c then set_consumed 0 (set_input (Consume (sc_consumed c) (sc_input c)) c) else c) = c1 ∧
  sc_inv maxf c1 seen ∧ sc_consumed c1 = 0 ∧ sc_socket c1 = sc_socket c.
Proof.
  intros Hi. eexists. split; [done|]. pose proof Hi as [I1 I2 I3 I4 I5 I6]. destruct (Z.ltb_spec 0 (sc_consumed c)); [|by split_and!; try done; lia].
  destruct (Consume_spec (sc_consumed c) (sc_input c) I1 ltac:(lia)) as [C1 C2]. split; [|done]. constructor; cbn; try done.
  - rewrite <- zlen_Readable by done. pose proof (zlen_nonneg (Readable (Consume (sc_consumed c) (sc_input c)))). lia.
  - by rewrite zdrop_0, C2 by lia.
Qed.
(** The loops end before their fuel does. *)
Lemma SendRequest_ok maxf op id payload c seen : sc_inv maxf c seen → connected c = true →
  let request := frame_bytes (mkFrameHeader kProtocolVersion op id 0 0 0) payload in
  let '(r, c') := SendRequest op id payload c in
  (∃ n, so_sent (sc_socket c') = so_sent (sc_socket c) ++ ztake n request) ∧
  match r with
  | Ok _ => so_sent (sc_socket c') = so_sent (sc_socket c) ++ request ∧ sc_inv maxf c' seen ∧ connected c' = true
  | Err _ => connected c' = true → sc_inv maxf c' seen
  end.
Proof.
  intros Hi Hc. unfold SendRequest. rewrite Hc. cbn [negb]. destruct (EncodeFrame_spec (mkFrameHeader kProtocolVersion op id 0 0 0) payload emptyBuffer emptyBuffer_wf) as [_ HR].
  change (EncodeFrame_op op id 0 payload emptyBuffer) with (EncodeFrame (mkFrameHeader kProtocolVersion op id 0 0 0) payload emptyBuffer). rewrite HR. change (Readable emptyBuffer) with (@nil Z). cbn [app].
  set (request := frame_bytes _ payload). pose proof (send_loop_ok maxf (S (length (so_send (sc_socket c)) + length (sc_waits c))) request c seen Hi ltac:(lia)) as H.
  destruct (send_loop _ request c) as [r c']. destruct H as (H1 & H2 & _). split; [done|]. destruct r; [|done]. destruct H2 as (H2 & H3 & H4). split_and!; try done. by rewrite H4.
Qed.
(** More turns of either loop do not change what a call returns. *)
Lemma Call_fuel maxf size id c seen more : 0 < size → sc_inv maxf c seen → sc_consumed c = 0 →
  response_loop size (read_fuel c + more) id c = response_loop size (read_fuel c) id c.
Proof.
  intros Hs Hi Hc. pose proof (read_loop_ok maxf size Hs (read_fuel c) id c seen Hi Hc ltac:(unfold read_fuel; lia)) as H. destruct (response_loop size (read_fuel c) id c) as [r c']. apply H.
Qed.

(** C34. A call on an open connection sends the request's frame and nothing else: whatever the
    outcome, what went out is a prefix of it, and all of it when a response is returned.  The
    returned frame carries the request's id and is the first such frame in what arrived after
    the frames seen so far: the frames before it were whole, valid and answered other
    requests, and no byte of the stream is lost, delivered twice or skipped.  After an error
    that leaves the connection open the stream is still in step at a frame boundary. *)
Theorem sync_call maxf size op id payload c seen : 0 < size → sc_inv maxf c seen → connected c = true →
  let request := frame_bytes (mkFrameHeader kProtocolVersion op id 0 0 0) payload in
  let '(r, c') := Call size op id payload c in
  (∃ n, so_sent (sc_socket c') = so_sent (sc_socket c) ++ ztake n request) ∧
  match r with
  | Ok f => so_sent (sc_socket c') = so_sent (sc_socket c) ++ request ∧ request_id (fheader f) = id ∧
      ∃ skipped, skipping id skipped ∧ sc_inv maxf c' (seen ++ skipped ++ [f])
  | Err _ => connected c' = true → ∃ skipped, skipping id skipped ∧ sc_inv maxf c' (seen ++ skipped)
  end.
Proof.
  intros Hs Hi Hc request. unfold Call. pose proof (SendRequest_ok maxf op id payload c seen Hi Hc) as HS. cbv zeta in HS. fold request in HS. destruct (SendRequest op id payload c) as [[[]|e] c1].
  2:{ destruct HS as [H1 H2]. split; [done|]. intros Hx. exists []. rewrite app_nil_r. split; [constructor|by apply H2]. }
  destruct HS as (_ & H1 & H2 & H3). unfold ReadResponse. rewrite H3. cbn [negb]. destruct (sc_inv_release maxf c1 seen H2) as (c2 & -> & R1 & R2 & R3).
  pose proof (read_loop_ok maxf size Hs (read_fuel c2) id c2 seen R1 R2 ltac:(unfold read_fuel; lia)) as HL. destruct (response_loop size (read_fuel c2) id c2) as [r c'].
  destruct HL as (L1 & L2 & _). rewrite R3, H1 in L1. split; [exists (zlen request); rewrite L1; f_equal; symmetry; apply ztake_all; lia|]. destruct r as [f|e]; [|exact L2]. destruct L2 as [L2 L3]. by split_and!.
Qed.

(** A response to an abandoned request arrives first and is skipped. *)
Definition response_bytes (id : Z) (payload : bytes) : bytes := frame_bytes (mkFrameHeader kProtocolVersion kHealth id 0 1 0) payload.
Definition late_reply : SyncClient :=
  mkSyncClient (mkSocket 5 [Arrived (response_bytes 6 [1]); RecvFails EINTR; Arrived (response_bytes 7 [1; 2])] [Accepts 20; SendFails EAGAIN; Accepts 50] [] [])
    emptyBuffer (newDecoder 64) 0 (replicate 6 (Ok tt)).
Lemma late_reply_inv : sc_inv 64 late_reply [].
Proof.
  assert (Hb : incoming_bytes (sc_socket late_reply)) by (split; [|constructor]; repeat constructor; apply (bool_decide_unpack _); vm_compute; exact I).
  constructor; [apply emptyBuffer_wf|exact Hb|vm_compute; split; discriminate|reflexivity|constructor|reflexivity].
Qed.
Lemma late_reply_result : ∃ f c', Call 48 kHealth 7 [] late_reply = (Ok f, c') ∧ fpayload f = [1; 2].
Proof. eexists _, _. split; [vm_compute; reflexivity|]. reflexivity. Qed.
Lemma sync_call_witness : ∃ f c', Call 48 kHealth 7 [] late_reply = (Ok f, c') ∧ fpayload f = [1; 2] ∧ request_id (fheader f) = 7 ∧ ∃ skipped, skipping 7 skipped ∧ sc_inv 64 c' (skipped ++ [f]).
Proof.
  destruct late_reply_result as (f & c' & E & Hf). exists f, c'. pose proof (sync_call 64 48 kHealth 7 [] late_reply [] ltac:(lia) late_reply_inv eq_refl) as H. cbv zeta in H.
  rewrite E in H. destruct H as (_ & _ & H1 & H2). exact (conj E (conj Hf (conj H1 H2))).
Defined.

(** A wait that times out in the middle of a request leaves the connection open with half a
    frame sent: the frame of the next request follows it, and the receiver, which reads the
    rest of the first frame out of the second, rejects the stream. *)
Definition stalled : SyncClient :=
  mkSyncClient (mkSocket 5 [] [Accepts 20; SendFails EAGAIN; Accepts 100] [] []) emptyBuffer (newDecoder 64) 0 [].
Lemma half_sent_request :
  let '(r1, c1) := SendRequest kHealth 7 [1; 2; 3] stalled in
  let '(r2, c2) := SendRequest kHealth 8 [4; 5; 6] c1 in
  r1 = Err kTimeout ∧ connected c1 = true ∧ zlen (so_sent (sc_socket c1)) = 20 ∧
  r2 = Ok tt ∧ (Next (newDecoder 64) (so_sent (sc_socket c2))).1 = kError.
Proof. vm_compute. by split_and!. Qed.
