(* ===== verification/ClientContext.v ===== *)
(** * ClientContext: the client's connections and routing

    Models clients/cpp/src/client_context.cc with the template and types of client.h: the
    pool of connections, the metadata cache and the routing built on it, and the
    administrative client.  A connection is reached through its key in the pool, as the code
    reaches it through a pointer into the pool.  What the outside will do is part of the
    context: [cc_opens] is what the next attempts to connect yield (an attempt past its end
    times out) and [cc_clock] the next readings of the clock (the last one repeats). *)
From S2P Require Import Prelude Status Types OrdMap Buffer Codec MessageCodec MessagesData MessagesControl MessagesGroup Frame Socket SyncClient ClusterMetadata BrokerConfig.

Record ClientConfig := mkClientConfig {
  cg_bootstrap_servers : list bytes; cg_metadata_refresh_ms : Z; cg_max_attempts : Z; cg_max_frame_bytes : Z }.
(** What one attempt to connect yields: the socket, the outcome of setting it up, and what
    waiting on it will return. *)
Record Opening := mkOpening { on_socket : Result TcpSocket; on_no_delay : Result unit; on_waits : list (Result unit) }.
Definition no_opening : Opening := mkOpening (Err kTimeout) (Ok tt) [].

Record ClientContext := mkClientContext {
  cc_config : ClientConfig; cc_connections : list (bytes * SyncClient); cc_topics : list (bytes * TopicMetadata);
  cc_brokers : list (Z * BrokerEndpoint); cc_last_refresh_ms : Z; cc_request_id : Z; cc_round_robin : Z;
  cc_opens : list Opening; cc_clock : list Z }.
Definition newClientContext (config : ClientConfig) (opens : list Opening) (clock : list Z) : ClientContext :=
  let servers := match cg_bootstrap_servers config with [] => [str "127.0.0.1:9092"] | l => l end in
  mkClientContext (mkClientConfig servers (cg_metadata_refresh_ms config) (cg_max_attempts config) (cg_max_frame_bytes config))
    [] [] [] 0 0 0 opens clock.

Definition with_connections (m : list (bytes * SyncClient)) (c : ClientContext) : ClientContext :=
  mkClientContext (cc_config c) m (cc_topics c) (cc_brokers c) (cc_last_refresh_ms c) (cc_request_id c) (cc_round_robin c) (cc_opens c) (cc_clock c).
Definition with_routes (topics : list (bytes * TopicMetadata)) (brokers : list (Z * BrokerEndpoint)) (now : Z) (c : ClientContext) : ClientContext :=
  mkClientContext (cc_config c) (cc_connections c) topics brokers now (cc_request_id c) (cc_round_robin c) (cc_opens c) (cc_clock c).

Definition CC (A : Type) : Type := SR ClientContext A.

Definition MonotonicNanos : CC Z := λ c,
  match cc_clock c with
  | [] => (Ok 0, c)
  | [t] => (Ok t, c)
  | t :: rest => (Ok t, mkClientContext (cc_config c) (cc_connections c) (cc_topics c) (cc_brokers c) (cc_last_refresh_ms c) (cc_request_id c) (cc_round_robin c) (cc_opens c) rest)
  end.
(** [MonotonicNanos() / 1'000'000] *)
Definition now_millis : CC Z := let! t := MonotonicNanos in sret (Z.quot t 1000000).
Definition NextRequestId : CC Z := λ c,
  let id := u64 (cc_request_id c + 1) in
  (Ok id, mkClientContext (cc_config c) (cc_connections c) (cc_topics c) (cc_brokers c) (cc_last_refresh_ms c) id (cc_round_robin c) (cc_opens c) (cc_clock c)).
(** [round_robin_++] *)
Definition next_round_robin : CC Z := λ c,
  (Ok (cc_round_robin c), mkClientContext (cc_config c) (cc_connections c) (cc_topics c) (cc_brokers c) (cc_last_refresh_ms c) (cc_request_id c) (u64 (cc_round_robin c + 1)) (cc_opens c) (cc_clock c)).
Definition next_opening : CC Opening := λ c,
  match cc_opens c with
  | [] => (Ok no_opening, c)
  | o :: rest => (Ok o, mkClientContext (cc_config c) (cc_connections c) (cc_topics c) (cc_brokers c) (cc_last_refresh_ms c) (cc_request_id c) (cc_round_robin c) rest (cc_clock c))
  end.

(** ** The pool *)

Definition CloseAll (c : ClientContext) : ClientContext := with_connections [] c.
Definition Endpoint_ToString (e : Endpoint) : bytes := ep_host e ++ str ":" ++ to_string (ep_port e).

(** The key of a connected client: the one in the pool, or a new one that replaces it. *)
Definition ConnectTo (endpoint : Endpoint) : CC bytes :=
  let key := Endpoint_ToString endpoint in
  let! c := sget in
  if match om_find key (cc_connections c) with Some conn => connected conn | None => false end then sret key
  else
    let! o := next_opening in
    let fresh := mkSyncClient (mkSocket (-1) [] [] [] []) emptyBuffer (newDecoder (cg_max_frame_bytes (cc_config c))) 0 (on_waits o) in
    let '(status, conn) := Client_Connect (on_socket o) (on_no_delay o) fresh in
    slift status ;;;
    smod (λ c, with_connections (om_insert key conn (cc_connections c)) c) ;;;
    sret key.

Definition read_chunk : Z := 64 * 1024.
(** [connection->Call(opcode, NextRequestId(), payload)] *)
Definition call (key : bytes) (op : OpCode) (payload : bytes) : CC Frame :=
  let! id := NextRequestId in λ c,
  match om_find key (cc_connections c) with
  | None => (Err kInternal, c)
  | Some conn => let '(r, conn) := Call read_chunk op id payload conn in (r, with_connections (om_insert key conn (cc_connections c)) c)
  end.

Definition DecodeResponse {M} `{!MessageCodec M} (payload : bytes) : Result M :=
  match (ResponseHeader_Decode (newReader payload)).1 with
  | None => Err kProtocolError
  | Some header =>
      if negb (bool_decide (error header = kOk)) then Err (ResponseHeader_ToStatus header)
      else match (msg_decode (newReader payload)).1 with None => Err kProtocolError | Some m => Ok m end
  end.
(** [ByteBuffer payload; request.Encode(writer)] *)
Definition encode {M} `{!MessageCodec M} (m : M) : bytes := Readable (msg_encode m emptyBuffer).

(** ** Routing *)

Fixpoint try_candidates (n : nat) (candidates : list Endpoint) (start i : Z) (last_error : ErrorCode) : CC bytes :=
  match n with
  | O => sfail last_error
  | S n =>
      match candidates !! Z.to_nat ((start + i) mod zlen candidates) with
      | None => sfail kInternal
      | Some e => let! r := stry (ConnectTo e) in match r with Ok key => sret key | Err err => try_candidates n candidates start (i + 1) err end
      end
  end.
Definition candidates_of (c : ClientContext) : list Endpoint :=
  map (λ p, mkEndpoint (be_host p.2) (be_port p.2)) (cc_brokers c) ++
  omap (λ spec, match Endpoint_Parse spec with Ok e => Some e | Err _ => None end) (cg_bootstrap_servers (cc_config c)).
Definition AnyBroker : CC bytes :=
  let! c := sget in
  let candidates := candidates_of c in
  match candidates with
  | [] => sfail kUnavailable
  | _ => let! n := next_round_robin in try_candidates (length candidates) candidates (n mod zlen candidates) 0 kUnavailable
  end.

Definition RefreshMetadata (topics : list bytes) : CC unit :=
  let! key := AnyBroker in
  let! frame := stry (call key kMetadata (encode (mkMetadataRequest topics))) in
  match frame with
  | Err e => smod CloseAll ;;; sfail e
  | Ok frame =>
      let! response := slift (DecodeResponse (M := MetadataResponse) (fpayload frame)) in
      let! now := now_millis in
      smod (λ c, with_routes (fold_left (λ m t, om_insert (tm_name t) t m) (mresp_topics response) (cc_topics c))
                   (fold_left (λ m b, om_insert (be_id b) b m) (mresp_brokers response) []) now c)
  end.
Definition InvalidateTopic (topic : bytes) : CC unit :=
  smod (λ c, with_routes (om_erase topic (cc_topics c)) (cc_brokers c) (cc_last_refresh_ms c) c).

(** [sorted]: the entries of the map, in the order of their ids already. *)
Definition Context_CoordinatorFor (group_id : bytes) : CC bytes :=
  let! c := sget in
  (if bool_decide (cc_brokers c = []) then RefreshMetadata [] else sret tt) ;;;
  let! c := sget in
  if bool_decide (cc_brokers c = []) then sfail kUnavailable else
  let coordinator := CoordinatorForGroup group_id (merge_sort broker_le (map snd (cc_brokers c))) in
  match om_find coordinator (cc_brokers c) with
  | None => sfail kUnavailable
  | Some b => ConnectTo (mkEndpoint (be_host b) (be_port b))
  end.

(** The topic's entry, after a refresh when it is missing or [stale]. *)
Definition topic_entry (topic : bytes) (stale : bool) : CC TopicMetadata :=
  let! c := sget in
  match om_find topic (cc_topics c), stale with
  | Some t, false => sret t
  | _, _ =>
      RefreshMetadata [topic] ;;;
      let! c := sget in
      match om_find topic (cc_topics c) with None => sfail kNotFound | Some t => sret t end
  end.
Definition PartitionCount (topic : bytes) : CC Z :=
  let! t := topic_entry topic false in sret (i32 (zlen (tm_partitions t))).
Definition LeaderFor (topic : bytes) (partition : Z) : CC bytes :=
  let! now_ms := now_millis in
  let! c := sget in
  let stale := cg_metadata_refresh_ms (cc_config c) <? now_ms - cc_last_refresh_ms c in
  let! t := topic_entry topic stale in
  if partition <? 0 then sfail kNotFound else
  match tm_partitions t !! Z.to_nat partition with
  | None => sfail kNotFound
  | Some p =>
      let! c := sget in
      match om_find (pm_leader p) (cc_brokers c) with
      | None => sfail kUnavailable
      | Some b => ConnectTo (mkEndpoint (be_host b) (be_port b))
      end
  end.
Definition LeaderOrAny (topic : bytes) (partition : Z) : CC bytes :=
  let! leader := stry (LeaderFor topic partition) in
  match leader with
  | Ok key => sret key
  | Err e => if negb (bool_decide (e = kNotFound)) then sfail e else AnyBroker
  end.

(** ** AdminClient *)

Definition Admin_CreateTopic (topic : bytes) (partitions replication_factor : Z) : CC unit :=
  let! key := AnyBroker in
  let! frame := call key kCreateTopic (encode (mkCreateTopicRequest topic partitions replication_factor (-1) (-1) kCompNone false)) in
  let! _ := slift (DecodeResponse (M := CreateTopicResponse) (fpayload frame)) in
  InvalidateTopic topic.
Definition Admin_DeleteTopic (topic : bytes) : CC unit :=
  let! key := AnyBroker in
  let! frame := call key kDeleteTopic (encode (mkDeleteTopicRequest topic)) in
  let! _ := slift (DecodeResponse (M := DeleteTopicResponse) (fpayload frame)) in
  InvalidateTopic topic.
Definition Admin_GetMetadata (topics : list bytes) : CC MetadataResponse :=
  let! key := AnyBroker in
  let! frame := call key kMetadata (encode (mkMetadataRequest topics)) in
  slift (DecodeResponse (fpayload frame)).
Definition Admin_Health : CC HealthResponse :=
  let! key := AnyBroker in let! frame := call key kHealth [] in slift (DecodeResponse (fpayload frame)).
Definition Admin_ListTopics : CC ListTopicsResponse :=
  let! key := AnyBroker in let! frame := call key kListTopics [] in slift (DecodeResponse (fpayload frame)).
Definition Admin_DescribeCluster : CC DescribeClusterResponse :=
  let! key := AnyBroker in let! frame := call key kDescribeCluster [] in slift (DecodeResponse (fpayload frame)).

(** ** Responses *)

(** A response begins with its header. *)
Class ResponseMessage (M : Type) `{!MessageCodec M} := {
  resp_header : M → ResponseHeader;
  resp_header_first : ∀ r m r', msg_decode r = (Some m, r') → (ResponseHeader_Decode r).1 = Some (resp_header m) }.
Lemma header_first {A} (rest : ResponseHeader → Getter A) (head : A → ResponseHeader) :
  (∀ h r a r', rest h r = (Some a, r') → head a = h) →
  ∀ r a r', gbind ResponseHeader_Decode rest r = (Some a, r') → (ResponseHeader_Decode r).1 = Some (head a).
Proof. intros H r a r'. unfold gbind. destruct (ResponseHeader_Decode r) as [[h|] r1]; [|done]. intros E. cbn. f_equal. symmetry. exact (H _ _ _ _ E). Qed.
Lemma gbind_inv {A B} (g : Getter A) (f : A → Getter B) r b r' : gbind g f r = (Some b, r') → ∃ a r1, f a r1 = (Some b, r').
Proof. unfold gbind. destruct (g r) as [[a|] r1]; [eauto|done]. Qed.
Ltac response_header := apply header_first; intros ? ? ? ? H; cbv beta in H;
  repeat (match type of H with gbind _ _ _ = _ => apply gbind_inv in H as (? & ? & H); cbv beta in H end); by injection H as <- _.

#[global] Instance ProduceResponse_resp : ResponseMessage ProduceResponse.
Proof. exists presp_header. response_header. Defined.
#[global] Instance FetchResponse_resp : ResponseMessage FetchResponse.
Proof. exists fresp_header. response_header. Defined.
#[global] Instance ListOffsetsResponse_resp : ResponseMessage ListOffsetsResponse.
Proof. exists loresp_header. response_header. Defined.
#[global] Instance CreateTopicResponse_resp : ResponseMessage CreateTopicResponse.
Proof. exists ctresp_header. response_header. Defined.
#[global] Instance DeleteTopicResponse_resp : ResponseMessage DeleteTopicResponse.
Proof. exists dtresp_header. response_header. Defined.
#[global] Instance MetadataResponse_resp : ResponseMessage MetadataResponse.
Proof. exists mresp_header. response_header. Defined.
#[global] Instance ListTopicsResponse_resp : ResponseMessage ListTopicsResponse.
Proof. exists ltresp_header. response_header. Defined.
#[global] Instance HealthResponse_resp : ResponseMessage HealthResponse.
Proof. exists hresp_header. response_header. Defined.
#[global] Instance DescribeClusterResponse_resp : ResponseMessage DescribeClusterResponse.
Proof. exists dcresp_header. response_header. Defined.
#[global] Instance JoinGroupResponse_resp : ResponseMessage JoinGroupResponse.
Proof. exists jgresp_header. response_header. Defined.
#[global] Instance LeaveGroupResponse_resp : ResponseMessage LeaveGroupResponse.
Proof. exists lgresp_header. response_header. Defined.
#[global] Instance CommitOffsetResponse_resp : ResponseMessage CommitOffsetResponse.
Proof. exists coresp_header. response_header. Defined.
#[global] Instance FetchOffsetResponse_resp : ResponseMessage FetchOffsetResponse.
Proof. exists foresp_header. response_header. Defined.

Lemma encode_reads {M} `{!MessageCodec M} (m : M) : msg_wf m → (msg_decode (newReader (encode m))).1 = Some m.
Proof.
  intros Hm. destruct (msg_agree (W := ByteBuffer) m Hm) as (bs & Ha & Hr). destruct (Ha emptyBuffer emptyBuffer_wf) as [_ E]. unfold encode. change (Readable ?b) with (sink_bytes b). rewrite E.
  change (sink_bytes emptyBuffer) with (@nil Z). cbn [app]. unfold newReader. rewrite (Hr bs 0 false); [done|zlist|by apply zdrop_0].
Qed.

(** A client surfaces the broker's answer for every response it awaits: a response that
    fits the wire is returned as it was sent when its header says so, and an error is
    returned with the broker's code, also when the answer is the bare error header a broker
    sends when it has no body to send. *)
Theorem client_decodes {M} `{!MessageCodec M, !ResponseMessage M} :
  (∀ m : M, msg_wf m → DecodeResponse (encode m) = (if bool_decide (error (resp_header m) = kOk) then Ok m else Err (error (resp_header m)))) ∧
  (∀ code message, code ≠ kOk → string_fits message → DecodeResponse (M := M) (Readable (EncodeErrorResponse code message emptyBuffer)) = Err code).
Proof.
  split.
  - intros m Hm. pose proof (encode_reads m Hm) as E. unfold DecodeResponse. destruct (msg_decode (newReader (encode m))) as [x r'] eqn:ED. cbn in E. subst x. rewrite (resp_header_first _ _ _ ED). by destruct (bool_decide _).
  - intros code message Hc Hs. unfold DecodeResponse, EncodeErrorResponse. destruct (codec_ResponseHeader (W := ByteBuffer) (mkResponseHeader code message) Hs) as (bs & Ha & Hr & _).
    destruct (Ha emptyBuffer emptyBuffer_wf) as [_ E]. change (Readable ?b) with (sink_bytes b). rewrite E. change (sink_bytes emptyBuffer) with (@nil Z). cbn [app]. unfold newReader.
    rewrite (Hr bs 0 false []); [|zlist|by rewrite zdrop_0, app_nil_r]. cbn [fst error]. by rewrite bool_decide_eq_false_2.
Qed.
Lemma client_decodes_witness : let m := mkProduceResponse (mkResponseHeader kOk []) 5 6 0 7 in
  DecodeResponse (encode m) = Ok m ∧ DecodeResponse (M := ProduceResponse) (Readable (EncodeErrorResponse kNotLeader (str "moved") emptyBuffer)) = Err kNotLeader.
Proof.
  intros m. destruct (client_decodes (M := ProduceResponse)) as [T1 T2]. split.
  - apply (T1 m). vm_compute. repeat split; discriminate.
  - apply T2; [discriminate|]. vm_compute. repeat split; discriminate.
Defined.
