(* ===== verification/Producer.v ===== *)
(** * Producer: client-side batching and delivery

    Models clients/cpp/src/producer.cc with the types of client.h.  A batch is handed to
    [SendEncoded], which tries to deliver it as often as the retry policy allows; the pauses
    between attempts are left out, they decide nothing.  [pr_handed] lists the batches as
    they were handed over and is read by no operation.  The theorems: records go into
    batches in the order they were accepted, each exactly once and only with records for
    the same partition, and what the counters and results say about delivery. *)
From S2P Require Import Prelude Status Types OrdMap Buffer Codec MessageCodec MessagesData MessagesControl Record Frame Socket SyncClient ClusterMetadata ClientContext.

Record OutboundRecord := mkOutbound { or_key : bytes; or_key_is_null : bool; or_value : bytes; or_timestamp : Z }.
Record DeliveryResult := mkDelivery {
  dl_topic : bytes; dl_partition : Z; dl_base_offset : Z; dl_last_offset : Z; dl_high_water_mark : Z;
  dl_record_count : Z; dl_bytes : Z; dl_latency_nanos : Z }.
Definition no_delivery : DeliveryResult := mkDelivery [] 0 kInvalidOffset kInvalidOffset kInvalidOffset 0 0 0.
Record ProducerConfig := mkProducerConfig {
  pc_acks : AckMode; pc_request_timeout_ms : Z; pc_batch_records : Z; pc_batch_bytes : Z; pc_linger_ms : Z; pc_forced_partition : Z }.
Record ProducerStats := mkProducerStats {
  ps_records_sent : Z; ps_batches_sent : Z; ps_bytes_sent : Z; ps_retries : Z; ps_failures : Z }.
Record ProduceBatch := mkBatch { ba_topic : bytes; ba_partition : Z; ba_records : bytes; ba_count : Z }.
(** The buffered batch. *)
Record Pending := mkPending { pd_topic : bytes; pd_partition : Z; pd_buffer : ByteBuffer; pd_count : Z; pd_first_nanos : Z }.
Record Producer := mkProducer {
  pr_context : ClientContext; pr_config : ProducerConfig; pr_pending : Pending; pr_stats : ProducerStats;
  pr_round_robin : Z; pr_sticky_partition : Z; pr_handed : list ProduceBatch }.
(** [device()] seeds the rotation. *)
Definition newProducer (context : ClientContext) (config : ProducerConfig) (seed : Z) : Producer :=
  mkProducer context config (mkPending [] 0 emptyBuffer 0 0) (mkProducerStats 0 0 0 0 0) seed 0 [].

Definition set_context (c : ClientContext) (p : Producer) : Producer :=
  mkProducer c (pr_config p) (pr_pending p) (pr_stats p) (pr_round_robin p) (pr_sticky_partition p) (pr_handed p).
Definition set_pending (d : Pending) (p : Producer) : Producer :=
  mkProducer (pr_context p) (pr_config p) d (pr_stats p) (pr_round_robin p) (pr_sticky_partition p) (pr_handed p).
Definition set_stats (f : ProducerStats → ProducerStats) (p : Producer) : Producer :=
  mkProducer (pr_context p) (pr_config p) (pr_pending p) (f (pr_stats p)) (pr_round_robin p) (pr_sticky_partition p) (pr_handed p).
Definition set_sticky (rr partition : Z) (p : Producer) : Producer :=
  mkProducer (pr_context p) (pr_config p) (pr_pending p) (pr_stats p) rr partition (pr_handed p).
Definition hand_over (b : ProduceBatch) (p : Producer) : Producer :=
  mkProducer (pr_context p) (pr_config p) (pr_pending p) (pr_stats p) (pr_round_robin p) (pr_sticky_partition p) (pr_handed p ++ [b]).
Definition on_context {A} (m : CC A) : SR Producer A := szoom pr_context set_context m.

Definition count_retry (s : ProducerStats) : ProducerStats :=
  mkProducerStats (ps_records_sent s) (ps_batches_sent s) (ps_bytes_sent s) (u64 (ps_retries s + 1)) (ps_failures s).
Definition count_failure (s : ProducerStats) : ProducerStats :=
  mkProducerStats (ps_records_sent s) (ps_batches_sent s) (ps_bytes_sent s) (ps_retries s) (u64 (ps_failures s + 1)).
Definition count_batch (records size : Z) (s : ProducerStats) : ProducerStats :=
  mkProducerStats (u64 (ps_records_sent s + records)) (u64 (ps_batches_sent s + 1)) (u64 (ps_bytes_sent s + size)) (ps_retries s) (ps_failures s).

Definition RouteFor (topic : bytes) (record : OutboundRecord) : SR Producer Z :=
  let! p := sget in
  if 0 <=? pc_forced_partition (pr_config p) then sret (pc_forced_partition (pr_config p)) else
  let! partition_count := stry (on_context (PartitionCount topic)) in
  match partition_count with
  | Err e => if negb (bool_decide (e = kNotFound)) then sfail e else sret 0
  | Ok n =>
      if n <=? 0 then sfail kUnavailable else
      if or_key_is_null record then
        let! p := sget in
        smod (if pd_count (pr_pending p) =? 0
              then set_sticky (u64 (pr_round_robin p + 1)) (PartitionRoundRobin (pr_round_robin p) n) else id) ;;;
        let! p := sget in
        smod (if n <=? pr_sticky_partition p then set_sticky (pr_round_robin p) 0 else id) ;;;
        let! p := sget in
        sret (pr_sticky_partition p)
      else sret (PartitionForKey (or_key record) n)
  end.

(** The body of the retry loop; its error is the attempt's [last_error]. *)
Definition produce_attempt (topic : bytes) (partition : Z) (payload : bytes) : CC (ProduceResponse * Z) :=
  let! connection := LeaderOrAny topic partition in
  let! started := MonotonicNanos in
  let! frame := stry (call connection kProduce payload) in
  match frame with
  | Err e => InvalidateTopic topic ;;; sfail e
  | Ok frame =>
      match DecodeResponse (M := ProduceResponse) (fpayload frame) with
      | Err e => (if bool_decide (e = kNotLeader) then InvalidateTopic topic else sret tt) ;;; sfail e
      | Ok response => let! now := MonotonicNanos in sret (response, now - started)
      end
  end.
(** [for (attempt = 0; attempt < max_attempts; ++attempt)], with [n] attempts left. *)
Fixpoint attempts (n : nat) (first : bool) (last_error : ErrorCode) (topic : bytes) (partition : Z) (payload : bytes) : SR Producer (ProduceResponse * Z) :=
  match n with
  | O => sfail last_error
  | S n =>
      smod (if first then id else set_stats count_retry) ;;;
      let! r := stry (on_context (produce_attempt topic partition payload)) in
      match r with
      | Ok x => sret x
      | Err e => if negb (IsRetryable e) then sfail e else attempts n false e topic partition payload
      end
  end.
Definition SendEncoded (topic : bytes) (partition : Z) (records : bytes) (record_count : Z) : SR Producer DeliveryResult :=
  smod (hand_over (mkBatch topic partition records record_count)) ;;;
  let! p := sget in
  let payload := encode (mkProduceRequest topic partition (pc_acks (pr_config p)) (pc_request_timeout_ms (pr_config p)) record_count records) in
  let! r := stry (attempts (Z.to_nat (cg_max_attempts (cc_config (pr_context p)))) true kUnavailable topic partition payload) in
  match r with
  | Ok (response, latency) =>
      smod (set_stats (count_batch record_count (zlen records))) ;;;
      sret (mkDelivery topic partition (presp_base_offset response) (presp_last_offset response) (presp_high_water_mark response)
              record_count (zlen records) latency)
  | Err e => smod (set_stats count_failure) ;;; sfail e
  end.

Definition Producer_Flush : SR Producer DeliveryResult :=
  let! p := sget in
  let d := pr_pending p in
  if pd_count d =? 0 then sret no_delivery else
  smod (set_pending (mkPending (pd_topic d) (pd_partition d) (pd_buffer d) 0 (pd_first_nanos d))) ;;;
  let! result := stry (SendEncoded (pd_topic d) (pd_partition d) (Readable (pd_buffer d)) (u32 (pd_count d))) in
  smod (λ p, let d := pr_pending p in set_pending (mkPending (pd_topic d) (pd_partition d) (Clear (pd_buffer d)) (pd_count d) (pd_first_nanos d)) p) ;;;
  slift result.

(** [AppendRecord(pending_, ...)] of one record. *)
Definition append_outbound (r : OutboundRecord) (b : ByteBuffer) : ByteBuffer :=
  (AppendRecord 0 (or_timestamp r) 0 (or_key_is_null r) (or_key r) (or_value r) b).2.

(** [if (pending_count_ == 0) { ... }] *)
Definition begin_batch (topic : bytes) (partition : Z) : SR Producer unit :=
  let! p := sget in
  if pd_count (pr_pending p) =? 0 then
    let! now := on_context MonotonicNanos in
    smod (λ p, set_pending (mkPending topic partition (Clear (pd_buffer (pr_pending p))) 0 now) p)
  else sret tt.
Definition buffer_record (record : OutboundRecord) : SR Producer unit :=
  smod (λ p, let d := pr_pending p in
    set_pending (mkPending (pd_topic d) (pd_partition d) (append_outbound record (pd_buffer d)) (pd_count d + 1) (pd_first_nanos d)) p).
(** [by_count || by_bytes || by_time] *)
Definition batch_due : SR Producer bool :=
  let! p := sget in
  let config := pr_config p in
  let by_count := pc_batch_records config <=? pd_count (pr_pending p) in
  let by_bytes := pc_batch_bytes config <=? ReadableBytes (pd_buffer (pr_pending p)) in
  let! by_time := (if 0 <? pc_linger_ms config then
      let! now := on_context MonotonicNanos in sret (pc_linger_ms config * 1000000 <=? now - pd_first_nanos (pr_pending p))
    else sret false) in
  sret (by_count || by_bytes || by_time).
Definition Producer_Send (topic : bytes) (record : OutboundRecord) : SR Producer DeliveryResult :=
  let! partition := RouteFor topic record in
  let! p := sget in
  let d := pr_pending p in
  let different_target := (0 <? pd_count d) && (negb (bool_decide (pd_topic d = topic)) || negb (pd_partition d =? partition)) in
  let! implicit_flush := (if different_target then Producer_Flush else sret no_delivery) in
  begin_batch topic partition ;;;
  buffer_record record ;;;
  let! due := batch_due in
  if due then Producer_Flush
  else if 0 <? dl_record_count implicit_flush then sret implicit_flush
  else sret (mkDelivery topic partition kInvalidOffset kInvalidOffset kInvalidOffset 0 0 0).

Definition Producer_SendBatch (topic : bytes) (partition : Z) (records : list OutboundRecord) : SR Producer DeliveryResult :=
  match records with
  | [] => sfail kInvalidArgument
  | _ =>
      let! p := sget in
      (if 0 <? pd_count (pr_pending p) then Producer_Flush else sret no_delivery) ;;;
      smod (λ p, let d := pr_pending p in
        set_pending (mkPending (pd_topic d) (pd_partition d) (fold_left (λ b r, append_outbound r b) records (Clear (pd_buffer d))) (pd_count d) (pd_first_nanos d)) p) ;;;
      let! p := sget in
      SendEncoded topic partition (Readable (pd_buffer (pr_pending p))) (u32 (zlen records))
  end.
(** The destructor's final flush. *)
Definition Producer_destroy (p : Producer) : Producer :=
  if 0 <? pd_count (pr_pending p) then (Producer_Flush p).2 else p.

(** ** Records into batches *)

Definition outbound_record (r : OutboundRecord) : LogRecord := record_of 0 (or_timestamp r) 0 (or_key_is_null r) (or_key r) (or_value r).
Definition outbound_bytes (r : OutboundRecord) : bytes := record_bytes (outbound_record r).
Definition outbound_fits (r : OutboundRecord) : Prop := zlen (or_key r) < 2 ^ 62 ∧ record_fits (outbound_record r).
Definition run_of (rs : list OutboundRecord) : bytes := concat (map outbound_bytes rs).

Lemma append_outbound_spec r b : buffer_wf b → outbound_fits r →
  buffer_wf (append_outbound r b) ∧ Readable (append_outbound r b) = Readable b ++ outbound_bytes r.
Proof.
  intros Hb [Hk Hf]. pose proof (AppendRecord_spec 0 (or_timestamp r) 0 (or_key_is_null r) (or_key r) (or_value r) b Hb Hk Hf) as H.
  unfold append_outbound. destruct (AppendRecord _ _ _ _ _ _ b) as [n b']. by destruct H as (_ & H1 & H2).
Qed.
Lemma run_of_snoc rs r : run_of (rs ++ [r]) = run_of rs ++ outbound_bytes r.
Proof. unfold run_of. rewrite map_app, concat_app. cbn. by rewrite app_nil_r. Qed.
Lemma append_run rs b : buffer_wf b → Forall outbound_fits rs →
  buffer_wf (fold_left (λ b r, append_outbound r b) rs b) ∧ Readable (fold_left (λ b r, append_outbound r b) rs b) = Readable b ++ run_of rs.
Proof.
  intros Hb Hrs. revert b Hb. induction Hrs as [|r rs Hr Hrs IH]; intros b Hb; cbn [fold_left]; [by rewrite app_nil_r|].
  destruct (append_outbound_spec r b Hb Hr) as [H1 H2]. destruct (IH _ H1) as [H3 H4]. split; [done|]. rewrite H4, H2, <- app_assoc. done.
Qed.

(** What every step that only talks to brokers leaves alone. *)
Definition buffering (p p' : Producer) : Prop := pr_pending p' = pr_pending p ∧ pr_config p' = pr_config p ∧ pr_handed p' = pr_handed p.
Lemma buffering_refl p : buffering p p.
Proof. done. Qed.
Lemma buffering_trans p1 p2 p3 : buffering p1 p2 → buffering p2 p3 → buffering p1 p3.
Proof. intros (H1 & H2 & H3) (H4 & H5 & H6). unfold buffering. by rewrite H4, H5, H6. Qed.
Lemma on_context_buffering {A} (m : CC A) p : buffering p (on_context m p).2.
Proof. unfold on_context, szoom. by destruct (m (pr_context p)). Qed.
Lemma attempts_buffering n first e topic partition payload p : buffering p (attempts n first e topic partition payload p).2.
Proof.
  revert first e p. induction n as [|n IH]; intros first e p; cbn [attempts]; [apply buffering_refl|]. unfold sbind, smod, stry, sfail, sret.
  set (p1 := if first then p else set_stats count_retry p). assert (H1 : buffering p p1) by (by unfold p1; destruct first).
  replace ((if first then id else set_stats count_retry) p) with p1 by by destruct first.
  pose proof (on_context_buffering (produce_attempt topic partition payload) p1) as H2. destruct (on_context _ p1) as [[x|e'] p2]; cbn [snd] in H2.
  - exact (buffering_trans _ _ _ H1 H2).
  - destruct (negb (IsRetryable e')); [exact (buffering_trans _ _ _ H1 H2)|]. exact (buffering_trans _ _ _ H1 (buffering_trans _ _ _ H2 (IH false e' p2))).
Qed.
Lemma SendEncoded_hands topic partition records n p : let p' := (SendEncoded topic partition records n p).2 in
  pr_pending p' = pr_pending p ∧ pr_config p' = pr_config p ∧ pr_handed p' = pr_handed p ++ [mkBatch topic partition records n].
Proof.
  unfold SendEncoded, sbind, smod, sget, stry. set (p1 := hand_over _ p). set (payload := encode _).
  pose proof (attempts_buffering (Z.to_nat (cg_max_attempts (cc_config (pr_context p1)))) true kUnavailable topic partition payload p1) as (H1 & H2 & H3).
  destruct (attempts _ true _ topic partition payload p1) as [[[response latency]|e] p2]; cbn in *; rewrite ?H1, ?H2, ?H3; done.
Qed.

(** The batches handed over and the records still buffered. *)
Definition BatchGroup : Type := TopicPartition * list OutboundRecord.
Definition batch_of (g : BatchGroup) : ProduceBatch := mkBatch (topic g.1) (partition g.1) (run_of g.2) (u32 (zlen g.2)).
Definition target (p : Producer) : TopicPartition := mkTP (pd_topic (pr_pending p)) (pd_partition (pr_pending p)).
Definition tagged (g : BatchGroup) : list (TopicPartition * OutboundRecord) := map (pair g.1) g.2.
Record pr_inv (p : Producer) (sent : list BatchGroup) (pend : list OutboundRecord) : Prop := {
  pi_handed : pr_handed p = map batch_of sent;
  pi_groups : Forall (λ g, g.2 ≠ []) sent;
  pi_buffer : buffer_wf (pd_buffer (pr_pending p));
  pi_count : pd_count (pr_pending p) = zlen pend;
  pi_bytes : pend ≠ [] → Readable (pd_buffer (pr_pending p)) = run_of pend }.

Lemma pr_inv_buffering p p' sent pend : buffering p p' → pr_inv p sent pend → pr_inv p' sent pend.
Proof. intros (H1 & H2 & H3) [I1 I2 I3 I4 I5]. constructor; by rewrite ?H1, ?H3. Qed.

Definition flushed (p : Producer) (pend : list OutboundRecord) : list BatchGroup := match pend with [] => [] | _ => [(target p, pend)] end.
Lemma Flush_inv p sent pend : pr_inv p sent pend → let p' := (Producer_Flush p).2 in
  pr_inv p' (sent ++ flushed p pend) [] ∧ pr_config p' = pr_config p.
Proof.
  intros [I1 I2 I3 I4 I5]. unfold Producer_Flush, sbind, sget. destruct (Z.eqb_spec (pd_count (pr_pending p)) 0) as [H0|H0].
  { rewrite I4 in H0. apply zlen_0_nil in H0 as ->. cbn [flushed]. rewrite app_nil_r. by split; [constructor|]. }
  assert (Hp : pend ≠ []) by (intros ->; by rewrite I4 in H0). unfold smod, stry, slift. set (d := pr_pending p) in *. set (p1 := set_pending _ p).
  destruct (SendEncoded_hands (pd_topic d) (pd_partition d) (Readable (pd_buffer d)) (u32 (pd_count d)) p1) as (H1 & H2 & H3).
  destruct (SendEncoded _ _ _ _ p1) as [r p2]. cbn [snd] in *. destruct (Clear_spec (pd_buffer d)) as [C1 C2].
  assert (HF : flushed p pend = [(target p, pend)]) by by destruct pend. rewrite HF. split; [|exact H2].
  constructor; cbn; rewrite ?H1; cbn; try done.
  - rewrite H3, map_app. cbn. rewrite I1, I4, (I5 Hp). done.
  - apply Forall_app. split; [done|]. by repeat constructor.
Qed.
Lemma RouteFor_frame topic r p : buffering p (RouteFor topic r p).2.
Proof.
  unfold RouteFor, sbind, sget, stry, smod, sret, sfail. destruct (0 <=? _); [done|]. pose proof (on_context_buffering (PartitionCount topic) p) as H.
  destruct (on_context (PartitionCount topic) p) as [[n|e] p1]; cbn [snd] in H; [|by destruct (negb _)]. destruct (n <=? 0); [done|]. destruct (or_key_is_null r); [|done].
  destruct (pd_count (pr_pending p1) =? 0); [|unfold id]; (destruct (n <=? _); exact H).
Qed.

(** Every accepted record in order: those in batches, then those still buffered. *)
Definition queue (p : Producer) (sent : list BatchGroup) (pend : list OutboundRecord) : list (TopicPartition * OutboundRecord) :=
  concat (map tagged sent) ++ map (pair (target p)) pend.
Lemma queue_flush p p' sent pend : queue p' (sent ++ flushed p pend) [] = queue p sent pend.
Proof. unfold queue. rewrite map_app, concat_app, app_nil_r. f_equal. destruct pend; [done|]. cbn. by rewrite app_nil_r. Qed.
Lemma queue_target p p' sent pend : (pend ≠ [] → target p' = target p) → queue p' sent pend = queue p sent pend.
Proof. intros H. unfold queue. destruct pend; [done|]. by rewrite H. Qed.

Lemma begin_batch_inv topic partition p sent pend : pr_inv p sent pend → (pend ≠ [] → target p = mkTP topic partition) →
  let '(r, p') := begin_batch topic partition p in r = Ok tt ∧ pr_inv p' sent pend ∧ target p' = mkTP topic partition ∧ pr_config p' = pr_config p ∧ Readable (pd_buffer (pr_pending p')) = run_of pend.
Proof.
  intros Hi Ht. pose proof Hi as [I1 I2 I3 I4 I5]. unfold begin_batch, sbind, sget. destruct (Z.eqb_spec (pd_count (pr_pending p)) 0) as [H0|H0].
  - rewrite I4 in H0. apply zlen_0_nil in H0 as ->. pose proof (on_context_buffering MonotonicNanos p) as (B1 & B2 & B3).
    assert (HO : ∃ t p1, on_context MonotonicNanos p = (Ok t, p1)) by (unfold on_context, szoom, MonotonicNanos; destruct (cc_clock (pr_context p)) as [|t [|? ?]]; by eexists _, _).
    destruct HO as (t & p1 & E). rewrite E in *. cbn [snd] in *. destruct (Clear_spec (pd_buffer (pr_pending p1))) as [C1 C2]. split; [done|]. split; [constructor; cbn; by rewrite ?B3|]. by split_and!.
  - assert (Hp : pend ≠ []) by (intros ->; by rewrite I4 in H0). split; [done|]. split; [exact Hi|]. split; [by apply Ht|]. split; [done|by apply I5].
Qed.
Lemma buffer_record_inv r p sent pend : outbound_fits r → pr_inv p sent pend → Readable (pd_buffer (pr_pending p)) = run_of pend →
  pr_inv (buffer_record r p).2 sent (pend ++ [r]) ∧ target (buffer_record r p).2 = target p ∧ pr_config (buffer_record r p).2 = pr_config p.
Proof.
  intros Hr [I1 I2 I3 I4 I5] HR. destruct (append_outbound_spec r _ I3 Hr) as [A1 A2]. split; [|done]. constructor; cbn; try done.
  - rewrite I4, zlen_app. done.
  - intros _. etransitivity; [exact A2|]. by rewrite HR, run_of_snoc.
Qed.
Lemma batch_due_ok p : ∃ due p', batch_due p = (Ok due, p') ∧ buffering p p' ∧ (due = false → pd_count (pr_pending p) < pc_batch_records (pr_config p)).
Proof.
  unfold batch_due, sbind, sget, sret. assert (HF : ∀ b, (pc_batch_records (pr_config p) <=? pd_count (pr_pending p)) || (pc_batch_bytes (pr_config p) <=? ReadableBytes (pd_buffer (pr_pending p))) || b = false →
    pd_count (pr_pending p) < pc_batch_records (pr_config p)) by (intros b Hb; apply orb_false_iff in Hb as [Hb _]; apply orb_false_iff in Hb as [Hb _]; lia).
  destruct (0 <? _); [|by eexists _, _; split; [|split; [|apply HF]]]. pose proof (on_context_buffering MonotonicNanos p) as HB.
  assert (HO : ∃ t p1, on_context MonotonicNanos p = (Ok t, p1)) by (unfold on_context, szoom, MonotonicNanos; destruct (cc_clock (pr_context p)) as [|t [|? ?]]; by eexists _, _).
  destruct HO as (t & p1 & E). rewrite E in *. by eexists _, _; split; [|split; [|apply HF]].
Qed.

(** What a call may do to the queue: its records go to the end of it, or the call failed. *)
Definition takes (asked acc : list (TopicPartition * OutboundRecord)) (res : Result DeliveryResult) : Prop :=
  acc = asked ∨ (acc = [] ∧ ∃ e, res = Err e).
Definition pending_bound (p : Producer) (pend : list OutboundRecord) : Prop := zlen pend < Z.max 1 (pc_batch_records (pr_config p)).

Lemma Send_tail_inv topic partition r implicit p sent pend : outbound_fits r → pr_inv p sent pend → (pend ≠ [] → target p = mkTP topic partition) →
  let m := (begin_batch topic partition ;;; buffer_record r ;;; let! due := batch_due in
    if due then Producer_Flush else if 0 <? dl_record_count implicit then sret implicit else sret (mkDelivery topic partition kInvalidOffset kInvalidOffset kInvalidOffset 0 0 0)) in
  ∃ sent' pend', pr_inv (m p).2 sent' pend' ∧ queue (m p).2 sent' pend' = queue p sent pend ++ [(mkTP topic partition, r)] ∧ pr_config (m p).2 = pr_config p ∧ pending_bound (m p).2 pend'.
Proof.
  intros Hr Hi Ht m. pose proof (begin_batch_inv topic partition p sent pend Hi Ht) as HB. destruct (begin_batch topic partition p) as [r1 p1] eqn:EB. destruct HB as (-> & B1 & B2 & B3 & B4).
  destruct (buffer_record_inv r p1 sent pend Hr B1 B4) as (R1 & R2 & R3). set (p2 := (buffer_record r p1).2) in *. destruct (batch_due_ok p2) as (due & p3 & E & D1 & D2).
  unfold m. rewrite (sbind_ok _ _ _ _ _ EB), (sbind_ok (buffer_record r) _ p1 tt p2 eq_refl), (sbind_ok _ _ _ _ _ E). pose proof (pr_inv_buffering _ _ _ _ D1 R1) as I3.
  assert (T3 : target p3 = mkTP topic partition) by (unfold target; rewrite (proj1 D1); exact (eq_trans R2 B2)). assert (G3 : pr_config p3 = pr_config p) by (rewrite (proj1 (proj2 D1)), R3; exact B3).
  assert (Q3 : queue p3 sent (pend ++ [r]) = queue p sent pend ++ [(mkTP topic partition, r)]).
  { unfold queue. rewrite map_app, T3, app_assoc. f_equal. f_equal. destruct pend; [done|]. by rewrite Ht. }
  destruct due.
  - destruct (Flush_inv p3 _ _ I3) as [F1 F2]. eexists _, _. split; [exact F1|]. rewrite queue_flush, Q3. split; [done|]. split; [exact (eq_trans F2 G3)|]. unfold pending_bound. change (zlen (@nil OutboundRecord)) with 0. lia.
  - exists sent, (pend ++ [r]). specialize (D2 eq_refl). rewrite (pi_count _ _ _ R1), R3, B3 in D2.
    destruct (0 <? _); cbn [snd sret]; (split; [exact I3|]; split; [exact Q3|]; split; [exact G3|]); unfold pending_bound; rewrite G3; lia.
Qed.
Lemma Send_inv topic r p sent pend : outbound_fits r → pr_inv p sent pend → pending_bound p pend →
  let '(res, p') := Producer_Send topic r p in ∃ sent' pend' partition acc, takes [(mkTP topic partition, r)] acc res ∧
  pr_inv p' sent' pend' ∧ queue p' sent' pend' = queue p sent pend ++ acc ∧ pr_config p' = pr_config p ∧ pending_bound p' pend'.
Proof.
  intros Hr Hi Hb. unfold Producer_Send, sbind at 1. pose proof (RouteFor_frame topic r p) as HB. destruct (RouteFor topic r p) as [[q|e] p1]; cbn [snd] in HB; pose proof (pr_inv_buffering _ _ _ _ HB Hi) as I1;
    assert (Q1 : queue p1 sent pend = queue p sent pend) by (apply queue_target; unfold target; by rewrite (proj1 HB)); assert (G1 : pr_config p1 = pr_config p) by apply HB.
  2:{ exists sent, pend, 0, []. rewrite app_nil_r. split; [right; eauto|]. split; [done|]. split; [done|]. split; [done|]. unfold pending_bound. by rewrite G1. }
  unfold sbind at 1, sget. destruct ((0 <? _) && _) eqn:ED.
  - destruct (Flush_inv p1 sent pend I1) as [F1 F2]. unfold sbind at 1. destruct (Producer_Flush p1) as [[implicit|e] p2]; cbn [snd] in *.
    + destruct (Send_tail_inv topic q r implicit p2 _ [] Hr F1 ltac:(done)) as (sent' & pend' & S1 & S2 & S3 & S4). destruct (sbind _ _ p2) as [res p']. cbn [snd] in *.
      exists sent', pend', q, [(mkTP topic q, r)]. split; [by left|]. split; [done|]. rewrite S2, queue_flush, Q1. split; [done|]. split; [exact (eq_trans S3 (eq_trans F2 G1))|done].
    + exists (sent ++ flushed p1 pend), [], 0, []. split; [right; eauto|]. split; [exact F1|]. rewrite queue_flush, Q1, app_nil_r. split; [done|]. split; [exact (eq_trans F2 G1)|]. unfold pending_bound. change (zlen (@nil OutboundRecord)) with 0. lia.
  - unfold sbind at 1. unfold sret at 1. assert (Ht : pend ≠ [] → target p1 = mkTP topic q).
    { intros Hp. rewrite (pi_count _ _ _ I1) in ED. destruct (Z.ltb_spec 0 (zlen pend)) as [|Hz]; [|pose proof (zlen_nonneg pend); destruct Hp; apply zlen_0_nil; lia].
      cbn [andb] in ED. apply orb_false_iff in ED as [E1 E2]. apply negb_false_iff, bool_decide_eq_true in E1. unfold target. rewrite E1. f_equal. lia. }
    destruct (Send_tail_inv topic q r no_delivery p1 sent pend Hr I1 Ht) as (sent' & pend' & S1 & S2 & S3 & S4). destruct (sbind _ _ p1) as [res p']. cbn [snd] in *.
    exists sent', pend', q, [(mkTP topic q, r)]. split; [by left|]. split; [done|]. rewrite S2, Q1. split; [done|]. split; [exact (eq_trans S3 G1)|done].
Qed.
Lemma SendBatch_inv topic partition rs p sent pend : Forall outbound_fits rs → pr_inv p sent pend → pending_bound p pend →
  let '(res, p') := Producer_SendBatch topic partition rs p in ∃ sent' pend' acc, takes (map (pair (mkTP topic partition)) rs) acc res ∧
  pr_inv p' sent' pend' ∧ queue p' sent' pend' = queue p sent pend ++ acc ∧ pr_config p' = pr_config p ∧ pending_bound p' pend'.
Proof.
  intros Hrs Hi Hb. unfold Producer_SendBatch. destruct rs as [|r0 rs0] eqn:Ers; [exists sent, pend, []; by rewrite app_nil_r; split; [left|]|]. rewrite <- Ers in *. assert (Hne : rs ≠ []) by by rewrite Ers. clear Ers r0 rs0.
  unfold sbind at 1, sget at 1. set (flush := if 0 <? pd_count (pr_pending p) then Producer_Flush else sret no_delivery).
  assert (HF : pr_inv (flush p).2 (sent ++ flushed p pend) [] ∧ pr_config (flush p).2 = pr_config p).
  { unfold flush. destruct (Z.ltb_spec 0 (pd_count (pr_pending p))) as [|Hz]; [by apply Flush_inv|]. rewrite (pi_count _ _ _ Hi) in Hz. pose proof (zlen_nonneg pend).
    assert (pend = []) as -> by (apply zlen_0_nil; lia). cbn [flushed]. rewrite app_nil_r. by split. }
  assert (Hnil : ∀ p', pending_bound p' []) by (intros p'; unfold pending_bound; change (zlen (@nil OutboundRecord)) with 0; lia).
  destruct (flush p) as [[d|e] p1] eqn:EF; cbn [snd] in HF; destruct HF as [F1 F2].
  2:{ rewrite (sbind_err _ _ _ _ _ EF). exists (sent ++ flushed p pend), [], []. rewrite queue_flush, app_nil_r. split; [right; eauto|]. by split_and!. }
  rewrite (sbind_ok _ _ _ _ _ EF). unfold sbind at 1, smod at 1, sbind at 1, sget at 1. destruct (Clear_spec (pd_buffer (pr_pending p1))) as [C1 C2]. destruct (append_run rs _ C1 Hrs) as [A1 A2].
  set (b := fold_left _ rs _) in *. set (p2 := set_pending _ p1). destruct (SendEncoded_hands topic partition (Readable (pd_buffer (pr_pending p2))) (u32 (zlen rs)) p2) as (H1 & H2 & H3).
  destruct (SendEncoded _ _ _ _ p2) as [res p']. cbn [snd] in *. exists ((sent ++ flushed p pend) ++ [(mkTP topic partition, rs)]), [], (map (pair (mkTP topic partition)) rs). split; [by left|].
  split; [|split; [|split; [exact (eq_trans H2 F2)|done]]].
  - destruct F1 as [I1 I2 I3 I4 I5]. constructor; rewrite ?H1; cbn [p2 set_pending pr_pending pd_buffer pd_count]; try done.
    + rewrite H3, map_app. f_equal; [exact I1|]. cbn [map]. unfold batch_of. cbn [fst snd Types.topic Types.partition]. f_equal. f_equal. rewrite C2 in A2. exact A2.
    + apply Forall_app. split; [done|]. by repeat constructor.
  - rewrite <- (queue_flush p p sent pend). unfold queue. rewrite map_app, concat_app, !app_nil_r. cbn [map concat]. by rewrite app_nil_r.
Qed.

(** ** Sequences of calls *)

Inductive PCall := PSend (topic : bytes) (r : OutboundRecord) | PSendBatch (topic : bytes) (partition : Z) (rs : list OutboundRecord) | PFlush.
Definition pcall (o : PCall) : SR Producer DeliveryResult :=
  match o with PSend t r => Producer_Send t r | PSendBatch t q rs => Producer_SendBatch t q rs | PFlush => Producer_Flush end.
Fixpoint pcalls (os : list PCall) (p : Producer) : list (Result DeliveryResult) * Producer :=
  match os with
  | [] => ([], p)
  | o :: os => let '(r, p) := pcall o p in let '(rs, p) := pcalls os p in (r :: rs, p)
  end.
Definition pcall_fits (o : PCall) : Prop :=
  match o with PSend _ r => outbound_fits r | PSendBatch _ _ rs => Forall outbound_fits rs | PFlush => True end.
(** The records a call puts in the queue: the ones it was given, for some partition of the
    topic it was given, or none when it returned an error. *)
Definition enqueues (o : PCall) (res : Result DeliveryResult) (acc : list (TopicPartition * OutboundRecord)) : Prop :=
  match o with
  | PSend t r => ∃ q, takes [(mkTP t q, r)] acc res
  | PSendBatch t q rs => takes (map (pair (mkTP t q)) rs) acc res
  | PFlush => acc = []
  end.
Inductive enqueued : list PCall → list (Result DeliveryResult) → list (TopicPartition * OutboundRecord) → Prop :=
  | enqueued_nil : enqueued [] [] []
  | enqueued_cons o os res rs acc accs : enqueues o res acc → enqueued os rs accs → enqueued (o :: os) (res :: rs) (acc ++ accs).

Lemma pcall_inv o p sent pend : pcall_fits o → pr_inv p sent pend → pending_bound p pend →
  let '(res, p') := pcall o p in ∃ sent' pend' acc, enqueues o res acc ∧
  pr_inv p' sent' pend' ∧ queue p' sent' pend' = queue p sent pend ++ acc ∧ pr_config p' = pr_config p ∧ pending_bound p' pend'.
Proof.
  intros Hf Hi Hb. destruct o as [t r|t q rs|]; cbn [pcall enqueues].
  - pose proof (Send_inv t r p sent pend Hf Hi Hb) as H. destruct (Producer_Send t r p) as [res p']. destruct H as (sent' & pend' & q & acc & H1 & H2). exists sent', pend', acc. split; [by exists q|done].
  - exact (SendBatch_inv t q rs p sent pend Hf Hi Hb).
  - pose proof (Flush_inv p sent pend Hi) as [F1 F2]. destruct (Producer_Flush p) as [res p']. exists (sent ++ flushed p pend), [], []. rewrite queue_flush, app_nil_r. split_and!; try done. unfold pending_bound. change (zlen (@nil OutboundRecord)) with 0. lia.
Qed.
Lemma pcalls_inv os p sent pend : Forall pcall_fits os → pr_inv p sent pend → pending_bound p pend →
  let '(rs, p') := pcalls os p in ∃ sent' pend' accs, enqueued os rs accs ∧
  pr_inv p' sent' pend' ∧ queue p' sent' pend' = queue p sent pend ++ accs ∧ pr_config p' = pr_config p ∧ pending_bound p' pend'.
Proof.
  intros Hf. revert p sent pend. induction Hf as [|o os Ho Hos IH]; intros p sent pend Hi Hb; cbn [pcalls].
  - exists sent, pend, []. rewrite app_nil_r. split; [constructor|]. by split_and!.
  - pose proof (pcall_inv o p sent pend Ho Hi Hb) as H. destruct (pcall o p) as [res p1]. destruct H as (s1 & d1 & acc & H1 & H2 & H3 & H4 & H5).
    specialize (IH p1 s1 d1 H2 H5). destruct (pcalls os p1) as [rs p']. destruct IH as (s2 & d2 & accs & J1 & J2 & J3 & J4 & J5).
    exists s2, d2, (acc ++ accs). split; [by constructor|]. split; [done|]. rewrite J3, H3, app_assoc. split; [done|]. by rewrite J4.
Qed.

(** C31. Whatever the brokers answer, a producer puts the records it accepts into batches in
    the order of the calls: the batches handed over for delivery, then the records still
    buffered, are exactly the accepted records, each once.  A batch is the encoded records of
    one partition one after the other, with their count, and is never empty; a call that
    succeeds accepts all its records, and fewer records than [batch_records] wait. *)
Theorem producer_batches (context : ClientContext) (config : ProducerConfig) (seed : Z) (os : list PCall) :
  Forall pcall_fits os →
  let '(rs, p) := pcalls os (newProducer context config seed) in
  ∃ (sent : list BatchGroup) (pend : list OutboundRecord) accepted, enqueued os rs accepted ∧
    concat (map tagged sent) ++ map (pair (target p)) pend = accepted ∧
    pr_handed p = map batch_of sent ∧ Forall (λ g, g.2 ≠ []) sent ∧
    pd_count (pr_pending p) = zlen pend ∧ zlen pend < Z.max 1 (pc_batch_records config) ∧
    (pend ≠ [] → Readable (pd_buffer (pr_pending p)) = run_of pend).
Proof.
  intros Hf. pose proof (pcalls_inv os (newProducer context config seed) [] [] Hf) as H. destruct (pcalls os _) as [rs p].
  destruct H as (sent & pend & accs & H1 & [I1 I2 I3 I4 I5] & H3 & H4 & H5).
  - by constructor.
  - unfold pending_bound. change (zlen (@nil OutboundRecord)) with 0. lia.
  - exists sent, pend, accs. unfold pending_bound in H5. rewrite H4 in H5. by split_and!.
Qed.

(** ** Delivery *)

Definition with_retries (k : Z) (s : ProducerStats) : ProducerStats :=
  mkProducerStats (ps_records_sent s) (ps_batches_sent s) (ps_bytes_sent s) (u64 (ps_retries s + k)) (ps_failures s).
Lemma with_retries_0 s : unsigned 64 (ps_retries s) → with_retries 0 s = s.
Proof. intros H. unfold with_retries. rewrite Z.add_0_r, uwrap_small by done. by destruct s. Qed.
Lemma on_context_stats {A} (m : CC A) p : pr_stats (on_context m p).2 = pr_stats p.
Proof. unfold on_context, szoom. by destruct (m (pr_context p)). Qed.

(** *** What an attempt that succeeds has seen *)

Lemma response_loop_id size fuel id c f c' : response_loop size fuel id c = (Ok f, c') → request_id (fheader f) = id.
Proof.
  revert c. induction fuel as [|fuel IH]; intros c; cbn [response_loop]; [done|]. destruct (Next _ _) as [[|x|] d].
  - destruct (WaitFor _) as [[u|e] c1]; [|done]. destruct (ReadInto _ _ _) as [[[t|e] input] s]; [|done]. destruct (eof t); [done|apply IH].
  - destruct (Z.eqb_spec (request_id (fheader x)) id); [by intros [= <- _]|apply IH].
  - done.
Qed.
Lemma call_id key op payload c f c' : call key op payload c = (Ok f, c') → request_id (fheader f) = u64 (cc_request_id c + 1).
Proof.
  unfold call, sbind, NextRequestId. cbn [cc_connections]. destruct (om_find key (cc_connections c)) as [conn|]; [|done]. unfold Call.
  destruct (SendRequest _ _ _ conn) as [[u|e] c1]; [|done]. unfold ReadResponse. destruct (negb _); [done|].
  destruct (response_loop _ _ _ _) as [[x|e] c2] eqn:E; [|done]. intros [= <- _]. by eapply response_loop_id.
Qed.

(** The broker that [c] routes the partition to has answered the request [payload] with
    [response], whose header says OK: the answer is the payload of a frame that carries the id
    the request was sent under. *)
Definition acknowledged (topic : bytes) (partition : Z) (payload : bytes) (c : ClientContext) (response : ProduceResponse) : Prop :=
  ∃ key c1 c2 c3 frame,
    (LeaderOrAny topic partition c) = (Ok key, c1) ∧ (MonotonicNanos c1).2 = c2 ∧
    call key kProduce payload c2 = (Ok frame, c3) ∧ request_id (fheader frame) = u64 (cc_request_id c2 + 1) ∧
    (ProduceResponse_Decode (newReader (fpayload frame))).1 = Some response ∧ error (presp_header response) = kOk.
Lemma produce_attempt_ok topic partition payload c response latency c' :
  produce_attempt topic partition payload c = (Ok (response, latency), c') → acknowledged topic partition payload c response.
Proof.
  unfold produce_attempt, sbind. destruct (LeaderOrAny topic partition c) as [[key|e] c1] eqn:E1; [|done].
  destruct (MonotonicNanos c1) as [[t|e] c2] eqn:E2; [|done]. unfold stry. destruct (call key kProduce payload c2) as [[frame|e] c3] eqn:E3; [|done].
  unfold DecodeResponse. destruct (ResponseHeader_Decode (newReader (fpayload frame))).1 as [h|] eqn:EH; [|done]. case_bool_decide as Hok; cbn [negb]; [|by case_bool_decide].
  destruct (msg_decode (newReader (fpayload frame))) as [[m|] r] eqn:ED; cbn [fst]; [|done]. destruct (MonotonicNanos c3) as [[t'|e] c4]; [|done]. intros [= <- _ _].
  pose proof (resp_header_first _ _ _ ED) as HF. rewrite EH in HF. injection HF as ->. exists key, c1, c2, c3, frame. split_and!; try done; [by rewrite E2|by eapply call_id|].
  change (ProduceResponse_Decode (newReader (fpayload frame))) with (msg_decode (M := ProduceResponse) (newReader (fpayload frame))). by rewrite ED.
Qed.

(** [k] attempts from [p] on have failed with a retryable error; [q] is about to make the
    next one. *)
Inductive tried (topic : bytes) (partition : Z) (payload : bytes) : Z → Producer → Producer → Prop :=
  | tried_none p : tried topic partition payload 0 p p
  | tried_more k e p p1 q :
      on_context (produce_attempt topic partition payload) p = (Err e, p1) → IsRetryable e = true →
      tried topic partition payload k (set_stats count_retry p1) q → tried topic partition payload (1 + k) p q.
Lemma tried_stats topic partition payload k p q : unsigned 64 (ps_retries (pr_stats p)) → tried topic partition payload k p q →
  pr_stats q = with_retries k (pr_stats p).
Proof.
  intros Hu H. revert Hu. induction H as [p|k e p p1 q HE _ _ IH]; intros Hu; [by rewrite with_retries_0|].
  pose proof (on_context_stats (produce_attempt topic partition payload) p) as HS. rewrite HE in HS. cbn [snd] in HS.
  rewrite IH by (apply uwrap_range; lia). cbn [set_stats pr_stats]. rewrite HS. unfold with_retries, count_retry. cbn. f_equal. unfold uwrap. rewrite Zplus_mod_idemp_l. f_equal. lia.
Qed.
Lemma attempts_trace n (first : bool) e topic partition payload p : (0 < n)%nat →
  let p1 := (if first then id else set_stats count_retry) p in
  let '(r, p') := attempts n first e topic partition payload p in
  ∃ k q, 0 ≤ k < Z.of_nat n ∧ tried topic partition payload k p1 q ∧ on_context (produce_attempt topic partition payload) q = (r, p') ∧
    match r with Ok _ => True | Err e' => IsRetryable e' = true → k = Z.of_nat n - 1 end.
Proof.
  revert first e p. induction n as [|n IH]; intros first e p Hn; [lia|]. cbn [attempts]. unfold sbind at 1, smod. set (p1 := (if first then id else set_stats count_retry) p).
  unfold sbind, stry. destruct (on_context (produce_attempt topic partition payload) p1) as [[x|e'] p2] eqn:E.
  { exists 0, p1. split; [lia|]. split; [constructor|done]. }
  destruct (IsRetryable e') eqn:ER; cbn [negb sfail]; [|exists 0, p1; split; [lia|]; split; [constructor|]; split; [done|]; intros H; by rewrite ER in H].
  destruct n as [|n]; [exists 0, p1; split; [lia|]; split; [constructor|]; split; [done|]; intros _; lia|].
  specialize (IH false e' p2 ltac:(lia)). cbv zeta in IH. destruct (attempts (S n) false e' topic partition payload p2) as [r p']. destruct IH as (k & q & K1 & K2 & K3 & K4).
  exists (1 + k), q. split; [lia|]. split; [by eapply tried_more|]. split; [done|]. destruct r; [done|]. intros H. specialize (K4 H). lia.
Qed.

(** C32. A batch is acknowledged or reported, never both and never neither.  [SendEncoded]
    makes attempts until one succeeds, one fails with an error that is not retryable, or
    [max_attempts] have failed; after [k] retries the last attempt decides.  On success the
    broker the partition is routed to has answered this very request (the frame carries the
    id it was sent under) with a response that decodes and whose header says OK, the result
    carries that response's offsets and the batch's records, and the sent counters grow by
    exactly the batch.  On an error the sent counters stand still, one failure is counted,
    and the error is the last attempt's (with no attempts allowed, [kUnavailable]). *)
Theorem producer_delivery (topic : bytes) (partition : Z) (records : bytes) (n : Z) (p : Producer) :
  unsigned 64 (ps_retries (pr_stats p)) →
  let max_attempts := cg_max_attempts (cc_config (pr_context p)) in
  let payload := encode (mkProduceRequest topic partition (pc_acks (pr_config p)) (pc_request_timeout_ms (pr_config p)) n records) in
  let '(res, p') := SendEncoded topic partition records n p in
  if max_attempts <=? 0 then res = Err kUnavailable ∧ pr_stats p' = count_failure (pr_stats p)
  else ∃ k q, 0 ≤ k < max_attempts ∧ tried topic partition payload k (hand_over (mkBatch topic partition records n) p) q ∧
  match res with
  | Ok d => ∃ response, acknowledged topic partition payload (pr_context q) response ∧
      dl_base_offset d = presp_base_offset response ∧ dl_last_offset d = presp_last_offset response ∧
      dl_high_water_mark d = presp_high_water_mark response ∧
      dl_record_count d = n ∧ dl_topic d = topic ∧ dl_partition d = partition ∧ dl_bytes d = zlen records ∧
      pr_stats p' = count_batch n (zlen records) (with_retries k (pr_stats p))
  | Err e => (produce_attempt topic partition payload (pr_context q)).1 = Err e ∧ (IsRetryable e = true → k = max_attempts - 1) ∧
      pr_stats p' = count_failure (with_retries k (pr_stats p))
  end.
Proof.
  intros Hu max_attempts payload. unfold SendEncoded, sbind, smod, sget, stry. set (p1 := hand_over _ p). change (encode _) with payload.
  change (cg_max_attempts (cc_config (pr_context p1))) with max_attempts. destruct (Z.leb_spec max_attempts 0) as [H0|H0].
  { replace (Z.to_nat max_attempts) with O by lia. by cbn. }
  pose proof (attempts_trace (Z.to_nat max_attempts) true kUnavailable topic partition payload p1 ltac:(lia)) as H. cbv zeta in H.
  destruct (attempts _ true _ topic partition payload p1) as [r p2]. destruct H as (k & q & K1 & K2 & K3 & K4). rewrite Z2Nat.id in K1, K4 by lia.
  pose proof (tried_stats topic partition payload k p1 q Hu K2) as HS. pose proof (on_context_stats (produce_attempt topic partition payload) q) as HS2. rewrite K3 in HS2. cbn [snd] in HS2. rewrite HS in HS2.
  unfold on_context, szoom in K3. destruct (produce_attempt topic partition payload (pr_context q)) as [x cx] eqn:EA. destruct r as [[response latency]|e]; exists k, q; (split; [done|]); (split; [exact K2|]); cbn.
  - injection K3 as -> _. exists response. split; [by eapply produce_attempt_ok|]. by rewrite HS2.
  - injection K3 as -> _. rewrite EA. rewrite HS2. by split_and!.
Qed.

(** ** Examples *)

Definition reply_frame (op : OpCode) (id : Z) (payload : bytes) : RecvAnswer := Arrived (frame_bytes (mkFrameHeader kProtocolVersion op id 0 1 0) payload).
Definition ok_header : ResponseHeader := mkResponseHeader kOk [].
Definition unknown_topic (id : Z) : RecvAnswer := reply_frame kMetadata id (encode (mkMetadataResponse (mkResponseHeader kNotFound []) 0 [] [])).
Definition acked (id base last : Z) : RecvAnswer := reply_frame kProduce id (encode (mkProduceResponse ok_header base last 0 (last + 1))).
(** One broker: it does not know the topics yet, and appends what is produced. *)
Definition one_broker (answers : list RecvAnswer) : ClientContext :=
  newClientContext (mkClientConfig [] 30000 3 4096) [mkOpening (Ok (mkSocket 5 answers (replicate 12 (Accepts 5000)) [] [])) (Ok tt) (replicate 24 (Ok tt))] [1].
Definition text (s : string) : OutboundRecord := mkOutbound [] true (str s) 0.
Definition two_topics : list PCall := [PSend (str "a") (text "1"); PSend (str "b") (text "a longer value"); PFlush].
Definition batching (records size : Z) : ProducerConfig := mkProducerConfig kLeader 5000 records size 0 0.
Definition two_deliveries : Producer :=
  newProducer (one_broker [unknown_topic 1; acked 2 0 0; unknown_topic 3; acked 4 0 0]) (batching 10 40) 7.
Lemma two_topics_fit : Forall pcall_fits two_topics.
Proof. repeat constructor; vm_compute; congruence. Qed.
Local Notation result := (pcalls two_topics two_deliveries).
Definition counts (rs : list (Result DeliveryResult)) : list Z := map (λ r, match r with Ok d => dl_record_count d | Err _ => -1 end) rs.
(** The second send delivers two batches, the first record's and its own, and returns the
    result of the second only: the counts the calls return account for one of the two
    acknowledged records. *)
Lemma implicit_flush_unreported : counts result.1 = [0; 1; 0] ∧ ps_records_sent (pr_stats result.2) = 2 ∧ zlen (pr_handed result.2) = 2.
Proof. vm_compute. by split_and!. Qed.

Lemma producer_batches_witness : zlen (pr_handed result.2) = 2 ∧
  ∃ (sent : list BatchGroup) (pend : list OutboundRecord) accepted, enqueued two_topics result.1 accepted ∧
    concat (map tagged sent) ++ map (pair (target result.2)) pend = accepted ∧ pr_handed result.2 = map batch_of sent.
Proof.
  split; [exact (proj2 (proj2 implicit_flush_unreported))|].
  pose proof (producer_batches (pr_context two_deliveries) (batching 10 40) 7 two_topics two_topics_fit) as T. change (newProducer (pr_context two_deliveries) (batching 10 40) 7) with two_deliveries in T.
  destruct result as [rs p]. destruct T as (sent & pend & accepted & T1 & T2 & T3 & _). exists sent, pend, accepted. exact (conj T1 (conj T2 T3)).
Defined.

(** The broker sheds load twice, then appends. *)
Definition busy (id : Z) : RecvAnswer := reply_frame kProduce id (encode (mkProduceResponse (mkResponseHeader kBackpressure []) 0 0 0 0)).
Definition shedding : Producer :=
  newProducer (one_broker [unknown_topic 1; busy 2; unknown_topic 3; busy 4; unknown_topic 5; acked 6 7 7]) (batching 1 100) 7.
Local Notation delivery := (SendEncoded (str "a") 0 (run_of [text "1"]) 1 shedding).
Lemma shedding_run : match delivery.1 with Ok d => dl_base_offset d = 7 | Err _ => False end ∧ ps_retries (pr_stats delivery.2) = 2.
Proof. vm_compute. by split. Qed.
Lemma producer_delivery_witness : ps_retries (pr_stats delivery.2) = 2 ∧
  match delivery.1 with
  | Ok d => dl_base_offset d = 7 ∧ dl_record_count d = 1 ∧ ∃ q response, acknowledged (str "a") 0
      (encode (mkProduceRequest (str "a") 0 kLeader 5000 1 (run_of [text "1"]))) (pr_context q) response ∧ presp_base_offset response = 7
  | Err _ => False
  end.
Proof.
  pose proof shedding_run as [H1 H2]. split; [exact H2|].
  pose proof (producer_delivery (str "a") 0 (run_of [text "1"]) 1 shedding ltac:(vm_compute; split; congruence)) as T. cbv zeta in T.
  change (cg_max_attempts (cc_config (pr_context shedding)) <=? 0) with false in T. cbv iota in T.
  destruct delivery as [[d|e] p]; [|exact H1]. destruct T as (k & q & _ & _ & response & T1 & T2 & _ & _ & T3 & _). split; [exact H1|]. split; [exact T3|].
  exists q, response. split; [exact T1|]. rewrite <- T2. exact H1.
Defined.
