(* ===== verification/Consumer.v ===== *)
(** * Consumer: reading by offset, alone or in a group

    Models clients/cpp/src/consumer.cc with the types of client.h.  A fetched record's views
    into the consumer's buffer are the bytes they show.  The theorems: what one poll does to
    the positions, and the position every assigned partition has after a join.  The examples
    at the end are two commits of an offset the group did not ask for. *)
From S2P Require Import Prelude Status Types OrdMap Buffer Codec MessageCodec MessagesData MessagesControl MessagesGroup Record Frame Socket SyncClient ClusterMetadata ClientContext.

Record InboundRecord := mkInbound { ir_offset : Z; ir_timestamp : Z; ir_key_is_null : bool; ir_key : bytes; ir_value : bytes }.
Record ConsumerConfig := mkConsumerConfig {
  kc_max_bytes : Z; kc_min_bytes : Z; kc_max_wait_ms : Z; kc_isolation : IsolationLevel; kc_group_id : bytes; kc_topics : list bytes;
  kc_session_timeout_ms : Z; kc_strategy : AssignmentStrategy; kc_heartbeat_interval_ms : Z; kc_start_from_earliest : bool }.
Record ConsumerStats := mkConsumerStats {
  ks_records_received : Z; ks_bytes_received : Z; ks_fetches : Z; ks_empty_fetches : Z; ks_rebalances : Z; ks_commits : Z }.
(** The membership: id, generation, assignment. *)
Record Membership := mkMembership { mb_member_id : bytes; mb_generation : Z; mb_assignment : list TopicPartition }.
Record Consumer := mkConsumer {
  co_context : ClientContext; co_config : ConsumerConfig; co_member : Membership; co_positions : list (TopicPartition * Z);
  co_next_partition : Z; co_last_heartbeat_ms : Z; co_last_fetched : TopicPartition; co_last_fetch_next_offset : Z; co_stats : ConsumerStats }.
Definition newConsumer (context : ClientContext) (config : ConsumerConfig) : Consumer :=
  mkConsumer context config (mkMembership [] (-1) []) [] 0 0 (mkTP [] 0) kInvalidOffset (mkConsumerStats 0 0 0 0 0 0).

Definition co_set_context (c : ClientContext) (k : Consumer) : Consumer :=
  mkConsumer c (co_config k) (co_member k) (co_positions k) (co_next_partition k) (co_last_heartbeat_ms k) (co_last_fetched k) (co_last_fetch_next_offset k) (co_stats k).
Definition set_member (m : Membership) (k : Consumer) : Consumer :=
  mkConsumer (co_context k) (co_config k) m (co_positions k) (co_next_partition k) (co_last_heartbeat_ms k) (co_last_fetched k) (co_last_fetch_next_offset k) (co_stats k).
Definition set_positions (m : list (TopicPartition * Z)) (k : Consumer) : Consumer :=
  mkConsumer (co_context k) (co_config k) (co_member k) m (co_next_partition k) (co_last_heartbeat_ms k) (co_last_fetched k) (co_last_fetch_next_offset k) (co_stats k).
Definition set_next_partition (n : Z) (k : Consumer) : Consumer :=
  mkConsumer (co_context k) (co_config k) (co_member k) (co_positions k) n (co_last_heartbeat_ms k) (co_last_fetched k) (co_last_fetch_next_offset k) (co_stats k).
Definition set_last_heartbeat (t : Z) (k : Consumer) : Consumer :=
  mkConsumer (co_context k) (co_config k) (co_member k) (co_positions k) (co_next_partition k) t (co_last_fetched k) (co_last_fetch_next_offset k) (co_stats k).
Definition set_last_fetch (tp : TopicPartition) (next : Z) (k : Consumer) : Consumer :=
  mkConsumer (co_context k) (co_config k) (co_member k) (co_positions k) (co_next_partition k) (co_last_heartbeat_ms k) tp next (co_stats k).
Definition co_set_stats (f : ConsumerStats → ConsumerStats) (k : Consumer) : Consumer :=
  mkConsumer (co_context k) (co_config k) (co_member k) (co_positions k) (co_next_partition k) (co_last_heartbeat_ms k) (co_last_fetched k) (co_last_fetch_next_offset k) (f (co_stats k)).
Definition with_context {A} (m : CC A) : SR Consumer A := szoom co_context co_set_context m.

Definition count_fetch (records size : Z) (s : ConsumerStats) : ConsumerStats :=
  mkConsumerStats (u64 (ks_records_received s + records)) (u64 (ks_bytes_received s + size)) (u64 (ks_fetches s + 1))
    (if records =? 0 then u64 (ks_empty_fetches s + 1) else ks_empty_fetches s) (ks_rebalances s) (ks_commits s).
Definition count_rebalance (s : ConsumerStats) : ConsumerStats :=
  mkConsumerStats (ks_records_received s) (ks_bytes_received s) (ks_fetches s) (ks_empty_fetches s) (u64 (ks_rebalances s + 1)) (ks_commits s).
Definition count_commit (s : ConsumerStats) : ConsumerStats :=
  mkConsumerStats (ks_records_received s) (ks_bytes_received s) (ks_fetches s) (ks_empty_fetches s) (ks_rebalances s) (u64 (ks_commits s + 1)).

(** ** Fetching *)

Definition inbound (data : bytes) (v : RecordView) : InboundRecord :=
  mkInbound (rv_offset v) (rv_timestamp v) (rv_key_is_null v) (span_bytes data (rv_key v)) (span_bytes data (rv_value v)).
(** [while (it.Next(view)) records.push_back(...)]: a record takes bytes of the buffer. *)
Definition decode_records (data : bytes) : Result (list InboundRecord) :=
  let '(views, it) := iterate (S (length data)) (newIterator data true) in
  match it_status it with Some e => Err e | None => Ok (map (inbound data) views) end.
Definition next_offset_after (offset : Z) (records : list InboundRecord) : Z :=
  match last records with None => offset | Some r => i64 (ir_offset r + 1) end.

(** The request and its answer; a failure makes the client look for the leader again. *)
Definition fetch_call (request : FetchRequest) : CC FetchResponse :=
  let! connection := LeaderFor (freq_topic request) (freq_partition request) in
  let! frame := stry (call connection kFetch (encode request)) in
  match frame with
  | Err e => InvalidateTopic (freq_topic request) ;;; sfail e
  | Ok frame =>
      match DecodeResponse (M := FetchResponse) (fpayload frame) with
      | Err e => (if bool_decide (e = kNotLeader) then InvalidateTopic (freq_topic request) else sret tt) ;;; sfail e
      | Ok response => sret response
      end
  end.
Definition FetchInto (tp : TopicPartition) (offset : Z) : SR Consumer (list InboundRecord) :=
  let! k := sget in
  let request := mkFetchRequest (topic tp) (partition tp) offset (kc_max_bytes (co_config k)) (kc_min_bytes (co_config k)) (kc_max_wait_ms (co_config k)) (kc_isolation (co_config k)) in
  let! response := with_context (fetch_call request) in
  let! records := slift (decode_records (fresp_records response)) in
  smod (co_set_stats (count_fetch (zlen records) (zlen (fresp_records response)))) ;;;
  smod (set_last_fetch tp (next_offset_after offset records)) ;;;
  smod (λ k, set_positions (om_insert tp (co_last_fetch_next_offset k) (co_positions k)) k) ;;;
  sret records.
Definition Fetch (topic : bytes) (partition offset : Z) : SR Consumer (list InboundRecord) := FetchInto (mkTP topic partition) offset.
Definition ListOffset (tp : TopicPartition) (timestamp : Z) : CC Z :=
  let! connection := LeaderFor (topic tp) (partition tp) in
  let! frame := call connection kListOffsets (encode (mkListOffsetsRequest (topic tp) (partition tp) timestamp)) in
  let! response := slift (DecodeResponse (M := ListOffsetsResponse) (fpayload frame)) in
  sret (loresp_offset response).

(** ** The group *)

(** A request to the group's coordinator. *)
Definition group_call (group_id : bytes) (op : OpCode) (payload : bytes) : CC Frame :=
  let! connection := Context_CoordinatorFor group_id in call connection op payload.
Definition Consumer_CommittedOffset (group_id : bytes) (tp : TopicPartition) : CC Z :=
  let! frame := group_call group_id kFetchOffset (encode (mkFetchOffsetRequest group_id (topic tp) (partition tp))) in
  let! response := slift (DecodeResponse (M := FetchOffsetResponse) (fpayload frame)) in
  sret (foresp_offset response).

(** Where to start in a partition that was not held before. *)
Definition starting_position (config : ConsumerConfig) (tp : TopicPartition) : CC Z :=
  let! committed := stry (Consumer_CommittedOffset (kc_group_id config) tp) in
  if match committed with Ok offset => 0 <=? offset | Err _ => false end then slift committed else
  let! start := stry (ListOffset tp (if kc_start_from_earliest config then kEarliestOffset else kLatestOffset)) in
  sret (match start with Ok offset => offset | Err _ => 0 end).
Fixpoint resolve_positions (config : ConsumerConfig) (held : list (TopicPartition * Z)) (tps : list TopicPartition) (positions : list (TopicPartition * Z)) : CC (list (TopicPartition * Z)) :=
  match tps with
  | [] => sret positions
  | tp :: tps =>
      let! offset := match om_find tp held with Some offset => sret offset | None => starting_position config tp end in
      resolve_positions config held tps (om_insert tp offset positions)
  end.
Definition Consumer_Join : SR Consumer unit :=
  let! k := sget in
  let config := co_config k in
  if bool_decide (kc_group_id config = []) then sfail kInvalidArgument else
  if bool_decide (kc_topics config = []) then sfail kInvalidArgument else
  let request := mkJoinGroupRequest (kc_group_id config) (mb_member_id (co_member k)) (kc_topics config) (kc_session_timeout_ms config) (kc_strategy config) in
  let! frame := with_context (group_call (kc_group_id config) kJoinGroup (encode request)) in
  let! response := slift (DecodeResponse (M := JoinGroupResponse) (fpayload frame)) in
  smod (set_member (mkMembership (jgresp_member_id response) (jgresp_generation response) (jgresp_assignment response))) ;;;
  smod (set_next_partition 0) ;;;
  let! now := with_context now_millis in
  smod (set_last_heartbeat now) ;;;
  smod (co_set_stats count_rebalance) ;;;
  let! k := sget in
  let! positions := with_context (resolve_positions config (co_positions k) (mb_assignment (co_member k)) []) in
  smod (set_positions positions).
Definition Consumer_Leave : SR Consumer unit :=
  let! k := sget in
  if bool_decide (mb_member_id (co_member k) = []) then sret tt else
  let group_id := kc_group_id (co_config k) in
  let! frame := with_context (group_call group_id kLeaveGroup (encode (mkLeaveGroupRequest group_id (mb_member_id (co_member k))))) in
  let status := DecodeResponse (M := LeaveGroupResponse) (fpayload frame) in
  smod (set_member (mkMembership [] (-1) [])) ;;;
  let! _ := slift status in sret tt.
Definition Consumer_Heartbeat : SR Consumer unit :=
  let! k := sget in
  if bool_decide (mb_member_id (co_member k) = []) then sret tt else
  let group_id := kc_group_id (co_config k) in
  let! frame := with_context (group_call group_id kHeartbeat (encode (mkHeartbeatRequest group_id (mb_member_id (co_member k)) (mb_generation (co_member k))))) in
  match (ResponseHeader_Decode (newReader (fpayload frame))).1 with
  | None => sfail kProtocolError
  | Some header =>
      match (HeartbeatResponse_Decode (newReader (fpayload frame))).1 with
      | None => if negb (bool_decide (error header = kOk)) then Consumer_Join else sfail kProtocolError
      | Some response =>
          let! now := with_context now_millis in
          smod (set_last_heartbeat now) ;;;
          if hbresp_rejoin_required response then Consumer_Join
          else if bool_decide (error (hbresp_header response) = kOk) then sret tt else sfail (ResponseHeader_ToStatus (hbresp_header response))
      end
  end.

(** ** Polling *)

Definition position_of (tp : TopicPartition) (k : Consumer) : Z := default 0 (om_find tp (co_positions k)).
(** A partition whose position retention deleted restarts at its earliest offset. *)
Definition skip_ahead (tp : TopicPartition) : SR Consumer unit :=
  let! earliest := stry (with_context (ListOffset tp kEarliestOffset)) in
  match earliest with
  | Ok offset => smod (λ k, set_positions (om_insert tp offset (co_positions k)) k)
  | Err _ => sret tt
  end.
(** [for (attempt = 0; attempt < assignment_.size(); ++attempt)], with [n] partitions left to
    try. *)
Fixpoint poll_loop (n : nat) (attempt : Z) : SR Consumer (list InboundRecord) :=
  let! k := sget in
  let size := zlen (mb_assignment (co_member k)) in
  match n with
  | O => smod (set_next_partition ((co_next_partition k + 1) mod size)) ;;; sret []
  | S n =>
      match mb_assignment (co_member k) !! Z.to_nat ((co_next_partition k + attempt) mod size) with
      | None => sfail kInternal
      | Some tp =>
          let! records := stry (FetchInto tp (position_of tp k)) in
          match records with
          | Err e => if bool_decide (e = kOutOfRange) then skip_ahead tp ;;; poll_loop n (attempt + 1) else sfail e
          | Ok [] => poll_loop n (attempt + 1)
          | Ok records => smod (λ k, set_next_partition ((co_next_partition k + attempt + 1) mod size) k) ;;; sret records
          end
      end
  end.
(** The part of [Poll] before the fetches. *)
Definition poll_prepare : SR Consumer unit :=
  let! k := sget in
  (if bool_decide (mb_member_id (co_member k) = []) then Consumer_Join else sret tt) ;;;
  let! now_ms := with_context now_millis in
  let! k := sget in
  if kc_heartbeat_interval_ms (co_config k) <=? now_ms - co_last_heartbeat_ms k then
    let! status := stry Consumer_Heartbeat in
    match status with
    | Ok _ => sret tt
    | Err e => if negb (bool_decide (e = kRebalanceInProgress)) then sfail e else sret tt
    end
  else sret tt.
Definition Poll : SR Consumer (list InboundRecord) :=
  poll_prepare ;;;
  let! k := sget in
  match mb_assignment (co_member k) with [] => sret [] | tps => poll_loop (length tps) 0 end.

(** ** Committing *)

Definition CommitOffset (tp : TopicPartition) (offset : Z) : SR Consumer unit :=
  let! k := sget in
  let group_id := kc_group_id (co_config k) in
  let request := mkCommitOffsetRequest group_id (mb_member_id (co_member k)) (mb_generation (co_member k)) (topic tp) (partition tp) offset [] in
  let! frame := with_context (group_call group_id kCommitOffset (encode request)) in
  let! _ := slift (DecodeResponse (M := CommitOffsetResponse) (fpayload frame)) in
  smod (co_set_stats count_commit).
Definition Consumer_Commit : SR Consumer unit :=
  let! k := sget in
  if (co_last_fetch_next_offset k =? kInvalidOffset) || bool_decide (topic (co_last_fetched k) = []) then sret tt
  else CommitOffset (co_last_fetched k) (co_last_fetch_next_offset k).
(** The destructor leaves the group. *)
Definition Consumer_destroy (k : Consumer) : Consumer :=
  if negb (bool_decide (mb_member_id (co_member k) = [])) then (Consumer_Leave k).2 else k.
