(* ===== verification/ConsumerTheorems.v ===== *)
(** * ConsumerTheorems: positions and turns of a consumer

    What [Consumer] promises: a fetch decodes its response to the end; a poll passes over
    partitions that have nothing, serves the first that has something and sends it to the
    end of the rotation, moving another position only when its fetch came out as out of range;
    a join keeps the positions it may keep and resolves the others. *)
From S2P Require Import Prelude Status Types OrdMap Buffer Codec MessageCodec MessagesData MessagesControl MessagesGroup Record Frame Socket SyncClient ClusterMetadata ClientContext Assignor GroupCoordinator Consumer.

(** ** Decoding a response *)

Lemma ParseRecord_advances data pos verify v next : ParseRecord data pos verify = Ok (v, next) → pos < next ≤ zlen data.
Proof.
  unfold ParseRecord. destruct (Z.ltb_spec (zlen data) (pos + kRecordFixedPrefix)); [done|]. destruct (Z.ltb_spec (load_at 4 (pos + kOffLength) data) (kRecordFixedPrefix - 4)) as [|Hl]; [done|].
  destruct (kMaxRecordBytes <? _); [done|]. destruct (Z.ltb_spec (zlen data) (pos + (load_at 4 (pos + kOffLength) data + 4))); [done|]. destruct (verify && _); [done|].
  destruct (ReadVarUInt _ _) as [[kf c1]|]; [|done]. destruct (ReadVarUInt _ _) as [[vl c2]|]; [|done]. destruct (_ || _); [done|]. destruct (negb _); [done|]. intros [= <- <-]. unfold kRecordFixedPrefix in *. lia.
Qed.
(** More turns of the loop find no more records. *)
Lemma iterate_fuel fuel more it : zlen (it_data it) - it_pos it < Z.of_nat fuel → iterate (fuel + more) it = iterate fuel it.
Proof.
  revert it. induction fuel as [|fuel IH]; intros it Hf.
  - destruct more as [|more]; [done|]. cbn [iterate Nat.add]. unfold NextRecord. destruct (it_status it); [done|]. destruct (Z.leb_spec (zlen (it_data it)) (it_pos it)); [done|lia].
  - cbn [iterate Nat.add]. unfold NextRecord. destruct (it_status it); [done|]. destruct (Z.leb_spec (zlen (it_data it)) (it_pos it)); [done|]. destruct (ParseRecord _ _ _) as [[v next]|e] eqn:E; [|done].
    apply ParseRecord_advances in E. rewrite IH; [done|]. cbn. lia.
Qed.
Lemma decode_records_fuel data more : iterate (S (length data) + more) (newIterator data true) = iterate (S (length data)) (newIterator data true).
Proof. apply iterate_fuel. cbn. unfold zlen. lia. Qed.

(** ** Frames *)

(** What talking to brokers leaves alone. *)
Definition same_group (k k' : Consumer) : Prop :=
  co_config k' = co_config k ∧ co_member k' = co_member k ∧ co_next_partition k' = co_next_partition k.
Lemma with_context_frame {A} (m : CC A) k : same_group k (with_context m k).2 ∧ co_positions (with_context m k).2 = co_positions k.
Proof. unfold with_context, szoom. by destruct (m (co_context k)). Qed.

Lemma FetchInto_spec tp offset k : let '(r, k') := FetchInto tp offset k in
  same_group k k' ∧
  match r with
  | Ok records => co_positions k' = om_insert tp (next_offset_after offset records) (co_positions k) ∧ co_last_fetched k' = tp ∧ co_last_fetch_next_offset k' = next_offset_after offset records
  | Err _ => co_positions k' = co_positions k
  end.
Proof.
  unfold FetchInto, sbind at 1, sget. set (request := mkFetchRequest _ _ _ _ _ _ _). pose proof (with_context_frame (fetch_call request) k) as [H1 H2].
  unfold sbind at 1. destruct (with_context (fetch_call request) k) as [[response|e] k1]; cbn [snd] in *; [|done].
  unfold sbind at 1, slift. destruct (decode_records (fresp_records response)) as [records|e]; [|done]. split; [exact H1|]. split; [cbn; by rewrite H2|done].
Qed.
Lemma position_insert tp tp' o k m : co_positions k = om_insert tp o m → position_of tp' k = if decide (tp' = tp) then o else default 0 (om_find tp' m).
Proof. intros H. unfold position_of. rewrite H, om_find_insert. by destruct (decide _). Qed.

(** ** Passing over *)

(** The partitions a poll tried without finding records: they were empty, or their position
    had been deleted and they restart at the earliest offset. *)
Inductive passed_over : list TopicPartition → Consumer → Consumer → Prop :=
  | passed_nil k : passed_over [] k k
  | passed_empty tp tps k k1 k2 : FetchInto tp (position_of tp k) k = (Ok [], k1) → passed_over tps k1 k2 → passed_over (tp :: tps) k k2
  | passed_deleted tp tps k k1 k2 : FetchInto tp (position_of tp k) k = (Err kOutOfRange, k1) → passed_over tps (skip_ahead tp k1).2 k2 → passed_over (tp :: tps) k k2.
(** The fetch at the partition's position came out as out of range: the broker said so, or
    the records it returned do not decode and end in that error, as a record cut short
    does. *)
Definition fetch_request (tp : TopicPartition) (k : Consumer) : FetchRequest :=
  mkFetchRequest (topic tp) (partition tp) (position_of tp k) (kc_max_bytes (co_config k)) (kc_min_bytes (co_config k)) (kc_max_wait_ms (co_config k)) (kc_isolation (co_config k)).
Definition out_of_range (tp : TopicPartition) (k k' : Consumer) : Prop :=
  with_context (fetch_call (fetch_request tp k)) k = (Err kOutOfRange, k') ∨
  ∃ response, with_context (fetch_call (fetch_request tp k)) k = (Ok response, k') ∧ decode_records (fresp_records response) = Err kOutOfRange.
Lemma FetchInto_out_of_range tp k k' : FetchInto tp (position_of tp k) k = (Err kOutOfRange, k') → out_of_range tp k k'.
Proof.
  unfold FetchInto, sbind at 1, sget, sbind at 1. fold (fetch_request tp k). unfold out_of_range. destruct (with_context (fetch_call (fetch_request tp k)) k) as [[response|e] k1]; [|by intros [= -> ->]; left].
  unfold sbind at 1, slift. destruct (decode_records (fresp_records response)) as [records|e] eqn:E; [done|]. intros [= -> ->]. right. by exists response.
Qed.
(** In a run that passes over [tps] from [k0] on, the turn of [tp] came when the partitions
    before it had been passed over; its position was out of range, and the broker then named
    [offset] as its earliest. *)
Definition restarted (tps : list TopicPartition) (k0 : Consumer) (tp : TopicPartition) (offset : Z) : Prop :=
  ∃ before after k k1 k2, tps = before ++ tp :: after ∧ passed_over before k0 k ∧ out_of_range tp k k1 ∧
    with_context (ListOffset tp kEarliestOffset) k1 = (Ok offset, k2).
Lemma restarted_empty tp' tps k k1 tp o : FetchInto tp' (position_of tp' k) k = (Ok [], k1) → restarted tps k1 tp o → restarted (tp' :: tps) k tp o.
Proof. intros HF (bf & af & ka & kb & kc & -> & H1 & H2). exists (tp' :: bf), af, ka, kb, kc. split; [done|]. split; [by eapply passed_empty|done]. Qed.
Lemma restarted_deleted tp' tps k k1 tp o : FetchInto tp' (position_of tp' k) k = (Err kOutOfRange, k1) → restarted tps (skip_ahead tp' k1).2 tp o → restarted (tp' :: tps) k tp o.
Proof. intros HF (bf & af & ka & kb & kc & -> & H1 & H2). exists (tp' :: bf), af, ka, kb, kc. split; [done|]. split; [by eapply passed_deleted|done]. Qed.

Lemma skip_ahead_spec tp k : let '(r, k') := skip_ahead tp k in r = Ok tt ∧ same_group k k' ∧
  (co_positions k' = co_positions k ∨ ∃ o k1, with_context (ListOffset tp kEarliestOffset) k = (Ok o, k1) ∧ co_positions k' = om_insert tp o (co_positions k)).
Proof.
  unfold skip_ahead, sbind, stry. pose proof (with_context_frame (ListOffset tp kEarliestOffset) k) as [H1 H2]. destruct (with_context _ k) as [[o|e] k1] eqn:E; cbn [snd] in *.
  - cbn. split; [done|]. split; [done|]. right. exists o, k1. by rewrite H2.
  - by split_and!; try done; left.
Qed.
Lemma passed_over_spec tps k k' : passed_over tps k k' → same_group k k' ∧
  ∀ tp, position_of tp k' = position_of tp k ∨ restarted tps k tp (position_of tp k').
Proof.
  induction 1 as [k|tp tps k k1 k2 HF HP [IH1 IH2]|tp tps k k1 k2 HF HP [IH1 IH2]].
  - split; [done|]. by left.
  - pose proof (FetchInto_spec tp (position_of tp k) k) as HS. rewrite HF in HS. destruct HS as ((G1 & G2 & G3) & HS & _). change (next_offset_after (position_of tp k) []) with (position_of tp k) in HS.
    destruct IH1 as (J1 & J2 & J3). split; [unfold same_group; by rewrite J1, J2, J3|].
    assert (HE : ∀ tp', position_of tp' k1 = position_of tp' k) by (intros tp'; rewrite (position_insert _ tp' _ _ _ HS); by destruct (decide (tp' = tp)) as [->|]).
    intros tp'. destruct (IH2 tp') as [E|H]; [left; by rewrite E|right]. by eapply restarted_empty.
  - pose proof (FetchInto_spec tp (position_of tp k) k) as HS. rewrite HF in HS. destruct HS as ((G1 & G2 & G3) & HS). pose proof (skip_ahead_spec tp k1) as HK. destruct (skip_ahead tp k1) as [r k1'] eqn:EK. cbn [snd] in *.
    destruct HK as (_ & (L1 & L2 & L3) & HK). destruct IH1 as (J1 & J2 & J3). split; [unfold same_group; by rewrite J1, J2, J3, L1, L2, L3|].
    intros tp'. destruct (IH2 tp') as [E|H]; [|right; eapply restarted_deleted; [exact HF|]; by rewrite EK]. destruct HK as [HK|(o & k3 & HO & HK)].
    + left. rewrite E. unfold position_of. by rewrite HK, HS.
    + destruct (decide (tp' = tp)) as [->|Hne].
      * right. rewrite E, (position_insert _ tp _ _ _ HK), decide_True by done. exists [], tps, k, k1, k3. split; [done|]. split; [constructor|]. split; [by apply FetchInto_out_of_range|done].
      * left. rewrite E, (position_insert _ tp' _ _ _ HK), decide_False by done. unfold position_of. by rewrite HS.
Qed.

(** ** Turns *)

Definition assigned (k : Consumer) : list TopicPartition := mb_assignment (co_member k).
(** The assigned partitions in the order the next poll tries them. *)
Definition rotation (k : Consumer) : list TopicPartition := rotate (Z.to_nat (co_next_partition k)) (assigned k).
(** [next_partition_] is an index of the assignment. *)
Definition turn_ok (k : Consumer) : Prop := assigned k ≠ [] → 0 ≤ co_next_partition k < zlen (assigned k).

Lemma rotate_lookup {A} (l : list A) s (i : nat) : 0 ≤ s → (i < length l)%nat → l !! Z.to_nat ((s + Z.of_nat i) mod zlen l) = rotate (Z.to_nat s) l !! i.
Proof. intros Hs Hi. rewrite lookup_rotate_r by done. unfold rotate_nat_add, zlen. by rewrite Z2Nat.id. Qed.
Lemma rotate_rotate {A} (l : list A) s (t : nat) : 0 ≤ s → l ≠ [] → rotate (Z.to_nat ((s + Z.of_nat t) mod zlen l)) l = rotate t (rotate (Z.to_nat s) l).
Proof.
  intros Hs Hl. assert (Hz : 0 < zlen l) by (destruct l; [done|zlist]). apply list_eq_same_length with (length l); rewrite ?length_rotate; try done. intros i x y Hi.
  rewrite !lookup_rotate_r by (rewrite ?length_rotate; unfold zlen in *; try apply rotate_nat_add_lt; lia). rewrite length_rotate.
  unfold rotate_nat_add. fold (zlen l). pose proof (Z.mod_pos_bound (s + Z.of_nat t) (zlen l) Hz). pose proof (Z.mod_pos_bound (Z.of_nat t + Z.of_nat i) (zlen l) Hz).
  rewrite !Z2Nat.id by lia. rewrite Zplus_mod_idemp_l, Zplus_mod_idemp_r, Z.add_assoc. intros -> H'. congruence.
Qed.

Lemma next_offset_after_cons offset r records : ∃ x, last (r :: records) = Some x ∧ next_offset_after offset (r :: records) = i64 (ir_offset x + 1).
Proof. unfold next_offset_after. destruct (last (r :: records)) as [x|] eqn:E; [by exists x|]. by apply last_None in E. Qed.

(** How the loop of a poll ends, [i] partitions into the rotation. *)
Definition poll_ends (i : nat) (r : Result (list InboundRecord)) (k k1 k' : Consumer) : Prop :=
  match r with
  | Ok [] => i = length (assigned k) ∧ k' = set_next_partition ((co_next_partition k + 1) mod zlen (assigned k)) k1
  | Ok records => ∃ tp k2, rotation k !! i = Some tp ∧ FetchInto tp (position_of tp k1) k1 = (Ok records, k2) ∧
      k' = set_next_partition ((co_next_partition k + Z.of_nat i + 1) mod zlen (assigned k)) k2
  | Err e => ∃ tp, rotation k !! i = Some tp ∧ FetchInto tp (position_of tp k1) k1 = (Err e, k') ∧ e ≠ kOutOfRange
  end.
Lemma passed_snoc tps tp k k1 k2 : passed_over tps k k1 → passed_over [tp] k1 k2 → passed_over (tps ++ [tp]) k k2.
Proof. induction 1 as [k|tp' tps k k' k'' HF HP IH|tp' tps k k' k'' HF HP IH]; intros H; [done| |]; cbn; [eapply passed_empty|eapply passed_deleted]; eauto. Qed.
Lemma poll_loop_spec n i k k0 : assigned k0 ≠ [] → turn_ok k0 → (i + n)%nat = length (assigned k0) → passed_over (take i (rotation k0)) k0 k →
  let '(r, k') := poll_loop n (Z.of_nat i) k in ∃ j k1, passed_over (take j (rotation k0)) k0 k1 ∧ poll_ends j r k0 k1 k'.
Proof.
  intros Hne Ht. specialize (Ht Hne). revert i k. induction n as [|n IH]; intros i k Hi Hp; destruct (passed_over_spec _ _ _ Hp) as [(G1 & G2 & G3) _].
  - cbn [poll_loop]. unfold sbind, sget, smod, sret. exists i, k. split; [done|]. cbn [poll_ends]. unfold assigned. rewrite G2, G3. split; [|done]. unfold assigned in Hi. lia.
  - cbn [poll_loop]. unfold sbind at 1, sget. assert (HL : mb_assignment (co_member k) !! Z.to_nat ((co_next_partition k + Z.of_nat i) mod zlen (mb_assignment (co_member k))) = rotation k0 !! i)
      by (rewrite G2, G3; apply rotate_lookup; [lia|fold (assigned k0); lia]).
    rewrite HL. destruct (rotation k0 !! i) as [tp|] eqn:Et. 2:{ apply lookup_ge_None in Et. unfold rotation in Et. rewrite length_rotate in Et. lia. }
    assert (HT : take (S i) (rotation k0) = take i (rotation k0) ++ [tp]) by (by apply take_S_r). unfold sbind at 1, stry. destruct (FetchInto tp (position_of tp k) k) as [[records|e] k1] eqn:EF.
    + destruct records as [|r records].
      * specialize (IH (S i) k1 ltac:(lia)). rewrite Nat2Z.inj_succ, <- Z.add_1_r in IH. apply IH. rewrite HT. apply passed_snoc with k; [done|]. eapply passed_empty; [exact EF|constructor].
      * unfold sbind, smod, sret. exists i, k. split; [done|]. exists tp, k1. split; [done|]. split; [done|]. f_equal. pose proof (FetchInto_spec tp (position_of tp k) k) as HS. rewrite EF in HS. destruct HS as ((F1 & F2 & F3) & _). unfold assigned. by rewrite F3, G2, G3.
    + destruct (bool_decide_reflect (e = kOutOfRange)) as [->|He]; [|exists i, k; split; [done|]; by exists tp].
      pose proof (skip_ahead_spec tp k1) as HK. unfold sbind at 1. destruct (skip_ahead tp k1) as [r k2] eqn:EK. destruct HK as (-> & _).
      specialize (IH (S i) k2 ltac:(lia)). rewrite Nat2Z.inj_succ, <- Z.add_1_r in IH. apply IH. rewrite HT. apply passed_snoc with k; [done|]. eapply passed_deleted; [exact EF|]. rewrite EK. constructor.
Qed.

(** ** The turn is an index *)

Lemma turn_ok_same k k' : same_group k k' → turn_ok k → turn_ok k'.
Proof. intros (_ & G2 & G3). unfold turn_ok, assigned. by rewrite G2, G3. Qed.
Lemma with_context_turn {A} (m : CC A) : preserves turn_ok (with_context m).
Proof. intros k. apply turn_ok_same, with_context_frame. Qed.
Lemma Join_turn : preserves turn_ok Consumer_Join.
Proof.
  intros k Hk. unfold Consumer_Join, sbind, sget, smod, slift, sfail. destruct (bool_decide _); [done|]. destruct (bool_decide _); [done|]. set (m := group_call _ _ _). pose proof (with_context_turn m k Hk) as H1.
  destruct (with_context m k) as [[frame|e] k1]; [|done]. destruct (DecodeResponse _) as [response|e]; [|done]. set (k2 := set_next_partition 0 _).
  assert (H2 : turn_ok k2) by (intros H; cbn; unfold assigned in *; cbn in *; destruct (jgresp_assignment response); [done|zlist]).
  pose proof (with_context_turn now_millis k2 H2) as H3. destruct (with_context now_millis k2) as [[now|e] k3]; [|done]. cbn [snd] in H3. set (k4 := co_set_stats _ _). assert (H4 : turn_ok k4) by exact H3.
  set (m2 := resolve_positions _ _ _ _). pose proof (with_context_turn m2 k4 H4) as H5. by destruct (with_context m2 k4) as [[ps|e] k5].
Qed.
Lemma Heartbeat_turn : preserves turn_ok Consumer_Heartbeat.
Proof.
  intros k Hk. unfold Consumer_Heartbeat, sbind, sget, smod, sfail, sret. destruct (bool_decide _); [done|]. set (m := group_call _ _ _). pose proof (with_context_turn m k Hk) as H1.
  destruct (with_context m k) as [[frame|e] k1]; [|done]. destruct (_.1) as [header|]; [|done]. destruct (_.1) as [response|]; [|destruct (negb _); [by apply Join_turn|done]].
  pose proof (with_context_turn now_millis k1 H1) as H3. destruct (with_context now_millis k1) as [[now|e] k3]; [|done]. destruct (hbresp_rejoin_required response); [by apply Join_turn|]. by destruct (bool_decide _).
Qed.
Lemma poll_prepare_turn : preserves turn_ok poll_prepare.
Proof.
  intros k Hk. unfold poll_prepare, sbind, sget, sfail, sret, stry. set (m := if bool_decide _ then Consumer_Join else _). assert (H1 : turn_ok (m k).2) by (unfold m; destruct (bool_decide _); [by apply Join_turn|done]).
  destruct (m k) as [[[]|e] k1]; [|done]. pose proof (with_context_turn now_millis k1 H1) as H3. destruct (with_context now_millis k1) as [[now|e] k3]; [|done]. destruct (_ <=? _); [|done].
  pose proof (Heartbeat_turn k3 H3) as H4. destruct (Consumer_Heartbeat k3) as [[[]|e] k4]; [done|]. by destruct (negb _).
Qed.

(** ** Joining *)

(** Where a partition starts after a join. *)
Definition starts_at (config : ConsumerConfig) (held : list (TopicPartition * Z)) (tp : TopicPartition) (o : Z) : Prop :=
  om_find tp held = Some o ∨ (om_find tp held = None ∧ ∃ c c', starting_position config tp c = (Ok o, c')).
Lemma resolve_spec config held tps acc c m c' : resolve_positions config held tps acc c = (Ok m, c') →
  (∀ tp, tp ∉ tps → om_find tp m = om_find tp acc) ∧ ∀ tp, tp ∈ tps → ∃ o, om_find tp m = Some o ∧ starts_at config held tp o.
Proof.
  revert acc c. induction tps as [|tp tps IH]; intros acc c; cbn [resolve_positions]; [intros [= <- <-]; split; [done|]; intros tp H; by apply elem_of_nil in H|].
  intros H. apply sbind_inv_ok in H as (o & c1 & H1 & H2). destruct (IH _ _ H2) as [J1 J2]. assert (Ho : starts_at config held tp o).
  { unfold starts_at. destruct (om_find tp held) as [o'|] eqn:E; [injection H1 as -> ->; by left|right]. split; [done|eauto]. }
  split.
  - intros tp' Hn. rewrite J1 by set_solver. rewrite om_find_insert. rewrite decide_False by set_solver. done.
  - intros tp' Hin. destruct (decide (tp' ∈ tps)) as [|Hn]; [by apply J2|]. assert (tp' = tp) as -> by set_solver. exists o. rewrite J1, om_find_insert, decide_True by done. done.
Qed.

(** After a join the consumer has a position for exactly the partitions it was assigned:
    the one it already had where it had one, otherwise where the group left off or the
    configured end of the log.  Polling starts with the first of them. *)
Theorem consumer_join (k k' : Consumer) : Consumer_Join k = (Ok tt, k') →
  co_next_partition k' = 0 ∧
  (∀ tp, tp ∉ assigned k' → om_find tp (co_positions k') = None) ∧
  (∀ tp, tp ∈ assigned k' → ∃ o, om_find tp (co_positions k') = Some o ∧ starts_at (co_config k) (co_positions k) tp o).
Proof.
  unfold Consumer_Join, sbind at 1, sget at 1. destruct (bool_decide _); [done|]. destruct (bool_decide _); [done|]. intros H. apply sbind_inv_ok in H as (frame & k1 & H1 & H).
  set (m := group_call _ _ _) in H1. pose proof (with_context_frame m k) as [F1 F2]. rewrite H1 in F1, F2. cbn [snd] in F1, F2. apply sbind_inv_ok in H as (response & k2 & H2 & H). injection H2 as H2 <-.
  unfold sbind at 1, smod at 1, sbind at 1, smod at 1 in H. set (k3 := set_next_partition 0 _) in H. apply sbind_inv_ok in H as (now & k4 & H4 & H). pose proof (with_context_frame now_millis k3) as [F3 F4]. rewrite H4 in F3, F4. cbn [snd] in F3, F4.
  unfold sbind at 1, smod at 1, sbind at 1, smod at 1, sbind at 1, sget at 1 in H. set (k5 := co_set_stats _ _) in H. apply sbind_inv_ok in H as (ps & k6 & H6 & H). injection H as <-.
  set (m2 := resolve_positions _ _ _ _) in H6. pose proof (with_context_frame m2 k5) as [(G1 & G2 & G3) F6]. rewrite H6 in G1, G2, G3, F6. cbn [snd] in *.
  assert (Hm : ∃ c', m2 (co_context k5) = (Ok ps, c')) by (unfold with_context, szoom in H6; destruct (m2 (co_context k5)) as [x c']; injection H6 as -> _; eauto).
  destruct Hm as [c' Hm]. apply resolve_spec in Hm as [R1 R2]. assert (HP : co_positions k5 = co_positions k) by (etransitivity; [exact F4|exact F2]). rewrite HP in R2.
  assert (HA : assigned (set_positions ps k6) = mb_assignment (co_member k5)) by (unfold assigned; cbn; by rewrite G2). rewrite HA.
  split; [|split].
  - cbn. rewrite G3. destruct F3 as (_ & _ & F3). exact F3.
  - intros tp Hn. exact (R1 tp Hn).
  - exact R2.
Qed.

(** ** Before the fetches *)

(** A successful join keeps the positions of the partitions it may keep, and leaves one for
    every assigned partition and for no other. *)
Definition kept_positions (k k' : Consumer) : Prop :=
  (∀ tp, tp ∉ assigned k' → om_find tp (co_positions k') = None) ∧
  (∀ tp, tp ∈ assigned k' → is_Some (om_find tp (co_positions k'))) ∧
  (∀ tp o, tp ∈ assigned k' → om_find tp (co_positions k) = Some o → om_find tp (co_positions k') = Some o).
(** What [Poll] may do before it fetches: nothing to the group and the positions, but for
    successful joins. *)
Inductive prepared : Consumer → Consumer → Prop :=
  | prep_idle k k' : same_group k k' → co_positions k' = co_positions k → prepared k k'
  | prep_joined k k1 k2 k' : same_group k k1 → co_positions k1 = co_positions k → Consumer_Join k1 = (Ok tt, k2) → kept_positions k1 k2 → prepared k2 k' → prepared k k'.
Lemma same_group_trans k1 k2 k3 : same_group k1 k2 → same_group k2 k3 → same_group k1 k3.
Proof. intros (H1 & H2 & H3) (H4 & H5 & H6). unfold same_group. by rewrite H4, H5, H6. Qed.
Lemma prepared_after k k1 k' : same_group k k1 → co_positions k1 = co_positions k → prepared k1 k' → prepared k k'.
Proof.
  intros G P H. destruct H as [k1 k' G' P'|k1 k2 k3 k' G' P' HJ HK H].
  - apply prep_idle; [by eapply same_group_trans|congruence].
  - eapply prep_joined; [by eapply same_group_trans|congruence|exact HJ|done|done].
Qed.
Lemma prepared_trans k k1 k' : prepared k k1 → prepared k1 k' → prepared k k'.
Proof.
  induction 1 as [k k1 G P|k ka kb k1 G P HJ HK _ IH]; intros H; [by eapply prepared_after|]. eapply prep_joined; [exact G|exact P|exact HJ|done|by apply IH].
Qed.

Lemma starting_position_total config tp c : ∃ o, (starting_position config tp c).1 = Ok o.
Proof.
  unfold starting_position, sbind, stry, slift, sret. destruct (Consumer_CommittedOffset _ tp c) as [[o|e] c1]; [destruct (0 <=? o); [by exists o|]|];
    (destruct (ListOffset _ _ c1) as [x c2]; by eexists).
Qed.
Lemma resolve_total config held tps acc c : ∃ m, (resolve_positions config held tps acc c).1 = Ok m.
Proof.
  revert acc c. induction tps as [|tp tps IH]; intros acc c; cbn [resolve_positions]; [by eexists|]. unfold sbind. destruct (om_find tp held) as [o|]; [apply IH|].
  destruct (starting_position_total config tp c) as [o Ho]. destruct (starting_position config tp c) as [r c1]. cbn in Ho. subst r. apply IH.
Qed.
(** A join that fails has changed nothing. *)
Lemma Join_fails k e k' : Consumer_Join k = (Err e, k') → same_group k k' ∧ co_positions k' = co_positions k.
Proof.
  unfold Consumer_Join, sbind at 1, sget at 1. destruct (bool_decide _); [by intros [= _ <-]|]. destruct (bool_decide _); [by intros [= _ <-]|]. set (m := group_call _ _ _). pose proof (with_context_frame m k) as HF.
  unfold sbind at 1. destruct (with_context m k) as [[frame|e1] k1]; [|by intros [= _ <-]]. unfold sbind at 1, slift. destruct (DecodeResponse _) as [response|e1]; [|by intros [= _ <-]].
  unfold sbind, smod, sget. set (k2 := set_next_partition 0 _). destruct (with_context now_millis k2) as [[now|e1] k3] eqn:EN.
  2:{ exfalso. unfold with_context, szoom, now_millis, sbind, MonotonicNanos, sret in EN. by destruct (cc_clock (co_context k2)) as [|t [|t2 ts]]. }
  set (k4 := co_set_stats _ _). set (m2 := resolve_positions _ _ _ _). destruct (resolve_total (co_config k) (co_positions k4) (mb_assignment (co_member k4)) [] (co_context k4)) as [ps HR].
  fold m2 in HR. unfold with_context, szoom. destruct (m2 (co_context k4)) as [r c']. cbn in HR. by subst r.
Qed.
Lemma Join_prepares k r k' : Consumer_Join k = (r, k') → prepared k k'.
Proof.
  destruct r as [[]|e]; intros HJ; [|apply Join_fails in HJ as [H1 H2]; by apply prep_idle]. eapply (prep_joined k k k'); try done; [|by apply prep_idle].
  destruct (consumer_join k k' HJ) as (_ & H1 & H2). split; [done|]. split; intros tp.
  - intros Hin. destruct (H2 tp Hin) as (o & Ho & _). by exists o.
  - intros o Hin Ho. destruct (H2 tp Hin) as (o' & Ho' & [Hs|[Hs _]]); congruence.
Qed.
Lemma Heartbeat_prepares k r k' : Consumer_Heartbeat k = (r, k') → prepared k k'.
Proof.
  unfold Consumer_Heartbeat, sbind at 1, sget. destruct (bool_decide _); [intros [= _ <-]; by apply prep_idle|]. set (m := group_call _ _ _). pose proof (with_context_frame m k) as [H1 H2].
  unfold sbind at 1. destruct (with_context m k) as [[frame|e] k1]; cbn [snd] in *; [|intros [= _ <-]; by apply prep_idle].
  destruct (ResponseHeader_Decode _).1 as [header|]; [|intros [= _ <-]; by apply prep_idle].
  destruct (HeartbeatResponse_Decode _).1 as [response|]; [|destruct (negb _); [intros HJ; eapply prepared_after; [exact H1|exact H2|by eapply Join_prepares]|intros [= _ <-]; by apply prep_idle]].
  pose proof (with_context_frame now_millis k1) as [H3 H4]. unfold sbind at 1. destruct (with_context now_millis k1) as [[now|e] k2]; cbn [snd] in *.
  2:{ intros [= _ <-]. apply prep_idle; [by eapply same_group_trans|congruence]. }
  unfold sbind, smod. intros HE. apply (prepared_after k (set_last_heartbeat now k2)); [eapply same_group_trans; [exact H1|exact H3]|cbn; congruence|].
  destruct (hbresp_rejoin_required response); [by eapply Join_prepares|]. destruct (bool_decide _); injection HE as _ <-; by apply prep_idle.
Qed.
Lemma poll_prepare_prepares k r k' : poll_prepare k = (r, k') → prepared k k'.
Proof.
  unfold poll_prepare, sbind at 1, sget. set (m := if bool_decide _ then Consumer_Join else _). assert (H1 : ∀ r k', m k = (r, k') → prepared k k').
  { unfold m. destruct (bool_decide _); [apply Join_prepares|]. intros r1 k1 [= _ <-]. by apply prep_idle. }
  unfold sbind at 1. destruct (m k) as [[[]|e] k1]; [|intros [= _ <-]; by eapply H1]. specialize (H1 _ _ eq_refl). intros HE. apply (prepared_trans k k1); [done|]. revert HE.
  pose proof (with_context_frame now_millis k1) as [H3 H4]. unfold sbind at 1. destruct (with_context now_millis k1) as [[now|e] k2]; cbn [snd] in *; [|intros [= _ <-]; by apply prep_idle].
  intros HE. apply (prepared_after k1 k2); [done|done|]. revert HE. unfold sbind at 1. destruct (_ <=? _); [|intros [= _ <-]; by apply prep_idle]. unfold sbind, stry.
  destruct (Consumer_Heartbeat k2) as [[[]|e] k3] eqn:EH; [intros [= _ <-]; by eapply Heartbeat_prepares|]. destruct (negb _); intros [= _ <-]; by eapply Heartbeat_prepares.
Qed.

(** C33. A poll first joins or re-joins where it must; nothing else before the fetches moves a
    position or the turn, and a join keeps the positions of the partitions it keeps.  It then
    tries the assigned partitions in the order of the rotation.  The first one with records is
    served: it was fetched from its position, its position moves right after the last record
    returned, a commit would commit that position, and the partition goes to the end of the
    rotation, so none with records waits more than one round.  The partitions tried before it
    had nothing or were out of range; a position other than the served one moves only when its
    own fetch in this poll came out as out of range, and then to the offset the broker named as
    the partition's earliest.  (Out of range is what the broker answers when retention has
    deleted the position, and also what a response whose last record is cut short decodes
    to.)  The turn stays an index of the assignment. *)
Theorem consumer_poll (k : Consumer) : turn_ok k →
  let '(r, k') := Poll k in turn_ok k' ∧
  ∀ k0, poll_prepare k = (Ok tt, k0) → prepared k k0 ∧ (assigned k0 ≠ [] →
  match r with
  | Ok [] => ∀ tp, position_of tp k' = position_of tp k0 ∨ restarted (rotation k0) k0 tp (position_of tp k')
  | Ok records => ∃ i tp ka kb, rotation k0 !! i = Some tp ∧ rotation k' = rotate (S i) (rotation k0) ∧
      passed_over (take i (rotation k0)) k0 ka ∧ FetchInto tp (position_of tp ka) ka = (Ok records, kb) ∧
      (∃ r, last records = Some r ∧ position_of tp k' = i64 (ir_offset r + 1)) ∧ co_last_fetched k' = tp ∧ co_last_fetch_next_offset k' = position_of tp k' ∧
      ∀ tp', tp' ≠ tp → position_of tp' k' = position_of tp' k0 ∨ restarted (take i (rotation k0)) k0 tp' (position_of tp' k')
  | Err e => e ≠ kOutOfRange ∧ ∃ i, ∀ tp, position_of tp k' = position_of tp k0 ∨ restarted (take i (rotation k0)) k0 tp (position_of tp k')
  end).
Proof.
  intros Hk. unfold Poll, sbind at 1. pose proof (poll_prepare_turn k Hk) as H0. destruct (poll_prepare k) as [[[]|e] k0] eqn:EP; cbn [snd] in H0; [|by split].
  apply poll_prepare_prepares in EP. unfold sbind, sget. fold (assigned k0). destruct (assigned k0) as [|tp0 tps] eqn:EA; [split; [done|]; intros k1 [= <-]; split; [done|]; by rewrite EA|].
  assert (Hne : assigned k0 ≠ []) by by rewrite EA. rewrite <- EA. clear EA tp0 tps. pose proof (poll_loop_spec (length (assigned k0)) 0 k0 k0 Hne H0 eq_refl (passed_nil k0)) as HL.
  change (Z.of_nat 0) with 0 in HL. destruct (poll_loop _ 0 k0) as [r k']. destruct HL as (i & k1 & HP & HE). destruct (passed_over_spec _ _ _ HP) as [HG HQ]. pose proof HG as (G1 & G2 & G3). specialize (H0 Hne).
  assert (HT : ∀ n k2, same_group k1 k2 → turn_ok (set_next_partition (n mod zlen (assigned k0)) k2)).
  { intros n k2 (J1 & J2 & J3) _. cbn. unfold assigned. cbn. rewrite J2, G2. apply Z.mod_pos_bound. unfold assigned in H0. lia. }
  destruct r as [[|r records]|e]; cbn [poll_ends] in HE.
  - destruct HE as [-> ->]. split; [by apply HT|]. intros _ [= <-]. split; [done|]. intros _ tp. assert (HR : take (length (assigned k0)) (rotation k0) = rotation k0) by (apply take_ge; unfold rotation; rewrite length_rotate; lia). rewrite HR in HQ. exact (HQ tp).
  - destruct HE as (tp & k2 & E1 & E2 & ->). pose proof (FetchInto_spec tp (position_of tp k1) k1) as HS. rewrite E2 in HS. destruct HS as (J & S1 & S2 & S3). split; [by apply HT|].
    intros _ [= <-]. split; [done|]. intros _. exists i, tp, k1, k2. split; [done|]. split.
    { unfold rotation. cbn. destruct J as (_ & J2 & _). unfold assigned at 2. cbn. rewrite J2, G2. fold (assigned k0). rewrite <- Z.add_assoc. replace (Z.of_nat i + 1) with (Z.of_nat (S i)) by lia. apply rotate_rotate; [lia|done]. }
    split; [done|]. split; [done|]. assert (HPos : ∀ tp', position_of tp' (set_next_partition ((co_next_partition k0 + Z.of_nat i + 1) mod zlen (assigned k0)) k2) = if decide (tp' = tp) then next_offset_after (position_of tp k1) (r :: records) else position_of tp' k1)
      by (intros tp'; exact (position_insert _ tp' _ k2 _ S1)).
    rewrite HPos, decide_True by done. split; [by apply next_offset_after_cons|]. split; [exact S2|]. split; [exact S3|]. intros tp' Hne'. rewrite HPos, decide_False by done. exact (HQ tp').
  - destruct HE as (tp & E1 & E2 & E3). pose proof (FetchInto_spec tp (position_of tp k1) k1) as HS. rewrite E2 in HS. destruct HS as (J & S1). split; [exact (turn_ok_same _ _ J (turn_ok_same _ _ HG (λ _, H0)))|].
    intros _ [= <-]. split; [done|]. intros _. split; [done|]. exists i. intros tp'. unfold position_of at 1 3. rewrite S1. exact (HQ tp').
Qed.

(** ** Examples *)

Definition ok_reply : ResponseHeader := mkResponseHeader kOk [].
Definition replies (op : OpCode) (id : Z) (payload : bytes) : RecvAnswer := Arrived (frame_bytes (mkFrameHeader kProtocolVersion op id 0 1 0) payload).
Definition t0 : TopicPartition := mkTP (str "t") 0.
Definition t1 : TopicPartition := mkTP (str "t") 1.
Definition leads (i : Z) : PartitionMetadata := mkPartitionMetadata i 1 0 [1] [1].
Definition stored (offset : Z) : bytes := record_bytes (record_of offset 5 0 true [] [9]).
Definition says_cluster (id : Z) := replies kMetadata id (encode (mkMetadataResponse ok_reply 1 [mkBrokerEndpoint 1 (str "127.0.0.1") 9092] [mkTopicMetadata (str "t") [leads 0; leads 1]])).
Definition says_joined (id generation : Z) (tps : list TopicPartition) := replies kJoinGroup id (encode (mkJoinGroupResponse ok_reply generation (str "m") (str "m") tps)).
Definition says_committed (id offset : Z) := replies kFetchOffset id (encode (mkFetchOffsetResponse ok_reply offset [])).
Definition says_offset (id offset : Z) := replies kListOffsets id (encode (mkListOffsetsResponse ok_reply offset 0)).
Definition says_records (id : Z) (records : bytes) := replies kFetch id (encode (mkFetchResponse ok_reply 9 0 0 1 records)).
Definition says_left (id : Z) := replies kLeaveGroup id (encode (mkLeaveGroupResponse ok_reply)).
Definition says_stored (id : Z) := replies kCommitOffset id (encode (mkCommitOffsetResponse ok_reply)).
Definition member_of (answers : list RecvAnswer) : Consumer :=
  newConsumer (newClientContext (mkClientConfig [] 30000 3 4096) [mkOpening (Ok (mkSocket 5 answers (replicate 12 (Accepts 5000)) [] [])) (Ok tt) (replicate 24 (Ok tt))] [1])
    (mkConsumerConfig 4096 1 100 kReadReplicated (str "g") [str "t"] 10000 kRange 3000 true).

(** Two partitions, the first empty: the poll joins, passes over it and serves the second. *)
Definition joining : Consumer := member_of [says_cluster 1; says_joined 2 1 [t0; t1]; says_committed 3 (-1); says_offset 4 0; says_committed 5 3; says_records 6 []; says_records 7 (stored 3)].
Local Notation polled := (Poll joining).
Lemma joining_run : match polled.1 with Ok [r] => ir_offset r = 3 | _ => False end ∧ position_of t0 polled.2 = 0 ∧ position_of t1 polled.2 = 4 ∧ rotation polled.2 = [t0; t1].
Proof. vm_compute. by split_and!. Qed.
Lemma joining_prepared : (poll_prepare joining).1 = Ok tt ∧ assigned (poll_prepare joining).2 = [t0; t1] ∧ position_of t1 (poll_prepare joining).2 = 3.
Proof. vm_compute. by split_and!. Qed.
Lemma two_nonempty {A} (l : list A) x y : l = [x; y] → l ≠ [].
Proof. by intros ->. Qed.
Lemma joining_turn : turn_ok joining.
Proof. intros H. by destruct H. Qed.
Lemma consumer_poll_witness : position_of t1 polled.2 = 4 ∧ match polled.1 with Ok [r] => ∃ i tp, rotation (poll_prepare joining).2 !! i = Some tp ∧ co_last_fetched polled.2 = tp ∧ rotation polled.2 = rotate (S i) (rotation (poll_prepare joining).2) | _ => False end.
Proof.
  destruct joining_run as (H1 & _ & H2 & _). split; [exact H2|]. destruct joining_prepared as (P1 & P2 & _). pose proof (consumer_poll joining joining_turn) as T.
  pose proof (two_nonempty _ _ _ P2) as HN.
  clear H2. destruct polled as [[[|r [|r2 rs]]|e] k']; [destruct H1| |destruct H1|destruct H1]. destruct T as [_ T]. destruct (poll_prepare joining) as [res k0]. cbn [fst snd] in *. subst res.
  destruct (proj2 (T k0 eq_refl) HN) as (i & tp & ka & kb & T1 & T2 & _ & _ & _ & T3 & _). exists i, tp. exact (conj T1 (conj T3 T2)).
Defined.

Local Notation joined := (Consumer_Join joining).
Lemma joined_run : joined.1 = Ok tt ∧ assigned joined.2 = [t0; t1].
Proof. vm_compute. by split. Qed.
Lemma consumer_join_witness : co_next_partition joined.2 = 0 ∧ ∃ o, om_find t1 (co_positions joined.2) = Some o ∧ starts_at (co_config joining) (co_positions joining) t1 o.
Proof.
  destruct joined_run as [H1 H2]. pose proof (consumer_join joining joined.2) as T. destruct joined as [r k']. cbn [fst snd] in *. subst r. destruct (T eq_refl) as (T1 & _ & T2). split; [exact T1|].
  apply T2. rewrite H2. right. left.
Defined.

(** Leaving the group forgets the membership but not what was fetched last: a commit after it
    goes out without a member id, which the coordinator takes for a commit by hand and stores
    whoever owns the partition by then. *)
Definition ran {A} (m : SR Consumer A) (k : Consumer) : Consumer := (m k).2.
Definition leaving : Consumer := member_of [says_cluster 1; says_joined 2 1 [t0]; says_committed 3 (-1); says_offset 4 0; says_records 5 (stored 0); says_left 6; says_stored 7; says_joined 8 5 [t0]; says_committed 9 100].
Local Notation left_group := (ran Consumer_Leave (ran Poll leaving)).
Definition late_commit : CommitOffsetRequest := mkCommitOffsetRequest (str "g") [] (-1) (str "t") 0 1 [].
Definition on_wire (k : Consumer) : bytes := concat (map (λ p, so_sent (sc_socket p.2)) (cc_connections (co_context k))).
Lemma commit_after_leave :
  on_wire (ran Consumer_Commit left_group) = on_wire left_group ++ frame_bytes (mkFrameHeader kProtocolVersion kCommitOffset 7 0 0 0) (encode late_commit) ∧
  ∀ c, commit_check late_commit c = None.
Proof. split; [vm_compute; reflexivity|]. done. Qed.
(** A member that comes back keeps its own position from before it left: the group's
    committed offset, which has moved on to 100, is not asked for. *)
Lemma rejoin_keeps_position : let k := ran Consumer_Join (ran Consumer_Commit left_group) in
  assigned k = [t0] ∧ position_of t0 k = 1 ∧ cc_request_id (co_context k) = 8.
Proof. vm_compute. by split_and!. Qed.
(** A response whose last record is cut short decodes to the same error code as a position
    that retention deleted, and the poll goes back to the earliest offset without an error. *)
Definition cut_short : Consumer :=
  member_of [says_cluster 1; says_joined 2 1 [t0]; says_committed 3 7; says_records 4 (ztake 30 (stored 7 ++ stored 8)); says_offset 5 0].
Lemma truncated_response_rewinds : position_of t0 (poll_prepare cut_short).2 = 7 ∧ (Poll cut_short).1 = Ok [] ∧ position_of t0 (Poll cut_short).2 = 0.
Proof. vm_compute. by split_and!. Qed.
