(* ===== verification/LoopTasks.v ===== *)
(** * LoopTasks: handing tasks to an event loop

    Models the part of src/net/event_loop.cc that other threads take part in: [PostTask],
    [Wake] and [Stop] on their side, the loop of [Run] with [DrainWakeup] and [DrainTasks] on
    the loop's, one step per access to shared memory and per system call, interleaved in any
    order.  The task queue is the queue of [MpmcQueue] itself: [TryPush] and [TryPop] are run
    step by step, poster [i] as thread [i] and the loop as the last thread.  A task that posts
    is one more poster, whose steps come between two of the loop's.  The wake-up descriptor is
    the counter of an eventfd.  What the loop does between [DrainTasks] and the next wait
    (timers, closing) does not touch the shared state. *)
From S2P Require Import Prelude MpmcQueue MpmcTheorems Mailbox.

Definition Task : Set := Z.
(** Where a posting thread is.  [Pushing] is inside [tasks_.TryPush]; [Exchanging] and [Writing]
    are the two steps of [Wake]; a call of [Stop] goes through them as well. *)
Inductive PosterPc : Set := Posted (ok : bool) | Checking (t : Task) | Pushing | Stopping | Exchanging | Writing.
#[global] Instance PosterPc_eq_dec : EqDecision PosterPc.
Proof. unfold Task. solve_decision. Defined.
(** Where the loop is. *)
Inductive LoopPc : Set := AtTop | Waiting | Reading | Clearing | Draining (executed : Z) | FinalDrain (executed : Z) | Ended.

Record LoopState := mkLoopState {
  lp_tasks : System Task; lp_wake_pending : bool; lp_counter : Z; lp_stopping : bool; lp_rejected : Z;
  lp_loop : LoopPc; lp_posters : list PosterPc }.
Definition newLoop (q : MpmcQueue Task) (posters : list PosterPc) : LoopState :=
  mkLoopState (started q (S (length posters))) false 0 false 0 AtTop posters.
Definition loop_thread (s : LoopState) : nat := length (lp_posters s).

Definition set_poster (i : nat) (pc : PosterPc) (s : LoopState) : LoopState :=
  mkLoopState (lp_tasks s) (lp_wake_pending s) (lp_counter s) (lp_stopping s) (lp_rejected s) (lp_loop s) (<[i := pc]> (lp_posters s)).
Definition set_loop (pc : LoopPc) (s : LoopState) : LoopState :=
  mkLoopState (lp_tasks s) (lp_wake_pending s) (lp_counter s) (lp_stopping s) (lp_rejected s) pc (lp_posters s).
Definition set_wake (pending : bool) (counter : Z) (s : LoopState) : LoopState :=
  mkLoopState (lp_tasks s) pending counter (lp_stopping s) (lp_rejected s) (lp_loop s) (lp_posters s).
Definition set_stopping (s : LoopState) : LoopState :=
  mkLoopState (lp_tasks s) (lp_wake_pending s) (lp_counter s) true (lp_rejected s) (lp_loop s) (lp_posters s).
Definition set_tasks (q : System Task) (s : LoopState) : LoopState :=
  mkLoopState q (lp_wake_pending s) (lp_counter s) (lp_stopping s) (lp_rejected s) (lp_loop s) (lp_posters s).
Definition reject (s : LoopState) : LoopState :=
  mkLoopState (lp_tasks s) (lp_wake_pending s) (lp_counter s) (lp_stopping s) (lp_rejected s + 1) (lp_loop s) (lp_posters s).

(** One step of a poster: [PostTask], then [Wake]; or [Stop], then [Wake]. *)
Definition poster_step (i : nat) (spurious : bool) (s : LoopState) : LoopState :=
  match lp_posters s !! i with
  | Some (Checking t) =>
      if lp_stopping s then set_poster i (Posted false) s
      else set_poster i Pushing (set_tasks (sys_step i (BeginPush t) (lp_tasks s)) s)
  | Some Pushing =>
      let '(q, answer) := push_move i spurious (lp_tasks s) in
      match answer with
      | PushGoesOn => set_tasks q s
      | Full => set_poster i (Posted false) (reject (set_tasks q s))
      | Accepted => set_poster i Exchanging (set_tasks q s)
      end
  | Some Stopping => if lp_stopping s then set_poster i (Posted true) s else set_poster i Exchanging (set_stopping s)
  | Some Exchanging =>
      if lp_wake_pending s then set_poster i (Posted true) s else set_poster i Writing (set_wake true (lp_counter s) s)
  | Some Writing => set_poster i (Posted true) (set_wake (lp_wake_pending s) (lp_counter s + 1) s)
  | _ => s
  end.
(** One step of [DrainTasks] after [n] tasks; the queue's [TryPop] begins if the limit allows,
    a task that was popped is run. *)
Definition DrainTasks_step (n : Z) (spurious : bool) (running : Z → LoopPc) (after : LoopPc) (s : LoopState) : LoopState :=
  if match sys_ops (lp_tasks s) !! loop_thread s with Some Idle => negb (n <? Mpmc_Capacity (sys_queue (lp_tasks s))) | _ => false end then set_loop after s
  else
    let '(q, answer) := pop_move (loop_thread s) spurious (lp_tasks s) in
    match answer with
    | PopGoesOn => set_tasks q s
    | Got => set_loop (running (n + 1)) (set_tasks q s)
    | Empty => set_loop after (set_tasks q s)
    end.
(** One step of [Run]; [other] lets a wait end for another reason than the wake-up descriptor:
    its time is over, or other descriptors are ready. *)
Definition loop_step (other spurious : bool) (s : LoopState) : LoopState :=
  match lp_loop s with
  | AtTop => set_loop (if lp_stopping s then FinalDrain 0 else Waiting) s
  | Waiting => if other then set_loop (Draining 0) s else if 0 <? lp_counter s then set_loop Reading s else s
  | Reading => set_loop Clearing (set_wake (lp_wake_pending s) 0 s)
  | Clearing => set_loop (Draining 0) (set_wake false (lp_counter s) s)
  | Draining n => DrainTasks_step n spurious Draining AtTop s
  | FinalDrain n => DrainTasks_step n spurious FinalDrain Ended s
  | Ended => s
  end.
Inductive Move : Set := MPoster (i : nat) (spurious : bool) | MLoop (other spurious : bool).
Definition move (m : Move) (s : LoopState) : LoopState := match m with MPoster i b => poster_step i b s | MLoop o b => loop_step o b s end.
Definition moves (ms : list Move) (s : LoopState) : LoopState := fold_left (λ s m, move m s) ms s.

(** The tasks that were given a ticket, in the order of the tickets, and those that ran. *)
Definition lp_pushed (s : LoopState) : list Task := sys_pushed (lp_tasks s).
Definition lp_executed (s : LoopState) : list Task := taken (lp_tasks s).
(** A poster that has taken a ticket and not published it, or not finished its wake-up. *)
Definition claiming (s : LoopState) : Prop := ∃ i, mid_push (loop_thread s) (lp_tasks s) i.
Definition waking (s : LoopState) : Prop := claiming s ∨ Exchanging ∈ lp_posters s ∨ Writing ∈ lp_posters s.
Definition starting (pc : PosterPc) : Prop := match pc with Checking _ | Stopping | Posted _ => True | _ => False end.

(** ** Invariant *)

Notation enq s := (enqueue_pos (sys_queue (lp_tasks s))).
Notation ran s := (returned (lp_tasks s)).
(** Somebody has woken the loop or is going to. *)
Definition to_be_woken (s : LoopState) : Prop := lp_wake_pending s = true ∨ claiming s ∨ Exchanging ∈ lp_posters s.

Section Tasks.
Context (k : Z) (Hk : 1 ≤ k ≤ 60).
Notation cap := (2 ^ k).

Record loop_inv (s : LoopState) : Prop := {
  li_mail : mail_inv k (loop_thread s) (lp_tasks s);
  li_threads : length (sys_ops (lp_tasks s)) = S (loop_thread s);
  (* a poster is inside the queue exactly when it is pushing *)
  li_poster i pc : lp_posters s !! i = Some pc → ∃ op, sys_ops (lp_tasks s) !! i = Some op ∧ if decide (pc = Pushing) then is_push op = true else op = Idle;
  li_loop : match lp_loop s with Draining _ | FinalDrain _ => True | _ => sys_ops (lp_tasks s) !! loop_thread s = Some Idle end;
  li_counter : 0 ≤ lp_counter s;
  (* a pending wake-up is in the descriptor or about to be *)
  li_pending : lp_wake_pending s = true → lp_loop s ≠ Clearing → 0 < lp_counter s ∨ Writing ∈ lp_posters s;
  (* a task the loop may sleep on has a wake-up pending or about to be *)
  li_asleep : match lp_loop s with
    | AtTop | Waiting => ran s < enq s → to_be_woken s
    | Draining n => ∃ seen, (seen < enq s → to_be_woken s) ∧ seen ≤ ran s + cap - n
    | _ => True
    end }.

Lemma li_idle s : loop_inv s → sys_ops (lp_tasks s) !! loop_thread s = Some Idle → dequeue_pos (sys_queue (lp_tasks s)) = ran s.
Proof. intros Hi Ho. destruct (ml_consumer _ _ _ (li_mail _ Hi)) as (op & Ho' & Hp). rewrite Ho in Ho'. by injection Ho' as <-. Qed.
Lemma li_room s : loop_inv s → sys_ops (lp_tasks s) !! loop_thread s = Some Idle → ran s ≤ enq s ≤ ran s + cap.
Proof. intros Hi Ho. rewrite <- (li_idle s Hi Ho). pose proof (mi_pos _ _ (ml_queue _ _ _ (li_mail _ Hi))). pose proof (mi_room _ _ (ml_queue _ _ _ (li_mail _ Hi))). lia. Qed.
Lemma li_capacity s : loop_inv s → Mpmc_Capacity (sys_queue (lp_tasks s)) = cap.
Proof. intros Hi. unfold Mpmc_Capacity. rewrite (mi_mask _ _ (ml_queue _ _ _ (li_mail _ Hi))). pose proof (cap_bounds k Hk). rewrite uwrap_small; unfold unsigned; lia. Qed.

Lemma poster_set i pc (l : list PosterPc) x old : l !! i = Some old → x ≠ old → x ∈ l → x ∈ <[i := pc]> l.
Proof.
  intros Hi Hx Hin. apply list_elem_of_lookup in Hin as [j Hj]. apply list_elem_of_lookup. exists j. rewrite list_lookup_insert_ne; [done|]. intros ->. congruence.
Qed.
Lemma poster_here i pc (l : list PosterPc) old : l !! i = Some old → pc ∈ <[i := pc]> l.
Proof. intros Hi. apply list_elem_of_lookup. exists i. apply list_lookup_insert_eq. by eapply lookup_lt_Some. Qed.

(** A step of poster [i], from what it does to the queue, to the flags and to its own place. *)
Lemma poster_inv s s' i pc pc' : loop_inv s → lp_posters s !! i = Some pc → lp_posters s' = <[i := pc']> (lp_posters s) → lp_loop s' = lp_loop s →
  mail_inv k (loop_thread s) (lp_tasks s') → length (sys_ops (lp_tasks s')) = length (sys_ops (lp_tasks s)) → (∀ j, j ≠ i → sys_ops (lp_tasks s') !! j = sys_ops (lp_tasks s) !! j) →
  (∃ op, sys_ops (lp_tasks s') !! i = Some op ∧ if decide (pc' = Pushing) then is_push op = true else op = Idle) →
  0 ≤ lp_counter s' → (lp_wake_pending s' = true → lp_loop s ≠ Clearing → 0 < lp_counter s' ∨ Writing ∈ lp_posters s') →
  ran s' = ran s → enq s ≤ enq s' → (enq s < enq s' ∨ to_be_woken s → to_be_woken s') → loop_inv s'.
Proof.
  intros [I1 I2 I3 I4 I5 I6 I7] Ei Ep El Hm HL Hops Hop Hc Hp Hr He Hw. assert (HT : loop_thread s' = loop_thread s) by (unfold loop_thread; rewrite Ep; apply length_insert).
  assert (Hne : loop_thread s ≠ i) by (apply lookup_lt_Some in Ei; unfold loop_thread; lia).
  constructor; rewrite ?HT, ?El; try done; [by rewrite HL| | |].
  - intros j q. rewrite Ep. intros [(-> & <- & _)|[Hj Hq]]%list_lookup_insert_Some; [done|]. rewrite Hops by done. by apply I3.
  - rewrite Hops by done. done.
  - destruct (lp_loop s); try done; rewrite ?Hr; try (intros H; apply Hw; destruct (decide (enq s < enq s')); [by left|right; apply I7; lia]).
    destruct I7 as (seen & H1 & H2). exists seen. split; [|lia]. intros H. apply Hw. destruct (decide (enq s < enq s')); [by left|right; apply H1; lia].
Qed.
(** What a poster leaves alone. *)
Lemma claiming_kept s s' i : loop_thread s' = loop_thread s → (∀ j, j ≠ i → sys_ops (lp_tasks s') !! j = sys_ops (lp_tasks s) !! j) → claiming s → claiming s' ∨ mid_push (loop_thread s) (lp_tasks s) i.
Proof. intros HT Ho (j & Hj). destruct (decide (j = i)) as [->|Hne]; [by right|]. left. exists j. rewrite HT. by eapply mid_push_other. Qed.
Lemma idle_not_claiming c (q : System Task) i : sys_ops q !! i = Some Idle → ¬ mid_push c q i.
Proof. intros H (t & _ & op & Ho & Ht). rewrite H in Ho. by injection Ho as <-. Qed.

Lemma poster_step_inv i b s : loop_inv s → enq s < 2 ^ 62 → loop_inv (poster_step i b s).
Proof.
  intros Hi He. pose proof Hi as [I1 I2 I3 I4 I5 I6 I7]. unfold poster_step. destruct (lp_posters s !! i) as [pc|] eqn:E; [|done]. destruct (I3 i pc E) as (op & Ho & Hop).
  assert (Hne : i ≠ loop_thread s) by (apply lookup_lt_Some in E; unfold loop_thread; lia).
  assert (K : ∀ x pc', x ≠ pc → x ∈ lp_posters s → x ∈ <[i := pc']> (lp_posters s)) by (intros x pc' Hx; by eapply poster_set).
  assert (H : ∀ pc', pc' ∈ <[i := pc']> (lp_posters s)) by (intros; by eapply poster_here).
  (* steps that do not touch the queue *)
  assert (Q : ∀ s' pc', lp_tasks s' = lp_tasks s → lp_loop s' = lp_loop s → lp_posters s' = <[i := pc']> (lp_posters s) → pc ≠ Pushing → pc' ≠ Pushing → 0 ≤ lp_counter s' →
    (lp_wake_pending s' = true → lp_loop s ≠ Clearing → 0 < lp_counter s' ∨ Writing ∈ lp_posters s') →
    (lp_wake_pending s = true ∨ Exchanging ∈ lp_posters s → lp_wake_pending s' = true ∨ Exchanging ∈ lp_posters s') → loop_inv s').
  { intros s' pc' Et El Ep N1 N2 Hc Hp Hw. rewrite decide_False in Hop by done. subst op. assert (HT : loop_thread s' = loop_thread s) by (unfold loop_thread; rewrite Ep; apply length_insert).
    apply (poster_inv s s' i pc pc'); try done; rewrite ?Et; try done; [|intros [?|[Hx|[Hx|Hx]]]; [lia| | |]].
    - exists Idle. by rewrite decide_False.
    - destruct (Hw (or_introl Hx)); [by left|by right; right].
    - right; left. destruct Hx as (j & Hj). exists j. by rewrite HT, Et.
    - destruct (Hw (or_intror Hx)); [by left|by right; right]. }
  (* steps of TryPush *)
  destruct pc as [ok|t| | | |]; [done| | | | |].
  - destruct (lp_stopping s).
    + apply (Q _ (Posted false)); try done; cbn; [intros H1 H2; destruct (I6 H1 H2); auto|intros [?|?]; auto].
    + rewrite decide_False in Hop by done. subst op. destruct (begin_push_spec k Hk (loop_thread s) (lp_tasks s) i t I1 Hne He Ho) as (B1 & B2 & B3 & B4 & B5 & B6 & B7).
      apply (poster_inv s _ i (Checking t) Pushing); try done; cbn [lp_tasks lp_posters lp_counter lp_wake_pending set_poster set_tasks].
      * by eexists.
      * intros H1 H2. destruct (I6 H1 H2); auto.
      * unfold returned. by rewrite B2.
      * by rewrite B3.
      * rewrite B3. intros [?|[Hx|[Hx|Hx]]]; [lia|by left| |right; right; cbn; auto]. right; left. destruct (claiming_kept s (set_poster i Pushing (set_tasks (sys_step i (BeginPush t) (lp_tasks s)) s)) i) as [|Hm]; try done; [apply length_insert|]. by apply idle_not_claiming in Hm.
  - rewrite decide_True in Hop by done. pose proof (push_move_spec k Hk (loop_thread s) (lp_tasks s) i b op I1 Hne He Ho Hop) as HP. destruct (push_move i b (lp_tasks s)) as [q a]. destruct HP as (P1 & P2 & P3 & P4 & P5 & P6 & P7 & P8 & P9).
    assert (W : ∀ s', lp_tasks s' = q → loop_thread s' = loop_thread s → lp_wake_pending s' = lp_wake_pending s → (a = Accepted → Exchanging ∈ lp_posters s') → (Exchanging ∈ lp_posters s → Exchanging ∈ lp_posters s') → enq s < enqueue_pos (sys_queue q) ∨ to_be_woken s → to_be_woken s').
    { intros s' Et HT Ew Ha Hx [Hl|[Hl|[Hl|Hl]]].
      - right; left. exists i. rewrite HT, Et. by apply P7.
      - left. by rewrite Ew.
      - destruct (claiming_kept s s' i HT) as [|Hm]; [by rewrite Et|done|right; by left|]. destruct (P8 Hm) as [Hm'|Hm']; [right; left; exists i; by rewrite HT, Et|right; right; by apply Ha].
      - right; right. by apply Hx. }
    destruct a; cbn match in P9.
    + apply (poster_inv s _ i Pushing Pushing); try done; cbn [lp_tasks lp_posters lp_counter lp_wake_pending set_poster set_tasks]; [symmetry; by apply list_insert_id|by apply W].
    + apply (poster_inv s _ i Pushing Exchanging); try done; cbn [lp_tasks lp_posters lp_counter lp_wake_pending set_poster set_tasks]; [by exists Idle|intros H1 H2; destruct (I6 H1 H2); auto|]. apply W; try done; cbn; auto; apply length_insert.
    + apply (poster_inv s _ i Pushing (Posted false)); try done; cbn [lp_tasks lp_posters lp_counter lp_wake_pending set_poster set_tasks reject]; [by exists Idle|intros H1 H2; destruct (I6 H1 H2); auto|]. apply W; try done; cbn; auto; apply length_insert.
  - destruct (lp_stopping s); [apply (Q _ (Posted true))|apply (Q _ Exchanging)]; try done; cbn; try (intros H1 H2; destruct (I6 H1 H2); by auto); intros [?|?]; auto.
  - destruct (lp_wake_pending s) eqn:EW; [apply (Q _ (Posted true))|apply (Q _ Writing)]; try done; cbn; auto; intros H1 H2; destruct (I6 eq_refl H2); auto.
  - apply (Q _ (Posted true)); try done; cbn; [lia|left; lia|intros [?|?]; auto].
Qed.

(** A step of the loop, from what it does to the queue. *)
Lemma loop_inv_intro s s' : loop_inv s → lp_posters s' = lp_posters s → mail_inv k (loop_thread s) (lp_tasks s') → length (sys_ops (lp_tasks s')) = length (sys_ops (lp_tasks s)) →
  (∀ j, j ≠ loop_thread s → sys_ops (lp_tasks s') !! j = sys_ops (lp_tasks s) !! j) →
  match lp_loop s' with Draining _ | FinalDrain _ => True | _ => sys_ops (lp_tasks s') !! loop_thread s = Some Idle end →
  0 ≤ lp_counter s' → (lp_wake_pending s' = true → lp_loop s' ≠ Clearing → 0 < lp_counter s' ∨ Writing ∈ lp_posters s) →
  match lp_loop s' with AtTop | Waiting => ran s' < enq s' → to_be_woken s' | Draining n => ∃ seen, (seen < enq s' → to_be_woken s') ∧ seen ≤ ran s' + cap - n | _ => True end → loop_inv s'.
Proof.
  intros [I1 I2 I3 I4 I5 I6 I7] Ep Hm HL Hops Hl Hc Hp Ha. assert (HT : loop_thread s' = loop_thread s) by (unfold loop_thread; by rewrite Ep).
  constructor; rewrite ?HT, ?Ep; try done; [by rewrite HL|]. intros i pc Hpc. rewrite Hops; [by apply I3|]. apply lookup_lt_Some in Hpc. unfold loop_thread. lia.
Qed.
Lemma to_be_woken_kept s s' : lp_posters s' = lp_posters s → lp_wake_pending s' = lp_wake_pending s → (∀ j, j ≠ loop_thread s → sys_ops (lp_tasks s') !! j = sys_ops (lp_tasks s) !! j) → to_be_woken s → to_be_woken s'.
Proof.
  intros Ep Ew Ho. assert (HT : loop_thread s' = loop_thread s) by (unfold loop_thread; by rewrite Ep). unfold to_be_woken. rewrite Ep, Ew. intros [?|[(i & Hi)|?]]; [by left| |by right; right]. right; left. exists i. rewrite HT. eapply mid_push_other; [exact Ho|by destruct Hi as (? & ? & _)|done].
Qed.
Lemma DrainTasks_step_inv b s n (final : bool) : loop_inv s → enq s < 2 ^ 62 → lp_loop s = (if final then FinalDrain n else Draining n) →
  loop_inv (DrainTasks_step n b (if final then FinalDrain else Draining) (if final then Ended else AtTop) s).
Proof.
  intros Hi He El. pose proof Hi as [I1 I2 I3 I4 I5 I6 I7]. unfold DrainTasks_step. assert (Hp : lp_wake_pending s = true → 0 < lp_counter s ∨ Writing ∈ lp_posters s) by (intros H; apply I6; [done|rewrite El; by destruct final]).
  match goal with |- context [if ?b then _ else _] => destruct b eqn:EG end.
  { destruct (sys_ops (lp_tasks s) !! loop_thread s) as [[]|] eqn:Eo; try discriminate EG. apply loop_inv_intro with s; try done; [by destruct final|by intros; apply Hp|]. destruct final; [done|]. rewrite El in I7. destruct I7 as (seen & H1 & H2). cbn [set_loop lp_loop lp_tasks]. intros H. rewrite (li_capacity s Hi) in EG. apply (to_be_woken_kept s); try done. apply H1. lia. }
  clear EG. pose proof (pop_move_spec k Hk (loop_thread s) (lp_tasks s) b I1 He) as HP. destruct (pop_move (loop_thread s) b (lp_tasks s)) as [q a]. destruct HP as (P1 & P2 & P3 & P4 & P5 & P6).
  destruct a; apply loop_inv_intro with s; try done; try (by intros; apply Hp); cbn [set_loop set_tasks lp_loop lp_tasks]; rewrite ?El; destruct final; try done; try (by apply P6); rewrite El in I7; destruct I7 as (seen & H1 & H2).
  - exists seen. split; [|lia]. rewrite P3. intros H. apply (to_be_woken_kept s); try done. by apply H1.
  - exists seen. destruct P6 as [_ P6]. split; [|lia]. rewrite P3. intros H. apply (to_be_woken_kept s); try done. by apply H1.
  - destruct P6 as (_ & P6 & [P7|(i & P7)]); [lia|]. intros _. right; left. by exists i, (returned q).
Qed.
Lemma loop_step_inv o b s : loop_inv s → enq s < 2 ^ 62 → loop_inv (loop_step o b s).
Proof.
  intros Hi He. pose proof Hi as [I1 I2 I3 I4 I5 I6 I7]. unfold loop_step. destruct (lp_loop s) as [| | | |n|n|] eqn:E; [| | | |by apply (DrainTasks_step_inv b s n false)|by apply (DrainTasks_step_inv b s n true)|done].
  - apply loop_inv_intro with s; try done; destruct (lp_stopping s); try done; by intros; apply I6.
  - pose proof (li_room s Hi I4). destruct o; [|destruct (0 <? lp_counter s); [|done]]; apply loop_inv_intro with s; try done; try (by intros; apply I6). exists (ran s). split; [|cbn [set_loop lp_tasks]; lia]. intros H1. apply (to_be_woken_kept s); try done. by apply I7.
  - apply loop_inv_intro with s; try done.
  - pose proof (li_room s Hi I4). apply loop_inv_intro with s; try done. exists (enq s). cbn [set_loop set_wake lp_tasks]. split; lia.
Qed.
(** Tickets are only given out. *)
Lemma move_pushed m s : lp_pushed s `prefix_of` lp_pushed (move m s).
Proof.
  assert (HT : ∀ i b, lp_pushed s `prefix_of` sys_pushed (thread_step i b (lp_tasks s)).1).
  { intros i b. rewrite thread_step_run. apply pushed_grows. }
  destruct m as [i b|o b]; cbn [move].
  - unfold poster_step. destruct (lp_posters s !! i) as [[ok|t| | | |]|]; try done.
    + destruct (lp_stopping s); [done|]. apply pushed_grows.
    + specialize (HT i b). unfold push_move. destruct (thread_step i b (lp_tasks s)) as [q ev]. destruct ev as [[]|]; exact HT.
    + by destruct (lp_stopping s).
    + by destruct (lp_wake_pending s).
  - assert (HD : ∀ n f l, lp_pushed s `prefix_of` lp_pushed (DrainTasks_step n b f l s)).
    { intros n f l. unfold DrainTasks_step. match goal with |- context [if ?b then _ else _] => destruct b end; [done|]. unfold pop_move. specialize (HT (loop_thread s) b). destruct (sys_ops (lp_tasks s) !! loop_thread s) as [[]|]; try (destruct (thread_step (loop_thread s) b (lp_tasks s)) as [q ev]; destruct ev as [[]|]; exact HT). apply pushed_grows. }
    unfold loop_step. destruct (lp_loop s); try done; destruct o; [done|]; by destruct (_ <? _).
Qed.
Lemma moves_pushed ms s : lp_pushed s `prefix_of` lp_pushed (moves ms s).
Proof. revert s. induction ms as [|m ms IH]; intros s; [done|]. etrans; [apply (move_pushed m)|apply IH]. Qed.
Lemma pushed_enq s : loop_inv s → zlen (lp_pushed s) = enq s.
Proof. intros Hi. exact (mi_pushed _ _ (ml_queue _ _ _ (li_mail _ Hi))). Qed.
Lemma moves_inv ms s : loop_inv s → zlen (lp_pushed (moves ms s)) < 2 ^ 62 → loop_inv (moves ms s).
Proof.
  revert s. induction ms as [|m ms IH]; intros s Hi Hb; [done|]. apply IH; [|exact Hb]. assert (He : enq s < 2 ^ 62).
  { rewrite <- pushed_enq by done. pose proof (prefix_length _ _ (moves_pushed (m :: ms) s)). unfold zlen in *. lia. }
  destruct m as [i b|o b]; [by apply poster_step_inv|by apply loop_step_inv].
Qed.
Lemma newLoop_inv posters : Forall starting posters → loop_inv (newLoop (new_queue cap) posters).
Proof.
  intros Hp. assert (HO : ∀ i, (i < S (length posters))%nat → sys_ops (lp_tasks (newLoop (new_queue cap) posters)) !! i = Some Idle) by (intros; by apply lookup_replicate_2).
  constructor; cbn [newLoop lp_wake_pending lp_counter lp_loop lp_posters].
  - apply (started_mail k Hk); [done|]. unfold loop_thread. cbn. lia.
  - cbn. by rewrite length_replicate.
  - intros i pc E. exists Idle. split; [apply HO; apply lookup_lt_Some in E; lia|]. rewrite decide_False; [done|]. intros ->. by pose proof (Forall_lookup_1 _ _ _ _ Hp E).
  - apply HO. unfold loop_thread. cbn. lia.
  - done.
  - done.
  - intros H. unfold returned, zlen in H. cbn in H. lia.
Qed.

(** ** The loop left alone *)

Lemma executed_pushed s : loop_inv s → ran s = enq s → lp_executed s = lp_pushed s.
Proof. intros Hi H. unfold lp_executed. rewrite (taken_prefix k _ _ (li_mail _ Hi)), H, <- (pushed_enq s Hi). unfold ztake, zlen. rewrite Nat2Z.id. apply take_ge. done. Qed.
Definition drain_rank (s : LoopState) (n : Z) : nat :=
  match sys_ops (lp_tasks s) !! loop_thread s with Some Idle => if n <? cap then 8 else 15 | _ => pop_rank (loop_thread s) (lp_tasks s) end.
Definition loop_rank (s : LoopState) : nat :=
  match lp_loop s with AtTop => 14 | Waiting => 13 | Reading => 12 | Clearing => 11 | Draining n | FinalDrain n => drain_rank s n | Ended => 0 end.
Lemma loop_rank_bound s : (loop_rank s ≤ 15)%nat.
Proof. pose proof (pop_rank_le (loop_thread s) (lp_tasks s)). unfold loop_rank, drain_rank. destruct (lp_loop s); try lia; destruct (sys_ops (lp_tasks s) !! loop_thread s) as [[]|]; try lia; destruct (_ <? _); lia. Qed.
(** What a loop on its own needs to get at the queue: nobody sits on a ticket, its waits end,
    and the last round of tasks has room for what is left. *)
Definition able (o : bool) (s : LoopState) : Prop :=
  ¬ claiming s ∧ (o = true ∨ ¬ waking s) ∧ match lp_loop s with FinalDrain n => enq s - ran s ≤ cap - n | Ended => False | _ => True end.

Lemma drain_alone s n (final : bool) : loop_inv s → enq s < 2 ^ 62 → ran s < enq s → ¬ claiming s → lp_loop s = (if final then FinalDrain n else Draining n) → (final = true → enq s - ran s ≤ cap - n) →
  let s' := DrainTasks_step n false (if final then FinalDrain else Draining) (if final then Ended else AtTop) s in
  lp_pushed s' = lp_pushed s ∧ enq s' = enq s ∧ lp_posters s' = lp_posters s ∧ (∀ j, j ≠ loop_thread s → sys_ops (lp_tasks s') !! j = sys_ops (lp_tasks s) !! j) ∧
  (ran s' = ran s ∧ (loop_rank s' < loop_rank s)%nat ∧ (lp_loop s' = lp_loop s ∨ final = false ∧ lp_loop s' = AtTop) ∨ ran s' = ran s + 1 ∧ lp_loop s' = if final then FinalDrain (n + 1) else Draining (n + 1)).
Proof.
  intros Hi He Hlt Hno El Hf. unfold DrainTasks_step. cbv zeta. assert (HR : loop_rank s = drain_rank s n) by (unfold loop_rank; rewrite El; by destruct final).
  match goal with |- context [if ?b then _ else _] => destruct b eqn:EG end.
  { destruct (sys_ops (lp_tasks s) !! loop_thread s) as [[]|] eqn:Eo; try discriminate EG. rewrite (li_capacity s Hi) in EG. split_and!; try done. left. split; [done|]. unfold drain_rank in HR. rewrite Eo in HR. destruct (n <? cap) eqn:En; [done|]. rewrite HR. destruct final; [specialize (Hf eq_refl); lia|]. split; [cbn; lia|by right]. }
  pose proof (pop_move_spec k Hk (loop_thread s) (lp_tasks s) false (li_mail _ Hi) He) as HP. pose proof (pop_move_alone k Hk (loop_thread s) (lp_tasks s) (li_mail _ Hi) He Hlt) as HA.
  assert (HS : drain_rank s n = pop_rank (loop_thread s) (lp_tasks s)).
  { unfold drain_rank, pop_rank. destruct (sys_ops (lp_tasks s) !! loop_thread s) as [[]|]; try done. rewrite (li_capacity s Hi) in EG. by destruct (n <? cap). }
  pose proof (li_capacity s Hi) as HC. destruct (pop_move (loop_thread s) false (lp_tasks s)) as [q a] eqn:EP. destruct HP as (P1 & P2 & P3 & P4 & P5 & P6). destruct HA as [->|[-> HA]]; [by intros i Hm; apply Hno; exists i|split_and!; try done; right; by destruct final, P6|].
  split_and!; try done. left. split; [done|]. split; [|by left]. rewrite HR, HS. unfold loop_rank. cbn [set_tasks lp_loop]. rewrite El. assert (HX : (drain_rank (set_tasks q s) n < pop_rank (loop_thread s) (lp_tasks s))%nat); [|by destruct final]. unfold drain_rank. change (loop_thread (set_tasks q s)) with (loop_thread s). cbn [set_tasks lp_tasks].
  destruct (sys_ops q !! loop_thread s) as [op|] eqn:Eq; [|exact HA]. destruct (idle_or op) as [->|Hop]; [|destruct op; exact HA || done]. exfalso. unfold pop_rank in HA. rewrite Eq in HA. pose proof (pop_rank_le (loop_thread s) (lp_tasks s)) as HB. unfold pop_rank in HB. lia.
Qed.
Lemma alone_step o s : loop_inv s → enq s < 2 ^ 62 → ran s < enq s → able o s → let s' := loop_step o false s in
  able o s' ∧ lp_pushed s' = lp_pushed s ∧ enq s' = enq s ∧ (ran s' = ran s ∧ (loop_rank s' < loop_rank s)%nat ∨ ran s' = ran s + 1).
Proof.
  intros Hi He Hlt (A1 & A2 & A3). pose proof (li_loop s Hi) as Hl. unfold loop_step.
  assert (HA : ∀ s', lp_posters s' = lp_posters s → (∀ j, j ≠ loop_thread s → sys_ops (lp_tasks s') !! j = sys_ops (lp_tasks s) !! j) → match lp_loop s' with FinalDrain n => enq s' - ran s' ≤ cap - n | Ended => False | _ => True end → able o s').
  { intros s' Ep Ho Hx. assert (HC : claiming s' → claiming s). { intros (i & t & H1 & op & H2 & H3). replace (loop_thread s') with (loop_thread s) in H1 by (unfold loop_thread; by rewrite Ep). exists i, t. split; [done|]. exists op. by rewrite <- Ho. }
    split; [auto|]. split; [|done]. destruct A2 as [|A2]; [by left|right]. unfold waking. rewrite Ep. intros [H|H]; apply A2; [left; auto|by right]. }
  destruct (lp_loop s) as [| | | |n|n|] eqn:El; [| | | | | |done].
  - pose proof (li_room s Hi Hl). split; [apply HA; try done; cbn; destruct (lp_stopping s); [lia|done]|]. split_and!; try done. left. split; [done|]. unfold loop_rank. rewrite El. cbn [set_loop lp_loop]. destruct (lp_stopping s); [|lia]. unfold drain_rank. cbn [set_loop lp_tasks]. change (loop_thread (set_loop (FinalDrain 0) s)) with (loop_thread s). rewrite Hl. pose proof (cap_bounds k Hk). destruct (Z.ltb_spec 0 cap); lia.
  - assert (HD : o = false → 0 <? lp_counter s = true).
    { intros ->. destruct A2 as [|A2]; [done|]. pose proof (li_asleep s Hi) as H7. rewrite El in H7. apply Z.ltb_lt. destruct (H7 Hlt) as [H|[H|H]]; [|by destruct A1|destruct A2; right; by left]. destruct (li_pending s Hi H) as [|H']; [by rewrite El|done|destruct A2; right; by right]. }
    pose proof (cap_bounds k Hk). destruct o; [|rewrite HD by done]; (split; [by apply HA|]; split_and!; try done; left; split; [done|]; unfold loop_rank; rewrite El; cbn [set_loop lp_loop]); [|lia]. unfold drain_rank. change (loop_thread (set_loop (Draining 0) s)) with (loop_thread s). cbn [set_loop lp_tasks]. rewrite Hl. destruct (Z.ltb_spec 0 cap); lia.
  - split; [by apply HA|]. split_and!; try done. left. split; [done|]. unfold loop_rank. rewrite El. cbn. lia.
  - pose proof (cap_bounds k Hk). split; [by apply HA|]. split_and!; try done. left. split; [done|]. unfold loop_rank. rewrite El. cbn [set_loop lp_loop]. unfold drain_rank. cbn [set_loop set_wake lp_tasks]. change (loop_thread (set_loop (Draining 0) (set_wake false (lp_counter s) s))) with (loop_thread s). rewrite Hl. destruct (Z.ltb_spec 0 cap); lia.
  - destruct (drain_alone s n false Hi He Hlt A1 El) as (D1 & D2 & D3 & D4 & D5); [done|]. split; [|split_and!; try done; naive_solver]. apply HA; [done|done|]. destruct D5 as [(_ & _ & [-> |[_ ->]])|[_ ->]]; [by rewrite El|done|done].
  - destruct (drain_alone s n true Hi He Hlt A1 El) as (D1 & D2 & D3 & D4 & D5); [done|]. split; [|split_and!; try done; naive_solver]. apply HA; [done|done|]. rewrite D2. destruct D5 as [(-> & _ & [-> |[? _]])|[-> ->]]; [by rewrite El|done|lia].
Qed.
Definition loop_alone (o : bool) (n : nat) (s : LoopState) : LoopState := moves (replicate n (MLoop o false)) s.
Lemma loop_alone_runs o s : loop_inv s → enq s < 2 ^ 62 → able o s → ∃ n, lp_executed (loop_alone o n s) = lp_pushed s.
Proof.
  remember (16 * Z.to_nat (enq s - ran s) + loop_rank s)%nat as m eqn:Em. revert s Em. induction m as [m IH] using lt_wf_ind. intros s Em Hi He HA. pose proof (returned_le k _ _ (li_mail _ Hi)) as (Hr & Hd & _).
  destruct (decide (ran s = enq s)) as [E|E]; [exists 0%nat; by apply executed_pushed|]. destruct (alone_step o s Hi He ltac:(lia) HA) as (S1 & S2 & S3 & S4). pose proof (loop_step_inv o false s Hi He) as Hi'. pose proof (loop_rank_bound (loop_step o false s)).
  destruct (IH (16 * Z.to_nat (enq (loop_step o false s) - ran (loop_step o false s)) + loop_rank (loop_step o false s))%nat ltac:(rewrite S3; lia) _ eq_refl Hi' ltac:(by rewrite S3) S1) as (n & Hn). exists (S n). by rewrite <- S2.
Qed.
End Tasks.

(** ** What a poster was told *)

(** The poster that began with [Checking t] and where it is now: once it was told that its task
    was accepted, the task has its ticket. *)
Definition posted (t : Task) (i : nat) (s : LoopState) : Prop :=
  ∃ pc, lp_posters s !! i = Some pc ∧
  match pc with
  | Checking t' => t' = t
  | Pushing => ∃ op, sys_ops (lp_tasks s) !! i = Some op ∧ carries op t (lp_tasks s)
  | Posted false => True
  | Stopping => False
  | _ => t ∈ lp_pushed s
  end.
Lemma posted_kept t i s s' : posted t i s → lp_posters s' !! i = lp_posters s !! i → sys_ops (lp_tasks s') !! i = sys_ops (lp_tasks s) !! i → lp_pushed s `prefix_of` lp_pushed s' → posted t i s'.
Proof.
  intros (pc & Hp & H) Ep Eo Hg. exists pc. rewrite Ep. split; [done|]. assert (HI : t ∈ lp_pushed s → t ∈ lp_pushed s') by (destruct Hg as [l ->]; intros; apply elem_of_app; by left).
  destruct pc as [[]| | | | |]; auto. rewrite Eo. destruct H as (op & Ho & Hc). exists op. split; [done|]. by eapply carries_grows.
Qed.
Lemma DrainTasks_step_others n b f l s j : j ≠ loop_thread s → sys_ops (lp_tasks (DrainTasks_step n b f l s)) !! j = sys_ops (lp_tasks s) !! j.
Proof.
  intros Hj. unfold DrainTasks_step, pop_move. match goal with |- context [if ?b then _ else _] => destruct b end; [done|]. pose proof (thread_step_others (loop_thread s) b (lp_tasks s) j Hj) as HT. pose proof (sys_step_others (loop_thread s) BeginPop (lp_tasks s) j Hj).
  destruct (sys_ops (lp_tasks s) !! loop_thread s) as [[]|]; try done; destruct (thread_step (loop_thread s) b (lp_tasks s)) as [q [[]|]]; exact HT.
Qed.
Lemma loop_step_posters o b s : lp_posters (loop_step o b s) = lp_posters s.
Proof.
  assert (HD : ∀ n f l, lp_posters (DrainTasks_step n b f l s) = lp_posters s) by (intros n f l; unfold DrainTasks_step; match goal with |- context [if ?b then _ else _] => destruct b end; [done|]; by destruct (pop_move _ _ _) as [q []]).
  unfold loop_step. destruct (lp_loop s); try done. destruct o; [done|]. by destruct (_ <? _).
Qed.
Lemma poster_step_posted k t i j b s : loop_inv k s → posted t i s → posted t i (poster_step j b s).
Proof.
  intros Hi H. pose proof H as (pc & Hp & Hm). pose proof (move_pushed (MPoster j b) s) as Hg. cbn [move] in Hg. destruct (li_poster _ _ Hi i pc Hp) as (op & Ho & Hop). destruct (decide (i = j)) as [<-|Hne].
  - assert (Hin : ∀ pc', <[i := pc']> (lp_posters s) !! i = Some pc') by (intros; apply list_lookup_insert_eq; by eapply lookup_lt_Some). unfold poster_step in *. rewrite Hp in *. destruct pc as [ok|t'| | | |]; [done| | |done| |].
    + subst t'. rewrite decide_False in Hop by done. subst op. destruct (lp_stopping s); [exists (Posted false); by split; [apply Hin|]|]. exists Pushing. split; [apply Hin|]. exists (PushStart t). cbn [set_poster set_tasks lp_tasks]. rewrite (begin_push_ops _ _ _ Ho). cbn [sys_ops carries]. split; [|done]. apply list_lookup_insert_eq. by eapply lookup_lt_Some.
    + destruct Hm as (op' & Ho' & Hc). pose proof (push_move_carries (lp_tasks s) i b op' t Ho' Hc) as HP. destruct (push_move i b (lp_tasks s)) as [q []]; [exists Pushing; by split|exists Exchanging; by split; [apply Hin|]|exists (Posted false); by split; [apply Hin|]].
    + destruct (lp_wake_pending s); [exists (Posted true)|exists Writing]; (split; [apply Hin|done]).
    + exists (Posted true). split; [apply Hin|done].
  - apply (posted_kept t i s); [done| | |done].
    + unfold poster_step. destruct (lp_posters s !! j) as [[ok|t'| | | |]|]; try done; [destruct (lp_stopping s)|destruct (push_move j b (lp_tasks s)) as [q []]|destruct (lp_stopping s)|destruct (lp_wake_pending s)|]; cbn [set_poster set_tasks reject set_wake set_stopping lp_posters]; try done; by apply list_lookup_insert_ne.
    + unfold poster_step, push_move. pose proof (thread_step_others j b (lp_tasks s) i Hne) as HT. destruct (lp_posters s !! j) as [[ok|t'| | | |]|]; try done; [destruct (lp_stopping s); [done|]; by apply sys_step_others|destruct (thread_step j b (lp_tasks s)) as [q [[]|]]; exact HT|by destruct (lp_stopping s)|by destruct (lp_wake_pending s)].
Qed.
Lemma loop_step_posted k t i o b s : loop_inv k s → posted t i s → posted t i (loop_step o b s).
Proof.
  intros Hi H. pose proof (move_pushed (MLoop o b) s) as Hg. cbn [move] in Hg. apply (posted_kept t i s); [done|by rewrite loop_step_posters| |done]. destruct H as (pc & Hp & _). assert (Hne : i ≠ loop_thread s) by (apply lookup_lt_Some in Hp; unfold loop_thread; lia).
  unfold loop_step. destruct (lp_loop s); try done; [destruct o; [done|]; by destruct (_ <? _)|by apply DrainTasks_step_others|by apply DrainTasks_step_others].
Qed.
Lemma moves_posted k (Hk : 1 ≤ k ≤ 60) t i ms s : loop_inv k s → zlen (lp_pushed (moves ms s)) < 2 ^ 62 → posted t i s → posted t i (moves ms s).
Proof.
  revert s. induction ms as [|m ms IH]; intros s Hi Hb H; [done|]. assert (HB : zlen (lp_pushed (moves [m] s)) < 2 ^ 62).
  { pose proof (prefix_length _ _ (moves_pushed ms (moves [m] s))). unfold zlen in *. unfold moves in *. cbn in *. lia. }
  apply IH; [exact (moves_inv k Hk [m] s Hi HB)|exact Hb|]. destruct m as [j b|o b]; [by eapply poster_step_posted|by eapply loop_step_posted].
Qed.


(** ** Examples *)

Definition post (i : nat) : list Move := replicate 8 (MPoster i false).
Definition turn (n : nat) : list Move := replicate n (MLoop false false).
Definition tasks4 : MpmcQueue Task := new_queue 4.
Definition two_posts : LoopState := Eval vm_compute in moves (turn 1 ++ post 0 ++ post 1) (newLoop tasks4 [Checking 1; Checking 2]).
Lemma two_posts_run : moves (turn 1 ++ post 0 ++ post 1) (newLoop tasks4 [Checking 1; Checking 2]) = two_posts.
Proof. vm_compute. reflexivity. Qed.
Lemma tasks4_new : newMpmc 3 = Some tasks4.
Proof. vm_compute. reflexivity. Qed.
Lemma two_posts_quiet : ¬ waking two_posts.
Proof.
  intros [(i & t & _ & op & Ho & Ht)|[H|H]].
  - destruct i as [|[|[|i]]]; cbn in Ho; [injection Ho as <-..|]; done.
  - apply list_elem_of_In in H. destruct H as [H|[H|[]]]; discriminate H.
  - apply list_elem_of_In in H. destruct H as [H|[H|[]]]; discriminate H.
Qed.

(** The first poster has taken a ticket and not published it, the second has posted its task
    completely: the loop wakes, finds nothing, and sleeps with nobody waking it.  It is the
    first poster's own wake-up that gets both tasks run. *)
Lemma sleeps_behind_ticket :
  let s := moves (replicate 4 (MPoster 0 false) ++ post 1 ++ turn 9) (newLoop tasks4 [Checking 1; Checking 2]) in
  lp_posters s = [Pushing; Posted true] ∧ lp_pushed s = [1; 2] ∧ lp_executed s = [] ∧ lp_loop s = Waiting ∧ lp_counter s = 0 ∧ lp_wake_pending s = false ∧
  lp_executed (moves (replicate 4 (MPoster 0 false) ++ turn 20) s) = [1; 2].
Proof. by vm_compute. Qed.
Lemma ended_loop o n s : lp_loop s = Ended → loop_alone o n s = s.
Proof. intros H. unfold loop_alone. induction n as [|n IH]; [done|]. cbn. unfold loop_step. by rewrite H. Qed.
(** A task accepted while the loop stops: the poster saw the loop running, the loop drained the
    queue for the last time, and the task is never run although it was accepted. *)
Lemma accepted_and_lost : let s := moves ([MPoster 0 false; MPoster 1 false] ++ turn 4 ++ replicate 7 (MPoster 0 false)) (newLoop tasks4 [Checking 1; Stopping]) in
  head (lp_posters s) = Some (Posted true) ∧ lp_loop s = Ended ∧ lp_executed s = [] ∧ ∀ o n, loop_alone o n s = s.
Proof. cbv zeta. set (s := moves _ _). assert (H : lp_loop s = Ended) by (by vm_compute). split_and!; [by vm_compute|done|by vm_compute|]. intros. by apply ended_loop. Qed.
(** And a task accepted before the stop is lost behind a ticket that is not published yet. *)
Lemma accepted_before_stop_lost :
  let before := moves (replicate 4 (MPoster 0 false) ++ post 1) (newLoop tasks4 [Checking 1; Checking 2; Stopping]) in
  let s := moves (MPoster 2 false :: turn 4) before in
  lp_posters before !! 1%nat = Some (Posted true) ∧ lp_stopping before = false ∧ lp_loop s = Ended ∧ lp_executed s = [] ∧ ∀ o n, loop_alone o n s = s.
Proof. cbv zeta. set (b := moves _ (newLoop _ _)). set (s := moves _ b). assert (H : lp_loop s = Ended) by (by vm_compute). split_and!; [by vm_compute|by vm_compute|done|by vm_compute|]. intros. by apply ended_loop. Qed.
