(* ===== verification/EventLoop.v ===== *)
(** * EventLoop: handlers, closing and timers of an event loop

    Models the part of src/net/event_loop.cc that stays on the loop's thread: registering
    handlers by descriptor, the dispatch of ready descriptors, deferred closing and timers.
    Handlers are objects of other components, so what a callback does to the loop is a
    parameter, [react], which may depend on everything that happened before (the state of the
    loop holds every callback made so far): it may close handlers and add some.  Only a
    handler that is being closed must not add any: [ProcessPendingCloses] holds a reference
    into the table of handlers across [OnClosed], which growing the table invalidates.  [el_add_results] is what the poller answers to the next registrations (it accepts
    those past the end of the list).  [el_log] is every callback made, with the handler's
    number, and [el_next] the number of the next handler; no operation reads the log. *)
From S2P Require Import Prelude Status.

Inductive Callback : Set := OnReadable | OnWritable | OnClosed.
#[global] Instance Callback_eq_dec : EqDecision Callback.
Proof. solve_decision. Defined.
Record EventLoop := mkEventLoop {
  el_handlers : list (option nat); el_handler_count : Z; el_pending_closes : list Z; el_add_results : list (Result unit);
  el_next : nat; el_log : list (nat * Callback) }.
Definition newEventLoop (results : list (Result unit)) : EventLoop := mkEventLoop (replicate 64 None) 0 [] results 0 [].
(** What a callback asks of the loop. *)
Inductive LoopAction : Set := CloseFd (fd : Z) | AddFd (fd : Z).

(** The handler in a slot, [None] past the end. *)
Definition handler_at (fd : Z) (l : EventLoop) : option nat := if fd <? 0 then None else mjoin (el_handlers l !! Z.to_nat fd).
Definition set_handlers (hs : list (option nat)) (count : Z) (l : EventLoop) : EventLoop :=
  mkEventLoop hs count (el_pending_closes l) (el_add_results l) (el_next l) (el_log l).
Definition set_pending_closes (fds : list Z) (l : EventLoop) : EventLoop :=
  mkEventLoop (el_handlers l) (el_handler_count l) fds (el_add_results l) (el_next l) (el_log l).
Definition called (h : nat) (cb : Callback) (l : EventLoop) : EventLoop :=
  mkEventLoop (el_handlers l) (el_handler_count l) (el_pending_closes l) (el_add_results l) (el_next l) (el_log l ++ [(h, cb)]).
(** [poller_->Add(fd, events)] *)
Definition poller_add : SR EventLoop unit := λ l,
  match el_add_results l with
  | [] => (Ok tt, l)
  | r :: rs => (r, mkEventLoop (el_handlers l) (el_handler_count l) (el_pending_closes l) rs (el_next l) (el_log l))
  end.

Definition grow_handlers (fd : Z) (l : EventLoop) : EventLoop :=
  if zlen (el_handlers l) <=? fd then set_handlers (el_handlers l ++ replicate (Z.to_nat (fd * 2 + 1) - length (el_handlers l)) None) (el_handler_count l) l else l.
Definition AddHandler (fd : Z) : SR EventLoop unit :=
  if fd <? 0 then sfail kInvalidArgument else
  smod (grow_handlers fd) ;;;
  let! l := sget in
  match handler_at fd l with
  | Some _ => sfail kAlreadyExists
  | None =>
      poller_add ;;;
      smod (λ l, mkEventLoop (<[Z.to_nat fd := Some (el_next l)]> (el_handlers l)) (el_handler_count l + 1) (el_pending_closes l) (el_add_results l) (S (el_next l)) (el_log l))
  end.
Definition CloseHandler (fd : Z) (l : EventLoop) : EventLoop :=
  match handler_at fd l with
  | None => l
  | Some _ => if bool_decide (fd ∈ el_pending_closes l) then l else set_pending_closes (el_pending_closes l ++ [fd]) l
  end.

Section Callbacks.
Context (react : EventLoop → nat → Callback → list LoopAction).

Definition loop_request (a : LoopAction) (l : EventLoop) : EventLoop := match a with CloseFd fd => CloseHandler fd l | AddFd fd => (AddHandler fd l).2 end.
Definition callback (h : nat) (cb : Callback) (l : EventLoop) : EventLoop := fold_left (λ l a, loop_request a l) (react l h cb) (called h cb l).

(** One descriptor of a batch of closes. *)
Definition close_slot (fd : Z) (l : EventLoop) : EventLoop :=
  match handler_at fd l with
  | None => l
  | Some h =>
      let l := callback h OnClosed l in
      set_handlers (<[Z.to_nat fd := None]> (el_handlers l)) (el_handler_count l - 1) l
  end.
(** [while (!pending_closes_.empty())]: a batch that closes nothing leaves nothing pending, so
    the number of handlers bounds the batches. *)
Fixpoint process_closes (fuel : nat) (l : EventLoop) : EventLoop :=
  match fuel, el_pending_closes l with
  | _, [] => l
  | O, _ => l
  | S fuel, batch => process_closes fuel (fold_left (λ l fd, close_slot fd l) batch (set_pending_closes [] l))
  end.
Definition ProcessPendingCloses (l : EventLoop) : EventLoop := process_closes (S (S (length (el_handlers l)))) l.

Record PollEvent := mkPollEvent { pe_fd : Z; pe_readable : bool; pe_writable : bool; pe_error : bool }.
(** The body of the dispatch loop. *)
Definition dispatch (e : PollEvent) (l : EventLoop) : EventLoop :=
  match handler_at (pe_fd e) l with
  | None => l
  | Some h =>
      let l := if pe_writable e then callback h OnWritable l else l in
      match handler_at (pe_fd e) l with
      | None => l
      | Some _ =>
          if bool_decide (pe_fd e ∈ el_pending_closes l) then l
          else if pe_readable e || pe_error e then callback h OnReadable l else l
      end
  end.
(** An iteration of [Run]: the ready descriptors, the posted tasks and those of the timers
    (each a list of requests to the loop), the closes. *)
Definition iteration (ready : list PollEvent) (tasks : list (list LoopAction)) (l : EventLoop) : EventLoop :=
  let l := fold_left (λ l e, dispatch e l) ready l in
  let l := fold_left (λ l t, fold_left (λ l a, loop_request a l) t l) tasks l in
  ProcessPendingCloses l.
(** The end of [Run]: every slot with a handler is closed, in the order of the slots. *)
Definition live_fds (l : EventLoop) : list Z := map Z.of_nat (List.filter (λ i, bool_decide (is_Some (mjoin (el_handlers l !! i)))) (seq 0 (length (el_handlers l)))).
Definition shutdown (tasks : list (list LoopAction)) (l : EventLoop) : EventLoop :=
  let l := fold_left (λ l t, fold_left (λ l a, loop_request a l) t l) tasks l in
  ProcessPendingCloses (set_pending_closes (el_pending_closes l ++ live_fds l) l).

Definition run_loop (rounds : list (list PollEvent * list (list LoopAction))) (l : EventLoop) : EventLoop :=
  fold_left (λ l r, iteration r.1 r.2 l) rounds l.
End Callbacks.

(** ** Timers, whose tasks neither schedule nor cancel timers *)

Record Timer := mkTimer { ti_id : Z; ti_interval_ms : Z; ti_next_fire_ms : Z; ti_cancelled : bool }.
Record Timers := mkTimers { tm_list : list Timer; tm_next_id : Z; tm_fired : list Z }.
Definition ScheduleRepeating (interval_ms now : Z) (t : Timers) : Z * Timers :=
  let interval := Z.max 1 interval_ms in
  (tm_next_id t, mkTimers (tm_list t ++ [mkTimer (tm_next_id t) interval (now + interval) false]) (u64 (tm_next_id t + 1)) (tm_fired t)).
Definition CancelTimer (id : Z) (t : Timers) : Timers :=
  mkTimers (map (λ x, if ti_id x =? id then mkTimer (ti_id x) (ti_interval_ms x) (ti_next_fire_ms x) true else x) (tm_list t)) (tm_next_id t) (tm_fired t).
Definition due (now : Z) (x : Timer) : bool := negb (ti_cancelled x || (now <? ti_next_fire_ms x)).
Definition RunTimers (now : Z) (t : Timers) : Timers :=
  mkTimers (List.filter (λ x, negb (ti_cancelled x)) (map (λ x, if due now x then mkTimer (ti_id x) (ti_interval_ms x) (now + ti_interval_ms x) (ti_cancelled x) else x) (tm_list t)))
    (tm_next_id t) (tm_fired t ++ map ti_id (List.filter (due now) (tm_list t))).
(** [std::clamp(remaining, 0, timeout_ms)] over the timers. *)
Definition poll_timeout (max_poll_timeout_ms now : Z) (t : Timers) : Z :=
  fold_left (λ timeout x, if ti_cancelled x then timeout else Z.min (Z.max (ti_next_fire_ms x - now) 0) timeout) (tm_list t) max_poll_timeout_ms.

(** ** Invariant *)

Fixpoint live (hs : list (option nat)) : Z := match hs with [] => 0 | Some _ :: hs => 1 + live hs | None :: hs => live hs end.
Lemma live_nonneg hs : 0 ≤ live hs.
Proof. induction hs as [|[h|] hs IH]; cbn; lia. Qed.
Lemma live_le hs : live hs ≤ zlen hs.
Proof. induction hs as [|[h|] hs IH]; [done| |]; cbn [live]; rewrite zlen_cons; lia. Qed.
Lemma live_app hs hs' : live (hs ++ hs') = live hs + live hs'.
Proof. induction hs as [|[h|] hs IH]; cbn; lia. Qed.
Lemma live_none n : live (replicate n None) = 0.
Proof. induction n; [done|]. done. Qed.
Lemma live_insert hs i (o o' : option nat) : hs !! i = Some o → live (<[i := o']> hs) = live hs - (if o then 1 else 0) + (if o' then 1 else 0).
Proof.
  revert i. induction hs as [|x hs IH]; intros [|i] H; [done|done| |].
  - injection H as ->. change (<[0%nat := o']> (o :: hs)) with (o' :: hs). destruct o, o'; cbn [live]; lia.
  - change (<[S i := o']> (x :: hs)) with (x :: <[i := o']> hs). specialize (IH i H). destruct x; cbn [live]; rewrite IH; lia.
Qed.

Lemma handler_at_insert fd fd' o l count : 0 ≤ fd < zlen (el_handlers l) →
  handler_at fd' (set_handlers (<[Z.to_nat fd := o]> (el_handlers l)) count l) = if decide (fd' = fd) then o else handler_at fd' l.
Proof.
  intros Hfd. unfold handler_at. cbn [el_handlers set_handlers]. destruct (Z.ltb_spec fd' 0); [by rewrite decide_False by lia|].
  destruct (decide (fd' = fd)) as [->|Hne]; [rewrite list_lookup_insert_eq by (unfold zlen in Hfd; lia); done|]. rewrite list_lookup_insert_ne by lia. done.
Qed.
Lemma handler_at_slot fd h l : handler_at fd l = Some h → 0 ≤ fd < zlen (el_handlers l) ∧ el_handlers l !! Z.to_nat fd = Some (Some h).
Proof.
  unfold handler_at. destruct (Z.ltb_spec fd 0); [done|]. destruct (el_handlers l !! Z.to_nat fd) as [o|] eqn:E; [|done]. cbn. intros ->. split; [|done]. apply lookup_lt_Some in E. unfold zlen. lia.
Qed.
Lemma handler_at_ext l l' fd : el_handlers l' = el_handlers l → handler_at fd l' = handler_at fd l.
Proof. intros H. unfold handler_at. by rewrite H. Qed.

(** Every handler ever added is registered once and not yet closed, or was closed; the count
    is right; a handler hears nothing after it was closed. *)
Record loop_ok (l : EventLoop) : Prop := {
  lo_count : el_handler_count l = live (el_handlers l);
  lo_fresh : ∀ fd h, handler_at fd l = Some h → (h < el_next l)%nat;
  lo_inj : ∀ fd fd' h, handler_at fd l = Some h → handler_at fd' l = Some h → fd = fd';
  lo_open : ∀ fd h, handler_at fd l = Some h → (h, OnClosed) ∉ el_log l;
  lo_log : ∀ h cb, (h, cb) ∈ el_log l → (h < el_next l)%nat;
  lo_last : ∀ l1 l2 h cb, el_log l = l1 ++ (h, OnClosed) :: l2 → (h, cb) ∉ l2;
  lo_gone : ∀ h, (h < el_next l)%nat → (∃ fd, handler_at fd l = Some h) ∨ (h, OnClosed) ∈ el_log l }.

Lemma newEventLoop_ok results : loop_ok (newEventLoop results).
Proof.
  assert (H : ∀ fd h, handler_at fd (newEventLoop results) ≠ Some h).
  { intros fd h Hh. apply handler_at_slot in Hh as [_ Hh]. cbn [newEventLoop el_handlers] in Hh. by apply lookup_replicate in Hh as [? _]. }
  constructor; cbn [newEventLoop el_log el_next el_handler_count el_handlers]; try (intros; exfalso; by eapply H); try (intros; lia).
  - by rewrite live_none.
  - intros h cb Hin. by apply elem_of_nil in Hin.
  - intros [|x l1] l2 h cb Hl; discriminate Hl.
Qed.
(** A step that changes neither slots nor log. *)
Lemma loop_ok_same l l' : loop_ok l → el_handlers l' = el_handlers l → el_handler_count l' = el_handler_count l → el_next l' = el_next l → el_log l' = el_log l → loop_ok l'.
Proof.
  intros [I1 I2 I3 I4 I5 I6 I7] H1 H2 H3 H4. assert (HE : ∀ fd, handler_at fd l' = handler_at fd l) by (intros; by apply handler_at_ext).
  constructor; rewrite ?H1, ?H2, ?H3, ?H4; try done; try (intros *; rewrite ?HE; by eauto). intros h Hh. destruct (I7 h Hh) as [[fd ?]|?]; [left; exists fd; by rewrite HE|by right].
Qed.
Lemma CloseHandler_same fd l : ∃ fds, CloseHandler fd l = set_pending_closes fds l.
Proof.
  unfold CloseHandler. destruct (handler_at fd l) as [h|]; [|exists (el_pending_closes l); by destruct l]. destruct (bool_decide _); [exists (el_pending_closes l); by destruct l|by eexists].
Qed.
Lemma CloseHandler_ok fd l : loop_ok l → loop_ok (CloseHandler fd l).
Proof. intros H. destruct (CloseHandler_same fd l) as [fds ->]. by eapply loop_ok_same. Qed.
Lemma handler_at_grow fd fd' l : handler_at fd' (grow_handlers fd l) = handler_at fd' l.
Proof.
  unfold grow_handlers. destruct (_ <=? _); [|done]. unfold handler_at. cbn [el_handlers set_handlers]. destruct (fd' <? 0); [done|].
  destruct (decide (Z.to_nat fd' < length (el_handlers l))%nat) as [Hlt|Hge]; [by rewrite lookup_app_l|]. rewrite lookup_app_r by lia. rewrite (lookup_ge_None_2 (el_handlers l)) by lia.
  destruct (replicate _ None !! _) as [o|] eqn:E; [|done]. apply lookup_replicate in E as [-> _]. done.
Qed.
Lemma grow_ok fd l : loop_ok l → loop_ok (grow_handlers fd l).
Proof.
  intros [I1 I2 I3 I4 I5 I6 I7]. assert (HE : ∀ fd', handler_at fd' (grow_handlers fd l) = handler_at fd' l) by (intros; apply handler_at_grow).
  assert (HN : el_next (grow_handlers fd l) = el_next l ∧ el_log (grow_handlers fd l) = el_log l) by (unfold grow_handlers; by destruct (_ <=? _)). destruct HN as [HN HL].
  constructor; rewrite ?HN, ?HL; try done; try (intros *; rewrite ?HE; by eauto).
  - unfold grow_handlers. destruct (_ <=? _); [|done]. cbn [el_handlers set_handlers el_handler_count]. rewrite live_app, live_none. lia.
  - intros h Hh. destruct (I7 h Hh) as [[fd' ?]|?]; [left; exists fd'; by rewrite HE|by right].
Qed.
Lemma grow_room fd l : 0 ≤ fd → 0 ≤ fd < zlen (el_handlers (grow_handlers fd l)).
Proof.
  intros H. unfold grow_handlers. destruct (Z.leb_spec (zlen (el_handlers l)) fd); [|lia]. cbn [el_handlers set_handlers]. rewrite zlen_app. unfold zlen in *. rewrite length_replicate. lia.
Qed.
Lemma AddHandler_ok fd l : loop_ok l → loop_ok (AddHandler fd l).2.
Proof.
  intros Hl. unfold AddHandler. destruct (Z.ltb_spec fd 0); [done|]. unfold sbind, smod, sget. pose proof (grow_ok fd l Hl) as Hg. pose proof (grow_room fd l ltac:(lia)) as Hr. set (l1 := grow_handlers fd l) in *.
  destruct (handler_at fd l1) as [h|] eqn:EH; [done|]. assert (HP : ∃ r l2, poller_add l1 = (r, l2) ∧ loop_ok l2 ∧ el_handlers l2 = el_handlers l1).
  { unfold poller_add. destruct (el_add_results l1) as [|r rs]; eexists _, _; (split; [done|]); [done|]. split; [by eapply loop_ok_same|done]. }
  destruct HP as (r & l2 & -> & [I1 I2 I3 I4 I5 I6 I7] & E2). destruct r as [u|e]; [|by constructor]. cbn [snd].
  assert (EH2 : handler_at fd l2 = None) by (rewrite <- EH; by apply handler_at_ext). set (l3 := mkEventLoop _ _ _ _ _ _).
  assert (HA : ∀ fd', handler_at fd' l3 = if decide (fd' = fd) then Some (el_next l2) else handler_at fd' l2).
  { intros fd'. rewrite <- (handler_at_insert fd fd' (Some (el_next l2)) l2 0) by (rewrite E2; lia). by apply handler_at_ext. }
  assert (HS : el_handlers l2 !! Z.to_nat fd = Some None).
  { destruct (el_handlers l2 !! Z.to_nat fd) as [[h|]|] eqn:E; [|done|apply lookup_ge_None in E; rewrite E2 in E; unfold zlen in Hr; lia]. unfold handler_at in EH2. rewrite E in EH2. destruct (Z.ltb_spec fd 0); [lia|done]. }
  constructor; cbn [l3 el_log el_next el_handler_count el_handlers].
  - rewrite (live_insert _ _ _ _ HS), I1. lia.
  - intros fd' h. rewrite HA. destruct (decide _); [intros [= <-]; lia|]. intros H'. specialize (I2 _ _ H'). lia.
  - intros fd1 fd2 h. rewrite !HA. destruct (decide (fd1 = fd)), (decide (fd2 = fd)); subst; try done.
    + intros [= <-] H'. specialize (I2 _ _ H'). lia.
    + intros H' [= <-]. specialize (I2 _ _ H'). lia.
    + by apply I3.
  - intros fd' h. rewrite HA. destruct (decide _); [intros [= <-] Hin; apply I5 in Hin; lia|]. by apply I4.
  - intros h cb Hin. apply I5 in Hin. lia.
  - exact I6.
  - intros h Hh. destruct (decide (h = el_next l2)) as [->|Hne]; [left; exists fd; rewrite HA, decide_True by done; done|].
    destruct (I7 h ltac:(lia)) as [[fd' H']|H']; [|by right]. left. exists fd'. rewrite HA. destruct (decide (fd' = fd)) as [->|]; [congruence|done].
Qed.
Lemma loop_request_ok a l : loop_ok l → loop_ok (loop_request a l).
Proof. destruct a; [apply CloseHandler_ok|apply AddHandler_ok]. Qed.
Lemma acts_ok acts l : loop_ok l → loop_ok (fold_left (λ l a, loop_request a l) acts l).
Proof. revert l. induction acts as [|a acts IH]; intros l H; [done|]. apply IH. by apply loop_request_ok. Qed.

(** ** Callbacks and closing *)

Lemma log_last_snoc (log : list (nat * Callback)) h cb :
  (∀ l1 l2 h cb, log = l1 ++ (h, OnClosed) :: l2 → (h, cb) ∉ l2) → (h, OnClosed) ∉ log → ∀ l1 l2 h' cb', log ++ [(h, cb)] = l1 ++ (h', OnClosed) :: l2 → (h', cb') ∉ l2.
Proof.
  intros Hlast Hh l1 l2 h' cb' H. destruct l2 as [|x l2] using rev_ind; [intros Hin; by apply elem_of_nil in Hin|]. clear IHl2. rewrite app_comm_cons, app_assoc in H. apply app_inj_tail in H as [H <-].
  rewrite elem_of_app. intros [Hin|Hin]; [by eapply Hlast|]. apply list_elem_of_singleton in Hin. injection Hin as <- <-. apply Hh. rewrite H. apply elem_of_app. right. left.
Qed.
Lemma called_ok h cb fd l : loop_ok l → handler_at fd l = Some h → cb ≠ OnClosed → loop_ok (called h cb l).
Proof.
  intros [I1 I2 I3 I4 I5 I6 I7] Hh Hcb. assert (HE : ∀ fd', handler_at fd' (called h cb l) = handler_at fd' l) by (intros; by apply handler_at_ext).
  constructor; cbn [called el_log el_next el_handler_count el_handlers]; try done; try (intros *; rewrite ?HE; by eauto).
  - intros fd' h'. rewrite HE. intros H Hin. apply elem_of_app in Hin as [Hin|Hin]; [by eapply I4|]. apply list_elem_of_singleton in Hin. congruence.
  - intros h' cb' Hin. apply elem_of_app in Hin as [Hin|Hin]; [by eapply I5|]. apply list_elem_of_singleton in Hin. injection Hin as -> ->. by eapply I2.
  - apply log_last_snoc; [exact I6|]. by eapply I4.
  - intros h' Hlt. destruct (I7 h' Hlt) as [[fd' ?]|?]; [left; exists fd'; by rewrite HE|right; apply elem_of_app; by left].
Qed.
Lemma loop_request_keeps a fd h l : handler_at fd l = Some h → handler_at fd (loop_request a l) = Some h.
Proof.
  intros H. destruct a as [fd'|fd']; cbn [loop_request]; [destruct (CloseHandler_same fd' l) as [fds ->]; by rewrite <- H; apply handler_at_ext|].
  unfold AddHandler. destruct (Z.ltb_spec fd' 0); [done|]. unfold sbind, smod, sget. pose proof (grow_room fd' l ltac:(lia)) as Hr. set (l1 := grow_handlers fd' l) in *. assert (H1 : handler_at fd l1 = Some h) by (by unfold l1; rewrite handler_at_grow).
  destruct (handler_at fd' l1) as [h'|] eqn:E; [done|]. assert (HP : ∃ r l2, poller_add l1 = (r, l2) ∧ el_handlers l2 = el_handlers l1) by (unfold poller_add; destruct (el_add_results l1); by eexists _, _).
  destruct HP as (r & l2 & -> & E2). assert (H2 : handler_at fd l2 = Some h) by (rewrite <- H1; by apply handler_at_ext). destruct r; [|done]. cbn [snd].
  transitivity (handler_at fd (set_handlers (<[Z.to_nat fd' := Some (el_next l2)]> (el_handlers l2)) 0 l2)); [by apply handler_at_ext|]. rewrite handler_at_insert by (rewrite E2; lia). destruct (decide (fd = fd')) as [->|]; [congruence|done].
Qed.
Lemma acts_keep acts fd h l : handler_at fd l = Some h → handler_at fd (fold_left (λ l a, loop_request a l) acts l) = Some h.
Proof. revert l. induction acts as [|a acts IH]; intros l H; [done|]. apply IH. by apply loop_request_keeps. Qed.

Section Closing.
Context (react : EventLoop → nat → Callback → list LoopAction).
(** A handler that is being closed adds none. *)
Context (closing_adds_nothing : ∀ l h, Forall (λ a, match a with CloseFd _ => True | AddFd _ => False end) (react l h OnClosed)).

Lemma callback_ok h cb fd l : loop_ok l → handler_at fd l = Some h → cb ≠ OnClosed → loop_ok (callback react h cb l) ∧ handler_at fd (callback react h cb l) = Some h.
Proof.
  intros Hl Hh Hcb. split; [apply acts_ok; by eapply called_ok|]. apply acts_keep. by rewrite <- Hh; apply handler_at_ext.
Qed.
Lemma closes_only acts l : Forall (λ a, match a with CloseFd _ => True | AddFd _ => False end) acts → ∃ fds, fold_left (λ l a, loop_request a l) acts l = set_pending_closes fds l.
Proof.
  intros H. revert l. induction H as [|[fd|fd] acts Ha Hacts IH]; intros l; [exists (el_pending_closes l); by destruct l| |done].
  cbn [fold_left loop_request]. destruct (CloseHandler_same fd l) as [fds ->]. destruct (IH (set_pending_closes fds l)) as [fds' ->]. by exists fds'.
Qed.

Lemma close_slot_spec fd l : loop_ok l → loop_ok (close_slot react fd l) ∧ (∀ fd', handler_at fd' (close_slot react fd l) = if decide (fd' = fd) then None else handler_at fd' l) ∧
  (close_slot react fd l = l ∨ live (el_handlers (close_slot react fd l)) = live (el_handlers l) - 1).
Proof.
  intros Hl. unfold close_slot. destruct (handler_at fd l) as [h|] eqn:EH.
  2:{ split; [done|]. split; [|by left]. intros fd'. by destruct (decide (fd' = fd)) as [->|]. }
  unfold callback. destruct (closes_only (react l h OnClosed) (called h OnClosed l) (closing_adds_nothing l h)) as [fds ->]. cbn [set_pending_closes el_handlers el_handler_count called].
  destruct (handler_at_slot _ _ _ EH) as [Hr HS]. set (l3 := set_handlers _ _ _). assert (HA : ∀ fd', handler_at fd' l3 = if decide (fd' = fd) then None else handler_at fd' l).
  { intros fd'. rewrite <- (handler_at_insert fd fd' None l 0) by done. by apply handler_at_ext. }
  split; [|split; [exact HA|right; cbn; rewrite (live_insert _ _ _ _ HS); lia]]. destruct Hl as [I1 I2 I3 I4 I5 I6 I7].
  constructor; cbn [l3 set_handlers set_pending_closes called el_log el_next el_handler_count el_handlers].
  - rewrite (live_insert _ _ _ _ HS), I1. lia.
  - intros fd' h'. rewrite HA. destruct (decide _); [done|]. by apply I2.
  - intros fd1 fd2 h'. rewrite !HA. destruct (decide _); [done|]. destruct (decide _); [done|]. by apply I3.
  - intros fd' h'. rewrite HA. destruct (decide (fd' = fd)) as [|Hne]; [done|]. intros H Hin. apply elem_of_app in Hin as [Hin|Hin]; [by eapply I4|]. apply list_elem_of_singleton in Hin. injection Hin as ->. by apply Hne, (I3 fd' fd h).
  - intros h' cb' Hin. apply elem_of_app in Hin as [Hin|Hin]; [by eapply I5|]. apply list_elem_of_singleton in Hin. injection Hin as -> ->. by eapply I2.
  - apply log_last_snoc; [exact I6|]. by eapply I4.
  - intros h' Hlt. destruct (decide (h' = h)) as [->|Hne]; [right; apply elem_of_app; right; left|]. destruct (I7 h' Hlt) as [[fd' H']|H']; [|right; apply elem_of_app; by left].
    left. exists fd'. rewrite HA. destruct (decide (fd' = fd)) as [->|]; [congruence|done].
Qed.
Lemma close_batch batch l : loop_ok l → let l' := fold_left (λ l fd, close_slot react fd l) batch l in
  loop_ok l' ∧ (∀ fd, handler_at fd l' = if decide (fd ∈ batch) then None else handler_at fd l) ∧ (l' = l ∨ live (el_handlers l') < live (el_handlers l)).
Proof.
  revert l. induction batch as [|fd batch IH]; intros l Hl; cbn [fold_left]; [split; [done|]; split; [|by left]; intros fd; by rewrite decide_False by apply not_elem_of_nil|].
  destruct (close_slot_spec fd l Hl) as (H1 & H2 & H3). destruct (IH _ H1) as (J1 & J2 & J3). split; [done|]. split.
  - intros fd'. rewrite J2, H2. destruct (decide (fd' ∈ batch)); [by rewrite decide_True by set_solver|]. destruct (decide (fd' = fd)) as [->|]; [by rewrite decide_True by set_solver|by rewrite decide_False by set_solver].
  - destruct J3 as [J3|J3], H3 as [H3|H3]; rewrite ?J3; [by left|right; lia|right; by rewrite H3 in J3 |- *|right; lia].
Qed.
(** The loop of closes ends with nothing pending, everything that was pending closed. *)
Lemma process_closes_ok fuel l : loop_ok l → live (el_handlers l) + 1 ≤ Z.of_nat fuel → let l' := process_closes react fuel l in
  loop_ok l' ∧ el_pending_closes l' = [] ∧ (∀ fd, fd ∈ el_pending_closes l ∨ handler_at fd l = None → handler_at fd l' = None).
Proof.
  revert l. induction fuel as [|fuel IH]; intros l Hl Hf; [pose proof (live_nonneg (el_handlers l)); lia|]. cbn [process_closes]. destruct (el_pending_closes l) as [|fd0 fds] eqn:EP.
  { split; [done|]. split; [done|]. intros fd [H|H]; [by apply elem_of_nil in H|done]. }
  rewrite <- EP. set (l0 := set_pending_closes [] l). assert (H0 : loop_ok l0) by by eapply loop_ok_same. destruct (close_batch (el_pending_closes l) l0 H0) as (B1 & B2 & B3). set (l1 := fold_left _ _ l0) in *.
  assert (HN : ∀ fd, fd ∈ el_pending_closes l ∨ handler_at fd l = None → handler_at fd l1 = None) by (intros fd [H|H]; rewrite B2; destruct (decide _); done).
  destruct B3 as [B3|B3].
  - assert (HP : el_pending_closes l1 = []) by by rewrite B3. assert (E : process_closes react fuel l1 = l1) by (destruct fuel; cbn; by rewrite HP). rewrite E. done.
  - destruct (IH l1 B1) as (J1 & J2 & J3); [change (el_handlers l0) with (el_handlers l) in B3; lia|]. split; [done|]. split; [done|]. intros fd H. apply J3. right. by apply HN.
Qed.
Lemma ProcessPendingCloses_ok l : loop_ok l → let l' := ProcessPendingCloses react l in
  loop_ok l' ∧ el_pending_closes l' = [] ∧ (∀ fd, fd ∈ el_pending_closes l ∨ handler_at fd l = None → handler_at fd l' = None).
Proof. intros Hl. apply process_closes_ok; [done|]. pose proof (live_le (el_handlers l)). unfold zlen in *. lia. Qed.

Lemma dispatch_ok e l : loop_ok l → loop_ok (dispatch react e l).
Proof.
  intros Hl. unfold dispatch. destruct (handler_at (pe_fd e) l) as [h|] eqn:EH; [|done].
  assert (HW : let l1 := if pe_writable e then callback react h OnWritable l else l in loop_ok l1 ∧ handler_at (pe_fd e) l1 = Some h) by (cbv zeta; destruct (pe_writable e); [by apply callback_ok|done]).
  cbv zeta in HW. destruct HW as [H1 H2]. rewrite H2. destruct (bool_decide _); [done|]. destruct (_ || _); [|done]. by eapply callback_ok.
Qed.
Lemma tasks_ok tasks l : loop_ok l → loop_ok (fold_left (λ l t, fold_left (λ l a, loop_request a l) t l) tasks l).
Proof. revert l. induction tasks as [|t tasks IH]; intros l H; [done|]. apply IH. by apply acts_ok. Qed.
Lemma iteration_ok ready tasks l : loop_ok l → loop_ok (iteration react ready tasks l) ∧ el_pending_closes (iteration react ready tasks l) = [].
Proof.
  intros Hl. unfold iteration. assert (Hd : loop_ok (fold_left (λ l e, dispatch react e l) ready l)) by (revert l Hl; induction ready as [|e ready IH]; intros l Hl; [done|]; apply IH; by apply dispatch_ok).
  destruct (ProcessPendingCloses_ok _ (tasks_ok tasks _ Hd)) as (H1 & H2 & _). done.
Qed.
Lemma run_loop_ok rounds l : loop_ok l → el_pending_closes l = [] → loop_ok (run_loop react rounds l) ∧ el_pending_closes (run_loop react rounds l) = [].
Proof. revert l. induction rounds as [|[ready tasks] rounds IH]; intros l H1 H2; [done|]. destruct (iteration_ok ready tasks l H1) as [H3 H4]. exact (IH _ H3 H4). Qed.
Lemma live_fds_all fd h l : handler_at fd l = Some h → fd ∈ live_fds l.
Proof.
  intros H. apply handler_at_slot in H as [Hr HS]. unfold live_fds. apply list_elem_of_In, in_map_iff. exists (Z.to_nat fd). split; [lia|]. apply filter_In. split; [apply in_seq; unfold zlen in Hr; lia|].
  rewrite HS. apply bool_decide_eq_true. by eexists.
Qed.
Lemma shutdown_ok tasks l : loop_ok l → let l' := shutdown react tasks l in loop_ok l' ∧ el_pending_closes l' = [] ∧ ∀ fd, handler_at fd l' = None.
Proof.
  intros Hl. unfold shutdown. pose proof (tasks_ok tasks l Hl) as H1. set (l1 := fold_left _ tasks l) in *. set (l2 := set_pending_closes _ l1). assert (H2 : loop_ok l2) by by eapply loop_ok_same.
  destruct (ProcessPendingCloses_ok l2 H2) as (H3 & H4 & H5). split; [done|]. split; [done|]. intros fd. apply H5. destruct (handler_at fd l2) as [h|] eqn:E; [left|by right].
  cbn. apply elem_of_app. right. apply (live_fds_all fd h). rewrite <- E. symmetry. by apply handler_at_ext.
Qed.
Lemma no_live hs : (∀ i h, hs !! i ≠ Some (Some h)) → live hs = 0.
Proof. induction hs as [|[h|] hs IH]; intros H; [done|by destruct (H 0%nat h)|]. apply IH. intros i h. exact (H (S i) h). Qed.

(** C38. Whatever the descriptors report and the handlers do, depending on all that happened
    before, closing is orderly, as long as no handler adds another one while it is being
    closed (no handler of the broker does).  After each turn of the loop nothing is left to
    be closed and the handler count is the number of registered handlers; no handler hears
    anything after it was told that it is closed, and a registered one has not been told.
    When the loop has shut down no handler is left, and every handler that was ever added
    was told exactly once. *)
Theorem handlers_closed_once (results : list (Result unit)) rounds tasks :
  let l := run_loop react rounds (newEventLoop results) in
  el_pending_closes l = [] ∧ el_handler_count l = live (el_handlers l) ∧
  (∀ fd h, handler_at fd l = Some h → (h, OnClosed) ∉ el_log l) ∧
  (∀ l1 l2 h cb, el_log l = l1 ++ (h, OnClosed) :: l2 → (h, cb) ∉ l2) ∧
  let l' := shutdown react tasks l in
  el_handler_count l' = 0 ∧
  ∀ h, (h < el_next l')%nat → ∃ l1 l2, el_log l' = l1 ++ (h, OnClosed) :: l2 ∧ (h, OnClosed) ∉ l1 ∧ ∀ cb, (h, cb) ∉ l2.
Proof.
  intros l. destruct (run_loop_ok rounds (newEventLoop results) (newEventLoop_ok results) eq_refl) as [Hl Hp]. fold l in Hl, Hp. split; [done|]. split; [by apply Hl|]. split; [by apply Hl|]. split; [by apply Hl|].
  intros l'. destruct (shutdown_ok tasks l Hl) as (S1 & S2 & S3). fold l' in S1, S2, S3. split.
  - rewrite (lo_count _ S1). apply no_live. intros i h Hi. specialize (S3 (Z.of_nat i)). unfold handler_at in S3. rewrite Nat2Z.id, Hi in S3. destruct (Z.ltb_spec (Z.of_nat i) 0); [lia|done].
  - intros h Hh. destruct (lo_gone _ S1 h Hh) as [[fd H]|H]; [by rewrite S3 in H|]. apply list_elem_of_split in H as (l1 & l2 & E). exists l1, l2. split; [done|]. split; [|intros cb; by eapply (lo_last _ S1)].
    intros Hin. apply list_elem_of_split in Hin as (a & b & ->). rewrite <- app_assoc in E. apply (lo_last _ S1 _ _ _ OnClosed E). apply elem_of_app. right. left.
Qed.
End Closing.

(** A listener that adds a descriptor for each accept, a connection that closes itself at its
    second read, and a handler that on closing closes a third. *)
Definition heard (h : nat) (cb : Callback) (l : EventLoop) : nat := length (List.filter (λ x, bool_decide (x = (h, cb))) (el_log l)).
Definition busy (l : EventLoop) (h : nat) (cb : Callback) : list LoopAction :=
  match h, cb with
  | 0%nat, OnReadable => [AddFd (70 + Z.of_nat (heard 0 OnReadable l))]
  | 1%nat, OnReadable => match heard 1 OnReadable l with O => [] | _ => [CloseFd 4] end
  | 1%nat, OnClosed => [CloseFd 5; CloseFd 4]
  | _, _ => []
  end.
Lemma busy_closes l h : Forall (λ a, match a with CloseFd _ => True | AddFd _ => False end) (busy l h OnClosed).
Proof. destruct h as [|[|h]]; cbn; repeat constructor. Qed.
Local Notation both := [mkPollEvent 3 true false false; mkPollEvent 4 true true false].
Local Notation served := (run_loop busy [([], [[AddFd 3; AddFd 4; AddFd 5]]); (both, []); (both, [])] (newEventLoop [])).
Lemma served_run : el_log served = [(0%nat, OnReadable); (1%nat, OnWritable); (1%nat, OnReadable); (0%nat, OnReadable); (1%nat, OnWritable); (1%nat, OnReadable); (1%nat, OnClosed); (2%nat, OnClosed)] ∧ el_next served = 5%nat ∧ el_handler_count served = 3.
Proof. by vm_compute. Qed.
Lemma handlers_closed_once_witness : el_handler_count served = live (el_handlers served) ∧ el_handler_count (shutdown busy [] served) = 0.
Proof.
  destruct (handlers_closed_once busy busy_closes [] [([], [[AddFd 3; AddFd 4; AddFd 5]]); (both, []); (both, [])] []) as (_ & T1 & _ & _ & T2 & _).
  exact (conj T1 T2).
Defined.

(** ** Timers *)

Definition timers_ok (t : Timers) : Prop := Forall (λ x, 1 ≤ ti_interval_ms x) (tm_list t).
(** The loop never sleeps past a timer, and one run of the timers leaves none due. *)
Lemma poll_timeout_bound limit now t : 0 ≤ limit → 0 ≤ poll_timeout limit now t ≤ limit ∧ ∀ x, x ∈ tm_list t → ti_cancelled x = false → poll_timeout limit now t ≤ Z.max 0 (ti_next_fire_ms x - now).
Proof.
  unfold poll_timeout. revert limit. induction (tm_list t) as [|y l IH]; intros limit Hl; cbn [fold_left]; [split; [lia|]; intros x H; by apply elem_of_nil in H|].
  destruct (IH (if ti_cancelled y then limit else Z.min (Z.max (ti_next_fire_ms y - now) 0) limit)) as [H1 H2]; [destruct (ti_cancelled y); lia|]. split; [destruct (ti_cancelled y); lia|].
  intros x Hx Hc. apply elem_of_cons in Hx as [->|Hx]; [rewrite Hc in H1 |- *; lia|by apply H2].
Qed.
Lemma RunTimers_not_due now t : timers_ok t → timers_ok (RunTimers now t) ∧ Forall (λ x, due now x = false) (tm_list (RunTimers now t)) ∧
  tm_fired (RunTimers now t) = tm_fired t ++ map ti_id (List.filter (due now) (tm_list t)).
Proof.
  intros H. split; [|split; [|done]]; apply List.Forall_forall; intros x Hx; cbn in Hx; apply filter_In in Hx as [Hx Hc]; apply in_map_iff in Hx as (y & <- & Hy); unfold timers_ok in H; rewrite List.Forall_forall in H; specialize (H y Hy).
  - by destruct (due now y).
  - destruct (due now y) eqn:E; [|done]. unfold due. cbn. destruct (ti_cancelled y); [done|]. cbn. destruct (Z.ltb_spec now (now + ti_interval_ms y)); [done|lia].
Qed.
