(* ===== verification/TcpServer.v ===== *)
(** * TcpServer: placing and counting connections

    Models [PickLoop] and [OnAccepted] of src/net/tcp_server.cc with the task and the close
    callback it leaves behind: the limit on connections, the choice of the least loaded io
    loop, and the counters.  Accepting runs on one thread, so its check of the limit and its
    increment are one step with respect to other accepts; connections close at any time in
    between.  Binding, threads and shutting down are left out. *)
From S2P Require Import Prelude.

Record TcpServer := mkTcpServer {
  sv_max_connections : Z; sv_connection_count : Z; sv_loop_connections : list Z; sv_accepted_total : Z; sv_rejected_total : Z; sv_next_id : Z; sv_running : bool }.
Definition newTcpServer (max_connections : Z) (io_threads : nat) : TcpServer :=
  mkTcpServer max_connections 0 (replicate (Nat.max 1 io_threads) 0) 0 0 1 true.

Definition kSizeMax : Z := 2 ^ 64 - 1.
(** The loop over the counts, from index [i]. *)
Fixpoint pick_from (i : nat) (counts : list Z) (best : nat) (best_count : Z) : nat :=
  match counts with
  | [] => best
  | count :: counts => if count <? best_count then pick_from (S i) counts i count else pick_from (S i) counts best best_count
  end.
Definition PickLoop (s : TcpServer) : nat := pick_from 0 (sv_loop_connections s) 0 kSizeMax.

(** Adding to both counters of a loop. *)
Definition count_connection (i : nat) (d : Z) (s : TcpServer) : TcpServer :=
  mkTcpServer (sv_max_connections s) (u64 (sv_connection_count s + d)) (alter (λ n, u64 (n + d)) i (sv_loop_connections s)) (sv_accepted_total s) (sv_rejected_total s) (sv_next_id s) (sv_running s).
Definition refuse (s : TcpServer) : TcpServer :=
  mkTcpServer (sv_max_connections s) (sv_connection_count s) (sv_loop_connections s) (sv_accepted_total s) (u64 (sv_rejected_total s + 1)) (sv_next_id s) (sv_running s).
(** [posted] is what [PostTask] returned.  The result is the loop the connection went to. *)
Definition OnAccepted (posted : bool) (s : TcpServer) : option nat * TcpServer :=
  if negb (sv_running s) then (None, s) else
  if sv_max_connections s <=? sv_connection_count s then (None, refuse s) else
  let i := PickLoop s in
  let s := count_connection i 1 s in
  let s := mkTcpServer (sv_max_connections s) (sv_connection_count s) (sv_loop_connections s) (u64 (sv_accepted_total s + 1)) (sv_rejected_total s) (u64 (sv_next_id s + 1)) (sv_running s) in
  if posted then (Some i, s) else (None, refuse (count_connection i (-1) s)).
(** The posted task, when registering fails, and the close callback both count down. *)
Definition connection_gone (i : nat) (s : TcpServer) : TcpServer := count_connection i (-1) s.

(** ** Invariant *)

(** [open] lists, for every connection that is placed and not gone, its loop. *)
Definition on_loop (open : list nat) (i : nat) : Z := zlen (List.filter (λ j, bool_decide (j = i)) open).
Record server_inv (s : TcpServer) (open : list nat) : Prop := {
  sv_limit : 0 ≤ sv_max_connections s < 2 ^ 64;
  sv_loops : sv_loop_connections s ≠ [];
  sv_total : sv_connection_count s = zlen open;
  sv_bound : zlen open ≤ sv_max_connections s;
  sv_placed : Forall (λ i, (i < length (sv_loop_connections s))%nat) open;
  sv_counts : ∀ i n, sv_loop_connections s !! i = Some n → n = on_loop open i }.

Lemma on_loop_range open i : 0 ≤ on_loop open i ≤ zlen open.
Proof. unfold on_loop, zlen. pose proof (filter_length_le (λ j, bool_decide (j = i)) open). lia. Qed.
Lemma on_loop_cons open i j : on_loop (j :: open) i = (if decide (j = i) then 1 else 0) + on_loop open i.
Proof. unfold on_loop. cbn. destruct (decide (j = i)) as [->|]; [rewrite bool_decide_eq_true_2 by done; by rewrite zlen_cons|by rewrite bool_decide_eq_false_2]. Qed.
Lemma on_loop_app o1 o2 i : on_loop (o1 ++ o2) i = on_loop o1 i + on_loop o2 i.
Proof. unfold on_loop. by rewrite List.filter_app, zlen_app. Qed.

Lemma pick_from_spec counts i best best_count : let r := pick_from i counts best best_count in
  (r = best ∧ Forall (λ n, best_count ≤ n) counts) ∨ (∃ k n, r = (i + k)%nat ∧ counts !! k = Some n ∧ n < best_count ∧ Forall (λ m, n ≤ m) counts).
Proof.
  revert i best best_count. induction counts as [|c counts IH]; intros i best best_count; cbn [pick_from]; [by left|]. destruct (Z.ltb_spec c best_count) as [Hlt|Hge].
  - right. destruct (IH (S i) i c) as [[-> H]|(k & n & -> & H1 & H2 & H3)].
    + exists 0%nat, c. split; [lia|]. split; [done|]. split; [done|]. by constructor; [lia|].
    + exists (S k), n. split; [lia|]. split; [done|]. split; [lia|]. by constructor; [lia|].
  - destruct (IH (S i) best best_count) as [[-> H]|(k & n & -> & H1 & H2 & H3)].
    + left. split; [done|]. by constructor.
    + right. exists (S k), n. split; [lia|]. split; [done|]. split; [done|]. by constructor; [lia|].
Qed.
(** The least loaded loop. *)
Lemma PickLoop_least s open : server_inv s open → zlen open < 2 ^ 64 - 1 → ∃ n, sv_loop_connections s !! PickLoop s = Some n ∧ Forall (λ m, n ≤ m) (sv_loop_connections s).
Proof.
  intros [I1 I2 I3 I4 I5 I6] Hb. unfold PickLoop. destruct (pick_from_spec (sv_loop_connections s) 0 0 kSizeMax) as [[_ H]|(k & n & -> & H1 & _ & H3)]; [|by exists n].
  exfalso. destruct (sv_loop_connections s) as [|c cs]; [done|]. inversion H as [|? ? Hc]; subst. pose proof (I6 0%nat c eq_refl). pose proof (on_loop_range open 0). unfold kSizeMax in Hc. lia.
Qed.
Lemma count_spec i d s open open' : server_inv s open → (i < length (sv_loop_connections s))%nat → zlen open' = zlen open + d → zlen open' ≤ sv_max_connections s →
  Forall (λ i, (i < length (sv_loop_connections s))%nat) open' → (∀ j, on_loop open' j = on_loop open j + (if decide (j = i) then d else 0)) → server_inv (count_connection i d s) open'.
Proof.
  intros [I1 I2 I3 I4 I5 I6] Hi Hz Hb Hp Ho. pose proof (zlen_nonneg open'). constructor; cbn; try done.
  - intros H'. apply I2. apply (f_equal length) in H'. rewrite length_alter in H'. by destruct (sv_loop_connections s).
  - rewrite I3, <- Hz. apply uwrap_small. unfold unsigned. lia.
  - by rewrite length_alter.
  - intros j n. destruct (decide (i = j)) as [<-|Hne].
    + rewrite list_lookup_alter_eq. destruct (sv_loop_connections s !! i) as [m|] eqn:E; [|done]. cbn. intros [= <-]. rewrite (I6 _ _ E), Ho, decide_True by done. apply uwrap_small. pose proof (on_loop_range open' i) as R. rewrite Ho, decide_True in R by done. unfold unsigned. lia.
    + rewrite list_lookup_alter_ne by done. intros E. rewrite Ho, decide_False by done. rewrite (I6 _ _ E). lia.
Qed.

Inductive ServerEvent := Accepted (posted : bool) | Gone (k : nat).
(** An event on the server and the list of open connections; the [k]-th of them goes. *)
Definition server_step (e : ServerEvent) (p : TcpServer * list nat) : TcpServer * list nat :=
  let '(s, open) := p in
  match e with
  | Accepted posted => match OnAccepted posted s with (Some i, s) => (s, i :: open) | (None, s) => (s, open) end
  | Gone k => match open !! k with Some i => (connection_gone i s, take k open ++ drop (S k) open) | None => (s, open) end
  end.
Lemma refuse_inv s open : server_inv s open → server_inv (refuse s) open.
Proof. intros [I1 I2 I3 I4 I5 I6]. by constructor. Qed.
Lemma server_step_inv e s open : server_inv s open → server_inv (server_step e (s, open)).1 (server_step e (s, open)).2.
Proof.
  intros Hi. pose proof Hi as [I1 I2 I3 I4 I5 I6]. destruct e as [posted|k]; cbn [server_step].
  - unfold OnAccepted. destruct (negb (sv_running s)); [done|]. destruct (Z.leb_spec (sv_max_connections s) (sv_connection_count s)) as [|Hlt]; [by apply refuse_inv|]. rewrite I3 in Hlt.
    destruct (PickLoop_least s open Hi ltac:(lia)) as (n & HP & _). set (i := PickLoop s) in *. assert (Hlen : (i < length (sv_loop_connections s))%nat) by by eapply lookup_lt_Some.
    assert (H1 : server_inv (count_connection i 1 s) (i :: open)).
    { apply (count_spec i 1 s open); try done; rewrite ?zlen_cons; try lia; [by constructor|]. intros j. rewrite on_loop_cons. destruct (decide (i = j)), (decide (j = i)); subst; try done; lia. }
    set (s1 := mkTcpServer _ _ _ _ _ _ _). assert (H2 : server_inv s1 (i :: open)) by (destruct H1; by constructor). destruct posted; [done|]. cbn [fst snd]. apply refuse_inv.
    apply (count_spec i (-1) s1 (i :: open)); try done; rewrite ?zlen_cons; try lia; [by cbn; rewrite length_alter|by cbn; rewrite length_alter|]. intros j. rewrite on_loop_cons. destruct (decide (i = j)), (decide (j = i)); subst; try done; lia.
  - destruct (open !! k) as [i|] eqn:E; [|done]. cbn [fst snd]. assert (HO : open = take k open ++ i :: drop (S k) open) by (symmetry; by apply take_drop_middle).
    assert (HF : Forall (λ i, (i < length (sv_loop_connections s))%nat) (take k open) ∧ (i < length (sv_loop_connections s))%nat ∧ Forall (λ i, (i < length (sv_loop_connections s))%nat) (drop (S k) open)).
    { rewrite HO in I5. apply Forall_app in I5 as [F1 F2]. by inversion F2. }
    destruct HF as (F1 & F2 & F3). assert (HZ : zlen open = zlen (take k open ++ drop (S k) open) + 1) by (rewrite HO at 1; rewrite !zlen_app, zlen_cons; lia).
    apply (count_spec i (-1) s open); try done; [lia|lia|by apply Forall_app|]. intros j. rewrite HO at 3. rewrite !on_loop_app, on_loop_cons. destruct (decide (i = j)), (decide (j = i)); subst; try done; lia.
Qed.
Definition server_run (es : list ServerEvent) (p : TcpServer * list nat) : TcpServer * list nat := fold_left (λ p e, server_step e p) es p.
Lemma server_run_inv es p : server_inv p.1 p.2 → server_inv (server_run es p).1 (server_run es p).2.
Proof. revert p. induction es as [|e es IH]; intros [s open] H; [done|]. apply IH. exact (server_step_inv e s open H). Qed.

Lemma newTcpServer_inv max_connections io_threads : 0 ≤ max_connections < 2 ^ 64 → server_inv (newTcpServer max_connections io_threads) [].
Proof.
  intros Hm. constructor; [exact Hm|by destruct io_threads|done|change (0 ≤ max_connections); lia|constructor|]. intros i n Hi. cbn [newTcpServer sv_loop_connections] in Hi. by apply lookup_replicate in Hi as [-> _].
Qed.

(** However connections come and go, the server's counters are exact: the total is the
    number of connections that are placed and not gone, each loop's count the number of
    those on it, and the total never exceeds the configured limit; a new connection goes to
    a loop that has no more connections than any other. *)
Theorem server_counts (max_connections : Z) (io_threads : nat) (es : list ServerEvent) : 0 ≤ max_connections < 2 ^ 64 →
  let '(s, open) := server_run es (newTcpServer max_connections io_threads, []) in
  sv_connection_count s = zlen open ∧ zlen open ≤ max_connections ∧
  (∀ i n, sv_loop_connections s !! i = Some n → n = zlen (List.filter (λ j, bool_decide (j = i)) open)) ∧
  (zlen open < max_connections → ∃ n, sv_loop_connections s !! PickLoop s = Some n ∧ Forall (λ m, n ≤ m) (sv_loop_connections s)).
Proof.
  intros Hm. pose proof (server_run_inv es (newTcpServer max_connections io_threads, [])) as H. destruct (server_run es _) as [s open] eqn:E. cbn [fst snd] in H.
  assert (Hmax : sv_max_connections s = max_connections).
  { assert (K : ∀ es p, sv_max_connections (server_run es p).1 = sv_max_connections p.1).
    { clear. induction es as [|e es IH]; intros [s o]; [done|]. etransitivity; [exact (IH (server_step e (s, o)))|]. destruct e as [posted|k]; cbn [server_step fst]; [|by destruct (o !! k)]. unfold OnAccepted. destruct (negb _); [done|]. destruct (_ <=? _); [done|]. by destruct posted. }
    pose proof (K es (newTcpServer max_connections io_threads, [])) as HK. by rewrite E in HK. }
  destruct H as [I1 I2 I3 I4 I5 I6].
  - by apply newTcpServer_inv.
  - rewrite Hmax in I4. split; [done|]. split; [done|]. split; [exact I6|]. intros Hlt. apply (PickLoop_least s open); [by constructor; rewrite ?Hmax|lia].
Qed.
Lemma server_counts_witness : let '(s, open) := server_run [Accepted true; Accepted true; Accepted false; Gone 1; Accepted true] (newTcpServer 8 2, []) in
  sv_loop_connections s = [1; 1] ∧ sv_connection_count s = zlen open.
Proof.
  pose proof (server_counts 8 2 [Accepted true; Accepted true; Accepted false; Gone 1; Accepted true] ltac:(lia)) as T. assert (H : sv_loop_connections (server_run [Accepted true; Accepted true; Accepted false; Gone 1; Accepted true] (newTcpServer 8 2, [])).1 = [1; 1]) by by vm_compute.
  destruct (server_run _ _) as [s open]. split; [exact H|]. apply T.
Defined.
