(* ===== verification/Worker.v ===== *)
(** * Worker: the thread that runs a partition's requests

    Models src/broker/worker.cc: [Submit] and [Stop] on the side of the io threads, [Run] on
    the worker's, one step per access to shared memory, interleaved in any order.  The queue
    is the queue of [MpmcQueue] itself, run step by step: submitter [i] is thread [i], the
    worker is the last one.  A sleeping worker may wake at any time, as it does when its slice
    of time ends; a notification only makes it wake earlier.  [Stop] is modelled up to its
    join, which waits for the worker to end. *)
From S2P Require Import Prelude MpmcQueue MpmcTheorems Mailbox.

Definition Request : Set := Z.
(** Where a thread that calls [Submit] or [Stop] is; [SPushing] is inside [queue_.TryPush]. *)
Inductive SubmitPc : Set := Submitted (ok : bool) | SChecking (r : Request) | SPushing | SNotifying | SStopping | SStoring.
#[global] Instance SubmitPc_eq_dec : EqDecision SubmitPc.
Proof. unfold Request. solve_decision. Defined.
Inductive WorkerPc : Set := Popping | CheckingStop | Sleeping | FinalPopping | WorkerEnded.

Record WorkerState := mkWorker {
  wk_queue : System Request; wk_running : bool; wk_stopping : bool; wk_sleeping : bool; wk_rejected : Z; wk_processed : Z;
  wk_backoff : Z; wk_pc : WorkerPc; wk_submitters : list SubmitPc }.
(** A worker after [Start]. *)
Definition newWorker (q : MpmcQueue Request) (submitters : list SubmitPc) : WorkerState :=
  mkWorker (started q (S (length submitters))) true false false 0 0 0 Popping submitters.
Definition worker_thread (w : WorkerState) : nat := length (wk_submitters w).

Definition kSpinStepsBeforeSleep : Z := 8.
Definition kYieldLimit : Z := 12.
(** [Backoff::Pause], the steps it counts. *)
Definition Pause (step : Z) : Z := if step <? kYieldLimit then step + 1 else step.

Definition set_submitter (i : nat) (pc : SubmitPc) (w : WorkerState) : WorkerState :=
  mkWorker (wk_queue w) (wk_running w) (wk_stopping w) (wk_sleeping w) (wk_rejected w) (wk_processed w) (wk_backoff w) (wk_pc w) (<[i := pc]> (wk_submitters w)).
Definition set_pc (pc : WorkerPc) (backoff : Z) (sleeping : bool) (w : WorkerState) : WorkerState :=
  mkWorker (wk_queue w) (wk_running w) (wk_stopping w) sleeping (wk_rejected w) (wk_processed w) backoff pc (wk_submitters w).
Definition set_queue (q : System Request) (w : WorkerState) : WorkerState :=
  mkWorker q (wk_running w) (wk_stopping w) (wk_sleeping w) (wk_rejected w) (wk_processed w) (wk_backoff w) (wk_pc w) (wk_submitters w).
Definition set_flags (running stopping : bool) (w : WorkerState) : WorkerState :=
  mkWorker (wk_queue w) running stopping (wk_sleeping w) (wk_rejected w) (wk_processed w) (wk_backoff w) (wk_pc w) (wk_submitters w).
Definition count_rejected (w : WorkerState) : WorkerState :=
  mkWorker (wk_queue w) (wk_running w) (wk_stopping w) (wk_sleeping w) (wk_rejected w + 1) (wk_processed w) (wk_backoff w) (wk_pc w) (wk_submitters w).
(** [executor_.Execute(request)], [++processed_] *)
Definition count_processed (w : WorkerState) : WorkerState :=
  mkWorker (wk_queue w) (wk_running w) (wk_stopping w) (wk_sleeping w) (wk_rejected w) (wk_processed w + 1) (wk_backoff w) (wk_pc w) (wk_submitters w).

(** One step of [Submit] or of [Stop]. *)
Definition submit_step (i : nat) (spurious : bool) (w : WorkerState) : WorkerState :=
  match wk_submitters w !! i with
  | Some (SChecking r) =>
      if wk_stopping w then set_submitter i (Submitted false) w
      else set_submitter i SPushing (set_queue (sys_step i (BeginPush r) (wk_queue w)) w)
  | Some SPushing =>
      let '(q, answer) := push_move i spurious (wk_queue w) in
      match answer with
      | PushGoesOn => set_queue q w
      | Full => set_submitter i (Submitted false) (count_rejected (set_queue q w))
      | Accepted => set_submitter i SNotifying (set_queue q w)
      end
  | Some SNotifying => set_submitter i (Submitted true) w
  | Some SStopping => if wk_running w then set_submitter i SStoring (set_flags false (wk_stopping w) w) else set_submitter i (Submitted true) w
  | Some SStoring => set_submitter i (Submitted true) (set_flags (wk_running w) true w)
  | _ => w
  end.
(** One step of [Run]. *)
Definition worker_step (spurious : bool) (w : WorkerState) : WorkerState :=
  match wk_pc w with
  | Popping =>
      let '(q, answer) := pop_move (worker_thread w) spurious (wk_queue w) in
      match answer with
      | PopGoesOn => set_queue q w
      | Got => set_pc Popping 0 (wk_sleeping w) (count_processed (set_queue q w))
      | Empty => set_pc CheckingStop (wk_backoff w) (wk_sleeping w) (set_queue q w)
      end
  | CheckingStop =>
      if wk_stopping w then set_pc FinalPopping (wk_backoff w) (wk_sleeping w) w
      else if wk_backoff w <? kSpinStepsBeforeSleep then set_pc Popping (Pause (wk_backoff w)) (wk_sleeping w) w
      else set_pc Sleeping (wk_backoff w) true w
  | Sleeping => set_pc Popping 0 false w
  | FinalPopping =>
      let '(q, answer) := pop_move (worker_thread w) spurious (wk_queue w) in
      match answer with
      | PopGoesOn => set_queue q w
      | Got => count_processed (set_queue q w)
      | Empty => set_pc WorkerEnded (wk_backoff w) (wk_sleeping w) (set_queue q w)
      end
  | WorkerEnded => w
  end.
Inductive WMove : Set := WSubmit (i : nat) (spurious : bool) | WRun (spurious : bool).
Definition wstep (m : WMove) (w : WorkerState) : WorkerState := match m with WSubmit i b => submit_step i b w | WRun b => worker_step b w end.
Definition wsteps (l : list WMove) (w : WorkerState) : WorkerState := fold_left (λ w m, wstep m w) l w.

(** The requests that were given a ticket, in the order of the tickets, and those executed. *)
Definition wk_pushed (w : WorkerState) : list Request := sys_pushed (wk_queue w).
Definition wk_executed (w : WorkerState) : list Request := taken (wk_queue w).
(** A submitter that has taken a ticket and not published it. *)
Definition submitting (w : WorkerState) : Prop := ∃ i, mid_push (worker_thread w) (wk_queue w) i.
Definition fresh (pc : SubmitPc) : Prop := match pc with SChecking _ | SStopping | Submitted _ => True | _ => False end.

(** ** Invariant *)

Notation enq w := (enqueue_pos (sys_queue (wk_queue w))).
Notation ran w := (returned (wk_queue w)).

Section Requests.
Context (k : Z) (Hk : 1 ≤ k ≤ 60).

Record worker_inv (w : WorkerState) : Prop := {
  wi_mail : mail_inv k (worker_thread w) (wk_queue w);
  wi_threads : length (sys_ops (wk_queue w)) = S (worker_thread w);
  wi_submitter i pc : wk_submitters w !! i = Some pc → ∃ op, sys_ops (wk_queue w) !! i = Some op ∧ if decide (pc = SPushing) then is_push op = true else op = Idle;
  wi_processed : wk_processed w = ran w;
  wi_final : wk_pc w = FinalPopping ∨ wk_pc w = WorkerEnded → wk_stopping w = true }.

Lemma submit_inv w w' i pc pc' : worker_inv w → wk_submitters w !! i = Some pc → wk_submitters w' = <[i := pc']> (wk_submitters w) → wk_pc w' = wk_pc w → wk_processed w' = wk_processed w →
  mail_inv k (worker_thread w) (wk_queue w') → length (sys_ops (wk_queue w')) = length (sys_ops (wk_queue w)) → (∀ j, j ≠ i → sys_ops (wk_queue w') !! j = sys_ops (wk_queue w) !! j) →
  (∃ op, sys_ops (wk_queue w') !! i = Some op ∧ if decide (pc' = SPushing) then is_push op = true else op = Idle) → ran w' = ran w → (wk_stopping w = true → wk_stopping w' = true) → worker_inv w'.
Proof.
  intros [I1 I2 I3 I4 I5] Ei Es Ep Eq Hm HL Hops Hop Hr Hst. assert (HT : worker_thread w' = worker_thread w) by (unfold worker_thread; rewrite Es; apply length_insert).
  constructor; rewrite ?HT, ?Ep; try done; [by rewrite HL| |congruence|auto]. intros j q. rewrite Es. intros [(-> & <- & _)|[Hj Hq]]%list_lookup_insert_Some; [done|]. rewrite Hops by done. by apply I3.
Qed.
Lemma submit_step_inv i b w : worker_inv w → enq w < 2 ^ 62 → worker_inv (submit_step i b w).
Proof.
  intros Hi He. pose proof Hi as [I1 I2 I3 I4 I5]. unfold submit_step. destruct (wk_submitters w !! i) as [pc|] eqn:E; [|done]. destruct (I3 i pc E) as (op & Ho & Hop).
  assert (Hne : i ≠ worker_thread w) by (apply lookup_lt_Some in E; unfold worker_thread; lia).
  assert (Q : ∀ w' pc', wk_queue w' = wk_queue w → wk_pc w' = wk_pc w → wk_processed w' = wk_processed w → wk_submitters w' = <[i := pc']> (wk_submitters w) → pc ≠ SPushing → pc' ≠ SPushing → (wk_stopping w = true → wk_stopping w' = true) → worker_inv w').
  { intros w' pc' Eq Ep Er Es N1 N2 Hst. rewrite decide_False in Hop by done. subst op. apply (submit_inv w w' i pc pc'); try done; rewrite ?Eq; try done. exists Idle. by rewrite decide_False. }
  destruct pc as [ok|r| | | |]; [done| | | | |].
  - destruct (wk_stopping w) eqn:ES; [by apply (Q _ (Submitted false))|]. rewrite decide_False in Hop by done. subst op. destruct (begin_push_spec k Hk (worker_thread w) (wk_queue w) i r I1 Hne He Ho) as (B1 & B2 & B3 & B4 & B5 & B6 & B7).
    apply (submit_inv w _ i (SChecking r) SPushing); try done; [by eexists|]. unfold returned. cbn [set_submitter set_queue wk_queue]. by rewrite B2.
  - rewrite decide_True in Hop by done. pose proof (push_move_spec k Hk (worker_thread w) (wk_queue w) i b op I1 Hne He Ho Hop) as HP. destruct (push_move i b (wk_queue w)) as [q a]. destruct HP as (P1 & P2 & P3 & P4 & P5 & P6 & P7 & P8 & P9). destruct a.
    + apply (submit_inv w _ i SPushing SPushing); try done. symmetry. by apply list_insert_id.
    + apply (submit_inv w _ i SPushing SNotifying); try done. by exists Idle.
    + apply (submit_inv w _ i SPushing (Submitted false)); try done. by exists Idle.
  - by apply (Q _ (Submitted true)).
  - destruct (wk_running w); [by apply (Q _ SStoring)|by apply (Q _ (Submitted true))].
  - by apply (Q _ (Submitted true)).
Qed.
Lemma worker_inv_intro w w' : worker_inv w → wk_submitters w' = wk_submitters w → wk_stopping w' = wk_stopping w → mail_inv k (worker_thread w) (wk_queue w') → length (sys_ops (wk_queue w')) = length (sys_ops (wk_queue w)) →
  (∀ j, j ≠ worker_thread w → sys_ops (wk_queue w') !! j = sys_ops (wk_queue w) !! j) → wk_processed w' = ran w' → (wk_pc w' = FinalPopping ∨ wk_pc w' = WorkerEnded → wk_stopping w = true) → worker_inv w'.
Proof.
  intros [I1 I2 I3 I4 I5] Es Et Hm HL Hops Hp Hf. assert (HT : worker_thread w' = worker_thread w) by (unfold worker_thread; by rewrite Es).
  constructor; rewrite ?HT, ?Es, ?Et; try done; [by rewrite HL|]. intros i pc Hpc. rewrite Hops; [by apply I3|]. apply lookup_lt_Some in Hpc. unfold worker_thread. lia.
Qed.
Lemma worker_step_inv b w : worker_inv w → enq w < 2 ^ 62 → worker_inv (worker_step b w).
Proof.
  intros Hi He. pose proof Hi as [I1 I2 I3 I4 I5]. unfold worker_step. pose proof (pop_move_spec k Hk (worker_thread w) (wk_queue w) b I1 He) as HP. destruct (pop_move (worker_thread w) b (wk_queue w)) as [q a]. destruct HP as (P1 & P2 & P3 & P4 & P5 & P6).
  assert (H4 : match a with Got => wk_processed w + 1 | _ => wk_processed w end = returned q) by (destruct a; [congruence|destruct P6; lia|destruct P6 as (_ & ? & _); congruence]).
  destruct (wk_pc w) eqn:E.
  - destruct a; apply worker_inv_intro with w; try done; cbn; rewrite ?E; by intros [|].
  - destruct (wk_stopping w) eqn:ES; [|destruct (_ <? _)]; apply worker_inv_intro with w; try done; by intros [|].
  - apply worker_inv_intro with w; try done. by intros [|].
  - destruct a; apply worker_inv_intro with w; try done; intros _; apply I5; by left.
  - done.
Qed.
(** Tickets are only given out. *)
Lemma wstep_pushed m w : wk_pushed w `prefix_of` wk_pushed (wstep m w).
Proof.
  destruct m as [i b|b]; cbn [wstep].
  - unfold submit_step. destruct (wk_submitters w !! i) as [[ok|r| | | |]|]; try done.
    + destruct (wk_stopping w); [done|]. apply pushed_grows.
    + pose proof (thread_step_pushed i b (wk_queue w)) as HT. unfold push_move. destruct (thread_step i b (wk_queue w)) as [q [[]|]]; exact HT.
    + by destruct (wk_running w).
  - assert (HD : wk_pushed w `prefix_of` sys_pushed (pop_move (worker_thread w) b (wk_queue w)).1).
    { unfold pop_move. pose proof (thread_step_pushed (worker_thread w) b (wk_queue w)) as HT. destruct (sys_ops (wk_queue w) !! worker_thread w) as [[]|]; try (destruct (thread_step (worker_thread w) b (wk_queue w)) as [q [[]|]]; exact HT). apply pushed_grows. }
    unfold worker_step. destruct (wk_pc w); try done; [destruct (pop_move _ _ _) as [q []]; exact HD|destruct (wk_stopping w); [done|]; by destruct (_ <? _)|destruct (pop_move _ _ _) as [q []]; exact HD].
Qed.
Lemma wsteps_pushed l w : wk_pushed w `prefix_of` wk_pushed (wsteps l w).
Proof. revert w. induction l as [|m l IH]; intros w; [done|]. etrans; [apply (wstep_pushed m)|apply IH]. Qed.
Lemma worker_enq w : worker_inv w → zlen (wk_pushed w) = enq w.
Proof. intros Hi. exact (mi_pushed _ _ (ml_queue _ _ _ (wi_mail _ Hi))). Qed.
Lemma wsteps_small m l w : worker_inv w → zlen (wk_pushed (wsteps (m :: l) w)) < 2 ^ 62 → enq w < 2 ^ 62.
Proof. intros Hi Hb. rewrite <- worker_enq by done. pose proof (prefix_length _ _ (wsteps_pushed (m :: l) w)). unfold zlen in *. lia. Qed.
Lemma wstep_inv m w : worker_inv w → enq w < 2 ^ 62 → worker_inv (wstep m w).
Proof. destruct m as [i b|b]; [apply submit_step_inv|apply worker_step_inv]. Qed.
(** What holds at the start and is kept by every step holds throughout. *)
Lemma wsteps_rule (P : WorkerState → Prop) l w : (∀ m w, worker_inv w → enq w < 2 ^ 62 → P w → P (wstep m w)) → worker_inv w → zlen (wk_pushed (wsteps l w)) < 2 ^ 62 → P w → worker_inv (wsteps l w) ∧ P (wsteps l w).
Proof.
  intros HP. revert w. induction l as [|m l IH]; intros w Hi Hb H; [done|]. pose proof (wsteps_small m l w Hi Hb) as He. apply IH; [by apply wstep_inv|exact Hb|by apply HP].
Qed.
Lemma newWorker_inv submitters : Forall fresh submitters → worker_inv (newWorker (new_queue (2 ^ k)) submitters).
Proof.
  intros Hp. assert (HO : ∀ i, (i < S (length submitters))%nat → sys_ops (wk_queue (newWorker (new_queue (2 ^ k)) submitters)) !! i = Some Idle) by (intros; by apply lookup_replicate_2).
  constructor; cbn [newWorker wk_submitters wk_processed wk_pc].
  - apply (started_mail k Hk); [done|]. unfold worker_thread. cbn. lia.
  - cbn. by rewrite length_replicate.
  - intros i pc E. exists Idle. split; [apply HO; apply lookup_lt_Some in E; lia|]. rewrite decide_False; [done|]. intros ->. by pose proof (Forall_lookup_1 _ _ _ _ Hp E).
  - done.
  - by intros [|].
Qed.

(** ** What is there before the end is executed *)

(** Every ticket below [n] is given out and published, and the worker ends beyond [n]. *)
Definition past (n : Z) (w : WorkerState) : Prop :=
  n ≤ enq w ∧ (∀ i t, holds (worker_thread w) (wk_queue w) i t → n ≤ t) ∧ (wk_pc w = WorkerEnded → n ≤ ran w).
Lemma past_intro n w w' : past n w → wk_submitters w' = wk_submitters w → enq w' = enq w → (∀ j, j ≠ worker_thread w → sys_ops (wk_queue w') !! j = sys_ops (wk_queue w) !! j) → (wk_pc w' = WorkerEnded → n ≤ ran w') → past n w'.
Proof.
  intros (H1 & H2 & H3) Es Ee Ho Hr. assert (HT : worker_thread w' = worker_thread w) by (unfold worker_thread; by rewrite Es). split; [lia|]. split; [|done]. intros i t (A1 & op & A2 & A3). rewrite HT in A1. apply (H2 i t). split; [done|]. exists op. by rewrite <- Ho.
Qed.
Lemma worker_step_past n b w : worker_inv w → enq w < 2 ^ 62 → past n w → past n (worker_step b w).
Proof.
  intros Hi He Hn. pose proof Hn as (H1 & H2 & H3). unfold worker_step. pose proof (pop_move_spec k Hk (worker_thread w) (wk_queue w) b (wi_mail _ Hi) He) as HP. destruct (pop_move (worker_thread w) b (wk_queue w)) as [q a]. destruct HP as (P1 & P2 & P3 & P4 & P5 & P6). destruct (wk_pc w) eqn:E.
  - destruct a; apply past_intro with w; try done. cbn. by rewrite E.
  - destruct (wk_stopping w); [|destruct (_ <? _)]; by apply past_intro with w.
  - by apply past_intro with w.
  - destruct a; apply past_intro with w; try done; cbn [set_queue set_pc count_processed wk_queue wk_pc]; rewrite ?E; try done. intros _. destruct P6 as (_ & P6 & [P7|(i & A1 & op & A2 & A3)]); [rewrite P7; lia|]. apply (H2 i). split; [done|]. exists op. by rewrite <- P4.
  - done.
Qed.
Lemma submit_step_past n i b w : worker_inv w → enq w < 2 ^ 62 → past n w → past n (submit_step i b w).
Proof.
  intros Hi He (H1 & H2 & H3). pose proof Hi as [I1 I2 I3 I4 I5]. unfold submit_step. destruct (wk_submitters w !! i) as [pc|] eqn:E; [|done]. assert (Hne : i ≠ worker_thread w) by (apply lookup_lt_Some in E; unfold worker_thread; lia). destruct (I3 i pc E) as (op & Ho & Hop).
  assert (Q : ∀ w' pc', wk_submitters w' = <[i := pc']> (wk_submitters w) → wk_pc w' = wk_pc w → enq w ≤ enq w' → ran w' = ran w → (∀ j t, holds (worker_thread w) (wk_queue w') j t → holds (worker_thread w) (wk_queue w) j t ∨ enq w ≤ t) → past n w').
  { intros w' pc' Es Ep Ee Er Hh. assert (HT : worker_thread w' = worker_thread w) by (unfold worker_thread; rewrite Es; apply length_insert). split; [lia|]. rewrite HT, Ep, Er. split; [|done]. intros j t Hj. destruct (Hh j t Hj) as [Hx|Hx]; [by apply (H2 j)|lia]. }
  assert (Q' : ∀ w' pc', wk_submitters w' = <[i := pc']> (wk_submitters w) → wk_pc w' = wk_pc w → wk_queue w' = wk_queue w → past n w') by (intros w' pc' Es Ep Eq; apply (Q w' pc'); try done; rewrite ?Eq; try done; by left).
  destruct pc as [ok|r| | | |]; [done| | | | |].
  - destruct (wk_stopping w); [by apply (Q' _ (Submitted false))|]. rewrite decide_False in Hop by done. subst op. apply (Q _ SPushing); try done; cbn [set_submitter set_queue wk_queue]; rewrite (begin_push_ops _ _ _ Ho); try done. intros j t (A1 & op & A2 & A3). cbn in A2. left. split; [done|]. apply list_lookup_insert_Some in A2 as [(-> & <- & _)|[_ A2]]; [done|]. by exists op.
  - rewrite decide_True in Hop by done. pose proof (push_move_spec k Hk (worker_thread w) (wk_queue w) i b op I1 Hne He Ho Hop) as HP. pose proof (push_move_tickets k (worker_thread w) (wk_queue w) i b I1 Hne He) as HT. destruct (push_move i b (wk_queue w)) as [q a]. destruct HP as (P1 & P2 & P3 & P4 & P5 & P6 & P7 & P8 & P9). cbn [fst] in HT.
    destruct a; [apply (Q _ SPushing)|apply (Q _ SNotifying)|apply (Q _ (Submitted false))]; try done. symmetry. by apply list_insert_id.
  - by apply (Q' _ (Submitted true)).
  - destruct (wk_running w); [by apply (Q' _ SStoring)|by apply (Q' _ (Submitted true))].
  - by apply (Q' _ (Submitted true)).
Qed.
Lemma wstep_past n m w : worker_inv w → enq w < 2 ^ 62 → past n w → past n (wstep m w).
Proof. destruct m as [i b|b]; [apply submit_step_past|apply worker_step_past]. Qed.

(** ** A worker left alone *)

Definition worker_alone (n : nat) (w : WorkerState) : WorkerState := wsteps (replicate n (WRun false)) w.
Definition worker_rank (w : WorkerState) : nat :=
  match wk_pc w with CheckingStop => 10 | Sleeping => 9 | Popping | FinalPopping => pop_rank (worker_thread w) (wk_queue w) | WorkerEnded => 0 end.
Lemma worker_alone_step w : worker_inv w → enq w < 2 ^ 62 → ran w < enq w → ¬ submitting w → wk_pc w ≠ WorkerEnded → let w' := worker_step false w in
  ¬ submitting w' ∧ wk_pc w' ≠ WorkerEnded ∧ wk_pushed w' = wk_pushed w ∧ enq w' = enq w ∧ (ran w' = ran w ∧ (worker_rank w' < worker_rank w)%nat ∨ ran w' = ran w + 1).
Proof.
  intros Hi He Hlt Hno Hne. unfold worker_step. pose proof (pop_move_spec k Hk (worker_thread w) (wk_queue w) false (wi_mail _ Hi) He) as HP. pose proof (pop_move_alone k Hk (worker_thread w) (wk_queue w) (wi_mail _ Hi) He Hlt) as HA. pose proof (pop_rank_le (worker_thread w) (wk_queue w)).
  destruct (pop_move (worker_thread w) false (wk_queue w)) as [q a]. destruct HP as (P1 & P2 & P3 & P4 & P5 & P6). specialize (HA ltac:(intros i Hm; apply Hno; by exists i)).
  assert (HN : ∀ w', wk_submitters w' = wk_submitters w → wk_queue w' = q → ¬ submitting w').
  { intros w' Es Eq (i & t & A1 & op & A2 & A3). apply Hno. unfold worker_thread in A1. rewrite Es in A1. exists i, t. split; [done|]. exists op. rewrite <- P4 by done. by rewrite <- Eq. }
  destruct (wk_pc w) eqn:E; try done.
  - destruct HA as [->|[-> HA]]; (split; [by apply HN|]; split; [cbn; rewrite ?E; done|]; split_and!; try done); [right; by destruct P6|left]. split; [done|]. unfold worker_rank. cbn [set_queue wk_pc]. by rewrite E.
  - destruct (wk_stopping w); [|destruct (_ <? _)]; (split_and!; try done; left; split; [done|]; unfold worker_rank; rewrite E; cbn [set_pc wk_pc wk_queue]); [| |lia]; match goal with |- context [pop_rank (worker_thread ?x) _] => change (worker_thread x) with (worker_thread w) end; lia.
  - split_and!; try done; left; split; [done|]; unfold worker_rank; rewrite E; cbn [set_pc wk_pc wk_queue]. change (worker_thread (set_pc Popping 0 false w)) with (worker_thread w). lia.
  - destruct HA as [->|[-> HA]]; (split; [by apply HN|]; split; [cbn; rewrite ?E; done|]; split_and!; try done); [right; by destruct P6|left]. split; [done|]. unfold worker_rank. cbn [set_queue wk_pc]. by rewrite E.
Qed.
Lemma executed_ztake w : worker_inv w → wk_executed w = ztake (ran w) (wk_pushed w).
Proof. intros Hi. exact (taken_prefix k _ _ (wi_mail _ Hi)). Qed.
Lemma worker_alone_runs w : worker_inv w → enq w < 2 ^ 62 → ¬ submitting w → wk_pc w ≠ WorkerEnded → ∃ n, wk_executed (worker_alone n w) = wk_pushed w.
Proof.
  remember (12 * Z.to_nat (enq w - ran w) + worker_rank w)%nat as m eqn:Em. revert w Em. induction m as [m IH] using lt_wf_ind. intros w Em Hi He Hno Hne. pose proof (returned_le k _ _ (wi_mail _ Hi)) as (Hr & Hd & HE).
  destruct (decide (ran w = enq w)) as [E|E]; [exists 0%nat; cbn; rewrite executed_ztake, E by done; unfold ztake, wk_pushed, zlen in *; apply take_ge; lia|].
  destruct (worker_alone_step w Hi He ltac:(lia) Hno Hne) as (S1 & S2 & S3 & S4 & S5). pose proof (worker_step_inv false w Hi He) as Hi'. assert (HB : (worker_rank (worker_step false w) ≤ 10)%nat) by (pose proof (pop_rank_le (worker_thread (worker_step false w)) (wk_queue (worker_step false w))); unfold worker_rank; destruct (wk_pc (worker_step false w)); lia).
  destruct (IH (12 * Z.to_nat (enq (worker_step false w) - ran (worker_step false w)) + worker_rank (worker_step false w))%nat ltac:(rewrite S4; lia) _ eq_refl Hi' ltac:(by rewrite S4) S1 S2) as (n & Hn). exists (S n). by rewrite <- S3.
Qed.

(** ** What a submitter was told *)

Definition submitted (r : Request) (i : nat) (w : WorkerState) : Prop :=
  ∃ pc, wk_submitters w !! i = Some pc ∧
  match pc with
  | SChecking r' => r' = r
  | SPushing => ∃ op, sys_ops (wk_queue w) !! i = Some op ∧ carries op r (wk_queue w)
  | Submitted false => True
  | SStopping | SStoring => False
  | _ => r ∈ wk_pushed w
  end.
Lemma submitted_kept r i w w' : submitted r i w → wk_submitters w' !! i = wk_submitters w !! i → sys_ops (wk_queue w') !! i = sys_ops (wk_queue w) !! i → wk_pushed w `prefix_of` wk_pushed w' → submitted r i w'.
Proof.
  intros (pc & Hp & H) Ep Eo Hg. exists pc. rewrite Ep. split; [done|]. assert (HI : r ∈ wk_pushed w → r ∈ wk_pushed w') by (destruct Hg as [l ->]; intros; apply elem_of_app; by left).
  destruct pc as [[]| | | | |]; auto. rewrite Eo. destruct H as (op & Ho & Hc). exists op. split; [done|]. by eapply carries_grows.
Qed.
Lemma wstep_submitted r i m w : worker_inv w → enq w < 2 ^ 62 → submitted r i w → submitted r i (wstep m w).
Proof.
  intros Hi He H. pose proof H as (pc & Hp & Hm). pose proof (wstep_pushed m w) as Hg. destruct (wi_submitter _ Hi i pc Hp) as (op & Ho & Hop). destruct m as [j b|b]; cbn [wstep] in *.
  - destruct (decide (i = j)) as [<-|Hne].
    + assert (Hin : ∀ pc', <[i := pc']> (wk_submitters w) !! i = Some pc') by (intros; apply list_lookup_insert_eq; by eapply lookup_lt_Some). unfold submit_step in *. rewrite Hp in *. destruct pc as [ok|r'| | | |]; try done.
      * subst r'. rewrite decide_False in Hop by done. subst op. destruct (wk_stopping w); [exists (Submitted false); by split; [apply Hin|]|]. exists SPushing. split; [apply Hin|]. exists (PushStart r). cbn [set_submitter set_queue wk_queue]. rewrite (begin_push_ops _ _ _ Ho). cbn [sys_ops carries]. split; [|done]. apply list_lookup_insert_eq. by eapply lookup_lt_Some.
      * destruct Hm as (op' & Ho' & Hc). pose proof (push_move_carries (wk_queue w) i b op' r Ho' Hc) as HP. destruct (push_move i b (wk_queue w)) as [q []]; [exists SPushing; by split|exists SNotifying; by split; [apply Hin|]|exists (Submitted false); by split; [apply Hin|]].
      * exists (Submitted true). by split; [apply Hin|].
    + apply (submitted_kept r i w); [done| | |done].
      * unfold submit_step. destruct (wk_submitters w !! j) as [[ok|r'| | | |]|]; try done; [destruct (wk_stopping w)|destruct (push_move j b (wk_queue w)) as [q []]| |destruct (wk_running w)|]; cbn [set_submitter set_queue count_rejected set_flags wk_submitters]; try done; by apply list_lookup_insert_ne.
      * unfold submit_step, push_move. pose proof (thread_step_others j b (wk_queue w) i Hne) as HT. destruct (wk_submitters w !! j) as [[ok|r'| | | |]|]; try done; [destruct (wk_stopping w); [done|]; by apply sys_step_others|destruct (thread_step j b (wk_queue w)) as [q [[]|]]; exact HT|by destruct (wk_running w)].
  - assert (Hne : i ≠ worker_thread w) by (apply lookup_lt_Some in Hp; unfold worker_thread; lia). pose proof (pop_move_spec k Hk (worker_thread w) (wk_queue w) b (wi_mail _ Hi) He) as HP. unfold worker_step in *. destruct (pop_move (worker_thread w) b (wk_queue w)) as [q a]. destruct HP as (P1 & P2 & P3 & P4 & P5 & P6). specialize (P4 i Hne).
    apply (submitted_kept r i w); try done; (destruct (wk_pc w); [destruct a|destruct (wk_stopping w); [|destruct (_ <? _)]| |destruct a|]; done).
Qed.
End Requests.

(** C40. Requests run on the worker in the order of their tickets, each once, on the real queue
    step by step: at any moment the executed requests are the first of those that took a
    ticket, [processed_] counts them, and a request whose submitter was told that it was
    accepted has a ticket.  Until it has ended the worker, left alone, executes every request
    that has a ticket, also from its sleep and when it was told to stop, provided no submitter
    stands still on a ticket it has not published.  Whatever happens after a moment with the
    worker running and no such ticket, when the worker has ended it has executed every request
    that had its ticket at that moment; and it ends only after it was told to stop.  (For a
    queue capacity from 2 on, and fewer than 2^62 requests.) *)
Theorem worker_executes (capacity : Z) (submitters : list SubmitPc) (l : list WMove) : 2 ≤ capacity ≤ 2 ^ 60 → Forall fresh submitters →
  ∃ q, newMpmc capacity = Some q ∧
  let w := wsteps l (newWorker q submitters) in
  zlen (wk_pushed w) < 2 ^ 62 →
  wk_executed w `prefix_of` wk_pushed w ∧ wk_processed w = zlen (wk_executed w) ∧
  (∀ i r, submitters !! i = Some (SChecking r) → wk_submitters w !! i = Some (Submitted true) → r ∈ wk_pushed w) ∧
  (wk_pc w = WorkerEnded → wk_stopping w = true) ∧
  (wk_pc w ≠ WorkerEnded → ¬ submitting w →
   (∃ n, wk_executed (worker_alone n w) = wk_pushed w) ∧
   ∀ l', let w' := wsteps l' w in zlen (wk_pushed w') < 2 ^ 62 → wk_pc w' = WorkerEnded → wk_pushed w `prefix_of` wk_executed w').
Proof.
  intros Hc Hp. destruct (round_up_spec capacity Hc) as (k & Hk & HR & _). exists (new_queue (2 ^ k)). unfold newMpmc. rewrite HR. split; [done|]. intros Hb. pose proof (newWorker_inv k Hk submitters Hp) as H0. destruct (wsteps_rule k Hk (λ _, True) l _ ltac:(done) H0 Hb I) as [Hi _]. set (w := wsteps l _) in *.
  pose proof (worker_enq k w Hi) as HE. pose proof (returned_le k _ _ (wi_mail _ _ Hi)) as (Hr & Hd & _). split; [rewrite (executed_ztake k) by done; apply prefix_take|]. split; [rewrite (wi_processed _ _ Hi); unfold wk_executed, taken, returned, zlen; by rewrite length_fmap|]. split; [|split].
  - intros i r Hi0 Hi1. destruct (wsteps_rule k Hk (submitted r i) l _ (λ m w, wstep_submitted k Hk r i m w) H0 Hb) as [_ (pc & Hpc & HX)]; [by exists (SChecking r)|]. fold w in Hpc, HX. rewrite Hi1 in Hpc. by injection Hpc as <-.
  - intros He. apply (wi_final _ _ Hi). by right.
  - intros Hne Hno. split; [apply (worker_alone_runs k Hk); try done; lia|]. intros l'. cbv zeta. set (w' := wsteps l' w). intros Hb' He'. destruct (wsteps_rule k Hk (past (enq w)) l' w (λ m w, wstep_past k Hk (enq _) m w) Hi Hb') as [Hi' (_ & _ & HP)]; [split; [lia|]; split; [intros i t Ht; by destruct Hno; exists i, t|done]|]. specialize (HP He').
    fold w' in HP, Hi'. rewrite (executed_ztake k) by done. destruct (wsteps_pushed l' w) as [rest Hrest]. fold w' in Hrest. rewrite Hrest. unfold ztake. rewrite take_app_ge by (unfold zlen in HE; lia). by eexists.
Qed.

(** ** Examples *)

Definition submit (i : nat) : list WMove := replicate 7 (WSubmit i false).
Definition run_worker (n : nat) : list WMove := replicate n (WRun false).
Definition queue8 : MpmcQueue Request := new_queue 8.
Definition two_submits : WorkerState := Eval vm_compute in wsteps (submit 0 ++ run_worker 2 ++ submit 1) (newWorker queue8 [SChecking 1; SChecking 2; SStopping]).
Lemma two_submits_run : wsteps (submit 0 ++ run_worker 2 ++ submit 1) (newWorker queue8 [SChecking 1; SChecking 2; SStopping]) = two_submits.
Proof. vm_compute. reflexivity. Qed.
Lemma queue8_new : newMpmc 8 = Some queue8.
Proof. vm_compute. reflexivity. Qed.
Lemma two_submits_quiet : ¬ submitting two_submits.
Proof. intros (i & t & Hi & op & Ho & Ht). destruct i as [|[|[|[|i]]]]; cbn in Ho; [injection Ho as <-..|]; done. Qed.
(** Two requests are submitted, then the worker is stopped and ends: both were executed. *)
Definition stopped_worker : WorkerState := Eval vm_compute in wsteps (replicate 2 (WSubmit 2 false) ++ run_worker 30) two_submits.
Lemma stopped_worker_run : wsteps (replicate 2 (WSubmit 2 false) ++ run_worker 30) two_submits = stopped_worker.
Proof. vm_compute. reflexivity. Qed.
Lemma worker_executes_witness : 2 ∈ wk_pushed two_submits ∧ (∃ n, wk_executed (worker_alone n two_submits) = [1; 2]) ∧ [1; 2] `prefix_of` wk_executed stopped_worker.
Proof.
  destruct (worker_executes 8 [SChecking 1; SChecking 2; SStopping] (submit 0 ++ run_worker 2 ++ submit 1) ltac:(lia) ltac:(by repeat constructor)) as (q & Hq & T). rewrite queue8_new in Hq. injection Hq as <-. rewrite two_submits_run in T. destruct T as (_ & _ & T1 & _ & T2); [by vm_compute|].
  destruct (T2 ltac:(discriminate) two_submits_quiet) as [T3 T4]. split; [by apply (T1 1%nat)|]. split; [exact T3|]. specialize (T4 (replicate 2 (WSubmit 2 false) ++ run_worker 30)). cbv zeta in T4. rewrite stopped_worker_run in T4. apply T4; [by vm_compute|reflexivity].
Defined.

Lemma ended_worker n w : wk_pc w = WorkerEnded → worker_alone n w = w.
Proof. intros H. unfold worker_alone. induction n as [|n IH]; [done|]. cbn. unfold worker_step. by rewrite H. Qed.
(** A request accepted while the worker stops is never executed: the io thread saw the worker
    running, and pushed after the worker had looked at its queue for the last time. *)
Lemma request_lost_at_stop : let w := wsteps ([WSubmit 0 false; WSubmit 1 false; WSubmit 1 false] ++ run_worker 7 ++ replicate 6 (WSubmit 0 false)) (newWorker queue8 [SChecking 1; SStopping]) in
  wk_pc w = WorkerEnded ∧ wk_submitters w = [Submitted true; Submitted true] ∧ wk_pushed w = [1] ∧ wk_executed w = [] ∧ ∀ n, worker_alone n w = w.
Proof. cbv zeta. set (w := wsteps _ _). assert (H : wk_pc w = WorkerEnded) by (by vm_compute). split_and!; [done|by vm_compute|by vm_compute|by vm_compute|]. intros. by apply ended_worker. Qed.
(** And a request accepted before the stop is lost behind a ticket that is not published yet:
    submitter 0 has taken its ticket, submitter 1 has been told that its request was accepted,
    and only then is the worker told to stop. *)
Lemma request_lost_behind_ticket :
  let before := wsteps (replicate 4 (WSubmit 0 false) ++ submit 1) (newWorker queue8 [SChecking 1; SChecking 2; SStopping]) in
  let w := wsteps (replicate 2 (WSubmit 2 false) ++ run_worker 7) before in
  wk_submitters before !! 1%nat = Some (Submitted true) ∧ wk_stopping before = false ∧ wk_pc w = WorkerEnded ∧ wk_pushed w = [1; 2] ∧ wk_executed w = [] ∧ ∀ n, worker_alone n w = w.
Proof. cbv zeta. set (b := wsteps _ (newWorker _ _)). set (w := wsteps _ b). assert (H : wk_pc w = WorkerEnded) by (by vm_compute). split_and!; [by vm_compute|by vm_compute|done|by vm_compute|by vm_compute|]. intros. by apply ended_worker. Qed.
