(* ===== verification/Sender.v ===== *)
(** * Sender: the thread that replicates to one peer

    Models the rest of src/replication/replicator.cc, over [Replication] for one partition
    and [SyncClient] for the connection: connecting, a round over all partitions, the
    liveness probe, what happens when the peer cannot be reached, and the counters.  An
    iteration of [Run] is a function of what the system answers during it ([RoundEnv]); the
    partitions are those of the partition manager, which other threads may change between
    iterations.  The two buffers are cleared before every use, so they are not kept. *)
From S2P Require Import Prelude Status Buffer Types OrdMap Codec MessageCodec MessagesData MessagesControl MessagesGroup ClusterMetadata PartitionLog Replica Frame Socket SyncClient Replication.

(** The counters of [Replicator]. *)
Record Totals := mkTotals { to_batches : Z; to_records : Z; to_bytes : Z; to_failures : Z; to_reconnects : Z; to_rejected : Z }.
Definition no_totals : Totals := mkTotals 0 0 0 0 0 0.
Definition add_batch (records bytes : Z) (t : Totals) : Totals :=
  mkTotals (u64 (to_batches t + 1)) (u64 (to_records t + records)) (u64 (to_bytes t + bytes)) (to_failures t) (to_reconnects t) (to_rejected t).
Definition add_send_failure (t : Totals) : Totals := mkTotals (to_batches t) (to_records t) (to_bytes t) (u64 (to_failures t + 1)) (to_reconnects t) (to_rejected t).
Definition add_reconnect (t : Totals) : Totals := mkTotals (to_batches t) (to_records t) (to_bytes t) (to_failures t) (u64 (to_reconnects t + 1)) (to_rejected t).
Definition add_rejected (t : Totals) : Totals := mkTotals (to_batches t) (to_records t) (to_bytes t) (to_failures t) (to_reconnects t) (u64 (to_rejected t + 1)).

Record BackoffOptions := mkBackoffOptions { bo_reconnect_ms : Z; bo_reconnect_max_ms : Z }.
Record Sender := mkSender {
  sd_peer : Z; sd_client : SyncClient; sd_connected : bool; sd_backoff_ms : Z; sd_notified : bool; sd_stopping : bool;
  sd_batches_sent : Z; sd_last_success_ms : Z; sd_max_lag_records : Z; sd_next_request_id : Z; sd_last_probe_ms : Z }.
Definition newSender (bo : BackoffOptions) (client : SyncClient) (peer : Z) : Sender :=
  mkSender peer client false (bo_reconnect_ms bo) false false 0 0 0 1 0.
Definition set_client (c : SyncClient) (connected : bool) (s : Sender) : Sender :=
  mkSender (sd_peer s) c connected (sd_backoff_ms s) (sd_notified s) (sd_stopping s) (sd_batches_sent s) (sd_last_success_ms s) (sd_max_lag_records s) (sd_next_request_id s) (sd_last_probe_ms s).
Definition set_backoff (ms : Z) (s : Sender) : Sender :=
  mkSender (sd_peer s) (sd_client s) (sd_connected s) ms (sd_notified s) (sd_stopping s) (sd_batches_sent s) (sd_last_success_ms s) (sd_max_lag_records s) (sd_next_request_id s) (sd_last_probe_ms s).
Definition set_notified (b : bool) (s : Sender) : Sender :=
  mkSender (sd_peer s) (sd_client s) (sd_connected s) (sd_backoff_ms s) b (sd_stopping s) (sd_batches_sent s) (sd_last_success_ms s) (sd_max_lag_records s) (sd_next_request_id s) (sd_last_probe_ms s).
Definition set_progress (batches now_ms : Z) (s : Sender) : Sender :=
  mkSender (sd_peer s) (sd_client s) (sd_connected s) (sd_backoff_ms s) (sd_notified s) (sd_stopping s) batches now_ms (sd_max_lag_records s) (sd_next_request_id s) (sd_last_probe_ms s).
Definition set_max_lag (lag : Z) (s : Sender) : Sender :=
  mkSender (sd_peer s) (sd_client s) (sd_connected s) (sd_backoff_ms s) (sd_notified s) (sd_stopping s) (sd_batches_sent s) (sd_last_success_ms s) lag (sd_next_request_id s) (sd_last_probe_ms s).
Definition set_probe (now_ms : Z) (s : Sender) : Sender :=
  mkSender (sd_peer s) (sd_client s) (sd_connected s) (sd_backoff_ms s) (sd_notified s) (sd_stopping s) (sd_batches_sent s) (sd_last_success_ms s) (sd_max_lag_records s) (sd_next_request_id s) now_ms.

Definition Sender_Notify (s : Sender) : Sender := set_notified true s.
Definition Sender_Stop (s : Sender) : Sender :=
  if sd_stopping s then s else
  mkSender (sd_peer s) (sd_client s) (sd_connected s) (sd_backoff_ms s) true true (sd_batches_sent s) (sd_last_success_ms s) (sd_max_lag_records s) (sd_next_request_id s) (sd_last_probe_ms s).

Definition kLivenessProbeIntervalMs : Z := 200.
Definition repl_chunk : Z := 64 * 1024.

(** What the system answers during an iteration: the connection it opens, and the clock as
    read when the peer is out of reach or else at the start of the round, and before the
    probe. *)
Record RoundEnv := mkRoundEnv {
  rv_cluster : ClusterMetadata; rv_opened : Result TcpSocket; rv_no_delay : Result unit; rv_now_ms : Z; rv_idle_now_ms : Z }.

(** [client_.Call(op, next_request_id_++, payload)] *)
Definition sender_call (op : OpCode) (payload : bytes) (s : Sender) : Result Frame * Sender :=
  let '(r, c) := Call repl_chunk op (sd_next_request_id s) payload (sd_client s) in
  (r, mkSender (sd_peer s) c (sd_connected s) (sd_backoff_ms s) (sd_notified s) (sd_stopping s) (sd_batches_sent s) (sd_last_success_ms s) (sd_max_lag_records s)
        (u64 (sd_next_request_id s + 1)) (sd_last_probe_ms s)).

Section Sender.
Context (o : ReplicatorOptions) (bo : BackoffOptions) (nanos : DurabilityWaiter → Z).

Definition EnsureConnected (env : RoundEnv) (s : Sender) (t : Totals) : Result unit * Sender * Totals :=
  if sd_connected s && connected (sd_client s) then (Ok tt, s, t) else
  match FindBroker (sd_peer s) (rv_cluster env) with
  | None => (Err kNotFound, s, t)
  | Some _ =>
      match Client_Connect (rv_opened env) (rv_no_delay env) (sd_client s) with
      | (Err e, c) => (Err e, set_client c false s, t)
      | (Ok _, c) => (Ok tt, set_backoff (bo_reconnect_ms bo) (set_client c true s), add_reconnect t)
      end
  end.

(** The lag a round sees on a partition it replicates to the peer. *)
Definition lag_of (peer : Z) (r : Node) : Z :=
  if is_leader r && HasReplica peer (pr_assignment r) then
    let follower_offset := (follower_position peer r).1 in
    let log_start := log_start_offset (pr_log r) in
    log_end_offset (pr_log r) - (if follower_offset <? log_start then log_start else follower_offset)
  else 0.
(** The error of a response, for the counters; [handle_response] does the rest. *)
Definition response_error (payload : bytes) : option ErrorCode :=
  match (ReplicateResponse_Decode (newReader payload)).1 with Some response => Some (error (rresp_header response)) | None => None end.

Record Round := mkRound { rd_nodes : list Node; rd_done : list Completion; rd_sender : Sender; rd_totals : Totals }.
(** One partition: whether a batch went out. *)
Definition send_one (now_ms : Z) (r : Node) (s : Sender) (t : Totals) : Result bool * Node * list Completion * Sender * Totals :=
  match prepare o (sd_peer s) emptyBuffer r with
  | (None, r) => (Ok false, r, [], s, t)
  | (Some request, r) =>
      match sender_call kReplicate (Readable (ReplicateRequest_Encode request emptyBuffer)) s with
      | (Err e, s) => (Err e, r, [], set_client (sd_client s) false s, add_send_failure t)
      | (Ok frame, s) =>
          let '(status, r, done) := handle_response nanos (sd_peer s) now_ms (fpayload frame) r in
          match status with
          | Err e => (Err e, r, done, set_client (sd_client s) false s, t)
          | Ok _ =>
              if negb (bool_decide (response_error (fpayload frame) = Some kOk)) then (Ok false, r, done, s, add_rejected t)
              else if rreq_record_count request =? 0 then (Ok false, r, done, set_progress (sd_batches_sent s) now_ms s, t)
              else (Ok true, r, done, set_progress (u64 (sd_batches_sent s + 1)) now_ms s, add_batch (rreq_record_count request) (zlen (rreq_records request)) t)
          end
      end
  end.
(** The loop of [SendPending]; an error leaves the partitions that follow alone. *)
Fixpoint send_all (now_ms : Z) (rs : list Node) (batches worst_lag : Z) (s : Sender) (t : Totals) : Result Z * Round :=
  match rs with
  | [] => (Ok batches, mkRound [] [] (set_max_lag worst_lag s) t)
  | r :: rs =>
      let worst_lag := Z.max worst_lag (lag_of (sd_peer s) r) in
      let '(sent, r, done, s, t) := send_one now_ms r s t in
      match sent with
      | Err e => (Err e, mkRound (r :: rs) done s t)
      | Ok b =>
          let '(res, rest) := send_all now_ms rs (if b then batches + 1 else batches) worst_lag s t in
          (res, mkRound (r :: rd_nodes rest) (done ++ rd_done rest) (rd_sender rest) (rd_totals rest))
      end
  end.
Definition SendPending (now_ms : Z) (rs : list Node) (s : Sender) (t : Totals) : Result Z * Round := send_all now_ms rs 0 0 s t.

(** The peer is out of reach: it leaves the in-sync set of every partition led here. *)
Definition evict_one (peer now_ms : Z) (r : Node) : Node * list Completion :=
  if is_leader r && HasReplica peer (pr_assignment r) then MarkFollowerOutOfSync nanos peer now_ms r else (r, []).
Definition disconnect (s : Sender) : Sender := set_client (Client_Close (sd_client s)) false s.
(** An iteration of [Run], with the waits in it: they end by the time or a notification. *)
Definition sender_round (env : RoundEnv) (rs : list Node) (s : Sender) (t : Totals) : Round :=
  match EnsureConnected env s t with
  | (Err _, s, t) =>
      let evicted := map (evict_one (sd_peer s) (rv_now_ms env)) rs in
      mkRound (map fst evicted) (concat (map snd evicted)) (set_backoff (Z.min (sd_backoff_ms s * 2) (bo_reconnect_max_ms bo)) s) t
  | (Ok _, s, t) =>
      match SendPending (rv_now_ms env) rs s t with
      | (Err _, rd) => mkRound (rd_nodes rd) (rd_done rd) (disconnect (rd_sender rd)) (rd_totals rd)
      | (Ok sent, rd) =>
          if 0 <? sent then rd else
          let s := rd_sender rd in
          if kLivenessProbeIntervalMs <=? rv_idle_now_ms env - sd_last_probe_ms s then
            match sender_call kHealth [] (set_probe (rv_idle_now_ms env) s) with
            | (Err _, s) => mkRound (rd_nodes rd) (rd_done rd) (disconnect s) (rd_totals rd)
            | (Ok _, s) => mkRound (rd_nodes rd) (rd_done rd) (set_notified false (set_progress (sd_batches_sent s) (rv_idle_now_ms env) s)) (rd_totals rd)
            end
          else mkRound (rd_nodes rd) (rd_done rd) (set_notified false s) (rd_totals rd)
      end
  end.
End Sender.

(** ** The senders of a broker *)

Record FollowerView := mkFollowerView { fv_broker : Z; fv_connected : bool; fv_batches_sent : Z; fv_max_lag_records : Z; fv_last_success_ms : Z }.
Definition Sender_Describe (s : Sender) : FollowerView :=
  mkFollowerView (sd_peer s) (sd_connected s) (sd_batches_sent s) (sd_max_lag_records s) (sd_last_success_ms s).

Record Replicator := mkReplicator { rp_senders : list Sender; rp_totals : Totals; rp_running : bool }.
Definition Replicator_Start (o : ReplicatorOptions) (bo : BackoffOptions) (client : SyncClient) (md : ClusterMetadata) (p : Replicator) : Replicator :=
  if rp_running p then p else
  let peers := List.filter (λ b, negb (be_id b =? ro_self o)) (md_brokers md) in
  mkReplicator (rp_senders p ++ map (λ b, newSender bo client (be_id b)) peers) (rp_totals p) true.
Definition Replicator_Stop (p : Replicator) : Replicator := if rp_running p then mkReplicator [] (rp_totals p) false else p.
Definition NotifyAppend (p : Replicator) : Replicator := mkReplicator (map Sender_Notify (rp_senders p)) (rp_totals p) (rp_running p).
Definition DescribeFollowers (p : Replicator) : list FollowerView := map Sender_Describe (rp_senders p).
Record ReplicationStats := mkReplicationStats { rt_totals : Totals; rt_max_lag_records : Z; rt_connected_followers : Z }.
Definition Replicator_GetStats (p : Replicator) : ReplicationStats :=
  fold_left (λ st v, mkReplicationStats (rt_totals st) (Z.max (rt_max_lag_records st) (fv_max_lag_records v)) (if fv_connected v then rt_connected_followers st + 1 else rt_connected_followers st))
    (DescribeFollowers p) (mkReplicationStats (rp_totals p) 0 0).
