(* ===== verification/SenderTheorems.v ===== *)
(** * SenderTheorems: what the replication thread does to the partitions

    A round is the one of [Replication], partition by partition; it touches only what is
    known of the peer; a peer that cannot be reached is evicted within two iterations; one
    that accepts connections and never answers stays in sync. *)
From S2P Require Import Prelude Status Buffer Types OrdMap Codec MessageCodec MessagesData MessagesControl MessagesGroup ClusterMetadata PartitionLog PartitionLogTheorems Replica ReplicaTheorems Frame Socket SyncClient Replication Sender.

Section Rounds.
Context (o : ReplicatorOptions) (bo : BackoffOptions) (nanos : DurabilityWaiter → Z).

(** ** The round is the one of [Replication], partition by partition *)

Definition call_payload (id : Z) (payload : bytes) : SR SyncClient bytes := λ c,
  match Call repl_chunk kReplicate id payload c with (Ok f, c) => (Ok (fpayload f), c) | (Err e, c) => (Err e, c) end.
Lemma send_one_partition now r s t : let '(res, r', done, s', _) := send_one o nanos now r s t in
  let '(res0, r0, done0, c0) := send_partition (call_payload (sd_next_request_id s)) o nanos (sd_peer s) now emptyBuffer emptyBuffer r (sd_client s) in
  (match res with Ok _ => Ok tt | Err e => Err e end = res0) ∧ r' = r0 ∧ done = done0 ∧ sd_client s' = c0 ∧ sd_peer s' = sd_peer s.
Proof.
  unfold send_one, send_partition, sender_call, call_payload. change (Clear emptyBuffer) with emptyBuffer. destruct (prepare _ _ _ r) as [[request|] r1]; [|done].
  destruct (Call _ _ _ _ _) as [[f|e] c]; [|done]. cbn [sd_peer]. destruct (handle_response _ _ _ _ r1) as [[st r2] done] eqn:EH. assert (Hst : st = Ok tt ∨ ∃ e, st = Err e) by (destruct st as [[]|e]; [by left|right; by eexists]).
  destruct Hst as [-> | [e ->]]; [|done]. destruct (negb _); [done|]. by destruct (_ =? 0).
Qed.

(** ** What a partition keeps *)

Definition entry (b : Z) (r : Node) : option FollowerState := om_find b (pr_followers r).
Definition replicates (peer : Z) (r : Node) : bool := is_leader r && HasReplica peer (pr_assignment r).
(** Two states of a partition that a sender for [peer] may lead from one to the other: it
    touches only what it knows of that peer, and of its positions only raises them. *)
Record sent_to (peer : Z) (r r' : Node) : Prop := {
  sn_self : pr_self r' = pr_self r;
  sn_assignment : pr_assignment r' = pr_assignment r;
  sn_others : ∀ b, b ≠ peer → entry b r' = entry b r;
  sn_idle : replicates peer r = false → r' = r;
  sn_peer : match entry peer r, entry peer r' with
            | Some f, Some f' => fs_log_end f ≤ fs_log_end f' ∧ fs_flushed f ≤ fs_flushed f'
            | None, None => True
            | _, _ => False
            end }.
Lemma sent_to_refl peer r : sent_to peer r r.
Proof. constructor; try done. by destruct (entry peer r). Qed.
Lemma prepare_log peer buf r : ∃ l, (prepare o peer buf r).2 = with_log l r ∧ (replicates peer r = false → prepare o peer buf r = (None, r)).
Proof.
  assert (Hs : r = with_log (pr_log r) r) by by destruct r. unfold prepare, replicates. destruct (is_leader r); [|by exists (pr_log r)]. destruct (HasReplica peer _); [|by exists (pr_log r)]. cbn [negb andb].
  destruct (follower_position peer r) as [fo ff]. set (fo' := if fo <? _ then _ else fo). destruct (_ && _); [by exists (pr_log r)|]. destruct (_ <=? fo'); [by exists (pr_log r)|].
  destruct (Log_Read _ _ _) as [res [l b]]. exists l. split; [|done]. destruct res as [rr|e]; [|done]. by destruct (_ =? 0).
Qed.
(** Any step of a replica that is about the peer's entry. *)
Lemma settled_sent_to peer r l r1 ws out f f' : replicates peer r = true → entry peer r = Some f → fs_log_end f ≤ fs_log_end f' → fs_flushed f ≤ fs_flushed f' →
  r1 = with_followers (om_insert peer f' (pr_followers r)) (with_log l r) → settled nanos r1 ws out → sent_to peer r out.1.
Proof.
  intros Hr Hf H1 H2 -> [_ _ _ _ _ S6 S7 S8]. constructor; [by rewrite S8|by rewrite S7| |by rewrite Hr|]; unfold entry in *; rewrite S6; cbn.
  - intros b Hb. by rewrite om_find_insert, decide_False.
  - by rewrite om_find_insert, decide_True, Hf by done.
Qed.
Lemma sent_to_log peer r l : replicates peer r = true → sent_to peer r (with_log l r).
Proof. intros Hr. constructor; try done; [by rewrite Hr|]. unfold entry. cbn. by destruct (om_find _ _). Qed.
Lemma progress_sent_to peer e f now r l : replicates peer r = true → sent_to peer r (OnFollowerProgress nanos peer e f now (with_log l r)).1.1.
Proof.
  intros Hr. destruct (entry peer r) as [s|] eqn:E.
  - pose proof (step_settled nanos (RFollower peer e f now) (with_log l r)) as H. cbn in H. unfold entry in E. rewrite E in H. specialize (H _ eq_refl).
    eapply (settled_sent_to peer r l _ _ _ s); [done|done| | |done|exact H]; cbn; lia.
  - unfold OnFollowerProgress. cbn. unfold entry in E. rewrite E. by apply sent_to_log.
Qed.
Lemma handle_sent_to peer now payload r l : replicates peer r = true → sent_to peer r (handle_response nanos peer now payload (with_log l r)).1.2.
Proof.
  intros Hr. unfold handle_response. destruct (ReplicateResponse_Decode _).1 as [resp|]; [|by apply sent_to_log].
  case_bool_decide; [by apply progress_sent_to|]. case_bool_decide; [by apply progress_sent_to|by apply sent_to_log].
Qed.
Lemma send_one_sent_to now r s t : sent_to (sd_peer s) r (send_one o nanos now r s t).1.1.1.2.
Proof.
  pose proof (send_one_partition now r s t) as HP. destruct (send_one o nanos now r s t) as [[[[res r'] done] s'] t']. cbn. revert HP. unfold send_partition. destruct (prepare_log (sd_peer s) emptyBuffer r) as (l & E & HI).
  destruct (replicates (sd_peer s) r) eqn:ER; [|rewrite HI by done; intros (_ & -> & _); apply sent_to_refl].
  destruct (prepare _ _ _ r) as [[request|] r1]; cbn [snd] in E; subst r1; [|intros (_ & -> & _); by apply sent_to_log].
  destruct (call_payload _ _ _) as [[p|e] c]; [|intros (_ & -> & _); by apply sent_to_log]. pose proof (handle_sent_to (sd_peer s) now p r l ER) as H. destruct (handle_response _ _ _ _ _) as [[st r2] done2]. by intros (_ & -> & _).
Qed.
Lemma send_one_peer now r s t : sd_peer (send_one o nanos now r s t).1.2 = sd_peer s.
Proof.
  pose proof (send_one_partition now r s t) as HP. destruct (send_one o nanos now r s t) as [[[[res r'] done] s'] t']. destruct (send_partition _ _ _ _ _ _ _ _ _) as [[[? ?] ?] ?]. cbn. by destruct HP as (_ & _ & _ & _ & ->).
Qed.
Lemma send_all_sent_to now rs batches lag s t : Forall2 (sent_to (sd_peer s)) rs (rd_nodes (send_all o nanos now rs batches lag s t).2) ∧ sd_peer (rd_sender (send_all o nanos now rs batches lag s t).2) = sd_peer s.
Proof.
  revert batches lag s t. induction rs as [|r rs IH]; intros batches lag s t; cbn [send_all]; [done|]. pose proof (send_one_sent_to now r s t) as H1. pose proof (send_one_peer now r s t) as H2.
  destruct (send_one o nanos now r s t) as [[[[res r'] done] s'] t']. cbn in H1, H2. rewrite <- H2 in H1 |- *. destruct res as [b|e].
  - destruct (IH (if b then batches + 1 else batches) (Z.max lag (lag_of (sd_peer s) r)) s' t') as [J1 J2]. rewrite H2 in *. destruct (send_all _ _ _ _ _ _ _ _) as [res2 rest]. cbn in *. split; [by constructor|done].
  - cbn. split; [|done]. constructor; [done|]. clear. induction rs; constructor; [apply sent_to_refl|done].
Qed.

(** ** Out of reach *)

Definition in_sync (peer : Z) (r : Node) : bool := match entry peer r with Some f => fs_in_sync f | None => false end.
(** The partition has taken the eviction into account: its high-water mark no longer waits for
    the peer, and no request is left waiting whose condition holds. *)
Definition moved_on (r : Node) : Prop := hwm_target r ≤ pr_hwm r ∧ ∀ w, w ∈ pr_waiters r → ¬ acknowledgeable r w.
(** What the round does to a partition when the peer is out of reach: the log, the assignment
    and everything known of other followers stay, of the peer only the in-sync flag changes,
    the high-water mark does not fall, and whoever waits had been waiting before. *)
Definition out_of_sync (f : FollowerState) : FollowerState :=
  mkFollower (fs_broker f) (fs_log_end f) (fs_flushed f) (fs_last_ack_ms f) false (fs_acks f).
Record evicted (peer : Z) (r r' : Node) : Prop := {
  ev_sent : sent_to peer r r';
  ev_same : pr_topic_partition r' = pr_topic_partition r ∧ pr_log r' = pr_log r;
  ev_entry : replicates peer r = true → entry peer r' = out_of_sync <$> entry peer r;
  ev_hwm : pr_hwm r ≤ pr_hwm r';
  ev_waiters : ∀ w', w' ∈ pr_waiters r' → ∃ w, w ∈ pr_waiters r ∧ waiter_key w' = waiter_key w;
  ev_out : replicates peer r = true → in_sync peer r' = false;
  ev_moved : replicates peer r = true → in_sync peer r = true → moved_on r' }.

(** Nothing to do: the partition is not led here, or the peer is out already. *)
Lemma evicted_idle peer r : (replicates peer r = true → in_sync peer r = false) → evicted peer r r.
Proof.
  intros H. constructor; try done; [apply sent_to_refl| |intros w Hw; by exists w|intros H1 H2; by rewrite H in H2].
  intros H1. specialize (H H1). unfold in_sync in H. destruct (entry peer r) as [[b e fl la s a]|]; [|done]. cbn in *. by subst s.
Qed.
Lemma evict_spec peer now r : evicted peer r (evict_one nanos peer now r).1.
Proof.
  unfold evict_one. fold (replicates peer r). destruct (replicates peer r) eqn:ER; [|cbn [fst]; apply evicted_idle; congruence]. destruct (entry peer r) as [f|] eqn:E.
  2:{ assert (HM : MarkFollowerOutOfSync nanos peer now r = (r, [])) by (unfold MarkFollowerOutOfSync; unfold entry in E; by rewrite E). rewrite HM. cbn [fst]. apply evicted_idle. intros _. unfold in_sync. by rewrite E. }
  destruct (fs_in_sync f) eqn:EF.
  2:{ assert (HM : MarkFollowerOutOfSync nanos peer now r = (r, [])) by (unfold MarkFollowerOutOfSync; unfold entry in E; by rewrite E, EF). rewrite HM. cbn [fst]. apply evicted_idle. intros _. unfold in_sync. by rewrite E. }
  pose proof (step_settled nanos (ROutOfSync peer now) r) as H. cbn [examined replica_step] in H. pose proof E as E'. unfold entry in E'. rewrite E', EF in H. specialize (H _ eq_refl).
  assert (HM : MarkFollowerOutOfSync nanos peer now r = settle nanos (with_followers (om_insert peer (out_of_sync f) (pr_followers r)) r)) by (unfold MarkFollowerOutOfSync; by rewrite E', EF).
  set (r1 := with_followers (om_insert peer (out_of_sync f) (pr_followers r)) r) in HM. pose proof (settle_hwm nanos r1) as Hh. pose proof (settle_settled nanos r1) as [S1 _ _ _ S5 S6 _ _]. rewrite <- HM in Hh, S1, S5, S6.
  assert (El : is_leader r1 = true) by (unfold replicates in ER; by apply andb_prop in ER as [El _]). rewrite El in Hh. constructor.
  - eapply (settled_sent_to peer r (pr_log r) _ _ _ f); [done|done| | |by destruct r|exact H]; cbn; lia.
  - rewrite HM, (settle_tp nanos). split; [done|]. rewrite <- HM. exact S5.
  - intros _. unfold entry. rewrite S6, E'. cbn. by rewrite om_find_insert, decide_True.
  - rewrite Hh. change (pr_hwm r1) with (pr_hwm r). lia.
  - intros w' Hw. assert (Hk : waiter_key w' ∈ map waiter_key (List.filter (λ w, negb (satisfied nanos r1 w)) (pr_waiters r1))) by (rewrite <- S1; apply list_elem_of_fmap; by exists w').
    apply list_elem_of_fmap in Hk as (w & Hk & Hin). apply list_elem_of_In, List.filter_In in Hin as [Hin _]. exists w. split; [by apply list_elem_of_In|done].
  - intros _. unfold in_sync, entry. rewrite S6. cbn. by rewrite om_find_insert, decide_True.
  - intros _ _. split; [|by eapply settled_none_left]. rewrite Hh. unfold hwm_target at 1. rewrite S5, S6. fold (hwm_target r1). lia.
Qed.
Lemma unreachable_round env rs s t e s' t' : EnsureConnected bo env s t = (Err e, s', t') → sd_peer s' = sd_peer s →
  Forall2 (evicted (sd_peer s)) rs (rd_nodes (sender_round o bo nanos env rs s t)).
Proof.
  intros HE HP. unfold sender_round. rewrite HE. cbn [rd_nodes]. rewrite map_map, HP. induction rs as [|r rs IH]; constructor; [apply evict_spec|done].
Qed.
Lemma EnsureConnected_cases env s t : let '(res, s', t') := EnsureConnected bo env s t in
  sd_peer s' = sd_peer s ∧ sd_batches_sent s' = sd_batches_sent s ∧ to_batches t' = to_batches t ∧ sd_last_probe_ms s' = sd_last_probe_ms s ∧
  match res with Ok _ => sd_backoff_ms s' = sd_backoff_ms s ∨ sd_backoff_ms s' = bo_reconnect_ms bo | Err _ => sd_backoff_ms s' = sd_backoff_ms s end.
Proof.
  unfold EnsureConnected. destruct (_ && _); [by split_and!; try done; left|]. destruct (FindBroker _ _); [|done]. destruct (Client_Connect _ _ _) as [[[]|e] c]; [|done]. split_and!; try done. by right.
Qed.

(** ** A connection on which every call fails *)

Definition dead (c : SyncClient) : Prop := ∀ op id payload, ∃ e, (Call repl_chunk op id payload c).1 = Err e.
Lemma dead_call op payload s : dead (sd_client s) → ∃ e s', sender_call op payload s = (Err e, s') ∧ sd_peer s' = sd_peer s.
Proof. intros Hd. unfold sender_call. destruct (Hd op (sd_next_request_id s) payload) as [e He]. destruct (Call _ _ _ _ _) as [r c]. cbn in He. subst r. by eexists _, _. Qed.
Lemma dead_send_one now r s t : dead (sd_client s) → (∃ r', send_one o nanos now r s t = (Ok false, r', [], s, t) ∧ entry (sd_peer s) r' = entry (sd_peer s) r) ∨
  ∃ e r' s' t', send_one o nanos now r s t = (Err e, r', [], s', t') ∧ entry (sd_peer s) r' = entry (sd_peer s) r.
Proof.
  intros Hd. unfold send_one. destruct (prepare_log (sd_peer s) emptyBuffer r) as (l & E & _). destruct (prepare _ _ _ r) as [[request|] r1]; cbn [snd] in E; subst r1; [|left; by eexists].
  destruct (dead_call kReplicate (Readable (ReplicateRequest_Encode request emptyBuffer)) s Hd) as (e & s' & -> & _). right. by eexists _, _, _, _.
Qed.
Lemma dead_send_all now rs batches lag s t : dead (sd_client s) → let '(res, rd) := send_all o nanos now rs batches lag s t in
  Forall2 (λ r r', entry (sd_peer s) r' = entry (sd_peer s) r) rs (rd_nodes rd) ∧ ((∃ e, res = Err e) ∨ (res = Ok batches ∧ ∃ lag, rd_sender rd = set_max_lag lag s)).
Proof.
  intros Hd. revert lag. induction rs as [|r rs IH]; intros lag; cbn [send_all]; [by split; [|right; split; [|exists lag]]|]. destruct (dead_send_one now r s t Hd) as [(r' & -> & He)|(e & r' & s' & t' & -> & He)].
  - specialize (IH (Z.max lag (lag_of (sd_peer s) r))). destruct (send_all _ _ _ _ _ _ _ _) as [res rest]. destruct IH as [H1 H2]. by split; [constructor|].
  - split; [|left; by eexists]. constructor; [done|]. clear. by induction rs; constructor.
Qed.
Definition usable (s : Sender) : bool := sd_connected s && connected (sd_client s).
Lemma refused_connect env s t : usable s = false → (∃ e, rv_opened env = Err e) → ∃ e s' t', EnsureConnected bo env s t = (Err e, s', t') ∧ sd_peer s' = sd_peer s ∧ usable s' = false.
Proof.
  intros Hu [e He]. unfold EnsureConnected. fold (usable s). rewrite Hu. destruct (FindBroker _ _); [|by eexists _, _, _]. unfold Client_Connect. rewrite He. by eexists _, _, _.
Qed.
Lemma dead_round env rs s t : dead (sd_client s) → (∃ e, rv_opened env = Err e) → kLivenessProbeIntervalMs ≤ rv_idle_now_ms env - sd_last_probe_ms s →
  let s' := rd_sender (sender_round o bo nanos env rs s t) in usable s' = false ∧ sd_peer s' = sd_peer s.
Proof.
  intros Hd He Hp. unfold sender_round. destruct (usable s) eqn:EU.
  - unfold EnsureConnected. fold (usable s). rewrite EU. unfold SendPending. pose proof (dead_send_all (rv_now_ms env) rs 0 0 s t Hd) as HA. destruct (send_all_sent_to (rv_now_ms env) rs 0 0 s t) as [_ HS].
    destruct (send_all _ _ _ _ _ _ _ _) as [res rd]. cbn [snd] in HS. destruct HA as [_ [[e ->]|[-> [lag HL]]]]; [done|]. cbn [Z.ltb]. rewrite HL. cbn [sd_last_probe_ms set_max_lag]. destruct (Z.leb_spec kLivenessProbeIntervalMs (rv_idle_now_ms env - sd_last_probe_ms s)); [|lia].
    destruct (dead_call kHealth [] (set_probe (rv_idle_now_ms env) (set_max_lag lag s)) Hd) as (e & s' & -> & Hs'). done.
  - destruct (refused_connect env s t EU He) as (e & s' & t' & -> & H1 & H2). done.
Qed.

(** C4. A dead follower is evicted within two iterations of its sender once its liveness probe
    is due.  When every call on the connection fails, connecting fails, and at least
    [kLivenessProbeIntervalMs] have passed since the last probe when the first iteration gets
    to it, then whatever the partitions were doing in between, after the second iteration
    the peer is out of the in-sync set of every partition led here; the high-water marks no
    longer wait for it and no produce request is left waiting whose acknowledgement
    condition holds without it.  The second iteration changes nothing else: not the log, not
    the assignment, not what is known of other followers, of the peer only the in-sync flag;
    the high-water mark does not fall, and only requests that had been waiting still wait.
    (A peer that accepts connections and never answers is another matter: [hung_follower_stays].) *)
Theorem dead_follower_evicted env1 env2 (rs1 rs2 : list Node) s t1 t2 :
  dead (sd_client s) → (∃ e, rv_opened env1 = Err e) → (∃ e, rv_opened env2 = Err e) → kLivenessProbeIntervalMs ≤ rv_idle_now_ms env1 - sd_last_probe_ms s →
  let s2 := rd_sender (sender_round o bo nanos env1 rs1 s t1) in
  Forall2 (evicted (sd_peer s)) rs2 (rd_nodes (sender_round o bo nanos env2 rs2 s2 t2)).
Proof.
  intros Hd H1 H2 Hp s2. destruct (dead_round env1 rs1 s t1 Hd H1 Hp) as [HU HP]. fold s2 in HU, HP. destruct (refused_connect env2 s2 t2 HU H2) as (e & s' & t' & HE & HP' & _). rewrite <- HP. by eapply unreachable_round.
Qed.

(** ** A peer that accepts connections and never answers *)

(** Every wait times out and nothing has been received. *)
Record silent (c : SyncClient) : Prop := {
  si_waits : sc_waits c = []; si_input : Readable (sc_input c) = []; si_none : sc_consumed c = 0; si_fresh : derror (sc_decoder c) = None }.
Lemma send_loop_silent fuel data c : sc_waits c = [] → let '(r, c') := send_loop fuel data c in sc_waits c' = [] ∧ (silent c → r = Ok tt → silent c').
Proof.
  revert data c. induction fuel as [|fuel IH]; intros data c Hw; cbn [send_loop]; destruct (zlen data =? 0); try done. destruct (Socket_Write data (sc_socket c)) as [[tr|e] sk]; [|done]. destruct (eof tr); [done|].
  set (c1 := set_socket sk c). assert (H1 : silent c → silent c1) by (intros [S1 S2 S3 S4]; by constructor). destruct (would_block tr).
  - unfold WaitFor. change (sc_waits c1) with (sc_waits c). by rewrite Hw.
  - specialize (IH (zdrop (tr_bytes tr) data) c1 Hw). destruct (send_loop _ _ c1) as [r c']. destruct IH as [J1 J2]. split; [done|]. intros Hs Hr. by apply J2; [apply H1|].
Qed.
Lemma response_loop_waits chunk fuel id c : sc_waits c = [] → sc_waits (response_loop chunk fuel id c).2 = [].
Proof.
  revert c. induction fuel as [|fuel IH]; intros c Hw; cbn [response_loop]; [done|]. destruct (Next _ _) as [[|f|] d].
  - unfold WaitFor. cbn. by rewrite Hw.
  - destruct (_ =? id); [done|]. by apply IH.
  - done.
Qed.
Lemma silent_call op id payload c : sc_waits c = [] → let '(r, c') := Call repl_chunk op id payload c in sc_waits c' = [] ∧ (silent c → ∃ e, r = Err e).
Proof.
  intros Hw. unfold Call, SendRequest. destruct (connected c); cbn [negb]; [|by split; [|eexists]]. set (data := Readable (EncodeFrame_op op id 0 payload emptyBuffer)). pose proof (send_loop_silent (S (length (so_send (sc_socket c)) + length (sc_waits c))) data c Hw) as HS.
  destruct (send_loop _ _ c) as [[[]|e] c1]; destruct HS as [H1 H2]; [|by split; [|eexists]]. unfold ReadResponse. destruct (connected c1); cbn [negb]; [|by split; [|eexists]]. set (c2 := if 0 <? sc_consumed c1 then _ else c1). assert (Hw2 : sc_waits c2 = []) by (unfold c2; by destruct (0 <? _)).
  pose proof (response_loop_waits repl_chunk (read_fuel c2) id c2 Hw2) as HL. destruct (response_loop _ _ _ _) as [r c'] eqn:ER. split; [exact HL|]. intros Hs. destruct (H2 Hs eq_refl) as [S1 S2 S3 S4]. assert (E2 : c2 = c1) by (unfold c2; by rewrite S3).
  revert ER. rewrite E2. unfold read_fuel. cbn [response_loop]. unfold Next. rewrite S4, S2. change (zlen (@nil Z) <? kFrameHeaderSize) with true. unfold WaitFor. cbn [sc_waits set_decoder]. rewrite S1. intros [= <- _]. by eexists.
Qed.
Lemma silent_dead c : silent c → dead c.
Proof. intros Hs op id payload. pose proof (silent_call op id payload c (si_waits _ Hs)) as H. destruct (Call _ _ _ _ _) as [r c']. exact (proj2 H Hs). Qed.
Definition hung (s : Sender) : Prop := sc_waits (sd_client s) = [] ∧ (usable s = true → silent (sd_client s)).
(** The peer accepts every connection. *)
Definition accepts (peer : Z) (env : RoundEnv) : Prop := FindBroker peer (rv_cluster env) ≠ None ∧ rv_no_delay env = Ok tt ∧ ∃ sk, rv_opened env = Ok sk.
Lemma hung_connect env s t : hung s → accepts (sd_peer s) env → ∃ s' t', EnsureConnected bo env s t = (Ok tt, s', t') ∧ silent (sd_client s') ∧ sd_peer s' = sd_peer s.
Proof.
  intros [H1 H2] (HF & HN & sk & HO). unfold EnsureConnected. fold (usable s). destruct (usable s); [eexists _, _; split; [done|]; by split; [apply H2|]|]. destruct (FindBroker _ _); [|done]. unfold Client_Connect. rewrite HO, HN.
  eexists _, _. split; [done|]. split; [|done]. constructor; cbn; try done.
Qed.
Lemma sender_call_waits op payload s : sc_waits (sd_client s) = [] → sc_waits (sd_client (sender_call op payload s).2) = [].
Proof. intros H. unfold sender_call. pose proof (silent_call op (sd_next_request_id s) payload (sd_client s) H) as HC. destruct (Call _ _ _ _ _) as [r c]. exact (proj1 HC). Qed.
Lemma send_all_waits now rs batches lag s t : sc_waits (sd_client s) = [] → sc_waits (sd_client (rd_sender (send_all o nanos now rs batches lag s t).2)) = [].
Proof.
  revert batches lag s t. induction rs as [|r rs IH]; intros batches lag s t Hw; cbn [send_all]; [done|]. assert (H1 : sc_waits (sd_client (send_one o nanos now r s t).1.2) = []).
  { unfold send_one. destruct (prepare _ _ _ r) as [[request|] r1]; [|done]. pose proof (sender_call_waits kReplicate (Readable (ReplicateRequest_Encode request emptyBuffer)) s Hw) as HC. destruct (sender_call _ _ s) as [[f|e] s1]; cbn [snd] in HC; [|done].
    destruct (handle_response _ _ _ _ r1) as [[[[]|e] r2] out]; [|done]. destruct (negb _); [done|]. by destruct (_ =? 0). }
  destruct (send_one o nanos now r s t) as [[[[[b|e] r'] out] s'] t']; cbn [fst snd] in H1; [|done]. specialize (IH (if b then batches + 1 else batches) (Z.max lag (lag_of (sd_peer s) r)) s' t' H1). by destruct (send_all _ _ _ _ _ _ _ _).
Qed.
Lemma disconnect_hung s : sc_waits (sd_client s) = [] → hung (disconnect s).
Proof. done. Qed.
Lemma hung_round env rs s t : hung s → accepts (sd_peer s) env → let rd := sender_round o bo nanos env rs s t in
  hung (rd_sender rd) ∧ sd_peer (rd_sender rd) = sd_peer s ∧ Forall2 (λ r r', in_sync (sd_peer s) r' = in_sync (sd_peer s) r) rs (rd_nodes rd).
Proof.
  intros Hh Ha. unfold sender_round. destruct (hung_connect env s t Hh Ha) as (s1 & t1 & -> & Hs & <-). pose proof (si_waits _ Hs) as Hw. unfold SendPending. pose proof (dead_send_all (rv_now_ms env) rs 0 0 s1 t1 (silent_dead _ Hs)) as HA.
  destruct (send_all_sent_to (rv_now_ms env) rs 0 0 s1 t1) as [_ HP]. pose proof (send_all_waits (rv_now_ms env) rs 0 0 s1 t1 Hw) as HW. destruct (send_all _ _ _ _ _ _ _ _) as [res rd]. cbn [snd] in HP, HW. destruct HA as [HE HA].
  assert (HF : Forall2 (λ r r', in_sync (sd_peer s1) r' = in_sync (sd_peer s1) r) rs (rd_nodes rd)) by (eapply Forall2_impl; [exact HE|]; intros r r' E; unfold in_sync; by rewrite E).
  destruct HA as [[e ->]|[-> [lag HL]]]; [done|]. cbn [Z.ltb]. rewrite HL. destruct (_ <=? _); [|done]. destruct (dead_call kHealth [] (set_probe (rv_idle_now_ms env) (set_max_lag lag s1)) (silent_dead _ Hs)) as (e & s' & HC & Hs').
  pose proof (sender_call_waits kHealth [] (set_probe (rv_idle_now_ms env) (set_max_lag lag s1)) Hw) as HW'. rewrite HC in HW' |- *. done.
Qed.
(** A peer that accepts connections and answers nothing is never evicted, however long it
    lasts: the sender only evicts a peer it cannot connect to. *)
Lemma hung_follower_stays envs : ∀ rs s t, hung s → Forall (accepts (sd_peer s)) envs →
  let rd := fold_left (λ rd env, sender_round o bo nanos env (rd_nodes rd) (rd_sender rd) (rd_totals rd)) envs (mkRound rs [] s t) in
  Forall2 (λ r r', in_sync (sd_peer s) r' = in_sync (sd_peer s) r) rs (rd_nodes rd).
Proof.
  induction envs as [|env envs IH]; intros rs s t Hh Ha; [by apply Forall_Forall2_diag, Forall_true|]. inversion Ha as [|? ? A1 A2]; subst. destruct (hung_round env rs s t Hh A1) as (H1 & H2 & H3). cbn [fold_left rd_nodes rd_sender rd_totals].
  set (rd := sender_round _ _ _ _ _ _ _) in *. specialize (IH (rd_nodes rd) (rd_sender rd) (rd_totals rd) H1). rewrite H2 in IH. specialize (IH A2).
  assert (E : rd_nodes (fold_left (λ rd env, sender_round o bo nanos env (rd_nodes rd) (rd_sender rd) (rd_totals rd)) envs rd) = rd_nodes (fold_left (λ rd env, sender_round o bo nanos env (rd_nodes rd) (rd_sender rd) (rd_totals rd)) envs (mkRound (rd_nodes rd) [] (rd_sender rd) (rd_totals rd)))) by (by destruct envs).
  cbv zeta in IH. rewrite <- E in IH. eapply Forall2_trans; [|exact H3|exact IH]. intros ? ? ? E1 E2. by rewrite E2.
Qed.

(** ** Counters and pauses *)

Lemma u64_add x n : u64 (u64 x + n) = u64 (x + n).
Proof. unfold uwrap. by rewrite Z.add_mod_idemp_l. Qed.
Lemma send_one_counts now r s t : let '(res, _, _, s', t') := send_one o nanos now r s t in
  sd_backoff_ms s' = sd_backoff_ms s ∧
  if decide (res = Ok true) then sd_batches_sent s' = u64 (sd_batches_sent s + 1) ∧ to_batches t' = u64 (to_batches t + 1)
  else sd_batches_sent s' = sd_batches_sent s ∧ to_batches t' = to_batches t.
Proof.
  unfold send_one, sender_call. destruct (prepare _ _ _ r) as [[request|] r1]; [|by rewrite decide_False]. destruct (Call _ _ _ _ _) as [[f|e] c]; [|by rewrite decide_False]. cbn [sd_peer].
  destruct (handle_response _ _ _ _ r1) as [[[[]|e] r2] out]; [|by rewrite decide_False]. destruct (negb _); [by rewrite decide_False|]. destruct (_ =? 0); [by rewrite decide_False|by rewrite decide_True].
Qed.
(** A round counts the same batches for the peer and in total. *)
Lemma send_all_counts now rs batches lag s t : unsigned 64 (sd_batches_sent s) → unsigned 64 (to_batches t) → let '(res, rd) := send_all o nanos now rs batches lag s t in
  sd_backoff_ms (rd_sender rd) = sd_backoff_ms s ∧ ∃ n, 0 ≤ n ≤ zlen rs ∧ sd_batches_sent (rd_sender rd) = u64 (sd_batches_sent s + n) ∧ to_batches (rd_totals rd) = u64 (to_batches t + n) ∧ ∀ sent, res = Ok sent → sent = batches + n.
Proof.
  assert (U : ∀ x, unsigned 64 x → u64 (x + 0) = x) by (intros x H; rewrite Z.add_0_r; by apply uwrap_small).
  revert batches lag s t. induction rs as [|r rs IH]; intros batches lag s t Hs Ht; cbn [send_all]; [split; [done|]; exists 0; cbn; rewrite !U by done; split_and!; try done; intros sent [= <-]; lia|].
  pose proof (send_one_counts now r s t) as H1. destruct (send_one o nanos now r s t) as [[[[res r'] out] s'] t']. destruct H1 as [HB H1]. rewrite zlen_cons. pose proof (zlen_nonneg rs). destruct res as [b|e].
  2:{ rewrite decide_False in H1 by done. destruct H1 as [H1 H2]. cbn. split; [done|]. exists 0. rewrite !U by done. split_and!; try done; lia. }
  specialize (IH (if b then batches + 1 else batches) (Z.max lag (lag_of (sd_peer s) r)) s' t'). destruct (send_all _ _ _ _ _ _ _ _) as [res2 rest]. cbn [rd_sender rd_totals].
  destruct b.
  - rewrite decide_True in H1 by done. destruct H1 as [H1 H2]. destruct IH as [J0 (n & J1 & J2 & J3 & J4)]; [rewrite H1; by apply uwrap_range|rewrite H2; by apply uwrap_range|]. split; [by rewrite J0|]. exists (1 + n). rewrite J2, J3, H1, H2, !u64_add, !Z.add_assoc. split_and!; try done; lia.
  - rewrite decide_False in H1 by done. destruct H1 as [H1 H2]. rewrite H1, H2 in IH. destruct (IH Hs Ht) as [J0 (n & J1 & J2 & J3 & J4)]. split; [by rewrite J0|]. exists n. split_and!; try done; lia.
Qed.
Lemma sender_call_keeps op payload s : sd_batches_sent (sender_call op payload s).2 = sd_batches_sent s ∧ sd_backoff_ms (sender_call op payload s).2 = sd_backoff_ms s ∧ sd_peer (sender_call op payload s).2 = sd_peer s.
Proof. unfold sender_call. by destruct (Call _ _ _ _ _). Qed.

(** An iteration of a sender touches, of each partition, only what is known of its peer; the
    peer's positions only rise, partitions not replicated to it are left as they are; the
    pause before reconnecting stays between its two limits; and the same batches are counted
    for the peer and in total. *)
Theorem sender_round_sound env rs s t : unsigned 64 (sd_batches_sent s) → unsigned 64 (to_batches t) → 0 ≤ bo_reconnect_ms bo ≤ bo_reconnect_max_ms bo → bo_reconnect_ms bo ≤ sd_backoff_ms s ≤ bo_reconnect_max_ms bo →
  let rd := sender_round o bo nanos env rs s t in
  Forall2 (sent_to (sd_peer s)) rs (rd_nodes rd) ∧ sd_peer (rd_sender rd) = sd_peer s ∧ bo_reconnect_ms bo ≤ sd_backoff_ms (rd_sender rd) ≤ bo_reconnect_max_ms bo ∧
  ∃ n, 0 ≤ n ≤ zlen rs ∧ sd_batches_sent (rd_sender rd) = u64 (sd_batches_sent s + n) ∧ to_batches (rd_totals rd) = u64 (to_batches t + n).
Proof.
  intros Hs Ht Hb Hbs. unfold sender_round. pose proof (EnsureConnected_cases env s t) as HE. destruct (EnsureConnected bo env s t) as [[[[]|e] s1] t1]; destruct HE as (<- & HB & HT & _ & HK); rewrite <- HB in Hs |- *; rewrite <- HT in Ht |- *.
  - unfold SendPending. destruct (send_all_sent_to (rv_now_ms env) rs 0 0 s1 t1) as [HF HP]. pose proof (send_all_counts (rv_now_ms env) rs 0 0 s1 t1 Hs Ht) as HC. destruct (send_all _ _ _ _ _ _ _ _) as [res rd]. cbn [snd] in HF, HP. destruct HC as [C0 (n & C1 & C2 & C3 & _)].
    assert (HK1 : bo_reconnect_ms bo ≤ sd_backoff_ms (rd_sender rd) ≤ bo_reconnect_max_ms bo) by (rewrite C0; destruct HK as [-> | ->]; lia). assert (HN : ∃ n, 0 ≤ n ≤ zlen rs ∧ sd_batches_sent (rd_sender rd) = u64 (sd_batches_sent s1 + n) ∧ to_batches (rd_totals rd) = u64 (to_batches t1 + n)) by by exists n.
    destruct res as [sent|e]; [|done]. destruct (0 <? sent); [done|]. destruct (_ <=? _); [|done]. destruct (sender_call_keeps kHealth [] (set_probe (rv_idle_now_ms env) (rd_sender rd))) as (K1 & K2 & K3). destruct (sender_call _ _ _) as [[f|e] s2]; cbn in K1, K2, K3 |- *; by rewrite K1, K2, K3.
  - cbn [rd_nodes rd_sender rd_totals]. rewrite map_map. split; [|split; [done|]; split; [cbn; rewrite HK; lia|]].
    + induction rs as [|r rs IH]; constructor; [apply evict_spec|done].
    + exists 0. cbn. rewrite !Z.add_0_r, !uwrap_small by done. split_and!; try done. apply zlen_nonneg.
Qed.
End Rounds.

(** ** Example *)

(** A leader at offset 5 with a follower that has everything and one at offset 3, which the
    sender is connected to and which has stopped answering. *)
Definition led_by_one : Node :=
  mkReplica (mkTP (str "t") 0) 1 (with_offsets 0 5 5 (new_log example_options 0)) (mkAssignment 0 1 0 [1; 2; 3] [1; 2; 3])
    [(2, mkFollower 2 3 3 0 true 1); (3, mkFollower 3 5 5 0 true 1)] [] 0 3.
Definition down : RoundEnv := mkRoundEnv (mkMetadata [] []) (Err kUnavailable) (Ok tt) 1000 1000.
Definition silent_client : SyncClient := mkSyncClient (mkSocket 7 [] [] [] []) emptyBuffer (newDecoder 1024) 0 [].
Definition to_two : Sender := set_client silent_client true (newSender (mkBackoffOptions 200 5000) silent_client 2).
Local Notation after_two := (rd_nodes (sender_round (mkReplicatorOptions 1 1024) (mkBackoffOptions 200 5000) (λ _, 0) down [led_by_one] (rd_sender (sender_round (mkReplicatorOptions 1 1024) (mkBackoffOptions 200 5000) (λ _, 0) down [led_by_one] to_two no_totals)) no_totals)).
Lemma after_two_state : map pr_hwm after_two = [5] ∧ map (in_sync 3) after_two = [true].
Proof. by vm_compute. Qed.
Lemma dead_follower_evicted_witness : Forall2 (evicted 2) [led_by_one] after_two ∧ map pr_hwm after_two = [5].
Proof.
  split; [|exact (proj1 after_two_state)]. apply (dead_follower_evicted (mkReplicatorOptions 1 1024) (mkBackoffOptions 200 5000) (λ _, 0) down down [led_by_one] [led_by_one] to_two no_totals no_totals).
  - apply silent_dead. by constructor.
  - by exists kUnavailable.
  - by exists kUnavailable.
  - vm_compute. discriminate.
Defined.
