(* ===== verification/Registry.v ===== *)
(** * Registry: the metrics of a broker and their text forms

    Models include/pulselog/metrics/registry.h and src/metrics/registry.cc.  The map from keys
    to metrics is a [std::map], so its entries are in the order of the keys and the text form
    visits them in that order.  The references the source hands out are modelled by the key
    they point at ([Live]), or [Dangling] when the object they point at is gone.  The summary
    of a histogram needs floating point and is a parameter, with the mean and the sum as the
    integers that are printed. *)
From S2P Require Import Prelude Types Text OrdMap Histogram.

Inductive MetricType : Set := kCounter | kGauge | kHistogram.
#[global] Instance MetricType_eq_dec : EqDecision MetricType.
Proof. solve_decision. Defined.
Abbreviation Labels := (list (bytes * bytes)).
Record MetricDescriptor := mkDescriptor { ds_name : bytes; ds_help : bytes; ds_type : MetricType; ds_labels : Labels }.
Record Entry := mkEntry { en_descriptor : MetricDescriptor; en_counter : option Z; en_gauge : option Z; en_histogram : option Histogram }.
Abbreviation MetricRegistry := (list (bytes * Entry)).
Inductive Handle : Set := Live (key : bytes) | Dangling.

(** ** Escaping *)

Definition escape_label_char (c : Z) : bytes := if c =? 92 then [92; 92] else if c =? 34 then [92; 34] else if c =? 10 then [92; 110] else [c].
Definition EscapeLabelValue (value : bytes) : bytes := concat (map escape_label_char value).
Definition escape_json_char (c : Z) : bytes :=
  if c =? 34 then [92; 34] else if c =? 92 then [92; 92] else if c =? 10 then [92; 110] else if c =? 9 then [92; 116] else [c].
Definition EscapeJson (value : bytes) : bytes := concat (map escape_json_char value).

(** ** Registering *)

Definition label_key (l : bytes * bytes) : bytes := 31 :: l.1 ++ 61 :: l.2.
Definition MakeKey (name : bytes) (labels : Labels) : bytes := name ++ concat (map label_key labels).

(** The common shape of the three getters: [present] tells an entry that holds the wanted
    kind of metric; a new entry replaces nothing, and a reference into an entry that was not
    inserted dangles. *)
Definition get_metric (present : Entry → bool) (e : Entry) (m : MetricRegistry) : Handle * MetricRegistry :=
  let key := MakeKey (ds_name (en_descriptor e)) (ds_labels (en_descriptor e)) in
  match om_find key m with
  | None => (Live key, om_emplace key e m)
  | Some old => if present old then (Live key, m) else (Dangling, om_emplace key e m)
  end.
Definition has_counter (e : Entry) : bool := bool_decide (is_Some (en_counter e)).
Definition has_gauge (e : Entry) : bool := bool_decide (is_Some (en_gauge e)).
Definition has_histogram (e : Entry) : bool := match en_histogram e with Some _ => true | None => false end.
Definition GetCounter (name help : bytes) (labels : Labels) : MetricRegistry → Handle * MetricRegistry :=
  get_metric has_counter (mkEntry (mkDescriptor name help kCounter labels) (Some 0) None None).
Definition GetGauge (name help : bytes) (labels : Labels) : MetricRegistry → Handle * MetricRegistry :=
  get_metric has_gauge (mkEntry (mkDescriptor name help kGauge labels) None (Some 0) None).
Definition GetHistogram (name help : bytes) (labels : Labels) (max_trackable digits : Z) : MetricRegistry → Handle * MetricRegistry :=
  get_metric has_histogram (mkEntry (mkDescriptor name help kHistogram labels) None None (Some (newHistogram max_trackable digits))).

(** Updates through a reference. *)
Definition update_metric (f : Entry → Entry) (h : Handle) (m : MetricRegistry) : MetricRegistry :=
  match h with
  | Live key => match om_find key m with Some e => om_insert key (f e) m | None => m end
  | Dangling => m
  end.
Definition Counter_Increment (delta : Z) : Handle → MetricRegistry → MetricRegistry :=
  update_metric (λ e, mkEntry (en_descriptor e) (option_map (λ v, u64 (v + delta)) (en_counter e)) (en_gauge e) (en_histogram e)).
Definition Counter_Reset : Handle → MetricRegistry → MetricRegistry :=
  update_metric (λ e, mkEntry (en_descriptor e) (option_map (λ _, 0) (en_counter e)) (en_gauge e) (en_histogram e)).
Definition Gauge_Set (value : Z) : Handle → MetricRegistry → MetricRegistry :=
  update_metric (λ e, mkEntry (en_descriptor e) (en_counter e) (option_map (λ _, value) (en_gauge e)) (en_histogram e)).
Definition Gauge_Increment (delta : Z) : Handle → MetricRegistry → MetricRegistry :=
  update_metric (λ e, mkEntry (en_descriptor e) (en_counter e) (option_map (λ v, i64 (v + delta)) (en_gauge e)) (en_histogram e)).
Definition Gauge_Decrement (delta : Z) : Handle → MetricRegistry → MetricRegistry := Gauge_Increment (- delta).

Definition label_matches (key value : bytes) (e : Entry) : bool := existsb (λ l, bool_decide (l.1 = key ∧ l.2 = value)) (ds_labels (en_descriptor e)).
Definition RemoveByLabel (key value : bytes) (m : MetricRegistry) : Z * MetricRegistry :=
  (zlen (List.filter (λ p, label_matches key value p.2) m), List.filter (λ p, negb (label_matches key value p.2)) m).

(** ** Text forms *)

Record HistogramSnapshot := mkSnapshot {
  hs_count : Z; hs_min : Z; hs_max : Z; hs_p50 : Z; hs_p90 : Z; hs_p95 : Z; hs_p99 : Z; hs_p999 : Z; hs_mean : Z; hs_sum : Z }.
Definition label_pair (l : bytes * bytes) : bytes := l.1 ++ str "=" ++ [34] ++ EscapeLabelValue l.2 ++ [34].
(** [extra] is the quantile, which is not escaped. *)
Definition AppendLabels (labels : Labels) (extra : option (bytes * bytes)) : bytes :=
  match labels, extra with
  | [], None => []
  | _, _ => str "{" ++ intercalate 44 (map label_pair labels ++ match extra with Some (k, v) => [k ++ str "=" ++ [34] ++ v ++ [34]] | None => [] end) ++ str "}"
  end.
Definition type_name (t : MetricType) : bytes := match t with kCounter => str "counter" | kGauge => str "gauge" | kHistogram => str "summary" end.

Section Render.
Context (GetSnapshot : Histogram → HistogramSnapshot).

Definition family_header (d : MetricDescriptor) : bytes :=
  str "# HELP " ++ ds_name d ++ str " " ++ ds_help d ++ [10] ++ str "# TYPE " ++ ds_name d ++ str " " ++ type_name (ds_type d) ++ [10].
Definition series (name : bytes) (labels : Labels) (extra : option (bytes * bytes)) (value : Z) : bytes :=
  name ++ AppendLabels labels extra ++ str " " ++ to_string value ++ [10].
Definition quantiles (s : HistogramSnapshot) : list (bytes * Z) :=
  [(str "0.5", hs_p50 s); (str "0.9", hs_p90 s); (str "0.95", hs_p95 s); (str "0.99", hs_p99 s); (str "0.999", hs_p999 s); (str "1.0", hs_max s)].
Definition render_entry (e : Entry) : bytes :=
  let d := en_descriptor e in
  match ds_type d with
  | kCounter => series (ds_name d) (ds_labels d) None (default 0 (en_counter e))
  | kGauge => series (ds_name d) (ds_labels d) None (default 0 (en_gauge e))
  | kHistogram =>
      match en_histogram e with
      | None => []
      | Some h =>
          let s := GetSnapshot h in
          concat (map (λ q, series (ds_name d) (ds_labels d) (Some (str "quantile", q.1)) q.2) (quantiles s)) ++
          series (ds_name d ++ str "_sum") (ds_labels d) None (hs_sum s) ++ series (ds_name d ++ str "_count") (ds_labels d) None (hs_count s)
      end
  end.
Fixpoint render_prometheus (last_family : bytes) (m : MetricRegistry) : bytes :=
  match m with
  | [] => []
  | (_, e) :: m =>
      let d := en_descriptor e in
      (if decide (ds_name d = last_family) then [] else family_header d) ++ render_entry e ++ render_prometheus (ds_name d) m
  end.
Definition RenderPrometheus (m : MetricRegistry) : bytes := render_prometheus [] m.

Definition quoted (text : bytes) : bytes := [34] ++ EscapeJson text ++ [34].
Definition json_field (key : bytes) (value : Z) : bytes := str "," ++ [34] ++ key ++ [34] ++ str ":" ++ to_string value.
Definition json_value (e : Entry) : bytes :=
  let kind := λ k, [34] ++ str "type" ++ [34] ++ str ":" ++ [34] ++ k ++ [34] in
  match ds_type (en_descriptor e) with
  | kCounter => kind (str "counter") ++ json_field (str "value") (default 0 (en_counter e))
  | kGauge => kind (str "gauge") ++ json_field (str "value") (default 0 (en_gauge e))
  | kHistogram =>
      match en_histogram e with
      | None => []
      | Some h =>
          let s := GetSnapshot h in
          kind (str "histogram") ++ json_field (str "count") (hs_count s) ++ json_field (str "min") (hs_min s) ++ json_field (str "p50") (hs_p50 s) ++
          json_field (str "p90") (hs_p90 s) ++ json_field (str "p95") (hs_p95 s) ++ json_field (str "p99") (hs_p99 s) ++
          json_field (str "p999") (hs_p999 s) ++ json_field (str "max") (hs_max s) ++ json_field (str "mean") (hs_mean s)
      end
  end.
Definition json_entry (e : Entry) : bytes :=
  let d := en_descriptor e in
  str "{" ++ quoted (str "name") ++ str ":" ++ quoted (ds_name d) ++ str "," ++ quoted (str "labels") ++ str ":{" ++
  intercalate 44 (map (λ l, quoted l.1 ++ str ":" ++ quoted l.2) (ds_labels d)) ++ str "}," ++ json_value e ++ str "}".
Definition RenderJson (m : MetricRegistry) : bytes :=
  str "{" ++ quoted (str "metrics") ++ str ":[" ++ intercalate 44 (map (λ p, json_entry p.2) m) ++ str "]}".
End Render.

(** ** The metrics of a broker *)

Definition broker_counters : list (bytes * bytes) :=
  [(str "pulselog_messages_produced_total", str "Records appended to any partition");
   (str "pulselog_bytes_produced_total", str "Record bytes appended");
   (str "pulselog_messages_fetched_total", str "Records returned to consumers");
   (str "pulselog_bytes_fetched_total", str "Record bytes returned");
   (str "pulselog_produce_requests_total", str "Produce requests served");
   (str "pulselog_fetch_requests_total", str "Fetch requests served");
   (str "pulselog_failed_requests_total", str "Requests answered with an error");
   (str "pulselog_backpressure_rejections_total", str "Requests rejected because a worker queue was full");
   (str "pulselog_connections_accepted_total", str "Connections accepted");
   (str "pulselog_connections_closed_total", str "Connections closed");
   (str "pulselog_protocol_errors_total", str "Frames rejected as malformed");
   (str "pulselog_corrupt_frames_total", str "Frames rejected by checksum")].
Definition broker_histograms : list (bytes * bytes * Z) :=
  [(str "pulselog_produce_latency_nanos", str "End-to-end produce handling latency in nanoseconds", 60000000000);
   (str "pulselog_fetch_latency_nanos", str "End-to-end fetch handling latency in nanoseconds", 60000000000);
   (str "pulselog_flush_latency_nanos", str "fsync duration in nanoseconds", 60000000000);
   (str "pulselog_replication_latency_nanos", str "Leader-to-follower acknowledgement latency", 60000000000);
   (str "pulselog_queue_wait_nanos", str "Time a request spent in a worker queue", 60000000000);
   (str "pulselog_produce_batch_records", str "Records per produce request", 1000000);
   (str "pulselog_produce_stage_queue_nanos", str "Produce: time waiting in the worker queue", 60000000000);
   (str "pulselog_produce_stage_append_nanos", str "Produce: time inside the log append", 60000000000);
   (str "pulselog_produce_stage_local_flush_nanos", str "Produce: append until the leader's own data reached media", 60000000000);
   (str "pulselog_produce_stage_replication_nanos", str "Produce: leader flushed until a quorum had flushed", 60000000000)].
Definition broker_gauges : list (bytes * bytes) :=
  [(str "pulselog_active_connections", str "Currently open client connections");
   (str "pulselog_hosted_partitions", str "Partitions hosted by this broker");
   (str "pulselog_leader_partitions", str "Partitions this broker leads");
   (str "pulselog_request_queue_depth", str "Summed depth of all worker queues");
   (str "pulselog_log_bytes", str "Bytes stored across all partitions");
   (str "pulselog_replication_lag_max_records", str "Largest follower lag in records");
   (str "pulselog_consumer_groups", str "Consumer groups this broker coordinates");
   (str "pulselog_resident_memory_bytes", str "Process resident set size");
   (str "pulselog_cpu_percent", str "Process CPU usage, percent of one core")].
(** The handles are those of the members, counters first. *)
Definition register {A} (get : A → MetricRegistry → Handle * MetricRegistry) (l : list A) (p : list Handle * MetricRegistry) : list Handle * MetricRegistry :=
  fold_left (λ p a, let '(h, m) := get a p.2 in (p.1 ++ [h], m)) l p.
Definition BrokerMetrics (m : MetricRegistry) : list Handle * MetricRegistry :=
  register (λ g, GetGauge g.1 g.2 []) broker_gauges
    (register (λ h, GetHistogram h.1.1 h.1.2 [] h.2 3) broker_histograms
       (register (λ c, GetCounter c.1 c.2 []) broker_counters ([], m))).

(** ** Invariant *)

Definition holds_its_type (e : Entry) : Prop :=
  match ds_type (en_descriptor e) with
  | kCounter => is_Some (en_counter e) | kGauge => is_Some (en_gauge e) | kHistogram => is_Some (en_histogram e)
  end.
Definition keyed (p : bytes * Entry) : Prop := p.1 = MakeKey (ds_name (en_descriptor p.2)) (ds_labels (en_descriptor p.2)) ∧ holds_its_type p.2.
Record registry_ok (m : MetricRegistry) : Prop := { ro_sorted : om_wf m; ro_keyed : ∀ k e, om_find k m = Some e → keyed (k, e) }.

Lemma registry_insert k e m : registry_ok m → keyed (k, e) → registry_ok (om_insert k e m).
Proof. intros [H1 H2] Hk. constructor; [by apply om_insert_wf|]. intros k' e'. rewrite om_find_insert. destruct (decide _) as [->|]; [by intros [= <-]|by apply H2]. Qed.
Lemma get_metric_ok present e m : registry_ok m → holds_its_type e → registry_ok (get_metric present e m).2.
Proof.
  intros Hm He. unfold get_metric. set (key := MakeKey _ _). destruct (om_find key m) as [old|] eqn:E; unfold om_emplace.
  - rewrite E. by destruct (present old).
  - rewrite E. by apply registry_insert.
Qed.
Lemma update_metric_ok f h m : (∀ e, en_descriptor (f e) = en_descriptor e ∧ (holds_its_type e → holds_its_type (f e))) → registry_ok m → registry_ok (update_metric f h m).
Proof.
  intros Hf Hm. destruct h as [k|]; [|done]. cbn. destruct (om_find k m) as [e|] eqn:E; [|done]. apply registry_insert; [done|]. destruct (ro_keyed _ Hm _ _ E) as [H1 H2]. destruct (Hf e) as [F1 F2]. split; [cbn; by rewrite F1|by apply F2].
Qed.
Lemma RemoveByLabel_ok key value m : registry_ok m → registry_ok (RemoveByLabel key value m).2.
Proof. intros [H1 H2]. constructor; [by apply om_filter_wf|]. intros k e H. apply om_find_filter in H as [H _]; [|done]. by apply H2. Qed.

(** What goes through a reference reaches its own metric and no other. *)
Lemma update_metric_other f k k' m : k' ≠ k → om_find k' (update_metric f (Live k) m) = om_find k' m.
Proof. intros Hne. cbn. destruct (om_find k m); [|done]. by rewrite om_find_insert, decide_False. Qed.
(** Asking again for a metric gives the same one and changes nothing. *)
Lemma get_metric_again present e m : present e = true → let '(h, m1) := get_metric present e m in h ≠ Dangling → get_metric present e m1 = (h, m1).
Proof.
  intros Hp. unfold get_metric. set (key := MakeKey _ _). destruct (om_find key m) as [old|] eqn:E; unfold om_emplace; rewrite E.
  - destruct (present old) eqn:EP; [|done]. intros _. by rewrite E, EP.
  - intros _. rewrite om_find_insert, decide_True by done. rewrite Hp. done.
Qed.
(** The name of another kind of metric: the reference points into an entry that was dropped. *)
Lemma kind_clash : let m := (GetCounter (str "m") [] [] []).2 in (GetGauge (str "m") [] [] m).1 = Dangling.
Proof. by vm_compute. Qed.
(** A broker's metrics are all there and all distinct. *)
Definition live_keys (hs : list Handle) : list bytes := omap (λ h, match h with Live k => Some k | Dangling => None end) hs.
Lemma broker_metrics_distinct : bool_decide (NoDup (live_keys (BrokerMetrics []).1)) = true ∧ length (live_keys (BrokerMetrics []).1) = 31%nat.
Proof. by vm_compute. Qed.
