(* ===== verification/RegistryTheorems.v ===== *)
(** * RegistryTheorems: keys, escaping and families of metrics

    Keys tell metrics apart, escaped label values can be read back, and the text form lists
    each family of metrics in one block under one header. *)
From S2P Require Import Prelude Types Text OrdMap Histogram Registry.

(** ** Escaping *)

(** How a reader of the text form undoes the escaping. *)
Fixpoint unescape (text : bytes) : bytes :=
  match text with
  | 92 :: c :: text => (if c =? 110 then 10 else c) :: unescape text
  | c :: text => c :: unescape text
  | [] => []
  end.
Lemma escape_label_roundtrip value : unescape (EscapeLabelValue value) = value ∧ 10 ∉ EscapeLabelValue value.
Proof.
  unfold EscapeLabelValue. induction value as [|c value [IH1 IH2]]; [split; [done|apply not_elem_of_nil]|]. cbn [map concat]. unfold escape_label_char at 1 3.
  destruct (Z.eqb_spec c 92) as [->|H1]; [by cbn; rewrite IH1; split; [|set_solver]|]. destruct (Z.eqb_spec c 34) as [->|H2]; [by cbn; rewrite IH1; split; [|set_solver]|]. destruct (Z.eqb_spec c 10) as [->|H3]; [by cbn; rewrite IH1; split; [|set_solver]|].
  cbn [app]. split; [|set_solver]. assert (E : unescape (c :: concat (map escape_label_char value)) = c :: unescape (concat (map escape_label_char value))).
  { destruct c as [|p|p]; try done. cbn [unescape]. repeat (destruct p as [p|p|]; try done). }
  by rewrite E, IH1.
Qed.

(** ** Keys *)

Definition plain_label (l : bytes * bytes) : Prop := free_of 31 l.1 ∧ free_of 61 l.1 ∧ free_of 31 l.2.
Lemma cut_inj d (a b x y : bytes) : free_of d a → free_of d b → (x = [] ∨ ∃ x', x = d :: x') → (y = [] ∨ ∃ y', y = d :: y') → a ++ x = b ++ y → a = b ∧ x = y.
Proof.
  intros Ha. revert b. induction Ha as [|c a Hc Ha IH]; intros b Hb Hx Hy H.
  - destruct b as [|c' b]; [done|]. inversion Hb; subst. cbn in H. destruct Hx as [->|[x' ->]]; [done|]. congruence.
  - destruct b as [|c' b]; [cbn in H; destruct Hy as [->|[y' ->]]; [done|congruence]|]. inversion Hb; subst. injection H as <- H. by destruct (IH b ltac:(done) Hx Hy H) as [-> ->].
Qed.
Lemma labels_key_shape ls : concat (map label_key ls) = [] ∨ ∃ x, concat (map label_key ls) = 31 :: x.
Proof. destruct ls as [|l ls]; [by left|right]. by eexists. Qed.
Lemma labels_key_inj ls ls' : Forall plain_label ls → Forall plain_label ls' → concat (map label_key ls) = concat (map label_key ls') → ls = ls'.
Proof.
  intros H. revert ls'. induction H as [|[k v] ls (P1 & P2 & P3) Hls IH]; intros ls' H' E; [by destruct ls'|]. destruct ls' as [|[k' v'] ls']; [done|]. inversion H' as [|? ? (P1' & P2' & P3') Hls']; subst. cbn [map concat] in E. unfold label_key in E at 1 3. cbn [fst snd] in *.
  injection E as E. rewrite <- !app_assoc in E. cbn in E. apply (cut_inj 61) in E as [-> E]; [|done|done|right; by eexists|right; by eexists]. injection E as E. apply (cut_inj 31) in E as [-> E]; [|done|done|apply labels_key_shape|apply labels_key_shape]. by rewrite (IH ls').
Qed.
(** Metrics with different names or labels have different keys. *)
Lemma MakeKey_inj name labels name' labels' : free_of 31 name → free_of 31 name' → Forall plain_label labels → Forall plain_label labels' →
  MakeKey name labels = MakeKey name' labels' → name = name' ∧ labels = labels'.
Proof. intros H1 H2 H3 H4 H. apply (cut_inj 31) in H as [-> H]; [|done|done|apply labels_key_shape|apply labels_key_shape]. split; [done|]. by apply labels_key_inj. Qed.
(** A separator in a label value: two metrics, one key. *)
Lemma MakeKey_clash : MakeKey (str "m") [(str "a", str "1"); (str "b", str "2")] = MakeKey (str "m") [(str "a", str "1" ++ [31] ++ str "b=2")].
Proof. done. Qed.

(** ** Families *)

(** Names of printable characters. *)
Definition plain_name (name : bytes) : Prop := name ≠ [] ∧ Forall (λ c, 31 < c) name.
Lemma bytes_ltb_app n a b : bytes_ltb (n ++ a) (n ++ b) = bytes_ltb a b.
Proof. induction n as [|c n IH]; [done|]. cbn. by rewrite Z.ltb_irrefl, IH. Qed.
(** What lies between two strings with a common prefix has that prefix. *)
Lemma between_prefix n a b k : bytes_ltb (n ++ a) k = true → bytes_ltb k (n ++ b) = true → ∃ x, k = n ++ x.
Proof.
  revert k. induction n as [|c n IH]; intros k H1 H2; [by exists k|]. destruct k as [|d k]; [done|]. cbn in H1, H2. destruct (Z.ltb_spec c d), (Z.ltb_spec d c); try lia; try done. assert (c = d) by lia. subst d. destruct (IH k H1 H2) as [x ->]. by exists x.
Qed.
Lemma family_between n ls1 ls3 m ls2 : plain_name n → plain_name m → bytes_ltb (MakeKey n ls1) (MakeKey m ls2) = true → bytes_ltb (MakeKey m ls2) (MakeKey n ls3) = true → m = n.
Proof.
  intros [_ Hn] [_ Hm] H1 H2. unfold MakeKey in *. destruct (between_prefix n _ _ _ H1 H2) as [x Ex]. destruct (app_eq_inv _ _ _ _ Ex) as [(y & -> & Ey)|(y & -> & Ey)].
  - (* [m] extends [n] *) destruct y as [|c y]; [by rewrite app_nil_r|]. exfalso. rewrite <- !app_assoc, bytes_ltb_app in H2. apply Forall_app in Hm as [_ Hm]. inversion Hm; subst. destruct (labels_key_shape ls3) as [E|[z E]]; rewrite E in H2; cbn in H2; [done|]. destruct (Z.ltb_spec c 31), (Z.ltb_spec 31 c); try lia; done.
  - (* [n] extends [m] *) destruct y as [|c y]; [by rewrite app_nil_r|]. exfalso. apply Forall_app in Hn as [_ Hn]. inversion Hn; subst. destruct (labels_key_shape ls2) as [E|[z E]]; rewrite E in Ey; [done|]. injection Ey as <- _. lia.
Qed.

Definition name_of (e : Entry) : bytes := ds_name (en_descriptor e).
(** Neighbours of the same name, together. *)
Fixpoint families (es : list Entry) : list (list Entry) :=
  match es with
  | [] => []
  | e :: es =>
      match families es with
      | (e' :: g) :: gs => if decide (name_of e = name_of e') then (e :: e' :: g) :: gs else [e] :: (e' :: g) :: gs
      | gs => [e] :: gs
      end
  end.
Definition family_name (g : list Entry) : bytes := match g with e :: _ => name_of e | [] => [] end.
Lemma families_concat es : concat (families es) = es.
Proof. induction es as [|e es IH]; [done|]. cbn. destruct (families es) as [|[|e' g] gs]; cbn in *; [by rewrite <- IH|by rewrite IH|]. destruct (decide _); cbn; by rewrite <- IH. Qed.
Lemma families_same es : Forall (λ g, g ≠ [] ∧ Forall (λ e, name_of e = family_name g) g) (families es).
Proof.
  induction es as [|e es IH]; [constructor|]. cbn. assert (H1 : [e] ≠ [] ∧ Forall (λ e', name_of e' = family_name [e]) [e]) by (split; [done|by repeat constructor]). destruct (families es) as [|[|e' g] gs]; [by constructor|by constructor|]. inversion IH as [|? ? [G1 G2] G3]; subst.
  destruct (decide (name_of e = name_of e')) as [E|E]; [|by constructor]. constructor; [|done]. split; [done|]. cbn [family_name] in *. constructor; [done|]. eapply Forall_impl; [exact G2|]. intros x Hx. cbn in Hx. congruence.
Qed.
Lemma families_names es g : g ∈ families es → family_name g ∈ map name_of es.
Proof.
  intros Hg. pose proof (families_same es) as HS. rewrite Forall_forall in HS. destruct (HS g Hg) as [Hne _]. destruct g as [|e g]; [done|]. cbn. apply list_elem_of_fmap. exists e. split; [done|]. rewrite <- (families_concat es). apply list_elem_of_In, in_concat. exists (e :: g). split; [by apply list_elem_of_In|by left].
Qed.
Lemma families_first e es : ∃ g gs, families (e :: es) = (e :: g) :: gs.
Proof. cbn. destruct (families es) as [|[|e' g] gs]; [by eexists _, _|by eexists _, _|]. destruct (decide _); by eexists _, _. Qed.

Lemma families_distinct (m : MetricRegistry) : om_wf m → Forall keyed m → Forall (λ p, plain_name (name_of p.2)) m → NoDup (map family_name (families (map snd m))).
Proof.
  induction m as [|[k e] m IH]; intros Hw Hk Hp; [constructor|]. inversion Hk as [|? ? K1 K2]; subst. inversion Hp as [|? ? P1 P2]; subst. destruct Hw as [HB HW]. specialize (IH HW K2 P2). destruct m as [|[k' e'] m]; [cbn; constructor; [apply not_elem_of_nil|constructor]|].
  destruct (families_first e' (map snd m)) as (g & gs & E). change (map snd ((k', e') :: m)) with (e' :: map snd m) in *. cbn [map snd] in *. change (families (e :: e' :: map snd m)) with (match families (e' :: map snd m) with (e'' :: g) :: gs => if decide (name_of e = name_of e'') then (e :: e'' :: g) :: gs else [e] :: (e'' :: g) :: gs | gs => [e] :: gs end).
  pose proof (families_names (e' :: map snd m)) as HN. rewrite E in IH, HN |- *. destruct (decide (name_of e = name_of e')) as [EN|EN]; [cbn in *; by rewrite EN|]. cbn [map family_name] in *. constructor; [|done]. intros Hin. change (name_of e' :: map family_name gs) with (map family_name ((e' :: g) :: gs)) in Hin. apply list_elem_of_fmap in Hin as (g' & Hg' & Hin).
  apply HN in Hin. rewrite <- Hg' in Hin. change (name_of e' :: map name_of (map snd m)) with (map name_of (e' :: map snd m)) in Hin. cbn [map] in Hin. apply elem_of_cons in Hin as [Hin|Hin]; [done|]. rewrite map_map in Hin. apply list_elem_of_fmap in Hin as ([k3 e3] & H3 & Hin). cbn [snd] in H3.
  inversion HB as [|? ? B1 B2]; subst. destruct HW as [HB' _]. inversion K2 as [|? ? K3 K4]; subst. inversion P2 as [|? ? P3 P4]; subst. pose proof (proj1 (Forall_forall _ _) HB' _ Hin) as L3. pose proof (proj1 (Forall_forall _ _) K4 _ Hin) as [Ek3 _]. destruct K1 as [Ek1 _], K3 as [Ek2 _]. cbn in *.
  apply EN. symmetry. rewrite Ek1, Ek2 in B1. rewrite Ek2, Ek3 in L3. unfold name_of in *. rewrite <- H3 in L3. by eapply family_between.
Qed.

Section Text.
Context (GetSnapshot : Histogram → HistogramSnapshot).
(** A family's header, then its metrics. *)
Definition block (g : list Entry) : bytes := match g with [] => [] | e :: _ => family_header (en_descriptor e) ++ concat (map (render_entry GetSnapshot) g) end.
Lemma render_families last m : render_prometheus GetSnapshot last m =
  match families (map snd m) with
  | [] => []
  | g :: gs => (if decide (family_name g = last) then concat (map (render_entry GetSnapshot) g) else block g) ++ concat (map block gs)
  end.
Proof.
  revert last. induction m as [|[k e] m IH]; intros last; [done|]. cbn [render_prometheus map snd]. rewrite IH. cbn [families]. pose proof (families_same (map snd m)) as HS. destruct (families (map snd m)) as [|[|e' g] gs].
  - cbn. unfold name_of. destruct (decide _); cbn; rewrite ?app_nil_r; done.
  - by inversion HS as [|? ? [? _]].
  - cbn [family_name]. change (ds_name (en_descriptor e)) with (name_of e). destruct (decide (name_of e = name_of e')) as [E|E].
    + rewrite (decide_True (P := name_of e' = name_of e)) by done. cbn [family_name block map concat]. destruct (decide _); by rewrite <- ?app_assoc.
    + rewrite (decide_False (P := name_of e' = name_of e)) by congruence. cbn [family_name block map concat]. destruct (decide _); by rewrite <- ?app_assoc, ?app_nil_r; cbn [app].
Qed.

(** The text form lists every registered metric once, in blocks: one block per family, with
    the family's header once at its front, and no family has two blocks. *)
Theorem prometheus_families m : registry_ok m → Forall (λ p, plain_name (name_of p.2)) m →
  ∃ gs, concat gs = map snd m ∧ Forall (λ g, g ≠ [] ∧ Forall (λ e, name_of e = family_name g) g) gs ∧ NoDup (map family_name gs) ∧ RenderPrometheus GetSnapshot m = concat (map block gs).
Proof.
  intros [H1 H2] Hp. assert (Hk : Forall keyed m) by (apply Forall_forall; intros [k e] Hin; apply H2; by apply om_find_elem). exists (families (map snd m)). split; [apply families_concat|]. split; [apply families_same|]. split; [by apply families_distinct|].
  unfold RenderPrometheus. rewrite render_families. destruct m as [|[k e] m]; [done|]. cbn [map snd]. destruct (families_first e (map snd m)) as (g & gs & ->). cbn [family_name]. inversion Hp as [|? ? [P1 _] _]; subst. by rewrite decide_False.
Qed.
End Text.

(** Two families of two metrics each; "m" comes before "m" with labels, and both before "ma". *)
Definition example_registry : MetricRegistry :=
  (GetGauge (str "ma") (str "h") [] (GetCounter (str "m") (str "h") [(str "t", str "b")] (GetCounter (str "ma") (str "h") [(str "t", [34])] (GetCounter (str "m") (str "h") [] []).2).2).2).2.
Lemma example_registry_ok : registry_ok example_registry.
Proof. repeat (apply get_metric_ok; [|by eexists]). by constructor. Qed.
Lemma prometheus_families_witness : ∃ gs : list (list Entry), concat gs = map snd example_registry ∧ map family_name gs = [str "m"; str "ma"].
Proof.
  destruct (prometheus_families (λ _, mkSnapshot 0 0 0 0 0 0 0 0 0 0) example_registry example_registry_ok) as (gs & H1 & _ & _ & _).
  - apply Forall_forall. intros p Hp. apply list_elem_of_In in Hp. cbn in Hp. destruct Hp as [<-|[<-|[<-|[<-|[]]]]]; (split; [done|]; cbn; repeat constructor).
  - exists (families (map snd example_registry)). split; [apply families_concat|by vm_compute].
Defined.
