(* ===== verification/Exporter.v ===== *)
(** * Exporter: the HTTP endpoint of the metrics

    Models the handling of one connection by src/metrics/exporter.cc: reading the request,
    choosing the answer, printing and sending it.  What the client does is a list: for each
    wait the bytes that arrive, or nothing when it times out or the connection fails; and the
    answers of the kernel to the sends, as in [Socket].  Listening and the loop over
    connections are left out. *)
From S2P Require Import Prelude Status Types Text OrdMap Histogram Socket Registry.

Record HttpResponse := mkHttpResponse { hr_status : Z; hr_content_type : bytes; hr_body : bytes }.
Definition StatusText (code : Z) : bytes :=
  if code =? 200 then str "OK" else if code =? 400 then str "Bad Request" else if code =? 404 then str "Not Found"
  else if code =? 405 then str "Method Not Allowed" else str "Internal Server Error".
Definition kMaxRequestBytes : Z := 8192.
Definition crlf : bytes := [13; 10].
Definition text_plain : bytes := str "text/plain; charset=utf-8".

(** [request.find("\r\n\r\n") != npos] *)
Fixpoint headers_end (text : bytes) : bool :=
  match text with
  | [] => false
  | _ :: rest => bool_decide (take 4 text = crlf ++ crlf) || headers_end rest
  end.
Fixpoint read_request (request : bytes) (incoming : list (option bytes)) : option bytes :=
  if headers_end request || (kMaxRequestBytes <=? zlen request) then Some request else
  match incoming with
  | Some data :: incoming => read_request (request ++ data) incoming
  | _ => None
  end.

Section Exporter.
Context (GetSnapshot : Histogram → HistogramSnapshot).
(** The handlers with what they answer. *)
Abbreviation Handlers := (list (bytes * HttpResponse)).

Definition AddHttpHandler (path : bytes) (answer : HttpResponse) (handlers : Handlers) : Handlers := om_emplace path answer handlers.
Definition Dispatch (registry : MetricRegistry) (handlers : Handlers) (path : bytes) : HttpResponse :=
  if decide (path = str "/metrics") then mkHttpResponse 200 (str "text/plain; version=0.0.4; charset=utf-8") (RenderPrometheus GetSnapshot registry)
  else if decide (path = str "/metrics.json") then mkHttpResponse 200 (str "application/json") (RenderJson GetSnapshot registry)
  else if decide (path = str "/health") then mkHttpResponse 200 text_plain (str "ok" ++ [10])
  else if decide (path = str "/-/healthy") then mkHttpResponse 200 text_plain (str "ok" ++ [10])
  else
    match om_find path handlers with
    | Some answer => answer
    | None =>
        let body := str "not found" ++ [10; 10] ++ str "available paths:" ++ [10] ++ str "  /metrics" ++ [10] ++ str "  /metrics.json" ++ [10] ++ str "  /health" ++ [10] in
        mkHttpResponse 404 text_plain (body ++ concat (map (λ h, str "  " ++ h.1 ++ [10]) handlers))
    end.
(** The answer to a request: the text up to the first space is the method, up to the second
    the target. *)
Definition respond (registry : MetricRegistry) (handlers : Handlers) (request : bytes) : HttpResponse :=
  let malformed := mkHttpResponse 400 text_plain (str "malformed request line" ++ [10]) in
  match cut_first 32 request with
  | None => malformed
  | Some (method, rest) =>
      match cut_first 32 rest with
      | None => malformed
      | Some (target, _) =>
          if negb (bool_decide (method = str "GET")) then mkHttpResponse 405 text_plain (str "only GET is supported" ++ [10])
          else Dispatch registry handlers (match cut_first 63 target with Some (path, _) => path | None => target end)
      end
  end.
Definition print_response (r : HttpResponse) : bytes :=
  str "HTTP/1.1 " ++ to_string (hr_status r) ++ str " " ++ StatusText (hr_status r) ++ crlf ++
  str "Content-Type: " ++ hr_content_type r ++ crlf ++ str "Content-Length: " ++ to_string (zlen (hr_body r)) ++ crlf ++
  str "Connection: close" ++ crlf ++ crlf ++ hr_body r.
(** The bytes the loop sends; [errno] is what the last failing call left in it. *)
Fixpoint send_all_of (errno : Errno) (out : bytes) (answers : list SendAnswer) : bytes :=
  match out, answers with
  | [], _ | _, [] => []
  | _, SendFails e :: answers => if bool_decide (e = EINTR) then send_all_of e out answers else []
  | _, Accepts n :: answers =>
      if n <=? 0 then if bool_decide (errno = EINTR) then send_all_of errno out answers else []
      else ztake n out ++ send_all_of errno (zdrop n out) answers
  end.
(** What is sent on the connection. *)
Definition HandleConnection (registry : MetricRegistry) (handlers : Handlers) (errno : Errno) (incoming : list (option bytes)) (answers : list SendAnswer) : bytes :=
  match read_request [] incoming with
  | None => []
  | Some request => send_all_of errno (print_response (respond registry handlers request)) answers
  end.

(** ** What a client gets *)

(** A request that ends where its headers end. *)
Definition whole_request (request : bytes) : Prop :=
  headers_end request = true ∧ zlen request ≤ kMaxRequestBytes ∧ ∀ p q, request = p ++ q → q ≠ [] → headers_end p = false.
Lemma read_whole request done chunks : whole_request request → Forall (λ c, c ≠ []) chunks → request = done ++ concat chunks → read_request done (map Some chunks) = Some request.
Proof.
  intros (H1 & H2 & H3) Hc. revert done. induction Hc as [|c chunks Hc Hcs IH]; intros done E; cbn [map read_request].
  - cbn in E. rewrite app_nil_r in E. subst done. by rewrite H1.
  - rewrite (H3 done (concat (c :: chunks)) E) by (cbn; by destruct c). cbn [orb]. destruct (Z.leb_spec kMaxRequestBytes (zlen done)) as [Hlen|].
    + exfalso. rewrite E, zlen_app in H2. cbn [concat] in H2. rewrite zlen_app in H2. pose proof (zlen_nonneg (concat chunks)). destruct c as [|x c]; [done|]. rewrite zlen_cons in H2. pose proof (zlen_nonneg c). lia.
    + apply IH. rewrite E. cbn [concat]. by rewrite app_assoc.
Qed.
Lemma cut_first_free d a : free_of d a → cut_first d a = None.
Proof. induction 1 as [|c a Hc Ha IH]; cbn; [done|]. destruct (Z.eqb_spec c d); [done|]. by rewrite IH. Qed.
Lemma send_prefix errno out answers : ∃ rest, out = send_all_of errno out answers ++ rest.
Proof.
  revert errno out. induction answers as [|[n|e] answers IH]; intros errno out; destruct out as [|c out]; try (by exists []); cbn [send_all_of]; try (by exists (c :: out)).
  - destruct (n <=? 0); [case_bool_decide; [apply IH|by exists (c :: out)]|]. destruct (IH errno (zdrop n (c :: out))) as [rest E]. exists rest. rewrite <- app_assoc, <- E. symmetry. apply ztake_zdrop.
  - case_bool_decide; [apply IH|by exists (c :: out)].
Qed.
(** Answers that let everything through, with interrupted calls in between. *)
Definition lets_through (answers : list SendAnswer) : Prop := Forall (λ a, match a with Accepts n => 0 < n | SendFails e => e = EINTR end) answers.
Definition accepted (answers : list SendAnswer) : nat := length (List.filter (λ a, match a with Accepts _ => true | SendFails _ => false end) answers).
Lemma send_full errno out answers : lets_through answers → (length out ≤ accepted answers)%nat → send_all_of errno out answers = out.
Proof.
  intros Ha. revert errno out. induction Ha as [|[n|e] answers Hn Ha IH]; intros errno out Hl; destruct out as [|c out]; try done; [by cbn in Hl; lia| |].
  - cbn [send_all_of]. destruct (Z.leb_spec n 0); [lia|]. rewrite IH; [apply ztake_zdrop|]. unfold zdrop. rewrite length_drop. unfold accepted in *. cbn in *. lia.
  - cbn [send_all_of]. rewrite bool_decide_eq_true_2 by done. by apply IH.
Qed.

(** A GET request is answered with what its path asks for, however its bytes arrive and
    whatever its query and headers are: what is sent is the printed answer, or a part of it
    from its front when the client goes away, and all of it when the kernel takes it. *)
Theorem http_get registry handlers path query tail chunks errno answers :
  free_of 32 path → free_of 63 path → free_of 32 query → (query = [] ∨ ∃ q, query = 63 :: q) →
  whole_request (str "GET" ++ 32 :: path ++ query ++ 32 :: tail) → Forall (λ c, c ≠ []) chunks → concat chunks = str "GET" ++ 32 :: path ++ query ++ 32 :: tail →
  let out := print_response (Dispatch registry handlers path) in
  let sent := HandleConnection registry handlers errno (map Some chunks) answers in
  (∃ rest, out = sent ++ rest) ∧ (lets_through answers → (length out ≤ accepted answers)%nat → sent = out).
Proof.
  intros H1 H2 H3 H4 Hw Hc E out sent. assert (ES : sent = send_all_of errno out answers).
  { unfold sent, HandleConnection. rewrite (read_whole _ [] chunks Hw Hc) by done. unfold respond. rewrite cut_first_app by (by repeat constructor). rewrite app_assoc, cut_first_app by (by apply Forall_app). rewrite bool_decide_eq_true_2 by done. cbn [negb]. unfold out. do 3 f_equal.
    destruct H4 as [->|[q ->]]; [by rewrite app_nil_r, cut_first_free|by rewrite cut_first_app]. }
  rewrite ES. split; [apply send_prefix|apply send_full].
Qed.
End Exporter.

(** A scrape in three pieces. *)
Definition scrape : bytes := str "GET" ++ 32 :: str "/health" ++ str "?x" ++ 32 :: str "HTTP/1.1" ++ crlf ++ crlf.
Fixpoint no_early_end (done rest : bytes) : bool := match rest with [] => true | c :: rest => negb (headers_end done) && no_early_end (done ++ [c]) rest end.
Lemma no_early_end_spec d r : no_early_end d r = true → ∀ p q, r = p ++ q → q ≠ [] → headers_end (d ++ p) = false.
Proof.
  revert d. induction r as [|c r IH]; intros d H p q E Hq; [by destruct p, q|]. cbn in H. apply andb_prop in H as [A B]. destruct p as [|c' p]; [rewrite app_nil_r; by apply negb_true_iff|]. injection E as <- E. specialize (IH _ B p q E Hq). by rewrite <- app_assoc in IH.
Qed.
Lemma scrape_whole : whole_request scrape.
Proof. split; [done|]. split; [done|]. exact (no_early_end_spec [] scrape eq_refl). Qed.
Lemma http_get_witness : ∀ sp, HandleConnection sp [] [] EAGAIN (map Some [take 3 scrape; take 9 (drop 3 scrape); drop 12 scrape]) (replicate 200 (Accepts 1)) = print_response (Dispatch sp [] [] (str "/health")).
Proof.
  intros sp. apply (http_get sp [] [] (str "/health") (str "?x") (str "HTTP/1.1" ++ crlf ++ crlf) [take 3 scrape; take 9 (drop 3 scrape); drop 12 scrape] EAGAIN (replicate 200 (Accepts 1))); try done; try (by repeat constructor).
  - right. by eexists.
  - exact scrape_whole.
Defined.
