(* ===== verification/BrokerLoops.v ===== *)
(** * BrokerLoops: what a broker does on its own, and its end

    Models the background loops of src/broker/broker.cc (flushing, maintenance, sampling the
    gauges) one pass at a time, and the shutdown as far as it touches state: joining threads
    is left out.  Between two passes requests may change the broker. *)
From S2P Require Import Prelude Status Types Text OrdMap FileUtil ClusterMetadata PartitionLog Replica ReplicaTheorems Replication BrokerConfig PartitionManager PartitionManagerTheorems OffsetStore GroupCoordinator Histogram Registry Broker BrokerTheorems.

(** What the file system answers to the sweeps of a pass, and the clock as retention reads it. *)
Record LoopEnv := mkLoopEnv { le_logs : TopicPartition → LogEnv; le_delete : TopicPartition → nat → bool * bool * bool; le_retention_now : Z; le_request : RequestEnv }.
(** The local variables of [MaintenanceLoop]. *)
Record Schedule := mkSchedule { sh_next_retention_ms : Z; sh_next_reconcile_ms : Z }.
Definition first_schedule : Schedule := mkSchedule 0 0.
Definition kReconcileIntervalMs : Z := 250.

Section Loops.
Context (config : BrokerConfig) (env : LoopEnv).

(** A pass of [FlusherLoop], and what it does when it ends. *)
Definition flusher_pass (now_ms : Z) (b : Broker) : Broker * list Completion :=
  let '(_, pm, done) := FlushDuePartitions (le_logs env) (re_nanos (le_request env)) now_ms (br_pm b) in (set_pm pm b, done).
Definition flusher_end (b : Broker) : Broker := set_pm (FlushAll (le_logs env) (br_pm b)).2 b.

Definition reconcile_due (now_ms : Z) (s : Schedule) (b : Broker) : bool := (1 <? zlen (md_brokers (br_md b))) && (sh_next_reconcile_ms s <=? now_ms).
(** A pass of [MaintenanceLoop]: the requests it fails, and the number it reports. *)
Definition maintenance_pass (now_ms : Z) (s : Schedule) (b : Broker) : Z * list Completion * Schedule * Broker :=
  let '(expired, pm, done) := PM_ExpireWaiters now_ms (br_pm b) in
  let b := set_pm pm b in
  let b := set_groups (ExpireSessions (Some (partition_lookup b)) now_ms (br_groups b)).2 b in
  let due := reconcile_due now_ms s b in
  let s := if due then mkSchedule (sh_next_retention_ms s) (now_ms + kReconcileIntervalMs) else s in
  let b := if due then (ReconcileMetadataFromController config (le_request env) b).2 else b in
  if sh_next_retention_ms s <=? now_ms then
    (expired, done, mkSchedule (now_ms + bc_retention_check_interval_ms config) (sh_next_reconcile_ms s), set_pm (PM_EnforceRetention (le_delete env) (le_retention_now env) (br_pm b)).2 b)
  else (expired, done, s, b).

(** A pass of [MetricsLoop]: the gauges, given what the process, the server and the workers
    report. *)
Record Sampled := mkSampled { sa_resident_bytes : Z; sa_cpu_percent : Z; sa_connections : Z; sa_queue_depths : list Z }.
Definition metrics_pass (x : Sampled) (b : Broker) (m : MetricRegistry) : MetricRegistry :=
  let stats := PM_GetStats (br_pm b) in
  let set := λ name value, Gauge_Set (i64 value) (Live (MakeKey name [])) in
  set (str "pulselog_request_queue_depth") (fold_left Z.add (sa_queue_depths x) 0)
    (set (str "pulselog_consumer_groups") (GroupCount (br_groups b))
    (set (str "pulselog_active_connections") (sa_connections x)
    (set (str "pulselog_replication_lag_max_records") (ag_max_lag stats)
    (set (str "pulselog_log_bytes") (ag_total_bytes stats)
    (set (str "pulselog_leader_partitions") (ag_leaders stats)
    (set (str "pulselog_hosted_partitions") (ag_partitions stats)
    (set (str "pulselog_cpu_percent") (sa_cpu_percent x)
    (set (str "pulselog_resident_memory_bytes") (sa_resident_bytes x) m)))))))).

(** [Stop], once every thread has been joined: errors are only logged.  The closed replicas
    are returned with the requests they fail. *)
Definition Broker_Stop (b : Broker) : list Node * list Completion * Broker :=
  let b := persist_quietly config (le_request env) b in
  let b := set_groups (Coordinator_Close (re_log (le_request env)) (Coordinator_Flush (re_log (le_request env)) (br_groups b)).2) b in
  let '(gone, pm, done) := PM_Close (le_logs env) (br_pm b) in
  (gone, done, set_pm pm b).

(** ** What a pass leaves *)

(** A partition after a pass that failed the requests overdue at [now]. *)
Definition passed (now : Z) (r r' : Node) : Prop := pr_waiters r' = List.filter (λ w, now <? dw_deadline_ms w) (pr_waiters r).
Lemma retention_kept now pm tp r : Find tp pm = Some r → ∃ r', Find tp (PM_EnforceRetention (le_delete env) now pm).2 = Some r' ∧ pr_waiters r' = pr_waiters r.
Proof.
  intros H. unfold PM_EnforceRetention. match goal with |- context [sweep ?f _] => set (action := f) end. pose proof (sweep_find action tp (pm_partitions pm)) as S. destruct (sweep action (pm_partitions pm)) as [[counts ps] out]. cbn [fst snd] in S |- *. unfold Find in *. cbn [with_hosted pm_partitions]. rewrite S, H. eexists. split; [done|].
  unfold action. by destruct (EnforceRetention _ _ _).
Qed.

(** A maintenance pass fails exactly the requests whose deadline has passed, on every
    partition and each once, with the count it reports, and leaves the others waiting; no
    partition disappears.  Afterwards the next reconciliation with the controller, in a
    cluster, and the next retention check lie in the future, and each of them is put off by
    exactly its interval when it is done. *)
Theorem maintenance_passes now s b : manager_ok (br_pm b) → 0 < bc_retention_check_interval_ms config →
  let '(expired, done, s', b') := maintenance_pass now s b in
  waiting (pm_partitions (br_pm b)) ≡ₚ concat (map (λ p, map dw_callback (List.filter (λ w, now <? dw_deadline_ms w) (pr_waiters p.2))) (pm_partitions (br_pm b))) ++ answered done ∧
  Forall (λ c, co_status c = kTimeout) done ∧ expired = zlen done ∧
  (∀ tp r, Find tp (br_pm b) = Some r → ∃ r', Find tp (br_pm b') = Some r' ∧ passed now r r') ∧
  (1 < zlen (md_brokers (br_md b)) → now < sh_next_reconcile_ms s') ∧ now < sh_next_retention_ms s' ∧
  (sh_next_reconcile_ms s' = sh_next_reconcile_ms s ∨ sh_next_reconcile_ms s ≤ now ∧ sh_next_reconcile_ms s' = now + kReconcileIntervalMs) ∧
  (sh_next_retention_ms s' = sh_next_retention_ms s ∨ sh_next_retention_ms s ≤ now ∧ sh_next_retention_ms s' = now + bc_retention_check_interval_ms config).
Proof.
  intros Hok Hi. unfold maintenance_pass. destruct (manager_ends (le_logs env) now (br_pm b) Hok) as [HE _].
  assert (HW : waiting (pm_partitions (PM_ExpireWaiters now (br_pm b)).1.2) = concat (map (λ p, map dw_callback (List.filter (λ w, now <? dw_deadline_ms w) (pr_waiters p.2))) (pm_partitions (br_pm b)))).
  { unfold PM_ExpireWaiters, sweep. cbn [fst snd with_hosted pm_partitions]. unfold waiting. by rewrite !map_map. }
  destruct (PM_ExpireWaiters now (br_pm b)) as [[expired pm] out]. cbn [fst snd] in HW. destruct HE as (_ & _ & E1 & E2 & E3 & E4). rewrite HW in E2. set (b1 := set_groups _ _).
  assert (HP : ∀ tp r, Find tp (br_pm b) = Some r → ∃ r', Find tp (br_pm b1) = Some r' ∧ passed now r r') by (intros tp r H; destruct (E4 tp r H) as (r' & H1 & _ & H2); by exists r').
  set (due := reconcile_due now s b1). set (s1 := if due then _ else s). set (b2 := if due then _ else b1).
  assert (HP2 : ∀ tp r, Find tp (br_pm b) = Some r → ∃ r', Find tp (br_pm b2) = Some r' ∧ passed now r r').
  { intros tp r H. destruct (HP tp r H) as (r' & H1 & H2). exists r'. split; [|done]. unfold b2. destruct due; [|done]. by apply (proj1 (Reconcile_calm config (le_request env) b1)). }
  assert (HR : (1 < zlen (md_brokers (br_md b)) → now < sh_next_reconcile_ms s1) ∧ (sh_next_reconcile_ms s1 = sh_next_reconcile_ms s ∨ sh_next_reconcile_ms s ≤ now ∧ sh_next_reconcile_ms s1 = now + kReconcileIntervalMs) ∧ sh_next_retention_ms s1 = sh_next_retention_ms s).
  { unfold s1, due, reconcile_due. change (br_md b1) with (br_md b). unfold kReconcileIntervalMs. destruct (Z.ltb_spec 1 (zlen (md_brokers (br_md b)))); cbn [andb]; [|split; [lia|]; by split; [left|]]. destruct (Z.leb_spec (sh_next_reconcile_ms s) now); cbn; [split; [lia|]; by split; [right|]|split; [lia|]; by split; [left|]]. }
  destruct HR as (R1 & R2 & R3). rewrite <- R3 in *. destruct (Z.leb_spec (sh_next_retention_ms s1) now); cbn [sh_next_retention_ms sh_next_reconcile_ms]; split_and!; try done; try lia; try (by left).
  - intros tp r H1. destruct (HP2 tp r H1) as (r' & H2 & H3). destruct (retention_kept (le_retention_now env) (br_pm b2) tp r' H2) as (r2 & H4 & H5). exists r2. split; [done|]. unfold passed in *. by rewrite H5.
Qed.

(** When the broker has stopped, every request that was still waiting has been failed, the
    metadata has been written, every log has been flushed and closed, and no partition can be
    opened any more. *)
Theorem broker_stops b : manager_ok (br_pm b) → pm_closed (br_pm b) = false →
  let '(gone, done, b') := Broker_Stop b in
  answered done = waiting (pm_partitions (br_pm b)) ∧ Forall (λ c, co_status c = kUnavailable) done ∧
  map pr_log gone = map (λ p, (Log_Close (Flush (le_logs env p.1) (pr_log p.2)).2).2) (pm_partitions (br_pm b)) ∧
  br_files b' = (SaveTo (re_save (le_request env)) (metadata_path config) (br_md b) (br_files b)).2 ∧
  ∀ config' disk tp tc a r, (OpenPartition config' disk tp tc a (br_pm b')).1 ≠ Ok r.
Proof.
  intros Hok Hc. unfold Broker_Stop, persist_quietly, PersistMetadata. destruct (SaveTo _ _ _ _) as [res files]. cbn [snd]. change (br_pm (set_groups _ (set_files files b))) with (br_pm b). destruct (manager_ends (le_logs env) 0 (br_pm b) Hok) as [_ HE]. specialize (HE Hc). destruct (PM_Close (le_logs env) (br_pm b)) as [[gone pm] out]. destruct HE as (E1 & E2 & E3 & E4 & _ & E6). by split_and!.
Qed.
End Loops.
